(* ===== verification/_CoqProject ===== *)
-Q . S2P
Prelude.v
Text.v
Utf8.v
Utf8Bytes.v
ToolPolicy.v
Json.v
Messages.v
ToolBatches.v
MessageQueue.v
ToolResults.v
EditText.v
Truncation.v
HashlineEdit.v
ReadTool.v
LineOutput.v
FileSystem.v
Rewind.v
RewindHistory.v
RewindScope.v
PartialJson.v
AgentEnv.v
AgentTools.v
AgentSafety.v
AgentStream.v
AgentLoop.v
AgentGuard.v
AgentTranscript.v
AgentRun.v
AgentTermination.v
SessionEntries.v
SessionAutosave.v
SessionGraph.v
SessionTree.v
SessionPaths.v
SessionFile.v
SessionDisk.v
SessionSave.v
SessionTrails.v
Compaction.v
CompactionRuns.v
ExecMediation.v
Dates.v
Permissions.v
CapabilityPolicy.v
CapabilityPrompts.v
ExtensionQuota.v
HostcallProtocol.v
SessionHostcalls.v
HostcallDispatch.v
Superinstructions.v
TraceJit.v
Marshalling.v
Amac.v
IoUringLane.v
GhostQueue.v
S3Fifo.v
Bravo.v
HostcallQueue.v
Scheduler.v
ReactorMesh.v
NumaSlab.v
Sse.v
SseStream.v
