(* ===== verification/Prelude.v ===== *)
(** * KOOMPI KESA: verification of the agent, its policies and its scheduling core

    KESA is a terminal coding agent.  A language model proposes tool calls;
    the agent decides whether each may run, runs it, and streams the model's
    answers back; the conversation is a session, which is compacted when it
    outgrows the model's window.  Extensions run in an embedded JavaScript
    engine and reach the host through "hostcalls", which are queued, checked
    and dispatched.  This library models the parts of the Rust crate (under
    [src/src/], written [src/] below) whose correctness is logic rather than
    I/O, as executable functions, and proves what each part promises.

    ** Parts of the program and the files that model them

    Shared
    - [Prelude.v] (this file): machine integers as [Z] with saturation and
      wrap-around written out, a result type for fallible code, the fuelled
      [while] loop and its rules, list lemmas, and the automation ([int_lia],
      [len_lia], the hint database [kesa]).
    - [Text.v], [Utf8.v], [Utf8Bytes.v]: the [str] and [char] operations of the Rust standard
      library that the code calls; strings are lists of characters, and byte
      offsets are computed from UTF-8 widths.
    - [Json.v], [Messages.v]: [serde_json::Value] with insertion order, and the
      messages, events and tool outputs of [src/model.rs] and [src/agent.rs].

    The agent ([src/agent.rs])
    - [ToolPolicy.v]: the permission policy every tool call passes
      ([src/tool_policy.rs]: [normalize_command], [glob_match], [Pattern],
      [Rule], [ToolPolicy::decide] as [decide_call], [mode_default],
      [allow_for_session]; [ToolEffects] and the [exit_plan_mode] gate of
      [src/tools.rs]; [session_rule_for] of [src/interactive/state.rs]).
    - [ToolBatches.v]: how the calls of one answer are grouped into batches
      that may run concurrently, and the limits of a run.
    - [MessageQueue.v]: steering and follow-up messages.
    - [ToolResults.v]: the byte budget of tool results and the doom-loop guard.
    - [PartialJson.v]: closing the prefix of a streamed JSON text
      ([src/providers/openai.rs]).
    - [EditText.v]: how the edit tool finds and replaces text
      ([EditTool::execute] of [src/tools.rs] between reading and writing).
    - [Truncation.v]: cutting tool output to lines and bytes.
    - [HashlineEdit.v]: edits that name lines by number and hash.
    - [ReadTool.v]: reading a text file, from the chunks read to the text shown.
    - [LineOutput.v]: file names and messages as one line of text.
    - [FileSystem.v]: paths, a tree with symbolic links, and where a path leads
      ([safe_canonicalize], [enforce_cwd_scope]).
    - [Rewind.v]: the store of pre-images that takes back the file changes of
      turns ([src/rewind.rs]); [RewindHistory.v]: it is a history of the tree;
      [RewindScope.v]: the trust boundary of a restore.
    - [AgentEnv.v]: the agent's state and its environment.  Everything outside
      (providers, tools, hooks, extensions, the user, the abort signal) is an
      operation [Op] with a response, answered by an arbitrary [Env]; the
      agent is a state monad with a log of every operation and its response.
    - [AgentTools.v]: one tool call ([execute_tool], a [Prog] so that the calls
      of a batch can be interleaved by a schedule), and all calls of an answer
      ([execute_tool_calls]).
    - [AgentStream.v]: [stream_assistant_response].
    - [AgentLoop.v]: [run_loop], turn by turn, with its error, abort, pause and
      iteration-cap exits.
    - [AgentSafety.v], [AgentGuard.v] (mediation of every tool run),
      [AgentTranscript.v], [AgentRun.v] (events and history),
      [AgentTermination.v] (runs end): the proofs about the loop.
    - [SessionEntries.v]: the entries of a session's path and the context a
      provider gets from them ([src/session.rs]).
    - [SessionAutosave.v]: the queue of unsaved changes.
    - [SessionGraph.v]: the graph of parent links that a stored session must
      form, the order it is written in, and the merge of memory and file.
    - [SessionTree.v]: the session itself: entries, leaf, caches; appends,
      navigation, reverts, loading, saving and forking.  [SessionPaths.v]:
      its invariant under every sequence of operations and what they do to the
      current path.
    - [SessionFile.v]: the session's file, JSON lines as bytes: reading with
      bounded lines, batches and worker threads, rewriting, appending, and the
      choice between them.  [SessionDisk.v]: what can be read back, also after
      a crash.  [SessionSave.v]: saving as a whole, rows without identifiers,
      and the concrete session of the witnesses.  [SessionTrails.v]: the
      current path of any session, also one opened from a file with missing or
      cyclic parents, forked or merged.
    - [Compaction.v]: context compaction ([src/compaction.rs]);
      [CompactionRuns.v]: compaction of what agent runs wrote.

    Extensions ([src/extensions.rs], [src/extensions/])
    - [CapabilityPolicy.v]: which capabilities an extension may use.
    - [Dates.v], [Permissions.v]: the store of the user's decisions
      ([src/permissions.rs]), a file shared by several processes.
    - [CapabilityPrompts.v]: the prompt, the cache of decisions and their
      version ranges.
    - [ExtensionQuota.v]: how often an extension may call the host.
    - [ExecMediation.v]: the check on commands spawned by extensions and the
      redaction of secret variables.
    - [HostcallProtocol.v]: validation of a call, typed opcodes, lanes,
      outcomes.
    - [SessionHostcalls.v]: the two lanes of the session calls, and the cached
      context of extension events.
    - [HostcallDispatch.v]: [dispatch_host_call_shared], which composes all of
      these; what it does is an ordered list of effects.
    - [Superinstructions.v] ([src/hostcall_superinstructions.rs]): plans for
      recurring opcode windows.  [TraceJit.v] ([src/hostcall_trace_jit.rs]):
      guarded stubs of hot plans.  [Marshalling.v]: the hashes of a call's
      parameters, the rewrite engine ([src/hostcall_rewrite.rs]) and the
      report on superinstructions.
    - [Amac.v] ([src/hostcall_amac.rs]): batches of drained calls and the loop
      that dispatches them.  [IoUringLane.v]: the choice of a lane
      ([src/hostcall_io_uring_lane.rs]).

    Queues, event loop and streams
    - [GhostQueue.v]: the generation-ordered maps of recently evicted keys
      that [src/hostcall_s3_fifo.rs] and [src/hostcall_queue.rs] both keep.
    - [S3Fifo.v]: the S3-FIFO admission policy ([src/hostcall_s3_fifo.rs]).
    - [Bravo.v]: the reader/writer bias state machine ([BravoContentionState]
      of [src/hostcall_queue.rs]).
    - [HostcallQueue.v]: the request queue between extensions and dispatcher
      ([HostcallRequestQueue]): a bounded ring, a bounded overflow deque with
      per-tenant admission, and epoch-based reclamation.
    - [Scheduler.v]: the deterministic event loop ([src/scheduler.rs]).
    - [ReactorMesh.v]: sharded queues with a global order, and the placement
      of shards on cores.
    - [NumaSlab.v]: slabs with generation-checked handles and their pool.
    - [Sse.v]: the parser of the provider's event stream ([src/sse.rs]);
      [SseStream.v]: the stream of events from chunks of bytes.

    ** How the code is translated

    A method that mutates [self] is a function that returns the new record.
    Its early returns and guards are branches in the order of the source; log
    lines are dropped.  [BTreeMap], [HashMap] and [HashSet] are [gmap] and
    [gset], [Vec] and [VecDeque] are lists, [BinaryHeap] is the list of its
    elements in popping order.  Traits are type classes: [Clock],
    [QueueTenant].  Code outside the repository is a parameter: the ring of
    crossbeam is the class [ArrayQueue], with its documented FIFO behaviour
    as [ArrayQueueLaws] and the instance [Ring] that shows the laws can hold;
    [serde_json]'s reader and writer, SHA-256, [semver] and [chrono] are arguments;
    [char::is_alphanumeric] is an argument.

    Reachable states are those related to the initial one by [rtc] of a step
    relation that has every public operation of the component
    ([policy_step], [queue_step], [sched_step], [mesh_step], [pool_step]).
    For the queue, releasing an epoch pin is a step of its own, since another
    thread may do it at any time.  The agent's calls of one batch interleave
    by an arbitrary schedule; the theorems hold for all of them.  The
    permission file is a disk that other processes may write between any two
    operations, and each of its system calls may fail.

    The environment of the agent is arbitrary, with three laws where a
    theorem needs them: an abort signal stays set, the inputs a world can
    deliver are finite (for termination only), and a provider's stream is a
    finite list.  Timestamps, latencies and prices are left out: nothing
    modelled depends on them.

    ** What the theorems show

    - Agent: every tool run was cleared, in order, by the doom-loop guard,
      the policy in force, the user where the policy asks, and the hooks; a
      denied call never runs; every call of an answer gets exactly one result
      in order; the history grows by exactly the messages reported; events
      follow a protocol; streaming adds one message however it ends; runs end.
    - Tools: an edit replaces the one match of the old text and nothing else;
      truncation keeps exactly what fits and reports it truthfully, and so does
      the writer that gets its lines one by one; edits by line tags apply all
      at once to the lines their tags name; names in results are unambiguous;
      reading shows the page asked for, when it is under the limit, however the
      file is cut into reads.
    - Rewind: restoring a turn gives every file back as it was when the turn
      began, but for those that commands changed since; a tampered manifest cannot reach outside
      a workspace without links; retention keeps the newest turns that fit.
    - Sessions: the current path is the trail of parent links however the
      session came about; saving keeps and reopening restores the branch;
      reverts and forks are exact; a rewrite or an append of the file loses no
      entry of any process, and a crash in an append none at all; reading with
      threads is reading line by line; the graph validation and the order are exact; the autosave
      queue forgets no change.
    - Compaction: every message since the last compaction is summarised or
      kept, and the next context is the summary and exactly what was kept;
      a kept tool result of an agent run keeps its call; the cut keeps enough and no more.
      Two theorems record what a second compaction loses.
    - Permissions of tools: deny rules win over everything, nothing runs
      uncleared; the glob matcher decides the inductive language [Glob].
      Further theorems record where rules match less or more than their
      documentation says.
    - Permissions of extensions: the precedence of the policy's layers and its
      table; allowing needs consent, answers are remembered, revoked ones are
      asked again; no process loses another's decision; quotas decide as a
      complete log would and their limits hold.
    - Hostcalls: accepted calls declare the capability they need; a connector
      runs only after every check; the lanes agree; the event context is
      current on the compat lane; secrets are redacted; opcodes and outcomes
      round-trip; a command is denied exactly when a pattern or a class says
      so.
    - Hostcall optimisers: windows are counted exactly and plans are the ones
      worth having; fusing a trace loses nothing; a stub lives and dies by its
      guards; the fast path returns the canonical hashes, which are those of
      the canonical text whatever the order of members; a batch is served
      once per request, with only logs moved to the end of their run; telemetry explains the lane.
      One theorem records that the JIT tier never fires.
    - Queues: the ghost maps refine a bounded recency list; the S3-FIFO policy
      keeps its invariant; the two lanes of the hostcall queue are one FIFO
      within bounds.
    - Event loop: a tick fires exactly the due timers in order, macrotasks run
      in one total order; the mesh refines one FIFO; a freed slab handle stays
      dead.
    - Event stream: while no line reaches the parser's limit, the events do not
      depend on how the bytes are cut, and bytes that are not UTF-8 end the
      stream with one error.

    ** Bounds and fuel

    Loops of the source that are not structural take fuel, and each has a
    lemma that the fuel chosen is enough: the normaliser's loop its input's
    length (each turn consumes a character), the [while] loops of [Prelude]
    the length of the list or the size of the map they shrink, [drain_all]
    one turn more than the queue's length, [allocate_timer_id] one turn more
    than there are timers in the heap (by a pigeonhole argument), the line
    loop of the parser the length of its source, the agent loop the bound
    [run_bound] computed from the iteration cap, the pause cap and the number
    of messages the world delivers.  Hypotheses of the form [seq s < u64_max]
    exclude a saturated 64-bit sequence counter, where the code stops telling
    entries apart.

    ** Not modelled, and what comes next

    The providers' HTTP clients, session storage, the file, shell and web
    tools themselves, the JavaScript and WASM engines, the terminal interface,
    the RPC front ends, authentication and packages are not modelled: they are
    I/O, asynchronous glue or generated tables.  Left out of the modelled
    files are JSON renderings for logs, audit digests, the risk scorer and
    budget controller (floating-point statistics; their verdict is an input
    of the dispatcher), the events hostcalls and the reports on the semantic
    quality of summaries.
    Planned next, in this order: the segment format of [src/session_store_v2.rs],
    [src/todo.rs], [src/model_routing.rs] and [src/resource_governor.rs]. *)

From Stdlib Require Export ZArith Lia Bool.
From stdpp Require Export ssreflect base numbers list sorting gmap sets strings relations.

#[global] Open Scope Z_scope.

(** ** Machine integers

    Every Rust integer is a [Z]; the operations that differ from the ideal
    ones at the end of the range are written out.  [usize] is the 64-bit one
    of the supported targets. *)

Definition u8_max : Z := 255.
Definition u32_max : Z := 4294967295.
Definition u64_max : Z := 18446744073709551615.
Definition usize_max : Z := u64_max.

(** [saturating_add], [saturating_mul] at a width whose maximum is [mx], and
    the unsigned [saturating_sub]. *)
Definition sat_add (mx a b : Z) : Z := Z.min mx (a + b).
Definition sat_mul (mx a b : Z) : Z := Z.min mx (a * b).
Definition sat_sub (a b : Z) : Z := Z.max 0 (a - b).

(** [wrapping_add] and [wrapping_mul] at 64 bits. *)
Definition wrapping_add (a b : Z) : Z := (a + b) mod (u64_max + 1).
Definition wrapping_mul (a b : Z) : Z := (a * b) mod (u64_max + 1).

(** [checked_mul] at 64 bits. *)
Definition checked_mul (a b : Z) : option Z :=
  if a * b <=? u64_max then Some (a * b) else None.

(** [clamp lo hi]; the source only calls it with [lo <= hi]. *)
Definition clamp (x lo hi : Z) : Z := Z.max lo (Z.min x hi).

Definition in_u64 (x : Z) : Prop := 0 ≤ x ≤ u64_max.

(** The length of a [Vec] or [VecDeque] as a [usize]. *)
Definition len {A} (l : list A) : Z := Z.of_nat (length l).

Ltac unfold_ints :=
  unfold sat_add, sat_mul, sat_sub, clamp, in_u64, usize_max, u64_max, u32_max,
    u8_max, len in *.

(** Closes arithmetic goals about machine integers and lengths. *)
Ltac int_lia := unfold_ints; simpl in *; lia.

(** ** Automation database of the development *)

Create HintDb kesa discriminated.
#[export] Hint Constants Opaque : kesa.
#[export] Hint Variables Opaque : kesa.

(** Splits hypotheses and branches on the booleans, matches and decisions of
    a computed definition. *)
Ltac split_ands :=
  repeat match goal with
  | H : _ ∧ _ |- _ => destruct H
  | |- _ ∧ _ => split
  end.

Ltac bool_to_prop :=
  repeat match goal with
  | H : (_ && _) = true |- _ => apply andb_true_iff in H; destruct H
  | H : (_ || _) = false |- _ => apply orb_false_iff in H; destruct H
  | H : negb _ = true |- _ => apply negb_true_iff in H
  | H : negb _ = false |- _ => apply negb_false_iff in H
  | H : (_ <=? _) = true |- _ => apply Z.leb_le in H
  | H : (_ <=? _) = false |- _ => apply Z.leb_gt in H
  | H : (_ <? _) = true |- _ => apply Z.ltb_lt in H
  | H : (_ <? _) = false |- _ => apply Z.ltb_ge in H
  | H : (_ =? _) = true |- _ => apply Z.eqb_eq in H
  | H : (_ =? _) = false |- _ => apply Z.eqb_neq in H
  | H : bool_decide _ = true |- _ => apply bool_decide_eq_true_1 in H
  | H : bool_decide _ = false |- _ => apply bool_decide_eq_false_1 in H
  end.

Lemma sat_add_in_u64 a b : in_u64 a → in_u64 b → in_u64 (sat_add u64_max a b).
Proof. int_lia. Qed.

Lemma sat_add_exact a b : a + b ≤ u64_max → sat_add u64_max a b = a + b.
Proof. int_lia. Qed.

Lemma wrapping_mul_in_u64 a b : in_u64 (wrapping_mul a b).
Proof.
  unfold wrapping_mul, in_u64.
  pose proof (Z.mod_pos_bound (a * b) (u64_max + 1)). unfold u64_max in *. lia.
Qed.

#[export] Hint Resolve sat_add_in_u64 wrapping_mul_in_u64 : kesa.

(** ** Results

    Rust's [Result], with [let?] for the [?] operator. *)
Inductive result (A E : Type) : Type :=
| Ok (a : A)
| Err (e : E).
Arguments Ok {_ _} _.
Arguments Err {_ _} _.

Definition result_bind {A B E} (r : result A E) (k : A → result B E) : result B E :=
  match r with Ok a => k a | Err e => Err e end.

Declare Scope kesa_scope.
Delimit Scope kesa_scope with kesa.
Notation "'let?' x ':=' r 'in' k" := (result_bind r (λ x, k))
  (at level 10, x name, r at level 100, k at level 200) : kesa_scope.
#[global] Open Scope kesa_scope.

(** [iter().map(f).collect::<Result<Vec<_>, _>>()]: stops at the first error. *)
Fixpoint collect_results {A B E} (f : A → result B E) (l : list A) : result (list B) E :=
  match l with
  | [] => Ok []
  | x :: l' => let? y := f x in let? ys := collect_results f l' in Ok (y :: ys)
  end.

Lemma collect_results_spec {A B E} (f : A → result B E) (l : list A) :
  match collect_results f l with
  | Ok ys => Forall2 (λ x y, f x = Ok y) l ys
  | Err e => ∃ x, x ∈ l ∧ f x = Err e
  end.
Proof.
  induction l as [|x l IH]; simpl; [constructor|].
  destruct (f x) as [y|e] eqn:Ex; simpl; [|exists x; split; [left|done]].
  destruct (collect_results f l) as [ys|e]; simpl; [by constructor|].
  destruct IH as (z & Hz & Ez). exists z. split; [by right|done].
Qed.

(** ** Lengths *)

Lemma len_nil {A} : len (@nil A) = 0.
Proof. done. Qed.
Lemma len_cons {A} (x : A) l : len (x :: l) = len l + 1.
Proof. int_lia. Qed.
Lemma len_app {A} (l k : list A) : len (l ++ k) = len l + len k.
Proof. unfold len. rw length_app. lia. Qed.
Lemma len_nonneg {A} (l : list A) : 0 ≤ len l.
Proof. unfold len. lia. Qed.

Create Rewrite HintDb kesa_len.
#[export] Hint Rewrite @len_nil @len_cons @len_app : kesa_len.

(** Evaluates lengths of appended lists, then closes the arithmetic goal. *)
Ltac len_lia := autorewrite with kesa_len in *; unfold_ints; simpl in *; lia.

(** ** Bounded [while] loops

    A Rust [while c { b }] is [while_fuel n c b]: the fuel [n] is computed
    from the state where the loop is used, and [while_fuel_exit] shows that a
    measure that decreases at every turn and is covered by the fuel gives the
    state in which the loop's condition is false, so the fuel never cuts the
    loop short. *)
Section While.
Context {A : Type} (c : A → bool) (b : A → A).

Fixpoint while_fuel (fuel : nat) (s : A) : A :=
  match fuel with
  | O => s
  | S fuel' => if c s then while_fuel fuel' (b s) else s
  end.

Lemma while_fuel_inv (P : A → Prop) fuel s :
  P s → (∀ s, P s → c s = true → P (b s)) → P (while_fuel fuel s).
Proof.
  intros HP Hb. revert s HP. induction fuel as [|n IH]; intros s HP; simpl; [done|].
  destruct (c s) eqn:E; auto.
Qed.

Lemma while_fuel_exit (P : A → Prop) (m : A → nat) fuel s :
  P s →
  (∀ s, P s → c s = true → P (b s) ∧ (m (b s) < m s)%nat) →
  (m s ≤ fuel)%nat → c (while_fuel fuel s) = false.
Proof.
  intros HP Hb. revert s HP. induction fuel as [|n IH]; intros s HP Hm; simpl.
  - destruct (c s) eqn:E; [|done]. destruct (Hb s HP E). lia.
  - destruct (c s) eqn:E; [|done]. destruct (Hb s HP E). apply IH; [done|lia].
Qed.

Lemma while_fuel_skip fuel s : c s = false → while_fuel fuel s = s.
Proof. intros E. destruct fuel; simpl; [done|]. by rw E. Qed.

Lemma while_fuel_S fuel s : c s = true → while_fuel (S fuel) s = while_fuel fuel (b s).
Proof. intros E. simpl. by rw E. Qed.
End While.

(** ** Reachable states

    Runs of a component are sequences of its operations; a property of every
    reachable state is proved once from its preservation. *)
Lemma rtc_preserves {A} (R : relation A) (P : A → Prop) :
  (∀ x y, P x → R x y → P y) → ∀ x y, rtc R x y → P x → P y.
Proof. intros HP x y H. induction H; eauto. Qed.

(** ** Lists *)

(** [position] of the first equal element followed by [remove]. *)
Fixpoint remove_first {A} `{EqDecision A} (x : A) (l : list A) : list A :=
  match l with
  | [] => []
  | y :: l' => if decide (y = x) then l' else y :: remove_first x l'
  end.

Section RemoveFirst.
Context {A : Type} `{EqDecision A}.
Implicit Types (x y : A) (l : list A).

Lemma remove_first_perm x l : x ∈ l → Permutation l (x :: remove_first x l).
Proof.
  induction l as [|y l IH]; intros H; [by apply not_elem_of_nil in H|]. simpl.
  case_decide as E; [by subst|].
  rw {1}IH; [constructor|]. by apply elem_of_cons in H as [->|].
Qed.

Lemma remove_first_notin x l : x ∉ l → remove_first x l = l.
Proof.
  induction l as [|y l IH]; intros H; simpl; [done|].
  apply not_elem_of_cons in H as [H1 H2].
  case_decide; [congruence|]. by rw IH.
Qed.

Lemma elem_of_remove_first x y l :
  NoDup l → y ∈ remove_first x l ↔ y ∈ l ∧ y ≠ x.
Proof.
  intros ND. destruct (decide (x ∈ l)) as [Hin|Hin].
  - pose proof (remove_first_perm x l Hin) as HP.
    rw HP in ND. apply NoDup_cons in ND as [Hx _].
    rw {2}HP elem_of_cons. naive_solver.
  - rw remove_first_notin //. naive_solver.
Qed.

Lemma NoDup_remove_first x l : NoDup l → NoDup (remove_first x l).
Proof.
  intros ND. destruct (decide (x ∈ l)) as [Hin|Hin].
  - rw (remove_first_perm x l Hin) in ND. by apply NoDup_cons in ND as [_ ?].
  - by rw remove_first_notin.
Qed.

Lemma len_remove_first x l : x ∈ l → len (remove_first x l) = len l - 1.
Proof.
  intros H. unfold len. rw {2}(remove_first_perm x l H). simpl. lia.
Qed.
End RemoveFirst.

#[export] Hint Resolve NoDup_remove_first : kesa.

(** Sublists of sorted lists. *)
Lemma StronglySorted_filter {A} (R : relation A) (P : A → Prop) `{∀ x, Decision (P x)} l :
  StronglySorted R l → StronglySorted R (filter P l).
Proof.
  induction 1 as [|x l Hl IH Hall]; [constructor|].
  rw filter_cons. case_decide; [|done]. constructor; [done|].
  rw !Forall_forall in Hall |- *. intros y [_ Hy]%list_elem_of_filter. auto.
Qed.

Lemma StronglySorted_irrefl_NoDup {A} (R : relation A) l :
  (∀ x, ¬ R x x) → StronglySorted R l → NoDup l.
Proof.
  intros HR. induction 1 as [|x l Hl IH Hall]; constructor; [|done].
  intros Hin. rw Forall_forall in Hall. exact (HR x (Hall x Hin)).
Qed.

Lemma NoDup_fmap_filter {A B} (f : A → B) (P : A → Prop) `{∀ x, Decision (P x)} l :
  NoDup (f <$> l) → NoDup (f <$> filter P l).
Proof.
  intros Hn. eapply sublist_NoDup; [exact Hn|].
  clear Hn. induction l as [|x l IH]; [done|]. rw filter_cons. simpl.
  case_decide; simpl; by constructor.
Qed.

Lemma filter_all {A} (P : A → Prop) `{∀ x, Decision (P x)} l : Forall P l → filter P l = l.
Proof. induction 1 as [|x l Hx Hl IH]; [done|]. by rw filter_cons_True // IH. Qed.

Lemma filter_none {A} (P : A → Prop) `{∀ x, Decision (P x)} (l : list A) :
  (∀ x, x ∈ l → ¬ P x) → filter P l = [].
Proof.
  induction l as [|x l IH]; intros Hl; [done|]. rw filter_cons_False; [|apply Hl; by left].
  apply IH. intros y Hy. apply Hl. by right.
Qed.

(** A filter depends only on the decisions about the elements. *)
Lemma filter_ext_in {A} (P Q : A → Prop) `{∀ x, Decision (P x)} `{∀ x, Decision (Q x)} (l : list A) :
  (∀ x, x ∈ l → P x ↔ Q x) → filter P l = filter Q l.
Proof.
  induction l as [|x l IH]; intros Hl; [done|]. rw !filter_cons.
  assert (P x ↔ Q x) as Hx by (apply Hl; by left).
  rw (IH (λ y Hy, Hl y (proj2 (elem_of_cons l y x) (or_intror Hy)))).
  repeat case_decide; tauto.
Qed.

(** Elements with distinct images are determined by them. *)
Lemma NoDup_fmap_eq {A B} (f : A → B) (l : list A) x y :
  NoDup (f <$> l) → x ∈ l → y ∈ l → f x = f y → x = y.
Proof.
  induction l as [|z l IH]; intros Hn Hx Hy Heq; [by apply not_elem_of_nil in Hx|].
  rw fmap_cons in Hn. apply NoDup_cons in Hn as [Hz Hn].
  apply elem_of_cons in Hx as [->|Hx], Hy as [->|Hy]; [done|..|by apply IH];
    exfalso; apply Hz, list_elem_of_fmap; eauto.
Qed.

Lemma StronglySorted_weaken {A} (R S : relation A) (l : list A) :
  (∀ x y, R x y → S x y) → StronglySorted R l → StronglySorted S l.
Proof.
  intros HRS. induction 1 as [|x l _ IH Hall]; constructor; [done|].
  eapply Forall_impl; [exact Hall|apply HRS].
Qed.

(** ** Sublists *)

Lemma Forall_sublist {A} (P : A → Prop) (l k : list A) :
  l `sublist_of` k → Forall P k → Forall P l.
Proof.
  induction 1 as [|x l k _ IH|x l k _ IH]; [done|..]; intros [? ?]%Forall_cons; auto.
Qed.

Lemma StronglySorted_sublist {A} (R : relation A) (l k : list A) :
  l `sublist_of` k → StronglySorted R k → StronglySorted R l.
Proof.
  induction 1 as [|x l k Hs IH|x l k _ IH]; [done|..]; intros [? Hall]%StronglySorted_inv; [|auto].
  constructor; [auto|]. by eapply Forall_sublist.
Qed.

Lemma filter_sublist_le {A} (P : A → Prop) `{∀ x, Decision (P x)} (l k : list A) :
  l `sublist_of` k → len (filter P l) ≤ len (filter P k).
Proof.
  induction 1 as [|x l k _ IH|x l k _ IH]; rw ?filter_cons; [lia|..]; case_decide; len_lia.
Qed.
