(* ===== verification/Text.v ===== *)
(** * Rust strings

    A [str] is the list of its characters (Unicode scalar values) where the
    source works with [char]s, and the list of its bytes where it works with
    bytes; both are [list N].  The operations are those of the standard
    library that the modelled code calls. *)

From S2P Require Import Prelude.

Abbreviation Str := (list N).

(** A literal of the source (ASCII). *)
Fixpoint str (s : string) : Str :=
  match s with
  | EmptyString => []
  | String a s' => Ascii.N_of_ascii a :: str s'
  end.

#[global] Arguments str : simpl never.

Definition c_tab : N := 9.
Definition c_nl : N := 10.
Definition c_ff : N := 12.
Definition c_cr : N := 13.
Definition c_space : N := 32.
Definition c_dquote : N := 34.
Definition c_dollar : N := 36.
Definition c_squote : N := 39.
Definition c_lparen : N := 40.
Definition c_rparen : N := 41.
Definition c_star : N := 42.
Definition c_slash : N := 47.
Definition c_colon : N := 58.
Definition c_backslash : N := 92.

(** [char::is_ascii_whitespace] (vertical tab is not one of them). *)
Definition is_ascii_whitespace (c : N) : bool :=
  bool_decide (c ∈ [c_tab; c_nl; c_ff; c_cr; c_space]).

(** [char::is_whitespace]: the Unicode property White_Space. *)
Definition is_whitespace (c : N) : bool :=
  (9 <=? c)%N && (c <=? 13)%N
  || bool_decide (c ∈ [32; 133; 160; 5760; 8232; 8233; 8239; 8287; 12288]%N)
  || (8192 <=? c)%N && (c <=? 8202)%N.

Definition to_ascii_lower (c : N) : N :=
  if (65 <=? c)%N && (c <=? 90)%N then (c + 32)%N else c.
Definition to_ascii_upper (c : N) : N :=
  if (97 <=? c)%N && (c <=? 122)%N then (c - 32)%N else c.
Definition to_ascii_lowercase (s : Str) : Str := to_ascii_lower <$> s.
Definition to_ascii_uppercase (s : Str) : Str := to_ascii_upper <$> s.
Definition eq_ignore_ascii_case (s t : Str) : bool :=
  bool_decide (to_ascii_lowercase s = to_ascii_lowercase t).

Definition is_empty (s : Str) : bool :=
  match s with [] => true | _ => false end.

Fixpoint strip_prefix (p s : Str) : option Str :=
  match p, s with
  | [], _ => Some s
  | a :: p', b :: s' => if (a =? b)%N then strip_prefix p' s' else None
  | _ :: _, [] => None
  end.

Definition starts_with (s p : Str) : bool :=
  match strip_prefix p s with Some _ => true | None => false end.
Definition ends_with (s p : Str) : bool := starts_with (reverse s) (reverse p).

Fixpoint contains (s p : Str) : bool :=
  starts_with s p || match s with [] => false | _ :: s' => contains s' p end.

(** [split_once] and [find] for a single character. *)
Fixpoint split_once (c : N) (s : Str) : option (Str * Str) :=
  match s with
  | [] => None
  | a :: s' =>
      if (a =? c)%N then Some ([], s')
      else match split_once c s' with
           | Some (l, r) => Some (a :: l, r)
           | None => None
           end
  end.

Fixpoint find_char (c : N) (s : Str) : option nat :=
  match s with
  | [] => None
  | a :: s' => if (a =? c)%N then Some O else S <$> find_char c s'
  end.

Fixpoint trim_start (s : Str) : Str :=
  match s with
  | [] => []
  | a :: s' => if is_whitespace a then trim_start s' else s
  end.
Definition trim_end (s : Str) : Str := reverse (trim_start (reverse s)).
Definition trim (s : Str) : Str := trim_end (trim_start s).

(** ** Lemmas *)

Lemma strip_prefix_spec p s r : strip_prefix p s = Some r ↔ s = p ++ r.
Proof.
  revert s. induction p as [|a p IH]; intros s; simpl; [naive_solver|].
  destruct s as [|b s]; [naive_solver|].
  destruct (N.eqb_spec a b) as [->|Hne]; [|naive_solver].
  rw IH. naive_solver.
Qed.

Lemma starts_with_spec s p : starts_with s p = true ↔ ∃ r, s = p ++ r.
Proof.
  unfold starts_with. destruct (strip_prefix p s) as [r|] eqn:E.
  - apply strip_prefix_spec in E. naive_solver.
  - split; [done|]. intros [r Hr%strip_prefix_spec]. congruence.
Qed.

Lemma contains_spec s p : contains s p = true ↔ ∃ a b, s = a ++ p ++ b.
Proof.
  induction s as [|c s IH]; simpl.
  - rw orb_false_r starts_with_spec. split.
    + intros [r ->]. by exists [], r.
    + intros (a & b & H). destruct a; [|done]. by exists b.
  - rw orb_true_iff starts_with_spec IH. split.
    + intros [[r Hr]|(a & b & ->)]; [by exists [], r|by exists (c :: a), b].
    + intros (a & b & H). destruct a as [|c' a]; simplify_eq/=; eauto.
Qed.

Lemma split_once_spec c s l r :
  split_once c s = Some (l, r) ↔ s = l ++ c :: r ∧ c ∉ l.
Proof.
  revert l. induction s as [|a s IH]; intros l; simpl.
  - split; [done|]. intros [H _]. by destruct l.
  - destruct (N.eqb_spec a c) as [->|Hne].
    + split; [intros; simplify_eq; split; [done|apply not_elem_of_nil]|].
      intros [H Hn]. destruct l as [|b l]; [by simplify_eq/=|].
      simplify_eq/=. exfalso. apply Hn. left.
    + destruct (split_once c s) as [[l' r']|] eqn:E.
      * split.
        -- intros ?; simplify_eq. destruct (proj1 (IH l') eq_refl) as [-> Hn].
           split; [done|]. rw elem_of_cons. naive_solver.
        -- intros [H Hn]. destruct l as [|b l]; simplify_eq/=.
           apply not_elem_of_cons in Hn as [_ Hn].
           pose proof (proj2 (IH l) (conj eq_refl Hn)). by simplify_eq.
      * split; [done|]. intros [H Hn]. destruct l as [|b l]; simplify_eq/=.
        apply not_elem_of_cons in Hn as [_ Hn].
        by pose proof (proj2 (IH l) (conj eq_refl Hn)).
Qed.

Lemma to_ascii_lower_not_upper c : (65 <=? to_ascii_lower c)%N && (to_ascii_lower c <=? 90)%N = false.
Proof.
  unfold to_ascii_lower. destruct ((65 <=? c)%N && (c <=? 90)%N) eqn:E; [|done].
  apply andb_true_iff in E as [H1%N.leb_le H2%N.leb_le].
  apply andb_false_iff. right. apply N.leb_gt. lia.
Qed.

Lemma trim_start_suffix s : ∃ w, s = w ++ trim_start s ∧ Forall (λ c, is_whitespace c = true) w.
Proof.
  induction s as [|a s (w & Hw & Hall)]; simpl; [by exists []|].
  destruct (is_whitespace a) eqn:E; [|by exists []].
  exists (a :: w). simpl. rw -Hw. split; [done|by constructor].
Qed.

Lemma trim_start_head s c r : trim_start s = c :: r → is_whitespace c = false.
Proof.
  induction s as [|a s IH]; simpl; [done|].
  destruct (is_whitespace a) eqn:E; [done|]. by intros [= <- <-].
Qed.

Lemma trim_start_nonblank c s : is_whitespace c = false → trim_start (c :: s) = c :: s.
Proof. intros H. simpl. by rw H. Qed.

Lemma trim_start_idem s : trim_start (trim_start s) = trim_start s.
Proof.
  induction s as [|a s IH]; simpl; [done|].
  destruct (is_whitespace a) eqn:E; [done|]. simpl. by rw E.
Qed.

(** Trimming the end keeps the first character of a text that does not start
    with white space. *)
Lemma trim_start_snoc s c :
  is_whitespace c = false → trim_start (s ++ [c]) = trim_start s ++ [c].
Proof.
  intros H. induction s as [|a s IH]; simpl; [by rw H|].
  by destruct (is_whitespace a).
Qed.

Lemma trim_end_cons c s : is_whitespace c = false → trim_end (c :: s) = c :: trim_end s.
Proof.
  intros H. unfold trim_end. rw reverse_cons trim_start_snoc // reverse_app //.
Qed.

Lemma trim_head s c r : trim s = c :: r → is_whitespace c = false.
Proof.
  unfold trim. destruct (trim_start s) as [|a t] eqn:E; [done|].
  pose proof (trim_start_head _ _ _ E) as Ha. rw trim_end_cons //. by intros [= -> _].
Qed.

Lemma trim_clean s : Forall (λ c, is_whitespace c = false) s → trim s = s.
Proof.
  intros H. unfold trim.
  assert (trim_start s = s) as -> by (destruct H; [done|by apply trim_start_nonblank]).
  induction H as [|c s Hc Hs IH]; [done|]. rw trim_end_cons //. by rw IH.
Qed.

Lemma lower_keeps_whitespace c : is_whitespace (to_ascii_lower c) = is_whitespace c.
Proof.
  unfold to_ascii_lower. destruct ((65 <=? c)%N && (c <=? 90)%N) eqn:E; [|done].
  apply andb_true_iff in E as [H1%N.leb_le H2%N.leb_le].
  assert (forallb (λ n, eqb (is_whitespace (N.of_nat n + 32)) (is_whitespace (N.of_nat n)))
            (seq 65 26) = true) as Hall by (vm_compute; reflexivity).
  rw forallb_forall in Hall. specialize (Hall (N.to_nat c)).
  rw N2Nat.id in Hall. apply eqb_prop, Hall, in_seq. lia.
Qed.

Lemma is_whitespace_ascii c : is_ascii_whitespace c = true → is_whitespace c = true.
Proof.
  intros H%bool_decide_eq_true_1.
  repeat (apply elem_of_cons in H as [->|H]; [done|]). by apply not_elem_of_nil in H.
Qed.

(** ** Decimal numbers *)

(** [char::to_digit(10)] *)
Definition digit_value (c : N) : option Z :=
  if (48 <=? c)%N && (c <=? 57)%N then Some (Z.of_N c - 48) else None.

(** The digits of a [u64] ([usize]) from an accumulator; [None] on another
    character or on overflow. *)
Fixpoint parse_digits (acc : Z) (s : Str) : option Z :=
  match s with
  | [] => Some acc
  | c :: s' =>
      match digit_value c with
      | Some d => let acc' := acc * 10 + d in
                  if acc' <=? u64_max then parse_digits acc' s' else None
      | None => None
      end
  end.

(** [str::parse::<u64>]: an optional plus sign and at least one digit. *)
Definition parse_u64 (s : Str) : option Z :=
  match s with
  | [] => None
  | c :: s' => if (c =? 43)%N then (match s' with [] => None | _ => parse_digits 0 s' end)
               else parse_digits 0 s
  end.

(** [Display] of an unsigned integer. *)
Fixpoint show_digits (fuel : nat) (n : Z) : Str :=
  match fuel with
  | O => []
  | S f => (if n <? 10 then [] else show_digits f (n / 10)) ++ [Z.to_N (48 + n mod 10)]
  end.
Definition show_u64 (n : Z) : Str := show_digits 20 n.

Lemma digit_value_show n : digit_value (Z.to_N (48 + n mod 10)) = Some (n mod 10).
Proof.
  pose proof (Z.mod_pos_bound n 10 ltac:(lia)). unfold digit_value.
  rw (proj2 (N.leb_le _ _)); [|lia]. rw (proj2 (N.leb_le _ _)); [|lia]. simpl. f_equal. lia.
Qed.

Lemma parse_digits_app acc s t :
  parse_digits acc (s ++ t) = (parse_digits acc s ≫= λ a, parse_digits a t).
Proof.
  revert acc. induction s as [|c s IH]; intros acc; simpl; [done|].
  destruct (digit_value c) as [d|]; [|done]. destruct (_ <=? _); [apply IH|done].
Qed.

(** Twenty digits are enough for 64 bits. *)
Lemma parse_show_digits fuel n :
  0 ≤ n ≤ u64_max → n < 10 ^ Z.of_nat fuel → (0 < fuel)%nat →
  parse_digits 0 (show_digits fuel n) = Some n.
Proof.
  revert n. induction fuel as [|f IH]; intros n Hn Hf Hpos; [lia|].
  cbn [show_digits]. rw parse_digits_app.
  pose proof (Z.div_mod n 10 ltac:(lia)). pose proof (Z.mod_pos_bound n 10 ltac:(lia)).
  assert (parse_digits 0 (if n <? 10 then [] else show_digits f (n / 10)) = Some (n / 10)) as ->.
  { destruct (Z.ltb_spec n 10); [simpl; f_equal; lia|]. apply IH; [lia| |].
    - apply Z.div_lt_upper_bound; [lia|].
      rw Nat2Z.inj_succ Z.pow_succ_r in Hf; lia.
    - destruct f; [|lia]. simpl in Hf. lia. }
  cbn [mbind option_bind parse_digits]. rw digit_value_show.
  replace (n / 10 * 10 + n mod 10) with n by lia. by rw (proj2 (Z.leb_le _ _)); [|lia].
Qed.

Lemma show_digits_head fuel n c s :
  show_digits fuel n = c :: s → 0 ≤ n → (48 <= c)%N.
Proof.
  revert n c s. induction fuel as [|f IH]; intros n c s; cbn [show_digits]; [done|].
  pose proof (Z.mod_pos_bound n 10 ltac:(lia)). intros Heq Hn.
  destruct (n <? 10) eqn:E; [injection Heq; lia|].
  destruct (show_digits f (n / 10)) as [|c' s'] eqn:E'; simpl in Heq; [injection Heq; lia|].
  injection Heq as <- _. eapply IH; [exact E'|]. apply Z.div_pos; lia.
Qed.

Lemma parse_show n : in_u64 n → parse_u64 (show_u64 n) = Some n.
Proof.
  intros Hn. assert (parse_digits 0 (show_u64 n) = Some n) as Hp.
  { apply parse_show_digits; [exact Hn| |lia]. unfold in_u64, u64_max in Hn. simpl. lia. }
  unfold parse_u64. destruct (show_u64 n) as [|c s] eqn:E.
  - exfalso. unfold show_u64 in E. cbn [show_digits] in E. by apply app_nil in E as [_ ?].
  - pose proof (show_digits_head _ _ _ _ E ltac:(unfold in_u64 in Hn; lia)).
    by rw (proj2 (N.eqb_neq c 43)); [|lia].
Qed.
