(* ===== verification/Utf8.v ===== *)
(** * Strings with byte offsets

    Where the source slices a [str] by byte offsets, the string stays the
    list of its characters and the offsets are computed from their UTF-8
    widths, so that a slice at a character boundary is a split of the list. *)

From S2P Require Import Prelude Text.

(** [char::len_utf8] *)
Definition utf8_width (c : N) : nat :=
  if (c <? 128)%N then 1%nat else if (c <? 2048)%N then 2%nat
  else if (c <? 65536)%N then 3%nat else 4%nat.

(** [str::len] *)
Fixpoint byte_len (s : Str) : nat :=
  match s with [] => O | c :: s' => (utf8_width c + byte_len s')%nat end.

(** [str::is_char_boundary] *)
Fixpoint is_char_boundary (s : Str) (i : nat) : bool :=
  match i, s with
  | O, _ => true
  | S _, [] => false
  | S _, c :: s' => (utf8_width c <=? i)%nat && is_char_boundary s' (i - utf8_width c)
  end.

(** [&s[..i]] and [&s[i..]], at a boundary [i]. *)
Fixpoint take_bytes (i : nat) (s : Str) : Str :=
  match i, s with
  | S _, c :: s' => c :: take_bytes (i - utf8_width c) s'
  | _, _ => []
  end.
Fixpoint drop_bytes (i : nat) (s : Str) : Str :=
  match i, s with
  | S _, c :: s' => drop_bytes (i - utf8_width c) s'
  | _, _ => s
  end.

Lemma utf8_width_bounds c : (1 ≤ utf8_width c ≤ 4)%nat.
Proof. unfold utf8_width. repeat case_match; lia. Qed.

Lemma byte_len_app s t : byte_len (s ++ t) = (byte_len s + byte_len t)%nat.
Proof. induction s as [|c s IH]; simpl; [done|]. rw IH. lia. Qed.

Lemma byte_len_length s : (length s ≤ byte_len s)%nat.
Proof. induction s as [|c s IH]; simpl; [done|]. pose proof (utf8_width_bounds c). lia. Qed.

Lemma take_drop_bytes i s : take_bytes i s ++ drop_bytes i s = s.
Proof.
  revert i. induction s as [|c s IH]; intros [|i]; simpl; try done. f_equal. apply IH.
Qed.

Lemma byte_len_take i s : is_char_boundary s i = true → byte_len (take_bytes i s) = i.
Proof.
  revert i. induction s as [|c s IH]; intros [|i] H; simpl in *; try done.
  apply andb_true_iff in H as [Hw H]. apply Nat.leb_le in Hw. rw (IH _ H). lia.
Qed.

Lemma byte_len_drop i s :
  is_char_boundary s i = true → byte_len (drop_bytes i s) = (byte_len s - i)%nat.
Proof.
  intros H. rw -{2}(take_drop_bytes i s) byte_len_app byte_len_take //. lia.
Qed.

Lemma boundary_len s : is_char_boundary s (byte_len s) = true.
Proof.
  induction s as [|c s IH]; [done|]. cbn [byte_len]. pose proof (utf8_width_bounds c).
  destruct (utf8_width c + byte_len s)%nat as [|n] eqn:E; [lia|]. cbn [is_char_boundary]. rw -E.
  rw (proj2 (Nat.leb_le _ _)); [|lia]. by replace (utf8_width c + byte_len s - utf8_width c)%nat with (byte_len s) by lia.
Qed.

Lemma boundary_le s i : is_char_boundary s i = true → (i ≤ byte_len s)%nat.
Proof.
  revert i. induction s as [|c s IH]; intros [|i] H; simpl in *; try done; [lia|].
  apply andb_true_iff in H as [Hw H]. apply IH in H. apply Nat.leb_le in Hw. lia.
Qed.

(** Every window of four offsets within the string has a boundary. *)
Lemma boundary_near s i :
  (i ≤ byte_len s)%nat → ∃ j, (j ≤ i)%nat ∧ (i ≤ j + 3)%nat ∧ is_char_boundary s j = true.
Proof.
  revert i. induction s as [|c s IH]; intros i Hi.
  - simpl in Hi. exists O. repeat split; lia.
  - cbn [byte_len] in Hi. pose proof (utf8_width_bounds c).
    destruct (decide (i < utf8_width c)%nat); [exists O; repeat split; lia|].
    destruct (IH (i - utf8_width c)%nat) as (j & ? & ? & Hj); [lia|].
    exists (utf8_width c + j)%nat. split; [lia|]. split; [lia|].
    destruct (utf8_width c + j)%nat as [|k] eqn:E; [lia|]. cbn [is_char_boundary]. rw -E.
    rw (proj2 (Nat.leb_le _ _)); [|lia]. by replace (utf8_width c + j - utf8_width c)%nat with j by lia.
Qed.

Lemma take_bytes_app p s : take_bytes (byte_len p) (p ++ s) = p.
Proof.
  induction p as [|c p IH]; simpl; [by destruct s|]. pose proof (utf8_width_bounds c).
  destruct (utf8_width c + byte_len p)%nat as [|n] eqn:E; [lia|]. cbn [take_bytes]. f_equal. rw -E Nat.add_sub' //.
Qed.

Lemma drop_bytes_app p s : drop_bytes (byte_len p) (p ++ s) = s.
Proof.
  induction p as [|c p IH]; simpl; [by destruct s|]. pose proof (utf8_width_bounds c).
  destruct (utf8_width c + byte_len p)%nat as [|n] eqn:E; [lia|]. cbn [drop_bytes]. rw -E Nat.add_sub' //.
Qed.

(** The boundaries are the places where the text can be split. *)
Lemma boundary_split s i : is_char_boundary s i = true ↔ ∃ p q, s = p ++ q ∧ byte_len p = i.
Proof.
  split.
  - intros H. exists (take_bytes i s), (drop_bytes i s). by rw take_drop_bytes byte_len_take.
  - intros (p & q & -> & <-). induction p as [|c p IH]; [by destruct q|]. cbn [byte_len app].
    pose proof (utf8_width_bounds c). destruct (utf8_width c + byte_len p)%nat as [|n] eqn:E; [lia|].
    cbn [is_char_boundary]. rw -E Nat.add_sub' IH (proj2 (Nat.leb_le _ _)) //. lia.
Qed.
