(* ===== verification/Utf8Bytes.v ===== *)
(** * UTF-8 as bytes

    [String::from_utf8] and [std::str::from_utf8] with the position and the
    length of an error ([Utf8Error]), as the standard library documents them,
    and the encoding of a string.  Used where the code reads bytes: session
    files and provider streams. *)

From Stdlib Require Import ZifyN ZifyBool.
From S2P Require Import Prelude Text Utf8.

(** A byte string. *)
Abbreviation ByteStr := (list N).

(** ** Encoding *)

Definition scalar (c : N) : Prop := (c < 55296 ∨ 57344 ≤ c < 1114112)%N.

Definition encode_char (c : N) : ByteStr :=
  (if c <? 128 then [c]
   else if c <? 2048 then [192 + c / 64; 128 + c mod 64]
   else if c <? 65536 then [224 + c / 4096; 128 + (c / 64) mod 64; 128 + c mod 64]
   else [240 + c / 262144; 128 + (c / 4096) mod 64; 128 + (c / 64) mod 64; 128 + c mod 64])%N.

Definition utf8_encode (s : Str) : ByteStr := s ≫= encode_char.

(** ** Decoding *)

(** What the first bytes are: a character of some width, an error of some
    length, or the beginning of a character that the end cuts off. *)
Inductive Utf8Step := UChar (c : N) (width : nat) | UInvalid (error_len : nat) | UIncomplete.

Definition between (a b x : N) : bool := (a <=? x)%N && (x <=? b)%N.
Definition continuation (b : N) : bool := between 128 191 b.

(** The ranges of the second byte that exclude overlong forms, surrogates and
    values over the last character. *)
Definition second_of_three (b0 b1 : N) : bool :=
  if (b0 =? 224)%N then between 160 191 b1
  else if (b0 =? 237)%N then between 128 159 b1
  else continuation b1.
Definition second_of_four (b0 b1 : N) : bool :=
  if (b0 =? 240)%N then between 144 191 b1
  else if (b0 =? 244)%N then between 128 143 b1
  else continuation b1.

Definition decode_one (bytes : ByteStr) : Utf8Step :=
  match bytes with
  | [] => UIncomplete
  | b0 :: r =>
      if (b0 <? 128)%N then UChar b0 1
      else if between 194 223 b0 then
        match r with
        | [] => UIncomplete
        | b1 :: _ => if continuation b1 then UChar ((b0 - 192) * 64 + (b1 - 128)) 2 else UInvalid 1
        end
      else if between 224 239 b0 then
        match r with
        | [] => UIncomplete
        | b1 :: r =>
            if second_of_three b0 b1 then
              match r with
              | [] => UIncomplete
              | b2 :: _ => if continuation b2 then UChar ((b0 - 224) * 4096 + (b1 - 128) * 64 + (b2 - 128)) 3 else UInvalid 2
              end
            else UInvalid 1
        end
      else if between 240 244 b0 then
        match r with
        | [] => UIncomplete
        | b1 :: r =>
            if second_of_four b0 b1 then
              match r with
              | [] => UIncomplete
              | b2 :: r =>
                  if continuation b2 then
                    match r with
                    | [] => UIncomplete
                    | b3 :: _ =>
                        if continuation b3
                        then UChar ((b0 - 240) * 262144 + (b1 - 128) * 4096 + (b2 - 128) * 64 + (b3 - 128)) 4
                        else UInvalid 3
                    end
                  else UInvalid 2
              end
            else UInvalid 1
        end
      else UInvalid 1
  end.

(** How the decoding of a byte string ends. *)
Inductive Utf8End := EndOk | EndInvalid (error_len : nat) | EndIncomplete.

Fixpoint utf8_run (fuel : nat) (bytes : ByteStr) : Str * Utf8End :=
  match fuel, bytes with
  | S fuel', _ :: _ =>
      match decode_one bytes with
      | UChar c n => let '(s, e) := utf8_run fuel' (drop n bytes) in (c :: s, e)
      | UInvalid n => ([], EndInvalid n)
      | UIncomplete => ([], EndIncomplete)
      end
  | _, _ => ([], EndOk)
  end.

(** [Utf8Error]: [valid_up_to] and [error_len]. *)
Record Utf8Error := mkUtf8Error { valid_up_to : nat; error_len : option nat }.

Definition from_utf8 (bytes : ByteStr) : result Str Utf8Error :=
  match utf8_run (length bytes) bytes with
  | (s, EndOk) => Ok s
  | (s, EndInvalid n) => Err (mkUtf8Error (length (utf8_encode s)) (Some n))
  | (s, EndIncomplete) => Err (mkUtf8Error (length (utf8_encode s)) None)
  end.

(** ** Facts *)

Lemma encode_char_length c : length (encode_char c) = utf8_width c.
Proof. unfold encode_char, utf8_width. by repeat case_match. Qed.

Lemma encode_char_nonempty c : encode_char c ≠ [].
Proof. unfold encode_char. by repeat case_match. Qed.

Lemma utf8_encode_app s t : utf8_encode (s ++ t) = utf8_encode s ++ utf8_encode t.
Proof. apply bind_app. Qed.

Lemma encode_char_no_nl c : scalar c → c ≠ c_nl → c_nl ∉ encode_char c.
Proof.
  intros Hc Hne Hin. unfold encode_char, c_nl in *. repeat case_match; rw ?elem_of_cons elem_of_nil in Hin;
    repeat match goal with H : (_ <? _)%N = _ |- _ => first [apply N.ltb_lt in H|apply N.ltb_ge in H] end; lia.
Qed.

Lemma utf8_encode_no_nl s : Forall scalar s → c_nl ∉ s → c_nl ∉ utf8_encode s.
Proof.
  intros Hs Hn (c & Hin & Hc)%list_elem_of_bind. rw Forall_forall in Hs. apply (encode_char_no_nl c (Hs c Hc)); [|done]. by intros ->.
Qed.

Lemma length_utf8_encode s : length (utf8_encode s) = byte_len s.
Proof. induction s as [|c s IH]; [done|]. cbn [utf8_encode mbind list_bind byte_len]. rw length_app encode_char_length. f_equal. apply IH. Qed.

(** Comparisons of bytes and characters as propositions; then [lia]. *)
Ltac byte_cases := unfold second_of_three, second_of_four, continuation, between in *; repeat case_match.
Ltac byte_lia := zify; Z.to_euclidean_division_equations; lia.

Lemma decode_encode c rest : scalar c → decode_one (encode_char c ++ rest) = UChar c (utf8_width c).
Proof.
  unfold scalar, encode_char, utf8_width. intros Hc.
  destruct (N.ltb_spec c 128); [by cbn; rw (proj2 (N.ltb_lt _ _))|].
  destruct (N.ltb_spec c 2048); [|destruct (N.ltb_spec c 65536)].
  - cbn [app decode_one]. byte_cases; try (exfalso; byte_lia); f_equal; byte_lia.
  - cbn [app decode_one]. byte_cases; try (exfalso; byte_lia); f_equal; byte_lia.
  - cbn [app decode_one]. byte_cases; try (exfalso; byte_lia); f_equal; byte_lia.
Qed.

(** A decoded character was encoded. *)
Lemma decode_one_char b c n :
  decode_one b = UChar c n → scalar c ∧ n = utf8_width c ∧ ∃ rest, b = encode_char c ++ rest.
Proof.
  intros H. assert (scalar c ∧ n = utf8_width c ∧ encode_char c = take n b) as (Hc & Hn & He); [|split_and!; try done; exists (drop n b); by rw He take_drop].
  unfold decode_one in H. byte_cases; simplify_eq; unfold scalar, utf8_width, encode_char;
    (split; [byte_lia|]); repeat (case_match; try (exfalso; byte_lia)); cbn [take]; split; try done; repeat f_equal; byte_lia.
Qed.

(** More bytes do not change what the first ones are. *)
Lemma decode_one_more b more : b ≠ [] → decode_one b ≠ UIncomplete → decode_one (b ++ more) = decode_one b.
Proof.
  destruct b as [|b0 b]; [done|]. intros _. cbn [decode_one app]. case_match; [done|]. destruct b as [|b1 b]; cbn [app]; [repeat case_match; done|].
  case_match; [done|]. destruct b as [|b2 b]; cbn [app]; [repeat case_match; done|]. case_match; [done|].
  destruct b as [|b3 b]; cbn [app]; [repeat case_match; done|done].
Qed.

Lemma decode_one_invalid b n : decode_one b = UInvalid n → (1 ≤ n ≤ length b)%nat.
Proof. unfold decode_one. intros. repeat case_match; simplify_eq; simpl; lia. Qed.

Lemma decode_one_incomplete b : decode_one b = UIncomplete → (length b ≤ 3)%nat.
Proof. unfold decode_one. intros. repeat case_match; simplify_eq; simpl; lia. Qed.

(** A character cut by the end is incomplete. *)
Lemma decode_one_cut c b more :
  scalar c → b ≠ [] → b ++ more = encode_char c → more ≠ [] → decode_one b = UIncomplete.
Proof.
  intros Hc Hb E Hm. pose proof (decode_encode c [] Hc) as Hd. rw app_nil_r -E in Hd.
  assert (length b < utf8_width c)%nat as Hlt.
  { rw -encode_char_length -E length_app. destruct more; [done|simpl; lia]. }
  destruct (decode_one b) as [c' n|n|] eqn:E1; [| |done]; rw decode_one_more // E1 // in Hd. injection Hd as -> ->.
  apply decode_one_char in E1 as (_ & _ & rest & ->). rw length_app encode_char_length in Hlt. lia.
Qed.

(** The fuel [length bytes] is enough. *)
Lemma utf8_run_fuel fuel bytes : (length bytes ≤ fuel)%nat → utf8_run fuel bytes = utf8_run (length bytes) bytes.
Proof.
  remember (length bytes) as n eqn:En. revert fuel bytes En.
  induction (lt_wf n) as [n _ IH]. intros fuel bytes -> Hf. destruct bytes as [|b0 bytes]; [by destruct fuel|].
  destruct fuel as [|fuel]; [simpl in Hf; lia|]. cbn [length utf8_run]. destruct (decode_one (b0 :: bytes)) as [c w| |] eqn:Ed; [|done|done].
  apply decode_one_char in Ed as (_ & -> & _). pose proof (utf8_width_bounds c). simpl in Hf.
  assert (length (drop (utf8_width c) (b0 :: bytes)) ≤ length bytes)%nat by (rw length_drop; simpl; lia).
  rw (IH (length (drop (utf8_width c) (b0 :: bytes))) ltac:(simpl in *; lia) fuel) //; [|lia].
  by rw (IH (length (drop (utf8_width c) (b0 :: bytes))) ltac:(simpl in *; lia) (length bytes)).
Qed.

Definition utf8_of (bytes : ByteStr) : Str * Utf8End := utf8_run (length bytes) bytes.

Lemma utf8_of_cons c rest :
  scalar c → utf8_of (encode_char c ++ rest) = (c :: (utf8_of rest).1, (utf8_of rest).2).
Proof.
  intros Hc. unfold utf8_of. pose proof (utf8_width_bounds c). rw length_app encode_char_length.
  destruct (encode_char c ++ rest) as [|b0 bs] eqn:E; [by apply app_eq_nil in E as [?%encode_char_nonempty _]|].
  replace (utf8_width c + length rest)%nat with (S (pred (utf8_width c) + length rest)) by lia. cbn [utf8_run].
  rw -E decode_encode //. rw -(encode_char_length c) drop_app_length utf8_run_fuel; [by destruct (utf8_run _ rest)|lia].
Qed.

Lemma utf8_of_encode s rest : Forall scalar s → utf8_of (utf8_encode s ++ rest) = (s ++ (utf8_of rest).1, (utf8_of rest).2).
Proof.
  induction 1 as [|c s Hc _ IH]; [simpl; by destruct (utf8_of rest)|]. rw (utf8_encode_app [c] s). change (utf8_encode [c]) with (encode_char c ++ []).
  rw app_nil_r -assoc utf8_of_cons // IH //.
Qed.

(** What the bytes are made of. *)
Definition utf8_rest (e : Utf8End) (t : ByteStr) : Prop :=
  match e with
  | EndOk => t = []
  | EndInvalid n => t ≠ [] ∧ decode_one t = UInvalid n
  | EndIncomplete => t ≠ [] ∧ decode_one t = UIncomplete
  end.

Lemma utf8_of_spec bytes s e :
  utf8_of bytes = (s, e) → Forall scalar s ∧ ∃ t, bytes = utf8_encode s ++ t ∧ utf8_rest e t.
Proof.
  remember (length bytes) as n eqn:En. revert bytes s e En. induction (lt_wf n) as [n _ IH]. intros bytes s e ->.
  destruct bytes as [|b0 bs]; [intros [= <- <-]; split; [done|by exists []]|].
  destruct (decode_one (b0 :: bs)) as [c w|w|] eqn:Ed.
  - apply decode_one_char in Ed as (Hc & -> & rest & E). rw E utf8_of_cons //. intros [= <- <-].
    pose proof (utf8_width_bounds c). apply (f_equal length) in E as El. rw length_app encode_char_length in El.
    destruct (IH (length rest) ltac:(lia) rest _ _ eq_refl (surjective_pairing _)) as (Hs & t & Et & Ht).
    split; [by constructor|]. exists t. split; [|done]. cbn [utf8_encode mbind list_bind]. by rw -assoc {1}Et.
  - unfold utf8_of. cbn [length utf8_run]. rw Ed. intros [= <- <-]. split; [done|]. by exists (b0 :: bs).
  - unfold utf8_of. cbn [length utf8_run]. rw Ed. intros [= <- <-]. split; [done|]. by exists (b0 :: bs).
Qed.

Lemma utf8_of_rest e t : utf8_rest e t → utf8_of t = ([], e).
Proof. destruct e; simpl; [by intros ->| |]; intros [Ht E]; (destruct t; [done|]); unfold utf8_of; cbn [length utf8_run]; by rw E. Qed.

Lemma utf8_of_tail (t : ByteStr) : t = [] ∨ t ≠ [] ∧ decode_one t = UIncomplete → utf8_of t = ([], if is_empty t then EndOk else EndIncomplete).
Proof. intros [->|[Ht E]]; [done|]. rw (utf8_of_rest EndIncomplete t) //. by destruct t. Qed.


Lemma from_utf8_encode s : Forall scalar s → from_utf8 (utf8_encode s) = Ok s.
Proof. intros Hs. unfold from_utf8. pose proof (utf8_of_encode s [] Hs) as E. rw app_nil_r in E. unfold utf8_of in E. rw E /=. by rw app_nil_r. Qed.

Lemma from_utf8_ok bytes s : from_utf8 bytes = Ok s → bytes = utf8_encode s ∧ Forall scalar s.
Proof.
  unfold from_utf8. destruct (utf8_run _ _) as [s' []] eqn:E; [|done|done]. intros [= <-].
  apply utf8_of_spec in E as (Hs & t & -> & ->). by rw app_nil_r.
Qed.

(** A text cut anywhere: the characters before the cut and the bytes of the
    one it goes through. *)
Lemma utf8_cut s b1 b2 :
  Forall scalar s → utf8_encode s = b1 ++ b2 →
  ∃ s1 s2 t, s = s1 ++ s2 ∧ b1 = utf8_encode s1 ++ t ∧ t ++ b2 = utf8_encode s2 ∧
    (t = [] ∨ t ≠ [] ∧ decode_one t = UIncomplete).
Proof.
  intros Hs. revert b1. induction Hs as [|c s Hc Hs IH]; intros b1 E.
  { symmetry in E. apply app_eq_nil in E as [-> ->]. exists [], [], []. auto. }
  cbn [utf8_encode mbind list_bind] in E. fold (utf8_encode s) in E. destruct (decide (length (encode_char c) ≤ length b1)%nat) as [Hle|Hlt].
  - assert (∃ b, b1 = encode_char c ++ b) as [b ->].
    { exists (drop (length (encode_char c)) b1). apply (f_equal (take (length (encode_char c)))) in E as E'.
      rw take_app_length take_app_le // in E'. by rw {1}E' take_drop. }
    rw -assoc in E. apply app_inv_head in E. destruct (IH b E) as (s1 & s2 & t & -> & -> & Ht & Hd).
    exists (c :: s1), s2, t. split_and!; try done. cbn [utf8_encode mbind list_bind]. by rw -assoc.
  - exists [], (c :: s), b1. split_and!; [done|done|done|]. destruct b1 as [|x b1]; [by left|right]. split; [done|].
    assert (x :: b1 ++ drop (length (x :: b1)) (encode_char c) = encode_char c) as Ec.
    { change (x :: b1 ++ ?l) with ((x :: b1) ++ l). apply (f_equal (take (length (x :: b1)))) in E as E'.
      rw take_app_length take_app_le in E'; [by rw -{1}E' take_drop|lia]. }
    apply (decode_one_cut c _ (drop (length (x :: b1)) (encode_char c))); try done.
    intros Hnil. apply (f_equal length) in Hnil. rw length_drop in Hnil. change (length []) with 0%nat in Hnil. lia.
Qed.
