(* ===== verification/ToolPolicy.v ===== *)
(** * Tool permission policy ([src/tool_policy.rs], [ToolEffects] of
    [src/tools.rs], [session_rule_for] of [src/interactive/state.rs])

    Decides whether one tool call may run: permission rules ([Rule],
    [Pattern], globs), command normalisation, and the defaults of the four
    permission modes keyed on declared effects. *)

From S2P Require Import Prelude Text.

(** ** Declared side effects *)

Record ToolEffects := mkToolEffects { bits : Z }.

Definition READ : Z := Z.shiftl 1 0.
Definition WRITE : Z := Z.shiftl 1 1.
Definition APPEND : Z := Z.shiftl 1 2.
Definition NETWORK : Z := Z.shiftl 1 3.
Definition PROCESS : Z := Z.shiftl 1 4.
Definition PERMISSION : Z := Z.shiftl 1 5.
Definition BARRIER : Z := Z.lor (Z.lor (Z.lor WRITE APPEND) PROCESS) PERMISSION.

Definition effects_read : ToolEffects := mkToolEffects READ.
Definition effects_write : ToolEffects := mkToolEffects WRITE.
Definition effects_append : ToolEffects := mkToolEffects APPEND.
Definition effects_network : ToolEffects := mkToolEffects NETWORK.
Definition effects_process : ToolEffects := mkToolEffects PROCESS.
Definition effects_permission : ToolEffects := mkToolEffects PERMISSION.

Definition effects_union (a b : ToolEffects) : ToolEffects :=
  mkToolEffects (Z.lor (bits a) (bits b)).

Definition has_bit (mask : Z) (e : ToolEffects) : bool := negb (Z.land (bits e) mask =? 0).
Definition reads := has_bit READ.
Definition writes := has_bit WRITE.
Definition appends := has_bit APPEND.
Definition networks := has_bit NETWORK.
Definition processes := has_bit PROCESS.
Definition changes_permissions := has_bit PERMISSION.

Definition effects_labels (e : ToolEffects) : list Str :=
  (if reads e then [str "read"] else [])
  ++ (if writes e then [str "write"] else [])
  ++ (if appends e then [str "append"] else [])
  ++ (if networks e then [str "network"] else [])
  ++ (if processes e then [str "process"] else [])
  ++ (if changes_permissions e then [str "permission"] else []).

Definition parallel_safe (e : ToolEffects) : bool :=
  negb (bits e =? 0) && (Z.land (bits e) BARRIER =? 0).
Definition compatible_with (a b : ToolEffects) : bool := parallel_safe a && parallel_safe b.

(** ** Modes and decisions *)

Inductive PermissionMode := Default | AcceptEdits | Plan | ReadOnly.

#[global] Instance PermissionMode_eq_dec : EqDecision PermissionMode.
Proof. solve_decision. Defined.

Definition mode_next (m : PermissionMode) : PermissionMode :=
  match m with
  | Default => AcceptEdits
  | AcceptEdits => Plan
  | Plan => ReadOnly
  | ReadOnly => Default
  end.

(** The indicator glyph is U+23F5, written twice. *)
Definition mode_indicator (m : PermissionMode) : option Str :=
  match m with
  | Default => None
  | AcceptEdits => Some ([9205; 9205]%N ++ str " accept edits on")
  | Plan => Some ([9205; 9205]%N ++ str " plan mode on")
  | ReadOnly => Some ([9205; 9205]%N ++ str " read-only on")
  end.

Definition mode_fmt (m : PermissionMode) : Str :=
  match m with
  | Default => str "default"
  | AcceptEdits => str "accept-edits"
  | Plan => str "plan"
  | ReadOnly => str "read-only"
  end.

Inductive Decision := Allow | Deny (reason : Str) | Ask.

Inductive RuleError :=
| RuleEmpty (raw : Str)
| Unterminated (raw : Str)
| NoToolName (raw : Str).

(** ** Match targets *)

Inductive TargetKind := Command | Path.

Definition separator (k : TargetKind) : option N :=
  match k with Command => None | Path => Some c_slash end.

Definition COMMAND_KEYS : list Str := [str "command"].
Definition PATH_KEYS : list Str := [str "path"; str "file_path"].
Definition URL_KEYS : list Str := [str "url"].
Definition QUERY_KEYS : list Str := [str "query"].

(** The part of [serde_json::Value] the policy uses: [get] on a key and
    [as_str]. *)
Class JsonValue (V : Type) := {
  json_get : V → Str → option V;
  json_as_str : V → option Str;
}.

Fixpoint find_map {A B} (f : A → option B) (l : list A) : option B :=
  match l with
  | [] => None
  | x :: l' => match f x with Some y => Some y | None => find_map f l' end
  end.

Definition string_field `{JsonValue V} (input : V) (keys : list Str) : option Str :=
  find_map (λ key, json_get input key ≫= json_as_str) keys.

(** [normalize_command]: one turn of the [while !remaining.is_empty()] loop
    per unit of fuel.  [normalized] is the output so far. *)
Definition push_space (normalized : Str) (previous_was_space : bool) : Str :=
  if previous_was_space then normalized else normalized ++ [c_space].

Definition is_quote (c : N) : bool := (c =? c_squote)%N || (c =? c_dquote)%N.

Fixpoint normalize_loop (fuel : nat) (normalized : Str) (previous_was_space : bool)
    (remaining : Str) : Str :=
  match fuel with
  | O => normalized
  | S fuel' =>
    match remaining with
    | [] => normalized
    | ch :: chars =>
      match (match strip_prefix (str "${ifs}") remaining with
             | Some rest => Some rest
             | None => strip_prefix (str "$ifs") remaining
             end) with
      | Some rest =>
          normalize_loop fuel' (push_space normalized previous_was_space) true rest
      | None =>
        let finish (ch : N) (chars : Str) :=
          if is_ascii_whitespace ch
          then normalize_loop fuel' (push_space normalized previous_was_space) true chars
          else normalize_loop fuel' (normalized ++ [ch]) false chars in
        if is_quote ch then normalize_loop fuel' normalized previous_was_space chars
        else if (ch =? c_backslash)%N then
          match chars with
          | next :: chars' =>
              if (next =? c_nl)%N || (next =? c_cr)%N
              then normalize_loop fuel' normalized previous_was_space chars'
              else if is_ascii_whitespace next
              then normalize_loop fuel' (push_space normalized previous_was_space) true chars'
              else if is_quote next
              then normalize_loop fuel' normalized previous_was_space chars'
              else finish next chars'
          | [] => finish ch chars
          end
        else finish ch chars
      end
    end
  end.

(** Every turn consumes at least one character, so the length is enough fuel
    ([normalize_fuel]). *)
Definition normalize_command (command : Str) : Str :=
  normalize_loop (length command) [] false command.

Definition PATH_TOOLS : list Str :=
  [str "read"; str "edit"; str "write"; str "grep"; str "find"; str "ls"; str "hashline_edit"].

Definition match_target `{JsonValue V} (tool_name : Str) (input : V) : option (TargetKind * Str) :=
  let command :=
    (λ cmd, (Command, normalize_command (to_ascii_lowercase cmd)))
      <$> string_field input COMMAND_KEYS in
  let path := (λ p, (Path, p)) <$> string_field input PATH_KEYS in
  if bool_decide (tool_name = str "bash") then command
  else if bool_decide (tool_name ∈ PATH_TOOLS) then path
  else if bool_decide (tool_name = str "web_fetch") then
    (λ url, (Path, url)) <$> string_field input URL_KEYS
  else if bool_decide (tool_name = str "web_search") then
    (λ query, (Command, to_ascii_lowercase query)) <$> string_field input QUERY_KEYS
  else if bool_decide (tool_name ∈ [str "subagent"; str "todo"]) then None
  else match command with Some t => Some t | None => path end.

(** ** Globs *)

(** The scan of the text after a star: [m] matches the rest of the pattern. *)
Fixpoint star_scan (crosses_separator : bool) (sep : option N) (m : Str → bool) (text : Str) : bool :=
  match text with
  | [] => false
  | ch :: text' =>
      if negb crosses_separator && bool_decide (Some ch = sep) then false
      else m text' || star_scan crosses_separator sep m text'
  end.

Fixpoint glob_match (sep : option N) (pattern : Str) (text : Str) : bool :=
  match pattern with
  | [] => is_empty text
  | first :: rest1 =>
    if (first =? c_star)%N then
      match rest1 with
      | second :: rest2 =>
          if (second =? c_star)%N
          then glob_match sep rest2 text || star_scan true sep (glob_match sep rest2) text
          else glob_match sep rest1 text || star_scan false sep (glob_match sep rest1) text
      | [] => glob_match sep rest1 text || star_scan false sep (glob_match sep rest1) text
      end
    else
      match text with
      | [] => false
      | t :: text' => (t =? first)%N && glob_match sep rest1 text'
      end
  end.

Record Pattern := mkPattern { p_prefix : option Str; p_glob : Str }.

Definition Pattern_parse (raw : Str) : Pattern :=
  match split_once c_colon raw with
  | Some (prefix, glob) => mkPattern (Some (to_ascii_lowercase (trim prefix))) glob
  | None => mkPattern None raw
  end.

Definition Pattern_matches (p : Pattern) (kind : TargetKind) (target : Str) : bool :=
  match p_prefix p with
  | None => glob_match (separator kind) (p_glob p) target
  | Some pre =>
      match strip_prefix pre target with
      | None => false
      | Some rest =>
          if match rest with [] => false | c :: _ => negb (is_whitespace c) end then false
          else glob_match (separator kind) (p_glob p) (trim_start rest)
      end
  end.

(** ** Rules *)

Record Rule := mkRule { r_tool : Str; r_pattern : option Pattern; r_source : Str }.

(** [trimmed[open + 1..trimmed.len() - 1]] *)
Definition inner_slice (open : nat) (trimmed : Str) : Str :=
  take (length trimmed - 1 - (open + 1)) (drop (open + 1) trimmed).

Definition Rule_parse (raw : Str) : result Rule RuleError :=
  let trimmed := trim raw in
  if is_empty trimmed then Err (RuleEmpty raw)
  else match find_char c_lparen trimmed with
       | None => Ok (mkRule (to_ascii_lowercase trimmed) None trimmed)
       | Some open =>
           if negb (ends_with trimmed [c_rparen]) then Err (Unterminated raw)
           else
             let tool := trim (take open trimmed) in
             if is_empty tool then Err (NoToolName raw)
             else Ok (mkRule (to_ascii_lowercase tool)
                        (Some (Pattern_parse (inner_slice open trimmed))) trimmed)
       end.

Definition Rule_matches (r : Rule) (tool_name : Str) (target : option (TargetKind * Str))
    (fail_closed : bool) : bool :=
  if negb (bool_decide (r_tool r = tool_name)) then false
  else match r_pattern r with
       | None => true
       | Some p =>
           match target with
           | Some (kind, value) => Pattern_matches p kind value
           | None => fail_closed
           end
       end.

Definition parse_rules (raw : option (list Str)) : result (list Rule) RuleError :=
  match raw with
  | Some rules => collect_results Rule_parse rules
  | None => Ok []
  end.

(** ** The policy *)

Record PermissionsConfig := mkPermissionsConfig {
  cfg_mode : option PermissionMode;
  cfg_deny : option (list Str);
  cfg_allow : option (list Str);
  cfg_ask : option (list Str);
}.

Record ToolPolicy := mkToolPolicy {
  p_mode : PermissionMode;
  p_deny : list Rule;
  p_allow : list Rule;
  p_ask : list Rule;
}.

Definition ToolPolicy_default : ToolPolicy := mkToolPolicy Default [] [] [].

Definition from_config (config : option PermissionsConfig) : result ToolPolicy RuleError :=
  match config with
  | None => Ok ToolPolicy_default
  | Some c =>
      let? d := parse_rules (cfg_deny c) in
      let? a := parse_rules (cfg_allow c) in
      let? q := parse_rules (cfg_ask c) in
      Ok (mkToolPolicy (default Default (cfg_mode c)) d a q)
  end.

Definition set_mode (p : ToolPolicy) (m : PermissionMode) : ToolPolicy :=
  mkToolPolicy m (p_deny p) (p_allow p) (p_ask p).

Definition allow_for_session (p : ToolPolicy) (rule : Str) : result ToolPolicy RuleError :=
  let? r := Rule_parse rule in
  Ok (mkToolPolicy (p_mode p) (p_deny p) (p_allow p ++ [r]) (p_ask p)).

Definition denied (m : PermissionMode) (tool_name : Str) (what : string) : Decision :=
  Deny (mode_fmt m ++ str " mode does not allow `" ++ tool_name ++ str "`, which " ++ str what).

Definition mode_default (m : PermissionMode) (tool_name : Str) (e : ToolEffects) : Decision :=
  if changes_permissions e then
    match m with
    | Plan => Ask
    | _ => denied m tool_name "only applies while the session is in plan mode"
    end
  else if processes e then
    match m with
    | Plan | ReadOnly => denied m tool_name "starts a process"
    | Default | AcceptEdits => Ask
    end
  else if writes e || appends e then
    match m with
    | Plan | ReadOnly => denied m tool_name "modifies files"
    | Default => Ask
    | AcceptEdits => Allow
    end
  else if networks e then
    match m with
    | ReadOnly => denied m tool_name "performs network I/O"
    | _ => Ask
    end
  else Allow.

Definition decide_call `{JsonValue V} (p : ToolPolicy) (name : Str) (e : ToolEffects) (input : V)
    : Decision :=
  let tool_name := to_ascii_lowercase name in
  let target := match_target tool_name input in
  match List.find (λ r, Rule_matches r tool_name target true) (p_deny p) with
  | Some r => Deny (str "denied by permission rule `" ++ r_source r ++ str "`")
  | None =>
      if existsb (λ r, Rule_matches r tool_name target false) (p_allow p) then Allow
      else if existsb (λ r, Rule_matches r tool_name target false) (p_ask p) then Ask
      else mode_default (p_mode p) tool_name e
  end.

(** ** The gate [exit_plan_mode] goes through ([PermissionModeGate])

    [None] is a session whose policy was never bound. *)
Inductive GateError := NoPolicy | NotPlanMode (m : PermissionMode).

Definition leave_plan_mode (gate : option ToolPolicy)
    : result (ToolPolicy * PermissionMode) GateError :=
  match gate with
  | None => Err NoPolicy
  | Some p =>
      if bool_decide (p_mode p = Plan) then Ok (set_mode p Default, Default)
      else Err (NotPlanMode (p_mode p))
  end.

(** ** The rule "don't ask again" installs

    [char::is_alphanumeric] is a Unicode table; it is a parameter of the
    model. *)
Definition spawns_a_process (tool_name : Str) : bool :=
  bool_decide (to_ascii_lowercase tool_name ∈ [str "bash"; str "shell"]).

Fixpoint take_word (s : Str) : Str :=
  match s with
  | [] => []
  | c :: s' => if is_whitespace c then [] else c :: take_word s'
  end.

(** [split_whitespace().next()] *)
Definition first_word (s : Str) : option Str :=
  match trim_start s with [] => None | s' => Some (take_word s') end.

Definition session_rule_for `{JsonValue V} (is_alphanumeric : N → bool) (tool_name : Str)
    (arguments : V) : Str :=
  if negb (spawns_a_process tool_name) then tool_name
  else
    let command := default [] (json_get arguments (str "command") ≫= json_as_str) in
    match first_word command with
    | Some word =>
        if forallb (λ c, is_alphanumeric c || bool_decide (c ∈ str "-_./")) word
        then tool_name ++ str "(" ++ word ++ str ":*)"
        else tool_name
    | None => tool_name
    end.

(** * Properties *)

(** A concrete JSON object of string fields, for the witnesses. *)
Inductive flat_json := JStr (s : Str) | JObj (fields : list (Str * Str)).

Definition flat_get (v : flat_json) (key : Str) : option flat_json :=
  match v with
  | JObj fields => (λ kv, JStr (snd kv)) <$> List.find (λ kv, bool_decide (fst kv = key)) fields
  | JStr _ => None
  end.
Definition flat_as_str (v : flat_json) : option Str :=
  match v with JStr s => Some s | JObj _ => None end.
#[global] Instance flat_json_value : JsonValue flat_json :=
  {| json_get := flat_get; json_as_str := flat_as_str |}.

Definition bash_input (command : Str) : flat_json := JObj [(str "command", command)].

(** ** Globs *)

(** What a glob denotes: a literal matches itself, a double star any text,
    and a single star any text without the separator. *)
Inductive Glob (sep : option N) : Str → Str → Prop :=
| Glob_nil : Glob sep [] []
| Glob_literal c p t : c ≠ c_star → Glob sep p t → Glob sep (c :: p) (c :: t)
| Glob_double_star p u t : Glob sep p t → Glob sep (c_star :: c_star :: p) (u ++ t)
| Glob_star p u t :
    head p ≠ Some c_star → Forall (λ c, Some c ≠ sep) u → Glob sep p t →
    Glob sep (c_star :: p) (u ++ t).

Lemma star_scan_spec crosses sep m text :
  star_scan crosses sep m text = true ↔
  ∃ u t, text = u ++ t ∧ u ≠ [] ∧ (crosses = true ∨ Forall (λ c, Some c ≠ sep) u) ∧ m t = true.
Proof.
  induction text as [|ch text IH]; simpl.
  - split; [done|]. intros (u & t & H & Hu & _). by destruct u.
  - destruct (negb crosses && bool_decide (Some ch = sep)) eqn:E.
    + bool_to_prop. split; [done|]. intros (u & t & Heq & Hu & Hs & _).
      destruct u as [|c u]; [done|]. simplify_eq/=.
      destruct Hs as [?|Hs]; [congruence|]. by apply Forall_cons in Hs as [? _].
    + assert (crosses = true ∨ Some ch ≠ sep) as Hch.
      { apply andb_false_iff in E as [E|E]; bool_to_prop; naive_solver. }
      rw orb_true_iff IH. split.
      * intros [Hm|(u & t & -> & Hu & Hs & Hm)].
        -- exists [ch], text. split_and!; [done|done| |done]. naive_solver.
        -- exists (ch :: u), t. split_and!; [done|done| |done]. naive_solver.
      * intros (u & t & H & Hu & Hs & Hm). destruct u as [|c u]; [done|]. simplify_eq/=.
        destruct u as [|c' u]; [by left|]. right. exists (c' :: u), t.
        split_and!; [done|done| |done]. destruct Hs as [?|Hs%Forall_cons]; naive_solver.
Qed.

(** The two calls of a star, at the current position and after a scan, are
    one existential over the text the star takes. *)
Lemma star_spec crosses sep m text :
  m text || star_scan crosses sep m text = true ↔
  ∃ u t, text = u ++ t ∧ (crosses = true ∨ Forall (λ c, Some c ≠ sep) u) ∧ m t = true.
Proof.
  rw orb_true_iff star_scan_spec. split.
  - intros [Hm|(u & t & ? & _ & ? & ?)]; [exists [], text|exists u, t]; naive_solver.
  - intros (u & t & -> & Hs & Hm). destruct u as [|c u]; [by left|].
    right. exists (c :: u), t. naive_solver.
Qed.

Lemma glob_match_spec sep p text : glob_match sep p text = true ↔ Glob sep p text.
Proof.
  remember (length p) as n eqn:Hn. revert p text Hn.
  induction (lt_wf n) as [n _ IH']. intros p text ->.
  assert (∀ q t, (length q < length p)%nat → glob_match sep q t = true ↔ Glob sep q t) as IH
    by (intros q t Hq; by apply (IH' (length q))). clear IH'.
  destruct p as [|first rest1].
  { destruct text; simpl; split; try done; [constructor|by inversion 1]. }
  simpl in IH |- *. destruct (N.eqb_spec first c_star) as [->|Hne].
  - destruct rest1 as [|second rest2]; [|destruct (N.eqb_spec second c_star) as [->|Hne2]];
      rw star_spec; split.
    + intros (u & t & -> & [?|Hu] & Hm%IH);
        try done; try (simpl; lia); by constructor.
    + inversion 1 as [| | |p' u t Hh Hu HG]; simplify_eq; try done.
      apply IH in HG; [naive_solver|simpl; lia].
    + intros (u & t & -> & _ & Hm%IH); [by constructor|simpl; lia].
    + inversion 1 as [| |p' u t HG|p' u t Hh Hu HG]; simplify_eq; try done.
      apply IH in HG; [naive_solver|simpl; lia].
    + intros (u & t & -> & [?|Hu] & Hm%IH);
        try done; try (simpl; lia); constructor; naive_solver.
    + inversion 1 as [| | |p' u t Hh Hu HG]; simplify_eq; try done.
      apply IH in HG; [naive_solver|simpl; lia].
  - destruct text as [|t text].
    + split; [done|]. inversion 1; simplify_eq.
    + rw andb_true_iff N.eqb_eq IH; [|lia]. split.
      * intros [-> ?]. by constructor.
      * inversion 1; simplify_eq; done.
Qed.

(** ** Command normalisation *)

#[local] Arguments strip_prefix : simpl never.

Lemma push_space_acc acc prev : push_space acc prev = acc ++ push_space [] prev.
Proof. destruct prev; simpl; [by rw app_nil_r|done]. Qed.

Lemma normalize_loop_acc fuel acc prev rem :
  normalize_loop fuel acc prev rem = acc ++ normalize_loop fuel [] prev rem.
Proof.
  revert acc prev rem. induction fuel as [|n IH]; intros acc prev rem; cbn [normalize_loop].
  { by rw app_nil_r. }
  destruct rem as [|ch chars]; [by rw app_nil_r|].
  repeat case_match;
    first [ exact (IH _ _ _)
          | rw (IH (push_space acc _)) (IH (push_space [] _)) (push_space_acc acc) -app_assoc //
          | rw (IH (acc ++ _)) (IH ([] ++ _)) -app_assoc // ].
Qed.

Lemma strip_prefix_length p s r : strip_prefix p s = Some r → length s = (length p + length r)%nat.
Proof. intros ->%strip_prefix_spec. by rw length_app. Qed.

(** More fuel than the length of the input changes nothing. *)
Lemma normalize_fuel_gen f1 f2 acc prev rem :
  (length rem ≤ f1)%nat → (length rem ≤ f2)%nat →
  normalize_loop f1 acc prev rem = normalize_loop f2 acc prev rem.
Proof.
  revert f2 acc prev rem. induction f1 as [|n IH]; intros f2 acc prev rem H1 H2.
  { destruct rem; [|simpl in *; lia]. by destruct f2. }
  destruct rem as [|ch chars]; [by destruct f2|]. destruct f2 as [|m]; [simpl in *; lia|].
  cbn [normalize_loop].
  destruct (strip_prefix (str "${ifs}") _) as [r|] eqn:E1.
  { apply strip_prefix_length in E1. change (length (str "${ifs}")) with 6%nat in E1.
    simpl in *. apply IH; lia. }
  destruct (strip_prefix (str "$ifs") _) as [r|] eqn:E2.
  { apply strip_prefix_length in E2. change (length (str "$ifs")) with 4%nat in E2.
    simpl in *. apply IH; lia. }
  simpl in H1, H2. repeat case_match; subst; simpl in *; apply IH; simpl; lia.
Qed.

Lemma normalize_fuel fuel acc prev rem :
  (length rem ≤ fuel)%nat →
  normalize_loop fuel acc prev rem = normalize_loop (length rem) acc prev rem.
Proof. intros. apply normalize_fuel_gen; lia. Qed.

(** What is appended for the rest of a command. *)
Definition norm (prev : bool) (s : Str) : Str := normalize_loop (length s) [] prev s.

Lemma normalize_command_norm s : normalize_command s = norm false s.
Proof. done. Qed.

Lemma norm_fuel fuel acc prev s :
  (length s ≤ fuel)%nat → normalize_loop fuel acc prev s = acc ++ norm prev s.
Proof. intros. by rw normalize_fuel // normalize_loop_acc. Qed.

(** The turns of the loop as equations of [norm]. *)
Lemma norm_strip prev s r :
  strip_prefix (str "${ifs}") s = Some r ∨
  (strip_prefix (str "${ifs}") s = None ∧ strip_prefix (str "$ifs") s = Some r) →
  norm prev s = push_space [] prev ++ norm true r.
Proof.
  intros H. destruct s as [|c s]; [by destruct H as [?|[? ?]]|].
  assert (length r ≤ length s)%nat as Hlen.
  { destruct H as [H|[_ H]]; apply strip_prefix_length in H.
    - change (length (str "${ifs}")) with 6%nat in H. simpl in H. lia.
    - change (length (str "$ifs")) with 4%nat in H. simpl in H. lia. }
  unfold norm at 1. cbn [normalize_loop length].
  destruct H as [->|[-> ->]]; by rw norm_fuel.
Qed.

Lemma norm_ifs_brace prev s : norm prev (str "${ifs}" ++ s) = push_space [] prev ++ norm true s.
Proof. apply norm_strip. left. by apply strip_prefix_spec. Qed.

Lemma norm_ifs prev s : norm prev (str "$ifs" ++ s) = push_space [] prev ++ norm true s.
Proof. apply norm_strip. right. split; [done|]. by apply strip_prefix_spec. Qed.

Lemma strip_dollar_None c s :
  c ≠ c_dollar →
  strip_prefix (str "${ifs}") (c :: s) = None ∧ strip_prefix (str "$ifs") (c :: s) = None.
Proof.
  intros H. split; cbv [str strip_prefix];
    (replace (_ =? c)%N with false; [done|]; symmetry; by apply N.eqb_neq, not_eq_sym).
Qed.

(** Unfolds one turn of [norm] on a character other than the dollar, and
    concludes on the rest of the command. *)
Ltac norm_turn c H :=
  unfold norm at 1; cbn [length];
  match goal with
  | |- context [normalize_loop (S ?n) _ _ (c :: ?s)] =>
      remember n as fuel eqn:Hfuel; cbn [normalize_loop];
      let H1 := fresh in let H2 := fresh in
      destruct (strip_dollar_None c s H) as [H1 H2]; rw H1 H2; cbv zeta; clear H1 H2
  end.
Ltac norm_done := rw norm_fuel; [done|subst; simpl; lia].

Lemma norm_quote prev c s : is_quote c = true → norm prev (c :: s) = norm prev s.
Proof.
  intros H. assert (c ≠ c_dollar) as Hd by (intros ->; done).
  norm_turn c Hd. rw H. norm_done.
Qed.

Lemma norm_space prev c s :
  is_ascii_whitespace c = true → norm prev (c :: s) = push_space [] prev ++ norm true s.
Proof.
  intros H. assert (c ∈ [c_tab; c_nl; c_ff; c_cr; c_space]) as Hc by by apply bool_decide_eq_true_1 in H.
  assert (c ≠ c_dollar ∧ is_quote c = false ∧ (c =? c_backslash)%N = false) as (H1 & H2 & H3).
  { repeat (apply elem_of_cons in Hc as [->|Hc]; [done|]). by apply not_elem_of_nil in Hc. }
  norm_turn c H1. rw H2 H3 H. norm_done.
Qed.

Lemma norm_char prev c s :
  c ≠ c_dollar → c ≠ c_backslash → is_quote c = false → is_ascii_whitespace c = false →
  norm prev (c :: s) = c :: norm false s.
Proof.
  intros H1 H2 H3 H4. norm_turn c H1. rw H3 H4.
  destruct (N.eqb_spec c c_backslash); [done|]. norm_done.
Qed.

Lemma norm_escaped_space prev c s :
  is_ascii_whitespace c = true → c ≠ c_nl → c ≠ c_cr →
  norm prev (c_backslash :: c :: s) = push_space [] prev ++ norm true s.
Proof.
  intros H Hnl Hcr. assert (c_backslash ≠ c_dollar) as Hd by done.
  norm_turn c_backslash Hd. cbn [is_quote c_backslash c_squote c_dquote N.eqb Pos.eqb orb].
  destruct (N.eqb_spec c c_nl); [done|]. destruct (N.eqb_spec c c_cr); [done|].
  rw /= H. norm_done.
Qed.

(** Two continuations that normalise alike do so after any plain prefix. *)
Lemma norm_context a x y :
  c_dollar ∉ a → c_backslash ∉ a → (∀ prev, norm prev x = norm prev y) →
  ∀ prev, norm prev (a ++ x) = norm prev (a ++ y).
Proof.
  intros Hd Hb Hxy. induction a as [|c a IH]; intros prev; [apply Hxy|].
  apply not_elem_of_cons in Hd as [Hd Hda], Hb as [Hb Hba]. simpl.
  destruct (is_quote c) eqn:Eq; [rw !norm_quote //; auto|].
  destruct (is_ascii_whitespace c) eqn:Ew; [rw !norm_space //; f_equal; auto|].
  rw !norm_char //. f_equal. auto.
Qed.

(** The shape of a normalised command: no quotes, the space is the only ASCII
    white space, and no two spaces are adjacent. *)
Definition plain_char (c : N) : Prop :=
  is_quote c = false ∧ (is_ascii_whitespace c = true → c = c_space).

Definition no_double_space (s : Str) : Prop :=
  ∀ a b, s ≠ a ++ [c_space; c_space] ++ b.

Lemma no_double_space_snoc s c :
  no_double_space s → (c = c_space → last s ≠ Some c_space) → no_double_space (s ++ [c]).
Proof.
  intros Hs Hc a b. destruct b as [|d b _] using rev_ind; intros Heq.
  - simpl in Heq. rw (app_assoc a [c_space] [c_space]) in Heq.
    apply app_inj_tail in Heq as [-> ->]. apply Hc; [done|]. by rw last_snoc.
  - rw !app_assoc in Heq. apply app_inj_tail in Heq as [-> ->].
    by apply (Hs a b); rw -app_assoc.
Qed.

Definition norm_inv (acc : Str) (prev : bool) : Prop :=
  Forall plain_char acc ∧ no_double_space acc ∧ (prev = false → last acc ≠ Some c_space).

Lemma norm_inv_push_space acc prev : norm_inv acc prev → norm_inv (push_space acc prev) true.
Proof.
  intros (H1 & H2 & H3). destruct prev; simpl; [by split_and!|]. split_and!; [|..|done].
  - apply Forall_app. by repeat constructor.
  - apply no_double_space_snoc; auto.
Qed.

Lemma norm_inv_push acc prev c :
  norm_inv acc prev → is_quote c = false → is_ascii_whitespace c = false →
  norm_inv (acc ++ [c]) false.
Proof.
  intros (H1 & H2 & H3) Hq Hw.
  assert (c ≠ c_space) by (intros ->; done). split_and!.
  - apply Forall_app. split; [done|]. repeat constructor; congruence.
  - by apply no_double_space_snoc.
  - intros _. rw last_snoc. congruence.
Qed.

Lemma normalize_loop_shape fuel acc prev rem :
  norm_inv acc prev →
  Forall plain_char (normalize_loop fuel acc prev rem) ∧
  no_double_space (normalize_loop fuel acc prev rem).
Proof.
  revert acc prev rem. induction fuel as [|n IH]; intros acc prev rem HI; simpl.
  { by destruct HI as (? & ? & _). }
  destruct rem as [|ch chars]; [by destruct HI as (? & ? & _)|].
  pose proof (norm_inv_push_space _ _ HI).
  repeat case_match; simplify_eq; apply IH; eauto using norm_inv_push.
Qed.

(** ** Effects *)

Lemma land_pow2 a n : 0 ≤ n → Z.land a (2 ^ n) = if Z.testbit a n then 2 ^ n else 0.
Proof.
  intros Hn. apply Z.bits_inj'. intros k Hk. rw Z.land_spec Z.pow2_bits_eqb //.
  destruct (Z.eqb_spec n k) as [->|Hne].
  - destruct (Z.testbit a k); [by rw Z.pow2_bits_true|by rw Z.bits_0].
  - rw andb_false_r. destruct (Z.testbit a n); [by rw Z.pow2_bits_false|by rw Z.bits_0].
Qed.

(** A declared effect is a bit of the mask. *)
Lemma has_bit_testbit n e : 0 ≤ n → has_bit (Z.shiftl 1 n) e = Z.testbit (bits e) n.
Proof.
  intros Hn. unfold has_bit. rw Z.shiftl_1_l land_pow2 //.
  destruct (Z.testbit (bits e) n); [|done].
  destruct (Z.eqb_spec (2 ^ n) 0); [|done]. pose proof (Z.pow_pos_nonneg 2 n). lia.
Qed.

(** The README's table of modes, over the declared effect bits: what a mode
    runs without asking. *)
Definition mode_clears (m : PermissionMode) (e : ToolEffects) : Prop :=
  Z.testbit (bits e) 5 = false ∧ Z.testbit (bits e) 4 = false ∧
  (Z.testbit (bits e) 1 = true ∨ Z.testbit (bits e) 2 = true → m = AcceptEdits) ∧
  (Z.testbit (bits e) 1 = false ∧ Z.testbit (bits e) 2 = false → Z.testbit (bits e) 3 = false).

Lemma mode_default_Allow m name e : mode_default m name e = Allow ↔ mode_clears m e.
Proof.
  unfold mode_default, mode_clears, changes_permissions, processes, writes, appends, networks.
  unfold PERMISSION, PROCESS, WRITE, APPEND, NETWORK. rw !has_bit_testbit //.
  destruct (Z.testbit (bits e) 5), (Z.testbit (bits e) 4), (Z.testbit (bits e) 1),
    (Z.testbit (bits e) 2), (Z.testbit (bits e) 3), m; simpl; naive_solver.
Qed.

(** ** Decisions *)

Section Decide.
Context `{JsonValue V}.
Implicit Types (p : ToolPolicy) (input : V).

(** The rules of [l] that apply to a call. *)
Definition rule_applies (l : list Rule) (name : Str) (input : V) (fail_closed : bool) : Prop :=
  ∃ r, r ∈ l ∧ Rule_matches r (to_ascii_lowercase name)
                 (match_target (to_ascii_lowercase name) input) fail_closed = true.

Lemma existsb_applies l name input fc :
  existsb (λ r, Rule_matches r (to_ascii_lowercase name)
                  (match_target (to_ascii_lowercase name) input) fc) l = true ↔
  rule_applies l name input fc.
Proof. rw existsb_exists. unfold rule_applies. setoid_rewrite list_elem_of_In. done. Qed.

(** The verdicts of [decide_call], one per way of reaching them. *)
Lemma decide_call_cases p name e input :
  (∃ r, r ∈ p_deny p ∧
     Rule_matches r (to_ascii_lowercase name) (match_target (to_ascii_lowercase name) input) true
       = true ∧
     decide_call p name e input = Deny (str "denied by permission rule `" ++ r_source r ++ str "`"))
  ∨ (¬ rule_applies (p_deny p) name input true ∧
     ((rule_applies (p_allow p) name input false ∧ decide_call p name e input = Allow)
      ∨ (¬ rule_applies (p_allow p) name input false ∧
         ((rule_applies (p_ask p) name input false ∧ decide_call p name e input = Ask)
          ∨ (¬ rule_applies (p_ask p) name input false ∧
             decide_call p name e input =
               mode_default (p_mode p) (to_ascii_lowercase name) e))))).
Proof.
  unfold decide_call. destruct (List.find _ (p_deny p)) as [r|] eqn:Hd.
  { apply find_some in Hd as [Hin Hm]. left. exists r. by rw list_elem_of_In. }
  right. split.
  { intros (r & Hr%list_elem_of_In & Hm).
    pose proof (find_none _ _ Hd r Hr) as Hn. simpl in Hn. congruence. }
  destruct (existsb _ (p_allow p)) eqn:Ha.
  { left. by rw -existsb_applies. }
  right. rw -existsb_applies Ha. split; [done|].
  destruct (existsb _ (p_ask p)) eqn:Hq; [left|right]; rw -existsb_applies Hq; done.
Qed.
End Decide.

(** ** Pattern lemmas *)

(** A rest that a prefix rule accepts: nothing, or white space first. *)
Definition at_word_boundary (rest : Str) : Prop :=
  match rest with [] => True | c :: _ => is_whitespace c = true end.

Lemma Pattern_parse_prefix pre g :
  c_colon ∉ pre →
  Pattern_parse (pre ++ c_colon :: g) = mkPattern (Some (to_ascii_lowercase (trim pre))) g.
Proof.
  intros H. unfold Pattern_parse.
  destruct (split_once c_colon (pre ++ c_colon :: g)) as [[l r]|] eqn:E.
  - apply split_once_spec in E as [Heq Hl].
    assert (split_once c_colon (pre ++ c_colon :: g) = Some (pre, g)) as E'
      by by apply split_once_spec.
    assert (split_once c_colon (pre ++ c_colon :: g) = Some (l, r)) as E''
      by by apply split_once_spec.
    congruence.
  - assert (split_once c_colon (pre ++ c_colon :: g) = Some (pre, g)) as E'
      by by apply split_once_spec. congruence.
Qed.

Lemma Pattern_matches_prefix pre g kind target :
  Pattern_matches (mkPattern (Some pre) g) kind target = true ↔
  ∃ rest, target = pre ++ rest ∧ at_word_boundary rest ∧
    Glob (separator kind) g (trim_start rest).
Proof.
  unfold Pattern_matches. simpl. destruct (strip_prefix pre target) as [rest|] eqn:E.
  - apply strip_prefix_spec in E as ->. split.
    + intros Hm. exists rest. destruct rest as [|c rest]; simpl in *.
      { split_and!; [done|done|by apply glob_match_spec]. }
      destruct (is_whitespace c) eqn:Ec; [|done].
      split_and!; [done|done|by apply glob_match_spec].
    + intros (rest' & Heq & Hb & Hg%glob_match_spec). apply app_inv_head in Heq as <-.
      destruct rest as [|c rest]; [done|]. simpl in *. by rw Hb in Hg |- *.
  - split; [done|]. intros (rest & Heq%strip_prefix_spec & _). congruence.
Qed.

Lemma Glob_any t : Glob None [c_star] t.
Proof.
  rw -(app_nil_r t). constructor; [done| |constructor].
  by apply Forall_forall.
Qed.

(** A literal of the pattern is a character of every text it matches. *)
Lemma Glob_literal_in sep p t c : Glob sep p t → c ∈ p → c ≠ c_star → c ∈ t.
Proof.
  intros HG Hc Hne. induction HG; rw ?elem_of_cons ?elem_of_app in Hc |- *.
  - by apply not_elem_of_nil in Hc.
  - naive_solver.
  - naive_solver.
  - naive_solver.
Qed.

(** Normalisation introduces no character but the space. *)
Lemma norm_loop_chars fuel acc prev rem c :
  c ∈ normalize_loop fuel acc prev rem → c = c_space ∨ c ∈ acc ∨ c ∈ rem.
Proof.
  revert acc prev rem. induction fuel as [|n IH]; intros acc prev rem; cbn [normalize_loop]; [tauto|].
  assert (∀ prev, c ∈ push_space acc prev → c = c_space ∨ c ∈ acc) as Hps.
  { intros []; simpl; [tauto|]. rw elem_of_app list_elem_of_singleton. tauto. }
  destruct rem as [|ch chars]; [tauto|].
  destruct (strip_prefix (str "${ifs}") _) as [r|] eqn:E1;
    [|destruct (strip_prefix (str "$ifs") _) as [r|] eqn:E2].
  - apply strip_prefix_spec in E1. rw E1 elem_of_app. intros H%IH. naive_solver.
  - apply strip_prefix_spec in E2. rw E2 elem_of_app. intros H%IH. naive_solver.
  - clear E1 E2. cbv zeta.
    repeat case_match; intros Hin%IH; rw ?elem_of_app ?elem_of_cons in Hin |- *;
      rw ?elem_of_nil in Hin |- *; naive_solver.
Qed.

Lemma normalize_command_upper cmd c :
  c ∈ normalize_command (to_ascii_lowercase cmd) → (65 <=? c)%N && (c <=? 90)%N = false.
Proof.
  intros [->|[H|H]]%norm_loop_chars; [done|by apply not_elem_of_nil in H|].
  apply list_elem_of_fmap in H as (d & -> & _). apply to_ascii_lower_not_upper.
Qed.

(** ** Rules written [tool(pattern)] *)

Lemma find_char_app c l r : c ∉ l → find_char c (l ++ c :: r) = Some (length l).
Proof.
  induction l as [|a l IH]; intros H; simpl; [by rw N.eqb_refl|].
  apply not_elem_of_cons in H as [H1 H2].
  destruct (N.eqb_spec a c); [congruence|]. by rw IH.
Qed.

Lemma trim_bounded c s d :
  is_whitespace c = false → is_whitespace d = false → trim (c :: s ++ [d]) = c :: s ++ [d].
Proof.
  intros Hc Hd. unfold trim. rw trim_start_nonblank // trim_end_cons //. f_equal.
  unfold trim_end. rw reverse_snoc trim_start_nonblank // reverse_cons reverse_involutive //.
Qed.

Lemma inner_slice_wrapped t body :
  inner_slice (length t) (t ++ c_lparen :: body ++ [c_rparen]) = body.
Proof.
  unfold inner_slice. rw cons_middle app_assoc drop_app_length'.
  - rw take_app_length' // !length_app /=. lia.
  - rw length_app /=. lia.
Qed.

(** Printing a rule as [tool(body)] and parsing it gives the tool and the
    pattern back. *)
Lemma Rule_parse_wrapped t body :
  t ≠ [] → Forall (λ c, is_whitespace c = false) t → c_lparen ∉ t →
  Rule_parse (t ++ c_lparen :: body ++ [c_rparen]) =
    Ok (mkRule (to_ascii_lowercase t) (Some (Pattern_parse body))
          (t ++ c_lparen :: body ++ [c_rparen])).
Proof.
  intros Hne Hw Hp. unfold Rule_parse.
  assert (trim (t ++ c_lparen :: body ++ [c_rparen]) = t ++ c_lparen :: body ++ [c_rparen]) as ->.
  { destruct t as [|c t]; [done|]. apply Forall_cons in Hw as [Hc _].
    rw /= (app_comm_cons body [c_rparen] c_lparen) app_assoc. by apply trim_bounded. }
  assert (is_empty (t ++ c_lparen :: body ++ [c_rparen]) = false) as -> by by destruct t.
  rw find_char_app //.
  assert (ends_with (t ++ c_lparen :: body ++ [c_rparen]) [c_rparen] = true) as ->.
  { unfold ends_with. rw (app_comm_cons body [c_rparen] c_lparen) app_assoc reverse_snoc.
    apply starts_with_spec. by eexists. }
  cbv zeta beta. rw take_app_length trim_clean // inner_slice_wrapped.
  by destruct t.
Qed.

Lemma take_word_clean s : Forall (λ c, is_whitespace c = false) (take_word s).
Proof. induction s as [|c s IH]; simpl; [done|]. by destruct (is_whitespace c) eqn:E; constructor. Qed.

Lemma first_word_spec s w :
  first_word s = Some w → w ≠ [] ∧ Forall (λ c, is_whitespace c = false) w.
Proof.
  unfold first_word. destruct (trim_start s) as [|c r] eqn:E; [done|].
  intros [= <-]. split; [|apply (take_word_clean (c :: r))].
  simpl. by rw (trim_start_head _ _ _ E).
Qed.

(** ** The properties of the policy *)

(** A deny rule that applies to a call wins over every mode and over any
    set of allow and ask rules; the verdict names a deny rule that applies. *)
Theorem deny_rule_always_wins `{JsonValue V} p name e (input : V) m allows asks :
  rule_applies (p_deny p) name input true →
  ∃ r, r ∈ p_deny p ∧
    Rule_matches r (to_ascii_lowercase name) (match_target (to_ascii_lowercase name) input) true
      = true ∧
    decide_call (mkToolPolicy m (p_deny p) allows asks) name e input
      = Deny (str "denied by permission rule `" ++ r_source r ++ str "`").
Proof.
  intros Hd. destruct (decide_call_cases (mkToolPolicy m (p_deny p) allows asks) name e input)
    as [Hc|[Hn _]]; [exact Hc|]. by destruct Hn.
Qed.

(** The source's own example: a deny rule on [git push] beside an allow rule
    on [git]. *)
Definition push_policy : ToolPolicy :=
  match from_config (Some (mkPermissionsConfig (Some AcceptEdits)
          (Some [str "Bash(git push:*)"]) (Some [str "Bash(git:*)"]) None)) with
  | Ok p => p
  | Err _ => ToolPolicy_default
  end.
Definition push_call : flat_json := bash_input (str "git push --force").

Lemma deny_rule_always_wins_witness :
  ∃ r, r ∈ p_deny push_policy ∧
    Rule_matches r (str "bash") (match_target (str "bash") push_call) true = true ∧
    decide_call (mkToolPolicy AcceptEdits (p_deny push_policy) (p_allow push_policy) [])
      (str "bash") effects_process push_call
      = Deny (str "denied by permission rule `" ++ r_source r ++ str "`").
Proof.
  apply (deny_rule_always_wins push_policy (str "bash") effects_process push_call AcceptEdits
           (p_allow push_policy) []).
  eexists. split; [left|vm_compute; reflexivity].
Defined.

(** A call runs without a prompt exactly when no deny rule applies and it
    is cleared, by an allow rule or, with no ask rule applying, by the mode:
    the mode clears no permission change and no process, file changes only in
    accept-edits mode, and network access never. *)
Theorem runs_only_when_cleared `{JsonValue V} p name e (input : V) :
  decide_call p name e input = Allow ↔
  ¬ rule_applies (p_deny p) name input true ∧
  (rule_applies (p_allow p) name input false ∨
   (¬ rule_applies (p_ask p) name input false ∧ mode_clears (p_mode p) e)).
Proof.
  rw -(mode_default_Allow (p_mode p) (to_ascii_lowercase name) e).
  pose proof (decide_call_cases p name e input) as Hc. unfold rule_applies in *.
  destruct Hc as [(r & ? & ? & ->)|(Hd & [(Ha & ->)|(Ha & [(Hq & ->)|(Hq & ->)])])]; naive_solver.
Qed.

(** A call whose arguments hold no match target is treated as the
    narrower case on both sides: every deny rule for its tool refuses it,
    whatever its pattern, and only an allow rule without a pattern can clear
    it. *)
Theorem missing_target_fails_closed `{JsonValue V} p name e (input : V) :
  match_target (to_ascii_lowercase name) input = None →
  ((∃ r, r ∈ p_deny p ∧ r_tool r = to_ascii_lowercase name) →
     ∃ reason, decide_call p name e input = Deny reason) ∧
  (decide_call p name e input = Allow →
     (∃ r, r ∈ p_allow p ∧ r_tool r = to_ascii_lowercase name ∧ r_pattern r = None) ∨
     mode_clears (p_mode p) e).
Proof.
  intros Ht. pose proof (decide_call_cases p name e input) as Hc. unfold rule_applies in Hc.
  rw Ht in Hc. split.
  - intros (r & Hr & Hn).
    assert (Rule_matches r (to_ascii_lowercase name) None true = true).
    { unfold Rule_matches. rw bool_decide_eq_true_2 //=. by destruct (r_pattern r). }
    destruct Hc as [(r' & ? & ? & ->)|(Hd & _)]; [eauto|]. destruct Hd; eauto.
  - rw -(mode_default_Allow (p_mode p) (to_ascii_lowercase name) e).
    destruct Hc as [(r & ? & ? & ->)|(Hd & [(Ha & ->)|(Ha & [(Hq & ->)|(Hq & ->)])])];
      intros Heq; [done| |done|by right].
    left. destruct Ha as (r & Hr & Hm). exists r. unfold Rule_matches in Hm.
    case_bool_decide; [|done]. simpl in Hm. by destruct (r_pattern r).
Qed.

Lemma missing_target_fails_closed_witness :
  ∃ reason, decide_call (mkToolPolicy AcceptEdits [mkRule (str "subagent")
      (Some (Pattern_parse (str "planner:*"))) (str "subagent(planner:*)")] [] [])
    (str "Subagent") effects_read (bash_input (str "ls")) = Deny reason.
Proof.
  refine (proj1 (missing_target_fails_closed _ (str "Subagent") effects_read
            (bash_input (str "ls")) _) _); [vm_compute; reflexivity|].
  eexists. split; [left|vm_compute; reflexivity].
Defined.

(** C38: the glob matcher decides the denotation of globs, for commands (no
    separator) and for paths (single stars stop at the slash). *)
Theorem glob_match_correct kind pattern text :
  glob_match (separator kind) pattern text = true ↔ Glob (separator kind) pattern text.
Proof. apply glob_match_spec. Qed.

(** A rule argument [prefix:glob] matches exactly the targets that are
    the lower-cased, trimmed prefix, then nothing or white space, then a text
    of the glob. *)
Theorem prefix_pattern_word_boundary pre g kind target :
  c_colon ∉ pre →
  Pattern_matches (Pattern_parse (pre ++ c_colon :: g)) kind target = true ↔
  ∃ rest, target = to_ascii_lowercase (trim pre) ++ rest ∧ at_word_boundary rest ∧
    Glob (separator kind) g (trim_start rest).
Proof. intros H. rw Pattern_parse_prefix //. apply Pattern_matches_prefix. Qed.

Lemma prefix_pattern_word_boundary_witness :
  Pattern_matches (Pattern_parse (str "git commit:*")) Command (str "git commit -m x") = true ∧
  Pattern_matches (Pattern_parse (str "git commit:*")) Command (str "git commit-tree") = false.
Proof.
  split; [|vm_compute; reflexivity].
  apply (prefix_pattern_word_boundary (str "git commit") [c_star] Command).
  - apply (bool_decide_eq_true_1 _). vm_compute. reflexivity.
  - exists (str " -m x"). split_and!; [reflexivity|reflexivity|]. apply Glob_any.
Defined.

(** A normalised command holds no quote, its only ASCII white space is
    the space, and no two spaces are adjacent. *)
Theorem normalize_command_shape command :
  Forall plain_char (normalize_command command) ∧ no_double_space (normalize_command command).
Proof.
  apply normalize_loop_shape. split_and!; [done| |done].
  intros a b Heq. by destruct a.
Qed.

(** After any prefix without a dollar or a backslash, the spellings of
    white space ([${ifs}], [$ifs], an escaped blank, any run of blanks) all
    normalise like one space, and a quote like nothing at all. *)
Theorem normalize_command_obfuscation a b q :
  c_dollar ∉ a → c_backslash ∉ a → is_quote q = true →
  let n := normalize_command in
  n (a ++ str "${ifs}" ++ b) = n (a ++ c_space :: b) ∧
  n (a ++ str "$ifs" ++ b) = n (a ++ c_space :: b) ∧
  n (a ++ c_backslash :: c_space :: b) = n (a ++ c_space :: b) ∧
  n (a ++ c_tab :: c_space :: b) = n (a ++ c_space :: b) ∧
  n (a ++ q :: b) = n (a ++ b).
Proof.
  intros Hd Hb Hq n. unfold n. rw !normalize_command_norm.
  split_and!; (apply norm_context; [exact Hd|exact Hb|]); intros prev.
  - by rw norm_ifs_brace norm_space.
  - by rw norm_ifs norm_space.
  - by rw norm_escaped_space // norm_space.
  - rw (norm_space prev c_tab) // (norm_space true c_space) // (norm_space prev c_space) //.
  - by rw norm_quote.
Qed.

Lemma normalize_command_obfuscation_witness :
  normalize_command (str "rm" ++ str "${ifs}" ++ str "-rf /")
  = normalize_command (str "rm" ++ c_space :: str "-rf /").
Proof.
  refine (proj1 (normalize_command_obfuscation (str "rm") (str "-rf /") c_squote _ _ _));
    [apply (bool_decide_eq_true_1 _); vm_compute; reflexivity..|reflexivity].
Defined.

(** The rule "don't ask again" installs for a shell command whose first
    word [w] has only alphanumerics and [-_./] clears exactly the commands
    that start with that word at a word boundary, so everything after the
    word is covered, a second command after a semicolon included.
    [is_alphanumeric] is [char::is_alphanumeric], of which only the colon's
    classification matters. *)
Theorem session_grant_scope (is_alphanumeric : N → bool) cmd w :
  is_alphanumeric c_colon = false →
  first_word cmd = Some w →
  forallb (λ c, is_alphanumeric c || bool_decide (c ∈ str "-_./")) w = true →
  ∃ r, Rule_parse (session_rule_for is_alphanumeric (str "bash") (bash_input cmd)) = Ok r ∧
    ∀ target, Rule_matches r (str "bash") (Some (Command, target)) false = true ↔
      ∃ rest, target = to_ascii_lowercase w ++ rest ∧ at_word_boundary rest.
Proof.
  intros Hcolon Hw Hok. destruct (first_word_spec _ _ Hw) as [Hne Hclean].
  assert (session_rule_for is_alphanumeric (str "bash") (bash_input cmd) =
            str "bash" ++ c_lparen :: (w ++ [c_colon; c_star]) ++ [c_rparen]) as ->.
  { unfold session_rule_for. replace (json_get _ _ ≫= json_as_str) with (Some cmd) by done.
    cbn [default]. rw Hw Hok -app_assoc. done. }
  assert (c_colon ∉ w) as Hcw.
  { intros Hin%list_elem_of_In. rw forallb_forall in Hok.
    specialize (Hok _ Hin). rw Hcolon in Hok. done. }
  eexists. split.
  { apply Rule_parse_wrapped; [done|by repeat constructor|].
    apply (bool_decide_eq_true_1 _). vm_compute. reflexivity. }
  intros target. unfold Rule_matches. cbn [r_tool r_pattern].
  rw bool_decide_eq_true_2; [|reflexivity]. cbn [negb].
  rw (Pattern_parse_prefix w [c_star] Hcw) trim_clean // Pattern_matches_prefix.
  split; [naive_solver|]. intros (rest & ? & ?). exists rest. split_and!; [done|done|apply Glob_any].
Qed.

(** Approving [git status] for the session clears [git status; rm -rf ~]. *)
Lemma session_grant_scope_witness :
  ∃ r, Rule_parse (session_rule_for (λ c, (97 <=? c)%N) (str "bash")
                     (bash_input (str "git status"))) = Ok r ∧
    Rule_matches r (str "bash") (Some (Command, str "git status; rm -rf ~")) false = true.
Proof.
  destruct (session_grant_scope (λ c, (97 <=? c)%N) (str "git status") (str "git")
              eq_refl eq_refl eq_refl) as (r & Hr & Hm).
  exists r. split; [exact Hr|]. apply Hm. exists (str " status; rm -rf ~"). split; reflexivity.
Defined.

(** A URL rule never matches: the colon of the scheme makes the scheme a
    word prefix, and in a URL the scheme is followed by that colon, which is
    no word boundary.  The source's example, a [web_fetch] rule for everything
    under [https://docs.rs/], matches no URL. *)
Theorem url_rule_never_matches scheme rest_of_rule kind rest_of_url :
  c_colon ∉ scheme → trim scheme = scheme → to_ascii_lowercase scheme = scheme →
  Pattern_matches (Pattern_parse (scheme ++ c_colon :: rest_of_rule)) kind
    (scheme ++ c_colon :: rest_of_url) = false.
Proof.
  intros Hc Ht Hl. rw Pattern_parse_prefix // Ht Hl. apply not_true_iff_false.
  intros (rest & Heq & Hb & _)%Pattern_matches_prefix.
  apply app_inv_head in Heq as <-. done.
Qed.

Lemma url_rule_never_matches_witness :
  Pattern_matches (Pattern_parse (str "https://docs.rs/**")) Path
    (str "https://docs.rs/serde/latest") = false.
Proof.
  refine (url_rule_never_matches (str "https") (str "//docs.rs/**") Path
            (str "//docs.rs/serde/latest") _ _ _); [|reflexivity..].
  apply (bool_decide_eq_true_1 _). vm_compute. reflexivity.
Defined.

(** A blank before a command takes it out of reach of every rule with a
    command prefix, deny rules included: normalisation keeps the leading
    space, and no trimmed prefix starts with one. *)
Theorem leading_blank_evades_prefix_rules pre g command c :
  c_colon ∉ pre → trim pre ≠ [] → is_ascii_whitespace c = true →
  Pattern_matches (Pattern_parse (pre ++ c_colon :: g)) Command
    (normalize_command (to_ascii_lowercase (c :: command))) = false.
Proof.
  intros Hc Hne Hw. rw Pattern_parse_prefix //. apply not_true_iff_false.
  intros (rest & Heq & _)%Pattern_matches_prefix.
  assert (to_ascii_lower c = c) as Hlc.
  { apply bool_decide_eq_true_1 in Hw.
    repeat (apply elem_of_cons in Hw as [->|Hw]; [done|]). by apply not_elem_of_nil in Hw. }
  rw normalize_command_norm /= Hlc norm_space //= in Heq.
  destruct (trim pre) as [|x r] eqn:E; [done|]. pose proof (trim_head _ _ _ E) as Hx.
  injection Heq as Hhd _. rw -lower_keeps_whitespace -Hhd in Hx. done.
Qed.

(** The rule on [rm] commands does not apply to [" rm -rf /"]. *)
Lemma leading_blank_evades_prefix_rules_witness :
  Pattern_matches (Pattern_parse (str "rm:*")) Command
    (normalize_command (to_ascii_lowercase (str " rm -rf /"))) = false.
Proof.
  refine (leading_blank_evades_prefix_rules (str "rm") (str "*") (str "rm -rf /") c_space _ _ _).
  - apply (bool_decide_eq_true_1 _). vm_compute. reflexivity.
  - vm_compute. discriminate.
  - reflexivity.
Defined.

(** Command targets are lower-cased but globs are not, so a rule whose
    glob has an upper-case letter applies to no shell command. *)
Theorem upper_case_glob_never_matches g command c :
  c ∈ g → (65 <=? c)%N && (c <=? 90)%N = true → c_colon ∉ g →
  Pattern_matches (Pattern_parse g) Command
    (normalize_command (to_ascii_lowercase command)) = false.
Proof.
  intros Hin Hup Hcolon. apply not_true_iff_false. unfold Pattern_parse.
  destruct (split_once c_colon g) as [[l r]|] eqn:E.
  { apply split_once_spec in E as [-> _]. destruct Hcolon. rw elem_of_app. right. left. }
  intros HG%glob_match_spec. assert (c ≠ c_star) as Hne by (intros ->; done).
  pose proof (normalize_command_upper _ _ (Glob_literal_in _ _ _ _ HG Hin Hne)). congruence.
Qed.

Lemma upper_case_glob_never_matches_witness :
  Pattern_matches (Pattern_parse (str "git push -F*")) Command
    (normalize_command (to_ascii_lowercase (str "git push -F origin"))) = false.
Proof.
  refine (upper_case_glob_never_matches (str "git push -F*") (str "git push -F origin") 70%N _ _ _);
    [apply (bool_decide_eq_true_1 _); vm_compute; reflexivity|reflexivity|].
  apply (bool_decide_eq_true_1 _). vm_compute. reflexivity.
Defined.

(** ** Loading the rules *)

(** The rules a section of the configuration holds, none when it is absent. *)
Definition section_rules (raw : option (list Str)) : list Str := default [] raw.

Definition rules_loaded (raw : option (list Str)) (rules : list Rule) : Prop :=
  Forall2 (λ source r, Rule_parse source = Ok r) (section_rules raw) rules.

Lemma parse_rules_spec raw :
  match parse_rules raw with
  | Ok rules => rules_loaded raw rules
  | Err e => ∃ source, source ∈ section_rules raw ∧ Rule_parse source = Err e
  end.
Proof.
  destruct raw as [l|]; [|by constructor]. apply (collect_results_spec Rule_parse l).
Qed.

(** No rule of the configuration is dropped: a policy that loads has, in
    order, the parsed form of every rule of each section (and the configured
    mode, or the default one); a configuration with a malformed rule is
    refused as a whole, with the error of one of its rules. *)
Theorem config_loads_every_rule c :
  match from_config (Some c) with
  | Ok p => p_mode p = default Default (cfg_mode c) ∧ rules_loaded (cfg_deny c) (p_deny p) ∧
            rules_loaded (cfg_allow c) (p_allow p) ∧ rules_loaded (cfg_ask c) (p_ask p)
  | Err e => ∃ source,
      source ∈ section_rules (cfg_deny c) ++ section_rules (cfg_allow c) ++ section_rules (cfg_ask c) ∧
      Rule_parse source = Err e
  end.
Proof.
  unfold from_config. pose proof (parse_rules_spec (cfg_deny c)) as Hd.
  destruct (parse_rules (cfg_deny c)) as [d|e]; simpl; [|set_solver].
  pose proof (parse_rules_spec (cfg_allow c)) as Ha.
  destruct (parse_rules (cfg_allow c)) as [a|e]; simpl; [|set_solver].
  pose proof (parse_rules_spec (cfg_ask c)) as Hq.
  destruct (parse_rules (cfg_ask c)) as [q|e]; simpl; [done|set_solver].
Qed.
