(* ===== verification/Json.v ===== *)
(** * JSON values

    [serde_json::Value] with the [preserve_order] feature: an object is the
    list of its members in insertion order, with distinct keys.  Numbers are
    kept as their text, since the modelled code never computes with them.
    [canonical_json] is the agent's own normal form ([src/agent.rs]). *)

From S2P Require Import Prelude Text ToolPolicy.

Inductive Json :=
| JsonNull
| JsonBool (b : bool)
| JsonNumber (text : Str)
| JsonString (s : Str)
| JsonArray (items : list Json)
| JsonObject (members : list (Str * Json)).

(** Induction with the hypothesis for the items and members. *)
Section JsonInd.
Variable P : Json → Prop.
Hypothesis Pnull : P JsonNull.
Hypothesis Pbool : ∀ b, P (JsonBool b).
Hypothesis Pnumber : ∀ t, P (JsonNumber t).
Hypothesis Pstring : ∀ s, P (JsonString s).
Hypothesis Parray : ∀ l, Forall P l → P (JsonArray l).
Hypothesis Pobject : ∀ m, Forall (λ kv, P kv.2) m → P (JsonObject m).

Fixpoint Json_ind' (v : Json) : P v :=
  match v with
  | JsonNull => Pnull
  | JsonBool b => Pbool b
  | JsonNumber t => Pnumber t
  | JsonString s => Pstring s
  | JsonArray l =>
      Parray l ((fix go l : Forall P l :=
        match l with [] => Forall_nil_2 _ | x :: l' => Forall_cons_2 _ _ _ (Json_ind' x) (go l') end) l)
  | JsonObject m =>
      Pobject m ((fix go m : Forall (λ kv, P kv.2) m :=
        match m with
        | [] => Forall_nil_2 _
        | (k, x) :: m' => Forall_cons_2 (λ kv, P kv.2) (k, x) _ (Json_ind' x) (go m')
        end) m)
  end.
End JsonInd.

(** ** Accessors *)

Definition json_lookup (key : Str) (m : list (Str * Json)) : option Json :=
  (λ r, r.2.2) <$> list_find (λ kv : Str * Json, kv.1 = key) m.

Definition value_get (v : Json) (key : Str) : option Json :=
  match v with JsonObject m => json_lookup key m | _ => None end.
Definition value_as_str (v : Json) : option Str :=
  match v with JsonString s => Some s | _ => None end.
Definition value_is_null (v : Json) : bool :=
  match v with JsonNull => true | _ => false end.

#[global] Instance Json_value : JsonValue Json :=
  {| json_get := value_get; json_as_str := value_as_str |}.

(** [Map::insert]: replaces in place, or appends. *)
Fixpoint json_insert (k : Str) (v : Json) (m : list (Str * Json)) : list (Str * Json) :=
  match m with
  | [] => [(k, v)]
  | (k', v') :: m' => if decide (k' = k) then (k, v) :: m' else (k', v') :: json_insert k v m'
  end.

(** ** Key order: [str::cmp] is byte order, which for UTF-8 is the order of
    the characters. *)
Fixpoint str_le (s t : Str) : bool :=
  match s, t with
  | [], _ => true
  | _ :: _, [] => false
  | a :: s', b :: t' => (a <? b)%N || ((a =? b)%N && str_le s' t')
  end.

Definition key_le (a b : Str * Json) : Prop := str_le a.1 b.1 = true.

#[global] Instance key_le_dec : RelDecision key_le.
Proof. intros a b. unfold key_le. apply _. Defined.

(** ** The canonical form: keys sorted at every level. *)
Fixpoint canonical_json (value : Json) : Json :=
  match value with
  | JsonObject map =>
      let entries :=
        merge_sort key_le (List.map (λ kv : Str * Json, (kv.1, canonical_json kv.2)) map) in
      JsonObject (fold_left (λ sorted kv, json_insert kv.1 kv.2 sorted) entries [])
  | JsonArray items => JsonArray (List.map canonical_json items)
  | other => other
  end.

(** Objects have distinct keys, at every level. *)
Inductive json_wf : Json → Prop :=
| wf_null : json_wf JsonNull
| wf_bool b : json_wf (JsonBool b)
| wf_number t : json_wf (JsonNumber t)
| wf_string s : json_wf (JsonString s)
| wf_array l : Forall json_wf l → json_wf (JsonArray l)
| wf_object m : NoDup m.*1 → Forall (λ kv, json_wf kv.2) m → json_wf (JsonObject m).

(** Equality up to the order of members. *)
Inductive json_equiv : Json → Json → Prop :=
| eqv_null : json_equiv JsonNull JsonNull
| eqv_bool b : json_equiv (JsonBool b) (JsonBool b)
| eqv_number t : json_equiv (JsonNumber t) (JsonNumber t)
| eqv_string s : json_equiv (JsonString s) (JsonString s)
| eqv_array l k : Forall2 json_equiv l k → json_equiv (JsonArray l) (JsonArray k)
| eqv_object m n n' :
    Permutation n n' → Forall2 (λ a b, a.1 = b.1 ∧ json_equiv a.2 b.2) m n' →
    json_equiv (JsonObject m) (JsonObject n).

(** ** Lemmas *)

Lemma json_lookup_cons key k v m :
  json_lookup key ((k, v) :: m) = if decide (k = key) then Some v else json_lookup key m.
Proof.
  unfold json_lookup. simpl. case_decide; [done|]. by destruct (list_find _ m) as [[]|].
Qed.

Lemma json_lookup_insert_ne key k v m : key ≠ k → json_lookup key (json_insert k v m) = json_lookup key m.
Proof.
  intros Hne. induction m as [|[k' v'] m IH]; simpl; [by rw json_lookup_cons decide_False|].
  case_decide; rw !json_lookup_cons; [subst; by rw !decide_False|]. by rw IH.
Qed.

Lemma str_le_total s t : str_le s t = true ∨ str_le t s = true.
Proof.
  revert t. induction s as [|a s IH]; intros [|b t]; simpl; auto.
  destruct (N.ltb_spec a b), (N.eqb_spec a b), (N.ltb_spec b a), (N.eqb_spec b a);
    simpl; auto; try lia.
Qed.

Lemma str_le_trans s t u : str_le s t = true → str_le t u = true → str_le s u = true.
Proof.
  revert t u. induction s as [|a s IH]; intros [|b t] [|c u]; simpl; auto; try done.
  destruct (N.ltb_spec a b), (N.eqb_spec a b), (N.ltb_spec b c), (N.eqb_spec b c),
    (N.ltb_spec a c), (N.eqb_spec a c); simpl; try lia; try done. eauto.
Qed.

Lemma str_le_antisym s t : str_le s t = true → str_le t s = true → s = t.
Proof.
  revert t. induction s as [|a s IH]; intros [|b t]; simpl; try done.
  destruct (N.ltb_spec a b), (N.eqb_spec a b), (N.ltb_spec b a), (N.eqb_spec b a);
    simpl; try lia; try done. intros. subst. f_equal. auto.
Qed.

#[global] Instance key_le_total : Total key_le.
Proof. intros a b. apply str_le_total. Qed.
#[global] Instance key_le_trans : Transitive key_le.
Proof. intros a b c. apply str_le_trans. Qed.

Lemma json_insert_new k v m : k ∉ m.*1 → json_insert k v m = m ++ [(k, v)].
Proof.
  induction m as [|[k' v'] m IH]; simpl; [done|].
  intros [Hne Hn]%not_elem_of_cons. case_decide; [congruence|]. by rw IH.
Qed.

Lemma json_insert_all entries acc :
  NoDup (acc ++ entries).*1 →
  fold_left (λ sorted kv, json_insert kv.1 kv.2 sorted) entries acc = acc ++ entries.
Proof.
  revert acc. induction entries as [|[k v] l IH]; intros acc Hn; simpl; [by rw app_nil_r|].
  assert (k ∉ acc.*1) as Hk.
  { rw fmap_app in Hn. apply NoDup_app in Hn as (_ & Hd & _). intros Hin. apply (Hd _ Hin). left. }
  rw json_insert_new // IH -app_assoc //.
Qed.

(** The members of the canonical form of an object with distinct keys. *)
Definition canonical_members (m : list (Str * Json)) : list (Str * Json) :=
  merge_sort key_le (List.map (λ kv : Str * Json, (kv.1, canonical_json kv.2)) m).

Lemma canonical_members_perm m :
  Permutation (canonical_members m) (List.map (λ kv : Str * Json, (kv.1, canonical_json kv.2)) m).
Proof. apply merge_sort_Permutation. Qed.

Lemma canonical_keys_perm m : Permutation (canonical_members m).*1 m.*1.
Proof.
  rw (fmap_Permutation _ _ _ (canonical_members_perm m)).
  induction m as [|[k v] m IH]; simpl; [done|]. by constructor.
Qed.

Lemma canonical_object m :
  NoDup m.*1 → canonical_json (JsonObject m) = JsonObject (canonical_members m).
Proof.
  intros Hn. simpl. f_equal. rw json_insert_all //=. by rw (canonical_keys_perm m).
Qed.

(** A list sorted by distinct keys is determined by its elements. *)
Lemma sorted_keys_unique (l k : list (Str * Json)) :
  NoDup l.*1 → StronglySorted key_le l → StronglySorted key_le k → Permutation l k → l = k.
Proof.
  revert k. induction l as [|a l IH]; intros k Hn Hl Hk HP.
  { by apply Permutation_nil_l in HP. }
  destruct k as [|b k]; [by apply Permutation_sym, Permutation_nil_cons in HP|].
  apply StronglySorted_inv in Hl as [Hl Hal], Hk as [Hk Hbk].
  assert (a = b) as <-.
  { assert (a ∈ b :: k) as Ha by (rw -HP; left).
    assert (b ∈ a :: l) as Hb by (rw HP; left).
    apply elem_of_cons in Ha as [->|Ha]; [done|]. apply elem_of_cons in Hb as [->|Hb]; [done|].
    rw Forall_forall in Hal. rw Forall_forall in Hbk.
    apply (NoDup_fmap_eq fst (a :: l)); [done|left|by right|].
    apply str_le_antisym; [by apply Hal|by apply Hbk]. }
  rw fmap_cons in Hn. apply NoDup_cons in Hn as [_ Hn].
  f_equal. apply IH; try done. by apply Permutation_cons_inv in HP.
Qed.

Lemma canonical_members_sorted m : StronglySorted key_le (canonical_members m).
Proof. apply StronglySorted_merge_sort; apply _. Qed.

(** An object is equivalent to its canonical form when its members are. *)
Lemma equiv_canonical v : json_wf v → json_equiv v (canonical_json v).
Proof.
  induction v as [|b|t|s|l IH|m IH] using Json_ind'; intros Hwf; try (simpl; by constructor).
  - inversion_clear Hwf. simpl. constructor.
    induction IH as [|x l Hx _ IHl]; [constructor|].
    apply Forall_cons in H as [? ?]. simpl. constructor; auto.
  - inversion_clear Hwf as [| | | | |? Hn Hall]. rw canonical_object //.
    eapply eqv_object; [apply canonical_members_perm|]. clear Hn.
    induction IH as [|[k x] m Hx _ IHm]; simpl; [constructor|].
    apply Forall_cons in Hall as [? ?]. constructor; [by split; [|apply Hx]|auto].
Qed.

Lemma canonical_of_equiv v w :
  json_wf v → json_wf w → json_equiv v w → canonical_json v = canonical_json w.
Proof.
  revert w. induction v as [|b|t|s|l IH|m IH] using Json_ind'; intros w Hv Hw He;
    inversion He as [| | | |? k Hk|? n n' HP HF]; subst; try done.
  - simpl. f_equal. inversion_clear Hv. inversion_clear Hw. clear He.
    revert k Hk H0. induction IH as [|x l Hx _ IHl]; intros [|y k] Hk Hwk;
      inversion Hk; subst; [done|].
    apply Forall_cons in H as [? ?], Hwk as [? ?]. simpl. f_equal; [by apply Hx|by apply IHl].
  - inversion_clear Hv as [| | | | |? Hnm Hm]. inversion_clear Hw as [| | | | |? Hnn Hwn].
    rw !canonical_object //. f_equal. apply sorted_keys_unique;
      [by rw canonical_keys_perm|apply canonical_members_sorted..|].
    rw !canonical_members_perm. rw (Permutation_map _ HP).
    assert (Forall (λ kv, json_wf kv.2) n') as Hwn' by (by rw -HP).
    apply reflexive_eq. clear -IH HF Hm Hwn'. revert n' HF Hwn'.
    induction IH as [|[k x] m Hx _ IHm]; intros [|[k' y] n'] HF Hwn'; inversion HF as [|? ? ? ? [Hk Hxy] HF']; subst; [done|].
    apply Forall_cons in Hm as [? ?], Hwn' as [? ?]. simpl in *. subst.
    f_equal; [f_equal; by apply Hx|by apply IHm].
Qed.

#[local] Instance JsonObject_inj : Inj (=) (=) JsonObject.
Proof. by intros ?? [=]. Qed.

Lemma equiv_of_canonical v w :
  json_wf v → json_wf w → canonical_json v = canonical_json w → json_equiv v w.
Proof.
  revert w. induction v as [|b|t|s|l IH|m IH] using Json_ind'; intros w Hv Hw He;
    destruct w as [|b'|t'|s'|k|n]; try done; try (by constructor); try (injection He as ->; constructor).
  - injection He as He. constructor. inversion_clear Hv. inversion_clear Hw.
    revert k He H0. induction IH as [|x l Hx _ IHl]; intros [|y k] He Hwk; try done.
    apply Forall_cons in H as [? ?], Hwk as [? ?]. injection He as Hxy He.
    constructor; [by apply Hx|by apply IHl].
  - inversion_clear Hv as [| | | | |? Hnm Hm]. inversion_clear Hw as [| | | | |? Hnn Hwn].
    rw !canonical_object // in He. apply (inj JsonObject) in He.
    pose proof (canonical_members_perm m) as HPm. rw He in HPm.
    rw canonical_members_perm in HPm. symmetry in HPm.
    destruct (Permutation_map_inv _ _ HPm) as (n' & Hmap & HPn).
    eapply eqv_object; [exact HPn|].
    assert (Forall (λ kv, json_wf kv.2) n') as Hwn' by (by rw -HPn).
    clear -IH Hmap Hm Hwn'. revert n' Hmap Hwn'.
    induction IH as [|[k x] m Hx _ IHm]; intros [|[k' y] n'] Hmap Hwn'; try done.
    apply Forall_cons in Hm as [? ?], Hwn' as [? ?]. injection Hmap as -> Hxy Hmap.
    constructor; [split; [done|by apply Hx]|by apply IHm].
Qed.

Lemma canonical_json_wf v : json_wf v → json_wf (canonical_json v).
Proof.
  induction v as [|b|t|s|l IH|m IH] using Json_ind'; intros Hwf; try (simpl; by constructor).
  - inversion_clear Hwf. simpl. constructor.
    induction IH as [|x l Hx _ IHl]; [constructor|].
    apply Forall_cons in H as [? ?]. simpl. constructor; auto.
  - inversion_clear Hwf as [| | | | |? Hn Hall]. rw canonical_object //. constructor.
    + by rw canonical_keys_perm.
    + rw canonical_members_perm. clear Hn.
      induction IH as [|[k x] m Hx _ IHm]; simpl; [constructor|].
      apply Forall_cons in Hall as [? ?]. constructor; [by apply Hx|auto].
Qed.
