(* ===== verification/Messages.v ===== *)
(** * Messages and events ([src/model.rs], [ToolOutput] of [src/tools.rs],
    [AgentEvent] of [src/agent.rs])

    The data the agent exchanges with providers, tools, sessions and user
    interfaces.  [Arc] is transparent.  Timestamps are left out: they are read
    from the wall clock and nothing modelled depends on them.  [Cost] (floats)
    is left out of [Usage] for the same reason. *)

From S2P Require Import Prelude Text Json.

(** ** Content blocks *)

Record TextContent := mkText { t_text : Str; t_signature : option Str }.
Definition TextContent_new (text : Str) : TextContent := mkText text None.

Record ThinkingContent := mkThinking { th_thinking : Str; th_signature : option Str }.
Record RedactedThinkingContent := mkRedacted { rt_data : Str }.
Record ImageContent := mkImage { im_data : Str; im_mime_type : Str }.

Record ToolCall := mkToolCall {
  tc_id : Str;
  tc_name : Str;
  tc_arguments : Json;
  tc_thought_signature : option Str;
}.

Inductive ContentBlock :=
| Text (c : TextContent)
| Thinking (c : ThinkingContent)
| RedactedThinking (c : RedactedThinkingContent)
| Image (c : ImageContent)
| ToolCallBlock (c : ToolCall).

(** The block the agent builds for a plain text. *)
Definition text_block (s : Str) : ContentBlock := Text (TextContent_new s).

(** ** Messages *)

Inductive StopReason := Stop | Length | ToolUse | StopError | Aborted | PauseTurn | Refusal.

#[global] Instance StopReason_eq_dec : EqDecision StopReason.
Proof. solve_decision. Defined.

Record StopDetails := mkStopDetails {
  sd_kind : Str;
  sd_category : option Str;
  sd_explanation : option Str;
}.

Record Usage := mkUsage {
  u_input : Z;
  u_output : Z;
  u_cache_read : Z;
  u_cache_write : Z;
  u_total_tokens : Z;
}.
Definition Usage_default : Usage := mkUsage 0 0 0 0 0.

Record AssistantMessage := mkAssistant {
  a_content : list ContentBlock;
  a_api : Str;
  a_provider : Str;
  a_model : Str;
  a_usage : Usage;
  a_stop_reason : StopReason;
  a_stop_details : option StopDetails;
  a_error_message : option Str;
}.

Inductive UserContent := UserText (s : Str) | UserBlocks (blocks : list ContentBlock).
Record UserMessage := mkUser { um_content : UserContent }.

Record ToolResultMessage := mkToolResult {
  tr_tool_call_id : Str;
  tr_tool_name : Str;
  tr_content : list ContentBlock;
  tr_details : option Json;
  tr_is_error : bool;
}.

Record CustomMessage := mkCustom {
  cm_content : Str;
  cm_custom_type : Str;
  cm_display : bool;
  cm_details : option Json;
}.

Inductive Message :=
| User (m : UserMessage)
| Assistant (m : AssistantMessage)
| ToolResult (m : ToolResultMessage)
| Custom (m : CustomMessage).

(** ** Streaming *)

Inductive StreamEvent :=
| SStart (partial : AssistantMessage)
| STextStart (content_index : nat)
| STextDelta (content_index : nat) (delta : Str)
| STextEnd (content_index : nat) (content : Str)
| SThinkingStart (content_index : nat)
| SThinkingDelta (content_index : nat) (delta : Str)
| SThinkingEnd (content_index : nat) (content : Str)
| SToolCallStart (content_index : nat) (id name : Str)
| SToolCallDelta (content_index : nat) (delta : Str)
| SToolCallEnd (content_index : nat) (tool_call : ToolCall)
| SDone (reason : StopReason) (message : AssistantMessage)
| SError (reason : StopReason) (error : AssistantMessage).

Inductive AssistantMessageEvent :=
| AStart (partial : AssistantMessage)
| ATextStart (content_index : nat) (partial : AssistantMessage)
| ATextDelta (content_index : nat) (delta : Str) (partial : AssistantMessage)
| ATextEnd (content_index : nat) (content : Str) (partial : AssistantMessage)
| AThinkingStart (content_index : nat) (partial : AssistantMessage)
| AThinkingDelta (content_index : nat) (delta : Str) (partial : AssistantMessage)
| AThinkingEnd (content_index : nat) (content : Str) (partial : AssistantMessage)
| AToolCallStart (content_index : nat) (partial : AssistantMessage)
| AToolCallDelta (content_index : nat) (delta : Str) (partial : AssistantMessage)
| AToolCallEnd (content_index : nat) (tool_call : ToolCall) (partial : AssistantMessage)
| ADone (reason : StopReason) (message : AssistantMessage)
| AError (reason : StopReason) (error : AssistantMessage).

(** ** Tools *)

Record ToolOutput := mkOutput {
  o_content : list ContentBlock;
  o_details : option Json;
  o_is_error : bool;
}.

Record ToolUpdate := mkUpdate { up_content : list ContentBlock; up_details : option Json }.

(** ** Agent events

    The four event kinds of auto-compaction and auto-retry, and extension
    errors, are emitted by other layers than the agent loop. *)
Inductive AgentEvent :=
| AgentStart (session_id : Str)
| AgentEnd (session_id : Str) (messages : list Message) (error : option Str)
| TurnStart (session_id : Str) (turn_index : Z)
| TurnEnd (session_id : Str) (turn_index : Z) (message : Message) (tool_results : list Message)
| MessageStart (message : Message)
| MessageUpdate (message : Message) (assistant_message_event : AssistantMessageEvent)
| MessageEnd (message : Message)
| ToolExecutionStart (tool_call_id tool_name : Str) (args : Json)
| ToolExecutionUpdate (tool_call_id tool_name : Str) (args : Json) (partial_result : ToolOutput)
| ToolExecutionEnd (tool_call_id tool_name : Str) (result : ToolOutput) (is_error : bool).

(** ** Errors

    The wrapped errors of the IO, JSON and SQLite libraries are their display
    texts. *)
Inductive Error :=
| ErrConfig (message : Str)
| ErrSession (message : Str)
| SessionNotFound (path : Str)
| ErrProvider (provider message : Str)
| ErrAuth (message : Str)
| ErrTool (tool message : Str)
| ErrValidation (message : Str)
| ErrExtension (message : Str)
| ErrIo (display : Str)
| ErrJson (display : Str)
| ErrSqlite (display : Str)
| ErrAborted
| Api (message : Str).

Definition Error_to_string (e : Error) : Str :=
  match e with
  | ErrConfig m => str "Configuration error: " ++ m
  | ErrSession m => str "Session error: " ++ m
  | SessionNotFound path => str "Session not found: " ++ path
  | ErrProvider provider m => str "Provider error: " ++ provider ++ str ": " ++ m
  | ErrAuth m => str "Authentication error: " ++ m
  | ErrTool tool m => str "Tool error: " ++ tool ++ str ": " ++ m
  | ErrValidation m => str "Validation error: " ++ m
  | ErrExtension m => str "Extension error: " ++ m
  | ErrIo d => str "IO error: " ++ d
  | ErrJson d => str "JSON error: " ++ d
  | ErrSqlite d => str "SQLite error: " ++ d
  | ErrAborted => str "Operation aborted"
  | Api m => str "API error: " ++ m
  end.

(** ** Helpers on messages *)

Definition is_assistant (m : Message) : bool :=
  match m with Assistant _ => true | _ => false end.

Definition extract_tool_calls (content : list ContentBlock) : list ToolCall :=
  omap (λ block, match block with ToolCallBlock tc => Some tc | _ => None end) content.

Definition is_complete_tool_call (tool_call : ToolCall) : bool :=
  negb (is_empty (trim (tc_name tool_call))) && negb (value_is_null (tc_arguments tool_call)).

Definition TRUNCATED_TOOL_CALL_ERROR : Str :=
  str "Model output truncated before tool call completed (provider stop reason: length); the incomplete tool call was not executed".

(** The [for] loop with its early return, [None], and the flag it computes. *)
Fixpoint scan_incomplete (content : list ContentBlock) (saw_incomplete : bool) : option bool :=
  match content with
  | [] => Some saw_incomplete
  | ToolCallBlock tc :: rest =>
      if is_complete_tool_call tc then None else scan_incomplete rest true
  | _ :: rest => scan_incomplete rest saw_incomplete
  end.

Definition is_truncated_before_tool_call (message : AssistantMessage) (tool_call_started : bool) : bool :=
  if negb (bool_decide (a_stop_reason message = Length)) then false
  else match scan_incomplete (a_content message) false with
       | None => false
       | Some saw_incomplete => tool_call_started || saw_incomplete
       end.

(** ** Images withheld from the provider *)

Definition BLOCK_IMAGES_PLACEHOLDER : Str := str "Image reading is disabled.".

Definition is_placeholder (b : ContentBlock) : bool :=
  match b with Text c => bool_decide (t_text c = BLOCK_IMAGES_PLACEHOLDER) | _ => false end.

Definition filter_image_step (st : list ContentBlock * Z) (block : ContentBlock) : list ContentBlock * Z :=
  let '(filtered, removed) := st in
  match block with
  | Image _ =>
      let previous_is_placeholder :=
        match last filtered with Some prev => is_placeholder prev | None => false end in
      (if previous_is_placeholder then filtered
       else filtered ++ [text_block BLOCK_IMAGES_PLACEHOLDER], removed + 1)
  | other => (filtered ++ [other], removed)
  end.

Definition filter_image_blocks (blocks : list ContentBlock) : list ContentBlock * Z :=
  fold_left filter_image_step blocks ([], 0).

Definition assistant_with_content (m : AssistantMessage) (c : list ContentBlock) : AssistantMessage :=
  mkAssistant c (a_api m) (a_provider m) (a_model m) (a_usage m) (a_stop_reason m)
    (a_stop_details m) (a_error_message m).

Definition filter_images_from_message (message : Message) : Message * Z :=
  match message with
  | User (mkUser (UserText _)) => (message, 0)
  | User (mkUser (UserBlocks blocks)) =>
      let '(blocks', removed) := filter_image_blocks blocks in
      (User (mkUser (UserBlocks blocks')), removed)
  | Assistant a =>
      let '(c, removed) := filter_image_blocks (a_content a) in
      (Assistant (assistant_with_content a c), removed)
  | ToolResult r =>
      let '(c, removed) := filter_image_blocks (tr_content r) in
      (ToolResult (mkToolResult (tr_tool_call_id r) (tr_tool_name r) c (tr_details r) (tr_is_error r)), removed)
  | Custom _ => (message, 0)
  end.

Record ImageFilterStats := mkImageStats { removed_images : Z; affected_messages : Z }.

Definition filter_images_for_provider (messages : list Message) : list Message * ImageFilterStats :=
  fold_left (λ st message,
    let '(done, stats) := st in
    let '(message', removed) := filter_images_from_message message in
    (done ++ [message'],
     if 0 <? removed
     then mkImageStats (removed_images stats + removed) (affected_messages stats + 1)
     else stats)) messages ([], mkImageStats 0 0).

Definition is_hidden (m : Message) : bool :=
  match m with Custom c => negb (cm_display c) | _ => false end.

(** [build_context]: the messages sent to the provider. *)
Definition build_context (block_images : bool) (messages : list Message) : list Message :=
  if block_images
  then (filter_images_for_provider (filter (λ m, is_hidden m = false) messages)).1
  else if existsb is_hidden messages
  then filter (λ m, is_hidden m = false) messages
  else messages.

(** ** Lemmas *)

Lemma extract_tool_calls_app c d :
  extract_tool_calls (c ++ d) = extract_tool_calls c ++ extract_tool_calls d.
Proof. unfold extract_tool_calls. by rw omap_app. Qed.

Definition is_image (b : ContentBlock) : bool := match b with Image _ => true | _ => false end.

Lemma filter_image_blocks_spec blocks filtered removed :
  let '(out, n) := fold_left filter_image_step blocks (filtered, removed) in
  n = removed + len (filter (λ b, is_image b = true) blocks) ∧
  filter (λ b, is_image b = false ∧ is_placeholder b = false) out =
    filter (λ b, is_image b = false ∧ is_placeholder b = false) (filtered ++ blocks) ∧
  (Forall (λ b, is_image b = false) filtered → Forall (λ b, is_image b = false) out).
Proof.
  revert filtered removed. induction blocks as [|b blocks IH]; intros filtered removed; cbn [fold_left].
  { rw app_nil_r filter_nil len_nil. split_and!; [lia|done|done]. }
  destruct (is_image b) eqn:Eb.
  - destruct b; try done. cbn [filter_image_step].
    set (f' := if match last filtered with Some prev => is_placeholder prev | None => false end
               then filtered else filtered ++ [text_block BLOCK_IMAGES_PLACEHOLDER]).
    specialize (IH f' (removed + 1)). cbn [filter_image_step] in IH.
    destruct (fold_left filter_image_step blocks (f', removed + 1)) as [out n].
    destruct IH as (-> & Hf & Hi). rw filter_cons_True //. split; [len_lia|]. split.
    + rw Hf !filter_app (filter_cons_False _ (Image c)); last naive_solver. f_equal. unfold f'.
      destruct (last filtered) as [prev|]; [destruct (is_placeholder prev); [done|]|];
        rw filter_app (filter_cons_False _ (text_block _)) ?filter_nil ?app_nil_r //; by intros [_ ?].
    + intros Hall. apply Hi. unfold f'. case_match; [done|]. by apply Forall_app; split; [|constructor].
  - assert (filter_image_step (filtered, removed) b = (filtered ++ [b], removed)) as -> by (by destruct b).
    specialize (IH (filtered ++ [b]) removed).
    destruct (fold_left filter_image_step blocks (filtered ++ [b], removed)) as [out n].
    destruct IH as (-> & Hf & Hi). rw filter_cons_False; last by rw Eb. rw -app_assoc in Hf. split_and!; try done.
    intros Hall. apply Hi, Forall_app. by repeat constructor.
Qed.
