(* ===== verification/ToolBatches.v ===== *)
(** * Batches of tool calls and the limits of a run ([src/agent.rs])

    How the tool calls of one answer are grouped into batches that may run
    concurrently, the evidence reported for the grouping, and the numeric
    settings of a run: parallelism, iteration cap, warning threshold. *)

From S2P Require Import Prelude Text ToolPolicy.

(** ** Settings *)

Definition MIN_COMPATIBLE_TOOL_PARALLELISM : Z := 8.
Definition MAX_AUTO_COMPATIBLE_TOOL_PARALLELISM : Z := 64.
Definition MAX_CONFIGURED_COMPATIBLE_TOOL_PARALLELISM : Z := 256.

(** [raw_override.map(str::trim).filter(|raw| !raw.is_empty())] *)
Definition trimmed_override (raw_override : option Str) : option Str :=
  match trim <$> raw_override with
  | Some raw => if is_empty raw then None else Some raw
  | None => None
  end.

Definition resolve_compatible_tool_parallelism (raw_override : option Str) (host_parallelism : Z) : Z :=
  let host_default := clamp host_parallelism MIN_COMPATIBLE_TOOL_PARALLELISM
                        MAX_AUTO_COMPATIBLE_TOOL_PARALLELISM in
  match trimmed_override raw_override with
  | None => host_default
  | Some raw =>
      match parse_u64 raw with
      | Some limit =>
          if limit =? 0 then host_default
          else clamp limit 1 MAX_CONFIGURED_COMPATIBLE_TOOL_PARALLELISM
      | None => host_default
      end
  end.

Definition MAX_TOOL_ITERATIONS_DEFAULT : Z := 50.
Definition MAX_TOOL_ITERATIONS_CEILING : Z := 1000.
Definition MAX_PAUSE_TURN_CONTINUATIONS : Z := 3.
Definition ITERATION_WARN_NUMERATOR : Z := 4.
Definition ITERATION_WARN_DENOMINATOR : Z := 5.
Definition ITERATION_WARN_MIN_CAP : Z := 5.

Definition clamp_max_tool_iterations (value : option Z) : Z :=
  match value with
  | None => MAX_TOOL_ITERATIONS_DEFAULT
  | Some n =>
      if n =? 0 then MAX_TOOL_ITERATIONS_DEFAULT
      else if MAX_TOOL_ITERATIONS_CEILING <? n then MAX_TOOL_ITERATIONS_CEILING
      else n
  end.

Definition resolve_max_tool_iterations (raw_override : option Str) : Z :=
  match trimmed_override raw_override with
  | None => MAX_TOOL_ITERATIONS_DEFAULT
  | Some raw =>
      match parse_u64 raw with
      | Some n =>
          if n =? 0 then MAX_TOOL_ITERATIONS_DEFAULT
          else if MAX_TOOL_ITERATIONS_CEILING <? n then MAX_TOOL_ITERATIONS_CEILING
          else n
      | None => MAX_TOOL_ITERATIONS_DEFAULT
      end
  end.

Definition should_warn_at_iteration_threshold (current max : Z) : bool :=
  (ITERATION_WARN_MIN_CAP <=? max)
  && (sat_mul usize_max max ITERATION_WARN_NUMERATOR / ITERATION_WARN_DENOMINATOR <=? current).

Definition iteration_handoff_steering_text (current max : Z) : Str :=
  str "[runtime] Tool-iteration budget at >=80% (used " ++ show_u64 current ++ str " of "
  ++ show_u64 max
  ++ str "). Per the iteration-aware-handoff protocol in your spec, begin graceful handoff now: commit current work, post a one-line status note, and write an incomplete-handoff envelope with what's done / what remains / next-agent starting position. Do NOT compress remaining work into the last few iterations.".

(** ** Batches *)

Record ToolEffectBatch := mkBatch { b_start : nat; b_end : nat }.

(** The loop variables: finished batches, start of the active one, its
    effects. *)
Definition plan_step (st : list ToolEffectBatch * nat * ToolEffects) (candidate : nat * ToolEffects)
    : list ToolEffectBatch * nat * ToolEffects :=
  let '(batches, start, active_effects) := st in
  let '(offset, candidate_effects) := candidate in
  let index := S offset in
  if compatible_with active_effects candidate_effects
  then (batches, start, effects_union active_effects candidate_effects)
  else (batches ++ [mkBatch start index], index, candidate_effects).

Definition plan_tool_effect_batches (effects : list ToolEffects) : list ToolEffectBatch :=
  match effects with
  | [] => []
  | first_effects :: remaining_effects =>
      let '(batches, start, _) :=
        fold_left plan_step (imap pair remaining_effects) ([], O, first_effects) in
      batches ++ [mkBatch start (length effects)]
  end.

Definition combined_tool_effects (effects : list ToolEffects) : option ToolEffects :=
  match effects with
  | [] => None
  | e :: rest => Some (fold_left effects_union rest e)
  end.

Definition tool_effect_barrier_reason (effects : ToolEffects) : option Str :=
  if parallel_safe effects then None
  else match writes effects, appends effects, processes effects with
       | true, true, true => Some (str "write_append_process_barrier")
       | true, true, false => Some (str "write_append_barrier")
       | true, false, true => Some (str "write_process_barrier")
       | false, true, true => Some (str "append_process_barrier")
       | true, false, false => Some (str "write_barrier")
       | false, true, false => Some (str "append_barrier")
       | false, false, true => Some (str "process_barrier")
       | false, false, false => Some (str "undeclared_effects_barrier")
       end.

Record ToolEffectBatchEvidence := mkBatchEvidence {
  be_start : nat;
  be_end : nat;
  be_len : nat;
  be_combined_effects : list Str;
  be_parallel_safe : bool;
  be_barrier_reason : option Str;
}.

Record ToolEffectBatchPlanEvidence := mkPlanEvidence {
  pe_schema : Str;
  pe_tool_count : nat;
  pe_parallelism_cap : Z;
  pe_batches : list ToolEffectBatchEvidence;
}.

(** [effects.get(start..end)] *)
Definition slice_get {A} (l : list A) (start end_ : nat) : option (list A) :=
  if (start <=? end_)%nat && (end_ <=? length l)%nat
  then Some (take (end_ - start) (drop start l)) else None.

Definition batch_evidence (effects : list ToolEffects) (batch : ToolEffectBatch) : ToolEffectBatchEvidence :=
  let combined_effects :=
    default effects_read (slice_get effects (b_start batch) (b_end batch) ≫= combined_tool_effects) in
  mkBatchEvidence (b_start batch) (b_end batch) (b_end batch - b_start batch)
    (effects_labels combined_effects) (parallel_safe combined_effects)
    (tool_effect_barrier_reason combined_effects).

Definition tool_effect_batch_plan_evidence (effects : list ToolEffects) (parallelism_cap : Z)
    : ToolEffectBatchPlanEvidence :=
  mkPlanEvidence (str "pi.agent.tool_effect_batch_plan.v1") (length effects) parallelism_cap
    (batch_evidence effects <$> plan_tool_effect_batches effects).

(** ** Specification: the batches of a plan are adjacent and cover [lo..hi],
    and a boundary falls between two neighbours unless both are safe to run
    in parallel. *)
Fixpoint batches_cover (lo hi : nat) (bs : list ToolEffectBatch) : Prop :=
  match bs with
  | [] => lo = hi
  | b :: bs' => b_start b = lo ∧ (lo < b_end b)%nat ∧ batches_cover (b_end b) hi bs'
  end.

Definition in_batch (i : nat) (b : ToolEffectBatch) : Prop := (b_start b ≤ i < b_end b)%nat.

Definition same_batch (bs : list ToolEffectBatch) (i j : nat) : Prop :=
  ∃ b, b ∈ bs ∧ in_batch i b ∧ in_batch j b.

Definition both_safe (effects : list ToolEffects) (i j : nat) : Prop :=
  ∃ a b, effects !! i = Some a ∧ effects !! j = Some b ∧ compatible_with a b = true.

(** ** Lemmas *)

Lemma parallel_safe_union a b :
  parallel_safe a = true → parallel_safe b = true → parallel_safe (effects_union a b) = true.
Proof.
  unfold parallel_safe, effects_union. simpl. intros [Ha1 Ha2]%andb_true_iff [Hb1 Hb2]%andb_true_iff.
  apply andb_true_iff. rw negb_true_iff Z.eqb_neq in Ha1. rw Z.eqb_eq in Ha2. rw Z.eqb_eq in Hb2.
  rw negb_true_iff Z.eqb_neq Z.eqb_eq Z.lor_eq_0_iff Z.land_lor_distr_l Ha2 Hb2. naive_solver.
Qed.

Lemma batches_cover_snoc lo hi bs b :
  batches_cover lo hi (bs ++ [b]) ↔
  batches_cover lo (b_start b) bs ∧ (b_start b < b_end b)%nat ∧ b_end b = hi.
Proof.
  revert lo. induction bs as [|c bs IH]; intros lo; simpl; [naive_solver|]. rw IH. tauto.
Qed.

Lemma batches_cover_le lo hi bs : batches_cover lo hi bs → (lo ≤ hi)%nat.
Proof.
  revert lo. induction bs as [|b bs IH]; intros lo; simpl; [lia|].
  intros (_ & ? & ?%IH). lia.
Qed.

Lemma batches_cover_bounds lo hi bs b :
  batches_cover lo hi bs → b ∈ bs → (lo ≤ b_start b < b_end b ∧ b_end b ≤ hi)%nat.
Proof.
  revert lo. induction bs as [|c bs IH]; intros lo; simpl; [by rw elem_of_nil|].
  intros (<- & Hlt & Hc) [->|Hb]%elem_of_cons.
  - pose proof (batches_cover_le _ _ _ Hc). lia.
  - destruct (IH _ Hc Hb). lia.
Qed.

(** What the loop knows after the first [n] calls. *)
Definition plan_inv (effects : list ToolEffects) (n : nat)
    (st : list ToolEffectBatch * nat * ToolEffects) : Prop :=
  let '(batches, start, active) := st in
  (start < n)%nat ∧ batches_cover 0 start batches ∧
  (∃ e, effects !! (n - 1)%nat = Some e ∧ (parallel_safe active = true ↔ parallel_safe e = true)) ∧
  ∀ i, (S i < n)%nat →
    (same_batch batches i (S i) ∨ (start ≤ i)%nat ↔ both_safe effects i (S i)).

Lemma same_batch_snoc bs b i j :
  same_batch (bs ++ [b]) i j ↔ same_batch bs i j ∨ (in_batch i b ∧ in_batch j b).
Proof.
  unfold same_batch. setoid_rewrite elem_of_app. setoid_rewrite list_elem_of_singleton. naive_solver.
Qed.

Lemma plan_step_inv effects n st e :
  (0 < n)%nat → effects !! n = Some e →
  plan_inv effects n st → plan_inv effects (S n) (plan_step st (n - 1, e)%nat).
Proof.
  intros Hpos He. destruct st as [[batches start] active].
  intros (Hlt & Hc & (p & Hp & Hsafe) & Hb). unfold plan_step, plan_inv.
  replace (S (n - 1)) with n by lia. replace (S n - 1)%nat with n by lia.
  assert (both_safe effects (n - 1) (S (n - 1)) ↔ compatible_with active e = true) as Hnew.
  { unfold both_safe, compatible_with. replace (S (n - 1)) with n by lia.
    rw (andb_true_iff (parallel_safe active)) Hsafe. split.
    - intros (a & b & ? & ? & ?%andb_true_iff). by simplify_eq.
    - intros ?%andb_true_iff. eauto. }
  destruct (compatible_with active e) eqn:Ec.
  - split_and!; [lia|done| |].
    + exists e. split; [done|]. unfold compatible_with in Ec. apply andb_true_iff in Ec as [Ha Hse].
      rw Hse parallel_safe_union //.
    + intros i Hi. destruct (decide (S i < n)%nat) as [Hin|]; [by apply Hb|].
      assert (i = n - 1)%nat as -> by lia. rw Hnew. split; [done|]. intros _. right. lia.
  - split_and!; [lia|by apply batches_cover_snoc|by exists e|].
    intros i Hi. rw same_batch_snoc. unfold in_batch at 1 2. cbn [b_start b_end].
    destruct (decide (S i < n)%nat) as [Hin|].
    + rw -(Hb i Hin). split; [intros [[?|?]|?]; [by left|right; lia|lia]|].
      intros [?|?]; [by left; left|left; right; lia].
    + assert (i = n - 1)%nat as -> by lia. rw Hnew. split; [|done].
      intros [[(b & Hb1 & Hb2)|?]|?]; [|lia..]. exfalso.
      pose proof (batches_cover_bounds _ _ _ _ Hc Hb1). unfold in_batch in Hb2. lia.
Qed.

Lemma plan_loop_inv effects n rest st :
  (0 < n)%nat → drop n effects = rest → plan_inv effects n st →
  plan_inv effects (n + length rest)
    (fold_left plan_step (imap (λ i e, (i + (n - 1), e)%nat) rest) st).
Proof.
  revert n st. induction rest as [|e rest IH]; intros n st Hpos Hd Hinv; simpl; [by rw Nat.add_0_r|].
  assert (effects !! n = Some e) as He by (rw -(Nat.add_0_r n) -lookup_drop Hd //).
  replace (n + S (length rest))%nat with (S n + length rest)%nat by lia.
  rw (imap_ext _ (λ i e, (i + (S n - 1), e)%nat)); [|intros i x _; simpl; f_equal; lia].
  apply IH; [lia| |by apply plan_step_inv].
  replace (S n) with (n + 1)%nat by lia. by rw -drop_drop Hd.
Qed.

(** The plan, characterised. *)
Lemma plan_spec effects :
  batches_cover 0 (length effects) (plan_tool_effect_batches effects) ∧
  ∀ i, (S i < length effects)%nat →
    (same_batch (plan_tool_effect_batches effects) i (S i) ↔ both_safe effects i (S i)).
Proof.
  destruct effects as [|e rest]; [split; [done|simpl; lia]|].
  assert (plan_inv (e :: rest) 1 ([], O, e)) as H0.
  { split_and!; [lia|done|by exists e|intros; lia]. }
  pose proof (plan_loop_inv (e :: rest) 1 rest _ ltac:(lia) eq_refl H0) as H.
  unfold plan_tool_effect_batches.
  rw (imap_ext _ pair) in H; [|intros; f_equal; lia].
  destruct (fold_left plan_step _ _) as [[batches start] active].
  destruct H as (Hlt & Hc & _ & Hb). cbn [length] in *. split.
  - apply batches_cover_snoc. simpl. split_and!; [done|lia|done].
  - intros i Hi. rw same_batch_snoc. unfold in_batch at 1 2. cbn [b_start b_end].
    rw -(Hb i); [|lia]. split; (intros [?|?]; [by left|right; lia]).
Qed.

(** Every call belongs to exactly one batch. *)
Lemma batches_cover_lookup lo hi bs i :
  batches_cover lo hi bs → (lo ≤ i < hi)%nat → ∃ b, b ∈ bs ∧ in_batch i b.
Proof.
  revert lo. induction bs as [|b bs IH]; intros lo; simpl; [intros ->; lia|].
  intros (<- & Hlt & Hc) Hi. destruct (decide (i < b_end b)%nat).
  - exists b. split; [left|]. unfold in_batch. lia.
  - destruct (IH _ Hc ltac:(lia)) as (c & ? & ?). exists c. split; [by right|done].
Qed.

Lemma fold_union_safe rest e :
  parallel_safe e = true → Forall (λ x, parallel_safe x = true) rest →
  parallel_safe (fold_left effects_union rest e) = true.
Proof.
  revert e. induction rest as [|x rest IH]; intros e He Hall; simpl; [done|].
  apply Forall_cons in Hall as [Hx Hall]. apply IH; [by apply parallel_safe_union|done].
Qed.

(** A batch of several calls holds only calls that are safe in parallel. *)
Lemma plan_multi_safe effects b i :
  b ∈ plan_tool_effect_batches effects → (S (b_start b) < b_end b)%nat → in_batch i b →
  ∃ e, effects !! i = Some e ∧ parallel_safe e = true.
Proof.
  intros Hb Hlen Hi. destruct (plan_spec effects) as [Hc Hs].
  pose proof (batches_cover_bounds _ _ _ _ Hc Hb) as [? ?]. unfold in_batch in Hi.
  destruct (decide (S i < b_end b)%nat).
  - destruct (proj1 (Hs i ltac:(lia))) as (x & y & Hx & _ & Hxy).
    { exists b. unfold in_batch. split_and!; [done|lia..]. }
    exists x. split; [done|]. by apply andb_true_iff in Hxy as [? _].
  - destruct i as [|i]; [lia|]. destruct (proj1 (Hs i ltac:(lia))) as (x & y & _ & Hy & Hxy).
    { exists b. unfold in_batch. split_and!; [done|lia..]. }
    exists y. split; [done|]. by apply andb_true_iff in Hxy as [_ ?].
Qed.

(** ** Claims *)

(** The plan cuts the calls into adjacent non-empty batches that cover
    them in order; two neighbouring calls share a batch exactly when both
    declare effects that are safe in parallel, so a batch of several calls
    holds nothing that writes, appends, runs a process, changes permissions
    or declares no effect at all. *)
Theorem batch_plan_exact effects :
  let batches := plan_tool_effect_batches effects in
  batches_cover 0 (length effects) batches ∧
  (∀ i, (S i < length effects)%nat →
     (same_batch batches i (S i) ↔ both_safe effects i (S i))) ∧
  (∀ b i, b ∈ batches → (S (b_start b) < b_end b)%nat → in_batch i b →
     ∃ e, effects !! i = Some e ∧ parallel_safe e = true).
Proof.
  destruct (plan_spec effects) as [Hc Hs]. split_and!; [done|done|].
  intros b i. apply plan_multi_safe.
Qed.


(** A permission-only effect is a declared barrier, but the evidence reports
    it as undeclared. *)
Lemma permission_barrier_mislabelled :
  parallel_safe effects_permission = false ∧
  effects_labels effects_permission = [str "permission"] ∧
  tool_effect_barrier_reason effects_permission = Some (str "undeclared_effects_barrier").
Proof. vm_compute. done. Qed.
