(* ===== verification/MessageQueue.v ===== *)
(** * Queued user messages ([MessageQueue] and [ExtensionInjectedQueue] of
    [src/agent.rs])

    Messages that arrive while the agent works: steering messages interrupt
    at the next delivery boundary, follow-ups wait until the agent is idle.
    The time stamp of an entry is left out. *)

From S2P Require Import Prelude Text Messages.

Definition MAX_STEERING_QUEUE_SIZE : Z := 100.
Definition MAX_FOLLOW_UP_QUEUE_SIZE : Z := 100.

Inductive QueueMode := QAll | OneAtATime.

Definition QueueMode_as_str (m : QueueMode) : Str :=
  match m with QAll => str "all" | OneAtATime => str "one-at-a-time" end.

Inductive QueueKind := Steering | FollowUp.

Record QueuedMessage := mkQueued { q_seq : Z; q_message : Message }.

Record MessageQueue := mkMessageQueue {
  mq_steering : list QueuedMessage;
  mq_follow_up : list QueuedMessage;
  mq_steering_mode : QueueMode;
  mq_follow_up_mode : QueueMode;
  mq_next_seq : Z;
}.

Definition MessageQueue_new (steering_mode follow_up_mode : QueueMode) : MessageQueue :=
  mkMessageQueue [] [] steering_mode follow_up_mode 0.

Definition set_modes (q : MessageQueue) (steering_mode follow_up_mode : QueueMode) : MessageQueue :=
  mkMessageQueue (mq_steering q) (mq_follow_up q) steering_mode follow_up_mode (mq_next_seq q).

Definition pending_count (q : MessageQueue) : Z := len (mq_steering q) + len (mq_follow_up q).

(** The shared shape of the two arms: drop the oldest when full, append. *)
Definition push_bounded {A} (max : Z) (entry : A) (l : list A) : list A :=
  (if max <=? len l then tail l else l) ++ [entry].

Definition push (q : MessageQueue) (kind : QueueKind) (message : Message) : MessageQueue * Z :=
  let seq := mq_next_seq q in
  let next_seq := sat_add u64_max (mq_next_seq q) 1 in
  let entry := mkQueued seq message in
  (match kind with
   | Steering =>
       mkMessageQueue (push_bounded MAX_STEERING_QUEUE_SIZE entry (mq_steering q))
         (mq_follow_up q) (mq_steering_mode q) (mq_follow_up_mode q) next_seq
   | FollowUp =>
       mkMessageQueue (mq_steering q)
         (push_bounded MAX_FOLLOW_UP_QUEUE_SIZE entry (mq_follow_up q))
         (mq_steering_mode q) (mq_follow_up_mode q) next_seq
   end, seq).

Definition push_steering (q : MessageQueue) (m : Message) : MessageQueue * Z := push q Steering m.
Definition push_follow_up (q : MessageQueue) (m : Message) : MessageQueue * Z := push q FollowUp m.

(** What [drain(..)] or [pop_front] leaves in the queue, and what it yields. *)
Definition pop_mode {A} (mode : QueueMode) (l : list A) : list A * list A :=
  match mode with
  | QAll => ([], l)
  | OneAtATime => (tail l, match l with x :: _ => [x] | [] => [] end)
  end.

Definition pop_kind (q : MessageQueue) (kind : QueueKind) : MessageQueue * list Message :=
  match kind with
  | Steering =>
      let '(rest, out) := pop_mode (mq_steering_mode q) (mq_steering q) in
      (mkMessageQueue rest (mq_follow_up q) (mq_steering_mode q) (mq_follow_up_mode q) (mq_next_seq q),
       q_message <$> out)
  | FollowUp =>
      let '(rest, out) := pop_mode (mq_follow_up_mode q) (mq_follow_up q) in
      (mkMessageQueue (mq_steering q) rest (mq_steering_mode q) (mq_follow_up_mode q) (mq_next_seq q),
       q_message <$> out)
  end.

Definition pop_steering (q : MessageQueue) : MessageQueue * list Message := pop_kind q Steering.
Definition pop_follow_up (q : MessageQueue) : MessageQueue * list Message := pop_kind q FollowUp.

(** ** The queue of messages injected by extensions *)

Record ExtensionInjectedQueue := mkInjected {
  iq_steering : list Message;
  iq_follow_up : list Message;
  iq_steering_mode : QueueMode;
  iq_follow_up_mode : QueueMode;
}.

Definition injected_new (steering_mode follow_up_mode : QueueMode) : ExtensionInjectedQueue :=
  mkInjected [] [] steering_mode follow_up_mode.
Definition injected_default : ExtensionInjectedQueue := injected_new OneAtATime OneAtATime.
Definition injected_set_modes (q : ExtensionInjectedQueue) (s f : QueueMode) : ExtensionInjectedQueue :=
  mkInjected (iq_steering q) (iq_follow_up q) s f.
Definition injected_push_steering (q : ExtensionInjectedQueue) (m : Message) : ExtensionInjectedQueue :=
  mkInjected (push_bounded MAX_STEERING_QUEUE_SIZE m (iq_steering q)) (iq_follow_up q)
    (iq_steering_mode q) (iq_follow_up_mode q).
Definition injected_push_follow_up (q : ExtensionInjectedQueue) (m : Message) : ExtensionInjectedQueue :=
  mkInjected (iq_steering q) (push_bounded MAX_FOLLOW_UP_QUEUE_SIZE m (iq_follow_up q))
    (iq_steering_mode q) (iq_follow_up_mode q).
Definition injected_pop_steering (q : ExtensionInjectedQueue) : ExtensionInjectedQueue * list Message :=
  let '(rest, out) := pop_mode (iq_steering_mode q) (iq_steering q) in
  (mkInjected rest (iq_follow_up q) (iq_steering_mode q) (iq_follow_up_mode q), out).
Definition injected_pop_follow_up (q : ExtensionInjectedQueue) : ExtensionInjectedQueue * list Message :=
  let '(rest, out) := pop_mode (iq_follow_up_mode q) (iq_follow_up q) in
  (mkInjected (iq_steering q) rest (iq_steering_mode q) (iq_follow_up_mode q), out).

(** ** Specification: a queue of at most [n] holds the newest [n]. *)

Definition last_n {A} (n : Z) (l : list A) : list A := drop (length l - Z.to_nat n) l.

Definition queue_of (q : MessageQueue) (kind : QueueKind) : list QueuedMessage :=
  match kind with Steering => mq_steering q | FollowUp => mq_follow_up q end.
Definition mode_of (q : MessageQueue) (kind : QueueKind) : QueueMode :=
  match kind with Steering => mq_steering_mode q | FollowUp => mq_follow_up_mode q end.
Definition other_kind (kind : QueueKind) : QueueKind :=
  match kind with Steering => FollowUp | FollowUp => Steering end.

Definition messages_of (q : MessageQueue) (kind : QueueKind) : list Message :=
  q_message <$> queue_of q kind.

Definition push_many (kind : QueueKind) (ms : list Message) (q : MessageQueue) : MessageQueue :=
  fold_left (λ q m, (push q kind m).1) ms q.

(** Bounded, with increasing numbers below the next one. *)
Definition queue_wf (q : MessageQueue) : Prop :=
  len (mq_steering q) ≤ 100 ∧ len (mq_follow_up q) ≤ 100 ∧
  StronglySorted Z.lt (q_seq <$> mq_steering q) ∧ StronglySorted Z.lt (q_seq <$> mq_follow_up q) ∧
  Forall (λ e, q_seq e < mq_next_seq q) (mq_steering q ++ mq_follow_up q).

(** ** Lemmas *)

Lemma push_bounded_last {A} max (x : A) l :
  0 < max → len l ≤ max → push_bounded max x l = last_n max (l ++ [x]).
Proof.
  intros Hm Hl. unfold push_bounded, last_n. rw length_app. destruct (Z.leb_spec max (len l)).
  - replace (_ + _ - Z.to_nat max)%nat with 1%nat by int_lia. destruct l; [int_lia|done].
  - by replace (_ + _ - Z.to_nat max)%nat with 0%nat by int_lia.
Qed.

Lemma last_n_app {A} n (l k : list A) : last_n n (last_n n l ++ k) = last_n n (l ++ k).
Proof.
  unfold last_n. rw !length_app length_drop.
  rw -(drop_app_le l k (length l - Z.to_nat n)); [|lia]. rw drop_drop. f_equal. lia.
Qed.

Lemma len_last_n {A} n (l : list A) : 0 ≤ n → len (last_n n l) = Z.min n (len l).
Proof. intros. unfold last_n, len. rw length_drop. lia. Qed.

Lemma last_n_fmap {A B} (f : A → B) n l : f <$> last_n n l = last_n n (f <$> l).
Proof. unfold last_n. by rw fmap_drop length_fmap. Qed.

Lemma push_kind_bounded q kind m :
  queue_of (push q kind m).1 kind = push_bounded 100 (mkQueued (mq_next_seq q) m) (queue_of q kind) ∧
  queue_of (push q kind m).1 (other_kind kind) = queue_of q (other_kind kind) ∧
  mq_steering_mode (push q kind m).1 = mq_steering_mode q ∧
  mq_follow_up_mode (push q kind m).1 = mq_follow_up_mode q.
Proof. by destruct kind. Qed.

Lemma messages_of_push q kind m :
  len (queue_of q kind) ≤ 100 →
  messages_of (push q kind m).1 kind = last_n 100 (messages_of q kind ++ [m]).
Proof.
  intros Hl. unfold messages_of. destruct (push_kind_bounded q kind m) as (-> & _).
  rw push_bounded_last // last_n_fmap fmap_app //.
Qed.

Lemma push_bounded_sorted {A} (f : A → Z) max (x : A) l :
  StronglySorted Z.lt (f <$> l) → Forall (λ e, f e < f x) l →
  StronglySorted Z.lt (f <$> push_bounded max x l).
Proof.
  intros Hs Hall. unfold push_bounded. rw fmap_app. apply StronglySorted_app.
  assert ((if max <=? len l then tail l else l) `sublist_of` l) as Hsub.
  { destruct (_ <=? _); [destruct l; by constructor|done]. }
  split_and!; [|eapply StronglySorted_sublist; [by apply fmap_sublist|done]|repeat constructor].
  intros a b (e & -> & He)%list_elem_of_fmap ->%list_elem_of_singleton.
  apply (Forall_sublist _ _ _ Hsub) in Hall. rw Forall_forall in Hall. by apply Hall.
Qed.

Lemma push_bounded_sub {A} max (x : A) l : push_bounded max x l `sublist_of` l ++ [x].
Proof.
  unfold push_bounded. apply sublist_app; [|done].
  destruct (_ <=? _); [destruct l; by constructor|done].
Qed.

Lemma len_push_bounded {A} max (x : A) l :
  0 < max → len l ≤ max → len (push_bounded max x l) ≤ max.
Proof. intros Hm H. rw push_bounded_last // len_last_n; lia. Qed.

Lemma push_bounded_Forall {A} (P : A → Prop) max x l :
  P x → Forall P l → Forall P (push_bounded max x l).
Proof.
  intros Hx Hl. eapply Forall_sublist; [apply push_bounded_sub|]. apply Forall_app. by repeat constructor.
Qed.

(** Every operation keeps the invariant, until the counter saturates. *)
Lemma push_wf q kind m : mq_next_seq q < u64_max → queue_wf q → queue_wf (push q kind m).1.
Proof.
  intros Hn (H1 & H2 & H3 & H4 & [H5 H6]%Forall_app).
  assert (∀ l : list QueuedMessage, Forall (λ e, q_seq e < mq_next_seq q) l →
            Forall (λ e, q_seq e < mq_next_seq q + 1) l) as Hw
    by (intros l Hl; eapply Forall_impl; [exact Hl|]; simpl; intros; lia).
  destruct kind; unfold queue_wf; cbn [push fst mq_steering mq_follow_up mq_next_seq];
    unfold MAX_STEERING_QUEUE_SIZE, MAX_FOLLOW_UP_QUEUE_SIZE;
    rw sat_add_exact; try lia; rw Forall_app; split_and!; try done;
    first [by apply len_push_bounded|by apply push_bounded_sorted|by apply Hw
          |by apply push_bounded_Forall; [simpl; lia|apply Hw]].
Qed.

Lemma pop_mode_app {A} mode (l : list A) : (pop_mode mode l).2 ++ (pop_mode mode l).1 = l.
Proof. destruct mode; simpl; [by rw app_nil_r|]. by destruct l. Qed.

Lemma pop_mode_sub {A} mode (l : list A) : (pop_mode mode l).1 `sublist_of` l.
Proof. rw -{2}(pop_mode_app mode l). apply sublist_inserts_l. done. Qed.

Lemma pop_kind_split q kind :
  messages_of q kind = (pop_kind q kind).2 ++ messages_of (pop_kind q kind).1 kind ∧
  queue_of (pop_kind q kind).1 (other_kind kind) = queue_of q (other_kind kind).
Proof.
  destruct kind; unfold messages_of, pop_kind; cbn [queue_of other_kind].
  - pose proof (pop_mode_app (mq_steering_mode q) (mq_steering q)).
    destruct (pop_mode _ _) as [rest out]. simpl in *. by rw -fmap_app H.
  - pose proof (pop_mode_app (mq_follow_up_mode q) (mq_follow_up q)).
    destruct (pop_mode _ _) as [rest out]. simpl in *. by rw -fmap_app H.
Qed.

Lemma pop_kind_wf q kind : queue_wf q → queue_wf (pop_kind q kind).1.
Proof.
  assert (∀ (l k : list QueuedMessage), l `sublist_of` k → len l ≤ len k) as Hlen.
  { intros l k Hs%sublist_length. int_lia. }
  intros (H1 & H2 & H3 & H4 & [H5 H6]%Forall_app).
  destruct kind; unfold pop_kind, queue_wf;
    [pose proof (pop_mode_sub (mq_steering_mode q) (mq_steering q)) as Hs
    |pose proof (pop_mode_sub (mq_follow_up_mode q) (mq_follow_up q)) as Hs];
    destruct (pop_mode _ _) as [rest out]; simpl in *; pose proof (Hlen _ _ Hs);
    split_and!; try done; try lia; try (rw Forall_app; split; eauto using Forall_sublist);
    (eapply StronglySorted_sublist; [apply fmap_sublist; exact Hs|done]).
Qed.

(** ** Claims *)

(** Pushing any number of messages leaves the newest hundred of a kind,
    in the order of arrival, and does not touch the other kind; a pop yields
    the front of what is queued, one message or all of them by the mode, and
    keeps the rest in order. *)
Theorem queue_keeps_newest q kind ms :
  len (queue_of q kind) ≤ 100 →
  let q' := push_many kind ms q in
  messages_of q' kind = last_n 100 (messages_of q kind ++ ms) ∧
  messages_of q' (other_kind kind) = messages_of q (other_kind kind) ∧
  let '(q'', out) := pop_kind q' kind in
  messages_of q' kind = out ++ messages_of q'' kind ∧
  out = match mode_of q kind with QAll => messages_of q' kind | OneAtATime => take 1 (messages_of q' kind) end.
Proof.
  intros Hl q'.
  assert (messages_of q' kind = last_n 100 (messages_of q kind ++ ms) ∧
          messages_of q' (other_kind kind) = messages_of q (other_kind kind) ∧
          mode_of q' kind = mode_of q kind) as (Hm & Ho & Hmode).
  { unfold q', push_many. clear q'. revert q Hl. induction ms as [|m ms IH]; intros q Hl; cbn [fold_left].
    - rw app_nil_r. split_and!; [|done|done]. unfold last_n.
      replace (_ - _)%nat with O; [done|]. unfold messages_of. rw length_fmap. int_lia.
    - destruct (push_kind_bounded q kind m) as (Hq & Hoq & Hms & Hmf).
      destruct (IH (push q kind m).1) as (-> & -> & ->).
      { rw Hq. by apply len_push_bounded. }
      rw messages_of_push // last_n_app -app_assoc. split_and!; [done| |by destruct kind].
      unfold messages_of. by rw Hoq. }
  split_and!; [done|done|]. destruct (pop_kind_split q' kind) as [Hs _].
  rw -Hmode. destruct (pop_kind q' kind) as [q'' out] eqn:Ep. split; [done|].
  revert Ep. unfold pop_kind, messages_of. destruct kind; cbn [queue_of mode_of];
    [destruct (mq_steering_mode q')|destruct (mq_follow_up_mode q')]; simpl; intros [= _ <-]; try done.
  - by destruct (mq_steering q').
  - by destruct (mq_follow_up q').
Qed.

(** A queue that overflows by twenty messages. *)
Definition sample_message (i : Z) : Message := User (mkUser (UserText (show_u64 i))).
Definition sample_queue : MessageQueue := MessageQueue_new OneAtATime QAll.
Definition sample_messages : list Message := sample_message <$> seqZ 0 120.

Lemma queue_keeps_newest_witness :
  messages_of (push_many Steering sample_messages sample_queue) Steering
    = last_n 100 (messages_of sample_queue Steering ++ sample_messages) ∧
  (pop_kind (push_many Steering sample_messages sample_queue) Steering).2 = [sample_message 20].
Proof.
  split; [|vm_compute; reflexivity].
  refine (proj1 (queue_keeps_newest sample_queue Steering sample_messages _)). vm_compute. discriminate.
Defined.
