(* ===== verification/ToolResults.v ===== *)
(** * Tool results: byte budget and doom-loop guard ([src/agent.rs])

    Every tool result passes [budgeted_tool_result], which cuts the middle out
    of a text that would take too much of the context window.  The agent keeps
    a ring of fingerprints of recent calls and refuses a call that keeps
    failing the same way. *)

From S2P Require Import Prelude Text Utf8 Json Messages MessageQueue.

(** ** The budget *)

Definition CHARS_PER_TOKEN_ESTIMATE : Z := 3.
Definition TOOL_RESULT_BUDGET_PERCENT : Z := 15.
Definition TOOL_RESULT_BUDGET_MIN_BYTES : Z := 16 * 1024.

Definition tool_result_budget_bytes (context_window_tokens : Z) : Z :=
  let budget :=
    sat_mul usize_max
      (sat_mul usize_max context_window_tokens CHARS_PER_TOKEN_ESTIMATE)
      TOOL_RESULT_BUDGET_PERCENT / 100 in
  Z.max budget TOOL_RESULT_BUDGET_MIN_BYTES.

(** The loop of [floor_char_boundary], which counts its index down. *)
Fixpoint floor_loop (text : Str) (index : nat) : nat :=
  match index with
  | O => O
  | S index' => if is_char_boundary text index then index else floor_loop text index'
  end.
Definition floor_char_boundary (text : Str) (index : nat) : nat :=
  floor_loop text (Nat.min index (byte_len text)).

(** The loop of [ceil_char_boundary]: one turn per unit of fuel, and the
    distance to the end of the text is enough. *)
Fixpoint ceil_loop (fuel : nat) (text : Str) (index : nat) : nat :=
  match fuel with
  | O => index
  | S fuel' => if is_char_boundary text index then index else ceil_loop fuel' text (S index)
  end.
Definition ceil_char_boundary (text : Str) (index : nat) : nat :=
  let index := Nat.min index (byte_len text) in
  ceil_loop (byte_len text - index) text index.

(** [&text[a..b]] *)
Definition slice_bytes (a b : nat) (text : Str) : Str := take_bytes (b - a) (drop_bytes a text).

Definition count_newlines (s : Str) : nat := length (filter (λ c, c = c_nl) s).

(** The note between head and tail; the ellipsis of the sample command is
    U+2026. *)
Definition elision_note (dropped_bytes dropped_lines budget : nat) : Str :=
  [c_nl; c_nl] ++ str "[... " ++ show_u64 (Z.of_nat dropped_bytes) ++ str " bytes / "
  ++ show_u64 (Z.of_nat dropped_lines)
  ++ str " lines elided from the middle of this tool result, which exceeded the "
  ++ show_u64 (Z.of_nat budget)
  ++ str "-byte per-result budget. The head above and the tail below are intact. If you need the elided part, re-run the command with its output redirected to a file (`"
  ++ [8230%N]
  ++ str " > /tmp/out.txt 2>&1`) and read that file in slices; bash already writes a full-output file and names its path whenever it truncates. ...]"
  ++ [c_nl; c_nl].

Definition elide_middle (text : Str) (budget : nat) : option Str :=
  if (byte_len text <=? budget)%nat then None
  else
    let head_end := floor_char_boundary text (budget / 2) in
    let tail_start := ceil_char_boundary text (byte_len text - (budget - head_end)) in
    if (tail_start <=? head_end)%nat then None
    else
      let dropped := slice_bytes head_end tail_start text in
      Some (take_bytes head_end text
            ++ elision_note (byte_len dropped) (count_newlines dropped) budget
            ++ drop_bytes tail_start text).

Definition block_text (block : ContentBlock) : option Str :=
  match block with Text t => Some (t_text t) | _ => None end.
Definition text_len (block : ContentBlock) : nat :=
  match block with Text t => byte_len (t_text t) | _ => O end.
Definition total_text (content : list ContentBlock) : nat := sum_list (text_len <$> content).
Definition joined_text (content : list ContentBlock) : Str := concat (omap block_text content).
Definition other_blocks (content : list ContentBlock) : list ContentBlock :=
  filter (λ b, block_text b = None) content.

Definition apply_tool_result_budget (content : list ContentBlock) (budget : Z) : list ContentBlock :=
  if Z.of_nat (total_text content) <=? budget then content
  else
    let joined := joined_text content in
    let text := default joined (elide_middle joined (Z.to_nat budget)) in
    text_block text :: other_blocks content.

Definition budgeted_tool_result (context_window_tokens : Z) (tool_call : ToolCall)
    (content : list ContentBlock) (details : option Json) (is_error : bool) : ToolResultMessage :=
  mkToolResult (tc_id tool_call) (tc_name tool_call)
    (apply_tool_result_budget content (tool_result_budget_bytes context_window_tokens))
    details is_error.

(** ** Fingerprints

    [DefaultHasher] and [serde_json::to_string] are the standard library's
    and serde's: functions of what is fed to them. *)
Inductive HashInput := HStr (s : Str) | HBool (b : bool).

Class Fingerprints := {
  hasher : list HashInput → Z;
  json_to_string : Json → Str;
}.

Definition tool_call_fingerprint `{Fingerprints} (tool_call : ToolCall) : Z :=
  hasher [HStr (tc_name tool_call); HStr (json_to_string (canonical_json (tc_arguments tool_call)))].

Definition tool_result_fingerprint `{Fingerprints} (result : ToolResultMessage) : Z :=
  hasher (HBool (tr_is_error result) :: (HStr <$> omap block_text (tr_content result))).

(** ** The doom-loop ring *)

Definition DOOM_LOOP_RING : Z := 32.
Definition DOOM_LOOP_N : nat := 3.

Record RecentToolCall := mkRecent {
  rc_call : Z;
  rc_result : Z;
  rc_is_error : bool;
  rc_denied : bool;
}.

(** The ring update of [record_tool_result]. *)
Definition push_recent (ring : list RecentToolCall) (entry : RecentToolCall) : list RecentToolCall :=
  push_bounded DOOM_LOOP_RING entry ring.

(** The last [DOOM_LOOP_N - 1] runs of a call, newest first. *)
Definition recent_runs (ring : list RecentToolCall) (call : Z) : list RecentToolCall :=
  take (DOOM_LOOP_N - 1) (filter (λ e, rc_call e = call ∧ rc_denied e = false) (reverse ring)).

Definition doom_loop_denial `{Fingerprints} (ring : list RecentToolCall) (tool_call : ToolCall) : option Str :=
  let call := tool_call_fingerprint tool_call in
  match recent_runs ring call with
  | last :: before :: _ =>
      if rc_is_error last && rc_is_error before && (rc_result last =? rc_result before)
      then Some (str "the same `" ++ tc_name tool_call ++ str "` call with identical arguments has failed "
                 ++ show_u64 (Z.of_nat (DOOM_LOOP_N - 1))
                 ++ str " times in a row with the same result; do not repeat it " ++ [8212%N]
                 ++ str " change the arguments or the approach, or ask the user")
      else None
  | _ => None
  end.

(** ** Lemmas: boundaries *)

Lemma floor_loop_spec text i :
  (i ≤ byte_len text)%nat →
  is_char_boundary text (floor_loop text i) = true ∧ (floor_loop text i ≤ i)%nat ∧
  ∀ j, (j ≤ i)%nat → is_char_boundary text j = true → (j ≤ floor_loop text i)%nat.
Proof.
  induction i as [|i IH]; intros Hi; simpl.
  - split_and!; [by destruct text|done|intros; lia].
  - destruct (is_char_boundary text (S i)) eqn:E; [split_and!; [done|lia|intros; lia]|].
    destruct (IH ltac:(lia)) as (H1 & H2 & H3). split_and!; [done|lia|].
    intros j Hj Hb. destruct (decide (j = S i)) as [->|]; [congruence|]. apply H3; [lia|done].
Qed.

Lemma floor_char_boundary_spec text i :
  (i ≤ byte_len text)%nat →
  is_char_boundary text (floor_char_boundary text i) = true ∧
  (floor_char_boundary text i ≤ i ≤ floor_char_boundary text i + 3)%nat.
Proof.
  intros Hi. unfold floor_char_boundary. rw Nat.min_l //.
  destruct (floor_loop_spec text i Hi) as (H1 & H2 & H3).
  destruct (boundary_near text i Hi) as (j & Hj1 & Hj2 & Hj). specialize (H3 j Hj1 Hj). split; [done|lia].
Qed.

Lemma ceil_loop_spec fuel text i :
  (i + fuel = byte_len text)%nat →
  is_char_boundary text (ceil_loop fuel text i) = true ∧
  (i ≤ ceil_loop fuel text i ≤ byte_len text)%nat ∧
  ∀ j, (i ≤ j < ceil_loop fuel text i)%nat → is_char_boundary text j = false.
Proof.
  revert i. induction fuel as [|f IH]; intros i Hi; simpl.
  - replace i with (byte_len text) by lia. split_and!; [apply boundary_len|lia|lia|intros; lia].
  - destruct (is_char_boundary text i) eqn:E; [split_and!; [done|lia|lia|intros; lia]|].
    destruct (IH (S i) ltac:(lia)) as (H1 & H2 & H3). split_and!; [done|lia|lia|].
    intros j Hj. destruct (decide (j = i)) as [->|]; [done|]. apply H3. lia.
Qed.

Lemma ceil_char_boundary_spec text i :
  (i ≤ byte_len text)%nat →
  is_char_boundary text (ceil_char_boundary text i) = true ∧
  (i ≤ ceil_char_boundary text i ≤ i + 3)%nat ∧ (ceil_char_boundary text i ≤ byte_len text)%nat.
Proof.
  intros Hi. unfold ceil_char_boundary. rw Nat.min_l //.
  destruct (ceil_loop_spec (byte_len text - i) text i ltac:(lia)) as (H1 & H2 & H3).
  set (c := ceil_loop _ text i) in *. split_and!; [done|lia| |lia].
  destruct (boundary_near text (Nat.min (i + 3) (byte_len text)) ltac:(lia)) as (j & Hj1 & Hj2 & Hj).
  destruct (decide (c ≤ i + 3)%nat); [done|]. rw H3 in Hj; [done|lia].
Qed.

(** Slicing at two boundaries. *)
Lemma boundary_drop text a b :
  is_char_boundary text a = true → is_char_boundary text b = true → (a ≤ b)%nat →
  is_char_boundary (drop_bytes a text) (b - a) = true ∧
  drop_bytes (b - a) (drop_bytes a text) = drop_bytes b text.
Proof.
  revert a b. induction text as [|c text IH]; intros a b Ha Hb Hab.
  - destruct a; [|done]. rw Nat.sub_0_r. by destruct b.
  - destruct a as [|a]; [rw Nat.sub_0_r; done|]. destruct b as [|b]; [lia|].
    cbn [is_char_boundary] in Ha, Hb. apply andb_true_iff in Ha as [Ha1%Nat.leb_le Ha], Hb as [Hb1%Nat.leb_le Hb].
    cbn [drop_bytes]. destruct (IH _ _ Ha Hb ltac:(lia)) as [H1 H2].
    replace (S b - S a)%nat with (S b - utf8_width c - (S a - utf8_width c))%nat by lia. done.
Qed.

Lemma slice_bytes_split text a b :
  is_char_boundary text a = true → is_char_boundary text b = true → (a ≤ b)%nat →
  text = take_bytes a text ++ slice_bytes a b text ++ drop_bytes b text.
Proof.
  intros Ha Hb Hab. destruct (boundary_drop text a b Ha Hb Hab) as [_ Hd].
  unfold slice_bytes. rw -Hd take_drop_bytes take_drop_bytes //.
Qed.

(** ** Lemmas: the budget *)

Lemma byte_len_show_digits fuel n : (byte_len (show_digits fuel n) ≤ fuel)%nat.
Proof.
  revert n. induction fuel as [|f IH]; intros n; cbn [show_digits]; [done|].
  rw byte_len_app. cbn [byte_len]. pose proof (Z.mod_pos_bound n 10 ltac:(lia)).
  assert (utf8_width (Z.to_N (48 + n mod 10)) = 1%nat) as ->.
  { unfold utf8_width. by rw (proj2 (N.ltb_lt _ _)); [|lia]. }
  destruct (n <? 10); [simpl; lia|]. pose proof (IH (n / 10)). lia.
Qed.

(** The fixed text of the note has 387 bytes, the three numbers at most 20
    digits each. *)
Definition ELISION_NOTE_MAX : nat := 447.

Lemma elision_note_len a b c : (byte_len (elision_note a b c) ≤ ELISION_NOTE_MAX)%nat.
Proof.
  unfold elision_note, show_u64.
  pose proof (byte_len_show_digits 20 (Z.of_nat a)) as Ha.
  pose proof (byte_len_show_digits 20 (Z.of_nat b)) as Hb.
  pose proof (byte_len_show_digits 20 (Z.of_nat c)) as Hc.
  generalize dependent (show_digits 20 (Z.of_nat a)). generalize dependent (show_digits 20 (Z.of_nat b)).
  generalize dependent (show_digits 20 (Z.of_nat c)). intros sc Hc sb Hb sa Ha. rw !byte_len_app.
  repeat match goal with |- context [byte_len (str ?s)] =>
    let n := eval vm_compute in (byte_len (str s)) in
    change (byte_len (str s)) with n end.
  change (byte_len [c_nl; c_nl]) with 2%nat. change (byte_len [8230%N]) with 3%nat.
  unfold ELISION_NOTE_MAX. lia.
Qed.

Lemma elide_middle_spec text budget :
  match elide_middle text budget with
  | None => (byte_len text ≤ budget)%nat
  | Some out =>
      (budget < byte_len text)%nat ∧
      ∃ head dropped tail,
        text = head ++ dropped ++ tail ∧
        out = head ++ elision_note (byte_len dropped) (count_newlines dropped) budget ++ tail ∧
        (budget / 2 ≤ byte_len head + 3 ∧ byte_len head ≤ budget / 2)%nat ∧
        (budget ≤ byte_len head + byte_len tail + 3 ∧ byte_len head + byte_len tail ≤ budget)%nat
  end.
Proof.
  unfold elide_middle. destruct (Nat.leb_spec (byte_len text) budget) as [|Hlt]; [done|].
  pose proof (Nat.Div0.div_le_mono budget (budget * 2) 2 ltac:(lia)) as Hdiv. rw Nat.div_mul // in Hdiv.
  destruct (floor_char_boundary_spec text (budget / 2) ltac:(lia)) as [Hh1 Hh2].
  set (h := floor_char_boundary text (budget / 2)) in *.
  destruct (ceil_char_boundary_spec text (byte_len text - (budget - h)) ltac:(lia)) as (Ht1 & Ht2 & Ht3).
  set (t := ceil_char_boundary text _) in *.
  destruct (Nat.leb_spec t h) as [|Hht]; [lia|]. split; [done|].
  exists (take_bytes h text), (slice_bytes h t text), (drop_bytes t text).
  rw byte_len_take // byte_len_drop //.
  split_and!; [apply slice_bytes_split; [done|done|lia]|done|lia|lia|lia|lia].
Qed.

Lemma joined_text_len content : byte_len (joined_text content) = total_text content.
Proof.
  unfold joined_text, total_text. induction content as [|b content IH]; [done|].
  destruct b; simpl in *; rw ?byte_len_app IH //.
Qed.

Lemma other_blocks_no_text content : total_text (other_blocks content) = O.
Proof.
  unfold other_blocks, total_text. induction content as [|b content IH]; [done|].
  rw filter_cons. case_decide; [|done]. by destruct b.
Qed.

(** ** Claims *)

(** Eliding the middle of a text leaves alone what fits the budget and
    otherwise keeps a head and a tail that together fill the budget to within
    three bytes, cuts only between characters, and reports exactly the bytes
    and lines between them. *)
Theorem elide_keeps_both_ends text budget :
  match elide_middle text budget with
  | None => (byte_len text ≤ budget)%nat
  | Some out =>
      (budget < byte_len text)%nat ∧
      ∃ head dropped tail,
        text = head ++ dropped ++ tail ∧
        out = head ++ elision_note (byte_len dropped) (count_newlines dropped) budget ++ tail ∧
        (budget / 2 ≤ byte_len head + 3 ∧ byte_len head ≤ budget / 2)%nat ∧
        (budget ≤ byte_len head + byte_len tail + 3 ∧ byte_len head + byte_len tail ≤ budget)%nat
  end.
Proof. apply elide_middle_spec. Qed.

(** No tool result carries more text than the budget and the elision
    note, whatever the tool returned; a result within the budget is passed on
    unchanged, and blocks that are not text are never dropped. *)
Theorem tool_result_within_budget ctx call content details is_error :
  let budget := tool_result_budget_bytes ctx in
  let result := budgeted_tool_result ctx call content details is_error in
  Z.of_nat (total_text (tr_content result)) ≤ budget + Z.of_nat ELISION_NOTE_MAX ∧
  (Z.of_nat (total_text content) ≤ budget → tr_content result = content) ∧
  other_blocks (tr_content result) = other_blocks content ∧
  tr_tool_call_id result = tc_id call.
Proof.
  intros budget result. unfold result, budgeted_tool_result. cbn [tr_content tr_tool_call_id].
  fold budget. assert (0 ≤ budget) as Hpos.
  { unfold budget, tool_result_budget_bytes, TOOL_RESULT_BUDGET_MIN_BYTES. lia. }
  unfold apply_tool_result_budget. destruct (Z.leb_spec (Z.of_nat (total_text content)) budget) as [|Hlt].
  { split_and!; [lia|done|done|done]. }
  split_and!; [|intros; lia| |done].
  - pose proof (elide_middle_spec (joined_text content) (Z.to_nat budget)) as Hs.
    unfold total_text. cbn [fmap list_fmap sum_list text_len text_block TextContent_new t_text].
    fold (total_text (other_blocks content)). rw other_blocks_no_text Nat.add_0_r.
    destruct (elide_middle _ _) as [out|].
    + destruct Hs as (_ & h & d & t & _ & -> & _ & _ & Hle). cbn [default].
      pose proof (elision_note_len (byte_len d) (count_newlines d) (Z.to_nat budget)) as Hn.
      generalize dependent (elision_note (byte_len d) (count_newlines d) (Z.to_nat budget)).
      intros note Hn. rw !byte_len_app. unfold id. lia.
    + rw joined_text_len in Hs. lia.
  - unfold other_blocks at 1. rw filter_cons_False //. apply filter_all.
    unfold other_blocks. apply Forall_forall. by intros b [? _]%list_elem_of_filter.
Qed.

(** ** Lemmas: the ring *)

Lemma push_recent_all ring entries :
  len ring ≤ DOOM_LOOP_RING →
  fold_left push_recent entries ring = last_n DOOM_LOOP_RING (ring ++ entries).
Proof.
  unfold DOOM_LOOP_RING. revert ring. induction entries as [|e l IH]; intros ring Hl; simpl.
  - rw app_nil_r. unfold last_n. by replace (_ - _)%nat with O by int_lia.
  - rw IH.
    + unfold push_recent, DOOM_LOOP_RING. rw push_bounded_last // last_n_app -app_assoc //.
    + unfold push_recent, DOOM_LOOP_RING. by apply len_push_bounded.
Qed.

Definition is_run (call : Z) (e : RecentToolCall) : Prop := rc_call e = call ∧ rc_denied e = false.

(** The runs a ring remembers after [ds], none of which is a run of [call]. *)
Lemma runs_skip_denied ring call ds :
  Forall (λ d, rc_denied d = true) ds →
  filter (λ e, rc_call e = call ∧ rc_denied e = false) (reverse (ring ++ ds)) =
  filter (λ e, rc_call e = call ∧ rc_denied e = false) (reverse ring).
Proof.
  intros Hd. rw reverse_app filter_app (filter_none _ (reverse ds)) //. intros d Hin [_ Hf]. rw elem_of_reverse in Hin.
  rw Forall_forall in Hd. specialize (Hd d Hin). congruence.
Qed.

Lemma last_n_suffix {A} n (l k : list A) :
  len k ≤ n → last_n n (l ++ k) = last_n (n - len k) l ++ k.
Proof.
  intros Hk. unfold last_n. rw drop_app_le; [|rw length_app; int_lia]. do 2 f_equal. rw length_app. int_lia.
Qed.

Lemma last_n_within {A} n (l k : list A) : 0 ≤ n ≤ len k → last_n n (l ++ k) = last_n n k.
Proof.
  intros Hk. unfold last_n. rw drop_app_ge; [|rw length_app; int_lia]. f_equal. rw length_app. int_lia.
Qed.

(** ** Claims: the guard *)

(** Two failures with the same result shut the loop for that call, and
    it stays shut through the next thirty refusals; the thirty-first refusal
    pushes the older failure out of the ring and the call runs again.  (The
    ring holds thirty-two entries, refusals included.) *)
Theorem doom_loop_shut_for_thirty `{Fingerprints} ring tool_call e1 e2 refusals :
  len ring ≤ DOOM_LOOP_RING →
  is_run (tool_call_fingerprint tool_call) e1 → is_run (tool_call_fingerprint tool_call) e2 →
  rc_is_error e1 = true → rc_is_error e2 = true → rc_result e1 = rc_result e2 →
  Forall (λ d, rc_denied d = true) refusals →
  is_Some (doom_loop_denial (fold_left push_recent (e1 :: e2 :: refusals) ring) tool_call)
  ↔ len refusals ≤ 30.
Proof.
  intros Hr H1 H2 He1 He2 Hres Hd. rw push_recent_all // /DOOM_LOOP_RING.
  unfold doom_loop_denial, recent_runs. set (call := tool_call_fingerprint tool_call) in *.
  destruct (Z.le_gt_cases (len refusals) 30) as [Hle|Hgt].
  - replace (ring ++ e1 :: e2 :: refusals) with (ring ++ ([e1; e2] ++ refusals)) by done.
    rw last_n_suffix; [|len_lia]. rw app_assoc runs_skip_denied // reverse_app.
    change (reverse [e1; e2]) with [e2; e1]. cbn [app].
    rw filter_cons_True // filter_cons_True //. simpl. rw He1 He2 Hres Z.eqb_refl. simpl.
    split; [done|eauto].
  - split; [|lia].
    replace (ring ++ e1 :: e2 :: refusals) with ((ring ++ [e1]) ++ (e2 :: refusals)) by (by rw -app_assoc).
    rw last_n_within; [|len_lia].
    replace (e2 :: refusals) with ([e2] ++ refusals) by done.
    destruct (Z.le_gt_cases (len refusals) 32).
    + rw last_n_suffix //. rw runs_skip_denied //.
      destruct (last_n (32 - len refusals) [e2]) as [|x [|y l]] eqn:E.
      * rw filter_nil. by intros [? ?].
      * change (reverse [x]) with [x]. rw filter_cons. case_decide; rw filter_nil; by intros [? ?].
      * exfalso. apply (f_equal length) in E. unfold last_n in E. rw length_drop in E. simpl in E. lia.
    + rw last_n_within; [|lia]. rw filter_none; [by intros [? ?]|].
      intros x Hx [_ Hf]. rw elem_of_reverse in Hx. rw Forall_forall in Hd.
      assert (x ∈ refusals) as Hin%Hd; [|congruence].
      rw -(take_drop (length refusals - Z.to_nat 32) refusals). apply elem_of_app. by right.
Qed.

Definition toy_fingerprints : Fingerprints :=
  {| hasher := λ l, Z.of_nat (length l); json_to_string := λ _, [] |}.
Definition toy_call : ToolCall := mkToolCall (str "1") (str "bash") JsonNull None.

Lemma doom_loop_shut_for_thirty_witness :
  let failure := mkRecent 2 7 true false in
  let refusal := mkRecent 2 8 true true in
  is_Some (@doom_loop_denial toy_fingerprints
    (fold_left push_recent (failure :: failure :: replicate 30 refusal) []) toy_call) ∧
  @doom_loop_denial toy_fingerprints
    (fold_left push_recent (failure :: failure :: replicate 31 refusal) []) toy_call = None.
Proof.
  split; [|vm_compute; reflexivity].
  apply (@doom_loop_shut_for_thirty toy_fingerprints [] toy_call); try done.
  apply Forall_replicate. done.
Defined.

(** The guard's fingerprint does not depend on the order of the members
    of the arguments, at any depth; and calls with the same fingerprint are
    the same call up to that order, unless the hash or the rendering
    collides on them. *)
Theorem fingerprint_identifies_calls `{Fingerprints} a b :
  json_wf (tc_arguments a) → json_wf (tc_arguments b) →
  (tc_name a = tc_name b → json_equiv (tc_arguments a) (tc_arguments b) →
   tool_call_fingerprint a = tool_call_fingerprint b) ∧
  ((∀ x y, hasher x = hasher y → x = y) → (∀ v w, json_to_string v = json_to_string w → v = w) →
   tool_call_fingerprint a = tool_call_fingerprint b →
   tc_name a = tc_name b ∧ json_equiv (tc_arguments a) (tc_arguments b)).
Proof.
  intros Ha Hb. unfold tool_call_fingerprint. split.
  - intros -> He. by rw (canonical_of_equiv _ _ Ha Hb He).
  - intros Hh Hs Heq. apply Hh in Heq. injection Heq as Hn Hc.
    split; [done|]. apply equiv_of_canonical; [done|done|]. by apply Hs.
Qed.

Lemma fingerprint_identifies_calls_witness :
  let args x y := JsonObject [x; y] in
  let p := (str "path", JsonString (str "a")) in let q := (str "limit", JsonNumber (str "5")) in
  @tool_call_fingerprint toy_fingerprints (mkToolCall (str "1") (str "read") (args p q) None)
  = @tool_call_fingerprint toy_fingerprints (mkToolCall (str "2") (str "read") (args q p) None).
Proof.
  intros args p q.
  assert (∀ x y, x.1 ≠ y.1 → json_wf x.2 → json_wf y.2 → json_wf (args x y)) as Hwf.
  { intros x y Hne Hx Hy. constructor; [|by repeat constructor].
    simpl. apply NoDup_cons. split; [by rw list_elem_of_singleton|]. apply NoDup_singleton. }
  refine (proj1 (@fingerprint_identifies_calls toy_fingerprints _ _ _ _) _ _); try reflexivity.
  - apply Hwf; [discriminate|constructor|constructor].
  - apply Hwf; [discriminate|constructor|constructor].
  - eapply eqv_object; [apply perm_swap|]. repeat constructor.
Defined.
