(* ===== verification/EditText.v ===== *)
(** * The text replacement of the edit tool ([src/tools.rs])

    [EditTool::execute] from the decoded file to its new content: line endings
    and byte-order mark, the exact and the normalised search, the way back
    from offsets in the normalised text to offsets in the file, and the
    replacement.  Offsets are byte offsets of UTF-8 text. *)

From S2P Require Import Prelude Text Utf8.

(** ** Line endings and the byte-order mark *)

Definition strip_bom (s : Str) : Str * bool :=
  match s with 65279%N :: stripped => (stripped, true) | _ => (s, false) end.

Definition lf : Str := [c_nl].
Definition cr : Str := [c_cr].
Definition crlf : Str := [c_cr; c_nl].

Fixpoint detect_line_ending (content : Str) : Str :=
  match content with
  | [] => lf
  | c :: rest =>
      if (c =? c_cr)%N then (match rest with d :: _ => if (d =? c_nl)%N then crlf else cr | [] => cr end)
      else if (c =? c_nl)%N then lf
      else detect_line_ending rest
  end.

(** The loop of [normalize_to_lf]; [after_cr]: the character just read was a
    carriage return, so that a line feed is swallowed. *)
Fixpoint lf_loop (after_cr : bool) (text : Str) : Str :=
  match text with
  | [] => []
  | c :: rest =>
      if (c =? c_cr)%N then c_nl :: lf_loop true rest
      else if after_cr && (c =? c_nl)%N then lf_loop false rest
      else c :: lf_loop false rest
  end.
Definition normalize_to_lf (text : Str) : Str :=
  if bool_decide (c_cr ∈ text) then lf_loop false text else text.

(** [text.replace(from, to)] for a character. *)
Definition replace_char (from : N) (to text : Str) : Str :=
  text ≫= λ c, if (c =? from)%N then to else [c].

Definition restore_line_endings (text ending : Str) : Str :=
  if bool_decide (ending = crlf) then replace_char c_nl crlf text
  else if bool_decide (ending = cr) then replace_char c_nl cr text
  else text.

(** ** The normal form that matching uses *)

Definition is_special_unicode_space (c : N) : bool :=
  (c =? 160)%N || (c =? 8239)%N || (c =? 8287)%N || (c =? 12288)%N || ((8192 <=? c)%N && (c <=? 8202)%N).

Definition normalized_char (c : N) : N :=
  if is_special_unicode_space c then 32%N
  else if bool_decide (c ∈ [8216%N; 8217%N]) then 39%N
  else if bool_decide (c ∈ [8220%N; 8221%N; 8222%N; 8223%N]) then 34%N
  else if bool_decide (c ∈ [8208%N; 8209%N; 8210%N; 8211%N; 8212%N; 8213%N; 8722%N]) then 45%N
  else c.

Definition is_space (c : N) : bool := is_whitespace c || is_special_unicode_space c.

(** [line.trim_end_matches(..)] *)
Fixpoint trim_line (line : Str) : Str :=
  match line with
  | [] => []
  | c :: rest => match trim_line rest with
                 | [] => if is_space c then [] else [c]
                 | r => c :: r
                 end
  end.

(** [content.split('\n')] *)
Fixpoint split_nl (content : Str) : list Str :=
  match content with
  | [] => [[]]
  | c :: rest =>
      if (c =? c_nl)%N then [] :: split_nl rest
      else match split_nl rest with l :: ls => (c :: l) :: ls | [] => [[c]] end
  end.

Fixpoint join_nl (lines : list Str) : Str :=
  match lines with
  | [] => []
  | [l] => l
  | l :: ls => l ++ lf ++ join_nl ls
  end.

Definition build_normalized_content (content : Str) : Str :=
  join_nl ((λ line, normalized_char <$> trim_line line) <$> split_nl content).

(** ** From the normalised text back to the file *)

(** [content.split_inclusive('\n')], each line without its line feed and with
    whether it had one. *)
Fixpoint split_inclusive_nl (content : Str) : list (Str * bool) :=
  match content with
  | [] => []
  | c :: rest =>
      if (c =? c_nl)%N then ([], true) :: split_inclusive_nl rest
      else match split_inclusive_nl rest with
           | (l, nl) :: ls => (c :: l, nl) :: ls
           | [] => [([c], false)]
           end
  end.

(** [if norm_idx == target && found.is_none() { found = Some(at) }] *)
Definition note_at (norm_idx target at_idx : nat) (found : option nat) : option nat :=
  match found with
  | Some _ => found
  | None => if (norm_idx =? target)%nat then Some at_idx else None
  end.

Definition both_found (match_start match_end : option nat) : bool :=
  match match_start, match_end with Some _, Some _ => true | _, _ => false end.

Section MapRange.
Context (norm_match_start norm_match_end : nat).

(** The loop over the characters of a line that starts at [orig_idx]. *)
Fixpoint map_chars (orig_idx trimmed_len char_offset : nat) (chars : Str) (norm_idx : nat) (match_start match_end : option nat)
    : nat * option nat * option nat :=
  match chars with
  | [] => (norm_idx, match_start, match_end)
  | c :: chars' =>
      let match_end := note_at norm_idx norm_match_end (orig_idx + char_offset) match_end in
      if (trimmed_len <=? char_offset)%nat
      then map_chars orig_idx trimmed_len (char_offset + utf8_width c) chars' norm_idx match_start match_end
      else
        let match_start := note_at norm_idx norm_match_start (orig_idx + char_offset) match_start in
        if both_found match_start match_end then (norm_idx, match_start, match_end)
        else map_chars orig_idx trimmed_len (char_offset + utf8_width c) chars'
               (norm_idx + utf8_width (normalized_char c)) match_start match_end
  end.

Record MapState := mkMapState {
  ms_norm_idx : nat;
  ms_orig_idx : nat;
  ms_match_start : option nat;
  ms_match_end : option nat;
  ms_last_trimmed_end : nat;
  ms_last_has_newline : bool;
}.

(** The loop over the lines. *)
Fixpoint map_lines (lines : list (Str * bool)) (s : MapState) : MapState :=
  match lines with
  | [] => s
  | (line_content, has_newline) :: lines' =>
      let trimmed_len := byte_len (trim_line line_content) in
      let trimmed_end := (ms_orig_idx s + trimmed_len)%nat in
      let '(norm_idx, match_start, match_end) :=
        map_chars (ms_orig_idx s) trimmed_len 0 line_content (ms_norm_idx s) (ms_match_start s) (ms_match_end s) in
      let orig_idx := (ms_orig_idx s + byte_len line_content)%nat in
      let s' :=
        if has_newline
        then mkMapState (norm_idx + 1) (orig_idx + 1)
               (note_at norm_idx norm_match_start orig_idx match_start)
               (note_at norm_idx norm_match_end trimmed_end match_end) trimmed_end has_newline
        else mkMapState norm_idx orig_idx match_start match_end trimmed_end has_newline in
      if both_found (ms_match_start s') (ms_match_end s') then s' else map_lines lines' s'
  end.
End MapRange.

Definition map_normalized_range_to_original (content : Str) (norm_match_start norm_match_len : nat) : nat * nat :=
  let norm_match_end := (norm_match_start + norm_match_len)%nat in
  let s := map_lines norm_match_start norm_match_end (split_inclusive_nl content) (mkMapState 0 0 None None 0 false) in
  let match_end :=
    note_at (ms_norm_idx s) norm_match_end
      (if ms_last_has_newline s then ms_orig_idx s else ms_last_trimmed_end s) (ms_match_end s) in
  let start := default O (ms_match_start s) in
  let stop := default (byte_len content) match_end in
  (start, (stop - start)%nat).

(** ** Searching *)

(** [str::find] of a string, as a byte offset. *)
Fixpoint find_str (s p : Str) : option nat :=
  if starts_with s p then Some O
  else match s with [] => None | c :: s' => (λ i, (utf8_width c + i)%nat) <$> find_str s' p end.

Record FuzzyMatchResult := mkFuzzy {
  fm_found : bool;
  fm_index : nat;
  fm_match_length : nat;
  fm_exact_match : bool;
}.

Definition fuzzy_find_text_with_normalized (content old_text normalized_content normalized_old_text : Str) : FuzzyMatchResult :=
  match find_str content old_text with
  | Some index => mkFuzzy true index (byte_len old_text) true
  | None =>
      match find_str normalized_content normalized_old_text with
      | Some normalized_index =>
          let '(original_start, original_match_len) :=
            map_normalized_range_to_original content normalized_index (byte_len normalized_old_text) in
          mkFuzzy true original_start original_match_len false
      | None => mkFuzzy false 0 0 false
      end
  end.

Fixpoint count_from (haystack needle : Str) : nat :=
  match haystack with
  | [] => O
  | _ :: rest => ((if starts_with haystack needle then 1 else 0) + count_from rest needle)%nat
  end.
Definition count_overlapping_occurrences (haystack needle : Str) : nat :=
  if is_empty needle then O else count_from haystack needle.

(** ** The replacement *)

Inductive EditError :=
| OldTextEmpty
| OldTextBlank
| TextNotFound
| ManyMatches (occurrences : nat)
| NoChange.

(** The source's texts, for the path that was asked for. *)
Definition edit_error_text (path : Str) (e : EditError) : Str :=
  match e with
  | OldTextEmpty => str "The old text cannot be empty. To prepend text, include the first line's content in oldText and newText."
  | OldTextBlank => str "The old text must include at least one non-whitespace character."
  | TextNotFound =>
      str "Could not find the exact text in " ++ path ++ str ". The old text must match exactly including all whitespace and newlines."
  | ManyMatches n =>
      str "Found " ++ show_u64 (Z.of_nat n) ++ str " matches for the text in " ++ path ++
      str ". Add surrounding lines to oldText so it matches exactly one place."
  | NoChange =>
      str "No changes made to " ++ path ++
      str ". The replacement produced identical content. This might indicate an issue with special characters or the text not existing as expected."
  end.

Section Edit.

(** The normalisation forms C and D of [unicode_normalization]. *)
Context (nfc nfd : Str → Str).

Definition old_text_variants (old : Str) : list Str :=
  [old] ++ (if decide (nfc old = old) then [] else [nfc old]) ++ (if decide (nfd old = old) then [] else [nfd old]).

(** The first variant that is found, with its normal form. *)
Fixpoint first_match (content normalized : Str) (variants : list Str) : option (FuzzyMatchResult * Str * Str) :=
  match variants with
  | [] => None
  | variant :: variants' =>
      let precomputed := build_normalized_content variant in
      let r := fuzzy_find_text_with_normalized content variant normalized precomputed in
      if fm_found r then Some (r, precomputed, variant) else first_match content normalized variants'
  end.

Definition has_char (c : N) (s : Str) : bool := bool_decide (c ∈ s).

(** A file with only carriage returns is matched with line feeds. *)
Definition content_for_matching (content : Str) : Str :=
  if has_char c_cr content && negb (has_char c_nl content) then replace_char c_cr lf content else content.

(** The new content of the file, or why there is none. *)
Definition edit_content (raw_content old_text new_text : Str) : result Str EditError :=
  let '(content_no_bom, had_bom) := strip_bom raw_content in
  let original_ending := detect_line_ending content_no_bom in
  let matching := content_for_matching content_no_bom in
  let normalized_old_text := normalize_to_lf old_text in
  if is_empty normalized_old_text then Err OldTextEmpty
  else if is_empty (build_normalized_content normalized_old_text) then Err OldTextBlank
  else
    let precomputed_content := build_normalized_content matching in
    match first_match matching precomputed_content (old_text_variants normalized_old_text) with
    | None => Err TextNotFound
    | Some (r, normalized_variant, matched_variant) =>
        let occurrences :=
          if fm_exact_match r then count_overlapping_occurrences matching matched_variant
          else count_overlapping_occurrences precomputed_content normalized_variant in
        if (1 <? occurrences)%nat then Err (ManyMatches occurrences)
        else
          let idx := fm_index r in
          let match_len := fm_match_length r in
          let adapted_new_text := restore_line_endings (normalize_to_lf new_text) original_ending in
          let new_content :=
            take_bytes idx content_no_bom ++ adapted_new_text ++ drop_bytes (idx + match_len) content_no_bom in
          if decide (content_no_bom = new_content) then Err NoChange
          else Ok ((if had_bom then [65279%N] else []) ++ new_content)
    end.
End Edit.

(** ** What each character contributes to the normal form *)

(** Nothing but spaces up to the end of the line. *)
Fixpoint line_blank (s : Str) : bool :=
  match s with
  | [] => true
  | c :: rest => if (c =? c_nl)%N then true else is_space c && line_blank rest
  end.

(** The character that [c], followed by [rest], becomes; spaces at the end of
    a line become nothing. *)
Definition emit (c : N) (rest : Str) : option N :=
  if (c =? c_nl)%N then Some c_nl
  else if is_space c && line_blank rest then None
  else Some (normalized_char c).

Fixpoint emitted (s : Str) : Str :=
  match s with [] => [] | c :: rest => option_list (emit c rest) ++ emitted rest end.

(** The same for [s] followed by [k]. *)
Fixpoint emitted_in (s k : Str) : Str :=
  match s with [] => [] | c :: rest => option_list (emit c (rest ++ k)) ++ emitted_in rest k end.

Lemma split_nl_cons s : ∃ l ls, split_nl s = l :: ls.
Proof. destruct s as [|c s]; simpl; [eauto|]. case_match; [eauto|]. case_match; eauto. Qed.

Lemma trim_line_blank s l ls : split_nl s = l :: ls → is_empty (trim_line l) = line_blank s.
Proof.
  revert l ls. induction s as [|c s IH]; intros l ls; simpl; [by intros [= <- <-]|].
  destruct (c =? c_nl)%N; [by intros [= <- <-]|]. destruct (split_nl_cons s) as (l' & ls' & E). rw E.
  intros [= <- <-]. simpl. rw -(IH _ _ E). destruct (trim_line l'); simpl; [by destruct (is_space c)|by rw andb_false_r].
Qed.

Lemma normalized_is_emitted s : build_normalized_content s = emitted s.
Proof.
  unfold build_normalized_content. induction s as [|c s IH]; [done|]. cbn [split_nl emitted]. unfold emit.
  destruct (split_nl_cons s) as (l & ls & E). rw E in IH |- *. destruct (c =? c_nl)%N; [rw -IH //|].
  rw -IH -(trim_line_blank s l ls E). cbn [fmap list_fmap trim_line].
  destruct (trim_line l) as [|d t], ls as [|m ls], (is_space c); done.
Qed.

Lemma emitted_in_nil s : emitted_in s [] = emitted s.
Proof. induction s as [|c s IH]; simpl; [done|]. rw app_nil_r IH //. Qed.

Lemma emitted_in_app s t k : emitted_in (s ++ t) k = emitted_in s (t ++ k) ++ emitted_in t k.
Proof. induction s as [|c s IH]; simpl; [done|]. rw IH -!app_assoc //. Qed.

Lemma normalized_space c : is_space (normalized_char c) = is_space c.
Proof.
  unfold normalized_char. destruct (is_special_unicode_space c) eqn:E.
  { unfold is_space. rw E orb_true_r //. }
  assert (∀ l y, is_space y = false → forallb (λ d, negb (is_space d)) l = true → c ∈ l → is_space y = is_space c) as Hl.
  { intros l y -> Hall Hc. symmetry. apply negb_true_iff. rewrite ->forallb_forall in Hall. by apply Hall, list_elem_of_In. }
  case_bool_decide as H1; [by eapply Hl; [vm_compute..|exact H1]|].
  case_bool_decide as H2; [by eapply Hl; [vm_compute..|exact H2]|].
  case_bool_decide as H3; [by eapply Hl; [vm_compute..|exact H3]|done].
Qed.

Lemma normalized_nl c : normalized_char c = c_nl → c = c_nl.
Proof. unfold normalized_char. repeat case_match; done. Qed.

Lemma emitted_nil_blank s : emitted s = [] → line_blank s = true.
Proof.
  induction s as [|c s IH]; simpl; [done|]. unfold emit. destruct (c =? c_nl)%N; [done|].
  destruct (is_space c && line_blank s) eqn:E; [done|]. done.
Qed.

(** A character that ends a line's content, or a line. *)
Definition solid (c : N) : Prop := c = c_nl ∨ is_space c = false.

(** The normal form ends in such a character. *)
Lemma emitted_last s l y : emitted s = l ++ [y] → solid y.
Proof.
  revert l. induction s as [|c s IH]; intros l; simpl; [by destruct l|].
  destruct (emitted s) as [|z t] eqn:E.
  - rw app_nil_r. unfold emit. destruct (c =? c_nl)%N eqn:Ec.
    { intros H. apply (app_inj_tail [] l) in H as [_ <-]. by left. }
    rw (emitted_nil_blank s E) andb_true_r. destruct (is_space c) eqn:Es; [by destruct l|].
    intros H. apply (app_inj_tail [] l) in H as [_ <-]. right. rw normalized_space //.
  - intros H. destruct (exists_last (l := z :: t)) as (t' & w & Et); [done|]. rw Et in H, IH.
    rw app_assoc in H. apply app_inj_tail in H as [_ <-]. by eapply IH.
Qed.

Lemma line_blank_cut r z k : solid z → line_blank (r ++ z :: k) = line_blank (r ++ [z]).
Proof.
  intros Hz. induction r as [|c r IH]; simpl; [|rw IH //]. destruct Hz as [->|Hz]; [done|]. by rw Hz.
Qed.

Lemma emitted_cut m z k : solid z → emitted_in (m ++ [z]) k = emitted (m ++ [z]).
Proof.
  intros Hz. induction m as [|c m IH]; simpl.
  - unfold emit. destruct Hz as [->|Hz]; [done|]. by rw Hz.
  - rw IH. f_equal. f_equal. unfold emit. rw -app_assoc /= line_blank_cut //.
Qed.

(** ** The two offsets, character by character *)

Section Walk.
Context (nstart nend : nat).

Fixpoint walk (s : Str) (orig norm : nat) (st en : option nat) : option nat * option nat :=
  match s with
  | [] => (st, note_at norm nend orig en)
  | c :: rest =>
      let en := note_at norm nend orig en in
      match emit c rest with
      | None => walk rest (orig + utf8_width c) norm st en
      | Some y => walk rest (orig + utf8_width c) (norm + utf8_width y) (note_at norm nstart orig st) en
      end
  end.

Lemma walk_found s : ∀ orig norm a b, walk s orig norm (Some a) (Some b) = (Some a, Some b).
Proof. induction s as [|c s IH]; intros; simpl; [done|]. case_match; apply IH. Qed.

Lemma both_found_true st en : both_found st en = true → ∃ a b, st = Some a ∧ en = Some b.
Proof. destruct st, en; naive_solver. Qed.

(** What follows a line. *)
Definition line_end (k : Str) : Prop := k = [] ∨ ∃ k', k = c_nl :: k'.

Lemma line_blank_line l k : c_nl ∉ l → line_end k → line_blank (l ++ k) = is_empty (trim_line l).
Proof.
  intros Hl Hk. induction l as [|c l IH]; simpl.
  { destruct Hk as [->|[k' ->]]; done. }
  apply not_elem_of_cons in Hl as [Hc Hl]. rw (proj2 (N.eqb_neq c c_nl)); [|congruence]. rw IH //.
  destruct (trim_line l); simpl; [by destruct (is_space c)|by rw andb_false_r].
Qed.

Lemma trim_line_app p l : trim_line (p ++ l) = if is_empty (trim_line l) then trim_line p else p ++ trim_line l.
Proof.
  induction p as [|c p IH]; simpl; [by destruct (trim_line l)|]. rw IH.
  destruct (trim_line l) as [|d t]; simpl; [done|]. by destruct p.
Qed.

Lemma trim_line_shorter l : (byte_len (trim_line l) ≤ byte_len l)%nat.
Proof.
  induction l as [|c l IH]; simpl; [lia|]. destruct (trim_line l); simpl in *; [destruct (is_space c); simpl; lia|lia].
Qed.

Lemma byte_len_nonempty s : s ≠ [] → (0 < byte_len s)%nat.
Proof. destruct s as [|c s]; [done|]. simpl. pose proof (utf8_width_bounds c). lia. Qed.

Lemma offset_is_trailing p l : (byte_len (trim_line (p ++ l)) <=? byte_len p)%nat = is_empty (trim_line l).
Proof.
  rw trim_line_app. destruct (trim_line l) as [|d t] eqn:E; simpl.
  - apply Nat.leb_le, trim_line_shorter.
  - apply Nat.leb_gt. rw byte_len_app. pose proof (byte_len_nonempty (d :: t) ltac:(done)). lia.
Qed.

Lemma map_chars_walk orig k : line_end k → ∀ l p norm st en, c_nl ∉ l →
  walk (l ++ k) (orig + byte_len p) norm st en =
    let '(norm', st', en') := map_chars nstart nend orig (byte_len (trim_line (p ++ l))) (byte_len p) l norm st en in
    walk k (orig + byte_len (p ++ l)) norm' st' en'.
Proof.
  intros Hk. induction l as [|c l IH]; intros p norm st en Hl; [rw app_nil_r //|].
  apply not_elem_of_cons in Hl as [Hc Hl]. cbn [app walk map_chars]. rw offset_is_trailing. unfold emit.
  rw (proj2 (N.eqb_neq c c_nl)); [|congruence]. rw (line_blank_line l k Hl Hk).
  assert (is_space c && is_empty (trim_line l) = is_empty (trim_line (c :: l))) as ->.
  { simpl. destruct (trim_line l); [by destruct (is_space c)|by rw andb_false_r]. }
  pose proof (λ n s e, IH (p ++ [c]) n s e Hl) as IH'. rw -!app_assoc byte_len_app /= Nat.add_0_r Nat.add_assoc in IH'.
  destruct (is_empty _); [rw IH' //|]. destruct (both_found _ _) eqn:Eb; [|rw IH' //].
  apply both_found_true in Eb as (a & b & -> & ->). rw !walk_found //.
Qed.

(** Past trailing spaces, the end was looked for. *)
Lemma map_chars_silent orig l : trim_line l = [] → l ≠ [] → ∀ p norm st en,
  let '(norm', st', en') := map_chars nstart nend orig (byte_len (trim_line (p ++ l))) (byte_len p) l norm st en in
  norm' = norm ∧ (en' ≠ None ∨ norm ≠ nend).
Proof.
  intros Ht Hne. induction l as [|c l IH]; intros p norm st en; [done|]. clear Hne.
  cbn [map_chars]. rw offset_is_trailing Ht /=.
  assert (trim_line l = []) as Htl by (simpl in Ht; by destruct (trim_line l)).
  destruct (decide (l = [])) as [->|Hne].
  - simpl. split; [done|]. unfold note_at. destruct en; [by left|]. destruct (Nat.eqb_spec norm nend); [by left|by right].
  - specialize (IH Htl Hne (p ++ [c]) norm st (note_at norm nend (orig + byte_len p) en)).
    rw -!app_assoc byte_len_app /= Nat.add_0_r in IH. exact IH.
Qed.

Lemma map_chars_tail orig l : trim_line l ≠ l → ∀ p norm st en,
  let '(norm', st', en') := map_chars nstart nend orig (byte_len (trim_line (p ++ l))) (byte_len p) l norm st en in
  en' ≠ None ∨ norm' ≠ nend.
Proof.
  induction l as [|c l IH]; intros Ht p norm st en; [done|].
  destruct (trim_line (c :: l)) as [|d t] eqn:E.
  { pose proof (map_chars_silent orig (c :: l) E ltac:(done) p norm st en) as H.
    destruct (map_chars _ _ _ _ _ _ _ _ _) as [[? ?] ?]. destruct H as [-> H]. done. }
  cbn [map_chars]. rw offset_is_trailing E /=. destruct (both_found _ _) eqn:Eb.
  { apply both_found_true in Eb as (a & b & _ & ->). by left. }
  assert (trim_line l ≠ l) as Htl.
  { intros El. simpl in E. rw El in E. destruct l; simpl in *; [destruct (is_space c); congruence|congruence]. }
  match goal with |- context [map_chars _ _ _ _ _ l ?n ?s ?e] => specialize (IH Htl (p ++ [c]) n s e) end.
  rw -!app_assoc byte_len_app /= Nat.add_0_r in IH. exact IH.
Qed.

(** Lines as [split_inclusive_nl] gives them. *)
Fixpoint lines_ok (lines : list (Str * bool)) : Prop :=
  match lines with
  | [] => True
  | (l, has_newline) :: lines' => (c_nl ∉ l) ∧ (if has_newline then lines_ok lines' else (lines' = []))
  end.
Definition text_of (lines : list (Str * bool)) : Str := lines ≫= (λ ln : Str * bool, ln.1 ++ (if ln.2 then lf else [])).

Lemma split_inclusive_ok s : text_of (split_inclusive_nl s) = s ∧ lines_ok (split_inclusive_nl s).
Proof.
  induction s as [|c s [IHt IHo]]; [done|]. cbn [split_inclusive_nl]. destruct (N.eqb_spec c c_nl) as [->|Hc].
  - split; [simpl; rw -{2}IHt //|]. split; [by apply not_elem_of_nil|done].
  - destruct (split_inclusive_nl s) as [|[l nl] ls]; simpl in *.
    + subst s. split; [done|]. split; [|done]. apply not_elem_of_cons. split; [congruence|by apply not_elem_of_nil].
    + split; [by f_equal|]. destruct IHo as [Hl Ho]. split; [|done]. apply not_elem_of_cons. by split; [congruence|].
Qed.

Definition map_finish (s : MapState) : option nat * option nat :=
  (ms_match_start s,
   note_at (ms_norm_idx s) nend (if ms_last_has_newline s then ms_orig_idx s else ms_last_trimmed_end s) (ms_match_end s)).

Definition tail_ok (s : MapState) : Prop :=
  ms_last_has_newline s = true ∨ ms_last_trimmed_end s = ms_orig_idx s ∨ ms_match_end s ≠ None ∨ ms_norm_idx s ≠ nend.

Lemma note_at_irrelevant norm target a b found : a = b ∨ found ≠ None ∨ norm ≠ target →
  note_at norm target a found = note_at norm target b found.
Proof. unfold note_at. destruct found; [done|]. destruct (Nat.eqb_spec norm target); naive_solver. Qed.

Lemma map_lines_walk lines : lines_ok lines → ∀ s, tail_ok s →
  map_finish (map_lines nstart nend lines s) =
    walk (text_of lines) (ms_orig_idx s) (ms_norm_idx s) (ms_match_start s) (ms_match_end s).
Proof.
  induction lines as [|[l nl] lines IH]; intros Hok s Ht.
  { unfold map_finish. simpl. f_equal. destruct Ht as [->|Ht]; [done|]. case_match; [done|]. by apply note_at_irrelevant. }
  destruct Hok as [Hl Hok]. cbn [map_lines].
  change (text_of ((l, nl) :: lines)) with ((l ++ (if nl then lf else [])) ++ text_of lines). rw -app_assoc.
  assert (line_end ((if nl then lf else []) ++ text_of lines)) as Hk.
  { destruct nl; [right; by eexists|left]. by rw Hok. }
  pose proof (map_chars_walk (ms_orig_idx s) _ Hk l [] (ms_norm_idx s) (ms_match_start s) (ms_match_end s) Hl) as Hw.
  pose proof (map_chars_tail (ms_orig_idx s) l) as Htl. simpl in Hw, Htl. rw Nat.add_0_r in Hw. rw Hw. clear Hw.
  specialize (λ H, Htl H [] (ms_norm_idx s) (ms_match_start s) (ms_match_end s)). simpl in Htl.
  destruct (map_chars _ _ _ _ _ _ _ _ _) as [[norm st] en].
  assert (ms_orig_idx s + byte_len (trim_line l) = ms_orig_idx s + byte_len l ∨ en ≠ None ∨ norm ≠ nend)%nat as Htail.
  { destruct (decide (trim_line l = l)) as [->|H]; [by left|right; by apply Htl]. }
  destruct nl; simpl.
  - rw (note_at_irrelevant _ _ (ms_orig_idx s + byte_len (trim_line l)) (ms_orig_idx s + byte_len l)%nat) //.
    destruct (both_found _ _) eqn:Eb.
    + apply both_found_true in Eb as (a & b & -> & ->). rw walk_found //.
    + rw IH //. by left.
  - subst lines. simpl. destruct (both_found st en) eqn:Eb.
    + apply both_found_true in Eb as (a & b & -> & ->). done.
    + unfold map_finish. simpl. f_equal. by apply note_at_irrelevant.
Qed.

(** From the start of the match on. *)
Lemma walk_to_end s : ∀ a orig norm o b, emitted s = o ++ b → (norm + byte_len o)%nat = nend →
  ∃ m k, s = m ++ k ∧ walk s orig norm (Some a) None = (Some a, Some (orig + byte_len m)%nat) ∧
    emitted_in m k = o ∧ (m = [] ∨ ∃ m' z, m = m' ++ [z] ∧ emit z k ≠ None).
Proof.
  induction s as [|c s IH]; intros a orig norm o b He Hn; destruct o as [|y o].
  - exists [], []. simpl in Hn. rw Nat.add_0_r in Hn. simpl. rw Hn Nat.eqb_refl Nat.add_0_r. auto.
  - done.
  - exists [], (c :: s). simpl in Hn. rw Nat.add_0_r in Hn. cbn [walk app byte_len note_at]. rw Hn Nat.eqb_refl Nat.add_0_r.
    split_and!; [done| |done|by left]. case_match; apply walk_found.
  - cbn [walk]. change (note_at norm nstart orig (Some a)) with (Some a). pose proof (utf8_width_bounds y). simpl in Hn.
    assert (note_at norm nend orig None = None) as ->. { unfold note_at. rw (proj2 (Nat.eqb_neq _ _)) //. lia. }
    simpl in He. destruct (emit c s) as [y'|] eqn:Ec; simpl in He.
    + injection He as -> He. destruct (IH a (orig + utf8_width c)%nat (norm + utf8_width y)%nat o b He ltac:(lia))
        as (m & k & -> & -> & Hem & Hlast).
      exists (c :: m), k. simpl. rw Ec Hem Nat.add_assoc. split_and!; try done. right. destruct Hlast as [->|(m' & z & -> & Hz)].
      * exists [], c. split; [done|]. simpl in Ec. by rw Ec.
      * by exists (c :: m'), z.
    + destruct (IH a (orig + utf8_width c)%nat norm (y :: o) b He ltac:(simpl; lia)) as (m & k & -> & -> & Hem & Hlast).
      exists (c :: m), k. simpl. rw Ec Hem Nat.add_assoc. split_and!; try done. right. destruct Hlast as [->|(m' & z & -> & Hz)]; [done|].
      by exists (c :: m'), z.
Qed.

(** The tight slice of the file behind an occurrence in its normal form. *)
Lemma walk_from_start s : ∀ orig norm p o b, emitted s = p ++ o ++ b → o ≠ [] →
  (norm + byte_len p)%nat = nstart → nend = (nstart + byte_len o)%nat →
  ∃ q m k, s = q ++ m ++ k ∧
    walk s orig norm None None = (Some (orig + byte_len q)%nat, Some (orig + byte_len q + byte_len m)%nat) ∧
    emitted_in m k = o ∧ ∃ m' z, m = m' ++ [z] ∧ emit z k ≠ None.
Proof.
  induction s as [|c s IH]; intros orig norm p o b He Ho Hp Hn.
  { by destruct p, o. }
  pose proof (byte_len_nonempty o Ho). cbn [walk].
  assert (note_at norm nend orig None = None) as ->. { unfold note_at. rw (proj2 (Nat.eqb_neq _ _)) //. lia. }
  simpl in He. destruct (emit c s) as [y|] eqn:Ec; simpl in He.
  - destruct p as [|y' p].
    + destruct o as [|y' o]; [done|]. injection He as -> He. simpl in Hp, Hn. rw Nat.add_0_r in Hp.
      unfold note_at at 1. rw Hp Nat.eqb_refl.
      destruct (walk_to_end s orig (orig + utf8_width c)%nat (nstart + utf8_width y')%nat o b He ltac:(lia))
        as (m & k & -> & -> & Hem & Hlast).
      exists [], (c :: m), k. simpl. rw Ec Hem Nat.add_0_r Nat.add_assoc. split_and!; try done.
      destruct Hlast as [->|(m' & z & -> & Hz)]; [exists [], c; split; [done|]; simpl in Ec; by rw Ec|by exists (c :: m'), z].
    + injection He as -> He. simpl in Hp. pose proof (utf8_width_bounds y').
      assert (note_at norm nstart orig None = None) as ->. { unfold note_at. rw (proj2 (Nat.eqb_neq _ _)) //. lia. }
      destruct (IH (orig + utf8_width c)%nat (norm + utf8_width y')%nat p o b He Ho ltac:(lia) Hn) as (q & m & k & -> & -> & Hem & Hl).
      exists (c :: q), m, k. simpl. rw !Nat.add_assoc. done.
  - destruct (IH (orig + utf8_width c)%nat norm p o b He Ho Hp Hn) as (q & m & k & -> & -> & Hem & Hl).
    exists (c :: q), m, k. simpl. rw !Nat.add_assoc. done.
Qed.
End Walk.

(** The offsets found for an occurrence of a normal form [norm v] delimit a
    slice of the file with that very normal form. *)
Lemma map_range_spec content v p b : build_normalized_content content = p ++ build_normalized_content v ++ b →
  build_normalized_content v ≠ [] →
  ∃ q m k, content = q ++ m ++ k ∧ build_normalized_content m = build_normalized_content v ∧
    map_normalized_range_to_original content (byte_len p) (byte_len (build_normalized_content v)) = (byte_len q, byte_len m).
Proof.
  rw !normalized_is_emitted. intros He Hne. set (o := emitted v) in *.
  destruct (walk_from_start (byte_len p) (byte_len p + byte_len o) content 0 0 p o b He Hne eq_refl eq_refl)
    as (q & m & k & Hc & Hw & Hem & m' & z & -> & Hz).
  exists q, (m' ++ [z]), k. split; [done|].
  assert (solid z) as Hsolid.
  { destruct (emit z k) as [y|] eqn:Ez; [|done]. rw emitted_in_app /= Ez /= in Hem.
    assert (solid y) as Hy by (eapply (emitted_last v); symmetry; exact Hem).
    unfold emit in Ez. destruct (N.eqb_spec z c_nl) as [->|Hzn]; [by left|]. right.
    destruct (is_space z && line_blank k); [done|]. injection Ez as <-.
    destruct Hy as [Hy%normalized_nl|Hy]; [done|]. by rw normalized_space in Hy. }
  rw emitted_cut // in Hem. rw !normalized_is_emitted Hem. split; [done|].
  unfold map_normalized_range_to_original. destruct (split_inclusive_ok content) as [Ht Hok].
  pose proof (map_lines_walk (byte_len p) (byte_len p + byte_len o) _ Hok (mkMapState 0 0 None None 0 false)) as Hmap.
  rw Ht /= Hw in Hmap. specialize (Hmap ltac:(right; by left)). unfold map_finish in Hmap. injection Hmap as -> ->.
  simpl. f_equal. lia.
Qed.

(** ** Occurrences *)

(** [part] occurs in [whole] after [before], and nowhere else. *)
Definition unique_in (whole part before : Str) : Prop :=
  (∃ after, whole = before ++ part ++ after) ∧ ∀ b a, whole = b ++ part ++ a → b = before.

Lemma find_str_Some s p i : find_str s p = Some i → ∃ q k, s = q ++ p ++ k ∧ i = byte_len q.
Proof.
  revert i. induction s as [|c s IH]; intros i; cbn [find_str]; (destruct (starts_with _ p) eqn:E;
    [apply starts_with_spec in E as [k E]; intros [= <-]; by exists [], k|]); [done|].
  intros (j & Hj & ->)%fmap_Some. destruct (IH _ Hj) as (q & k & -> & ->). by exists (c :: q), k.
Qed.

Lemma find_str_None s p q k : find_str s p = None → s ≠ q ++ p ++ k.
Proof.
  revert q. induction s as [|c s IH]; intros q; cbn [find_str]; (destruct (starts_with _ p) eqn:E; [done|]).
  - intros _ Hs. symmetry in Hs. apply app_nil in Hs as [_ [-> _]%app_nil]. done.
  - intros Hf%fmap_None Hs. destruct q as [|d q].
    + assert (starts_with (c :: s) p = true) by (apply starts_with_spec; by exists k). congruence.
    + injection Hs as -> Hs. by eapply IH.
Qed.

Lemma count_positive p q k : p ≠ [] → (1 ≤ count_from (q ++ p ++ k) p)%nat.
Proof.
  intros Hp. induction q as [|c q IH]; simpl; [|lia]. destruct p as [|c p]; [done|]. cbn [app count_from].
  rw (proj2 (starts_with_spec (c :: p ++ k) (c :: p))); [lia|]. by exists k.
Qed.

Lemma count_unique p : p ≠ [] → ∀ s, (count_from s p ≤ 1)%nat →
  ∀ q k q' k', s = q ++ p ++ k → s = q' ++ p ++ k' → q = q'.
Proof.
  intros Hp. assert (∀ x c k k', p ++ k = x :: c ++ p ++ k' → (count_from (p ++ k) p ≤ 1)%nat → False) as Haux.
  { intros x c k k' E Hc. rw E in Hc. cbn [count_from] in Hc.
    rw (proj2 (starts_with_spec (x :: c ++ p ++ k') p)) in Hc; [|exists k; by rw E].
    pose proof (count_positive p c k' Hp). lia. }
  induction s as [|c s IH]; intros Hc q k q' k' E E'.
  { symmetry in E. apply app_nil in E as [_ [-> _]%app_nil]. done. }
  destruct q as [|d q], q' as [|d' q']; [done| | |].
  - exfalso. apply (Haux d' q' k k'); simpl in *; [congruence|by rw -E].
  - exfalso. apply (Haux d q k' k); simpl in *; [congruence|by rw -E'].
  - injection E as <- E. injection E' as <- E'. f_equal. eapply IH; [|exact E|exact E'].
    cbn [count_from] in Hc. destruct (starts_with _ _); lia.
Qed.

Lemma count_occurs p q k s : p ≠ [] → s = q ++ p ++ k → (count_overlapping_occurrences s p ≤ 1)%nat → unique_in s p q.
Proof.
  intros Hp -> Hc. assert (count_from (q ++ p ++ k) p ≤ 1)%nat as Hc' by by destruct p.
  split; [by exists k|]. intros b a Hb. by eapply (count_unique p Hp _ Hc').
Qed.

Lemma matching_fmap content : ∃ f : N → N, content_for_matching content = f <$> content ∧ ∀ c, utf8_width (f c) = utf8_width c.
Proof.
  unfold content_for_matching. destruct (_ && _); [|exists id; split; [by rw list_fmap_id|done]].
  exists (λ c, if (c =? c_cr)%N then c_nl else c). split.
  - unfold replace_char. induction content as [|c l IH]; [done|]. cbn. rw -IH. by destruct (c =? c_cr)%N.
  - intros c. destruct (N.eqb_spec c c_cr) as [->|]; done.
Qed.

Lemma byte_len_fmap f s : (∀ c, utf8_width (f c) = utf8_width c) → byte_len (f <$> s) = byte_len s.
Proof. intros Hf. induction s as [|c s IH]; [done|]. cbn. by rw Hf IH. Qed.

(** ** The search *)

Definition found_in (content v : Str) : FuzzyMatchResult :=
  fuzzy_find_text_with_normalized content v (build_normalized_content content) (build_normalized_content v).

Lemma found_slice content v : build_normalized_content v ≠ [] → fm_found (found_in content v) = true →
  ∃ q m k, content = q ++ m ++ k ∧ fm_index (found_in content v) = byte_len q ∧
    fm_match_length (found_in content v) = byte_len m ∧
    (fm_exact_match (found_in content v) = true ∧ m = v ∨
     fm_exact_match (found_in content v) = false ∧ (∀ a b, content ≠ a ++ v ++ b) ∧
     build_normalized_content m = build_normalized_content v ∧
     ∃ p b, build_normalized_content content = p ++ build_normalized_content v ++ b).
Proof.
  intros Hv. unfold found_in, fuzzy_find_text_with_normalized. destruct (find_str content v) as [i|] eqn:Ef.
  - intros _. apply find_str_Some in Ef as (q & k & -> & ->). exists q, v, k. auto 6.
  - destruct (find_str (build_normalized_content content) _) as [i|] eqn:En; [|done]. intros _.
    apply find_str_Some in En as (p & b & En & ->). destruct (map_range_spec _ _ _ _ En Hv) as (q & m & k & -> & Hm & ->).
    exists q, m, k. simpl. split_and!; try done. right. split_and!; [done| |done|by exists p, b].
    intros a b' E. by eapply find_str_None.
Qed.

(** The text stands nowhere in the file, neither as it is nor normalised. *)
Definition nowhere (content v : Str) : Prop :=
  (∀ a b, content ≠ a ++ v ++ b) ∧ ∀ a b, build_normalized_content content ≠ a ++ build_normalized_content v ++ b.

(** [v] is the first of the variants that stands somewhere. *)
Definition first_found (content : Str) (variants : list Str) (v : Str) : Prop :=
  ∃ tried rest, variants = tried ++ v :: rest ∧ ∀ w, w ∈ tried → nowhere content w.

Lemma not_found content v : fm_found (found_in content v) = false → nowhere content v.
Proof.
  unfold nowhere, found_in, fuzzy_find_text_with_normalized. destruct (find_str content v) eqn:Ef; [done|].
  destruct (find_str (build_normalized_content content) _) eqn:En; [by case_match|]. intros _.
  split; intros a b; by apply find_str_None.
Qed.

Lemma first_match_spec content variants :
  match first_match content (build_normalized_content content) variants with
  | Some (r, o, v) => first_found content variants v ∧ o = build_normalized_content v ∧ r = found_in content v ∧ fm_found r = true
  | None => ∀ v, v ∈ variants → nowhere content v
  end.
Proof.
  induction variants as [|v vs IH]; cbn [first_match]; [by intros v ?%not_elem_of_nil|].
  fold (found_in content v). destruct (fm_found (found_in content v)) eqn:E.
  { split_and!; [|done..]. exists [], vs. split; [done|]. by intros w ?%not_elem_of_nil. }
  apply not_found in E. destruct (first_match _ _ vs) as [[[r o] w]|].
  - destruct IH as ((tried & rest & -> & Ht) & ?). split; [|done]. exists (v :: tried), rest. split; [done|].
    intros u [->|Hu]%elem_of_cons; auto.
  - intros w [->|Hw]%elem_of_cons; auto.
Qed.

(** The places where a text starts. *)
Definition places (whole part : Str) : list nat :=
  filter (λ i, starts_with (drop i whole) part = true) (seq 0 (length whole)).

Lemma count_from_places p whole s k : s = drop k whole →
  count_from s p = length (filter (λ i, starts_with (drop i whole) p = true) (seq k (length s))).
Proof.
  revert k. induction s as [|c s IH]; intros k Hk; [done|]. cbn [count_from length seq]. rw filter_cons (IH (S k)).
  - rw -Hk. by destruct (starts_with _ _).
  - rw -Nat.add_1_r -drop_drop -Hk. done.
Qed.

Lemma count_places p s : p ≠ [] → count_overlapping_occurrences s p = length (places s p).
Proof. intros Hp. transitivity (count_from s p); [by destruct p|]. by apply count_from_places. Qed.

(** ** Claims *)

Section Correct.
Context (nfc nfd : Str → Str).

(** A normal form of a text with something to see has something to see. *)
Hypothesis nfc_visible : ∀ s, build_normalized_content s ≠ [] → build_normalized_content (nfc s) ≠ [].
Hypothesis nfd_visible : ∀ s, build_normalized_content s ≠ [] → build_normalized_content (nfd s) ≠ [].

Lemma variant_visible old v : build_normalized_content old ≠ [] → v ∈ old_text_variants nfc nfd old → build_normalized_content v ≠ [].
Proof.
  intros Ho Hv. unfold old_text_variants in Hv.
  apply elem_of_app in Hv as [->%list_elem_of_singleton|[Hv|Hv]%elem_of_app]; [done| |]; case_decide;
    try (by apply not_elem_of_nil in Hv); apply list_elem_of_singleton in Hv as ->; auto.
Qed.

(** [part], at [before], is the one place of the file that [v] stands for. *)
Definition the_one_match (matching v before part : Str) : Prop :=
  part = v ∧ unique_in matching v before ∨
  (∀ a b, matching ≠ a ++ v ++ b) ∧ build_normalized_content part = build_normalized_content v ∧
    ∃ p, unique_in (build_normalized_content matching) (build_normalized_content v) p.

Lemma one_match content v : build_normalized_content v ≠ [] → let r := found_in content v in
  fm_found r = true →
  ((if fm_exact_match r then count_overlapping_occurrences content v
    else count_overlapping_occurrences (build_normalized_content content) (build_normalized_content v)) ≤ 1)%nat →
  ∃ q m k, content = q ++ m ++ k ∧ fm_index r = byte_len q ∧ fm_match_length r = byte_len m ∧ the_one_match content v q m.
Proof.
  intros Hv r Hf Hc. destruct (found_slice content v Hv Hf) as (q & m & k & Hs & Hi & Hl & Hm). fold r in Hi, Hl, Hm.
  exists q, m, k. split_and!; [done..|]. destruct Hm as [(Ee & ->)|(Ee & Hn & Hmv & p & b & Hp)]; rw Ee in Hc.
  - left. split; [done|]. eapply count_occurs; [by intros ->|exact Hs|exact Hc].
  - right. split_and!; [done..|]. exists p. by eapply count_occurs.
Qed.

(** The slices of the file behind those of the text that was matched. *)
Lemma slices_back content q m k : content_for_matching content = q ++ m ++ k → ∃ q' m' k',
  content = q' ++ m' ++ k' ∧ length q' = length q ∧ length m' = length m ∧ byte_len q' = byte_len q ∧ byte_len m' = byte_len m.
Proof.
  destruct (matching_fmap content) as (f & -> & Hf). intros H.
  apply fmap_app_inv in H as (q' & r' & -> & H & ->). symmetry in H. apply fmap_app_inv in H as (m' & k' & -> & -> & ->).
  exists q', m', k'. rw !length_fmap !byte_len_fmap //.
Qed.

(** [n] counts the places of [v]: where it stands as it is, or, when there is
    no such place, where its normal form stands in the file's. *)
Definition counts_the_places (matching v : Str) (n : nat) : Prop :=
  (∃ a b, matching = a ++ v ++ b) ∧ n = length (places matching v) ∨
  (∀ a b, matching ≠ a ++ v ++ b) ∧
    n = length (places (build_normalized_content matching) (build_normalized_content v)).

Lemma first_found_in content variants v : first_found content variants v → v ∈ variants.
Proof. intros (tried & rest & -> & _). apply elem_of_app. right. left. Qed.

Lemma counted matching v : build_normalized_content v ≠ [] → fm_found (found_in matching v) = true →
  counts_the_places matching v
    (if fm_exact_match (found_in matching v) then count_overlapping_occurrences matching v
     else count_overlapping_occurrences (build_normalized_content matching) (build_normalized_content v)).
Proof.
  intros Hv Hf. unfold counts_the_places. destruct (found_slice matching v Hv Hf) as (q & m & k & Hs & _ & _ & [(-> & ->)|(-> & Hn & _)]).
  - left. split; [by exists q, k|]. apply count_places. by intros ->.
  - right. split; [done|]. by apply count_places.
Qed.

(** C24: an edit replaces exactly the one match.  Of the old text and its
    Unicode normal forms the first that stands anywhere in the file is taken:
    as it is if it stands so, and otherwise with trailing spaces dropped and
    spaces, quotes and dashes unified on both sides.  (A file with only
    carriage returns is matched with line feeds in their place.)  If it has
    just one place, the file without its byte-order mark is some text, the
    slice at that place and some more text, and the new file is the mark, that
    text, the new text with the file's line endings, and the rest; the edit
    fails as changing nothing exactly when that slice already is the new text.
    It fails for several places exactly when there are, and says how many;
    as not found exactly when neither the old text nor a normal form stands
    anywhere in either way; and before that exactly for an empty or a blank
    old text. *)
Theorem edit_replaces_the_one_match raw old_text new_text :
  let content := (strip_bom raw).1 in
  let mark := if (strip_bom raw).2 then [65279%N] else [] in
  let matching := content_for_matching content in
  let old := normalize_to_lf old_text in
  let variants := old_text_variants nfc nfd old in
  let adapted := restore_line_endings (normalize_to_lf new_text) (detect_line_ending content) in
  let at_the_match before part after := ∃ v before' part' after',
    first_found matching variants v ∧ content = before ++ part ++ after ∧
    matching = before' ++ part' ++ after' ∧ length before' = length before ∧ length part' = length part ∧
    the_one_match matching v before' part' in
  match edit_content nfc nfd raw old_text new_text with
  | Ok new_file => ∃ before part after, at_the_match before part after ∧
      new_file = mark ++ before ++ adapted ++ after ∧ part ≠ adapted
  | Err OldTextEmpty => old = []
  | Err OldTextBlank => old ≠ [] ∧ build_normalized_content old = []
  | Err TextNotFound => build_normalized_content old ≠ [] ∧ ∀ v, v ∈ variants → nowhere matching v
  | Err (ManyMatches n) => build_normalized_content old ≠ [] ∧ (1 < n)%nat ∧
      ∃ v, first_found matching variants v ∧ counts_the_places matching v n
  | Err NoChange => ∃ before after, at_the_match before adapted after
  end.
Proof.
  cbv zeta. unfold edit_content. destruct (strip_bom raw) as [content had_bom]. cbn [fst snd].
  set (old := normalize_to_lf old_text). set (matching := content_for_matching content).
  set (adapted := restore_line_endings _ _).
  destruct (is_empty old) eqn:E1; [by destruct old|].
  destruct (is_empty (build_normalized_content old)) eqn:E2; [split; [by intros E; rw E in E1|by destruct (build_normalized_content old)]|].
  assert (build_normalized_content old ≠ []) as Hold by (intros E; rw E in E2; done).
  pose proof (first_match_spec matching (old_text_variants nfc nfd old)) as Hm.
  destruct (first_match _ _ _) as [[[r w] v]|]; [|by split].
  destruct Hm as (Hv & -> & -> & Hf).
  pose proof (variant_visible old v Hold (first_found_in _ _ _ Hv)) as Hvis.
  pose proof (counted matching v Hvis Hf) as Hcount.
  destruct (Nat.ltb_spec 1 (if fm_exact_match (found_in matching v) then count_overlapping_occurrences matching v
    else count_overlapping_occurrences (build_normalized_content matching) (build_normalized_content v))) as [Hn|Hn]; [by eauto 6|].
  destruct (one_match matching v Hvis Hf Hn) as (q & m & k & Hs & -> & -> & Hone).
  destruct (slices_back content q m k Hs) as (q' & m' & k' & Hc & Hlq & Hlm & <- & <-).
  rw -byte_len_app Hc take_bytes_app (app_assoc q' m') drop_bytes_app -app_assoc.
  case_decide as Hd.
  - apply app_inv_head, app_inv_tail in Hd as ->. exists q', k', v, q, m, k. by rewrite <-Hc.
  - exists q', m', k'. split_and!; [exists v, q, m, k; by rewrite <-Hc|done|by intros ->].
Qed.
End Correct.

(** A file with Windows line endings, spaces at the end of a line and a curly
    quote, edited with plain text; the normal forms leave ASCII as it is. *)
Lemma edit_replaces_the_one_match_witness :
  let raw := str "let a;  " ++ crlf ++ str "say(" ++ [8217%N] ++ str "hi" ++ [8217%N] ++ str ");" ++ crlf in
  let old := str "a;" ++ lf ++ str "say('hi')" in
  let new := str "b;" ++ lf ++ str "say('ho')" in
  (∃ new_file, edit_content id id raw old new = Ok new_file ∧
    ∃ before part after, raw = before ++ part ++ after ∧
      new_file = before ++ (str "b;" ++ crlf ++ str "say('ho')") ++ after) ∧
  edit_content id id raw old new = Ok (str "let b;" ++ crlf ++ str "say('ho');" ++ crlf).
Proof.
  intros raw old new.
  assert (edit_content id id raw old new = Ok (str "let b;" ++ crlf ++ str "say('ho');" ++ crlf))
    as E by (vm_compute; reflexivity).
  split; [|exact E]. eexists. split; [exact E|].
  pose proof (edit_replaces_the_one_match id id (λ _ H, H) (λ _ H, H) raw old new) as H. cbv zeta in H. rewrite ->E in H.
  destruct H as (before & part & after & (v & b' & p' & a' & Hv & Hc & _) & Hn & _).
  exists before, part, after. split; [exact Hc|exact Hn].
Defined.

(** In a file with Windows line endings an old text that starts with a line
    feed matches in the middle of a line ending; the new text brings a whole
    one, and a stray carriage return stays. *)
Example edit_splits_line_ending :
  edit_content id id (str "foo" ++ crlf ++ str "bar") (lf ++ str "bar") (lf ++ str "qux") =
  Ok (str "foo" ++ cr ++ crlf ++ str "qux").
Proof. vm_compute. reflexivity. Qed.
