(* ===== verification/Truncation.v ===== *)
(** * Truncation of tool output ([src/tools.rs])

    [truncate_head] and [truncate_tail] cut a text to a number of lines and of
    bytes, and [HeadTruncatingLineWriter] does the former for lines that
    arrive one by one.  Offsets are byte offsets of UTF-8 text. *)

From S2P Require Import Prelude Text Utf8.

Inductive TruncatedBy := Lines | Bytes.
#[global] Instance TruncatedBy_eq_dec : EqDecision TruncatedBy.
Proof. solve_decision. Defined.

Record TruncationResult := mkTruncation {
  tr_content : Str;
  tr_truncated : bool;
  tr_truncated_by : option TruncatedBy;
  tr_total_lines : Z;
  tr_total_bytes : Z;
  tr_output_lines : Z;
  tr_output_bytes : Z;
  tr_last_line_partial : bool;
  tr_first_line_exceeds_limit : bool;
  tr_max_lines : Z;
  tr_max_bytes : Z;
}.

(** ** Bytes of text *)

(** [memchr(b'\n', ..)] and [memrchr(b'\n', ..)]: a line feed is a byte of its
    own, so the offset is that of the character. *)
Fixpoint memchr_nl (s : Str) : option nat :=
  match s with
  | [] => None
  | c :: s' => if (c =? c_nl)%N then Some O else (λ i, (utf8_width c + i)%nat) <$> memchr_nl s'
  end.
Fixpoint memrchr_nl (s : Str) : option nat :=
  match s with
  | [] => None
  | c :: s' =>
      match memrchr_nl s' with
      | Some i => Some (utf8_width c + i)%nat
      | None => if (c =? c_nl)%N then Some O else None
      end
  end.

(** [memchr_iter(b'\n', ..).count()] *)
Fixpoint count_nl (s : Str) : nat :=
  match s with [] => O | c :: s' => ((if (c =? c_nl)%N then 1 else 0) + count_nl s')%nat end.

Definition ends_with_nl (s : Str) : bool := ends_with s [c_nl].

Definition count_lines (s : Str) : nat :=
  if is_empty s then O else if ends_with_nl s then count_nl s else (count_nl s + 1)%nat.

(** [while i > lo && !s.is_char_boundary(i) { i -= 1 }] *)
Fixpoint back_to_boundary (s : Str) (lo i : nat) : nat :=
  match i with
  | O => O
  | S i' => if (lo <? i)%nat && negb (is_char_boundary s i) then back_to_boundary s lo i' else i
  end.

Definition utf8_prefix_len (s : Str) (max_bytes : nat) : nat :=
  back_to_boundary s 0 (Nat.min max_bytes (byte_len s)).

(** ** [truncate_head] *)

(** The loop over the lines: the count of lines and bytes to keep, why it
    stopped, and whether the last line is cut. *)
Fixpoint head_loop (fuel : nat) (content : Str) (max_lines : Z) (max_bytes line_count byte_count current_offset : nat)
    : nat * nat * option TruncatedBy * bool :=
  match fuel with
  | O => (line_count, byte_count, None, false)
  | S fuel' =>
      if negb (current_offset <? byte_len content)%nat then (line_count, byte_count, None, false)
      else if (max_lines <=? Z.of_nat line_count)%Z then (line_count, byte_count, Some Lines, false)
      else
        let next_newline := memchr_nl (drop_bytes current_offset content) in
        let line_end_without_nl := match next_newline with Some idx => current_offset + idx | None => byte_len content end%nat in
        let line_end_with_nl := match next_newline with Some idx => current_offset + idx + 1 | None => byte_len content end%nat in
        if (max_bytes <? line_end_without_nl)%nat then
          let byte_limit := Nat.min max_bytes (byte_len content) in
          if (byte_limit <? current_offset)%nat then (line_count, byte_count, Some Bytes, false)
          else
            let byte_limit := back_to_boundary content current_offset byte_limit in
            if (current_offset <? byte_limit)%nat then ((line_count + 1)%nat, byte_limit, Some Bytes, true)
            else (line_count, byte_count, Some Bytes, false)
        else if (max_bytes <? line_end_with_nl)%nat then
          if (current_offset <? line_end_without_nl)%nat then ((line_count + 1)%nat, line_end_without_nl, Some Bytes, false)
          else (line_count, byte_count, Some Bytes, false)
        else head_loop fuel' content max_lines max_bytes (line_count + 1)%nat line_end_with_nl line_end_with_nl
  end.

Definition truncate_head (content : Str) (max_lines : Z) (max_bytes : nat) : TruncationResult :=
  let total_bytes := byte_len content in
  let total_lines := count_lines content in
  let result text by_ output_lines output_bytes partial exceeds :=
    mkTruncation text (bool_decide (by_ ≠ None)) by_ (Z.of_nat total_lines) (Z.of_nat total_bytes)
      (Z.of_nat output_lines) (Z.of_nat output_bytes) partial exceeds max_lines (Z.of_nat max_bytes) in
  if max_lines =? 0 then result [] (if is_empty content then None else Some Lines) O O false false
  else if (max_bytes =? 0)%nat
  then result [] (if is_empty content then None else Some Bytes) O O false (negb (is_empty content))
  else if (Z.of_nat total_lines <=? max_lines) && (total_bytes <=? max_bytes)%nat
  then result content None total_lines total_bytes false false
  else
    let first_line_bytes := default (byte_len content) (memchr_nl content) in
    if (max_bytes <? first_line_bytes)%nat then
      let valid_bytes := back_to_boundary content 0 max_bytes in
      result (take_bytes valid_bytes content) (Some Bytes) (if (0 <? valid_bytes)%nat then 1 else 0)%nat valid_bytes true true
    else
      let '(line_count, byte_count, truncated_by, last_line_partial) :=
        head_loop (byte_len content) content max_lines max_bytes O O O in
      result (take_bytes byte_count content) truncated_by line_count byte_count last_line_partial false.

(** ** [truncate_tail] *)

(** [while start < bytes.len() && bytes[start] is a continuation byte]: the
    bytes that do not start a character are those off the boundaries. *)
Fixpoint on_to_boundary (fuel : nat) (s : Str) (start : nat) : nat :=
  match fuel with
  | O => start
  | S fuel' => if (start <? byte_len s)%nat && negb (is_char_boundary s start) then on_to_boundary fuel' s (start + 1) else start
  end.

Definition truncate_string_to_bytes_from_end (s : Str) (max_bytes : nat) : Str :=
  if (byte_len s <=? max_bytes)%nat then s
  else drop_bytes (on_to_boundary (byte_len s) s (byte_len s - max_bytes)) s.

Record TailState := mkTail {
  tl_line_count : nat;
  tl_byte_count : nat;
  tl_start_idx : nat;
  tl_partial_output : option Str;
  tl_truncated_by : option TruncatedBy;
  tl_last_line_partial : bool;
}.

Fixpoint tail_loop (fuel : nat) (content : Str) (max_lines : Z) (max_bytes search_limit line_count byte_count start_idx : nat) : TailState :=
  match fuel with
  | O => mkTail line_count byte_count start_idx None None false
  | S fuel' =>
      let prev_newline := memrchr_nl (take_bytes search_limit content) in
      let line_start := match prev_newline with Some idx => idx + 1 | None => O end%nat in
      let added_bytes := (start_idx - line_start)%nat in
      if (max_bytes <? byte_count + added_bytes)%nat then
        let remaining := (max_bytes - byte_count)%nat in
        let truncated_chunk :=
          if (0 <? remaining)%nat
          then truncate_string_to_bytes_from_end (take_bytes (start_idx - line_start) (drop_bytes line_start content)) remaining
          else [] in
        if is_empty truncated_chunk then mkTail line_count byte_count start_idx None (Some Bytes) false
        else mkTail line_count byte_count start_idx (Some truncated_chunk) (Some Bytes) (line_count =? 0)%nat
      else
        let line_count := (line_count + 1)%nat in
        let byte_count := (byte_count + added_bytes)%nat in
        let start_idx := line_start in
        if (max_lines <=? Z.of_nat line_count)%Z then mkTail line_count byte_count start_idx None (Some Lines) false
        else if (line_start =? 0)%nat then mkTail line_count byte_count start_idx None None false
        else tail_loop fuel' content max_lines max_bytes (line_start - 1) line_count byte_count start_idx
  end.

Definition truncate_tail (content : Str) (max_lines : Z) (max_bytes : nat) : TruncationResult :=
  let total_bytes := byte_len content in
  let total_lines := count_lines content in
  let result text by_ output_lines output_bytes partial :=
    mkTruncation text (bool_decide (by_ ≠ None)) by_ (Z.of_nat total_lines) (Z.of_nat total_bytes)
      (Z.of_nat output_lines) (Z.of_nat output_bytes) partial false max_lines (Z.of_nat max_bytes) in
  if max_lines =? 0 then result [] (if is_empty content then None else Some Lines) O O false
  else if (Z.of_nat total_lines <=? max_lines) && (total_bytes <=? max_bytes)%nat
  then result content None total_lines total_bytes false
  else
    let search_limit := if ends_with_nl content then (byte_len content - 1)%nat else byte_len content in
    let s := tail_loop (S (byte_len content)) content max_lines max_bytes search_limit O O (byte_len content) in
    let suffix := drop_bytes (tl_start_idx s) content in
    let '(output, line_count) :=
      match tl_partial_output s with
      | Some chunk => (chunk ++ suffix, count_lines (chunk ++ suffix))
      | None => (suffix, tl_line_count s)
      end in
    result output (tl_truncated_by s) line_count (byte_len output) (tl_last_line_partial s).

(** ** [HeadTruncatingLineWriter] *)

Record HeadTruncatingLineWriter := mkWriter {
  w_content : Str;
  w_max_bytes : nat;
  w_total_lines : Z;
  w_total_bytes : Z;
  w_output_lines : Z;
  w_truncated : bool;
  w_last_line_partial : bool;
  w_first_line_exceeds_limit : bool;
}.

Definition writer_new (max_bytes : nat) : HeadTruncatingLineWriter := mkWriter [] max_bytes 0 0 0 false false false.

Definition push_line (line : Str) (w : HeadTruncatingLineWriter) : HeadTruncatingLineWriter :=
  let line_index := w_total_lines w in
  let separator_len := if 0 <? line_index then 1%nat else O in
  let piece_bytes := sat_add usize_max (Z.of_nat separator_len) (Z.of_nat (byte_len line)) in
  let total_lines := sat_add usize_max (w_total_lines w) 1 in
  let total_bytes := sat_add usize_max (w_total_bytes w) piece_bytes in
  let w_with content output_lines truncated last_line_partial exceeds :=
    mkWriter content (w_max_bytes w) total_lines total_bytes output_lines truncated last_line_partial exceeds in
  if w_truncated w then
    w_with (w_content w) (w_output_lines w) true (w_last_line_partial w) (w_first_line_exceeds_limit w)
  else if (w_max_bytes w =? 0)%nat then
    w_with (w_content w) (w_output_lines w) true (w_last_line_partial w) ((line_index =? 0) && negb (is_empty line))
  else
    let remaining := (w_max_bytes w - byte_len (w_content w))%nat in
    if piece_bytes <=? Z.of_nat remaining then
      w_with (w_content w ++ (if (0 <? separator_len)%nat then [c_nl] else []) ++ line)
        (sat_add usize_max (w_output_lines w) 1) false (w_last_line_partial w) (w_first_line_exceeds_limit w)
    else
      let exceeds := w_first_line_exceeds_limit w || ((line_index =? 0) && (w_max_bytes w <? byte_len line)%nat) in
      if (0 <? separator_len)%nat && (remaining =? 0)%nat
      then w_with (w_content w) (w_output_lines w) true (w_last_line_partial w) exceeds
      else
        let content := w_content w ++ (if (0 <? separator_len)%nat then [c_nl] else []) in
        let line_budget := if (0 <? separator_len)%nat then (remaining - 1)%nat else remaining in
        let valid_bytes := utf8_prefix_len line line_budget in
        if (0 <? valid_bytes)%nat
        then w_with (content ++ take_bytes valid_bytes line) (sat_add usize_max (w_output_lines w) 1) true
               (valid_bytes <? byte_len line)%nat exceeds
        else w_with content (w_output_lines w) true (w_last_line_partial w) exceeds.

Definition finish (w : HeadTruncatingLineWriter) : TruncationResult :=
  mkTruncation (w_content w) (w_truncated w) (if w_truncated w then Some Bytes else None) (w_total_lines w)
    (w_total_bytes w) (w_output_lines w) (Z.of_nat (byte_len (w_content w))) (w_last_line_partial w)
    (w_first_line_exceeds_limit w) usize_max (Z.of_nat (w_max_bytes w)).

Definition write_lines (lines : list Str) (max_bytes : nat) : TruncationResult :=
  finish (foldl (λ w line, push_line line w) (writer_new max_bytes) lines).

(** ** What the results should be *)

(** The lines of a text, each with its line feed. *)
Fixpoint lines_of (s : Str) : list Str :=
  match s with
  | [] => []
  | c :: s' =>
      if (c =? c_nl)%N then [c] :: lines_of s'
      else match lines_of s' with l :: ls => (c :: l) :: ls | [] => [[c]] end
  end.

(** The longest prefix, or suffix, of whole characters in [m] bytes. *)
Fixpoint byte_prefix (m : nat) (s : Str) : Str :=
  match s with
  | [] => []
  | c :: s' => if (utf8_width c <=? m)%nat then c :: byte_prefix (m - utf8_width c) s' else []
  end.
Definition byte_suffix (m : nat) (s : Str) : Str := reverse (byte_prefix m (reverse s)).

Definition first_lines (n : nat) (s : Str) : Str := concat (take n (lines_of s)).
Definition last_lines (n : nat) (s : Str) : Str := concat (drop (length (lines_of s) - n) (lines_of s)).


(** The output stops inside a line of [s], not at its end. *)
Definition cut_inside_line (o s : Str) : bool :=
  negb (is_empty o || ends_with_nl o) && match drop (length o) s with c :: _ => negb (c =? c_nl)%N | [] => false end.

(** ** Lines *)

Lemma lines_of_concat s : concat (lines_of s) = s.
Proof.
  induction s as [|c s IH]; [done|]. cbn [lines_of]. destruct (c =? c_nl)%N; [simpl; by rw IH|].
  destruct (lines_of s) as [|l ls]; simpl in *; [by rw -IH|by rw IH].
Qed.

Lemma lines_of_nil s : lines_of s = [] → s = [].
Proof. intros E. by rw -(lines_of_concat s) E. Qed.

Lemma ends_with_nl_snoc s c : ends_with_nl (s ++ [c]) = (c =? c_nl)%N.
Proof.
  unfold ends_with_nl, ends_with, starts_with. rw reverse_snoc reverse_singleton. cbn [strip_prefix].
  rw (N.eqb_sym c_nl c). by destruct (c =? c_nl)%N.
Qed.

Lemma ends_with_nl_one c : ends_with_nl [c] = (c =? c_nl)%N.
Proof. exact (ends_with_nl_snoc [] c). Qed.

Lemma ends_with_nl_app s t : ends_with_nl (s ++ t) = if is_empty t then ends_with_nl s else ends_with_nl t.
Proof.
  destruct t as [|c t] using rev_ind; [by rw app_nil_r|]. rw app_assoc !ends_with_nl_snoc. by destruct t.
Qed.

Lemma ends_with_nl_cons c s : ends_with_nl (c :: s) = if is_empty s then (c =? c_nl)%N else ends_with_nl s.
Proof. rw -ends_with_nl_one. exact (ends_with_nl_app [c] s). Qed.

(** Ends where a line ends. *)
Definition whole_lines (s : Str) : Prop := s = [] ∨ ends_with_nl s = true.

Lemma lines_of_app p s : whole_lines p → lines_of (p ++ s) = lines_of p ++ lines_of s.
Proof.
  intros Hp. induction p as [|c p IH]; [done|]. cbn [app lines_of].
  destruct Hp as [Hp|Hp]; [done|]. rewrite ->ends_with_nl_cons in Hp.
  destruct p as [|d p].
  - by rw (Hp : (c =? c_nl)%N = true).
  - rewrite ->IH by by right. destruct (c =? c_nl)%N; [done|].
    destruct (lines_of (d :: p)) eqn:E; [by apply lines_of_nil in E|done].
Qed.

Lemma lines_of_last a : c_nl ∉ a → a ≠ [] → lines_of a = [a].
Proof.
  induction a as [|c a IH]; intros Ha Hne; [done|]. apply not_elem_of_cons in Ha as [Hc Ha].
  cbn [lines_of]. rw (proj2 (N.eqb_neq c c_nl)); [|by intros ->]. destruct a; [done|]. by rw IH.
Qed.

Lemma lines_of_line a : c_nl ∉ a → lines_of (a ++ [c_nl]) = [a ++ [c_nl]].
Proof.
  induction a as [|c a IH]; intros Ha; [done|]. apply not_elem_of_cons in Ha as [Hc Ha].
  cbn [app lines_of]. rw (proj2 (N.eqb_neq c c_nl)); [|by intros ->]. by rw IH.
Qed.

Lemma count_lines_spec s : count_lines s = length (lines_of s).
Proof.
  induction s as [|c s IH]; [done|]. unfold count_lines in *. cbn [is_empty count_nl lines_of].
  rw ends_with_nl_cons. destruct s as [|d s].
  { simpl. by destruct (c =? c_nl)%N. }
  cbn [is_empty] in *. destruct (c =? c_nl)%N; [cbn [length]; rw -IH; case_match; lia|].
  destruct (lines_of (d :: s)) eqn:E; [by apply lines_of_nil in E|]. cbn [length] in *. rw -IH. case_match; lia.
Qed.

Lemma memchr_nl_spec s :
  match memchr_nl s with
  | Some i => ∃ a s', s = (a ++ [c_nl]) ++ s' ∧ (c_nl ∉ a) ∧ i = byte_len a
  | None => c_nl ∉ s
  end.
Proof.
  induction s as [|c s IH]; cbn [memchr_nl]; [apply not_elem_of_nil|].
  destruct (N.eqb_spec c c_nl) as [->|Hc]; [exists [], s; repeat split; apply not_elem_of_nil|].
  destruct (memchr_nl s) as [i|]; simpl.
  - destruct IH as (a & s' & -> & Ha & ->). exists (c :: a), s'. repeat split. by apply not_elem_of_cons.
  - by apply not_elem_of_cons.
Qed.

(** ** Prefixes of whole characters *)

Lemma byte_prefix_app m a b : (byte_len a ≤ m)%nat → byte_prefix m (a ++ b) = a ++ byte_prefix (m - byte_len a) b.
Proof.
  revert m. induction a as [|c a IH]; intros m Hm; simpl in *; [by rw Nat.sub_0_r|].
  rw (proj2 (Nat.leb_le _ _)); [|lia]. rw IH; [|lia]. do 3 f_equal. lia.
Qed.

Lemma byte_prefix_all m s : (byte_len s ≤ m)%nat → byte_prefix m s = s.
Proof. intros H. rw -{1}(app_nil_r s) byte_prefix_app //= app_nil_r //. Qed.

Lemma byte_prefix_cut m a b : (m < byte_len a)%nat → byte_prefix m (a ++ b) = byte_prefix m a.
Proof.
  revert m. induction a as [|c a IH]; intros m Hm; simpl in *; [lia|].
  destruct (Nat.leb_spec (utf8_width c) m); [|done]. rw IH //. lia.
Qed.

Lemma byte_prefix_prefix m s : ∃ q, s = byte_prefix m s ++ q.
Proof.
  revert m. induction s as [|c s IH]; intros m; simpl; [by exists []|].
  case_match; [|by exists (c :: s)]. destruct (IH (m - utf8_width c)%nat) as [q Hq]. exists q. simpl. by rw -Hq.
Qed.

Lemma byte_prefix_le m s : (byte_len (byte_prefix m s) ≤ m)%nat.
Proof.
  revert m. induction s as [|c s IH]; intros m; simpl; [lia|].
  destruct (Nat.leb_spec (utf8_width c) m); simpl; [|lia]. specialize (IH (m - utf8_width c)%nat). lia.
Qed.

Lemma byte_prefix_step m s : is_char_boundary s (S m) = false → byte_prefix (S m) s = byte_prefix m s.
Proof.
  revert m. induction s as [|c s IH]; intros m H; [done|]. cbn [is_char_boundary byte_prefix] in *.
  pose proof (utf8_width_bounds c). destruct (Nat.leb_spec (utf8_width c) (S m)) as [Hw|Hw]; cbn [andb] in H.
  - destruct (S m - utf8_width c)%nat as [|j] eqn:E; [by destruct s|]. rw (IH _ H) (proj2 (Nat.leb_le _ _)); [|lia].
    do 2 f_equal. lia.
  - rw (proj2 (Nat.leb_gt _ _)) //. lia.
Qed.

Lemma back_to_boundary_spec p r i : (byte_len p ≤ i)%nat →
  back_to_boundary (p ++ r) (byte_len p) i = byte_len (byte_prefix i (p ++ r)).
Proof.
  induction i as [|i IH]; intros Hi; cbn [back_to_boundary].
  { assert (p = []) as -> by (destruct p as [|c p]; [done|]; simpl in Hi; pose proof (utf8_width_bounds c); lia).
    pose proof (byte_prefix_le 0 r). simpl. lia. }
  destruct (is_char_boundary (p ++ r) (S i)) eqn:Eb.
  - rw andb_false_r. apply boundary_split in Eb as (a & b & -> & <-).
    rw byte_prefix_app // Nat.sub_diag. pose proof (byte_prefix_le 0 b). rw byte_len_app. lia.
  - destruct (Nat.ltb_spec (byte_len p) (S i)) as [Hlt|Hge]; simpl.
    + rw IH; [|lia]. by rw byte_prefix_step.
    + assert (byte_len p = S i) as E by lia.
      assert (is_char_boundary (p ++ r) (S i) = true) by (apply boundary_split; exists p, r; done). congruence.
Qed.

Lemma back_to_start s i : back_to_boundary s 0 i = byte_len (byte_prefix i s).
Proof. exact (back_to_boundary_spec [] s i (Nat.le_0_l i)). Qed.

Lemma prefix_bytes s i : take_bytes (byte_len (byte_prefix i s)) s = byte_prefix i s.
Proof. destruct (byte_prefix_prefix i s) as [q Hq]. rw {2}Hq take_bytes_app //. Qed.

(** ** [truncate_head] *)

Lemma first_lines_0 s : first_lines 0 s = [].
Proof. done. Qed.

Lemma first_lines_S n l s : lines_of l = [l] → ends_with_nl l = true → first_lines (S n) (l ++ s) = l ++ first_lines n s.
Proof. intros Hl He. unfold first_lines. rw lines_of_app; [|by right]. by rw Hl. Qed.

Lemma first_lines_last n a : lines_of a = [a] → first_lines (S n) a = a.
Proof. intros Ha. unfold first_lines. rw Ha /= take_nil /= app_nil_r //. Qed.

Lemma cut_inside_line_app l o s : ends_with_nl l = true → cut_inside_line (l ++ o) (l ++ s) = cut_inside_line o s.
Proof.
  intros Hl. unfold cut_inside_line. rw ends_with_nl_app drop_app_ge length_app; [|lia].
  rw Nat.add_sub'. destruct o; cbn [is_empty]; [by rw Hl orb_true_r|]. by destruct l.
Qed.

(** What is kept of the text [s] with [n] lines and [m] bytes, and why. *)
Definition kept_head (n m : nat) (s : Str) : Str := byte_prefix m (first_lines n s).
Definition head_reason (n m : nat) (s : Str) : option TruncatedBy :=
  if decide (kept_head n m s = s) then None
  else if (byte_len (first_lines n s) <=? m)%nat then Some Lines else Some Bytes.

(** The cases of a first line: it fits with its end, or not. *)
Lemma kept_head_line n m l s : lines_of l = [l] → ends_with_nl l = true → (byte_len l ≤ m)%nat →
  kept_head (S n) m (l ++ s) = l ++ kept_head n (m - byte_len l) s ∧
  head_reason (S n) m (l ++ s) = head_reason n (m - byte_len l) s.
Proof.
  intros Hl He Hm. unfold head_reason, kept_head. rw first_lines_S // byte_prefix_app //. split; [done|].
  set (o := byte_prefix _ _). rw byte_len_app. destruct (decide (o = s)) as [->|Ho]; [by rw decide_True|].
  rw decide_False; [|by intros ?%(inj (app l))].
  destruct (Nat.leb_spec (byte_len l + byte_len (first_lines n s)) m), (Nat.leb_spec (byte_len (first_lines n s)) (m - byte_len l)); (done || lia).
Qed.

Lemma kept_head_cut n m l s : lines_of l = [l] → (ends_with_nl l = true ∨ s = []) → (m < byte_len l)%nat →
  kept_head (S n) m (l ++ s) = byte_prefix m l ∧ head_reason (S n) m (l ++ s) = Some Bytes.
Proof.
  intros Hl He Hm. assert (∃ t, first_lines (S n) (l ++ s) = l ++ t) as [t Ht].
  { destruct He as [He| ->]; [rw first_lines_S //; eauto|]. exists []. rw !app_nil_r first_lines_last //. }
  unfold head_reason, kept_head. rw Ht byte_prefix_cut //. split; [done|]. rw decide_False.
  - rw byte_len_app (proj2 (Nat.leb_gt _ _)) //. lia.
  - intros E. apply (f_equal byte_len) in E. rw byte_len_app in E. pose proof (byte_prefix_le m l). lia.
Qed.

Lemma byte_prefix_length m s : byte_prefix m s = take (length (byte_prefix m s)) s.
Proof. destruct (byte_prefix_prefix m s) as [q Hq]. rw {3}Hq take_app_length //. Qed.

(** A line whose text does not fit. *)
Lemma prefix_of_line a m s : c_nl ∉ a → (m < byte_len a)%nat → let o := byte_prefix m a in
  byte_prefix m (a ++ s) = o ∧ length (lines_of o) = (if (0 <? byte_len o)%nat then 1 else 0)%nat ∧
  cut_inside_line o (a ++ s) = (0 <? byte_len o)%nat.
Proof.
  intros Ha Hm o. rw byte_prefix_cut //. split; [done|]. destruct (byte_prefix_prefix m a) as [q Hq]. fold o in Hq.
  destruct o as [|d o'] eqn:Eo; [done|]. rw -!Eo in Hq |- *. assert (c_nl ∉ o) as Hn by (intros H; apply Ha; rw Hq; set_solver).
  assert (0 < byte_len o)%nat as Hpos by (rw Eo /=; pose proof (utf8_width_bounds d); lia).
  rw (proj2 (Nat.ltb_lt _ _)) // lines_of_last //; [|by rw Eo]. split; [done|].
  unfold cut_inside_line. rw Hq -app_assoc drop_app_length.
  destruct q as [|x q]; [apply (f_equal byte_len) in Hq; pose proof (byte_prefix_le m a : (byte_len o ≤ m)%nat); rw app_nil_r in Hq; lia|].
  cbn [app]. rw (proj2 (N.eqb_neq x c_nl)); [|intros ->; apply Ha; rw Hq; set_solver].
  rw andb_true_r. destruct o as [|y o2 _] using rev_ind; [done|]. rw ends_with_nl_snoc.
  rw (proj2 (N.eqb_neq y c_nl)); [by destruct o2|intros ->; apply Hn; set_solver].
Qed.

(** What the loop of [truncate_head] computes from a line start on. *)
Definition head_outcome (p rest : Str) (n B lc : nat) : nat * nat * option TruncatedBy * bool :=
  let o := kept_head n (B - byte_len p) rest in
  (lc + length (lines_of o), byte_len p + byte_len o, head_reason n (B - byte_len p) rest, cut_inside_line o rest)%nat.

(** The text [a] of the line at hand does not fit. *)
Lemma head_cut p a s n B lc : c_nl ∉ a → (byte_len p ≤ B)%nat → (B < byte_len p + byte_len a)%nat →
  kept_head n (B - byte_len p) (a ++ s) = byte_prefix (B - byte_len p) a →
  head_reason n (B - byte_len p) (a ++ s) = Some Bytes →
  (let byte_limit := Nat.min B (byte_len (p ++ a ++ s)) in
   if (byte_limit <? byte_len p)%nat then (lc, byte_len p, Some Bytes, false)
   else let byte_limit := back_to_boundary (p ++ a ++ s) (byte_len p) byte_limit in
     if (byte_len p <? byte_limit)%nat then ((lc + 1)%nat, byte_limit, Some Bytes, true) else (lc, byte_len p, Some Bytes, false))
  = head_outcome p (a ++ s) n B lc.
Proof.
  intros Ha Hp HB Hk Hr. unfold head_outcome. rw Hk Hr. cbv zeta. rw !byte_len_app Nat.min_l; [|lia].
  rw (proj2 (Nat.ltb_ge _ _)) // back_to_boundary_spec // byte_prefix_app //.
  destruct (prefix_of_line a (B - byte_len p) s Ha) as (-> & -> & ->); [lia|]. rw byte_len_app.
  destruct (Nat.ltb_spec 0 (byte_len (byte_prefix (B - byte_len p) a))).
  - rw (proj2 (Nat.ltb_lt _ _)); [done|lia].
  - rw (proj2 (Nat.ltb_ge _ _)); [|lia]. do 3 f_equal; lia.
Qed.

(** The text of the line fits, its line feed does not. *)
Lemma head_exact p a s n B lc : c_nl ∉ a → B = (byte_len p + byte_len a)%nat →
  (if (byte_len p <? byte_len p + byte_len a)%nat then ((lc + 1)%nat, (byte_len p + byte_len a)%nat, Some Bytes, false)
   else (lc, byte_len p, Some Bytes, false)) = head_outcome p ((a ++ [c_nl]) ++ s) (S n) B lc.
Proof.
  intros Ha ->. unfold head_outcome. rw Nat.add_sub'.
  destruct (kept_head_cut n (byte_len a) (a ++ [c_nl]) s) as [-> ->]; [by apply lines_of_line|left; by rw ends_with_nl_snoc|rw byte_len_app /=; lia|].
  rw byte_prefix_app // Nat.sub_diag /= app_nil_r. unfold cut_inside_line. rw -app_assoc drop_app_length /= andb_false_r.
  destruct a as [|c a]; [rw (proj2 (Nat.ltb_ge _ _)) /=; [by rw !Nat.add_0_r|lia]|].
  pose proof (utf8_width_bounds c). rw (proj2 (Nat.ltb_lt _ _)); [|simpl; lia]. rw lines_of_last //.
Qed.

Lemma head_outcome_line p l s n B lc : lines_of l = [l] → ends_with_nl l = true → (byte_len p + byte_len l ≤ B)%nat →
  head_outcome p (l ++ s) (S n) B lc = head_outcome (p ++ l) s n B (lc + 1).
Proof.
  intros Hl He HB. unfold head_outcome. destruct (kept_head_line n (B - byte_len p) l s Hl He) as [-> ->]; [lia|].
  rw !byte_len_app cut_inside_line_app // lines_of_app; [|by right]. rw Hl length_app /=.
  replace (B - byte_len p - byte_len l)%nat with (B - (byte_len p + byte_len l))%nat by lia. do 3 f_equal; lia.
Qed.

Lemma head_outcome_end p n B lc : head_outcome p [] n B lc = (lc, byte_len p, None, false).
Proof. unfold head_outcome, head_reason, kept_head, first_lines. simpl. rw take_nil /= !Nat.add_0_r //. Qed.

Lemma head_outcome_last p a n B lc : c_nl ∉ a → a ≠ [] → (byte_len p + byte_len a ≤ B)%nat →
  head_outcome p a (S n) B lc = head_outcome (p ++ a) [] n B (lc + 1).
Proof.
  intros Ha Hne HB. rw head_outcome_end. unfold head_outcome, head_reason, kept_head.
  rw first_lines_last; [|by apply lines_of_last]. rw byte_prefix_all; [|lia]. rw decide_True // lines_of_last // byte_len_app.
  unfold cut_inside_line. rw drop_all andb_false_r //.
Qed.

Lemma head_loop_spec B L fuel p rest lc : (length (lines_of rest) ≤ fuel)%nat → (byte_len p ≤ B)%nat →
  head_loop fuel (p ++ rest) L B lc (byte_len p) (byte_len p) = head_outcome p rest (Z.to_nat (L - Z.of_nat lc)) B lc.
Proof.
  revert p rest lc. induction fuel as [|fuel IH]; intros p rest lc Hf Hp.
  { assert (lines_of rest = []) as ->%lines_of_nil by (destruct (lines_of rest); [done|simpl in Hf; lia]). rw head_outcome_end //. }
  cbn [head_loop]. destruct (decide (rest = [])) as [->|Hne].
  { rw app_nil_r Nat.ltb_irrefl head_outcome_end //. }
  assert (0 < byte_len rest)%nat as Hpos by (destruct rest as [|c r]; [done|]; simpl; pose proof (utf8_width_bounds c); lia).
  rw (proj2 (Nat.ltb_lt (byte_len p) _)) /=; [|rw byte_len_app; lia].
  destruct (Z.leb_spec L (Z.of_nat lc)) as [HL|HL].
  { rw Z2Nat.nonpos; [|lia]. unfold head_outcome, head_reason, kept_head. rw first_lines_0. simpl.
    rw decide_False; [|by intros <-]. by rw !Nat.add_0_r. }
  replace (Z.to_nat (L - Z.of_nat lc)) with (S (Z.to_nat (L - Z.of_nat (lc + 1)))) by lia.
  set (n := Z.to_nat (L - Z.of_nat (lc + 1))). rw drop_bytes_app. pose proof (memchr_nl_spec rest) as Hm.
  destruct (memchr_nl rest) as [i|].
  - destruct Hm as (a & s & -> & Ha & ->). set (l := a ++ [c_nl]) in *.
    assert (lines_of l = [l]) as Hl by by apply lines_of_line.
    assert (ends_with_nl l = true) as He by by apply ends_with_nl_snoc.
    assert (byte_len l = byte_len a + 1)%nat as Ell by (unfold l; rw byte_len_app //).
    destruct (Nat.ltb_spec B (byte_len p + byte_len a)) as [HB|HB].
    { unfold l. rw -app_assoc. apply head_cut; [done..| |]; rw app_assoc;
        destruct (kept_head_cut n (B - byte_len p) l s) as [Hk Hr]; try done; try (by left); try lia.
      fold l. rw Hk. unfold l. rw byte_prefix_cut //. lia. }
    destruct (Nat.ltb_spec B (byte_len p + byte_len a + 1)) as [HB'|HB']; [apply head_exact; [done|lia]|].
    rw head_outcome_line //; [|lia]. rw app_assoc. replace (byte_len p + byte_len a + 1)%nat with (byte_len (p ++ l)) by (rw byte_len_app; lia).
    apply IH; [|rw byte_len_app; lia]. rewrite ->lines_of_app, Hl in Hf by by right. simpl in Hf. lia.
  - destruct (Nat.ltb_spec B (byte_len (p ++ rest))) as [HB|HB].
    { rw byte_len_app in HB. pose proof (head_cut p rest [] (S n) B lc) as Hc. rw !app_nil_r in Hc.
      destruct (kept_head_cut n (B - byte_len p) rest []) as [Hk Hr]; [by apply lines_of_last|by right|lia|]. rw app_nil_r in Hk, Hr. auto. }
    rw byte_len_app in HB. rw head_outcome_last //. rw -IH; [by rw app_nil_r|simpl; lia|rw byte_len_app; lia].
Qed.

(** The first line without its line feed. *)
Definition first_line_bytes (s : Str) : nat := default (byte_len s) (memchr_nl s).

(** A first line that does not fit is cut, whatever follows. *)
Lemma kept_head_first n m s : (m < first_line_bytes s)%nat → ∃ a e, s = a ++ e ∧ (c_nl ∉ a) ∧ first_line_bytes s = byte_len a ∧
  kept_head (S n) m s = byte_prefix m a ∧ head_reason (S n) m s = Some Bytes.
Proof.
  unfold first_line_bytes. pose proof (memchr_nl_spec s) as Hm. destruct (memchr_nl s) as [i|]; simpl.
  - destruct Hm as (a & t & -> & Ha & ->). intros Hm. exists a, ([c_nl] ++ t). rw app_assoc. split_and!; [done..| |];
      (destruct (kept_head_cut n m (a ++ [c_nl]) t) as [Hk Hr]; [by apply lines_of_line|left; by rw ends_with_nl_snoc|rw byte_len_app; lia|]);
      [|done]. rw Hk byte_prefix_cut //.
  - intros Hlt. exists s, []. assert (s ≠ []) as Hne by (intros ->; simpl in Hlt; lia).
    destruct (kept_head_cut n m s []) as [Hk Hr]; [by apply lines_of_last|by right|done|]. rw app_nil_r in Hk, Hr |- *. done.
Qed.

Lemma first_lines_all n s : (length (lines_of s) ≤ n)%nat → first_lines n s = s.
Proof. intros H. unfold first_lines. rw take_ge // lines_of_concat //. Qed.

Lemma first_line_nonempty n s : s ≠ [] → first_lines (S n) s ≠ [].
Proof.
  intros Hs. unfold first_lines. destruct (lines_of s) as [|l ls] eqn:E; [by apply lines_of_nil in E|]. cbn [take concat].
  destruct l as [|c l]; [|done]. exfalso. destruct s as [|c s]; [done|]. simpl in E. by repeat case_match.
Qed.

Lemma first_lines_prefix n s : ∃ q, s = first_lines n s ++ q.
Proof. exists (concat (drop n (lines_of s))). unfold first_lines. rw -concat_app take_drop lines_of_concat //. Qed.

Lemma kept_head_prefix n m s : ∃ q, s = kept_head n m s ++ q.
Proof.
  destruct (first_lines_prefix n s) as [q Hq], (byte_prefix_prefix m (first_lines n s)) as [r Hr].
  exists (r ++ q). unfold kept_head. by rw app_assoc -Hr.
Qed.

Lemma kept_head_bytes n m s : take_bytes (byte_len (kept_head n m s)) s = kept_head n m s.
Proof. destruct (kept_head_prefix n m s) as [q Hq]. rw {2}Hq take_bytes_app //. Qed.

(** The result described by what is kept. *)
Definition head_reference (content : Str) (max_lines : Z) (max_bytes : nat) : TruncationResult :=
  let n := Z.to_nat max_lines in
  let o := kept_head n max_bytes content in
  let exceeds := negb (max_lines =? 0) && negb (is_empty content) &&
    ((max_bytes =? 0)%nat || (max_bytes <? first_line_bytes content)%nat) in
  mkTruncation o (bool_decide (o ≠ content)) (head_reason n max_bytes content) (len (lines_of content))
    (Z.of_nat (byte_len content)) (len (lines_of o)) (Z.of_nat (byte_len o))
    (if exceeds then negb (max_bytes =? 0)%nat else cut_inside_line o content) exceeds max_lines (Z.of_nat max_bytes).

Lemma head_reason_None n m s : bool_decide (head_reason n m s ≠ None) = bool_decide (kept_head n m s ≠ s).
Proof. unfold head_reason. apply bool_decide_ext. repeat case_decide; repeat case_match; naive_solver. Qed.

Lemma byte_prefix_0 s : byte_prefix 0 s = [].
Proof. destruct s as [|c s]; [done|]. simpl. pose proof (utf8_width_bounds c). rw (proj2 (Nat.leb_gt _ _)) //. lia. Qed.

Lemma byte_len_pos s : s ≠ [] → (0 < byte_len s)%nat.
Proof. destruct s as [|c s]; [done|]. intros _. simpl. pose proof (utf8_width_bounds c). lia. Qed.

Lemma lines_le_bytes s : (length (lines_of s) ≤ byte_len s)%nat.
Proof.
  induction s as [|c s IH]; [done|]. simpl. pose proof (utf8_width_bounds c). destruct (c =? c_nl)%N; [simpl; lia|].
  destruct (lines_of s); simpl in *; lia.
Qed.

Lemma truncate_head_is_reference content max_lines max_bytes : 0 ≤ max_lines →
  truncate_head content max_lines max_bytes = head_reference content max_lines max_bytes.
Proof.
  intros HL. unfold truncate_head, head_reference. rw count_lines_spec -(head_reason_None _ max_bytes). unfold len.
  destruct (Z.eqb_spec max_lines 0) as [->|HL0].
  { unfold head_reason, kept_head. rw first_lines_0. by destruct content. }
  replace (Z.to_nat max_lines) with (S (Z.to_nat (max_lines - 1))) by lia. set (n := Z.to_nat (max_lines - 1)).
  destruct (Nat.eqb_spec max_bytes 0) as [->|HB0].
  { unfold head_reason, kept_head. rw byte_prefix_0. destruct content as [|c s]; [done|].
    rw (proj2 (Nat.leb_gt _ _)); [done|]. by apply byte_len_pos, first_line_nonempty. }
  cbn [orb andb negb]. destruct (_ && _) eqn:Ec.
  { apply andb_true_iff in Ec as [E1%Z.leb_le E2%Nat.leb_le]. unfold head_reason, kept_head.
    rw first_lines_all; [|lia]. rw byte_prefix_all // decide_True // (proj2 (Nat.ltb_ge _ _)).
    - rw andb_false_r. unfold cut_inside_line. rw drop_all andb_false_r //.
    - pose proof (memchr_nl_spec content) as Hm. unfold first_line_bytes. destruct (memchr_nl content); simpl; [|lia].
      destruct Hm as (a & t & -> & _ & ->). rewrite ->!byte_len_app in E2. lia. }
  fold (first_line_bytes content). destruct (Nat.ltb_spec max_bytes (first_line_bytes content)) as [Hf|Hf].
  { destruct (kept_head_first n max_bytes content Hf) as (a & e & -> & Ha & Hab & -> & ->).
    assert (a ≠ []) as Hne by (intros ->; simpl in *; lia).
    assert (is_empty (a ++ e) = false) as -> by by destruct a.
    rw back_to_start.
    destruct (prefix_of_line a max_bytes e Ha) as (Hp & -> & _); [lia|]. rw prefix_bytes !Hp. case_match; done. }
  rw andb_false_r.
  pose proof (head_loop_spec max_bytes max_lines (byte_len content) [] content 0 (lines_le_bytes content) (Nat.le_0_l _)) as E.
  replace (Z.to_nat (max_lines - Z.of_nat 0)) with (S n) in E by lia. cbn [app byte_len] in E. rw E.
  unfold head_outcome. cbn [byte_len]. rw Nat.sub_0_r !Nat.add_0_l.
  by rw kept_head_bytes.
Qed.

(** ** [truncate_tail] *)

Lemma byte_len_reverse s : byte_len (reverse s) = byte_len s.
Proof. induction s as [|c s IH]; [done|]. rw reverse_cons byte_len_app IH /=. lia. Qed.

Lemma byte_suffix_app m a b : (byte_len b ≤ m)%nat → byte_suffix m (a ++ b) = byte_suffix (m - byte_len b) a ++ b.
Proof.
  intros H. unfold byte_suffix. rw reverse_app byte_prefix_app; [|by rw byte_len_reverse].
  by rw reverse_app reverse_involutive byte_len_reverse.
Qed.

Lemma byte_suffix_cut m a b : (m < byte_len b)%nat → byte_suffix m (a ++ b) = byte_suffix m b.
Proof. intros H. unfold byte_suffix. rw reverse_app byte_prefix_cut //. by rw byte_len_reverse. Qed.

Lemma byte_suffix_all m s : (byte_len s ≤ m)%nat → byte_suffix m s = s.
Proof. intros H. unfold byte_suffix. rw byte_prefix_all ?reverse_involutive //. by rw byte_len_reverse. Qed.

Lemma byte_suffix_le m s : (byte_len (byte_suffix m s) ≤ m)%nat.
Proof. unfold byte_suffix. rw byte_len_reverse. apply byte_prefix_le. Qed.

Lemma byte_suffix_step m s : (S m ≤ byte_len s)%nat → is_char_boundary s (byte_len s - S m) = false →
  byte_suffix (S m) s = byte_suffix m s.
Proof.
  intros Hm Hb. unfold byte_suffix. rw byte_prefix_step //. destruct (is_char_boundary (reverse s) (S m)) eqn:E; [|done].
  apply boundary_split in E as (p & q & E & Hp). rewrite <-not_true_iff_false in Hb. destruct Hb. apply boundary_split.
  exists (reverse q), (reverse p). assert (s = reverse q ++ reverse p) as Es by by rw -reverse_app -E reverse_involutive.
  split; [done|]. pose proof (f_equal byte_len Es) as El. rewrite ->byte_len_app, !byte_len_reverse in El. rw byte_len_reverse. lia.
Qed.

Lemma on_to_boundary_spec fuel s m : (m ≤ byte_len s)%nat → (m ≤ fuel)%nat →
  drop_bytes (on_to_boundary fuel s (byte_len s - m)) s = byte_suffix m s.
Proof.
  revert m. induction fuel as [|fuel IH]; intros m Hm Hf; cbn [on_to_boundary].
  - assert (m = O) as -> by lia. unfold byte_suffix. rw byte_prefix_0 Nat.sub_0_r -{2}(app_nil_r s) drop_bytes_app //.
  - destruct (is_char_boundary s (byte_len s - m)) eqn:E.
    + rw andb_false_r. apply boundary_split in E as (p & q & -> & Hp). rw byte_len_app in Hp, Hm.
      rw byte_len_app. replace (byte_len p + byte_len q - m)%nat with (byte_len p) by lia. rw drop_bytes_app.
      replace m with (byte_len q) by lia. rw byte_suffix_app // Nat.sub_diag. unfold byte_suffix. by rw byte_prefix_0.
    + destruct m as [|m]; [rw Nat.sub_0_r boundary_len in E; done|].
      rw (proj2 (Nat.ltb_lt _ _)) /=; [|lia]. replace (byte_len s - S m + 1)%nat with (byte_len s - m)%nat by lia.
      rw IH; [by rw byte_suffix_step|lia|lia].
Qed.

Lemma truncate_from_end s m : truncate_string_to_bytes_from_end s m = byte_suffix m s.
Proof.
  unfold truncate_string_to_bytes_from_end. destruct (Nat.leb_spec (byte_len s) m); [by rw byte_suffix_all|].
  apply on_to_boundary_spec; lia.
Qed.

(** The last line of a text: its text [a] and its line feed [e], if any. *)
Lemma last_line_split s : s ≠ [] → ∃ p a e, s = p ++ a ++ e ∧ whole_lines p ∧ (c_nl ∉ a) ∧ a ++ e ≠ [] ∧ (e = [c_nl] ∨ e = []).
Proof.
  induction s as [|c s IH]; [done|]. intros _. destruct (decide (s = [])) as [->|Hs].
  { destruct (decide (c = c_nl)) as [->|Hc]; [exists [], [], [c_nl]|exists [], [c], []]; split_and!; try done; try (by left); try (by right); set_solver. }
  destruct (IH Hs) as (p & a & e & -> & Hp & Ha & Hne & He). destruct p as [|d p].
  - destruct (decide (c = c_nl)) as [->|Hc].
    + exists [c_nl], a, e. split_and!; try done. by right.
    + exists [], (c :: a), e. split_and!; try done. by apply not_elem_of_cons.
  - exists (c :: d :: p), a, e. split_and!; try done. right. destruct Hp as [|Hp]; [done|]. by rw ends_with_nl_cons.
Qed.

Lemma line_of_split a e : c_nl ∉ a → a ++ e ≠ [] → e = [c_nl] ∨ e = [] → lines_of (a ++ e) = [a ++ e].
Proof. intros Ha Hne [->| ->]; [by apply lines_of_line|]. rw app_nil_r in Hne |- *. by apply lines_of_last. Qed.

Lemma last_lines_snoc n p l : whole_lines p → lines_of l = [l] → last_lines (S n) (p ++ l) = last_lines n p ++ l.
Proof.
  intros Hp Hl. unfold last_lines. rw lines_of_app // Hl length_app /= drop_app_le; [|lia].
  rw concat_app /= app_nil_r. do 3 f_equal. lia.
Qed.

Lemma memrchr_nl_line p a : whole_lines p → c_nl ∉ a →
  match memrchr_nl (p ++ a) with Some i => i + 1 | None => O end%nat = byte_len p.
Proof.
  intros Hp Ha. assert (memrchr_nl a = None) as Hn.
  { clear Hp. induction a as [|c a IH]; [done|]. apply not_elem_of_cons in Ha as [Hc Ha]. simpl. rw IH // (proj2 (N.eqb_neq _ _)) //. }
  destruct Hp as [->|Hp]; [by rw Hn|]. induction p as [|c p IH]; [done|]. rewrite ->ends_with_nl_cons in Hp. cbn [app memrchr_nl byte_len].
  destruct p as [|d p]; [cbn [app is_empty] in *; rw Hn Hp; apply N.eqb_eq in Hp as ->; done|]. specialize (IH Hp).
  destruct (memrchr_nl ((d :: p) ++ a)); [lia|]. pose proof (byte_len_pos (d :: p)). exfalso. naive_solver lia.
Qed.

Definition kept_tail (n m : nat) (s : Str) : Str := byte_suffix m (last_lines n s).
Definition last_line_bytes (s : Str) : nat := match last (lines_of s) with Some l => byte_len l | None => O end.

(** Where the search for the start of the last line begins. *)
Definition search_end (s : Str) : nat := if ends_with_nl s then (byte_len s - 1)%nat else byte_len s.

Definition tail_text (content : Str) (s : TailState) : Str :=
  default [] (tl_partial_output s) ++ drop_bytes (tl_start_idx s) content.
Definition tail_lines (content : Str) (s : TailState) : nat :=
  match tl_partial_output s with Some _ => count_lines (tail_text content s) | None => tl_line_count s end.

(** What the loop of [truncate_tail] computes when [suf], of [lc] lines, is
    kept and [pre] is left. *)
Definition tail_outcome (s : TailState) (pre suf : Str) (n B lc : nat) : Prop :=
  let m := (B - byte_len suf)%nat in
  let o := kept_tail n m pre in
  tail_text (pre ++ suf) s = o ++ suf ∧ tail_lines (pre ++ suf) s = length (lines_of (o ++ suf)) ∧
  tl_truncated_by s =
    (if (byte_len (last_lines n pre) <=? m)%nat then if (length (lines_of pre) <? n)%nat then None else Some Lines else Some Bytes) ∧
  tl_last_line_partial s = (lc =? 0)%nat && (m <? last_line_bytes pre)%nat && negb (is_empty o).

(** The last line does not fit. *)
Lemma tail_cut p l suf n B lc : whole_lines p → lines_of l = [l] → lc = length (lines_of suf) → (byte_len suf ≤ B)%nat → (B < byte_len suf + byte_len l)%nat →
  let chunk := if (0 <? B - byte_len suf)%nat then truncate_string_to_bytes_from_end l (B - byte_len suf) else [] in
  tail_outcome
    (if is_empty chunk then mkTail lc (byte_len suf) (byte_len (p ++ l)) None (Some Bytes) false
     else mkTail lc (byte_len suf) (byte_len (p ++ l)) (Some chunk) (Some Bytes) (lc =? 0)%nat) (p ++ l) suf (S n) B lc.
Proof.
  intros Hp Hl -> Hs HB chunk. set (m := (B - byte_len suf)%nat) in *.
  assert (chunk = byte_suffix m l) as ->.
  { unfold chunk. rw truncate_from_end. destruct (Nat.ltb_spec 0 m); [done|]. replace m with O by lia. unfold byte_suffix. by rw byte_prefix_0. }
  unfold tail_outcome, kept_tail. fold m. rw last_lines_snoc // byte_suffix_cut; [|lia].
  rw (byte_len_app (last_lines n p) l) (proj2 (Nat.leb_gt (byte_len (last_lines n p) + byte_len l) m)); [|lia].
  unfold last_line_bytes. rw (lines_of_app p l) // Hl last_snoc (proj2 (Nat.ltb_lt m (byte_len l))); [|lia]. rw andb_true_r.
  unfold tail_lines, tail_text. destruct (byte_suffix m l) as [|c o] eqn:E; cbn [is_empty tl_partial_output tl_start_idx default tl_truncated_by tl_last_line_partial tl_line_count];
    rw drop_bytes_app ?count_lines_spec; split_and!; try done; by rw ?andb_false_r ?andb_true_r.
Qed.

(** The last line fits. *)
Lemma tail_line s p l suf n B lc : whole_lines p → lines_of l = [l] → (byte_len suf + byte_len l ≤ B)%nat →
  tail_outcome s p (l ++ suf) n B (lc + 1) → tail_outcome s (p ++ l) suf (S n) B lc.
Proof.
  unfold tail_outcome, kept_tail. intros Hp Hl HB. rw -!app_assoc !byte_len_app last_lines_snoc // byte_suffix_app; [|lia].
  replace (B - byte_len suf - byte_len l)%nat with (B - (byte_len l + byte_len suf))%nat by lia.
  set (m := (B - (byte_len l + byte_len suf))%nat). intros (-> & -> & -> & ->). rw -!app_assoc. split_and!; [done..| |].
  - rw byte_len_app lines_of_app // Hl length_app /=.
    replace (byte_len (last_lines n p) + byte_len l <=? B - byte_len suf)%nat with (byte_len (last_lines n p) <=? m)%nat
      by (apply eq_true_iff_eq; rewrite ->!Nat.leb_le; unfold m; lia).
    case_match; [|done]. rw Nat.add_1_r. done.
  - unfold last_line_bytes. rw (lines_of_app p l) // Hl last_snoc (proj2 (Nat.ltb_ge _ (byte_len l))); [|lia].
    rw Nat.add_1_r /= andb_false_r //.
Qed.

Lemma last_lines_0 s : last_lines 0 s = [].
Proof. unfold last_lines. rw Nat.sub_0_r drop_all //. Qed.

(** Nothing more is looked at: no lines are left, or none may be kept. *)
Lemma tail_stop p suf n B lc : lc ≠ O → p = [] ∨ n = O → lc = length (lines_of suf) →
  tail_outcome (mkTail lc (byte_len suf) (byte_len p) None (if (n =? 0)%nat then Some Lines else None) false) p suf n B lc.
Proof.
  intros Hlc Hp Hl. assert (last_lines n p = []) as E by (destruct Hp as [->| ->]; [done|apply last_lines_0]).
  unfold tail_outcome, kept_tail. rw E. unfold tail_lines, tail_text. cbn. rw drop_bytes_app (proj2 (Nat.eqb_neq lc 0)) // -Hl.
  split_and!; try done. destruct Hp as [->| ->]; [by destruct n|]. done.
Qed.

Lemma tail_loop_spec B L fuel pre suf lc : pre ≠ [] → suf = [] ∨ ends_with_nl pre = true → lc = length (lines_of suf) →
  (byte_len suf ≤ B)%nat → Z.of_nat lc < L → (length (lines_of pre) ≤ fuel)%nat →
  tail_outcome (tail_loop fuel (pre ++ suf) L B (search_end pre) lc (byte_len suf) (byte_len pre)) pre suf (Z.to_nat (L - Z.of_nat lc)) B lc.
Proof.
  revert pre suf lc. induction fuel as [|fuel IH]; intros pre suf lc Hpre Hsuf Hlc HB HL Hf.
  { destruct (lines_of pre) eqn:E; [by apply lines_of_nil in E|simpl in Hf; lia]. }
  destruct (last_line_split pre Hpre) as (p & a & e & -> & Hp & Ha & Hne & He).
  pose proof (line_of_split a e Ha Hne He) as Hl. cbn [tail_loop].
  assert (take_bytes (search_end (p ++ a ++ e)) ((p ++ a ++ e) ++ suf) = p ++ a) as ->.
  { replace (search_end (p ++ a ++ e)) with (byte_len (p ++ a)); [rw -!app_assoc (app_assoc p a) take_bytes_app //|].
    unfold search_end. destruct He as [->| ->]; [rw app_assoc ends_with_nl_snoc !byte_len_app /=; lia|].
    rw app_nil_r ends_with_nl_app. destruct a as [|y a _] using rev_ind; [by rw app_nil_r in Hne|].
    rw ends_with_nl_snoc (proj2 (N.eqb_neq y c_nl)); [by destruct a|intros ->; set_solver]. }
  rw memrchr_nl_line //. set (l := a ++ e) in *.
  replace (byte_len (p ++ l) - byte_len p)%nat with (byte_len l) by (rw byte_len_app; lia).
  replace (Z.to_nat (L - Z.of_nat lc)) with (S (Z.to_nat (L - Z.of_nat (lc + 1)))) by lia.
  rw -(app_assoc p l) drop_bytes_app take_bytes_app. destruct (Nat.ltb_spec B (byte_len suf + byte_len l)) as [Hb|Hb].
  { by apply tail_cut. }
  apply tail_line; [done|done|lia|].
  assert ((lc + 1)%nat = length (lines_of (l ++ suf))) as Hlc'.
  { destruct Hsuf as [->|Hpl]; [rw app_nil_r Hl Hlc //|]. rw lines_of_app ?Hl /=; [lia|]. right.
    rewrite ->ends_with_nl_app in Hpl. by destruct l. }
  replace (byte_len suf + byte_len l)%nat with (byte_len (l ++ suf)) by (rw byte_len_app; lia).
  destruct (Z.leb_spec L (Z.of_nat (lc + 1))) as [HL'|HL'].
  { rw Z2Nat.nonpos; [|lia]. apply (tail_stop p (l ++ suf) 0 B (lc + 1)); [lia|by right|done]. }
  destruct (Nat.eqb_spec (byte_len p) 0) as [Hp0|Hp0].
  { assert (p = []) as -> by (destruct p; [done|]; pose proof (byte_len_pos (n :: p) ltac:(done)); lia).
    pose proof (tail_stop [] (l ++ suf) (Z.to_nat (L - Z.of_nat (lc + 1))) B (lc + 1)) as Hs.
    rewrite ->(proj2 (Nat.eqb_neq _ 0)) in Hs by lia. apply Hs; [lia|by left|done]. }
  destruct Hp as [->|Hp]; [done|]. assert (search_end p = (byte_len p - 1)%nat) as <- by (unfold search_end; by rw Hp).
  apply IH; try done; [by intros ->|by right|rw byte_len_app; lia|].
  rewrite ->lines_of_app, length_app, Hl in Hf by by right. simpl in Hf. lia.
Qed.

(** Why [truncate_tail] cuts. *)
Definition tail_reason (n m : nat) (s : Str) : option TruncatedBy :=
  if decide (kept_tail n m s = s) then None
  else if (byte_len (last_lines n s) <=? m)%nat then Some Lines else Some Bytes.

Definition tail_reference (content : Str) (max_lines : Z) (max_bytes : nat) : TruncationResult :=
  let n := Z.to_nat max_lines in
  let o := kept_tail n max_bytes content in
  mkTruncation o (bool_decide (o ≠ content)) (tail_reason n max_bytes content) (len (lines_of content))
    (Z.of_nat (byte_len content)) (len (lines_of o)) (Z.of_nat (byte_len o))
    (negb (max_lines =? 0) && (max_bytes <? last_line_bytes content)%nat && negb (is_empty o)) false max_lines (Z.of_nat max_bytes).

Lemma tail_reason_None n m s : bool_decide (tail_reason n m s ≠ None) = bool_decide (kept_tail n m s ≠ s).
Proof. unfold tail_reason. apply bool_decide_ext. repeat case_decide; repeat case_match; naive_solver. Qed.

Lemma last_lines_all n s : (length (lines_of s) ≤ n)%nat → last_lines n s = s.
Proof. intros H. unfold last_lines. replace (length (lines_of s) - n)%nat with O by lia. apply lines_of_concat. Qed.

Lemma last_lines_fewer n s : (n < length (lines_of s))%nat → (byte_len (last_lines n s) < byte_len s)%nat.
Proof.
  intros H. unfold last_lines. set (k := (length (lines_of s) - n)%nat).
  assert (byte_len s = byte_len (concat (take k (lines_of s))) + byte_len (concat (drop k (lines_of s))))%nat as ->
    by by rw -byte_len_app -concat_app take_drop lines_of_concat.
  assert (concat (take k (lines_of s)) ≠ []) as Hne; [|pose proof (byte_len_pos _ Hne); lia].
  destruct k as [|k'] eqn:Ek; [lia|]. apply (first_line_nonempty k' s). intros ->. simpl in H. lia.
Qed.

Lemma last_line_le s : (last_line_bytes s ≤ byte_len s)%nat.
Proof.
  unfold last_line_bytes. destruct (decide (s = [])) as [->|Hs]; [done|].
  destruct (last_line_split s Hs) as (p & a & e & -> & Hp & Ha & Hne & He).
  rw lines_of_app // line_of_split // last_snoc (byte_len_app p). lia.
Qed.

Lemma truncate_tail_is_reference content max_lines max_bytes : 0 ≤ max_lines →
  truncate_tail content max_lines max_bytes = tail_reference content max_lines max_bytes.
Proof.
  intros HL. unfold truncate_tail, tail_reference. rw !count_lines_spec -(tail_reason_None _ max_bytes). unfold len.
  destruct (Z.eqb_spec max_lines 0) as [->|HL0].
  { unfold tail_reason, kept_tail. rw last_lines_0. by destruct content. }
  cbn [negb andb]. destruct (_ && _) eqn:Ec.
  { apply andb_true_iff in Ec as [E1%Z.leb_le E2%Nat.leb_le]. unfold tail_reason, kept_tail.
    rw last_lines_all; [|lia]. rw byte_suffix_all // decide_True // (proj2 (Nat.ltb_ge _ _)) //.
    pose proof (last_line_le content). lia. }
  assert (content ≠ []) as Hne by (intros ->; rewrite ->(proj2 (Z.leb_le _ _)) in Ec by (simpl; lia); done).
  pose proof (tail_loop_spec max_bytes max_lines (S (byte_len content)) content [] 0) as Hs.
  rewrite ->app_nil_r in Hs. change (byte_len []) with O in Hs. fold (search_end content).
  set (s := tail_loop _ _ _ _ _ _ _ _) in *.
  destruct Hs as (Ht & Hn & Hby & Hpl); [done|by left|done|lia|lia|pose proof (lines_le_bytes content); lia|].
  rewrite ->!app_nil_r in Ht, Hn. rewrite ->Nat.sub_0_r, Z.sub_0_r in *. cbn [Nat.eqb andb] in Hpl.
  assert (tl_truncated_by s = tail_reason (Z.to_nat max_lines) max_bytes content) as ->.
  { rw Hby. unfold tail_reason, kept_tail. destruct (Nat.leb_spec (byte_len (last_lines (Z.to_nat max_lines) content)) max_bytes) as [Hb|Hb].
    - rw byte_suffix_all //. destruct (Nat.ltb_spec (length (lines_of content)) (Z.to_nat max_lines)) as [Hl|Hl].
      + exfalso. rewrite ->last_lines_all in Hb by lia. rewrite ->(proj2 (Z.leb_le _ _)), (proj2 (Nat.leb_le _ _)) in Ec by lia. done.
      + rw decide_False //. intros E.
        destruct (decide (length (lines_of content) = Z.to_nat max_lines)) as [El|El].
        * rewrite ->E in Hb. rewrite ->(proj2 (Z.leb_le _ _)), (proj2 (Nat.leb_le _ _)) in Ec by lia. done.
        * pose proof (last_lines_fewer (Z.to_nat max_lines) content ltac:(lia)) as Hlt. rewrite ->E in Hlt. lia.
    - rw decide_False //. intros E. apply (f_equal byte_len) in E.
      pose proof (byte_suffix_le max_bytes (last_lines (Z.to_nat max_lines) content)).
      destruct (decide (length (lines_of content) ≤ Z.to_nat max_lines)%nat); [rewrite ->last_lines_all in Hb by done; lia|].
      pose proof (last_lines_fewer (Z.to_nat max_lines) content ltac:(lia)). lia. }
  rw Hpl. unfold tail_lines, tail_text in *. destruct (tl_partial_output s) as [c|]; cbn [default app] in *; rw ?count_lines_spec ?Ht //.
  by rw Hn.
Qed.

(** ** Bounds *)

Lemma lines_of_cons_length c s : length (lines_of (c :: s)) =
  if (c =? c_nl)%N then S (length (lines_of s)) else Nat.max 1 (length (lines_of s)).
Proof. cbn [lines_of]. case_match; [done|]. case_match; simpl; lia. Qed.

Lemma lines_sub a b : (length (lines_of (a ++ b)) ≤ length (lines_of a) + length (lines_of b))%nat.
Proof. induction a as [|c a IH]; [done|]. cbn [app]. rw !lines_of_cons_length. case_match; lia. Qed.

Lemma lines_before a b : (length (lines_of a) ≤ length (lines_of (a ++ b)))%nat.
Proof. induction a as [|c a IH]; cbn [app]; [simpl; lia|]. rw !lines_of_cons_length. case_match; lia. Qed.

Lemma lines_after a b : (length (lines_of b) ≤ length (lines_of (a ++ b)))%nat.
Proof. induction a as [|c a IH]; cbn [app]; [done|]. rw lines_of_cons_length. case_match; lia. Qed.

Lemma lines_single s : Forall (λ l, length (lines_of l) = 1%nat) (lines_of s).
Proof.
  induction s as [|c s IH]; [constructor|]. cbn [lines_of]. destruct (c =? c_nl)%N eqn:E.
  - constructor; [by rw /= E|done].
  - destruct (lines_of s) as [|l ls]; [repeat constructor; by rw /= E|]. inversion IH as [|? ? Hl Hls]; subst.
    constructor; [|done]. rw lines_of_cons_length E Hl //.
Qed.

Lemma lines_of_some_lines ls : Forall (λ l, length (lines_of l) = 1%nat) ls → (length (lines_of (concat ls)) ≤ length ls)%nat.
Proof. induction 1 as [|l ls Hl _ IH]; [done|]. simpl. pose proof (lines_sub l (concat ls)). lia. Qed.

Lemma kept_head_lines n m s : (length (lines_of (kept_head n m s)) ≤ n)%nat.
Proof.
  destruct (byte_prefix_prefix m (first_lines n s)) as [q Hq]. pose proof (lines_before (kept_head n m s) q) as H.
  unfold kept_head at 2 in H. rewrite <-Hq in H. unfold first_lines in H.
  pose proof (lines_of_some_lines (take n (lines_of s)) (Forall_take _ _ _ (lines_single s))). rewrite ->length_take in *. lia.
Qed.

Lemma byte_suffix_suffix m s : ∃ p, s = p ++ byte_suffix m s.
Proof.
  destruct (byte_prefix_prefix m (reverse s)) as [q Hq]. exists (reverse q).
  unfold byte_suffix. rw -reverse_app -Hq reverse_involutive //.
Qed.

Lemma kept_tail_lines n m s : (length (lines_of (kept_tail n m s)) ≤ n)%nat.
Proof.
  destruct (byte_suffix_suffix m (last_lines n s)) as [q Hq]. pose proof (lines_after q (kept_tail n m s)) as H.
  unfold kept_tail at 2 in H. rewrite <-Hq in H. unfold last_lines in H.
  pose proof (lines_of_some_lines _ (Forall_drop _ (length (lines_of s) - n) _ (lines_single s))) as H'. rewrite ->length_drop in H'. lia.
Qed.

Lemma kept_tail_suffix n m s : ∃ p, s = p ++ kept_tail n m s.
Proof.
  destruct (byte_suffix_suffix m (last_lines n s)) as [q Hq]. unfold kept_tail, last_lines in *.
  exists (concat (take (length (lines_of s) - n) (lines_of s)) ++ q). rw -app_assoc -Hq -concat_app take_drop lines_of_concat //.
Qed.

(** ** [HeadTruncatingLineWriter] *)

(** [lines.join("\n")] *)
Fixpoint join_lines (lines : list Str) : Str :=
  match lines with
  | [] => []
  | [l] => l
  | l :: ls => l ++ [c_nl] ++ join_lines ls
  end.

Lemma join_lines_snoc ls l : ls ≠ [] → join_lines (ls ++ [l]) = join_lines ls ++ [c_nl] ++ l.
Proof.
  induction ls as [|a ls IH]; [done|]. intros _. destruct ls as [|b ls]; [done|].
  change (join_lines ((a :: b :: ls) ++ [l])) with (a ++ [c_nl] ++ join_lines ((b :: ls) ++ [l])).
  rw IH //. change (join_lines (a :: b :: ls)) with (a ++ [c_nl] ++ join_lines (b :: ls)). by rw -!app_assoc.
Qed.

Lemma utf8_prefix_len_spec s m : utf8_prefix_len s m = byte_len (byte_prefix m s).
Proof.
  unfold utf8_prefix_len. rw back_to_start. destruct (Nat.le_ge_cases m (byte_len s)); [by rw Nat.min_l|].
  rw Nat.min_r // !byte_prefix_all //.
Qed.

Lemma lines_of_more j s : j ≠ [] → ends_with_nl j = false →
  length (lines_of (j ++ [c_nl] ++ s)) = (length (lines_of j) + length (lines_of s))%nat.
Proof.
  intros Hj He. rw app_assoc lines_of_app; [|right; by rw ends_with_nl_snoc]. rw length_app -!count_lines_spec. f_equal.
  unfold count_lines. rw He ends_with_nl_snoc. destruct j; [done|]. simpl. clear. induction j as [|d j IH]; [simpl; lia|]. simpl in *. lia.
Qed.

Lemma cut_inside_line_self s : cut_inside_line s s = false.
Proof. unfold cut_inside_line. rw drop_all andb_false_r //. Qed.

(** What the writer has kept and noted of the lines [ls] with text [j]. *)
Definition writer_of (B : nat) (first j : Str) (n : Z) : HeadTruncatingLineWriter :=
  let o := byte_prefix B j in
  let exceeds := (B <? byte_len first)%nat in
  mkWriter o B n (Z.of_nat (byte_len j)) (len (lines_of o)) (B <? byte_len j)%nat
    (exceeds || cut_inside_line o j) exceeds.

Lemma cut_stays m j s : (m < byte_len j)%nat → cut_inside_line (byte_prefix m j) (j ++ s) = cut_inside_line (byte_prefix m j) j.
Proof.
  intros Hm. unfold cut_inside_line. f_equal. destruct (byte_prefix_prefix m j) as [q Hq]. pose proof (byte_prefix_le m j).
  set (o := byte_prefix m j) in *. rw Hq -app_assoc !drop_app_length. destruct q; [|done].
  rewrite ->Hq, app_nil_r in Hm. lia.
Qed.

(** A line feed after an unfinished line ends it. *)
Lemma cut_at_end j s : cut_inside_line j (j ++ [c_nl] ++ s) = false.
Proof. unfold cut_inside_line. rw drop_app_length /= andb_false_r //. Qed.

Section Writer.
Context (B : nat).
Hypothesis HB : (4 ≤ B)%nat.

Definition plain_line (l : Str) : Prop := l ≠ [] ∧ c_nl ∉ l.

Lemma push_first l : plain_line l → Z.of_nat (byte_len l) ≤ usize_max → push_line l (writer_new B) = writer_of B l l 1.
Proof.
  intros [Hl Hn] Hu. assert (sat_add usize_max 0 (Z.of_nat (byte_len l)) = Z.of_nat (byte_len l)) as Hsat by (unfold sat_add; lia).
  unfold push_line, writer_of, writer_new.
  cbn [w_content w_max_bytes w_total_lines w_total_bytes w_output_lines w_truncated w_last_line_partial w_first_line_exceeds_limit].
  change (0 <? 0) with false. change (0 =? 0) with true. cbv iota. change (0 <? 0)%nat with false. change (Z.of_nat 0) with 0. cbn [andb orb app byte_len]. rw (proj2 (Nat.eqb_neq B 0)); [|lia]. rw Nat.sub_0_r.
  rw !Hsat.
  destruct (Z.leb_spec (Z.of_nat (byte_len l)) (Z.of_nat B)) as [Hle|Hgt].
  - rw byte_prefix_all; [|lia]. rw (proj2 (Nat.ltb_ge B (byte_len l))); [|lia]. rw cut_inside_line_self. unfold len. rw lines_of_last //.
  - rw (proj2 (Nat.ltb_lt B _)); [|lia]. rw utf8_prefix_len_spec prefix_bytes.
    pose proof (prefix_of_line l B [] Hn ltac:(lia)) as (_ & Hc & _). unfold len. rw Hc.
    assert (0 < byte_len (byte_prefix B l))%nat as Hpos.
    { apply byte_len_pos. destruct l as [|c l]; [done|]. simpl. pose proof (utf8_width_bounds c). rw (proj2 (Nat.leb_le _ _)) //. lia. }
    rw (proj2 (Nat.ltb_lt 0 (byte_len (byte_prefix B l)))) // (proj2 (Nat.ltb_lt _ (byte_len l))) //. pose proof (byte_prefix_le B l). lia.
Qed.

Lemma push_more first j n l : j ≠ [] → ends_with_nl j = false → plain_line l → 0 < n → (byte_len first ≤ byte_len j)%nat →
  n < usize_max → len (lines_of j) < usize_max → Z.of_nat (byte_len (j ++ [c_nl] ++ l)) ≤ usize_max →
  push_line l (writer_of B first j n) = writer_of B first (j ++ [c_nl] ++ l) (n + 1).
Proof.
  intros Hj He [Hl Hn] Hn0 Hfirst Hnu Hlu Hu. set (j' := j ++ [c_nl] ++ l) in *.
  assert (byte_len j' = byte_len j + (1 + byte_len l))%nat as Ej by (unfold j'; rw !byte_len_app //).
  unfold push_line, writer_of.
  cbn [w_content w_max_bytes w_total_lines w_total_bytes w_output_lines w_truncated w_last_line_partial w_first_line_exceeds_limit].
  rw (proj2 (Z.ltb_lt 0 n)) // (proj2 (Z.eqb_neq n 0)); [|lia]. change (0 <? 1)%nat with true. cbn [andb]. rw (proj2 (Nat.eqb_neq B 0)); [|lia].
  replace (sat_add usize_max (Z.of_nat 1) (Z.of_nat (byte_len l))) with (Z.of_nat (1 + byte_len l)) by (unfold sat_add; lia).
  replace (sat_add usize_max (Z.of_nat (byte_len j)) (Z.of_nat (1 + byte_len l))) with (Z.of_nat (byte_len j')) by (unfold sat_add; lia).
  replace (sat_add usize_max n 1) with (n + 1) by (unfold sat_add; lia).
  destruct (Nat.ltb_spec B (byte_len j)) as [Hc|Hc].
  { unfold j'. rw byte_prefix_cut // cut_stays // (proj2 (Nat.ltb_lt B (byte_len (j ++ [c_nl] ++ l)))) //. fold j'. lia. }
  rw (byte_prefix_all B j) // cut_inside_line_self (proj2 (Nat.ltb_ge B (byte_len first))); [|lia]. cbn [orb].
  destruct (Z.leb_spec (Z.of_nat (1 + byte_len l)) (Z.of_nat (B - byte_len j))) as [Hle|Hgt].
  { rw (byte_prefix_all B j'); [|lia]. rw cut_inside_line_self (proj2 (Nat.ltb_ge B (byte_len j'))); [|lia].
    unfold len in *. rw lines_of_more // (lines_of_last l) //=. f_equal. unfold sat_add. lia. }
  rw (proj2 (Nat.ltb_lt B (byte_len j'))); [|lia]. unfold j' at 2 3 4. rw byte_prefix_app //.
  destruct (Nat.eqb_spec (B - byte_len j) 0) as [->|Hrem].
  { rw byte_prefix_0 app_nil_r cut_at_end //. }
  set (m := (B - byte_len j - 1)%nat). rw (byte_prefix_app _ [c_nl] l); [|simpl; lia].
  change (byte_len [c_nl]) with 1%nat. fold m. rw utf8_prefix_len_spec prefix_bytes.
  pose proof (prefix_of_line l m [] Hn ltac:(lia)) as (_ & Hlines & Hcut). rewrite ->app_nil_r in Hcut.
  assert (cut_inside_line (j ++ [c_nl] ++ byte_prefix m l) j' = (0 <? byte_len (byte_prefix m l))%nat) as ->.
  { unfold j'. rw !app_assoc cut_inside_line_app //. by rw ends_with_nl_snoc. }
  fold j'. unfold len in *.
  rw lines_of_more // Hlines. destruct (Nat.ltb_spec 0 (byte_len (byte_prefix m l))) as [Hv|Hv].
  - rw -app_assoc (proj2 (Nat.ltb_lt _ (byte_len l))); [|pose proof (byte_prefix_le m l); lia]. f_equal. unfold sat_add. lia.
  - destruct (byte_prefix m l) as [|c x]; [|pose proof (byte_len_pos (c :: x) ltac:(done)); lia]. f_equal. lia.
Qed.
End Writer.

(** ** Claims *)

Lemma plain_line_end l : plain_line l → ends_with_nl l = false.
Proof.
  intros [Hl Hn]. destruct l as [|c l _] using rev_ind; [done|]. rw ends_with_nl_snoc (proj2 (N.eqb_neq _ _)) //.
  intros ->. set_solver.
Qed.

Lemma first_line_bytes_line l s : c_nl ∉ l → (s = [] ∨ ∃ t, s = c_nl :: t) → first_line_bytes (l ++ s) = byte_len l.
Proof.
  unfold first_line_bytes. intros Hl Hs. assert (memchr_nl (l ++ s) = match s with [] => None | _ => Some (byte_len l) end) as ->.
  { induction l as [|c l IH]; [by destruct Hs as [->|[t ->]]|]. apply not_elem_of_cons in Hl as [Hc Hl]. cbn [app memchr_nl].
    rw (proj2 (N.eqb_neq c c_nl)); [|by intros ->]. rw IH //. by destruct s. }
  destruct s; [by rw app_nil_r|done].
Qed.

Lemma join_lines_facts ls : ls ≠ [] → Forall plain_line ls →
  join_lines ls ≠ [] ∧ ends_with_nl (join_lines ls) = false ∧ (length ls ≤ byte_len (join_lines ls))%nat ∧
  (byte_len (hd [] ls) ≤ byte_len (join_lines ls))%nat ∧ first_line_bytes (join_lines ls) = byte_len (hd [] ls) ∧
  length (lines_of (join_lines ls)) = length ls.
Proof.
  intros Hne Hall. induction Hall as [|l ls Hl Hls IH]; [done|]. pose proof (byte_len_pos l (proj1 Hl)). cbn [hd].
  destruct ls as [|k ls].
  { cbn [join_lines length]. pose proof (first_line_bytes_line l [] (proj2 Hl) ltac:(by left)) as Hf. rewrite ->app_nil_r in Hf.
    destruct Hl as [Hl Hn]. rw lines_of_last //. split_and!; [done|by apply plain_line_end|lia|lia|done|done]. }
  destruct (IH ltac:(done)) as (IH1 & IH2 & IH3 & _ & _ & IH6). change (join_lines (l :: k :: ls)) with (l ++ [c_nl] ++ join_lines (k :: ls)).
  set (j := join_lines (k :: ls)) in *. rw !byte_len_app. cbn [length] in *. change (byte_len [c_nl]) with 1%nat.
  split_and!; [by destruct l|rw !ends_with_nl_app; by destruct j|lia|lia| |].
  - apply first_line_bytes_line; [by destruct Hl|by right; exists j].
  - rw lines_of_more; [|by destruct Hl|by apply plain_line_end]. destruct Hl. rw lines_of_last // IH6 //.
Qed.

Lemma writer_state B ls : (4 ≤ B)%nat → ls ≠ [] → Forall plain_line ls → Z.of_nat (byte_len (join_lines ls)) < usize_max →
  foldl (λ w line, push_line line w) (writer_new B) ls = writer_of B (hd [] ls) (join_lines ls) (len ls).
Proof.
  intros HB. induction ls as [|l ls IH] using rev_ind; [done|]. intros _ [Hls [Hl _]%Forall_cons]%Forall_app Hu.
  destruct (decide (ls = [])) as [->|Hne]; [change (join_lines ([] ++ [l])) with l in *; apply (push_first B HB l Hl); lia|].
  rewrite ->join_lines_snoc in Hu by done. rw foldl_snoc IH //; [|rewrite ->byte_len_app in Hu; lia].
  destruct (join_lines_facts ls Hne Hls) as (H1 & H2 & H3 & H4 & _). pose proof (lines_le_bytes (join_lines ls)).
  rewrite ->byte_len_app in Hu. rw push_more //.
  - rw join_lines_snoc //. unfold len. rw length_app. destruct ls; [done|]. simpl. f_equal. lia.
  - unfold len. destruct ls; [done|]. simpl. lia.
  - unfold len. lia.
  - unfold len. lia.
  - rw byte_len_app. lia.
Qed.

(** C27: truncating keeps exactly what fits.  The head of a tool output is the
    longest run of whole characters, within the byte limit, of its first lines
    up to the line limit, and its tail that of its last lines; nothing else is
    dropped.  The result says truthfully whether anything was dropped, which
    limit did it, how many lines and bytes there were and are, and whether a
    line was cut; lines and bytes stay within the limits. *)
Theorem truncation_is_exact content max_lines max_bytes : 0 ≤ max_lines →
  let head := truncate_head content max_lines max_bytes in
  let tail := truncate_tail content max_lines max_bytes in
  head = head_reference content max_lines max_bytes ∧ tail = tail_reference content max_lines max_bytes ∧
  (∃ rest, content = tr_content head ++ rest) ∧ (∃ before, content = before ++ tr_content tail) ∧
  tr_output_lines head ≤ max_lines ∧ tr_output_lines tail ≤ max_lines ∧
  tr_output_bytes head ≤ Z.of_nat max_bytes ∧ tr_output_bytes tail ≤ Z.of_nat max_bytes.
Proof.
  intros HL head tail. unfold head, tail. rw truncate_head_is_reference // truncate_tail_is_reference //. unfold len.
  pose proof (kept_head_lines (Z.to_nat max_lines) max_bytes content). pose proof (kept_tail_lines (Z.to_nat max_lines) max_bytes content).
  pose proof (byte_prefix_le max_bytes (first_lines (Z.to_nat max_lines) content)).
  pose proof (byte_suffix_le max_bytes (last_lines (Z.to_nat max_lines) content)).
  split_and!; [done|done|apply kept_head_prefix|apply kept_tail_suffix|..]; simpl; unfold len, kept_head, kept_tail in *; lia.
Qed.

(** C28: writing lines one by one gives the same result as joining them and
    truncating: for lines that are not empty, a limit of four bytes at least
    and a text whose length is a [usize], every field of the writer's result is
    that of [truncate_head] without a line limit. *)
Theorem line_writer_is_truncate_head lines max_bytes : (4 ≤ max_bytes)%nat → Forall plain_line lines →
  Z.of_nat (byte_len (join_lines lines)) < usize_max →
  write_lines lines max_bytes = truncate_head (join_lines lines) usize_max max_bytes.
Proof.
  intros HB Hall Hu. rw truncate_head_is_reference //. unfold write_lines.
  destruct (decide (lines = [])) as [->|Hne].
  { unfold head_reference, head_reason, kept_head. rw first_lines_all; [done|apply Nat.le_0_l]. }
  destruct (join_lines_facts lines Hne Hall) as (H1 & H2 & H3 & H4 & H5 & H6). rw writer_state //.
  set (j := join_lines lines) in *. pose proof (lines_le_bytes j).
  unfold finish, writer_of, head_reference, head_reason, kept_head. rw first_lines_all; [|lia]. rw H5.
  change (usize_max =? 0) with false. rw (proj2 (Nat.eqb_neq max_bytes 0)); [|lia]. assert (is_empty j = false) as -> by by destruct j.
  cbn [negb andb orb w_content w_max_bytes w_total_lines w_total_bytes w_output_lines w_truncated w_last_line_partial w_first_line_exceeds_limit].
  unfold len. rw H6.
  destruct (Nat.ltb_spec max_bytes (byte_len j)) as [Hc|Hc].
  - assert (byte_prefix max_bytes j ≠ j) as Hx by (intros E; pose proof (byte_prefix_le max_bytes j); rewrite ->E in *; lia).
    rw decide_False // bool_decide_true // (proj2 (Nat.leb_gt _ _)) //.
  - rw byte_prefix_all // decide_True // bool_decide_false; [by destruct (_ <? _)%nat|naive_solver].
Qed.

Lemma truncation_is_exact_witness :
  let content := [233%N; 8364%N] ++ [c_nl] ++ str "tail" ++ [c_nl] in
  tr_content (truncate_head content 1 4) = [233%N] ∧ tr_content (truncate_tail content 1 3) = str "il" ++ [c_nl] ∧
  truncate_head content 1 4 = head_reference content 1 4 ∧ truncate_tail content 1 3 = tail_reference content 1 3.
Proof.
  intros content. split; [reflexivity|]. split; [reflexivity|].
  pose proof (truncation_is_exact content 1 4 ltac:(lia)) as (H1 & _).
  pose proof (truncation_is_exact content 1 3 ltac:(lia)) as (_ & H2 & _). split; [exact H1|exact H2].
Defined.

Lemma line_writer_is_truncate_head_witness :
  write_lines [str "alpha"; [946%N] ++ str "eta"; str "gamma"] 8 =
  truncate_head (str "alpha" ++ [c_nl; 946%N] ++ str "eta" ++ [c_nl] ++ str "gamma") usize_max 8 ∧
  tr_content (write_lines [str "alpha"; [946%N] ++ str "eta"; str "gamma"] 8) = str "alpha" ++ [c_nl; 946%N].
Proof.
  split; [|reflexivity].
  apply (line_writer_is_truncate_head [str "alpha"; [946%N] ++ str "eta"; str "gamma"] 8); [lia| |vm_compute; reflexivity].
  repeat constructor; try done; apply (bool_decide_eq_true_1 _); vm_compute; reflexivity.
Defined.

(** Lines that are empty are counted differently. *)
Example empty_lines_differ :
  tr_total_lines (write_lines [str "a"; []] 8) = 2 ∧ tr_total_lines (truncate_head (join_lines [str "a"; []]) usize_max 8) = 1.
Proof. split; reflexivity. Qed.
