(* ===== verification/HashlineEdit.v ===== *)
(** * Edits by line tags ([src/tools.rs])

    The [hashline_edit] tool: [read] shows each line with a tag made of its
    number and a hash, and the edits of one call name lines by their tags.
    Modelled from the decoded file to its new content: tags, their validation
    against the file, the resolution of edits, their order, the check for
    overlaps and the splices.  Errors are values with the data of their
    messages. *)

From S2P Require Import Prelude Text Utf8 Utf8Bytes Json EditText.

(** ** Tags *)

Definition NIBBLE_STR : Str := str "ZPMQVRWSNKTXJBYH".

Definition nibble (i : Z) : N := nth (Z.to_nat i) NIBBLE_STR 0%N.

(** The entry of [hashline_dict] for a byte. *)
Definition hashline_dict (byte : Z) : N * N :=
  (nibble (Z.land byte 15), nibble (Z.land (Z.shiftr byte 4) 15)).

Definition strip_cr (line : Str) : Str :=
  match reverse line with c :: l => if (c =? c_cr)%N then reverse l else line | [] => line end.

Fixpoint drop_while (p : N → bool) (s : Str) : Str :=
  match s with c :: s' => if p c then drop_while p s' else s | [] => [] end.
Fixpoint take_while (p : N → bool) (s : Str) : Str :=
  match s with c :: s' => if p c then c :: take_while p s' else [] | [] => [] end.

Definition is_nibble (c : N) : bool := bool_decide (c ∈ NIBBLE_STR).
Definition is_marker (c : N) : bool := is_whitespace c || bool_decide (c ∈ str ">+-").

Inductive RefError :=
| InvalidReference (ref_str : Str)
| InvalidLineNumber (ref_str : Str)
| LineNumberZero (ref_str : Str)
| LineOutOfRange (line_num : Z) (lines : nat)
| HashMismatch (line_num : Z) (expected : N * N) (actual : N * N).

Inductive HashlineError :=
| HashValidationFailed (errors : list (RefError * option nat))
| BadReference (e : RefError)
| ReplaceNeedsPos
| EndBeforeStart (start_idx end_idx : nat)
| UnknownOp (op : Str)
| OverlappingEdits (op_a : Str) (start_a end_a : nat) (op_b : Str) (start_b end_b : nat)
| NoChangesMade.

Record HashlineOp := mkHashlineOp {
  op : Str;
  pos : option Str;
  end_ : option Str;
  lines : option Json;
}.

Inductive ResolvedOp := Replace | Prepend | Append.
#[global] Instance ResolvedOp_eq_dec : EqDecision ResolvedOp.
Proof. solve_decision. Defined.

Definition op_text (o : ResolvedOp) : Str :=
  match o with Replace => str "replace" | Prepend => str "prepend" | Append => str "append" end.

(** [op_precedence]; the names of resolved edits are the three it knows. *)
Definition op_precedence (o : ResolvedOp) : nat :=
  match o with Replace => 0 | Append => 1 | Prepend => 2 end%nat.

Record ResolvedEdit := mkResolved {
  re_op : ResolvedOp;
  re_start : nat;
  re_end : nat;
  re_lines : list Str;
}.

Record NormalizedEdit := mkNormalized {
  ne_op : Str;
  ne_pos_line : option Z;
  ne_end_line : option Z;
  ne_lines : list Str;
}.
#[global] Instance NormalizedEdit_eq_dec : EqDecision NormalizedEdit.
Proof. solve_decision. Defined.

Lemma nibble_is_nibble i : is_nibble (nibble (Z.land i 15)) = true ∧ is_whitespace (nibble (Z.land i 15)) = false.
Proof.
  assert (0 ≤ Z.land i 15 < 16) as Hi.
  { change 15 with (Z.ones 4). rw Z.land_ones; [|lia]. apply Z.mod_pos_bound. lia. }
  assert (Z.land i 15 ∈ [0; 1; 2; 3; 4; 5; 6; 7; 8; 9; 10; 11; 12; 13; 14; 15]) as Hc by (rewrite ->!elem_of_cons; lia).
  assert (forallb (λ k, is_nibble (nibble k) && negb (is_whitespace (nibble k))) [0; 1; 2; 3; 4; 5; 6; 7; 8; 9; 10; 11; 12; 13; 14; 15] = true) as Hf by done.
  rewrite ->forallb_forall in Hf. specialize (Hf _ (proj1 (list_elem_of_In _ _) Hc)). by apply andb_true_iff in Hf as [? ?%negb_true_iff].
Qed.

Section Hashline.

(** [xxhash_rust]'s 32-bit hash, [char::is_alphanumeric], the class [\d] of
    [regex] (Unicode decimal digits) and [serde_json]'s text of a value. *)
Context (xxh32 : ByteStr → Z → Z) (is_alphanumeric is_decimal : N → bool) (json_text : Json → Str).

Definition compute_line_hash (line_idx : nat) (line : Str) : N * N :=
  let line := strip_cr line in
  let significant := List.filter (λ c, negb (is_whitespace c)) line in
  let has_alnum := existsb is_alphanumeric significant in
  let seed := if has_alnum then 0 else Z.of_nat line_idx mod 4294967296 in
  let hash := xxh32 (utf8_encode significant) seed in
  hashline_dict (Z.land hash 255).

Definition tag_text (line_idx : nat) (h : N * N) : Str :=
  show_u64 (Z.of_nat line_idx + 1) ++ str "#" ++ [h.1; h.2].
Definition format_hashline_tag (line_idx : nat) (line : Str) : Str :=
  tag_text line_idx (compute_line_hash line_idx line).

Definition compute_line_hash_with_bom (line_idx : nat) (line : Str) (had_bom : bool) : N * N :=
  if had_bom && (line_idx =? 0)%nat then compute_line_hash line_idx (65279%N :: line) else compute_line_hash line_idx line.
Definition format_hashline_tag_with_bom (line_idx : nat) (line : Str) (had_bom : bool) : Str :=
  tag_text line_idx (compute_line_hash_with_bom line_idx line had_bom).

(** [^[\s>+\-]*(\d+)\s*#\s*([ZPMQVRWSNKTXJBYH]{2})]: the digits, the two
    letters and the rest.  No character starts two of its parts, so the match
    is unique. *)
Definition hashline_tag_match (s : Str) : option (Str * (N * N) * Str) :=
  let s := drop_while is_marker s in
  let digits := take_while is_decimal s in
  if is_empty digits then None
  else match drop_while is_whitespace (drop_while is_decimal s) with
       | h :: s =>
           if (h =? 35)%N then
             match drop_while is_whitespace s with
             | a :: b :: s => if is_nibble a && is_nibble b then Some (digits, (a, b), s) else None
             | _ => None
             end
           else None
       | [] => None
       end.

Definition parse_hashline_tag (ref_str : Str) : result (Z * (N * N)) RefError :=
  match hashline_tag_match ref_str with
  | None => Err (InvalidReference ref_str)
  | Some (digits, hash, _) =>
      match parse_u64 digits with
      | None => Err (InvalidLineNumber ref_str)
      | Some line_num => if line_num =? 0 then Err (LineNumberZero ref_str) else Ok (line_num, hash)
      end
  end.

Definition strip_hashline_prefix (line : Str) : Str :=
  match hashline_tag_match line with
  | Some (_, _, rest) =>
      match drop_while is_whitespace rest with
      | c :: rest' => if (c =? c_colon)%N then rest' else line
      | [] => line
      end
  | None => line
  end.

Definition get_lines (e : HashlineOp) : list Str :=
  match lines e with
  | None | Some JsonNull => []
  | Some (JsonString s) => split_nl (normalize_to_lf s)
  | Some (JsonArray arr) => (λ v, match v with JsonString s => normalize_to_lf s | other => normalize_to_lf (json_text other) end) <$> arr
  | Some other => [normalize_to_lf (json_text other)]
  end.

(** ** Validation *)

Definition validate_line_ref (ref_str : Str) (file_lines : list Str) (had_bom : bool) : result nat RefError :=
  let? p := parse_hashline_tag ref_str in
  let '(line_num, expected_hash) := p in
  if Z.of_nat (length file_lines) <=? line_num - 1 then Err (LineOutOfRange line_num (length file_lines))
  else
    let line_idx := Z.to_nat (line_num - 1) in
    let actual_hash := compute_line_hash_with_bom line_idx (nth line_idx file_lines []) had_bom in
    if decide (actual_hash = expected_hash) then Ok line_idx
    else Err (HashMismatch line_num expected_hash actual_hash).

(** The error of one reference, with the line whose surroundings are shown. *)
Definition ref_mismatch (file_lines : list Str) (had_bom : bool) (reference : option Str) : list (RefError * option nat) :=
  match reference with
  | None => []
  | Some r =>
      match validate_line_ref r file_lines had_bom with
      | Ok _ => []
      | Err e =>
          match parse_hashline_tag r with
          | Ok (line_num, _) => [(e, Some (Z.to_nat (Z.min (line_num - 1) (sat_sub (len file_lines) 1))))]
          | Err _ => [(e, None)]
          end
      end
  end.

Definition collect_mismatches (edits : list HashlineOp) (file_lines : list Str) (had_bom : bool) : list (RefError * option nat) :=
  edits ≫= λ edit, ref_mismatch file_lines had_bom (pos edit) ++ ref_mismatch file_lines had_bom (end_ edit).

(** The lines shown around a mismatch. *)
Definition mismatch_context (file_lines : list Str) (line_idx context : nat) (had_bom : bool) : Str :=
  let start := (line_idx - context)%nat in
  let end_ := Nat.min (line_idx + context + 1) (length file_lines) in
  concat (imap (λ k file_line,
    let i := (start + k)%nat in
    (if (i =? line_idx)%nat then str ">>> " else str "    ") ++
    format_hashline_tag_with_bom i file_line had_bom ++ str ":" ++ file_line ++ lf)
    (drop start (take end_ file_lines))).

(** ** Deduplication and resolution *)

Definition ref_line (reference : option Str) : option Z :=
  match reference with
  | Some r => match parse_hashline_tag r with Ok (n, _) => Some n | Err _ => None end
  | None => None
  end.

Definition edit_key (edit : HashlineOp) : NormalizedEdit :=
  mkNormalized (op edit) (ref_line (pos edit)) (ref_line (end_ edit)) (get_lines edit).

Fixpoint dedup_edits (seen : list NormalizedEdit) (edits : list HashlineOp) : list HashlineOp :=
  match edits with
  | [] => []
  | edit :: edits' =>
      let key := edit_key edit in
      if decide (key ∈ seen) then dedup_edits seen edits' else edit :: dedup_edits (key :: seen) edits'
  end.

Definition lift_ref {A} (r : result A RefError) : result A HashlineError :=
  match r with Ok a => Ok a | Err e => Err (BadReference e) end.

Definition resolve_edit (file_lines : list Str) (had_bom : bool) (edit : HashlineOp) : result ResolvedEdit HashlineError :=
  let replacement_lines := strip_hashline_prefix <$> get_lines edit in
  let empty_file := bool_decide (file_lines = [[]]) && bool_decide (pos edit = None) in
  if decide (op edit = str "replace") then
    match pos edit with
    | None => Err ReplaceNeedsPos
    | Some p =>
        let? start_idx := lift_ref (validate_line_ref p file_lines had_bom) in
        let? end_idx := match end_ edit with
                        | Some e => lift_ref (validate_line_ref e file_lines had_bom)
                        | None => Ok start_idx
                        end in
        if (end_idx <? start_idx)%nat then Err (EndBeforeStart start_idx end_idx)
        else Ok (mkResolved Replace start_idx end_idx replacement_lines)
    end
  else if decide (op edit = str "prepend") then
    let? idx := match pos edit with
                | Some p => lift_ref (validate_line_ref p file_lines had_bom)
                | None => Ok O
                end in
    let end_idx := if empty_file then O else idx in
    Ok (mkResolved (if empty_file then Replace else Prepend) idx end_idx replacement_lines)
  else if decide (op edit = str "append") then
    let? idx := match pos edit with
                | Some p => lift_ref (validate_line_ref p file_lines had_bom)
                | None => Ok (if (1 <? length file_lines)%nat && bool_decide (last file_lines = Some [])
                              then length file_lines - 2 else length file_lines - 1)%nat
                end in
    let end_idx := if empty_file then O else idx in
    Ok (mkResolved (if empty_file then Replace else Append) idx end_idx replacement_lines)
  else Err (UnknownOp (op edit)).

(** ** Order, overlaps and splices *)

(** [a] may stand before [b]: the higher line first, then by precedence. *)
Definition edit_le (a b : ResolvedEdit) : bool :=
  (re_start b <? re_start a)%nat || ((re_start b =? re_start a)%nat && (op_precedence (re_op a) <=? op_precedence (re_op b))%nat).

Fixpoint insert_edit (e : ResolvedEdit) (l : list ResolvedEdit) : list ResolvedEdit :=
  match l with
  | [] => [e]
  | x :: l' => if edit_le e x then e :: l else x :: insert_edit e l'
  end.

(** The stable [sort_by]. *)
Definition sort_edits (l : list ResolvedEdit) : list ResolvedEdit := foldr insert_edit [] l.

Definition overlap (a b : ResolvedEdit) : bool := (re_start a <=? re_end b)%nat && (re_start b <=? re_end a)%nat.

(** The first pair that overlaps. *)
Fixpoint find_overlap (l : list ResolvedEdit) : option (ResolvedEdit * ResolvedEdit) :=
  match l with
  | [] => None
  | a :: l' => match List.find (overlap a) l' with Some b => Some (a, b) | None => find_overlap l' end
  end.

(** [lines.splice(from..to, new)] *)
Definition splice (from to : nat) (new l : list Str) : list Str := take from l ++ new ++ drop to l.

Definition apply_edit (e : ResolvedEdit) (s : list Str * bool) : list Str * bool :=
  let '(ls, any_change) := s in
  match re_op e with
  | Replace =>
      let existing := take (re_end e + 1 - re_start e) (drop (re_start e) ls) in
      if decide (existing = re_lines e) then (ls, any_change)
      else (splice (re_start e) (re_end e + 1) (re_lines e) ls, true)
  | Prepend => (splice (re_start e) (re_start e) (re_lines e) ls, any_change || negb (bool_decide (re_lines e = [])))
  | Append =>
      let insert_at := (re_start e + 1)%nat in
      (splice insert_at insert_at (re_lines e) ls, any_change || negb (bool_decide (re_lines e = [])))
  end.

Definition apply_edits (resolved : list ResolvedEdit) (file_lines : list Str) : list Str * bool :=
  foldl (λ s e, apply_edit e s) (file_lines, false) resolved.

(** The lines of the edited file. *)
Definition edit_lines (edits : list HashlineOp) (file_lines : list Str) (had_bom : bool) : result (list Str) HashlineError :=
  match collect_mismatches edits file_lines had_bom with
  | (_ :: _) as errors => Err (HashValidationFailed errors)
  | [] =>
      let deduped := dedup_edits [] edits in
      let? resolved := collect_results (resolve_edit file_lines had_bom) deduped in
      let resolved := sort_edits resolved in
      match find_overlap resolved with
      | Some (a, b) => Err (OverlappingEdits (op_text (re_op a)) (re_start a) (re_end a) (op_text (re_op b)) (re_start b) (re_end b))
      | None =>
          let '(new_lines, any_change) := apply_edits resolved file_lines in
          if any_change then Ok new_lines else Err NoChangesMade
      end
  end.

(** The content of the edited file. *)
Definition hashline_edit (edits : list HashlineOp) (raw_content : Str) : result Str HashlineError :=
  let '(content_no_bom, had_bom) := strip_bom raw_content in
  let original_ending := detect_line_ending content_no_bom in
  let file_lines := split_nl (normalize_to_lf content_no_bom) in
  let? new_lines := edit_lines edits file_lines had_bom in
  Ok ((if had_bom then [65279%N] else []) ++ restore_line_endings (join_nl new_lines) original_ending).

(** ** Edits at once *)

(** The edit that touches line [i]. *)
Definition edit_at (edits : list ResolvedEdit) (i : nat) : option ResolvedEdit :=
  List.find (λ e, (re_start e <=? i)%nat && (i <=? re_end e)%nat) edits.

(** What becomes of line [i]. *)
Definition line_after (edits : list ResolvedEdit) (i : nat) (line : Str) : list Str :=
  match edit_at edits i with
  | None => [line]
  | Some e =>
      match re_op e with
      | Replace => if (i =? re_start e)%nat then re_lines e else []
      | Prepend => re_lines e ++ [line]
      | Append => line :: re_lines e
      end
  end.

Definition at_once (edits : list ResolvedEdit) (file_lines : list Str) : list Str :=
  concat (imap (line_after edits) file_lines).

(** Within the file; an insertion touches one line. *)
Definition edit_ok (n : nat) (e : ResolvedEdit) : Prop :=
  (re_start e ≤ re_end e < n)%nat ∧ (re_op e ≠ Replace → re_end e = re_start e).

Definition disjoint (a b : ResolvedEdit) : Prop := (re_end a < re_start b ∨ re_end b < re_start a)%nat.

Lemma overlap_false a b : overlap a b = false ↔ disjoint a b.
Proof. unfold overlap, disjoint. rw andb_false_iff !Nat.leb_gt. lia. Qed.

Lemma find_overlap_None l : find_overlap l = None → ForallOrdPairs disjoint l.
Proof.
  induction l as [|a l IH]; simpl; [constructor|]. destruct (List.find (overlap a) l) eqn:E; [done|]. intros H.
  constructor; [|auto]. apply Forall_forall. intros b Hb. apply overlap_false.
  apply (find_none _ _ E). by apply list_elem_of_In.
Qed.

Lemma imap_ext_lt {A B} (f g : nat → A → B) l :
  (∀ i x, (i < length l)%nat → f i x = g i x) → imap f l = imap g l.
Proof. intros H. apply imap_ext. intros i x Hx. apply H. by eapply lookup_lt_Some. Qed.

Lemma edit_at_cons_above e es i : (i < re_start e)%nat → edit_at (e :: es) i = edit_at es i.
Proof. intros H. unfold edit_at. cbn [List.find]. rw (proj2 (Nat.leb_gt _ _)) //. Qed.

Lemma edit_at_None es i : Forall (λ e, re_end e < i)%nat es → edit_at es i = None.
Proof.
  intros H. unfold edit_at. induction H as [|e es He _ IH]; [done|]. cbn [List.find].
  rw (proj2 (Nat.leb_gt i (re_end e))) // andb_false_r //.
Qed.

Lemma edit_at_here e es i : (re_start e ≤ i ≤ re_end e)%nat → edit_at (e :: es) i = Some e.
Proof. intros [H1 H2]. unfold edit_at. cbn [List.find]. rw (proj2 (Nat.leb_le _ _)) // (proj2 (Nat.leb_le _ _)) //. Qed.

(** The lines that an edit makes of those it touches. *)
Definition edited_block (e : ResolvedEdit) (block : list Str) : list Str :=
  match re_op e with
  | Replace => re_lines e
  | Prepend => re_lines e ++ block
  | Append => block ++ re_lines e
  end.

Lemma concat_imap_singleton (f : nat → Str → list Str) l : (∀ i x, (i < length l)%nat → f i x = [x]) → concat (imap f l) = l.
Proof.
  intros H. rw (imap_ext_lt _ (λ _ x, [x])) //. clear H. induction l as [|x l IH]; [done|].
  rw imap_cons. simpl. f_equal. exact IH.
Qed.

Lemma at_once_split es a b :
  at_once es (a ++ b) = at_once es a ++ concat (imap (λ i, line_after es (length a + i)) b).
Proof. unfold at_once. rw imap_app concat_app. done. Qed.

(** The highest edit, on the block [b] of lines between [a] and [r]. *)
Lemma at_once_cons e es a b r : length a = re_start e → (re_start e ≤ re_end e)%nat → length b = (re_end e + 1 - re_start e)%nat →
  (re_op e ≠ Replace → re_end e = re_start e) → Forall (λ x, re_end x < re_start e)%nat es →
  at_once (e :: es) (a ++ b ++ r) = at_once es a ++ edited_block e b ++ r.
Proof.
  intros Ha Hse Hb Hop Hes. rw at_once_split. f_equal.
  { unfold at_once. f_equal. apply imap_ext_lt. intros i x Hi. unfold line_after. rw edit_at_cons_above //. lia. }
  rw imap_app concat_app. f_equal.
  - rw (imap_ext_lt _ (λ i x, match re_op e with
      | Replace => if (i =? 0)%nat then re_lines e else [] | Prepend => re_lines e ++ [x] | Append => x :: re_lines e end)); last first.
    { intros i x Hi. unfold line_after. rw edit_at_here; [|lia]. destruct (re_op e); [|done..].
      destruct (Nat.eqb_spec (length a + i) (re_start e)), (Nat.eqb_spec i 0); (done || lia). }
    unfold edited_block. destruct b as [|x b]; [simpl in Hb; lia|]. destruct (re_op e) eqn:Eo.
    + rw imap_cons /=. assert (∀ (l : list Str), concat (imap ((λ i (_ : Str), if (i =? 0)%nat then re_lines e else []) ∘ S) l) = []) as ->.
      { intros l. induction l; [done|]. rw imap_cons /=. done. }
      by rw app_nil_r.
    + destruct b; [|specialize (Hop ltac:(done)); simpl in Hb; lia]. simpl. by rw app_nil_r.
    + destruct b; [|specialize (Hop ltac:(done)); simpl in Hb; lia]. simpl. by rw app_nil_r.
  - apply concat_imap_singleton. intros i x Hi. unfold line_after. rw edit_at_None //. constructor; [simpl; lia|].
    eapply Forall_impl; [exact Hes|]. simpl. lia.
Qed.

Lemma apply_edit_block e a b r ch : length a = re_start e → length b = (re_end e + 1 - re_start e)%nat → (re_start e ≤ re_end e)%nat →
  (re_op e ≠ Replace → re_end e = re_start e) → (apply_edit e (a ++ b ++ r, ch)).1 = a ++ edited_block e b ++ r.
Proof.
  intros Ha Hb Hse Hop. unfold apply_edit, edited_block, splice. destruct (re_op e).
  - rw -Ha drop_app_length Ha -Hb take_app_length. destruct (decide (b = re_lines e)) as [<-|_]; [done|]. cbn [fst].
    rw take_app_le; [|lia]. rw -{1}Ha firstn_all (app_assoc a b).
    replace (re_end e + 1)%nat with (length (a ++ b)) by (rw length_app; lia). rw drop_app_length //.
  - cbn [fst]. rw -Ha take_app_length drop_app_length -app_assoc //.
  - cbn [fst]. specialize (Hop ltac:(done)). replace (re_start e + 1)%nat with (length (a ++ b)) by (rw length_app; lia).
    rw (app_assoc a b) take_app_length drop_app_length -!app_assoc //.
Qed.

(** Each edit ends above the next. *)
Definition descending (a b : ResolvedEdit) : Prop := (re_end b < re_start a)%nat.

Lemma apply_edits_below es orig rest ch : ForallOrdPairs descending es → Forall (edit_ok (length orig)) es →
  (foldl (λ s e, apply_edit e s) (orig ++ rest, ch) es).1 = at_once es orig ++ rest.
Proof.
  intros Hd. revert orig rest ch. induction Hd as [|e es He Hd IH]; intros orig rest ch Hok.
  { simpl. f_equal. symmetry. apply concat_imap_singleton. done. }
  apply Forall_cons in Hok as [[[Hse Hlt] Hop] Hok]. cbn [foldl].
  set (a := take (re_start e) orig). set (b := take (re_end e + 1 - re_start e) (drop (re_start e) orig)).
  set (r := drop (re_end e + 1) orig).
  assert (orig = a ++ b ++ r) as Eo.
  { unfold a, b, r. rw -{1}(take_drop (re_start e) orig). f_equal. rw -{1}(take_drop (re_end e + 1 - re_start e) (drop (re_start e) orig)).
    f_equal. rw drop_drop. f_equal. lia. }
  assert (length a = re_start e) as Ha by (unfold a; rw length_take; lia).
  assert (length b = (re_end e + 1 - re_start e)%nat) as Hb by (unfold b; rw length_take length_drop; lia).
  pose proof (apply_edit_block e a b (r ++ rest) ch Ha Hb Hse Hop) as E. rw {1}Eo -!app_assoc.
  destruct (apply_edit e (a ++ b ++ r ++ rest, ch)) as [ls ch']. cbn [fst] in E. rw E IH.
  - rw Eo at_once_cons // -!app_assoc //.
  - rw Ha. rewrite ->!Forall_forall in Hok, He |- *. intros x Hx. specialize (Hok x Hx) as [[? _] ?]. specialize (He x Hx).
    unfold descending in He. split; [lia|done].
Qed.

(** ** The order of the edits does not matter *)

Lemma edit_at_spec es i :
  match edit_at es i with
  | Some e => e ∈ es ∧ (re_start e ≤ i ≤ re_end e)%nat
  | None => ∀ e, e ∈ es → ¬ (re_start e ≤ i ≤ re_end e)%nat
  end.
Proof.
  unfold edit_at. destruct (List.find _ es) as [e|] eqn:E.
  - apply find_some in E as [He H]. apply andb_true_iff in H as [H1%Nat.leb_le H2%Nat.leb_le]. by apply list_elem_of_In in He.
  - intros e He. apply list_elem_of_In in He. pose proof (find_none _ _ E e He) as H. cbn beta in H.
    apply andb_false_iff in H as [H%Nat.leb_gt|H%Nat.leb_gt]; lia.
Qed.

Lemma disjoint_sym a b : disjoint a b → disjoint b a.
Proof. unfold disjoint. lia. Qed.

Lemma at_once_permutation es es' ls : Permutation es es' → ForallOrdPairs disjoint es → at_once es ls = at_once es' ls.
Proof.
  intros Hp Hd. unfold at_once. f_equal. apply imap_ext. intros i x _. unfold line_after.
  assert (edit_at es i = edit_at es' i) as ->; [|done].
  pose proof (edit_at_spec es i) as H1. pose proof (edit_at_spec es' i) as H2.
  destruct (edit_at es i) as [e|], (edit_at es' i) as [e'|]; [| | |done].
  - destruct H1 as [He Ht], H2 as [He' Ht']. rewrite <-Hp in He'.
    destruct (ForallOrdPairs_In Hd e e') as [->|[Hx|Hx]]; try (by apply list_elem_of_In); [done|..]; unfold disjoint in Hx; lia.
  - destruct H1 as [He Ht]. destruct (H2 e); [by rewrite <-Hp|done].
  - destruct H2 as [He Ht]. destruct (H1 e'); [by rewrite ->Hp|done].
Qed.

Lemma disjoint_permutation es es' : Permutation es es' → ForallOrdPairs disjoint es → ForallOrdPairs disjoint es'.
Proof.
  induction 1 as [|x l l' Hp IH|x y l|l1 l2 l3 H1 IH1 H2 IH2]; intros Hd; [done| | |auto].
  - inversion Hd as [|? ? Hx Hl]; subst. constructor; [|auto]. by rewrite <-Hp.
  - inversion Hd as [|? ? Hy Hl]; subst. inversion Hl as [|? ? Hx Hl']; subst.
    apply Forall_cons in Hy as [Hyx Hy]. constructor; [|by constructor]. constructor; [by apply disjoint_sym|done].
Qed.

Lemma insert_edit_perm e l : Permutation (insert_edit e l) (e :: l).
Proof. induction l as [|x l IH]; simpl; [done|]. case_match; [done|]. rw IH. apply Permutation_swap. Qed.

Lemma sort_edits_perm l : Permutation (sort_edits l) l.
Proof. induction l as [|e l IH]; simpl; [done|]. rw insert_edit_perm. by constructor. Qed.

Lemma edit_le_start a b : if edit_le a b then (re_start b ≤ re_start a)%nat else (re_start a ≤ re_start b)%nat.
Proof.
  unfold edit_le. destruct (Nat.ltb_spec (re_start b) (re_start a)); simpl; [lia|].
  destruct (Nat.eqb_spec (re_start b) (re_start a)); simpl; [|lia]. case_match; lia.
Qed.

Lemma sort_edits_sorted l : ForallOrdPairs (λ a b, re_start b ≤ re_start a)%nat (sort_edits l).
Proof.
  induction l as [|e l IH]; simpl; [constructor|]. induction IH as [|x l' Hx Hl IH]; simpl; [repeat constructor|].
  pose proof (edit_le_start e x) as H. destruct (edit_le e x).
  - constructor; [|by constructor]. constructor; [done|]. eapply Forall_impl; [exact Hx|]. simpl. lia.
  - constructor; [|done]. rw insert_edit_perm. by constructor.
Qed.

Lemma sorted_descending l n : Forall (edit_ok n) l → ForallOrdPairs (λ a b, re_start b ≤ re_start a)%nat l →
  ForallOrdPairs disjoint l → ForallOrdPairs descending l.
Proof.
  intros Hok Hs. induction Hs as [|a l Ha Hs IH]; intros Hd; [constructor|]. inversion Hd as [|? ? Hda Hd']; subst.
  apply Forall_cons in Hok as [Hoa Hok]. constructor; [|auto]. rewrite ->!Forall_forall in *. intros b Hb.
  specialize (Ha b Hb). specialize (Hda b Hb) as [H|H]; unfold descending; [|done]. destruct Hoa, (Hok b Hb). lia.
Qed.

Lemma find_overlap_Some l a b : find_overlap l = Some (a, b) → ¬ ForallOrdPairs disjoint l.
Proof.
  induction l as [|x l IH]; simpl; [done|]. intros H Hd. inversion Hd as [|? ? Hx Hl]; subst.
  destruct (List.find (overlap x) l) as [y|] eqn:E; [|by apply IH].
  apply find_some in E as [Hy E]. rewrite ->Forall_forall in Hx. specialize (Hx y ltac:(by apply list_elem_of_In)).
  apply overlap_false in Hx. congruence.
Qed.

(** The sorted edits, applied from the last line up, do what all do at once. *)
Lemma apply_sorted resolved file_lines : Forall (edit_ok (length file_lines)) resolved → ForallOrdPairs disjoint resolved →
  (apply_edits (sort_edits resolved) file_lines).1 = at_once resolved file_lines.
Proof.
  intros Hok Hd. pose proof (sort_edits_perm resolved) as Hp.
  assert (Forall (edit_ok (length file_lines)) (sort_edits resolved)) as Hok' by by rewrite ->Hp.
  pose proof (disjoint_permutation _ _ (symmetry Hp) Hd) as Hd'.
  pose proof (apply_edits_below (sort_edits resolved) file_lines [] false) as H. rewrite ->!app_nil_r in H. unfold apply_edits.
  rw H //; [by apply at_once_permutation|]. eapply sorted_descending; [done|apply sort_edits_sorted|done].
Qed.

Lemma no_change_same es s : (foldl (λ s e, apply_edit e s) s es).2 = false → (foldl (λ s e, apply_edit e s) s es).1 = s.1 ∧ s.2 = false.
Proof.
  revert s. induction es as [|e es IH]; intros [ls ch] H; cbn [foldl] in *; [done|]. destruct (IH _ H) as [-> H2]. clear IH H.
  unfold apply_edit, splice in *. destruct (re_op e); [case_decide; [done|done]|..];
    (apply orb_false_iff in H2 as [-> Hn]; apply negb_false_iff, bool_decide_eq_true_1 in Hn; rw Hn; cbn; by rw take_drop).
Qed.

(** ** Resolution *)

Lemma parse_digits_nonneg acc s n : 0 ≤ acc → parse_digits acc s = Some n → 0 ≤ n.
Proof.
  revert acc. induction s as [|c s IH]; intros acc Ha; simpl; [intros [= <-]; done|]. unfold digit_value.
  destruct (_ && _) eqn:E; [|done]. apply andb_true_iff in E as [E _]. apply N.leb_le in E. case_match; [|done]. apply IH. lia.
Qed.

Lemma parse_u64_nonneg s n : parse_u64 s = Some n → 0 ≤ n.
Proof. unfold parse_u64. repeat case_match; try done; by apply parse_digits_nonneg. Qed.

Lemma validated_line r file_lines had_bom i : validate_line_ref r file_lines had_bom = Ok i →
  (i < length file_lines)%nat ∧ ∃ line, file_lines !! i = Some line ∧
  parse_hashline_tag r = Ok (Z.of_nat i + 1, compute_line_hash_with_bom i line had_bom).
Proof.
  unfold validate_line_ref. destruct (parse_hashline_tag r) as [[n h]|e] eqn:E; [|done]. cbn [result_bind].
  assert (1 ≤ n) as Hn.
  { unfold parse_hashline_tag in E. destruct (hashline_tag_match r) as [[[ds h'] rest]|]; [|done].
    destruct (parse_u64 ds) as [m|] eqn:Ep; [|done]. destruct (Z.eqb_spec m 0); [done|]. injection E as -> ->.
    pose proof (parse_u64_nonneg ds n Ep). lia. }
  destruct (Z.leb_spec (Z.of_nat (length file_lines)) (n - 1)); [done|]. case_decide as Hh; [|done]. intros [= <-].
  split; [lia|]. exists (nth (Z.to_nat (n - 1)) file_lines []). split.
  - rw nth_lookup. destruct (lookup_lt_is_Some_2 file_lines (Z.to_nat (n - 1))) as [x ->]; [lia|done].
  - rw Hh. do 3 f_equal. lia.
Qed.

Lemma resolve_ok file_lines had_bom e r : file_lines ≠ [] → resolve_edit file_lines had_bom e = Ok r → edit_ok (length file_lines) r.
Proof.
  intros Hne. assert (0 < length file_lines)%nat as Hpos by (destruct file_lines; [done|simpl; lia]).
  assert (∀ p i, lift_ref (validate_line_ref p file_lines had_bom) = Ok i → (i < length file_lines)%nat) as Hv.
  { intros p i. unfold lift_ref. destruct (validate_line_ref _ _ _) eqn:E; [|done]. intros [= <-]. by apply validated_line in E as [? _]. }
  unfold resolve_edit, edit_ok. case_decide; [|case_decide; [|case_decide; [|done]]].
  - destruct (pos e) as [p|]; [|done]. destruct (lift_ref _) as [s|] eqn:Es; [|done]. apply Hv in Es. cbn [result_bind].
    destruct (end_ e) as [q|].
    + destruct (lift_ref (validate_line_ref q _ _)) as [t|] eqn:Et; [|done]. apply Hv in Et. cbn [result_bind].
      destruct (Nat.ltb_spec t s); [done|]. intros [= <-]. simpl. split; [lia|done].
    + cbn [result_bind]. destruct (Nat.ltb_spec s s); [lia|]. intros [= <-]. simpl. split; [lia|done].
  - destruct (pos e) as [p|].
    + destruct (lift_ref _) as [s|] eqn:Es; [|done]. apply Hv in Es. cbn [result_bind]. intros [= <-].
      rw andb_false_r. simpl. split; [lia|done].
    + cbn [result_bind]. intros [= <-]. simpl. case_match; simpl; split; (lia || done).
  - destruct (pos e) as [p|].
    + destruct (lift_ref _) as [s|] eqn:Es; [|done]. apply Hv in Es. cbn [result_bind]. intros [= <-].
      rw andb_false_r. simpl. split; [lia|done].
    + cbn [result_bind]. intros [= <-]. simpl. rw andb_true_r. destruct (bool_decide (file_lines = [[]])) eqn:Eb.
      * apply bool_decide_eq_true_1 in Eb as ->. simpl. split; [lia|done].
      * simpl. split; [|done]. case_match; lia.
Qed.

Lemma collect_mismatches_nil edits file_lines had_bom : collect_mismatches edits file_lines had_bom = [] →
  ∀ e r, e ∈ edits → pos e = Some r ∨ end_ e = Some r → ∃ i, validate_line_ref r file_lines had_bom = Ok i.
Proof.
  assert (∀ o r, ref_mismatch file_lines had_bom o = [] → o = Some r → ∃ i, validate_line_ref r file_lines had_bom = Ok i) as Hr.
  { intros o r H ->. simpl in H. destruct (validate_line_ref r file_lines had_bom); [eauto|]. by repeat case_match. }
  unfold collect_mismatches. induction edits as [|e edits IH]; intros H e' r He Hp; [by apply not_elem_of_nil in He|].
  cbn [mbind list_bind] in H. apply app_nil in H as [[H1 H2]%app_nil H3].
  apply elem_of_cons in He as [->|He]; [|by eapply IH]. destruct Hp; eauto.
Qed.

Lemma resolve_error file_lines had_bom edit e : resolve_edit file_lines had_bom edit = Err e →
  match e with HashValidationFailed _ | OverlappingEdits _ _ _ _ _ _ | NoChangesMade => False | _ => True end.
Proof.
  assert (∀ {A} (r : result A RefError) (e : HashlineError), lift_ref r = Err e → ∃ x, e = BadReference x) as Hl.
  { intros A [a|x] e'; simpl; [done|]. intros [= <-]. eauto. }
  unfold resolve_edit. case_decide; [|case_decide; [|case_decide; [|by intros [= <-]]]].
  - destruct (pos edit) as [p|]; [|by intros [= <-]].
    destruct (lift_ref _) eqn:E; cbn [result_bind]; [|intros [= <-]; by apply Hl in E as [x ->]].
    destruct (end_ edit) as [q|]; [destruct (lift_ref (validate_line_ref q _ _)) eqn:E2; cbn [result_bind]; [|intros [= <-]; by apply Hl in E2 as [x ->]]|cbn [result_bind]];
      (case_match; by intros [= <-]).
  - destruct (pos edit) as [p|]; [|done]. destruct (lift_ref _) eqn:E; cbn [result_bind]; [done|intros [= <-]; by apply Hl in E as [x ->]].
  - destruct (pos edit) as [p|]; [|done]. destruct (lift_ref _) eqn:E; cbn [result_bind]; [done|intros [= <-]; by apply Hl in E as [x ->]].
Qed.

(** C25: the edits of a call apply at once.  When a call succeeds, every tag it
    names is that of a line of the file as it is now, each edit resolves to a
    block of lines, the blocks are disjoint, and the new file is the old one
    with each block replaced, or with lines inserted before or after it,
    whatever the order of the edits: no edit shifts the lines of another.  Line
    endings are those of the file's first line and the byte-order mark stays.
    A call fails exactly for a tag that does not validate, an edit that does
    not resolve, blocks that overlap, or edits that change nothing. *)
Theorem hashline_edits_apply_at_once edits raw :
  let content := (strip_bom raw).1 in
  let had_bom := (strip_bom raw).2 in
  let file_lines := split_nl (normalize_to_lf content) in
  let resolves := Forall2 (λ e r, resolve_edit file_lines had_bom e = Ok r) (dedup_edits [] edits) in
  match hashline_edit edits raw with
  | Ok new_file => ∃ resolved, resolves resolved ∧ ForallOrdPairs disjoint resolved ∧
      Forall (edit_ok (length file_lines)) resolved ∧
      new_file = (if had_bom then [65279%N] else []) ++
        restore_line_endings (join_nl (at_once resolved file_lines)) (detect_line_ending content) ∧
      ∀ e r, e ∈ edits → pos e = Some r ∨ end_ e = Some r → ∃ i line, file_lines !! i = Some line ∧
        parse_hashline_tag r = Ok (Z.of_nat i + 1, compute_line_hash_with_bom i line had_bom)
  | Err (HashValidationFailed errors) => errors = collect_mismatches edits file_lines had_bom ∧ errors ≠ []
  | Err (OverlappingEdits _ _ _ _ _ _) => ∃ resolved, resolves resolved ∧ ¬ ForallOrdPairs disjoint resolved
  | Err NoChangesMade => ∃ resolved, resolves resolved ∧ at_once resolved file_lines = file_lines
  | Err e => ∃ edit, edit ∈ dedup_edits [] edits ∧ resolve_edit file_lines had_bom edit = Err e
  end.
Proof.
  cbv zeta. unfold hashline_edit. destruct (strip_bom raw) as [content had_bom]. cbn [fst snd].
  set (file_lines := split_nl (normalize_to_lf content)).
  assert (file_lines ≠ []) as Hne by (destruct (split_nl_cons (normalize_to_lf content)) as (l & ls & E); unfold file_lines; by rw E).
  unfold edit_lines. destruct (collect_mismatches edits file_lines had_bom) as [|x xs] eqn:Em; [|by split].
  pose proof (collect_results_spec (resolve_edit file_lines had_bom) (dedup_edits [] edits)) as Hr.
  destruct (collect_results _ _) as [resolved|e]; cbn [result_bind];
    [|destruct Hr as (x & Hx & Ex); pose proof (resolve_error _ _ _ _ Ex); destruct e; by eauto].
  assert (Forall (edit_ok (length file_lines)) resolved) as Hok.
  { apply Forall_forall. intros r Hrin. apply list_elem_of_lookup in Hrin as [k Hk].
    destruct (Forall2_lookup_r _ _ _ _ _ Hr Hk) as (e & _ & He). by eapply resolve_ok. }
  destruct (find_overlap (sort_edits resolved)) as [[a b]|] eqn:Eo; cbn [result_bind].
  { exists resolved. split; [done|]. intros Hd. apply find_overlap_Some in Eo. apply Eo.
    by eapply disjoint_permutation; [symmetry; apply sort_edits_perm|]. }
  assert (ForallOrdPairs disjoint resolved) as Hd.
  { eapply disjoint_permutation; [apply sort_edits_perm|by apply find_overlap_None]. }
  pose proof (apply_sorted resolved file_lines Hok Hd) as Ha. unfold apply_edits in *.
  destruct (foldl _ _ _) as [new_lines any_change] eqn:Ef. cbn [fst] in Ha. subst new_lines.
  destruct any_change; cbn [result_bind].
  - exists resolved. split_and!; try done. intros e r He Hp.
    destruct (collect_mismatches_nil _ _ _ Em e r He Hp) as [i Hi]. apply validated_line in Hi as (_ & line & Hl & Hp'). eauto.
  - exists resolved. split; [done|]. pose proof (no_change_same (sort_edits resolved) (file_lines, false)) as Hn.
    rewrite ->Ef in Hn. by destruct (Hn eq_refl).
Qed.

(** ** Tags *)

Section Tags.

(** ASCII digits are decimal digits and the hash sign is not one. *)
Hypothesis is_decimal_ascii : ∀ c, (48 <= c <= 57)%N → is_decimal c = true.
Hypothesis is_decimal_hash : is_decimal 35%N = false.

Lemma show_digits_ascii fuel n : 0 ≤ n → Forall (λ c, 48 <= c <= 57)%N (show_digits fuel n).
Proof.
  revert n. induction fuel as [|f IH]; intros n Hn; cbn [show_digits]; [constructor|].
  pose proof (Z.mod_pos_bound n 10 ltac:(lia)). apply Forall_app. split; [|constructor; [lia|constructor]].
  case_match; [constructor|]. apply IH. apply Z.div_pos; lia.
Qed.

Lemma show_u64_nonempty n : show_u64 n ≠ [].
Proof. unfold show_u64. cbn [show_digits]. intros H. by apply app_nil in H as [_ ?]. Qed.

Lemma digit_not_marker c : (48 <= c <= 57)%N → is_marker c = false.
Proof.
  intros H. assert (c ∈ [48; 49; 50; 51; 52; 53; 54; 55; 56; 57]%N) as Hc.
  { rewrite ->!elem_of_cons. lia. }
  assert (forallb (λ c, negb (is_marker c)) [48; 49; 50; 51; 52; 53; 54; 55; 56; 57]%N = true) as Hf by done.
  rewrite ->forallb_forall in Hf. apply negb_true_iff, Hf. by apply list_elem_of_In.
Qed.

Lemma take_while_app (f : N → bool) s t : Forall (λ c, f c = true) s → take_while f (s ++ t) = s ++ take_while f t.
Proof. induction 1 as [|c s Hc _ IH]; [done|]. simpl. by rw Hc IH. Qed.
Lemma drop_while_app (f : N → bool) s t : Forall (λ c, f c = true) s → drop_while f (s ++ t) = drop_while f t.
Proof. induction 1 as [|c s Hc _ IH]; [done|]. simpl. by rw Hc IH. Qed.

Lemma match_tag i line had_bom rest :
  hashline_tag_match (format_hashline_tag_with_bom i line had_bom ++ rest) =
  Some (show_u64 (Z.of_nat i + 1), compute_line_hash_with_bom i line had_bom, rest).
Proof.
  unfold format_hashline_tag_with_bom, tag_text. set (h := compute_line_hash_with_bom _ _ _).
  assert (is_nibble h.1 = true ∧ is_whitespace h.1 = false ∧ is_nibble h.2 = true) as (H1 & H1' & H2).
  { unfold h, compute_line_hash_with_bom, compute_line_hash, hashline_dict. case_match; cbn [fst snd];
      split_and!; apply nibble_is_nibble. }
  pose proof (show_digits_ascii 20 (Z.of_nat i + 1) ltac:(lia)) as Ha. fold (show_u64 (Z.of_nat i + 1)) in Ha.
  pose proof (show_u64_nonempty (Z.of_nat i + 1)) as Hne. set (ds := show_u64 (Z.of_nat i + 1)) in *.
  clearbody ds h. rw -!app_assoc. unfold hashline_tag_match.
  assert (∀ t, drop_while is_marker (ds ++ t) = ds ++ t) as ->.
  { intros t. destruct ds as [|c ds]; [done|]. simpl. apply Forall_cons in Ha as [Hc _]. by rw digit_not_marker. }
  assert (Forall (λ c, is_decimal c = true) ds) as Hd by (eapply Forall_impl; [exact Ha|exact is_decimal_ascii]).
  rw take_while_app // drop_while_app //. simpl. rw is_decimal_hash app_nil_r.
  destruct ds as [|c ds]; [done|]. cbn [is_empty]. simpl. rw H1' H1 H2. by destruct h.
Qed.

(** C26: a tag names its line.  The tag shown for a line parses to the line's
    number and hash and validates against any file that has the line there;
    a line copied with its tag and a colon is put back without them. *)
Theorem tags_name_their_lines file_lines i line had_bom : file_lines !! i = Some line → Z.of_nat i < u64_max →
  let tag := format_hashline_tag_with_bom i line had_bom in
  parse_hashline_tag tag = Ok (Z.of_nat i + 1, compute_line_hash_with_bom i line had_bom) ∧
  validate_line_ref tag file_lines had_bom = Ok i ∧
  ∀ text, strip_hashline_prefix (tag ++ str ":" ++ text) = text.
Proof.
  intros Hl Hi tag. assert (parse_hashline_tag tag = Ok (Z.of_nat i + 1, compute_line_hash_with_bom i line had_bom)) as Hp.
  { unfold parse_hashline_tag. pose proof (match_tag i line had_bom []) as E. rewrite ->app_nil_r in E. fold tag in E. rw E.
    rw parse_show; [|unfold in_u64; lia]. rw (proj2 (Z.eqb_neq _ _)) //. lia. }
  split_and!; [done| |].
  - unfold validate_line_ref. rw Hp. cbn [result_bind]. apply lookup_lt_Some in Hl as Hlt. rw (proj2 (Z.leb_gt _ _)); [|lia].
    replace (Z.to_nat (Z.of_nat i + 1 - 1)) with i by lia. rw nth_lookup Hl /= decide_True //.
  - intros text. unfold strip_hashline_prefix. unfold tag. rw match_tag. done.
Qed.
End Tags.
End Hashline.

(** A hash for the witnesses: the sum of the bytes and the seed. *)
Definition sum_hash (bytes : ByteStr) (seed : Z) : Z := foldr (λ b a, Z.of_N b + a) seed bytes.
Definition ascii_digit (c : N) : bool := (48 <=? c)%N && (c <=? 57)%N.

Lemma tags_name_their_lines_witness :
  let tag := format_hashline_tag_with_bom sum_hash ascii_digit 1 (str "let x = 1;") false in
  tag = str "2#WW" ∧
  validate_line_ref sum_hash ascii_digit ascii_digit tag [str "{"; str "let x = 1;"; str "}"] false = Ok 1%nat.
Proof.
  intros tag. split; [vm_compute; reflexivity|].
  refine (proj1 (proj2 (tags_name_their_lines sum_hash ascii_digit ascii_digit _ _ [str "{"; str "let x = 1;"; str "}"] 1 (str "let x = 1;") false _ _))).
  - intros c [H1 H2]. unfold ascii_digit. apply andb_true_iff. split; apply N.leb_le; assumption.
  - reflexivity.
  - reflexivity.
  - reflexivity.
Defined.

(** The line endings of a file with both kinds all become those of its first
    line, on lines no edit names too. *)
Example mixed_endings_are_rewritten :
  hashline_edit sum_hash ascii_digit ascii_digit (λ _, []) [mkHashlineOp (str "replace") (Some (format_hashline_tag sum_hash ascii_digit 0 (str "a"))) None (Some (JsonString (str "x")))]
    (str "a" ++ crlf ++ str "b" ++ lf ++ str "c") = Ok (str "x" ++ crlf ++ str "b" ++ crlf ++ str "c").
Proof. vm_compute. reflexivity. Qed.

(** Two insertions at one line overlap, for all the precedence of their kinds. *)
Example insertions_at_one_line_overlap :
  let tag := format_hashline_tag sum_hash ascii_digit 0 (str "a") in
  hashline_edit sum_hash ascii_digit ascii_digit (λ _, [])
    [mkHashlineOp (str "prepend") (Some tag) None (Some (JsonString (str "x"))); mkHashlineOp (str "append") (Some tag) None (Some (JsonString (str "y")))]
    (str "a") = Err (OverlappingEdits (str "append") 0 0 (str "prepend") 0 0).
Proof. vm_compute. reflexivity. Qed.

(** Three edits given out of order. *)
Example three_edits :
  let tag i s := Some (format_hashline_tag sum_hash ascii_digit i (str s)) in
  hashline_edit sum_hash ascii_digit ascii_digit (λ _, [])
    [mkHashlineOp (str "append") (tag 0%nat "a") None (Some (JsonString (str "a2")));
     mkHashlineOp (str "replace") (tag 3%nat "d") None None;
     mkHashlineOp (str "replace") (tag 1%nat "b") (tag 2%nat "c") (Some (JsonArray [JsonString (str "2#TQ:x")]))]
    (str "a" ++ lf ++ str "b" ++ lf ++ str "c" ++ lf ++ str "d" ++ lf) = Ok (str "a" ++ lf ++ str "a2" ++ lf ++ str "x" ++ lf).
Proof. vm_compute. reflexivity. Qed.
