(* ===== verification/ReadTool.v ===== *)
(** * Reading a text file ([src/tools.rs])

    [ReadTool::execute] for text files, from the chunks the file is read in to
    the text shown: line endings are normalised chunk by chunk, the lines asked
    for are collected and numbered, and a notice says how to go on. *)

From S2P Require Import Prelude Text Utf8 Utf8Bytes EditText Truncation HashlineEdit.

Definition DEFAULT_MAX_LINES : Z := 2000.
Definition DEFAULT_MAX_BYTES : Z := 1000000.
Definition max_bytes_nat : nat := Z.to_nat DEFAULT_MAX_BYTES.

(** ** Line endings, chunk by chunk *)

(** The loop over a chunk: the bytes, and whether it ends in a carriage return
    whose line feed may come with the next chunk. *)
Fixpoint lf_chunk (chunk : ByteStr) : ByteStr * bool :=
  match chunk with
  | [] => ([], false)
  | byte :: rest =>
      if (byte =? c_cr)%N then
        match rest with
        | next :: rest' =>
            if (next =? c_nl)%N then let '(o, p) := lf_chunk rest' in (c_nl :: o, p)
            else let '(o, p) := lf_chunk rest in (c_nl :: o, p)
        | [] => ([], true)
        end
      else let '(o, p) := lf_chunk rest in (byte :: o, p)
  end.

Definition normalize_line_endings_chunk (chunk : ByteStr) (pending_cr : bool) : ByteStr * bool :=
  if negb pending_cr && negb (has_char c_cr chunk) then (chunk, pending_cr)
  else if pending_cr then
    let rest := match chunk with b :: r => if (b =? c_nl)%N then r else chunk | [] => [] end in
    let '(o, p) := lf_chunk rest in (c_nl :: o, p)
  else lf_chunk chunk.

(** ** Collecting the lines asked for *)

Section Window.
Context (start_line_idx end_line_idx : Z).

(** [if raw_content.len() < MAX { extend with what still fits }] *)
Definition collect_bytes (raw_content bytes : ByteStr) : ByteStr :=
  if len raw_content <? DEFAULT_MAX_BYTES
  then raw_content ++ take (Z.to_nat (Z.min (len bytes) (DEFAULT_MAX_BYTES - len raw_content))) bytes
  else raw_content.

Record Scan := mkScan {
  sc_raw : ByteStr;
  sc_newlines_seen : Z;
  sc_collecting : bool;
  sc_cursor : nat;
}.

Fixpoint nl_positions (k : nat) (chunk : ByteStr) : list nat :=
  match chunk with
  | [] => []
  | b :: rest => (if (b =? c_nl)%N then [k] else []) ++ nl_positions (S k) rest
  end.

Definition slice (from to : nat) (chunk : ByteStr) : ByteStr := take (to - from) (drop from chunk).

(** The body of the loop over the line feeds of a chunk. *)
Definition at_newline (chunk : ByteStr) (s : Scan) (p : nat) : Scan :=
  let s :=
    if sc_collecting s && (sc_newlines_seen s + 1 =? end_line_idx)
    then mkScan (collect_bytes (sc_raw s) (slice (sc_cursor s) (p + 1) chunk)) (sc_newlines_seen s) false (p + 1)
    else s in
  let newlines_seen := sc_newlines_seen s + 1 in
  if negb (sc_collecting s) && (newlines_seen =? start_line_idx)
  then mkScan (sc_raw s) newlines_seen true (p + 1)
  else mkScan (sc_raw s) newlines_seen (sc_collecting s) (sc_cursor s).

Definition scan_chunk (chunk raw_content : ByteStr) (newlines_seen : Z) (collecting : bool) : ByteStr * Z * bool :=
  let s := foldl (at_newline chunk) (mkScan raw_content newlines_seen collecting O) (nl_positions O chunk) in
  (if sc_collecting s && (sc_cursor s <? length chunk)%nat
   then collect_bytes (sc_raw s) (drop (sc_cursor s) chunk) else sc_raw s,
   sc_newlines_seen s, sc_collecting s).

Record ReadState := mkReadState {
  rs_raw_content : ByteStr;
  rs_newlines_seen : Z;
  rs_collecting : bool;
  rs_last_byte_was_newline : bool;
  rs_pending_cr : bool;
  rs_total_bytes_read : Z;
}.

Definition read_start : ReadState := mkReadState [] 0 (start_line_idx =? 0) false false 0.

(** One turn of the reading loop, for the bytes a read returned. *)
Definition read_chunk (s : ReadState) (bytes : ByteStr) : ReadState :=
  let total := sat_add u64_max (rs_total_bytes_read s) (len bytes) in
  let '(chunk, pending_cr) := normalize_line_endings_chunk bytes (rs_pending_cr s) in
  if is_empty chunk
  then mkReadState (rs_raw_content s) (rs_newlines_seen s) (rs_collecting s) (rs_last_byte_was_newline s) pending_cr total
  else
    let '(raw, seen, collecting) := scan_chunk chunk (rs_raw_content s) (rs_newlines_seen s) (rs_collecting s) in
    mkReadState raw seen collecting (ends_with_nl chunk) pending_cr total.

(** After the last read: the collected bytes and the number of lines. *)
Definition read_end (s : ReadState) : ByteStr * Z :=
  let '(raw, seen, last_nl) :=
    if rs_pending_cr s then
      (if rs_collecting s && (len (rs_raw_content s) <? DEFAULT_MAX_BYTES) then rs_raw_content s ++ [c_nl] else rs_raw_content s,
       rs_newlines_seen s + 1, true)
    else (rs_raw_content s, rs_newlines_seen s, rs_last_byte_was_newline s) in
  (raw, if rs_total_bytes_read s =? 0 then 0 else if last_nl then seen else seen + 1).

(** The reads of the file, each of some bytes until one returns none. *)
Definition read_file (reads : list ByteStr) : ByteStr * Z := read_end (foldl read_chunk read_start reads).
End Window.

(** [String::from_utf8_lossy] *)
Fixpoint lossy_loop (fuel : nat) (bytes : ByteStr) : Str :=
  match fuel, bytes with
  | S fuel', _ :: _ =>
      match decode_one bytes with
      | UChar c n => c :: lossy_loop fuel' (drop n bytes)
      | UInvalid n => 65533%N :: lossy_loop fuel' (drop n bytes)
      | UIncomplete => [65533%N]
      end
  | _, _ => []
  end.
Definition from_utf8_lossy (bytes : ByteStr) : Str := lossy_loop (length bytes) bytes.

(** ** What is shown *)

Record ReadInput := mkReadInput {
  ri_path : Str;
  ri_offset : option Z;
  ri_limit : option Z;
  ri_hashline : bool;
}.

Inductive ReadError :=
| LimitNotPositive
| OffsetNegative
| OffsetBeyondEnd (offset total_lines : Z).

(** Tenths of [n / d], rounded as [{:.1}] does: to the nearest, ties to even. *)
Definition tenths (n d : Z) : Z :=
  let q := 10 * n / d in
  let r := 10 * n mod d in
  if (d <? 2 * r) || ((2 * r =? d) && Z.odd q) then q + 1 else q.
Definition show_tenths (t : Z) : Str := show_u64 (t / 10) ++ str "." ++ show_u64 (t mod 10).

Definition format_size (bytes : Z) : Str :=
  if 1048576 <=? bytes then show_tenths (tenths bytes 1048576) ++ str "MB"
  else if 1024 <=? bytes then show_tenths (tenths bytes 1024) ++ str "KB"
  else show_u64 bytes ++ str "B".

(** [{:>width$}] *)
Definition pad_left (width : nat) (s : Str) : Str := replicate (width - length s) c_space ++ s.

Section Show.
Context (xxh32 : ByteStr → Z → Z) (is_alphanumeric : N → bool).

(** A line of the output, for the line at index [line_idx]. *)
Definition shown_line (hashline : bool) (line_num_width line_idx : nat) (line : Str) : Str :=
  let line := strip_cr line in
  if hashline then format_hashline_tag xxh32 is_alphanumeric line_idx line ++ str ":" ++ line
  else pad_left line_num_width (show_u64 (Z.of_nat line_idx + 1)) ++ [8594%N] ++ line.

(** The loop over the lines of the window; [i] counts them. *)
Fixpoint show_lines (hashline : bool) (line_num_width : nat) (start_line lines_to_take total_lines : Z) (i : nat) (ls : list Str) (selected : Str) : Str :=
  match ls with
  | [] => selected
  | line :: ls' =>
      if (lines_to_take <=? Z.of_nat i) || (total_lines <=? start_line + Z.of_nat i) then selected
      else
        let selected := selected ++ (if (0 <? i)%nat then [c_nl] else []) ++
          shown_line hashline line_num_width (Z.to_nat start_line + i) line in
        if DEFAULT_MAX_BYTES * 2 <? Z.of_nat (byte_len selected) then selected
        else show_lines hashline line_num_width start_line lines_to_take total_lines (S i) ls' selected
  end.

Definition replace_quote (s : Str) : Str := s ≫= λ c, if (c =? c_squote)%N then [c_squote; c_backslash; c_squote; c_squote] else [c].

(** The text shown for the collected bytes, the truncation reported with it,
    and, when the selected text is too long, that text for a spill file (a
    reference to the file is then appended to the text shown). *)
Definition show_window (input : ReadInput) (start_line limit_lines : Z) (raw_content : ByteStr) (total_lines : Z)
    : result (Str * option TruncationResult * option Str) ReadError :=
  let text_content := from_utf8_lossy raw_content in
  if total_lines =? 0 then
    if 0 <? default 0 (ri_offset input) then Err (OffsetBeyondEnd (default 0 (ri_offset input)) total_lines)
    else Ok ([], None, None)
  else
    let start_line_display := sat_add usize_max start_line 1 in
    if total_lines <=? start_line then Err (OffsetBeyondEnd (default 0 (ri_offset input)) total_lines)
    else
      let max_lines := default DEFAULT_MAX_LINES (ri_limit input) in
      let lines_to_take := Z.min limit_lines (sat_add usize_max max_lines 1) in
      let ls := split_nl text_content in
      let ls := if ends_with_nl text_content then take (Z.to_nat (Z.min lines_to_take (len ls))) ls else ls in
      let max_line_num := Z.min (sat_add usize_max start_line lines_to_take) total_lines in
      let line_num_width := Nat.max (length (show_u64 max_line_num)) 5 in
      let selected := show_lines (ri_hashline input) line_num_width start_line lines_to_take total_lines O ls [] in
      let artifact_source := if DEFAULT_MAX_BYTES <? Z.of_nat (byte_len selected) then Some selected else None in
      let r := truncate_head selected max_lines max_bytes_nat in
      let reported := mkTruncation [] (tr_truncated r) (tr_truncated_by r) total_lines (tr_total_bytes r) (tr_output_lines r)
        (tr_output_bytes r) (tr_last_line_partial r) (tr_first_line_exceeds_limit r) (tr_max_lines r) (tr_max_bytes r) in
      let end_line_display := sat_sub (sat_add usize_max start_line_display (tr_output_lines r)) 1 in
      let next_offset := sat_add usize_max end_line_display 1 in
      if tr_first_line_exceeds_limit r then
        let first_line := strip_cr (hd [] (split_nl text_content)) in
        Ok (str "[Line " ++ show_u64 start_line_display ++ str " is " ++ format_size (Z.of_nat (byte_len first_line)) ++
            str ", exceeds " ++ format_size DEFAULT_MAX_BYTES ++ str " limit. Use bash: sed -n '" ++ show_u64 start_line_display ++
            str "p' '" ++ replace_quote (ri_path input) ++ str "' | head -c " ++ show_u64 DEFAULT_MAX_BYTES ++ str "]",
            Some reported, artifact_source)
      else if tr_truncated r then
        let range := str "[Showing lines " ++ show_u64 start_line_display ++ str "-" ++ show_u64 end_line_display ++ str " of " ++ show_u64 total_lines in
        let note :=
          if bool_decide (tr_truncated_by r = Some Lines) then range ++ str ". Use offset=" ++ show_u64 next_offset ++ str " to continue.]"
          else range ++ str " (" ++ format_size DEFAULT_MAX_BYTES ++ str " limit). Use offset=" ++ show_u64 next_offset ++ str " to continue.]" in
        Ok (tr_content r ++ [c_nl; c_nl] ++ note, Some reported, artifact_source)
      else if end_line_display <? total_lines then
        Ok (tr_content r ++ [c_nl; c_nl] ++ str "[" ++ show_u64 (sat_sub total_lines end_line_display) ++
            str " more lines in file. Use offset=" ++ show_u64 next_offset ++ str " to continue.]", None, artifact_source)
      else Ok (tr_content r, None, artifact_source).

(** The checks of the input. *)
Definition invalid_input (input : ReadInput) : option ReadError :=
  if match ri_limit input with Some limit => limit <=? 0 | None => false end then Some LimitNotPositive
  else if match ri_offset input with Some offset => offset <? 0 | None => false end then Some OffsetNegative
  else None.

Definition read_text (input : ReadInput) (reads : list ByteStr) : result (Str * option TruncationResult * option Str) ReadError :=
  match invalid_input input with
  | Some e => Err e
  | None =>
      let start_line_idx := match ri_offset input with Some n => if 0 <? n then n - 1 else 0 | None => 0 end in
      let limit_lines := default usize_max (ri_limit input) in
      let end_line_idx := sat_add usize_max start_line_idx limit_lines in
      let '(raw_content, total_lines) := read_file start_line_idx end_line_idx reads in
      show_window input start_line_idx limit_lines raw_content total_lines
  end.
End Show.


(** ** Chunks do not matter *)

(** The normal form of what is left, after a carriage return that was held
    back or not. *)
Definition lf_after (pending_cr : bool) (text : ByteStr) : ByteStr :=
  if pending_cr then c_nl :: lf_loop true text else lf_loop false text.

Lemma lf_loop_no_cr after text : c_cr ∉ text → lf_loop after text = match text with c :: r => if after && (c =? c_nl)%N then r else text | [] => [] end.
Proof.
  assert (∀ t, c_cr ∉ t → lf_loop false t = t) as Hf.
  { induction t as [|c t IH]; [done|]. intros [Hc Ht]%not_elem_of_cons. cbn [lf_loop]. rw (proj2 (N.eqb_neq c c_cr)); [|by intros ->]. by rw IH. }
  intros H. destruct text as [|c t]; [done|]. apply not_elem_of_cons in H as [Hc Ht]. cbn [lf_loop].
  rw (proj2 (N.eqb_neq c c_cr)); [|by intros ->]. by rw !Hf.
Qed.

Lemma lf_chunk_spec chunk o p rest : lf_chunk chunk = (o, p) → lf_loop false (chunk ++ rest) = o ++ lf_after p rest.
Proof.
  remember (length chunk) as n eqn:En. revert chunk o p En. induction n as [n IH] using lt_wf_ind. intros chunk o p ->.
  destruct chunk as [|b chunk]; cbn [lf_chunk]; [by intros [= <- <-]|]. cbn [app lf_loop]. destruct (N.eqb_spec b c_cr) as [->|Hb].
  - destruct chunk as [|d chunk]; [by intros [= <- <-]|]. cbn [app lf_loop]. destruct (N.eqb_spec d c_nl) as [->|Hd].
    + destruct (lf_chunk chunk) as [o' p'] eqn:E. intros [= <- <-]. cbn. f_equal. eapply IH; [|done|exact E]. simpl. lia.
    + destruct (lf_chunk (d :: chunk)) as [o' p'] eqn:E. intros [= <- <-]. rw andb_false_r. cbn [app]. f_equal.
      rewrite <-(IH (length (d :: chunk)) ltac:(simpl; lia) (d :: chunk) o' p' eq_refl E). cbn [app lf_loop]. by destruct (d =? c_cr)%N.
  - destruct (lf_chunk chunk) as [o' p'] eqn:E. intros [= <- <-]. cbn [app andb]. f_equal. eapply IH; [|done|exact E]. simpl. lia.
Qed.

Lemma normalize_chunk_spec chunk p o p' rest : chunk ≠ [] → normalize_line_endings_chunk chunk p = (o, p') →
  lf_after p (chunk ++ rest) = o ++ lf_after p' rest.
Proof.
  intros Hne. unfold normalize_line_endings_chunk. destruct p; cbn [negb andb].
  - destruct (lf_chunk _) as [o1 p1] eqn:E. intros [= <- <-]. cbn [lf_after app]. f_equal.
    destruct chunk as [|b chunk]; [done|]. cbn [app lf_loop]. destruct (N.eqb_spec b c_nl) as [->|Hb].
    + cbn. by apply lf_chunk_spec.
    + rewrite <-(lf_chunk_spec (b :: chunk) o1 p1 rest E). cbn [app lf_loop]. rw andb_false_r. by destruct (b =? c_cr)%N.
  - unfold has_char. destruct (negb (bool_decide (c_cr ∈ chunk))) eqn:E; [|by apply lf_chunk_spec].
    apply negb_true_iff, bool_decide_eq_false_1 in E. intros [= <- <-]. cbn [lf_after].
    clear Hne. induction chunk as [|b chunk IH]; [done|]. apply not_elem_of_cons in E as [Hb E]. cbn [app lf_loop].
    rw (proj2 (N.eqb_neq b c_cr)); [|by intros ->]. cbn [andb]. by rw IH.
Qed.

Section Scan.
Context (s e : Z).

(** The same for one byte. *)
Definition see_byte (st : ByteStr * Z * bool) (b : N) : ByteStr * Z * bool :=
  let '(raw, seen, collecting) := st in
  let raw := if collecting then collect_bytes raw [b] else raw in
  if (b =? c_nl)%N then
    let collecting := collecting && negb (seen + 1 =? e) in
    (raw, seen + 1, collecting || (seen + 1 =? s))
  else (raw, seen, collecting).

Lemma collect_bytes_spec raw bytes : (length raw ≤ max_bytes_nat)%nat → collect_bytes raw bytes = take max_bytes_nat (raw ++ bytes).
Proof.
  unfold collect_bytes, max_bytes_nat, len. set (M := DEFAULT_MAX_BYTES). intros H.
  destruct (Z.ltb_spec (Z.of_nat (length raw)) M) as [Hl|Hl].
  - rw take_app_ge; [|lia]. f_equal. destruct (Z.le_ge_cases (Z.of_nat (length bytes)) (M - Z.of_nat (length raw))).
    + rw Z.min_l // Nat2Z.id !take_ge //. lia.
    + rw Z.min_r //. f_equal. lia.
  - rw take_app_le; [|lia]. rw take_ge //.
Qed.

Lemma take_app_take {A} n (l k : list A) : take n (take n l ++ k) = take n (l ++ k).
Proof.
  destruct (Nat.le_ge_cases n (length l)).
  - rw !take_app_le ?length_take; [|lia|lia]. rw take_take Nat.min_id //.
  - rw (take_ge l) //.
Qed.

Lemma collect_twice raw a b : (length raw ≤ max_bytes_nat)%nat → collect_bytes (collect_bytes raw a) b = collect_bytes raw (a ++ b).
Proof.
  intros H. rw (collect_bytes_spec raw) // !collect_bytes_spec //; [|rw length_take; lia]. by rw take_app_take -app_assoc.
Qed.

Lemma collect_nil raw : collect_bytes raw [] = raw.
Proof. unfold collect_bytes. case_match; [|done]. by rw take_nil app_nil_r. Qed.

Lemma collect_bound raw a : (length raw ≤ max_bytes_nat)%nat → (length (collect_bytes raw a) ≤ max_bytes_nat)%nat.
Proof. intros H. rw collect_bytes_spec // length_take. lia. Qed.

(** What a scan at offset [k] of the chunk stands for. *)
Definition scanned (chunk : ByteStr) (st : Scan) (k : nat) : ByteStr * Z * bool :=
  (if sc_collecting st then collect_bytes (sc_raw st) (slice (sc_cursor st) k chunk) else sc_raw st,
   sc_newlines_seen st, sc_collecting st).

Lemma slice_snoc from pre b rest : (from ≤ length pre)%nat →
  slice from (length pre + 1) (pre ++ b :: rest) = slice from (length pre) (pre ++ b :: rest) ++ [b].
Proof.
  intros H. unfold slice. rw drop_app_le //. rw !take_app length_drop. replace (length pre - from - (length pre - from))%nat with O by lia.
  replace (length pre + 1 - from - (length pre - from))%nat with 1%nat by lia. rw take_0 app_nil_r. f_equal.
  rw !take_ge //; rw length_drop; lia.
Qed.

Lemma slice_empty k chunk : slice k k chunk = [].
Proof. unfold slice. by rw Nat.sub_diag. Qed.

Definition scan_ok (st : Scan) (k : nat) : Prop := (sc_cursor st ≤ k)%nat ∧ (length (sc_raw st) ≤ max_bytes_nat)%nat.

Lemma at_newline_spec pre rest st : s < e → scan_ok st (length pre) →
  let chunk := pre ++ c_nl :: rest in
  (sc_collecting st = true → s ≤ sc_newlines_seen st) →
  scan_ok (at_newline s e chunk st (length pre)) (length pre + 1) ∧
  scanned chunk (at_newline s e chunk st (length pre)) (length pre + 1) = see_byte (scanned chunk st (length pre)) c_nl.
Proof.
  intros Hse [Hc Hr] chunk Hs. set (k := length pre) in *. unfold scan_ok, at_newline, scanned, see_byte. destruct st as [raw seen [] cur]; cbn [sc_collecting sc_cursor sc_raw sc_newlines_seen andb] in *.
  - destruct (Z.eqb_spec (seen + 1) e) as [He|He]; cbn [sc_collecting sc_raw sc_newlines_seen sc_cursor negb andb].
    + specialize (Hs eq_refl). rw (proj2 (Z.eqb_neq (seen + 1) s)); [|lia]. cbn [sc_collecting sc_raw sc_newlines_seen sc_cursor negb andb orb]. split; [split; [lia|by apply collect_bound]|].
      unfold chunk, k. rw slice_snoc // collect_twice //.
    + split; [split; [lia|done]|]. unfold chunk, k. rw slice_snoc // collect_twice //.
  - destruct (seen + 1 =? s); cbn [sc_collecting sc_raw sc_newlines_seen sc_cursor negb andb orb]; (split; [split; [lia|done]|]); [|done]. by rw slice_empty collect_nil.
Qed.

Definition started (st : ByteStr * Z * bool) : Prop := st.2 = true → s ≤ st.1.2.

Lemma see_started st b : started st → started (see_byte st b).
Proof.
  destruct st as [[raw seen] c]. unfold started, see_byte. cbn [fst snd]. intros H. destruct (b =? c_nl)%N; cbn [fst snd]; [|done].
  intros [[Hc _]%andb_true_iff|Hs%Z.eqb_eq]%orb_true_iff; [specialize (H Hc)|]; lia.
Qed.

Lemma scan_rest rest pre st : s < e → scan_ok st (length pre) → started (scanned (pre ++ rest) st (length pre)) →
  let chunk := pre ++ rest in
  let st' := foldl (at_newline s e chunk) st (nl_positions (length pre) rest) in
  scan_ok st' (length chunk) ∧ scanned chunk st' (length chunk) = foldl see_byte (scanned chunk st (length pre)) rest.
Proof.
  intros Hse. revert pre st. induction rest as [|b rest IH]; intros pre st Hok Hs; [by rw app_nil_r in Hs |- *|].
  replace (pre ++ b :: rest) with ((pre ++ [b]) ++ rest) in * by by rw -app_assoc.
  assert (length (pre ++ [b]) = length pre + 1)%nat as El by (rw length_app //). cbn [nl_positions foldl].
  replace (S (length pre)) with (length (pre ++ [b])) by lia.
  destruct (N.eqb_spec b c_nl) as [->|Hb]; cbn [app foldl].
  - pose proof (at_newline_spec pre rest st Hse Hok) as H. cbv zeta in H.
    replace (pre ++ c_nl :: rest) with ((pre ++ [c_nl]) ++ rest) in H by by rw -app_assoc. rewrite <-El in H.
    destruct H as [Hok' E]; [exact Hs|]. rewrite <-E. apply IH; [done|]. rewrite ->E. by apply see_started.
  - assert (scanned ((pre ++ [b]) ++ rest) st (length (pre ++ [b])) = see_byte (scanned ((pre ++ [b]) ++ rest) st (length pre)) b) as E.
    { unfold scanned, see_byte. rw (proj2 (N.eqb_neq b c_nl)) // El. destruct Hok as [Hc Hr]. destruct (sc_collecting st); [|done].
      rw -app_assoc. cbn [app]. rw slice_snoc // collect_twice //. }
    rewrite <-E. apply IH; [|rewrite ->E; by apply see_started].
    destruct Hok as [Hc Hr]. split; [rw El; lia|done].
Qed.

Lemma scan_chunk_bytes chunk raw seen c : s < e → (length raw ≤ max_bytes_nat)%nat → started (raw, seen, c) →
  scan_chunk s e chunk raw seen c = foldl see_byte (raw, seen, c) chunk.
Proof.
  intros Hse Hr Hs. set (st := mkScan raw seen c 0).
  assert (scanned chunk st 0 = (raw, seen, c)) as E0 by (unfold scanned; cbn [sc_collecting sc_raw sc_cursor sc_newlines_seen st]; destruct c; [by rw slice_empty collect_nil|done]).
  destruct (scan_rest chunk [] st Hse) as [[Hc Hr'] E]; [by split; simpl; [lia|]|by rw E0|]. cbn [app length] in *. rewrite ->E0 in E. rewrite <-E.
  unfold scan_chunk, scanned. fold st. set (st' := foldl _ _ _) in *. do 2 f_equal.
  destruct (sc_collecting st'); cbn [andb]; [|done]. unfold slice. rw take_ge; [|rw length_drop; lia].
  destruct (Nat.ltb_spec (sc_cursor st') (length chunk)); [done|]. rw drop_ge // collect_nil //.
Qed.

Lemma see_bound st b : (length st.1.1 ≤ max_bytes_nat)%nat → (length (see_byte st b).1.1 ≤ max_bytes_nat)%nat.
Proof.
  destruct st as [[raw seen] c]. unfold see_byte. cbn [fst snd]. intros H.
  assert (length (if c then collect_bytes raw [b] else raw) ≤ max_bytes_nat)%nat by (destruct c; [by apply collect_bound|done]).
  by destruct (b =? c_nl)%N.
Qed.

Lemma see_all_inv l st : started st → (length st.1.1 ≤ max_bytes_nat)%nat →
  started (foldl see_byte st l) ∧ (length (foldl see_byte st l).1.1 ≤ max_bytes_nat)%nat.
Proof. revert st. induction l as [|b l IH]; intros st H1 H2; [done|]. apply IH; [by apply see_started|by apply see_bound]. Qed.

(** The state after some reads whose normalised bytes are [o]. *)
Definition read_inv (rs : ReadState) (reads : list ByteStr) (o : ByteStr) : Prop :=
  (rs_raw_content rs, rs_newlines_seen rs, rs_collecting rs) = foldl see_byte ([], 0, s =? 0) o ∧
  rs_last_byte_was_newline rs = ends_with_nl o ∧
  (rs_total_bytes_read rs =? 0) = is_empty (concat reads) ∧ 0 ≤ rs_total_bytes_read rs ∧
  ∀ rest, lf_loop false (concat reads ++ rest) = o ++ lf_after (rs_pending_cr rs) rest.

Lemma read_chunk_inv rs reads o bytes : s < e → 0 ≤ s → bytes ≠ [] → read_inv rs reads o →
  ∃ o', read_inv (read_chunk s e rs bytes) (reads ++ [bytes]) o'.
Proof.
  intros Hse Hs0 Hb (Hst & Hlast & Htot & Hpos & Hlf). unfold read_chunk.
  destruct (normalize_line_endings_chunk bytes (rs_pending_cr rs)) as [chunk p'] eqn:En.
  assert (∀ rest, lf_loop false (concat (reads ++ [bytes]) ++ rest) = (o ++ chunk) ++ lf_after p' rest) as Hlf'.
  { intros rest. rw concat_app /= app_nil_r -app_assoc Hlf. rw (normalize_chunk_spec bytes _ chunk p') //. by rw app_assoc. }
  assert ((sat_add u64_max (rs_total_bytes_read rs) (len bytes) =? 0) = is_empty (concat (reads ++ [bytes])) ∧
    0 ≤ sat_add u64_max (rs_total_bytes_read rs) (len bytes)) as [Ht1 Ht2].
  { assert (0 < len bytes) by (destruct bytes; [done|]; unfold len; simpl; lia).
    split; [|unfold sat_add, u64_max; lia]. rw concat_app /= app_nil_r. replace (is_empty (concat reads ++ bytes)) with false by by destruct (concat reads), bytes.
    apply Z.eqb_neq. unfold sat_add, u64_max. lia. }
  exists (o ++ chunk). destruct chunk as [|c0 chunk'] eqn:Ec; cbn [is_empty].
  { rw app_nil_r. split_and!; try done. intros rest. by rw Hlf' app_nil_r. }
  rewrite <-Ec in *. destruct (see_all_inv o ([], 0, s =? 0)) as [H1 H2].
  { intros H%Z.eqb_eq. cbn. lia. } { simpl. lia. }
  rewrite <-Hst in H1, H2. rw scan_chunk_bytes // Hst -foldl_app. destruct (foldl see_byte _ (o ++ chunk)) as [[raw seen] c] eqn:Ef.
  unfold read_inv. cbn [rs_raw_content rs_newlines_seen rs_collecting rs_last_byte_was_newline rs_total_bytes_read rs_pending_cr].
  split_and!; try done. rw ends_with_nl_app Ec. done.
Qed.

Lemma reads_inv reads : s < e → 0 ≤ s → Forall (.≠ []) reads → ∃ o, read_inv (foldl (read_chunk s e) (read_start s) reads) reads o.
Proof.
  intros Hse Hs0. induction reads as [|bytes reads IH] using rev_ind; intros H.
  - exists []. unfold read_inv. cbn. split_and!; done.
  - apply Forall_app in H as [Hr [Hb _]%Forall_cons]. destruct (IH Hr) as [o Ho]. rw foldl_snoc. by eapply read_chunk_inv.
Qed.

(** However the file is cut into reads, the bytes collected and the lines
    counted are those of its normal form. *)
Lemma read_file_bytes reads : s < e → 0 ≤ s → Forall (.≠ []) reads →
  let text := lf_loop false (concat reads) in
  read_file s e reads = ((foldl see_byte ([], 0, s =? 0) text).1.1,
    if is_empty text then 0 else if ends_with_nl text then (foldl see_byte ([], 0, s =? 0) text).1.2 else (foldl see_byte ([], 0, s =? 0) text).1.2 + 1).
Proof.
  intros Hse Hs0 Hne text. destruct (reads_inv reads Hse Hs0 Hne) as (o & Hst & Hlast & Htot & _ & Hlf).
  unfold read_file. set (rs := foldl (read_chunk s e) _ reads) in *. specialize (Hlf []). rewrite ->app_nil_r in Hlf. fold text in Hlf.
  assert (is_empty text = is_empty (concat reads)) as Hemp.
  { unfold text. destruct (concat reads) as [|c l]; [done|]. cbn [lf_loop]. by destruct (c =? c_cr)%N. }
  unfold read_end. rw Htot Hemp. destruct (rs_pending_cr rs); cbn [lf_after lf_loop] in Hlf.
  - rw Hlf foldl_snoc -Hst ends_with_nl_snoc. cbn [see_byte fst snd]. change (c_nl =? c_nl)%N with true. cbn [fst snd].
    f_equal. destruct (rs_collecting rs); cbn [andb]; [|done]. unfold collect_bytes. case_match eqn:E; [|done].
    apply Z.ltb_lt in E. rw Z.min_l; [|unfold len in *; simpl; lia]. done.
  - rewrite ->app_nil_r in Hlf. rw Hlf -Hst Hlast. done.
Qed.

(** The lines from [s] up to [e] of what follows, when [seen] lines have ended. *)
Definition window_from (seen : Z) (text : ByteStr) : ByteStr :=
  concat (take (Z.to_nat (e - Z.max s seen)) (drop (Z.to_nat (s - seen)) (lines_of text))).

Lemma window_from_cons seen b text : s < e → window_from seen (b :: text) =
  (if (s <=? seen) && (seen <? e) then [b] else []) ++ window_from (if (b =? c_nl)%N then seen + 1 else seen) text.
Proof.
  intros Hse. unfold window_from. cbn [lines_of]. destruct (Z.leb_spec s seen) as [Hs|Hs]; cbn [andb].
  - rw Z.max_r // (Z2Nat.nonpos (s - seen)); [|lia]. destruct (Z.ltb_spec seen e) as [He|He]; cbn [andb].
    + destruct (b =? c_nl)%N.
      * rw Z.max_r; [|lia]. rw (Z2Nat.nonpos (s - (seen + 1))); [|lia].
        replace (Z.to_nat (e - seen)) with (S (Z.to_nat (e - (seen + 1)))) by lia. done.
      * rw Z.max_r // (Z2Nat.nonpos (s - seen)); [|lia]. replace (Z.to_nat (e - seen)) with (S (Z.to_nat (e - seen - 1))) by lia.
        destruct (lines_of text); [by rw /= take_nil|done].
    + rw (Z2Nat.nonpos (e - seen)); [|lia]. rw (Z2Nat.nonpos (e - Z.max s (if (b =? c_nl)%N then seen + 1 else seen))); [done|].
      destruct (b =? c_nl)%N; lia.
  - rw Z.max_l; [|lia]. replace (Z.max s (if (b =? c_nl)%N then seen + 1 else seen)) with s by (destruct (b =? c_nl)%N; lia).
    destruct (b =? c_nl)%N.
    + replace (Z.to_nat (s - seen)) with (S (Z.to_nat (s - (seen + 1)))) by lia. done.
    + replace (Z.to_nat (s - seen)) with (S (Z.to_nat (s - seen - 1))) by lia. destruct (lines_of text) as [|l ls]; [by rw /= drop_nil|done].
Qed.

Lemma see_window text raw seen : s < e → (length raw ≤ max_bytes_nat)%nat →
  (foldl see_byte (raw, seen, (s <=? seen) && (seen <? e)) text).1 =
  (take max_bytes_nat (raw ++ window_from seen text), seen + Z.of_nat (count_nl text)).
Proof.
  intros Hse. revert raw seen. induction text as [|b text IH]; intros raw seen Hr.
  { unfold window_from. cbn [foldl lines_of count_nl fst]. rw drop_nil take_nil app_nil_r take_ge // Z.add_0_r //. }
  cbn [foldl]. set (c := (s <=? seen) && (seen <? e)). rw window_from_cons //. fold c.
  set (raw' := if c then collect_bytes raw [b] else raw).
  assert (see_byte (raw, seen, c) b = (raw', if (b =? c_nl)%N then seen + 1 else seen,
     (s <=? (if (b =? c_nl)%N then seen + 1 else seen)) && ((if (b =? c_nl)%N then seen + 1 else seen) <? e))) as ->.
  { unfold see_byte. fold raw'. destruct (b =? c_nl)%N; [|done]. f_equal. unfold c.
    destruct (Z.leb_spec s seen), (Z.ltb_spec seen e), (Z.eqb_spec (seen + 1) e), (Z.eqb_spec (seen + 1) s), (Z.leb_spec s (seen + 1)), (Z.ltb_spec (seen + 1) e); (done || lia). }
  rw IH; [|unfold raw'; destruct c; [by apply collect_bound|done]]. f_equal.
  - unfold raw'. destruct c; [|done]. rw collect_bytes_spec // take_app_take -app_assoc //.
  - cbn [count_nl]. destruct (b =? c_nl)%N; lia.
Qed.

(** What reading returns: the first bytes of the lines asked for, and how many
    lines there are. *)
Lemma read_file_spec reads : s < e → 0 ≤ s → Forall (.≠ []) reads →
  let text := lf_loop false (concat reads) in
  read_file s e reads = (take max_bytes_nat (concat (take (Z.to_nat (e - s)) (drop (Z.to_nat s) (lines_of text)))), len (lines_of text)).
Proof.
  intros Hse Hs0 Hne text. rw read_file_bytes //. fold text.
  pose proof (see_window text [] 0 Hse ltac:(simpl; lia)) as E.
  assert ((s <=? 0) && (0 <? e) = (s =? 0)) as Es.
  { destruct (Z.leb_spec s 0), (Z.ltb_spec 0 e), (Z.eqb_spec s 0); (done || lia). }
  rewrite ->Es in E. rw E. cbn [fst snd app]. unfold window_from. rw Z.max_l // Z.sub_0_r. f_equal. unfold len.
  rw -count_lines_spec. unfold count_lines. destruct (is_empty text), (ends_with_nl text); lia.
Qed.
End Scan.

(** ** From bytes to text *)

(** The bytes of a character other than a line end hold no line end. *)
Lemma encode_char_line_end c : c ≠ c_nl → c ≠ c_cr → (c_nl ∉ encode_char c) ∧ (c_cr ∉ encode_char c).
Proof.
  intros H1 H2. unfold encode_char, c_nl, c_cr in *. rewrite ->!list_elem_of_In in *.
  destruct (N.ltb_spec c 128); [simpl; split; intros [Hx|[]]; by subst|].
  destruct (N.ltb_spec c 2048); [simpl; lia|]. destruct (N.ltb_spec c 65536); simpl; lia.
Qed.

Lemma lf_loop_plain after x rest : x ≠ [] → c_nl ∉ x → c_cr ∉ x → lf_loop after (x ++ rest) = x ++ lf_loop false rest.
Proof.
  intros Hne. revert after. induction x as [|b x IH]; intros after Hn Hc; [done|].
  apply not_elem_of_cons in Hn as [Hbn Hn]. apply not_elem_of_cons in Hc as [Hbc Hc]. cbn [app lf_loop].
  rw (proj2 (N.eqb_neq b c_cr)); [|by intros ->]. rw (proj2 (N.eqb_neq b c_nl)); [|by intros ->]. rw andb_false_r. f_equal.
  destruct x as [|d x]; [done|]. by apply IH.
Qed.

Lemma utf8_encode_cons c s : utf8_encode (c :: s) = encode_char c ++ utf8_encode s.
Proof. done. Qed.

Lemma lf_loop_encode after s : lf_loop after (utf8_encode s) = utf8_encode (lf_loop after s).
Proof.
  revert after. induction s as [|c s IH]; intros after; [done|]. rw utf8_encode_cons. cbn [lf_loop].
  destruct (N.eqb_spec c c_cr) as [->|Hc]; [cbn; f_equal; apply IH|]. destruct (N.eqb_spec c c_nl) as [->|Hn].
  - cbn. destruct after; cbn; [apply IH|f_equal; apply IH].
  - destruct (encode_char_line_end c Hn Hc). rw lf_loop_plain //; [|apply encode_char_nonempty]. rw andb_false_r utf8_encode_cons IH //.
Qed.

Lemma lines_of_plain x rest : x ≠ [] → c_nl ∉ x →
  lines_of (x ++ rest) = match lines_of rest with l :: ls => (x ++ l) :: ls | [] => [x] end.
Proof.
  intros Hne. induction x as [|b x IH]; intros Hn; [done|]. apply not_elem_of_cons in Hn as [Hb Hn]. cbn [app lines_of].
  rw (proj2 (N.eqb_neq b c_nl)); [|by intros ->]. destruct x as [|d x]; [done|]. rw IH //. by destruct (lines_of rest).
Qed.

Lemma lines_of_encode s : lines_of (utf8_encode s) = utf8_encode <$> lines_of s.
Proof.
  induction s as [|c s IH]; [done|]. rw utf8_encode_cons. cbn [lines_of]. destruct (N.eqb_spec c c_nl) as [->|Hn]; [cbn; by f_equal|].
  assert (c_nl ∉ encode_char c) as Hc.
  { destruct (decide (c = c_cr)) as [->|Hc]; [by apply (bool_decide_eq_false_1 _); vm_compute|by apply encode_char_line_end]. }
  rw lines_of_plain //; [|apply encode_char_nonempty]. rw IH. destruct (lines_of s); cbn; [by rw app_nil_r|done].
Qed.

Lemma concat_encode ls : concat (utf8_encode <$> ls) = utf8_encode (concat ls).
Proof. induction ls as [|l ls IH]; [done|]. rw fmap_cons. cbn [concat]. rw utf8_encode_app IH //. Qed.

Lemma lossy_fuel n bytes : (length bytes ≤ n)%nat → lossy_loop n bytes = lossy_loop (length bytes) bytes.
Proof.
  revert bytes. induction n as [n IH] using lt_wf_ind. intros bytes Hn. destruct bytes as [|b bytes]; [by destruct n|].
  destruct n as [|n]; [simpl in Hn; lia|]. cbn [length lossy_loop]. simpl in Hn.
  destruct (decode_one (b :: bytes)) as [c w|w|] eqn:E; [| |done]; f_equal.
  - apply decode_one_char in E as (_ & -> & r & Er). pose proof (utf8_width_bounds c).
    assert (length (drop (utf8_width c) (b :: bytes)) ≤ length bytes)%nat by (rw length_drop; simpl; lia).
    rw (IH n) ?(IH (length bytes)) //; lia.
  - apply decode_one_invalid in E. assert (length (drop w (b :: bytes)) ≤ length bytes)%nat by (rw length_drop; simpl; lia).
    rw (IH n) ?(IH (length bytes)) //; lia.
Qed.

Lemma lossy_encode s t : Forall scalar s → from_utf8_lossy (utf8_encode s ++ t) = s ++ from_utf8_lossy t.
Proof.
  unfold from_utf8_lossy. induction 1 as [|c s Hc Hs IH]; [done|]. rw utf8_encode_cons -app_assoc.
  set (rest := utf8_encode s ++ t) in *. pose proof (encode_char_nonempty c). pose proof (decode_encode c rest Hc) as E.
  assert (length (encode_char c ++ rest) = S (length (encode_char c ++ rest) - 1)) as ->.
  { destruct (encode_char c) as [|x y]; [done|]. simpl. lia. }
  destruct (encode_char c ++ rest) as [|x l] eqn:El; [by destruct (encode_char c)|]. cbn [lossy_loop]. rw E. cbn [app]. f_equal.
  rewrite <-El. replace (utf8_width c) with (length (encode_char c)) by apply encode_char_length. rw drop_app_length lossy_fuel //.
  rw length_app encode_char_length. pose proof (utf8_width_bounds c). lia.
Qed.

Lemma lossy_nonempty bytes : bytes ≠ [] → from_utf8_lossy bytes ≠ [].
Proof. destruct bytes as [|b bytes]; [done|]. intros _. unfold from_utf8_lossy. cbn [length lossy_loop]. by case_match. Qed.

(** ** Lines of the page *)

(** A line without its line feed. *)
Definition strip_nl (l : Str) : Str := match reverse l with c :: r => if (c =? c_nl)%N then reverse r else l | [] => [] end.

Lemma strip_nl_end a : strip_nl (a ++ [c_nl]) = a.
Proof. unfold strip_nl. rw reverse_snoc reverse_involutive //. Qed.

Lemma strip_nl_plain a : c_nl ∉ a → strip_nl a = a.
Proof.
  intros Ha. destruct a as [|c a _] using rev_ind; [done|]. unfold strip_nl. rw reverse_snoc.
  rw (proj2 (N.eqb_neq c c_nl)) //. intros ->. set_solver.
Qed.

Lemma lines_cons_inv s l ls : lines_of s = l :: ls →
  lines_of l = [l] ∧ lines_of (concat ls) = ls ∧ (ls = [] ∨ ends_with_nl l = true) ∧
  ∃ a x, l = a ++ x ∧ (c_nl ∉ a) ∧ strip_nl l = a ∧ (x = [] ∧ a ≠ [] ∨ x = [c_nl]).
Proof.
  intros E. pose proof (memchr_nl_spec s) as Hm. destruct (memchr_nl s) as [i|].
  - destruct Hm as (a & t & -> & Ha & _). rewrite ->lines_of_app in E by (right; by rw ends_with_nl_snoc).
    rewrite ->lines_of_line in E by done. injection E as <- <-. split_and!; [by apply lines_of_line|by rw lines_of_concat|right; by rw ends_with_nl_snoc|].
    exists a, [c_nl]. split_and!; [done|done|apply strip_nl_end|by right].
  - destruct (decide (s = [])) as [->|Hs]; [done|]. rewrite ->lines_of_last in E by done. injection E as <- <-.
    split_and!; [by apply lines_of_last|done|by left|]. exists s, []. rw app_nil_r. split_and!; [done|done|by apply strip_nl_plain|by left].
Qed.

Lemma lines_of_drop n s : lines_of (concat (drop n (lines_of s))) = drop n (lines_of s).
Proof.
  revert s. induction n as [|n IH]; intros s; [by rw /= lines_of_concat|]. destruct (lines_of s) as [|l ls] eqn:E; [done|].
  cbn [drop]. destruct (lines_cons_inv s l ls E) as (_ & Hls & _). rewrite <-Hls at 1 2. rw IH Hls //.
Qed.

Lemma lines_of_take n s : lines_of (concat (take n (lines_of s))) = take n (lines_of s).
Proof.
  revert s. induction n as [|n IH]; intros s; [done|]. destruct (lines_of s) as [|l ls] eqn:E; [done|].
  cbn [take concat]. destruct (lines_cons_inv s l ls E) as (Hl & Hls & Hend & _). destruct Hend as [->|Hend]; [by rw take_nil /= app_nil_r|].
  rw lines_of_app; [|by right]. rw Hl. cbn [app]. f_equal. rewrite <-Hls at 1 2. rw IH Hls //.
Qed.

Lemma split_nl_app_line a s : c_nl ∉ a → split_nl ((a ++ [c_nl]) ++ s) = a :: split_nl s.
Proof.
  induction a as [|c a IH]; intros Ha; [done|]. apply not_elem_of_cons in Ha as [Hc Ha]. cbn [app split_nl].
  rw (proj2 (N.eqb_neq c c_nl)); [|by intros ->]. by rw IH.
Qed.

Lemma split_nl_whole s x : whole_lines s → split_nl (s ++ x) = (strip_nl <$> lines_of s) ++ split_nl x.
Proof.
  remember (length (lines_of s)) as n eqn:En. revert s En. induction n as [|n IH]; intros s En Hw.
  { destruct (lines_of s) eqn:E; [|done]. by apply lines_of_nil in E as ->. }
  destruct (lines_of s) as [|l ls] eqn:E; [done|]. destruct (lines_cons_inv s l ls E) as (Hl & Hls & Hend & a & y & -> & Ha & Hst & Hy).
  assert (s = (a ++ y) ++ concat ls) as Es by (rw -(lines_of_concat s) E //).
  assert (y = [c_nl] ∧ whole_lines (concat ls)) as [-> Hw'].
  { destruct Hw as [->|Hw]; [done|]. rewrite ->Es, ends_with_nl_app in Hw. destruct (concat ls) as [|c r] eqn:Ec; cbn [is_empty] in Hw.
    - split; [|by left]. destruct Hy as [[-> Hne]|Hy]; [|done]. rewrite ->app_nil_r in Hw. exfalso.
      destruct a as [|d a _] using rev_ind; [done|]. rewrite ->ends_with_nl_snoc in Hw. apply N.eqb_eq in Hw as ->. set_solver.
    - split; [|by right]. destruct Hy as [[-> Hne]|Hy]; [|done]. destruct Hend as [->|He]; [done|]. rewrite ->app_nil_r in He. exfalso.
      destruct a as [|d a _] using rev_ind; [done|]. rewrite ->ends_with_nl_snoc in He. apply N.eqb_eq in He as ->. set_solver. }
  rw Es -(app_assoc _ (concat ls)) split_nl_app_line // (IH (concat ls)) //; [|rw Hls; simpl in En; lia].
  cbn. rw Hls Hst //.
Qed.

Lemma split_nl_plain a : c_nl ∉ a → split_nl a = [a].
Proof.
  induction a as [|c a IH]; intros Ha; [done|]. apply not_elem_of_cons in Ha as [Hc Ha]. cbn [split_nl].
  rw (proj2 (N.eqb_neq c c_nl)); [|by intros ->]. by rw IH.
Qed.

(** The pieces between line feeds are the lines, and an empty one after a
    line feed at the end. *)
Lemma split_nl_lines s : s ≠ [] → split_nl s = (strip_nl <$> lines_of s) ++ (if ends_with_nl s then [[]] else []).
Proof.
  intros Hs. destruct (ends_with_nl s) eqn:E.
  { rw -{1}(app_nil_r s) split_nl_whole //. by right. }
  destruct (last_line_split s Hs) as (p & a & x & -> & Hp & Ha & Hne & [->| ->]).
  { rewrite ->app_assoc, ends_with_nl_snoc in E. done. }
  rewrite ->app_nil_r in *. rw split_nl_whole // split_nl_plain // lines_of_app // (lines_of_last a) // fmap_app app_nil_r. cbn. by rw strip_nl_plain.
Qed.

Lemma lf_loop_has_no_cr after s : c_cr ∉ lf_loop after s.
Proof.
  revert after. induction s as [|c s IH]; intros after; cbn [lf_loop]; [apply not_elem_of_nil|].
  destruct (N.eqb_spec c c_cr) as [->|Hc]; [apply not_elem_of_cons; split; [done|apply IH]|].
  destruct (after && _); [apply IH|]. apply not_elem_of_cons. split; [by intros <-|apply IH].
Qed.

Lemma strip_cr_plain l : c_cr ∉ l → strip_cr l = l.
Proof.
  intros Hl. destruct l as [|c l _] using rev_ind; [done|]. unfold strip_cr. rw reverse_snoc.
  rw (proj2 (N.eqb_neq c c_cr)) //. intros ->. set_solver.
Qed.

(** ** The page *)

Section Page.
Context (xxh32 : ByteStr → Z → Z) (is_alphanumeric : N → bool) (hashline : bool) (width : nat) (start : Z).

Let shown i := shown_line xxh32 is_alphanumeric hashline width (Z.to_nat start + i).

(** The lines after the first ones, each after a line feed. *)
Fixpoint shown_rest (i : nat) (ls : list Str) : Str :=
  match ls with [] => [] | l :: ls' => [c_nl] ++ shown i l ++ shown_rest (S i) ls' end.

Definition shown_page (ls : list Str) : Str := join_lines (imap (λ j, shown_line xxh32 is_alphanumeric hashline width (Z.to_nat start + j)) ls).

Lemma join_shown i l ls : join_lines (imap (λ j, shown (i + j)) (l :: ls)) = shown i l ++ shown_rest (S i) ls.
Proof.
  revert i l. induction ls as [|k ls IH]; intros i l; rw imap_cons.
  { cbn. rw Nat.add_0_r app_nil_r //. }
  rw (imap_ext _ (λ j, shown (S i + j))); [|intros j x _; cbn; f_equal; lia].
  specialize (IH (S i) k). rewrite ->imap_cons in IH. rw imap_cons. cbn [join_lines]. cbn [join_lines] in IH.
  rw Nat.add_0_r. cbn [shown_rest]. f_equal. f_equal. exact IH.
Qed.

Lemma shown_line_plain i l : (c_nl ∉ l) → c_cr ∉ l → plain_line (shown i l) ∧ (byte_len l + 1 ≤ byte_len (shown i l))%nat.
Proof.
  intros Hn Hc. unfold shown, shown_line, plain_line. rw strip_cr_plain //.
  assert (∀ k, c_nl ∉ show_u64 k) as Hd.
  { intros k H. unfold show_u64 in H. revert k H. generalize 20%nat. induction n as [|n IH]; intros k; cbn [show_digits]; [apply not_elem_of_nil|].
    intros [H|H]%elem_of_app; [case_match; [by apply not_elem_of_nil in H|by eapply IH]|].
    apply list_elem_of_singleton in H. pose proof (Z.mod_pos_bound k 10 ltac:(lia)). unfold c_nl in H. lia. }
  destruct hashline.
  - unfold format_hashline_tag, tag_text. set (h := compute_line_hash _ _ _ _).
    assert (h.1 ≠ c_nl ∧ h.2 ≠ c_nl) as [H1 H2].
    { unfold h, compute_line_hash, hashline_dict. cbn [fst snd].
      split; intros E; match type of E with nibble (Z.land ?i 15) = _ => pose proof (proj2 (nibble_is_nibble i)) as Hw end; by rewrite ->E in Hw. }
    rw !byte_len_app. split; [split|change (byte_len (str ":")) with 1%nat; lia].
    + intros H. apply app_nil in H as [_ H]. done.
    + rewrite ->!elem_of_app, !elem_of_cons, !elem_of_nil. intros [[H|[H|H]]|[H|H]];
        [by eapply Hd|by revert H; apply (bool_decide_eq_false_1 _)|naive_solver|by revert H; apply (bool_decide_eq_false_1 _)|done].
  - rw !byte_len_app. split; [split|change (byte_len [8594%N]) with 3%nat; lia].
    + intros H. apply app_nil in H as [_ H]. done.
    + unfold pad_left. rewrite ->!elem_of_app, list_elem_of_singleton. intros [[H|H]|[H|H]]; [|by eapply Hd|done|done].
      apply elem_of_replicate in H as [H _]. done.
Qed.

(** The shown lines are longer than the lines. *)
Lemma shown_page_longer ls : Forall (λ l, (c_nl ∉ l) ∧ (c_cr ∉ l)) ls → ls ≠ [] →
  Forall plain_line (imap (λ j, shown_line xxh32 is_alphanumeric hashline width (Z.to_nat start + j)) ls) ∧
  (sum_list_with (λ l, byte_len l + 1) ls ≤ byte_len (shown_page ls))%nat.
Proof.
  intros Hall Hne. split.
  { apply Forall_lookup. intros j y H. apply list_lookup_imap_Some in H as (x & Hx & ->). rewrite ->Forall_lookup in Hall.
    destruct (Hall _ _ Hx). by apply (shown_line_plain j x). }
  assert (∀ i ls, Forall (λ l, (c_nl ∉ l) ∧ (c_cr ∉ l)) ls → (sum_list_with (λ l, byte_len l + 1) ls ≤ byte_len (shown_rest i ls))%nat) as Hrest.
  { intros i ls'. revert i. induction ls' as [|l ls' IH]; intros i H; [done|]. apply Forall_cons in H as [[H1 H2] H]. specialize (IH (S i) H).
    destruct (shown_line_plain i l H1 H2) as [_ Hb]. cbn [sum_list_with shown_rest]. rw !byte_len_app. lia. }
  destruct ls as [|l ls]; [done|]. apply Forall_cons in Hall as [[H1 H2] H]. specialize (Hrest 1%nat ls H).
  assert (shown_page (l :: ls) = shown 0 l ++ shown_rest 1 ls) as -> by exact (join_shown 0 l ls).
  destruct (shown_line_plain 0 l H1 H2) as [_ Hb]. cbn [sum_list_with]. rw byte_len_app. lia.
Qed.
Context (take_ total : Z).
Let show := show_lines xxh32 is_alphanumeric hashline width start take_ total.

Lemma show_more ls i B sel : (0 < i)%nat → Z.of_nat (i + length ls) ≤ take_ → start + Z.of_nat (i + length ls) ≤ total →
  Z.of_nat (byte_len (sel ++ shown_rest i ls)) ≤ DEFAULT_MAX_BYTES * 2 →
  show i (ls ++ B) sel = show (i + length ls) B (sel ++ shown_rest i ls).
Proof.
  revert i sel. induction ls as [|l ls IH]; intros i sel Hi Ht Hn Hb.
  { cbn [app shown_rest length]. rw app_nil_r Nat.add_0_r //. }
  cbn [length] in *. cbn [app]. unfold show at 1. cbn [show_lines].
  rw (proj2 (Z.leb_gt take_ _)); [|lia]. rw (proj2 (Z.leb_gt total _)); [|lia]. rw (proj2 (Nat.ltb_lt 0 i)) //. cbn [orb].
  fold (shown i l). cbn [shown_rest] in Hb |- *. rewrite ->!app_assoc in Hb. rw (app_assoc sel [c_nl]).
  rw (proj2 (Z.ltb_ge _ _)); [|rewrite ->byte_len_app in Hb; lia].
  fold show. rw IH; [|lia|lia|lia|done]. rw -!app_assoc. f_equal. lia.
Qed.

Lemma show_page l ls B : Z.of_nat (length (l :: ls)) ≤ take_ → start + Z.of_nat (length (l :: ls)) ≤ total →
  Z.of_nat (byte_len (shown_page (l :: ls))) ≤ DEFAULT_MAX_BYTES * 2 →
  show 0 ((l :: ls) ++ B) [] = show (length (l :: ls)) B (shown_page (l :: ls)).
Proof.
  intros Ht Hn Hb. assert (shown_page (l :: ls) = shown 0 l ++ shown_rest 1 ls) as E by exact (join_shown 0 l ls). rewrite ->E in *.
  cbn [length] in *. cbn [app]. unfold show at 1. cbn [show_lines].
  rw (proj2 (Z.leb_gt take_ _)); [|lia]. rw (proj2 (Z.leb_gt total _)); [|lia]. change (0 <? 0)%nat with false. cbn [orb app].
  fold (shown 0 l). rw (proj2 (Z.ltb_ge _ _)); [|rewrite ->byte_len_app in Hb; lia]. fold show.
  rw show_more; [|lia|lia|lia|done]. done.
Qed.

Lemma show_stop i B sel : B = [] ∨ take_ ≤ Z.of_nat i ∨ total ≤ start + Z.of_nat i → show i B sel = sel.
Proof.
  destruct B as [|x B]; [done|]. intros [H|H]; [done|]. unfold show. cbn [show_lines].
  destruct (Z.leb_spec take_ (Z.of_nat i)), (Z.leb_spec total (start + Z.of_nat i)); (done || lia).
Qed.

Lemma show_last i x B sel : (0 < i)%nat → take_ = Z.of_nat i + 1 → start + Z.of_nat i < total →
  show i (x :: B) sel = sel ++ [c_nl] ++ shown i x.
Proof.
  intros Hi Ht Hn. unfold show. cbn [show_lines]. rw (proj2 (Z.leb_gt take_ _)); [|lia]. rw (proj2 (Z.leb_gt total _)); [|lia].
  rw (proj2 (Nat.ltb_lt 0 i)) //. cbn [orb]. fold (shown i x). case_match; [done|]. fold show. apply show_stop. lia.
Qed.
End Page.

Lemma window_text n k s : concat (take n (drop k (lines_of (utf8_encode s)))) = utf8_encode (concat (take n (drop k (lines_of s)))).
Proof. rw lines_of_encode -fmap_drop -fmap_take concat_encode //. Qed.

Lemma lines_of_forall (P : Str → Prop) s : (∀ l a x, l = a ++ x → (c_nl ∉ a) → strip_nl l = a → (x = [] ∨ x = [c_nl]) → (∀ c, c ∈ l → c ∈ s) → P l) → Forall P (lines_of s).
Proof.
  remember (length (lines_of s)) as n eqn:En. revert s En. induction n as [|n IH]; intros s En HP.
  { destruct (lines_of s); [constructor|done]. }
  destruct (lines_of s) as [|l ls] eqn:E; [done|]. destruct (lines_cons_inv s l ls E) as (_ & Hls & _ & a & x & Hl & Ha & Hst & Hx).
  assert (s = l ++ concat ls) as Es by (rw -(lines_of_concat s) E //). constructor.
  - apply (HP l a x); try done; [destruct Hx as [[-> _]| ->]; auto|]. intros c Hc. rw Es. set_solver.
  - rewrite <-Hls. apply IH; [rw Hls; simpl in En; lia|]. intros l' a' x' H1 H2 H3 H4 H5. eapply HP; try done. intros c Hc. rw Es. set_solver.
Qed.

Lemma lines_plain s : c_cr ∉ s → Forall (λ l, (c_nl ∉ strip_nl l) ∧ (c_cr ∉ strip_nl l) ∧ (byte_len l ≤ byte_len (strip_nl l) + 1)%nat) (lines_of s).
Proof.
  intros Hs. apply lines_of_forall. intros l a x -> Ha -> Hx Hsub. split_and!; [done| |rw byte_len_app; destruct Hx as [->| ->]; simpl; lia].
  intros H. apply Hs, Hsub. set_solver.
Qed.

Lemma page_bytes ls : Forall (λ l, byte_len l ≤ byte_len (strip_nl l) + 1)%nat ls →
  (byte_len (concat ls) ≤ sum_list_with (λ l, byte_len l + 1) (strip_nl <$> ls))%nat.
Proof. induction 1 as [|l ls Hl _ IH]; [done|]. cbn [concat fmap list_fmap sum_list_with]. rw byte_len_app. lia. Qed.

(** A page that fits is shown as it is. *)
Lemma truncate_page pl max_lines B : pl ≠ [] → Forall plain_line pl → len pl ≤ max_lines → (byte_len (join_lines pl) ≤ B)%nat →
  let r := truncate_head (join_lines pl) max_lines B in
  tr_content r = join_lines pl ∧ tr_truncated r = false ∧ tr_first_line_exceeds_limit r = false ∧ tr_output_lines r = len pl.
Proof.
  intros Hne Hpl Hl HB r. unfold len in *. unfold r. rw truncate_head_is_reference; [|lia].
  destruct (join_lines_facts pl Hne Hpl) as (H1 & H2 & H3 & H4 & H5 & H6). unfold head_reference, kept_head. cbn [tr_content tr_truncated tr_first_line_exceeds_limit tr_output_lines].
  rw first_lines_all; [|lia]. rw byte_prefix_all //. split_and!; [done|apply bool_decide_eq_false_2; auto| |unfold len; by rw H6].
  rw H5 (proj2 (Nat.ltb_ge _ _)); [|lia]. rw (proj2 (Nat.eqb_neq B 0)); [by rw andb_false_r|]. pose proof (byte_len_pos _ H1). lia.
Qed.

(** A page followed by more is cut after its last line. *)
Lemma truncate_page_more pl x B : pl ≠ [] → Forall plain_line pl → x ≠ [] → (byte_len (join_lines pl) + 1 ≤ B)%nat →
  let r := truncate_head (join_lines pl ++ [c_nl] ++ x) (len pl) B in
  tr_content r = join_lines pl ++ [c_nl] ∧ tr_truncated r = true ∧ tr_truncated_by r = Some Lines ∧
  tr_first_line_exceeds_limit r = false ∧ tr_output_lines r = len pl.
Proof.
  intros Hne Hpl Hx HB r. unfold r, len in *. rw truncate_head_is_reference; [|lia].
  destruct (join_lines_facts pl Hne Hpl) as (H1 & H2 & H3 & H4 & H5 & H6). set (j := join_lines pl) in *.
  assert (first_lines (Z.to_nat (Z.of_nat (length pl))) (j ++ [c_nl] ++ x) = j ++ [c_nl]) as Ef.
  { unfold first_lines. rw Nat2Z.id app_assoc lines_of_app; [|right; by rw ends_with_nl_snoc].
    pose proof (lines_of_more j [] H1 H2) as E. rewrite ->app_nil_r in E. rw take_app_le; [|rw E; cbn; lia].
    rw take_ge; [|rw E H6; cbn; lia]. apply lines_of_concat. }
  assert (j ++ [c_nl] ≠ j ++ [c_nl] ++ x) as Hneq.
  { intros E. apply (f_equal length) in E. rewrite ->!length_app in E. destruct x; [done|]. simpl in E. lia. }
  unfold head_reference, head_reason, kept_head. rw Ef byte_prefix_all; [|rw byte_len_app; exact HB].
  cbn [tr_content tr_truncated tr_truncated_by tr_first_line_exceeds_limit tr_output_lines]. split_and!.
  - done.
  - by apply bool_decide_eq_true_2.
  - rw decide_False // (proj2 (Nat.leb_le _ _)) //. rw byte_len_app. exact HB.
  - assert (first_line_bytes (j ++ [c_nl] ++ x) = byte_len (hd [] pl)) as ->.
    { destruct pl as [|l pl]; [done|]. apply Forall_cons in Hpl as [[Hl Hn] Hpl]. unfold j. destruct pl as [|k pl].
      - apply first_line_bytes_line; [done|right; by eexists].
      - change (join_lines (l :: k :: pl)) with (l ++ [c_nl] ++ join_lines (k :: pl)). rw -!app_assoc. apply first_line_bytes_line; [done|right; by eexists]. }
    rw (proj2 (Nat.ltb_ge _ _)); [|lia]. rw (proj2 (Nat.eqb_neq B 0)); [by rw andb_false_r|lia].
  - unfold len. pose proof (lines_of_more j [] H1 H2) as E. rewrite ->app_nil_r in E. rw E H6. simpl. lia.
Qed.

(** All but the last line end in a line feed. *)
Lemma first_lines_whole k s : (k < length (lines_of s))%nat → whole_lines (concat (take k (lines_of s))).
Proof.
  revert s. induction k as [|k IH]; intros s Hk; [by left|]. destruct (lines_of s) as [|l ls] eqn:E; [simpl in Hk; lia|].
  destruct (lines_cons_inv s l ls E) as (_ & Hls & Hend & _). destruct Hend as [->|Hend]; [simpl in Hk; lia|].
  cbn [take concat]. rewrite <-Hls. destruct (IH (concat ls)) as [-> |H]; [rw Hls; simpl in Hk; lia| |]; right; [by rw app_nil_r|].
  rw ends_with_nl_app. by case_match.
Qed.

Lemma drop_lines_nonempty k s : (k < length (lines_of s))%nat → concat (drop k (lines_of s)) ≠ [].
Proof.
  intros Hk E. pose proof (lines_of_drop k s) as H. rewrite ->E in H. apply (f_equal length) in H. rewrite ->length_drop in H. simpl in H. lia.
Qed.

(** The characters of some lines are characters of the text. *)
Lemma forall_lines {P : N → Prop} n k s : Forall P s → Forall P (concat (take n (drop k (lines_of s)))).
Proof.
  intros H. rewrite <-(lines_of_concat s), <-(take_drop k (lines_of s)), concat_app in H. apply Forall_app in H as [_ H].
  rewrite <-(take_drop n (drop k _)), concat_app in H. by apply Forall_app in H as [H _].
Qed.

Lemma lf_loop_scalar after s : Forall scalar s → Forall scalar (lf_loop after s).
Proof.
  intros H. revert after. induction H as [|c s Hc _ IH]; intros after; cbn [lf_loop]; [constructor|].
  destruct (c =? c_cr)%N; [constructor; [unfold scalar, c_nl; lia|apply IH]|]. destruct (after && _); [apply IH|by constructor].
Qed.

(** What the read loop sees of a text file. *)
Lemma normal_text text : Forall scalar text →
  lf_loop false (utf8_encode text) = utf8_encode (normalize_to_lf text) ∧ Forall scalar (normalize_to_lf text) ∧ c_cr ∉ normalize_to_lf text.
Proof.
  intros H. assert (normalize_to_lf text = lf_loop false text) as ->.
  { unfold normalize_to_lf. case_bool_decide; [done|]. rw lf_loop_no_cr //. by destruct text. }
  split_and!; [apply lf_loop_encode|by apply lf_loop_scalar|apply lf_loop_has_no_cr].
Qed.

(** A page is a text of its own. *)
Lemma page_lines n k s : lines_of (concat (take n (drop k (lines_of s)))) = take n (drop k (lines_of s)).
Proof. rewrite <-(lines_of_drop k s) at 1 2. apply lines_of_take. Qed.

Lemma page_plain n k s : c_cr ∉ s → let pg := take n (drop k (lines_of s)) in
  Forall (λ l, (c_nl ∉ strip_nl l) ∧ (c_cr ∉ strip_nl l)) pg ∧ Forall (λ l, byte_len l ≤ byte_len (strip_nl l) + 1)%nat pg.
Proof.
  intros H pg. assert (Forall (λ l, (c_nl ∉ strip_nl l) ∧ (c_cr ∉ strip_nl l) ∧ (byte_len l ≤ byte_len (strip_nl l) + 1)%nat) pg) as Hp
    by (apply Forall_take, Forall_drop, lines_plain; done).
  split; (eapply Forall_impl; [exact Hp|]; naive_solver).
Qed.

(** ** Claims *)

Definition i64_max : Z := 9223372036854775807.

Section Claim.
Context (xxh32 : ByteStr → Z → Z) (is_alphanumeric : N → bool).

(** The lines of a window that holds the page only. *)
Lemma select_page hashline width start take_ total pg : 0 ≤ start → pg ≠ [] → lines_of (concat pg) = pg →
  len pg ≤ take_ → start + len pg ≤ total → (take_ ≤ len pg ∨ total ≤ start + len pg) →
  Z.of_nat (byte_len (shown_page xxh32 is_alphanumeric hashline width start (strip_nl <$> pg))) ≤ DEFAULT_MAX_BYTES * 2 →
  show_lines xxh32 is_alphanumeric hashline width start take_ total 0
    (if ends_with_nl (concat pg) then take (Z.to_nat (Z.min take_ (len (split_nl (concat pg))))) (split_nl (concat pg)) else split_nl (concat pg)) []
  = shown_page xxh32 is_alphanumeric hashline width start (strip_nl <$> pg).
Proof.
  intros Hs Hne Hpg Ht Hn Hstop Hb. assert (concat pg ≠ []) as Hc by (intros E; rewrite ->E in Hpg; by subst).
  rw split_nl_lines // Hpg. set (ls := strip_nl <$> pg) in *.
  assert (len ls = len pg) as El by (unfold len, ls; by rw length_fmap).
  assert (∃ B, (if ends_with_nl (concat pg) then take (Z.to_nat (Z.min take_ (len (ls ++ (if ends_with_nl (concat pg) then [[]] else [])))))
      (ls ++ (if ends_with_nl (concat pg) then [[]] else [])) else ls ++ (if ends_with_nl (concat pg) then [[]] else [])) = ls ++ B ∧
    (B = [] ∨ take_ ≤ len ls ∨ total ≤ start + len ls)) as (B & -> & HB).
  { destruct (ends_with_nl (concat pg)); [|exists []; auto]. unfold len in *. rw length_app. cbn [length].
    rw take_app_ge; [|lia]. eexists. split; [done|]. rw El. auto. }
  unfold len in *. destruct ls as [|l ls'] eqn:E; [by destruct pg|]. rw show_page; [|lia|lia|done].
  apply show_stop. destruct HB as [->|HB]; [by left|right; lia].
Qed.

(** The lines of a window that goes on after the page. *)
Lemma select_page_more hashline width start total pg rest : 0 ≤ start → pg ≠ [] → lines_of (concat pg) = pg → whole_lines (concat pg) → rest ≠ [] →
  start + len pg < total →
  Z.of_nat (byte_len (shown_page xxh32 is_alphanumeric hashline width start (strip_nl <$> pg))) ≤ DEFAULT_MAX_BYTES * 2 →
  let text := concat pg ++ rest in let take_ := len pg + 1 in
  ∃ x, x ≠ [] ∧ show_lines xxh32 is_alphanumeric hashline width start take_ total 0
    (if ends_with_nl text then take (Z.to_nat (Z.min take_ (len (split_nl text)))) (split_nl text) else split_nl text) []
  = shown_page xxh32 is_alphanumeric hashline width start (strip_nl <$> pg) ++ [c_nl] ++ x.
Proof.
  intros Hs Hne Hpg Hw Hr Hn Hb text take_. unfold text. rw split_nl_whole // Hpg. set (ls := strip_nl <$> pg) in *.
  assert (len ls = len pg) as El by (unfold len, ls; by rw length_fmap).
  destruct (split_nl_cons rest) as (y & ys & Ey). rw Ey.
  assert (∃ B, (if ends_with_nl (concat pg ++ rest) then take (Z.to_nat (Z.min take_ (len (ls ++ y :: ys)))) (ls ++ y :: ys) else ls ++ y :: ys) = ls ++ y :: B) as [B ->].
  { destruct (ends_with_nl _); [|eauto]. unfold take_, len in *. rw length_app. cbn [length]. rw take_app_ge; [|lia].
    replace (Z.to_nat (Z.min (Z.of_nat (length pg) + 1) (Z.of_nat (length ls + S (length ys)))) - length ls)%nat with 1%nat by lia. by exists []. }
  unfold take_, len in *. destruct ls as [|l ls'] eqn:E; [by destruct pg|]. cbn [length] in El. rw show_page; [|cbn [length]; lia|cbn [length]; lia|done].
  eexists. split; [|apply show_last; cbn [length]; lia].
  unfold shown_line. destruct hashline; [|by intros [_ ?]%app_nil]. intros [_ H]%app_nil. done.
Qed.

(** What follows the page. *)
Definition read_notice (limit : option Z) (start count n : Z) : Str :=
  if start + count =? n then []
  else match limit with
       | Some _ => [c_nl; c_nl] ++ str "[" ++ show_u64 (n - (start + count)) ++ str " more lines in file. Use offset=" ++
                   show_u64 (start + count + 1) ++ str " to continue.]"
       | None => [c_nl; c_nl; c_nl] ++ str "[Showing lines " ++ show_u64 (start + 1) ++ str "-" ++ show_u64 (start + count) ++
                 str " of " ++ show_u64 n ++ str ". Use offset=" ++ show_u64 (start + count + 1) ++ str " to continue.]"
       end.

Lemma show_window_beyond input start n raw : 0 ≤ default 0 (ri_offset input) → start = Z.max 0 (default 0 (ri_offset input) - 1) → 0 ≤ n ≤ start →
  show_window xxh32 is_alphanumeric input start (default usize_max (ri_limit input)) raw n =
    if (n =? 0) && (default 0 (ri_offset input) =? 0) then Ok ([], None, None) else Err (OffsetBeyondEnd (default 0 (ri_offset input)) n).
Proof.
  intros Ho Hs Hn. unfold show_window. destruct (Z.eqb_spec n 0); cbn [andb].
  - destruct (Z.ltb_spec 0 (default 0 (ri_offset input))), (Z.eqb_spec (default 0 (ri_offset input)) 0); (done || lia).
  - rw (proj2 (Z.leb_le n start)); [done|lia].
Qed.

(** The sizes of a page within the range of a [usize]. *)
Lemma page_sizes limit start : 0 < default 1 limit ≤ i64_max → 0 ≤ start ≤ i64_max →
  Z.min (default usize_max limit) (sat_add usize_max (default DEFAULT_MAX_LINES limit) 1) = default (DEFAULT_MAX_LINES + 1) limit ∧
  sat_add usize_max start (default (DEFAULT_MAX_LINES + 1) limit) = start + default (DEFAULT_MAX_LINES + 1) limit ∧
  sat_add usize_max start 1 = start + 1 ∧
  start < sat_add usize_max start (default usize_max limit) ∧
  sat_add usize_max start (default usize_max limit) - start = match limit with Some l => l | None => usize_max - start end.
Proof. unfold sat_add, i64_max, usize_max, u64_max, DEFAULT_MAX_LINES. destruct limit; cbn; lia. Qed.
(** The width the numbers are padded to. *)
Definition number_width (limit : option Z) (start n : Z) : nat :=
  Nat.max (length (show_u64 (Z.min (start + default (DEFAULT_MAX_LINES + 1) limit) n))) 5.

Lemma page_shown input start pg n : pg ≠ [] → Forall (λ l, (c_nl ∉ strip_nl l) ∧ (c_cr ∉ strip_nl l)) pg →
  let pl := imap (λ j, shown_line xxh32 is_alphanumeric (ri_hashline input) (number_width (ri_limit input) start n) (Z.to_nat start + j)) (strip_nl <$> pg) in
  pl ≠ [] ∧ Forall plain_line pl ∧ len pl = len pg.
Proof.
  intros Hne Hpl pl. split_and!.
  - unfold pl. by destruct pg.
  - refine (proj1 (shown_page_longer xxh32 is_alphanumeric (ri_hashline input) _ start (strip_nl <$> pg) _ _)); [by apply Forall_fmap|by destruct pg].
  - unfold len, pl. by rw length_imap length_fmap.
Qed.

(** A window of the page only. *)
Lemma show_window_page input start n pg : 0 ≤ start ≤ i64_max → 0 < default 1 (ri_limit input) ≤ i64_max → start < n < usize_max →
  pg ≠ [] → lines_of (concat pg) = pg → Forall (λ l, (c_nl ∉ strip_nl l) ∧ (c_cr ∉ strip_nl l)) pg → Forall scalar (concat pg) →
  len pg = Z.min (default DEFAULT_MAX_LINES (ri_limit input)) (n - start) → (ri_limit input = None → len pg = n - start) →
  let shown := shown_page xxh32 is_alphanumeric (ri_hashline input) (number_width (ri_limit input) start n) start (strip_nl <$> pg) in
  Z.of_nat (byte_len shown) < DEFAULT_MAX_BYTES →
  show_window xxh32 is_alphanumeric input start (default usize_max (ri_limit input)) (utf8_encode (concat pg)) n =
    Ok (shown ++ read_notice (ri_limit input) start (len pg) n, None, None).
Proof.
  intros Hs Hl Hn Hne Hpg Hpl Hsc Hlen Hnone shown Hb. destruct (page_sizes (ri_limit input) start Hl Hs) as (E1 & E2 & E3 & _ & _).
  unfold show_window. rw E1 E2 E3. fold (number_width (ri_limit input) start n).
  replace (from_utf8_lossy (utf8_encode (concat pg))) with (concat pg) by (rw -(app_nil_r (utf8_encode _)) lossy_encode // app_nil_r //).
  rw (proj2 (Z.eqb_neq n 0)); [|lia]. rw (proj2 (Z.leb_gt n start)); [|lia].
  rw select_page //; [|lia|destruct (ri_limit input); cbn in *; unfold DEFAULT_MAX_LINES in *; lia|lia|destruct (ri_limit input); cbn in *; lia|fold shown; lia].
  fold shown. destruct (page_shown input start pg n Hne Hpl) as (P1 & P2 & P3).
  pose proof (truncate_page _ (default DEFAULT_MAX_LINES (ri_limit input)) max_bytes_nat P1 P2 ltac:(lia)) as T.
  cbv zeta in T. fold (shown_page xxh32 is_alphanumeric (ri_hashline input) (number_width (ri_limit input) start n) start (strip_nl <$> pg)) in T. fold shown in T.
  destruct T as (T1 & T2 & T3 & T4); [unfold max_bytes_nat; lia|]. rw T1 T2 T3 T4 P3.
  rw (proj2 (Z.ltb_ge DEFAULT_MAX_BYTES _)); [|lia].
  assert (0 < len pg) as Hpos by (unfold len; destruct pg; [done|simpl; lia]).
  assert (sat_sub (sat_add usize_max (start + 1) (len pg)) 1 = start + len pg) as -> by (unfold sat_sub, sat_add; lia).
  assert (sat_add usize_max (start + len pg) 1 = start + len pg + 1) as -> by (unfold sat_add; lia).
  assert (sat_sub n (start + len pg) = n - (start + len pg)) as -> by (unfold sat_sub; lia).
  unfold read_notice. destruct (Z.ltb_spec (start + len pg) n), (Z.eqb_spec (start + len pg) n); try lia; [|by rw app_nil_r].
  destruct (ri_limit input); [done|]. specialize (Hnone eq_refl). lia.
Qed.

(** A window that goes on after the page. *)
Lemma show_window_more input start n pg rest : 0 ≤ start ≤ i64_max → ri_limit input = None → start + DEFAULT_MAX_LINES < n < usize_max →
  lines_of (concat pg) = pg → whole_lines (concat pg) → Forall (λ l, (c_nl ∉ strip_nl l) ∧ (c_cr ∉ strip_nl l)) pg → Forall scalar (concat pg) →
  len pg = DEFAULT_MAX_LINES → rest ≠ [] →
  let shown := shown_page xxh32 is_alphanumeric (ri_hashline input) (number_width (ri_limit input) start n) start (strip_nl <$> pg) in
  Z.of_nat (byte_len shown) < DEFAULT_MAX_BYTES →
  ∃ details spill, show_window xxh32 is_alphanumeric input start (default usize_max (ri_limit input)) (utf8_encode (concat pg) ++ rest) n =
    Ok (shown ++ read_notice (ri_limit input) start (len pg) n, Some details, spill).
Proof.
  intros Hs Hl Hn Hpg Hw Hpl Hsc Hlen Hr shown Hb. unfold shown in *. rewrite ->Hl in *. clear shown.
  destruct (page_sizes None start ltac:(unfold i64_max; cbn; lia) Hs) as (E1 & E2 & E3 & _ & _). cbn [default] in *.
  unfold show_window. rw Hl. cbn [default]. rw E1 E2 E3. change DEFAULT_MAX_LINES with (default DEFAULT_MAX_LINES None) in E2.
  change (Nat.max (length (show_u64 (Z.min (start + (DEFAULT_MAX_LINES + 1)) n))) 5) with (number_width None start n).
  rw lossy_encode //. pose proof (lossy_nonempty rest Hr) as Hx. set (more := from_utf8_lossy rest) in *.
  assert (pg ≠ []) as Hne by (intros ->; unfold len, DEFAULT_MAX_LINES in Hlen; simpl in Hlen; lia).
  rw (proj2 (Z.eqb_neq n 0)); [|unfold DEFAULT_MAX_LINES in *; lia]. rw (proj2 (Z.leb_gt n start)); [|unfold DEFAULT_MAX_LINES in *; lia].
  destruct (select_page_more (ri_hashline input) (number_width None start n) start n pg more ltac:(lia) Hne Hpg Hw Hx ltac:(lia)) as (x & Hx0 & Es); [lia|].
  rewrite <-Hlen. cbv zeta in Es. rw Es. clear Es.
  set (shown := shown_page _ _ _ _ _ _) in *.
  pose proof (page_shown input start pg n Hne Hpl) as (P1 & P2 & P3). rewrite ->Hl in *.
  pose proof (truncate_page_more _ x max_bytes_nat P1 P2 Hx0) as T. cbv zeta in T. fold (shown_page xxh32 is_alphanumeric (ri_hashline input) (number_width None start n) start (strip_nl <$> pg)) in T. fold shown in T.
  rewrite ->P3 in T. destruct T as (T1 & T2 & T3 & T4 & T5); [unfold max_bytes_nat; lia|]. rw T1 T2 T3 T4 T5.
  rewrite ->bool_decide_eq_true_2 by done.
  assert (0 < len pg) as Hpos by (unfold len; destruct pg; [done|simpl; lia]).
  assert (sat_sub (sat_add usize_max (start + 1) (len pg)) 1 = start + len pg) as -> by (unfold sat_sub, sat_add; lia).
  assert (sat_add usize_max (start + len pg) 1 = start + len pg + 1) as -> by (unfold sat_add; lia).
  eexists _, _. unfold read_notice. rw (proj2 (Z.eqb_neq (start + len pg) n)); [|lia]. rw -!app_assoc. reflexivity.
Qed.
(** What is collected of a text file. *)
Lemma read_text_window input text reads :
  Forall scalar text → concat reads = utf8_encode text → Forall (.≠ []) reads →
  0 < default 1 (ri_limit input) ≤ i64_max → 0 ≤ default 0 (ri_offset input) ≤ i64_max →
  let start := Z.max 0 (default 0 (ri_offset input) - 1) in
  let ls := lines_of (normalize_to_lf text) in
  read_text xxh32 is_alphanumeric input reads =
    show_window xxh32 is_alphanumeric input start (default usize_max (ri_limit input))
      (take max_bytes_nat (utf8_encode (concat (take (Z.to_nat (default (usize_max - start) (ri_limit input))) (drop (Z.to_nat start) ls))))) (len ls).
Proof.
  intros Hsc Hreads Hne Hl Ho start ls. destruct (normal_text text Hsc) as (ET & _ & _).
  assert (0 ≤ start ≤ i64_max) as Hs by (unfold start, i64_max in *; lia).
  destruct (page_sizes (ri_limit input) start Hl Hs) as (_ & _ & _ & E4 & E5).
  pose proof (read_file_spec start _ reads E4 ltac:(lia) Hne) as R. cbv zeta in R. rewrite ->Hreads, ET, window_text, lines_of_encode, E5 in R.
  replace (len (utf8_encode <$> lines_of (normalize_to_lf text))) with (len ls) in R by (unfold len; by rw length_fmap).
  unfold read_text, invalid_input.
  replace (match ri_limit input with Some limit => limit <=? 0 | None => false end) with false by (destruct (ri_limit input); cbn in *; lia).
  replace (match ri_offset input with Some offset => offset <? 0 | None => false end) with false by (destruct (ri_offset input); cbn in *; lia).
  replace (match ri_offset input with Some n => if 0 <? n then n - 1 else 0 | None => 0 end) with start
    by (unfold start; destruct (ri_offset input) as [o|]; cbn; [destruct (Z.ltb_spec 0 o)|]; lia).
  rw R. by destruct (ri_limit input).
Qed.

(** C29: reading shows the page asked for.  However the operating system cuts a
    text file into reads, inside a character or a line end too, the tool shows
    the lines from the offset on, up to the limit (2000 without one), with
    their numbers or tags and with all three kinds of line ends recognised, as
    long as that is under a megabyte; when lines are left it says so and names
    the next line as the offset to go on from, so that the pages are the whole
    file without gap or overlap.  An offset after the last line is an error.
    [details] and [spill] stand for what accompanies the text. *)
Theorem read_shows_the_page input text reads :
  Forall scalar text → concat reads = utf8_encode text → Forall (.≠ []) reads →
  0 < default 1 (ri_limit input) ≤ i64_max → 0 ≤ default 0 (ri_offset input) ≤ i64_max →
  let file_lines := strip_nl <$> lines_of (normalize_to_lf text) in
  let n := len file_lines in
  let start := Z.max 0 (default 0 (ri_offset input) - 1) in
  let count := Z.min (default DEFAULT_MAX_LINES (ri_limit input)) (n - start) in
  let page := take (Z.to_nat count) (drop (Z.to_nat start) file_lines) in
  let width := number_width (ri_limit input) start n in
  let shown := shown_page xxh32 is_alphanumeric (ri_hashline input) width start page in
  n < usize_max → Z.of_nat (byte_len shown) < DEFAULT_MAX_BYTES →
  if n <=? start then
    read_text xxh32 is_alphanumeric input reads =
      if (n =? 0) && (default 0 (ri_offset input) =? 0) then Ok ([], None, None) else Err (OffsetBeyondEnd (default 0 (ri_offset input)) n)
  else ∃ details spill, read_text xxh32 is_alphanumeric input reads = Ok (shown ++ read_notice (ri_limit input) start count n, details, spill).
Proof.
  intros Hsc Hreads Hne Hl Ho file_lines n start count page width shown Hn Hb.
  destruct (normal_text text Hsc) as (ET & HT & Hcr). set (T := normalize_to_lf text) in *.
  assert (n = len (lines_of T)) as En by (unfold n, len, file_lines; by rw length_fmap).
  assert (0 ≤ start ≤ i64_max) as Hs by (unfold start, i64_max in *; lia).
  rw (read_text_window input text reads) //; fold T start n; rewrite <-En; fold n.
  destruct (Z.leb_spec n start) as [Hle|Hlt]; [apply show_window_beyond; [lia|done|unfold n, len in *; lia]|].
  set (pg := take (Z.to_nat count) (drop (Z.to_nat start) (lines_of T))).
  assert (len pg = count ∧ 0 < count) as [Hlen Hpos] by (unfold pg, len in *; rw length_take length_drop; unfold count, DEFAULT_MAX_LINES; destruct (ri_limit input); cbn in *; lia).
  assert (pg ≠ []) as Hpg by (intros E; rewrite ->E in Hlen; unfold len in Hlen; simpl in Hlen; lia).
  assert (page = strip_nl <$> pg) as Ep by (unfold page, file_lines, pg; by rw fmap_take fmap_drop).
  destruct (page_plain (Z.to_nat count) (Z.to_nat start) T Hcr) as [Hpl Hbl]. fold pg in Hpl, Hbl.
  pose proof (page_lines (Z.to_nat count) (Z.to_nat start) T) as Hown. fold pg in Hown.
  pose proof (forall_lines (Z.to_nat count) (Z.to_nat start) T HT) as Hps. fold pg in Hps.
  assert (byte_len (concat pg) ≤ byte_len shown)%nat as Hbytes.
  { etrans; [by apply page_bytes|]. unfold shown. rw Ep. apply shown_page_longer; [by apply Forall_fmap|by destruct pg]. }
  destruct (decide (ri_limit input = None ∧ start + DEFAULT_MAX_LINES < n)) as [[Hnone Hmore]|Hcase].
  - rw Hnone. cbn [default]. set (rest_ := utf8_encode (concat (drop (Z.to_nat count + Z.to_nat start) (lines_of T)))).
    rw (take_ge (drop _ _)); [|rw length_drop; unfold len in *; lia]. rewrite <-(take_drop (Z.to_nat count) (drop (Z.to_nat start) (lines_of T))). fold pg.
    rw concat_app utf8_encode_app drop_drop Nat.add_comm. fold rest_.
    rw take_app_ge; [|rw length_utf8_encode; unfold max_bytes_nat; lia]. rw length_utf8_encode -Hlen.
    assert (count = DEFAULT_MAX_LINES) as Hc by (unfold count; rw Hnone; cbn; lia).
    assert (rest_ ≠ []) as Hr.
    { intros E. apply (f_equal length) in E. unfold rest_ in E. rewrite ->length_utf8_encode in E.
      assert (concat (drop (Z.to_nat count + Z.to_nat start) (lines_of T)) ≠ []) as H by (apply drop_lines_nonempty; unfold len in *; lia).
      pose proof (byte_len_pos _ H). simpl in E. lia. }
    unfold shown in *. rewrite ->Ep in *.
    edestruct (show_window_more input start n pg (take (max_bytes_nat - byte_len (concat pg)) rest_)) as (d & sp & E); try done.
    + unfold pg. rewrite <-(lines_of_drop (Z.to_nat start) T) at 1. apply first_lines_whole. rw lines_of_drop length_drop. unfold len in *. lia.
    + by rw Hlen.
    + intros H. apply (f_equal length) in H. rewrite ->length_take in H. destruct rest_; [done|]. unfold max_bytes_nat in H. simpl in H. lia.
    + exists (Some d), sp. rewrite ->Hnone in E. unfold width. rw Hnone. exact E.
  - assert (count = Z.min (default (n - start) (ri_limit input)) (n - start)) as Hc.
    { unfold count. destruct (ri_limit input) eqn:El; [done|]. cbn. destruct (Z.le_gt_cases n (start + DEFAULT_MAX_LINES)); [lia|]. exfalso. apply Hcase. split; [done|lia]. }
    assert (take (Z.to_nat (default (usize_max - start) (ri_limit input))) (drop (Z.to_nat start) (lines_of T)) = pg) as ->.
    { unfold pg. destruct (Z.leb_spec (n - start) (default (usize_max - start) (ri_limit input))) as [Hfit|Hcut].
      - rw !take_ge //; rw length_drop; rw ?Hc; unfold len in *; destruct (ri_limit input); cbn in *; lia.
      - f_equal. f_equal. rw Hc. destruct (ri_limit input); cbn in *; lia. }
    rw take_ge; [|rw length_utf8_encode; unfold max_bytes_nat; lia]. unfold shown in *. rewrite ->Ep in *. rewrite <-Hlen.
    eexists _, _. apply show_window_page; try done.
    intros E. rw Hlen Hc E. cbn. lia.
Qed.
End Claim.

(** A file of three lines whose first line end is cut by a read; the second
    line is asked for. *)
Lemma read_shows_the_page_witness :
  ∃ details spill, read_text (λ _ _, 0) (λ _, true) (mkReadInput [] (Some 2) (Some 1) false) [str "a" ++ [13%N]; [10%N] ++ str "b" ++ [10%N]; str "c"] =
    Ok (str "    2" ++ [8594%N] ++ str "b" ++ [10; 10]%N ++ str "[1 more lines in file. Use offset=3 to continue.]", details, spill).
Proof.
  pose proof (read_shows_the_page (λ _ _, 0) (λ _, true) (mkReadInput [] (Some 2) (Some 1) false)
    (str "a" ++ [13; 10]%N ++ str "b" ++ [10%N] ++ str "c") [str "a" ++ [13%N]; [10%N] ++ str "b" ++ [10%N]; str "c"]) as H.
  cbv zeta in H.
  refine (H _ _ _ _ _ _ _).
  - repeat constructor; vm_compute; auto.
  - reflexivity.
  - repeat constructor; discriminate.
  - vm_compute. split; [reflexivity|discriminate].
  - vm_compute. split; discriminate.
  - vm_compute. reflexivity.
  - vm_compute. reflexivity.
Defined.
