(* ===== verification/LineOutput.v ===== *)
(** * Paths and diagnostics on one line ([src/tools.rs])

    File names and messages of other programs are bytes that may hold line
    feeds, escape sequences and invalid UTF-8.  The search tools print one
    result per line, so they are escaped first; diagnostics are also stripped
    of terminal sequences. *)

From S2P Require Import Prelude Text Utf8 Utf8Bytes.

(** ** Escaping *)

(** [char::is_control] *)
Definition is_control (c : N) : bool := (c <? 32)%N || ((127 <=? c)%N && (c <=? 159)%N).

Definition hex_lower (d : N) : N := (if d <? 10 then 48 + d else 87 + d)%N.
Definition hex_upper (d : N) : N := (if d <? 10 then 48 + d else 55 + d)%N.

Fixpoint show_hex (fuel : nat) (n : N) : Str :=
  match fuel with
  | O => []
  | S f => (if (n <? 16)%N then [] else show_hex f (n / 16)) ++ [hex_lower (n mod 16)]
  end.

(** [char::escape_unicode]; a character has at most six hexadecimal digits. *)
Definition escape_unicode (c : N) : Str := [c_backslash; 117%N; 123%N] ++ show_hex 6 c ++ [125%N].

Definition escape_char (character : N) : Str :=
  if (character =? c_backslash)%N then [c_backslash; c_backslash]
  else if (character =? c_nl)%N then [c_backslash; 110%N]
  else if (character =? c_cr)%N then [c_backslash; 114%N]
  else if (character =? c_tab)%N then [c_backslash; 116%N]
  else if is_control character then escape_unicode character
  else [character].

Definition push_escaped_utf8_for_line_output (text : Str) : Str := text ≫= escape_char.

Definition escape_byte (byte : N) : Str := [c_backslash; 120%N; hex_upper (byte / 16); hex_upper (byte mod 16)].

Fixpoint escape_loop (fuel : nat) (remaining : ByteStr) : Str :=
  match fuel, remaining with
  | S fuel', _ :: _ =>
      match from_utf8 remaining with
      | Ok valid => push_escaped_utf8_for_line_output valid
      | Err error =>
          let upto := valid_up_to error in
          let valid := match from_utf8 (take upto remaining) with Ok valid => valid | Err _ => [] end in
          let invalid_len := default (length remaining - upto)%nat (error_len error) in
          push_escaped_utf8_for_line_output valid ++ (take invalid_len (drop upto remaining) ≫= escape_byte) ++
          escape_loop fuel' (drop (upto + invalid_len) remaining)
      end
  | _, _ => []
  end.
Definition escape_bytes_for_line_output (bytes : ByteStr) : Str := escape_loop (length bytes) bytes.

(** ** Terminal sequences *)

Fixpoint skip_csi (bytes : ByteStr) : ByteStr :=
  match bytes with
  | [] => []
  | byte :: rest => if (64 <=? byte)%N && (byte <=? 126)%N then rest else skip_csi rest
  end.

Fixpoint skip_string_sequence (osc : bool) (bytes : ByteStr) : ByteStr :=
  match bytes with
  | [] => []
  | byte :: rest =>
      if osc && (byte =? 7)%N then rest
      else match rest with
           | next :: rest' => if (byte =? 27)%N && (next =? 92)%N then rest' else skip_string_sequence osc rest
           | [] => []
           end
  end.

Fixpoint strip_loop (fuel : nat) (bytes : ByteStr) : ByteStr :=
  match fuel, bytes with
  | S fuel', byte :: rest =>
      if (byte =? 27)%N then
        match rest with
        | [] => []
        | kind :: rest' =>
            if (kind =? 91)%N then strip_loop fuel' (skip_csi rest')
            else if (kind =? 93)%N then strip_loop fuel' (skip_string_sequence true rest')
            else if bool_decide (kind ∈ [80%N; 88%N; 94%N; 95%N]) then strip_loop fuel' (skip_string_sequence false rest')
            else strip_loop fuel' rest'
        end
      else if (byte =? 155)%N then strip_loop fuel' (skip_csi rest)
      else if bool_decide (byte ∈ [144%N; 152%N; 158%N; 159%N]) then strip_loop fuel' (skip_string_sequence false rest)
      else if (byte =? 157)%N then strip_loop fuel' (skip_string_sequence true rest)
      else byte :: strip_loop fuel' rest
  | _, _ => []
  end.
Definition strip_ansi_sequences (bytes : ByteStr) : ByteStr := strip_loop (length bytes) bytes.

Fixpoint trim_bytes_start (bytes : ByteStr) : ByteStr :=
  match bytes with b :: rest => if is_ascii_whitespace b then trim_bytes_start rest else bytes | [] => [] end.

(** [sanitized[first..=last]]: between the first and the last byte that is not
    white space; empty when there is none. *)
Definition trim_bytes (bytes : ByteStr) : ByteStr :=
  reverse (trim_bytes_start (reverse (trim_bytes_start bytes))).

Definition diagnostic_for_line_output (bytes : ByteStr) (truncated : bool) : Str :=
  let sanitized := strip_ansi_sequences bytes in
  if is_empty (trim_bytes sanitized) then if truncated then str "... [stderr truncated] ..." else []
  else escape_bytes_for_line_output (trim_bytes sanitized) ++ (if truncated then str " ... [stderr truncated] ..." else []).

(** [error] is the [Display] text of the error. *)
Definition error_for_line_output (error : Str) : Str := diagnostic_for_line_output (utf8_encode error) false.

(** On Unix a path is its bytes. *)
Definition path_for_line_output (path : ByteStr) : Str := escape_bytes_for_line_output path.

(** ** Reading an escaped text back *)

Inductive Token := TChar (c : N) | TByte (b : N).

Definition render (t : Token) : Str := match t with TChar c => escape_char c | TByte b => escape_byte b end.
Definition token_bytes (t : Token) : ByteStr := match t with TChar c => encode_char c | TByte b => [b] end.
Definition token_ok (t : Token) : Prop := match t with TChar c => scalar c | TByte b => (b < 256)%N end.

Definition hex_value (c : N) : N := (if c <=? 57 then c - 48 else if c <=? 70 then c - 55 else c - 87)%N.

Fixpoint read_hex (acc : N) (s : Str) : option (N * Str) :=
  match s with
  | [] => None
  | c :: s' => if (c =? 125)%N then Some (acc, s') else read_hex (acc * 16 + hex_value c)%N s'
  end.

Definition read_token (s : Str) : option (Token * Str) :=
  match s with
  | [] => None
  | c :: s1 =>
      if negb (c =? c_backslash)%N then Some (TChar c, s1)
      else match s1 with
           | [] => None
           | k :: s2 =>
               if (k =? c_backslash)%N then Some (TChar c_backslash, s2)
               else if (k =? 110)%N then Some (TChar c_nl, s2)
               else if (k =? 114)%N then Some (TChar c_cr, s2)
               else if (k =? 116)%N then Some (TChar c_tab, s2)
               else if (k =? 120)%N then
                 match s2 with h :: l :: s3 => Some (TByte (hex_value h * 16 + hex_value l)%N, s3) | _ => None end
               else match s2 with
                    | _ :: s3 => (λ '(n, r), (TChar n, r)) <$> read_hex 0 s3
                    | [] => None
                    end
           end
  end.

Lemma hex_value_lower d : (d < 16)%N → hex_value (hex_lower d) = d ∧ (hex_lower d =? 125)%N = false.
Proof.
  intros Hd. unfold hex_value, hex_lower. destruct (N.ltb_spec d 10).
  - rw (proj2 (N.leb_le _ _)); [|lia]. split; [lia|]. apply N.eqb_neq. lia.
  - rw (proj2 (N.leb_gt _ _)); [|lia]. rw (proj2 (N.leb_gt _ _)); [|lia]. split; [lia|]. apply N.eqb_neq. lia.
Qed.

Lemma hex_value_upper d : (d < 16)%N → hex_value (hex_upper d) = d.
Proof.
  intros Hd. unfold hex_value, hex_upper. destruct (N.ltb_spec d 10).
  - rw (proj2 (N.leb_le _ _)); [|lia]. lia.
  - rw (proj2 (N.leb_gt _ _)); [|lia]. rw (proj2 (N.leb_le _ _)); lia.
Qed.

Lemma read_show_hex f n r : (n < 16 ^ N.of_nat f)%N → (0 < f)%nat → read_hex 0 (show_hex f n ++ r) = read_hex n r.
Proof.
  revert n r. induction f as [|f IH]; intros n r Hn Hf; [lia|]. cbn [show_hex]. rw -app_assoc.
  pose proof (N.mod_lt n 16 ltac:(lia)) as Hm. pose proof (N.div_mod n 16 ltac:(lia)) as Hd.
  destruct (hex_value_lower (n mod 16) Hm) as [Hv Hb]. destruct (N.ltb_spec n 16).
  - cbn [app read_hex]. rw Hb Hv N.mod_small //.
  - rw IH.
    + cbn [app read_hex]. rw Hb Hv. f_equal. lia.
    + apply N.Div0.div_lt_upper_bound. rewrite ->Nat2N.inj_succ, N.pow_succ_r' in Hn. done.
    + destruct f; [|lia]. simpl in Hn. lia.
Qed.

Lemma read_render t r : token_ok t → read_token (render t ++ r) = Some (t, r).
Proof.
  destruct t as [c|b]; intros Hok; cbn [render].
  - unfold escape_char. destruct (N.eqb_spec c c_backslash) as [->|H1]; [done|]. destruct (N.eqb_spec c c_nl) as [->|H2]; [done|].
    destruct (N.eqb_spec c c_cr) as [->|H3]; [done|]. destruct (N.eqb_spec c c_tab) as [->|H4]; [done|].
    destruct (is_control c); [|cbn [app read_token]; by rw (proj2 (N.eqb_neq c c_backslash))].
    assert (∀ s, read_token ([c_backslash; 117%N; 123%N] ++ s) = (λ '(n, r), (TChar n, r)) <$> read_hex 0 s) as Hu by done.
    unfold escape_unicode. rw -(app_assoc [c_backslash; 117%N; 123%N]) Hu -app_assoc read_show_hex; [done| |lia].
    unfold token_ok, scalar in Hok. simpl. lia.
  - assert (∀ h l s, read_token ([c_backslash; 120%N; h; l] ++ s) = Some (TByte (hex_value h * 16 + hex_value l)%N, s)) as Hx by done.
    unfold escape_byte. rw Hx. pose proof (N.mod_lt b 16 ltac:(lia)). pose proof (N.div_mod b 16 ltac:(lia)).
    rw !hex_value_upper //; [|apply N.Div0.div_lt_upper_bound; exact Hok]. do 3 f_equal. lia.
Qed.

Lemma render_inj ts ts' : Forall token_ok ts → Forall token_ok ts' → ts ≫= render = ts' ≫= render → ts = ts'.
Proof.
  intros H. revert ts'. induction H as [|t ts Ht Hts IH]; intros ts' H' E.
  - destruct H' as [|t' ts' Ht' Hts']; [done|]. cbn in E. pose proof (read_render t' (ts' ≫= render) Ht') as Hr. by rewrite <-E in Hr.
  - destruct H' as [|t' ts' Ht' Hts']; cbn [mbind list_bind] in E.
    + pose proof (read_render t (ts ≫= render) Ht) as Hr. by rewrite ->E in Hr.
    + pose proof (read_render t (ts ≫= render) Ht) as Hr. pose proof (read_render t' (ts' ≫= render) Ht') as Hr'.
      rewrite ->E in Hr. rewrite ->Hr in Hr'. injection Hr' as -> E'. f_equal. by apply IH.
Qed.

(** ** Claims *)

Lemma escape_text_tokens s : Forall scalar s →
  push_escaped_utf8_for_line_output s = (TChar <$> s) ≫= render ∧ utf8_encode s = (TChar <$> s) ≫= token_bytes ∧ Forall token_ok (TChar <$> s).
Proof.
  unfold push_escaped_utf8_for_line_output, utf8_encode. intros Hs.
  split; [|split; [|by apply Forall_fmap]]; clear Hs; (induction s as [|c s IH]; [done|]; cbn; by rw IH).
Qed.

Lemma escape_bytes_tokens (l : ByteStr) : Forall (λ b, b < 256)%N l →
  l ≫= escape_byte = (TByte <$> l) ≫= render ∧ l = (TByte <$> l) ≫= token_bytes ∧ Forall token_ok (TByte <$> l).
Proof.
  intros Hs. split; [|split; [|by apply Forall_fmap]]; clear Hs; (induction l as [|c s IH]; [done|]; cbn; by rw -IH).
Qed.

Lemma from_utf8_cases (bytes : ByteStr) :
  match from_utf8 bytes with
  | Ok s => bytes = utf8_encode s ∧ Forall scalar s
  | Err e => ∃ s t, bytes = utf8_encode s ++ t ∧ Forall scalar s ∧ valid_up_to e = length (utf8_encode s) ∧
      (1 ≤ default (length bytes - valid_up_to e) (error_len e) ≤ length t)%nat
  end.
Proof.
  unfold from_utf8. destruct (utf8_run (length bytes) bytes) as [s en] eqn:E. change (utf8_of bytes = (s, en)) in E.
  apply utf8_of_spec in E as (Hs & t & -> & Hr). destruct en as [|n|]; simpl in Hr.
  - subst t. by rw app_nil_r.
  - destruct Hr as [Ht Hd%decode_one_invalid]. exists s, t. done.
  - destruct Hr as [Ht _]. exists s, t. split_and!; try done; cbn [default valid_up_to error_len]; rw length_app; destruct t; simpl in *; (done || lia).
Qed.

Lemma escape_loop_tokens fuel bytes : (length bytes ≤ fuel)%nat → Forall (λ b, b < 256)%N bytes →
  ∃ ts, Forall token_ok ts ∧ escape_loop fuel bytes = ts ≫= render ∧ bytes = ts ≫= token_bytes.
Proof.
  revert bytes. induction fuel as [|fuel IH]; intros bytes Hf Hb.
  { assert (bytes = []) as -> by (destruct bytes; [done|simpl in Hf; lia]). by exists []. }
  destruct (decide (bytes = [])) as [->|Hne]; [by exists []|].
  assert (escape_loop (S fuel) bytes = match from_utf8 bytes with
    | Ok valid => push_escaped_utf8_for_line_output valid
    | Err error =>
        push_escaped_utf8_for_line_output (match from_utf8 (take (valid_up_to error) bytes) with Ok valid => valid | Err _ => [] end) ++
        (take (default (length bytes - valid_up_to error)%nat (error_len error)) (drop (valid_up_to error) bytes) ≫= escape_byte) ++
        escape_loop fuel (drop (valid_up_to error + default (length bytes - valid_up_to error)%nat (error_len error)) bytes)
    end) as -> by by destruct bytes.
  pose proof (from_utf8_cases bytes) as H. destruct (from_utf8 bytes) as [s|e].
  { destruct H as [-> Hs]. destruct (escape_text_tokens s Hs) as (H1 & H2 & H3). exists (TChar <$> s). by rw H1 H2. }
  destruct H as (s & t & -> & Hs & -> & Hn). set (k := default _ _) in *.
  apply Forall_app in Hb as [_ Ht]. destruct (escape_text_tokens s Hs) as (H1 & H2 & H3).
  destruct (escape_bytes_tokens (take k t) (Forall_take _ _ _ Ht)) as (H4 & H5 & H6).
  destruct (IH (drop k t)) as (ts & Hts & E1 & E2); [rewrite ->length_app in Hf; rw length_drop; lia|by apply Forall_drop|].
  exists ((TChar <$> s) ++ (TByte <$> take k t) ++ ts). split; [by repeat (apply Forall_app; split)|].
  rw take_app_length drop_app_length from_utf8_encode // drop_app_add' // H1 H4 E1 !bind_app. split; [done|].
  rw -H2 -H5 -E2 take_drop //.
Qed.

Lemma escape_char_printable c x : x ∈ escape_char c → is_control x = false.
Proof.
  assert (∀ l, forallb (λ y, negb (is_control y)) l = true → x ∈ l → is_control x = false) as Hl.
  { intros l Hall Hx. rewrite ->forallb_forall in Hall. apply negb_true_iff, Hall. by apply list_elem_of_In. }
  unfold escape_char. repeat (case_match; [by apply Hl|]). case_match eqn:E; [|intros ->%list_elem_of_singleton; done].
  assert (∀ f n, forallb (λ y, negb (is_control y)) (show_hex f n) = true) as Hh.
  { intros f. induction f as [|f IH]; intros n; [done|]. cbn [show_hex]. rw forallb_app. apply andb_true_iff. split; [case_match; [done|apply IH]|].
    pose proof (N.mod_lt n 16 ltac:(lia)). simpl. rw andb_true_r. apply negb_true_iff. unfold is_control, hex_lower.
    destruct (N.ltb_spec (n mod 16) 10); apply orb_false_iff; (split; [apply N.ltb_ge; lia|apply andb_false_iff; left; apply N.leb_gt; lia]). }
  apply Hl. unfold escape_unicode. rewrite ->!forallb_app, Hh. done.
Qed.

Lemma escape_byte_printable b x : (b < 256)%N → x ∈ escape_byte b → is_control x = false.
Proof.
  intros Hb. assert (∀ d, (d < 16)%N → is_control (hex_upper d) = false) as Hd.
  { intros d Hd. unfold is_control, hex_upper. destruct (N.ltb_spec d 10); apply orb_false_iff;
      (split; [apply N.ltb_ge; lia|apply andb_false_iff; left; apply N.leb_gt; lia]). }
  unfold escape_byte. rewrite ->!elem_of_cons. pose proof (N.mod_lt b 16 ltac:(lia)).
  assert (b / 16 < 16)%N by (apply N.Div0.div_lt_upper_bound; exact Hb).
  intros [->|[->|[->|[->|Hx]]]]; [done|done|by apply Hd|by apply Hd|by apply not_elem_of_nil in Hx].
Qed.

(** C30: an escaped name is one printable line and names one thing.  The text
    shown for a sequence of bytes has no control character, so in particular
    no line feed, and two different sequences of bytes, valid UTF-8 or not,
    are never shown the same. *)
Theorem escaped_names_are_unambiguous a b : Forall (λ x, x < 256)%N a → Forall (λ x, x < 256)%N b →
  (∀ x, x ∈ escape_bytes_for_line_output a → is_control x = false) ∧
  (path_for_line_output a = path_for_line_output b → a = b).
Proof.
  intros Ha Hb. unfold path_for_line_output, escape_bytes_for_line_output.
  destruct (escape_loop_tokens (length a) a (Nat.le_refl _) Ha) as (ts & Hts & Ea & Ta).
  destruct (escape_loop_tokens (length b) b (Nat.le_refl _) Hb) as (us & Hus & Eb & Tb). rw Ea Eb. split.
  - intros x Hx. apply list_elem_of_bind in Hx as (t & Hx & Ht). rewrite ->Forall_forall in Hts. specialize (Hts t Ht).
    destruct t; [by eapply escape_char_printable|by eapply escape_byte_printable].
  - intros E%render_inj; [|done|done]. rw Ta Tb E //.
Qed.

Lemma escaped_names_are_unambiguous_witness :
  escape_bytes_for_line_output [97; 10; 195; 169; 255]%N = str "a\n" ++ [233%N] ++ str "\xFF" ∧
  path_for_line_output [97; 10]%N ≠ path_for_line_output [97; 92; 110]%N.
Proof.
  split; [vm_compute; reflexivity|]. intros E.
  pose proof (proj2 (escaped_names_are_unambiguous [97; 10]%N [97; 92; 110]%N ltac:(repeat constructor) ltac:(repeat constructor)) E) as H.
  discriminate H.
Defined.

(** A sequence without escape bytes or eight-bit controls is kept. *)
Lemma plain_diagnostics_are_kept bytes :
  Forall (λ b, b ≠ 27 ∧ ¬ (144 <= b <= 159))%N bytes → strip_ansi_sequences bytes = bytes.
Proof.
  unfold strip_ansi_sequences. induction 1 as [|b bytes [H1 H2] _ IH]; [done|]. cbn [length strip_loop].
  rw (proj2 (N.eqb_neq b 27)) // (proj2 (N.eqb_neq b 155)); [|lia]. rw bool_decide_false; [|rewrite ->!elem_of_cons, elem_of_nil; lia].
  rw (proj2 (N.eqb_neq b 157)); [|lia]. by rw IH.
Qed.

(** The eight-bit controls are looked for among the bytes of UTF-8 text, where
    they continue a character: a closing quotation mark ends the message. *)
Example quotation_mark_ends_the_message :
  error_for_line_output (str "unknown " ++ [8220%N] ++ str "x" ++ [8221%N] ++ str " in line 3") =
  str "unknown " ++ [8220%N] ++ str "x\xE2\x80".
Proof. vm_compute. reflexivity. Qed.
