(* ===== verification/FileSystem.v ===== *)
(** * Paths and files

    The operations of [std::path] and [std::fs] that the code calls, on a tree
    with symbolic links, and the functions of the program that decide where a
    path leads: [safe_canonicalize] ([src/extensions.rs]) and
    [enforce_cwd_scope] ([src/tools.rs]). *)

From S2P Require Import Prelude Text Utf8 Utf8Bytes.

(** An absolute path without links: the names from the root on. *)
Abbreviation Path := (list Str).

(** [std::path::Component] of a Unix path. *)
Inductive Component :=
| RootDir
| CurDir
| ParentDir
| Normal (name : Str).

Definition dot : Str := str ".".
Definition dot_dot : Str := str "..".

Fixpoint split_slash (s : Str) : list Str :=
  match s with
  | [] => [[]]
  | c :: s' =>
      if (c =? c_slash)%N then [] :: split_slash s'
      else match split_slash s' with p :: ps => (c :: p) :: ps | [] => [[c]] end
  end.

Definition component (part : Str) : list Component :=
  if bool_decide (part = []) || bool_decide (part = dot) then []
  else if bool_decide (part = dot_dot) then [ParentDir]
  else [Normal part].

(** [Path::new(s).components()] *)
Definition components (s : Str) : list Component :=
  match split_slash s with
  | [] :: (_ :: _) as parts => RootDir :: (parts ≫= component)
  | first :: parts => (if bool_decide (first = dot) then [CurDir] else component first) ++ (parts ≫= component)
  | [] => []
  end.

(** [parts.join("/")] *)
Fixpoint join_slash (parts : list Str) : Str :=
  match parts with
  | [] => []
  | [p] => p
  | p :: ps => p ++ [c_slash] ++ join_slash ps
  end.

Inductive Node :=
| NFile (bytes : ByteStr)
| NDir
| NLink (target : list Component).

(** What is stored at a path whose parents are directories; the root is not
    in the map. *)
Abbreviation FS := (gmap Path Node).

Inductive IoError :=
| NotFound
| OtherError.

(** The number of links the system follows before it gives up. *)
Definition MAX_LINKS : nat := 40.

(** Following a path from the directory [at_]; with [create], the last name
    need not exist. *)
Fixpoint resolve (create : bool) (links : nat) (fs : FS) : Path → list Component → result Path IoError :=
  fix go (at_ : Path) (todo : list Component) {struct todo} : result Path IoError :=
    match todo with
    | [] => Ok at_
    | RootDir :: rest => go [] rest
    | CurDir :: rest => go at_ rest
    | ParentDir :: rest => go (removelast at_) rest
    | Normal name :: rest =>
        match fs !! (at_ ++ [name]) with
        | Some NDir => go (at_ ++ [name]) rest
        | Some (NFile _) => match rest with [] => Ok (at_ ++ [name]) | _ => Err OtherError end
        | Some (NLink target) =>
            match links with
            | O => Err OtherError
            | S links' => resolve create links' fs at_ (target ++ rest)
            end
        | None => match rest with [] => if create then Ok (at_ ++ [name]) else Err NotFound | _ => Err NotFound end
        end
    end.

Definition names (p : Path) : list Component := Normal <$> p.

(** [std::fs::canonicalize] of an absolute path *)
Definition canonicalize (fs : FS) (path : list Component) : result Path IoError := resolve false MAX_LINKS fs [] path.

Definition node (fs : FS) (p : Path) : option Node := match p with [] => Some NDir | _ => fs !! p end.

(** [std::fs::read] *)
Definition fs_read (fs : FS) (p : Path) : result ByteStr IoError :=
  let? q := canonicalize fs (names p) in
  match node fs q with Some (NFile bytes) => Ok bytes | _ => Err OtherError end.

(** [std::fs::write]: follows links, creates the file. *)
Definition fs_write (fs : FS) (p : Path) (bytes : ByteStr) : result FS IoError :=
  let? q := resolve true MAX_LINKS fs [] (names p) in
  match node fs q with Some NDir => Err OtherError | _ => Ok (<[q := NFile bytes]> fs) end.

(** Where the entry [p] itself is, its last name not followed. *)
Definition locate (fs : FS) (p : Path) : result Path IoError :=
  match last p with
  | None => Ok []
  | Some name =>
      let? d := canonicalize fs (names (removelast p)) in
      match node fs d with Some NDir => Ok (d ++ [name]) | _ => Err OtherError end
  end.

(** [std::fs::symlink_metadata] *)
Definition symlink_metadata (fs : FS) (p : Path) : result Node IoError :=
  let? q := locate fs p in
  match node fs q with Some n => Ok n | None => Err NotFound end.

(** [std::fs::remove_file] *)
Definition remove_file (fs : FS) (p : Path) : result FS IoError :=
  let? q := locate fs p in
  match node fs q with
  | Some NDir => Err OtherError
  | Some _ => Ok (delete q fs)
  | None => Err NotFound
  end.

(** [Path::exists], [Path::is_dir] *)
Definition exists_at (fs : FS) (p : Path) : bool := match canonicalize fs (names p) with Ok _ => true | Err _ => false end.
Definition is_dir (fs : FS) (p : Path) : bool :=
  match canonicalize fs (names p) with
  | Ok q => match node fs q with Some NDir => true | _ => false end
  | Err _ => false
  end.

(** [std::fs::create_dir] *)
Definition create_dir (fs : FS) (p : Path) : result FS IoError :=
  let? q := locate fs p in
  match node fs q with None => Ok (<[q := NDir]> fs) | Some _ => Err OtherError end.

(** [std::fs::create_dir_all]: the parents first, a directory that exists is
    fine. *)
Fixpoint create_dir_all_from (fs : FS) (done todo : Path) : result FS IoError :=
  match todo with
  | [] => Ok fs
  | name :: rest =>
      let p := done ++ [name] in
      if is_dir fs p then create_dir_all_from fs p rest
      else let? fs := create_dir fs p in create_dir_all_from fs p rest
  end.
Definition create_dir_all (fs : FS) (p : Path) : result FS IoError := create_dir_all_from fs [] p.

(** [normalize_dot_segments]: whether the path is absolute, and its parts. *)
Definition dot_segment (st : bool * list Str) (c : Component) : bool * list Str :=
  let '(has_root, normals) := st in
  match c with
  | RootDir => (true, normals)
  | CurDir => (has_root, normals)
  | ParentDir =>
      match last normals with
      | Some part => if bool_decide (part ≠ dot_dot) then (has_root, removelast normals)
                     else (has_root, if has_root then normals else normals ++ [dot_dot])
      | None => (has_root, if has_root then normals else normals ++ [dot_dot])
      end
  | Normal part => (has_root, normals ++ [part])
  end.
Definition normalize_dot_segments (path : list Component) : bool * list Str := foldl dot_segment (false, []) path.

(** The loop over the ancestors of an absolute path, longest first. *)
Fixpoint anchor (fs : FS) (path : list Component) (k : nat) : option Path :=
  match canonicalize fs (take k path) with
  | Ok canonical_ancestor => Some (normalize_dot_segments (RootDir :: names canonical_ancestor ++ drop k path)).2
  | Err _ => match k with O => None | S k' => anchor fs path k' end
  end.

(** [safe_canonicalize] of an absolute path (without its [RootDir]). *)
Definition safe_canonicalize (fs : FS) (path : list Component) : Path :=
  match canonicalize fs path with
  | Ok p => p
  | Err _ =>
      match anchor fs path (length path - 1) with
      | Some p => p
      | None => (normalize_dot_segments (RootDir :: path)).2
      end
  end.

(** [Path::strip_prefix], [Path::starts_with] *)
Fixpoint strip_path (dir p : Path) : option Path :=
  match dir, p with
  | [], _ => Some p
  | d :: dir', n :: p' => if bool_decide (d = n) then strip_path dir' p' else None
  | _ :: _, [] => None
  end.
Definition path_starts_with (p dir : Path) : bool := match strip_path dir p with Some _ => true | None => false end.

Definition enforce_cwd_scope (fs : FS) (path : list Component) (cwd : Path) : option Path :=
  let canonical_path := safe_canonicalize fs path in
  let canonical_cwd := safe_canonicalize fs (names cwd) in
  if path_starts_with canonical_path canonical_cwd then Some canonical_path else None.

(** ** Trees *)

(** Every entry lies in a directory. *)
Definition tree (fs : FS) : Prop :=
  ∀ p n, fs !! p = Some n → p ≠ [] ∧ ∀ q r, p = q ++ r → q ≠ [] → r ≠ [] → fs !! q = Some NDir.

(** No link on the way to [p], nor at [p]. *)
Definition plain (fs : FS) (p : Path) : Prop := ∀ q r target, p = q ++ r → fs !! q ≠ Some (NLink target).

Definition file_at (fs : FS) (p : Path) : option ByteStr := match fs !! p with Some (NFile bytes) => Some bytes | _ => None end.

Lemma resolve_nil create links fs d : resolve create links fs d [] = Ok d.
Proof. by destruct links. Qed.

Lemma resolve_name create links fs d name rest : resolve create links fs d (Normal name :: rest) =
  match fs !! (d ++ [name]) with
  | Some NDir => resolve create links fs (d ++ [name]) rest
  | Some (NFile _) => match rest with [] => Ok (d ++ [name]) | _ => Err OtherError end
  | Some (NLink target) => match links with O => Err OtherError | S links' => resolve create links' fs d (target ++ rest) end
  | None => match rest with [] => if create then Ok (d ++ [name]) else Err NotFound | _ => Err NotFound end
  end.
Proof. by destruct links. Qed.

Lemma resolve_plain create links fs d p r :
  (∀ q t target, p = q ++ t → fs !! (d ++ q) ≠ Some (NLink target)) →
  resolve create links fs d (names p) = Ok r → r = d ++ p.
Proof.
  revert d. induction p as [|name p IH]; intros d Hp.
  { rw resolve_nil. intros [= <-]. by rw app_nil_r. }
  change (names (name :: p)) with (Normal name :: names p). rw resolve_name. destruct (fs !! (d ++ [name])) as [[b| |target]|] eqn:E.
  - destruct p; [by intros [= <-]|done].
  - intros H. apply IH in H as ->; [by rw -app_assoc|]. intros q t target -> Eq. apply (Hp (name :: q) t target); [done|by rewrite <-app_assoc in Eq].
  - by destruct (Hp [name] p target eq_refl).
  - destruct p; [|done]. destruct create; [by intros [= <-]|done].
Qed.

(** A path that is found has directories for parents. *)
Lemma resolve_parents create links fs d p r :
  (∀ q t target, p = q ++ t → fs !! (d ++ q) ≠ Some (NLink target)) → resolve create links fs d (names p) = Ok r →
  ∀ q t, p = q ++ t → q ≠ [] → t ≠ [] → fs !! (d ++ q) = Some NDir.
Proof.
  revert d. induction p as [|name p IH]; intros d Hp; [by intros _ [|] t|].
  change (names (name :: p)) with (Normal name :: names p). rw resolve_name. intros H q t E Hq Ht.
  destruct q as [|x q]; [done|]. injection E as <- E. assert (names p ≠ []) as Hne by (subst p; by destruct q, t).
  destruct (fs !! (d ++ [name])) as [[b| |target]|] eqn:En.
  - by destruct (names p).
  - destruct (decide (q = [])) as [->|Hq']; [done|]. replace (d ++ name :: q) with ((d ++ [name]) ++ q) by (by rw -app_assoc).
    eapply (IH (d ++ [name])); [|exact H|exact E|done|done].
    intros a b target -> Ea. apply (Hp (name :: a) b target); [done|by rewrite <-app_assoc in Ea].
  - by destruct (Hp [name] p target eq_refl).
  - by destruct (names p).
Qed.

(** A path whose parents are directories leads to itself. *)
Lemma resolve_real create links fs d p :
  (∀ q r, p = q ++ r → q ≠ [] → r ≠ [] → fs !! (d ++ q) = Some NDir) →
  (p ≠ [] → match fs !! (d ++ p) with Some (NLink _) => False | Some _ => True | None => create = true end) →
  resolve create links fs d (names p) = Ok (d ++ p).
Proof.
  revert d. induction p as [|name p IH]; intros d Hd Hp; [by rw resolve_nil app_nil_r|].
  change (names (name :: p)) with (Normal name :: names p). rw resolve_name. destruct p as [|name' p].
  - specialize (Hp ltac:(done)). cbn. destruct (fs !! (d ++ [name])) as [[b| |target]|]; try done; [by rw resolve_nil|by subst].
  - rw (Hd [name] (name' :: p)) //. rw IH; [by rw -app_assoc| |intros _; rw -app_assoc; by apply Hp].
    intros q r Eq Hq Hr. rw -app_assoc. apply (Hd (name :: q) r); [by rw Eq|done|done].
Qed.

Lemma canonicalize_plain fs p r : plain fs p → canonicalize fs (names p) = Ok r → r = p.
Proof. intros Hp H. apply resolve_plain in H as ->; [done|]. intros q t target E. by eapply Hp. Qed.

Lemma normal_segments root parts p : foldl dot_segment (root, parts) (names p) = (root, parts ++ p).
Proof. revert parts. induction p as [|n p IH]; intros parts; cbn; [by rw app_nil_r|]. rw IH -app_assoc //. Qed.

Lemma normalize_names p : (normalize_dot_segments (RootDir :: names p)).2 = p.
Proof. unfold normalize_dot_segments. change (foldl dot_segment (false, []) (RootDir :: names p)) with (foldl dot_segment (true, []) (names p)). by rw normal_segments. Qed.

Lemma plain_prefix fs p q r : plain fs p → p = q ++ r → plain fs q.
Proof. intros Hp -> a b target ->. apply (Hp a (b ++ r)). by rw app_assoc. Qed.

(** [safe_canonicalize] leaves a path without links as it is. *)
Lemma safe_canonicalize_plain fs p : plain fs p → safe_canonicalize fs (names p) = p.
Proof.
  intros Hp. unfold safe_canonicalize. destruct (canonicalize fs (names p)) as [r|e] eqn:E; [by eapply canonicalize_plain|].
  assert (∀ k, anchor fs (names p) k = Some p) as ->; [|done]. intros k. induction k as [|k IH].
  - change (anchor fs (names p) 0) with (Some (normalize_dot_segments (RootDir :: names p)).2). by rw normalize_names.
  - cbn [anchor]. destruct (canonicalize fs (take (S k) (names p))) as [a|e'] eqn:Ea; [|done].
    unfold names in Ea |- *. rewrite <-fmap_take in Ea. apply canonicalize_plain in Ea as ->; [|eapply plain_prefix; [done|symmetry; apply take_drop]].
    rw -fmap_drop -fmap_app take_drop. by rw normalize_names.
Qed.

Lemma strip_path_spec dir p rel : strip_path dir p = Some rel ↔ p = dir ++ rel.
Proof.
  revert p. induction dir as [|d dir IH]; intros p; cbn; [split; [by intros [= ->]|by intros ->]|].
  destruct p as [|n p]; [done|]. case_bool_decide as E; [subst; rw IH; split; [by intros ->|by intros [= ->]]|]. split; [done|by intros [= -> ?]].
Qed.

Lemma path_starts_with_spec p dir : path_starts_with p dir = true ↔ ∃ rel, p = dir ++ rel.
Proof.
  unfold path_starts_with. destruct (strip_path dir p) as [rel|] eqn:E; [apply strip_path_spec in E; split; eauto|].
  split; [done|]. intros [rel H]. apply strip_path_spec in H. by rewrite ->H in E.
Qed.

Section Tree.
Context (fs : FS) (tree_fs : tree fs).

Lemma tree_dirs p n q r : fs !! p = Some n → p = q ++ r → q ≠ [] → r ≠ [] → fs !! q = Some NDir.
Proof. intros H. by apply (tree_fs p n). Qed.

Lemma tree_plain p n : fs !! p = Some n → (∀ target, n ≠ NLink target) → plain fs p.
Proof.
  intros H Hn q r target E Hq. destruct (decide (q = [])) as [->|Hq0]; [by destruct (tree_fs _ _ Hq)|].
  destruct (decide (r = [])) as [->|Hr]; [rewrite ->app_nil_r in E; subst; rewrite ->H in Hq; injection Hq as ->; by eapply Hn|].
  by rewrite ->(tree_dirs p n q r H E Hq0 Hr) in Hq.
Qed.

Lemma resolve_file create p bytes : file_at fs p = Some bytes → resolve create MAX_LINKS fs [] (names p) = Ok p.
Proof.
  unfold file_at. intros H. destruct (fs !! p) as [[b| |]|] eqn:E; try done. rw (resolve_real create MAX_LINKS fs [] p) //.
  - intros q r Eq Hq Hr. by eapply tree_dirs.
  - intros _. cbn. by rw E.
Qed.

Lemma file_not_root p bytes : file_at fs p = Some bytes → node fs p = Some (NFile bytes) ∧ p ≠ [].
Proof.
  unfold file_at. destruct (fs !! p) as [[b| |]|] eqn:E; try done. intros [= ->]. destruct (tree_fs _ _ E) as [Hp _]. split; [|done]. by destruct p.
Qed.

Lemma fs_read_file p bytes : plain fs p → fs_read fs p = Ok bytes ↔ file_at fs p = Some bytes.
Proof.
  intros Hp. unfold fs_read. split.
  - destruct (canonicalize fs (names p)) as [q|] eqn:E; [|done]. apply canonicalize_plain in E as ->; [|done]. cbn.
    unfold node, file_at. destruct p; [done|]. by destruct (fs !! _) as [[]|]; try done; intros [= ->].
  - intros H. unfold canonicalize. rw (resolve_file false p bytes H). cbn. by rw (proj1 (file_not_root p bytes H)).
Qed.

Lemma fs_write_file p old bytes : file_at fs p = Some old → fs_write fs p bytes = Ok (<[p := NFile bytes]> fs).
Proof. intros H. unfold fs_write. rw (resolve_file true p old H). cbn. by rw (proj1 (file_not_root p old H)). Qed.

Lemma parent_resolves p old : file_at fs p = Some old → canonicalize fs (names (removelast p)) = Ok (removelast p) ∧ node fs (removelast p) = Some NDir.
Proof.
  intros H. destruct (file_not_root p old H) as [_ Hne]. assert (p = removelast p ++ [List.last p []]) as Ep by by apply app_removelast_last.
  unfold file_at in H. destruct (fs !! p) as [n|] eqn:E; [|done].
  assert (∀ q r, removelast p = q ++ r → q ≠ [] → fs !! q = Some NDir) as Hd.
  { intros q r Eq Hq. apply (tree_dirs p n q (r ++ [List.last p []])); [done|by rw app_assoc -Eq|done|by destruct r]. }
  split.
  - unfold canonicalize. rw (resolve_real false MAX_LINKS fs [] (removelast p)) //.
    + intros q r Eq Hq Hr. by eapply Hd.
    + intros Hp. cbn. rw (Hd _ [] ltac:(by rw app_nil_r) Hp) //.
  - destruct (removelast p) eqn:Er; [done|]. unfold node. apply (Hd _ []); [by rw app_nil_r|done].
Qed.
End Tree.

(** ** Changes of a tree *)

Lemma tree_write fs p bytes : tree fs → p ≠ [] → (∀ q r, p = q ++ r → q ≠ [] → r ≠ [] → fs !! q = Some NDir) → fs !! p ≠ Some NDir →
  tree (<[p := NFile bytes]> fs).
Proof.
  intros Ht Hp Hd Hn q n H. destruct (decide (q = p)) as [->|Hqp].
  - split; [done|]. intros a b E Ha Hb. rw lookup_insert_ne; [by eapply Hd|]. intros ->. apply (f_equal length) in E. rewrite ->length_app in E. destruct b; [done|]. simpl in E. lia.
  - rewrite ->lookup_insert_ne in H by done. destruct (Ht q n H) as [Hq Hdirs]. split; [done|]. intros a b E Ha Hb. specialize (Hdirs a b E Ha Hb).
    rw lookup_insert_ne //. by intros ->.
Qed.

Lemma tree_mkdir fs p : tree fs → p ≠ [] → (∀ q r, p = q ++ r → q ≠ [] → r ≠ [] → fs !! q = Some NDir) → fs !! p = None → tree (<[p := NDir]> fs).
Proof.
  intros Ht Hp Hd Hn q n H. destruct (decide (q = p)) as [->|Hqp].
  - split; [done|]. intros a b E Ha Hb. rw lookup_insert_ne; [by eapply Hd|]. intros ->. apply (f_equal length) in E. rewrite ->length_app in E. destruct b; [done|]. simpl in E. lia.
  - rewrite ->lookup_insert_ne in H by done. destruct (Ht q n H) as [Hq Hdirs]. split; [done|]. intros a b E Ha Hb. specialize (Hdirs a b E Ha Hb).
    rw lookup_insert_ne //. intros ->. by rewrite ->Hn in Hdirs.
Qed.

Lemma tree_delete fs p bytes : tree fs → file_at fs p = Some bytes → tree (delete p fs).
Proof.
  intros Ht Hp q n H. apply lookup_delete_Some in H as [Hqp H]. destruct (Ht q n H) as [Hq Hdirs]. split; [done|]. intros a b E Ha Hb.
  specialize (Hdirs a b E Ha Hb). rw lookup_delete_ne //. intros ->. unfold file_at in Hp. by rewrite ->Hdirs in Hp.
Qed.

Definition is_link (n : Node) : Prop := match n with NLink _ => True | _ => False end.

Lemma plain_insert fs p q n : ¬ is_link n → plain fs q → plain (<[p := n]> fs) q.
Proof. intros Hn Hq a b target E [[<- ->]|[_ H]]%lookup_insert_Some; [done|by eapply Hq]. Qed.

Lemma plain_delete fs p q : plain fs q → plain (delete p fs) q.
Proof. intros Hq a b target E [_ H]%lookup_delete_Some. by eapply Hq. Qed.

Lemma file_at_insert fs p bytes q : file_at (<[p := NFile bytes]> fs) q = if decide (q = p) then Some bytes else file_at fs q.
Proof. unfold file_at. case_decide; subst; [by rw lookup_insert_eq|by rw lookup_insert_ne]. Qed.

Lemma file_at_mkdir fs p q : fs !! p = None → file_at (<[p := NDir]> fs) q = file_at fs q.
Proof. unfold file_at. intros H. destruct (decide (q = p)) as [->|]; [by rw lookup_insert_eq H|by rw lookup_insert_ne]. Qed.

Lemma file_at_delete fs p q : file_at (delete p fs) q = if decide (q = p) then None else file_at fs q.
Proof. unfold file_at. case_decide; subst; [by rw lookup_delete_eq|by rw lookup_delete_ne]. Qed.

(** ** Keys *)

Definition valid_name (name : Str) : Prop := name ≠ [] ∧ (c_slash ∉ name) ∧ name ≠ dot ∧ name ≠ dot_dot.

Lemma split_slash_name name rest : c_slash ∉ name → split_slash (name ++ [c_slash] ++ rest) = name :: split_slash rest.
Proof.
  induction name as [|c name IH]; intros H; [done|]. apply not_elem_of_cons in H as [Hc H]. cbn [app split_slash].
  rw (proj2 (N.eqb_neq c c_slash)); [|by intros ->]. cbn [app] in IH. by rw IH.
Qed.
Lemma split_slash_last name : c_slash ∉ name → split_slash name = [name].
Proof.
  induction name as [|c name IH]; intros H; [done|]. apply not_elem_of_cons in H as [Hc H]. cbn [split_slash].
  rw (proj2 (N.eqb_neq c c_slash)); [|by intros ->]. by rw IH.
Qed.

Lemma split_join parts : parts ≠ [] → Forall valid_name parts → split_slash (join_slash parts) = parts.
Proof.
  intros Hne H. induction H as [|p ps (_ & Hp & _ & _) H IH]; [done|]. destruct ps as [|q ps]; [by apply split_slash_last|].
  change (join_slash (p :: q :: ps)) with (p ++ [c_slash] ++ join_slash (q :: ps)). rw split_slash_name // IH //.
Qed.

Lemma component_valid name : valid_name name → component name = [Normal name].
Proof. intros (H1 & _ & H2 & H3). unfold component. by rewrite ->!bool_decide_eq_false_2 by done. Qed.

Lemma components_join parts : parts ≠ [] → Forall valid_name parts → components (join_slash parts) = names parts.
Proof.
  intros Hne H. unfold components. rw split_join //. destruct H as [|p ps Hp H]; [done|].
  assert (ps ≫= component = names ps) as ->.
  { clear Hne. induction H as [|q qs Hq H IH]; [done|]. cbn [mbind list_bind]. rw component_valid // IH //. }
  destruct Hp as (H1 & H2 & H3 & H4). rewrite ->(bool_decide_eq_false_2 (p = dot)) by done. rw component_valid //. by destruct p.
Qed.
