(* ===== verification/Rewind.v ===== *)
(** * Rewind ([src/rewind.rs])

    The store of pre-images that lets the user take back the file changes of
    whole turns: capture before a write, restore, retention, and the hook of the
    file tools.  The files under the store's own directory are fields of the
    store; the user's tree is the file system of [FileSystem.v].  Which system
    calls fail is an input ([Io]). *)

From S2P Require Import Prelude Text Utf8 Utf8Bytes Json LineOutput FileSystem.

Record Retention := mkRetention { max_turns : Z; max_bytes : Z }.
Definition default_retention : Retention := mkRetention 50 (256 * 1024 * 1024).

Record TurnManifest := mkTurn {
  tm_turn : Z;
  tm_message : Str;
  tm_ran_bash : bool;
  tm_entries : gmap Str (option Str);
}.

Record TurnSummary := mkSummary {
  su_turn : Z;
  su_message : Str;
  su_files_changed : Z;
  su_ran_bash : bool;
}.

Inductive RewindError :=
| IoFailed
| ManifestUnreadable
| NoActiveTurn.

Inductive RefusalReason :=
| NotRelative
| OutsideWorkspace
| MalformedBlob
| BlobUnreadable
| CannotRecreateParent
| CannotWrite
| CannotDelete
| NotRegular
| CannotStat.

Record RestoreReport := mkReport {
  restored : list Path;
  deleted : list Path;
  refused : list (Str * RefusalReason);
}.

Definition sanitize_char (ch : N) : N :=
  if ((48 <=? ch) && (ch <=? 57) || (65 <=? ch) && (ch <=? 90) || (97 <=? ch) && (ch <=? 122))%N
     || bool_decide (ch ∈ [45; 95; 46]%N) then ch else 95%N.
Fixpoint trim_dots_start (s : Str) : Str :=
  match s with c :: s' => if (c =? 46)%N then trim_dots_start s' else s | [] => [] end.
Definition trim_dots (s : Str) : Str := reverse (trim_dots_start (reverse (trim_dots_start s))).

Definition sanitize_session_id (session_id : Str) : Str :=
  let trimmed := trim_dots (sanitize_char <$> session_id) in
  if is_empty trimmed then str "unnamed" else trimmed.

Definition hex (bytes : ByteStr) : Str := bytes ≫= λ b, [hex_lower (b / 16); hex_lower (b mod 16)].

Definition is_ascii_hexdigit (b : N) : bool :=
  ((48 <=? b) && (b <=? 57) || (65 <=? b) && (b <=? 70) || (97 <=? b) && (b <=? 102))%N.
Definition is_blob_name (name : Str) : bool := (byte_len name =? 64)%nat && forallb is_ascii_hexdigit name.

Fixpoint key_parts (rel : list Component) (parts : list Str) : option (list Str) :=
  match rel with
  | [] => Some parts
  | Normal part :: rest => key_parts rest (parts ++ [part])
  | CurDir :: rest => key_parts rest parts
  | _ => None
  end.
Definition relative_key (rel : list Component) : option Str :=
  match key_parts rel [] with
  | Some [] | None => None
  | Some parts => Some (join_slash parts)
  end.

Record RewindStore := mkStore {
  rw_root : Path;
  rw_workspace : Path;
  rw_retention : Retention;
  rw_turns : list TurnManifest;
  rw_active : option nat;
  (** the files of [turns/] by the number in their names ([None]: not a
      manifest) and of [blobs/] by name *)
  rw_turn_files : gmap Z (option TurnManifest);
  rw_blobs : gmap Str ByteStr;
}.

Definition set_turns ts s := mkStore (rw_root s) (rw_workspace s) (rw_retention s) ts (rw_active s) (rw_turn_files s) (rw_blobs s).
Definition set_active a s := mkStore (rw_root s) (rw_workspace s) (rw_retention s) (rw_turns s) a (rw_turn_files s) (rw_blobs s).
Definition set_turn_files f s := mkStore (rw_root s) (rw_workspace s) (rw_retention s) (rw_turns s) (rw_active s) f (rw_blobs s).
Definition set_blobs b s := mkStore (rw_root s) (rw_workspace s) (rw_retention s) (rw_turns s) (rw_active s) (rw_turn_files s) b.
Definition set_entries es m := mkTurn (tm_turn m) (tm_message m) (tm_ran_bash m) es.

(** Which system calls on the store's files fail. *)
Record Io := mkIo {
  io_read_fails : bool;
  io_blob_fails : bool;
  io_manifest_fails : bool;
  io_keeps_turn : Z → bool;
  io_keeps_blob : Str → bool;
}.
Definition io_ok : Io := mkIo false false false (λ _, false) (λ _, false).

Definition summaries (s : RewindStore) : list TurnSummary :=
  (λ m, mkSummary (tm_turn m) (tm_message m) (Z.of_nat (size (tm_entries m))) (tm_ran_bash m)) <$> rw_turns s.

(** [turns.sort_by_key(|turn| turn.turn)], stable *)
Fixpoint insert_turn (m : TurnManifest) (ms : list TurnManifest) : list TurnManifest :=
  match ms with
  | [] => [m]
  | m' :: ms' => if tm_turn m <=? tm_turn m' then m :: ms else m' :: insert_turn m ms'
  end.
Definition sort_turns (ms : list TurnManifest) : list TurnManifest := foldr insert_turn [] ms.

Definition load_turns (s : RewindStore) : result RewindStore RewindError :=
  let? turns := collect_results (λ f : Z * option TurnManifest, match f.2 with Some m => Ok m | None => Err ManifestUnreadable end)
    (map_to_list (rw_turn_files s)) in
  Ok (set_active None (set_turns (sort_turns turns) s)).

Definition persist (io : Io) (index : nat) (s : RewindStore) : result RewindStore RewindError :=
  match rw_turns s !! index with
  | Some manifest =>
      if io_manifest_fails io then Err IoFailed
      else Ok (set_turn_files (<[tm_turn manifest := Some manifest]> (rw_turn_files s)) s)
  | None => Ok s
  end.

(** The store after the attempt, and whether it failed. *)
Definition persist_active (io : Io) (s : RewindStore) : RewindStore * option RewindError :=
  match rw_active s with
  | None => (s, None)
  | Some index => match persist io index s with Ok s' => (s', None) | Err e => (s, Some e) end
  end.

Definition begin_turn (io : Io) (message : Str) (s : RewindStore) : RewindStore * result Z RewindError :=
  let next := match last (rw_turns s) with Some m => tm_turn m + 1 | None => 1 end in
  let s := set_turns (rw_turns s ++ [mkTurn next message false ∅]) s in
  let s := set_active (Some (length (rw_turns s) - 1)%nat) s in
  let '(s, e) := persist_active io s in
  (s, match e with None => Ok next | Some e => Err e end).

Definition active_index (io : Io) (s : RewindStore) : RewindStore * result nat RewindError :=
  match rw_active s with
  | Some index => (s, Ok index)
  | None =>
      let '(s, r) := begin_turn io [] s in
      (s, match r with
          | Err e => Err e
          | Ok _ => match rw_active s with Some index => Ok index | None => Err NoActiveTurn end
          end)
  end.

Definition note_bash (io : Io) (s : RewindStore) : RewindStore * result () RewindError :=
  let '(s, r) := active_index io s in
  match r with
  | Err e => (s, Err e)
  | Ok index =>
      if match rw_turns s !! index with Some m => tm_ran_bash m | None => false end then (s, Ok tt)
      else
        let s := set_turns (alter (λ m, mkTurn (tm_turn m) (tm_message m) true (tm_entries m)) index (rw_turns s)) s in
        let '(s, e) := persist_active io s in
        (s, match e with None => Ok tt | Some e => Err e end)
  end.

Definition active_turn (s : RewindStore) : option Z := rw_active s ≫= λ index, tm_turn <$> rw_turns s !! index.

Section Store.
Context (sha256 : ByteStr → ByteStr).

Definition write_blob (io : Io) (bytes : ByteStr) (s : RewindStore) : result (Str * RewindStore) RewindError :=
  let name := hex (sha256 bytes) in
  if bool_decide (is_Some (rw_blobs s !! name)) then Ok (name, s)
  else if io_blob_fails io then Err IoFailed
  else Ok (name, set_blobs (<[name := bytes]> (rw_blobs s)) s).

Definition capture (io : Io) (fs : FS) (path : list Component) (s : RewindStore) : RewindStore * result bool RewindError :=
  let canonical := safe_canonicalize fs path in
  if path_starts_with canonical (rw_root s) then (s, Ok false)
  else match strip_path (rw_workspace s) canonical with
  | None => (s, Ok false)
  | Some rel =>
      match relative_key (names rel) with
      | None => (s, Ok false)
      | Some key =>
          let '(s, r) := active_index io s in
          match r with
          | Err e => (s, Err e)
          | Ok index =>
              if match rw_turns s !! index with Some m => bool_decide (is_Some (tm_entries m !! key)) | None => false end then (s, Ok false)
              else
                let blob :=
                  if io_read_fails io then Err IoFailed
                  else match fs_read fs canonical with
                       | Ok bytes => let? b := write_blob io bytes s in Ok (Some b.1, b.2)
                       | Err NotFound => Ok (None, s)
                       | Err OtherError => Err IoFailed
                       end in
                match blob with
                | Err e => (s, Err e)
                | Ok (blob, s) =>
                    let s := set_turns (alter (λ m, set_entries (<[key := blob]> (tm_entries m)) m) index (rw_turns s)) s in
                    let '(s, e) := persist_active io s in
                    match e with
                    | None => (s, Ok true)
                    | Some e => (set_turns (alter (set_entries ∅) index (rw_turns s)) s, Err e)
                    end
                end
          end
      end
  end.
End Store.

(** ** Retention *)

(** The files of the store are under its root, so [remove_within_store] only
    fails when the system refuses to remove the file. *)
Definition remove_turn_file (io : Io) (turn : Z) (s : RewindStore) : RewindStore * option RewindError :=
  if io_keeps_turn io turn && bool_decide (is_Some (rw_turn_files s !! turn)) then (s, Some IoFailed)
  else (set_turn_files (delete turn (rw_turn_files s)) s, None).

Fixpoint remove_turn_files (io : Io) (turns : list Z) (s : RewindStore) : RewindStore * option RewindError :=
  match turns with
  | [] => (s, None)
  | n :: ns =>
      let '(s, e) := remove_turn_file io n s in
      match e with Some e => (s, Some e) | None => remove_turn_files io ns s end
  end.

Definition referenced_blobs (s : RewindStore) : list Str :=
  rw_turns s ≫= λ m, omap id ((map_to_list (tm_entries m)).*2).

Fixpoint prune_loop (io : Io) (referenced : list Str) (files : list Str) (s : RewindStore) : RewindStore * option RewindError :=
  match files with
  | [] => (s, None)
  | name :: files' =>
      if bool_decide (name ∈ referenced) then prune_loop io referenced files' s
      else if io_keeps_blob io name then (s, Some IoFailed)
      else prune_loop io referenced files' (set_blobs (delete name (rw_blobs s)) s)
  end.
Definition prune_blobs (io : Io) (s : RewindStore) : RewindStore * option RewindError :=
  prune_loop io (referenced_blobs s) ((map_to_list (rw_blobs s)).*1) s.

Definition blob_count (s : RewindStore) : Z := Z.of_nat (length (filter (λ f, is_blob_name f.1 = true) (map_to_list (rw_blobs s)))).
Definition blob_bytes (s : RewindStore) : Z := foldl (λ total f, sat_add u64_max total (len f.2)) 0 (map_to_list (rw_blobs s)).

Definition drop_oldest_turn (io : Io) (s : RewindStore) : RewindStore * option RewindError :=
  match rw_turns s with
  | [] => (s, None)
  | manifest :: rest =>
      let s := set_turns rest s in
      let s := set_active (match rw_active s with Some (S index) => Some index | _ => None end) s in
      remove_turn_file io (tm_turn manifest) s
  end.

(** The two loops of [gc]; each turn drops a manifest, so as many turns as
    there are manifests are enough. *)
Fixpoint gc_turns (fuel : nat) (io : Io) (s : RewindStore) : RewindStore * option RewindError :=
  match fuel with
  | O => (s, None)
  | S fuel' =>
      if max_turns (rw_retention s) <? len (rw_turns s) then
        let '(s, e) := drop_oldest_turn io s in
        match e with Some e => (s, Some e) | None => gc_turns fuel' io s end
      else (s, None)
  end.
Fixpoint gc_bytes (fuel : nat) (io : Io) (s : RewindStore) : RewindStore * option RewindError :=
  match fuel with
  | O => (s, None)
  | S fuel' =>
      if (max_bytes (rw_retention s) <? blob_bytes s) && negb (bool_decide (rw_turns s = [])) then
        let '(s, e) := drop_oldest_turn io s in
        match e with
        | Some e => (s, Some e)
        | None =>
            let '(s, e) := prune_blobs io s in
            match e with Some e => (s, Some e) | None => gc_bytes fuel' io s end
        end
      else (s, None)
  end.
Definition gc (io : Io) (s : RewindStore) : RewindStore * option RewindError :=
  let '(s, e) := gc_turns (length (rw_turns s)) io s in
  match e with
  | Some e => (s, Some e)
  | None =>
      let '(s, e) := prune_blobs io s in
      match e with Some e => (s, Some e) | None => gc_bytes (length (rw_turns s)) io s end
  end.

Definition close (io : Io) (s : RewindStore) : RewindStore * option RewindError := gc io (set_active None s).

(** [open_at]; the files of the store are what an earlier process left. *)
Definition open_at (io : Io) (fs : FS) (root : Path) (workspace : list Component) (retention : Retention)
    (turn_files : gmap Z (option TurnManifest)) (blobs : gmap Str ByteStr) : result RewindStore RewindError :=
  let s := mkStore root (safe_canonicalize fs workspace) retention [] None turn_files blobs in
  let? s := load_turns s in
  let '(s, e) := gc io s in
  match e with None => Ok s | Some e => Err e end.

(** ** Restoring *)

Inductive Restored :=
| Wrote (p : Path)
| Deleted (p : Path)
| Nothing.

Definition resolve_entry (fs : FS) (workspace : Path) (key : Str) : result Path RefusalReason :=
  let raw := components key in
  if bool_decide (relative_key raw ≠ Some key) then Err NotRelative
  else match enforce_cwd_scope fs (names workspace ++ raw) workspace with
       | Some target => Ok target
       | None => Err OutsideWorkspace
       end.

Definition restore_blob (fs : FS) (bytes : ByteStr) (target : Path) : FS * result Restored RefusalReason :=
  let made :=
    match target with
    | [] => Ok fs
    | _ => if exists_at fs (removelast target) then Ok fs else create_dir_all fs (removelast target)
    end in
  match made with
  | Err _ => (fs, Err CannotRecreateParent)
  | Ok fs =>
      match fs_write fs target bytes with
      | Ok fs => (fs, Ok (Wrote target))
      | Err _ => (fs, Err CannotWrite)
      end
  end.

Definition restore_absence (fs : FS) (target : Path) : FS * result Restored RefusalReason :=
  match symlink_metadata fs target with
  | Ok (NFile _) =>
      match remove_file fs target with
      | Ok fs => (fs, Ok (Deleted target))
      | Err _ => (fs, Err CannotDelete)
      end
  | Ok _ => (fs, Err NotRegular)
  | Err NotFound => (fs, Ok Nothing)
  | Err OtherError => (fs, Err CannotStat)
  end.

Definition restore_entry (fs : FS) (s : RewindStore) (key : Str) (blob : option Str) : FS * result Restored RefusalReason :=
  match resolve_entry fs (rw_workspace s) key with
  | Err e => (fs, Err e)
  | Ok target =>
      match blob with
      | Some name =>
          if negb (is_blob_name name) then (fs, Err MalformedBlob)
          else match rw_blobs s !! name with
               | None => (fs, Err BlobUnreadable)
               | Some bytes => restore_blob fs bytes target
               end
      | None => restore_absence fs target
      end
  end.

(** The pre-images to put back: newest turn first, so that the oldest wins. *)
Fixpoint restore_plan (turn : Z) (newest_first : list TurnManifest) (plan : gmap Str (option Str)) : gmap Str (option Str) :=
  match newest_first with
  | [] => plan
  | m :: rest => if tm_turn m <? turn then plan else restore_plan turn rest (tm_entries m ∪ plan)
  end.

Definition entry_le (a b : Str * option Str) : Prop := str_le a.1 b.1 = true.
#[global] Instance entry_le_dec : RelDecision entry_le.
Proof. intros a b. unfold entry_le. apply _. Defined.

(** The entries of a [BTreeMap] in the order of their keys. *)
Definition in_key_order (m : gmap Str (option Str)) : list (Str * option Str) := merge_sort entry_le (map_to_list m).

Definition report_entry (key : Str) (r : result Restored RefusalReason) (report : RestoreReport) : RestoreReport :=
  match r with
  | Ok (Wrote p) => mkReport (restored report ++ [p]) (deleted report) (refused report)
  | Ok (Deleted p) => mkReport (restored report) (deleted report ++ [p]) (refused report)
  | Ok Nothing => report
  | Err reason => mkReport (restored report) (deleted report) (refused report ++ [(key, reason)])
  end.

Fixpoint restore_entries (s : RewindStore) (entries : list (Str * option Str)) (fs : FS) (report : RestoreReport) : FS * RestoreReport :=
  match entries with
  | [] => (fs, report)
  | (key, blob) :: entries' =>
      let '(fs, r) := restore_entry fs s key blob in
      restore_entries s entries' fs (report_entry key r report)
  end.

Definition forget_from (io : Io) (turn : Z) (s : RewindStore) : RewindStore * option RewindError :=
  let dropped := tm_turn <$> filter (λ m, turn ≤ tm_turn m) (rw_turns s) in
  if bool_decide (dropped = []) then (s, None)
  else
    let s := set_active None (set_turns (filter (λ m, tm_turn m < turn) (rw_turns s)) s) in
    let '(s, e) := remove_turn_files io dropped s in
    match e with Some e => (s, Some e) | None => prune_blobs io s end.

Definition restore (io : Io) (turn : Z) (fs : FS) (s : RewindStore) : FS * RewindStore * result RestoreReport RewindError :=
  let plan := restore_plan turn (reverse (rw_turns s)) ∅ in
  let '(fs, report) := restore_entries s (in_key_order plan) fs (mkReport [] [] []) in
  let '(s, e) := forget_from io turn s in
  (fs, s, match e with None => Ok report | Some e => Err e end).

(** ** The hook of the file tools *)

(** The slot that holds the store of the process, or none. *)
Definition install (store : RewindStore) : option RewindStore := Some store.
Definition uninstall (slot : option RewindStore) : option RewindStore * option RewindStore := (None, slot).
Definition is_active (slot : option RewindStore) : bool := match slot with Some _ => true | None => false end.

Definition slot_begin_turn (io : Io) (message : Str) (slot : option RewindStore) : option RewindStore * option Z :=
  match slot with
  | None => (None, None)
  | Some store =>
      let '(store, r) := begin_turn io message store in
      (Some store, match r with Ok turn => Some turn | Err _ => None end)
  end.

Definition slot_note_bash (io : Io) (slot : option RewindStore) : option RewindStore := (λ store, (note_bash io store).1) <$> slot.

Definition slot_summaries (slot : option RewindStore) : list TurnSummary := match slot with Some store => summaries store | None => [] end.

Definition slot_restore (io : Io) (turn : Z) (fs : FS) (slot : option RewindStore)
    : FS * option RewindStore * option (result RestoreReport RewindError) :=
  match slot with
  | None => (fs, None, None)
  | Some store => let '(fs, store, r) := restore io turn fs store in (fs, Some store, Some r)
  end.

(** [capture_pre_image]: the slot after it, and whether the write may go on. *)
Definition capture_pre_image (sha256 : ByteStr → ByteStr) (io : Io) (fs : FS) (path : list Component) (slot : option RewindStore)
    : option RewindStore * result () RewindError :=
  match slot with
  | None => (None, Ok tt)
  | Some store =>
      let '(store, r) := capture sha256 io fs path store in
      (Some store, match r with Ok _ => Ok tt | Err e => Err e end)
  end.

(** ** Names of stores *)

#[global] Instance valid_name_dec name : Decision (valid_name name).
Proof. unfold valid_name. apply _. Defined.

Lemma trim_dots_start_spec s : (∀ c, c ∈ trim_dots_start s → c ∈ s) ∧ head (trim_dots_start s) ≠ Some 46%N.
Proof.
  induction s as [|c s [IH1 IH2]]; [done|]. cbn [trim_dots_start]. destruct (N.eqb_spec c 46) as [->|Hc]; [|split; [done|by intros [= ->]]].
  split; [intros d Hd; right; by apply IH1|done].
Qed.

(** The directory of a session is one name, so it is in the store's base
    directory, whatever the identifier. *)
Lemma sanitized_is_a_name session_id : valid_name (sanitize_session_id session_id).
Proof.
  unfold sanitize_session_id. set (t := trim_dots _). destruct (is_empty t) eqn:E; [apply (bool_decide_unpack _); by vm_compute|].
  assert (∀ c, c ∈ t → c ≠ c_slash) as Hs.
  { unfold t, trim_dots. intros c Hc%elem_of_reverse%trim_dots_start_spec. apply elem_of_reverse, trim_dots_start_spec, list_elem_of_fmap in Hc as (d & -> & _).
    unfold sanitize_char. case_match eqn:Eg; [|done]. intros ->. by vm_compute in Eg. }
  assert (last t ≠ Some 46%N) as Hlast.
  { unfold t, trim_dots. rw last_reverse. apply trim_dots_start_spec. }
  split_and!; [by intros ->|intros H; by apply Hs in H|intros Ht; by rewrite ->Ht in Hlast|intros Ht; by rewrite ->Ht in Hlast].
Qed.

(** ** What a store remembers

    The files of a tree, and what undoing the entries of a manifest makes of
    them. *)
Abbreviation Files := (Path → option ByteStr).

Definition key_of (workspace p : Path) : option Str :=
  strip_path workspace p ≫= λ rel, if decide (rel ≠ [] ∧ Forall valid_name rel) then Some (join_slash rel) else None.

Definition undo (blobs : gmap Str ByteStr) (workspace : Path) (entries : gmap Str (option Str)) (files : Files) : Files := λ p,
  match key_of workspace p ≫= λ key, entries !! key with
  | Some (Some name) => blobs !! name
  | Some None => None
  | None => files p
  end.

Lemma key_of_spec ws p key : key_of ws p = Some key ↔ ∃ rel, p = ws ++ rel ∧ rel ≠ [] ∧ Forall valid_name rel ∧ key = join_slash rel.
Proof.
  unfold key_of. split.
  - destruct (strip_path ws p) as [rel|] eqn:E; [|done]. apply strip_path_spec in E. cbn. case_decide as H; [|done]. intros [= <-]. naive_solver.
  - intros (rel & -> & H1 & H2 & ->). rw (proj2 (strip_path_spec ws (ws ++ rel) rel) eq_refl). cbn. by rewrite ->decide_True by done.
Qed.

Lemma key_of_inj ws p q key : key_of ws p = Some key → key_of ws q = Some key → p = q.
Proof.
  intros (r & -> & H1 & H2 & ->)%key_of_spec (r' & -> & H3 & H4 & E)%key_of_spec.
  f_equal. rewrite <-(split_join r), <-(split_join r') by done. by rw E.
Qed.

Lemma key_parts_names rel parts : key_parts (names rel) parts = Some (parts ++ rel).
Proof. revert parts. induction rel as [|n rel IH]; intros parts; cbn; [by rw app_nil_r|]. change (Normal <$> rel) with (names rel). rw IH -app_assoc //. Qed.

Lemma relative_key_names rel : rel ≠ [] → relative_key (names rel) = Some (join_slash rel).
Proof. intros H. unfold relative_key. rw key_parts_names. by destruct rel. Qed.

Lemma undo_union blobs ws m1 m2 files p : undo blobs ws (m1 ∪ m2) files p = undo blobs ws m1 (undo blobs ws m2 files) p.
Proof.
  unfold undo. destruct (key_of ws p) as [k|]; [|done]. cbn. rw lookup_union.
  by destruct (m1 !! k) as [[]|], (m2 !! k) as [[]|].
Qed.

(** ** Putting entries back *)

Section RestoreEntries.
Context (s : RewindStore).

Lemma resolve_entry_ok fs p key : key_of (rw_workspace s) p = Some key → plain fs p → resolve_entry fs (rw_workspace s) key = Ok p.
Proof.
  intros (rel & -> & Hne & Hv & ->)%key_of_spec Hp. unfold resolve_entry. rw components_join // relative_key_names //.
  rewrite ->bool_decide_eq_false_2 by (intros H; by apply H). unfold enforce_cwd_scope, names. rw -fmap_app.
  rw safe_canonicalize_plain // safe_canonicalize_plain; [|by eapply plain_prefix].
  by rw (proj2 (path_starts_with_spec (rw_workspace s ++ rel) (rw_workspace s)) (ex_intro _ rel eq_refl)).
Qed.

(** A tree that lost no directory and has the same links. *)
Definition grows (fs fs' : FS) : Prop :=
  (tree fs → tree fs') ∧ (∀ q, plain fs q → plain fs' q) ∧ (∀ q, fs !! q = Some NDir → fs' !! q = Some NDir) ∧
  ∀ q target, fs' !! q = Some (NLink target) ↔ fs !! q = Some (NLink target).

Lemma grows_same fs : grows fs fs.
Proof. split_and!; naive_solver. Qed.
Lemma grows_chain fs1 fs2 fs3 : grows fs1 fs2 → grows fs2 fs3 → grows fs1 fs3.
Proof. intros (A1 & A2 & A3 & A4) (B1 & B2 & B3 & B4). split_and!; [auto|auto|auto|]. intros q target. rw B4 A4 //. Qed.

(** The parents of [p] are directories. *)
Definition in_dirs (fs : FS) (p : Path) : Prop := ∀ q r, p = q ++ r → q ≠ [] → r ≠ [] → fs !! q = Some NDir.

Lemma grows_write fs p bytes : p ≠ [] → in_dirs fs p → fs !! p ≠ Some NDir → plain fs p → grows fs (<[p := NFile bytes]> fs).
Proof.
  intros Hne Hd Hn Hp. split_and!.
  - intros Ht. by apply tree_write.
  - intros q. by apply plain_insert; intros [].
  - intros q Hq. rw lookup_insert_ne //. by intros ->.
  - intros q target. rw lookup_insert_Some. split; [by intros [[_ ?]|[_ ?]]|]. intros H. right. split; [|done]. intros ->.
    by apply (Hp q [] target); [rw app_nil_r|].
Qed.

Lemma grows_mkdir fs p : p ≠ [] → in_dirs fs p → fs !! p = None → grows fs (<[p := NDir]> fs).
Proof.
  intros Hne Hd Hn. split_and!.
  - intros Ht. by apply tree_mkdir.
  - intros q. by apply plain_insert; intros [].
  - intros q Hq. rw lookup_insert_ne //. intros ->. by rewrite ->Hn in Hq.
  - intros q target. rw lookup_insert_Some. split; [by intros [[_ ?]|[_ ?]]|]. intros H. right. split; [|done]. intros ->. by rewrite ->Hn in H.
Qed.

Lemma grows_delete fs p old : file_at fs p = Some old → grows fs (delete p fs).
Proof.
  intros Hp. assert (∀ q n, fs !! q = Some n → (∀ b, n ≠ NFile b) → p ≠ q) as Hne.
  { intros q n Hq Hn ->. unfold file_at in Hp. rewrite ->Hq in Hp. destruct n; try done. by eapply Hn. }
  split_and!.
  - intros Ht. by eapply tree_delete.
  - intros q. apply plain_delete.
  - intros q Hq. rw lookup_delete_ne //. by eapply Hne.
  - intros q target. rw lookup_delete_Some. split; [by intros []|]. intros H. split; [by eapply Hne|done].
Qed.

Lemma locate_plain fs p q : plain fs p → locate fs p = Ok q → q = p.
Proof.
  unfold locate. destruct p as [|name p _] using rev_ind; [by intros _ [= <-]|]. intros Hp. rw last_snoc removelast_last.
  destruct (canonicalize fs (names p)) as [d|] eqn:E; [|done]. apply canonicalize_plain in E as ->; [|by eapply plain_prefix]. cbn.
  case_match; [|done]. case_match; [done| |done]. by intros [= <-].
Qed.

Lemma locate_file fs p old : tree fs → file_at fs p = Some old → locate fs p = Ok p.
Proof.
  intros Ht Hp. destruct (parent_resolves fs Ht p old Hp) as [E1 E2]. unfold locate. destruct p as [|name p _] using rev_ind; [done|].
  rewrite ->removelast_last in *. rw last_snoc E1. cbn. by rw E2.
Qed.

Lemma restore_absence_spec fs p : tree fs → plain fs p →
  (restore_absence fs p).1 = if bool_decide (is_Some (file_at fs p)) then delete p fs else fs.
Proof.
  intros Ht Hp. unfold restore_absence, symlink_metadata, remove_file. destruct (file_at fs p) as [old|] eqn:E.
  - rewrite ->bool_decide_eq_true_2 by eauto. rw (locate_file fs p old Ht E). cbn. by rw (proj1 (file_not_root fs Ht p old E)).
  - rewrite ->bool_decide_eq_false_2 by (intros [? ?]; done). destruct (locate fs p) as [q|e] eqn:El; [|by destruct e].
    apply locate_plain in El as ->; [|done]. cbn. destruct (node fs p) as [[b| |t]|] eqn:En; try done.
    exfalso. unfold file_at in E. unfold node in En. destruct p; [done|]. by rewrite ->En in E.
Qed.
Lemma locate_in_dirs fs p q : tree fs → plain fs p → p ≠ [] → locate fs p = Ok q → in_dirs fs p.
Proof.
  intros Ht Hp Hne. unfold locate. destruct p as [|name p _] using rev_ind; [done|]. rw last_snoc removelast_last.
  destruct (canonicalize fs (names p)) as [d|] eqn:E; [|done]. apply canonicalize_plain in E as ->; [|by eapply plain_prefix]. cbn.
  destruct (node fs p) as [[]|] eqn:En; try done. intros _ a b Eab Ha Hb. destruct b as [|x b _] using rev_ind; [done|].
  rewrite ->app_assoc in Eab. apply app_inj_tail in Eab as [-> _]. destruct (decide (b = [])) as [->|Hb'].
  - rewrite ->app_nil_r in En. unfold node in En. by destruct a.
  - destruct a as [|y a]; [done|]. simpl in En. by eapply (tree_dirs fs Ht _ _ (y :: a) b).
Qed.

Lemma create_dirs_grow todo fs base fs' : tree fs → plain fs (base ++ todo) → create_dir_all_from fs base todo = Ok fs' →
  grows fs fs' ∧ ∀ q, file_at fs' q = file_at fs q.
Proof.
  revert fs base. induction todo as [|name todo IH]; intros fs base Ht Hp; cbn [create_dir_all_from]; [intros [= <-]; split; [apply grows_same|done]|].
  replace (base ++ name :: todo) with ((base ++ [name]) ++ todo) in Hp by (by rw -app_assoc).
  destruct (is_dir fs (base ++ [name])); [by apply IH|]. unfold create_dir.
  destruct (locate fs (base ++ [name])) as [q|] eqn:El; [|done]. cbn [result_bind].
  assert (plain fs (base ++ [name])) as Hp' by by eapply plain_prefix. assert (base ++ [name] ≠ []) as Hne by by destruct base.
  pose proof (locate_in_dirs _ _ _ Ht Hp' Hne El) as Hd. apply locate_plain in El as ->; [|done].
  destruct (node fs (base ++ [name])) eqn:En; [done|]. cbn [result_bind]. intros H.
  assert (fs !! (base ++ [name]) = None) as Hn by (unfold node in En; by destruct (base ++ [name])).
  pose proof (grows_mkdir fs (base ++ [name]) Hne Hd Hn) as Hg. destruct (IH _ _ (proj1 Hg Ht) (proj1 (proj2 Hg) _ Hp) H) as [Hg' Hf].
  split; [by eapply grows_chain|]. intros q. by rw Hf file_at_mkdir.
Qed.

(** Putting a file back: it has the bytes, or it was not there and could not
    be written; nothing else changes but for directories made on the way. *)
Lemma restore_blob_spec fs p bytes : tree fs → plain fs p → p ≠ [] → let fs' := (restore_blob fs bytes p).1 in
  grows fs fs' ∧ (∀ q, q ≠ p → file_at fs' q = file_at fs q) ∧
  (file_at fs' p = Some bytes ∨ file_at fs p = None ∧ file_at fs' p = None).
Proof.
  intros Ht Hp Hne. cbv zeta. destruct (file_at fs p) as [old|] eqn:Eold.
  - unfold restore_blob, exists_at. destruct (parent_resolves fs Ht p old Eold) as [-> _]. destruct p as [|n p]; [done|].
    rw (fs_write_file fs Ht (n :: p) old bytes Eold). cbn [fst]. unfold file_at in Eold.
    destruct (fs !! (n :: p)) as [[b| |]|] eqn:E; try done. split_and!.
    + apply grows_write; [done|exact (proj2 (Ht _ _ E))|by rw E|done].
    + intros q Hq. rw file_at_insert. by rewrite ->decide_False.
    + left. rw file_at_insert. by rewrite ->decide_True.
  - unfold restore_blob. destruct p as [|n p]; [done|]. set (target := n :: p) in *.
    set (made := if exists_at _ _ then _ else _).
    assert (∀ fs1, made = Ok fs1 → grows fs fs1 ∧ ∀ q, file_at fs1 q = file_at fs q) as Hmade.
    { unfold made. intros fs1. case_match; [intros [= <-]; split; [apply grows_same|done]|]. apply create_dirs_grow; [done|]. cbn [app].
      eapply (plain_prefix _ _ _ [List.last target []]); [exact Hp|]. by apply app_removelast_last. }
    destruct made as [fs1|]; [|split_and!; [apply grows_same|done|by right]]. destruct (Hmade fs1 eq_refl) as [Hg Hf].
    unfold fs_write. destruct (resolve true MAX_LINKS fs1 [] (names target)) as [q|] eqn:Er; cbn [result_bind fst]; [|split_and!; [done|done|right; by rw Hf]].
    assert (plain fs1 target) as Hp1 by by apply Hg.
    assert (in_dirs fs1 target) as Hd by (intros a b; by apply (resolve_parents true MAX_LINKS fs1 [] target q (λ a b t, Hp1 a b t))).
    apply resolve_plain in Er as ->; [|exact Hp1]. cbn [app].
    assert (node fs1 target = Some NDir ∨ node fs1 target ≠ Some NDir) as [En|En] by (destruct (node fs1 target) as [[]|]; auto); [rw En; cbn [fst]; split_and!; [done|done|right; by rw Hf]|].
    replace (match node fs1 target with Some NDir => Err OtherError | _ => Ok (<[target := NFile bytes]> fs1) end)
      with (Ok (E := IoError) (<[target := NFile bytes]> fs1)) by (by destruct (node fs1 target) as [[]|]).
    cbn [fst]. split_and!.
    + eapply grows_chain; [exact Hg|]. by apply grows_write.
    + intros q Hq. rw file_at_insert. by rewrite ->decide_False.
    + left. rw file_at_insert. by rewrite ->decide_True.
Qed.

(** An entry of a manifest, whatever is at its path now. *)
Definition can_restore (fs : FS) (key : Str) (blob : option Str) : Prop :=
  ∃ p, key_of (rw_workspace s) p = Some key ∧ plain fs p ∧
    ∀ name, blob = Some name → is_blob_name name = true ∧ is_Some (rw_blobs s !! name).

(** What a file becomes: as the store has it, unless it was gone and could not
    be written. *)
Definition put_back (before after want : option ByteStr) : Prop := after = want ∨ before = None ∧ after = None.

Lemma restore_entry_spec fs key blob : tree fs → can_restore fs key blob →
  let fs' := (restore_entry fs s key blob).1 in
  grows fs fs' ∧ ∀ q, if decide (key_of (rw_workspace s) q = Some key)
    then put_back (file_at fs q) (file_at fs' q) (blob ≫= λ name, rw_blobs s !! name) else file_at fs' q = file_at fs q.
Proof.
  intros Ht (p & Hk & Hp & Hblob). assert (∀ q, key_of (rw_workspace s) q = Some key ↔ q = p) as Hq.
  { intros q. split; [intros H; by eapply key_of_inj|by intros ->]. }
  assert (p ≠ []) as Hne by (intros ->; apply key_of_spec in Hk as (rel & E & Hr & _); by destruct (rw_workspace s), rel).
  unfold restore_entry. rw (resolve_entry_ok fs p key Hk Hp). destruct blob as [name|]; cbn [mbind option_bind].
  - destruct (Hblob name eq_refl) as (Hn & [bytes Hb]). rw Hn Hb. cbn [negb].
    destruct (restore_blob_spec fs p bytes Ht Hp Hne) as (Hg & Hother & Hthis). split; [done|]. intros q. case_decide as H.
    + apply Hq in H as ->. exact Hthis.
    + apply Hother. by rewrite <-Hq.
  - rw (restore_absence_spec fs p Ht Hp). destruct (file_at fs p) as [old|] eqn:Ef.
    + rewrite ->bool_decide_eq_true_2 by eauto. split; [by eapply grows_delete|]. intros q. rw file_at_delete. unfold put_back. repeat case_decide; naive_solver.
    + rewrite ->bool_decide_eq_false_2 by (intros [? ?]; done). split; [apply grows_same|]. intros q. case_decide as H; [|done]. apply Hq in H as ->. by left.
Qed.

Lemma restore_entries_spec entries fs report : tree fs → NoDup entries.*1 → Forall (λ e, can_restore fs e.1 e.2) entries →
  let fs' := (restore_entries s entries fs report).1 in
  grows fs fs' ∧ ∀ q, put_back (file_at fs q) (file_at fs' q) (undo (rw_blobs s) (rw_workspace s) (list_to_map entries) (file_at fs) q).
Proof.
  revert fs report. induction entries as [|[key blob] entries IH]; intros fs report Ht Hnd Hall.
  { split; [apply grows_same|]. intros q. left. unfold undo. cbn. by destruct (key_of _ q). }
  apply NoDup_cons in Hnd as [Hnew Hnd]. apply Forall_cons in Hall as [Hfirst Hall]. cbn [fst snd] in *.
  destruct (restore_entry_spec fs key blob Ht Hfirst) as [Hd Hf]. cbn [restore_entries].
  destruct (restore_entry fs s key blob) as [fs1 r]. cbn [fst] in Hd, Hf.
  destruct (IH fs1 (report_entry key r report)) as [Hd' Hf']; [by apply Hd|done| |].
  - eapply Forall_impl; [exact Hall|]. intros [k' b'] (p & Hk & Hp & Hb). exists p. split_and!; [done|by apply Hd|done].
  - split; [by eapply grows_chain|]. intros q. specialize (Hf q). specialize (Hf' q). unfold undo in *. cbn [list_to_map foldr uncurry].
    destruct (key_of (rw_workspace s) q) as [k|] eqn:Ek; cbn in *.
    + destruct (decide (key = k)) as [->|Hne].
      * rw lookup_insert_eq. rewrite ->(not_elem_of_list_to_map_1 entries k) in Hf' by done. rewrite ->decide_True in Hf by done.
        assert (file_at (restore_entries s entries fs1 (report_entry k r report)).1 q = file_at fs1 q) as -> by (destruct Hf' as [?|[? ?]]; congruence).
        by destruct blob.
      * rw lookup_insert_ne //. rewrite ->decide_False in Hf by (by intros [= ->]). by rewrite ->Hf in Hf'.
    + rewrite ->decide_False in Hf by done. by rewrite ->Hf in Hf'.
Qed.
End RestoreEntries.
