(* ===== verification/RewindHistory.v ===== *)
(** * Rewind: the store as a history of the tree

    Every turn of the store stands for the files as they were when it began,
    but for those that something else than the tools changed since: the store
    does not see what commands do.  The invariant is a chain from each of these
    states to the next, kept by every operation of the store, by the writes of
    the tools and by changes from outside. *)

From S2P Require Import Prelude Text Utf8 Utf8Bytes Json LineOutput FileSystem Rewind.

(** ** The chain of states *)

(** What is known of the files of a moment: a file that was changed from
    outside since is not. *)
Abbreviation Snapshot := (Path → option (option ByteStr)).

Definition taken (files : Files) : Snapshot := λ p, Some (files p).

Definition head_files (states : list (Z * Snapshot)) (now : Snapshot) : Snapshot := match states with [] => now | (_, files) :: _ => files end.

Section Chain.
Context (blobs : gmap Str ByteStr) (workspace : Path).

(** What undoing [entries] makes of the file at [p], which was not there
    before only if it is not there after. *)
Definition undoes (entries : gmap Str (option Str)) (p : Path) (before after : option ByteStr) : Prop :=
  before = undo blobs workspace entries (λ _, after) p ∧ (is_Some before → is_Some after).

(** Each turn undone gives the state it began in. *)
Definition leads (entries : gmap Str (option Str)) (files next : Snapshot) : Prop :=
  ∀ p x, files p = Some x → ∃ y, next p = Some y ∧ undoes entries p x y.

Fixpoint chain (turns : list TurnManifest) (states : list (Z * Snapshot)) (now : Snapshot) : Prop :=
  match turns, states with
  | [], [] => True
  | m :: turns', (turn, files) :: states' =>
      tm_turn m = turn ∧ leads (tm_entries m) files (head_files states' now) ∧ chain turns' states' now
  | _, _ => False
  end.

Lemma chain_length ms ss now : chain ms ss now → length ms = length ss.
Proof. revert ss. induction ms as [|m ms IH]; intros [|[t S] ss]; cbn; try done. intros (_ & _ & H). by rw (IH _ H). Qed.

Lemma chain_numbers ms ss now : chain ms ss now → tm_turn <$> ms = ss.*1.
Proof. revert ss. induction ms as [|m ms IH]; intros [|[t S] ss]; cbn; try done. intros (-> & _ & H). by rw (IH _ H). Qed.

Lemma chain_app ms1 ms2 ss now : chain (ms1 ++ ms2) ss now ↔
  ∃ ss1 ss2, ss = ss1 ++ ss2 ∧ chain ms1 ss1 (head_files ss2 now) ∧ chain ms2 ss2 now.
Proof.
  revert ss. induction ms1 as [|m ms1 IH]; intros ss; cbn [app].
  - split; [intros H; by exists [], ss|]. intros (ss1 & ss2 & -> & H1 & H2). by destruct ss1.
  - destruct ss as [|[t S] ss]; cbn [chain]; [split; [done|intros ([|] & ? & ? & ? & _); done]|]. rw IH. split.
    + intros (H1 & H2 & ss1 & ss2 & -> & H4 & H5). exists ((t, S) :: ss1), ss2. cbn. by destruct ss1.
    + intros ([|[t' S'] ss1] & ss2 & E & H4 & H5); [done|]. injection E as <- <- ->. destruct H4 as (H1 & H2 & H4).
      split_and!; [done| |by exists ss1, ss2]; by destruct ss1.
Qed.

Lemma chain_weaken ms ss now now' : (∀ p x, now p = Some x → now' p = Some x) → chain ms ss now → chain ms ss now'.
Proof.
  intros E. revert ss. induction ms as [|m ms IH]; intros [|[t S] ss]; cbn; try done. intros (H1 & H2 & H4).
  split_and!; [done| |by apply IH]. intros p x Hx. destruct (H2 p x Hx) as (y & Hy & Hu). exists y. split; [|done]. destruct ss as [|[]]; cbn in *; auto.
Qed.

(** Undoing the turns from one on gives the state it began in. *)
Lemma chain_undo ms ss now p x : chain ms ss now → head_files ss now p = Some x →
  ∃ y, now p = Some y ∧ undoes (foldr (λ m plan, tm_entries m ∪ plan) ∅ ms) p x y.
Proof.
  revert ss x. induction ms as [|m ms IH]; intros [|[t S] ss] x; cbn [chain foldr head_files]; try done.
  - intros _ Hx. exists x. split; [done|]. split; [|done]. unfold undo. by destruct (key_of workspace p).
  - intros (_ & H & Hc) Hx. destruct (H p x Hx) as (y & Hy & -> & Hxy). destruct (IH ss y Hc Hy) as (z & Hz & Ez & Hyz). exists z.
    split; [done|]. split; [|auto]. rw undo_union. unfold undo at 1 2. destruct (key_of workspace p) as [k|] eqn:E; cbn; [|done]. by case_match.
Qed.

Lemma history_snoc ms m ss turn files now : chain (ms ++ [m]) (ss ++ [(turn, files)]) now ↔
  chain ms ss files ∧ tm_turn m = turn ∧ leads (tm_entries m) files now.
Proof.
  rw chain_app. split.
  - intros (ss1 & ss2 & E & H1 & H2). destruct ss2 as [|[t S] [|]]; [done| |by destruct H2 as (_ & _ & ?)].
    apply app_inj_tail in E as [<- [= <- <-]]. cbn in *. naive_solver.
  - intros (H1 & H2 & H3). exists ss, [(turn, files)]. cbn. naive_solver.
Qed.

(** The last turn of a chain. *)
Lemma chain_last ms m ss now : chain (ms ++ [m]) ss now → ∃ ss1 turn files, ss = ss1 ++ [(turn, files)].
Proof.
  intros (ss1 & ss2 & -> & _ & H)%chain_app. destruct ss2 as [|[t S] [|]]; [done|by eexists _, _, _|by destruct H as (_ & _ & ?)].
Qed.

Lemma chain_push ms ss now turn message : chain ms ss now → chain (ms ++ [mkTurn turn message false ∅]) (ss ++ [(turn, now)]) now.
Proof.
  intros H. apply history_snoc. split_and!; [done|done|]. intros p x Hx. exists x. split; [done|]. split; [|done]. unfold undo. by destruct (key_of workspace p).
Qed.

(** What a change from outside leaves of the states. *)
Definition forget_changed (old new : Files) (st : Z * Snapshot) : Z * Snapshot :=
  (st.1, λ p, if decide (old p = new p) then st.2 p else None).

Lemma chain_changed ms ss old new : chain ms ss (taken old) → chain ms (forget_changed old new <$> ss) (taken new).
Proof.
  revert ss. induction ms as [|m ms IH]; intros [|[t S] ss]; cbn [chain fmap list_fmap]; try done. intros (H1 & H2 & H3).
  split_and!; [done| |by apply IH]. intros p x. cbn [forget_changed snd]. case_decide as E; [|done]. intros Hx.
  destruct (H2 p x Hx) as (y & Hy & Hu). exists y. split; [|done]. destruct ss as [|[t' S'] ss]; cbn in *; [unfold taken in *; by rw -E|].
  by rewrite ->decide_True.
Qed.
End Chain.

(** The blobs that no entry names do not matter. *)
Lemma undo_blobs blobs blobs' ws entries files p :
  (∀ k name, entries !! k = Some (Some name) → blobs' !! name = blobs !! name) → undo blobs' ws entries files p = undo blobs ws entries files p.
Proof. intros H. unfold undo. destruct (key_of ws p) as [k|]; [|done]. cbn. destruct (entries !! k) as [[name|]|] eqn:E; [by eapply H|done|done]. Qed.

Lemma chain_blobs blobs blobs' ws ms ss now :
  (∀ m k name, m ∈ ms → tm_entries m !! k = Some (Some name) → blobs' !! name = blobs !! name) → chain blobs ws ms ss now → chain blobs' ws ms ss now.
Proof.
  revert ss. induction ms as [|m ms IH]; intros [|[t S] ss] H; cbn; try done. intros (H1 & H2 & H4). split_and!; [done| |].
  - intros p x Hx. destruct (H2 p x Hx) as (y & Hy & -> & Hs). exists y. split; [done|]. split; [|done].
    symmetry. apply undo_blobs. intros k name E. eapply H; [left|done].
  - apply IH; [|done]. intros m' k name Hm. apply H. by right.
Qed.

(** ** The invariant *)

Section History.
Context (sha256 : ByteStr → ByteStr) (contents : ByteStr → Prop).

Record Inv (fs : FS) (s : RewindStore) (states : list (Z * Snapshot)) : Prop := {
  inv_tree : tree fs;
  inv_chain : chain (rw_blobs s) (rw_workspace s) (rw_turns s) states (taken (file_at fs));
  inv_sorted : StronglySorted Z.lt (tm_turn <$> rw_turns s);
  inv_active : ∀ i, rw_active s = Some i → length (rw_turns s) = S i;
  inv_entries : ∀ m key blob, m ∈ rw_turns s → tm_entries m !! key = Some blob →
    (∃ p, key_of (rw_workspace s) p = Some key ∧ plain fs p) ∧ ∀ name, blob = Some name → is_blob_name name = true ∧ is_Some (rw_blobs s !! name);
  inv_blobs : ∀ name bytes, rw_blobs s !! name = Some bytes → name = hex (sha256 bytes) ∧ contents bytes;
  inv_files : ∀ p bytes, file_at fs p = Some bytes → contents bytes;
  inv_disk : ∀ t x, rw_turn_files s !! t = Some x ↔ ∃ m, m ∈ rw_turns s ∧ tm_turn m = t ∧ x = Some m;
}.

(** The states with the turn an operation opened by itself. *)
Definition noted (fs : FS) (s' : RewindStore) (states : list (Z * Snapshot)) : list (Z * Snapshot) :=
  match last (rw_turns s') with
  | Some m => if (length (rw_turns s') =? S (length states))%nat then states ++ [(tm_turn m, taken (file_at fs))] else states
  | None => states
  end.

Lemma noted_same fs s states : Inv fs s states → noted fs s states = states.
Proof.
  intros H. unfold noted. rw (chain_length _ _ _ _ _ (inv_chain _ _ _ H)). rw (proj2 (Nat.eqb_neq _ _)); [|lia]. by destruct (last _).
Qed.

(** The number of a new turn. *)
Definition next_turn (s : RewindStore) : Z := match last (rw_turns s) with Some m => tm_turn m + 1 | None => 1 end.

Definition pushed (message : Str) (s : RewindStore) : RewindStore :=
  let m := mkTurn (next_turn s) message false ∅ in
  mkStore (rw_root s) (rw_workspace s) (rw_retention s) (rw_turns s ++ [m]) (Some (length (rw_turns s))) (<[next_turn s := Some m]> (rw_turn_files s)) (rw_blobs s).

Lemma begin_turn_eq io message s : io_manifest_fails io = false → begin_turn io message s = (pushed message s, Ok (next_turn s)).
Proof.
  intros Hio. unfold begin_turn, persist_active, persist, set_active, set_turns, set_turn_files. cbn [rw_turns rw_active rw_turn_files rw_root rw_workspace rw_retention rw_blobs].
  rw length_app. cbn [length]. replace (length (rw_turns s) + 1 - 1)%nat with (length (rw_turns s)) by lia.
  rewrite ->lookup_app_r by lia. rw Nat.sub_diag. cbn [lookup list_lookup]. by rw Hio.
Qed.

Lemma sorted_last ts t : StronglySorted Z.lt ts → last ts = Some t → Forall (λ u, u ≤ t) ts.
Proof.
  destruct ts as [|x ts _] using rev_ind; [done|]. rw last_snoc. intros H [= ->]. apply Forall_app. split; [|by repeat constructor].
  induction ts as [|u ts IH]; [constructor|]. cbn [app] in H. apply StronglySorted_inv in H as [H Hu]. constructor; [|by apply IH].
  rewrite ->Forall_forall in Hu. apply Z.lt_le_incl, Hu. set_solver.
Qed.

Lemma next_turn_larger s : StronglySorted Z.lt (tm_turn <$> rw_turns s) → Forall (λ m, tm_turn m < next_turn s) (rw_turns s).
Proof.
  intros H. unfold next_turn. destruct (last (rw_turns s)) as [m|] eqn:E; [|by apply last_None in E as ->].
  assert (last (tm_turn <$> rw_turns s) = Some (tm_turn m)) as El by (by rw fmap_last E).
  pose proof (sorted_last _ _ H El) as Hall. rewrite ->Forall_forall in Hall. apply Forall_forall. intros m' Hm'. specialize (Hall (tm_turn m') (list_elem_of_fmap_2 _ _ _ Hm')). lia.
Qed.

Lemma sorted_snoc ts t : StronglySorted Z.lt ts → Forall (λ u, u < t) ts → StronglySorted Z.lt (ts ++ [t]).
Proof.
  induction 1 as [|u ts H IH Hu]; intros Hall; [by repeat constructor|]. apply Forall_cons in Hall as [H1 H2]. cbn [app].
  constructor; [by apply IH|]. apply Forall_app. split; [done|by repeat constructor].
Qed.

Lemma pushed_inv fs s states message : Inv fs s states → Inv fs (pushed message s) (states ++ [(next_turn s, taken (file_at fs))]).
Proof.
  intros [Ht Hc Hs Ha He Hb Hf Hd]. pose proof (next_turn_larger s Hs) as Hlt. unfold pushed. split; cbn [rw_turns rw_blobs rw_workspace rw_active rw_turn_files]; try done.
  - by apply chain_push.
  - rw fmap_app. apply sorted_snoc; [done|]. by apply Forall_fmap.
  - intros i [= <-]. rw length_app. simpl. lia.
  - intros m k b [Hm|Hm%list_elem_of_singleton]%elem_of_app; [by apply He|by subst].
  - intros t x. rw lookup_insert_Some Hd. split.
    + intros [[<- <-]|[Hne (m & Hm & E1 & E2)]]; [eexists; split; [apply elem_of_app; right; by left|done]|].
      exists m. split; [apply elem_of_app; by left|done].
    + intros (m & [Hm|Hm%list_elem_of_singleton]%elem_of_app & E1 & E2); [|subst; by left]. right. split; [|by eauto].
      rewrite ->Forall_forall in Hlt. specialize (Hlt m Hm). lia.
Qed.

Lemma active_index_inv fs s states io : Inv fs s states → io_manifest_fails io = false →
  ∃ s' i, active_index io s = (s', Ok i) ∧ rw_active s' = Some i ∧ Inv fs s' (noted fs s' states) ∧
    rw_workspace s' = rw_workspace s ∧ rw_root s' = rw_root s.
Proof.
  intros H Hio. unfold active_index. destruct (rw_active s) as [i|] eqn:Ea.
  - exists s, i. rw noted_same //.
  - rw begin_turn_eq //. cbn [rw_active pushed]. eexists _, _. split; [done|]. split; [done|]. split; [|done].
    assert (noted fs (pushed [] s) states = states ++ [(next_turn s, taken (file_at fs))]) as ->; [|by apply pushed_inv].
    unfold noted, pushed. cbn [rw_turns]. rw last_snoc length_app (chain_length _ _ _ _ _ (inv_chain _ _ _ H)). cbn [length tm_turn].
    by rw (proj2 (Nat.eqb_eq (length states + 1) (S (length states)))); [|lia].
Qed.

(** ** Changing the active turn *)

Lemma active_last fs s states i : Inv fs s states → rw_active s = Some i → ∃ ms m, rw_turns s = ms ++ [m] ∧ i = length ms.
Proof.
  intros H Ha. pose proof (inv_active _ _ _ H i Ha) as Hl. destruct (rw_turns s) as [|m ms _] using rev_ind; [done|].
  exists ms, m. split; [done|]. rewrite ->length_app in Hl. simpl in Hl. lia.
Qed.

Lemma alter_snoc {A} (f : A → A) l x : alter f (length l) (l ++ [x]) = l ++ [f x].
Proof. rewrite ->alter_app_r_alt by lia. by rw Nat.sub_diag. Qed.

(** The store with another last manifest, in memory and on disk. *)
Definition with_last (ms : list TurnManifest) (m : TurnManifest) (s : RewindStore) : RewindStore :=
  mkStore (rw_root s) (rw_workspace s) (rw_retention s) (ms ++ [m]) (rw_active s) (<[tm_turn m := Some m]> (rw_turn_files s)) (rw_blobs s).

Lemma persist_last io f s ms m : io_manifest_fails io = false → rw_turns s = ms ++ [m] → rw_active s = Some (length ms) →
  persist_active io (set_turns (alter f (length ms) (rw_turns s)) s) = (with_last ms (f m) s, None).
Proof.
  intros Hio Hl Ha. unfold persist_active, persist, set_turns, set_turn_files. cbn [rw_turns rw_active rw_turn_files rw_root rw_workspace rw_retention rw_blobs].
  rw Ha Hl alter_snoc. rewrite ->lookup_app_r by lia. rw Nat.sub_diag. cbn [lookup list_lookup]. rw Hio. unfold with_last. by rw Ha.
Qed.

Lemma with_last_inv fs s states ms m m' : Inv fs s states → rw_turns s = ms ++ [m] → rw_active s = Some (length ms) → tm_turn m' = tm_turn m →
  (∀ p, undo (rw_blobs s) (rw_workspace s) (tm_entries m') (file_at fs) p = undo (rw_blobs s) (rw_workspace s) (tm_entries m) (file_at fs) p) →
  (∀ key blob, tm_entries m' !! key = Some blob → tm_entries m !! key = Some blob ∨
    (∃ p, key_of (rw_workspace s) p = Some key ∧ plain fs p) ∧ ∀ name, blob = Some name → is_blob_name name = true ∧ is_Some (rw_blobs s !! name)) →
  Inv fs (with_last ms m' s) states.
Proof.
  intros [Ht Hc Hs Ha He Hb Hf Hd] Hl Hact Hturn Hundo Hent. rewrite ->Hl in *. unfold with_last.
  split; cbn [rw_turns rw_blobs rw_workspace rw_active rw_turn_files]; try done.
  - destruct (chain_last _ _ _ _ _ _ Hc) as (ss1 & t & S & ->). apply history_snoc in Hc as (H1 & H2 & H3). apply history_snoc.
    split_and!; [done|by rw Hturn|]. intros p x Hx. destruct (H3 p x Hx) as (y & [= <-] & -> & Hs'). eexists. split; [done|].
    split; [|done]. symmetry. apply Hundo.
  - rw fmap_app. rewrite ->fmap_app in Hs. cbn in *. by rw Hturn.
  - intros i Hi. rewrite ->Hact in Hi. injection Hi as <-. rw length_app. simpl. lia.
  - intros m0 k b [Hm|Hm%list_elem_of_singleton]%elem_of_app.
    + apply He. set_solver.
    + subst. intros E. destruct (Hent k b E) as [H|H]; [|done]. eapply He; [|exact H]. set_solver.
  - assert (Forall (λ u, tm_turn u < tm_turn m) ms) as Hlt.
    { rewrite ->fmap_app in Hs. clear -Hs. induction ms as [|u ms IH]; [constructor|]. cbn in Hs. apply StronglySorted_inv in Hs as [Hs Hu].
      constructor; [|by apply IH]. rewrite ->Forall_forall in Hu. apply Hu. set_solver. }
    intros t x. rw lookup_insert_Some Hd Hturn. split.
    + intros [[<- <-]|[Hne (u & Hu & E1 & E2)]]; [exists m'; set_solver|].
      apply elem_of_app in Hu as [Hu|Hu%list_elem_of_singleton]; [|by subst]. exists u. set_solver.
    + intros (u & [Hu|Hu%list_elem_of_singleton]%elem_of_app & E1 & E2); [|subst; by left]. right.
      rewrite ->Forall_forall in Hlt. specialize (Hlt u Hu). split; [lia|]. exists u. set_solver.
Qed.

Lemma note_bash_inv fs s states io : Inv fs s states → io_manifest_fails io = false →
  let s' := (note_bash io s).1 in Inv fs s' (noted fs s' states).
Proof.
  intros H Hio. destruct (active_index_inv fs s states io H Hio) as (s1 & i & E & Ha & H1 & _). unfold note_bash. rw E.
  destruct (active_last _ _ _ _ H1 Ha) as (ms & m & Hl & ->). rw Hl. rewrite ->lookup_app_r by lia. rw Nat.sub_diag. cbn [lookup list_lookup].
  destruct (tm_ran_bash m); [done|]. rw -Hl (persist_last io _ s1 ms m) //. cbn [fst].
  set (m' := mkTurn _ _ _ _). assert (noted fs (with_last ms m' s1) states = noted fs s1 states) as ->.
  { unfold noted, with_last. cbn [rw_turns]. rw Hl !last_snoc !length_app //. }
  eapply with_last_inv; try done. intros key blob. cbn. auto.
Qed.

(** ** Capturing *)

(** The digests are digests, and no two contents that occur share one. *)
Context (sha256_bytes : ∀ bytes, length (sha256 bytes) = 32%nat ∧ Forall (λ b, b < 256)%N (sha256 bytes)).
Context (no_collision : ∀ a b, contents a → contents b → sha256 a = sha256 b → a = b).

Lemma hex_lower_digit d : (d < 16)%N → is_ascii_hexdigit (hex_lower d) = true ∧ utf8_width (hex_lower d) = 1%nat ∧ hex_value (hex_lower d) = d.
Proof.
  intros H. unfold is_ascii_hexdigit, hex_lower, utf8_width, hex_value.
  destruct (N.ltb_spec d 10); repeat match goal with |- context [(?a <? ?b)%N] => destruct (N.ltb_spec a b) | |- context [(?a <=? ?b)%N] => destruct (N.leb_spec a b) end; cbn; split_and!; try done; lia.
Qed.

Lemma hex_name bytes : is_blob_name (hex (sha256 bytes)) = true.
Proof.
  destruct (sha256_bytes bytes) as [Hl Hb]. unfold is_blob_name. apply andb_true_iff. rw Nat.eqb_eq forallb_forall.
  assert (∀ l, Forall (λ b, b < 256)%N l → byte_len (hex l) = (2 * length l)%nat ∧ Forall (λ x, is_ascii_hexdigit x = true) (hex l)) as Hh.
  { induction 1 as [|b l H _ [IH1 IH2]]; [done|]. unfold hex in *. cbn [mbind list_bind]. rw byte_len_app IH1.
    destruct (hex_lower_digit (b / 16)) as (A1 & A2 & _); [by apply N.Div0.div_lt_upper_bound; lia|].
    destruct (hex_lower_digit (b mod 16)) as (B1 & B2 & _); [by apply N.mod_lt|]. split; [cbn; rw A2 B2; lia|]. apply Forall_app. split; [by repeat constructor|done]. }
  destruct (Hh _ Hb) as [-> Hx]. rw Hl. split; [done|]. intros x Hin. rewrite ->Forall_forall in Hx. apply Hx. by apply list_elem_of_In.
Qed.

Lemma hex_inj a b : Forall (λ x, x < 256)%N a → Forall (λ x, x < 256)%N b → hex a = hex b → a = b.
Proof.
  intros Ha. revert b. induction Ha as [|x a Hx Ha IH]; intros [|y b] Hb; try done. apply Forall_cons in Hb as [Hy Hb].
  unfold hex. cbn [mbind list_bind app]. intros [= E1 E2 E3]. f_equal; [|by apply IH].
  assert ((x / 16 < 16 ∧ y / 16 < 16 ∧ x mod 16 < 16 ∧ y mod 16 < 16)%N) as (? & ? & ? & ?).
  { split_and!; try (apply N.Div0.div_lt_upper_bound; lia); by apply N.mod_lt. }
  apply (f_equal hex_value) in E1, E2. rewrite ->!(λ d H, proj2 (proj2 (hex_lower_digit d H))) in E1, E2 by done.
  rewrite ->(N.div_mod x 16), (N.div_mod y 16) by done. by rw E1 E2.
Qed.

Lemma write_blob_inv fs s states io p bytes name s' : Inv fs s states → file_at fs p = Some bytes → write_blob sha256 io bytes s = Ok (name, s') →
  Inv fs s' states ∧ is_blob_name name = true ∧ rw_blobs s' !! name = Some bytes ∧
  rw_turns s' = rw_turns s ∧ rw_active s' = rw_active s ∧ rw_workspace s' = rw_workspace s.
Proof.
  intros H Hp. destruct H as [Ht Hc Hs Ha He Hb Hf Hd] eqn:EH. unfold write_blob. set (nm := hex (sha256 bytes)).
  case_bool_decide as Hex.
  - intros [= <- <-]. split_and!; [done|apply hex_name| |done|done|done]. destruct Hex as [old Ho]. destruct (Hb _ _ Ho) as [E Hold].
    rw Ho. f_equal. apply no_collision; [done|by eapply Hf|]. symmetry. apply hex_inj; [apply sha256_bytes|apply sha256_bytes|done].
  - destruct (io_blob_fails io); [done|]. intros [= <- <-]. unfold set_blobs. cbn [rw_blobs rw_turns rw_active rw_workspace].
    assert (∀ m k n, m ∈ rw_turns s → tm_entries m !! k = Some (Some n) → <[nm := bytes]> (rw_blobs s) !! n = rw_blobs s !! n) as Hsame.
    { intros m k n Hm E. destruct (He m k _ Hm E) as [_ Hn]. destruct (Hn n eq_refl) as [_ Hin]. rw lookup_insert_ne //. by intros ->. }
    split_and!; [|apply hex_name|by rw lookup_insert_eq|done|done|done].
    split; cbn [rw_blobs rw_turns rw_active rw_workspace rw_turn_files]; try done.
    + by eapply chain_blobs.
    + intros m k b Hm E. destruct (He m k b Hm E) as [H1 H2]. split; [done|]. intros n ->. destruct (H2 n eq_refl) as [H3 H4]. split; [done|]. by rw (Hsame m k n Hm E).
    + intros n b [[<- <-]|[_ E]]%lookup_insert_Some; [split; [done|by eapply Hf]|by apply Hb].
Qed.

Lemma undo_new blobs ws entries files p key blob : key_of ws p = Some key → entries !! key = None → files p = blob ≫= (λ name, blobs !! name) →
  ∀ q, undo blobs ws (<[key := blob]> entries) files q = undo blobs ws entries files q.
Proof.
  intros Hk Hn Hf q. unfold undo. destruct (key_of ws q) as [k|] eqn:E; [|done]. cbn. destruct (decide (k = key)) as [->|Hne]; [|by rw lookup_insert_ne].
  rw lookup_insert_eq Hn. assert (q = p) as -> by by eapply key_of_inj. rw Hf. by destruct blob.
Qed.

Lemma key_of_capture ws p key : key_of ws p = Some key → ∃ rel, strip_path ws p = Some rel ∧ relative_key (names rel) = Some key.
Proof. intros (rel & -> & H1 & H2 & ->)%key_of_spec. exists rel. split; [by apply strip_path_spec|by apply relative_key_names]. Qed.

(** After a successful capture the active turn has an entry for the path. *)
Definition captured (s : RewindStore) (key : Str) : Prop :=
  ∃ ms m, rw_turns s = ms ++ [m] ∧ is_Some (tm_entries m !! key).

Lemma capture_inv fs s states io p key : Inv fs s states → io_manifest_fails io = false → plain fs p →
  key_of (rw_workspace s) p = Some key → path_starts_with p (rw_root s) = false →
  let '(s', r) := capture sha256 io fs (names p) s in Inv fs s' (noted fs s' states) ∧ rw_workspace s' = rw_workspace s ∧ ∀ b, r = Ok b → captured s' key.
Proof.
  intros H Hio Hp Hk Hroot. unfold capture. rw safe_canonicalize_plain // Hroot. destruct (key_of_capture _ _ _ Hk) as (rel & -> & ->).
  destruct (active_index_inv fs s states io H Hio) as (s1 & i & -> & Ha & H1 & Ew & _).
  destruct (active_last _ _ _ _ H1 Ha) as (ms & m & Hl & ->). rw Hl. rewrite ->lookup_app_r by lia. rw Nat.sub_diag. cbn [lookup list_lookup].
  case_bool_decide as Hin; [split_and!; [done|done|intros _ _; by exists ms, m]|].
  destruct (io_read_fails io); [done|].
  (* the new entry *)
  assert (∀ blob s2, Inv fs s2 (noted fs s1 states) → rw_turns s2 = ms ++ [m] → rw_active s2 = Some (length ms) → rw_workspace s2 = rw_workspace s →
    file_at fs p = blob ≫= (λ name, rw_blobs s2 !! name) → (∀ name, blob = Some name → is_blob_name name = true ∧ is_Some (rw_blobs s2 !! name)) →
    let '(s', r) := (let s := set_turns (alter (λ m, set_entries (<[key := blob]> (tm_entries m)) m) (length ms) (rw_turns s2)) s2 in
      let '(s, e) := persist_active io s in
      match e with None => (s, Ok true) | Some e => (set_turns (alter (set_entries ∅) (length ms) (rw_turns s)) s, Err e) end) in
    Inv fs s' (noted fs s' states) ∧ rw_workspace s' = rw_workspace s ∧ ∀ b, r = Ok b → captured s' key) as Hnew.
  { intros blob s2 H2 Hl2 Ha2 Ew2 Hf Hb. cbv zeta. rw (persist_last io _ s2 ms m) //. set (m' := set_entries _ m).
    assert (noted fs (with_last ms m' s2) states = noted fs s1 states) as ->.
    { unfold noted, with_last. cbn [rw_turns]. rw Hl !last_snoc !length_app //. }
    split_and!; [|done|intros _ _; exists ms, m'; split; [done|]; unfold m', set_entries; cbn; rw lookup_insert_eq; eauto].
    eapply with_last_inv; try done.
    - unfold m', set_entries. cbn [tm_entries]. apply (undo_new _ _ _ _ p); [by rw Ew2| |done]. by apply eq_None_not_Some.
    - intros k b E. unfold m', set_entries in E. cbn [tm_entries] in E. apply lookup_insert_Some in E as [[<- <-]|[_ E]]; [right|by left].
      split; [exists p; by rw Ew2|done]. }
  destruct (fs_read fs p) as [bytes|[]] eqn:Er; [| |done].
  - apply (fs_read_file fs (inv_tree _ _ _ H)) in Er; [|done]. destruct (write_blob sha256 io bytes s1) as [[name s2]|e] eqn:Ewb; [|done]. cbn [result_bind fst snd].
    destruct (write_blob_inv _ _ _ _ _ _ _ _ H1 Er Ewb) as (H2 & Hn & Hb & El & Ea & Ew').
    apply Hnew; [done|by rw El|by rw Ea|by rw Ew'|by rw Er /= Hb|]. intros n [= <-]. eauto.
  - apply Hnew; [done|done|done|done| |done]. cbn. destruct (file_at fs p) as [bytes|] eqn:Ef; [|done].
    apply (fs_read_file fs (inv_tree _ _ _ H)) in Ef; [|done]. by rewrite ->Er in Ef.
Qed.

Lemma write_inv fs s states p key bytes : Inv fs s states → key_of (rw_workspace s) p = Some key → captured s key → contents bytes →
  (∀ q r, p = q ++ r → q ≠ [] → r ≠ [] → fs !! q = Some NDir) → fs !! p ≠ Some NDir → Inv (<[p := NFile bytes]> fs) s states.
Proof.
  intros [Ht Hc Hs Ha He Hb Hf Hd] Hk (ms & m & Hl & Hin) Hbytes Hdir Hnd.
  assert (p ≠ []) as Hne by (intros ->; apply key_of_spec in Hk as (rel & E & Hr & _); by destruct (rw_workspace s), rel).
  split; try done.
  - by apply tree_write.
  - rewrite ->Hl in *. destruct (chain_last _ _ _ _ _ _ Hc) as (ss1 & t & S & ->). apply history_snoc in Hc as (H1 & H2 & H3). apply history_snoc.
    split_and!; [done|done|]. intros q x Hx. destruct (H3 q x Hx) as (y & [= <-] & -> & Hs'). eexists. split; [done|]. rw file_at_insert.
    case_decide as Eq; [|done]. subst q. destruct Hin as [blob Hin]. split; [unfold undo; by rw Hk /= Hin|done].
  - intros m0 k b Hm E. destruct (He m0 k b Hm E) as [(q & Hq & Hpl) Hn]. split; [|done]. exists q. split; [done|]. apply plain_insert; [by intros []|done].
  - intros q b. rw file_at_insert. case_decide; [by intros [= <-]|by apply Hf].
Qed.

Lemma mkdir_inv fs s states p : Inv fs s states → p ≠ [] → (∀ q r, p = q ++ r → q ≠ [] → r ≠ [] → fs !! q = Some NDir) → fs !! p = None →
  Inv (<[p := NDir]> fs) s states.
Proof.
  intros [Ht Hc Hs Ha He Hb Hf Hd] Hne Hdir Hn. split; try done.
  - by apply tree_mkdir.
  - eapply chain_weaken; [|done]. intros q x. unfold taken. by rw file_at_mkdir.
  - intros m0 k b Hm E. destruct (He m0 k b Hm E) as [(q & Hq & Hpl) Hx]. split; [|done]. exists q. split; [done|]. apply plain_insert; [by intros []|done].
  - intros q b. rw file_at_mkdir //. apply Hf.
Qed.

(** Something else changes the tree. *)
Lemma outside_inv fs s states fs' : Inv fs s states → tree fs' → (∀ p bytes, file_at fs' p = Some bytes → contents bytes) →
  (∀ p target, fs' !! p = Some (NLink target) → fs !! p = Some (NLink target)) →
  Inv fs' s (forget_changed (file_at fs) (file_at fs') <$> states).
Proof.
  intros [Ht Hc Hs Ha He Hb Hf Hd] Ht' Hf' Hl. split; try done; [by apply chain_changed|].
  intros m k b Hm E. destruct (He m k b Hm E) as [(p & Hk & Hp) Hn]. split; [|done]. exists p. split; [done|].
  intros q r target Eq Hq. by eapply Hp, Hl.
Qed.

(** ** Restoring *)

Lemma sorted_split t ms : StronglySorted Z.lt (tm_turn <$> ms) → ∃ old new, ms = old ++ new ∧ Forall (λ m, tm_turn m < t) old ∧ Forall (λ m, t ≤ tm_turn m) new.
Proof.
  induction ms as [|m ms IH]; intros H; [by exists [], []|]. cbn in H. apply StronglySorted_inv in H as [H Hm].
  destruct (Z.lt_ge_cases (tm_turn m) t) as [Hlt|Hge].
  - destruct (IH H) as (old & new & -> & H1 & H2). exists (m :: old), new. split_and!; [done|by constructor|done].
  - exists [], (m :: ms). split_and!; [done|constructor|]. constructor; [done|]. apply Forall_forall. intros m' Hm'.
    rewrite ->Forall_forall in Hm. specialize (Hm (tm_turn m') (list_elem_of_fmap_2 _ _ _ Hm')). lia.
Qed.

Definition all_entries (ms : list TurnManifest) : gmap Str (option Str) := foldr (λ m plan, tm_entries m ∪ plan) ∅ ms.

Lemma restore_plan_spec t old new : Forall (λ m, tm_turn m < t) old → Forall (λ m, t ≤ tm_turn m) new →
  restore_plan t (reverse (old ++ new)) ∅ = all_entries new.
Proof.
  intros Ho Hn. unfold all_entries. generalize (∅ : gmap Str (option Str)). induction new as [|m new IH] using rev_ind; intros plan.
  - rw app_nil_r. cbn. destruct (reverse old) as [|m l] eqn:E; [done|]. cbn [restore_plan].
    rw (proj2 (Z.ltb_lt (tm_turn m) t)) //. rewrite ->Forall_forall in Ho. apply Ho. apply elem_of_reverse. rw E. by left.
  - apply Forall_app in Hn as [Hn Hm]. apply Forall_cons in Hm as [Hm _]. rw app_assoc reverse_snoc. cbn [restore_plan]. rewrite ->(proj2 (Z.ltb_ge (tm_turn m) t) Hm). rewrite ->IH by done. by rw foldr_snoc.
Qed.

Lemma all_entries_lookup ms key blob : all_entries ms !! key = Some blob → ∃ m, m ∈ ms ∧ tm_entries m !! key = Some blob.
Proof.
  unfold all_entries. induction ms as [|m ms IH]; cbn; [by rw lookup_empty|]. rw lookup_union.
  destruct (tm_entries m !! key) as [b|] eqn:E; [rw union_Some_l; intros [= ->]; exists m; split; [by left|done]|].
  rw left_id. intros H. destruct (IH H) as (m' & Hm' & E'). exists m'. split; [by right|done].
Qed.

Lemma in_key_order_perm m : in_key_order m ≡ₚ map_to_list m.
Proof. apply merge_sort_Permutation. Qed.

(** What is left of the blobs. *)
Definition pruned (referenced : list Str) (blobs : gmap Str ByteStr) : gmap Str ByteStr := filter (λ f, f.1 ∈ referenced) blobs.

Lemma pruned_lookup referenced blobs name : pruned referenced blobs !! name = if decide (name ∈ referenced) then blobs !! name else None.
Proof.
  unfold pruned. destruct (blobs !! name) as [b|] eqn:E; case_decide as H.
  - by apply map_lookup_filter_Some.
  - apply map_lookup_filter_None. right. intros x _. done.
  - apply map_lookup_filter_None. by left.
  - apply map_lookup_filter_None. by left.
Qed.

Lemma prune_loop_ok referenced files s : prune_loop io_ok referenced files s =
  (set_blobs (filter (λ f, f.1 ∈ referenced ∨ f.1 ∉ files) (rw_blobs s)) s, None).
Proof.
  revert s. induction files as [|name files IH]; intros s; cbn [prune_loop].
  { f_equal. unfold set_blobs. destruct s; cbn. f_equal. symmetry. apply map_filter_id. intros. right. apply not_elem_of_nil. }
  case_bool_decide as Hr.
  - rw IH. f_equal. f_equal. apply map_filter_ext. intros n b _. cbn. rewrite ->not_elem_of_cons. destruct (decide (n = name)); naive_solver.
  - cbn. rw IH. f_equal. unfold set_blobs. cbn. f_equal. apply map_eq. intros n. apply option_eq. intros b.
    rewrite ->!map_lookup_filter_Some, lookup_delete_Some. cbn. rewrite ->not_elem_of_cons. destruct (decide (n = name)); naive_solver.
Qed.

Lemma prune_blobs_ok s : prune_blobs io_ok s = (set_blobs (pruned (referenced_blobs s) (rw_blobs s)) s, None).
Proof.
  unfold prune_blobs. rw prune_loop_ok. f_equal. f_equal. apply map_filter_ext. intros n b E. cbn. split; [|by left].
  intros [H|H]; [done|]. destruct H. apply list_elem_of_fmap. exists (n, b). split; [done|]. by apply elem_of_map_to_list.
Qed.

Lemma referenced_spec s name : name ∈ referenced_blobs s ↔ ∃ m key, m ∈ rw_turns s ∧ tm_entries m !! key = Some (Some name).
Proof.
  unfold referenced_blobs. rw list_elem_of_bind. split.
  - intros (m & H & Hm). apply list_elem_of_omap in H as ([n|] & H & E); [|done]. cbn in E. injection E as ->.
    apply list_elem_of_fmap in H as ([k b] & E & H). cbn in E. subst. apply elem_of_map_to_list in H. eauto.
  - intros (m & k & Hm & E). exists m. split; [|done]. apply list_elem_of_omap. exists (Some name). split; [|done].
    apply list_elem_of_fmap. exists (k, Some name). split; [done|]. by apply elem_of_map_to_list.
Qed.

Lemma remove_turn_files_ok turns s : remove_turn_files io_ok turns s = (set_turn_files (foldl (λ files t, delete t files) (rw_turn_files s) turns) s, None).
Proof. revert s. induction turns as [|t turns IH]; intros s; [by destruct s|]. cbn [remove_turn_files]. unfold remove_turn_file. cbn. by rw IH. Qed.

Lemma removed_lookup {A} (turns : list Z) (files : gmap Z A) t x : foldl (λ files t, delete t files) files turns !! t = Some x ↔ (t ∉ turns) ∧ files !! t = Some x.
Proof.
  revert files. induction turns as [|u turns IH]; intros files; cbn; [split; [intros ?; split; [apply not_elem_of_nil|done]|by intros [_ ?]]|].
  rw IH lookup_delete_Some not_elem_of_cons. naive_solver.
Qed.

(** A store with some of the turns and the blobs they name. *)
Lemma inv_substore fs fs' s s' states' states : Inv fs s states →
  grows fs fs' → (∀ p b, file_at fs' p = Some b → contents b) →
  chain (rw_blobs s) (rw_workspace s) (rw_turns s') states' (taken (file_at fs')) →
  StronglySorted Z.lt (tm_turn <$> rw_turns s') → (∀ m, m ∈ rw_turns s' → m ∈ rw_turns s) →
  (∀ i, rw_active s' = Some i → length (rw_turns s') = S i) → rw_workspace s' = rw_workspace s →
  rw_blobs s' ⊆ rw_blobs s → (∀ name, name ∈ referenced_blobs s' → rw_blobs s' !! name = rw_blobs s !! name) →
  (∀ t x, rw_turn_files s' !! t = Some x ↔ ∃ m, m ∈ rw_turns s' ∧ tm_turn m = t ∧ x = Some m) →
  Inv fs' s' states'.
Proof.
  intros [Ht Hc Hs Ha He Hb Hf Hd] (D1 & D2 & _) Hf' Hc' Hs' Hsub Ha' Ew Hbs Href Hd'.
  assert (∀ m k name, m ∈ rw_turns s' → tm_entries m !! k = Some (Some name) → rw_blobs s' !! name = rw_blobs s !! name) as Hsame.
  { intros m k name Hm E. apply Href. apply referenced_spec. eauto. }
  split; try done.
  - by apply D1.
  - rw Ew. by eapply chain_blobs.
  - intros m k b Hm E. destruct (He m k b (Hsub m Hm) E) as [(p & Hk & Hp) Hn]. split.
    + exists p. rw Ew. split; [done|by apply D2].
    + intros name ->. destruct (Hn name eq_refl) as [H1 H2]. split; [done|]. by rw (Hsame m k name Hm E).
  - intros name b E. apply Hb. by eapply lookup_weaken.
Qed.

Lemma pruned_subseteq referenced blobs : pruned referenced blobs ⊆ blobs.
Proof. apply map_filter_subseteq. Qed.

Lemma filter_split {A} (num : A → Z) t (old new : list A) : Forall (λ m, num m < t) old → Forall (λ m, t ≤ num m) new →
  filter (λ m, num m < t) (old ++ new) = old ∧ filter (λ m, t ≤ num m) (old ++ new) = new.
Proof.
  intros Ho Hn. rw !filter_app. split.
  - rw (filter_all _ old) //. rw (filter_none _ new); [by rw app_nil_r|]. intros x Hx. rewrite ->Forall_forall in Hn. specialize (Hn x Hx). lia.
  - rw (filter_all _ new) //. rw (filter_none _ old); [done|]. intros x Hx. rewrite ->Forall_forall in Ho. specialize (Ho x Hx). lia.
Qed.

(** Forgetting the turns from one on. *)
Definition without_turns (old new : list TurnManifest) (s : RewindStore) : RewindStore :=
  let s1 := mkStore (rw_root s) (rw_workspace s) (rw_retention s) old None (foldl (λ files t, delete t files) (rw_turn_files s) (tm_turn <$> new)) (rw_blobs s) in
  set_blobs (pruned (referenced_blobs s1) (rw_blobs s1)) s1.

Lemma forget_from_ok turn s old new : rw_turns s = old ++ new → Forall (λ m, tm_turn m < turn) old → Forall (λ m, turn ≤ tm_turn m) new →
  forget_from io_ok turn s = (if bool_decide (new = []) then s else without_turns old new s, None).
Proof.
  intros El Ho Hn. unfold forget_from. destruct (filter_split tm_turn turn old new Ho Hn) as [E1 E2]. rw El E1 E2.
  destruct new as [|m new]; [done|]. rewrite ->!bool_decide_eq_false_2 by done. rw remove_turn_files_ok prune_blobs_ok //.
Qed.

Lemma without_turns_inv fs fs' s old new ss1 ss2 : Inv fs s (ss1 ++ ss2) → rw_turns s = old ++ new →
  chain (rw_blobs s) (rw_workspace s) old ss1 (taken (file_at fs')) → grows fs fs' → (∀ p b, file_at fs' p = Some b → contents b) →
  Inv fs' (without_turns old new s) ss1.
Proof.
  intros H El Hc Hdirs Hf. pose proof (inv_sorted _ _ _ H) as Hs. rewrite ->El, fmap_app in Hs.
  assert (∀ m m', m ∈ old → m' ∈ new → tm_turn m < tm_turn m') as Hlt.
  { clear -Hs. induction old as [|u old IH]; intros m m' Hm Hm'; [by apply not_elem_of_nil in Hm|]. cbn in Hs. apply StronglySorted_inv in Hs as [Hs Hu].
    apply elem_of_cons in Hm as [->|Hm]; [|by apply IH]. rewrite ->Forall_forall in Hu. apply Hu, elem_of_app. right. by apply list_elem_of_fmap_2. }
  eapply inv_substore; try done; unfold without_turns, set_blobs; cbn [rw_turns rw_blobs rw_active rw_workspace rw_turn_files].
  - clear -Hs. induction old as [|u old IH]; [constructor|]. cbn in Hs |- *. apply StronglySorted_inv in Hs as [Hs Hu]. constructor; [by apply IH|].
    by apply Forall_app in Hu as [Hu _].
  - intros m Hm. rw El. apply elem_of_app. by left.
  - apply pruned_subseteq.
  - intros name Hname. rw pruned_lookup. by rewrite ->decide_True.
  - intros t x. rw removed_lookup (inv_disk _ _ _ H) El. split.
    + intros (Ht & m & [Hm|Hm]%elem_of_app & E1 & E2); [by eauto|]. destruct Ht. subst. by apply list_elem_of_fmap_2.
    + intros (m & Hm & E1 & E2). split; [|exists m; split; [apply elem_of_app; by left|done]].
      intros (m' & E & Hm')%list_elem_of_fmap. specialize (Hlt m m' Hm Hm'). lia.
Qed.

(** Restoring a turn gives the files it began with that are known, and
    forgets it and the later ones. *)
Lemma restore_inv fs s states turn : Inv fs s states →
  ∃ fs' s' report, restore io_ok turn fs s = (fs', s', Ok report) ∧ Inv fs' s' (filter (λ st, st.1 < turn) states) ∧ grows fs fs' ∧
    ∀ p x, head_files (filter (λ st, turn ≤ st.1) states) (taken (file_at fs)) p = Some x → file_at fs' p = x.
Proof.
  intros H. pose proof H as [Ht Hc Hs Ha He Hb Hf Hd]. destruct (sorted_split turn _ Hs) as (old & new & El & Ho & Hn).
  rewrite ->El in Hc. apply chain_app in Hc as (ss1 & ss2 & -> & Hc1 & Hc2).
  assert (∀ P, Forall (λ m, P (tm_turn m)) old → Forall (λ st : Z * Snapshot, P st.1) ss1) as Hss1.
  { intros P HP. apply Forall_fmap in HP. rewrite ->(chain_numbers _ _ _ _ _ Hc1) in HP. by apply Forall_fmap. }
  assert (∀ P, Forall (λ m, P (tm_turn m)) new → Forall (λ st : Z * Snapshot, P st.1) ss2) as Hss2.
  { intros P HP. apply Forall_fmap in HP. rewrite ->(chain_numbers _ _ _ _ _ Hc2) in HP. by apply Forall_fmap. }
  destruct (filter_split fst turn ss1 ss2) as [E1 E2]; [by apply (Hss1 (λ t, t < turn))|by apply (Hss2 (λ t, turn ≤ t))|]. rw E1 E2.
  unfold restore. rw El restore_plan_spec //. set (plan := all_entries new).
  assert (list_to_map (in_key_order plan) = plan) as Eplan.
  { rewrite <-(list_to_map_to_list plan) at 2. apply list_to_map_proper; [|apply in_key_order_perm]. rw in_key_order_perm. apply NoDup_fst_map_to_list. }
  destruct (restore_entries_spec s (in_key_order plan) fs (mkReport [] [] []) Ht) as [Hdirs Hfiles].
  { rw in_key_order_perm. apply NoDup_fst_map_to_list. }
  { apply Forall_forall. intros [key blob] Hin. rewrite ->in_key_order_perm in Hin. apply elem_of_map_to_list in Hin.
    apply all_entries_lookup in Hin as (m & Hm & Em). cbn [fst snd].
    destruct (He m key blob ltac:(rw El; apply elem_of_app; by right) Em) as [(p & Hk & Hp) Hname]. exists p. by split_and!. }
  destruct (restore_entries s (in_key_order plan) fs (mkReport [] [] [])) as [fs' report]. cbn [fst] in Hdirs, Hfiles.
  assert (∀ p x, head_files ss2 (taken (file_at fs)) p = Some x → file_at fs' p = x) as Hback.
  { intros p x Hx. destruct (chain_undo _ _ _ _ _ p x Hc2 Hx) as (y & [= <-] & -> & Hsome). specialize (Hfiles p). rewrite ->Eplan in Hfiles.
    destruct Hfiles as [E|[Ef Ef']]; [done|]. rw Ef'. fold (all_entries new) in Hsome |- *. fold plan in Hsome |- *. rewrite ->Ef in *.
    destruct (undo _ _ _ _ p) eqn:Eu; [|done]. by destruct Hsome. }
  assert (∀ p b, file_at fs' p = Some b → contents b) as Hcont.
  { intros p b Eb. destruct (Hfiles p) as [E|[_ E]]; rewrite ->E in Eb; [|done]. revert Eb. unfold undo.
    destruct (key_of _ p ≫= _) as [[name|]|]; [intros Eb; by eapply Hb|done|by apply Hf]. }
  assert (chain (rw_blobs s) (rw_workspace s) old ss1 (taken (file_at fs'))) as Hc1'.
  { eapply chain_weaken; [|exact Hc1]. intros p x Hx. unfold taken. by rw (Hback p x Hx). }
  rw (forget_from_ok turn s old new) //. eexists fs', _, report. split; [done|]. split; [|done]. case_bool_decide as Enew; [|by eapply without_turns_inv].
  subst new. rewrite ->app_nil_r in El. eapply inv_substore; try done; by rw El.
Qed.

(** ** Retention *)

Definition refs (turns : list TurnManifest) : list Str := turns ≫= λ m, omap id ((map_to_list (tm_entries m)).*2).
Definition bytes_of (blobs : gmap Str ByteStr) : Z := foldl (λ total f, sat_add u64_max total (len f.2)) 0 (map_to_list blobs).

(** The store without its oldest [k] turns and the blobs only they name. *)
Definition fits (s : RewindStore) (k : nat) : Prop :=
  len (drop k (rw_turns s)) ≤ max_turns (rw_retention s) ∧ bytes_of (pruned (refs (drop k (rw_turns s))) (rw_blobs s)) ≤ max_bytes (rw_retention s).

Lemma drop_oldest_ok s m rest : rw_turns s = m :: rest → drop_oldest_turn io_ok s =
  (mkStore (rw_root s) (rw_workspace s) (rw_retention s) rest (match rw_active s with Some (S index) => Some index | _ => None end)
     (delete (tm_turn m) (rw_turn_files s)) (rw_blobs s), None).
Proof. intros E. unfold drop_oldest_turn. by rw E. Qed.

Lemma drop_oldest_inv fs s st states : Inv fs s (st :: states) → rw_turns s ≠ [] → Inv fs (drop_oldest_turn io_ok s).1 states.
Proof.
  intros H Hne. pose proof H as [Ht Hc Hs Ha He Hb Hf Hd]. destruct (rw_turns s) as [|m rest] eqn:El; [done|]. rw (drop_oldest_ok s m rest) //. cbn [fst].
  cbn in Hs. apply StronglySorted_inv in Hs as [Hs Hm]. destruct st as [t S]. cbn in Hc. destruct Hc as (_ & _ & Hc).
  eapply inv_substore; try done; cbn [rw_turns rw_blobs rw_active rw_workspace rw_turn_files]; rw ?El.
  - intros m' Hm'. by right.
  - intros i Hi. destruct (rw_active s) as [[|j]|] eqn:Ea; try done. injection Hi as <-. specialize (Ha _ eq_refl). simpl in Ha. lia.
  - intros t' x. rw lookup_delete_Some Hd. split.
    + intros (Hne' & m' & [->|Hm']%elem_of_cons & E1 & E2); [done|eauto].
    + intros (m' & Hm' & E1 & E2). split; [|exists m'; split; [by right|done]]. rewrite ->Forall_forall in Hm. specialize (Hm (tm_turn m') (list_elem_of_fmap_2 _ _ _ Hm')). lia.
Qed.

Lemma prune_inv fs s states : Inv fs s states → Inv fs (prune_blobs io_ok s).1 states.
Proof.
  intros H. pose proof H as [Ht Hc Hs Ha He Hb Hf Hd]. rw prune_blobs_ok. cbn [fst]. unfold set_blobs.
  eapply inv_substore; try done; cbn [rw_turns rw_blobs rw_active rw_workspace rw_turn_files].
  - apply pruned_subseteq.
  - intros name Hn. rw pruned_lookup. by rewrite ->decide_True.
Qed.

(** Dropping turns one by one: the store, and what is kept. *)
Definition dropped_to (s s' : RewindStore) (k : nat) : Prop :=
  rw_turns s' = drop k (rw_turns s) ∧ rw_retention s' = rw_retention s ∧ rw_root s' = rw_root s ∧ rw_workspace s' = rw_workspace s ∧
  ∀ fs states, Inv fs s states → Inv fs s' (drop k states).

Lemma drop_oldest_step s : rw_turns s ≠ [] → dropped_to s (drop_oldest_turn io_ok s).1 1 ∧ (drop_oldest_turn io_ok s).2 = None ∧ rw_blobs (drop_oldest_turn io_ok s).1 = rw_blobs s.
Proof.
  intros Hne. assert (∀ fs states, Inv fs s states → Inv fs (drop_oldest_turn io_ok s).1 (drop 1 states)) as Hinv.
  { intros fs states H. pose proof (chain_length _ _ _ _ _ (inv_chain _ _ _ H)) as Hl. destruct states as [|st states]; [by destruct (rw_turns s)|].
    cbn [drop]. rw drop_0. by apply (drop_oldest_inv fs s st states). }
  destruct (rw_turns s) as [|m rest] eqn:E; [done|]. unfold dropped_to. rewrite ->(drop_oldest_ok s m rest E) in Hinv |- *. cbn [fst snd]. by rw E.
Qed.

Lemma dropped_zero s : dropped_to s s 0.
Proof. split_and!; done. Qed.

Lemma dropped_trans s1 s2 s3 a b : dropped_to s1 s2 a → dropped_to s2 s3 b → dropped_to s1 s3 (a + b).
Proof.
  intros (A1 & A2 & A3 & A4 & A5) (B1 & B2 & B3 & B4 & B5). split_and!; [rw B1 A1 drop_drop //|congruence|congruence|congruence|].
  intros fs states H. rw -drop_drop. by apply B5, A5.
Qed.

Lemma gc_turns_spec fuel s : 0 ≤ max_turns (rw_retention s) → (length (rw_turns s) ≤ fuel)%nat →
  ∃ s' k, gc_turns fuel io_ok s = (s', None) ∧ dropped_to s s' k ∧ rw_blobs s' = rw_blobs s ∧
    len (rw_turns s') ≤ max_turns (rw_retention s) ∧ ∀ j, (j < k)%nat → ¬ fits s j.
Proof.
  revert s. induction fuel as [|fuel IH]; intros s Hmax Hl.
  { exists s, 0%nat. split_and!; [done|apply dropped_zero|done|unfold len; lia|lia]. }
  cbn [gc_turns]. destruct (Z.ltb_spec (max_turns (rw_retention s)) (len (rw_turns s))) as [Hlt|Hge].
  - destruct (drop_oldest_step s) as (Hd & He & Hb); [intros E; rewrite ->E in Hlt; unfold len in Hlt; simpl in Hlt; lia|].
    destruct (drop_oldest_turn io_ok s) as [s1 e]. cbn [fst snd] in *. subst e. pose proof Hd as (D1 & D2 & _).
    destruct (IH s1) as (s' & k & E & Hk & Hb' & Hlen & Hfit); [by rw D2|rw D1 length_drop; lia|].
    rw E. exists s', (1 + k)%nat. split_and!; [done|by eapply dropped_trans|by rw Hb'|by rw -D2|]. intros j Hj [F1 F2].
    destruct j as [|j]; [rewrite ->drop_0 in F1; lia|]. apply (Hfit j); [lia|]. unfold fits. rw D1 D2 Hb drop_drop. done.
  - exists s, 0%nat. split_and!; [done|apply dropped_zero|done|done|lia].
Qed.

Lemma pruned_twice a b blobs : (∀ name, name ∈ a → name ∈ b) → pruned a (pruned b blobs) = pruned a blobs.
Proof. intros H. apply map_eq. intros name. rw !pruned_lookup. case_decide; [|done]. rewrite ->decide_True; [done|by apply H]. Qed.

Lemma refs_drop k turns name : name ∈ refs (drop k turns) → name ∈ refs turns.
Proof. unfold refs. rw !list_elem_of_bind. intros (m & H & Hm). exists m. split; [done|]. eapply subseteq_drop, Hm. Qed.

Lemma prune_step s : dropped_to s (prune_blobs io_ok s).1 0 ∧ (prune_blobs io_ok s).2 = None ∧ rw_blobs (prune_blobs io_ok s).1 = pruned (refs (rw_turns s)) (rw_blobs s).
Proof.
  assert (∀ fs states, Inv fs s states → Inv fs (prune_blobs io_ok s).1 (drop 0 states)) as Hinv by (intros; by apply prune_inv).
  unfold dropped_to. rewrite ->prune_blobs_ok in Hinv |- *. by cbn.
Qed.

Lemma gc_bytes_spec fuel s : 0 ≤ max_bytes (rw_retention s) → len (rw_turns s) ≤ max_turns (rw_retention s) →
  pruned (refs (rw_turns s)) (rw_blobs s) = rw_blobs s → (length (rw_turns s) ≤ fuel)%nat →
  ∃ s' k, gc_bytes fuel io_ok s = (s', None) ∧ dropped_to s s' k ∧ rw_blobs s' = pruned (refs (drop k (rw_turns s))) (rw_blobs s) ∧
    bytes_of (rw_blobs s') ≤ max_bytes (rw_retention s) ∧ ∀ j, (j < k)%nat → ¬ fits s j.
Proof.
  revert s. induction fuel as [|fuel IH]; intros s Hmax Hlen Hpr Hl.
  { exists s, 0%nat. destruct (rw_turns s) eqn:E; [|simpl in Hl; lia]. split_and!; [done|apply dropped_zero|by rw -{1}Hpr| |lia].
    rw -Hpr. replace (pruned (refs []) (rw_blobs s)) with (∅ : gmap Str ByteStr); [done|]. apply map_eq. intros n. by rw pruned_lookup lookup_empty. }
  cbn [gc_bytes]. change (blob_bytes s) with (bytes_of (rw_blobs s)).
  destruct (Z.ltb_spec (max_bytes (rw_retention s)) (bytes_of (rw_blobs s))) as [Hlt|Hge]; cbn [andb]; [case_bool_decide as Ht; cbn [negb]|].
  - exfalso. rewrite <-Hpr, Ht in Hlt. revert Hlt. replace (pruned (refs []) (rw_blobs s)) with (∅ : gmap Str ByteStr); [unfold bytes_of; rw map_to_list_empty; cbn; lia|].
    apply map_eq. intros n. by rw pruned_lookup lookup_empty.
  - destruct (drop_oldest_step s Ht) as (Hd & He & Hb). destruct (drop_oldest_turn io_ok s) as [s1 e]. cbn [fst snd] in *. subst e.
    destruct (prune_step s1) as (Hd' & He' & Hb'). destruct (prune_blobs io_ok s1) as [s2 e]. cbn [fst snd] in *. subst e.
    assert (dropped_to s s2 1) as Hd2 by exact (dropped_trans _ _ _ 1 0 Hd Hd'). pose proof Hd2 as (D1 & D2 & _).
    assert (rw_turns s1 = drop 1 (rw_turns s)) as D0 by apply Hd. rewrite ->D0, Hb in Hb'.
    destruct (IH s2) as (s' & k & E & Hk & Hbk & Hlen' & Hfit); [by rw D2| | |rw D1 length_drop; lia|].
    + rw D1 D2. unfold len in *. rw length_drop. lia.
    + rw D1 Hb' pruned_twice //.
    + assert (∀ j, pruned (refs (drop j (drop 1 (rw_turns s)))) (pruned (refs (drop 1 (rw_turns s))) (rw_blobs s)) = pruned (refs (drop j (drop 1 (rw_turns s)))) (rw_blobs s)) as Ep.
      { intros j. apply pruned_twice. intros name. apply refs_drop. }
      exists s', (1 + k)%nat. split_and!; [done|by eapply dropped_trans|by rw Hbk D1 Hb' Ep drop_drop|by rw -D2|].
      intros j Hj [F1 F2]. destruct j as [|j]; [rewrite ->drop_0, Hpr in F2; lia|]. apply (Hfit j); [lia|]. unfold fits. rw D1 D2 Hb' Ep drop_drop. done.
  - exists s, 0%nat. split_and!; [done|apply dropped_zero|by rw drop_0|done|lia].
Qed.

Lemma gc_spec s : 0 ≤ max_turns (rw_retention s) → 0 ≤ max_bytes (rw_retention s) →
  ∃ s' k, gc io_ok s = (s', None) ∧ dropped_to s s' k ∧ rw_blobs s' = pruned (refs (drop k (rw_turns s))) (rw_blobs s) ∧
    fits s k ∧ ∀ j, (j < k)%nat → ¬ fits s j.
Proof.
  intros H1 H2. unfold gc. destruct (gc_turns_spec (length (rw_turns s)) s H1 ltac:(lia)) as (s1 & a & -> & Hd1 & Hb1 & Hl1 & Hf1).
  destruct (prune_step s1) as (Hd2 & He & Hb2). destruct (prune_blobs io_ok s1) as [s2 e]. cbn [fst snd] in *. subst e.
  pose proof (dropped_trans _ _ _ a 0 Hd1 Hd2) as Hd. rewrite ->Nat.add_0_r in Hd. pose proof Hd as (D1 & D2 & _). pose proof Hd1 as (C1 & C2 & _).
  rewrite ->Hb1, C1 in Hb2.
  destruct (gc_bytes_spec (length (rw_turns s2)) s2) as (s' & b & -> & Hd3 & Hb3 & Hl3 & Hf3).
  { by rw D2. } { rw D1 D2 -C1. done. } { rw D1 Hb2 pruned_twice //. } { lia. }
  assert (∀ j, pruned (refs (drop j (drop a (rw_turns s)))) (pruned (refs (drop a (rw_turns s))) (rw_blobs s)) = pruned (refs (drop j (drop a (rw_turns s)))) (rw_blobs s)) as Ep.
  { intros j. apply pruned_twice. intros name. apply refs_drop. }
  rewrite ->D1, Hb2, Ep, drop_drop in Hb3. exists s', (a + b)%nat. split_and!; [done|by eapply dropped_trans|done| |].
  - split; [|by rw -Hb3 -D2]. rewrite ->C1 in Hl1. unfold len in *. rewrite ->length_drop in *. lia.
  - intros j Hj. destruct (Nat.lt_ge_cases j a) as [Hja|Hja]; [by apply Hf1|]. intros [F1 F2]. apply (Hf3 (j - a)%nat); [lia|].
    unfold fits. rw D1 D2 Hb2 Ep drop_drop. by replace (a + (j - a))%nat with j by lia.
Qed.

(** ** Opening the store again *)

Definition turn_le (m m' : TurnManifest) : Prop := tm_turn m ≤ tm_turn m'.

Lemma insert_turn_spec m ms : StronglySorted turn_le ms → StronglySorted turn_le (insert_turn m ms) ∧ insert_turn m ms ≡ₚ m :: ms.
Proof.
  induction 1 as [|m' ms H [IH1 IH2] Hm]; cbn [insert_turn]; [split; [by repeat constructor|done]|].
  destruct (Z.leb_spec (tm_turn m) (tm_turn m')) as [Hle|Hgt].
  - split; [|done]. constructor; [by constructor|]. constructor; [done|]. eapply Forall_impl; [exact Hm|]. unfold turn_le. intros. lia.
  - split; [|rw IH2; constructor]. constructor; [done|]. rw IH2. constructor; [unfold turn_le; lia|done].
Qed.

Lemma sort_turns_spec ms : StronglySorted turn_le (sort_turns ms) ∧ sort_turns ms ≡ₚ ms.
Proof.
  induction ms as [|m ms [IH1 IH2]]; [split; [constructor|done]|]. cbn [sort_turns foldr]. destruct (insert_turn_spec m _ IH1) as [H1 H2].
  split; [done|]. by rw H2 IH2.
Qed.

Lemma sorted_turns_unique l ms : StronglySorted turn_le l → StronglySorted Z.lt (tm_turn <$> ms) → l ≡ₚ ms → l = ms.
Proof.
  revert l. induction ms as [|m ms IH]; intros l Hl Hm E; [by apply Permutation_nil_r in E|].
  destruct l as [|x l]; [by apply Permutation_nil_l in E|]. cbn in Hm. apply StronglySorted_inv in Hl as [Hl Hx]. apply StronglySorted_inv in Hm as [Hm Hmin].
  assert (x = m) as ->.
  { assert (x ∈ m :: ms) as [?|Hin]%elem_of_cons by (rw -E; by left); [done|]. assert (m ∈ x :: l) as [?|Hin']%elem_of_cons by (rw E; by left); [done|].
    rewrite ->Forall_forall in Hx. rewrite ->Forall_forall in Hmin. specialize (Hx m Hin'). specialize (Hmin (tm_turn x) (list_elem_of_fmap_2 _ _ _ Hin)). unfold turn_le in Hx. lia. }
  f_equal. apply IH; [done|done|]. by apply Permutation_cons_inv in E.
Qed.

Lemma collect_manifests (l : list (Z * option TurnManifest)) ms :
  Forall2 (λ f m, f.2 = Some m) l ms →
  collect_results (λ f : Z * option TurnManifest, match f.2 with Some m => Ok m | None => Err ManifestUnreadable end) l = Ok ms.
Proof. induction 1 as [|f m l ms E _ IH]; [done|]. cbn [collect_results]. rw E. cbn [result_bind]. by rw IH. Qed.

Lemma load_turns_ok fs s states s1 : Inv fs s states → rw_turn_files s1 = rw_turn_files s → load_turns s1 = Ok (set_active None (set_turns (rw_turns s) s1)).
Proof.
  intros H Efiles. pose proof H as [Ht Hc Hs Ha He Hb Hf Hd]. unfold load_turns. rw Efiles.
  set (ms := omap snd (map_to_list (rw_turn_files s))).
  assert (Forall2 (λ f m, f.2 = Some m) (map_to_list (rw_turn_files s)) ms) as Hms.
  { unfold ms. assert (∀ f, f ∈ map_to_list (rw_turn_files s) → is_Some f.2) as Hall.
    { intros [t x] Hin%elem_of_map_to_list. apply Hd in Hin as (m & _ & _ & ->). by eexists. }
    induction (map_to_list (rw_turn_files s)) as [|f l IH]; [constructor|]. destruct (Hall f ltac:(by left)) as [m Em]. cbn. rw Em.
    constructor; [done|]. apply IH. intros g Hg. apply Hall. by right. }
  rw (collect_manifests _ ms Hms). cbn [result_bind]. destruct (sort_turns_spec ms) as [S1 S2].
  assert (sort_turns ms = rw_turns s) as ->; [|done].
  apply sorted_turns_unique; [done|done|]. rw S2.
  assert (∀ m, m ∈ ms ↔ m ∈ rw_turns s) as Hin.
  { intros m. unfold ms. rw list_elem_of_omap. split.
    - intros ([t x] & Hx%elem_of_map_to_list & E). cbn in E. subst x. apply Hd in Hx as (m' & Hm' & _ & [= ->]). done.
    - intros Hm. exists (tm_turn m, Some m). split; [|done]. apply elem_of_map_to_list, Hd. eauto. }
  apply NoDup_Permutation; [| |done].
  - apply (NoDup_fmap_1 tm_turn). replace (tm_turn <$> ms) with (map_to_list (rw_turn_files s)).*1; [apply NoDup_fst_map_to_list|].
    assert (∀ f, f ∈ map_to_list (rw_turn_files s) → tm_turn <$> f.2 = Some f.1) as Hnum.
    { intros [t x] Hx%elem_of_map_to_list. apply Hd in Hx as (m & _ & <- & ->). done. }
    clear -Hms Hnum. induction Hms as [|f m l ms' E Hl IH]; [done|]. cbn. f_equal; [|apply IH; intros g Hg; apply Hnum; by right].
    specialize (Hnum f ltac:(by left)). rewrite ->E in Hnum. cbn in Hnum. by injection Hnum.
  - apply (NoDup_fmap_1 tm_turn). clear -Hs. induction Hs as [|t l H IH Hl]; constructor; [|done]. intros Hin. rewrite ->Forall_forall in Hl. specialize (Hl t Hin). lia.
Qed.

Lemma inactive_inv fs s states : Inv fs s states → Inv fs (set_active None s) states.
Proof. by intros [Ht Hc Hs Ha He Hb Hf Hd]. Qed.

Lemma close_inv fs s states : Inv fs s states → 0 ≤ max_turns (rw_retention s) → 0 ≤ max_bytes (rw_retention s) →
  ∃ s', close io_ok s = (s', None) ∧ Inv fs s' (drop (length states - length (rw_turns s')) states).
Proof.
  intros H H1 H2. unfold close. destruct (gc_spec (set_active None s)) as (s' & k & E & (D1 & _ & _ & _ & D5) & _); [done|done|].
  exists s'. split; [done|]. apply inactive_inv in H. specialize (D5 fs states H). pose proof (chain_length _ _ _ _ _ (inv_chain _ _ _ H)) as Hl.
  replace (length states - length (rw_turns s'))%nat with (Nat.min k (length states)) by (rw D1 length_drop; lia).
  destruct (Nat.le_ge_cases k (length states)); [by rw Nat.min_l|]. rw Nat.min_r //. rewrite ->drop_ge in D5 by done. by rw drop_ge.
Qed.

Lemma open_inv fs s states retention : Inv fs s states → plain fs (rw_workspace s) → 0 ≤ max_turns retention → 0 ≤ max_bytes retention →
  ∃ s', open_at io_ok fs (rw_root s) (names (rw_workspace s)) retention (rw_turn_files s) (rw_blobs s) = Ok s' ∧
    Inv fs s' (drop (length states - length (rw_turns s')) states).
Proof.
  intros H Hw H1 H2. unfold open_at. rw safe_canonicalize_plain // (load_turns_ok fs s states) //. unfold set_active, set_turns. cbn [result_bind rw_root rw_workspace rw_retention rw_turns rw_turn_files rw_blobs].
  set (s1 := mkStore _ _ _ _ _ _ _). assert (Inv fs s1 states) as Hi by by destruct H.
  destruct (close_inv fs s1 states Hi H1 H2) as (s' & E & H'). change (gc io_ok s1) with (close io_ok s1). rw E. by exists s'.
Qed.

(** ** Runs *)

Definition World : Type := FS * RewindStore * list (Z * Snapshot).

(** What may happen in a session: turns begin, commands are noted, commands
    (or anything else outside the store) change, make and remove files and
    directories, but make no links, the file tools write (reads, blobs and the
    write itself may fail; the manifest is written) and make directories, turns
    are restored, the store is closed and opened again.  With every turn that
    begins the files are remembered as they are; a change from outside makes
    the store forget the files it changed. *)
Inductive rewind_step : World → World → Prop :=
| step_begin fs s states message s' turn :
    begin_turn io_ok message s = (s', Ok turn) → rewind_step (fs, s, states) (fs, s', states ++ [(turn, taken (file_at fs))])
| step_bash fs s states s' r :
    note_bash io_ok s = (s', r) → rewind_step (fs, s, states) (fs, s', noted fs s' states)
| step_outside fs s states fs' :
    tree fs' → (∀ p bytes, file_at fs' p = Some bytes → contents bytes) →
    (∀ p target, fs' !! p = Some (NLink target) → fs !! p = Some (NLink target)) →
    rewind_step (fs, s, states) (fs', s, forget_changed (file_at fs) (file_at fs') <$> states)
| step_write fs s states io p key bytes (written : bool) s' r :
    io_manifest_fails io = false → plain fs p → key_of (rw_workspace s) p = Some key → path_starts_with p (rw_root s) = false →
    contents bytes → in_dirs fs p → fs !! p ≠ Some NDir → capture sha256 io fs (names p) s = (s', r) →
    rewind_step (fs, s, states)
      (match r with Ok _ => if written then <[p := NFile bytes]> fs else fs | Err _ => fs end, s', noted fs s' states)
| step_mkdir fs s states p :
    p ≠ [] → in_dirs fs p → fs !! p = None → rewind_step (fs, s, states) (<[p := NDir]> fs, s, states)
| step_restore fs s states turn fs' s' r :
    restore io_ok turn fs s = (fs', s', r) → rewind_step (fs, s, states) (fs', s', filter (λ st, st.1 < turn) states)
| step_close fs s states s' e :
    0 ≤ max_turns (rw_retention s) → 0 ≤ max_bytes (rw_retention s) → close io_ok s = (s', e) →
    rewind_step (fs, s, states) (fs, s', drop (length states - length (rw_turns s')) states)
| step_open fs s states retention s' :
    plain fs (rw_workspace s) → 0 ≤ max_turns retention → 0 ≤ max_bytes retention →
    open_at io_ok fs (rw_root s) (names (rw_workspace s)) retention (rw_turn_files s) (rw_blobs s) = Ok s' →
    rewind_step (fs, s, states) (fs, s', drop (length states - length (rw_turns s')) states).

Definition world_inv (w : World) : Prop := Inv w.1.1 w.1.2 w.2.

Lemma step_inv w w' : rewind_step w w' → world_inv w → world_inv w'.
Proof.
  destruct 1 as [fs s states message s' turn E|fs s states s' r E|fs s states fs' Ht' Hf' Hl'|fs s states io p key bytes written s' r Hio Hp Hk Hroot Hb Hdir Hnd E
    |fs s states p Hne Hdir Hn|fs s states turn fs' s' r E|fs s states s' e H1 H2 E|fs s states retention s' Hw H1 H2 E]; unfold world_inv; cbn [fst snd]; intros H.
  - rewrite ->begin_turn_eq in E by done. injection E as <- <-. by apply pushed_inv.
  - pose proof (note_bash_inv fs s states io_ok H eq_refl) as H'. by rewrite ->E in H'.
  - by apply outside_inv.
  - pose proof (capture_inv fs s states io p key H Hio Hp Hk Hroot) as H'. rewrite ->E in H'. destruct H' as (H' & Ew & Hcap).
    destruct r as [b|]; [|done]. destruct written; [|done]. eapply write_inv; try done; [by rw Ew|by eapply Hcap].
  - by apply mkdir_inv.
  - destruct (restore_inv fs s states turn H) as (fs1 & s1 & report & E' & H' & _). rewrite ->E' in E. by injection E as <- <- <-.
  - destruct (close_inv fs s states H H1 H2) as (s1 & E' & H'). rewrite ->E' in E. by injection E as <- <-.
  - destruct (open_inv fs s states retention H Hw H1 H2) as (s1 & E' & H'). rewrite ->E' in E. by injection E as <-.
Qed.

Definition new_store (root workspace : Path) (retention : Retention) : RewindStore := mkStore root workspace retention [] None ∅ ∅.

Lemma new_store_inv fs root workspace retention : tree fs → (∀ p bytes, file_at fs p = Some bytes → contents bytes) → Inv fs (new_store root workspace retention) [].
Proof.
  intros Ht Hf. split; try done; cbn.
  - constructor.
  - intros m k b Hm. by apply not_elem_of_nil in Hm.
  - intros t x. rw lookup_empty. split; [done|]. intros (m & Hm & _). by apply not_elem_of_nil in Hm.
Qed.

Lemma run_inv fs root workspace retention w : tree fs → (∀ p bytes, file_at fs p = Some bytes → contents bytes) →
  rtc rewind_step (fs, new_store root workspace retention, []) w → world_inv w.
Proof.
  intros Ht Hf Hrun. assert (world_inv (fs, new_store root workspace retention, [])) as H0 by by apply new_store_inv.
  induction Hrun as [w|w1 w2 w3 Hs _ IH]; [done|]. apply IH. by eapply step_inv.
Qed.

Lemma state_head (states : list (Z * Snapshot)) turn files now : StronglySorted Z.lt states.*1 → (turn, files) ∈ states →
  head_files (filter (λ st, turn ≤ st.1) states) now = files.
Proof.
  induction states as [|[t S] states IH]; intros Hs Hin; [by apply not_elem_of_nil in Hin|]. cbn in Hs. apply StronglySorted_inv in Hs as [Hs Ht].
  apply elem_of_cons in Hin as [[= -> ->]|Hin]; [by rw filter_cons_True|]. rw filter_cons_False; [by apply IH|]. cbn.
  rewrite ->Forall_forall in Ht. assert (turn ∈ states.*1) as H by (apply list_elem_of_fmap; by exists (turn, files)). specialize (Ht turn H). lia.
Qed.

(** C22: rewinding gives the files back.  Whatever a session did before and
    after a turn began (writes of the file tools, failed ones too, commands and
    other programs that changed, made or removed files and directories, new
    turns, earlier restores, closing and opening the store), as long as the
    store still has the turn, restoring it succeeds, and every file that only
    the tools changed since, or nothing, is as it was when the turn began: with
    its old bytes, or absent.  No directory is lost and no link changes.  Files
    that a command changed since are not covered.  It is taken that paths the
    tools write have no links, that the manifest of a turn can be written, that
    no two contents have one digest, and that the store can read and remove its
    own files while restoring, closing and opening. *)
Theorem restore_returns_to_the_turn fs0 root workspace retention fs s states turn files :
  tree fs0 → (∀ p bytes, file_at fs0 p = Some bytes → contents bytes) →
  rtc rewind_step (fs0, new_store root workspace retention, []) (fs, s, states) → (turn, files) ∈ states →
  ∃ fs' s' report, restore io_ok turn fs s = (fs', s', Ok report) ∧ (∀ p x, files p = Some x → file_at fs' p = x) ∧
    (∀ p, fs !! p = Some NDir → fs' !! p = Some NDir) ∧ ∀ p target, fs' !! p = Some (NLink target) ↔ fs !! p = Some (NLink target).
Proof.
  intros Ht Hf Hrun Hin. pose proof (run_inv _ _ _ _ _ Ht Hf Hrun) as H. unfold world_inv in H. cbn [fst snd] in H.
  destruct (restore_inv fs s states turn H) as (fs' & s' & report & E & _ & (_ & _ & Hd & Hl) & Hfiles). exists fs', s', report. split_and!; [done| |done|done].
  intros p x Hx. apply Hfiles. rw (state_head states turn files) //. rewrite <-(chain_numbers _ _ _ _ _ (inv_chain _ _ _ H)). apply (inv_sorted _ _ _ H).
Qed.
End History.

(** Retention keeps the newest turns that fit.  Closing a store (or opening
    it) drops the least number of oldest turns that brings it within both
    limits, keeps exactly the blobs the remaining turns name, and so ends
    within the limits. *)
Theorem retention_keeps_the_newest s : 0 ≤ max_turns (rw_retention s) → 0 ≤ max_bytes (rw_retention s) →
  ∃ s' k, close io_ok s = (s', None) ∧ rw_turns s' = drop k (rw_turns s) ∧ rw_blobs s' = pruned (refs (rw_turns s')) (rw_blobs s) ∧
    len (rw_turns s') ≤ max_turns (rw_retention s) ∧ blob_bytes s' ≤ max_bytes (rw_retention s) ∧ ∀ j, (j < k)%nat → ¬ fits s j.
Proof.
  intros H1 H2. edestruct (gc_spec (λ _, replicate 32 0%N) (λ _, False)) with (s := set_active None s) as (s' & k & E & (D1 & _) & Hb & [F1 F2] & Hmin); [intros; split; [by rw length_replicate|by apply Forall_replicate]|exact H1|exact H2|].
  exists s', k. unfold close. split_and!; [done|done|by rw Hb D1|by rw D1|unfold blob_bytes; by rw Hb|]. exact Hmin.
Qed.

(** ** A concrete session *)

Definition w_ : Str := str "w".
Definition a_ : Str := str "a".
Definition b_ : Str := str "b".

(** A digest that tells the contents below apart. *)
Definition digest (bytes : ByteStr) : ByteStr := (λ b, b mod 256)%N <$> take 32 (bytes ++ replicate 32 0%N).

Lemma digest_bytes bytes : length (digest bytes) = 32%nat ∧ Forall (λ b, b < 256)%N (digest bytes).
Proof.
  unfold digest. split; [rw length_fmap length_take length_app length_replicate; lia|]. apply Forall_fmap, Forall_forall. intros b _. by apply N.mod_lt.
Qed.

Definition ex_fs : FS := <[[w_; a_] := NFile (str "old")]> {[ [w_] := NDir ]}.
Definition ex_new (fs : FS) (p : Path) : FS := <[p := NFile (str "new")]> fs.
Definition ex_s1 : RewindStore := (begin_turn io_ok (str "edit") (new_store [str "r"] [w_] default_retention)).1.
Definition ex_s2 : RewindStore := (capture digest io_ok ex_fs (names [w_; a_]) ex_s1).1.
Definition ex_s3 : RewindStore := (capture digest io_ok (ex_new ex_fs [w_; a_]) (names [w_; b_]) ex_s2).1.
Definition ex_end : FS := ex_new (ex_new ex_fs [w_; a_]) [w_; b_].
Definition ex_after : FS := <[[w_; str "c"] := NFile (str "new")]> (delete [w_; b_] ex_end).
Lemma ex_tree : tree ex_fs.
Proof.
  apply tree_write; [|done| |by vm_compute].
  - intros p n [<- <-]%lookup_singleton_Some. split; [done|]. intros [|x [|y q]] r E; [done| |done]. by destruct r.
  - intros [|x [|y q]] r E Hq Hr; [done| |by destruct q, r]. injection E as <- _. by vm_compute.
Qed.

Lemma two_names (P : Path → Prop) x y q r : [x; y] = q ++ r → P [] → P [x] → P [x; y] → P q.
Proof.
  intros E H0 H1 H2. destruct q as [|x' [|y' q]]; [done| |]; injection E; [by intros _ <-|]. intros E' <- <-. symmetry in E'. by apply app_nil in E' as [-> _].
Qed.

Lemma ex_in_dirs fs y : fs !! [w_] = Some NDir → in_dirs fs [w_; y].
Proof.
  intros H q r E Hq Hr. destruct q as [|x [|z q]]; [done|by injection E as <- _|]. injection E. intros E' _ _. symmetry in E'. by apply app_nil in E' as [_ ->].
Qed.

Lemma ex_plain fs y : fs !! [] = None → fs !! [w_] = Some NDir → (∀ target, fs !! [w_; y] ≠ Some (NLink target)) → plain fs [w_; y].
Proof. intros H0 H1 H2 q r target E. apply (two_names (λ q, fs !! q ≠ Some (NLink target)) w_ y q r E); [by rw H0|by rw H1|by apply H2]. Qed.

Lemma ex_run : rtc (rewind_step digest (λ b, b = str "old" ∨ b = str "new"))
  (ex_fs, new_store [str "r"] [w_] default_retention, []) (ex_end, ex_s3, [(1, taken (file_at ex_fs))]).
Proof.
  eapply rtc_l; [by apply (step_begin _ _ ex_fs _ [] (str "edit") ex_s1 1)|].
  eapply rtc_l.
  { apply (step_write _ _ ex_fs ex_s1 [(1, taken (file_at ex_fs))] io_ok [w_; a_] a_ (str "new") true ex_s2 (Ok true)); try done; [|by right|by apply ex_in_dirs].
    by apply ex_plain. }
  eapply rtc_l; [|apply rtc_refl].
  apply (step_write _ _ (ex_new ex_fs [w_; a_]) ex_s2 [(1, taken (file_at ex_fs))] io_ok [w_; b_] b_ (str "new") true ex_s3 (Ok true)); try done; [|by right|by apply ex_in_dirs].
  by apply ex_plain.
Qed.

(** A command removed one of the files and made another. *)
Lemma ex_command : rewind_step digest (λ b, b = str "old" ∨ b = str "new") (ex_end, ex_s3, [(1, taken (file_at ex_fs))])
  (ex_after, ex_s3, forget_changed (file_at ex_end) (file_at ex_after) <$> [(1, taken (file_at ex_fs))]).
Proof.
  assert (tree ex_end) as Ht.
  { unfold ex_end, ex_new. apply tree_write; [|done|by apply ex_in_dirs|done]. apply tree_write; [exact ex_tree|done|by apply ex_in_dirs|done]. }
  apply step_outside.
  - unfold ex_after. apply tree_write; [by eapply tree_delete|done|by apply ex_in_dirs|done].
  - intros p bytes. unfold ex_after, ex_end, ex_new, ex_fs. rw !file_at_insert file_at_delete !file_at_insert. repeat case_decide; try (intros [= <-]; auto; done).
    unfold file_at. destruct (decide (p = [w_])) as [->|]; [done|by rw lookup_singleton_ne].
  - intros p target. unfold ex_after. intros [[_ ?]|[_ [_ H]%lookup_delete_Some]]%lookup_insert_Some; done.
Qed.

(** One turn overwrote a file and created another, and a command removed that
    and made a third; restoring the turn gives the first one back. *)
Lemma restore_returns_to_the_turn_witness :
  ∃ fs' s' report, restore io_ok 1 ex_after ex_s3 = (fs', s', Ok report) ∧ file_at fs' [w_; a_] = Some (str "old").
Proof.
  edestruct (restore_returns_to_the_turn digest (λ b, b = str "old" ∨ b = str "new") digest_bytes)
    with (turn := 1) (files := (forget_changed (file_at ex_end) (file_at ex_after) (1, taken (file_at ex_fs))).2) as (fs' & s' & report & E & Hf & _).
  - intros a b [->| ->] [->| ->]; by vm_compute.
  - exact ex_tree.
  - intros p bytes. unfold ex_fs. rw file_at_insert. case_decide; [intros [= <-]; by left|]. unfold file_at. destruct (decide (p = [w_])) as [->|]; [done|by rw lookup_singleton_ne].
  - eapply rtc_r; [exact ex_run|exact ex_command].
  - by left.
  - exists fs', s', report. split; [exact E|]. apply Hf. by vm_compute.
Defined.

(** Two turns of which only one may be kept. *)
Lemma retention_keeps_the_newest_witness :
  let s := set_turns [mkTurn 1 [] false ∅; mkTurn 2 [] false ∅] (new_store [] [] (mkRetention 1 0)) in
  ∃ s' k, close io_ok s = (s', None) ∧ rw_turns s' = drop k (rw_turns s) ∧ len (rw_turns s') ≤ 1.
Proof.
  intros s. destruct (retention_keeps_the_newest s) as (s' & k & H1 & H2 & _ & H3 & _); [by vm_compute|by vm_compute|]. exists s', k. split_and!; done.
Defined.

(** When the manifest cannot be written, [capture] clears the entries of the
    turn, those of earlier captures too: the next write of a file that was
    captured before is captured again, with the changed content, and restoring
    the turn leaves that content. *)
Example failed_capture_forgets_pre_images :
  let full := mkIo false false true (λ _, false) (λ _, false) in
  let fs1 := ex_new ex_fs [w_; a_] in
  let '(s, r) := capture digest full fs1 (names [w_; b_]) ex_s2 in
  let '(s, r') := capture digest io_ok fs1 (names [w_; a_]) s in
  r = Err IoFailed ∧ r' = Ok true ∧ file_at ex_fs [w_; a_] = Some (str "old") ∧
  file_at (restore io_ok 1 (<[[w_; a_] := NFile (str "newer")]> fs1) s).1.1 [w_; a_] = Some (str "new").
Proof. vm_compute. auto. Qed.

(** A link that leads nowhere is taken for a new file of its directory, and
    writing the pre-image follows it out of the workspace. *)
Example dangling_link_leaves_the_workspace :
  let fs := <[[w_; a_] := NLink [RootDir; Normal (str "etc"); Normal (str "x")]]> (<[[str "etc"] := NDir]> ex_fs) in
  let '(fs', _, r) := restore io_ok 1 fs ex_s2 in
  fs !! [str "etc"; str "x"] = None ∧ file_at fs' [str "etc"; str "x"] = Some (str "old") ∧ r = Ok (mkReport [[w_; a_]] [] []).
Proof. vm_compute. auto. Qed.
