(* ===== verification/RewindScope.v ===== *)
(** * Rewind: the trust boundary of a restore

    The manifests are files that anything may have changed.  Where the
    workspace has no links, a restore changes nothing outside it, whatever they
    say. *)

From S2P Require Import Prelude Text Utf8 Utf8Bytes Json LineOutput FileSystem Rewind.

(** ** Keys that are accepted *)

Lemma join_split s : join_slash (split_slash s) = s.
Proof.
  induction s as [|c s IH]; [done|]. cbn [split_slash]. destruct (N.eqb_spec c c_slash) as [->|Hc].
  - destruct (split_slash s) as [|p ps] eqn:E; [by destruct s; cbn in E; repeat case_match|]. change (join_slash ([] :: p :: ps)) with ([c_slash] ++ join_slash (p :: ps)). by rw IH.
  - destruct (split_slash s) as [|p [|q ps]]; cbn in IH |- *; by rw -IH.
Qed.

Lemma key_parts_normal rel parts parts' : key_parts rel parts = Some parts' → CurDir ∉ rel → ∃ more, rel = names more ∧ parts' = parts ++ more.
Proof.
  revert parts. induction rel as [|c rel IH]; intros parts; cbn [key_parts]; [intros [= <-]; exists []; by rw app_nil_r|].
  intros H [Hc Hrel]%not_elem_of_cons. destruct c as [| | |n]; try done. destruct (IH _ H Hrel) as (more & -> & ->). exists (n :: more). by rw -app_assoc.
Qed.

Lemma component_no_curdir part : CurDir ∉ component part.
Proof. unfold component. repeat case_match; rw ?elem_of_nil ?list_elem_of_singleton; naive_solver. Qed.

Lemma components_no_curdir parts : CurDir ∉ parts ≫= component.
Proof. rw list_elem_of_bind. intros (part & H & _). by eapply component_no_curdir. Qed.

Lemma join_length p q ps : length (join_slash (p :: q :: ps)) = (length p + 1 + length (join_slash (q :: ps)))%nat.
Proof. change (join_slash (p :: q :: ps)) with (p ++ [c_slash] ++ join_slash (q :: ps)). rw !length_app. simpl. lia. Qed.

(** Dropping parts makes a key shorter. *)
Lemma key_shorter parts more : parts ≫= component = names more → (length (join_slash more) ≤ length (join_slash parts))%nat ∧ (more ≠ [] → parts ≠ []).
Proof.
  revert more. induction parts as [|p ps IH]; intros more; cbn [mbind list_bind]; [by destruct more|].
  assert (component p = [] ∨ component p = [ParentDir] ∨ component p = [Normal p]) as [->|[->| ->]] by (unfold component; repeat case_match; auto).
  - cbn [app]. intros H. destruct (IH more H) as [H1 H2]. split; [|done]. destruct ps; [simpl in *; lia|]. rw join_length. lia.
  - by destruct more.
  - destruct more as [|m more]; [done|]. cbn. intros [= <- H]. destruct (IH more H) as [H1 H2]. split; [|done].
    destruct more as [|m' more]; [destruct ps; [done|]; rw join_length; simpl; lia|]. destruct ps as [|q ps]; [by destruct (H2 ltac:(done))|].
    rw !join_length. lia.
Qed.

Lemma accepted_key key : relative_key (components key) = Some key → ∃ parts, components key = names parts ∧ parts ≠ [].
Proof.
  unfold relative_key. destruct (key_parts (components key) []) as [parts|] eqn:E; [|done]. intros H.
  assert (parts ≠ [] ∧ join_slash parts = key) as [Hne Hj] by (destruct parts; [done|by injection H]). clear H.
  pose proof (join_split key) as Hs. unfold components in *.
  assert (∀ first rest, split_slash key = first :: rest →
    key_parts ((if bool_decide (first = dot) then [CurDir] else component first) ++ (rest ≫= component)) [] = Some parts →
    (if bool_decide (first = dot) then [CurDir] else component first) ++ (rest ≫= component) = names parts) as Hmain.
  { intros first rest Ef Ek. case_bool_decide as Hd.
    - exfalso. cbn [app key_parts] in Ek. apply key_parts_normal in Ek as (more & Em & ->); [|apply components_no_curdir]. cbn [app] in *.
      destruct (key_shorter _ _ Em) as [H1 H2]. specialize (H2 Hne). rewrite ->Ef in Hs. subst first. destruct rest as [|q rest]; [done|].
      apply (f_equal length) in Hs. rewrite ->join_length, <-Hj in Hs. lia.
    - apply key_parts_normal in Ek as (more & Em & ->); [done|]. intros [H|H]%elem_of_app; [by eapply component_no_curdir|by eapply components_no_curdir]. }
  destruct (split_slash key) as [|first rest] eqn:Ef; [by injection E as <-|]. destruct first as [|c first].
  - destruct rest as [|q rest]; [|done]. cbn in E. by injection E as <-.
  - exists parts. split; [|done]. by apply Hmain.
Qed.

(** ** Changes inside the workspace *)

Section Scope.
Context (workspace : Path).

Record scoped (fs : FS) : Prop := {
  scoped_dirs : ∀ q r, workspace = q ++ r → q ≠ [] → fs !! q = Some NDir;
  scoped_links : ∀ rel target, fs !! (workspace ++ rel) ≠ Some (NLink target);
  scoped_root : fs !! [] = None;
}.

Definition same_outside (fs fs' : FS) : Prop := ∀ p, path_starts_with p workspace = false → fs' !! p = fs !! p.

(** The trees that may come about. *)
Definition stays (fs fs' : FS) : Prop := scoped fs' ∧ same_outside fs fs'.

Lemma stays_refl fs : scoped fs → stays fs fs.
Proof. by split. Qed.
Lemma stays_trans fs1 fs2 fs3 : stays fs1 fs2 → stays fs2 fs3 → stays fs1 fs3.
Proof. intros [A1 A2] [B1 B2]. split; [done|]. intros p Hp. by rw B2 // A2. Qed.

Lemma scoped_plain fs rel : scoped fs → plain fs (workspace ++ rel).
Proof.
  intros [Hd Hl Hr] q r target E Hq. apply app_eq_inv in E as [(k & E1 & _)|(k & E1 & _)].
  - destruct (decide (q = [])) as [->|Hne]; [by rewrite ->Hr in Hq|]. by rewrite ->(Hd q k E1 Hne) in Hq.
  - subst q. by eapply Hl.
Qed.

Lemma not_a_parent q r rel : workspace = q ++ r → rel ≠ [] → workspace ++ rel ≠ q.
Proof. intros -> Hrel E. apply (f_equal length) in E. rewrite ->!length_app in E. destruct rel; [done|]. simpl in E. lia. Qed.

Lemma outside_not_inside p rel : path_starts_with p workspace = false → p ≠ workspace ++ rel.
Proof. intros H ->. by rewrite ->(proj2 (path_starts_with_spec _ _) (ex_intro _ rel eq_refl)) in H. Qed.

Lemma stays_insert fs rel n : scoped fs → rel ≠ [] → ¬ is_link n → stays fs (<[workspace ++ rel := n]> fs).
Proof.
  intros [Hd Hl Hr] Hrel Hn. split; [split|].
  - intros q r E Hq. rw lookup_insert_ne; [by eapply Hd|by eapply not_a_parent].
  - intros rel' target [[E ->]|[_ H]]%lookup_insert_Some; [done|by eapply Hl].
  - rw lookup_insert_ne //. destruct workspace, rel; done.
  - intros p Hp. rw lookup_insert_ne //. intros E. by eapply outside_not_inside.
Qed.

Lemma stays_delete fs rel : scoped fs → rel ≠ [] → stays fs (delete (workspace ++ rel) fs).
Proof.
  intros [Hd Hl Hr] Hrel. split; [split|].
  - intros q r E Hq. rw lookup_delete_ne; [by eapply Hd|by eapply not_a_parent].
  - intros rel' target [_ H]%lookup_delete_Some. by eapply Hl.
  - apply lookup_delete_None. by right.
  - intros p Hp. rw lookup_delete_ne //. intros E. by eapply outside_not_inside.
Qed.

Lemma is_dir_parent fs q r : scoped fs → workspace = q ++ r → is_dir fs q = true.
Proof.
  intros [Hd Hl Hr] E. unfold is_dir, canonicalize. rw (resolve_real false MAX_LINKS fs [] q).
  - cbn. destruct q as [|n q]; [done|]. unfold node. by rw (Hd (n :: q) r E).
  - intros a b Ea Ha _. apply (Hd a (b ++ r)); [by rw E Ea -app_assoc|done].
  - intros Hq. cbn. by rw (Hd q r E Hq).
Qed.

Lemma create_dirs_stay todo fs done rel fs' : scoped fs → done ++ todo = workspace ++ rel → create_dir_all_from fs done todo = Ok fs' → stays fs fs'.
Proof.
  revert fs done. induction todo as [|name todo IH]; intros fs done Hs E; cbn [create_dir_all_from]; [intros [= <-]; by apply stays_refl|].
  assert ((done ++ [name]) ++ todo = workspace ++ rel) as E' by by rw -app_assoc. set (p := done ++ [name]) in *.
  destruct (is_dir fs p) eqn:Ed; [by apply IH|]. unfold create_dir. destruct (locate fs p) as [q|] eqn:El; [|done]. cbn [result_bind].
  pose proof E' as Ei. apply app_eq_inv in Ei as [(k & E1 & E2)|(k & E1 & _)].
  - assert (p = workspace ++ k) as Ep by done. rewrite ->Ep in El. apply locate_plain in El as ->; [|by apply scoped_plain]. rewrite <-Ep.
    destruct (node fs p) eqn:En; [done|]. cbn [result_bind]. intros H.
    assert (k ≠ []) as Hk by (intros ->; rewrite ->app_nil_r in Ep; rewrite ->Ep, (is_dir_parent fs workspace []) in Ed; [done|done|by rw app_nil_r]).
    assert (stays fs (<[p := NDir]> fs)) as Hst by (rw Ep; apply stays_insert; [done|done|by intros []]). eapply stays_trans; [exact Hst|]. apply IH in H; [done|by destruct Hst|done].
  - by rewrite ->(is_dir_parent fs p k Hs E1) in Ed.
Qed.

Lemma write_stays fs rel bytes fs' : scoped fs → rel ≠ [] → fs_write fs (workspace ++ rel) bytes = Ok fs' → stays fs fs'.
Proof.
  intros Hs Hrel. unfold fs_write. destruct (resolve true MAX_LINKS fs [] (names (workspace ++ rel))) as [q|] eqn:E; [|done]. cbn [result_bind].
  apply resolve_plain in E as ->; [|intros q0 t target Eq; by eapply (scoped_plain fs rel Hs)]. cbn [app].
  assert (stays fs (<[workspace ++ rel := NFile bytes]> fs)) as Hst by (apply stays_insert; [done|done|by intros []]).
  destruct (node fs (workspace ++ rel)) as [[]|]; try done; by intros [= <-].
Qed.

Lemma restore_entry_stays fs s key blob : rw_workspace s = workspace → scoped fs → stays fs (restore_entry fs s key blob).1.
Proof.
  intros Ew Hs. unfold restore_entry, resolve_entry. rw Ew. case_bool_decide as Hk; [by apply stays_refl|].
  destruct (accepted_key key) as (rel & Er & Hrel); [by destruct (decide (relative_key (components key) = Some key))|].
  unfold enforce_cwd_scope. rw Er. unfold names at 1. rw -fmap_app. fold (names (workspace ++ rel)).
  rw safe_canonicalize_plain; [|by apply scoped_plain]. destruct (path_starts_with _ _); [|by apply stays_refl].
  destruct blob as [name|].
  - destruct (negb (is_blob_name name)); [by apply stays_refl|]. destruct (rw_blobs s !! name) as [bytes|]; [|by apply stays_refl].
    unfold restore_blob. set (made := match workspace ++ rel with [] => Ok fs | _ => _ end).
    assert (∀ fs1, made = Ok fs1 → stays fs fs1) as Hmade.
    { intros fs1. unfold made. destruct (workspace ++ rel) as [|n p] eqn:E; [intros [= <-]; by apply stays_refl|]. rewrite <-E. clear made.
      destruct (exists_at fs _); [intros [= <-]; by apply stays_refl|]. rw removelast_app //. intros H. by eapply (create_dirs_stay _ fs [] (removelast rel)). }
    destruct made as [fs1|]; [|by apply stays_refl]. specialize (Hmade fs1 eq_refl).
    destruct (fs_write fs1 (workspace ++ rel) bytes) as [fs2|] eqn:Ewr; [|done]. cbn [fst]. eapply stays_trans; [exact Hmade|]. eapply write_stays; [apply Hmade|done|exact Ewr].
  - unfold restore_absence, symlink_metadata, remove_file. destruct (locate fs (workspace ++ rel)) as [q|e] eqn:El; [|destruct e; by apply stays_refl].
    apply locate_plain in El as ->; [|by apply scoped_plain]. cbn [result_bind]. destruct (node fs (workspace ++ rel)) as [[]|]; try by apply stays_refl.
    by apply stays_delete.
Qed.

Lemma restore_entries_stay entries fs s report : rw_workspace s = workspace → scoped fs → stays fs (restore_entries s entries fs report).1.
Proof.
  intros Ew. revert fs report. induction entries as [|[key blob] entries IH]; intros fs report Hs; [by apply stays_refl|]. cbn [restore_entries].
  pose proof (restore_entry_stays fs s key blob Ew Hs) as H. destruct (restore_entry fs s key blob) as [fs1 r]. cbn [fst] in H.
  eapply stays_trans; [exact H|]. apply IH. apply H.
Qed.
End Scope.

(** C23: a restore stays inside the workspace.  Whatever the manifests and blobs
    of the store say (they may have been tampered with), if the workspace is a
    directory without symbolic links, restoring any turn changes nothing
    outside it. *)
Theorem restore_stays_inside io turn fs s fs' s' r :
  tree fs → fs !! rw_workspace s = Some NDir → (∀ rel target, fs !! (rw_workspace s ++ rel) ≠ Some (NLink target)) →
  restore io turn fs s = (fs', s', r) → ∀ p, path_starts_with p (rw_workspace s) = false → fs' !! p = fs !! p.
Proof.
  intros Ht Hw Hl E. unfold restore in E. set (plan := restore_plan _ _ _) in E.
  assert (scoped (rw_workspace s) fs) as Hs.
  { split; [|done|]. - intros q rest Eq Hq. destruct (decide (rest = [])) as [->|Hr]; [rewrite ->app_nil_r in Eq; by subst|]. by eapply (Ht _ _ Hw).
    - destruct (fs !! []) as [n|] eqn:En; [|done]. by destruct (Ht _ _ En). }
  pose proof (restore_entries_stay (rw_workspace s) (in_key_order plan) fs s (mkReport [] [] []) eq_refl Hs) as [_ H].
  destruct (restore_entries s _ fs _) as [fs1 report]. destruct (forget_from io turn s) as [s1 e]. injection E as <- _ _. exact H.
Qed.

(** A manifest that asks for the deletion of a file next to the workspace. *)
Lemma restore_stays_inside_witness :
  let fs : FS := <[[str "x"] := NFile (str "mine")]> {[ [str "w"] := NDir ]} in
  let s := mkStore [str "r"] [str "w"] default_retention [mkTurn 1 [] false {[ str "../x" := None ]}] None ∅ ∅ in
  (restore io_ok 1 fs s).1.1 !! [str "x"] = Some (NFile (str "mine")).
Proof.
  intros fs s. assert (tree fs) as Ht.
  { intros p n [[<- <-]|[_ [<- <-]%lookup_singleton_Some]]%lookup_insert_Some; (split; [done|]; intros q rest Eq Hq Hr; exfalso;
      destruct q as [|? q]; [done|]; injection Eq; intros Eq' _; symmetry in Eq'; by apply app_nil in Eq' as [_ ->]). }
  assert (∀ rel target, fs !! ([str "w"] ++ rel) ≠ Some (NLink target)) as Hl.
  { intros rel target. unfold fs. intros [[H _]|[_ [_ H]%lookup_singleton_Some]]%lookup_insert_Some; done. }
  destruct (restore io_ok 1 fs s) as [[fs' s'] r] eqn:E. cbn [fst].
  refine (eq_trans (restore_stays_inside io_ok 1 fs s fs' s' r Ht _ Hl E [str "x"] _) _); reflexivity.
Defined.
