(* ===== verification/PartialJson.v ===== *)
(** * Completing a JSON prefix ([complete_partial_json] of
    [src/providers/openai.rs])

    While a tool call streams in, its arguments are shown from the prefix
    received so far, closed so that it parses.  The source pops characters
    from the end of a [String]; here the text is kept reversed, so that the
    end is the head of the list.  All tests are for ASCII characters, so
    characters stand for bytes.  [from_str] is [serde_json::from_str]. *)

From S2P Require Import Prelude Text Json.

Definition c_comma : N := 44.
Definition c_lbracket : N := 91.
Definition c_rbracket : N := 93.
Definition c_lbrace : N := 123.
Definition c_rbrace : N := 125.

(** ** The structural scan: closers still owed (innermost first), whether
    inside a string, whether after a backslash there. *)
Record Scan := mkScan { sc_closers : list N; sc_in_string : bool; sc_escaped : bool }.

Definition scan_step (st : Scan) (c : N) : Scan :=
  let '(mkScan closers in_string escaped) := st in
  if in_string then
    if escaped then mkScan closers true false
    else if (c =? c_backslash)%N then mkScan closers true true
    else if (c =? c_dquote)%N then mkScan closers false escaped
    else st
  else if (c =? c_dquote)%N then mkScan closers true escaped
  else if (c =? c_lbrace)%N then mkScan (c_rbrace :: closers) in_string escaped
  else if (c =? c_lbracket)%N then mkScan (c_rbracket :: closers) in_string escaped
  else if (c =? c_rbrace)%N || (c =? c_rbracket)%N then mkScan (tail closers) in_string escaped
  else st.

Definition structural_scan (s : Str) : Scan := fold_left scan_step s (mkScan [] false false).

(** ** The tail of the text, reversed *)

Fixpoint count_backslashes (s : Str) : nat :=
  match s with c :: s' => if (c =? c_backslash)%N then S (count_backslashes s') else O | [] => O end.

(** The text before the opening quote of the string literal at the end. *)
Fixpoint before_open_quote (s : Str) : option Str :=
  match s with
  | [] => None
  | c :: s' =>
      if (c =? c_dquote)%N && Nat.even (count_backslashes s') then Some s' else before_open_quote s'
  end.

Definition trailing_json_string_start (rout : Str) : option Str :=
  match rout with
  | c :: rest => if (c =? c_dquote)%N then before_open_quote rest else None
  | [] => None
  end.

Definition remove_trailing_json_string (rout : Str) : Str :=
  default rout (trailing_json_string_start rout).

(** One turn of the loop: [inl] to continue, [inr] to break. *)
Definition trim_turn (is_object : bool) (rout : Str) : Str + Str :=
  let before := length rout in
  let rout := trim_start rout in
  match rout with
  | c :: rest =>
      if (c =? c_comma)%N then inl rest
      else if is_object && (c =? c_colon)%N then inl (remove_trailing_json_string (trim_start rest))
      else match (if is_object then trailing_json_string_start rout else None) with
           | Some start =>
               match trim_start start with
               | c' :: _ => if (c' =? c_colon)%N then inr rout else inl start
               | [] => inl start
               end
           | None => if (length rout =? before)%nat then inr rout else inl rout
           end
  | [] => if (length rout =? before)%nat then inr rout else inl rout
  end.

Fixpoint trim_loop (fuel : nat) (is_object : bool) (rout : Str) : Str :=
  match fuel with
  | O => rout
  | S fuel' =>
      match trim_turn is_object rout with
      | inl rout' => trim_loop fuel' is_object rout'
      | inr rout' => rout'
      end
  end.

(** A turn that continues shortens the text, so its length is enough fuel
    ([trim_turn_shrinks]). *)
Definition trim_dangling_json_tail (is_object : bool) (rout : Str) : Str :=
  trim_loop (S (length rout)) is_object rout.

(** Close every open container, innermost first. *)
Fixpoint close_all (closers : list N) (rout : Str) : Str :=
  match closers with
  | [] => rout
  | closer :: closers' =>
      close_all closers' (closer :: trim_dangling_json_tail (closer =? c_rbrace)%N rout)
  end.

Definition close_string (st : Scan) (rs : Str) : Str :=
  if sc_in_string st then c_dquote :: (if sc_escaped st then tail rs else rs) else rs.

(** The text handed to the parser when the prefix itself does not parse. *)
Definition completed_text (s : Str) : Str :=
  let st := structural_scan s in
  reverse (close_all (sc_closers st) (close_string st (reverse s))).

Definition complete_partial_json (from_str : Str → option Json) (input : Str) : option Json :=
  let s := trim input in
  if is_empty s then None
  else match from_str s with
       | Some value => Some value
       | None => from_str (completed_text s)
       end.

(** ** Lemmas *)

Lemma trim_start_length s : (length (trim_start s) ≤ length s)%nat.
Proof. induction s as [|c s IH]; simpl; [done|]. destruct (is_whitespace c); simpl; lia. Qed.

Lemma before_open_quote_length s r : before_open_quote s = Some r → (length r < length s)%nat.
Proof.
  induction s as [|c s IH]; simpl; [done|]. destruct (_ && _); [intros [= ->]; simpl; lia|].
  intros ?%IH. lia.
Qed.

Lemma trailing_length s r : trailing_json_string_start s = Some r → (length r < length s)%nat.
Proof.
  destruct s as [|c s]; simpl; [done|]. destruct (_ =? _)%N; [|done].
  intros ?%before_open_quote_length. lia.
Qed.

Lemma remove_trailing_length s : (length (remove_trailing_json_string s) ≤ length s)%nat.
Proof.
  unfold remove_trailing_json_string. destruct (trailing_json_string_start s) eqn:E; simpl; [|done].
  apply trailing_length in E. lia.
Qed.

Lemma trim_turn_shrinks is_object rout rout' :
  trim_turn is_object rout = inl rout' → (length rout' < length rout)%nat.
Proof.
  unfold trim_turn. pose proof (trim_start_length rout) as Ht.
  destruct (trim_start rout) as [|c rest] eqn:E.
  { destruct (Nat.eqb_spec (length (@nil N)) (length rout)); [done|]. intros [= <-]. simpl in *. lia. }
  simpl in Ht. destruct (c =? c_comma)%N; [intros [= <-]; lia|].
  destruct (is_object && (c =? c_colon)%N).
  { intros [= <-]. pose proof (remove_trailing_length (trim_start rest)).
    pose proof (trim_start_length rest). lia. }
  destruct (if is_object then _ else None) as [start|] eqn:Es.
  - destruct is_object; [|done]. apply trailing_length in Es. simpl in Es.
    destruct (trim_start start) as [|c' ?]; [intros [= <-]; lia|].
    destruct (c' =? c_colon)%N; [done|intros [= <-]; lia].
  - destruct (Nat.eqb_spec (length (c :: rest)) (length rout)); [done|]. intros [= <-]. simpl in *. lia.
Qed.

(** ** Nothing is made up: what is trimmed is a prefix of the text. *)

Lemma before_open_quote_suffix s r : before_open_quote s = Some r → r `suffix_of` s.
Proof.
  induction s as [|c s IH]; simpl; [done|].
  destruct (_ && _); [intros [= ->]; by apply suffix_cons_r|]. intros ?%IH. by apply suffix_cons_r.
Qed.

Lemma trim_start_suffix_of s : trim_start s `suffix_of` s.
Proof. destruct (trim_start_suffix s) as (w & Hw & _). by exists w. Qed.

Lemma trailing_suffix s r : trailing_json_string_start s = Some r → r `suffix_of` s.
Proof.
  destruct s as [|c s]; simpl; [done|]. destruct (_ =? _)%N; [|done].
  intros ?%before_open_quote_suffix. by apply suffix_cons_r.
Qed.

Lemma remove_trailing_suffix s : remove_trailing_json_string s `suffix_of` s.
Proof.
  unfold remove_trailing_json_string. destruct (trailing_json_string_start s) eqn:E; simpl; [|done].
  by apply trailing_suffix.
Qed.

Lemma trim_turn_suffix is_object rout :
  match trim_turn is_object rout with inl r => r | inr r => r end `suffix_of` rout.
Proof.
  unfold trim_turn. pose proof (trim_start_suffix_of rout) as Ht.
  destruct (trim_start rout) as [|c rest] eqn:E; [by destruct (_ =? _)%nat|].
  assert (rest `suffix_of` rout) as Hr by (eapply suffix_cons_l; exact Ht).
  destruct (c =? c_comma)%N; [done|]. destruct (is_object && (c =? c_colon)%N).
  { etransitivity; [apply remove_trailing_suffix|]. etransitivity; [apply trim_start_suffix_of|done]. }
  destruct (if is_object then _ else None) as [start|] eqn:Es.
  - destruct is_object; [|done]. apply trailing_suffix in Es.
    destruct (trim_start start) as [|c' ?]; [by etransitivity|].
    destruct (c' =? c_colon)%N; [done|by etransitivity].
  - by destruct (_ =? _)%nat.
Qed.

Lemma trim_loop_suffix fuel is_object rout : trim_loop fuel is_object rout `suffix_of` rout.
Proof.
  revert rout. induction fuel as [|f IH]; intros rout; simpl; [done|].
  pose proof (trim_turn_suffix is_object rout). destruct (trim_turn is_object rout); [|done].
  etransitivity; [apply IH|done].
Qed.

(** A text that ends with a closer has no dangling tail. *)
Lemma trim_after_closer is_object c rout :
  c = c_rbrace ∨ c = c_rbracket → trim_dangling_json_tail is_object (c :: rout) = c :: rout.
Proof.
  intros Hc. unfold trim_dangling_json_tail. cbn [length trim_loop].
  assert (trim_turn is_object (c :: rout) = inr (c :: rout)) as ->; [|done].
  unfold trim_turn. rw trim_start_nonblank; [|by destruct Hc; subst].
  destruct Hc; subst; rw (andb_false_r is_object); destruct is_object; simpl; by rw Nat.eqb_refl.
Qed.

Lemma close_all_closed closers c rout :
  Forall (λ c, c = c_rbrace ∨ c = c_rbracket) (c :: closers) →
  close_all closers (c :: rout) = reverse closers ++ c :: rout.
Proof.
  revert c rout. induction closers as [|d closers IH]; intros c rout Hall; simpl; [done|].
  apply Forall_cons in Hall as [Hc Hall]. rw trim_after_closer // IH // reverse_cons -app_assoc //.
Qed.

Lemma scan_closers_shape s :
  Forall (λ c, c = c_rbrace ∨ c = c_rbracket) (sc_closers (structural_scan s)).
Proof.
  unfold structural_scan. assert (Forall (λ c, c = c_rbrace ∨ c = c_rbracket) (sc_closers (mkScan [] false false))) as H0 by constructor.
  revert H0. generalize (mkScan [] false false). induction s as [|c s IH]; intros st H0; [done|].
  cbn [fold_left]. apply IH. destruct st as [closers in_s esc]. simpl in *.
  repeat case_match; simpl; try done; try (constructor; auto; fail). by destruct H0.
Qed.

(** ** Claims *)

(** The completion of a prefix invents nothing: the text given to the
    parser is an initial part of the prefix (of the prefix with its open
    string closed, less a dangling backslash), followed by exactly the
    closers the scan found open, innermost first; and the loop that trims the
    dangling tail reaches a state where it breaks. *)
Theorem completion_only_closes s :
  let st := structural_scan s in
  (∃ kept, kept `prefix_of` reverse (close_string st (reverse s)) ∧
     completed_text s = kept ++ sc_closers st) ∧
  (∀ is_object rout, ∃ rout', trim_turn is_object rout' = inr (trim_dangling_json_tail is_object rout)).
Proof.
  intros st. split.
  - unfold completed_text. fold st. pose proof (scan_closers_shape s) as Hshape. fold st in Hshape.
    destruct (sc_closers st) as [|c closers].
    { eexists. split; [reflexivity|]. simpl. by rw app_nil_r. }
    cbn [close_all]. set (rout := close_string st (reverse s)).
    rw close_all_closed // reverse_app reverse_involutive reverse_cons -app_assoc.
    eexists. split; [|reflexivity].
    destruct (trim_loop_suffix (S (length rout)) (c =? c_rbrace)%N rout) as [w Hw].
    exists (reverse w). rw -reverse_app. unfold trim_dangling_json_tail. by rw -Hw.
  - intros is_object rout. unfold trim_dangling_json_tail.
    assert (length rout < S (length rout))%nat as Hf by lia. revert Hf.
    generalize (S (length rout)) as fuel. intros fuel. revert rout.
    induction fuel as [|f IH]; intros rout Hf; [lia|]. cbn [trim_loop].
    destruct (trim_turn is_object rout) as [r|r] eqn:E; [|by exists rout].
    apply trim_turn_shrinks in E. apply IH. lia.
Qed.
