(* ===== verification/AgentEnv.v ===== *)
(** * The agent and its environment

    The agent loop of [src/agent.rs] talks to providers, tools, hooks,
    extensions, the user and the abort signal.  Each such interaction is one
    operation [Op] with a response; [Env] says how an arbitrary world answers.
    The agent's own code is a state monad [M] over the agent's fields, with a
    log of every operation performed and its response, so that theorems can
    speak about what happened and in which order.  Code that runs
    concurrently (one tool call of a batch) is a [Prog], a tree of operations
    that a scheduler can interleave. *)

From S2P Require Import Prelude Text Json ToolPolicy Messages MessageQueue ToolResults.

(** ** Data of the boundary *)

Inductive ToolApprovalDecision := ApprovalAllow | ApprovalDeny (reason : Str).
Inductive HookDecision := HookAllow | HookBlock (reason : Str).
Record ToolCallEventResult := mkToolCallEvent { ce_block : bool; ce_reason : option Str }.
Record ToolResultEventResult := mkToolResultEvent {
  re_content : option (list ContentBlock);
  re_details : option Json;
}.

(** What one turn of the streaming loop observes: the task was cancelled at
    its checkpoint, the abort signal won the race, or the stream yielded an
    item.  The end of the list is the end of the stream. *)
Inductive StreamPoll :=
| PollCancelled
| PollAborted
| PollItem (item : result StreamEvent Error).

(** [AgentConfig] and the fields of [Agent] that do not change during a run;
    optional collaborators are flags here and operations below.  [tools] is
    the registry: names and declared effects. *)
Record AgentConfig := mkConfig {
  c_max_tool_iterations : Z;
  c_session_id : option Str;
  c_block_images : bool;
  c_fail_closed_hooks : bool;
  c_tool_approval : bool;
  c_tool_policy : bool;
  c_provider_api : Str;
  c_provider_name : Str;
  c_model_id : Str;
  c_tools : list (Str * ToolEffects);
  c_extensions : bool;
  c_shell_hooks : bool;
  c_steering_fetchers : nat;
  c_follow_up_fetchers : nat;
  c_context_window_tokens : Z;
  c_parallelism : nat;
  c_abort : bool;
  c_is_subagent : bool;
  c_interactive : bool;
}.

(** ** Operations

    An operation that serves a tool call carries the call. *)

Inductive Op :=
| OpEmit (e : AgentEvent)
| OpLifecycle (e : AgentEvent)
| OpOpenRewind (m : Message)
| OpBeginSession (source : Str)
| OpSubagentStop
| OpInterrupt
| OpNotify
| OpIsAborted
| OpFetchSteering (fetcher : nat)
| OpFetchFollowUp (fetcher : nat)
| OpContext (messages : list Message)
| OpStream (messages : list Message)
| OpReadPolicy (c : ToolCall)
| OpApprove (c : ToolCall)
| OpPreToolUse (c : ToolCall)
| OpPostToolUse (c : ToolCall) (content : list ContentBlock) (is_error : bool)
| OpDispatchToolCall (c : ToolCall)
| OpDispatchToolResult (c : ToolCall) (output : ToolOutput) (is_error : bool)
| OpExecuteTool (c : ToolCall)
| OpSchedule (calls : nat).

(** A tool reports updates and then a result.  A schedule is a list of
    choices among the calls in flight, and whether the abort signal fires
    after them. *)
Definition Resp (op : Op) : Type :=
  match op with
  | OpEmit _ | OpLifecycle _ | OpOpenRewind _ | OpBeginSession _ | OpSubagentStop
  | OpInterrupt | OpNotify => unit
  | OpIsAborted => bool
  | OpFetchSteering _ | OpFetchFollowUp _ => list Message
  | OpContext _ => option (list Message)
  | OpStream _ => result (list StreamPoll) Error
  | OpReadPolicy _ => ToolPolicy
  | OpApprove _ => ToolApprovalDecision
  | OpPreToolUse _ | OpPostToolUse _ _ _ => HookDecision
  | OpDispatchToolCall _ => result (option ToolCallEventResult) Error
  | OpDispatchToolResult _ _ _ => result (option ToolResultEventResult) Error
  | OpExecuteTool _ => list ToolUpdate * result ToolOutput Error
  | OpSchedule _ => list nat * bool
  end.

Class Env (W : Type) := handle : ∀ op : Op, W → Resp op * W.

(** One performed operation with its response. *)
Record Obs := mkObs { ob_op : Op; ob_resp : Resp ob_op }.

(** ** The agent's mutable state

    [recent_tool_calls], [messages] and [message_queue] are fields of
    [Agent]; [new_messages] is the local of [run_loop_inner]. *)
Record St (W : Type) := mkSt {
  s_messages : list Message;
  s_new : list Message;
  s_queue : MessageQueue;
  s_recent : list RecentToolCall;
  s_log : list Obs;
  s_world : W;
}.
Arguments mkSt {_} _ _ _ _ _ _.
Arguments s_messages {_} _.
Arguments s_new {_} _.
Arguments s_queue {_} _.
Arguments s_recent {_} _.
Arguments s_log {_} _.
Arguments s_world {_} _.

Definition M (W A : Type) : Type := St W → A * St W.

#[global] Instance M_ret W : MRet (M W) := λ A a s, (a, s).
#[global] Instance M_bind W : MBind (M W) := λ A B k m s, let '(a, s') := m s in k a s'.
#[global] Instance M_fmap W : FMap (M W) := λ A B f m s, let '(a, s') := m s in (f a, s').

Section Primitives.
Context {W : Type} `{Env W}.

Definition perform (op : Op) : M W (Resp op) := λ s,
  let '(r, w) := handle op (s_world s) in
  (r, mkSt (s_messages s) (s_new s) (s_queue s) (s_recent s) (s_log s ++ [mkObs op r]) w).

Definition emit (e : AgentEvent) : M W unit := perform (OpEmit e).

Definition gets {A} (f : St W → A) : M W A := λ s, (f s, s).
Definition set_messages (f : list Message → list Message) : M W unit := λ s,
  (tt, mkSt (f (s_messages s)) (s_new s) (s_queue s) (s_recent s) (s_log s) (s_world s)).
Definition set_new (f : list Message → list Message) : M W unit := λ s,
  (tt, mkSt (s_messages s) (f (s_new s)) (s_queue s) (s_recent s) (s_log s) (s_world s)).
Definition set_queue (f : MessageQueue → MessageQueue) : M W unit := λ s,
  (tt, mkSt (s_messages s) (s_new s) (f (s_queue s)) (s_recent s) (s_log s) (s_world s)).
Definition set_recent (f : list RecentToolCall → list RecentToolCall) : M W unit := λ s,
  (tt, mkSt (s_messages s) (s_new s) (s_queue s) (f (s_recent s)) (s_log s) (s_world s)).

Definition push_message (m : Message) : M W unit := set_messages (λ l, l ++ [m]).
Definition push_new (m : Message) : M W unit := set_new (λ l, l ++ [m]).

(** A [for] loop. *)
Fixpoint for_each {A} (l : list A) (body : A → M W unit) : M W unit :=
  match l with [] => mret tt | x :: l' => body x ;; for_each l' body end.
End Primitives.

(** ** Concurrent code *)

Inductive Prog (A : Type) :=
| PRet (a : A)
| PVis (op : Op) (k : Resp op → Prog A).
Arguments PRet {_} _.
Arguments PVis {_} _ _.

Fixpoint prog_bind {A B} (k : A → Prog B) (p : Prog A) : Prog B :=
  match p with
  | PRet a => k a
  | PVis op f => PVis op (λ r, prog_bind k (f r))
  end.
#[global] Instance Prog_ret : MRet Prog := λ A, PRet.
#[global] Instance Prog_bind : MBind Prog := λ A B, prog_bind.

Definition trigger (op : Op) : Prog (Resp op) := PVis op PRet.

Section Run.
Context {W : Type} `{Env W}.

Fixpoint run_prog {A} (p : Prog A) : M W A :=
  match p with
  | PRet a => mret a
  | PVis op k => r ← perform op; run_prog (k r)
  end.

(** ** [buffer_unordered]

    The calls in flight are the first [parallelism] unfinished ones: the
    adaptor starts them in order and replaces one that finishes by the next.
    A choice polls one of them: it performs its next operation, or is found
    finished and its result is collected. *)
Definition Task (A : Type) : Type := nat * Prog A.

Definition poll_task {A} (i : nat) (pool : list (Task A)) (finished : list (nat * A))
    : M W (list (Task A) * list (nat * A)) :=
  match pool !! i with
  | None => mret (pool, finished)
  | Some (idx, PRet a) => mret (delete i pool, finished ++ [(idx, a)])
  | Some (idx, PVis op k) => r ← perform op; mret (<[i := (idx, k r)]> pool, finished)
  end.

Fixpoint run_pool {A} (parallelism : nat) (schedule : list nat) (pool : list (Task A))
    (finished : list (nat * A)) : M W (list (Task A) * list (nat * A)) :=
  match schedule with
  | [] => mret (pool, finished)
  | choice :: schedule' =>
      st ← poll_task (choice mod Nat.min parallelism (length pool)) pool finished;
      run_pool parallelism schedule' st.1 st.2
  end.

(** The calls left when the schedule ends run to completion in order. *)
Fixpoint drain_pool {A} (pool : list (Task A)) : M W (list (nat * A)) :=
  match pool with
  | [] => mret []
  | (idx, p) :: pool' => a ← run_prog p; rest ← drain_pool pool'; mret ((idx, a) :: rest)
  end.
End Run.

(** ** Observations *)

Definition obs_event (o : Obs) : option AgentEvent :=
  match ob_op o with OpEmit e => Some e | _ => None end.
Definition events (l : list Obs) : list AgentEvent := omap obs_event l.

Lemma events_app l k : events (l ++ k) = events l ++ events k.
Proof. apply omap_app. Qed.

(** ** Reasoning about [M]: triples *)

Definition triple {W A} (P : St W → Prop) (m : M W A) (Q : A → St W → Prop) : Prop :=
  ∀ s, P s → Q (m s).1 (m s).2.

Section Triples.
Context {W : Type} `{Env W}.
Implicit Types P : St W → Prop.

Lemma triple_ret {A} (a : A) P (Q : A → St W → Prop) :
  (∀ s, P s → Q a s) → triple P (mret a) Q.
Proof. intros HQ s Hs. by apply HQ. Qed.

Lemma triple_bind {A B} (m : M W A) (k : A → M W B) P Q R :
  triple P m Q → (∀ a, triple (Q a) (k a) R) → triple P (m ≫= k) R.
Proof.
  intros Hm Hk s Hs. specialize (Hm s Hs). unfold mbind, M_bind.
  destruct (m s) as [a s'] eqn:E. by apply Hk.
Qed.

Lemma triple_conseq {A} (m : M W A) P P' Q Q' :
  triple P' m Q' → (∀ s, P s → P' s) → (∀ a s, Q' a s → Q a s) → triple P m Q.
Proof. intros Hm HP HQ s Hs. apply HQ, Hm, HP, Hs. Qed.

Lemma triple_pre {A} (m : M W A) P P' Q : triple P' m Q → (∀ s, P s → P' s) → triple P m Q.
Proof. intros Hm HP. eapply triple_conseq; eauto. Qed.

Lemma triple_post {A} (m : M W A) P Q Q' : triple P m Q' → (∀ a s, Q' a s → Q a s) → triple P m Q.
Proof. intros Hm HP. eapply triple_conseq; eauto. Qed.

Lemma triple_pure {A} (m : M W A) P (φ : Prop) Q : (φ → triple P m Q) → triple (λ s, P s ∧ φ) m Q.
Proof. intros Hm s [Hs Hφ]. by apply Hm. Qed.

Lemma triple_perform op P (Q : Resp op → St W → Prop) :
  (∀ s r w, handle op (s_world s) = (r, w) → P s →
     Q r (mkSt (s_messages s) (s_new s) (s_queue s) (s_recent s) (s_log s ++ [mkObs op r]) w)) →
  triple P (perform op) Q.
Proof.
  intros HQ s Hs. unfold perform. destruct (handle op (s_world s)) as [r w] eqn:E. by apply HQ.
Qed.

Lemma triple_fun {A} (f : St W → St W) (a : A) P Q :
  (∀ s, P s → Q a (f s)) → triple P (λ s, (a, f s)) Q.
Proof. intros HQ s Hs. by apply HQ. Qed.

Lemma triple_gets {A} (f : St W → A) P (Q : A → St W → Prop) :
  (∀ s, P s → Q (f s) s) → triple P (gets f) Q.
Proof. intros HQ s Hs. by apply HQ. Qed.

Lemma triple_for_each {A} (l : list A) (body : A → M W unit) (I : list A → St W → Prop) :
  (∀ done x rest, l = done ++ x :: rest → triple (I done) (body x) (λ _, I (done ++ [x]))) →
  triple (I []) (for_each l body) (λ _, I l).
Proof.
  intros Hb. assert (∀ done rest, l = done ++ rest →
    triple (I done) (for_each rest body) (λ _, I l)) as Hg; [|by apply (Hg [])].
  intros done rest. revert done. induction rest as [|x rest IH]; intros done Heq; simpl.
  - apply triple_ret. intros s Hs. by rw Heq app_nil_r.
  - eapply triple_bind; [by eapply Hb|]. intros []. apply IH. by rw Heq -app_assoc.
Qed.
End Triples.

(** ** Straight-line code

    [m_run] computes a sequence of assignments and emitted events: the state
    after an event is [after_emit], whose fields [m_fields] reads. *)
Section StraightLine.
Context {W : Type} `{Env W}.

Lemma bind_eq {A B} (m : M W A) (k : A → M W B) s a s' : m s = (a, s') → (m ≫= k) s = k a s'.
Proof. intros Hm. unfold mbind, M_bind. by rw Hm. Qed.

Definition after_emit (e : AgentEvent) (s : St W) : St W := (emit e s).2.

Lemma emit_eq e s : emit e s = (tt, after_emit e s).
Proof. unfold after_emit. by destruct (emit e s) as [[] s']. Qed.

Lemma after_messages e s : s_messages (after_emit e s) = s_messages s.
Proof. unfold after_emit, emit, perform. by destruct (handle _ _). Qed.
Lemma after_new e s : s_new (after_emit e s) = s_new s.
Proof. unfold after_emit, emit, perform. by destruct (handle _ _). Qed.
Lemma after_queue e s : s_queue (after_emit e s) = s_queue s.
Proof. unfold after_emit, emit, perform. by destruct (handle _ _). Qed.
Lemma after_recent e s : s_recent (after_emit e s) = s_recent s.
Proof. unfold after_emit, emit, perform. by destruct (handle _ _). Qed.
Lemma after_events e s : events (s_log (after_emit e s)) = events (s_log s) ++ [e].
Proof. unfold after_emit, emit, perform. destruct (handle _ _). simpl. by rw events_app. Qed.
End StraightLine.

Create Rewrite HintDb m_fields.
#[export] Hint Rewrite @after_messages @after_new @after_queue @after_recent @after_events : m_fields.

Ltac m_run :=
  unfold mbind, M_bind, fmap, M_fmap, mret, M_ret, push_message, push_new, set_messages, set_new,
    set_queue, set_recent, gets in *;
  repeat (rw emit_eq; cbv beta iota zeta).
Ltac m_fields :=
  cbn [s_messages s_new s_queue s_recent s_log s_world fst snd] in *;
  repeat (progress autorewrite with m_fields;
          cbn [s_messages s_new s_queue s_recent s_log s_world fst snd]).

(** ** Invariants: what every step keeps

    [I] is about the queue, the log and the world, so the assignments to the
    other fields keep it; operations and queue updates are checked one by
    one. *)
Section Keeps.
Context {W : Type} `{Env W} (I : MessageQueue → list Obs → W → Prop).

Definition holds (s : St W) : Prop := I (s_queue s) (s_log s) (s_world s).

Definition keeps {A} (m : M W A) : Prop := triple holds m (λ _, holds).

Definition op_keeps (op : Op) : Prop :=
  ∀ q l w r w', handle op w = (r, w') → I q l w → I q (l ++ [mkObs op r]) w'.

Lemma keeps_ret {A} (a : A) : keeps (mret a).
Proof. by apply triple_ret. Qed.
Lemma keeps_bind {A B} (m : M W A) (k : A → M W B) :
  keeps m → (∀ a, keeps (k a)) → keeps (m ≫= k).
Proof. intros Hm Hk. eapply triple_bind; [exact Hm|]. intros a. apply Hk. Qed.
Lemma keeps_fmap {A B} (f : A → B) (m : M W A) : keeps m → keeps (f <$> m).
Proof.
  intros Hm s Hs. specialize (Hm s Hs). unfold fmap, M_fmap. by destruct (m s).
Qed.
Lemma keeps_perform op : op_keeps op → keeps (perform op).
Proof. intros Hop. apply triple_perform. intros s r w Hh Hs. by eapply Hop. Qed.
Lemma keeps_set_messages f : keeps (set_messages f).
Proof. by intros s. Qed.
Lemma keeps_set_new f : keeps (set_new f).
Proof. by intros s. Qed.
Lemma keeps_set_queue f : (∀ q l w, I q l w → I (f q) l w) → keeps (set_queue f).
Proof. intros Hf s Hs. by apply Hf. Qed.
Lemma keeps_set_recent f : keeps (set_recent f).
Proof. by intros s. Qed.
Lemma keeps_gets {A} (f : St W → A) : keeps (gets f).
Proof. by apply triple_gets. Qed.
Lemma keeps_for_each {A} (l : list A) body : (∀ x, keeps (body x)) → keeps (for_each l body).
Proof.
  intros Hb. induction l as [|x l IH]; simpl; [apply keeps_ret|]. by apply keeps_bind.
Qed.

(** An invariant that every operation of the batch runner keeps. *)
Hypothesis all_ops : ∀ op, op_keeps op.

Lemma keeps_run_prog {A} (p : Prog A) : keeps (run_prog p).
Proof.
  induction p as [a|op k IH]; simpl; [apply keeps_ret|]. apply keeps_bind; [by apply keeps_perform|done].
Qed.
Lemma keeps_run_pool {A} n schedule (pool : list (Task A)) finished :
  keeps (run_pool n schedule pool finished).
Proof.
  revert pool finished. induction schedule as [|c l IH]; intros pool finished; simpl; [apply keeps_ret|].
  apply keeps_bind; [|intros st; apply IH]. unfold poll_task.
  destruct (pool !! _) as [[idx [a|op k]]|]; [apply keeps_ret| |apply keeps_ret].
  apply keeps_bind; [by apply keeps_perform|]. intros. apply keeps_ret.
Qed.
Lemma keeps_drain_pool {A} (pool : list (Task A)) : keeps (drain_pool pool).
Proof.
  induction pool as [|[idx p] pool IH]; simpl; [apply keeps_ret|].
  apply keeps_bind; [apply keeps_run_prog|]. intros a. apply keeps_bind; [apply IH|]. intros. apply keeps_ret.
Qed.
End Keeps.

(** Walks through a computation; what is left are operations, queue updates
    and calls of other parts. *)
Ltac keeps_step :=
  match goal with
  | |- keeps _ (mret _) => apply keeps_ret
  | |- keeps _ (_ ≫= _) => apply keeps_bind; [|intros ?]
  | |- keeps _ (_ <$> _) => apply keeps_fmap
  | |- keeps _ (gets _) => apply keeps_gets
  | |- keeps _ (for_each _ _) => apply keeps_for_each; intros ?
  | |- keeps _ (perform ?op) => apply (keeps_perform _ op)
  | |- keeps _ (emit ?e) => apply (keeps_perform _ (OpEmit e))
  | |- keeps _ (set_messages _) => apply keeps_set_messages
  | |- keeps _ (set_new _) => apply keeps_set_new
  | |- keeps _ (set_queue _) => apply keeps_set_queue
  | |- keeps _ (set_recent _) => apply keeps_set_recent
  | |- keeps _ (push_message _) => apply keeps_set_messages
  | |- keeps _ (push_new _) => apply keeps_set_new
  | |- keeps _ (match ?x with _ => _ end) => destruct x
  end.
Ltac keeps_walk := repeat keeps_step.
