(* ===== verification/AgentTools.v ===== *)
(** * Running tool calls ([src/agent.rs])

    One tool call: doom-loop guard, permission policy, approval, hooks, the
    tool itself ([execute_tool], a [Prog] so that calls of a batch can be
    interleaved).  The calls of one answer: planned into batches, run,
    recorded and answered ([execute_tool_calls], which mutates the agent). *)

From S2P Require Import Prelude Text Json ToolPolicy Messages MessageQueue ToolResults ToolBatches AgentEnv.

Definition TOOL_CANCELLATION_SCHEMA_V1 : Str := str "pi.tool.cancellation.v1".
Definition TOOL_APPROVAL_DENIED_SCHEMA_V1 : Str := str "pi.tool.approval_denied.v1".
Definition TOOL_APPROVAL_STATUS_SCHEMA_V1 : Str := str "pi.tool.approval_status.v1".

Definition error_output (text : Str) (details : option Json) : ToolOutput :=
  mkOutput [text_block text] details true.

Definition tool_not_found_output (tool_name : Str) : ToolOutput :=
  error_output (str "Error: Tool '" ++ tool_name ++ str "' not found") None.

Definition tool_cancellation_details (tool_name reason : Str) : Json :=
  JsonObject [
    (str "schema", JsonString TOOL_CANCELLATION_SCHEMA_V1);
    (str "status", JsonString (str "cancelled"));
    (str "reason", JsonString reason);
    (str "toolName", JsonString tool_name);
    (str "cleanup", JsonString (str "tool_result_recorded_no_success"))].

Definition nonblank (reason : option Str) : option Str :=
  match trim <$> reason with
  | Some r => if is_empty r then None else Some r
  | None => None
  end.

Definition tool_call_blocked_output (reason : option Str) : ToolOutput :=
  error_output (match nonblank reason with
                | None => str "Tool execution was blocked by an extension"
                | Some r => str "Tool execution blocked: " ++ r
                end) None.

Definition tool_approval_denied_output (reason : Str) : ToolOutput :=
  let reason := trim reason in
  let reason := if is_empty reason then str "tool approval denied" else reason in
  error_output (str "Tool execution denied: " ++ reason)
    (Some (JsonObject [
      (str "schema", JsonString TOOL_APPROVAL_DENIED_SCHEMA_V1);
      (str "status", JsonString (str "denied"));
      (str "reason", JsonString reason)])).

(** [ToolRegistry::get] *)
Definition tools_get (cfg : AgentConfig) (name : Str) : option ToolEffects :=
  (λ r, r.2.2) <$> list_find (λ t : Str * ToolEffects, t.1 = name) (c_tools cfg).

Definition policy_effects (cfg : AgentConfig) (tool_name : Str) : ToolEffects :=
  default effects_write (tools_get cfg tool_name).

(** ** One call *)

Section ExecuteTool.
Context `{Fingerprints} (cfg : AgentConfig).

Definition update_event (c : ToolCall) (partial_result : ToolOutput) : AgentEvent :=
  ToolExecutionUpdate (tc_id c) (tc_name c) (tc_arguments c) partial_result.

Definition emit_tool_approved (c : ToolCall) : Prog unit :=
  trigger (OpEmit (update_event c (mkOutput []
    (Some (JsonObject [(str "schema", JsonString TOOL_APPROVAL_STATUS_SCHEMA_V1);
                       (str "status", JsonString (str "approved"))])) false))).

(** The part of [request_tool_approval] after the policy. *)
Definition ask_approval (c : ToolCall) : Prog (option ToolOutput) :=
  if negb (c_tool_approval cfg) then mret None
  else
    decision ← trigger (OpApprove c);
    match decision with
    | ApprovalAllow => emit_tool_approved c;; mret None
    | ApprovalDeny reason => mret (Some (tool_approval_denied_output reason))
    end.

Definition request_tool_approval (ring : list RecentToolCall) (c : ToolCall) : Prog (option ToolOutput) :=
  match doom_loop_denial ring c with
  | Some reason => mret (Some (tool_approval_denied_output reason))
  | None =>
      if c_tool_policy cfg then
        policy ← trigger (OpReadPolicy c);
        match decide_call policy (tc_name c) (policy_effects cfg (tc_name c)) (tc_arguments c) with
        | Allow => emit_tool_approved c;; mret None
        | Deny reason => mret (Some (tool_approval_denied_output reason))
        | Ask =>
            if negb (c_tool_approval cfg)
            then mret (Some (tool_approval_denied_output
              (str "this tool call needs approval and no approval handler is installed")))
            else ask_approval c
        end
      else ask_approval c
  end.

Definition run_pre_tool_use_hook (c : ToolCall) : Prog (option ToolOutput) :=
  if negb (c_shell_hooks cfg) then mret None
  else
    decision ← trigger (OpPreToolUse c);
    match decision with
    | HookAllow => mret None
    | HookBlock reason =>
        mret (Some (error_output reason (Some (JsonObject [
          (str "status", JsonString (str "blocked"));
          (str "source", JsonString (str "PreToolUse hook"));
          (str "reason", JsonString reason)]))))
    end.

Definition run_post_tool_use_hook (c : ToolCall) (output : ToolOutput) (is_error : bool)
    : Prog (ToolOutput * bool) :=
  if negb (c_shell_hooks cfg) then mret (output, is_error)
  else
    decision ← trigger (OpPostToolUse c (o_content output) is_error);
    match decision with
    | HookBlock reason =>
        mret (mkOutput (o_content output ++ [text_block reason]) (o_details output) (o_is_error output), true)
    | HookAllow => mret (output, is_error)
    end.

Definition dispatch_tool_call_hook (c : ToolCall) : Prog (option ToolOutput) :=
  response ← trigger (OpDispatchToolCall c);
  match response with
  | Ok (Some r) => mret (if ce_block r then Some (tool_call_blocked_output (ce_reason r)) else None)
  | Ok None => mret None
  | Err _ =>
      mret (if c_fail_closed_hooks cfg
            then Some (tool_call_blocked_output (Some (str "extension hook failed"))) else None)
  end.

Definition apply_tool_result_hook (c : ToolCall) (output : ToolOutput) (is_error : bool) : Prog ToolOutput :=
  response ← trigger (OpDispatchToolResult c output is_error);
  match response with
  | Ok (Some r) =>
      mret (mkOutput (default (o_content output) (re_content r))
              (match re_details r with Some d => Some d | None => o_details output end)
              (o_is_error output))
  | Ok None => mret output
  | Err _ => mret output
  end.

(** [update_callback], once per update of the tool. *)
Fixpoint emit_updates (c : ToolCall) (updates : list ToolUpdate) : Prog unit :=
  match updates with
  | [] => mret tt
  | u :: rest =>
      trigger (OpEmit (update_event c (mkOutput (up_content u) (up_details u) false)));;
      emit_updates c rest
  end.

Definition execute_tool_without_hooks (c : ToolCall) : Prog (ToolOutput * bool) :=
  match tools_get cfg (tc_name c) with
  | None => mret (tool_not_found_output (tc_name c), true)
  | Some _ =>
      r ← trigger (OpExecuteTool c);
      emit_updates c r.1;;
      match r.2 with
      | Ok output => mret (output, o_is_error output)
      | Err e => mret (error_output (str "Error: " ++ Error_to_string e) None, true)
      end
  end.

(** Output, error flag, and whether the tool ran. *)
Definition guarded_run (ring : list RecentToolCall) (c : ToolCall) : Prog (ToolOutput * bool * bool) :=
  approval_denied_output ← request_tool_approval ring c;
  match approval_denied_output with
  | Some output => mret (output, true, false)
  | None =>
      hook_blocked_output ← run_pre_tool_use_hook c;
      match hook_blocked_output with
      | Some output => mret (output, true, false)
      | None =>
          hook_outcome ← (if c_extensions cfg then dispatch_tool_call_hook c else mret None);
          match hook_outcome with
          | Some blocked_output => mret (blocked_output, true, false)
          | None => outcome ← execute_tool_without_hooks c; mret (outcome, true)
          end
      end
  end.

Definition execute_tool (ring : list RecentToolCall) (c : ToolCall) : Prog (ToolOutput * bool) :=
  outcome ← guarded_run ring c;
  let '(output, is_error, tool_ran) := outcome in
  output' ← (if c_extensions cfg then apply_tool_result_hook c output is_error else mret output);
  if tool_ran : bool then run_post_tool_use_hook c output' is_error else mret (output', is_error).
End ExecuteTool.

(** ** The calls of one answer *)

Section ExecuteCalls.
Context {W : Type} `{Env W} `{Fingerprints} (cfg : AgentConfig).

(** Polls every registered fetcher, queues what it returned, and pops. *)
Definition drain_steering_messages : M W (list Message) :=
  for_each (seq 0 (c_steering_fetchers cfg)) (λ fetcher,
    fetched ← perform (OpFetchSteering fetcher);
    for_each fetched (λ message, set_queue (λ q, (push_steering q message).1)));;
  q ← gets s_queue;
  set_queue (λ _, (pop_steering q).1);;
  mret (pop_steering q).2.

Definition drain_follow_up_messages : M W (list Message) :=
  for_each (seq 0 (c_follow_up_fetchers cfg)) (λ fetcher,
    fetched ← perform (OpFetchFollowUp fetcher);
    for_each fetched (λ message, set_queue (λ q, (push_follow_up q message).1)));;
  q ← gets s_queue;
  set_queue (λ _, (pop_follow_up q).1);;
  mret (pop_follow_up q).2.

(** [abort.as_ref().is_some_and(AbortSignal::is_aborted)] *)
Definition is_aborted : M W bool :=
  if c_abort cfg then perform OpIsAborted else mret false.

(** [execute_tool_batch]: [None] of the source's [select] (the signal fired
    before all calls finished) yields no results. *)
Definition execute_tool_batch (batch : list (nat * ToolCall)) : M W (list (nat * (ToolOutput * bool))) :=
  ring ← gets s_recent;
  schedule ← perform (OpSchedule (length batch));
  st ← run_pool (c_parallelism cfg) schedule.1
         ((λ t, (t.1, execute_tool cfg ring t.2)) <$> batch) [];
  if c_abort cfg && schedule.2 && negb (bool_decide (length st.1 = 0%nat)) then mret []
  else rest ← drain_pool st.1; mret (st.2 ++ rest).

(** Push a result to the transcript and announce it. *)
Definition announce_result (r : ToolResultMessage) : M W unit :=
  push_message (ToolResult r);;
  emit (MessageStart (ToolResult r));;
  push_new (ToolResult r);;
  emit (MessageEnd (ToolResult r)).

Definition details_denied (details : option Json) : bool :=
  match details with
  | Some d => bool_decide ((value_get d (str "schema") ≫= value_as_str) = Some TOOL_APPROVAL_DENIED_SCHEMA_V1)
  | None => false
  end.

Definition record_tool_result (c : ToolCall) (output : ToolOutput) (is_error : bool) : M W ToolResultMessage :=
  emit (update_event c (mkOutput (o_content output) (o_details output) is_error));;
  let denied := details_denied (o_details output) in
  let r := budgeted_tool_result (c_context_window_tokens cfg) c (o_content output) (o_details output) is_error in
  set_recent (λ ring, push_recent ring
    (mkRecent (tool_call_fingerprint c) (tool_result_fingerprint r) is_error denied));;
  emit (ToolExecutionEnd (tr_tool_call_id r) (tr_tool_name r)
          (mkOutput (tr_content r) (tr_details r) is_error) is_error);;
  announce_result r;;
  mret r.

Definition skip_tool_call (c : ToolCall) : M W ToolResultMessage :=
  let output := error_output (str "Skipped due to queued user message.") None in
  emit (update_event c output);;
  emit (ToolExecutionEnd (tc_id c) (tc_name c) output true);;
  let r := budgeted_tool_result (c_context_window_tokens cfg) c (o_content output) (o_details output) true in
  push_message (ToolResult r);;
  push_new (ToolResult r);;
  emit (MessageStart (ToolResult r));;
  emit (MessageEnd (ToolResult r));;
  mret r.

(** The third branch of the last phase. *)
Definition abort_tool_call (c : ToolCall) : M W ToolResultMessage :=
  let output := error_output (str "Tool execution aborted")
    (Some (tool_cancellation_details (tc_name c) (str "abort_signal"))) in
  emit (update_event c output);;
  emit (ToolExecutionEnd (tc_id c) (tc_name c) output true);;
  let r := budgeted_tool_result (c_context_window_tokens cfg) c (o_content output) (o_details output) true in
  announce_result r;;
  mret r.

Definition result_idx_le (a b : nat * (ToolOutput * bool)) : Prop := (a.1 ≤ b.1)%nat.
#[global] Instance result_idx_le_dec : RelDecision result_idx_le.
Proof. intros a b. unfold result_idx_le. apply _. Defined.

Definition Recorded : Type := list (option ToolResultMessage).

Fixpoint record_batch (tool_calls : list ToolCall) (batch_results : list (nat * (ToolOutput * bool)))
    (recorded : Recorded) : M W Recorded :=
  match batch_results with
  | [] => mret recorded
  | (idx, (output, is_error)) :: rest =>
      recorded' ←
        match tool_calls !! idx, recorded !! idx with
        | Some c, Some _ => r ← record_tool_result c output is_error; mret (<[idx := Some r]> recorded)
        | _, _ => mret recorded
        end;
      record_batch tool_calls rest recorded'
  end.

(** [tool_calls.iter().cloned().enumerate().skip(start).take(end - start)] *)
Definition batch_calls (tool_calls : list ToolCall) (b : ToolEffectBatch) : list (nat * ToolCall) :=
  take (b_end b - b_start b) (drop (b_start b) (imap pair tool_calls)).

(** The loop over the batches; [break] ends it. *)
Fixpoint run_batches (tool_calls : list ToolCall) (batches : list ToolEffectBatch) (recorded : Recorded)
    : M W (Recorded * option (list Message)) :=
  match batches with
  | [] => mret (recorded, None)
  | b :: rest =>
      aborted ← is_aborted;
      if aborted : bool then mret (recorded, None)
      else
        steering ← drain_steering_messages;
        match steering with
        | _ :: _ => mret (recorded, Some steering)
        | [] =>
            batch_results ← execute_tool_batch (batch_calls tool_calls b);
            recorded' ← record_batch tool_calls (merge_sort result_idx_le batch_results) recorded;
            run_batches tool_calls rest recorded'
        end
  end.

(** The result of one call: the recorded one, or a skip, or an abort. *)
Definition answer_one (c : ToolCall) (recorded : option (option ToolResultMessage))
    (steering : option (list Message)) : M W ToolResultMessage :=
  match recorded with
  | Some (Some r) => mret r
  | _ => match steering with
         | Some _ => skip_tool_call c
         | None => abort_tool_call c
         end
  end.

(** The last phase: one result per call, in order. *)
Fixpoint answer_calls (tool_calls : list ToolCall) (recorded : Recorded) (steering : option (list Message))
    : M W (list ToolResultMessage * option (list Message)) :=
  match tool_calls with
  | [] => mret ([], steering)
  | c :: rest =>
      steering' ←
        match steering with
        | Some _ => mret steering
        | None =>
            aborted ← is_aborted;
            if aborted : bool then mret None
            else
              drained ← drain_steering_messages;
              mret (match drained with [] => None | _ :: _ => Some drained end)
        end;
      r ← answer_one c (head recorded) steering';
      out ← answer_calls rest (tail recorded) steering';
      mret (r :: out.1, out.2)
  end.

Definition execute_tool_calls (tool_calls : list ToolCall)
    : M W (list ToolResultMessage * option (list Message)) :=
  for_each tool_calls (λ c, emit (ToolExecutionStart (tc_id c) (tc_name c) (tc_arguments c)));;
  let effect_plan := (λ c, policy_effects cfg (tc_name c)) <$> tool_calls in
  st ← run_batches tool_calls (plan_tool_effect_batches effect_plan)
         (replicate (length tool_calls) None);
  answer_calls tool_calls st.1 st.2.
End ExecuteCalls.
