(* ===== verification/AgentSafety.v ===== *)
(** * Complete mediation of tool calls

    Every tool call that runs was cleared first, in this order: the doom-loop
    guard, the permission policy as read at that moment, the approval handler
    where the policy asks, the shell hook, the extension hook.  The argument
    is local to the program of one call ([prog_ok]) and stable under the
    operations of the calls it is interleaved with, because a clearance is a
    fact about the log that later entries cannot undo. *)

From S2P Require Import Prelude Text Json ToolPolicy Messages MessageQueue ToolResults ToolBatches AgentEnv AgentTools.

Section Mediation.
Context `{Fingerprints} (cfg : AgentConfig).

Definition decision_on (p : ToolPolicy) (c : ToolCall) : Decision :=
  decide_call p (tc_name c) (policy_effects cfg (tc_name c)) (tc_arguments c).

(** What the log must hold for a call to run. *)
Definition approved (l : list Obs) (c : ToolCall) : Prop :=
  mkObs (OpApprove c) ApprovalAllow ∈ l.

Definition policy_cleared (l : list Obs) (c : ToolCall) : Prop :=
  ∃ p, mkObs (OpReadPolicy c) p ∈ l ∧
    (decision_on p c = Allow ∨ (decision_on p c = Ask ∧ approved l c)).

Definition hooks_cleared (l : list Obs) (c : ToolCall) : Prop :=
  (c_shell_hooks cfg = true → mkObs (OpPreToolUse c) HookAllow ∈ l) ∧
  (c_extensions cfg = true →
     ∃ r, mkObs (OpDispatchToolCall c) r ∈ l ∧
       match r with
       | Ok (Some e) => ce_block e = false
       | Ok None => True
       | Err _ => c_fail_closed_hooks cfg = false
       end).

Definition cleared (l : list Obs) (c : ToolCall) : Prop :=
  (c_tool_policy cfg = true → policy_cleared l c) ∧
  (c_tool_policy cfg = false → c_tool_approval cfg = true → approved l c) ∧
  hooks_cleared l c ∧
  is_Some (tools_get cfg (tc_name c)).

(** The condition on the next operation of any part of the agent. *)
Definition may_perform (l : list Obs) (op : Op) : Prop :=
  match op with OpExecuteTool c => cleared l c | _ => True end.

(** A program performs only permitted operations, given what it saw. *)
Fixpoint prog_ok {A} (Q : list Obs → A → Prop) (l : list Obs) (p : Prog A) : Prop :=
  match p with
  | PRet a => Q l a
  | PVis op k => may_perform l op ∧ ∀ r, prog_ok Q (l ++ [mkObs op r]) (k r)
  end.

(** Every operation of a log was permitted by what precedes it. *)
Definition log_ok (l : list Obs) : Prop :=
  ∀ pre o post, l = pre ++ o :: post → may_perform pre (ob_op o).

(** ** Lemmas *)

Lemma log_sub (l k : list Obs) : l ⊆ l ++ k.
Proof. intros o Ho. apply elem_of_app. by left. Qed.

Lemma log_here (l : list Obs) o : o ∈ l ++ [o].
Proof. apply elem_of_app. right. by apply list_elem_of_singleton. Qed.

Lemma log_sub_trans (l k : list Obs) o m : l ++ [o] ⊆ m → l ⊆ m.
Proof. intros Hs x Hx. apply Hs, log_sub, Hx. Qed.

Lemma log_sub_snoc (l k : list Obs) o : l ⊆ k → l ++ [o] ⊆ k ++ [o].
Proof. intros Hs x [Hx|Hx]%elem_of_app; apply elem_of_app; [left; by apply Hs|by right]. Qed.

Hint Resolve log_sub log_here log_sub_trans log_sub_snoc : kesa.

Lemma approved_mono l k c : l ⊆ k → approved l c → approved k c.
Proof. intros Hs. apply Hs. Qed.

Lemma policy_cleared_mono l k c : l ⊆ k → policy_cleared l c → policy_cleared k c.
Proof.
  intros Hs (p & Hp & Hd). exists p. split; [by apply Hs|].
  destruct Hd as [?|[? ?]]; [by left|right]. split; [done|by eapply approved_mono].
Qed.

(** Clearance by policy and approval, as the first stage leaves it. *)
Definition stage_policy (l : list Obs) (c : ToolCall) : Prop :=
  (c_tool_policy cfg = true → policy_cleared l c) ∧
  (c_tool_policy cfg = false → c_tool_approval cfg = true → approved l c).

Lemma stage_policy_mono l k c : l ⊆ k → stage_policy l c → stage_policy k c.
Proof.
  intros Hs [Hp Ha]. split; [intros; eapply policy_cleared_mono; eauto|].
  intros; eapply approved_mono; eauto.
Qed.

Lemma hooks_cleared_mono l k c : l ⊆ k → hooks_cleared l c → hooks_cleared k c.
Proof.
  intros Hs [Hp He]. split; [intros; by apply Hs, Hp|].
  intros Hc. destruct (He Hc) as (r & Hr & Hm). exists r. split; [by apply Hs|done].
Qed.

Lemma cleared_mono l k c : l ⊆ k → cleared l c → cleared k c.
Proof.
  intros Hs (H1 & H2 & H3 & H4). destruct (stage_policy_mono l k c Hs (conj H1 H2)).
  split_and!; [done|done|by eapply hooks_cleared_mono|done].
Qed.

Lemma may_perform_mono l k op : l ⊆ k → may_perform l op → may_perform k op.
Proof. destruct op; simpl; try done. apply cleared_mono. Qed.

Lemma prog_ok_mono {A} (Q : list Obs → A → Prop) l k p :
  (∀ l k a, l ⊆ k → Q l a → Q k a) → l ⊆ k → prog_ok Q l p → prog_ok Q k p.
Proof.
  intros HQ. revert l k. induction p as [a|op f IH]; intros l k Hs; simpl; [by apply HQ|].
  intros [Hm Hf]. split; [by eapply may_perform_mono|]. intros r. eapply IH; [|apply Hf].
  auto with kesa.
Qed.

Lemma prog_ok_bind {A B} (Q : list Obs → A → Prop) (R : list Obs → B → Prop) l (p : Prog A) (k : A → Prog B) :
  prog_ok Q l p → (∀ l' a, l ⊆ l' → Q l' a → prog_ok R l' (k a)) → prog_ok R l (p ≫= k).
Proof.
  revert l. induction p as [a|op f IH]; intros l; simpl.
  - intros Ha Hk. by apply Hk.
  - intros [Hm Hf] Hk. split; [done|]. intros r. apply IH; [apply Hf|].
    intros l' a Hl. apply Hk. eauto with kesa.
Qed.

Lemma prog_ok_post {A} (Q R : list Obs → A → Prop) l (p : Prog A) :
  prog_ok Q l p → (∀ l' a, l ⊆ l' → Q l' a → R l' a) → prog_ok R l p.
Proof.
  revert l. induction p as [a|op f IH]; intros l; simpl.
  - intros Ha Hk. by apply Hk.
  - intros [Hm Hf] Hk. split; [done|]. intros r. eapply IH; [apply Hf|].
    intros l' a Hl. apply Hk. eauto with kesa.
Qed.

Lemma ask_approval_ok l c :
  (c_tool_approval cfg = true → stage_policy (l ++ [mkObs (OpApprove c) ApprovalAllow]) c) →
  (c_tool_approval cfg = false → stage_policy l c) →
  prog_ok (λ l' o, o = None → stage_policy l' c) l (ask_approval cfg c).
Proof.
  intros Hyes Hno. unfold ask_approval. destruct (c_tool_approval cfg) eqn:E; simpl.
  - split; [done|]. intros [|reason]; simpl; [|done]. split; [done|]. intros [] _.
    eapply stage_policy_mono; [apply log_sub|auto].
  - intros _. by apply Hno.
Qed.

Lemma request_tool_approval_ok ring l c :
  prog_ok (λ l' o, o = None → stage_policy l' c) l (request_tool_approval cfg ring c).
Proof.
  unfold request_tool_approval. destruct (doom_loop_denial ring c); [done|].
  destruct (c_tool_policy cfg) eqn:Epol.
  - simpl. split; [done|]. intros p. fold (decision_on p c).
    destruct (decision_on p c) eqn:Ed; [|done|].
    + simpl. split; [done|]. intros [] _. split; [|congruence]. intros _. exists p.
      split; [apply log_sub, log_here|]. by left.
    + destruct (c_tool_approval cfg) eqn:Eap; simpl; [|done].
      apply ask_approval_ok; [|congruence]. intros _. split; [|congruence]. intros _.
      exists p. split; [apply log_sub, log_here|]. right. split; [done|apply log_here].
  - apply ask_approval_ok; intros; split; intros; try congruence. apply log_here.
Qed.

Lemma pre_hook_ok l c :
  prog_ok (λ l' o, o = None → c_shell_hooks cfg = true → mkObs (OpPreToolUse c) HookAllow ∈ l') l
    (run_pre_tool_use_hook cfg c).
Proof.
  unfold run_pre_tool_use_hook. destruct (c_shell_hooks cfg); simpl; [|done].
  split; [done|]. intros [|reason]; simpl; [|done]. intros _ _. apply log_here.
Qed.

Lemma dispatch_hook_ok l c :
  prog_ok (λ l' o, o = None → ∃ r, mkObs (OpDispatchToolCall c) r ∈ l' ∧
    match r with
    | Ok (Some e) => ce_block e = false
    | Ok None => True
    | Err _ => c_fail_closed_hooks cfg = false
    end) l (dispatch_tool_call_hook cfg c).
Proof.
  simpl. split; [done|]. intros r.
  destruct r as [[e|]|err] eqn:E; simpl; intros Hn; exists r; subst r; (split; [apply log_here|]); [|done|].
  - by destruct (ce_block e).
  - by destruct (c_fail_closed_hooks cfg).
Qed.

Lemma emit_updates_ok {A} (Q : list Obs → A → Prop) l c us (k : Prog A) :
  (∀ l', l ⊆ l' → prog_ok Q l' k) → prog_ok Q l (emit_updates c us;; k).
Proof.
  revert l. induction us as [|u us IH]; intros l HQ; simpl; [by apply HQ|].
  split; [done|]. intros []. apply IH. intros l' Hl. apply HQ. eauto with kesa.
Qed.

Definition any {A} (l : list Obs) (a : A) : Prop := True.

Lemma guarded_run_ok ring l c : prog_ok any l (guarded_run cfg ring c).
Proof.
  unfold guarded_run. eapply prog_ok_bind; [apply request_tool_approval_ok|].
  intros l1 [o|] _ Hpol; [done|]. specialize (Hpol eq_refl).
  eapply prog_ok_bind; [apply pre_hook_ok|]. intros l2 [o|] Hl2 Hpre; [done|]. specialize (Hpre eq_refl).
  apply (prog_ok_bind (λ l' o, o = None → stage_policy l' c ∧ hooks_cleared l' c)).
  - unfold hooks_cleared. destruct (c_extensions cfg) eqn:Ee.
    + eapply prog_ok_post; [apply dispatch_hook_ok|]. intros l3 o Hl3 Hd Hn.
      split_and!; [|intros; by apply Hl3, Hpre|intros _; by apply Hd].
      eapply stage_policy_mono; [|exact Hpol]. by etransitivity.
    + simpl. intros _. split_and!; [by eapply stage_policy_mono|done|congruence].
  - intros l3 [o|] _ H3; [done|]. destruct (H3 eq_refl) as [[Hp Ha] Hh].
    unfold execute_tool_without_hooks. destruct (tools_get cfg (tc_name c)) eqn:Et; [|done].
    apply (prog_ok_bind any); [|done]. simpl. split; [by split_and!|]. intros r.
    apply emit_updates_ok. intros l' _. by destruct r.2.
Qed.

(** The program of one call is permitted from any log. *)
Lemma execute_tool_ok ring l c : prog_ok any l (execute_tool cfg ring c).
Proof.
  unfold execute_tool. eapply prog_ok_bind; [apply guarded_run_ok|].
  intros l1 [[output is_error] ran] _ _. apply (prog_ok_bind any).
  - destruct (c_extensions cfg); [|done]. simpl. split; [done|]. by intros [[?|]|?].
  - intros l2 output' _ _. destruct ran; [|done]. unfold run_post_tool_use_hook.
    destruct (c_shell_hooks cfg); simpl; [|done]. split; [done|]. by intros [|?].
Qed.

(** ** The log of the agent *)

Lemma log_ok_snoc l op r : log_ok l → may_perform l op → log_ok (l ++ [mkObs op r]).
Proof.
  intros Hl Hm pre o post Heq. destruct post as [|o' post _] using rev_ind.
  - by apply app_inj_tail in Heq as [<- <-].
  - rw app_comm_cons app_assoc in Heq. apply app_inj_tail in Heq as [-> _]. by eapply Hl.
Qed.

Context {W : Type} `{Env W}.

(** The parts of the agent keep the log permitted. *)
Abbreviation keeps_ok := (keeps (λ _ l (_ : W), log_ok l)).

Lemma harmless_ok op : (∀ l, may_perform l op) → op_keeps (λ _ l (_ : W), log_ok l) op.
Proof. intros Hop q l w r w' _ Hl. by apply log_ok_snoc. Qed.

(** A pool of permitted programs, each justified by part of the log. *)
Definition pool_ok {A} (l : list Obs) (pool : list (Task A)) : Prop :=
  Forall (λ t, prog_ok any l t.2) pool.

Lemma any_mono {A} (l k : list Obs) (a : A) : l ⊆ k → any l a → any k a.
Proof. done. Qed.

Lemma pool_ok_mono {A} l k (pool : list (Task A)) : l ⊆ k → pool_ok l pool → pool_ok k pool.
Proof.
  intros Hs Hp. eapply Forall_impl; [exact Hp|]. intros t Ht.
  eapply prog_ok_mono; [|exact Hs|exact Ht]. done.
Qed.

Lemma poll_task_ok {A} i (pool : list (Task A)) finished :
  triple (λ s, log_ok (s_log s) ∧ pool_ok (s_log s) pool) (poll_task i pool finished)
    (λ st s, log_ok (s_log s) ∧ pool_ok (s_log s) st.1).
Proof.
  unfold poll_task. destruct (pool !! i) as [[idx [a|op k]]|] eqn:E.
  - apply triple_ret. intros s [Hl Hp]. split; [done|]. by apply Forall_delete.
  - eapply triple_bind; [apply (triple_perform op _
      (λ r s, log_ok (s_log s) ∧ pool_ok (s_log s) (<[i := (idx, k r)]> pool)))|].
    + intros s r w _ [Hl Hp]. pose proof (Forall_lookup_1 _ _ _ _ Hp E) as [Hm Hk]. simpl. split.
      * by apply log_ok_snoc.
      * apply Forall_insert; [|by apply Hk]. eapply pool_ok_mono; [apply log_sub|done].
    + intros r. by apply triple_ret.
  - by apply triple_ret.
Qed.

Lemma run_pool_ok {A} n schedule (pool : list (Task A)) finished :
  triple (λ s, log_ok (s_log s) ∧ pool_ok (s_log s) pool) (run_pool n schedule pool finished)
    (λ st s, log_ok (s_log s) ∧ pool_ok (s_log s) st.1).
Proof.
  revert pool finished. induction schedule as [|c l IH]; intros pool finished; simpl; [by apply triple_ret|].
  eapply triple_bind; [apply poll_task_ok|]. intros st. apply IH.
Qed.

Lemma run_prog_ok {A} (p : Prog A) :
  triple (λ s, log_ok (s_log s) ∧ prog_ok any (s_log s) p) (run_prog p) (λ _ s, log_ok (s_log s)).
Proof.
  induction p as [a|op k IH]; simpl; [apply triple_ret; naive_solver|].
  eapply triple_bind; [apply (triple_perform op _ (λ r s, log_ok (s_log s) ∧ prog_ok any (s_log s) (k r)))|].
  - intros s r w _ [Hl [Hm Hk]]. simpl. split; [by apply log_ok_snoc|apply Hk].
  - intros r. apply IH.
Qed.

Lemma run_prog_grows {A} (p : Prog A) s0 :
  triple (λ s, s0 ⊆ s_log s) (run_prog p) (λ _ (s : St W), s0 ⊆ s_log s).
Proof.
  induction p as [a|op k IH]; simpl; [by apply triple_ret|].
  eapply triple_bind; [|intros r; apply IH]. apply triple_perform. intros s r w _ Hs. simpl.
  etransitivity; [exact Hs|apply log_sub].
Qed.

Lemma drain_pool_ok {A} (pool : list (Task A)) :
  triple (λ s, log_ok (s_log s) ∧ pool_ok (s_log s) pool) (drain_pool pool) (λ _ s, log_ok (s_log s)).
Proof.
  induction pool as [|[idx p] pool IH]; simpl; [apply triple_ret; naive_solver|].
  eapply (triple_bind _ _ _ (λ _ s, log_ok (s_log s) ∧ pool_ok (s_log s) pool)).
  - intros s [Hl [Hp Hpool]%Forall_cons]. split; [by apply (run_prog_ok p s)|].
    eapply pool_ok_mono; [|exact Hpool]. by apply (run_prog_grows p (s_log s) s).
  - intros a. eapply triple_bind; [apply IH|]. intros rest. by apply triple_ret.
Qed.

Lemma execute_tool_batch_ok batch : keeps_ok (execute_tool_batch cfg batch).
Proof.
  unfold execute_tool_batch. apply keeps_bind; [apply keeps_gets|]. intros ring.
  apply keeps_bind; [by apply (keeps_perform _ (OpSchedule _)), harmless_ok|]. intros schedule.
  eapply triple_bind; [eapply triple_pre; [apply run_pool_ok|]|].
  - intros s Hl. split; [done|]. apply Forall_fmap, Forall_forall. intros t _. apply execute_tool_ok.
  - intros st. destruct (_ && _ && _); [apply triple_ret; naive_solver|].
    eapply triple_bind; [apply drain_pool_ok|]. intros rest. by apply triple_ret.
Qed.
End Mediation.
