(* ===== verification/AgentStream.v ===== *)
(** * Streaming an answer ([stream_assistant_response] of [src/agent.rs])

    The agent rebuilds the assistant message from the provider's stream in its
    own history, and shows every step to its listeners.  The stream is the
    list of what each turn of the loop observes; a provider that never ends
    its stream keeps the source in this loop and is not modelled. *)

From S2P Require Import Prelude Text Json PartialJson Messages MessageQueue ToolResults AgentEnv.

(** ** Messages built by the agent *)

Definition agent_message (cfg : AgentConfig) (stop : StopReason) (error_message : option Str) : AssistantMessage :=
  mkAssistant [] (c_provider_api cfg) (c_provider_name cfg) (c_model_id cfg) Usage_default
    stop None error_message.

Definition with_stop (m : AssistantMessage) (stop : StopReason) (error_message : option Str) : AssistantMessage :=
  mkAssistant (a_content m) (a_api m) (a_provider m) (a_model m) (a_usage m) stop
    (a_stop_details m) error_message.

Definition build_abort_message (cfg : AgentConfig) (partial : option AssistantMessage) : AssistantMessage :=
  with_stop (default (agent_message cfg Aborted (Some (str "Aborted"))) partial)
    Aborted (Some (str "Aborted")).

Definition build_error_message (cfg : AgentConfig) (partial : option AssistantMessage) (error_message : Str)
    : AssistantMessage :=
  with_stop (default (agent_message cfg StopError (Some error_message)) partial)
    StopError (Some error_message).

(** ** The last assistant message of the history

    [iter_mut().rev().find(|m| matches!(m, Message::Assistant(_)))], then an
    assignment through the reference: the new value and the new history. *)
Fixpoint update_last_assistant (f : AssistantMessage → AssistantMessage) (l : list Message)
    : option (AssistantMessage * list Message) :=
  match l with
  | [] => None
  | m :: rest =>
      match update_last_assistant f rest with
      | Some (a, rest') => Some (a, m :: rest')
      | None => match m with Assistant a => Some (f a, Assistant (f a) :: rest) | _ => None end
      end
  end.

Definition last_assistant (l : list Message) : option AssistantMessage :=
  fst <$> update_last_assistant id l.

(** ** Edits of the partial message *)

Definition empty_text : ContentBlock := text_block [].
Definition empty_thinking : ContentBlock := Thinking (mkThinking [] None).
Definition new_tool_call (id name : Str) : ContentBlock := ToolCallBlock (mkToolCall id name JsonNull None).

(** [if content.get(i).is_none() && i == content.len() { content.push(b) }] *)
Definition ensure_block (i : nat) (b : ContentBlock) (content : list ContentBlock) : list ContentBlock :=
  if (i =? length content)%nat then content ++ [b] else content.

Definition edit_text (f : Str → Str) (b : ContentBlock) : ContentBlock :=
  match b with Text t => Text (mkText (f (t_text t)) (t_signature t)) | other => other end.
Definition edit_thinking (f : Str → Str) (b : ContentBlock) : ContentBlock :=
  match b with Thinking t => Thinking (mkThinking (f (th_thinking t)) (th_signature t)) | other => other end.
Definition edit_tool_call (f : ToolCall → ToolCall) (b : ContentBlock) : ContentBlock :=
  match b with ToolCallBlock c => ToolCallBlock (f c) | other => other end.

Definition fill_call (id name : Str) (c : ToolCall) : ToolCall :=
  mkToolCall (if is_empty (tc_id c) then id else tc_id c)
    (if is_empty (tc_name c) then name else tc_name c) (tc_arguments c) (tc_thought_signature c).
Definition set_arguments (v : Json) (c : ToolCall) : ToolCall :=
  mkToolCall (tc_id c) (tc_name c) v (tc_thought_signature c).

Definition on_content (f : list ContentBlock → list ContentBlock) (m : AssistantMessage) : AssistantMessage :=
  assistant_with_content m (f (a_content m)).

(** The [Start] arm when a partial exists: a partial without content is
    replaced, otherwise its header fields are. *)
Definition merge_start (partial m : AssistantMessage) : AssistantMessage :=
  if (length (a_content m) =? 0)%nat then partial
  else mkAssistant (a_content m) (a_api partial) (a_provider partial) (a_model partial)
         (a_usage partial) (a_stop_reason partial) (a_stop_details m) (a_error_message partial).

(** ** The loop *)

(** Its local variables. *)
Record Locals := mkLocals {
  l_added_partial : bool;
  l_sent_start : bool;
  l_raw_args : gmap nat Str;
  l_tool_call_started : bool;
}.

Section Stream.
Context {W : Type} `{Env W} (from_str : Str → option Json) (cfg : AgentConfig).

Definition seed_partial_message_if_missing (added_partial : bool) : M W bool :=
  if added_partial then mret true
  else push_message (Assistant (agent_message cfg Stop None));; mret true.

(** The result says whether a message was added; the flag is then set. *)
Definition update_partial_message (partial : AssistantMessage) (added_partial : bool) : M W bool :=
  if added_partial then
    messages ← gets s_messages;
    (match update_last_assistant (λ _, partial) messages with
     | Some (_, messages') => set_messages (λ _, messages')
     | None => push_message (Assistant partial)
     end);;
    mret true
  else push_message (Assistant partial);; mret true.

Definition finalize_assistant_message (message : AssistantMessage) (added_partial : bool) : M W AssistantMessage :=
  (if added_partial then
     messages ← gets s_messages;
     match update_last_assistant (λ _, message) messages with
     | Some (_, messages') => set_messages (λ _, messages')
     | None => push_message (Assistant message);; emit (MessageStart (Assistant message))
     end
   else push_message (Assistant message);; emit (MessageStart (Assistant message)));;
  emit (MessageEnd (Assistant message));;
  mret message.

(** [if !sent_start { on_event(MessageStart); sent_start = true }] and the
    update that follows. *)
Definition show_partial (l : Locals) (shared : AssistantMessage) (ev : AssistantMessageEvent) : M W Locals :=
  (if l_sent_start l then mret tt else emit (MessageStart (Assistant shared)));;
  emit (MessageUpdate (Assistant shared) ev);;
  mret (mkLocals (l_added_partial l) true (l_raw_args l) (l_tool_call_started l)).

(** The arms of the deltas: seed, edit the last assistant message, show. *)
Definition edit_partial (l : Locals) (edit : AssistantMessage → AssistantMessage)
    (ev : AssistantMessage → AssistantMessageEvent) : M W Locals :=
  added ← seed_partial_message_if_missing (l_added_partial l);
  let l := mkLocals added (l_sent_start l) (l_raw_args l) (l_tool_call_started l) in
  messages ← gets s_messages;
  match update_last_assistant edit messages with
  | Some (shared, messages') => set_messages (λ _, messages');; show_partial l shared (ev shared)
  | None => mret l
  end.

Definition on_start (l : Locals) (partial : AssistantMessage) : M W Locals :=
  let fresh :=
    added ← update_partial_message partial (l_added_partial l);
    emit (MessageStart (Assistant partial));;
    emit (MessageUpdate (Assistant partial) (AStart partial));;
    mret (mkLocals added true (l_raw_args l) (l_tool_call_started l)) in
  if l_added_partial l then
    messages ← gets s_messages;
    match update_last_assistant (merge_start partial) messages with
    | Some (shared, messages') =>
        set_messages (λ _, messages');; show_partial l shared (AStart shared)
    | None => fresh
    end
  else fresh.

Definition tool_call_seen (l : Locals) : Locals :=
  mkLocals (l_added_partial l) (l_sent_start l) (l_raw_args l) true.

(** ** The arms of the event match *)

Definition on_text_start (l : Locals) (i : nat) : M W Locals :=
  edit_partial l (on_content (ensure_block i empty_text)) (ATextStart i).

Definition on_text_delta (l : Locals) (i : nat) (delta : Str) : M W Locals :=
  edit_partial l
    (on_content (λ c, alter (edit_text (λ t, t ++ delta)) i (ensure_block i empty_text c)))
    (ATextDelta i delta).

Definition on_text_end (l : Locals) (i : nat) (content : Str) : M W Locals :=
  edit_partial l
    (on_content (λ c, alter (edit_text (λ _, content)) i (ensure_block i empty_text c)))
    (ATextEnd i content).

Definition on_thinking_start (l : Locals) (i : nat) : M W Locals :=
  edit_partial l (on_content (ensure_block i empty_thinking)) (AThinkingStart i).

Definition on_thinking_delta (l : Locals) (i : nat) (delta : Str) : M W Locals :=
  edit_partial l
    (on_content (λ c, alter (edit_thinking (λ t, t ++ delta)) i (ensure_block i empty_thinking c)))
    (AThinkingDelta i delta).

Definition on_thinking_end (l : Locals) (i : nat) (content : Str) : M W Locals :=
  edit_partial l
    (on_content (λ c, alter (edit_thinking (λ _, content)) i (ensure_block i empty_thinking c)))
    (AThinkingEnd i content).

Definition on_tool_call_start (l : Locals) (i : nat) (id name : Str) : M W Locals :=
  edit_partial (tool_call_seen l)
    (on_content (λ c, if (i =? length c)%nat then c ++ [new_tool_call id name]
                      else alter (edit_tool_call (fill_call id name)) i c))
    (AToolCallStart i).

Definition on_tool_call_delta (l : Locals) (i : nat) (delta : Str) : M W Locals :=
  let raw := default [] (l_raw_args l !! i) ++ delta in
  let l := mkLocals (l_added_partial l) (l_sent_start l) (<[i := raw]> (l_raw_args l)) true in
  edit_partial l
    (on_content (λ c,
      let c := ensure_block i (new_tool_call [] []) c in
      match complete_partial_json from_str raw with
      | Some partial_args => alter (edit_tool_call (set_arguments partial_args)) i c
      | None => c
      end))
    (AToolCallDelta i delta).

Definition on_tool_call_end (l : Locals) (i : nat) (tool_call : ToolCall) : M W Locals :=
  edit_partial (tool_call_seen l)
    (on_content (λ c, alter (edit_tool_call (λ _, tool_call)) i (ensure_block i (new_tool_call [] []) c)))
    (AToolCallEnd i tool_call).

Definition on_done (l : Locals) (message : AssistantMessage) : M W AssistantMessage :=
  let message :=
    if is_truncated_before_tool_call message (l_tool_call_started l)
    then with_stop message StopError (Some TRUNCATED_TOOL_CALL_ERROR) else message in
  finalize_assistant_message message (l_added_partial l).

(** One stream event: the new locals, or the final message. *)
Definition on_stream_event (l : Locals) (event : StreamEvent) : M W (Locals + AssistantMessage) :=
  match event with
  | SStart partial => inl <$> on_start l partial
  | STextStart i => inl <$> on_text_start l i
  | STextDelta i delta => inl <$> on_text_delta l i delta
  | STextEnd i content => inl <$> on_text_end l i content
  | SThinkingStart i => inl <$> on_thinking_start l i
  | SThinkingDelta i delta => inl <$> on_thinking_delta l i delta
  | SThinkingEnd i content => inl <$> on_thinking_end l i content
  | SToolCallStart i id name => inl <$> on_tool_call_start l i id name
  | SToolCallDelta i delta => inl <$> on_tool_call_delta l i delta
  | SToolCallEnd i tool_call => inl <$> on_tool_call_end l i tool_call
  | SDone _ message => inr <$> on_done l message
  | SError _ error => inr <$> finalize_assistant_message error (l_added_partial l)
  end.

(** The partial message of this stream, if any. *)
Definition current_partial (l : Locals) : M W (option AssistantMessage) :=
  messages ← gets s_messages;
  mret (if l_added_partial l then last_assistant messages else None).

(** Cancellation at the checkpoint and an abort take the same steps. *)
Definition abort_stream (l : Locals) : M W AssistantMessage :=
  partial ← current_partial l;
  let abort_message := build_abort_message cfg partial in
  (if l_sent_start l then mret tt
   else emit (MessageStart (Assistant abort_message));; push_message (Assistant abort_message));;
  emit (MessageUpdate (Assistant abort_message) (AError Aborted abort_message));;
  finalize_assistant_message abort_message (if l_sent_start l then l_added_partial l else true).

(** After the loop: the stream ended without a terminal event. *)
Definition end_of_stream (l : Locals) : M W (result AssistantMessage Error) :=
  partial ← current_partial l;
  match partial with
  | Some last_msg =>
      let final_msg := with_stop last_msg StopError
        (Some (if is_truncated_before_tool_call last_msg (l_tool_call_started l)
               then TRUNCATED_TOOL_CALL_ERROR else str "Stream ended without Done event")) in
      Ok <$> finalize_assistant_message final_msg true
  | None => mret (Err (Api (str "Stream ended without Done event")))
  end.

Fixpoint stream_loop (polls : list StreamPoll) (l : Locals) : M W (result AssistantMessage Error) :=
  match polls with
  | [] => end_of_stream l
  | PollCancelled :: _ => Ok <$> abort_stream l
  | PollAborted :: polls' => if c_abort cfg then Ok <$> abort_stream l else stream_loop polls' l
  | PollItem (Err err) :: _ =>
      partial ← current_partial l;
      Ok <$> finalize_assistant_message (build_error_message cfg partial (Error_to_string err)) (l_added_partial l)
  | PollItem (Ok event) :: polls' =>
      out ← on_stream_event l event;
      match out with
      | inl l' => stream_loop polls' l'
      | inr message => mret (Ok message)
      end
  end.

Definition stream_assistant_response : M W (result AssistantMessage Error) :=
  history ← gets s_messages;
  let base_messages := build_context (c_block_images cfg) history in
  replaced ← (if c_extensions cfg then perform (OpContext base_messages) else mret None);
  opened ← perform (OpStream (default base_messages replaced));
  match opened with
  | Err e => mret (Err e)
  | Ok polls => stream_loop polls (mkLocals false false ∅ false)
  end.
End Stream.

(** ** Specification

    What a stream adds to the agent: one assistant message at the end of the
    history, announced once, updated, and closed by the message returned; or,
    on an error, nothing. *)

Definition is_update (e : AgentEvent) : Prop :=
  match e with MessageUpdate (Assistant _) _ => True | _ => False end.

Section StreamSpec.
Context {W : Type} `{Env W} (from_str : Str → option Json) (cfg : AgentConfig).

(** The fields a stream does not touch. *)
Definition same_frame (s0 s : St W) : Prop :=
  s_new s = s_new s0 ∧ s_queue s = s_queue s0 ∧ s_recent s = s_recent s0.

Definition emitted (s0 s : St W) (es : list AgentEvent) : Prop :=
  events (s_log s) = events (s_log s0) ++ es.

Definition streaming (s0 : St W) (l : Locals) (s : St W) : Prop :=
  same_frame s0 s ∧ l_sent_start l = l_added_partial l ∧
  if l_added_partial l then
    ∃ a a0 us, s_messages s = s_messages s0 ++ [Assistant a] ∧
      emitted s0 s (MessageStart (Assistant a0) :: us) ∧ Forall is_update us
  else s_messages s = s_messages s0 ∧ emitted s0 s [].

Definition streamed (s0 : St W) (r : result AssistantMessage Error) (s : St W) : Prop :=
  same_frame s0 s ∧
  match r with
  | Ok m => s_messages s = s_messages s0 ++ [Assistant m] ∧
      ∃ a0 us, emitted s0 s (MessageStart (Assistant a0) :: us ++ [MessageEnd (Assistant m)]) ∧
        Forall is_update us
  | Err _ => s_messages s = s_messages s0 ∧ emitted s0 s []
  end.

(** ** Lemmas *)

Lemma update_last_assistant_snoc f l a :
  update_last_assistant f (l ++ [Assistant a]) = Some (f a, l ++ [Assistant (f a)]).
Proof. induction l as [|m l IH]; simpl; [done|]. by rw IH. Qed.

Lemma last_assistant_snoc l a : last_assistant (l ++ [Assistant a]) = Some a.
Proof. unfold last_assistant. by rw update_last_assistant_snoc. Qed.

(** After the edit of the last message: announce it if needed, and show. *)
Lemma show_partial_spec s0 l shared ev s :
  same_frame s0 s → l_added_partial l = true →
  s_messages s = s_messages s0 ++ [Assistant shared] →
  (if l_sent_start l
   then ∃ a0 us, emitted s0 s (MessageStart (Assistant a0) :: us) ∧ Forall is_update us
   else emitted s0 s []) →
  streaming s0 (show_partial l shared ev s).1 (show_partial l shared ev s).2.
Proof.
  intros (Hn & Hq & Hr) Hadd Hm Hev. unfold show_partial, streaming, same_frame, emitted in *.
  destruct (l_sent_start l); m_run; m_fields; rw Hadd; (split_and!; [done..|]).
  - destruct Hev as (a0 & us & He & Hu). exists shared, a0, (us ++ [MessageUpdate (Assistant shared) ev]).
    split_and!; [done| |]; [by rw He -app_assoc|]. apply Forall_app. by repeat constructor.
  - exists shared, shared, [MessageUpdate (Assistant shared) ev]. split_and!; [done| |by repeat constructor].
    by rw Hev app_nil_r -app_assoc.
Qed.

Lemma edit_partial_spec s0 l edit ev s :
  streaming s0 l s →
  streaming s0 (edit_partial cfg l edit ev s).1 (edit_partial cfg l edit ev s).2.
Proof.
  intros (Hf & Hsent & Hl). unfold edit_partial, seed_partial_message_if_missing.
  destruct (l_added_partial l) eqn:Eadd.
  - destruct Hl as (a & a0 & us & Hm & He & Hu). m_run.
    rw Hm update_last_assistant_snoc. apply show_partial_spec; [done|done|done|].
    simpl. rw Hsent. eauto.
  - destruct Hl as [Hm He]. m_run. cbn [s_messages]. rw Hm update_last_assistant_snoc.
    apply show_partial_spec; [done|done|done|]. simpl. by rw Hsent.
Qed.

Lemma on_start_spec s0 l partial s :
  streaming s0 l s → streaming s0 (on_start l partial s).1 (on_start l partial s).2.
Proof.
  intros (Hf & Hsent & Hl). unfold on_start, update_partial_message.
  destruct (l_added_partial l) eqn:Eadd.
  - destruct Hl as (a & a0 & us & Hm & He & Hu). m_run. rw Hm update_last_assistant_snoc.
    apply show_partial_spec; [done|done|done|]. rw Hsent. eauto.
  - destruct Hl as [Hm He]. m_run. unfold streaming, same_frame, emitted in *.
    m_fields. rw He Hm. split_and!; [by destruct Hf as (?&?&?)..|done|].
    exists partial, partial, [MessageUpdate (Assistant partial) (AStart partial)].
    split_and!; [done| |by repeat constructor]. by rw app_nil_r -app_assoc.
Qed.

Lemma finalize_spec s0 l m s :
  streaming s0 l s →
  streamed s0 (Ok (finalize_assistant_message m (l_added_partial l) s).1)
    (finalize_assistant_message m (l_added_partial l) s).2.
Proof.
  intros (Hf & Hsent & Hl). unfold finalize_assistant_message, streamed, same_frame, emitted in *.
  destruct (l_added_partial l).
  - destruct Hl as (a & a0 & us & Hm & He & Hu). m_run. rw Hm update_last_assistant_snoc. m_run. m_fields.
    split_and!; [by destruct Hf as (?&?&?)..|done|]. exists a0, us. split; [|done]. by rw He -app_assoc.
  - destruct Hl as [Hm He]. m_run. m_fields. rw He Hm. split_and!; [by destruct Hf as (?&?&?)..|done|].
    exists m, []. split; [|done]. by rw app_nil_r -app_assoc.
Qed.

Lemma current_partial_spec s0 l s :
  streaming s0 l s →
  ∃ p, current_partial l s = (p, s) ∧ (is_Some p ↔ l_added_partial l = true).
Proof.
  intros (_ & _ & Hl). unfold current_partial. m_run. eexists. split; [done|].
  destruct (l_added_partial l); [|split; [by intros [? ?]|done]].
  destruct Hl as (a & a0 & us & -> & _). rw last_assistant_snoc. split; [done|eauto].
Qed.

Lemma abort_stream_spec s0 l s :
  streaming s0 l s → streamed s0 (Ok (abort_stream cfg l s).1) (abort_stream cfg l s).2.
Proof.
  intros Hs. unfold abort_stream. destruct (current_partial_spec _ _ _ Hs) as (p & Hp & _).
  rw (bind_eq _ _ _ _ _ Hp). set (am := build_abort_message cfg p).
  destruct Hs as (Hf & Hsent & Hl). rw Hsent. destruct (l_added_partial l) eqn:Eadd.
  - m_run. apply (finalize_spec s0 (mkLocals true true ∅ false)). split_and!; [|done|]; simpl.
    { unfold same_frame in *. by m_fields. }
    destruct Hl as (a & a0 & us & Hm & He & Hu).
    exists a, a0, (us ++ [MessageUpdate (Assistant am) (AError Aborted am)]). unfold emitted in *. m_fields.
    split_and!; [done| |apply Forall_app; by repeat constructor]. by rw He -app_assoc.
  - m_run. apply (finalize_spec s0 (mkLocals true true ∅ false)). destruct Hl as [Hm He].
    split_and!; [|done|]; simpl; unfold same_frame, emitted in *; m_fields; [done|].
    exists am, am, [MessageUpdate (Assistant am) (AError Aborted am)].
    split_and!; [by rw Hm| |by repeat constructor]. by rw He app_nil_r -app_assoc.
Qed.

Lemma end_of_stream_spec s0 l s :
  streaming s0 l s → streamed s0 (end_of_stream l s).1 (end_of_stream l s).2.
Proof.
  intros Hs. unfold end_of_stream. destruct (current_partial_spec _ _ _ Hs) as (p & Hp & Hiff).
  unfold mbind, M_bind. rw Hp. destruct p as [last_msg|].
  - assert (l_added_partial l = true) as E by (apply Hiff; eauto).
    unfold fmap, M_fmap. pose proof (finalize_spec s0 l
      (with_stop last_msg StopError (Some (if is_truncated_before_tool_call last_msg (l_tool_call_started l)
         then TRUNCATED_TOOL_CALL_ERROR else str "Stream ended without Done event"))) s Hs) as Hfin.
    rw E in Hfin. by destruct (finalize_assistant_message _ true s).
  - destruct Hs as (Hf & _ & Hl). destruct (l_added_partial l); [by destruct (proj2 Hiff eq_refl)|].
    by split.
Qed.

(** An event leaves the stream in progress, or closes it. *)
Lemma on_stream_event_spec s0 l event s :
  streaming s0 l s →
  match on_stream_event from_str cfg l event s with
  | (inl l', s') => streaming s0 l' s'
  | (inr m, s') => streamed s0 (Ok m) s'
  end.
Proof.
  intros Hs.
  assert (∀ l' edit ev, l_added_partial l' = l_added_partial l → l_sent_start l' = l_sent_start l →
    match (inl <$> edit_partial cfg l' edit ev : M W (Locals + AssistantMessage)) s with
    | (inl l', s') => streaming s0 l' s' | (inr m, s') => streamed s0 (Ok m) s' end) as Hedit.
  { intros l' edit ev Ha Hsent. unfold fmap, M_fmap.
    assert (streaming s0 l' s) as Hs' by (unfold streaming in *; by rw Ha Hsent).
    pose proof (edit_partial_spec s0 l' edit ev s Hs'). by destruct (edit_partial cfg l' edit ev s). }
  destruct event; simpl; try (apply Hedit; done); unfold on_done, fmap, M_fmap.
  - pose proof (on_start_spec s0 l partial s Hs). by destruct (on_start l partial s).
  - set (m := if is_truncated_before_tool_call _ _ then _ else _).
    pose proof (finalize_spec s0 l m s Hs). by destruct (finalize_assistant_message m _ s).
  - pose proof (finalize_spec s0 l error s Hs). by destruct (finalize_assistant_message error _ s).
Qed.

Lemma stream_loop_spec s0 polls l s :
  streaming s0 l s → streamed s0 (stream_loop from_str cfg polls l s).1 (stream_loop from_str cfg polls l s).2.
Proof.
  revert l s. induction polls as [|poll polls IH]; intros l s Hs; cbn [stream_loop].
  { by apply end_of_stream_spec. }
  assert (streamed s0 ((Ok <$> abort_stream cfg l : M W (result AssistantMessage Error)) s).1
            ((Ok <$> abort_stream cfg l : M W (result AssistantMessage Error)) s).2) as Hab.
  { pose proof (abort_stream_spec s0 l s Hs) as Ha. unfold fmap, M_fmap.
    by destruct (abort_stream cfg l s). }
  destruct poll as [| |[event|err]]; [done|destruct (c_abort cfg); [done|by apply IH]|..].
  - unfold mbind, M_bind. pose proof (on_stream_event_spec s0 l event s Hs) as He.
    destruct (on_stream_event from_str cfg l event s) as [[l'|m] s']; [by apply IH|done].
  - destruct (current_partial_spec _ _ _ Hs) as (p & Hp & _). unfold mbind, M_bind, fmap, M_fmap. rw Hp.
    pose proof (finalize_spec s0 l (build_error_message cfg p (Error_to_string err)) s Hs).
    by destruct (finalize_assistant_message _ _ s).
Qed.

(** Operations that emit nothing leave the events alone. *)
Lemma perform_silent op s :
  (∀ e, op ≠ OpEmit e) →
  same_frame s (perform op s).2 ∧ s_messages (perform op s).2 = s_messages s ∧ emitted s (perform op s).2 [].
Proof.
  intros Hop. unfold perform, emitted. destruct (handle op (s_world s)) as [r w]. simpl.
  split_and!; [done|done|]. rw events_app. destruct op; try done. by destruct (Hop e).
Qed.

Lemma stream_assistant_response_spec s :
  streamed s (stream_assistant_response from_str cfg s).1 (stream_assistant_response from_str cfg s).2.
Proof.
  unfold stream_assistant_response. rw (bind_eq (gets s_messages) _ s (s_messages s) s) //.
  set (base := build_context _ _).
  assert (∃ r s1, (if c_extensions cfg then perform (OpContext base) else mret None) s = (r, s1) ∧
    same_frame s s1 ∧ s_messages s1 = s_messages s ∧ emitted s s1 []) as (r & s1 & Hr & Hf1 & Hm1 & He1).
  { destruct (c_extensions cfg).
    - pose proof (perform_silent (OpContext base) s ltac:(done)). by destruct (perform (OpContext base) s); eauto.
    - eexists _, _. split; [done|]. unfold emitted. by rw app_nil_r. }
  rw (bind_eq _ _ _ _ _ Hr). unfold mbind, M_bind.
  pose proof (perform_silent (OpStream (default base r)) s1 ltac:(done)) as (Hf2 & Hm2 & He2).
  destruct (perform (OpStream (default base r)) s1) as [opened s2]. simpl in *.
  assert (same_frame s s2 ∧ s_messages s2 = s_messages s ∧ emitted s s2 []) as (Hf & Hm & He).
  { unfold same_frame, emitted in *. rw He2 He1 Hm2 Hm1 !app_nil_r. naive_solver congruence. }
  destruct opened as [polls|e]; [|by split_and!]. apply stream_loop_spec. by split_and!.
Qed.

(** ** The verdict of a stream that reaches its terminal event *)

Definition is_terminal (e : StreamEvent) : bool :=
  match e with SDone _ _ | SError _ _ => true | _ => false end.
Definition is_tool_call_event (e : StreamEvent) : bool :=
  match e with SToolCallStart _ _ _ | SToolCallDelta _ _ | SToolCallEnd _ _ => true | _ => false end.

Lemma edit_partial_started l edit ev s :
  l_tool_call_started (edit_partial cfg l edit ev s).1 = l_tool_call_started l.
Proof.
  unfold edit_partial, seed_partial_message_if_missing, show_partial.
  destruct (l_added_partial l); m_run;
    destruct (update_last_assistant edit _) as [[? ?]|]; try done;
    cbn [l_sent_start]; destruct (l_sent_start l); m_run; done.
Qed.

Lemma on_start_started l partial s :
  l_tool_call_started (on_start l partial s).1 = l_tool_call_started l.
Proof.
  unfold on_start, update_partial_message, show_partial. destruct (l_added_partial l).
  - m_run. destruct (update_last_assistant (merge_start _) (s_messages s)) as [[? ?]|].
    + destruct (l_sent_start l); m_run; done.
    + destruct (update_last_assistant (λ _, partial) (s_messages s)) as [[? ?]|]; m_run; done.
  - by m_run.
Qed.

Lemma on_stream_event_started l e s :
  is_terminal e = false →
  ∃ l' s', on_stream_event from_str cfg l e s = (inl l', s') ∧
    l_tool_call_started l' = l_tool_call_started l || is_tool_call_event e.
Proof.
  intros He.
  assert (∀ l' edit ev b, l_tool_call_started l' = l_tool_call_started l || b →
    ∃ l'' s', (inl <$> edit_partial cfg l' edit ev : M W (Locals + AssistantMessage)) s = (inl l'', s') ∧
      l_tool_call_started l'' = l_tool_call_started l || b) as Hedit.
  { intros l' edit ev b Hb. pose proof (edit_partial_started l' edit ev s) as Hs. unfold fmap, M_fmap.
    destruct (edit_partial cfg l' edit ev s) as [l'' s']. exists l'', s'. split; [done|]. by rw -Hb -Hs. }
  destruct e; try done; simpl; try (apply Hedit; simpl; by rw ?orb_false_r ?orb_true_r).
  pose proof (on_start_started l partial s) as Hs. unfold fmap, M_fmap.
  destruct (on_start l partial s) as [l' s']. exists l', s'. split; [done|]. by rw orb_false_r.
Qed.

Lemma stream_loop_done evs reason m rest l s :
  Forall (λ e, is_terminal e = false) evs →
  (stream_loop from_str cfg ((PollItem ∘ Ok <$> evs) ++ PollItem (Ok (SDone reason m)) :: rest) l s).1 =
  Ok (if is_truncated_before_tool_call m (l_tool_call_started l || existsb is_tool_call_event evs)
      then with_stop m StopError (Some TRUNCATED_TOOL_CALL_ERROR) else m).
Proof.
  intros Hevs. revert l s. induction Hevs as [|e evs He _ IH]; intros l s.
  - simpl. rw orb_false_r. unfold on_done, mbind, M_bind, fmap, M_fmap.
    set (m' := if is_truncated_before_tool_call _ _ then _ else _).
    assert ((finalize_assistant_message m' (l_added_partial l) s).1 = m') as Hf.
    { unfold finalize_assistant_message. destruct (l_added_partial l); m_run; [|done].
      destruct (update_last_assistant _ (s_messages s)) as [[? ?]|]; m_run; done. }
    destruct (finalize_assistant_message m' (l_added_partial l) s) as [m'' s']. simpl in *. by rw Hf.
  - destruct (on_stream_event_started l e s He) as (l' & s' & Hev & Hst). rw fmap_cons.
    cbn [app stream_loop compose]. rw (bind_eq _ _ _ _ _ Hev) IH Hst. cbn [existsb]. by rw orb_assoc.
Qed.

(** The scan for incomplete calls, in terms of the calls of the message. *)
Lemma scan_incomplete_calls content b :
  scan_incomplete content b =
  if existsb is_complete_tool_call (extract_tool_calls content) then None
  else Some (b || negb (length (extract_tool_calls content) =? 0)%nat).
Proof.
  revert b. induction content as [|block content IH]; intros b; [by rw /= orb_false_r|].
  destruct block as [t|t|t|t|tc]; simpl; try apply IH.
  rw IH. destruct (is_complete_tool_call tc); simpl; [done|].
  destruct (existsb _ _); [done|]. by rw orb_true_r.
Qed.

(** ** Claims *)

(** C17: whatever the provider streams, and wherever the stream fails, is
    cancelled or aborted, the history grows by one assistant message, the one
    returned, announced by one start event, then only updates, then one end
    event with the message returned; or, when nothing arrived before an
    error, by nothing at all and no event is shown. *)
Theorem stream_adds_one_message s :
  streamed s (stream_assistant_response from_str cfg s).1 (stream_assistant_response from_str cfg s).2.
Proof. apply stream_assistant_response_spec. Qed.

(** A stream that reaches its final event returns the provider's message
    unchanged, except when the provider stopped at its length limit and no
    tool call of the message is complete although one had begun, on the
    stream or in the message: then the message becomes an error, and the
    half-built call is not run. *)
Theorem truncated_call_is_an_error evs reason m rest l s :
  Forall (λ e, is_terminal e = false) evs →
  (stream_loop from_str cfg ((PollItem ∘ Ok <$> evs) ++ PollItem (Ok (SDone reason m)) :: rest) l s).1 =
  Ok (if bool_decide (a_stop_reason m = Length)
         && negb (existsb is_complete_tool_call (extract_tool_calls (a_content m)))
         && (l_tool_call_started l || existsb is_tool_call_event evs
             || negb (length (extract_tool_calls (a_content m)) =? 0)%nat)
      then with_stop m StopError (Some TRUNCATED_TOOL_CALL_ERROR) else m).
Proof.
  intros Hevs. rw stream_loop_done //. do 2 f_equal. unfold is_truncated_before_tool_call.
  destruct (bool_decide _); [|done]. simpl. rw scan_incomplete_calls. by destruct (existsb _ (extract_tool_calls _)).
Qed.
End StreamSpec.
