(* ===== verification/AgentLoop.v ===== *)
(** * The agent loop ([run_loop] and [run_loop_inner] of [src/agent.rs])

    Prompts go into the history; then, turn by turn, queued messages are
    delivered, an answer is streamed, its tool calls are run, until there is
    nothing left to do, an error, an abort or the iteration cap ends the run. *)

From S2P Require Import Prelude Text Json ToolPolicy Messages MessageQueue ToolResults ToolBatches AgentEnv AgentTools AgentSafety AgentStream.

(** The local variables of the loop; [steering_after_tools] lives within one
    turn. *)
Record LoopVars := mkLoop {
  v_iterations : Z;
  v_pause_turn_continuations : Z;
  v_warned : bool;
  v_turn_index : Z;
  v_last_assistant : option AssistantMessage;
  v_has_more_tool_calls : bool;
  v_pending : list Message;
}.

Definition is_tool_call (b : ContentBlock) : bool :=
  match b with ToolCallBlock _ => true | _ => false end.

Definition stop_message_of (a : AssistantMessage) (error_message : Str) : AssistantMessage :=
  with_stop
    (assistant_with_content a
       (filter (λ b, is_tool_call b = false) (a_content a)))
    StopError (Some error_message).

Definition max_iterations_error (max : Z) : Str :=
  str "Maximum tool iterations (" ++ show_u64 max ++ str ") exceeded".

(** [if let Some(last @ Message::Assistant(_)) = new_messages.last_mut()] *)
Definition replace_last_new (m : Message) (l : list Message) : list Message :=
  match last l with
  | Some (Assistant _) => removelast l ++ [m]
  | _ => l
  end.

Section Loop.
Context {W : Type} `{Env W} `{Fingerprints} (from_str : Str → option Json) (cfg : AgentConfig).

Definition session_id : Str := default [] (c_session_id cfg).

Definition dispatch_extension_lifecycle_event (e : AgentEvent) : M W unit :=
  if c_extensions cfg then perform (OpLifecycle e) else mret tt.

(** A lifecycle event goes to the extensions, then to the listeners. *)
Definition lifecycle (e : AgentEvent) : M W unit :=
  dispatch_extension_lifecycle_event e;; emit e.

Definition open_rewind_turn (m : Message) : M W unit :=
  match m with User _ => perform (OpOpenRewind m) | _ => mret tt end.

(** A message from outside enters the history. *)
Definition deliver (m : Message) : M W unit :=
  push_message m;; emit (MessageStart m);; emit (MessageEnd m);; push_new m.

(** An answer made up by the agent enters the history. *)
Definition deliver_answer (m : Message) : M W unit :=
  push_message m;; push_new m;; emit (MessageStart m);; emit (MessageEnd m).

Definition deliver_steering : M W unit :=
  steering_to_add ← drain_steering_messages cfg;
  for_each steering_to_add deliver.

Definition end_turn_event (turn_index : Z) (message : Message) (tool_results : list Message) : M W unit :=
  lifecycle (TurnEnd session_id turn_index message tool_results).

(** [std::mem::take(&mut new_messages)]: nothing reads the list afterwards. *)
Definition end_agent_event (error : option Str) : M W unit :=
  new_messages ← gets s_new;
  lifecycle (AgentEnd session_id new_messages error).

(** ** The exits of a turn *)

Definition abort_turn (turn_index : Z) : M W AssistantMessage :=
  let abort_message := build_abort_message cfg None in
  deliver_answer (Assistant abort_message);;
  end_turn_event turn_index (Assistant abort_message) [];;
  end_agent_event (Some (default (str "Aborted") (a_error_message abort_message)));;
  mret abort_message.

Definition fail_turn (turn_index : Z) (err : Error) : M W unit :=
  deliver_steering;;
  let error_message := build_error_message cfg None (Error_to_string err) in
  deliver_answer (Assistant error_message);;
  end_turn_event turn_index (Assistant error_message) [];;
  end_agent_event (Some (Error_to_string err)).

Definition stop_turn (turn_index : Z) (a : AssistantMessage) : M W unit :=
  deliver_steering;;
  end_turn_event turn_index (Assistant a) [];;
  end_agent_event (a_error_message a).

Definition cap_turn (turn_index : Z) (a : AssistantMessage) : M W AssistantMessage :=
  let error_message := max_iterations_error (c_max_tool_iterations cfg) in
  let stop_message := stop_message_of a error_message in
  messages ← gets s_messages;
  (match update_last_assistant (λ _, stop_message) messages with
   | Some (_, messages') => set_messages (λ _, messages')
   | None => mret tt
   end);;
  set_new (replace_last_new (Assistant stop_message));;
  deliver_steering;;
  end_turn_event turn_index (Assistant stop_message) [];;
  end_agent_event (Some error_message);;
  mret stop_message.

(** ** A turn *)

(** The soft-handoff message, queued once per run. *)
Definition handoff_warning (iterations : Z) : Message :=
  User (mkUser (UserText (iteration_handoff_steering_text iterations (c_max_tool_iterations cfg)))).

(** The tool part: the iteration count, the one-shot warning, the cap, the
    calls.  [None] when the cap ends the run. *)
Definition run_tools (v : LoopVars) (tool_calls : list ToolCall)
    : M W (option (list ToolResultMessage * option (list Message)) * Z * bool) :=
  let iterations := v_iterations v + 1 in
  let max := c_max_tool_iterations cfg in
  let warn := negb (v_warned v) && should_warn_at_iteration_threshold iterations max in
  (if warn then
     set_queue (λ q, (push_steering q (handoff_warning iterations)).1)
   else mret tt);;
  if max <? iterations then mret (None, iterations, v_warned v || warn)
  else
    outcome ← execute_tool_calls cfg tool_calls;
    mret (Some outcome, iterations, v_warned v || warn).

(** The end of a turn that does not end the run. *)
Definition close_turn (v : LoopVars) (a : AssistantMessage) (tool_results : list ToolResultMessage)
    (steering_after_tools : option (list Message)) (iterations pauses : Z) (warned has_more : bool)
    : M W (LoopVars + result AssistantMessage Error) :=
  end_turn_event (v_turn_index v) (Assistant a) (ToolResult <$> tool_results);;
  pending ← match steering_after_tools with
            | Some steering => mret steering
            | None => drain_steering_messages cfg
            end;
  mret (inl (mkLoop iterations pauses warned (sat_add usize_max (v_turn_index v) 1)
               (Some a) has_more pending)).

(** After the answer [a] is in the history and in [new_messages]. *)
Definition continue_turn (v : LoopVars) (a : AssistantMessage) : M W (LoopVars + result AssistantMessage Error) :=
  let tool_calls := extract_tool_calls (a_content a) in
  let pause_turn := bool_decide (a_stop_reason a = PauseTurn) in
  let execute_local_tools := negb pause_turn && negb (bool_decide (length tool_calls = 0%nat)) in
  let pauses := if pause_turn then sat_add usize_max (v_pause_turn_continuations v) 1
                else v_pause_turn_continuations v in
  let has_more := execute_local_tools || (pause_turn && (pauses <=? MAX_PAUSE_TURN_CONTINUATIONS)) in
  tools ← (if execute_local_tools then run_tools v tool_calls
           else mret (Some ([], None), v_iterations v, v_warned v));
  let '(outcome, iterations, warned) := tools in
  match outcome with
  | None => stop_message ← cap_turn (v_turn_index v) a; mret (inr (Ok stop_message))
  | Some (tool_results, steering_after_tools) =>
      close_turn v a tool_results steering_after_tools iterations pauses warned has_more
  end.

Definition turn (v : LoopVars) : M W (LoopVars + result AssistantMessage Error) :=
  lifecycle (TurnStart session_id (v_turn_index v));;
  for_each (v_pending v) (λ message, open_rewind_turn message;; deliver message);;
  aborted ← is_aborted cfg;
  if aborted : bool then
    abort_message ← abort_turn (v_turn_index v); mret (inr (Ok abort_message))
  else
    assistant_result ← stream_assistant_response from_str cfg;
    match assistant_result with
    | Err err => fail_turn (v_turn_index v) err;; mret (inr (Err err))
    | Ok a =>
        push_new (Assistant a);;
        if bool_decide (a_stop_reason a = StopError) || bool_decide (a_stop_reason a = Aborted)
        then stop_turn (v_turn_index v) a;; mret (inr (Ok a))
        else continue_turn v a
    end.

(** ** The loops

    The outer [loop] and the inner [while] as one recursion: a step is a turn
    while there is a reason for one, and otherwise the delivery of follow-ups,
    which starts the inner loop afresh.  [None]: out of fuel. *)
Definition finish (v : LoopVars) : M W (result AssistantMessage Error) :=
  match v_last_assistant v with
  | None => mret (Err (Api (str "Agent completed without assistant message")))
  | Some a => end_agent_event None;; mret (Ok a)
  end.

Definition wants_turn (v : LoopVars) : bool :=
  v_has_more_tool_calls v || negb (bool_decide (length (v_pending v) = 0%nat)).

Fixpoint agent_loop (fuel : nat) (v : LoopVars) : M W (option (result AssistantMessage Error)) :=
  match fuel with
  | O => mret None
  | S fuel' =>
      if wants_turn v then
        out ← turn v;
        match out with
        | inl v' => agent_loop fuel' v'
        | inr r => mret (Some r)
        end
      else
        follow_up ← drain_follow_up_messages cfg;
        match follow_up with
        | [] => Some <$> finish v
        | _ :: _ =>
            agent_loop fuel' (mkLoop (v_iterations v) (v_pause_turn_continuations v) (v_warned v)
              (v_turn_index v) (v_last_assistant v) true follow_up)
        end
  end.

Definition initial_vars (pending : list Message) : LoopVars :=
  mkLoop 0 0 false 0 None true pending.

Definition run_loop_inner (fuel : nat) (prompts : list Message) : M W (option (result AssistantMessage Error)) :=
  set_new (λ _, []);;
  lifecycle (AgentStart session_id);;
  for_each prompts (λ prompt, open_rewind_turn prompt;; deliver prompt);;
  pending ← drain_steering_messages cfg;
  agent_loop fuel (initial_vars pending).

(** The turn is over: tell the parent of a subagent, or the user. *)
Definition end_turn : M W unit :=
  if c_is_subagent cfg then perform OpSubagentStop
  else if negb (c_interactive cfg) then mret tt
  else perform OpNotify.

Definition begin_session : M W unit :=
  messages ← gets s_messages;
  perform (OpBeginSession (if bool_decide (length messages = 0%nat) then str "startup" else str "resume")).

Definition run_loop (fuel : nat) (prompts : list Message) : M W (option (result AssistantMessage Error)) :=
  set_recent (λ _, []);;
  begin_session;;
  r ← run_loop_inner fuel prompts;
  (match r with
   | Some (Ok message) =>
       if bool_decide (a_stop_reason message = Aborted) then
         if c_is_subagent cfg then perform OpSubagentStop else perform OpInterrupt
       else end_turn
   | Some (Err _) => mret tt
   | None => mret tt
   end);;
  mret r.
End Loop.
