(* ===== verification/AgentGuard.v ===== *)
(** * No tool runs unless cleared: the whole run

    Lifts the mediation of single calls ([AgentSafety.v]) to [run_loop], and
    composes it with the permission policy.  Ends with a small concrete world
    in which the hypotheses of the theorems about runs can be met. *)

From S2P Require Import Prelude Text Json ToolPolicy Messages MessageQueue ToolResults ToolBatches PartialJson AgentEnv AgentTools AgentSafety AgentStream AgentLoop.

(** ** Invariants of the log through the whole agent

    [I] holds of every operation outside tool batches, and of batches. *)
Section WholeRun.
Context {W : Type} `{Env W} `{Fingerprints} (from_str : Str → option Json) (cfg : AgentConfig).
Context (I : MessageQueue → list Obs → W → Prop).

(** Operations other than tool runs and fetches, batches, and the delivery of
    queued messages and of the handoff warning. *)
Definition plain_op (op : Op) : Prop :=
  match op with OpExecuteTool _ | OpFetchSteering _ | OpFetchFollowUp _ => False | _ => True end.
Hypothesis I_op : ∀ op, plain_op op → op_keeps I op.
Hypothesis I_batch : ∀ batch, keeps I (execute_tool_batch cfg batch).
Hypothesis I_steering : keeps I (drain_steering_messages cfg).
Hypothesis I_follow_up : keeps I (drain_follow_up_messages cfg).

Ltac keeps_outside := keeps_walk; try (apply I_op; exact Logic.I).

Lemma keeps_is_aborted : keeps I (is_aborted cfg).
Proof. unfold is_aborted. keeps_outside. Qed.

Lemma keeps_answer_one c r steering : keeps I (answer_one cfg c r steering).
Proof.
  unfold answer_one, skip_tool_call, abort_tool_call, announce_result. keeps_outside.
Qed.

Lemma keeps_record_batch calls rs recorded : keeps I (record_batch cfg calls rs recorded).
Proof.
  revert recorded. induction rs as [|[idx [output e]] rs IH]; intros recorded; simpl; keeps_outside; try apply IH.
  all: unfold record_tool_result, announce_result; keeps_outside.
Qed.

Lemma keeps_execute_tool_calls calls : keeps I (execute_tool_calls cfg calls).
Proof.
  unfold execute_tool_calls. keeps_outside.
  - generalize (replicate (length calls) (@None ToolResultMessage)).
    generalize (plan_tool_effect_batches ((λ c, policy_effects cfg (tc_name c)) <$> calls)).
    intros bs. induction bs as [|b bs IH]; intros recorded; simpl; unfold is_aborted; keeps_outside;
      first [apply I_steering|apply I_batch|apply keeps_record_batch|apply IH].
  - rename a0 into st. generalize st.2. generalize st.1. clear st a.
    induction calls as [|c calls IH]; intros recorded steering; simpl; keeps_outside;
      first [apply I_steering|apply keeps_is_aborted|apply keeps_answer_one|apply IH].
Qed.

Lemma keeps_stream : keeps I (stream_assistant_response from_str cfg).
Proof.
  assert (∀ m b, keeps I (finalize_assistant_message m b)) as Hfin.
  { intros m b. unfold finalize_assistant_message. keeps_outside. }
  assert (∀ l edit ev, keeps I (edit_partial cfg l edit ev)) as Hedit.
  { intros l edit ev. unfold edit_partial, seed_partial_message_if_missing, show_partial. keeps_outside. }
  assert (∀ l, keeps I (abort_stream cfg l)) as Habort.
  { intros l. unfold abort_stream, current_partial. keeps_outside; apply Hfin. }
  unfold stream_assistant_response. keeps_outside. generalize (mkLocals false false ∅ false).
  induction a1 as [|poll polls IH]; intros l; simpl.
  { unfold end_of_stream, current_partial. keeps_outside. apply Hfin. }
  destruct poll as [| |[event|err]]; keeps_outside; try apply Habort; try apply IH.
  - destruct event; simpl; keeps_outside; try apply Hedit; try apply Hfin.
    unfold on_start, update_partial_message, show_partial. keeps_outside.
  - unfold current_partial. keeps_outside.
  - apply Hfin.
Qed.

Lemma keeps_lifecycle e : keeps I (lifecycle cfg e).
Proof. unfold lifecycle, dispatch_extension_lifecycle_event. keeps_outside. Qed.

Lemma keeps_deliver_steering : keeps I (deliver_steering cfg).
Proof. unfold deliver_steering, deliver. keeps_outside. apply I_steering. Qed.

(** The only other queue update: the handoff warning. *)
Hypothesis I_warn : ∀ q l w iterations,
  I q l w → I (push_steering q (handoff_warning cfg iterations)).1 l w.

Lemma keeps_turn v : keeps I (turn from_str cfg v).
Proof.
  unfold turn, continue_turn, close_turn, run_tools, abort_turn, fail_turn, stop_turn, cap_turn, end_turn_event,
    end_agent_event, deliver_answer, deliver, open_rewind_turn, is_aborted. keeps_outside;
    first [apply keeps_lifecycle|apply keeps_stream|apply keeps_deliver_steering
          |apply keeps_execute_tool_calls|apply I_steering|intros ???; apply I_warn].
Qed.

Lemma keeps_run_loop fuel prompts : keeps I (run_loop from_str cfg fuel prompts).
Proof.
  unfold run_loop, begin_session, run_loop_inner, open_rewind_turn, deliver, end_turn. keeps_outside;
    try apply keeps_lifecycle; try apply I_steering.
  match goal with |- keeps _ (agent_loop _ _ _ ?v) => generalize v end.
  induction fuel as [|fuel IH]; intros v; simpl; keeps_outside;
    first [apply keeps_turn|apply IH|apply I_follow_up|idtac].
  unfold finish, end_agent_event. keeps_outside; apply keeps_lifecycle.
Qed.
End WholeRun.

(** ** Claims about a run *)

Section Claims.
Context {W : Type} `{Env W} `{Fingerprints} (from_str : Str → option Json) (cfg : AgentConfig).

(** Every response in the log was given by the world. *)
Definition from_world (l : list Obs) : Prop :=
  ∀ o, o ∈ l → ∃ w w', handle (ob_op o) w = (ob_resp o, w').

Lemma from_world_keeps op : op_keeps (λ _ l (_ : W), from_world l) op.
Proof.
  intros q l w r w' Hh Hl o [Ho|Ho]%elem_of_app; [by apply Hl|].
  apply list_elem_of_singleton in Ho as ->. by exists w, w'.
Qed.

(** Fetching and queueing keep what is about the log only. *)
Lemma keeps_drain_log (J : list Obs → Prop) :
  (∀ op, (∀ c, op ≠ OpExecuteTool c) → op_keeps (λ _ l (_ : W), J l) op) →
  keeps (λ _ l (_ : W), J l) (drain_steering_messages cfg) ∧
  keeps (λ _ l (_ : W), J l) (drain_follow_up_messages cfg).
Proof.
  intros HJ. unfold drain_steering_messages, drain_follow_up_messages.
  split; keeps_walk; try (by intros ? ? ?); apply HJ; discriminate.
Qed.

Lemma run_loop_keeps_log (J : list Obs → Prop) fuel prompts s :
  (∀ op, (∀ c, op ≠ OpExecuteTool c) → op_keeps (λ _ l (_ : W), J l) op) →
  (∀ batch, keeps (λ _ l (_ : W), J l) (execute_tool_batch cfg batch)) →
  J (s_log s) → J (s_log (run_loop from_str cfg fuel prompts s).2).
Proof.
  intros Hop Hb. destruct (keeps_drain_log J Hop) as [Hs Hf].
  apply (keeps_run_loop from_str cfg (λ _ l (_ : W), J l)); try done.
  intros op Hplain. apply Hop. by intros c ->.
Qed.

Lemma run_loop_log_ok fuel prompts s :
  s_log s = [] → log_ok cfg (s_log (run_loop from_str cfg fuel prompts s).2).
Proof.
  intros Hl. apply run_loop_keeps_log.
  - intros op Hop. apply harmless_ok. intros l. destruct op; try done. by destruct (Hop c).
  - intros batch. apply execute_tool_batch_ok.
  - rw Hl. intros pre o post Heq. by destruct pre.
Qed.

Lemma run_loop_from_world fuel prompts s :
  s_log s = [] → from_world (s_log (run_loop from_str cfg fuel prompts s).2).
Proof.
  intros Hl. apply run_loop_keeps_log.
  - intros op _. apply from_world_keeps.
  - intros batch. unfold execute_tool_batch. keeps_walk; try apply from_world_keeps.
    + apply keeps_run_pool, from_world_keeps.
    + apply keeps_drain_pool, from_world_keeps.
  - rw Hl. intros o Ho. by apply not_elem_of_nil in Ho.
Qed.

(** C1: complete mediation.  Whatever the world does and however the calls
    of a batch interleave, a tool runs only after the log of the run shows what
    the agent was configured to require for that call: with a permission
    policy, a read of it made for that call whose decision is to allow, or to
    ask with an approval of that call; without a policy but with an approval
    handler, an approval of that call; with shell hooks, a hook for that call
    that allowed it; with extensions, an answer for that call that does not
    block it, or a failure where hooks do not fail closed; and always a
    registered tool of that name.  An agent without policy, handler and hooks
    runs every registered tool. *)
Theorem every_tool_run_was_cleared fuel prompts s pre c r post :
  s_log s = [] →
  s_log (run_loop from_str cfg fuel prompts s).2 = pre ++ mkObs (OpExecuteTool c) r :: post →
  cleared cfg pre c.
Proof. intros Hl Heq. by apply (run_loop_log_ok fuel prompts s Hl) in Heq. Qed.

(** C3: a call refused by the deny rules of every policy the world holds
    never runs, in any run: the user may change the mode, add session rules
    or approve everything. *)
Theorem denied_call_never_runs c fuel prompts s r :
  c_tool_policy cfg = true →
  (∀ w p w', handle (OpReadPolicy c) w = (p, w') →
     rule_applies (p_deny p) (tc_name c) (tc_arguments c) true) →
  s_log s = [] →
  mkObs (OpExecuteTool c) r ∉ s_log (run_loop from_str cfg fuel prompts s).2.
Proof.
  intros Hpol Hdeny Hl Hin. apply list_elem_of_split in Hin as (pre & post & Heq).
  pose proof (run_loop_log_ok fuel prompts s Hl _ _ _ Heq) as (Hclear & _).
  destruct (Hclear Hpol) as (p & Hp & Hd).
  destruct (run_loop_from_world fuel prompts s Hl (mkObs (OpReadPolicy c) p)) as (w & w' & Hh).
  { rw Heq. apply elem_of_app. by left. }
  specialize (Hdeny w p w' Hh). unfold decision_on in Hd.
  destruct (decide_call_cases p (tc_name c) (policy_effects cfg (tc_name c)) (tc_arguments c))
    as [(rule & _ & _ & He)|[Hn _]]; [|by destruct Hn].
  rw He in Hd. destruct Hd as [?|[? _]]; done.
Qed.
End Claims.

(** ** A concrete world

    A script of provider streams and of queued messages; tools succeed at
    once, hooks and approvals allow. *)
Record Script := mkScript {
  w_streams : list (result (list StreamPoll) Error);
  w_steering : list (list Str);
  w_follow_up : list (list Str);
  w_policy : ToolPolicy;
  w_aborted : bool;
}.

Definition pop_script {A} (d : A) (l : list A) : A * list A :=
  match l with x :: l' => (x, l') | [] => (d, []) end.

Definition user_text (text : Str) : Message := User (mkUser (UserText text)).

#[global] Instance script_env : Env Script := λ op w,
  match op return Resp op * Script with
  | OpStream _ =>
      let '(r, rest) := pop_script (Err (ErrProvider (str "provider") (str "offline"))) (w_streams w) in
      (r, mkScript rest (w_steering w) (w_follow_up w) (w_policy w) (w_aborted w))
  | OpFetchSteering _ =>
      let '(r, rest) := pop_script [] (w_steering w) in
      (user_text <$> r, mkScript (w_streams w) rest (w_follow_up w) (w_policy w) (w_aborted w))
  | OpFetchFollowUp _ =>
      let '(r, rest) := pop_script [] (w_follow_up w) in
      (user_text <$> r, mkScript (w_streams w) (w_steering w) rest (w_policy w) (w_aborted w))
  | OpReadPolicy _ => (w_policy w, w)
  | OpIsAborted => (w_aborted w, w)
  | OpContext _ => (None, w)
  | OpApprove _ => (ApprovalAllow, w)
  | OpPreToolUse _ => (HookAllow, w)
  | OpPostToolUse _ _ _ => (HookAllow, w)
  | OpDispatchToolCall _ => (Ok None, w)
  | OpDispatchToolResult _ _ _ => (Ok None, w)
  | OpExecuteTool _ => (([], Ok (mkOutput [text_block (str "done")] None false)), w)
  | OpSchedule _ => (([1; 0; 0]%nat, w_aborted w), w)
  | _ => (tt, w)
  end.

#[global] Instance sample_fingerprints : Fingerprints :=
  {| hasher := λ l, Z.of_nat (length l); json_to_string := λ _, [] |}.

Definition sample_config : AgentConfig :=
  mkConfig 50 None false false true true (str "api") (str "provider") (str "model")
    [(str "bash", effects_process); (str "read", effects_read)] false true 1 1 200000 8 true false true.

Definition sample_call (id name command : Str) : ToolCall :=
  mkToolCall id name (JsonObject [(str "command", JsonString command)]) None.

Definition sample_answer (stop : StopReason) (calls : list ToolCall) : AssistantMessage :=
  mkAssistant (text_block (str "ok") :: (ToolCallBlock <$> calls)) (str "api") (str "provider") (str "model")
    Usage_default stop None None.

Definition sample_stream (stop : StopReason) (calls : list ToolCall) : result (list StreamPoll) Error :=
  Ok [PollItem (Ok (SDone stop (sample_answer stop calls)))].

Definition sample_state (streams : list (result (list StreamPoll) Error)) (steering follow_up : list (list Str))
    (policy : ToolPolicy) : St Script :=
  mkSt [] [] (MessageQueue_new OneAtATime OneAtATime) [] []
    (mkScript streams steering follow_up policy false).

Definition sample_prompt : Message := user_text (str "hello").

(** A run with two tool calls in one answer, then a closing answer. *)
Definition sample_calls : list ToolCall :=
  [sample_call (str "1") (str "read") (str "x"); sample_call (str "2") (str "read") (str "y")].

Definition sample_run : option (result AssistantMessage Error) * St Script :=
  run_loop (λ _, None) sample_config 10 [sample_prompt]
    (sample_state [sample_stream ToolUse sample_calls; sample_stream Stop []] [] []
       (mkToolPolicy Default [] [] [])).

(** The first tool run of a log, with what precedes it. *)
Fixpoint first_tool_run (pre l : list Obs) : option (list Obs * Obs * list Obs) :=
  match l with
  | [] => None
  | o :: l' => match ob_op o with OpExecuteTool _ => Some (pre, o, l') | _ => first_tool_run (pre ++ [o]) l' end
  end.

Definition sample_split : list Obs * Obs * list Obs :=
  match first_tool_run [] (s_log sample_run.2) with Some x => x | None => ([], mkObs OpInterrupt tt, []) end.

Lemma every_tool_run_was_cleared_witness :
  ∃ c, ob_op sample_split.1.2 = OpExecuteTool c ∧ cleared sample_config sample_split.1.1 c.
Proof.
  exists (sample_call (str "1") (str "read") (str "x")). split; [vm_compute; reflexivity|].
  apply (every_tool_run_was_cleared (λ _, None) sample_config 10 [sample_prompt]
    (sample_state [sample_stream ToolUse sample_calls; sample_stream Stop []] [] []
       (mkToolPolicy Default [] [] [])) sample_split.1.1 _ ([], Ok (mkOutput [text_block (str "done")] None false))
    sample_split.2); [reflexivity|vm_compute; reflexivity].
Defined.

(** A deny rule on [rm], with everything else allowed. *)
Definition deny_rm : ToolPolicy :=
  match from_config (Some (mkPermissionsConfig (Some AcceptEdits) (Some [str "Bash(rm:*)"])
          (Some [str "Bash"]) None)) with
  | Ok p => p
  | Err _ => ToolPolicy_default
  end.

(** The world's policy is the script's, which no operation changes; the
    theorem is about every world, so the script's policy is fixed first. *)
Definition deny_rm_env : Env Script := λ op w,
  match op return Resp op * Script with
  | OpReadPolicy _ => (deny_rm, w)
  | op => @handle Script script_env op w
  end.

Definition rm_call : ToolCall := sample_call (str "1") (str "bash") (str "rm -rf /").

Lemma denied_call_never_runs_witness :
  mkObs (OpExecuteTool rm_call) ([], Ok (mkOutput [text_block (str "done")] None false)) ∉
    s_log (@run_loop Script deny_rm_env _ (λ _, None) sample_config 10 [sample_prompt]
      (sample_state [sample_stream ToolUse [rm_call]; sample_stream Stop []] [] [] deny_rm)).2.
Proof.
  apply (@denied_call_never_runs Script deny_rm_env _ (λ _, None) sample_config rm_call);
    [reflexivity| |reflexivity].
  intros w p w' [= <- _]. eexists. split; [left|vm_compute; reflexivity].
Defined.

(** A stream cut at the length limit after a tool call began. *)
Definition cut_answer : AssistantMessage := sample_answer Length [].

Lemma truncated_call_is_an_error_witness :
  (stream_loop (λ _, None) sample_config
     ([PollItem (Ok (SStart cut_answer)); PollItem (Ok (SToolCallStart 1 (str "1") (str "bash")))]
      ++ [PollItem (Ok (SDone Length cut_answer))])
     (mkLocals false false ∅ false) (sample_state [] [] [] (mkToolPolicy Default [] [] []))).1 =
  Ok (with_stop cut_answer StopError (Some TRUNCATED_TOOL_CALL_ERROR)).
Proof.
  apply (truncated_call_is_an_error (λ _, None) sample_config
    [SStart cut_answer; SToolCallStart 1 (str "1") (str "bash")] Length cut_answer []).
  repeat constructor.
Defined.
