(* ===== verification/AgentTranscript.v ===== *)
(** * What a run leaves behind: transcript and events

    The events of a run follow a protocol ([proto], a state machine), every
    tool call is answered exactly once and in order, and the history grows by
    exactly the messages reported at the end. *)

From S2P Require Import Prelude Text Json ToolPolicy Messages MessageQueue ToolResults ToolBatches AgentEnv AgentTools AgentSafety AgentStream AgentLoop AgentGuard.

(** ** The event protocol *)

Inductive PState :=
| PIdle
| PAgent (next_turn : Z)
| PTurn (turn : Z)
| PMessage (in_turn : bool) (n : Z) (started : Message)
| PDone.

Definition is_tool_event (e : AgentEvent) : Prop :=
  match e with
  | ToolExecutionStart _ _ _ | ToolExecutionUpdate _ _ _ _ | ToolExecutionEnd _ _ _ _ => True
  | _ => False
  end.

(** A message ends as it started, except that an assistant message is built
    up in between. *)
Definition ends_as (started ended : Message) : Prop :=
  started = ended ∨ (is_assistant started = true ∧ is_assistant ended = true).

Definition back_to (in_turn : bool) (n : Z) : PState := if in_turn then PTurn n else PAgent n.

Inductive proto : PState → AgentEvent → PState → Prop :=
| proto_agent_start sid : proto PIdle (AgentStart sid) (PAgent 0)
| proto_turn_start n sid : proto (PAgent n) (TurnStart sid n) (PTurn n)
| proto_turn_end n sid m rs :
    proto (PTurn n) (TurnEnd sid n m rs) (PAgent (sat_add usize_max n 1))
| proto_agent_end n sid ms err : proto (PAgent n) (AgentEnd sid ms err) PDone
| proto_message_start b n m : proto (back_to b n) (MessageStart m) (PMessage b n m)
| proto_message_update b n m m' ev :
    is_assistant m = true → is_assistant m' = true →
    proto (PMessage b n m) (MessageUpdate m' ev) (PMessage b n m)
| proto_message_end b n m m' : ends_as m m' → proto (PMessage b n m) (MessageEnd m') (back_to b n)
| proto_tool n e : is_tool_event e → proto (PTurn n) e (PTurn n).

Inductive protos : PState → list AgentEvent → PState → Prop :=
| protos_nil q : protos q [] q
| protos_cons q e q' es q'' : proto q e q' → protos q' es q'' → protos q (e :: es) q''.

Lemma protos_app q es q' es' q'' : protos q es q' → protos q' es' q'' → protos q (es ++ es') q''.
Proof. induction 1; simpl; [done|]. intros. econstructor; eauto. Qed.

Lemma protos_one q e q' : proto q e q' → protos q [e] q'.
Proof. intros. econstructor; [done|constructor]. Qed.

Lemma protos_tool n es : Forall is_tool_event es → protos (PTurn n) es (PTurn n).
Proof. induction 1; [constructor|]. econstructor; [by apply proto_tool|done]. Qed.

(** The announcement of one message. *)
Lemma protos_message b n m : protos (back_to b n) [MessageStart m; MessageEnd m] (back_to b n).
Proof. econstructor; [apply proto_message_start|]. apply protos_one, proto_message_end. by left. Qed.

Lemma protos_stream n a us m :
  Forall is_update us →
  protos (PTurn n) (MessageStart (Assistant a) :: us ++ [MessageEnd (Assistant m)]) (PTurn n).
Proof.
  intros Hu. econstructor; [apply (proto_message_start true)|].
  induction Hu as [|e us He _ IH]; simpl.
  - apply protos_one, (proto_message_end true). by right.
  - econstructor; [|apply IH]. destruct e as [| | | | |m' ev| | | |]; try done. destruct m'; try done.
    by constructor.
Qed.

(** ** Answers *)

Definition answers (c : ToolCall) (r : ToolResultMessage) : Prop :=
  tr_tool_call_id r = tc_id c ∧ tr_tool_name r = tc_name c.

Definition runs_its_calls (a : AssistantMessage) : Prop :=
  a_stop_reason a ≠ StopError ∧ a_stop_reason a ≠ Aborted ∧ a_stop_reason a ≠ PauseTurn.

(** A message from outside. *)
Definition is_input (m : Message) : Prop :=
  match m with User _ | Custom _ => True | _ => False end.

(** What follows an assistant message of a transcript: the answers to its
    calls when it runs them, and otherwise nothing. *)
Inductive transcript : list Message → Prop :=
| transcript_nil : transcript []
| transcript_input l m : transcript l → is_input m → transcript (l ++ [m])
| transcript_silent l a :
    transcript l → ¬ runs_its_calls a ∨ extract_tool_calls (a_content a) = [] →
    transcript (l ++ [Assistant a])
| transcript_calls l a rs :
    transcript l → runs_its_calls a →
    Forall2 answers (extract_tool_calls (a_content a)) rs →
    transcript (l ++ Assistant a :: (ToolResult <$> rs)).

(** ** What a part of the agent adds *)

Section Extends.
Context {W : Type} `{Env W}.

(** The history and the list of new messages grow by [ms], the events by
    [es]. *)
Definition extends (s s' : St W) (ms : list Message) (es : list AgentEvent) : Prop :=
  s_messages s' = s_messages s ++ ms ∧ s_new s' = s_new s ++ ms ∧ emitted s s' es.

Lemma extends_refl s : extends s s [] [].
Proof. unfold extends, emitted. by rw !app_nil_r. Qed.

Lemma extends_trans s1 s2 s3 ms1 ms2 es1 es2 :
  extends s1 s2 ms1 es1 → extends s2 s3 ms2 es2 → extends s1 s3 (ms1 ++ ms2) (es1 ++ es2).
Proof.
  unfold extends, emitted. intros (-> & -> & ->) (-> & -> & ->). by rw !app_assoc.
Qed.

(** Operations other than events. *)
Lemma perform_extends op s : (∀ e, op ≠ OpEmit e) → extends s (perform op s).2 [] [].
Proof.
  intros Hop. destruct (perform_silent op s Hop) as ((Hn & _ & _) & Hm & He).
  unfold extends. by rw Hm Hn !app_nil_r.
Qed.

Lemma emit_extends e s : extends s (after_emit e s) [] [e].
Proof. unfold extends, emitted. m_fields. by rw !app_nil_r. Qed.

(** [adds m R]: whatever the state, [m] extends it by messages and events
    related by [R] to its result. *)
Definition adds {A} (m : M W A) (R : A → list Message → list AgentEvent → Prop) : Prop :=
  ∀ s, ∃ ms es, extends s (m s).2 ms es ∧ R (m s).1 ms es.

Lemma adds_ret {A} (a : A) (R : A → list Message → list AgentEvent → Prop) : R a [] [] → adds (mret a) R.
Proof. intros HR s. exists [], []. split; [apply extends_refl|done]. Qed.

Lemma adds_bind {A B} (m : M W A) (k : A → M W B) R S :
  adds m R → (∀ a ms es, R a ms es → adds (k a) (λ b ms' es', S b (ms ++ ms') (es ++ es'))) →
  adds (m ≫= k) S.
Proof.
  intros Hm Hk s. destruct (Hm s) as (ms & es & Hx & HR). unfold mbind, M_bind.
  destruct (m s) as [a s1]. simpl in *. destruct (Hk a ms es HR s1) as (ms' & es' & Hx' & HS).
  exists (ms ++ ms'), (es ++ es'). split; [by eapply extends_trans|done].
Qed.

Lemma adds_fmap {A B} (f : A → B) (m : M W A) R : adds m (λ a, R (f a)) → adds (f <$> m) R.
Proof.
  intros Hm s. destruct (Hm s) as (ms & es & Hx & HR). unfold fmap, M_fmap.
  destruct (m s) as [a s1]. by exists ms, es.
Qed.

Lemma adds_post {A} (m : M W A) R S : adds m R → (∀ a ms es, R a ms es → S a ms es) → adds m S.
Proof. intros Hm HS s. destruct (Hm s) as (ms & es & Hx & HR). exists ms, es. auto. Qed.

Lemma adds_perform op (R : Resp op → list Message → list AgentEvent → Prop) :
  (∀ e, op ≠ OpEmit e) → (∀ r, R r [] []) → adds (perform op) R.
Proof. intros Hop HR s. exists [], []. split; [by apply perform_extends|done]. Qed.

Lemma adds_emit e (R : unit → list Message → list AgentEvent → Prop) : R tt [] [e] → adds (emit e) R.
Proof. intros HR s. exists [], [e]. rw emit_eq. split; [apply emit_extends|done]. Qed.

Lemma adds_gets {A} (f : St W → A) (R : A → list Message → list AgentEvent → Prop) :
  (∀ a, R a [] []) → adds (gets f) R.
Proof. intros HR s. exists [], []. split; [apply extends_refl|done]. Qed.

Lemma adds_set_queue f (R : unit → list Message → list AgentEvent → Prop) : R tt [] [] → adds (set_queue f) R.
Proof. intros HR s. exists [], []. unfold extends, emitted. simpl. by rw !app_nil_r. Qed.
Lemma adds_set_recent f (R : unit → list Message → list AgentEvent → Prop) : R tt [] [] → adds (set_recent f) R.
Proof. intros HR s. exists [], []. unfold extends, emitted. simpl. by rw !app_nil_r. Qed.

Lemma adds_for_each {A} (l : list A) (body : A → M W unit) (f : A → list Message) (g : A → list AgentEvent) :
  (∀ x, adds (body x) (λ _ ms es, ms = f x ∧ es = g x)) →
  adds (for_each l body) (λ _ ms es, ms = concat (f <$> l) ∧ es = concat (g <$> l)).
Proof.
  intros Hb. induction l as [|x l IH]; simpl; [by apply adds_ret|].
  eapply adds_bind; [apply Hb|]. intros [] ms es [-> ->]. eapply adds_post; [apply IH|].
  by intros [] ms' es' [-> ->].
Qed.

(** Programs of tool calls emit events only. *)
Fixpoint tool_events_only {A} (p : Prog A) : Prop :=
  match p with
  | PRet _ => True
  | PVis op k => match op with OpEmit e => is_tool_event e | _ => True end ∧ ∀ r, tool_events_only (k r)
  end.

Definition quiet {A} (_ : A) (ms : list Message) (es : list AgentEvent) : Prop :=
  ms = [] ∧ Forall is_tool_event es.

Lemma quiet_app {A} (a : A) ms1 es1 ms2 es2 :
  quiet tt ms1 es1 → quiet a ms2 es2 → quiet a (ms1 ++ ms2) (es1 ++ es2).
Proof. intros [-> H1] [-> H2]. split; [done|]. apply Forall_app. done. Qed.

Lemma adds_quiet_bind {A B} (m : M W A) (k : A → M W B) :
  adds m quiet → (∀ a, adds (k a) quiet) → adds (m ≫= k) quiet.
Proof.
  intros Hm Hk. eapply adds_bind; [apply Hm|]. intros a ms es Hq. eapply adds_post; [apply Hk|].
  intros b ms' es' Hq'. by apply quiet_app.
Qed.

Lemma adds_quiet_perform op :
  match op with OpEmit e => is_tool_event e | _ => True end → adds (perform op) quiet.
Proof.
  intros Hop. destruct op as [e| | | | | | | | | | | | | | | | | | |];
    try (apply adds_perform; [done|split; [done|constructor]]).
  apply (adds_emit e). split; [done|by repeat constructor].
Qed.

Lemma adds_run_prog {A} (p : Prog A) : tool_events_only p → adds (run_prog p) quiet.
Proof.
  induction p as [a|op k IH]; simpl; [intros; by apply adds_ret|]. intros [Hop Hk].
  apply adds_quiet_bind; [by apply adds_quiet_perform|]. intros r. apply IH, Hk.
Qed.
End Extends.

(** ** Batches *)

Lemma tool_events_bind {A B} (p : Prog A) (k : A → Prog B) :
  tool_events_only p → (∀ a, tool_events_only (k a)) → tool_events_only (p ≫= k).
Proof.
  induction p as [a|op f IH]; simpl; [intros _ Hk; apply Hk|]. intros [Hop Hf] Hk.
  split; [done|]. intros r. by apply IH.
Qed.

Lemma tool_events_updates c us : tool_events_only (emit_updates c us).
Proof. induction us as [|u us IH]; [done|]. by split. Qed.

Lemma ask_approval_events cfg c : tool_events_only (ask_approval cfg c).
Proof.
  unfold ask_approval. destruct (negb _); [done|]. split; [done|]. intros [|reason]; [by split|done].
Qed.

Lemma execute_tool_events `{Fingerprints} cfg ring c : tool_events_only (execute_tool cfg ring c).
Proof.
  unfold execute_tool. apply tool_events_bind.
  - unfold guarded_run. apply tool_events_bind.
    + unfold request_tool_approval. destruct (doom_loop_denial ring c); [done|].
      destruct (c_tool_policy cfg); [|apply ask_approval_events]. split; [done|]. intros p. simpl.
      destruct (decide_call p _ _ _); [by split|done|]. destruct (negb _); [done|apply ask_approval_events].
    + intros [o|]; [done|]. apply tool_events_bind.
      { unfold run_pre_tool_use_hook. destruct (c_shell_hooks cfg); simpl; [|done]. split; [done|]. by intros []. }
      intros [o|]; [done|]. apply tool_events_bind.
      { destruct (c_extensions cfg); simpl; [|done]. split; [done|]. by intros [[?|]|?]. }
      intros [o|]; [done|]. apply tool_events_bind; [|done]. unfold execute_tool_without_hooks.
      destruct (tools_get cfg (tc_name c)); [|done]. split; [done|]. intros r. simpl.
      apply tool_events_bind; [apply tool_events_updates|]. intros []. by destruct r.2.
  - intros [[output e] ran]. apply tool_events_bind.
    { destruct (c_extensions cfg); simpl; [|done]. split; [done|]. by intros [[?|]|?]. }
    intros output'. destruct ran; [|done]. unfold run_post_tool_use_hook.
    destruct (c_shell_hooks cfg); simpl; [|done]. split; [done|]. by intros [].
Qed.

Section Batches.
Context {W : Type} `{Env W} `{Fingerprints} (cfg : AgentConfig).

Definition pool_indices {A} (pool : list (Task A)) (finished : list (nat * A)) : list nat :=
  pool.*1 ++ finished.*1.

(** A poll loses no call and finishes none twice. *)
Definition pool_step {A} (pool : list (Task A)) (finished : list (nat * A))
    (st : list (Task A) * list (nat * A)) (ms : list Message) (es : list AgentEvent) : Prop :=
  quiet tt ms es ∧ Permutation (pool_indices st.1 st.2) (pool_indices pool finished) ∧
  Forall (λ t : Task A, tool_events_only t.2) st.1.

Lemma adds_poll_task {A} i (pool : list (Task A)) finished :
  Forall (λ t : Task A, tool_events_only t.2) pool →
  adds (W:=W) (poll_task i pool finished) (pool_step pool finished).
Proof.
  intros Hp. unfold poll_task. destruct (pool !! i) as [[idx [a|op k]]|] eqn:E.
  - pose proof (delete_Permutation _ _ _ E) as E'. apply adds_ret. split; [split; [done|constructor]|]. split; [|by apply Forall_delete].
    unfold pool_indices. simpl. rw fmap_app app_assoc. etransitivity; [apply Permutation_app_comm|].
    apply (fmap_Permutation fst) in E' as ->. done.
  - pose proof (Forall_lookup_1 _ _ _ _ Hp E) as [Hop Hk]. simpl in *.
    eapply adds_bind; [by apply adds_quiet_perform|]. intros r ms es Hq. apply adds_ret.
    unfold pool_step. rw !app_nil_r. split; [exact Hq|]. split.
    + unfold pool_indices. simpl. rw list_fmap_insert list_insert_id //. by rw list_lookup_fmap E.
    + apply Forall_insert; [done|apply Hk].
  - apply adds_ret. split; [split; [done|constructor]|]. done.
Qed.

Lemma adds_run_pool {A} n schedule (pool : list (Task A)) finished :
  Forall (λ t : Task A, tool_events_only t.2) pool →
  adds (W:=W) (run_pool n schedule pool finished) (pool_step pool finished).
Proof.
  revert pool finished. induction schedule as [|c l IH]; intros pool finished Hp; simpl.
  - apply adds_ret. split; [split; [done|constructor]|]. done.
  - eapply adds_bind; [by apply adds_poll_task|]. intros st ms es (Hq & HP & Hf).
    eapply adds_post; [by apply IH|]. intros st' ms' es' (Hq' & HP' & Hf').
    split_and!; [by apply quiet_app| |done]. etransitivity; [exact HP'|exact HP].
Qed.

Lemma adds_drain_pool {A} (pool : list (Task A)) :
  Forall (λ t : Task A, tool_events_only t.2) pool →
  adds (W:=W) (drain_pool pool) (λ rs ms es, quiet tt ms es ∧ rs.*1 = pool.*1).
Proof.
  induction pool as [|[idx p] pool IH]; intros Hp; simpl; [by apply adds_ret; split; [split; [|constructor]|]|].
  apply Forall_cons in Hp as [Hp Hpool]. eapply adds_bind; [by apply adds_run_prog|]. intros a ms es Hq.
  eapply adds_bind; [by apply IH|]. intros rest ms' es' [Hq' Hr]. apply adds_ret. rw !app_nil_r.
  split; [by apply (quiet_app tt)|]. cbn. f_equal. exact Hr.
Qed.

(** A batch yields one outcome per call, or none at all. *)
Lemma adds_execute_tool_batch batch :
  adds (W:=W) (execute_tool_batch cfg batch)
    (λ rs ms es, quiet tt ms es ∧ (rs = [] ∨ Permutation rs.*1 batch.*1)).
Proof.
  unfold execute_tool_batch. eapply adds_bind; [apply (adds_gets _ quiet); by split; [|constructor]|].
  intros ring ms0 es0 Hq0. eapply adds_bind; [by apply (adds_quiet_perform (OpSchedule _))|].
  intros schedule ms1 es1 Hq1. eapply adds_bind; [apply adds_run_pool|].
  { apply Forall_fmap, Forall_forall. intros t _. apply execute_tool_events. }
  intros st ms2 es2 (Hq2 & HP & Hf). destruct (_ && _ && _).
  - apply adds_ret. rw !app_nil_r. split; [|by left]. repeat apply (quiet_app tt); done.
  - eapply adds_bind; [by apply adds_drain_pool|]. intros rest ms3 es3 [Hq3 Hr]. apply adds_ret. rw !app_nil_r.
    split; [repeat apply (quiet_app tt); done|]. right.
    rw fmap_app Hr. unfold pool_indices in HP. rw Permutation_app_comm. rw HP /= app_nil_r.
    rw -list_fmap_compose. done.
Qed.
End Batches.

(** ** The abort signal

    [AbortSignal] is a flag that is only ever set: once a batch was cut short
    by it, every later look at it sees it set. *)
Class AbortLatch (W : Type) `{Env W} := {
  latched : W → Prop;
  latched_stable op w : latched w → latched (handle op w).2;
  latched_visible w : latched w → (handle OpIsAborted w).1 = true;
  schedule_latches n w : (handle (OpSchedule n) w).1.2 = true → latched (handle (OpSchedule n) w).2;
}.

Section Latch.
Context {W : Type} `{AbortLatch W} `{Fingerprints} (cfg : AgentConfig).

Lemma latched_keeps op : op_keeps (λ _ _ w, latched w) op.
Proof. intros q l w r w' Hh Hl. pose proof (latched_stable op w Hl) as Hw. by rw Hh in Hw. Qed.

Lemma perform_latched op (s : St W) : latched (s_world s) → latched (s_world (perform op s).2).
Proof. apply (keeps_perform _ op (latched_keeps op) s). Qed.

(** A batch without outcomes was aborted. *)
Lemma batch_aborted batch (s : St W) :
  batch ≠ [] → (execute_tool_batch cfg batch s).1 = [] →
  c_abort cfg = true ∧ latched (s_world (execute_tool_batch cfg batch s).2).
Proof.
  intros Hne. unfold execute_tool_batch. rw (bind_eq (gets s_recent) _ s (s_recent s) s) //.
  assert (perform (OpSchedule (length batch)) s =
    ((perform (OpSchedule (length batch)) s).1, (perform (OpSchedule (length batch)) s).2)) as Hsch
    by (by destruct (perform _ s)).
  pose proof (schedule_latches (length batch) (s_world s)) as Hlatch.
  assert ((handle (OpSchedule (length batch)) (s_world s)).1 = (perform (OpSchedule (length batch)) s).1 ∧
          (handle (OpSchedule (length batch)) (s_world s)).2 = s_world (perform (OpSchedule (length batch)) s).2)
    as [Hh1 Hh2] by (unfold perform; by destruct (handle _ _)).
  rw Hh1 Hh2 in Hlatch. rw (bind_eq _ _ _ _ _ Hsch).
  destruct (perform (OpSchedule (length batch)) s) as [schedule s1]. cbn [fst snd] in *.
  set (pool := (λ t, (t.1, execute_tool cfg (s_recent s) t.2)) <$> batch).
  assert (Forall (λ t : Task (ToolOutput * bool), tool_events_only t.2) pool) as Hpool.
  { apply Forall_fmap, Forall_forall. intros t _. apply execute_tool_events. }
  destruct (adds_run_pool (W:=W) (c_parallelism cfg) schedule.1 pool [] Hpool s1)
    as (ms & es & _ & _ & HP & Hf).
  pose proof (keeps_run_pool (λ _ _ w, latched w) latched_keeps (c_parallelism cfg) schedule.1 pool [] s1) as Hk.
  destruct (run_pool (c_parallelism cfg) schedule.1 pool [] s1) as [st s2] eqn:Erun.
  rw (bind_eq _ _ _ _ _ Erun). cbn [fst snd] in *.
  destruct (c_abort cfg && schedule.2 && _) eqn:Ec.
  - intros _. apply andb_true_iff in Ec as [[-> Hs2]%andb_true_iff _]. split; [done|]. by apply Hk, Hlatch.
  - unfold mbind, M_bind. destruct (adds_drain_pool (W:=W) st.1 Hf s2) as (ms' & es' & _ & _ & Hr).
    destruct (drain_pool st.1 s2) as [rest s3]. cbn [fst snd] in *. intros Hnil. exfalso. apply Hne.
    apply app_nil in Hnil as [Hn1 Hn2]. unfold pool_indices in HP. rw Hn1 -Hr Hn2 /= app_nil_r in HP.
    apply Permutation_nil_l in HP. destruct batch; done.
Qed.

Lemma run_batches_latched calls bs recorded (s : St W) :
  c_abort cfg = true → latched (s_world s) →
  (run_batches cfg calls bs recorded s).1 = (recorded, None) ∧
  extends s (run_batches cfg calls bs recorded s).2 [] [].
Proof.
  intros Ha Hl. destruct bs as [|b bs]; [split; [done|apply extends_refl]|]. simpl. unfold is_aborted. rw Ha.
  assert (perform OpIsAborted s = (true, (perform OpIsAborted s).2)) as Hp.
  { pose proof (latched_visible _ Hl) as Hv. unfold perform. destruct (handle OpIsAborted _) as [r w].
    simpl in *. by subst r. }
  rw (bind_eq _ _ _ _ _ Hp). split; [done|]. by apply perform_extends.
Qed.
End Latch.

(** ** Recording the outcomes *)

Section Recording.
Context {W : Type} `{Env W} `{Fingerprints} (cfg : AgentConfig).

(** Events that stay within a turn. *)
Definition in_turn (es : list AgentEvent) : Prop := ∀ n, protos (PTurn n) es (PTurn n).

Lemma in_turn_app es es' : in_turn es → in_turn es' → in_turn (es ++ es').
Proof. intros H1 H2 n. eapply protos_app; [apply H1|apply H2]. Qed.
Lemma in_turn_nil : in_turn [].
Proof. intros n. constructor. Qed.
Lemma in_turn_tool es : Forall is_tool_event es → in_turn es.
Proof. intros Hes n. by apply protos_tool. Qed.
Lemma in_turn_quiet {A} (a : A) ms es : quiet a ms es → in_turn es.
Proof. intros [_ ?]. by apply in_turn_tool. Qed.
Lemma in_turn_message m : in_turn [MessageStart m; MessageEnd m].
Proof. intros n. apply (protos_message true). Qed.

(** One result for one call, announced within the turn. *)
Definition one_answer (c : ToolCall) (r : ToolResultMessage) (ms : list Message) (es : list AgentEvent) : Prop :=
  ms = [ToolResult r] ∧ in_turn es ∧ answers c r.

Ltac one_answer_tac :=
  intros s; eexists [ToolResult _], _; m_run; unfold extends, emitted; m_fields;
  split; [split_and!; [reflexivity..|rw -!app_assoc; reflexivity]|];
  split_and!; [done| |done];
  apply (in_turn_app [_; _]); [apply in_turn_tool; by repeat constructor|apply in_turn_message].

Lemma adds_record_tool_result c output e : adds (W:=W) (record_tool_result cfg c output e) (one_answer c).
Proof. unfold record_tool_result, announce_result. one_answer_tac. Qed.
Lemma adds_skip_tool_call c : adds (W:=W) (skip_tool_call cfg c) (one_answer c).
Proof. unfold skip_tool_call. one_answer_tac. Qed.
Lemma adds_abort_tool_call c : adds (W:=W) (abort_tool_call cfg c) (one_answer c).
Proof. unfold abort_tool_call, announce_result. one_answer_tac. Qed.

(** The table of recorded results: filled up to a point. *)
Definition filled (rs : list ToolResultMessage) (n : nat) : Recorded :=
  (Some <$> rs) ++ replicate (n - length rs) None.

Lemma filled_length rs n : (length rs ≤ n)%nat → length (filled rs n) = n.
Proof. intros. unfold filled. rw length_app length_fmap length_replicate. lia. Qed.

Lemma filled_insert rs n r :
  (length rs < n)%nat → <[length rs := Some r]> (filled rs n) = filled (rs ++ [r]) n.
Proof.
  intros Hn. unfold filled. rw length_app fmap_app insert_app_r_alt; last by rw length_fmap.
  rw length_fmap Nat.sub_diag. destruct (n - length rs)%nat as [|k] eqn:E; [lia|]. simpl.
  replace (n - (length rs + 1))%nat with k by lia. by rw -app_assoc.
Qed.

(** The transcript part of a list of results. *)
Definition answered (calls : list ToolCall) (rs : list ToolResultMessage) (ms : list Message)
    (es : list AgentEvent) : Prop :=
  ms = ToolResult <$> rs ∧ in_turn es ∧ Forall2 answers calls rs.

Lemma answered_nil : answered [] [] [] [].
Proof. split_and!; [done|apply in_turn_nil|constructor]. Qed.

Lemma answered_app c1 r1 m1 e1 c2 r2 m2 e2 :
  answered c1 r1 m1 e1 → answered c2 r2 m2 e2 → answered (c1 ++ c2) (r1 ++ r2) (m1 ++ m2) (e1 ++ e2).
Proof.
  intros (-> & He1 & H1) (-> & He2 & H2). split_and!; [by rw fmap_app|by apply in_turn_app|by apply Forall2_app].
Qed.

Lemma adds_record_batch calls l rs :
  l.*1 = seq (length rs) (length l) → (length rs + length l ≤ length calls)%nat →
  adds (W:=W) (record_batch cfg calls l (filled rs (length calls)))
    (λ recorded ms es, ∃ rs', recorded = filled (rs ++ rs') (length calls) ∧ length rs' = length l ∧
       answered (take (length l) (drop (length rs) calls)) rs' ms es).
Proof.
  revert rs. induction l as [|[idx [output e]] l IH]; intros rs Hidx Hlen; simpl.
  - apply adds_ret. exists []. rw app_nil_r. split_and!; [done|done|apply answered_nil].
  - rw fmap_cons in Hidx. cbn [fst length seq] in Hidx, Hlen. injection Hidx as -> Hidx.
    destruct (lookup_lt_is_Some_2 calls (length rs) ltac:(lia)) as [c Hc].
    destruct (lookup_lt_is_Some_2 (filled rs (length calls)) (length rs)) as [o Ho].
    { rw filled_length; lia. }
    rw Hc Ho. eapply (adds_bind _ _ (λ rec ms es, ∃ r, rec = filled (rs ++ [r]) (length calls) ∧ one_answer c r ms es)).
    + eapply adds_bind; [apply adds_record_tool_result|]. intros r ms es Hr. apply adds_ret. exists r.
      rw filled_insert; [|lia]. rw !app_nil_r. by split.
    + intros rec ms es (r & -> & -> & He & Ha). eapply adds_post; [apply (IH (rs ++ [r]))|].
      { rw length_app Hidx. f_equal. simpl. lia. }
      { rw length_app. simpl. lia. }
      intros rec' ms' es' (rs' & -> & Hl & Hans). exists (r :: rs'). rw -app_assoc. split_and!; [done|simpl; lia|].
      rw (drop_S _ c) //. apply (answered_app [c] [r] [ToolResult r]); [split; [done|]; split; [done|]; by constructor; [|constructor]|].
      replace (S (length rs)) with (length (rs ++ [r])) by (rw length_app; simpl; lia). done.
Qed.
End Recording.

(** ** All the calls of an answer *)

Section Calls.
Context {W : Type} `{AbortLatch W} `{Fingerprints} (cfg : AgentConfig).

(** Nothing is added to the transcript and nothing is shown. *)
Definition silent {A} (_ : A) (ms : list Message) (es : list AgentEvent) : Prop := ms = [] ∧ es = [].

Lemma adds_silent_bind {A B} (m : M W A) (k : A → M W B) R :
  adds m silent → (∀ a, adds (k a) R) → adds (m ≫= k) R.
Proof. intros Hm Hk. eapply adds_bind; [exact Hm|]. intros a ms es [-> ->]. apply Hk. Qed.

Lemma adds_silent_perform op : (∀ e, op ≠ OpEmit e) → adds (perform (W:=W) op) silent.
Proof. intros Hop. by apply adds_perform. Qed.

Lemma adds_silent_for_each {A} (l : list A) (body : A → M W unit) :
  (∀ x, adds (body x) silent) → adds (for_each l body) silent.
Proof.
  intros Hb. induction l as [|x l IH]; simpl; [by apply adds_ret|]. apply adds_silent_bind; [apply Hb|].
  intros []. apply IH.
Qed.

Lemma adds_drain_steering : adds (W:=W) (drain_steering_messages cfg) silent.
Proof.
  unfold drain_steering_messages. apply adds_silent_bind.
  - apply adds_silent_for_each. intros f. apply adds_silent_bind; [by apply (adds_silent_perform (OpFetchSteering f))|].
    intros fetched. apply adds_silent_for_each. intros m. by apply adds_set_queue.
  - intros []. apply adds_silent_bind; [by apply adds_gets|]. intros q.
    apply adds_silent_bind; [by apply adds_set_queue|]. intros []. by apply adds_ret.
Qed.

Lemma adds_drain_follow_up : adds (W:=W) (drain_follow_up_messages cfg) silent.
Proof.
  unfold drain_follow_up_messages. apply adds_silent_bind.
  - apply adds_silent_for_each. intros f. apply adds_silent_bind; [by apply (adds_silent_perform (OpFetchFollowUp f))|].
    intros fetched. apply adds_silent_for_each. intros m. by apply adds_set_queue.
  - intros []. apply adds_silent_bind; [by apply adds_gets|]. intros q.
    apply adds_silent_bind; [by apply adds_set_queue|]. intros []. by apply adds_ret.
Qed.

Lemma adds_is_aborted : adds (W:=W) (is_aborted cfg) silent.
Proof. unfold is_aborted. destruct (c_abort cfg); [by apply (adds_silent_perform OpIsAborted)|by apply adds_ret]. Qed.

(** Sorting the outcomes of a batch by index gives the order of the calls. *)
Lemma batch_calls_indices calls b :
  (b_end b ≤ length calls)%nat → (batch_calls calls b).*1 = seq (b_start b) (b_end b - b_start b).
Proof.
  intros Hb. unfold batch_calls. rw fmap_take fmap_drop.
  assert ((imap pair calls).*1 = seq 0 (length calls)) as ->.
  { apply list_eq. intros i. rw list_lookup_fmap list_lookup_imap.
    destruct (calls !! i) as [c|] eqn:E; simpl.
    - rw lookup_seq_lt //. by eapply lookup_lt_Some.
    - rw lookup_seq_ge //. by apply lookup_ge_None_1. }
  rw drop_seq take_seq. f_equal. lia.
Qed.

Lemma sorted_outcomes (rs : list (nat * (ToolOutput * bool))) k n :
  Permutation rs.*1 (seq k n) → (merge_sort result_idx_le rs).*1 = seq k n.
Proof.
  intros HP. apply (Sorted_unique le).
  - assert (Sorted result_idx_le (merge_sort result_idx_le rs)) as Hs.
    { apply Sorted_merge_sort. intros a b. unfold result_idx_le. lia. }
    induction Hs as [|x l Hs IH Hhd]; [constructor|]. rw fmap_cons. constructor; [done|].
    destruct Hhd; constructor. done.
  - clear HP. revert k. induction n as [|n IH]; intros k; simpl; constructor; [apply IH|].
    destruct n; simpl; constructor. lia.
  - rw -HP. apply fmap_Permutation, merge_sort_Permutation.
Qed.

(** What the batch loop leaves: a filled prefix of the table. *)
Definition batches_done (calls : list ToolCall) (rs : list ToolResultMessage)
    (out : Recorded * option (list Message)) (ms : list Message) (es : list AgentEvent) : Prop :=
  ∃ rs', out.1 = filled (rs ++ rs') (length calls) ∧ (length rs + length rs' ≤ length calls)%nat ∧
    answered (take (length rs') (drop (length rs) calls)) rs' ms es.

Lemma batches_done_now calls rs steering :
  (length rs ≤ length calls)%nat → batches_done calls rs (filled rs (length calls), steering) [] [].
Proof.
  intros Hl. exists []. rw app_nil_r. split_and!; [done|simpl; lia|apply answered_nil].
Qed.

Lemma adds_run_batches calls bs rs :
  batches_cover (length rs) (length calls) bs →
  adds (W:=W) (run_batches cfg calls bs (filled rs (length calls))) (batches_done calls rs).
Proof.
  revert rs. induction bs as [|b bs IH]; intros rs Hc.
  { apply adds_ret, batches_done_now. by apply batches_cover_le in Hc. }
  pose proof (batches_cover_le _ _ _ Hc) as Hle. simpl in Hc |- *. destruct Hc as (Hst & Hlt & Hc).
  pose proof (batches_cover_le _ _ _ Hc) as Hle'.
  apply adds_silent_bind; [apply adds_is_aborted|]. intros [|]; [by apply adds_ret, batches_done_now|].
  apply adds_silent_bind; [apply adds_drain_steering|].
  intros [|m steering]; [|by apply adds_ret, batches_done_now].
  intros s. pose proof (batch_aborted cfg (batch_calls calls b) s) as Hab.
  pose proof (batch_calls_indices calls b Hle') as Hidx. rw Hst in Hidx.
  assert (batch_calls calls b ≠ []) as Hne.
  { intros E. rw E in Hidx. apply (f_equal length) in Hidx. rw length_seq in Hidx. simpl in Hidx. lia. }
  destruct (adds_execute_tool_batch (W:=W) cfg (batch_calls calls b) s) as (ms1 & es1 & Hx1 & Hq & Hrs).
  destruct (execute_tool_batch cfg (batch_calls calls b) s) as [br s1] eqn:Eb.
  rw (bind_eq _ _ _ _ _ Eb). cbn [fst snd] in *. destruct Hrs as [->|HP].
  - destruct (Hab Hne eq_refl) as [Ha Hl]. change (merge_sort result_idx_le []) with (@nil (nat * (ToolOutput * bool))).
    cbn [record_batch]. rw (bind_eq _ _ s1 (filled rs (length calls)) s1) //.
    destruct (run_batches_latched cfg calls bs (filled rs (length calls)) s1 Ha Hl) as [-> Hx2].
    exists (ms1 ++ []), (es1 ++ []). split; [by eapply extends_trans|]. destruct Hq as [-> Hes].
    exists []. rw !app_nil_r. split; [done|]. split; [simpl; lia|]. split; [done|]. split; [by apply in_turn_tool|constructor].
  - rw Hidx in HP. apply sorted_outcomes in HP.
    set (l := merge_sort result_idx_le br) in *.
    assert (length l = b_end b - length rs)%nat as Hlen.
    { apply (f_equal length) in HP. by rw length_fmap length_seq in HP. }
    rw -Hlen in HP.
    enough (adds (W:=W) (record_batch cfg calls l (filled rs (length calls)) ≫= run_batches cfg calls bs)
              (batches_done calls rs)) as Hg.
    { destruct (Hg s1) as (ms2 & es2 & Hx2 & (rs' & Hr & Hl & Hans)).
      exists (ms1 ++ ms2), (es1 ++ es2). split; [by eapply extends_trans|].
      exists rs'. split_and!; [done|done|]. destruct Hq as [-> Hes].
      destruct Hans as (? & ? & ?). split_and!; [done| |done]. apply in_turn_app; [by apply in_turn_tool|done]. }
    eapply adds_bind; [apply adds_record_batch; [done|lia]|].
    intros rec ms es (rs1 & -> & Hl1 & Hans1). eapply adds_post; [apply (IH (rs ++ rs1))|].
    { rw length_app Hl1 Hlen. by replace (length rs + (b_end b - length rs))%nat with (b_end b) by lia. }
    intros out ms' es' (rs2 & Hout & Hl2 & Hans2). exists (rs1 ++ rs2). rw length_app in Hl2.
    rw app_assoc. split_and!; [done|rw length_app; lia|].
    rw length_app Hl1. rw -(take_take_drop (drop (length rs) calls)) drop_drop.
    apply answered_app; [done|]. rw length_app Hl1 in Hans2. done.
Qed.

(** The last phase answers what is left. *)
Lemma adds_answer_calls calls rs steering :
  (length rs ≤ length calls)%nat → Forall2 answers (take (length rs) calls) rs →
  adds (W:=W) (answer_calls cfg calls (filled rs (length calls)) steering)
    (λ out ms es, ∃ rs', out.1 = rs ++ rs' ∧ answered (drop (length rs) calls) rs' ms es).
Proof.
  revert rs steering. induction calls as [|c calls IH]; intros rs steering Hl Hans.
  { destruct rs; [|simpl in Hl; lia]. apply adds_ret. exists []. split; [done|apply answered_nil]. }
  cbn [answer_calls length]. apply adds_silent_bind.
  { destruct steering; [by apply adds_ret|]. apply adds_silent_bind; [apply adds_is_aborted|].
    intros [|]; [by apply adds_ret|]. apply adds_silent_bind; [apply adds_drain_steering|]. intros d. by apply adds_ret. }
  intros steering'. destruct rs as [|r rs].
  - change (head (filled [] (S (length calls)))) with (Some (@None ToolResultMessage)). cbn [length drop].
    eapply (adds_bind _ _ (one_answer c)).
    { unfold answer_one. destruct steering'; [apply adds_skip_tool_call|apply adds_abort_tool_call]. }
    intros r ms es (-> & He & Ha). change (tail (filled [] (S (length calls)))) with (replicate (length calls) (@None ToolResultMessage)).
    replace (replicate (length calls) None) with (filled [] (length calls)) by (unfold filled; simpl; by rw Nat.sub_0_r).
    eapply adds_bind; [apply (IH []); [simpl; lia|constructor]|].
    intros out ms' es' (rs' & Ho & Hans'). apply adds_ret. rw !app_nil_r. exists (r :: rs'). simpl in Ho |- *.
    rw Ho. split; [done|].
    apply (answered_app [c] [r] [ToolResult r]); [split; [done|]; split; [done|]; by constructor; [|constructor]|done].
  - change (head (filled (r :: rs) (S (length calls)))) with (Some (Some r)).
    change (tail (filled (r :: rs) (S (length calls)))) with (filled rs (length calls)). cbn [length drop take] in *.
    apply Forall2_cons in Hans as [Ha Hans].
    eapply (adds_bind _ _ (λ r' ms es, r' = r ∧ silent tt ms es)); [by apply adds_ret|].
    intros r' ms es (-> & -> & ->). eapply adds_bind; [apply IH; [lia|done]|].
    intros out ms' es' (rs' & Ho & Hans'). apply adds_ret. rw !app_nil_r. exists rs'. simpl. by rw Ho.
Qed.

(** Every call of an answer gets one result, in the order of the calls; the
    results are what the transcript grows by, and the turn's events stay in
    the protocol. *)
Lemma adds_execute_tool_calls calls :
  adds (W:=W) (execute_tool_calls cfg calls) (λ out ms es, answered calls out.1 ms es).
Proof.
  unfold execute_tool_calls. eapply adds_bind.
  { apply (adds_for_each _ _ (λ _, []) (λ c, [ToolExecutionStart (tc_id c) (tc_name c) (tc_arguments c)])).
    intros c. by apply adds_emit. }
  intros [] ms0 es0 [-> ->]. destruct (plan_spec ((λ c, policy_effects cfg (tc_name c)) <$> calls)) as [Hc _].
  rw length_fmap in Hc. eapply adds_bind.
  { replace (replicate (length calls) None) with (filled [] (length calls)) by (unfold filled; simpl; by rw Nat.sub_0_r).
    by apply (adds_run_batches calls _ []). }
  intros [rec steering] ms1 es1 (rs1 & Hrec & Hl1 & Hans1). simpl in *. subst rec. rw drop_0 in Hans1.
  eapply adds_post; [apply adds_answer_calls; [done|apply Hans1]|].
  intros [out steering'] ms2 es2 (rs2 & Ho & Hans2). simpl in *. subst out.
  rw -(take_drop (length rs1) calls) in Hc |- *. destruct (answered_app _ _ _ _ _ _ _ _ Hans1 Hans2) as (-> & He & Hf).
  rw take_drop in Hf |- *. split_and!; [| |done].
  - replace (concat _) with (@nil Message); [done|]. clear. by induction calls.
  - apply in_turn_app; [|done]. apply in_turn_tool.
    clear. induction calls as [|c calls IH]; simpl; by constructor.
Qed.
End Calls.
