(* ===== verification/AgentRun.v ===== *)
(** * The contract of a run

    Lifts the specifications of streaming and of tool calls to turns and to
    [run_loop]: the history grows by exactly the reported messages, the
    transcript is well formed, and the events follow the protocol. *)

From S2P Require Import Prelude Text Json ToolPolicy Messages MessageQueue ToolResults ToolBatches AgentEnv AgentTools AgentSafety AgentStream AgentLoop AgentGuard AgentTranscript.

(** ** Transcripts *)

(** Messages that may be appended to any transcript. *)
Definition closed (ms : list Message) : Prop := ∀ l, transcript l → transcript (l ++ ms).

Lemma closed_nil : closed [].
Proof. intros l. by rw app_nil_r. Qed.
Lemma closed_app ms ms' : closed ms → closed ms' → closed (ms ++ ms').
Proof. intros H1 H2 l Hl. rw app_assoc. by apply H2, H1. Qed.
Lemma closed_inputs ms : Forall is_input ms → closed ms.
Proof.
  induction 1 as [|m ms Hm _ IH]; [apply closed_nil|]. apply (closed_app [m]); [|done].
  intros l Hl. by apply transcript_input.
Qed.
Lemma closed_silent a :
  ¬ runs_its_calls a ∨ extract_tool_calls (a_content a) = [] → closed [Assistant a].
Proof. intros Ha l Hl. by apply transcript_silent. Qed.
Lemma closed_calls a rs :
  runs_its_calls a → Forall2 answers (extract_tool_calls (a_content a)) rs →
  closed (Assistant a :: (ToolResult <$> rs)).
Proof. intros Ha Hrs l Hl. by apply transcript_calls. Qed.

(** ** The world delivers messages from outside only *)

Definition inputs_only (W : Type) `{Env W} : Prop :=
  ∀ f w, Forall is_input (handle (OpFetchSteering f) w).1 ∧
         Forall is_input (handle (OpFetchFollowUp f) w).1.

Definition queue_inputs (q : MessageQueue) : Prop :=
  Forall (λ e, is_input (q_message e)) (mq_steering q) ∧
  Forall (λ e, is_input (q_message e)) (mq_follow_up q).

Lemma push_inputs q kind m : is_input m → queue_inputs q → queue_inputs (push q kind m).1.
Proof.
  intros Hm [Hs Hf]. destruct kind; split; simpl; try done; by apply push_bounded_Forall.
Qed.

Lemma pop_inputs q kind :
  queue_inputs q → queue_inputs (pop_kind q kind).1 ∧ Forall is_input (pop_kind q kind).2.
Proof.
  assert (∀ mode (l : list QueuedMessage), Forall (λ e, is_input (q_message e)) l →
    Forall (λ e, is_input (q_message e)) (pop_mode mode l).1 ∧
    Forall is_input (q_message <$> (pop_mode mode l).2)) as Hpop.
  { intros mode l Hl. rw -(pop_mode_app mode l) in Hl. apply Forall_app in Hl as [H2 H1].
    split; [done|]. by apply Forall_fmap. }
  intros [Hs Hf]. destruct kind; unfold pop_kind.
  - destruct (Hpop (mq_steering_mode q) _ Hs). by destruct (pop_mode _ _).
  - destruct (Hpop (mq_follow_up_mode q) _ Hf). by destruct (pop_mode _ _).
Qed.

Section Run.
Context {W : Type} `{AbortLatch W} `{Fingerprints} (from_str : Str → option Json) (cfg : AgentConfig).
Hypothesis Hinputs : inputs_only W.

Abbreviation QI := (λ (q : MessageQueue) (_ : list Obs) (_ : W), queue_inputs q).

Lemma qi_op op : op_keeps QI op.
Proof. by intros q l w r w'. Qed.

Lemma drain_steering_inputs :
  triple (holds QI) (drain_steering_messages cfg) (λ ms s, holds QI s ∧ Forall is_input ms).
Proof.
  unfold drain_steering_messages. apply (triple_bind _ _ _ (λ _, holds QI)).
  - apply keeps_for_each. intros f.
    apply (triple_bind _ _ _ (λ ms s, holds QI s ∧ Forall is_input ms)).
    + apply (triple_perform (OpFetchSteering f)). intros s r w Hh Hs. split; [done|].
      destruct (Hinputs f (s_world s)) as [Hr _]. by rw Hh in Hr.
    + intros ms s [Hs Hms]. revert s Hs. induction Hms as [|m ms Hm _ IH]; intros s Hs; [done|].
      simpl. apply (IH (mkSt _ _ _ _ _ _)). by apply (push_inputs _ Steering).
  - intros [] s Hs. destruct (pop_inputs _ Steering Hs). by split.
Qed.

Lemma drain_follow_up_inputs :
  triple (holds QI) (drain_follow_up_messages cfg) (λ ms s, holds QI s ∧ Forall is_input ms).
Proof.
  unfold drain_follow_up_messages. apply (triple_bind _ _ _ (λ _, holds QI)).
  - apply keeps_for_each. intros f.
    apply (triple_bind _ _ _ (λ ms s, holds QI s ∧ Forall is_input ms)).
    + apply (triple_perform (OpFetchFollowUp f)). intros s r w Hh Hs. split; [done|].
      destruct (Hinputs f (s_world s)) as [_ Hr]. by rw Hh in Hr.
    + intros ms s [Hs Hms]. revert s Hs. induction Hms as [|m ms Hm _ IH]; intros s Hs; [done|].
      simpl. apply (IH (mkSt _ _ _ _ _ _)). by apply (push_inputs _ FollowUp).
  - intros [] s Hs. destruct (pop_inputs _ FollowUp Hs). by split.
Qed.

(** [execute_tool_calls] may also hand back steering messages. *)
Lemma qi_batch batch : keeps QI (execute_tool_batch cfg batch).
Proof.
  unfold execute_tool_batch. keeps_walk; try apply qi_op.
  - apply keeps_run_pool, qi_op.
  - apply keeps_drain_pool, qi_op.
Qed.

Lemma qi_steering : keeps QI (drain_steering_messages cfg).
Proof. eapply triple_post; [apply drain_steering_inputs|]. by intros ms s [? _]. Qed.
Lemma qi_follow_up : keeps QI (drain_follow_up_messages cfg).
Proof. eapply triple_post; [apply drain_follow_up_inputs|]. by intros ms s [? _]. Qed.

Definition steering_ok (o : option (list Message)) : Prop :=
  match o with Some ms => Forall is_input ms | None => True end.

Lemma is_aborted_keeps : keeps QI (is_aborted cfg).
Proof. apply (keeps_is_aborted cfg QI). intros; apply qi_op. Qed.

Lemma run_batches_inputs calls bs recorded :
  triple (holds QI) (run_batches cfg calls bs recorded) (λ out s, holds QI s ∧ steering_ok out.2).
Proof.
  revert recorded. induction bs as [|b bs IH]; intros recorded; simpl; [by apply triple_ret|].
  eapply triple_bind; [apply is_aborted_keeps|]. intros [|]; [by apply triple_ret|].
  eapply triple_bind; [apply drain_steering_inputs|].
  intros [|m ms]; [|by apply triple_ret]. apply (triple_pre _ _ (holds QI)); [|by intros s [? _]].
  eapply triple_bind; [apply qi_batch|]. intros br.
  eapply triple_bind; [apply (keeps_record_batch cfg QI); intros; apply qi_op|]. intros rec. apply IH.
Qed.

Lemma answer_calls_inputs calls recorded steering :
  steering_ok steering →
  triple (holds QI) (answer_calls cfg calls recorded steering) (λ out s, holds QI s ∧ steering_ok out.2).
Proof.
  revert recorded steering. induction calls as [|c calls IH]; intros recorded steering Hst; simpl.
  { by apply triple_ret. }
  apply (triple_bind _ _ _ (λ o s, holds QI s ∧ steering_ok o)).
  { destruct steering; [by apply triple_ret|]. eapply triple_bind; [apply is_aborted_keeps|].
    intros [|]; [by apply triple_ret|]. eapply triple_bind; [apply drain_steering_inputs|].
    intros [|m ms]; apply triple_ret; naive_solver. }
  intros steering'. apply triple_pure. intros Hst'.
  apply (triple_bind _ _ _ (λ _, holds QI)).
  { apply (keeps_answer_one cfg QI). intros; apply qi_op. }
  intros r. eapply triple_bind; [by apply IH|]. intros out. by apply triple_ret.
Qed.

Lemma execute_tool_calls_inputs calls :
  triple (holds QI) (execute_tool_calls cfg calls) (λ out s, holds QI s ∧ steering_ok out.2).
Proof.
  unfold execute_tool_calls. eapply triple_bind.
  { apply (keeps_for_each QI). intros c. apply (keeps_perform QI (OpEmit _)), qi_op. }
  intros []. eapply triple_bind; [apply run_batches_inputs|].
  intros st s [Hs Hst]. by apply answer_calls_inputs.
Qed.

(** ** Pieces of a turn *)

Lemma adds_lifecycle e : adds (W:=W) (lifecycle cfg e) (λ _ ms es, ms = [] ∧ es = [e]).
Proof.
  unfold lifecycle, dispatch_extension_lifecycle_event. apply adds_silent_bind.
  - destruct (c_extensions cfg); [by apply (adds_silent_perform (OpLifecycle e))|by apply adds_ret].
  - intros []. by apply adds_emit.
Qed.

Definition announced (m : Message) : list AgentEvent := [MessageStart m; MessageEnd m].

Lemma adds_deliver m : adds (W:=W) (deliver m) (λ _ ms es, ms = [m] ∧ es = announced m).
Proof.
  intros s. exists [m], (announced m). unfold deliver. m_run. unfold extends, emitted. m_fields.
  split; [split_and!; [done|done|]|done]. by rw -app_assoc.
Qed.

Lemma adds_deliver_answer m : adds (W:=W) (deliver_answer m) (λ _ ms es, ms = [m] ∧ es = announced m).
Proof.
  intros s. exists [m], (announced m). unfold deliver_answer. m_run. unfold extends, emitted. m_fields.
  split; [split_and!; [done|done|]|done]. by rw -app_assoc.
Qed.

Lemma adds_deliver_all (l : list Message) :
  adds (W:=W) (for_each l deliver) (λ _ ms es, ms = l ∧ es = concat (announced <$> l)).
Proof.
  eapply adds_post; [apply (adds_for_each _ _ (λ m, [m]) announced); intros m; apply adds_deliver|].
  intros [] ms es [-> ->]. split; [|done]. clear. induction l as [|m l IH]; simpl in *; [done|]. by rw IH.
Qed.

Lemma adds_deliver_turn (l : list Message) :
  adds (W:=W) (for_each l (λ m, open_rewind_turn m;; deliver m))
    (λ _ ms es, ms = l ∧ es = concat (announced <$> l)).
Proof.
  eapply adds_post; [apply (adds_for_each _ _ (λ m, [m]) announced); intros m|].
  - apply adds_silent_bind; [|intros []; apply adds_deliver].
    destruct m; [by apply (adds_silent_perform (OpOpenRewind _))|by apply adds_ret..].
  - intros [] ms es [-> ->]. split; [|done]. clear. induction l as [|m l IH]; simpl in *; [done|]. by rw IH.
Qed.

Lemma protos_announced b n l : protos (back_to b n) (concat (announced <$> l)) (back_to b n).
Proof.
  induction l as [|m l IH]; simpl; [constructor|]. apply (protos_app _ (announced m) (back_to b n)); [|done].
  apply protos_message.
Qed.

(** A piece within a turn: the transcript stays well formed. *)
Definition grows (s s' : St W) : Prop :=
  queue_inputs (s_queue s') ∧ ∃ ms es, extends s s' ms es ∧ closed ms ∧ in_turn es.

Lemma grows_trans s1 s2 s3 : grows s1 s2 → grows s2 s3 → grows s1 s3.
Proof.
  intros (_ & ms1 & es1 & Hx1 & Hc1 & Ht1) (Hq & ms2 & es2 & Hx2 & Hc2 & Ht2). split; [done|].
  exists (ms1 ++ ms2), (es1 ++ es2).
  split_and!; [by eapply extends_trans|by apply closed_app|by apply in_turn_app].
Qed.

(** A computation that keeps the queue and adds a closed piece. *)
Lemma grows_of {A} (m : M W A) R s :
  keeps QI m → adds m R → (∀ a ms es, R a ms es → closed ms ∧ in_turn es) →
  queue_inputs (s_queue s) → grows s (m s).2.
Proof.
  intros Hk Ha HR Hs. split; [by apply Hk|]. destruct (Ha s) as (ms & es & Hx & Hr).
  destruct (HR _ _ _ Hr). eauto.
Qed.

Lemma grows_deliver_steering s :
  queue_inputs (s_queue s) → grows s (deliver_steering cfg s).2.
Proof.
  intros Hs. unfold deliver_steering. pose proof (drain_steering_inputs s Hs) as [Hq Hin].
  destruct (adds_drain_steering (W:=W) cfg s) as (ms & es & Hx & -> & ->).
  destruct (drain_steering_messages cfg s) as [l s1] eqn:E. rw (bind_eq _ _ _ _ _ E). simpl in *.
  apply (grows_trans _ s1).
  { split; [done|]. exists [], []. split_and!; [done|apply closed_nil|apply in_turn_nil]. }
  eapply grows_of; [|apply adds_deliver_all| |done].
  - unfold deliver. keeps_walk; apply qi_op.
  - intros [] ms es [-> ->]. split; [by apply closed_inputs|]. intros n. apply (protos_announced true).
Qed.

(** ** The ends of a turn *)

(** The last two events of a run that ends inside a turn. *)
Lemma exit_events n m err s :
  let s' := ((end_turn_event cfg n m [];; end_agent_event cfg err) s).2 in
  s_new s' = s_new s ∧
  extends s s' [] [TurnEnd (session_id cfg) n m []; AgentEnd (session_id cfg) (s_new s) err].
Proof.
  intros s'. assert (adds (W:=W) (end_turn_event cfg n m []) (λ _ ms es, ms = [] ∧ es = [TurnEnd (session_id cfg) n m []]))
    as Ht by apply adds_lifecycle.
  destruct (Ht s) as (ms1 & es1 & Hx1 & -> & ->). unfold s'.
  destruct (end_turn_event cfg n m [] s) as [[] s1] eqn:E1. rw (bind_eq _ _ _ _ _ E1). simpl in Hx1.
  assert (s_new s1 = s_new s) as Hn by (destruct Hx1 as (_ & -> & _); by rw app_nil_r).
  unfold end_agent_event. rw (bind_eq _ _ s1 (s_new s1) s1) //. rw Hn.
  destruct (adds_lifecycle (AgentEnd (session_id cfg) (s_new s) err) s1) as (ms2 & es2 & Hx2 & -> & ->).
  split; [|exact (extends_trans _ _ _ _ _ _ _ Hx1 Hx2)]. destruct Hx2 as (_ & -> & _). by rw app_nil_r.
Qed.

(** What a turn promises from the moment its first events are out. *)
Definition turn_rest (n : Z) (out : LoopVars + result AssistantMessage Error) (s s' : St W) : Prop :=
  match out with
  | inl v' =>
      queue_inputs (s_queue s') ∧ Forall is_input (v_pending v') ∧
      ∃ ms es, extends s s' ms es ∧ closed ms ∧ protos (PTurn n) es (PAgent (v_turn_index v')) ∧
        ∃ a, v_last_assistant v' = Some a ∧ Assistant a ∈ ms
  | inr r =>
      ∃ ms es err, extends s s' ms (es ++ [AgentEnd (session_id cfg) (s_new s') err]) ∧ closed ms ∧
        (∃ n', protos (PTurn n) es (PAgent n')) ∧
        match r with Ok a => Assistant a ∈ ms | Err e => err = Some (Error_to_string e) end
  end.

Lemma turn_rest_prepend n out s s1 s' ms es :
  extends s s1 ms es → closed ms → in_turn es → turn_rest n out s1 s' → turn_rest n out s s'.
Proof.
  intros Hx Hc Ht. destruct out as [v'|r]; simpl.
  - intros (Hq & Hp & ms' & es' & Hx' & Hc' & Hpr & a & Ha & Hin). split_and!; [done|done|].
    exists (ms ++ ms'), (es ++ es').
    split_and!; [by eapply extends_trans|by apply closed_app|by eapply protos_app; [apply Ht|]|].
    exists a. split; [done|]. apply elem_of_app. by right.
  - intros (ms' & es' & err & Hx' & Hc' & (n' & Hpr) & Hr). exists (ms ++ ms'), (es ++ es'), err.
    rw -app_assoc. split_and!; [by eapply extends_trans|by apply closed_app| |].
    + exists n'. by eapply protos_app; [apply Ht|].
    + destruct r; [apply elem_of_app; by right|done].
Qed.

Lemma turn_rest_grows n out s s1 s' : grows s s1 → turn_rest n out s1 s' → turn_rest n out s s'.
Proof. intros (_ & ms & es & Hx & Hc & Ht). by eapply turn_rest_prepend. Qed.

(** Leaving the run after a piece [ms] that holds the returned answer. *)
Lemma turn_rest_exit n m err r s s1 ms es :
  extends s s1 ms es → closed ms → in_turn es →
  match r with Ok a => Assistant a ∈ ms | Err e => err = Some (Error_to_string e) end →
  turn_rest n (inr r) s ((end_turn_event cfg n m [];; end_agent_event cfg err) s1).2.
Proof.
  intros Hx Hc Ht Hr. destruct (exit_events n m err s1) as [Hn Hx'].
  exists ms, (es ++ [TurnEnd (session_id cfg) n m []]), err. rw Hn. split_and!; [|done| |done].
  - pose proof (extends_trans _ _ _ _ _ _ _ Hx Hx') as Hx''. rw app_nil_r in Hx''. by rw -app_assoc.
  - eexists. eapply protos_app; [apply Ht|]. apply protos_one. constructor.
Qed.

(** ** A whole turn *)

(** The answer and its place in [new_messages]. *)
Lemma stream_extends s :
  match stream_assistant_response from_str cfg s with
  | (Ok a, s1) => ∃ es, extends s (push_new (Assistant a) s1).2 [Assistant a] es ∧ in_turn es ∧
                    s_queue s1 = s_queue s
  | (Err _, s1) => extends s s1 [] [] ∧ s_queue s1 = s_queue s
  end.
Proof.
  pose proof (stream_assistant_response_spec from_str cfg s) as ((Hn & Hq & _) & Hr).
  destruct (stream_assistant_response from_str cfg s) as [[a|e] s1]; simpl in *.
  - destruct Hr as (Hm & a0 & us & He & Hu). eexists. split; [|split; [|done]].
    + unfold extends, push_new, set_new. simpl. rw Hm Hn. by split_and!.
    + intros n. by apply protos_stream.
  - destruct Hr as [Hm He]. split; [|done]. unfold extends. by rw Hm Hn !app_nil_r.
Qed.

Lemma fail_turn_rest n e s :
  queue_inputs (s_queue s) → turn_rest n (inr (Err e)) s (fail_turn cfg n e s).2.
Proof.
  intros Hs. unfold fail_turn. set (m := build_error_message cfg None (Error_to_string e)).
  pose proof (grows_deliver_steering s Hs) as Hg.
  destruct (deliver_steering cfg s) as [[] s1] eqn:E1. rw (bind_eq _ _ _ _ _ E1). simpl in Hg.
  destruct (adds_deliver_answer (Assistant m) s1) as (ms & es & Hx & -> & ->).
  destruct (deliver_answer (Assistant m) s1) as [[] s2] eqn:E2. rw (bind_eq _ _ _ _ _ E2). simpl in Hx.
  eapply turn_rest_grows; [exact Hg|]. eapply turn_rest_exit; [exact Hx| |apply in_turn_message|done].
  apply closed_silent. left. intros (Hne & _). by apply Hne.
Qed.

Lemma abort_turn_rest n s :
  turn_rest n (inr (Ok (abort_turn cfg n s).1)) s (abort_turn cfg n s).2.
Proof.
  unfold abort_turn. set (m := build_abort_message cfg None).
  destruct (adds_deliver_answer (Assistant m) s) as (ms & es & Hx & -> & ->).
  destruct (deliver_answer (Assistant m) s) as [[] s2] eqn:E2. rw (bind_eq _ _ _ _ _ E2). simpl in Hx.
  set (k := end_agent_event cfg _).
  pose proof (turn_rest_exit n (Assistant m) (Some (default (str "Aborted") (a_error_message m))) (Ok m) s s2
    _ _ Hx) as Hr.
  unfold mbind, M_bind in Hr |- *. fold k in Hr. destruct (end_turn_event cfg n (Assistant m) [] s2) as [[] s3].
  destruct (k s3) as [[] s4]. apply Hr; [|apply in_turn_message|left].
  apply closed_silent. left. intros (_ & Hne & _). by apply Hne.
Qed.

Lemma stop_turn_rest n a s0 s1 es :
  extends s0 s1 [Assistant a] es → in_turn es → queue_inputs (s_queue s1) → ¬ runs_its_calls a →
  turn_rest n (inr (Ok a)) s0 (stop_turn cfg n a s1).2.
Proof.
  intros Hx Ht Hq Ha. unfold stop_turn. destruct (grows_deliver_steering s1 Hq) as (_ & ms & es' & Hx' & Hc & Ht').
  destruct (deliver_steering cfg s1) as [[] s2] eqn:E1. rw (bind_eq _ _ _ _ _ E1). simpl in Hx'.
  eapply turn_rest_exit; [by eapply extends_trans| | |].
  - apply closed_app; [apply closed_silent; by left|done].
  - by apply in_turn_app.
  - apply elem_of_app. left. left.
Qed.

(** At the iteration cap the answer is replaced, in both lists, by one
    without its calls. *)
Lemma cap_turn_rest n a s0 s1 es :
  extends s0 s1 [Assistant a] es → in_turn es → queue_inputs (s_queue s1) →
  turn_rest n (inr (Ok (cap_turn cfg n a s1).1)) s0 (cap_turn cfg n a s1).2.
Proof.
  intros (Hm & Hn & He) Ht Hq. unfold cap_turn.
  set (m := stop_message_of a (max_iterations_error (c_max_tool_iterations cfg))).
  rw (bind_eq (gets s_messages) _ s1 (s_messages s1) s1) //. rw Hm update_last_assistant_snoc.
  set (s2 := (set_new (replace_last_new (Assistant m)) (set_messages (λ _, s_messages s0 ++ [Assistant m]) s1).2).2).
  assert (extends s0 s2 [Assistant m] es) as Hx.
  { unfold extends, s2, emitted. simpl. rw Hn. unfold replace_last_new. rw last_snoc removelast_last. done. }
  rw (bind_eq _ _ s1 tt (set_messages (λ _, s_messages s0 ++ [Assistant m]) s1).2) //.
  rw (bind_eq _ _ _ tt s2) //.
  destruct (grows_deliver_steering s2 Hq) as (_ & ms & es' & Hx' & Hc & Ht').
  destruct (deliver_steering cfg s2) as [[] s3] eqn:E1. rw (bind_eq _ _ _ _ _ E1). simpl in Hx'.
  set (k := end_agent_event cfg _).
  pose proof (turn_rest_exit n (Assistant m) (Some (max_iterations_error (c_max_tool_iterations cfg))) (Ok m) s0 s3
    _ _ (extends_trans _ _ _ _ _ _ _ Hx Hx')) as Hr. fold k in Hr.
  unfold mbind, M_bind in Hr |- *. destruct (end_turn_event cfg n (Assistant m) [] s3) as [[] s4].
  destruct (k s4) as [[] s5]. apply Hr.
  - apply closed_app; [|done]. apply closed_silent. left. intros (Hne & _). by apply Hne.
  - by apply in_turn_app.
  - left.
Qed.

Lemma extends_silent_l (s0 s1 s2 : St W) ms es : extends s0 s1 [] [] → extends s1 s2 ms es → extends s0 s2 ms es.
Proof. intros Hx1 Hx2. exact (extends_trans _ _ _ _ _ _ _ Hx1 Hx2). Qed.
Lemma extends_silent_r (s0 s1 s2 : St W) ms es : extends s0 s1 ms es → extends s1 s2 [] [] → extends s0 s2 ms es.
Proof.
  intros Hx1 Hx2. pose proof (extends_trans _ _ _ _ _ _ _ Hx1 Hx2) as Hx. by rw !app_nil_r in Hx.
Qed.

Lemma run_tools_spec v calls s :
  queue_inputs (s_queue s) →
  match run_tools cfg v calls s with
  | (None, _, _, s') => extends s s' [] [] ∧ queue_inputs (s_queue s')
  | (Some (rs, st), _, _, s') =>
      (∃ ms es, extends s s' ms es ∧ answered calls rs ms es) ∧ queue_inputs (s_queue s') ∧ steering_ok st
  end.
Proof.
  intros Hs. unfold run_tools.
  set (warn := negb (v_warned v) && _). set (push := if warn then _ else _).
  assert (∃ s1, push s = (tt, s1) ∧ extends s s1 [] [] ∧ queue_inputs (s_queue s1)) as (s1 & Hp & Hx & Hq).
  { unfold push. destruct warn; eexists; (split; [reflexivity|]).
    - split; [unfold extends, emitted; simpl; by rw !app_nil_r|]. by apply (push_inputs _ Steering).
    - split; [apply extends_refl|done]. }
  rw (bind_eq _ _ _ _ _ Hp). destruct (_ <? _); [done|].
  destruct (adds_execute_tool_calls (W:=W) cfg calls s1) as (ms & es & Hx' & Hans).
  pose proof (execute_tool_calls_inputs calls s1 Hq) as [Hq' Hst].
  destruct (execute_tool_calls cfg calls s1) as [[rs st] s2] eqn:E. rw (bind_eq _ _ _ _ _ E). simpl in *.
  split_and!; [|done|done]. exists ms, es. split; [by eapply extends_silent_l|done].
Qed.

(** The end of a turn that goes on. *)
Lemma close_turn_rest v a rs st iterations pauses warned has_more s0 s ms es :
  extends s0 s ms es → closed ms → in_turn es → Assistant a ∈ ms →
  queue_inputs (s_queue s) → steering_ok st →
  turn_rest (v_turn_index v) (close_turn cfg v a rs st iterations pauses warned has_more s).1 s0
    (close_turn cfg v a rs st iterations pauses warned has_more s).2.
Proof.
  intros Hx Hc Ht Hin Hq Hst. unfold close_turn. set (e := TurnEnd (session_id cfg) (v_turn_index v) (Assistant a) (ToolResult <$> rs)).
  assert (keeps QI (lifecycle (W:=W) cfg e)) as Hk by (apply (keeps_lifecycle cfg QI); intros; apply qi_op).
  destruct (adds_lifecycle e s) as (ms1 & es1 & Hx1 & -> & ->). specialize (Hk s Hq).
  change (end_turn_event cfg (v_turn_index v) (Assistant a) (ToolResult <$> rs)) with (lifecycle (W:=W) cfg e).
  destruct (lifecycle cfg e s) as [[] s1] eqn:E1. rw (bind_eq _ _ _ _ _ E1). simpl in Hx1, Hk.
  set (m := match st with Some steering => mret steering | None => drain_steering_messages cfg end).
  assert (∃ p s2, m s1 = (p, s2) ∧ extends s1 s2 [] [] ∧ queue_inputs (s_queue s2) ∧ Forall is_input p)
    as (p & s2 & Hm & Hx2 & Hq2 & Hp).
  { unfold m. destruct st as [steering|].
    - exists steering, s1. split_and!; [done|apply extends_refl|done|done].
    - destruct (adds_drain_steering (W:=W) cfg s1) as (? & ? & Hx2 & -> & ->).
      pose proof (drain_steering_inputs s1 Hk) as [? ?].
      destruct (drain_steering_messages cfg s1) as [p s2]. by exists p, s2. }
  rw (bind_eq _ _ _ _ _ Hm). simpl. split_and!; [done|done|]. exists ms, (es ++ [e]). split_and!; [|done| |by exists a].
  - eapply extends_silent_r; [|exact Hx2]. pose proof (extends_trans _ _ _ _ _ _ _ Hx Hx1) as Hx'.
    by rw app_nil_r in Hx'.
  - eapply protos_app; [apply Ht|]. apply protos_one. constructor.
Qed.

Lemma continue_turn_rest v a s0 s1 es :
  extends s0 s1 [Assistant a] es → in_turn es → queue_inputs (s_queue s1) →
  a_stop_reason a ≠ StopError → a_stop_reason a ≠ Aborted →
  turn_rest (v_turn_index v) (continue_turn cfg v a s1).1 s0 (continue_turn cfg v a s1).2.
Proof.
  intros Hx Ht Hq Hne Hna. unfold continue_turn.
  set (calls := extract_tool_calls (a_content a)).
  set (local := negb (bool_decide (a_stop_reason a = PauseTurn)) && negb (bool_decide (length calls = 0%nat))).
  destruct local eqn:El.
  - apply andb_true_iff in El as [Ep El]. apply negb_true_iff, bool_decide_eq_false_1 in Ep.
    pose proof (run_tools_spec v calls s1 Hq) as Hr.
    destruct (run_tools cfg v calls s1) as [[[[[rs st]|] it] warned] s2] eqn:E; rw (bind_eq _ _ _ _ _ E).
    + destruct Hr as ((ms & es' & Hx' & -> & Ht' & Hans) & Hq' & Hst).
      eapply close_turn_rest; [by eapply extends_trans| | |left|done|done].
      * apply closed_calls; [by split_and!|done].
      * by apply in_turn_app.
    + destruct Hr as [Hx' Hq']. pose proof (cap_turn_rest (v_turn_index v) a s0 s2 es) as Hcap.
      unfold mbind, M_bind. destruct (cap_turn cfg (v_turn_index v) a s2) as [m s3]. apply Hcap; [|done|done].
      by eapply extends_silent_r.
  - rw (bind_eq _ _ s1 (Some ([], None), v_iterations v, v_warned v) s1) //.
    eapply close_turn_rest; [done| |done|left|done|done]. apply closed_silent.
    apply andb_false_iff in El as [Ep|El]; apply negb_false_iff, bool_decide_eq_true_1 in Ep || apply negb_false_iff, bool_decide_eq_true_1 in El.
    + left. intros (_ & _ & ?). done.
    + right. by apply length_zero_iff_nil.
Qed.

(** The whole of a turn, from its start event. *)
Definition turn_post (v : LoopVars) (out : LoopVars + result AssistantMessage Error) (s s' : St W) : Prop :=
  match out with
  | inl v' =>
      queue_inputs (s_queue s') ∧ Forall is_input (v_pending v') ∧
      ∃ ms es, extends s s' ms es ∧ closed ms ∧ protos (PAgent (v_turn_index v)) es (PAgent (v_turn_index v')) ∧
        ∃ a, v_last_assistant v' = Some a ∧ Assistant a ∈ ms
  | inr r =>
      ∃ ms es err, extends s s' ms (es ++ [AgentEnd (session_id cfg) (s_new s') err]) ∧ closed ms ∧
        (∃ n', protos (PAgent (v_turn_index v)) es (PAgent n')) ∧
        match r with Ok a => Assistant a ∈ ms | Err e => err = Some (Error_to_string e) end
  end.

Lemma turn_post_start v out s s1 s' :
  extends s s1 [] [TurnStart (session_id cfg) (v_turn_index v)] →
  turn_rest (v_turn_index v) out s1 s' → turn_post v out s s'.
Proof.
  intros Hx. destruct out as [v'|r]; simpl.
  - intros (Hq & Hp & ms' & es' & Hx' & Hc' & Hpr & Ha). split_and!; [done|done|].
    exists ms', (TurnStart (session_id cfg) (v_turn_index v) :: es').
    split_and!; [exact (extends_trans _ _ _ _ _ _ _ Hx Hx')|done| |done]. econstructor; [constructor|done].
  - intros (ms' & es' & err & Hx' & Hc' & (n' & Hpr) & Hr).
    exists ms', (TurnStart (session_id cfg) (v_turn_index v) :: es'), err.
    split_and!; [exact (extends_trans _ _ _ _ _ _ _ Hx Hx')|done| |done].
    exists n'. econstructor; [constructor|done].
Qed.

Lemma turn_spec v s :
  queue_inputs (s_queue s) → Forall is_input (v_pending v) →
  turn_post v (turn from_str cfg v s).1 s (turn from_str cfg v s).2.
Proof.
  intros Hs Hpend. unfold turn. set (e := TurnStart _ _).
  assert (keeps QI (lifecycle (W:=W) cfg e)) as Hk by (apply (keeps_lifecycle cfg QI); intros; apply qi_op).
  destruct (adds_lifecycle e s) as (ms1 & es1 & Hx1 & -> & ->). specialize (Hk s Hs).
  destruct (lifecycle cfg e s) as [[] s1] eqn:E1. rw (bind_eq _ _ _ _ _ E1). simpl in Hx1, Hk.
  eapply turn_post_start; [exact Hx1|].
  set (d := for_each (v_pending v) _). assert (grows s1 (d s1).2) as Hg.
  { eapply grows_of; [|apply adds_deliver_turn| |done].
    - unfold d, deliver, open_rewind_turn. keeps_walk; apply qi_op.
    - intros [] ms es [-> ->]. split; [by apply closed_inputs|]. intros n. apply (protos_announced true). }
  destruct (d s1) as [[] s2] eqn:E2. rw (bind_eq _ _ _ _ _ E2). eapply turn_rest_grows; [exact Hg|].
  simpl in Hg. destruct Hg as [Hq2 _].
  destruct (adds_is_aborted (W:=W) cfg s2) as (ms3 & es3 & Hx3 & -> & ->).
  pose proof (is_aborted_keeps s2 Hq2) as Hq3.
  destruct (is_aborted cfg s2) as [aborted s3] eqn:E3. rw (bind_eq _ _ _ _ _ E3). simpl in Hx3, Hq3.
  eapply turn_rest_prepend; [exact Hx3|apply closed_nil|apply in_turn_nil|].
  destruct aborted.
  { pose proof (abort_turn_rest (v_turn_index v) s3) as Hab. unfold mbind, M_bind.
    by destruct (abort_turn cfg (v_turn_index v) s3). }
  pose proof (stream_extends s3) as Hstr.
  destruct (stream_assistant_response from_str cfg s3) as [[a|err] s4] eqn:E4; rw (bind_eq _ _ _ _ _ E4).
  - destruct Hstr as (es & Hx & Ht & Hq4).
    destruct (push_new (Assistant a) s4) as [[] s5] eqn:E5. rw (bind_eq _ _ _ _ _ E5). simpl in Hx.
    assert (queue_inputs (s_queue s5)) as Hq5.
    { injection E5 as <-. simpl. by rw Hq4. }
    destruct (_ || _) eqn:Estop.
    + pose proof (stop_turn_rest (v_turn_index v) a s3 s5 es Hx Ht Hq5) as Hstop. unfold mbind, M_bind.
      destruct (stop_turn cfg (v_turn_index v) a s5) as [[] s6]. apply Hstop. intros (? & ? & _).
      apply orb_true_iff in Estop as [?%bool_decide_eq_true_1|?%bool_decide_eq_true_1]; done.
    + apply orb_false_iff in Estop as [?%bool_decide_eq_false_1 ?%bool_decide_eq_false_1].
      by eapply continue_turn_rest.
  - destruct Hstr as [Hx Hq4]. eapply turn_rest_prepend; [exact Hx|apply closed_nil|apply in_turn_nil|].
    pose proof (fail_turn_rest (v_turn_index v) err s4) as Hf. unfold mbind, M_bind.
    destruct (fail_turn cfg (v_turn_index v) err s4) as [[] s5]. apply Hf. by rw Hq4.
Qed.

(** ** The loop *)

Definition loop_inv (base : list Message) (v : LoopVars) (s : St W) : Prop :=
  s_messages s = base ++ s_new s ∧ transcript (s_new s) ∧
  protos PIdle (events (s_log s)) (PAgent (v_turn_index v)) ∧
  queue_inputs (s_queue s) ∧ Forall is_input (v_pending v) ∧
  match v_last_assistant v with
  | None => v_has_more_tool_calls v = true
  | Some a => Assistant a ∈ s_new s
  end.

Definition run_done (base : list Message) (r : result AssistantMessage Error) (s : St W) : Prop :=
  s_messages s = base ++ s_new s ∧ transcript (s_new s) ∧
  (∃ es err, events (s_log s) = es ++ [AgentEnd (session_id cfg) (s_new s) err] ∧
     protos PIdle (events (s_log s)) PDone ∧
     match r with Ok a => Assistant a ∈ s_new s | Err e => err = Some (Error_to_string e) end).

Lemma loop_inv_turn base v s :
  loop_inv base v s →
  match turn from_str cfg v s with
  | (inl v', s') => loop_inv base v' s'
  | (inr r, s') => run_done base r s'
  end.
Proof.
  intros (Hm & Ht & Hp & Hq & Hin & _). pose proof (turn_spec v s Hq Hin) as Hpost.
  destruct (turn from_str cfg v s) as [[v'|r] s']; simpl in Hpost.
  - destruct Hpost as (Hq' & Hin' & ms & es & (Hm' & Hn' & He') & Hc & Hpr & a & Ha & Hmem).
    unfold loop_inv. rw Hm' Hn' He' Hm app_assoc Ha.
    split_and!; [done|by apply Hc|by eapply protos_app|done|done|]. apply elem_of_app. by right.
  - destruct Hpost as (ms & es & err & (Hm' & Hn' & He') & Hc & (n' & Hpr) & Hr).
    unfold run_done. rw He' Hm' Hn' Hm app_assoc. split_and!; [done|by apply Hc|].
    exists (events (s_log s) ++ es), err. rw -Hn' app_assoc. split_and!; [done| |].
    + eapply protos_app; [by eapply protos_app|]. apply protos_one. constructor.
    + destruct r; [|done]. rw Hn'. apply elem_of_app. by right.
Qed.

Lemma finish_done base v s :
  loop_inv base v s → v_has_more_tool_calls v = false →
  run_done base (finish cfg v s).1 (finish cfg v s).2.
Proof.
  intros (Hm & Ht & Hp & Hq & _ & Hl) Hno. unfold finish. destruct (v_last_assistant v) as [a|]; [|congruence].
  unfold end_agent_event. destruct (adds_lifecycle (AgentEnd (session_id cfg) (s_new s) None) s)
    as (ms & es & (Hm' & Hn' & He') & -> & ->). rw !app_nil_r in Hm' Hn'.
  unfold mbind, M_bind, gets. destruct (lifecycle cfg _ s) as [[] s1]. simpl in *.
  unfold run_done. rw Hm' Hn' He'. split_and!; [done|done|]. exists (events (s_log s)), None.
  split_and!; [done| |done]. eapply protos_app; [done|]. apply protos_one. constructor.
Qed.

Lemma agent_loop_spec base fuel v s :
  loop_inv base v s →
  match agent_loop from_str cfg fuel v s with
  | (Some r, s') => run_done base r s'
  | (None, _) => True
  end.
Proof.
  revert v s. induction fuel as [|fuel IH]; intros v s Hinv; [done|]. cbn [agent_loop].
  destruct (wants_turn v) eqn:Ew.
  - pose proof (loop_inv_turn base v s Hinv) as Ht. unfold mbind, M_bind.
    destruct (turn from_str cfg v s) as [[v'|r] s']; [by apply IH|done].
  - apply orb_false_iff in Ew as [Hno _]. pose proof Hinv as (Hm & Ht & Hp & Hq & _ & Hl).
    destruct (adds_drain_follow_up (W:=W) cfg s) as (ms & es & (Hm' & Hn' & He') & -> & ->).
    pose proof (drain_follow_up_inputs s Hq) as [Hq' Hin]. unfold mbind, M_bind.
    destruct (drain_follow_up_messages cfg s) as [follow_up s1]. simpl in *. rw !app_nil_r in Hm' Hn'.
    unfold emitted in He'. rw app_nil_r in He'.
    assert (∀ has_more, (v_last_assistant v = None → has_more = true) →
      loop_inv base (mkLoop (v_iterations v) (v_pause_turn_continuations v) (v_warned v)
        (v_turn_index v) (v_last_assistant v) has_more follow_up) s1) as Hinv1.
    { intros has_more Hh. unfold loop_inv. simpl. rw Hm' Hn' He'. split_and!; try done.
      destruct (v_last_assistant v); [done|by apply Hh]. }
    destruct follow_up as [|m l]; [|apply IH; by apply Hinv1].
    unfold fmap, M_fmap. pose proof (finish_done base v s1) as Hf. destruct (finish cfg v s1) as [r s2].
    apply Hf; [|done]. unfold loop_inv. rw Hm' Hn' He'. by destruct Hinv as (_ & _ & _ & _ & ? & ?).
Qed.

(** ** The run *)

Lemma run_loop_inner_spec fuel prompts s :
  events (s_log s) = [] → queue_inputs (s_queue s) → Forall is_input prompts →
  match run_loop_inner from_str cfg fuel prompts s with
  | (Some r, s') => run_done (s_messages s) r s'
  | (None, _) => True
  end.
Proof.
  intros Hlog Hs Hprompts. unfold run_loop_inner. set (s0 := (set_new (λ _, []) s).2).
  rw (bind_eq _ _ s tt s0) //. set (e := AgentStart (session_id cfg)).
  set (d := for_each prompts (λ prompt, open_rewind_turn prompt;; deliver prompt)).
  assert (keeps QI (lifecycle (W:=W) cfg e)) as Hk by (apply (keeps_lifecycle cfg QI); intros; apply qi_op).
  specialize (Hk s0 Hs). destruct (adds_lifecycle e s0) as (ms1 & es1 & Hx1 & -> & ->).
  destruct (lifecycle cfg e s0) as [[] s1] eqn:E1. rw (bind_eq _ _ _ _ _ E1). simpl in Hk, Hx1.
  assert (keeps QI d) as Hkd by (unfold d, deliver, open_rewind_turn; keeps_walk; apply qi_op).
  specialize (Hkd s1 Hk). destruct (adds_deliver_turn prompts s1) as (ms2 & es2 & Hx2 & -> & ->).
  fold d in Hx2. destruct (d s1) as [[] s2] eqn:E2. rw (bind_eq _ _ _ _ _ E2). simpl in Hkd, Hx2.
  destruct (adds_drain_steering (W:=W) cfg s2) as (ms3 & es3 & Hx3 & -> & ->).
  pose proof (drain_steering_inputs s2 Hkd) as [Hq3 Hin3].
  destruct (drain_steering_messages cfg s2) as [pending s3] eqn:E3. rw (bind_eq _ _ _ _ _ E3). simpl in *.
  apply agent_loop_spec.
  destruct (extends_silent_r _ _ _ _ _ (extends_trans _ _ _ _ _ _ _ Hx1 Hx2) Hx3) as (Hm & Hn & He).
  unfold emitted in He. simpl in Hm, Hn, He. rw Hlog in He.
  split_and!; [by rw Hm Hn| | |done|done|done].
  - rw Hn. rw -(app_nil_l prompts). apply closed_inputs; [done|constructor].
  - rw He. econstructor; [constructor|]. apply (protos_announced false 0).
Qed.

(** Operations before and after the run proper show nothing. *)
Lemma run_loop_spec fuel prompts s :
  s_log s = [] → queue_inputs (s_queue s) → Forall is_input prompts →
  match run_loop from_str cfg fuel prompts s with
  | (Some r, s') => run_done (s_messages s) r s'
  | (None, _) => True
  end.
Proof.
  intros Hlog Hs Hprompts. unfold run_loop. set (s0 := (set_recent (λ _, []) s).2).
  rw (bind_eq _ _ s tt s0) //. unfold begin_session.
  assert (∃ s1, (gets s_messages ≫= λ messages, perform (OpBeginSession (if bool_decide (length messages = 0%nat)
      then str "startup" else str "resume"))) s0 = (tt, s1) ∧ extends s0 s1 [] [] ∧ s_queue s1 = s_queue s)
    as (s1 & E1 & (Hm1 & Hn1 & He1) & Hq1).
  { rw (bind_eq _ _ s0 (s_messages s0) s0) //. set (op' := OpBeginSession _).
    pose proof (perform_extends op' s0 ltac:(done)) as Hx. pose proof (perform_silent op' s0 ltac:(done)) as ((_ & Hq & _) & _).
    destruct (perform op' s0) as [[] s1]. by exists s1. }
  rw (bind_eq _ _ _ _ _ E1). rw !app_nil_r in Hm1 Hn1. unfold emitted in He1. simpl in Hm1, Hn1, He1. rw Hlog in He1.
  pose proof (run_loop_inner_spec fuel prompts s1) as Hrun. rw He1 Hq1 Hm1 in Hrun.
  specialize (Hrun eq_refl Hs Hprompts).
  destruct (run_loop_inner from_str cfg fuel prompts s1) as [[r|] s2] eqn:E2; rw (bind_eq _ _ _ _ _ E2).
  - set (hooks := match r with Ok _ => _ | Err _ => _ end).
    assert (adds (W:=W) hooks silent) as Hsil.
    { unfold hooks, end_turn. destruct r; [|by apply adds_ret].
      repeat case_match; first [by apply adds_ret|by apply (adds_silent_perform OpSubagentStop)
        |by apply (adds_silent_perform OpInterrupt)|by apply (adds_silent_perform OpNotify)]. }
    destruct (Hsil s2) as (ms & es & (Hm3 & Hn3 & He3) & -> & ->).
    destruct (hooks s2) as [[] s3] eqn:E3. rw (bind_eq _ _ _ _ _ E3). simpl in *.
    unfold emitted in He3. rw !app_nil_r in Hm3 Hn3 He3. unfold run_done. by rw Hm3 Hn3 He3.
  - done.
Qed.
End Run.

(** ** Claims *)

(** C4: a run appends to the history exactly the messages it reports, and
    they form a transcript: messages from outside, and assistant messages
    each followed, when its calls are run, by one result per call in the
    order of the calls.  The answer returned is one of them.  This holds for
    every schedule of the calls, every steering message and abort. *)
Theorem run_transcript {W} `{AbortLatch W} `{Fingerprints} from_str cfg fuel prompts (s s' : St W) r :
  inputs_only W → s_log s = [] → queue_inputs (s_queue s) → Forall is_input prompts →
  run_loop from_str cfg fuel prompts s = (Some r, s') →
  s_messages s' = s_messages s ++ s_new s' ∧ transcript (s_new s') ∧
  match r with Ok a => Assistant a ∈ s_new s' | Err _ => True end.
Proof.
  intros Hin Hl Hq Hp Hrun. pose proof (run_loop_spec from_str cfg Hin fuel prompts s Hl Hq Hp) as Hd.
  rw Hrun in Hd. destruct Hd as (Hm & Ht & es & err & _ & _ & Hr). split_and!; [done|done|by destruct r].
Qed.

(** C5: the events of a finished run follow the protocol: the agent starts
    once and ends once; turns are numbered from zero without gaps; every
    message started is ended before anything else starts, and only assistant
    messages are updated in between; tool events come only inside a turn.
    The last event carries exactly the messages of the run, and the error
    when there is one; so a run never ends without having announced it. *)
Theorem run_event_protocol {W} `{AbortLatch W} `{Fingerprints} from_str cfg fuel prompts (s s' : St W) r :
  inputs_only W → s_log s = [] → queue_inputs (s_queue s) → Forall is_input prompts →
  run_loop from_str cfg fuel prompts s = (Some r, s') →
  protos PIdle (events (s_log s')) PDone ∧
  ∃ es err, events (s_log s') = es ++ [AgentEnd (session_id cfg) (s_new s') err] ∧
    match r with Ok _ => True | Err e => err = Some (Error_to_string e) end.
Proof.
  intros Hin Hl Hq Hp Hrun. pose proof (run_loop_spec from_str cfg Hin fuel prompts s Hl Hq Hp) as Hd.
  rw Hrun in Hd. destruct Hd as (_ & _ & es & err & He & Hpr & Hr). split; [done|].
  exists es, err. split; [done|by destruct r].
Qed.

(** C6: running the calls of one answer yields one result per call, in
    order, and appends exactly these to the history and to the run's
    messages, whatever order the calls finish in, whatever steering arrives
    and whenever the abort signal fires. *)
Theorem every_call_answered_in_order {W} `{AbortLatch W} `{Fingerprints} cfg calls (s : St W) :
  let '(outcome, s') := execute_tool_calls cfg calls s in
  Forall2 answers calls outcome.1 ∧
  s_messages s' = s_messages s ++ (ToolResult <$> outcome.1) ∧
  s_new s' = s_new s ++ (ToolResult <$> outcome.1).
Proof.
  destruct (adds_execute_tool_calls (W:=W) cfg calls s) as (ms & es & (Hm & Hn & _) & -> & _ & Hans).
  by destruct (execute_tool_calls cfg calls s) as [outcome s'].
Qed.

(** The scripted world has such a signal and delivers user messages. *)
#[global] Instance script_latch : AbortLatch Script.
Proof.
  refine {| latched := λ w : Script, w_aborted w = true |}.
  - intros op w Hw. unfold handle, script_env. destruct op; try exact Hw; unfold pop_script; by repeat case_match.
  - intros w Hw. exact Hw.
  - intros n w Hw. exact Hw.
Defined.

Lemma script_inputs : inputs_only Script.
Proof.
  intros f w. unfold handle, script_env. split; destruct (pop_script _ _); apply Forall_fmap, Forall_forall; done.
Qed.

Definition steered_state : St Script :=
  sample_state [sample_stream ToolUse sample_calls; sample_stream Stop []; sample_stream Stop []]
    [[]; []; [str "stop that"]] [[str "and then"]] (mkToolPolicy Default [] [] []).

(** A run with two calls, a steering message between them and a follow-up. *)
Definition steered_run : option (result AssistantMessage Error) * St Script :=
  run_loop (λ _, None) sample_config 10 [sample_prompt] steered_state.

Lemma run_transcript_witness :
  s_messages steered_run.2 = s_messages steered_state ++ s_new steered_run.2 ∧
  transcript (s_new steered_run.2) ∧ length (s_new steered_run.2) = 8%nat.
Proof.
  assert (∃ r, run_loop (λ _, None) sample_config 10 [sample_prompt] steered_state = (Some r, steered_run.2))
    as [r Hr] by (eexists; vm_compute; reflexivity).
  destruct (run_transcript (λ _, None) sample_config 10 [sample_prompt] steered_state steered_run.2 r) as (H1 & H2 & _).
  - apply script_inputs.
  - reflexivity.
  - split; constructor.
  - by repeat constructor.
  - exact Hr.
  - split; [exact H1|]. split; [exact H2|]. vm_compute. reflexivity.
Defined.

Lemma run_event_protocol_witness :
  protos PIdle (events (s_log steered_run.2)) PDone ∧ length (events (s_log steered_run.2)) = 32%nat.
Proof.
  assert (∃ r, run_loop (λ _, None) sample_config 10 [sample_prompt] steered_state = (Some r, steered_run.2))
    as [r Hr] by (eexists; vm_compute; reflexivity).
  destruct (run_event_protocol (λ _, None) sample_config 10 [sample_prompt] steered_state steered_run.2 r) as [H1 _].
  - apply script_inputs.
  - reflexivity.
  - split; constructor.
  - by repeat constructor.
  - exact Hr.
  - split; [exact H1|]. vm_compute. reflexivity.
Defined.

(** Two calls and a steering message that arrives while they run. *)
Lemma every_call_answered_in_order_witness :
  let '(outcome, s') := execute_tool_calls sample_config sample_calls
      (sample_state [] [[str "stop"]] [] (mkToolPolicy Default [] [] [])) in
  Forall2 answers sample_calls outcome.1 ∧ length (s_messages s') = 2%nat.
Proof.
  pose proof (every_call_answered_in_order sample_config sample_calls
    (sample_state [] [[str "stop"]] [] (mkToolPolicy Default [] [] []))) as Hans.
  destruct (execute_tool_calls _ _ _) as [outcome s'] eqn:E. destruct Hans as (Ha & Hm & _).
  split; [exact Ha|]. rw Hm length_app length_fmap -(Forall2_length _ _ _ Ha). reflexivity.
Defined.
