(* ===== verification/AgentTermination.v ===== *)
(** * Runs end

    A run can be kept going from outside, by messages that keep arriving.  If
    the world has only so many messages to deliver, the run ends, whatever the
    provider answers: tool turns are capped, pauses are capped, the warning is
    queued once, and every other turn consumes a message. *)

From S2P Require Import Prelude Text Json ToolPolicy Messages MessageQueue ToolResults ToolBatches AgentEnv AgentTools AgentSafety AgentStream AgentLoop AgentGuard AgentTranscript AgentRun.

(** ** A bounded supply of messages *)

Definition fetched (op : Op) : Resp op → nat :=
  match op with
  | OpFetchSteering _ | OpFetchFollowUp _ => λ r, length r
  | _ => λ _, O
  end.

Class MessageBudget (W : Type) `{Env W} := {
  budget : W → nat;
  budget_spent op w : (budget (handle op w).2 + fetched op (handle op w).1 ≤ budget w)%nat;
}.

Section Termination.
Context {W : Type} `{MessageBudget W} `{Fingerprints} (from_str : Str → option Json) (cfg : AgentConfig).

(** Messages that can still reach the loop; a follow-up weighs more, since it
    also restarts the inner loop. *)
Definition weight (q : MessageQueue) (w : W) : nat :=
  (length (mq_steering q) + 3 * length (mq_follow_up q) + 3 * budget w)%nat.
Definition supply (s : St W) : nat := weight (s_queue s) (s_world s).

Abbreviation Below K := (λ (q : MessageQueue) (_ : list Obs) (w : W), (weight q w ≤ K)%nat).

Lemma below_op K op : op_keeps (Below K) op.
Proof.
  intros q l w r w' Hh Hw. pose proof (budget_spent op w) as Hb. rw Hh in Hb. simpl in Hb.
  unfold weight in *. lia.
Qed.

Lemma push_bounded_length {A} max (x : A) l : (length (push_bounded max x l) ≤ S (length l))%nat.
Proof. unfold push_bounded. rw length_app. destruct (_ <=? _); [destruct l|]; simpl; lia. Qed.

Definition kind_weight (kind : QueueKind) : nat := match kind with Steering => 1 | FollowUp => 3 end.

Lemma push_weight q kind m w :
  (weight (push q kind m).1 w ≤ weight q w + kind_weight kind)%nat.
Proof.
  unfold weight. destruct kind; simpl.
  - pose proof (push_bounded_length MAX_STEERING_QUEUE_SIZE (mkQueued (mq_next_seq q) m) (mq_steering q)). lia.
  - pose proof (push_bounded_length MAX_FOLLOW_UP_QUEUE_SIZE (mkQueued (mq_next_seq q) m) (mq_follow_up q)). lia.
Qed.

Lemma pop_weight q kind w :
  (weight (pop_kind q kind).1 w + kind_weight kind * length (pop_kind q kind).2 = weight q w)%nat.
Proof.
  unfold weight, pop_kind. destruct kind.
  - pose proof (f_equal length (pop_mode_app (mq_steering_mode q) (mq_steering q))) as Hl. rw length_app in Hl.
    destruct (pop_mode _ _) as [rest out]. simpl in *. rw length_fmap. lia.
  - pose proof (f_equal length (pop_mode_app (mq_follow_up_mode q) (mq_follow_up q))) as Hl. rw length_app in Hl.
    destruct (pop_mode _ _) as [rest out]. simpl in *. rw length_fmap. lia.
Qed.

(** Queueing fetched messages stays within what the budget paid. *)
Lemma queue_fetched_weight K kind (ms : list Message) :
  triple (λ s, supply s + 3 * length ms ≤ K)%nat
    (for_each ms (λ m, set_queue (λ q, (push q kind m).1)))
    (λ _ s, supply s ≤ K)%nat.
Proof.
  intros s. revert s. induction ms as [|m ms IH]; intros s Hs; [cbn in Hs; rw Nat.add_0_r in Hs; exact Hs|].
  apply (IH (mkSt _ _ (push (s_queue s) kind m).1 _ _ _)). unfold supply in *. cbn [s_queue s_world length] in *.
  pose proof (push_weight (s_queue s) kind m (s_world s)). destruct kind; cbn [kind_weight] in *; lia.
Qed.

Lemma drain_steering_weight K :
  triple (λ s, supply s ≤ K)%nat (drain_steering_messages cfg) (λ ms s, supply s + length ms ≤ K)%nat.
Proof.
  unfold drain_steering_messages. apply (triple_bind _ _ _ (λ _ s, supply s ≤ K)%nat).
  - apply (keeps_for_each (Below K)). intros f.
    apply (triple_bind _ _ _ (λ ms s, supply s + 3 * length ms ≤ K)%nat).
    + apply (triple_perform (OpFetchSteering f)). intros s r w Hh Hs.
      pose proof (budget_spent (OpFetchSteering f) (s_world s)) as Hb. rw Hh in Hb.
      unfold supply, weight, holds in *. simpl in *. lia.
    + intros ms. apply (queue_fetched_weight K Steering).
  - intros [] s Hs. pose proof (pop_weight (s_queue s) Steering (s_world s)).
    change (weight (pop_kind (s_queue s) Steering).1 (s_world s) + length (pop_kind (s_queue s) Steering).2 ≤ K)%nat.
    unfold supply in Hs. cbn [kind_weight] in *. lia.
Qed.

Lemma drain_follow_up_weight K :
  triple (λ s, supply s ≤ K)%nat (drain_follow_up_messages cfg) (λ ms s, supply s + 3 * length ms ≤ K)%nat.
Proof.
  unfold drain_follow_up_messages. apply (triple_bind _ _ _ (λ _ s, supply s ≤ K)%nat).
  - apply (keeps_for_each (Below K)). intros f.
    apply (triple_bind _ _ _ (λ ms s, supply s + 3 * length ms ≤ K)%nat).
    + apply (triple_perform (OpFetchFollowUp f)). intros s r w Hh Hs.
      pose proof (budget_spent (OpFetchFollowUp f) (s_world s)) as Hb. rw Hh in Hb.
      unfold supply, weight, holds in *. simpl in *. lia.
    + intros ms. apply (queue_fetched_weight K FollowUp).
  - intros [] s Hs. pose proof (pop_weight (s_queue s) FollowUp (s_world s)).
    change (weight (pop_kind (s_queue s) FollowUp).1 (s_world s) + 3 * length (pop_kind (s_queue s) FollowUp).2 ≤ K)%nat.
    unfold supply in Hs. cbn [kind_weight] in *. lia.
Qed.

Lemma below_steering K : keeps (Below K) (drain_steering_messages cfg).
Proof. eapply triple_post; [apply (drain_steering_weight K)|]. unfold holds, supply. simpl. intros. lia. Qed.

Lemma below_batch K batch : keeps (Below K) (execute_tool_batch cfg batch).
Proof.
  unfold execute_tool_batch. keeps_walk; try apply below_op.
  - apply keeps_run_pool, below_op.
  - apply keeps_drain_pool, below_op.
Qed.

(** ** The tool part of a turn *)

Definition opt_len (o : option (list Message)) : nat :=
  match o with Some ms => length ms | None => O end.

Lemma run_batches_weight K calls bs recorded :
  triple (λ s, supply s ≤ K)%nat (run_batches cfg calls bs recorded) (λ out s, supply s + opt_len out.2 ≤ K)%nat.
Proof.
  revert recorded. induction bs as [|b bs IH]; intros recorded; simpl; [apply triple_ret; simpl; lia|].
  eapply triple_bind; [apply (keeps_is_aborted cfg (Below K)); intros; apply below_op|].
  intros [|]; [apply triple_ret; unfold holds; simpl; unfold supply; lia|].
  eapply triple_bind; [apply (drain_steering_weight K)|].
  intros [|m ms]; [|apply triple_ret; simpl; lia]. apply (triple_pre _ _ (holds (Below K)));
    [|unfold holds, supply; simpl; intros; lia].
  eapply triple_bind; [apply below_batch|]. intros br.
  eapply triple_bind; [apply (keeps_record_batch cfg (Below K)); intros; apply below_op|]. intros rec. apply IH.
Qed.

Lemma answer_calls_weight K calls recorded steering :
  triple (λ s, supply s + opt_len steering ≤ K)%nat (answer_calls cfg calls recorded steering)
    (λ out s, supply s + opt_len out.2 ≤ K)%nat.
Proof.
  revert recorded steering. induction calls as [|c calls IH]; intros recorded steering; simpl; [by apply triple_ret|].
  apply (triple_bind _ _ _ (λ o s, supply s + opt_len o ≤ K)%nat).
  { destruct steering; [by apply triple_ret|]. eapply (triple_bind _ _ _ (λ _, holds (Below K))).
    - eapply triple_pre; [apply (keeps_is_aborted cfg (Below K)); intros; apply below_op|].
      unfold holds, supply. simpl. intros; lia.
    - intros [|]; [apply triple_ret; unfold holds, supply; simpl; lia|].
      eapply triple_bind; [apply (drain_steering_weight K)|]. intros [|m ms]; apply triple_ret; simpl; lia. }
  intros steering'. eapply (triple_bind _ _ _ (λ _ s, supply s + opt_len steering' ≤ K)%nat).
  - destruct (decide (opt_len steering' ≤ K)%nat) as [Hle|Hgt]; [|intros s Hs; lia].
    eapply triple_conseq; [apply (keeps_answer_one cfg (Below (K - opt_len steering'))); intros; apply below_op|..];
      unfold holds, supply; simpl; intros; lia.
  - intros r. eapply triple_bind; [apply IH|]. intros out. by apply triple_ret.
Qed.

Lemma execute_tool_calls_weight K calls :
  triple (λ s, supply s ≤ K)%nat (execute_tool_calls cfg calls) (λ out s, supply s + opt_len out.2 ≤ K)%nat.
Proof.
  unfold execute_tool_calls. eapply triple_bind.
  { apply (keeps_for_each (Below K)). intros c. apply (keeps_perform (Below K) (OpEmit _)), below_op. }
  intros []. eapply triple_bind; [apply run_batches_weight|]. intros st. apply answer_calls_weight.
Qed.

Definition warn_left (warned : bool) : nat := if warned then O else 1%nat.

Lemma run_tools_weight K v calls :
  triple (λ s, supply s ≤ K)%nat (run_tools cfg v calls)
    (λ out s, let '(outcome, iterations, warned) := out in
       iterations = v_iterations v + 1 ∧
       match outcome with
       | None => True
       | Some (_, st) => iterations ≤ c_max_tool_iterations cfg ∧
           (supply s + opt_len st + warn_left warned ≤ K + warn_left (v_warned v))%nat
       end).
Proof.
  unfold run_tools. set (warn := negb (v_warned v) && _).
  apply (triple_bind _ _ _ (λ _ s, supply s + warn_left (v_warned v || warn) ≤ K + warn_left (v_warned v))%nat).
  { destruct (v_warned v) eqn:Ew; simpl in warn; subst warn.
    - apply triple_ret. simpl. intros; lia.
    - destruct (should_warn_at_iteration_threshold _ _); [|apply triple_ret; simpl; intros; lia].
      intros s Hs. pose proof (push_weight (s_queue s) Steering (handoff_warning cfg (v_iterations v + 1)) (s_world s)).
      unfold supply in *. cbn [kind_weight] in *.
      change (weight (push (s_queue s) Steering (handoff_warning cfg (v_iterations v + 1))).1 (s_world s)
              + 0 ≤ K + 1)%nat. lia. }
  intros []. destruct (Z.ltb_spec (c_max_tool_iterations cfg) (v_iterations v + 1)).
  - apply triple_ret. by intros s _.
  - set (K' := (K + warn_left (v_warned v) - warn_left (v_warned v || warn))%nat).
    eapply triple_bind.
    + apply (triple_pre _ _ (λ s, supply s ≤ K')%nat); [apply execute_tool_calls_weight|]. unfold K'. intros; lia.
    + intros [rs st]. apply triple_ret. intros s Hs. simpl in Hs. split; [done|]. split; [lia|].
      unfold K' in Hs. destruct (v_warned v), warn; simpl in *; lia.
Qed.

(** ** The measure *)

Definition left (limit used : Z) : nat := Z.to_nat (limit - used).

Definition measure (v : LoopVars) (s : St W) : nat :=
  (supply s + length (v_pending v) + left (c_max_tool_iterations cfg + 1) (v_iterations v)
   + left (MAX_PAUSE_TURN_CONTINUATIONS + 1) (v_pause_turn_continuations v)
   + warn_left (v_warned v) + (if v_has_more_tool_calls v then 1 else 0))%nat.

(** What a turn that goes on has used up. *)
Definition turn_progress (K : nat) (v v' : LoopVars) (s : St W) : Prop :=
  (supply s + length (v_pending v') + warn_left (v_warned v') ≤ K + warn_left (v_warned v))%nat ∧
  v_iterations v ≤ v_iterations v' ∧
  v_pause_turn_continuations v ≤ v_pause_turn_continuations v' ≤ v_pause_turn_continuations v + 1 ∧
  (v_has_more_tool_calls v' = true →
     (v_iterations v' = v_iterations v + 1 ∧ v_iterations v' ≤ c_max_tool_iterations cfg) ∨
     (v_pause_turn_continuations v' = v_pause_turn_continuations v + 1 ∧
      v_pause_turn_continuations v' ≤ MAX_PAUSE_TURN_CONTINUATIONS)).

Lemma close_turn_weight K v a rs st iterations pauses warned has_more :
  triple (λ s, supply s + opt_len st ≤ K)%nat (close_turn cfg v a rs st iterations pauses warned has_more)
    (λ out s, ∃ pending, out = inl (mkLoop iterations pauses warned (sat_add usize_max (v_turn_index v) 1)
                                      (Some a) has_more pending) ∧ (supply s + length pending ≤ K)%nat).
Proof.
  unfold close_turn. eapply (triple_bind _ _ _ (λ _ s, supply s + opt_len st ≤ K)%nat).
  - destruct (decide (opt_len st ≤ K)%nat) as [Hle|Hgt]; [|intros s Hs; lia].
    eapply triple_conseq; [apply (keeps_lifecycle cfg (Below (K - opt_len st))); intros; apply below_op|..];
      unfold holds, supply; simpl; intros; lia.
  - intros []. eapply (triple_bind _ _ _ (λ p s, supply s + length p ≤ K)%nat).
    + destruct st; [by apply triple_ret|]. eapply triple_pre; [apply drain_steering_weight|]. simpl. intros; lia.
    + intros p. apply triple_ret. eauto.
Qed.

Lemma continue_turn_progress K v a :
  0 ≤ v_pause_turn_continuations v ≤ u64_max - 1 →
  triple (λ s, supply s ≤ K)%nat (continue_turn cfg v a)
    (λ out s, match out with inl v' => turn_progress K v v' s | inr _ => True end).
Proof.
  intros Hp. unfold continue_turn. set (calls := extract_tool_calls (a_content a)).
  set (local := negb (bool_decide (a_stop_reason a = PauseTurn)) && negb (bool_decide (length calls = 0%nat))).
  set (pause := bool_decide (a_stop_reason a = PauseTurn)) in *.
  assert ((if pause then sat_add usize_max (v_pause_turn_continuations v) 1 else v_pause_turn_continuations v)
          = v_pause_turn_continuations v + (if pause then 1 else 0)) as ->.
  { destruct pause; [|lia]. unfold sat_add, usize_max. lia. }
  apply (triple_bind _ _ _ (λ out s, let '(outcome, iterations, warned) := out in
    v_iterations v ≤ iterations ∧ (local = true → iterations = v_iterations v + 1) ∧
    match outcome with
    | None => True
    | Some (_, st) => (local = true → iterations ≤ c_max_tool_iterations cfg) ∧
        (supply s + opt_len st + warn_left warned ≤ K + warn_left (v_warned v))%nat
    end)).
  - destruct local eqn:El.
    + eapply triple_post; [apply run_tools_weight|]. intros [[outcome iterations] warned] s [-> Ho].
      split; [lia|]. split; [done|]. destruct outcome as [[? ?]|]; [|done]. naive_solver.
    + apply triple_ret. intros s Hs. simpl. split_and!; try done; lia.
  - intros [[outcome iterations] warned]. destruct outcome as [[rs st]|].
    + set (K' := (K + warn_left (v_warned v) - warn_left warned)%nat).
      intros s (Hi & Hit & Hmax & Hs). pose proof (close_turn_weight K' v a rs st iterations
        (v_pause_turn_continuations v + (if pause then 1 else 0)) warned
        (local || pause && (v_pause_turn_continuations v + (if pause then 1 else 0) <=? MAX_PAUSE_TURN_CONTINUATIONS)) s)
        as (pending & -> & Hk); [unfold K'; lia|].
      unfold turn_progress. simpl. split_and!; [unfold K' in Hk; lia|done|destruct pause; lia|destruct pause; lia|].
      intros Hm. destruct local; [left; split; [by apply Hit|by apply Hmax]|].
      right. simpl in Hm. destruct pause; [|done]. simpl in Hm. apply Z.leb_le in Hm. lia.
    + intros s _. unfold mbind, M_bind. by destruct (cap_turn cfg (v_turn_index v) a s).
Qed.

Lemma turn_weight K v :
  0 ≤ v_pause_turn_continuations v ≤ u64_max - 1 →
  triple (λ s, supply s ≤ K)%nat (turn from_str cfg v)
    (λ out s, match out with inl v' => turn_progress K v v' s | inr _ => True end).
Proof.
  intros Hp. unfold turn.
  eapply triple_bind; [apply (keeps_lifecycle cfg (Below K)); intros; apply below_op|]. intros [].
  eapply triple_bind.
  { apply (keeps_for_each (Below K)). intros m. unfold open_rewind_turn, deliver. keeps_walk; apply below_op. }
  intros []. eapply triple_bind; [apply (keeps_is_aborted cfg (Below K)); intros; apply below_op|].
  intros [|]; [intros s _; unfold mbind, M_bind; by destruct (abort_turn cfg (v_turn_index v) s)|].
  eapply triple_bind; [apply (keeps_stream from_str cfg (Below K)); intros; apply below_op|].
  intros [a|err]; [|intros s _; unfold mbind, M_bind; by destruct (fail_turn cfg (v_turn_index v) err s)].
  eapply triple_bind; [apply (keeps_set_new (Below K))|]. intros [].
  destruct (_ || _); [intros s _; unfold mbind, M_bind; by destruct (stop_turn cfg (v_turn_index v) a s)|].
  by apply continue_turn_progress.
Qed.

Lemma turn_progress_measure v v' s s' :
  turn_progress (supply s) v v' s' → wants_turn v = true → (measure v' s' < measure v s)%nat.
Proof.
  intros (Hw & Hi & Hp & Hm) Hwant. unfold measure, left, MAX_PAUSE_TURN_CONTINUATIONS in *.
  assert (1 ≤ length (v_pending v) + (if v_has_more_tool_calls v then 1 else 0))%nat as Hone.
  { unfold wants_turn in Hwant. destruct (v_has_more_tool_calls v); [lia|].
    simpl in Hwant. apply negb_true_iff, bool_decide_eq_false_1 in Hwant. lia. }
  destruct (v_has_more_tool_calls v'); [destruct (Hm eq_refl) as [[? ?]|[? ?]]; lia|lia].
Qed.

(** The pause count stays small: it grows by one a turn, and each growth is
    paid for by the measure or ends the inner loop. *)
Lemma agent_loop_ends fuel v s :
  (measure v s < fuel)%nat → 0 ≤ v_pause_turn_continuations v →
  v_pause_turn_continuations v + Z.of_nat fuel ≤ u64_max →
  is_Some (agent_loop from_str cfg fuel v s).1.
Proof.
  revert v s. induction fuel as [|fuel IH]; intros v s Hm Hp0 Hp; [lia|]. cbn [agent_loop].
  destruct (wants_turn v) eqn:Ew.
  - pose proof (turn_weight (supply s) v ltac:(lia) s (le_n _)) as Ht. unfold mbind, M_bind.
    destruct (turn from_str cfg v s) as [[v'|r] s'] eqn:Et; [|done].
    pose proof (turn_progress_measure _ _ _ _ Ht Ew). destruct Ht as (_ & _ & Hle & _).
    cbn [snd] in *. apply IH; lia.
  - pose proof (drain_follow_up_weight (supply s) s (le_n _)) as Hd. unfold mbind, M_bind.
    destruct (drain_follow_up_messages cfg s) as [[|m l] s']; simpl in Hd.
    + unfold fmap, M_fmap. by destruct (finish cfg v s').
    + apply orb_false_iff in Ew as [Hh Hpd]. apply negb_false_iff, bool_decide_eq_true_1 in Hpd.
      apply IH; [|done|simpl; lia]. unfold measure in *. simpl in *. rw Hh in Hm. lia.
Qed.

(** Enough steps for any run from [s]. *)
Definition run_bound (s : St W) : nat :=
  (supply s + Z.to_nat (c_max_tool_iterations cfg + 1) + 7)%nat.

Lemma run_loop_inner_ends fuel prompts s :
  (run_bound s ≤ fuel)%nat → Z.of_nat fuel ≤ u64_max →
  is_Some (run_loop_inner from_str cfg fuel prompts s).1.
Proof.
  intros Hf Hu. unfold run_loop_inner. set (K := supply s).
  assert (triple (λ s, supply s ≤ K)%nat
    (set_new (λ _, []);; lifecycle cfg (AgentStart (session_id cfg));;
     for_each prompts (λ prompt, open_rewind_turn prompt;; deliver prompt);; drain_steering_messages cfg)
    (λ p s', supply s' + length p ≤ K)%nat) as Hpre.
  { eapply triple_bind; [apply (keeps_set_new (Below K))|]. intros [].
    eapply triple_bind; [apply (keeps_lifecycle cfg (Below K)); intros; apply below_op|]. intros [].
    apply (triple_bind _ _ _ (λ _ s, supply s ≤ K)%nat); [|intros []; apply drain_steering_weight].
    apply (keeps_for_each (Below K)). intros m. unfold open_rewind_turn, deliver. keeps_walk; apply below_op. }
  specialize (Hpre s (le_n _)). unfold mbind, M_bind in *.
  destruct (set_new _ s) as [[] s1]. destruct (lifecycle cfg _ s1) as [[] s2].
  destruct (for_each prompts _ s2) as [[] s3]. destruct (drain_steering_messages cfg s3) as [p s4].
  cbn [fst snd] in *. apply agent_loop_ends; [|done|done].
  unfold measure, initial_vars, run_bound, left, MAX_PAUSE_TURN_CONTINUATIONS in *. simpl in *. fold K in Hf. lia.
Qed.

(** C7: if the world has only finitely many messages to deliver, every run
    ends: with fuel for the queued and deliverable messages (follow-ups count
    three times), one turn per allowed tool iteration and seven more, the
    loop returns, whatever the provider, the tools and the hooks answer. *)
Theorem run_ends fuel prompts s :
  (run_bound s ≤ fuel)%nat → Z.of_nat fuel ≤ u64_max →
  is_Some (run_loop from_str cfg fuel prompts s).1.
Proof.
  intros Hf Hu. unfold run_loop, mbind, M_bind. destruct (set_recent (λ _, []) s) as [[] s1] eqn:E1.
  assert (supply s1 = supply s) as Hs1 by (injection E1 as <-; done).
  pose proof (triple_bind (gets s_messages) (λ messages, perform (W:=W) (OpBeginSession
    (if bool_decide (length messages = 0%nat) then str "startup" else str "resume")))
    (holds (Below (supply s))) (λ _, holds (Below (supply s))) (λ _, holds (Below (supply s)))) as Hb.
  specialize (Hb ltac:(by apply keeps_gets) ltac:(intros; apply (keeps_perform _ (OpBeginSession _)), below_op) s1).
  unfold begin_session, mbind, M_bind in Hb |- *. destruct (gets s_messages s1) as [ms s1'].
  destruct (perform _ s1') as [[] s2]. simpl in Hb.
  pose proof (run_loop_inner_ends fuel prompts s2) as Hr.
  destruct (run_loop_inner from_str cfg fuel prompts s2) as [r s3].
  match goal with |- context [let '(_, _) := ?hooks in _] => destruct hooks as [[] s4] end. apply Hr; [|done].
  unfold run_bound in *. fold (supply s2) in Hb. unfold holds in Hb. fold (supply s1) (supply s2) in Hb. lia.
Qed.
End Termination.

(** The scripted world delivers what its script holds. *)
#[global] Instance script_budget : MessageBudget Script.
Proof.
  refine {| budget := λ w : Script, (length (concat (w_steering w)) + length (concat (w_follow_up w)))%nat |}.
  intros op w. unfold handle, script_env.
  destruct op; simpl; try lia.
  - destruct (w_steering w) as [|l ls]; simpl; [lia|]. rw length_app length_fmap. lia.
  - destruct (w_follow_up w) as [|l ls]; simpl; [lia|]. rw length_app length_fmap. lia.
  - destruct (w_streams w); simpl; lia.
Defined.

Lemma run_ends_witness :
  is_Some (run_loop (λ _, None) sample_config 100 [sample_prompt] steered_state).1.
Proof.
  apply (run_ends (λ _, None) sample_config); vm_compute; discriminate || lia.
Defined.
