(* ===== verification/SessionEntries.v ===== *)
(** * Session entries and the model's context ([src/session.rs])

    The entries of a session's current path and the messages a provider gets
    from them: everything, or, after a compaction, its summary and the entries
    from the first one it kept.  The time stamps of an entry are one opaque
    value; nothing but the stored form of the entry depends on them. *)

From S2P Require Import Prelude Text Json Messages.

(** [SessionMessage] *)
Inductive SessionMessage :=
| SmUser (content : UserContent)
| SmAssistant (message : AssistantMessage)
| SmToolResult (tool_call_id tool_name : Str) (content : list ContentBlock) (details : option Json) (is_error : bool)
| SmCustom (custom_type content : Str) (display : bool) (details : option Json)
| SmBashExecution (command output : Str) (exit_code : Z) (cancelled truncated : option bool)
    (full_output_path : option Str) (extra : gmap Str Json)
| SmBranchSummary (summary from_id : Str)
| SmCompactionSummary (summary : Str) (tokens_before : Z).

(** The identifiers of an entry and its time stamps. *)
Record EntryBase := mkBase { e_id : option Str; e_parent_id : option Str; e_stamp : Str }.

Record CompactionEntry := mkCompaction {
  ce_summary : Str;
  ce_first_kept_entry_id : Str;
  ce_tokens_before : Z;
  ce_details : option Json;
  ce_from_hook : option bool;
}.

Record BranchSummaryEntry := mkBranchSummary {
  be_from_id : Str; be_summary : Str; be_details : option Json; be_from_hook : option bool }.

Inductive EntryKind :=
| EMessage (message : SessionMessage)
| EModelChange (provider model_id : Str)
| EThinkingLevelChange (thinking_level : Str)
| ECompaction (e : CompactionEntry)
| EBranchSummary (e : BranchSummaryEntry)
| ELabel (target_id : Str) (label : option Str)
| ESessionInfo (name : option Str)
| ECustom (custom_type : Str) (data : option Json).

(** [SessionEntry]: the base every variant carries, and the variant. *)
Record SessionEntry := mkEntry { entry_base : EntryBase; entry_kind : EntryKind }.

Definition base_id (e : SessionEntry) : option Str := e_id (entry_base e).
Definition parent_id (e : SessionEntry) : option Str := e_parent_id (entry_base e).

(** [From<Message>] *)
Definition session_message_from (message : Message) : SessionMessage :=
  match message with
  | User user => SmUser (um_content user)
  | Assistant assistant => SmAssistant assistant
  | ToolResult r => SmToolResult (tr_tool_call_id r) (tr_tool_name r) (tr_content r) (tr_details r) (tr_is_error r)
  | Custom c => SmCustom (cm_custom_type c) (cm_content c) (cm_display c) (cm_details c)
  end.

(** ** Messages for the model *)

Definition COMPACTION_SUMMARY_PREFIX : Str :=
  str "The conversation history before this point was compacted into the following summary:" ++ [c_nl; c_nl]
  ++ str "<summary>" ++ [c_nl].
Definition COMPACTION_SUMMARY_SUFFIX : Str := c_nl :: str "</summary>".
Definition BRANCH_SUMMARY_PREFIX : Str :=
  str "The following is a summary of a branch that this conversation came back from:" ++ [c_nl; c_nl]
  ++ str "<summary>" ++ [c_nl].
Definition BRANCH_SUMMARY_SUFFIX : Str := str "</summary>".

Definition show_i32 (n : Z) : Str := if n <? 0 then str "-" ++ show_u64 (- n) else show_u64 n.

Definition c_backtick : N := 96.

Definition bash_execution_to_text (command output : Str) (exit_code : Z) (cancelled truncated : bool)
    (full_output_path : option Str) : Str :=
  let fence := [c_backtick; c_backtick; c_backtick] in
  let text := str "Ran " ++ [c_backtick] ++ command ++ [c_backtick; c_nl] in
  let text := if is_empty output then text ++ str "(no output)"
              else text ++ fence ++ [c_nl] ++ output ++ (if ends_with output [c_nl] then [] else [c_nl]) ++ fence in
  let text := if cancelled then text ++ [c_nl; c_nl] ++ str "(command cancelled)"
              else if negb (exit_code =? 0) then text ++ [c_nl; c_nl] ++ str "Command exited with code " ++ show_i32 exit_code
              else text in
  if truncated then
    match full_output_path with
    | Some path => text ++ [c_nl; c_nl] ++ str "[Output truncated. Full output: " ++ path ++ str "]"
    | None => text ++ [c_nl; c_nl] ++ str "[Output truncated]"
    end
  else text.

Definition excluded_from_context (extra : gmap Str Json) : bool :=
  match extra !! str "excludeFromContext" with Some (JsonBool b) => b | _ => false end.

Definition user_text (s : Str) : Message := User (mkUser (UserBlocks [text_block s])).

Definition session_message_to_model (message : SessionMessage) : option Message :=
  match message with
  | SmUser content => Some (User (mkUser content))
  | SmAssistant message => Some (Assistant message)
  | SmToolResult tool_call_id tool_name content details is_error =>
      Some (ToolResult (mkToolResult tool_call_id tool_name content details is_error))
  | SmCustom custom_type content display details => Some (Custom (mkCustom content custom_type display details))
  | SmBashExecution command output exit_code cancelled truncated full_output_path extra =>
      if excluded_from_context extra then None
      else Some (user_text (bash_execution_to_text command output exit_code (default false cancelled)
                              (default false truncated) full_output_path))
  | SmBranchSummary summary _ => Some (user_text (BRANCH_SUMMARY_PREFIX ++ summary ++ BRANCH_SUMMARY_SUFFIX))
  | SmCompactionSummary summary _ =>
      Some (user_text (COMPACTION_SUMMARY_PREFIX ++ summary ++ COMPACTION_SUMMARY_SUFFIX))
  end.

(** What an entry adds to the context. *)
Definition append_model_message_for_entry (entry : SessionEntry) : list Message :=
  match entry_kind entry with
  | EMessage message => option_list (session_message_to_model message)
  | EBranchSummary e => option_list (session_message_to_model (SmBranchSummary (be_summary e) (be_from_id e)))
  | _ => []
  end.

Definition context_of (entries : list SessionEntry) : list Message := entries ≫= append_model_message_for_entry.

(** The last compaction of a path, with its index. *)
Fixpoint last_compaction (idx : nat) (path : list SessionEntry) : option (nat * CompactionEntry) :=
  match path with
  | [] => None
  | entry :: path' =>
      match last_compaction (S idx) path' with
      | Some r => Some r
      | None => match entry_kind entry with ECompaction c => Some (idx, c) | _ => None end
      end
  end.

Definition has_id (id : Str) (entry : SessionEntry) : bool := bool_decide (base_id entry = Some id).

(** The loop's state: [keep]; the flag [past_compaction] is computed from the
    index. *)
Fixpoint keep_loop (compaction_idx : nat) (first_kept : Str) (has_kept_entry : bool) (idx : nat) (keep : bool)
    (path : list SessionEntry) : list Message :=
  match path with
  | [] => []
  | entry :: path' =>
      let past_compaction := (compaction_idx <=? idx)%nat in
      let keep := keep || (if has_kept_entry then has_id first_kept entry else past_compaction) in
      (if keep then append_model_message_for_entry entry else [])
      ++ keep_loop compaction_idx first_kept has_kept_entry (S idx) keep path'
  end.

Definition to_messages_from_path (path : list SessionEntry) : list Message :=
  match last_compaction 0 path with
  | Some (compaction_idx, compaction) =>
      option_list (session_message_to_model (SmCompactionSummary (ce_summary compaction) (ce_tokens_before compaction)))
      ++ keep_loop compaction_idx (ce_first_kept_entry_id compaction)
           (existsb (has_id (ce_first_kept_entry_id compaction)) path) 0 false path
  | None => context_of path
  end.

(** ** Lemmas *)

Definition is_compaction (entry : SessionEntry) : bool :=
  match entry_kind entry with ECompaction _ => true | _ => false end.

Lemma context_of_app l k : context_of (l ++ k) = context_of l ++ context_of k.
Proof. unfold context_of. by rw bind_app. Qed.

Lemma last_compaction_snoc idx path entry :
  last_compaction idx (path ++ [entry]) =
  match entry_kind entry with
  | ECompaction c => Some ((idx + length path)%nat, c)
  | _ => last_compaction idx path
  end.
Proof.
  revert idx. induction path as [|x path IH]; intros idx; simpl.
  - destruct (entry_kind entry); rw ?Nat.add_0_r //.
  - rw IH. destruct (entry_kind entry); simpl; try done. by rw Nat.add_succ_r.
Qed.

Lemma last_compaction_none path idx : forallb (λ e, negb (is_compaction e)) path = true → last_compaction idx path = None.
Proof.
  revert idx. induction path as [|x path IH]; intros idx; simpl; [done|]. intros [Hx Hp]%andb_true_iff.
  rw IH //. unfold is_compaction in Hx. by destruct (entry_kind x).
Qed.

Lemma keep_loop_kept ci fk hk idx path : keep_loop ci fk hk idx true path = context_of path.
Proof. revert idx. induction path as [|x path IH]; intros idx; simpl; [done|]. by rw IH. Qed.

(** When the kept entry is on the path, the context is the part from its
    first occurrence on. *)
Lemma keep_loop_from ci fk idx pre entry post :
  base_id entry = Some fk → Forall (λ e, base_id e ≠ Some fk) pre →
  keep_loop ci fk true idx false (pre ++ entry :: post) = context_of (entry :: post).
Proof.
  intros He Hpre. revert idx. induction Hpre as [|x pre Hx Hpre IH]; intros idx; simpl.
  - unfold has_id. rw bool_decide_true //= keep_loop_kept //.
  - replace (has_id fk x) with false by (unfold has_id; by rw bool_decide_false). apply IH.
Qed.

(** The context after a compaction is appended: the summary, then what it
    kept. *)
Lemma context_after_compaction pre entry post base c :
  base_id entry = Some (ce_first_kept_entry_id c) →
  Forall (λ e, base_id e ≠ Some (ce_first_kept_entry_id c)) pre →
  to_messages_from_path ((pre ++ entry :: post) ++ [mkEntry base (ECompaction c)]) =
  user_text (COMPACTION_SUMMARY_PREFIX ++ ce_summary c ++ COMPACTION_SUMMARY_SUFFIX) :: context_of (entry :: post).
Proof.
  intros He Hpre. unfold to_messages_from_path. rw last_compaction_snoc. simpl.
  assert (existsb (has_id (ce_first_kept_entry_id c)) ((pre ++ entry :: post) ++ [mkEntry base (ECompaction c)]) = true) as ->.
  { apply existsb_exists. exists entry. split; [apply in_or_app; left; apply in_or_app; right; by left|].
    unfold has_id. by rw bool_decide_true. }
  rw -assoc /= (keep_loop_from _ _ _ pre entry) //. do 2 f_equal.
  change (entry :: post ++ ?x) with ((entry :: post) ++ x). rw context_of_app. by rw app_nil_r.
Qed.

(** A message stored in a session comes back unchanged. *)
Lemma session_message_round_trip m : session_message_to_model (session_message_from m) = Some m.
Proof. by destruct m as [[]|[]|[]|[]]. Qed.
