(* ===== verification/SessionAutosave.v ===== *)
(** * The autosave queue of a session ([AutosaveQueue] of [src/session.rs])

    A session is written behind its changes: every change is counted, a flush
    writes them all, and changes made while a flush runs stay pending.  The
    reference is the log of changes and how many of them have been written. *)

From S2P Require Import Prelude Text Messages.

Inductive AutosaveDurabilityMode := DurStrict | DurBalanced | DurThroughput.

Definition durability_parse (value : Str) : option AutosaveDurabilityMode :=
  let v := to_ascii_lowercase (trim value) in
  if bool_decide (v = str "strict") then Some DurStrict
  else if bool_decide (v = str "balanced") then Some DurBalanced
  else if bool_decide (v = str "throughput") then Some DurThroughput
  else None.

Definition should_flush_on_shutdown (mode : AutosaveDurabilityMode) : bool :=
  match mode with DurStrict | DurBalanced => true | DurThroughput => false end.

Definition best_effort_on_shutdown (mode : AutosaveDurabilityMode) : bool :=
  match mode with DurBalanced => true | _ => false end.

Definition or_else {A} (a b : option A) : option A := match a with Some _ => a | None => b end.

Definition resolve_autosave_durability_mode (cli_mode config_mode env_mode : option Str) : AutosaveDurabilityMode :=
  default DurBalanced (or_else (or_else (cli_mode ≫= durability_parse) (config_mode ≫= durability_parse))
                         (env_mode ≫= durability_parse)).

Inductive AutosaveFlushTrigger := Manual | Periodic | Shutdown.
Inductive AutosaveMutationKind := MutMessage | MutMetadata | MutLabel.

(** [started_at] is left out: the duration of a flush is an input of
    [finish_flush]. *)
Record AutosaveFlushTicket := mkTicket {
  batch_size : Z; through_sequence : Z; ticket_trigger : AutosaveFlushTrigger }.

Record AutosaveQueue := mkAutosave {
  pending_mutations : Z;
  max_pending_mutations : Z;
  mutation_sequence : Z;
  flushed_sequence : Z;
  coalesced_mutations : Z;
  backpressure_events : Z;
  flush_started : Z;
  flush_succeeded : Z;
  flush_failed : Z;
  last_flush_batch_size : Z;
  last_flush_duration_ms : option Z;
  last_flush_trigger : option AutosaveFlushTrigger;
}.

Definition DEFAULT_AUTOSAVE_MAX_PENDING_MUTATIONS : Z := 256.

Definition autosave_max_pending_mutations (env : option Str) : Z :=
  match env ≫= parse_u64 with
  | Some value => if 0 <? value then value else DEFAULT_AUTOSAVE_MAX_PENDING_MUTATIONS
  | None => DEFAULT_AUTOSAVE_MAX_PENDING_MUTATIONS
  end.

Definition AutosaveQueue_new (env : option Str) : AutosaveQueue :=
  mkAutosave 0 (autosave_max_pending_mutations env) 0 0 0 0 0 0 0 0 None None.

Definition enqueue_mutation (_kind : AutosaveMutationKind) (q : AutosaveQueue) : AutosaveQueue :=
  let seq := sat_add u64_max (mutation_sequence q) 1 in
  if pending_mutations q =? 0 then
    mkAutosave 1 (max_pending_mutations q) seq (flushed_sequence q) (coalesced_mutations q) (backpressure_events q)
      (flush_started q) (flush_succeeded q) (flush_failed q) (last_flush_batch_size q) (last_flush_duration_ms q)
      (last_flush_trigger q)
  else
    let coalesced := sat_add u64_max (coalesced_mutations q) 1 in
    let full := negb (pending_mutations q <? max_pending_mutations q) in
    mkAutosave (if full then pending_mutations q else pending_mutations q + 1) (max_pending_mutations q) seq
      (flushed_sequence q) coalesced
      (if full then sat_add u64_max (backpressure_events q) 1 else backpressure_events q)
      (flush_started q) (flush_succeeded q) (flush_failed q) (last_flush_batch_size q) (last_flush_duration_ms q)
      (last_flush_trigger q).

Definition begin_flush (trigger : AutosaveFlushTrigger) (q : AutosaveQueue) : AutosaveQueue * option AutosaveFlushTicket :=
  if pending_mutations q =? 0 then (q, None)
  else
    (mkAutosave (pending_mutations q) (max_pending_mutations q) (mutation_sequence q) (flushed_sequence q)
       (coalesced_mutations q) (backpressure_events q) (sat_add u64_max (flush_started q) 1) (flush_succeeded q)
       (flush_failed q) (pending_mutations q) (last_flush_duration_ms q) (Some trigger),
     Some (mkTicket (pending_mutations q) (mutation_sequence q) trigger)).

Definition finish_flush (ticket : AutosaveFlushTicket) (success : bool) (elapsed : Z) (q : AutosaveQueue) : AutosaveQueue :=
  let elapsed := Z.min elapsed u64_max in
  if success then
    let flushed := Z.max (flushed_sequence q) (through_sequence ticket) in
    let remaining := sat_sub (mutation_sequence q) flushed in
    mkAutosave (Z.min (Z.min usize_max remaining) (max_pending_mutations q)) (max_pending_mutations q)
      (mutation_sequence q) flushed (coalesced_mutations q) (backpressure_events q) (flush_started q)
      (sat_add u64_max (flush_succeeded q) 1) (flush_failed q) (last_flush_batch_size q) (Some elapsed)
      (Some (ticket_trigger ticket))
  else
    mkAutosave (pending_mutations q) (max_pending_mutations q) (mutation_sequence q) (flushed_sequence q)
      (coalesced_mutations q) (backpressure_events q) (flush_started q) (flush_succeeded q)
      (sat_add u64_max (flush_failed q) 1) (last_flush_batch_size q) (Some elapsed) (Some (ticket_trigger ticket)).

(** ** Histories

    A flush that is dropped half way simply has no [Finish]; flushes may
    overlap and end in any order. *)
Inductive AutosaveEvent :=
| Mutate (kind : AutosaveMutationKind)
| Begin (trigger : AutosaveFlushTrigger)
| Finish (ticket : nat) (success : bool) (elapsed : Z).

Definition autosave_step (st : AutosaveQueue * list AutosaveFlushTicket) (ev : AutosaveEvent)
    : AutosaveQueue * list AutosaveFlushTicket :=
  let '(q, tickets) := st in
  match ev with
  | Mutate kind => (enqueue_mutation kind q, tickets)
  | Begin trigger =>
      match begin_flush trigger q with
      | (q', Some ticket) => (q', tickets ++ [ticket])
      | (q', None) => (q', tickets)
      end
  | Finish i success elapsed =>
      match tickets !! i with Some ticket => (finish_flush ticket success elapsed q, tickets) | None => st end
  end.

(** The reference: how many changes were made, how many of them are written,
    and how many had been made when each flush began. *)
Record Written := mkWritten { made : Z; written : Z; begun : list Z }.

Definition written_step (w : Written) (ev : AutosaveEvent) : Written :=
  match ev with
  | Mutate _ => mkWritten (made w + 1) (written w) (begun w)
  | Begin _ => if made w =? written w then w else mkWritten (made w) (written w) (begun w ++ [made w])
  | Finish i true _ =>
      match begun w !! i with Some n => mkWritten (made w) (Z.max (written w) n) (begun w) | None => w end
  | Finish _ false _ => w
  end.

Definition autosave_inv (env : option Str) (st : AutosaveQueue * list AutosaveFlushTicket) (w : Written) : Prop :=
  let q := st.1 in
  max_pending_mutations q = autosave_max_pending_mutations env ∧
  mutation_sequence q = made w ∧ flushed_sequence q = written w ∧
  pending_mutations q = Z.min (max_pending_mutations q) (made w - written w) ∧
  through_sequence <$> st.2 = begun w ∧ 0 ≤ written w ≤ made w ∧ Forall (λ n, n ≤ made w) (begun w).

Lemma autosave_max_positive env : 1 ≤ autosave_max_pending_mutations env.
Proof.
  unfold autosave_max_pending_mutations, DEFAULT_AUTOSAVE_MAX_PENDING_MUTATIONS.
  destruct (env ≫= parse_u64) as [v|]; [|lia]. destruct (Z.ltb_spec 0 v); lia.
Qed.

Lemma made_grows w ev : made w ≤ made (written_step w ev) ≤ made w + 1.
Proof.
  destruct ev as [k|tr|i [] el]; simpl; [lia|destruct (made w =? written w); simpl; lia| |lia].
  destruct (begun w !! i); simpl; lia.
Qed.

Lemma made_grows_all evs w : made w ≤ made (fold_left written_step evs w).
Proof. revert w. induction evs as [|ev evs IH]; intros w; simpl; [done|]. pose proof (made_grows w ev). pose proof (IH (written_step w ev)). lia. Qed.

Lemma autosave_step_inv env st w ev :
  autosave_inv env st w → made (written_step w ev) ≤ u64_max →
  autosave_inv env (autosave_step st ev) (written_step w ev).
Proof.
  destruct st as [q tickets]. intros (Hmax & Hseq & Hfl & Hp & Ht & Hw & Hb) Hm. pose proof (autosave_max_positive env) as Hpos.
  assert (made w ≤ u64_max) as Hle by (pose proof (made_grows w ev); lia).
  simpl in *. destruct ev as [k|tr|i success el]; unfold autosave_inv; simpl in *.
  - assert (Forall (λ n, n ≤ made w + 1) (begun w)) as Hb' by (eapply Forall_impl; [exact Hb|]; simpl; lia).
    unfold enqueue_mutation. destruct (Z.eqb_spec (pending_mutations q) 0); simpl; unfold sat_add;
      [split_and!; try done; lia|]. destruct (Z.ltb_spec (pending_mutations q) (max_pending_mutations q)); simpl; split_and!; try done; lia.
  - unfold begin_flush. destruct (Z.eqb_spec (pending_mutations q) 0) as [E|E], (Z.eqb_spec (made w) (written w)) as [E'|E']; simpl; try lia.
    + split_and!; try done; lia.
    + rw fmap_app Ht Hseq. split_and!; try done; try lia. apply Forall_app_2; [done|]. by apply Forall_singleton.
  - assert (begun w !! i = through_sequence <$> tickets !! i) as -> by by rw -Ht list_lookup_fmap.
    destruct (tickets !! i) as [t|] eqn:Ei; simpl; [|destruct success; split_and!; try done; lia].
    assert (through_sequence t ≤ made w) as Hti.
    { rw Forall_forall in Hb. apply Hb. rw -Ht. apply list_elem_of_fmap. exists t. split; [done|]. by eapply list_elem_of_lookup_2. }
    unfold finish_flush. destruct success; simpl; [|split_and!; try done; lia]. unfold sat_sub, usize_max. split_and!; try done; lia.
Qed.

(** No change is forgotten by the autosave queue.  After any history of
    changes and flushes, overlapping, failing or abandoned, the number of
    pending changes is the number of changes that no successful flush has
    written, where a flush writes the changes made before it began, counted
    up to the queue's limit; in particular the queue reports nothing to do
    exactly when everything is written.  (The history is shorter than a
    64-bit counter.) *)
Theorem autosave_pending_exact env evs :
  let w := fold_left written_step evs (mkWritten 0 0 []) in
  let q := (fold_left autosave_step evs (AutosaveQueue_new env, [])).1 in
  made w ≤ u64_max →
  pending_mutations q = Z.min (max_pending_mutations q) (made w - written w) ∧
  (pending_mutations q = 0 ↔ made w = written w).
Proof.
  intros w q Hm.
  assert (autosave_inv env (fold_left autosave_step evs (AutosaveQueue_new env, [])) w) as (Hmax & _ & _ & Hp & _ & Hw & _).
  { unfold w in *. clear w q. assert (autosave_inv env (AutosaveQueue_new env, []) (mkWritten 0 0 [])) as Hinv.
    { pose proof (autosave_max_positive env). unfold autosave_inv, AutosaveQueue_new. simpl. split_and!; try done; lia. }
    revert Hinv Hm. generalize (AutosaveQueue_new env, @nil AutosaveFlushTicket) as st, (mkWritten 0 0 []) as w.
    induction evs as [|ev evs IH]; intros st w Hinv Hm; simpl in *; [done|]. apply IH; [|done]. apply autosave_step_inv; [done|].
    pose proof (made_grows_all evs (written_step w ev)). lia. }
  fold q in Hmax, Hp. pose proof (autosave_max_positive env). split; [done|]. lia.
Qed.

Lemma autosave_pending_exact_witness :
  let evs := [Mutate MutMessage; Begin Periodic; Mutate MutLabel; Finish 0 true 3; Begin Manual; Finish 1 false 1] in
  pending_mutations (fold_left autosave_step evs (AutosaveQueue_new None, [])).1 = 1.
Proof.
  intros evs. destruct (autosave_pending_exact None evs) as [E _]; [by vm_compute|]. rw E. by vm_compute.
Defined.
