(* ===== verification/SessionGraph.v ===== *)
(** * Graphs of session entries, and merging them ([src/session.rs])

    The entries of a session are a forest by their parent links.  Before they
    are written, the entries of this process are merged with those that other
    processes have put into the file, and ordered so that parents come first;
    other backends validate the graph without changing its order.

    The stored form of an entry, [encode], is a parameter ([serde_json]). *)

From S2P Require Import Prelude Text Utf8 Json Messages SessionEntries.

Definition session_error (message : Str) : Error := ErrSession message.

(** ** Identifiers and links *)

(** The loop that fills [positions] from an index on. *)
Fixpoint index_ids (missing : Str) (duplicate : Str → Str) (index : nat) (positions : gmap Str nat)
    (entries : list SessionEntry) : result (gmap Str nat) Error :=
  match entries with
  | [] => Ok positions
  | entry :: entries' =>
      match base_id entry with
      | None => Err (session_error missing)
      | Some id =>
          match positions !! id with
          | Some _ => Err (session_error (duplicate id))
          | None => index_ids missing duplicate (S index) (<[id := index]> positions) entries'
          end
      end
  end.

Definition entry_id_set (entries : list SessionEntry) : gset Str := list_to_set (omap base_id entries).

Definition missing_parent (entry : SessionEntry) (parent : Str) : Error :=
  session_error (str "session entry " ++ default (str "<missing-id>") (base_id entry)
    ++ str " references missing parent " ++ parent).

Fixpoint links_closed_loop (entry_ids : gset Str) (entries : list SessionEntry) : result unit Error :=
  match entries with
  | [] => Ok tt
  | entry :: entries' =>
      match parent_id entry with
      | Some parent => if decide (parent ∈ entry_ids) then links_closed_loop entry_ids entries'
                       else Err (missing_parent entry parent)
      | None => links_closed_loop entry_ids entries'
      end
  end.

Definition ensure_session_parent_links_closed (entries : list SessionEntry) : result unit Error :=
  links_closed_loop (entry_id_set entries) entries.

(** ** Kahn's algorithm

    An entry has at most one parent, so its in-degree is 0 or 1. *)

Definition parent_index (positions : gmap Str nat) (entry : SessionEntry) : option nat :=
  parent_id entry ≫= λ p, positions !! p.

Definition indegrees (parents : list (option nat)) : list Z :=
  (λ p, match p with Some _ => 1 | None => 0 end) <$> parents.

(** [children[parent].push(index)] for every index, in order. *)
Fixpoint children_loop (index : nat) (children : list (list nat)) (parents : list (option nat)) : list (list nat) :=
  match parents with
  | [] => children
  | Some p :: parents' => children_loop (S index) (alter (λ l, l ++ [index]) p children) parents'
  | None :: parents' => children_loop (S index) children parents'
  end.

Definition children_of (parents : list (option nat)) : list (list nat) :=
  children_loop 0 (replicate (length parents) []) parents.

Section Kahn.
(** How an index joins the ready ones; the head is taken next. *)
Context (insert_ready : nat → list nat → list nat).

Definition release (st : list Z * list nat) (child : nat) : list Z * list nat :=
  let '(indegree, ready) := st in
  match indegree !! child with
  | Some d =>
      let d := sat_sub d 1 in
      (<[child := d]> indegree, if d =? 0 then insert_ready child ready else ready)
  | None => st
  end.

(** The [while let Some(index) = ready.pop()] loop: the indices in the order
    they are taken. *)
Fixpoint kahn_loop (fuel : nat) (children : list (list nat)) (indegree : list Z) (ready order : list nat) : list nat :=
  match fuel, ready with
  | S fuel', index :: ready' =>
      let '(indegree', ready'') := fold_left release (default [] (children !! index)) (indegree, ready') in
      kahn_loop fuel' children indegree' ready'' (order ++ [index])
  | _, _ => order
  end.

Definition zero_indices (indegree : list Z) : list nat :=
  omap (λ '(i, d), if d =? 0 then Some i else None) (imap (λ i d, (i, d)) indegree).

Definition kahn (parents : list (option nat)) : list nat :=
  let indegree := indegrees parents in
  kahn_loop (S (length parents)) (children_of parents) indegree
    (fold_left (λ ready i, insert_ready i ready) (zero_indices indegree) []) [].
End Kahn.

(** A [Vec] as a stack, and a [BinaryHeap] of [Reverse] indices. *)
Definition stack_push (i : nat) (ready : list nat) : list nat := i :: ready.
Fixpoint heap_push (i : nat) (ready : list nat) : list nat :=
  match ready with
  | [] => [i]
  | j :: ready' => if (i <=? j)%nat then i :: ready else j :: heap_push i ready'
  end.

Definition validate_session_entry_graph (entries : list SessionEntry) : result unit Error :=
  let? positions := index_ids (str "session entry is missing its ID")
                      (λ id, str "session contains duplicate entry ID " ++ id) 0 ∅ entries in
  let? parents := collect_results (λ entry,
    match parent_id entry with
    | None => Ok None
    | Some p => match positions !! p with Some i => Ok (Some i) | None => Err (missing_parent entry p) end
    end) entries in
  let visited := length (kahn stack_push parents) in
  if (visited =? length entries)%nat then Ok tt
  else Err (session_error (str "session parent graph contains a cycle; refusing to persist it")).

(** [slots[index].take()] for the indices in turn. *)
Fixpoint take_slots (slots : list (option SessionEntry)) (order : list nat) : result (list SessionEntry) Error :=
  match order with
  | [] => Ok []
  | index :: order' =>
      match mjoin (slots !! index) with
      | None => Err (session_error (str "session topological ordering selected a row twice"))
      | Some entry => let? ordered := take_slots (<[index := None]> slots) order' in Ok (entry :: ordered)
      end
  end.

Definition stable_parent_topological_order (entries : list SessionEntry) : result (list SessionEntry) Error :=
  if (length entries <? 2)%nat then Ok entries
  else
    let? positions := index_ids (str "session entry is missing its ID")
                        (λ id, str "session contains duplicate entry ID " ++ id) 0 ∅ entries in
    let order := kahn heap_push (parent_index positions <$> entries) in
    let? ordered := take_slots (Some <$> entries) order in
    if (length ordered =? length entries)%nat then Ok ordered
    else Err (session_error (str "session parent graph contains a cycle; refusing to rewrite it")).

(** ** Merging with the file *)

Section Merge.
Context (encode : SessionEntry → list N).

Definition conflicting (id : Str) : Error :=
  session_error (str "session entry ID " ++ id ++ str " has conflicting persisted and in-memory payloads").

(** The loop of [prepare_jsonl_full_rewrite] over the entries in memory. *)
Fixpoint merge_local (positions : gmap Str nat) (merged : list SessionEntry) (seen : gset Str)
    (entries : list SessionEntry) : result (list SessionEntry) Error :=
  match entries with
  | [] => Ok merged
  | entry :: entries' =>
      match base_id entry with
      | None => Err (session_error (str "in-memory session entry is missing its ID"))
      | Some id =>
          if decide (id ∈ seen)
          then Err (session_error (str "in-memory session contains duplicate entry ID " ++ id))
          else
            match positions !! id with
            | Some index =>
                if decide (encode <$> merged !! index = Some (encode entry))
                then merge_local positions merged ({[id]} ∪ seen) entries'
                else Err (conflicting id)
            | None => merge_local (<[id := length merged]> positions) (merged ++ [entry]) ({[id]} ∪ seen) entries'
            end
      end
  end.

(** [prepare_jsonl_full_rewrite], once the file is read: its entries are
    [disk], none when there is no file. *)
Definition merge_for_rewrite (disk entries : list SessionEntry) : result (list SessionEntry) Error :=
  let? positions := index_ids (str "persisted session entry is missing its ID")
                      (λ id, str "persisted session contains duplicate entry ID " ++ id) 0 ∅ disk in
  let? merged := merge_local positions disk ∅ entries in
  let? _closed := ensure_session_parent_links_closed merged in
  stable_parent_topological_order merged.

Definition MAX_JSONL_LINE_BYTES : Z := 100 * 1024 * 1024.

Definition ensure_jsonl_line_len_within_limit (byte_length max_bytes : Z) (description : Str) : result unit Error :=
  if max_bytes <? byte_length
  then Err (session_error (description ++ str " serialized JSONL line is " ++ show_u64 byte_length
              ++ str " bytes; maximum is " ++ show_u64 max_bytes))
  else Ok tt.

Definition validate_jsonl_entries_for_write (entries : list SessionEntry) : result unit Error :=
  let? _lines := collect_results (λ e, ensure_jsonl_line_len_within_limit (len (encode e)) MAX_JSONL_LINE_BYTES (str "session entry")) entries in
  Ok tt.

(** The two loops of [plan_jsonl_incremental_append] before ordering:
    [persisted] maps identifiers to stored forms. *)
Fixpoint index_payloads (persisted : gmap Str (list N)) (entries : list SessionEntry) : result (gmap Str (list N)) Error :=
  match entries with
  | [] => Ok persisted
  | entry :: entries' =>
      match base_id entry with
      | None => Err (session_error (str "persisted session entry is missing its ID"))
      | Some id =>
          match persisted !! id with
          | Some _ => Err (session_error (str "persisted session contains duplicate entry ID " ++ id))
          | None => index_payloads (<[id := encode entry]> persisted) entries'
          end
      end
  end.

Fixpoint pending_loop (persisted : gmap Str (list N)) (seen : gset Str) (pending entries : list SessionEntry)
    : result (list SessionEntry) Error :=
  match entries with
  | [] => Ok pending
  | entry :: entries' =>
      match base_id entry with
      | None => Err (session_error (str "in-memory session entry is missing its ID"))
      | Some id =>
          if decide (id ∈ seen)
          then Err (session_error (str "incremental session append contains duplicate entry ID " ++ id))
          else
            let? _fits := ensure_jsonl_line_len_within_limit (len (encode entry)) MAX_JSONL_LINE_BYTES (str "session entry") in
            match persisted !! id with
            | Some payload =>
                if decide (payload = encode entry) then pending_loop persisted ({[id]} ∪ seen) pending entries'
                else Err (conflicting id)
            | None => pending_loop (<[id := encode entry]> persisted) ({[id]} ∪ seen) (pending ++ [entry]) entries'
            end
      end
  end.

Record JsonlAppendPlan := mkAppendPlan {
  ordered_entries : list SessionEntry;
  serialized_entries : list N;
  entries_appended : list SessionEntry;
  plan_message_count : Z;
  plan_session_name : option Str;
}.

(** What an entry does to the statistics of a session. *)
Definition count_entry (st : Z * option Str) (entry : SessionEntry) : Z * option Str :=
  match entry_kind entry with
  | EMessage _ => (sat_add u64_max st.1 1, st.2)
  | ESessionInfo (Some name) => (st.1, Some name)
  | _ => st
  end.

Definition plan_jsonl_incremental_append (disk : list SessionEntry) (disk_count : Z) (disk_name : option Str)
    (new_entries : list SessionEntry) : result JsonlAppendPlan Error :=
  let? persisted := index_payloads ∅ disk in
  let? pending := pending_loop persisted ∅ [] new_entries in
  let pending_ids := entry_id_set pending in
  let merged := disk ++ pending in
  let? _closed := ensure_session_parent_links_closed merged in
  let? ordered := stable_parent_topological_order merged in
  let appended := List.filter (λ e, match base_id e with Some id => bool_decide (id ∈ pending_ids) | None => false end) ordered in
  let '(count, name) := fold_left count_entry appended (disk_count, disk_name) in
  Ok (mkAppendPlan ordered (appended ≫= λ e, encode e ++ [c_nl]) appended count name).
End Merge.

(** ** The order of Kahn's algorithm *)

Section KahnProofs.
Context (parents : list (option nat)).
Abbreviation n := (length parents).
Definition has_parent (i p : nat) : Prop := parents !! i = Some (Some p).
Definition is_root (i : nat) : Prop := parents !! i = Some None.
Context (parents_valid : ∀ i p, has_parent i p → (p < n)%nat).

Lemma children_loop_spec ps idx ch p l :
  ch !! p = Some l →
  ∃ k, children_loop idx ch ps !! p = Some (l ++ k) ∧ NoDup k ∧
    ∀ i, i ∈ k ↔ (idx ≤ i)%nat ∧ ps !! (i - idx)%nat = Some (Some p).
Proof.
  revert idx ch l. induction ps as [|q ps IH]; intros idx ch l Hl; simpl.
  { exists []. rw app_nil_r. split_and!; [done|constructor|]. intros i. split; [intros Hi; by apply elem_of_nil in Hi|].
    intros [_ Hi]. by rw lookup_nil in Hi. }
  assert (∀ i, (S idx ≤ i)%nat → (q :: ps) !! (i - idx)%nat = ps !! (i - S idx)%nat) as Hshift.
  { intros i Hi. replace (i - idx)%nat with (S (i - S idx)) by lia. done. }
  destruct q as [q|].
  - destruct (decide (q = p)) as [->|Hne].
    + destruct (IH (S idx) (alter (λ l, l ++ [idx]) p ch) (l ++ [idx])) as (k & Hk & Hn & Hi).
      { by rw list_lookup_alter_eq Hl. }
      exists (idx :: k). rw Hk -assoc. split_and!; [done|constructor; [rw Hi; lia|done]|].
      intros i. rw elem_of_cons Hi. destruct (decide (i = idx)) as [->|Hne].
      * rw Nat.sub_diag. simpl. split; [auto|by left].
      * split; [intros [?|[? ?]]; [done|]|intros [? Hl']; right]; (split; [lia|]); [rw Hshift //; lia|rw -Hshift //; lia].
    + destruct (IH (S idx) (alter (λ l, l ++ [idx]) q ch) l) as (k & Hk & Hn & Hi).
      { by rw list_lookup_alter_ne. }
      exists k. split_and!; [done|done|]. intros i. rw Hi. destruct (decide (i = idx)) as [->|Hne'].
      * rw Nat.sub_diag. simpl. split; [lia|]. intros [_ [=]]. done.
      * split; intros [? ?]; (split; [lia|]); [rw Hshift //; lia|rw -Hshift //; lia].
  - destruct (IH (S idx) ch l Hl) as (k & Hk & Hn & Hi). exists k. split_and!; [done|done|]. intros i. rw Hi.
    destruct (decide (i = idx)) as [->|Hne'].
    + rw Nat.sub_diag. simpl. split; [lia|]. by intros [_ [=]].
    + split; intros [? ?]; (split; [lia|]); [rw Hshift //; lia|rw -Hshift //; lia].
Qed.

Lemma children_spec p :
  (p < n)%nat → ∃ l, children_of parents !! p = Some l ∧ NoDup l ∧ ∀ i, i ∈ l ↔ has_parent i p.
Proof.
  intros Hp. destruct (children_loop_spec parents 0 (replicate n []) p []) as (k & Hk & Hn & Hi); [by apply lookup_replicate_2|].
  exists k. split_and!; [done|done|]. intros i. rw Hi Nat.sub_0_r. unfold has_parent. split; [tauto|]. split; [lia|done].
Qed.

Context (insert_ready : nat → list nat → list nat).
Context (insert_perm : ∀ i l, insert_ready i l ≡ₚ i :: l).

Lemma release_all l ind ready :
  NoDup l → (∀ c, c ∈ l → ind !! c = Some 1) →
  let r := fold_left (release insert_ready) l (ind, ready) in
  r.2 ≡ₚ l ++ ready ∧ ∀ i, r.1 !! i = if decide (i ∈ l) then Some 0 else ind !! i.
Proof.
  revert ind ready. induction l as [|c l IH]; intros ind ready Hn Hl; [split; [done|]; intros i; cbn; destruct (decide (i ∈ [])) as [Hin|]; [by apply elem_of_nil in Hin|done]|].
  apply NoDup_cons in Hn as [Hc Hn]. assert (ind !! c = Some 1) as E by (apply Hl; by left).
  cbn [fold_left release]. rw E. change (sat_sub 1 1) with 0. cbn [Z.eqb].
  destruct (IH (<[c:=0]> ind) (insert_ready c ready) Hn) as [Hp Hi].
  { intros d Hd. rw list_lookup_insert_ne; [apply Hl; by right|]. by intros ->. }
  split.
  - rw Hp insert_perm. symmetry. apply Permutation_middle.
  - intros i. rw Hi. destruct (decide (i = c)) as [->|Hne].
    + rw (decide_False _ _ Hc) decide_True; [|by left]. rw list_lookup_insert_eq; [done|by eapply lookup_lt_Some].
    + rw list_lookup_insert_ne //. destruct (decide (i ∈ l)); [rw decide_True //; by right|].
      rw decide_False //. rw elem_of_cons. tauto.
Qed.

Record kahn_inv (ind : list Z) (ready order : list nat) : Prop := {
  ki_nodup : NoDup (order ++ ready);
  ki_mem : ∀ i, i ∈ order ++ ready ↔ is_root i ∨ ∃ p, has_parent i p ∧ p ∈ order;
  ki_ind : ∀ i p, has_parent i p → ind !! i = Some (if decide (p ∈ order) then 0 else 1);
  ki_first : ∀ k i p, order !! k = Some i → has_parent i p → ∃ k', (k' < k)%nat ∧ order !! k' = Some p;
}.

Lemma kahn_inv_lt ind ready order i : kahn_inv ind ready order → i ∈ order ++ ready → (i < n)%nat.
Proof. intros H Hi. apply (ki_mem _ _ _ H) in Hi as [Hi|(p & Hi & _)]; by eapply lookup_lt_Some. Qed.

Lemma kahn_inv_length ind ready order : kahn_inv ind ready order → (length (order ++ ready) ≤ n)%nat.
Proof.
  intros H. transitivity (length (seq 0 n)); [|by rw length_seq]. apply NoDup_incl_length.
  - apply NoDup_ListNoDup, (ki_nodup _ _ _ H).
  - intros i Hi%list_elem_of_In. apply in_seq. pose proof (kahn_inv_lt _ _ _ i H Hi). lia.
Qed.

Lemma kahn_inv_step ind index ready order :
  kahn_inv ind (index :: ready) order →
  let r := fold_left (release insert_ready) (default [] (children_of parents !! index)) (ind, ready) in
  kahn_inv r.1 r.2 (order ++ [index]) ∧
  ∃ l, r.2 ≡ₚ l ++ ready ∧ ∀ i, i ∈ l ↔ has_parent i index.
Proof.
  intros H r. assert ((index < n)%nat) as Hlt.
  { eapply kahn_inv_lt; [exact H|]. apply elem_of_app. right. by left. }
  destruct (children_spec index Hlt) as (l & El & Hln & Hl). unfold r. rw El. cbn [default].
  pose proof (ki_nodup _ _ _ H) as Hnd. rw NoDup_app in Hnd. destruct Hnd as (Ho & Hor & Hr).
  assert (index ∉ order) as Hidx by (intros Hin; apply (Hor _ Hin); by left).
  assert (∀ c, c ∈ l → ind !! c = Some 1) as Hone.
  { intros c Hc%Hl. by rw (ki_ind _ _ _ H c index Hc) decide_False. }
  destruct (release_all l ind ready Hln Hone) as [Hp Hi]. clear r.
  set (r := fold_left _ _ _) in *. split; [|by exists l].
  assert (∀ c, c ∈ l → c ∉ order ++ index :: ready) as Hfresh.
  { intros c Hc%Hl Hin. apply (ki_mem _ _ _ H) in Hin as [Hroot|(p & Hpar & Hin)].
    - unfold has_parent, is_root in *. congruence.
    - unfold has_parent in *. assert (p = index) as -> by congruence. done. }
  assert ((order ++ [index]) ++ r.2 ≡ₚ (order ++ index :: ready) ++ l) as Hperm.
  { rw Hp -!assoc. f_equiv. simpl. f_equiv. apply Permutation_app_comm. }
  split.
  - rw Hperm NoDup_app. split_and!; [exact (ki_nodup _ _ _ H)|intros c Hc Hcl; by apply (Hfresh c Hcl)|done].
  - intros i. rw Hperm elem_of_app (ki_mem _ _ _ H) Hl. setoid_rewrite elem_of_app. setoid_rewrite list_elem_of_singleton. naive_solver.
  - intros i p Hip. rw Hi. destruct (decide (i ∈ l)) as [Hil|Hil].
    + apply Hl in Hil. assert (p = index) as -> by (unfold has_parent in *; congruence).
      rw decide_True //. apply elem_of_app. right. by left.
    + rw (ki_ind _ _ _ H i p Hip). assert (p ≠ index) as Hne by (intros ->; by apply Hil, Hl).
      repeat case_decide; try done; set_solver.
  - intros k i p Hk Hip. destruct (decide (k < length order)%nat) as [Hlt'|Hge].
    + rw lookup_app_l // in Hk. destruct (ki_first _ _ _ H k i p Hk Hip) as (k' & Hk' & E). exists k'. split; [done|].
      rw lookup_app_l //. lia.
    + assert (k = length order ∧ i = index) as [-> ->].
      { pose proof (lookup_lt_Some _ _ _ Hk) as Hb. rw length_app /= in Hb. assert (k = length order) as -> by lia.
        rw lookup_app_r // Nat.sub_diag in Hk. by injection Hk. }
      assert (index ∈ order ++ index :: ready) as Hin by (apply elem_of_app; right; by left).
      apply (ki_mem _ _ _ H) in Hin as [Hroot|(p' & Hip' & Hin)]; [unfold is_root, has_parent in *; congruence|].
      assert (p' = p) as -> by (unfold has_parent in *; congruence).
      apply list_elem_of_lookup in Hin as (k' & Hk'). exists k'. pose proof (lookup_lt_Some _ _ _ Hk'). split; [done|by rw lookup_app_l].
Qed.

Lemma kahn_loop_spec fuel ind ready order :
  kahn_inv ind ready order → (n < fuel + length order)%nat →
  ∃ ind', kahn_inv ind' [] (kahn_loop insert_ready fuel (children_of parents) ind ready order).
Proof.
  revert ind ready order. induction fuel as [|fuel IH]; intros ind ready order H Hf.
  { pose proof (kahn_inv_length _ _ _ H) as Hl. rw length_app in Hl. lia. }
  destruct ready as [|index ready]; [by exists ind|]. cbn [kahn_loop]. destruct (kahn_inv_step _ _ _ _ H) as [Hstep _].
  destruct (fold_left _ _ _) as [ind' ready']. apply IH; [done|]. rw length_app. simpl. lia.
Qed.

Lemma zero_indices_spec i : i ∈ zero_indices (indegrees parents) ↔ is_root i.
Proof.
  unfold zero_indices, indegrees, is_root. rw list_elem_of_omap. split.
  - intros ((j & d) & Hin & Hd). apply elem_of_lookup_imap in Hin as (k & x & [= -> ->] & Hk).
    rw list_lookup_fmap in Hk. destruct (parents !! k) as [[p|]|] eqn:E; simpl in Hk; try done; injection Hk as <-; simpl in Hd; try done. by injection Hd as <-.
  - intros Hi. exists (i, 0). split; [|done]. apply elem_of_lookup_imap. exists i, 0. split; [done|]. by rw list_lookup_fmap Hi.
Qed.

Lemma zero_indices_NoDup : NoDup (zero_indices (indegrees parents)).
Proof.
  unfold zero_indices. assert (∀ (l : list Z) k, StronglySorted lt (omap (λ '(i, d), if d =? 0 then Some i else None) (imap (λ i d, ((k + i)%nat, d)) l)) ∧
    Forall (λ i, k ≤ i)%nat (omap (λ '(i, d), if d =? 0 then Some i else None) (imap (λ i d, ((k + i)%nat, d)) l))) as Hs.
  { induction l as [|d l IH]; intros k; [split; constructor|]. cbn [imap omap list_omap].
    destruct (IH (S k)) as [IH1 IH2].
    assert (imap ((λ i d, ((k + i)%nat, d)) ∘ S) l = imap (λ i d, ((S k + i)%nat, d)) l) as ->.
    { apply imap_ext. intros i x _. simpl. f_equal. lia. }
    assert (Forall (λ i, k ≤ i)%nat (omap (λ '(i, d0), if d0 =? 0 then Some i else None) (imap (λ i d0, ((S k + i)%nat, d0)) l))) as Hw.
    { eapply Forall_impl; [exact IH2|]. simpl. intros; lia. }
    destruct (d =? 0); [|done]. rw Nat.add_0_r. split; [constructor; [done|]|by constructor].
    eapply Forall_impl; [exact IH2|]. simpl. intros; lia. }
  destruct (Hs (indegrees parents) 0%nat) as [Hs' _]. eapply StronglySorted_irrefl_NoDup; [|exact Hs']. intros x. lia.
Qed.

Lemma fold_insert_perm l ready : fold_left (λ r i, insert_ready i r) l ready ≡ₚ l ++ ready.
Proof.
  revert ready. induction l as [|i l IH]; intros ready; simpl; [done|]. rw IH insert_perm. symmetry. apply Permutation_middle.
Qed.

Lemma kahn_inv_init :
  kahn_inv (indegrees parents) (fold_left (λ r i, insert_ready i r) (zero_indices (indegrees parents)) []) [].
Proof.
  set (z := zero_indices _). assert ([] ++ fold_left (λ r i, insert_ready i r) z [] ≡ₚ z) as Hp by (simpl; by rw fold_insert_perm app_nil_r).
  split.
  - rw Hp. apply zero_indices_NoDup.
  - intros i. rw Hp zero_indices_spec. split; [by left|]. intros [?|(p & _ & Hin)]; [done|by apply elem_of_nil in Hin].
  - intros i p Hip. unfold indegrees. rw list_lookup_fmap Hip. destruct (decide (p ∈ [])) as [Hin|]; [by apply elem_of_nil in Hin|done].
  - intros k i p Hk. by rw lookup_nil in Hk.
Qed.

(** What [kahn] takes, and in which order. *)
Record parent_order (order : list nat) : Prop := {
  po_nodup : NoDup order;
  po_mem : ∀ i, i ∈ order ↔ is_root i ∨ ∃ p, has_parent i p ∧ p ∈ order;
  po_first : ∀ k i p, order !! k = Some i → has_parent i p → ∃ k', (k' < k)%nat ∧ order !! k' = Some p;
}.

Lemma kahn_spec : parent_order (kahn insert_ready parents).
Proof.
  unfold kahn. destruct (kahn_loop_spec (S n) _ _ _ kahn_inv_init) as (ind & H); [simpl; lia|].
  set (order := kahn_loop _ _ _ _ _ _) in *. destruct H as [H1 H2 _ H4]. rw app_nil_r in H1. setoid_rewrite app_nil_r in H2. by split.
Qed.

(** The links form a cycle: some entries all have their parent among
    themselves. *)
Definition cyclic : Prop := ∃ S : list nat, S ≠ [] ∧ ∀ i, i ∈ S → ∃ p, p ∈ S ∧ has_parent i p.

Lemma parent_order_lt order i : parent_order order → i ∈ order → (i < n)%nat.
Proof. intros H Hi. apply (po_mem _ H) in Hi as [Hi|(p & Hi & _)]; by eapply lookup_lt_Some. Qed.

Lemma parent_order_complete order :
  parent_order order → (length order = n ↔ ∀ i, (i < n)%nat → i ∈ order).
Proof.
  intros H. assert (order ⊆+ seq 0 n) as Hsub.
  { apply NoDup_submseteq; [apply (po_nodup _ H)|]. intros i Hi. apply elem_of_seq. pose proof (parent_order_lt _ _ H Hi). lia. }
  split.
  - intros Hl i Hi. apply submseteq_length_Permutation in Hsub; [|rw length_seq; lia].
    rw Hsub. apply elem_of_seq. lia.
  - intros Hall. apply Nat.le_antisymm; [by apply submseteq_length in Hsub; rw length_seq in Hsub|].
    transitivity (length (seq 0 n)); [by rw length_seq|]. apply submseteq_length, NoDup_submseteq; [apply NoDup_seq|].
    intros i Hi%elem_of_seq. apply Hall. lia.
Qed.

Lemma kahn_complete order : parent_order order → length order = n → ¬ cyclic.
Proof.
  intros H Hl (S & Hne & HS). destruct S as [|i0 S0] eqn:ES; [done|]. rw -ES in HS.
  assert (∀ k i, order !! k = Some i → i ∈ S → False) as Hno.
  { intros k. induction (lt_wf k) as [k _ IH]. intros i Hk Hi. destruct (HS i Hi) as (p & Hp & Hip).
    destruct (po_first _ H k i p Hk Hip) as (k' & Hk' & E). by eapply IH. }
  assert (i0 ∈ S) as Hi0 by (rw ES; by left). destruct (HS i0 Hi0) as (p & _ & Hip).
  assert (i0 ∈ order) as Hin by (apply (proj1 (parent_order_complete _ H) Hl); by eapply lookup_lt_Some).
  apply list_elem_of_lookup in Hin as (k & Hk). by eapply Hno.
Qed.

Lemma kahn_incomplete order : parent_order order → length order ≠ n → cyclic.
Proof.
  intros H Hl. exists (filter (λ j, j ∉ order) (seq 0 n)).
  assert (∀ j, j ∈ filter (λ j, j ∉ order) (seq 0 n) ↔ (j ∉ order) ∧ (j < n)%nat) as Hf.
  { intros j. rw list_elem_of_filter elem_of_seq. split; (intros [? ?]; split; [done|lia]). }
  split.
  - intros Hnil. apply Hl, (parent_order_complete _ H). intros i Hi. destruct (decide (i ∈ order)) as [|Hno]; [done|].
    assert (i ∈ filter (λ j, j ∉ order) (seq 0 n)) as Hin by by apply Hf. rw Hnil in Hin. by apply elem_of_nil in Hin.
  - intros j [Hj Hjn]%Hf. destruct (lookup_lt_is_Some_2 parents j Hjn) as [[p|] Ep].
    + exists p. split; [|done]. apply Hf. split; [|by apply (parents_valid j)]. intros Hp. apply Hj, (po_mem _ H). right. by exists p.
    + exfalso. apply Hj, (po_mem _ H). by left.
Qed.
End KahnProofs.

(** ** The two ready lists *)

Lemma ready_push_perm i l : heap_push i l ≡ₚ i :: l.
Proof.
  induction l as [|j l IH]; simpl; [done|]. destruct (i <=? j)%nat; [done|]. rw IH. constructor.
Qed.

Lemma ready_push_sorted i l : StronglySorted le l → StronglySorted le (heap_push i l).
Proof.
  induction 1 as [|j l Hl IH Hj]; simpl; [repeat constructor|]. destruct (Nat.leb_spec i j).
  - constructor; [by constructor|]. constructor; [done|]. eapply Forall_impl; [exact Hj|]. simpl. lia.
  - constructor; [done|]. rw ready_push_perm. constructor; [lia|done].
Qed.

Lemma release_sorted l st : StronglySorted le st.2 → StronglySorted le (fold_left (release heap_push) l st).2.
Proof.
  revert st. induction l as [|c l IH]; intros [ind ready] Hs; simpl in *; [done|]. apply IH.
  destruct (ind !! c) as [d|]; simpl; [|done]. destruct (sat_sub d 1 =? 0); [by apply ready_push_sorted|done].
Qed.

Lemma fold_heap_sorted l ready : StronglySorted le ready → StronglySorted le (fold_left (λ r i, heap_push i r) l ready).
Proof. revert ready. induction l as [|i l IH]; intros ready Hs; simpl; [done|]. apply IH. by apply ready_push_sorted. Qed.

(** With the heap, an order in which parents already come first is kept. *)
Section Stable.
Context (parents : list (option nat)).
Context (parents_before : ∀ i p, has_parent parents i p → (p < i)%nat).

Lemma parents_before_valid i p : has_parent parents i p → (p < length parents)%nat.
Proof. intros H. pose proof (parents_before i p H). apply lookup_lt_Some in H. lia. Qed.

Lemma kahn_inv_next ind ready k :
  kahn_inv parents ind ready (seq 0 k) → (k < length parents)%nat → k ∈ ready ∧ ∀ i, i ∈ ready → (k ≤ i)%nat.
Proof.
  intros H Hk. assert (k ∈ seq 0 k ++ ready) as Hin.
  { apply (ki_mem _ _ _ _ H). destruct (lookup_lt_is_Some_2 parents k Hk) as [[p|] E]; [right|by left].
    exists p. split; [done|]. apply elem_of_seq. pose proof (parents_before k p E). lia. }
  pose proof (ki_nodup _ _ _ _ H) as (_ & Hd & _)%NoDup_app. split.
  - apply elem_of_app in Hin as [Hin%elem_of_seq|]; [lia|done].
  - intros i Hi. destruct (decide (k ≤ i)%nat); [done|]. exfalso. apply (Hd i); [apply elem_of_seq; lia|done].
Qed.

Lemma kahn_loop_stable fuel ind ready k :
  kahn_inv parents ind ready (seq 0 k) → StronglySorted le ready → (length parents < fuel + k)%nat → (k ≤ length parents)%nat →
  kahn_loop heap_push fuel (children_of parents) ind ready (seq 0 k) = seq 0 (length parents).
Proof.
  revert ind ready k. induction fuel as [|fuel IH]; intros ind ready k H Hs Hf Hk; [lia|].
  destruct ready as [|index ready]; cbn [kahn_loop].
  - destruct (decide (k = length parents)) as [->|]; [done|]. destruct (kahn_inv_next _ _ _ H) as [Hin _]; [lia|]. by apply elem_of_nil in Hin.
  - assert (k < length parents)%nat as Hlt.
    { pose proof (kahn_inv_length _ _ _ _ H) as Hl. rw length_app length_seq in Hl. simpl in Hl. lia. }
    destruct (kahn_inv_next _ _ _ H Hlt) as [Hin Hge]. assert (index = k) as ->.
    { apply StronglySorted_inv in Hs as [_ Hall]. rw Forall_forall in Hall. apply Nat.le_antisymm; [|apply Hge; by left].
      apply elem_of_cons in Hin as [->|Hin]; [done|by apply Hall]. }
    destruct (kahn_inv_step parents parents_before_valid heap_push ready_push_perm _ _ _ _ H) as [Hstep _].
    pose proof (release_sorted (default [] (children_of parents !! k)) (ind, ready)) as Hr.
    apply StronglySorted_inv in Hs as [Hs _]. specialize (Hr Hs).
    destruct (fold_left _ _ _) as [ind' ready']. simpl in *.
    replace (seq 0 k ++ [k]) with (seq 0 (S k)) in * by (by rw seq_S). apply IH; [done|done|lia|lia].
Qed.

Lemma kahn_stable : kahn heap_push parents = seq 0 (length parents).
Proof.
  unfold kahn. change (@nil nat) with (seq 0 0) at 2. apply kahn_loop_stable; [|apply fold_heap_sorted; constructor|lia|lia].
  apply (kahn_inv_init parents heap_push ready_push_perm).
Qed.
End Stable.

(** ** Entries *)

Definition well_identified (entries : list SessionEntry) : Prop :=
  Forall (λ e, is_Some (base_id e)) entries ∧ NoDup (base_id <$> entries).

(** An entry with a given identifier at a given place. *)
Definition id_at (entries : list SessionEntry) (i : nat) (id : Str) : Prop :=
  ∃ e, entries !! i = Some e ∧ base_id e = Some id.

Definition parents_first (entries : list SessionEntry) : Prop :=
  ∀ k e p, entries !! k = Some e → parent_id e = Some p → p ∈ entry_id_set entries →
    ∃ k', (k' < k)%nat ∧ id_at entries k' p.

(** Some entries, given by their identifiers, all have their parent among
    themselves. *)
Definition parent_cycle (entries : list SessionEntry) : Prop :=
  ∃ S : list Str, S ≠ [] ∧
    ∀ id, id ∈ S → ∃ i e p, entries !! i = Some e ∧ base_id e = Some id ∧ parent_id e = Some p ∧ p ∈ S.

Lemma elem_of_entry_id_set id entries : id ∈ entry_id_set entries ↔ ∃ i, id_at entries i id.
Proof.
  unfold entry_id_set, id_at. rw elem_of_list_to_set list_elem_of_omap. split.
  - intros (e & [i Hi]%list_elem_of_lookup & He). by exists i, e.
  - intros (i & e & Hi & He). exists e. split; [by eapply list_elem_of_lookup_2|done].
Qed.

Lemma id_at_inj entries i j id : NoDup (base_id <$> entries) → id_at entries i id → id_at entries j id → i = j.
Proof.
  intros Hn (e & He & Hid) (e' & He' & Hid'). apply (NoDup_lookup _ i j (Some id) Hn); rw list_lookup_fmap; [rw He /= Hid|rw He' /= Hid']; done.
Qed.

Lemma index_ids_spec missing duplicate entries idx pos :
  match index_ids missing duplicate idx pos entries with
  | Ok positions =>
      well_identified entries ∧ (∀ i id, id_at entries i id → pos !! id = None) ∧
      ∀ id j, positions !! id = Some j ↔ pos !! id = Some j ∨ (idx ≤ j)%nat ∧ id_at entries (j - idx) id
  | Err _ => ¬ well_identified entries ∨ ∃ i id, id_at entries i id ∧ is_Some (pos !! id)
  end.
Proof.
  revert idx pos. induction entries as [|e entries IH]; intros idx pos; simpl.
  { split_and!; [split; constructor|by intros i id (? & ? & _)|]. intros id j. split; [by left|].
    intros [?|[_ (? & ? & _)]]; done. }
  destruct (base_id e) as [id|] eqn:Ee.
  2:{ left. intros [[[? ?] _]%Forall_cons _]. congruence. }
  assert (id_at (e :: entries) 0 id) as H0 by by exists e.
  destruct (pos !! id) as [j|] eqn:Ep; [right; exists 0%nat, id; by rw Ep|].
  specialize (IH (S idx) (<[id:=idx]> pos)). destruct (index_ids _ _ _ _ _) as [positions|].
  - destruct IH as ([Hall Hn] & Hfree & Hpos). split_and!.
    + split; [constructor; [by eexists|done]|]. rw fmap_cons. constructor; [|done]. rw Ee.
      intros (x & Hx & Hin)%list_elem_of_fmap. apply list_elem_of_lookup in Hin as [i Hi].
      specialize (Hfree i id). rw lookup_insert_eq in Hfree. discriminate Hfree. by exists x.
    + intros [|i] id' (x & Hx & Hid'); simpl in Hx; [injection Hx as <-; congruence|].
      specialize (Hfree i id' (ex_intro _ x (conj Hx Hid'))). by apply lookup_insert_None in Hfree as [? _].
    + intros id' j. rw Hpos. destruct (decide (id' = id)) as [->|Hne].
      * rw lookup_insert_eq. split.
        -- intros [[= ->]|[Hj Hat]]; [right; split; [lia|]; by rw Nat.sub_diag|].
           destruct Hat as (x & Hx & Hxid). specialize (Hfree _ id (ex_intro _ x (conj Hx Hxid))). by rw lookup_insert_eq in Hfree.
        -- intros [?|[Hj Hat]]; [congruence|]. left. f_equal. destruct (decide (j = idx)); [done|].
           replace (j - idx)%nat with (S (j - S idx)) in Hat by lia. specialize (Hfree _ id Hat). by rw lookup_insert_eq in Hfree.
      * rw lookup_insert_ne //. split; (intros [?|[Hj Hat]]; [by left|right]).
        -- split; [lia|]. by replace (j - idx)%nat with (S (j - S idx)) by lia.
        -- destruct (decide (j = idx)) as [->|]; [rw Nat.sub_diag in Hat; destruct Hat as (x & [= <-] & ?); congruence|].
           split; [lia|]. by replace (j - idx)%nat with (S (j - S idx)) in Hat by lia.
  - destruct IH as [Hw|(i & id' & Hat & Hs)].
    + left. intros [Hall Hn]. apply Hw. apply Forall_cons in Hall as [_ Hall]. rw fmap_cons in Hn. by apply NoDup_cons in Hn as [_ Hn].
    + destruct (decide (id' = id)) as [->|Hne].
      * left. intros [_ Hn]. by pose proof (id_at_inj _ 0 (S i) id Hn H0 Hat).
      * right. exists (S i), id'. split; [done|]. by rw lookup_insert_ne in Hs.
Qed.

(** The parents of well identified entries, by index. *)
Lemma parents_of_spec missing duplicate entries positions :
  index_ids missing duplicate 0 ∅ entries = Ok positions →
  well_identified entries ∧
  ∀ i p, has_parent (parent_index positions <$> entries) i p ↔
    ∃ e id, entries !! i = Some e ∧ parent_id e = Some id ∧ id_at entries p id.
Proof.
  intros E. pose proof (index_ids_spec missing duplicate entries 0 ∅) as H. rw E in H. destruct H as (Hw & _ & Hpos).
  split; [done|]. intros i p. unfold has_parent. rw list_lookup_fmap. split.
  - destruct (entries !! i) as [e|] eqn:Ei; [|done]. simpl. unfold parent_index. intros [= Hp].
    apply bind_Some in Hp as (id & Hid & Hp). exists e, id. split_and!; [done|done|].
    apply Hpos in Hp as [Hp|[_ Hp]]; [by rw lookup_empty in Hp|]. by rw Nat.sub_0_r in Hp.
  - intros (e & id & -> & Hid & Hat). simpl. f_equal. unfold parent_index. rw Hid. simpl. apply Hpos. right. rw Nat.sub_0_r. split; [lia|done].
Qed.

Lemma take_slots_spec (entries : list SessionEntry) order slots :
  NoDup order → (∀ i, i ∈ order → ∃ e, entries !! i = Some e ∧ slots !! i = Some (Some e)) →
  ∃ l, take_slots slots order = Ok l ∧ Forall2 (λ i e, entries !! i = Some e) order l.
Proof.
  revert slots. induction order as [|i order IH]; intros slots Hn Hs; simpl; [by exists []|].
  apply NoDup_cons in Hn as [Hi Hn]. destruct (Hs i) as (e & He & Hse); [by left|]. rw Hse. simpl.
  destruct (IH (<[i := None]> slots) Hn) as (l & -> & Hl).
  { intros j Hj. rw list_lookup_insert_ne; [|by intros ->]. apply Hs. by right. }
  exists (e :: l). split; [done|by constructor].
Qed.

Lemma selected_seq {A} (l k : list A) : Forall2 (λ i e, l !! i = Some e) (seq 0 (length l)) k → k = l.
Proof.
  intros Hf. apply list_eq. intros i. destruct (k !! i) as [y|] eqn:Ey.
  - destruct (Forall2_lookup_r _ _ _ _ _ Hf Ey) as (x & [-> _]%lookup_seq & Hx). by rw -Hx.
  - apply lookup_ge_None in Ey. apply Forall2_length in Hf. rw length_seq in Hf. symmetry. apply lookup_ge_None. lia.
Qed.

Lemma selected_all {A} (l k : list A) order :
  order ≡ₚ seq 0 (length l) → Forall2 (λ i e, l !! i = Some e) order k → k ≡ₚ l.
Proof. intros Hp Hf. destruct (Permutation_Forall2 Hp Hf) as (k' & -> & Hf'). by rw (selected_seq _ _ Hf'). Qed.

(** [parents] are the parents of well identified entries, by index. *)
Section Parents.
Context (entries : list SessionEntry) (parents : list (option nat)).
Context (Hwell : well_identified entries) (Hlen : length parents = length entries).
Context (Hspec : ∀ i p, has_parent parents i p ↔ ∃ e id, entries !! i = Some e ∧ parent_id e = Some id ∧ id_at entries p id).

Lemma entry_parents_valid i p : has_parent parents i p → (p < length parents)%nat.
Proof. intros (e & id & _ & _ & (e' & He' & _))%Hspec. rw Hlen. by eapply lookup_lt_Some. Qed.

Lemma cyclic_iff : cyclic parents ↔ parent_cycle entries.
Proof.
  split.
  - intros (S & Hne & HS). exists (omap (λ i, entries !! i ≫= base_id) S).
    assert (∀ i id, i ∈ S → id_at entries i id → id ∈ omap (λ i, entries !! i ≫= base_id) S) as Hin.
    { intros i id Hi (e & He & Hid). apply list_elem_of_omap. exists i. split; [done|]. by rw He. }
    assert (∀ i, i ∈ S → ∃ e id p pid, entries !! i = Some e ∧ base_id e = Some id ∧ parent_id e = Some pid ∧ p ∈ S ∧ id_at entries p pid) as Hstep.
    { intros i Hi. destruct (HS i Hi) as (p & Hp & (e & pid & He & Hpid & Hat)%Hspec).
      destruct Hwell as [Hall _]. rw Forall_forall in Hall. destruct (Hall e) as [id Hid]; [by eapply list_elem_of_lookup_2|].
      by exists e, id, p, pid. }
    split.
    + destruct S as [|i S]; [done|]. destruct (Hstep i) as (e & id & _ & _ & He & Hid & _); [by left|]. simpl. by rw He /= Hid.
    + intros id (i & Hi & Hid)%list_elem_of_omap. destruct (Hstep i Hi) as (e & id' & p & pid & He & Hid' & Hpid & Hp & Hat).
      rw He /= in Hid. exists i, e, pid. split_and!; [done|done|done|]. by apply (Hin p).
  - intros (S & Hne & HS). exists (List.filter (λ i, bool_decide ((entries !! i ≫= base_id) ∈ Some <$> S)) (seq 0 (length entries))).
    assert (∀ i id, id_at entries i id → id ∈ S → i ∈ List.filter (λ i, bool_decide ((entries !! i ≫= base_id) ∈ Some <$> S)) (seq 0 (length entries))) as Hin.
    { intros i id (e & He & Hid) Hs. apply list_elem_of_In, filter_In. split; [apply in_seq; apply lookup_lt_Some in He; lia|].
      apply bool_decide_eq_true. rw He /= Hid. by apply list_elem_of_fmap_2. }
    split.
    + destruct S as [|id S]; [done|]. destruct (HS id) as (i & e & p & He & Hid & _); [by left|]. intros Hnil.
      specialize (Hin i id (ex_intro _ e (conj He Hid)) ltac:(by left)). rw Hnil in Hin. by apply elem_of_nil in Hin.
    + intros i Hi. apply list_elem_of_In, filter_In in Hi as [_ Hi%bool_decide_eq_true].
      apply list_elem_of_fmap in Hi as (id & Hid & Hs). destruct (entries !! i) as [e|] eqn:Ei; [|done]. simpl in Hid.
      destruct (HS id Hs) as (j & e' & p & He' & Hid' & Hp & Hps). destruct (HS p Hps) as (k & e'' & _ & He'' & Hid'' & _).
      assert (i = j) as <- by (eapply (id_at_inj entries i j id (proj2 Hwell)); [by exists e|by exists e']).
      exists k. split; [eapply Hin; [by exists e''|done]|]. apply Hspec. exists e, p. split_and!; [done| |by exists e'']. congruence.
Qed.

Lemma order_parents_first order l :
  parent_order parents order → Forall2 (λ i e, entries !! i = Some e) order l → l ≡ₚ entries → parents_first l.
Proof.
  intros Hpo Hf Hp k e pid Hk Hpid Hin.
  assert (pid ∈ entry_id_set entries) as Hin' by (unfold entry_id_set in *; by rw -Hp).
  apply elem_of_entry_id_set in Hin' as (j & Hj). destruct (Forall2_lookup_r _ _ _ _ _ Hf Hk) as (i & Hi & Hie).
  assert (has_parent parents i j) as Hij by (apply Hspec; by exists e, pid).
  destruct (po_first _ _ Hpo k i j Hi Hij) as (k' & Hlt & Hk'). exists k'. split; [done|].
  destruct (Forall2_lookup_l _ _ _ _ _ Hf Hk') as (x & Hx & Hxj). destruct Hj as (y & Hy & Hyid). exists x. split; [done|congruence].
Qed.

Lemma parents_first_before : parents_first entries → ∀ i p, has_parent parents i p → (p < i)%nat.
Proof.
  intros Hpf i p (e & id & He & Hid & Hat)%Hspec. destruct (Hpf i e id He Hid) as (k & Hk & Hat').
  { apply elem_of_entry_id_set. by exists p. }
  by rw (id_at_inj _ _ _ _ (proj2 Hwell) Hat Hat').
Qed.
End Parents.

Lemma order_seq_perm parents order :
  parent_order parents order → length order = length parents → order ≡ₚ seq 0 (length parents).
Proof.
  intros Hpo Hl. apply submseteq_length_Permutation; [|rw length_seq; lia].
  apply NoDup_submseteq; [apply (po_nodup _ _ Hpo)|]. intros i Hi. apply elem_of_seq. pose proof (parent_order_lt _ _ _ Hpo Hi). lia.
Qed.

Lemma topological_order_spec entries :
  (match stable_parent_topological_order entries with
   | Ok l => l ≡ₚ entries ∧ ((2 ≤ length entries)%nat → well_identified entries ∧ parents_first l ∧ ¬ parent_cycle entries)
   | Err _ => ¬ well_identified entries ∨ parent_cycle entries
   end) ∧
  (well_identified entries → parents_first entries → stable_parent_topological_order entries = Ok entries).
Proof.
  unfold stable_parent_topological_order. destruct (Nat.ltb_spec (length entries) 2) as [Hlt|Hge]; [split; [split; [done|lia]|done]|].
  pose proof (index_ids_spec (str "session entry is missing its ID") (λ id, str "session contains duplicate entry ID " ++ id) entries 0 ∅) as Hidx.
  destruct (index_ids _ _ _ _ _) as [positions|err] eqn:Epos; cbn [result_bind].
  2:{ destruct Hidx as [Hw|(i & id & _ & [? Hs])]; [|by rw lookup_empty in Hs]. split; [by left|done]. }
  destruct (parents_of_spec _ _ _ _ Epos) as [Hw Hspec]. set (parents := parent_index positions <$> entries) in *.
  assert (length parents = length entries) as Hlen by apply length_fmap.
  pose proof (entry_parents_valid entries parents Hlen Hspec) as Hval.
  pose proof (kahn_spec parents Hval heap_push ready_push_perm) as Hpo. set (order := kahn heap_push parents) in *.
  destruct (take_slots_spec entries order (Some <$> entries) (po_nodup _ _ Hpo)) as (l & -> & Hf); cbn [result_bind].
  { intros i Hi. pose proof (parent_order_lt _ _ _ Hpo Hi) as Hi'. rw Hlen in Hi'. destruct (lookup_lt_is_Some_2 entries i Hi') as [e He].
    exists e. by rw list_lookup_fmap He. }
  pose proof (cyclic_iff entries parents Hw Hlen Hspec) as Hcyc.
  assert (length l = length order) as Hll by (symmetry; by eapply Forall2_length).
  split.
  - destruct (Nat.eqb_spec (length l) (length entries)) as [E|E].
    + assert (l ≡ₚ entries) as Hperm by (eapply selected_all; [rw -Hlen; apply order_seq_perm; [done|congruence]|done]).
      split; [done|]. intros _. split_and!; [done|by eapply order_parents_first|]. rw -Hcyc. apply (kahn_complete parents order Hpo). congruence.
    + right. apply Hcyc, (kahn_incomplete parents Hval order Hpo). congruence.
  - intros _ Hpf. assert (order = seq 0 (length parents)) as Eo.
    { apply kahn_stable. by apply (parents_first_before entries parents Hw Hspec). }
    rw Eo Hlen in Hf. rw (selected_seq _ _ Hf) Nat.eqb_refl //.
Qed.

(** The order in which a session is rewritten.  It is a permutation of
    the entries in which every parent that is present comes before its
    children; it is refused exactly when an entry has no identifier, two have
    the same, or the parent links form a cycle (a single entry is returned as
    it is); and entries already in such an order keep it, so that a rewrite
    does not move rows. *)
Theorem topological_order_correct entries :
  (match stable_parent_topological_order entries with
   | Ok l => l ≡ₚ entries ∧ ((2 ≤ length entries)%nat → well_identified entries ∧ parents_first l ∧ ¬ parent_cycle entries)
   | Err _ => ¬ well_identified entries ∨ parent_cycle entries
   end) ∧
  (well_identified entries → parents_first entries → stable_parent_topological_order entries = Ok entries).
Proof. apply topological_order_spec. Qed.

(** [validate_session_entry_graph] accepts exactly the forests: every
    entry has an identifier of its own, every parent exists, and there is no
    cycle. *)
Theorem graph_validation_exact entries :
  validate_session_entry_graph entries = Ok tt ↔
  well_identified entries ∧ (∀ e p, e ∈ entries → parent_id e = Some p → p ∈ entry_id_set entries) ∧ ¬ parent_cycle entries.
Proof.
  unfold validate_session_entry_graph.
  pose proof (index_ids_spec (str "session entry is missing its ID") (λ id, str "session contains duplicate entry ID " ++ id) entries 0 ∅) as Hidx.
  destruct (index_ids _ _ _ _ _) as [positions|err] eqn:Epos; cbn [result_bind].
  2:{ destruct Hidx as [Hw|(i & id & _ & [? Hs])]; [|by rw lookup_empty in Hs]. split; [done|tauto]. }
  destruct (parents_of_spec _ _ _ _ Epos) as [Hw Hspec]. destruct Hidx as (_ & _ & Hpos).
  pose proof (collect_results_spec (λ entry, match parent_id entry with
    | None => Ok None
    | Some p => match positions !! p with Some i => Ok (Some i) | None => Err (missing_parent entry p) end
    end) entries) as Hcol.
  destruct (collect_results _ _) as [parents|err]; cbn [result_bind].
  2:{ destruct Hcol as (e & He & Ee). split; [done|]. intros (_ & Hp & _). destruct (parent_id e) as [p|] eqn:Ep; [|done].
      destruct (proj1 (elem_of_entry_id_set p entries) (Hp e p He Ep)) as (i & Hi).
      assert (positions !! p = Some i) as E by (apply Hpos; right; split; [lia|by rw Nat.sub_0_r]). by rw E in Ee. }
  assert (parents = parent_index positions <$> entries ∧ ∀ e p, e ∈ entries → parent_id e = Some p → p ∈ entry_id_set entries) as [-> Hclosed].
  { split.
    - clear -Hcol. induction Hcol as [|e o l k He _ IH]; [done|]. rw fmap_cons -IH. f_equal. unfold parent_index.
      destruct (parent_id e) as [p|]; simpl in *; [|congruence]. destruct (positions !! p); congruence.
    - intros e p [i Hi]%list_elem_of_lookup Hp. destruct (Forall2_lookup_l _ _ _ _ _ Hcol Hi) as (o & _ & Ho). rw Hp in Ho.
      destruct (positions !! p) as [j|] eqn:Ej; [|done]. apply Hpos in Ej as [Ej|[_ Ej]]; [by rw lookup_empty in Ej|].
      apply elem_of_entry_id_set. rw Nat.sub_0_r in Ej. by exists j. }
  set (parents := parent_index positions <$> entries) in *. assert (length parents = length entries) as Hlen by apply length_fmap.
  pose proof (entry_parents_valid entries parents Hlen Hspec) as Hval.
  pose proof (kahn_spec parents Hval stack_push (λ _ _, Permutation_refl _)) as Hpo. set (order := kahn stack_push parents) in *.
  pose proof (cyclic_iff entries parents Hw Hlen Hspec) as Hcyc. rw -Hcyc -Hlen.
  destruct (Nat.eqb_spec (length order) (length parents)) as [E|E].
  - split; [|done]. intros _. split_and!; [done|done|by apply (kahn_complete parents order Hpo)].
  - split; [done|]. intros (_ & _ & Hc). exfalso. by apply Hc, (kahn_incomplete parents Hval order Hpo).
Qed.

(** ** Merging keeps every entry *)

Definition links_closed (entries : list SessionEntry) : Prop :=
  ∀ e p, e ∈ entries → parent_id e = Some p → p ∈ entry_id_set entries.

Lemma links_closed_loop_spec ids entries :
  links_closed_loop ids entries = Ok tt ↔ ∀ e p, e ∈ entries → parent_id e = Some p → p ∈ ids.
Proof.
  induction entries as [|x entries IH]; simpl; [split; [|done]; intros _ e p He; by apply elem_of_nil in He|].
  setoid_rewrite elem_of_cons. destruct (parent_id x) as [q|] eqn:Ex; [case_decide as Hq|]; rw ?IH.
  - split; [intros Hall e p [->|He] Hp; [congruence|by eapply Hall]|intros Hall e p He; apply Hall; by right].
  - split; [done|]. intros Hall. exfalso. apply Hq, (Hall x); [by left|done].
  - split; [intros Hall e p [->|He] Hp; [congruence|by eapply Hall]|intros Hall e p He; apply Hall; by right].
Qed.

(** The entries of the file that this process must not touch, and what it
    adds to them: [kept] describes a merge of [disk] and [entries]. *)
Record merged_from (encode : SessionEntry → list N) (disk entries merged : list SessionEntry) : Prop := {
  mf_new : ∃ new, merged = disk ++ new ∧ new `sublist_of` entries;
  mf_local : ∀ e, e ∈ entries → ∃ e', e' ∈ merged ∧ base_id e' = base_id e ∧ encode e' = encode e;
  mf_ids : well_identified merged;
}.

Lemma well_identified_snoc l e id :
  well_identified l → base_id e = Some id → (∀ i, ¬ id_at l i id) → well_identified (l ++ [e]).
Proof.
  intros [Hall Hn] Hid Hfree. split.
  - apply Forall_app_2; [done|]. apply Forall_singleton. by eexists.
  - rw fmap_app. apply NoDup_app. split_and!; [done| |apply NoDup_singleton]. simpl. intros x Hx Hxe.
    apply list_elem_of_singleton in Hxe as ->. apply list_elem_of_fmap in Hx as (y & Hy & [i Hi]%list_elem_of_lookup).
    apply (Hfree i). exists y. split; [done|congruence].
Qed.

Lemma merge_local_spec encode entries positions merged seen r :
  merge_local encode positions merged seen entries = Ok r →
  (∀ id j, positions !! id = Some j ↔ id_at merged j id) → well_identified merged →
  merged_from encode merged entries r.
Proof.
  revert positions merged seen. induction entries as [|e entries IH]; intros positions merged seen; simpl.
  { intros [= <-] Hpos Hw. split; [exists []; by rw app_nil_r|intros e He; by apply elem_of_nil in He|done]. }
  destruct (base_id e) as [id|] eqn:Eid; [|done]. case_decide; [done|]. destruct (positions !! id) as [index|] eqn:Ep.
  - case_decide as Eenc; [|done]. intros Hm Hpos Hw. destruct (IH _ _ _ Hm Hpos Hw) as [(new & -> & Hsub) Hloc Hw']. split; [|..|done].
    + exists new. split; [done|by constructor].
    + intros x [->|Hx]%elem_of_cons; [|by apply Hloc]. apply Hpos in Ep as (y & Hy & Hyid). exists y. rw Hy in Eenc. simpl in Eenc.
      split_and!; [apply elem_of_app; left; by eapply list_elem_of_lookup_2|congruence|congruence].
  - intros Hm Hpos Hw. destruct (IH _ _ _ Hm) as [(new & -> & Hsub) Hloc Hw'].
    + intros id' j. destruct (decide (id' = id)) as [->|Hne].
      * rw lookup_insert_eq. split.
        -- intros [= <-]. exists e. by rw lookup_app_r // Nat.sub_diag.
        -- intros (x & [Hx|[Hl Hx]]%lookup_app_Some & Hxid); [exfalso; assert (positions !! id = Some j) as E' by (apply Hpos; by exists x); congruence|].
           apply list_lookup_singleton_Some in Hx as [Hj _]. f_equal. lia.
      * rw lookup_insert_ne // Hpos. split; intros (x & Hx & Hxid); exists x.
        -- split; [by apply lookup_app_l_Some|done].
        -- apply lookup_app_Some in Hx as [Hx|[_ [_ <-]%list_lookup_singleton_Some]]; [done|congruence].
    + eapply well_identified_snoc; [done|done|]. intros i Hi. apply Hpos in Hi. congruence.
    + split; [|..|done].
      * exists (e :: new). rw -assoc. split; [done|by constructor].
      * intros x [->|Hx]%elem_of_cons; [|by apply Hloc]. exists e. split_and!; try done. apply elem_of_app. left. apply elem_of_app. right. by left.
Qed.

(** The usual case: this process knows the whole file and has added to it. *)
Lemma merge_local_known encode merged positions seen l rest :
  (∀ e, e ∈ l → ∃ id i, base_id e = Some id ∧ (id ∉ seen) ∧ positions !! id = Some i ∧ merged !! i = Some e) →
  NoDup (base_id <$> l) →
  ∃ seen', (∀ id, id ∈ seen' ↔ id ∈ seen ∨ Some id ∈ base_id <$> l) ∧
    merge_local encode positions merged seen (l ++ rest) = merge_local encode positions merged seen' rest.
Proof.
  revert seen. induction l as [|e l IH]; intros seen Hl Hn; simpl.
  { exists seen. split; [|done]. intros id. rw elem_of_nil. tauto. }
  apply NoDup_cons in Hn as [He Hn]. destruct (Hl e) as (id & i & Hid & Hs & Hp & Hm); [by left|].
  rw Hid (decide_False _ _ Hs) Hp Hm. simpl. rw decide_True //. destruct (IH ({[id]} ∪ seen)) as (seen' & Hseen & ->); [|done|].
  - intros x Hx. destruct (Hl x) as (id' & j & Hid' & Hs' & Hp' & Hm'); [by right|]. exists id', j. split_and!; try done.
    rw elem_of_union elem_of_singleton. intros [->|?]; [|done]. apply He. rw Hid -Hid'. by apply list_elem_of_fmap_2.
  - exists seen'. split; [|done]. intros id'. rw Hseen elem_of_union elem_of_singleton elem_of_cons. naive_solver.
Qed.

Lemma merge_local_fresh encode merged positions seen rest :
  (∀ e, e ∈ rest → ∃ id, base_id e = Some id ∧ (id ∉ seen) ∧ positions !! id = None) → NoDup (base_id <$> rest) →
  merge_local encode positions merged seen rest = Ok (merged ++ rest).
Proof.
  revert merged positions seen. induction rest as [|e rest IH]; intros merged positions seen Hr Hn; simpl; [by rw app_nil_r|].
  apply NoDup_cons in Hn as [He Hn]. destruct (Hr e) as (id & Hid & Hs & Hp); [by left|]. rw Hid (decide_False _ _ Hs) Hp.
  rw IH; [by rw -assoc| |done]. intros x Hx. destruct (Hr x) as (id' & Hid' & Hs' & Hp'); [by right|]. exists id'. split; [done|].
  assert (id' ≠ id) as Hne. { intros ->. apply He. rw Hid -Hid'. by apply list_elem_of_fmap_2. }
  split; [rw elem_of_union elem_of_singleton; tauto|by rw lookup_insert_ne].
Qed.

Lemma well_identified_app l k : well_identified (l ++ k) → well_identified l.
Proof. intros [Hall Hn]. apply Forall_app in Hall as [? _]. rw fmap_app in Hn. by apply NoDup_app in Hn as (? & _ & _). Qed.

Lemma index_ids_ok missing duplicate entries :
  well_identified entries → ∃ positions, index_ids missing duplicate 0 ∅ entries = Ok positions ∧
    ∀ id j, positions !! id = Some j ↔ id_at entries j id.
Proof.
  intros Hw. pose proof (index_ids_spec missing duplicate entries 0 ∅) as H. destruct (index_ids _ _ _ _ _) as [positions|].
  - exists positions. split; [done|]. destruct H as (_ & _ & Hpos). intros id j. rw Hpos lookup_empty Nat.sub_0_r.
    split; [by intros [?|[_ ?]]|]. right. split; [lia|done].
  - destruct H as [?|(i & id & _ & [? Hs])]; [done|by rw lookup_empty in Hs].
Qed.

Lemma merge_local_extend encode disk new positions :
  (∀ id j, positions !! id = Some j ↔ id_at disk j id) → well_identified (disk ++ new) →
  merge_local encode positions disk ∅ (disk ++ new) = Ok (disk ++ new).
Proof.
  intros Hpos [Hall Hn]. rw Forall_forall in Hall. rw fmap_app in Hn. apply NoDup_app in Hn as (Hd & Hdis & Hnew).
  destruct (merge_local_known encode disk positions ∅ disk new) as (seen & Hseen & ->); [|done|].
  { intros e He. destruct (Hall e) as [id Hid]; [apply elem_of_app; by left|]. apply list_elem_of_lookup in He as [i Hi].
    exists id, i. split_and!; [done|apply not_elem_of_empty| |done]. apply Hpos. by exists e. }
  apply merge_local_fresh; [|done]. intros e He. destruct (Hall e) as [id Hid]; [apply elem_of_app; by right|]. exists id. split; [done|].
  assert (Some id ∉ base_id <$> disk) as Hno. { intros Hin. apply (Hdis _ Hin). rw -Hid. by apply list_elem_of_fmap_2. }
  split; [rw Hseen; intros [Hin|?]; [by apply elem_of_empty in Hin|done]|].
  apply eq_None_not_Some. intros (j & (x & Hx & Hxid)%Hpos). apply Hno. rw -Hxid. apply list_elem_of_fmap_2. by eapply list_elem_of_lookup_2.
Qed.

Lemma merge_for_rewrite_spec encode disk entries :
  (∀ l, merge_for_rewrite encode disk entries = Ok l →
     (∃ new, l ≡ₚ disk ++ new ∧ new `sublist_of` entries) ∧
     (∀ e, e ∈ entries → ∃ e', e' ∈ l ∧ base_id e' = base_id e ∧ encode e' = encode e) ∧
     well_identified l ∧ links_closed l ∧ ((2 ≤ length l)%nat → parents_first l)) ∧
  (disk `prefix_of` entries → well_identified entries → links_closed entries → parents_first entries →
     merge_for_rewrite encode disk entries = Ok entries).
Proof.
  unfold merge_for_rewrite, ensure_session_parent_links_closed. split.
  - intros l. destruct (index_ids _ _ _ _ _) as [positions|err] eqn:Ei; cbn [result_bind]; [|done].
    destruct (merge_local _ _ _ _ _) as [merged|err] eqn:Em; cbn [result_bind]; [|done].
    destruct (links_closed_loop _ _) as [[]|err] eqn:El; cbn [result_bind]; [|done]. intros Hl.
    pose proof (index_ids_spec (str "persisted session entry is missing its ID") (λ id, str "persisted session contains duplicate entry ID " ++ id) disk 0 ∅) as Hidx.
    rw Ei in Hidx. destruct Hidx as (Hw & _ & Hpos).
    destruct (merge_local_spec _ _ _ _ _ _ Em) as [(new & -> & Hsub) Hloc Hwm]; [|done|].
    { intros id j. rw Hpos lookup_empty Nat.sub_0_r. split; [by intros [?|[_ ?]]|]. right. split; [lia|done]. }
    rw links_closed_loop_spec in El. destruct (topological_order_spec (disk ++ new)) as [Ht _]. rw Hl in Ht. destruct Ht as [Hp Hpf].
    split_and!.
    + exists new. by split.
    + intros e He. destruct (Hloc e He) as (e' & He' & ?). exists e'. split; [by rw Hp|done].
    + destruct Hwm as [Hall Hn]. split; [by rw Hp|by rw Hp].
    + intros e p He Hpar. unfold entry_id_set. rw Hp. apply (El e p); [by rw -Hp|done].
    + intros H2. apply Hpf. by rw -Hp.
  - intros [new ->] Hw Hc Hpf. destruct (index_ids_ok (str "persisted session entry is missing its ID") (λ id, str "persisted session contains duplicate entry ID " ++ id) disk) as (positions & -> & Hpos).
    { by eapply well_identified_app. }
    cbn [result_bind]. rw (merge_local_extend encode disk new positions Hpos Hw). cbn [result_bind].
    assert (links_closed_loop (entry_id_set (disk ++ new)) (disk ++ new) = Ok tt) as -> by by apply links_closed_loop_spec.
    cbn [result_bind]. by apply topological_order_spec.
Qed.

(** C11: a rewrite loses no entry of any process.  What is written holds
    every entry of the file, and of every entry in memory either itself or the
    entry of the file with the same identifier and the same stored form;
    nothing else; identifiers are unique, every parent is present and comes
    first.  When the memory extends a file that is in order, exactly the
    memory is written. *)
Theorem rewrite_keeps_every_entry encode disk entries :
  (∀ l, merge_for_rewrite encode disk entries = Ok l →
     (∃ new, l ≡ₚ disk ++ new ∧ new `sublist_of` entries) ∧
     (∀ e, e ∈ entries → ∃ e', e' ∈ l ∧ base_id e' = base_id e ∧ encode e' = encode e) ∧
     well_identified l ∧ links_closed l ∧ ((2 ≤ length l)%nat → parents_first l)) ∧
  (disk `prefix_of` entries → well_identified entries → links_closed entries → parents_first entries →
     merge_for_rewrite encode disk entries = Ok entries).
Proof. apply merge_for_rewrite_spec. Qed.

(** ** Appending to the file *)

Definition payloads_of (encode : SessionEntry → list N) (known : list SessionEntry) (persisted : gmap Str (list N)) : Prop :=
  well_identified known ∧ ∀ id b, persisted !! id = Some b ↔ ∃ e, e ∈ known ∧ base_id e = Some id ∧ encode e = b.

Lemma payloads_of_snoc encode known persisted e id :
  payloads_of encode known persisted → base_id e = Some id → persisted !! id = None →
  payloads_of encode (known ++ [e]) (<[id := encode e]> persisted).
Proof.
  intros [Hw Hp] Hid Hnone. split.
  - eapply well_identified_snoc; [done|done|]. intros i (x & Hx & Hxid).
    assert (persisted !! id = Some (encode x)) by (apply Hp; exists x; split; [by eapply list_elem_of_lookup_2|done]). congruence.
  - intros id' b. setoid_rewrite elem_of_app. setoid_rewrite list_elem_of_singleton. destruct (decide (id' = id)) as [->|Hne].
    + rw lookup_insert_eq. split; [intros [= <-]; exists e; auto|]. intros (x & [Hx| ->] & Hxid & Hb); [|by f_equal].
      assert (persisted !! id = Some (encode x)) by (apply Hp; by exists x). congruence.
    + rw lookup_insert_ne // Hp. split; intros (x & Hx & Hxid & Hb); exists x; [auto|]. destruct Hx as [Hx| ->]; [done|congruence].
Qed.

Lemma index_payloads_spec encode entries known persisted r :
  index_payloads encode persisted entries = Ok r → payloads_of encode known persisted → payloads_of encode (known ++ entries) r.
Proof.
  revert known persisted. induction entries as [|e entries IH]; intros known persisted; simpl; [intros [= <-]; by rw app_nil_r|].
  destruct (base_id e) as [id|] eqn:Eid; [|done]. destruct (persisted !! id) eqn:Ep; [done|]. intros Hr Hk.
  change (e :: entries) with ([e] ++ entries). rw assoc. apply (IH _ _ Hr). by apply payloads_of_snoc.
Qed.

Lemma pending_loop_spec encode entries known persisted seen pending r :
  pending_loop encode persisted seen pending entries = Ok r → payloads_of encode known persisted →
  ∃ new, r = pending ++ new ∧ merged_from encode known entries (known ++ new).
Proof.
  revert known persisted seen pending. induction entries as [|e entries IH]; intros known persisted seen pending; simpl.
  { intros [= <-] [Hw _]. exists []. rw !app_nil_r. split; [done|]. split; [exists []; by rw app_nil_r|intros e He; by apply elem_of_nil in He|done]. }
  destruct (base_id e) as [id|] eqn:Eid; [|done]. case_decide; [done|].
  destruct (ensure_jsonl_line_len_within_limit _ _ _); cbn [result_bind]; [|done]. destruct (persisted !! id) as [b|] eqn:Ep.
  - case_decide as Eb; [|done]. intros Hr Hk. destruct (IH _ _ _ _ Hr Hk) as (new & -> & [(new' & E & Hsub) Hloc Hw]).
    exists new. split; [done|]. split; [exists new'; split; [done|by constructor]| |done].
    intros x [->|Hx]%elem_of_cons; [|by apply Hloc]. apply Hk in Ep as (y & Hy & Hyid & Hyb). exists y.
    split_and!; [apply elem_of_app; by left|congruence|congruence].
  - intros Hr Hk. destruct (IH (known ++ [e]) _ _ _ Hr) as (new & -> & [(new' & E & Hsub) Hloc Hw]); [by apply payloads_of_snoc|].
    rw -assoc in E Hloc Hw. rw -assoc. exists (e :: new). split; [done|]. rw -assoc in E. apply app_inv_head in E as [= ->]. split.
    + exists (e :: new'). split; [done|by constructor].
    + intros x [->|Hx]%elem_of_cons; [|by apply Hloc]. exists e. split_and!; try done. apply elem_of_app. right. by left.
    + done.
Qed.

(** In a merge, the entries with the identifiers of the added ones are the
    added ones. *)
Definition added_in (new : list SessionEntry) (e : SessionEntry) : bool :=
  match base_id e with Some id => bool_decide (id ∈ entry_id_set new) | None => false end.

Lemma filter_added_app disk new : well_identified (disk ++ new) → List.filter (added_in new) (disk ++ new) = new.
Proof.
  intros [Hall Hn]. rw Forall_app in Hall. destruct Hall as [_ Hall]. rw fmap_app in Hn. apply NoDup_app in Hn as (_ & Hdis & _).
  rw List.filter_app. assert (∀ l, (∀ x, x ∈ l → added_in new x = false) → List.filter (added_in new) l = []) as Hnone.
  { induction l as [|x l IH]; intros Hl; [done|]. simpl. rw (Hl x); [|by left]. apply IH. intros y Hy. apply Hl. by right. }
  assert (∀ l, (∀ x, x ∈ l → added_in new x = true) → List.filter (added_in new) l = l) as Hsome.
  { induction l as [|x l IH]; intros Hl; [done|]. simpl. rw (Hl x); [|by left]. f_equal. apply IH. intros y Hy. apply Hl. by right. }
  rw Hnone; [rw Hsome //|].
  - intros x Hx. rw Forall_forall in Hall. destruct (Hall x Hx) as [id Hid]. unfold added_in. rw Hid.
    apply bool_decide_eq_true, elem_of_entry_id_set. apply list_elem_of_lookup in Hx as [i Hi]. by exists i, x.
  - intros x Hx. unfold added_in. destruct (base_id x) as [id|] eqn:Eid; [|done]. apply bool_decide_eq_false. intros Hin.
    apply elem_of_entry_id_set in Hin as (i & y & Hy & Hyid). apply (Hdis (Some id)); [rw -Eid; by apply list_elem_of_fmap_2|].
    rw -Hyid. apply list_elem_of_fmap_2. by eapply list_elem_of_lookup_2.
Qed.

Lemma filter_added disk new l : well_identified (disk ++ new) → l ≡ₚ disk ++ new → List.filter (added_in new) l ≡ₚ new.
Proof.
  intros Hw Hp. rw -{2}(filter_added_app disk new Hw).
  assert (∀ k, List.filter (added_in new) k = filter (λ e, added_in new e = true) k) as Hfil; [|by rw !Hfil Hp].
  induction k as [|x k IH]; [done|]. rw filter_cons. simpl. rw IH. by destruct (added_in new x).
Qed.

(** An append adds exactly what is new.  The rows appended to the file
    are the entries in memory whose identifiers the file does not have, each
    as one line; with the file they hold every entry of both, once, under
    unique identifiers and with every parent present. *)
Theorem append_adds_exactly_the_new encode disk count name entries plan :
  plan_jsonl_incremental_append encode disk count name entries = Ok plan →
  (∃ new, entries_appended plan ≡ₚ new ∧ new `sublist_of` entries ∧ ordered_entries plan ≡ₚ disk ++ new) ∧
  serialized_entries plan = (entries_appended plan ≫= λ e, encode e ++ [c_nl]) ∧
  (∀ e, e ∈ entries → ∃ e', e' ∈ disk ++ entries_appended plan ∧ base_id e' = base_id e ∧ encode e' = encode e) ∧
  well_identified (disk ++ entries_appended plan) ∧ links_closed (disk ++ entries_appended plan).
Proof.
  unfold plan_jsonl_incremental_append, ensure_session_parent_links_closed.
  destruct (index_payloads _ _ _) as [persisted|err] eqn:Ei; cbn [result_bind]; [|done].
  destruct (pending_loop _ _ _ _ _) as [pending|err] eqn:Ep; cbn [result_bind]; [|done].
  destruct (links_closed_loop _ _) as [[]|err] eqn:El; cbn [result_bind]; [|done].
  destruct (stable_parent_topological_order _) as [ordered|err] eqn:Eo; cbn [result_bind]; [|done].
  set (appended := List.filter _ ordered). destruct (fold_left _ _ _) as [c nm]. intros [= <-]. simpl.
  assert (payloads_of encode disk persisted) as Hk.
  { apply (index_payloads_spec encode disk [] ∅ persisted Ei). split; [split; constructor|]. intros id b. rw lookup_empty.
    split; [done|]. intros (e & He & _). by apply elem_of_nil in He. }
  destruct (pending_loop_spec _ _ _ _ _ _ _ Ep Hk) as (new & -> & [(new' & E & Hsub) Hloc Hw]). simpl in *. apply app_inv_head in E as <-.
  destruct (topological_order_spec (disk ++ new)) as [Ht _]. rw Eo in Ht. destruct Ht as [Hp _].
  pose proof (filter_added disk new ordered Hw Hp) as Ha. change (List.filter (added_in new) ordered) with appended in Ha.
  assert (disk ++ appended ≡ₚ disk ++ new) as Hda by by rw Ha.
  rw links_closed_loop_spec in El. split_and!; [by exists new|done| | |].
  - intros e He. destruct (Hloc e He) as (e' & He' & ?). exists e'. split; [by rw Hda|done].
  - destruct Hw as [Hall Hn]. split; [by rw Hda|by rw Hda].
  - intros e p He Hpar. unfold entry_id_set. rw Hda. apply (El e p); [by rw -Hda|done].
Qed.

(** ** Appending after a beginning of the session

    The file holds [base ++ known], memory offers [known ++ fresh] again. *)

Lemma id_of_snoc known e rest :
  well_identified (known ++ e :: rest) → ∃ id, base_id e = Some id ∧ ∀ x, x ∈ known → base_id x ≠ Some id.
Proof.
  intros [Hall Hn]. rw Forall_app Forall_cons in Hall. destruct Hall as (_ & [id Hid] & _). exists id. split; [done|]. intros x Hx E.
  rw fmap_app in Hn. apply NoDup_app in Hn as (_ & Hd & _). apply (Hd (Some id)); [rw -E; by apply list_elem_of_fmap_2|]. rw -Hid. by left.
Qed.

Lemma index_payloads_ok encode known persisted entries :
  payloads_of encode known persisted → well_identified (known ++ entries) → ∃ r, index_payloads encode persisted entries = Ok r.
Proof.
  revert known persisted. induction entries as [|e entries IH]; intros known persisted Hk Hw; simpl; [by eexists|].
  destruct (id_of_snoc known e entries Hw) as (id & Hid & Hnew). rw Hid. destruct (persisted !! id) as [b|] eqn:Ep.
  { destruct Hk as [_ Hk]. apply Hk in Ep as (x & Hx & Hxid & _). by destruct (Hnew x Hx). }
  apply (IH (known ++ [e])); [by apply payloads_of_snoc|]. by rw -assoc.
Qed.

Lemma pending_loop_known encode persisted seen pending l rest :
  (∀ e, e ∈ l → ∃ id, base_id e = Some id ∧ (id ∉ seen) ∧ persisted !! id = Some (encode e) ∧ len (encode e) ≤ MAX_JSONL_LINE_BYTES) →
  NoDup (base_id <$> l) →
  ∃ seen', (∀ id, id ∈ seen' ↔ id ∈ seen ∨ Some id ∈ base_id <$> l) ∧
    pending_loop encode persisted seen pending (l ++ rest) = pending_loop encode persisted seen' pending rest.
Proof.
  revert seen. induction l as [|e l IH]; intros seen Hl Hn; simpl.
  { exists seen. split; [|done]. intros id. rw elem_of_nil. tauto. }
  apply NoDup_cons in Hn as [He Hn]. destruct (Hl e) as (id & Hid & Hs & Hp & Hf); [by left|].
  rw Hid (decide_False _ _ Hs) Hp. unfold ensure_jsonl_line_len_within_limit. rw (proj2 (Z.ltb_ge _ _) Hf). cbn [result_bind]. rw decide_True //.
  destruct (IH ({[id]} ∪ seen)) as (seen' & Hseen & ->); [|done|].
  - intros x Hx. destruct (Hl x) as (id' & Hid' & Hs' & Hp' & Hf'); [by right|]. exists id'. split_and!; try done.
    rw elem_of_union elem_of_singleton. intros [->|?]; [|done]. apply He. rw Hid -Hid'. by apply list_elem_of_fmap_2.
  - exists seen'. split; [|done]. intros id'. rw Hseen elem_of_union elem_of_singleton elem_of_cons. naive_solver.
Qed.

Lemma pending_loop_fresh encode persisted seen pending rest :
  (∀ e, e ∈ rest → ∃ id, base_id e = Some id ∧ (id ∉ seen) ∧ persisted !! id = None ∧ len (encode e) ≤ MAX_JSONL_LINE_BYTES) →
  NoDup (base_id <$> rest) → pending_loop encode persisted seen pending rest = Ok (pending ++ rest).
Proof.
  revert persisted seen pending. induction rest as [|e rest IH]; intros persisted seen pending Hr Hn; simpl; [by rw app_nil_r|].
  apply NoDup_cons in Hn as [He Hn]. destruct (Hr e) as (id & Hid & Hs & Hp & Hf); [by left|]. rw Hid (decide_False _ _ Hs) Hp.
  unfold ensure_jsonl_line_len_within_limit. rw (proj2 (Z.ltb_ge _ _) Hf). cbn [result_bind].
  rw IH; [by rw -assoc| |done]. intros x Hx. destruct (Hr x) as (id' & Hid' & Hs' & Hp' & Hf'); [by right|]. exists id'. split; [done|].
  assert (id' ≠ id) as Hne. { intros ->. apply He. rw Hid -Hid'. by apply list_elem_of_fmap_2. }
  split_and!; [rw elem_of_union elem_of_singleton; tauto|by rw lookup_insert_ne|done].
Qed.

Lemma plan_extends encode base known fresh count name :
  well_identified ((base ++ known) ++ fresh) → links_closed ((base ++ known) ++ fresh) → parents_first ((base ++ known) ++ fresh) →
  Forall (λ e, len (encode e) ≤ MAX_JSONL_LINE_BYTES) (known ++ fresh) →
  ∃ count' name', plan_jsonl_incremental_append encode (base ++ known) count name (known ++ fresh) =
    Ok (mkAppendPlan ((base ++ known) ++ fresh) (fresh ≫= λ e, encode e ++ [c_nl]) fresh count' name').
Proof.
  intros Hw Hc Hpf Hf. unfold plan_jsonl_incremental_append, ensure_session_parent_links_closed.
  assert (payloads_of encode [] ∅) as H0. { split; [split; constructor|]. intros id b. rw lookup_empty. split; [done|]. intros (e & He & _). by apply elem_of_nil in He. }
  destruct (index_payloads_ok encode [] ∅ (base ++ known) H0) as [persisted Ei]; [by eapply well_identified_app|].
  pose proof (index_payloads_spec encode (base ++ known) [] ∅ persisted Ei H0) as [_ Hk]. rw Ei. cbn [result_bind]. simpl in Hk.
  destruct Hw as [Hall Hn] eqn:Ew. clear Ew. rw Forall_app in Hf. destruct Hf as [Hfk Hff]. rw !fmap_app in Hn. rw !Forall_app in Hall.
  destruct Hall as [[_ Hak] Haf]. apply NoDup_app in Hn as (Hnk & Hdis & Hnf). apply NoDup_app in Hnk as (_ & _ & Hnk).
  rw Forall_forall in Hak. rw Forall_forall in Haf. rw Forall_forall in Hfk. rw Forall_forall in Hff.
  destruct (pending_loop_known encode persisted ∅ [] known fresh) as (seen & Hseen & ->); [|done|].
  { intros e He. destruct (Hak e He) as [id Hid]. exists id. split_and!; [done|set_solver| |by apply Hfk]. apply Hk. exists e. split_and!; try done.
    apply elem_of_app. by right. }
  rw pending_loop_fresh; [|intros e He; destruct (Haf e He) as [id Hid]; exists id; split_and!; try done; [| |by apply Hff]|done].
  - cbn [result_bind app]. assert (links_closed_loop (entry_id_set ((base ++ known) ++ fresh)) ((base ++ known) ++ fresh) = Ok tt) as -> by by apply links_closed_loop_spec.
    cbn [result_bind]. destruct (topological_order_spec ((base ++ known) ++ fresh)) as [_ ->]; [|done|done]. cbn [result_bind].
    change (List.filter _ ((base ++ known) ++ fresh)) with (List.filter (added_in fresh) ((base ++ known) ++ fresh)).
    rw (filter_added_app (base ++ known) fresh) //. destruct (fold_left _ _ _) as [c' n']. by exists c', n'.
  - rw Hseen. intros [?|Hin]; [set_solver|]. apply (Hdis (Some id)); [apply elem_of_app; by right|]. rw -Hid. by apply list_elem_of_fmap_2.
  - destruct (persisted !! id) as [b|] eqn:Ep; [|done]. apply Hk in Ep as (x & Hx & Hxid & _). exfalso.
    apply (Hdis (Some id)); [rw -fmap_app -Hxid; by apply list_elem_of_fmap_2|rw -Hid; by apply list_elem_of_fmap_2].
Qed.
