(* ===== verification/SessionTree.v ===== *)
(** * The session tree ([Session] of [src/session.rs])

    A session keeps its entries in storage order; their parent links make
    them a tree, and [leaf_id] selects the current branch.  Derived data is
    cached: the identifiers, their positions, statistics, and [is_linear], the
    flag that allows the current path to be read off without following links.

    Parameters: the random identifiers of the [uuid] crate ([Draw], an input of
    every operation that appends), the digest of entries that were stored
    without an identifier ([legacy_digest], SHA-256 of the stored form), and
    whether the cache of identifiers is enabled.  Paths, stores, durability and
    the fields of the second storage format are left out, except the offset
    they add to the message count. *)

From S2P Require Import Prelude Text Utf8 Json Messages SessionEntries SessionAutosave SessionGraph.

Definition SESSION_VERSION : Z := 3.
Definition ROOT_LEAF_OVERRIDE_SENTINEL : Str := [].

Record SessionHeader := mkHeader {
  h_type : Str;
  h_version : option Z;
  h_id : Str;
  h_timestamp : Str;
  h_cwd : Str;
  h_provider : option Str;
  h_model_id : option Str;
  h_thinking_level : option Str;
  h_fallback_provider : option Str;
  h_fallback_model_id : option Str;
  h_fallback_thinking_level : option Str;
  h_current_leaf : option Str;
  h_parent_session : option Str;
}.

(** [SessionHeader::new]; identifier, time stamp and directory come from the
    outside. *)
Definition SessionHeader_new (id timestamp cwd : Str) : SessionHeader :=
  mkHeader (str "session") (Some SESSION_VERSION) id timestamp cwd None None None None None None None None.

Definition set_models (h : SessionHeader) (provider model_id thinking_level : option Str) : SessionHeader :=
  mkHeader (h_type h) (h_version h) (h_id h) (h_timestamp h) (h_cwd h) provider model_id thinking_level
    (h_fallback_provider h) (h_fallback_model_id h) (h_fallback_thinking_level h) (h_current_leaf h) (h_parent_session h).
Definition set_fallbacks (h : SessionHeader) (provider model_id thinking_level : option Str) : SessionHeader :=
  mkHeader (h_type h) (h_version h) (h_id h) (h_timestamp h) (h_cwd h) (h_provider h) (h_model_id h) (h_thinking_level h)
    provider model_id thinking_level (h_current_leaf h) (h_parent_session h).
Definition set_links (h : SessionHeader) (current_leaf parent_session : option Str) : SessionHeader :=
  mkHeader (h_type h) (h_version h) (h_id h) (h_timestamp h) (h_cwd h) (h_provider h) (h_model_id h) (h_thinking_level h)
    (h_fallback_provider h) (h_fallback_model_id h) (h_fallback_thinking_level h) current_leaf parent_session.

Definition branch_fallback_model_fields (h : SessionHeader) : option Str * option Str :=
  (or_else (h_fallback_provider h) (h_provider h), or_else (h_fallback_model_id h) (h_model_id h)).

Definition materialize_branch_fallbacks (h : SessionHeader) : SessionHeader * bool :=
  let is_some {A} (o : option A) : bool := match o with Some _ => true | None => false end in
  let set_provider := negb (is_some (h_fallback_provider h)) && is_some (h_provider h) in
  let set_model_id := negb (is_some (h_fallback_model_id h)) && is_some (h_model_id h) in
  let set_thinking := negb (is_some (h_fallback_thinking_level h)) && is_some (h_thinking_level h) in
  (set_fallbacks h (if set_provider then h_provider h else h_fallback_provider h)
     (if set_model_id then h_model_id h else h_fallback_model_id h)
     (if set_thinking then h_thinking_level h else h_fallback_thinking_level h),
   set_provider || set_model_id || set_thinking).

Definition header_validate (h : SessionHeader) : result unit Str :=
  if negb (bool_decide (h_type h = str "session"))
  then Err (str "type must be `session`, got `" ++ h_type h ++ str "`")
  else if negb (bool_decide (h_version h = Some SESSION_VERSION))
  then Err (str "version must be " ++ show_u64 SESSION_VERSION ++ str ", got "
            ++ match h_version h with Some v => show_u64 v | None => str "none" end)
  else if is_empty (trim (h_id h)) then Err (str "id must be non-empty")
  else if is_empty (trim (h_timestamp h)) then Err (str "timestamp must be non-empty")
  else if is_empty (trim (h_cwd h)) then Err (str "cwd must be non-empty")
  else Ok tt.

(** ** The state *)

Record Session := mkSession {
  header : SessionHeader;
  entries : list SessionEntry;
  leaf_id : option Str;
  entry_ids : gset Str;
  is_linear : bool;
  entry_index : gmap Str nat;
  cached_message_count : Z;
  cached_name : option Str;
  autosave_queue : AutosaveQueue;
  persisted_entry_count : Z;
  header_dirty : bool;
  appends_since_checkpoint : Z;
  v2_message_count_offset : Z;
}.

Definition in_memory (h : SessionHeader) (autosave_env : option Str) : Session :=
  mkSession h [] None ∅ true ∅ 0 None (AutosaveQueue_new autosave_env) 0 false 0 0.

(** The fields an operation writes. *)
Definition set_nav (s : Session) (leaf : option Str) (linear : bool) : Session :=
  mkSession (header s) (entries s) leaf (entry_ids s) linear (entry_index s) (cached_message_count s) (cached_name s)
    (autosave_queue s) (persisted_entry_count s) (header_dirty s) (appends_since_checkpoint s) (v2_message_count_offset s).
Definition set_header (s : Session) (h : SessionHeader) (dirty : bool) : Session :=
  mkSession h (entries s) (leaf_id s) (entry_ids s) (is_linear s) (entry_index s) (cached_message_count s) (cached_name s)
    (autosave_queue s) (persisted_entry_count s) dirty (appends_since_checkpoint s) (v2_message_count_offset s).
Definition set_stats (s : Session) (count : Z) (name : option Str) : Session :=
  mkSession (header s) (entries s) (leaf_id s) (entry_ids s) (is_linear s) (entry_index s) count name
    (autosave_queue s) (persisted_entry_count s) (header_dirty s) (appends_since_checkpoint s) (v2_message_count_offset s).
Definition set_queue (s : Session) (q : AutosaveQueue) : Session :=
  mkSession (header s) (entries s) (leaf_id s) (entry_ids s) (is_linear s) (entry_index s) (cached_message_count s)
    (cached_name s) q (persisted_entry_count s) (header_dirty s) (appends_since_checkpoint s) (v2_message_count_offset s).

Definition enqueue_autosave_mutation (kind : AutosaveMutationKind) (s : Session) : Session :=
  set_queue s (enqueue_mutation kind (autosave_queue s)).

(** [self.entries.push(entry)] with the index and the set of identifiers. *)
Definition push_entry (s : Session) (id : Str) (entry : SessionEntry) : Session :=
  mkSession (header s) (entries s ++ [entry]) (Some id) ({[id]} ∪ entry_ids s) (is_linear s)
    (<[id := length (entries s)]> (entry_index s)) (cached_message_count s) (cached_name s)
    (autosave_queue s) (persisted_entry_count s) (header_dirty s) (appends_since_checkpoint s) (v2_message_count_offset s).

(** ** Reading the tree *)

Definition get_entry (s : Session) (id : Str) : option SessionEntry := entry_index s !! id ≫= λ idx, entries s !! idx.

(** The [while] loops that follow parent links, newest entry first: the
    positions they visit.  They stop at an identifier seen before, at an
    unknown one, and at a root. *)
Fixpoint walk (s : Session) (fuel : nat) (visited : gset Str) (current : option Str) : list nat :=
  match fuel, current with
  | S fuel', Some id =>
      if decide (id ∈ visited) then []
      else match entry_index s !! id with
           | None => []
           | Some idx =>
               match entries s !! idx with
               | None => []
               | Some entry => idx :: walk s fuel' ({[id]} ∪ visited) (parent_id entry)
               end
           end
  | _, _ => []
  end.

Definition walk_fuel (s : Session) : nat := S (size (entry_index s)).

Definition entries_for_current_path (s : Session) : list SessionEntry :=
  match leaf_id s with
  | None => []
  | Some leaf =>
      if is_linear s then entries s
      else omap (λ idx, entries s !! idx) (reverse (walk s (walk_fuel s) ∅ (Some leaf)))
  end.

Definition to_messages_for_current_path (s : Session) : list Message :=
  match leaf_id s with
  | None => []
  | Some _ =>
      if is_linear s then to_messages_from_path (entries s)
      else to_messages_from_path (entries_for_current_path s)
  end.

Definition to_messages (s : Session) : list Message :=
  entries s ≫= λ e, match entry_kind e with EMessage m => option_list (session_message_to_model m) | _ => [] end.

(** The same loop over identifiers: an unknown one is still recorded. *)
Fixpoint walk_ids (s : Session) (fuel : nat) (visited : gset Str) (current : option Str) : list Str :=
  match fuel, current with
  | S fuel', Some id =>
      if decide (id ∈ visited) then []
      else id :: walk_ids s fuel' ({[id]} ∪ visited) (get_entry s id ≫= parent_id)
  | _, _ => []
  end.

Definition get_path_to_entry (s : Session) (entry_id : Str) : list Str :=
  let slow := reverse (walk_ids s (S (walk_fuel s)) ∅ (Some entry_id)) in
  if is_linear s then
    match entry_index s !! entry_id with
    | Some idx => omap base_id (take (S idx) (entries s))
    | None => slow
    end
  else slow.

(** [iter().rev().find_map] over the current path. *)
Fixpoint last_some {A B} (f : A → option B) (l : list A) : option B :=
  match l with
  | [] => None
  | x :: l' => match last_some f l' with Some y => Some y | None => f x end
  end.

Definition model_change_of (e : SessionEntry) : option (Str * Str) :=
  match entry_kind e with EModelChange provider model => Some (provider, model) | _ => None end.
Definition thinking_change_of (e : SessionEntry) : option Str :=
  match entry_kind e with EThinkingLevelChange level => Some level | _ => None end.

Definition latest_model_change_for_current_path (s : Session) : option (Str * Str) :=
  last_some model_change_of (entries_for_current_path s).
Definition latest_thinking_level_for_current_path (s : Session) : option Str :=
  last_some thinking_change_of (entries_for_current_path s).

Definition is_some_b {A} (o : option A) : bool := match o with Some _ => true | None => false end.
Definition has_any_model_change (s : Session) : bool := existsb (λ e, is_some_b (model_change_of e)) (entries s).
Definition has_any_thinking_level_change (s : Session) : bool := existsb (λ e, is_some_b (thinking_change_of e)) (entries s).

Definition zip_option {A B} (a : option A) (b : option B) : option (A * B) :=
  match a, b with Some x, Some y => Some (x, y) | _, _ => None end.

Definition effective_model_for_current_path (s : Session) : option (Str * Str) :=
  match latest_model_change_for_current_path s with
  | Some model => Some model
  | None => if has_any_model_change s then zip_option (h_fallback_provider (header s)) (h_fallback_model_id (header s))
            else zip_option (h_provider (header s)) (h_model_id (header s))
  end.

Definition effective_thinking_level_for_current_path (s : Session) : option Str :=
  match latest_thinking_level_for_current_path s with
  | Some level => Some level
  | None => if has_any_thinking_level_change s then h_fallback_thinking_level (header s) else h_thinking_level (header s)
  end.

(** ** The header follows the branch *)

Definition persisted_leaf_override (s : Session) : option Str :=
  match entries s with
  | [] => None
  | _ =>
      match leaf_id s, last (entries s) ≫= base_id with
      | None, _ => Some ROOT_LEAF_OVERRIDE_SENTINEL
      | Some current, Some natural_tip => if decide (current = natural_tip) then None else Some current
      | Some current, None => Some current
      end
  end.

(** The three parts of [sync_navigation_state_to_header], each with whether it
    changed the header. *)
Definition sync_leaf (s : Session) : SessionHeader * bool :=
  let desired := persisted_leaf_override s in
  if decide (h_current_leaf (header s) = desired) then (header s, false)
  else (set_links (header s) desired (h_parent_session (header s)), true).

Definition sync_model (s : Session) (h : SessionHeader) : SessionHeader * bool :=
  match effective_model_for_current_path s with
  | Some (provider, model_id) =>
      if decide (h_provider h = Some provider ∧ h_model_id h = Some model_id) then (h, false)
      else (set_models h (Some provider) (Some model_id) (h_thinking_level h), true)
  | None =>
      if has_any_model_change s && (is_some_b (h_provider h) || is_some_b (h_model_id h))
      then (set_models h None None (h_thinking_level h), true) else (h, false)
  end.

Definition sync_thinking (s : Session) (h : SessionHeader) : SessionHeader * bool :=
  match effective_thinking_level_for_current_path s with
  | Some level =>
      if decide (h_thinking_level h = Some level) then (h, false)
      else (set_models h (h_provider h) (h_model_id h) (Some level), true)
  | None =>
      if has_any_thinking_level_change s && is_some_b (h_thinking_level h)
      then (set_models h (h_provider h) (h_model_id h) None, true) else (h, false)
  end.

Definition sync_navigation_state_to_header (s : Session) : Session :=
  let '(h1, c1) := sync_leaf s in
  let '(h2, c2) := sync_model s h1 in
  let '(h3, c3) := sync_thinking s h2 in
  if c1 || c2 || c3 then enqueue_autosave_mutation MutMetadata (set_header s h3 true)
  else set_header s h3 (header_dirty s).

Definition clear_persisted_leaf_override_after_append (s : Session) : Session :=
  let '(h, changed) := sync_leaf s in set_header s h (header_dirty s || changed).

(** ** Fresh identifiers *)

(** What [Uuid::new_v4] answers to one call of [generate_entry_id]: up to a
    hundred in simple form, and one more in hyphenated form. *)
Record Draw := mkDraw { draw_simple : nat → Str; draw_full : Str }.

Definition generate_entry_id (d : Draw) (existing : gset Str) : Str :=
  match List.find (λ i, negb (bool_decide (take 8 (draw_simple d i) ∈ existing))) (seq 0 100) with
  | Some i => take 8 (draw_simple d i)
  | None => draw_full d
  end.

Section Session.
Context (use_entry_id_cache : bool) (legacy_digest : SessionEntry → nat → Str).

Definition next_entry_id (s : Session) (d : Draw) : Str :=
  generate_entry_id d (if use_entry_id_cache then entry_ids s else entry_id_set (entries s)).

(** ** Appending

    Every [append_*] draws an identifier, makes the entry a child of the leaf,
    and records it in the same way. *)
Definition append_entry (s : Session) (d : Draw) (stamp : Str) (kind : EntryKind) (mutation : AutosaveMutationKind)
    : Session * Str :=
  let id := next_entry_id s d in
  let entry := mkEntry (mkBase (Some id) (leaf_id s) stamp) kind in
  let s := push_entry s id entry in
  let s := match kind with EMessage _ => set_stats s (cached_message_count s + 1) (cached_name s) | _ => s end in
  (enqueue_autosave_mutation mutation (clear_persisted_leaf_override_after_append s), id).

Definition append_message (s : Session) (d : Draw) (stamp : Str) (message : SessionMessage) : Session * Str :=
  append_entry s d stamp (EMessage message) MutMessage.
Definition append_model_message (s : Session) (d : Draw) (stamp : Str) (message : Message) : Session * Str :=
  append_message s d stamp (session_message_from message).
Definition append_model_change (s : Session) (d : Draw) (stamp provider model_id : Str) : Session * Str :=
  append_entry s d stamp (EModelChange provider model_id) MutMetadata.
Definition append_thinking_level_change (s : Session) (d : Draw) (stamp thinking_level : Str) : Session * Str :=
  append_entry s d stamp (EThinkingLevelChange thinking_level) MutMetadata.
Definition append_session_info (s : Session) (d : Draw) (stamp : Str) (name : option Str) : Session * Str :=
  let s := match name with Some _ => set_stats s (cached_message_count s) name | None => s end in
  append_entry s d stamp (ESessionInfo name) MutMetadata.
Definition append_custom_entry (s : Session) (d : Draw) (stamp custom_type : Str) (data : option Json) : Session * Str :=
  append_entry s d stamp (ECustom custom_type data) MutMetadata.
Definition append_bash_execution (s : Session) (d : Draw) (stamp command output : Str) (exit_code : Z)
    (cancelled truncated : bool) (full_output_path : option Str) : Session * Str :=
  append_entry s d stamp (EMessage (SmBashExecution command output exit_code (Some cancelled) (Some truncated)
    full_output_path ∅)) MutMessage.
Definition append_compaction (s : Session) (d : Draw) (stamp : Str) (c : CompactionEntry) : Session * Str :=
  append_entry s d stamp (ECompaction c) MutMetadata.
Definition append_branch_summary (s : Session) (d : Draw) (stamp : Str) (b : BranchSummaryEntry) : Session * Str :=
  append_entry s d stamp (EBranchSummary b) MutMetadata.
Definition add_label (s : Session) (d : Draw) (stamp target_id : Str) (label : option Str) : Session * option Str :=
  match get_entry s target_id with
  | None => (s, None)
  | Some _ => let '(s, id) := append_entry s d stamp (ELabel target_id label) MutLabel in (s, Some id)
  end.
Definition set_name (s : Session) (d : Draw) (stamp name : Str) : Session * Str := append_session_info s d stamp (Some name).

(** ** Moving the leaf *)

Definition navigate_to (s : Session) (entry_id : Str) : Session * bool :=
  match entry_index s !! entry_id with
  | None => (s, false)
  | Some _ =>
      let is_tip := bool_decide (last (entries s) ≫= base_id = Some entry_id) in
      (sync_navigation_state_to_header (set_nav s (Some entry_id) (is_linear s && is_tip)), true)
  end.
Definition create_branch_from (s : Session) (entry_id : Str) : Session * bool := navigate_to s entry_id.

Definition reset_leaf (s : Session) : Session := sync_navigation_state_to_header (set_nav s None false).

Definition is_user_entry (e : SessionEntry) : bool :=
  match entry_kind e with EMessage (SmUser _) => true | _ => false end.
Definition is_incomplete_assistant (e : SessionEntry) : bool :=
  match entry_kind e with
  | EMessage (SmAssistant m) => match a_stop_reason m with StopError | Aborted => true | _ => false end
  | _ => false
  end.

(** The loops of the two reverts: the leaf they end at and whether they moved
    it. *)
Fixpoint revert_user_loop (s : Session) (fuel : nat) (leaf current : option Str) (reverted : bool) : option Str * bool :=
  match fuel, current with
  | S fuel', Some id =>
      match get_entry s id with
      | None => (leaf, reverted)
      | Some entry => if is_user_entry entry then (parent_id entry, true)
                      else revert_user_loop s fuel' (parent_id entry) (parent_id entry) true
      end
  | _, _ => (leaf, reverted)
  end.

Fixpoint revert_incomplete_loop (s : Session) (fuel : nat) (leaf current : option Str) (reverted : bool) : option Str * bool :=
  match fuel, current with
  | S fuel', Some id =>
      match get_entry s id with
      | None => (leaf, reverted)
      | Some entry => if negb (is_incomplete_assistant entry) then (leaf, reverted)
                      else revert_incomplete_loop s fuel' (parent_id entry) (parent_id entry) true
      end
  | _, _ => (leaf, reverted)
  end.

Definition apply_revert (s : Session) (r : option Str * bool) : Session * bool :=
  let '(leaf, reverted) := r in
  if reverted then (sync_navigation_state_to_header (set_nav s leaf false), true) else (s, false).

Definition revert_last_user_message (s : Session) : Session * bool :=
  apply_revert s (revert_user_loop s (walk_fuel s) (leaf_id s) (leaf_id s) false).
Definition revert_incomplete_response (s : Session) : Session * bool :=
  apply_revert s (revert_incomplete_loop s (walk_fuel s) (leaf_id s) (leaf_id s) false).

(** ** Header updates *)

Definition set_model_header (s : Session) (provider model_id thinking_level : option Str) : Session :=
  let h := header s in
  let changed := is_some_b provider || is_some_b model_id || is_some_b thinking_level in
  let h := set_models h (or_else provider (h_provider h)) (or_else model_id (h_model_id h))
             (or_else thinking_level (h_thinking_level h)) in
  if changed then enqueue_autosave_mutation MutMetadata (set_header s h true) else set_header s h (header_dirty s).

Definition set_branched_from (s : Session) (path : option Str) : Session :=
  enqueue_autosave_mutation MutMetadata (set_header s (set_links (header s) (h_current_leaf (header s)) path) true).

(** ** Loading *)

(** The second part of [generate_loaded_entry_id]: a suffix for the digest. *)
Fixpoint show_hex_digits (fuel : nat) (n : Z) : Str :=
  match fuel with
  | O => []
  | S fuel' =>
      let digit := n mod 16 in
      let c := if digit <? 10 then Z.to_N (48 + digit) else Z.to_N (87 + digit) in
      if n <? 16 then [c] else show_hex_digits fuel' (n / 16) ++ [c]
  end.
Definition show_hex (n : Z) : Str := show_hex_digits 16 n.

(** [None] is the [unreachable!] branch. *)
Definition generate_loaded_entry_id (entry : SessionEntry) (existing : gset Str) : option Str :=
  match List.find (λ i, negb (bool_decide (legacy_digest entry i ∈ existing))) (seq 0 100) with
  | Some i => Some (legacy_digest entry i)
  | None =>
      let candidate suffix := legacy_digest entry 100 ++ str "-" ++ show_hex (Z.of_nat suffix) in
      candidate <$> List.find (λ i, negb (bool_decide (candidate i ∈ existing))) (seq 0 (S (size existing)))
  end.

Definition set_entry_id (entry : SessionEntry) (id : Str) : SessionEntry :=
  mkEntry (mkBase (Some id) (parent_id entry) (e_stamp (entry_base entry))) (entry_kind entry).

(** The first pass of [finalize_loaded_entries]. *)
Fixpoint assign_ids (existing : gset Str) (entries : list SessionEntry) : option (list SessionEntry * gset Str) :=
  match entries with
  | [] => Some ([], existing)
  | entry :: entries' =>
      match base_id entry with
      | Some _ => '(rest, ids) ← assign_ids existing entries'; Some (entry :: rest, ids)
      | None =>
          id ← generate_loaded_entry_id entry existing;
          '(rest, ids) ← assign_ids ({[id]} ∪ existing) entries';
          Some (set_entry_id entry id :: rest, ids)
      end
  end.

Record LoadFinalization := mkFinal {
  fin_leaf_id : option Str;
  fin_entry_ids : gset Str;
  fin_entry_index : gmap Str nat;
  fin_message_count : Z;
  fin_name : option Str;
  fin_is_linear : bool;
  fin_orphans : list (Str * Str);
}.

(** The variables of the second pass. *)
Record Scan := mkScan {
  sc_leaf : option Str;
  sc_index : gmap Str nat;
  sc_count : Z;
  sc_name : option Str;
  sc_orphans : list (Str * Str);
  sc_parents : gmap (option Str) Z;
  sc_branching : bool;
  sc_roots : Z;
  sc_previous : option Str;
  sc_linear : bool;
}.

Definition scan_entry (ids : gset Str) (idx : nat) (sc : Scan) (entry : SessionEntry) : Scan :=
  match base_id entry with
  | None => sc
  | Some id =>
      let parent := parent_id entry in
      let orphans := match parent with
                     | Some p => if decide (p ∈ ids) then sc_orphans sc else sc_orphans sc ++ [(id, p)]
                     | None => sc_orphans sc
                     end in
      let roots := match parent with Some _ => sc_roots sc | None => sc_roots sc + 1 end in
      let linear := sc_linear sc && bool_decide (parent = sc_previous sc) in
      let '(parents, branching) :=
        if sc_branching sc then (sc_parents sc, true)
        else let count := default 0 (sc_parents sc !! parent) + 1 in (<[parent := count]> (sc_parents sc), 1 <? count) in
      let count := match entry_kind entry with EMessage _ => sc_count sc + 1 | _ => sc_count sc end in
      let name := match entry_kind entry with ESessionInfo (Some name) => Some name | _ => sc_name sc end in
      mkScan (Some id) (<[id := idx]> (sc_index sc)) count name orphans parents branching roots (Some id) linear
  end.

Fixpoint scan_entries (ids : gset Str) (idx : nat) (sc : Scan) (entries : list SessionEntry) : Scan :=
  match entries with
  | [] => sc
  | entry :: entries' => scan_entries ids (S idx) (scan_entry ids idx sc entry) entries'
  end.

Definition finalize_loaded_entries (entries : list SessionEntry) : option (list SessionEntry * LoadFinalization) :=
  '(entries, ids) ← assign_ids (entry_id_set entries) entries;
  let sc := scan_entries ids 0 (mkScan None ∅ 0 None [] ∅ false 0 None true) entries in
  Some (entries, mkFinal (sc_leaf sc) ids (sc_index sc) (sc_count sc) (sc_name sc)
    (sc_linear sc && negb (sc_branching sc) && (sc_roots sc <=? 1) && match sc_orphans sc with [] => true | _ => false end)
    (sc_orphans sc)).

Definition resolve_loaded_leaf_id (h : SessionHeader) (natural_leaf_id : option Str) (index : gmap Str nat) : option Str :=
  match h_current_leaf h with
  | Some leaf =>
      if decide (leaf = ROOT_LEAF_OVERRIDE_SENTINEL) then None
      else if is_some_b (index !! leaf) then Some leaf else natural_leaf_id
  | None => natural_leaf_id
  end.

(** [open_jsonl_blocking], from the parsed header and rows on. *)
Definition open_session (h : SessionHeader) (rows : list SessionEntry) (autosave_env : option Str) : option (Session * list (Str * Str)) :=
  let '(h, dirty) := materialize_branch_fallbacks h in
  '(rows, fin) ← finalize_loaded_entries rows;
  let leaf := resolve_loaded_leaf_id h (fin_leaf_id fin) (fin_entry_index fin) in
  Some (mkSession h rows leaf (fin_entry_ids fin) (fin_is_linear fin && bool_decide (leaf = fin_leaf_id fin))
          (fin_entry_index fin) (fin_message_count fin) (fin_name fin) (AutosaveQueue_new autosave_env) (len rows) dirty 0 0,
        fin_orphans fin).

(** What [rebuild_all_caches] and [accept_persisted_state] take from a
    finalization. *)
Definition install (s : Session) (h : SessionHeader) (rows : list SessionEntry) (fin : LoadFinalization)
    (leaf : option Str) (persisted : Z) : Session :=
  mkSession h rows leaf (fin_entry_ids fin) (fin_is_linear fin && bool_decide (leaf = fin_leaf_id fin)) (fin_entry_index fin)
    (sat_add u64_max (fin_message_count fin) (v2_message_count_offset s)) (fin_name fin) (autosave_queue s) persisted
    (header_dirty s) (appends_since_checkpoint s) (v2_message_count_offset s).

Definition rebuild_all_caches (s : Session) : option Session :=
  '(rows, fin) ← finalize_loaded_entries (entries s);
  Some (install s (header s) rows fin (leaf_id s) (persisted_entry_count s)).
Definition ensure_entry_ids (s : Session) : option Session := rebuild_all_caches s.

Definition accept_persisted_state (s : Session) (h : SessionHeader) (rows : list SessionEntry) : option Session :=
  '(rows, fin) ← finalize_loaded_entries rows;
  let kept := leaf_id s ≫= λ id, if is_some_b (fin_entry_index fin !! id) then Some id else None in
  Some (install s h rows fin (or_else kept (fin_leaf_id fin)) (len rows)).

(** [prepare_jsonl_full_rewrite]: [disk] is what the file holds, if there is
    one. *)
Definition prepare_jsonl_full_rewrite (encode : SessionEntry → list N) (disk : option (SessionHeader * list SessionEntry))
    (h : SessionHeader) (rows : list SessionEntry) (dirty : bool) : result (SessionHeader * list SessionEntry) Error :=
  match disk with
  | None => let? merged := merge_for_rewrite encode [] rows in Ok (h, merged)
  | Some (disk_header, disk_rows) =>
      if decide (h_id disk_header = h_id h) then
        let? merged := merge_for_rewrite encode disk_rows rows in
        Ok (if dirty then h else disk_header, merged)
      else Err (session_error (str "persisted session header ID does not match the in-memory session ID"))
  end.

(** ** Forks *)

Definition push_line (out line : Str) : Str := (if is_empty out then out else out ++ [c_nl]) ++ line.

Definition content_blocks_to_text (blocks : list ContentBlock) : Str :=
  fold_left (λ out block, push_line out
    match block with
    | Text t => t_text t
    | Image image => str "[image: " ++ im_mime_type image ++ str "]"
    | Thinking t => th_thinking t
    | ToolCallBlock call => str "[tool call: " ++ tc_name call ++ str "]"
    | RedactedThinking _ => str "[thinking: redacted]"
    end) blocks [].

Definition user_content_to_text (content : UserContent) : Str :=
  match content with UserText text => text | UserBlocks blocks => content_blocks_to_text blocks end.

Record ForkPlan := mkFork { fork_entries : list SessionEntry; fork_leaf_id : option Str; fork_selected_text : Str }.

Definition missing_fork_entry (id : Str) : Error := session_error (str "Failed to build fork: missing entry " ++ id).

Definition plan_fork_from_user_message (s : Session) (entry_id : Str) : result ForkPlan Error :=
  match get_entry s entry_id with
  | None => Err (session_error (str "Fork target not found: " ++ entry_id))
  | Some entry =>
      match entry_kind entry with
      | EMessage (SmUser content) =>
          let leaf := parent_id entry in
          let? rows :=
            match leaf with
            | None => Ok []
            | Some leaf =>
                if is_linear s then
                  match entry_index s !! leaf with
                  | Some idx => Ok (take (S idx) (entries s))
                  | None => Err (missing_fork_entry leaf)
                  end
                else collect_results (λ id, match get_entry s id with Some e => Ok e | None => Err (missing_fork_entry id) end)
                       (get_path_to_entry s leaf)
            end in
          Ok (mkFork rows leaf (user_content_to_text content))
      | EMessage _ => Err (session_error (str "Fork target is not a user message: " ++ entry_id))
      | _ => Err (session_error (str "Fork target is not a message entry: " ++ entry_id))
      end
  end.

Definition init_from_fork_plan (s : Session) (plan : ForkPlan) : option Session :=
  '(rows, fin) ← finalize_loaded_entries (fork_entries plan);
  Some (sync_navigation_state_to_header (install s (header s) rows fin (fork_leaf_id plan) (persisted_entry_count s))).
End Session.
