(* ===== verification/SessionPaths.v ===== *)
(** * The current path of a session

    What the caches of [SessionTree.v] promise: whatever sequence of appends,
    navigations, reverts and header updates made a session, its current path
    is the chain of parent links from the leaf to a root, whether the linear
    shortcut is taken or not; reopening and saving keep it. *)

From S2P Require Import Prelude Text Utf8 Json Messages SessionEntries SessionAutosave SessionGraph SessionTree.

(** ** Paths *)

(** The path that ends at an identifier, by parent links; [None] is before
    every entry. *)
Inductive path_to (es : list SessionEntry) : option Str → list SessionEntry → Prop :=
| path_root : path_to es None []
| path_step id i e l :
    es !! i = Some e → base_id e = Some id → path_to es (parent_id e) l → path_to es (Some id) (l ++ [e]).

Definition parents_before (es : list SessionEntry) : Prop :=
  ∀ k e p, es !! k = Some e → parent_id e = Some p → ∃ k', (k' < k)%nat ∧ id_at es k' p.

(** Every entry is the child of the one before it. *)
Definition chain_from (previous : option Str) (es : list SessionEntry) : Prop :=
  ∀ i e, es !! i = Some e → parent_id e = match i with O => previous | S j => es !! j ≫= base_id end.
Abbreviation chain := (chain_from None).

Definition is_message_entry (e : SessionEntry) : Prop := match entry_kind e with EMessage _ => True | _ => False end.
#[global] Instance is_message_entry_dec e : Decision (is_message_entry e).
Proof. unfold is_message_entry. destruct (entry_kind e); apply _. Defined.
Definition name_of (e : SessionEntry) : option Str := match entry_kind e with ESessionInfo name => name | _ => None end.

(** The invariant of a session's tree and caches. *)
Record tree_ok (s : Session) : Prop := {
  ok_ids : well_identified (entries s);
  ok_named : ∀ i id, id_at (entries s) i id → id ≠ [];
  ok_before : parents_before (entries s);
  ok_index : ∀ id i, entry_index s !! id = Some i ↔ id_at (entries s) i id;
  ok_set : entry_ids s = entry_id_set (entries s);
  ok_leaf : ∀ id, leaf_id s = Some id → ∃ i, id_at (entries s) i id;
  ok_linear : is_linear s = true → chain (entries s) ∧ leaf_id s = last (entries s) ≫= base_id;
  ok_count : cached_message_count s = len (filter is_message_entry (entries s));
  ok_name : cached_name s = last_some name_of (entries s);
  ok_offset : v2_message_count_offset s = 0;
  ok_size : len (entries s) ≤ u64_max;
}.

(** The header names the leaf that reopening must restore. *)
Definition session_ok (s : Session) : Prop := tree_ok s ∧ h_current_leaf (header s) = persisted_leaf_override s.

Section Paths.
Context (es : list SessionEntry) (Hw : well_identified es).

Lemma path_to_unique o l k : path_to es o l → path_to es o k → l = k.
Proof.
  intros H. revert k. induction H as [|id i e l Hi Hid _ IH]; intros k Hk; inversion Hk as [|id' i' e' l' Hi' Hid' Hl']; subst; [done|].
  assert (i = i') as <- by (eapply (id_at_inj es i i' id (proj2 Hw)); [by exists e|by exists e']).
  assert (e = e') as <- by congruence. by rw (IH _ Hl').
Qed.

Lemma path_to_elem o l e : path_to es o l → e ∈ l → ∃ i, es !! i = Some e.
Proof.
  induction 1 as [|id i x l Hi Hid _ IH]; intros He; [by apply elem_of_nil in He|].
  apply elem_of_app in He as [He|He]; [by apply IH|]. apply list_elem_of_singleton in He as ->. by exists i.
Qed.

Lemma path_to_last o l : path_to es o l → o = last l ≫= base_id.
Proof. destruct 1 as [|id i e l Hi Hid _]; [done|]. by rw last_snoc /= Hid. Qed.

Lemma chain_path i id : chain es → id_at es i id → path_to es (Some id) (take (S i) es).
Proof.
  intros Hc. revert id. induction i as [|i IH]; intros id (e & He & Hid); rw (take_S_r _ _ _ He); eapply (path_step es id); try done; rw (Hc _ _ He); simpl.
  - constructor.
  - destruct (lookup_lt_is_Some_2 es i) as [x Hx]; [apply lookup_lt_Some in He; lia|]. rw Hx. simpl.
    destruct Hw as [Hall _]. rw Forall_forall in Hall. destruct (Hall x) as [id' Hid']; [by eapply list_elem_of_lookup_2|].
    rw Hid'. apply IH. by exists x.
Qed.

Lemma chain_before : chain es → parents_before es.
Proof.
  intros Hc k e p He Hp. rw (Hc _ _ He) in Hp. destruct k as [|k]; [done|]. exists k. split; [lia|].
  apply bind_Some in Hp as (x & Hx & Hxp). by exists x.
Qed.
End Paths.

Lemma path_to_app es e o l : path_to es o l → path_to (es ++ [e]) o l.
Proof. induction 1 as [|id i x l Hi Hid _ IH]; [constructor|]. apply (path_step _ id i x); [by apply lookup_app_l_Some|done|done]. Qed.

(** ** The walks find the path *)

Section Walks.
Context (s : Session) (Hok : tree_ok s).
Abbreviation es := (entries s).

Lemma index_size : size (entry_index s) = length es.
Proof.
  destruct (ok_ids s Hok) as [Hall Hn]. assert (dom (entry_index s) = entry_id_set es) as Hdom.
  { apply set_eq. intros id. rw elem_of_dom elem_of_entry_id_set. split; intros [i Hi]; exists i; by apply (ok_index s Hok). }
  rw -size_dom Hdom. unfold entry_id_set. clear Hdom. induction es as [|e l IH]; [by rw size_empty|].
  apply Forall_cons in Hall as [[id Hid] Hall]. rw fmap_cons in Hn. apply NoDup_cons in Hn as [He Hn]. simpl. rw Hid. simpl.
  rw size_union; [rw size_singleton IH //|]. apply disjoint_singleton_l. rw elem_of_list_to_set list_elem_of_omap.
  intros (x & Hx & Hxid). apply He. rw Hid -Hxid. by apply list_elem_of_fmap_2.
Qed.

Lemma id_at_fuel i id : id_at es i id → (i < walk_fuel s)%nat.
Proof. intros (e & He & _). unfold walk_fuel. rw index_size. apply lookup_lt_Some in He. lia. Qed.

Lemma walk_none fuel visited : walk s fuel visited None = [].
Proof. by destruct fuel. Qed.

Lemma visited_step (i k : nat) (id p : Str) (visited : gset Str) :
  id_at es i id → id_at es k p → (k < i)%nat → (∀ j id', (j ≤ i)%nat → id_at es j id' → id' ∉ visited) →
  ∀ j id', (j ≤ k)%nat → id_at es j id' → id' ∉ {[id]} ∪ visited.
Proof.
  intros Hi Hk Hlt Hv j id' Hj Hat. rw elem_of_union elem_of_singleton. intros [->|Hin].
  - pose proof (id_at_inj es i j id (proj2 (ok_ids s Hok)) Hi Hat). lia.
  - apply (Hv j id'); [lia|done|done].
Qed.

Lemma walk_path fuel visited i id :
  id_at es i id → (∀ j id', (j ≤ i)%nat → id_at es j id' → id' ∉ visited) → (i < fuel)%nat →
  path_to es (Some id) (omap (λ idx, es !! idx) (reverse (walk s fuel visited (Some id)))).
Proof.
  revert visited i id. induction fuel as [|fuel IH]; intros visited i id Hat Hv Hf; [lia|]. cbn [walk].
  rw decide_False; [|by apply (Hv i)]. rw (proj2 (ok_index s Hok id i) Hat). pose proof Hat as (e & He & Hid). rw He.
  rw reverse_cons omap_app /= He. apply (path_step es id i e); [done|done|].
  destruct (parent_id e) as [p|] eqn:Ep; [|rw walk_none; constructor].
  destruct (ok_before s Hok i e p He Ep) as (k & Hk & Hkat). apply (IH _ k); [done|by eapply visited_step|lia].
Qed.

(** The identifiers of a path. *)
Lemma walk_ids_path fuel visited i id l :
  id_at es i id → (∀ j id', (j ≤ i)%nat → id_at es j id' → id' ∉ visited) → (i < fuel)%nat →
  path_to es (Some id) l → reverse (walk_ids s fuel visited (Some id)) = omap base_id l.
Proof.
  revert visited i id l. induction fuel as [|fuel IH]; intros visited i id l Hat Hv Hf Hl; [lia|]. cbn [walk_ids].
  rw decide_False; [|by apply (Hv i)]. pose proof Hat as (e & He & Hid).
  assert (get_entry s id = Some e) as -> by (unfold get_entry; by rw (proj2 (ok_index s Hok id i) Hat)).
  inversion Hl as [|id' i' e' l' Hi' Hid' Hl']; subst.
  assert (i' = i) as -> by (eapply (id_at_inj es i' i id (proj2 (ok_ids s Hok))); [by exists e'|done]). assert (e' = e) as -> by congruence.
  rw reverse_cons omap_app /= Hid. f_equal. destruct (parent_id e) as [p|] eqn:Ep.
  - destruct (ok_before s Hok i e p He Ep) as (k & Hk & Hkat). apply (IH _ k); [done|by eapply visited_step|lia|done].
  - inversion Hl'. by destruct fuel.
Qed.

(** A known identifier has a path. *)
Lemma path_exists i id : id_at es i id → ∃ l, path_to es (Some id) l.
Proof. intros Hat. eexists. apply (walk_path (walk_fuel s) ∅ i id Hat); [|by eapply id_at_fuel]. intros; apply not_elem_of_empty. Qed.

Lemma current_path_spec : path_to es (leaf_id s) (entries_for_current_path s).
Proof.
  unfold entries_for_current_path. destruct (leaf_id s) as [id|] eqn:El; [|constructor].
  destruct (ok_leaf s Hok id El) as (i & Hi). destruct (is_linear s) eqn:Elin.
  - destruct (ok_linear s Hok Elin) as [Hc Hlast]. rw El last_lookup in Hlast. symmetry in Hlast. apply bind_Some in Hlast as (e & He & Hid).
    pose proof (chain_path es (ok_ids s Hok) _ id Hc (ex_intro _ e (conj He Hid))) as Hp. rw take_ge in Hp; [done|].
    apply lookup_lt_Some in He. lia.
  - apply (walk_path _ ∅ i id Hi); [|by eapply id_at_fuel]. intros; apply not_elem_of_empty.
Qed.

Lemma path_to_entry_spec i id l : id_at es i id → path_to es (Some id) l → get_path_to_entry s id = omap base_id l.
Proof.
  intros Hi Hl. unfold get_path_to_entry. rw (proj2 (ok_index s Hok id i) Hi).
  assert (reverse (walk_ids s (S (walk_fuel s)) ∅ (Some id)) = omap base_id l) as ->.
  { apply (walk_ids_path _ _ i); [done|intros; apply not_elem_of_empty| |done]. pose proof (id_at_fuel i id Hi). lia. }
  destruct (is_linear s) eqn:Elin; [|done]. destruct (ok_linear s Hok Elin) as [Hc _].
  by rw (path_to_unique es (ok_ids s Hok) _ _ _ (chain_path es (ok_ids s Hok) i id Hc Hi) Hl).
Qed.

Lemma get_entry_spec id e : get_entry s id = Some e ↔ ∃ i, es !! i = Some e ∧ base_id e = Some id.
Proof.
  unfold get_entry. rw bind_Some. split.
  - intros (i & Hi & He). apply (ok_index s Hok) in Hi as (e' & He' & Hid). exists i. split; [done|congruence].
  - intros (i & Hi & Hid). exists i. split; [|done]. apply (ok_index s Hok). by exists e.
Qed.
End Walks.

(** ** Operations keep the invariant *)

Lemma sync_leaf_spec s : h_current_leaf (sync_leaf s).1 = persisted_leaf_override s.
Proof. unfold sync_leaf. by case_decide. Qed.

Lemma sync_model_leaf s h : h_current_leaf (sync_model s h).1 = h_current_leaf h.
Proof.
  unfold sync_model. destruct (effective_model_for_current_path s) as [[p m]|]; [by case_decide|].
  by destruct (has_any_model_change s && _).
Qed.

Lemma sync_thinking_leaf s h : h_current_leaf (sync_thinking s h).1 = h_current_leaf h.
Proof.
  unfold sync_thinking. destruct (effective_thinking_level_for_current_path s) as [l|]; [by case_decide|].
  by destruct (has_any_thinking_level_change s && _).
Qed.

Lemma sync_shape s :
  ∃ h d q, sync_navigation_state_to_header s = set_queue (set_header s h d) q ∧ h_current_leaf h = persisted_leaf_override s.
Proof.
  unfold sync_navigation_state_to_header. pose proof (sync_leaf_spec s) as H1. destruct (sync_leaf s) as [h1 c1].
  pose proof (sync_model_leaf s h1) as H2. destruct (sync_model s h1) as [h2 c2]. pose proof (sync_thinking_leaf s h2) as H3.
  destruct (sync_thinking s h2) as [h3 c3]. simpl in *. exists h3. destruct (c1 || c2 || c3).
  - eexists true, _. split; [reflexivity|congruence].
  - exists (header_dirty s), (autosave_queue s). split; [done|congruence].
Qed.

(** Header, dirty flag and queue do not matter for the tree. *)
Lemma tree_ok_header s h d q : tree_ok s → tree_ok (set_queue (set_header s h d) q).
Proof. by intros []. Qed.

Lemma sync_ok s : tree_ok s → session_ok (sync_navigation_state_to_header s).
Proof. intros Hok. destruct (sync_shape s) as (h & d & q & -> & Hh). split; [by apply tree_ok_header|done]. Qed.

Lemma tree_ok_nav s leaf linear :
  tree_ok s → (∀ id, leaf = Some id → ∃ i, id_at (entries s) i id) →
  (linear = true → chain (entries s) ∧ leaf = last (entries s) ≫= base_id) → tree_ok (set_nav s leaf linear).
Proof. intros [] H1 H2. by split. Qed.

Lemma nav_ok s leaf : tree_ok s → (∀ id, leaf = Some id → ∃ i, id_at (entries s) i id) →
  session_ok (sync_navigation_state_to_header (set_nav s leaf false)).
Proof. intros Hok Hl. apply sync_ok, tree_ok_nav; done. Qed.

Lemma navigate_to_ok s id : session_ok s → session_ok (navigate_to s id).1.
Proof.
  intros [Hok Hh]. unfold navigate_to. destruct (entry_index s !! id) as [i|] eqn:Ei; [|done]. simpl. apply sync_ok, tree_ok_nav; [done| |].
  - intros id' [= <-]. exists i. by apply (ok_index s Hok).
  - intros [Hl ->%bool_decide_eq_true]%andb_true_iff. split; [|done]. by destruct (ok_linear s Hok Hl).
Qed.

(** The reverts end at an entry or before the first. *)
Lemma parent_known s i e : tree_ok s → entries s !! i = Some e → ∀ id, parent_id e = Some id → ∃ k, id_at (entries s) k id.
Proof. intros Hok He id Hid. destruct (ok_before s Hok i e id He Hid) as (k & _ & Hk). by exists k. Qed.

Lemma revert_user_known s fuel leaf current r :
  tree_ok s → (∀ id, leaf = Some id → ∃ i, id_at (entries s) i id) →
  ∀ id, (revert_user_loop s fuel leaf current r).1 = Some id → ∃ i, id_at (entries s) i id.
Proof.
  intros Hok. revert leaf current r. induction fuel as [|fuel IH]; intros leaf current r Hl; simpl; [done|].
  destruct current as [c|]; [|done]. destruct (get_entry s c) as [e|] eqn:Ee; [|done].
  apply (get_entry_spec s Hok) in Ee as (i & Hi & _). pose proof (parent_known s i e Hok Hi). destruct (is_user_entry e); [done|]. by apply IH.
Qed.

Lemma revert_incomplete_known s fuel leaf current r :
  tree_ok s → (∀ id, leaf = Some id → ∃ i, id_at (entries s) i id) →
  ∀ id, (revert_incomplete_loop s fuel leaf current r).1 = Some id → ∃ i, id_at (entries s) i id.
Proof.
  intros Hok. revert leaf current r. induction fuel as [|fuel IH]; intros leaf current r Hl; simpl; [done|].
  destruct current as [c|]; [|done]. destruct (get_entry s c) as [e|] eqn:Ee; [|done].
  apply (get_entry_spec s Hok) in Ee as (i & Hi & _). pose proof (parent_known s i e Hok Hi). destruct (negb _); [done|]. by apply IH.
Qed.

Lemma apply_revert_ok s r :
  session_ok s → (∀ id, r.1 = Some id → ∃ i, id_at (entries s) i id) → session_ok (apply_revert s r).1.
Proof. intros Hok Hr. destruct r as [leaf []]; simpl in *; [|done]. apply nav_ok; [apply Hok|done]. Qed.

(** ** Appending *)

(** What the code relies on of [uuid]: texts are not empty, and the last
    resort is an identifier nobody has. *)
Definition draw_fresh (d : Draw) (existing : gset Str) : Prop :=
  (∀ i, draw_simple d i ≠ []) ∧ draw_full d ≠ [] ∧ draw_full d ∉ existing.

Lemma generate_entry_id_fresh d existing :
  draw_fresh d existing → (generate_entry_id d existing ∉ existing) ∧ generate_entry_id d existing ≠ [].
Proof.
  intros (Hs & Hf & Hnew). unfold generate_entry_id. destruct (List.find _ _) as [i|] eqn:E; [|done].
  apply find_some in E as [_ E]. apply negb_true_iff, bool_decide_eq_false in E. split; [done|].
  specialize (Hs i). by destruct (draw_simple d i).
Qed.

Lemma last_some_snoc {A B} (f : A → option B) l x : last_some f (l ++ [x]) = match f x with Some y => Some y | None => last_some f l end.
Proof. induction l as [|y l IH]; simpl; [by destruct (f x)|]. rw IH. by destruct (f x). Qed.

Lemma id_at_snoc es e i id : id_at (es ++ [e]) i id ↔ id_at es i id ∨ i = length es ∧ base_id e = Some id.
Proof.
  unfold id_at. split.
  - intros (x & [Hx|[Hl Hx]]%lookup_app_Some & Hid); [left; by exists x|right].
    apply list_lookup_singleton_Some in Hx as [Hi ->]. split; [lia|done].
  - intros [(x & Hx & Hid)|[-> Hid]]; [exists x; split; [by apply lookup_app_l_Some|done]|].
    exists e. by rw lookup_app_r // Nat.sub_diag.
Qed.

Lemma entry_id_set_snoc es e id : base_id e = Some id → entry_id_set (es ++ [e]) = {[id]} ∪ entry_id_set es.
Proof. intros Hid. unfold entry_id_set. rw omap_app list_to_set_app_L /= Hid /=. set_solver. Qed.

Lemma parents_before_snoc es e :
  parents_before es → (∀ p, parent_id e = Some p → ∃ i, id_at es i p) → parents_before (es ++ [e]).
Proof.
  intros Hb He k x p Hk Hp. apply lookup_app_Some in Hk as [Hk|[Hl Hk]].
  - destruct (Hb k x p Hk Hp) as (k' & Hlt & Hat). exists k'. split; [done|]. apply id_at_snoc. by left.
  - apply list_lookup_singleton_Some in Hk as [Hk ->]. destruct (He p Hp) as (i & Hi). exists i.
    split; [|apply id_at_snoc; by left]. destruct Hi as (y & Hy & _). apply lookup_lt_Some in Hy. lia.
Qed.

Lemma chain_snoc es e previous :
  chain_from previous es → parent_id e = (match es with [] => previous | _ => last es ≫= base_id end) → chain_from previous (es ++ [e]).
Proof.
  intros Hc He i x Hi. apply lookup_app_Some in Hi as [Hi|[Hl Hi]].
  - rw (Hc i x Hi). destruct i as [|j]; [done|]. rw lookup_app_l //. apply lookup_lt_Some in Hi. lia.
  - apply list_lookup_singleton_Some in Hi as [Hi <-]. rw He. destruct es as [|y es']; simpl in *; [by replace i with O by lia|].
    destruct i as [|j]; [lia|]. assert (j = length es') as -> by lia.
    replace (last (y :: es')) with ((y :: es') !! length es') by (rw last_lookup //).
    change (y :: es' ++ [e]) with ((y :: es') ++ [e]). by rw lookup_app_l.
Qed.

Definition counted (s : Session) (e : SessionEntry) : Z :=
  cached_message_count s + (if decide (is_message_entry e) then 1 else 0).
Definition named (s : Session) (e : SessionEntry) : option Str :=
  match name_of e with Some n => Some n | None => cached_name s end.

Lemma push_ok s id kind stamp :
  let e := mkEntry (mkBase (Some id) (leaf_id s) stamp) kind in
  tree_ok s → id ∉ entry_id_set (entries s) → id ≠ [] → len (entries s) < u64_max →
  tree_ok (set_stats (push_entry s id e) (counted s e) (named s e)).
Proof.
  intros e Hok Hnew Hne Hlen. assert (∀ i, ¬ id_at (entries s) i id) as Hfree by (intros i Hi; apply Hnew, elem_of_entry_id_set; by exists i).
  split; cbn [entries entry_index entry_ids leaf_id is_linear cached_message_count cached_name v2_message_count_offset push_entry set_stats].
  - by apply (well_identified_snoc _ e id (ok_ids s Hok)).
  - intros i id' [Hi|[_ [= <-]]]%id_at_snoc; [by eapply (ok_named s Hok)|done].
  - apply parents_before_snoc; [apply (ok_before s Hok)|]. apply (ok_leaf s Hok).
  - intros id' i. rw id_at_snoc. destruct (decide (id' = id)) as [->|Hne'].
    + rw lookup_insert_eq. split; [intros [= <-]; by right|]. intros [Hi|[-> _]]; [by destruct (Hfree i)|done].
    + rw lookup_insert_ne // (ok_index s Hok). split; [by left|]. intros [?|[_ [=]]]; done.
  - rw (entry_id_set_snoc _ e id) // (ok_set s Hok) //.
  - intros id' [= <-]. exists (length (entries s)). apply id_at_snoc. by right.
  - intros Hl. destruct (ok_linear s Hok Hl) as [Hc Hleaf]. rw last_snoc. split; [|done].
    apply chain_snoc; [done|]. cbn. rw Hleaf. by destruct (entries s).
  - unfold counted. rw filter_app len_app (ok_count s Hok) filter_cons. f_equal. by destruct (decide _).
  - unfold named. rw last_some_snoc (ok_name s Hok) //.
  - apply (ok_offset s Hok).
  - rw len_app. change (len [e]) with 1. lia.
Qed.

Section Ops.
Context (use_cache : bool) (legacy_digest : SessionEntry → nat → Str).

Lemma next_entry_id_fresh s d :
  tree_ok s → draw_fresh d (entry_id_set (entries s)) →
  (next_entry_id use_cache s d ∉ entry_id_set (entries s)) ∧ next_entry_id use_cache s d ≠ [].
Proof.
  intros Hok Hd. unfold next_entry_id. rw (ok_set s Hok). replace (if use_cache then _ else _) with (entry_id_set (entries s)) by by destruct use_cache.
  by apply generate_entry_id_fresh.
Qed.

(** The entry an append adds. *)
Definition new_entry (s : Session) (d : Draw) (stamp : Str) (kind : EntryKind) : SessionEntry :=
  mkEntry (mkBase (Some (next_entry_id use_cache s d)) (leaf_id s) stamp) kind.

Lemma append_shape s d stamp kind m :
  let e := new_entry s d stamp kind in
  ∃ h dirty q, (append_entry use_cache s d stamp kind m).1 =
    set_queue (set_header (set_stats (push_entry s (next_entry_id use_cache s d) e) (counted s e) (cached_name s)) h dirty) q ∧
    h_current_leaf h = persisted_leaf_override (push_entry s (next_entry_id use_cache s d) e).
Proof.
  intros e. unfold append_entry, clear_persisted_leaf_override_after_append. fold (new_entry s d stamp kind). fold e.
  set (p := push_entry s _ e). set (s1 := match kind with EMessage _ => _ | _ => _ end).
  assert (s1 = set_stats p (counted s e) (cached_name s)) as ->.
  { unfold s1, counted, p, e, new_entry, is_message_entry. by destruct kind; simpl; rw ?Z.add_0_r. }
  pose proof (sync_leaf_spec (set_stats p (counted s e) (cached_name s))) as Hh.
  destruct (sync_leaf _) as [h c]. simpl in *. eexists h, _, _. split; [reflexivity|done].
Qed.
End Ops.

(** ** Loading *)

Section Loading.
Context (legacy_digest : SessionEntry → nat → Str).

Lemma assign_ids_same es ids : Forall (λ e, is_Some (base_id e)) es → assign_ids legacy_digest ids es = Some (es, ids).
Proof. induction 1 as [|e es [id Hid] _ IH]; simpl; [done|]. by rw Hid IH. Qed.

Lemma scan_entries_snoc ids idx sc es e :
  scan_entries ids idx sc (es ++ [e]) = scan_entry ids (idx + length es) (scan_entries ids idx sc es) e.
Proof.
  revert idx sc. induction es as [|x es IH]; intros idx sc; simpl; [by rw Nat.add_0_r|]. by rw IH Nat.add_succ_r.
Qed.

Definition scan_start : Scan := mkScan None ∅ 0 None [] ∅ false 0 None true.

Lemma scan_spec ids es :
  well_identified es →
  let sc := scan_entries ids 0 scan_start es in
  (∀ id i, sc_index sc !! id = Some i ↔ id_at es i id) ∧
  sc_leaf sc = last es ≫= base_id ∧ sc_previous sc = last es ≫= base_id ∧
  sc_count sc = len (filter is_message_entry es) ∧ sc_name sc = last_some name_of es ∧
  (sc_linear sc = true → chain es) ∧
  ((∀ e p, e ∈ es → parent_id e = Some p → p ∈ ids) → sc_orphans sc = []).
Proof.
  induction es as [|e es IH] using rev_ind; intros Hw sc.
  { unfold sc. simpl. split_and!; try done. intros id i. rw lookup_empty. split; [done|]. by intros (? & ? & _). }
  destruct (IH (well_identified_app _ _ Hw)) as (Hidx & Hleaf & Hprev & Hcount & Hname & Hlin & Horph). unfold sc.
  rw scan_entries_snoc. set (sc0 := scan_entries ids 0 scan_start es) in *.
  destruct Hw as [Hall Hn]. rw Forall_app Forall_singleton in Hall. destruct Hall as [_ [id Hid]].
  assert (∀ i, ¬ id_at es i id) as Hfree.
  { intros i (x & Hx & Hxid). rw fmap_app in Hn. apply NoDup_app in Hn as (_ & Hd & _). apply (Hd (Some id)).
    - rw -Hxid. apply list_elem_of_fmap_2. by eapply list_elem_of_lookup_2.
    - simpl. rw Hid. by left. }
  unfold scan_entry. rw Hid. destruct (if sc_branching sc0 then _ else _) as [parents branching]. simpl. rw last_snoc /=. split_and!.
  - intros id' i. rw id_at_snoc Hid. destruct (decide (id' = id)) as [->|Hne].
    + rw lookup_insert_eq. split; [intros [= <-]; by right|]. intros [Hi|[-> _]]; [by destruct (Hfree i)|done].
    + rw lookup_insert_ne // Hidx. split; [by left|]. intros [?|[_ [=]]]; done.
  - done.
  - done.
  - rw filter_app len_app Hcount filter_cons. case_decide as Hm; unfold is_message_entry in Hm; destruct (entry_kind e); try done; by rw ?len_nil ?Z.add_0_r.
  - rw last_some_snoc Hname. unfold name_of. by destruct (entry_kind e) as [| | | | | |[n|]|].
  - intros [Hl Hp%bool_decide_eq_true]%andb_true_iff. apply chain_snoc; [by apply Hlin|]. rw Hp Hprev. by destruct es.
  - intros Hc. rw Horph; [|intros x p Hx; apply Hc, elem_of_app; by left].
    destruct (parent_id e) as [p|] eqn:Ep; [|done]. rw decide_True //. apply (Hc e p); [apply elem_of_app; right; by left|done].
Qed.

Lemma finalize_loaded_spec es :
  well_identified es →
  ∃ fin, finalize_loaded_entries legacy_digest es = Some (es, fin) ∧
    (∀ id i, fin_entry_index fin !! id = Some i ↔ id_at es i id) ∧ fin_entry_ids fin = entry_id_set es ∧
    fin_leaf_id fin = last es ≫= base_id ∧ fin_message_count fin = len (filter is_message_entry es) ∧
    fin_name fin = last_some name_of es ∧ (fin_is_linear fin = true → chain es) ∧
    (links_closed es → fin_orphans fin = []).
Proof.
  intros Hw. unfold finalize_loaded_entries. rw (assign_ids_same es _ (proj1 Hw)). simpl. fold scan_start.
  destruct (scan_spec (entry_id_set es) es Hw) as (Hidx & Hleaf & _ & Hcount & Hname & Hlin & Horph).
  eexists. split; [reflexivity|]. simpl. split_and!; try done. intros H. bool_to_prop. by apply Hlin.
Qed.

(** What a load installs is a well-formed session. *)
Lemma install_ok es fin leaf s h persisted :
  well_identified es → (∀ i id, id_at es i id → id ≠ []) → parents_before es → len es ≤ u64_max →
  v2_message_count_offset s = 0 →
  finalize_loaded_entries legacy_digest es = Some (es, fin) →
  (∀ id, leaf = Some id → ∃ i, id_at es i id) → tree_ok (install s h es fin leaf persisted).
Proof.
  intros Hw Hne Hb Hlen Ho Hfin Hl. destruct (finalize_loaded_spec es Hw) as (fin' & E & Hidx & Hids & Hleaf & Hcount & Hname & Hlin & _).
  assert (fin' = fin) as -> by congruence. split; cbn; try done.
  - intros [Hlin' Hleaf'%bool_decide_eq_true]%andb_true_iff. split; [by apply Hlin|congruence].
  - rw Ho Hcount. unfold sat_add, len in *. assert (length (filter is_message_entry es) ≤ length es)%nat by apply length_filter. lia.
Qed.
End Loading.

(** ** Reachable sessions *)

Section Reachable.
Context (use_cache : bool) (legacy_digest : SessionEntry → nat → Str).

(** What an append needs of the outside. *)
Definition can_append (s : Session) (d : Draw) : Prop :=
  draw_fresh d (entry_id_set (entries s)) ∧ len (entries s) < u64_max.

Inductive session_step : Session → Session → Prop :=
| St_message s d t m : can_append s d → session_step s (append_message use_cache s d t m).1
| St_model_message s d t m : can_append s d → session_step s (append_model_message use_cache s d t m).1
| St_model_change s d t p m : can_append s d → session_step s (append_model_change use_cache s d t p m).1
| St_thinking s d t l : can_append s d → session_step s (append_thinking_level_change use_cache s d t l).1
| St_info s d t n : can_append s d → session_step s (append_session_info use_cache s d t n).1
| St_custom s d t c v : can_append s d → session_step s (append_custom_entry use_cache s d t c v).1
| St_bash s d t c o x a b f : can_append s d → session_step s (append_bash_execution use_cache s d t c o x a b f).1
| St_compaction s d t c : can_append s d → session_step s (append_compaction use_cache s d t c).1
| St_branch_summary s d t b : can_append s d → session_step s (append_branch_summary use_cache s d t b).1
| St_label s d t i l : can_append s d → session_step s (add_label use_cache s d t i l).1
| St_navigate s id : session_step s (navigate_to s id).1
| St_reset s : session_step s (reset_leaf s)
| St_revert_user s : session_step s (revert_last_user_message s).1
| St_revert_incomplete s : session_step s (revert_incomplete_response s).1
| St_model_header s p m l : session_step s (set_model_header s p m l)
| St_branched s p : session_step s (set_branched_from s p)
| St_ensure s s' : ensure_entry_ids legacy_digest s = Some s' → session_step s s'
| St_reopen s s' env orphans : open_session legacy_digest (header s) (entries s) env = Some (s', orphans) → session_step s s'.

Definition reachable (s : Session) : Prop :=
  ∃ h env, h_current_leaf h = None ∧ rtc session_step (in_memory h env) s.

Lemma in_memory_ok h env : h_current_leaf h = None → session_ok (in_memory h env).
Proof.
  intros Hh. split; [|done]. split; simpl; try done; try (by intros ? (? & ? & _)).
  - split; constructor.
  - by intros ? ? (? & ? & _).
  - intros id i. rw lookup_empty. split; [done|by intros (? & ? & _)].
Qed.

Lemma stats_same s : set_stats s (cached_message_count s) (cached_name s) = s.
Proof. by destruct s. Qed.

Lemma append_entry_ok s d t kind m :
  session_ok s → can_append s d → (∀ n, kind ≠ ESessionInfo (Some n)) →
  session_ok (append_entry use_cache s d t kind m).1.
Proof.
  intros [Hok Hh] [Hd Hlen] Hk. destruct (append_shape use_cache s d t kind m) as (h & dirty & q & -> & Hleaf).
  destruct (next_entry_id_fresh use_cache s d Hok Hd) as [Hnew Hne]. pose proof (push_ok s _ kind t Hok Hnew Hne Hlen) as Hp.
  unfold named, name_of in Hp. cbn [entry_kind] in Hp. replace (match _ with Some n => Some n | None => cached_name s end) with (cached_name s) in Hp.
  - split; [by apply tree_ok_header|done].
  - destruct kind as [| | | | | |[n|]|]; try done. by destruct (Hk n).
Qed.

Lemma append_session_info_ok s d t n :
  session_ok s → can_append s d → session_ok (append_session_info use_cache s d t n).1.
Proof.
  intros Hs Hc. unfold append_session_info. destruct n as [n|]; [|by apply append_entry_ok]. destruct Hs as [Hok Hh], Hc as [Hd Hlen].
  set (s0 := set_stats s _ _).
  destruct (append_shape use_cache s0 d t (ESessionInfo (Some n)) MutMetadata) as (h & dirty & q & -> & Hleaf).
  destruct (next_entry_id_fresh use_cache s d Hok Hd) as [Hnew Hne].
  pose proof (push_ok s _ (ESessionInfo (Some n)) t Hok Hnew Hne Hlen) as Hp. split; [|done]. apply (tree_ok_header _ h dirty q Hp).
Qed.

Lemma rebuild_ok s s' : session_ok s → rebuild_all_caches legacy_digest s = Some s' → session_ok s'.
Proof.
  intros [Hok Hh] Hr. unfold rebuild_all_caches in Hr. destruct (finalize_loaded_spec legacy_digest (entries s) (ok_ids s Hok)) as (fin & E & _).
  rw E /= in Hr. injection Hr as <-. split; [|done].
  apply (install_ok legacy_digest); [apply (ok_ids s Hok)|apply (ok_named s Hok)|apply (ok_before s Hok)|apply (ok_size s Hok)|apply (ok_offset s Hok)|done|apply (ok_leaf s Hok)].
Qed.

Lemma persisted_override_resolves s index :
  session_ok s → (∀ id i, index !! id = Some i ↔ id_at (entries s) i id) →
  resolve_loaded_leaf_id (header s) (last (entries s) ≫= base_id) index = leaf_id s.
Proof.
  intros [Hok Hh] Hidx. unfold resolve_loaded_leaf_id. rw Hh. unfold persisted_leaf_override.
  assert (∀ id, leaf_id s = Some id → is_some_b (index !! id) = true ∧ id ≠ []) as Hl.
  { intros id El. destruct (ok_leaf s Hok id El) as (i & Hi). rw (proj2 (Hidx id i) Hi). split; [done|by eapply (ok_named s Hok)]. }
  destruct (entries s) as [|e es] eqn:Ees; [|rw -Ees].
  - destruct (leaf_id s) as [id|] eqn:El; [|done]. destruct (ok_leaf s Hok id El) as (i & x & Hx & _). by rw Ees in Hx.
  - destruct (leaf_id s) as [id|] eqn:El; [|by destruct (last _ ≫= base_id)]. destruct (Hl id eq_refl) as [Hin Hne].
    destruct (last (entries s) ≫= base_id) as [tip|] eqn:Et.
    + case_decide as Eid; [by subst|]. rw decide_False // Hin //.
    + rw decide_False // Hin //.
Qed.

Lemma open_ok s s' env orphans :
  session_ok s → open_session legacy_digest (header s) (entries s) env = Some (s', orphans) →
  session_ok s' ∧ entries s' = entries s ∧ leaf_id s' = leaf_id s ∧ orphans = [] ∧
  cached_message_count s' = cached_message_count s ∧ cached_name s' = cached_name s.
Proof.
  intros [Hok Hh] Ho. unfold open_session in Ho.
  assert (h_current_leaf (materialize_branch_fallbacks (header s)).1 = h_current_leaf (header s)) as Hm by done.
  destruct (materialize_branch_fallbacks (header s)) as [h dirty]. simpl in Hm.
  destruct (finalize_loaded_spec legacy_digest (entries s) (ok_ids s Hok)) as (fin & E & Hidx & Hids & Hleaf & Hcount & Hname & Hlin & Horph).
  rw E in Ho. simpl in Ho.
  assert (resolve_loaded_leaf_id h (fin_leaf_id fin) (fin_entry_index fin) = leaf_id s) as Hres.
  { rw -(persisted_override_resolves s (fin_entry_index fin) (conj Hok Hh) Hidx) Hleaf. unfold resolve_loaded_leaf_id. by rw Hm. }
  rw Hres in Ho. injection Ho as <- <-.
  assert (links_closed (entries s)) as Hc.
  { intros e p [k Hk]%list_elem_of_lookup Hp. destruct (ok_before s Hok k e p Hk Hp) as (k' & _ & Hat).
    apply elem_of_entry_id_set. by exists k'. }
  split_and!; simpl; try done.
  - split; [|by rw Hm Hh]. destruct Hok as [H1 H2 H3 H4 H5 H6 H7 H8 H9 H10 H11]. split; simpl; try done.
    intros [Hl' ->%bool_decide_eq_true]%andb_true_iff. split; [by apply Hlin|done].
  - by apply Horph.
  - by rw Hcount (ok_count s Hok).
  - by rw Hname (ok_name s Hok).
Qed.

Lemma step_ok s s' : session_ok s → session_step s s' → session_ok s'.
Proof.
  intros Hs Hstep. destruct Hstep; try by apply append_entry_ok.
  - by apply append_session_info_ok.
  - unfold add_label. destruct (get_entry s i); [|done]. pose proof (append_entry_ok s d t (ELabel i l) MutLabel Hs) as Hl.
    destruct (append_entry _ _ _ _ _ _). by apply Hl.
  - by apply navigate_to_ok.
  - apply nav_ok; [apply Hs|done].
  - apply apply_revert_ok; [done|]. apply revert_user_known; [apply Hs|apply (ok_leaf s (proj1 Hs))].
  - apply apply_revert_ok; [done|]. apply revert_incomplete_known; [apply Hs|apply (ok_leaf s (proj1 Hs))].
  - destruct Hs as [Hok Hh]. unfold set_model_header. destruct (is_some_b p || _ || _); (split; [by apply (tree_ok_header s)|done]).
  - destruct Hs as [Hok Hh]. split; [by apply (tree_ok_header s)|done].
  - by eapply rebuild_ok.
  - by eapply open_ok.
Qed.

Lemma session_reachable_ok s : reachable s → session_ok s.
Proof. intros (h & env & Hh & Hr). eapply rtc_preserves; [apply step_ok|exact Hr|by apply in_memory_ok]. Qed.
End Reachable.

(** ** What the reverts do *)

Lemma revert_incomplete_spec s fuel leaf i id l r :
  tree_ok s → id_at (entries s) i id → leaf = Some id → path_to (entries s) (Some id) l → (i < fuel)%nat →
  ∃ kept dropped, l = kept ++ dropped ∧ Forall (λ e, is_incomplete_assistant e = true) dropped ∧
    (∀ e, last kept = Some e → is_incomplete_assistant e = false) ∧
    path_to (entries s) (revert_incomplete_loop s fuel leaf (Some id) r).1 kept ∧
    (revert_incomplete_loop s fuel leaf (Some id) r).2 = (r || match dropped with [] => false | _ => true end).
Proof.
  intros Hok. revert leaf i id l r. induction fuel as [|fuel IH]; intros leaf i id l r Hat Hleaf Hl Hf; [lia|]. simpl.
  pose proof Hat as (e & He & Hid). assert (get_entry s id = Some e) as -> by (apply (get_entry_spec s Hok); by exists i).
  pose proof Hl as Hl0. inversion Hl as [|id' i' e' l' Hi' Hid' Hl']; subst.
  assert (i' = i) as -> by (eapply (id_at_inj (entries s) i' i id (proj2 (ok_ids s Hok))); [by exists e'|done]).
  assert (e' = e) as -> by congruence. destruct (is_incomplete_assistant e) eqn:Einc; simpl.
  - destruct (parent_id e) as [p|] eqn:Ep.
    + destruct (ok_before s Hok i e p He Ep) as (k & Hk & Hkat).
      destruct (IH (Some p) k p l' true Hkat eq_refl Hl' ltac:(lia)) as (kept & dropped & -> & Hd & Hlast & Hp & Hr).
      exists kept, (dropped ++ [e]). rw -assoc. split_and!; [done| |done|done|].
      * apply Forall_app_2; [done|by apply Forall_singleton].
      * rw Hr orb_true_l. destruct dropped; by rw orb_true_r.
    + inversion Hl'; subst. exists [], [e]. rw orb_true_r. destruct fuel; simpl; split_and!; try done; try (by apply Forall_singleton); constructor.
  - exists (l' ++ [e]), []. rw app_nil_r orb_false_r. split_and!; try done. intros x. rw last_snoc. congruence.
Qed.

Lemma revert_user_spec s fuel leaf i id l r :
  tree_ok s → id_at (entries s) i id → leaf = Some id → path_to (entries s) (Some id) l → (i < fuel)%nat →
  ∃ kept dropped, l = kept ++ dropped ∧ Forall (λ e, is_user_entry e = false) (tail dropped) ∧ dropped ≠ [] ∧
    (kept = [] ∨ ∃ u, head dropped = Some u ∧ is_user_entry u = true) ∧
    path_to (entries s) (revert_user_loop s fuel leaf (Some id) r).1 kept ∧
    (revert_user_loop s fuel leaf (Some id) r).2 = true.
Proof.
  intros Hok. revert leaf i id l r. induction fuel as [|fuel IH]; intros leaf i id l r Hat Hleaf Hl Hf; [lia|]. simpl.
  pose proof Hat as (e & He & Hid). assert (get_entry s id = Some e) as -> by (apply (get_entry_spec s Hok); by exists i).
  inversion Hl as [|id' i' e' l' Hi' Hid' Hl']; subst.
  assert (i' = i) as -> by (eapply (id_at_inj (entries s) i' i id (proj2 (ok_ids s Hok))); [by exists e'|done]).
  assert (e' = e) as -> by congruence. destruct (is_user_entry e) eqn:Eu; simpl.
  - exists l', [e]. split_and!; try done. right. by exists e.
  - destruct (parent_id e) as [p|] eqn:Ep.
    + destruct (ok_before s Hok i e p He Ep) as (k & Hk & Hkat).
      destruct (IH (Some p) k p l' true Hkat eq_refl Hl' ltac:(lia)) as (kept & dropped & -> & Hd & Hne & Hu & Hp & Hr).
      destruct dropped as [|x dropped]; [done|]. exists kept, ((x :: dropped) ++ [e]). rw -assoc. simpl in *. split_and!; try done.
      apply Forall_app_2; [done|by apply Forall_singleton].
    + inversion Hl'; subst. exists [], [e]. destruct fuel; simpl; split_and!; try done; try (by constructor); by left.
Qed.

Lemma path_of_nav s leaf l :
  tree_ok s → path_to (entries s) leaf l → (∀ id, leaf = Some id → ∃ i, id_at (entries s) i id) →
  entries_for_current_path (sync_navigation_state_to_header (set_nav s leaf false)) = l.
Proof.
  intros Hok Hl Hk. destruct (nav_ok s leaf Hok Hk) as [Hok' _]. pose proof (current_path_spec _ Hok') as Hp.
  destruct (sync_shape (set_nav s leaf false)) as (h & d & q & E & _). rw E in Hp Hok' |- *. simpl in Hp.
  by apply (path_to_unique (entries s) (ok_ids s Hok) leaf).
Qed.

Lemma messages_of_path s : to_messages_for_current_path s = to_messages_from_path (entries_for_current_path s).
Proof. unfold to_messages_for_current_path, entries_for_current_path. destruct (leaf_id s); [|done]. by destruct (is_linear s). Qed.

(** The current path depends only on the tree. *)
Lemma walk_ext s t fuel visited current :
  entries s = entries t → entry_index s = entry_index t → walk s fuel visited current = walk t fuel visited current.
Proof.
  intros He Hi. revert visited current. induction fuel as [|fuel IH]; intros visited current; [done|]. simpl. rw He Hi.
  destruct current as [id|]; [|done]. case_decide; [done|]. destruct (entry_index t !! id) as [i|]; [|done]. destruct (entries t !! i); [|done]. by rw IH.
Qed.

Lemma path_ext s t :
  entries s = entries t → entry_index s = entry_index t → leaf_id s = leaf_id t → is_linear s = is_linear t →
  entries_for_current_path s = entries_for_current_path t.
Proof.
  intros He Hi Hl Hlin. unfold entries_for_current_path, walk_fuel. rw Hl Hlin He Hi. destruct (leaf_id t); [|done].
  destruct (is_linear t); [done|]. by rw (walk_ext s t).
Qed.

Lemma path_to_known es leaf l id : path_to es leaf l → leaf = Some id → ∃ i, id_at es i id.
Proof. intros H ->. inversion H as [|? i e ? Hi Hid]; subst. exists i. by exists e. Qed.

(** Entries and leaf determine the path. *)
Lemma same_path s t :
  tree_ok s → tree_ok t → entries t = entries s → leaf_id t = leaf_id s → entries_for_current_path t = entries_for_current_path s.
Proof.
  intros Hs Ht Ee El. pose proof (current_path_spec t Ht) as Hp. rw Ee El in Hp.
  apply (path_to_unique (entries s) (ok_ids s Hs) (leaf_id s)); [done|by apply current_path_spec].
Qed.

Section Claims.
Context (use_cache : bool) (legacy_digest : SessionEntry → nat → Str).
Abbreviation reachable := (reachable use_cache legacy_digest).

(** One append, on the tree and on the path. *)
Lemma append_spec s d stamp kind mutation :
  reachable s → can_append s d →
  let s' := (append_entry use_cache s d stamp kind mutation).1 in
  let e := new_entry use_cache s d stamp kind in
  entries s' = entries s ++ [e] ∧ entries_for_current_path s' = entries_for_current_path s ++ [e] ∧
  leaf_id s' = base_id e ∧ parent_id e = leaf_id s ∧ (∀ x, x ∈ entries s → base_id x ≠ base_id e).
Proof.
  intros [Hok _]%session_reachable_ok [Hd Hlen] s' e. destruct (next_entry_id_fresh use_cache s d Hok Hd) as [Hnew Hne].
  pose proof (push_ok s _ kind stamp Hok Hnew Hne Hlen) as Hp. fold (new_entry use_cache s d stamp kind) in Hp. fold e in Hp.
  destruct (append_shape use_cache s d stamp kind mutation) as (h & dirty & q & E & _). fold s' e in E.
  assert (entries_for_current_path s' = entries_for_current_path (set_stats (push_entry s (next_entry_id use_cache s d) e) (counted s e) (named s e))) as ->
    by (rw E; by apply path_ext).
  rw E. simpl. split_and!; try done.
  - pose proof (current_path_spec _ Hp) as Hp'. simpl in Hp'.
    apply (path_to_unique (entries s ++ [e]) (ok_ids _ Hp) (Some (next_entry_id use_cache s d))); [done|].
    apply (path_step _ _ (length (entries s)) e); [by rw lookup_app_r // Nat.sub_diag|done|]. apply path_to_app. apply (current_path_spec s Hok).
  - intros x [i Hi]%list_elem_of_lookup Hx. apply Hnew, elem_of_entry_id_set. exists i, x. split; [done|]. by rw Hx.
Qed.

(** Appending extends the current path.  Every append adds one entry,
    with an identifier no entry has, as the child of the leaf: the entries
    and the current path both grow by it, and it is the new leaf. *)
Theorem append_extends_the_path s d stamp kind mutation :
  reachable s → can_append s d →
  let s' := (append_entry use_cache s d stamp kind mutation).1 in
  let e := new_entry use_cache s d stamp kind in
  entries s' = entries s ++ [e] ∧ entries_for_current_path s' = entries_for_current_path s ++ [e] ∧
  leaf_id s' = base_id e ∧ parent_id e = leaf_id s ∧ (∀ x, x ∈ entries s → base_id x ≠ base_id e).
Proof. apply append_spec. Qed.

(** Reopening restores the branch: leaf, path and context, message count and
    name, without orphans. *)
Lemma reopen_spec s env :
  session_ok s →
  ∃ s', open_session legacy_digest (header s) (entries s) env = Some (s', []) ∧
    entries s' = entries s ∧ leaf_id s' = leaf_id s ∧
    entries_for_current_path s' = entries_for_current_path s ∧
    to_messages_for_current_path s' = to_messages_for_current_path s ∧
    cached_message_count s' = cached_message_count s ∧ cached_name s' = cached_name s.
Proof.
  intros [Hok Hh]. destruct (finalize_loaded_spec legacy_digest (entries s) (ok_ids s Hok)) as (fin & E & _).
  destruct (open_session legacy_digest (header s) (entries s) env) as [[s' orphans]|] eqn:Eo.
  2:{ unfold open_session in Eo. destruct (materialize_branch_fallbacks _). rw E in Eo. done. }
  destruct (open_ok legacy_digest s s' env orphans (conj Hok Hh) Eo) as ([Hok' _] & Ees & Eleaf & -> & Ec & En).
  pose proof (same_path s s' Hok Hok' Ees Eleaf) as Ep. exists s'. split_and!; try done. by rw !messages_of_path Ep.
Qed.

(** The reverts are exact.  Reverting a failed request drops exactly the
    broken answers at the end of the current path, and nothing when there are
    none; reverting the last prompt drops it and everything after it, or the
    whole path when it has no prompt.  Neither removes an entry. *)
Theorem reverts_are_exact s :
  reachable s →
  (let r := revert_incomplete_response s in
   ∃ dropped, entries_for_current_path s = entries_for_current_path r.1 ++ dropped ∧
     Forall (λ e, is_incomplete_assistant e = true) dropped ∧
     (∀ e, last (entries_for_current_path r.1) = Some e → is_incomplete_assistant e = false) ∧
     r.2 = bool_decide (dropped ≠ []) ∧ entries r.1 = entries s) ∧
  (let r := revert_last_user_message s in
   ∃ dropped, entries_for_current_path s = entries_for_current_path r.1 ++ dropped ∧
     Forall (λ e, is_user_entry e = false) (tail dropped) ∧
     (entries_for_current_path r.1 = [] ∨ ∃ u, head dropped = Some u ∧ is_user_entry u = true) ∧
     r.2 = bool_decide (dropped ≠ []) ∧ entries r.1 = entries s).
Proof.
  intros [Hok Hh]%session_reachable_ok. unfold revert_incomplete_response, revert_last_user_message. pose proof (current_path_spec s Hok) as Hp.
  destruct (leaf_id s) as [id|] eqn:El.
  2:{ simpl. inversion Hp as [E|]. split; exists []; rw app_nil_r; split_and!; try done. by left. }
  destruct (ok_leaf s Hok id El) as (i & Hi). pose proof (id_at_fuel s Hok i id Hi) as Hf. split.
  - destruct (revert_incomplete_spec s (walk_fuel s) (Some id) i id _ false Hok Hi eq_refl Hp Hf) as (kept & dropped & E & Hd & Hlast & Hk & Hr).
    set (rr := revert_incomplete_loop _ _ _ _ _) in *. destruct rr as [leaf reverted]. simpl in *. subst reverted.
    destruct dropped as [|x dropped]; simpl.
    + exists []. rw app_nil_r in E. rw app_nil_r E. split_and!; done.
    + exists (x :: dropped). rw (path_of_nav s leaf kept Hok Hk (λ id, path_to_known _ _ _ id Hk)).
      destruct (sync_shape (set_nav s leaf false)) as (h & d & q & -> & _). split_and!; try done.
  - destruct (revert_user_spec s (walk_fuel s) (Some id) i id _ false Hok Hi eq_refl Hp Hf) as (kept & dropped & E & Hd & Hne & Hu & Hk & Hr).
    set (rr := revert_user_loop _ _ _ _ _) in *. destruct rr as [leaf reverted]. simpl in *. subst reverted. simpl.
    exists dropped. rw (path_of_nav s leaf kept Hok Hk (λ id, path_to_known _ _ _ id Hk)).
    destruct (sync_shape (set_nav s leaf false)) as (h & d & q & -> & _). split_and!; try done. by rw bool_decide_true.
Qed.
End Claims.

(** ** Forks *)

Lemma path_chain es o l : path_to es o l → chain l.
Proof.
  induction 1 as [|id i e l Hi Hid Hl IH]; [intros i e Hi; by rw lookup_nil in Hi|].
  apply chain_snoc; [done|]. rw (path_to_last es _ l Hl). by destruct l.
Qed.

Lemma path_sublist es i id l :
  well_identified es → parents_before es → id_at es i id → path_to es (Some id) l → l `sublist_of` take (S i) es.
Proof.
  intros Hw Hb. revert id l. induction (lt_wf i) as [i _ IH]. intros id l Hat Hl. inversion Hl as [|id' i' e l' Hi' Hid' Hl']; subst.
  assert (i' = i) as -> by (eapply (id_at_inj es i' i id (proj2 Hw)); [by exists e|done]).
  rw (take_S_r _ _ _ Hi'). apply sublist_app; [|done]. destruct (parent_id e) as [p|] eqn:Ep; [|inversion Hl'; apply sublist_nil_l].
  destruct (Hb i e p Hi' Ep) as (k & Hk & Hkat). etrans; [by eapply (IH k)|].
  replace (take (S k) es) with (take (S k) (take i es)) by (rw take_take; f_equal; lia). apply sublist_take.
Qed.

Lemma well_identified_sublist es l : well_identified es → l `sublist_of` es → well_identified l.
Proof.
  intros [Hall Hn] Hs. split; [by eapply Forall_sublist|]. eapply sublist_NoDup; [exact Hn|]. by apply fmap_sublist.
Qed.

Section Forks.
Context (use_cache : bool) (legacy_digest : SessionEntry → nat → Str).

Lemma collect_path s es l :
  tree_ok s → es = entries s → (∀ e, e ∈ l → ∃ i, es !! i = Some e) →
  collect_results (λ id, match get_entry s id with Some e => Ok e | None => Err (missing_fork_entry id) end) (omap base_id l) = Ok l.
Proof.
  intros Hok -> Hl. induction l as [|e l IH]; [done|]. destruct (Hl e) as (i & Hi); [by left|].
  destruct (ok_ids s Hok) as [Hall _]. rw Forall_forall in Hall. destruct (Hall e) as [id Hid]; [by eapply list_elem_of_lookup_2|].
  simpl. rw Hid /=. assert (get_entry s id = Some e) as -> by (apply (get_entry_spec s Hok); by exists i). simpl.
  rw IH; [done|]. intros x Hx. apply Hl. by right.
Qed.

(** What a plan holds: the path to the parent of the selected message. *)
Lemma fork_plan_spec s id plan :
  tree_ok s → plan_fork_from_user_message s id = Ok plan →
  ∃ e content, get_entry s id = Some e ∧ entry_kind e = EMessage (SmUser content) ∧
    fork_leaf_id plan = parent_id e ∧ fork_selected_text plan = user_content_to_text content ∧
    path_to (entries s) (parent_id e) (fork_entries plan).
Proof.
  intros Hok. unfold plan_fork_from_user_message. destruct (get_entry s id) as [e|] eqn:Ee; [|done].
  destruct (entry_kind e) as [[content| | | | | |]| | | | | | |] eqn:Ek; try done. intros Hp. exists e, content.
  apply (get_entry_spec s Hok) in Ee as (i & Hi & Hid). destruct (parent_id e) as [p|] eqn:Ep.
  2:{ injection Hp as <-. split_and!; try done. constructor. }
  destruct (ok_before s Hok i e p Hi Ep) as (k & Hk & Hkat). destruct (path_exists s Hok k p Hkat) as (l & Hl).
  destruct (is_linear s) eqn:Elin.
  - rw (proj2 (ok_index s Hok p k) Hkat) in Hp. injection Hp as <-. split_and!; try done. simpl.
    destruct (ok_linear s Hok Elin) as [Hc _]. by apply (chain_path (entries s) (ok_ids s Hok)).
  - rw (path_to_entry_spec s Hok k p l Hkat Hl) (collect_path s (entries s) l) // in Hp; [|by intros x; apply (path_to_elem _ _ _ x Hl)].
    injection Hp as <-. split_and!; done.
Qed.

(** A path is a session of its own. *)
Lemma path_well_identified s leaf l : tree_ok s → path_to (entries s) leaf l → l `sublist_of` entries s ∧ well_identified l.
Proof.
  intros Hok Hl. assert (l `sublist_of` entries s) as Hsub.
  { destruct leaf as [p|]; [|inversion Hl; apply sublist_nil_l]. destruct (path_to_known _ _ _ p Hl eq_refl) as (k & Hk).
    etrans; [|apply (sublist_take _ (S k))]. apply (path_sublist _ _ p); [apply (ok_ids s Hok)|apply (ok_before s Hok)|done|done]. }
  split; [done|]. eapply well_identified_sublist; [apply (ok_ids s Hok)|done].
Qed.

Lemma path_of_path s leaf l : tree_ok s → path_to (entries s) leaf l → path_to l leaf l.
Proof.
  intros Hok Hl. destruct (path_well_identified s leaf l Hok Hl) as [_ Hw]. destruct leaf as [p|]; [|inversion Hl; constructor].
  pose proof (path_to_last _ _ _ Hl) as Hlast. rw last_lookup in Hlast. symmetry in Hlast. apply bind_Some in Hlast as (x & Hx & Hxid).
  pose proof (chain_path l Hw _ p (path_chain _ _ _ Hl) (ex_intro _ x (conj Hx Hxid))) as Hp. rw take_ge in Hp; [done|].
  apply lookup_lt_Some in Hx. lia.
Qed.

Lemma install_path s s0 leaf l :
  tree_ok s → tree_ok s0 → path_to (entries s) leaf l →
  ∃ fin, finalize_loaded_entries legacy_digest l = Some (l, fin) ∧
    tree_ok (install s0 (header s0) l fin leaf (persisted_entry_count s0)).
Proof.
  intros Hok Hok0 Hl. destruct (path_well_identified s leaf l Hok Hl) as [Hsub Hw].
  destruct (finalize_loaded_spec legacy_digest l Hw) as (fin & E & _). exists fin. split; [done|].
  apply (install_ok legacy_digest); [done| |by apply chain_before, (path_chain _ _ _ Hl)| |apply (ok_offset s0 Hok0)|done|].
  - intros j id' (x & Hx & Hxid). assert (x ∈ entries s) as [k Hkx]%list_elem_of_lookup.
    { eapply elem_of_submseteq; [by eapply list_elem_of_lookup_2|by apply sublist_submseteq]. }
    eapply (ok_named s Hok k). by exists x.
  - apply sublist_length in Hsub. pose proof (ok_size s Hok) as Hz. unfold len in *. lia.
  - intros id' Hid'. eapply path_to_known; [by eapply (path_of_path s)|done].
Qed.

Lemma fork_plan_exists s id e content :
  tree_ok s → get_entry s id = Some e → entry_kind e = EMessage (SmUser content) →
  ∃ plan, plan_fork_from_user_message s id = Ok plan.
Proof.
  intros Hok Hg Hk. unfold plan_fork_from_user_message. rw Hg Hk. apply (get_entry_spec s Hok) in Hg as (i & Hi & Hid).
  destruct (parent_id e) as [p|] eqn:Ep; [|by eexists]. destruct (ok_before s Hok i e p Hi Ep) as (k & _ & Hkat).
  destruct (path_exists s Hok k p Hkat) as (l & Hl). destruct (is_linear s); [rw (proj2 (ok_index s Hok p k) Hkat); by eexists|].
  rw (path_to_entry_spec s Hok k p l Hkat Hl) (collect_path s (entries s) l) //; [by eexists|]. intros x. apply (path_to_elem _ _ _ x Hl).
Qed.

(** A fork is the conversation before the selected message.  For every
    user message of a session there is a plan: its text for the editor, and
    the path to its parent; started from the plan, a new session is well
    formed and has exactly this path as its entries and as its current path. *)
Theorem fork_takes_the_path s id e content s0 :
  reachable use_cache legacy_digest s → reachable use_cache legacy_digest s0 →
  get_entry s id = Some e → entry_kind e = EMessage (SmUser content) →
  ∃ plan s', plan_fork_from_user_message s id = Ok plan ∧ fork_selected_text plan = user_content_to_text content ∧
    path_to (entries s) (parent_id e) (fork_entries plan) ∧
    init_from_fork_plan legacy_digest s0 plan = Some s' ∧ session_ok s' ∧ entries s' = fork_entries plan ∧
    entries_for_current_path s' = fork_entries plan ∧ leaf_id s' = parent_id e.
Proof.
  intros [Hok _]%session_reachable_ok [Hok0 _]%session_reachable_ok Hg Hk. destruct (fork_plan_exists s id e content Hok Hg Hk) as [plan Hplan].
  destruct (fork_plan_spec s id plan Hok Hplan) as (e' & content' & Hg' & Hk' & Hleaf & Htext & Hpath).
  assert (e' = e) as -> by congruence. assert (content' = content) as -> by congruence.
  destruct (install_path s s0 _ _ Hok Hok0 Hpath) as (fin & E & Hinst). destruct (sync_ok _ Hinst) as [Hto Hho].
  eexists plan, _. split_and!; [done|done|done|unfold init_from_fork_plan; by rw E Hleaf|by split|..];
    destruct (sync_shape (install s0 (header s0) (fork_entries plan) fin (parent_id e) (persisted_entry_count s0))) as (h & d & q & Es & Hh).
  - by rw Es.
  - pose proof (current_path_spec _ Hto) as Hp. rw Es in Hp |- *. simpl in Hp.
    apply (path_to_unique (fork_entries plan) (proj2 (path_well_identified s _ _ Hok Hpath)) (parent_id e)); [done|by apply (path_of_path s)].
  - by rw Es.
Qed.
End Forks.
