(* ===== verification/SessionFile.v ===== *)
(** * Session files ([src/session.rs])

    A session file is JSON lines: the header, then one entry a line.  Reading
    it ([open_jsonl_blocking]: bounded lines, batches, worker threads),
    writing it ([persist_jsonl_snapshot_locked], [append_jsonl_entries_blocking])
    and the decision between the two ([save_inner]), on the bytes of the file.

    Parameters: [serde_json]'s reader and writer of headers and entries, the
    digests of [SessionTree.v].  Locks, permissions and other failures of
    system calls are not modelled; a write that a crash cuts short is: the
    file then holds a prefix of what was written. *)

From S2P Require Import Prelude Text Utf8 Utf8Bytes Json Messages SessionEntries SessionAutosave SessionGraph SessionTree SessionPaths.

(** ** Lines *)

(** [reader.take(limit).read_until(b'\n')]: what was read and what is left. *)
Fixpoint read_until (limit : Z) (reader : ByteStr) : ByteStr * ByteStr :=
  match reader with
  | [] => ([], [])
  | b :: reader' =>
      if limit <=? 0 then ([], reader)
      else if decide (b = c_nl) then ([b], reader')
      else let '(bytes, rest) := read_until (limit - 1) reader' in (b :: bytes, rest)
  end.

Fixpoint discard_through_newline (reader : ByteStr) : ByteStr :=
  match reader with
  | [] => []
  | b :: reader' => if decide (b = c_nl) then reader' else discard_through_newline reader'
  end.

Definition ends_with_newline (bytes : ByteStr) : bool := bool_decide (last bytes = Some c_nl).

(** The next line with its newline, [None] at the end, or why it cannot be
    read; and the reader after it. *)
Definition read_capped_utf8_line_with_limit (reader : ByteStr) (max_bytes : Z) : result (option Str) Str * ByteStr :=
  let limit := sat_add u64_max max_bytes 2 in
  let '(bytes, rest) := read_until limit reader in
  if is_empty bytes then (Ok None, rest)
  else
    let content_len := if ends_with_newline bytes then len bytes - 1 else len bytes in
    if max_bytes <? content_len then
      (Err (str "JSONL line exceeds " ++ show_u64 max_bytes ++ str " bytes"),
       if ends_with_newline bytes then rest else discard_through_newline rest)
    else
      match from_utf8 bytes with
      | Ok line => (Ok (Some line), rest)
      | Err _ => (Err (str "invalid utf-8"), rest)
      end.

Definition read_capped_utf8_line (reader : ByteStr) : result (option Str) Str * ByteStr :=
  read_capped_utf8_line_with_limit reader MAX_JSONL_LINE_BYTES.

(** ** Opening *)

Record SessionOpenSkippedEntry := mkSkipped { line_number : Z; skip_error : Str }.
Record SessionOpenDiagnostics := mkDiagnostics {
  skipped_entries : list SessionOpenSkippedEntry;
  orphaned_parent_links : list (Str * Str);
}.

Definition PARALLEL_THRESHOLD : nat := 512.
Definition JSONL_PARSE_BATCH_SIZE : nat := Z.to_nat 8192.

(** The loop that fills [line_batch]: the lines with their numbers, the lines
    that could not be read, the reader, the next number and whether the end
    was reached. *)
Fixpoint read_batch (n : nat) (reader : ByteStr) (num : Z) : list (Z * Str) * list SessionOpenSkippedEntry * ByteStr * Z * bool :=
  match n with
  | O => ([], [], reader, num, false)
  | S n' =>
      match read_capped_utf8_line reader with
      | (Ok None, rest) => ([], [], rest, num, true)
      | (Ok (Some line), rest) =>
          let '(batch, skipped, rest, num', eof) := read_batch n' rest (num + 1) in
          (if is_empty (trim line) then batch else (num, line) :: batch, skipped, rest, num', eof)
      | (Err e, rest) =>
          let '(batch, skipped, rest, num', eof) := read_batch n' rest (num + 1) in
          (batch, mkSkipped num (str "IO error reading line: " ++ e) :: skipped, rest, num', eof)
      end
  end.

Section File.
Context (dec_header : Str → result SessionHeader Str) (dec_entry : Str → result SessionEntry Str).
Context (enc_header : SessionHeader → Str) (enc_entry : SessionEntry → Str).
Context (legacy_digest : SessionEntry → nat → Str) (num_threads : nat).

(** [serde_json::to_vec] of an entry. *)
Definition encode (e : SessionEntry) : list N := utf8_encode (enc_entry e).

(** The sequential path, which is also what each worker does to its chunk. *)
Definition parse_lines (lines : list (Z * Str)) : list SessionEntry * list SessionOpenSkippedEntry :=
  fold_left (λ acc l,
    match dec_entry l.2 with
    | Ok entry => (acc.1 ++ [entry], acc.2)
    | Err e => (acc.1, acc.2 ++ [mkSkipped l.1 e])
    end) lines ([], []).

(** [slice::chunks]; the fuel is the number of lines. *)
Fixpoint chunks {A} (fuel size : nat) (l : list A) : list (list A) :=
  match fuel, l with
  | S fuel', _ :: _ => take size l :: chunks fuel' size (drop size l)
  | _, _ => []
  end.

(** The workers are joined in the order of their chunks. *)
Definition parse_batch (lines : list (Z * Str)) : list SessionEntry * list SessionOpenSkippedEntry :=
  if (PARALLEL_THRESHOLD <=? length lines)%nat && (1 <? num_threads)%nat then
    let chunk_size := Nat.max (Nat.div (length lines) num_threads) 64 in
    fold_left (λ acc r, (acc.1 ++ r.1, acc.2 ++ r.2)) (parse_lines <$> chunks (length lines) chunk_size lines) ([], [])
  else parse_lines lines.

(** The loop over batches. *)
Fixpoint read_entries (fuel : nat) (reader : ByteStr) (num : Z) (entries : list SessionEntry) (skipped : list SessionOpenSkippedEntry)
    : list SessionEntry * list SessionOpenSkippedEntry :=
  match fuel with
  | O => (entries, skipped)
  | S fuel' =>
      let '(batch, unread, rest, num, eof) := read_batch JSONL_PARSE_BATCH_SIZE reader num in
      let skipped := skipped ++ unread in
      match batch with
      | [] => if eof then (entries, skipped) else read_entries fuel' rest num entries skipped
      | _ :: _ =>
          let '(parsed, bad) := parse_batch batch in
          let entries := entries ++ parsed in
          let skipped := skipped ++ bad in
          if eof then (entries, skipped) else read_entries fuel' rest num entries skipped
      end
  end.

(** The panic of [generate_loaded_entry_id], which cannot happen. *)
Definition unreachable_id : Error :=
  session_error (str "N+1 deterministic candidates cannot all occur in a set of N existing IDs").

Definition open_jsonl_blocking (file : ByteStr) (autosave_env : option Str) : result (Session * SessionOpenDiagnostics) Error :=
  let '(first, reader) := read_capped_utf8_line file in
  match first with
  | Err e => Err (ErrIo e)
  | Ok None => Err (session_error (str "Empty session file"))
  | Ok (Some header_line) =>
      if is_empty (trim header_line) then Err (session_error (str "Empty session file"))
      else
        match dec_header header_line with
        | Err e => Err (session_error (str "Invalid header: " ++ e))
        | Ok h =>
            match header_validate h with
            | Err reason => Err (session_error (str "Invalid session header: " ++ reason))
            | Ok _ =>
                let '(rows, skipped) := read_entries (S (length reader)) reader 2 [] [] in
                match open_session legacy_digest h rows autosave_env with
                | None => Err unreachable_id
                | Some (s, orphans) => Ok (s, mkDiagnostics skipped orphans)
                end
            end
        end
  end.

(** ** Writing *)

Definition validate_jsonl_full_rewrite_lines (h : SessionHeader) (rows : list SessionEntry) : result unit Error :=
  let? _header := ensure_jsonl_line_len_within_limit (len (utf8_encode (enc_header h))) MAX_JSONL_LINE_BYTES (str "session header") in
  validate_jsonl_entries_for_write encode rows.

(** The bytes that [persist_jsonl_snapshot_locked] writes. *)
Definition snapshot (h : SessionHeader) (rows : list SessionEntry) : ByteStr :=
  (utf8_encode (enc_header h) ++ [c_nl]) ++ (rows ≫= λ e, encode e ++ [c_nl]).

Definition persist_jsonl_snapshot_locked (h : SessionHeader) (rows : list SessionEntry) : result ByteStr Error :=
  let? _lines := validate_jsonl_full_rewrite_lines h rows in Ok (snapshot h rows).

(** The new file, and the header and entries in it. *)
Definition save_jsonl_full_rewrite_blocking (file : option ByteStr) (h : SessionHeader) (rows : list SessionEntry) (header_dirty : bool)
    : result (ByteStr * (SessionHeader * list SessionEntry)) Error :=
  let? _lines := validate_jsonl_full_rewrite_lines h rows in
  let? disk :=
    match file with
    | None => Ok None
    | Some file => let? opened := open_jsonl_blocking file None in Ok (Some (header opened.1, entries opened.1))
    end in
  let? saved := prepare_jsonl_full_rewrite encode disk h rows header_dirty in
  let? file := persist_jsonl_snapshot_locked saved.1 saved.2 in
  Ok (file, saved).

Definition jsonl_ends_with_newline (file : ByteStr) : bool :=
  match file with [] => false | _ => ends_with_newline file end.

(** The loop over the bytes, from a line number on; [usize] holds the number of
    lines of any file. *)
Definition unterminated_jsonl_line_number_from (line_number : Z) (file : ByteStr) : Z :=
  fold_left (λ n b, if decide (b = c_nl) then n + 1 else n) file line_number.
Definition unterminated_jsonl_line_number (file : ByteStr) : Z := unterminated_jsonl_line_number_from 1 file.

Definition validate_unterminated_jsonl_rewrite_scope (path : Str) (file : ByteStr) (diagnostics : SessionOpenDiagnostics) : result unit Error :=
  match skipped_entries diagnostics with
  | [] => Ok tt
  | [only] => if line_number only =? unterminated_jsonl_line_number file then Ok tt
              else Err (session_error (str "refusing to rewrite unterminated JSONL " ++ path ++ str " because corruption is not confined to its final line"))
  | _ => Err (session_error (str "refusing to rewrite unterminated JSONL " ++ path ++ str " because corruption is not confined to its final line"))
  end.

Definition append_jsonl_entries_blocking (path : Str) (file : ByteStr) (expected_session_id : Str) (new_entries : list SessionEntry)
    : result (ByteStr * (SessionHeader * list SessionEntry)) Error :=
  let? _lines := validate_jsonl_entries_for_write encode new_entries in
  let? opened := open_jsonl_blocking file None in
  let '(disk_session, diagnostics) := opened in
  if negb (bool_decide (h_id (header disk_session) = expected_session_id))
  then Err (session_error (str "persisted session header ID does not match the in-memory session ID"))
  else
    let? plan := plan_jsonl_incremental_append encode (entries disk_session) (cached_message_count disk_session)
                   (cached_name disk_session) new_entries in
    let rewrite_unterminated := negb (is_empty (serialized_entries plan)) && negb (jsonl_ends_with_newline file) in
    if rewrite_unterminated then
      let? _scope := validate_unterminated_jsonl_rewrite_scope path file diagnostics in
      let? file := persist_jsonl_snapshot_locked (header disk_session) (ordered_entries plan) in
      Ok (file, (header disk_session, ordered_entries plan))
    else
      Ok (if is_empty (serialized_entries plan) then file else file ++ serialized_entries plan,
          (header disk_session, entries disk_session ++ entries_appended plan)).

(** ** Saving *)

Definition DEFAULT_COMPACTION_CHECKPOINT_INTERVAL : Z := 50.

Definition compaction_checkpoint_interval (env : option Str) : Z :=
  match env ≫= parse_u64 with
  | Some value => if 0 <? value then value else DEFAULT_COMPACTION_CHECKPOINT_INTERVAL
  | None => DEFAULT_COMPACTION_CHECKPOINT_INTERVAL
  end.

(** [exists_]: the session's file is there. *)
Definition should_full_rewrite (env : option Str) (s : Session) (exists_ : bool) : bool :=
  let persisted_count := persisted_entry_count s in
  if persisted_count =? 0 then true
  else if negb exists_ then true
  else if header_dirty s then true
  else if compaction_checkpoint_interval env <=? appends_since_checkpoint s then true
  else len (entries s) <? persisted_count.

Definition set_saved (s : Session) (dirty : bool) (appends : Z) : Session :=
  mkSession (header s) (entries s) (leaf_id s) (entry_ids s) (is_linear s) (entry_index s)
    (cached_message_count s) (cached_name s) (autosave_queue s) (persisted_entry_count s) dirty appends
    (v2_message_count_offset s).

Definition set_header_id (h : SessionHeader) (id : Str) : SessionHeader :=
  mkHeader (h_type h) (h_version h) id (h_timestamp h) (h_cwd h) (h_provider h) (h_model_id h) (h_thinking_level h)
    (h_fallback_provider h) (h_fallback_model_id h) (h_fallback_thinking_level h) (h_current_leaf h) (h_parent_session h).

(** The part of [save_inner] before anything is written: identifiers, the
    header's identifier ([uuid] when it has none) and leaf, validation. *)
Definition prepare_save (uuid : Str) (s : Session) : result Session Error :=
  match ensure_entry_ids legacy_digest s with
  | None => Err unreachable_id
  | Some s =>
      let s := if is_empty (trim (h_id (header s))) then set_header s (set_header_id (header s) uuid) true else s in
      let '(h, changed) := sync_leaf s in
      let s := set_header s h (header_dirty s || changed) in
      match header_validate (header s) with
      | Err reason => Err (session_error (str "Invalid session header: " ++ reason))
      | Ok _ => Ok s
      end
  end.

(** [save_inner] of a JSONL session with a path: the session and the file
    afterwards. *)
Definition save_inner (env : option Str) (uuid path : Str) (s : Session) (file : option ByteStr)
    : result (Session * option ByteStr) Error :=
  let? s := prepare_save uuid s in
  if should_full_rewrite env s (match file with Some _ => true | None => false end) then
    let? saved := save_jsonl_full_rewrite_blocking file (header s) (entries s) (header_dirty s) in
    match accept_persisted_state legacy_digest s saved.2.1 saved.2.2 with
    | None => Err unreachable_id
    | Some s => Ok (set_saved s false 0, Some saved.1)
    end
  else
    let new_start := Z.to_nat (persisted_entry_count s) in
    if (new_start <? length (entries s))%nat then
      match file with
      | None => Err (ErrIo (str "No such file or directory"))
      | Some bytes =>
          let? saved := append_jsonl_entries_blocking path bytes (h_id (header s)) (drop new_start (entries s)) in
          match accept_persisted_state legacy_digest s saved.2.1 saved.2.2 with
          | None => Err unreachable_id
          | Some s => Ok (set_saved s (header_dirty s) (appends_since_checkpoint s + 1), Some saved.1)
          end
      end
    else Ok (s, file).
End File.

(** ** Reading lines *)

(** The lines of a file, one read after the other. *)
Inductive reads : ByteStr → list (result Str Str) → Prop :=
| reads_end reader rest : read_capped_utf8_line reader = (Ok None, rest) → reads reader []
| reads_line reader line rest lines :
    read_capped_utf8_line reader = (Ok (Some line), rest) → reads rest lines → reads reader (Ok line :: lines)
| reads_error reader e rest lines :
    read_capped_utf8_line reader = (Err e, rest) → reads rest lines → reads reader (Err e :: lines).

Lemma read_until_app limit reader : let '(bytes, rest) := read_until limit reader in reader = bytes ++ rest.
Proof.
  revert limit. induction reader as [|b reader IH]; intros limit; simpl; [done|]. destruct (limit <=? 0); [done|]. case_decide; [done|].
  specialize (IH (limit - 1)). destruct (read_until _ _). by rw IH.
Qed.

Lemma discard_shrinks reader : (length (discard_through_newline reader) ≤ length reader)%nat.
Proof. induction reader as [|b reader IH]; simpl; [done|]. case_decide; lia. Qed.

Lemma read_line_shrinks reader r rest : read_capped_utf8_line reader = (r, rest) → r ≠ Ok None → (length rest < length reader)%nat.
Proof.
  unfold read_capped_utf8_line, read_capped_utf8_line_with_limit. pose proof (read_until_app (sat_add u64_max MAX_JSONL_LINE_BYTES 2) reader) as E.
  destruct (read_until _ _) as [bytes left]. destruct bytes as [|b bytes]; cbn [is_empty]; [by intros [= <- <-]|].
  apply (f_equal length) in E. rw length_app in E. simpl in E. pose proof (discard_shrinks left).
  destruct (MAX_JSONL_LINE_BYTES <? _); [intros [= <- <-] _; case_match; lia|]. destruct (from_utf8 _); intros [= <- <-] _; lia.
Qed.

Lemma reads_total reader : ∃ lines, reads reader lines ∧ (length lines ≤ length reader)%nat.
Proof.
  remember (length reader) as n eqn:E. revert reader E. induction (lt_wf n) as [n _ IH]. intros reader ->.
  destruct (read_capped_utf8_line reader) as [[[line|]|e] rest] eqn:Er.
  - pose proof (read_line_shrinks _ _ _ Er) as Hs. destruct (IH _ (Hs ltac:(done)) rest eq_refl) as (lines & Hl & Hlen).
    exists (Ok line :: lines). split; [by econstructor|]. specialize (Hs ltac:(done)). simpl. lia.
  - exists []. split; [by econstructor|simpl; lia].
  - pose proof (read_line_shrinks _ _ _ Er) as Hs. destruct (IH _ (Hs ltac:(done)) rest eq_refl) as (lines & Hl & Hlen).
    exists (Err e :: lines). split; [by econstructor|]. specialize (Hs ltac:(done)). simpl. lia.
Qed.

Lemma reads_functional reader l k : reads reader l → reads reader k → l = k.
Proof.
  intros H. revert k. induction H as [? ? H|? ? ? ? H _ IH|? ? ? ? H _ IH]; inversion 1 as [? ? H'|? ? ? ? H' Hr|? ? ? ? H' Hr]; subst;
    rw H in H'; simplify_eq; try done; f_equal; by apply IH.
Qed.

(** A batch: the lines that can be parsed and those that could not be read. *)
Fixpoint batch_of (num : Z) (lines : list (result Str Str)) : list (Z * Str) :=
  match lines with
  | [] => []
  | Ok line :: lines' => (if is_empty (trim line) then [] else [(num, line)]) ++ batch_of (num + 1) lines'
  | Err _ :: lines' => batch_of (num + 1) lines'
  end.
Fixpoint unread_of (num : Z) (lines : list (result Str Str)) : list SessionOpenSkippedEntry :=
  match lines with
  | [] => []
  | Ok _ :: lines' => unread_of (num + 1) lines'
  | Err e :: lines' => mkSkipped num (str "IO error reading line: " ++ e) :: unread_of (num + 1) lines'
  end.

Lemma batch_of_app num l k : batch_of num (l ++ k) = batch_of num l ++ batch_of (num + len l) k.
Proof.
  revert num. induction l as [|[line|e] l IH]; intros num; [cbn; by rw Z.add_0_r| |];
    cbn [app batch_of]; rw IH len_cons; replace (num + (len l + 1)) with (num + 1 + len l) by lia; by rw ?assoc.
Qed.
Lemma unread_of_app num l k : unread_of num (l ++ k) = unread_of num l ++ unread_of (num + len l) k.
Proof.
  revert num. induction l as [|[line|e] l IH]; intros num; [cbn; by rw Z.add_0_r| |];
    cbn [app unread_of]; rw IH len_cons; by replace (num + (len l + 1)) with (num + 1 + len l) by lia.
Qed.

Lemma read_batch_spec n reader num lines :
  reads reader lines →
  ∃ rest, read_batch n reader num =
    (batch_of num (take n lines), unread_of num (take n lines), rest, num + len (take n lines), (length lines <? n)%nat) ∧
    ((n ≤ length lines)%nat → reads rest (drop n lines)).
Proof.
  intros H. revert n num. induction H as [reader rest H|reader line rest lines H Hr IH|reader e rest lines H Hr IH]; intros [|n] num.
  - exists reader. simpl. split; [by rw Z.add_0_r|]. intros _. by econstructor.
  - exists rest. cbn [read_batch]. rw H. split; [simpl; by rw Z.add_0_r|simpl; lia].
  - exists reader. simpl. split; [by rw Z.add_0_r|]. intros _. by econstructor.
  - destruct (IH n (num + 1)) as (rest' & E & Hn). exists rest'. cbn [read_batch]. rw H E. split; [|simpl; intros; apply Hn; lia].
    cbn [take batch_of unread_of length]. replace (S (length lines) <? S n)%nat with (length lines <? n)%nat by done.
    rw len_cons. replace (num + (len (take n lines) + 1)) with (num + 1 + len (take n lines)) by lia. by destruct (is_empty _).
  - exists reader. simpl. split; [by rw Z.add_0_r|]. intros _. by econstructor.
  - destruct (IH n (num + 1)) as (rest' & E & Hn). exists rest'. cbn [read_batch]. rw H E. split; [|simpl; intros; apply Hn; lia].
    cbn [take batch_of unread_of length]. replace (S (length lines) <? S n)%nat with (length lines <? n)%nat by done.
    rw len_cons. by replace (num + (len (take n lines) + 1)) with (num + 1 + len (take n lines)) by lia.
Qed.

(** ** Parsing lines *)

Section Parse.
Context (dec_entry : Str → result SessionEntry Str).

(** What one line gives. *)
Definition parsed_row (l : Z * Str) : option SessionEntry := match dec_entry l.2 with Ok entry => Some entry | Err _ => None end.
Definition bad_row (l : Z * Str) : option SessionOpenSkippedEntry :=
  match dec_entry l.2 with Ok _ => None | Err e => Some (mkSkipped l.1 e) end.

Lemma parse_lines_spec lines : parse_lines dec_entry lines = (omap parsed_row lines, omap bad_row lines).
Proof.
  unfold parse_lines. set (f := λ _ _, _).
  assert (∀ a b, fold_left f lines (a, b) = (a ++ omap parsed_row lines, b ++ omap bad_row lines)) as H; [|by rw H].
  induction lines as [|l lines IH]; intros a b; simpl; [by rw !app_nil_r|].
  assert (f (a, b) l = (a ++ option_list (parsed_row l), b ++ option_list (bad_row l))) as ->
    by (unfold f, parsed_row, bad_row; destruct (dec_entry l.2); simpl; by rw app_nil_r).
  rw IH -!assoc. by destruct (parsed_row l), (bad_row l).
Qed.

Lemma concat_chunks {A} fuel size (l : list A) : (0 < size)%nat → (length l ≤ fuel)%nat → concat (chunks fuel size l) = l.
Proof.
  intros Hs. revert l. induction fuel as [|fuel IH]; intros l Hl; [by destruct l; simpl in Hl; [|lia]|].
  destruct l as [|x l]; [done|]. cbn [chunks concat]. rw IH; [apply take_drop|]. rw length_drop. simpl in *. lia.
Qed.

(** Worker threads change nothing. *)
Lemma parse_batch_spec num_threads lines : parse_batch dec_entry num_threads lines = parse_lines dec_entry lines.
Proof.
  unfold parse_batch. case_match; [|done]. set (cs := chunks _ _ _).
  assert (concat cs = lines) as E by (apply concat_chunks; lia). rw parse_lines_spec -E. clearbody cs. clear. set (f := λ _ _, _).
  assert (∀ a b, fold_left f (parse_lines dec_entry <$> cs) (a, b) = (a ++ omap parsed_row (concat cs), b ++ omap bad_row (concat cs))) as H; [|by rw H].
  induction cs as [|c cs IH]; intros a b; simpl; [by rw !app_nil_r|].
  unfold f at 2. rw parse_lines_spec. cbn [fst snd]. by rw IH !omap_app !assoc.
Qed.

Definition rows_of (num : Z) (lines : list (result Str Str)) : list SessionEntry := omap parsed_row (batch_of num lines).
Definition bad_of (num : Z) (lines : list (result Str Str)) : list SessionOpenSkippedEntry := omap bad_row (batch_of num lines).

Lemma read_entries_spec num_threads fuel reader num lines rows skipped :
  reads reader lines → (length lines < fuel)%nat →
  ∃ bad, read_entries dec_entry num_threads fuel reader num rows skipped = (rows ++ rows_of num lines, skipped ++ bad) ∧
    bad ≡ₚ unread_of num lines ++ bad_of num lines.
Proof.
  revert reader num lines rows skipped. induction fuel as [|fuel IH]; intros reader num lines rows skipped Hr Hf; [lia|].
  cbn [read_entries]. destruct (read_batch_spec JSONL_PARSE_BATCH_SIZE reader num lines Hr) as (rest & -> & Hrest).
  set (n := JSONL_PARSE_BATCH_SIZE) in *. assert (0 < n)%nat as Hn by (unfold n, JSONL_PARSE_BATCH_SIZE; lia).
  assert (∀ rows' skipped', (match batch_of num (take n lines) with
      | [] => if (length lines <? n)%nat then (rows', skipped') else read_entries dec_entry num_threads fuel rest (num + len (take n lines)) rows' skipped'
      | _ :: _ => let '(parsed, bad) := parse_batch dec_entry num_threads (batch_of num (take n lines)) in
          if (length lines <? n)%nat then (rows' ++ parsed, skipped' ++ bad)
          else read_entries dec_entry num_threads fuel rest (num + len (take n lines)) (rows' ++ parsed) (skipped' ++ bad) end)
      = if (length lines <? n)%nat then (rows' ++ rows_of num (take n lines), skipped' ++ bad_of num (take n lines))
        else read_entries dec_entry num_threads fuel rest (num + len (take n lines)) (rows' ++ rows_of num (take n lines)) (skipped' ++ bad_of num (take n lines))) as ->.
  { intros rows' skipped'. rw parse_batch_spec parse_lines_spec. unfold rows_of, bad_of. destruct (batch_of num (take n lines)); [|done]. simpl. by rw !app_nil_r. }
  destruct (Nat.ltb_spec (length lines) n) as [Hlt|Hge].
  - rw take_ge; [|lia]. exists (unread_of num lines ++ bad_of num lines). by rw -assoc.
  - destruct (IH rest (num + len (take n lines)) (drop n lines) (rows ++ rows_of num (take n lines))
      ((skipped ++ unread_of num (take n lines)) ++ bad_of num (take n lines)) (Hrest Hge)) as (bad & -> & Hbad).
    { rw length_drop. lia. }
    exists (unread_of num (take n lines) ++ bad_of num (take n lines) ++ bad). split.
    + rw -!assoc. repeat f_equal. unfold rows_of. by rw -omap_app -batch_of_app take_drop.
    + rw Hbad. assert (unread_of num lines = unread_of num (take n lines) ++ unread_of (num + len (take n lines)) (drop n lines)) as ->
        by by rw -unread_of_app take_drop.
      assert (bad_of num lines = bad_of num (take n lines) ++ bad_of (num + len (take n lines)) (drop n lines)) as ->
        by (unfold bad_of; by rw -omap_app -batch_of_app take_drop).
      rw -!assoc. apply Permutation_app_head. rw !assoc. apply Permutation_app_tail, Permutation_app_comm.
Qed.
End Parse.
