(* ===== verification/SessionDisk.v ===== *)
(** * What a session file holds

    Reading back what was written: a snapshot, an appended file, and a file
    whose last append was cut short by a crash. *)

From S2P Require Import Prelude Text Utf8 Utf8Bytes Json Messages SessionEntries SessionAutosave SessionGraph SessionTree SessionPaths SessionFile.

(** ** Lines of text *)

Lemma prefix_or_app {A} (t a b : list A) : t `prefix_of` a ++ b → t `prefix_of` a ∨ ∃ r, t = a ++ r ∧ r `prefix_of` b.
Proof.
  revert t. induction a as [|x a IH]; intros t H; [right; by exists t|]. destruct t as [|y t]; [left; apply prefix_nil|].
  apply prefix_cons_inv_1 in H as Hxy. apply prefix_cons_inv_2 in H. subst y. destruct (IH t H) as [Ht|(r & -> & Hr)]; [left; by apply prefix_cons|right; by exists r].
Qed.

Lemma read_until_line limit line rest : c_nl ∉ line → len line < limit → read_until limit (line ++ c_nl :: rest) = (line ++ [c_nl], rest).
Proof.
  revert limit. induction line as [|b line IH]; intros limit Hn Hl; cbn [app read_until].
  - by rw (proj2 (Z.leb_gt _ _)).
  - rw not_elem_of_cons in Hn. destruct Hn as [Hb Hn]. rw len_cons in Hl. pose proof (len_nonneg line).
    rw (proj2 (Z.leb_gt _ _)); [|lia]. rw decide_False //. by rw IH; [|done|lia].
Qed.

Lemma read_until_rest limit line : c_nl ∉ line → len line ≤ limit → read_until limit line = (line, []).
Proof.
  revert limit. induction line as [|b line IH]; intros limit Hn Hl; cbn [read_until]; [done|].
  rw not_elem_of_cons in Hn. destruct Hn as [Hb Hn]. rw len_cons in Hl. pose proof (len_nonneg line).
  rw (proj2 (Z.leb_gt _ _)); [|lia]. rw decide_False //. by rw IH; [|done|lia].
Qed.

Lemma ends_with_newline_snoc line : ends_with_newline (line ++ [c_nl]) = true.
Proof. unfold ends_with_newline. by rw last_snoc bool_decide_true. Qed.

Lemma ends_with_newline_none line : c_nl ∉ line → ends_with_newline line = false.
Proof. intros Hn. unfold ends_with_newline. rw bool_decide_false //. intros E%last_Some_elem_of. done. Qed.

(** Reading one line of a file. *)
Lemma read_text_line s rest :
  Forall scalar s → c_nl ∉ s → len (utf8_encode s) ≤ MAX_JSONL_LINE_BYTES →
  read_capped_utf8_line (utf8_encode s ++ c_nl :: rest) = (Ok (Some (s ++ [c_nl])), rest).
Proof.
  intros Hs Hn Hl. unfold read_capped_utf8_line, read_capped_utf8_line_with_limit. change (sat_add u64_max MAX_JSONL_LINE_BYTES 2) with (MAX_JSONL_LINE_BYTES + 2).
  rw read_until_line; [|by apply utf8_encode_no_nl|lia]. assert (is_empty (utf8_encode s ++ [c_nl]) = false) as -> by by destruct (utf8_encode s).
  rw ends_with_newline_snoc len_app len_cons. change (len []) with 0. rw (proj2 (Z.ltb_ge _ _)); [|lia].
  change [c_nl] with (utf8_encode [c_nl]). rw -utf8_encode_app from_utf8_encode //. apply Forall_app_2; [done|]. repeat constructor.
Qed.

(** Reading the last line, which has no newline. *)
Lemma read_last_line t :
  t ≠ [] → c_nl ∉ t → len t ≤ MAX_JSONL_LINE_BYTES →
  read_capped_utf8_line t = (match from_utf8 t with Ok line => Ok (Some line) | Err _ => Err (str "invalid utf-8") end, []).
Proof.
  intros Hne Hn Hl. unfold read_capped_utf8_line, read_capped_utf8_line_with_limit. change (sat_add u64_max MAX_JSONL_LINE_BYTES 2) with (MAX_JSONL_LINE_BYTES + 2).
  rw read_until_rest //; [|lia]. assert (is_empty t = false) as -> by by destruct t. rw ends_with_newline_none // (proj2 (Z.ltb_ge _ _)); [|lia].
  by destruct (from_utf8 t).
Qed.

Lemma read_nothing : read_capped_utf8_line [] = (Ok None, []).
Proof. done. Qed.

(** ** The codec *)

Section Disk.
Context (dec_header : Str → result SessionHeader Str) (dec_entry : Str → result SessionEntry Str).
Context (enc_header : SessionHeader → Str) (enc_entry : SessionEntry → Str).
Context (legacy_digest : SessionEntry → nat → Str) (num_threads : nat).

Abbreviation encode := (encode enc_entry).
Abbreviation snapshot := (snapshot enc_header enc_entry).
Abbreviation open := (open_jsonl_blocking dec_header dec_entry legacy_digest num_threads).
Abbreviation append := (append_jsonl_entries_blocking dec_header dec_entry enc_header enc_entry legacy_digest num_threads).

(** What the code relies on [serde_json] for, of one entry: it is written as
    an object on one line and read back, with or without the newline, and a
    part of the text is refused.  And it fits the limit of a line. *)
Record entry_ok (e : SessionEntry) : Prop := mk_entry_ok {
  eo_object : head (enc_entry e) = Some 123%N;
  eo_scalar : Forall scalar (enc_entry e);
  eo_line : c_nl ∉ enc_entry e;
  eo_fits : len (encode e) ≤ MAX_JSONL_LINE_BYTES;
  eo_read : dec_entry (enc_entry e) = Ok e;
  eo_read_line : dec_entry (enc_entry e ++ [c_nl]) = Ok e;
  eo_torn : ∀ p q, enc_entry e = p ++ q → q ≠ [] → ∃ err, dec_entry p = Err err;
}.

Record header_ok (h : SessionHeader) : Prop := mk_header_ok {
  ho_object : head (enc_header h) = Some 123%N;
  ho_scalar : Forall scalar (enc_header h);
  ho_line : c_nl ∉ enc_header h;
  ho_fits : len (utf8_encode (enc_header h)) ≤ MAX_JSONL_LINE_BYTES;
  ho_read_line : dec_header (enc_header h ++ [c_nl]) = Ok h;
  ho_valid : header_validate h = Ok tt;
}.

Lemma object_not_blank s rest : head s = Some 123%N → is_empty (trim (s ++ rest)) = false.
Proof. destruct s as [|c s]; [done|]. intros [= ->]. unfold trim. cbn [app]. rw trim_start_nonblank // trim_end_cons //. Qed.

(** The rows of a file. *)
Definition rows_bytes (rows : list SessionEntry) : ByteStr := rows ≫= λ e, encode e ++ [c_nl].

Lemma rows_bytes_app l k : rows_bytes (l ++ k) = rows_bytes l ++ rows_bytes k.
Proof. apply bind_app. Qed.

Lemma snapshot_app h l k : snapshot h (l ++ k) = snapshot h l ++ rows_bytes k.
Proof. unfold SessionFile.snapshot. rw -!assoc. do 2 f_equal. apply rows_bytes_app. Qed.

Definition line_of (e : SessionEntry) : result Str Str := Ok (enc_entry e ++ [c_nl]).

Lemma reads_rows rows rest lines :
  Forall entry_ok rows → reads rest lines → reads (rows_bytes rows ++ rest) ((line_of <$> rows) ++ lines).
Proof.
  induction 1 as [|e rows He _ IH]; intros Hr; [done|]. cbn [rows_bytes mbind list_bind fmap list_fmap app]. rw -!assoc. cbn [app].
  eapply reads_line; [|by apply IH]. apply read_text_line; apply He.
Qed.

Lemma rows_of_lines num rows lines :
  Forall entry_ok rows →
  rows_of dec_entry num ((line_of <$> rows) ++ lines) = rows ++ rows_of dec_entry (num + len rows) lines ∧
  bad_of dec_entry num ((line_of <$> rows) ++ lines) = bad_of dec_entry (num + len rows) lines ∧
  unread_of num ((line_of <$> rows) ++ lines) = unread_of (num + len rows) lines.
Proof.
  intros H. revert num. induction H as [|e rows He _ IH]; intros num; [cbn; by rw Z.add_0_r|].
  destruct (IH (num + 1)) as (E1 & E2 & E3). rw len_cons. replace (num + (len rows + 1)) with (num + 1 + len rows) by lia.
  unfold rows_of, bad_of in *. cbn [fmap list_fmap app line_of batch_of unread_of].
  rw object_not_blank; [|apply He]. cbn [app omap list_omap].
  unfold parsed_row at 1, bad_row at 1. rw /= (eo_read_line e He). by rw E1 E2 E3.
Qed.

(** ** Opening *)

Lemma open_reads h rest lines :
  header_ok h → reads rest lines →
  ∃ bad, bad ≡ₚ unread_of 2 lines ++ bad_of dec_entry 2 lines ∧ ∀ env,
    open ((utf8_encode (enc_header h) ++ [c_nl]) ++ rest) env =
    match open_session legacy_digest h (rows_of dec_entry 2 lines) env with
    | None => Err unreachable_id
    | Some (s, orphans) => Ok (s, mkDiagnostics bad orphans)
    end.
Proof.
  intros Hh Hr. destruct (reads_total rest) as (lines' & Hr' & Hlen). assert (lines' = lines) as -> by by eapply reads_functional.
  destruct (read_entries_spec dec_entry num_threads (S (length rest)) rest 2 lines [] [] Hr) as (bad & E & Hbad); [lia|].
  exists bad. split; [done|]. intros env. unfold open_jsonl_blocking. rw -assoc. cbn [app]. rw read_text_line; [|apply Hh..].
  rw object_not_blank; [|apply Hh]. rw (ho_read_line h Hh) (ho_valid h Hh). by rw E.
Qed.

(** A file that was written whole is read whole. *)
Lemma open_snapshot h rows env :
  header_ok h → Forall entry_ok rows →
  open (snapshot h rows) env =
  match open_session legacy_digest h rows env with
  | None => Err unreachable_id
  | Some (s, orphans) => Ok (s, mkDiagnostics [] orphans)
  end.
Proof.
  intros Hh Hr. assert (reads [] []) as H0 by by apply (reads_end [] []).
  pose proof (reads_rows rows [] [] Hr H0) as Hl. rw app_nil_r in Hl.
  destruct (open_reads h (rows_bytes rows) _ Hh Hl) as (bad & Hbad & E). specialize (E env).
  destruct (rows_of_lines 2 rows [] Hr) as (E1 & E2 & E3). rw E1 in E. rw E2 E3 /= in Hbad. apply Permutation_nil_r in Hbad as ->.
  rw app_nil_r in E. exact E.
Qed.

(** ** A torn append *)

(** A beginning of the rows: whole rows, then a beginning of the next one. *)
Lemma cut_rows new torn :
  torn `prefix_of` rows_bytes new →
  ∃ k t, torn = rows_bytes (take k new) ++ t ∧ (t = [] ∨ ∃ e, new !! k = Some e ∧ t ≠ [] ∧ t `prefix_of` encode e).
Proof.
  revert torn. induction new as [|e new IH]; intros torn Hp.
  { apply prefix_nil_inv in Hp as ->. exists 0%nat, []. auto. }
  cbn [rows_bytes mbind list_bind] in Hp. change (new ≫= _) with (rows_bytes new) in Hp.
  destruct (prefix_or_app _ _ _ Hp) as [Hin|(rest & -> & Hr)].
  - destruct Hin as [q Hq]. destruct q as [|b q] using rev_ind.
    + rw app_nil_r in Hq. exists 1%nat, []. split; [|by left]. rw app_nil_r. cbn [take rows_bytes mbind list_bind]. by rw app_nil_r.
    + clear IHq. rw assoc in Hq. apply app_inj_tail in Hq as [Hq _]. exists 0%nat, torn. split; [done|].
      destruct torn as [|b0 torn]; [by left|right]. exists e. split_and!; [done|done|]. by exists q.
  - destruct (IH rest Hr) as (k & t & -> & Ht). exists (S k), t. split; [|done]. cbn [take rows_bytes mbind list_bind]. by rw assoc.
Qed.

(** The last line of a torn file is the whole entry or is skipped. *)
Lemma reads_torn e t num :
  entry_ok e → t ≠ [] → t `prefix_of` encode e →
  ∃ l, reads t [l] ∧
    (t = encode e ∧ rows_of dec_entry num [l] = [e] ∧ unread_of num [l] ++ bad_of dec_entry num [l] = [] ∨
     rows_of dec_entry num [l] = [] ∧ ∃ err, unread_of num [l] ++ bad_of dec_entry num [l] = [mkSkipped num err]).
Proof.
  intros He Hne [q Hq]. assert (c_nl ∉ encode e) as Hnl by (apply utf8_encode_no_nl; apply He).
  assert (c_nl ∉ t) as Hnt by (intros Hin; apply Hnl; rw Hq; apply elem_of_app; by left).
  assert (len t ≤ MAX_JSONL_LINE_BYTES) as Hlen by (pose proof (eo_fits e He) as Hf; rw Hq in Hf; len_lia).
  pose proof (read_last_line t Hne Hnt Hlen) as Er. assert (reads [] []) as H0 by by apply (reads_end [] []).
  destruct (from_utf8 t) as [p|err] eqn:Ep.
  2:{ exists (Err (str "invalid utf-8")). split; [by apply (reads_error t _ [] [])|]. right. split; [done|]. by eexists. }
  exists (Ok p). split; [by apply (reads_line t p [] [])|]. apply from_utf8_ok in Ep as [-> Hp].
  destruct (utf8_cut (enc_entry e) (utf8_encode p) q (eo_scalar e He) Hq) as (s1 & s2 & t' & E & Et & Eq & Ht').
  assert (s1 = p ∧ t' = []) as [-> ->].
  { assert (utf8_of (utf8_encode p) = (p, EndOk)) as E1 by (pose proof (utf8_of_encode p [] Hp) as E1; rw app_nil_r in E1; rw E1 /=; by rw app_nil_r).
    rw Et utf8_of_encode in E1; [|pose proof (eo_scalar e He) as Hsc; rw E Forall_app in Hsc; apply Hsc]. rw (utf8_of_tail t' Ht') /= app_nil_r in E1.
    destruct t'; [|done]. by injection E1. }
  assert (head p = Some 123%N) as Hhead.
  { pose proof (eo_object e He) as Ho. rw E in Ho. destruct p; [done|]. done. }
  unfold rows_of, bad_of. cbn [batch_of unread_of app]. rw -(app_nil_r p) (object_not_blank p []) // app_nil_r. cbn [app omap list_omap].
  unfold parsed_row, bad_row. cbn [snd fst]. destruct s2 as [|c s2].
  - rw app_nil_r in E. subst p. left. rw (eo_read e He). done.
  - right. destruct (eo_torn e He p (c :: s2) E ltac:(done)) as [err ->]. split; [done|]. by exists err.
Qed.

Lemma count_lines_app n a b : unterminated_jsonl_line_number_from n (a ++ b) = unterminated_jsonl_line_number_from (unterminated_jsonl_line_number_from n a) b.
Proof. apply fold_left_app. Qed.

Lemma count_line n t : c_nl ∉ t → unterminated_jsonl_line_number_from n t = n.
Proof. induction t as [|b t IH]; intros Hn; [done|]. rw not_elem_of_cons in Hn. destruct Hn. simpl. rw decide_False //. by apply IH. Qed.

Lemma count_rows n rows : Forall entry_ok rows → unterminated_jsonl_line_number_from n (rows_bytes rows) = n + len rows.
Proof.
  intros H. revert n. induction H as [|e rows He _ IH]; intros n; [change (n = n + 0); lia|]. cbn [rows_bytes mbind list_bind]. change (rows ≫= _) with (rows_bytes rows).
  rw !count_lines_app (count_line n (encode e)); [|by apply utf8_encode_no_nl; apply He]. rw IH len_cons. change (unterminated_jsonl_line_number_from n [c_nl]) with (n + 1). lia.
Qed.

Lemma last_line_number h rows t :
  header_ok h → Forall entry_ok rows → c_nl ∉ t → unterminated_jsonl_line_number (snapshot h rows ++ t) = 2 + len rows.
Proof.
  intros Hh Hr Ht. change (unterminated_jsonl_line_number ?f) with (unterminated_jsonl_line_number_from 1 f). unfold SessionFile.snapshot.
  rw !count_lines_app (count_line _ (utf8_encode _)); [|apply utf8_encode_no_nl; apply Hh]. change (rows ≫= _) with (rows_bytes rows).
  by rw count_rows // count_line.
Qed.

Lemma open_session_ok h rows env :
  well_identified rows → ∃ s orphans, open_session legacy_digest h rows env = Some (s, orphans) ∧
    header s = (materialize_branch_fallbacks h).1 ∧ entries s = rows.
Proof.
  intros Hw. unfold open_session. destruct (materialize_branch_fallbacks h) as [h' d].
  destruct (finalize_loaded_spec legacy_digest rows Hw) as (fin & -> & _). simpl. by eexists _, _.
Qed.

(** A file with a torn append, opened: how many of the new rows are there,
    and whether its end is whole, lacks its newline, or was skipped. *)
Inductive torn_end (h : SessionHeader) (rows : list SessionEntry) (file : ByteStr) : list SessionOpenSkippedEntry → Prop :=
| torn_whole : file = snapshot h rows → torn_end h rows file []
| torn_newline : file ++ [c_nl] = snapshot h rows → ends_with_newline file = false → torn_end h rows file []
| torn_row err : ends_with_newline file = false → torn_end h rows file [mkSkipped (unterminated_jsonl_line_number file) err].

Lemma ends_with_newline_app a t : t ≠ [] → ends_with_newline (a ++ t) = ends_with_newline t.
Proof. intros Ht. unfold ends_with_newline. rw last_app. destruct (last t) eqn:E; [done|]. by apply last_None in E. Qed.

Lemma torn_open h es new torn :
  header_ok h → Forall entry_ok (es ++ new) → torn `prefix_of` rows_bytes new →
  ∃ k bad, torn_end h (es ++ take k new) (snapshot h es ++ torn) bad ∧ (bad ≠ [] → k < length new)%nat ∧ ∀ env,
    open (snapshot h es ++ torn) env =
    match open_session legacy_digest h (es ++ take k new) env with
    | None => Err unreachable_id
    | Some (s, orphans) => Ok (s, mkDiagnostics bad orphans)
    end.
Proof.
  intros Hh Hok (k & t & -> & Ht)%cut_rows. assert (Forall entry_ok (es ++ take k new)) as Hk.
  { rw Forall_app in Hok. destruct Hok. apply Forall_app_2; [done|by apply Forall_take]. }
  rw assoc -snapshot_app. destruct Ht as [->|(e & Hek & Hne & Hpre)].
  { exists k, []. rw app_nil_r. split_and!; [by constructor|done|]. intros env. by apply open_snapshot. }
  assert (entry_ok e) as He. { rw Forall_app in Hok. destruct Hok as [_ Hok]. eapply Forall_lookup_1; [exact Hok|done]. }
  assert (c_nl ∉ t) as Hnl.
  { destruct Hpre as [q Hq]. intros Hin. apply (utf8_encode_no_nl (enc_entry e)); [apply He..|]. change (c_nl ∈ encode e). rw Hq. apply elem_of_app. by left. }
  destruct (reads_torn e t (2 + len (es ++ take k new)) He Hne Hpre) as (l & Hl & Hcase).
  pose proof (reads_rows _ t [l] Hk Hl) as Hrows. destruct (open_reads h _ _ Hh Hrows) as (bad & Hbad & E).
  destruct (rows_of_lines 2 _ [l] Hk) as (E1 & E2 & E3). rw E1 in E. rw E2 E3 in Hbad. setoid_rewrite (assoc (++)) in E.
  assert (ends_with_newline (snapshot h (es ++ take k new) ++ t) = false) as Hend.
  { rw ends_with_newline_app //. by apply ends_with_newline_none. }
  destruct Hcase as [(-> & Er & Eb)|(Er & err & Eb)]; rw Eb in Hbad; rw Er in E.
  - apply Permutation_nil_r in Hbad as ->. exists (S k), []. rw (take_S_r _ _ _ Hek) assoc. split_and!; [|done|exact E].
    apply torn_newline; [|done]. rw (snapshot_app h (es ++ take k new) [e]). change (rows_bytes [e]) with ((encode e ++ [c_nl]) ++ []). by rw app_nil_r assoc.
  - apply Permutation_singleton_r in Hbad as ->. setoid_rewrite app_nil_r in E. exists k, [mkSkipped (2 + len (es ++ take k new)) err]. split_and!; [|intros _; by eapply lookup_lt_Some|exact E].
    rw -(last_line_number h _ t) //. by constructor.
Qed.

(** ** Appending *)

Lemma entries_fit rows : Forall entry_ok rows → validate_jsonl_entries_for_write encode rows = Ok tt.
Proof.
  intros H. unfold validate_jsonl_entries_for_write. pose proof (collect_results_spec (λ e, ensure_jsonl_line_len_within_limit (len (encode e)) MAX_JSONL_LINE_BYTES (str "session entry")) rows) as Hc.
  destruct (collect_results _ rows) as [?|err]; [done|]. destruct Hc as (e & He & E). unfold ensure_jsonl_line_len_within_limit in E.
  rw Forall_forall in H. pose proof (eo_fits e (H e He)). rw (proj2 (Z.ltb_ge _ _)) // in E.
Qed.

Lemma lines_fit h rows : header_ok h → Forall entry_ok rows → validate_jsonl_full_rewrite_lines enc_header enc_entry h rows = Ok tt.
Proof.
  intros Hh Hr. unfold validate_jsonl_full_rewrite_lines, ensure_jsonl_line_len_within_limit.
  rw (proj2 (Z.ltb_ge _ _) (ho_fits h Hh)). cbn [result_bind]. by apply entries_fit.
Qed.

Lemma snapshot_newline h rows : ends_with_newline (snapshot h rows) = true.
Proof.
  destruct rows as [|e rows _] using rev_ind; unfold SessionFile.snapshot; [rw app_nil_r; apply ends_with_newline_snoc|].
  rw bind_app. cbn [mbind list_bind]. rw app_nil_r !assoc. apply ends_with_newline_snoc.
Qed.

Lemma jsonl_newline file : jsonl_ends_with_newline file = ends_with_newline file.
Proof. by destruct file. Qed.

Lemma rows_bytes_empty rows : is_empty (rows_bytes rows) = match rows with [] => true | _ => false end.
Proof. destruct rows as [|e rows]; [done|]. cbn [rows_bytes mbind list_bind]. by destruct (encode e). Qed.

(** The header as it is when it has been read. *)
Definition normalized (h : SessionHeader) : SessionHeader := (materialize_branch_fallbacks h).1.

Lemma normalized_idem h : normalized (normalized h) = normalized h.
Proof. destruct h as [? ? ? ? ? [] [] [] [] [] [] ? ?]; done. Qed.

Lemma torn_append path h es new torn :
  header_ok h → header_ok (normalized h) → Forall entry_ok (es ++ new) → well_identified (es ++ new) → links_closed (es ++ new) →
  parents_first (es ++ new) → torn `prefix_of` rows_bytes new →
  ∃ file, append path (snapshot h es ++ torn) (h_id h) new = Ok (file, (normalized h, es ++ new)) ∧
    (torn = [] → file = snapshot h (es ++ new)) ∧
    (file = snapshot h (es ++ new) ∨ file ++ [c_nl] = snapshot h (es ++ new) ∨ file = snapshot (normalized h) (es ++ new)) ∧
    ∀ env, ∃ s orphans, open file env = Ok (s, mkDiagnostics [] orphans) ∧ header s = normalized h ∧ entries s = es ++ new.
Proof.
  intros Hh Hn Hok Hw Hc Hpf Htorn. assert (Forall entry_ok new) as Hnew by (rw Forall_app in Hok; apply Hok).
  assert (∀ g env, header_ok g → normalized g = normalized h →
    ∃ s orphans, open (snapshot g (es ++ new)) env = Ok (s, mkDiagnostics [] orphans) ∧ header s = normalized h ∧ entries s = es ++ new) as Hwhole.
  { intros g env Hg Eg. destruct (open_session_ok g (es ++ new) env Hw) as (s & orphans & E & Eh & Ee). rw open_snapshot // E. exists s, orphans. by rw -Eg. }
  unfold append_jsonl_entries_blocking. rw entries_fit //. cbn [result_bind].
  destruct (torn_open h es new torn Hh Hok Htorn) as (k & bad & Hend & Hbad & E).
  assert (es ++ new = (es ++ take k new) ++ drop k new) as Esplit by by rw -assoc take_drop.
  rw Esplit in Hw. rw Esplit in Hc. rw Esplit in Hpf. destruct (open_session_ok h (es ++ take k new) None) as (s & orphans & Eo & Eh & Ee); [by eapply well_identified_app|].
  fold (normalized h) in Eh. rw E Eo. cbn [result_bind]. rw Eh Ee bool_decide_true //. cbn [negb].
  rw -{2}(take_drop k new). destruct (plan_extends encode es (take k new) (drop k new) (cached_message_count s) (cached_name s) Hw Hc Hpf) as (count & name & ->).
  { rw take_drop. eapply Forall_impl; [exact Hnew|]. intros e He. apply He. }
  cbn [result_bind serialized_entries ordered_entries entries_appended]. change (drop k new ≫= _) with (rows_bytes (drop k new)).
  rw rows_bytes_empty jsonl_newline -Esplit. destruct (drop k new) as [|e rest] eqn:Ed; cbn [negb andb].
  - eexists. split; [done|]. rw app_nil_r in Esplit. rw -Esplit in Hend, E, Hw.
    destruct Hend as [Ef|Ef Hnl|err _].
    + rw Ef. split_and!; [done|by left|intros env; by apply Hwhole].
    + split_and!; [intros ->; by rw app_nil_r snapshot_newline in Hnl|by right; left|]. intros env.
      destruct (open_session_ok h (es ++ new) env) as (s' & orphans' & E' & Eh' & Ee'); [by rw app_nil_r in Hw|].
      rw E E'. by exists s', orphans'.
    + exfalso. apply (f_equal length) in Ed. rw length_drop in Ed. simpl in Ed. specialize (Hbad ltac:(done)). lia.
  - destruct Hend as [Ef|Ef Hnl|err Hnl].
    + rw Ef snapshot_newline. cbn [negb]. rw -Ed -snapshot_app -assoc take_drop. eexists. split; [done|]. split_and!; [done|by left|].
      intros env. by apply Hwhole.
    + rw Hnl. cbn. unfold persist_jsonl_snapshot_locked. rw lines_fit //. cbn. eexists. split; [done|].
      split_and!; [intros ->; by rw app_nil_r snapshot_newline in Hnl|by right; right|]. intros env. apply Hwhole; [done|apply normalized_idem].
    + rw Hnl. cbn. rw Z.eqb_refl. cbn. unfold persist_jsonl_snapshot_locked. rw lines_fit //. cbn. eexists. split; [done|].
      split_and!; [intros ->; by rw app_nil_r snapshot_newline in Hnl|by right; right|]. intros env. apply Hwhole; [done|apply normalized_idem].
Qed.

(** C10: a crash while saving loses nothing.  Whatever part of an append
    reached the file before the process died, the same rows offered again are
    accepted, and the file then reads back, without a line skipped, as the
    header and all the entries. *)
Theorem torn_append_recovers path h es new torn :
  header_ok h → header_ok (normalized h) → Forall entry_ok (es ++ new) → well_identified (es ++ new) → links_closed (es ++ new) →
  parents_first (es ++ new) → torn `prefix_of` rows_bytes new →
  ∃ file, append path (snapshot h es ++ torn) (h_id h) new = Ok (file, (normalized h, es ++ new)) ∧
    ∀ env, ∃ s orphans, open file env = Ok (s, mkDiagnostics [] orphans) ∧ header s = normalized h ∧ entries s = es ++ new.
Proof. intros H1 H2 H3 H4 H5 H6 H7. destruct (torn_append path h es new torn H1 H2 H3 H4 H5 H6 H7) as (file & E & _ & _ & H). by exists file. Qed.
End Disk.

(** Reading in batches and with worker threads is reading line by line.
    A file has one sequence of lines; for any number of threads the entries
    read are those of the lines that parse, in order, and the lines reported
    as skipped are those that cannot be read or parsed, with their numbers. *)
Theorem parsing_is_sequential dec_entry reader :
  ∃ lines, reads reader lines ∧ (∀ lines', reads reader lines' → lines' = lines) ∧
    ∀ num_threads, ∃ skipped,
      read_entries dec_entry num_threads (S (length reader)) reader 2 [] [] = (rows_of dec_entry 2 lines, skipped) ∧
      skipped ≡ₚ unread_of 2 lines ++ bad_of dec_entry 2 lines.
Proof.
  destruct (reads_total reader) as (lines & Hr & Hlen). exists lines. split_and!; [done|intros lines' H'; by eapply reads_functional|].
  intros num_threads. destruct (read_entries_spec dec_entry num_threads (S (length reader)) reader 2 lines [] [] Hr) as (bad & E & Hbad); [lia|]. by exists bad.
Qed.
