(* ===== verification/SessionSave.v ===== *)
(** * Saving and loading sessions

    Rows stored without an identifier get a fresh one when they are loaded;
    saving a session keeps it as it is, except for a leaf that was reset.
    Ends with a concrete session that the theorems about sessions apply to. *)

From S2P Require Import Prelude Text Utf8 Utf8Bytes Json Messages SessionEntries SessionAutosave SessionGraph SessionTree SessionPaths SessionFile SessionDisk.

(** ** Hexadecimal numbers *)

Definition hex_value (s : Str) : Z := fold_left (λ acc c, 16 * acc + (if Z.of_N c <? 58 then Z.of_N c - 48 else Z.of_N c - 87)) s 0.

Lemma show_hex_digits_value fuel n : 0 ≤ n < 16 ^ Z.of_nat fuel → hex_value (show_hex_digits fuel n) = n.
Proof.
  revert n. induction fuel as [|fuel IH]; intros n Hn; [simpl in Hn; unfold hex_value; simpl; lia|]. cbn [show_hex_digits].
  assert (0 ≤ n mod 16 < 16) as Hm by (apply Z.mod_pos_bound; lia).
  set (c := if n mod 16 <? 10 then _ else _).
  assert ((if Z.of_N c <? 58 then Z.of_N c - 48 else Z.of_N c - 87) = n mod 16) as Hc.
  { unfold c. destruct (Z.ltb_spec (n mod 16) 10); rw Z2N.id; try lia; case_match; bool_to_prop; lia. }
  destruct (Z.ltb_spec n 16).
  - unfold hex_value. cbn [fold_left]. rw Hc Z.mod_small; lia.
  - unfold hex_value in *. rw fold_left_app. cbn [fold_left]. rw IH; [rw Hc; pose proof (Z.div_mod n 16); lia|].
    replace (Z.of_nat (S fuel)) with (Z.of_nat fuel + 1) in Hn by lia. rw Z.pow_add_r in Hn; [|lia|lia].
    split; [apply Z.div_pos; lia|apply Z.div_lt_upper_bound; lia].
Qed.

Lemma show_hex_inj m n : 0 ≤ m ≤ u64_max → 0 ≤ n ≤ u64_max → show_hex m = show_hex n → m = n.
Proof.
  intros Hm Hn E. unfold show_hex in E. rw -(show_hex_digits_value 16 m) ?E; [by apply show_hex_digits_value; unfold u64_max in *; lia|unfold u64_max in *; lia].
Qed.

(** ** Identifiers for old rows *)

Section Legacy.
Context (legacy_digest : SessionEntry → nat → Str).

(** The [unreachable!] of [generate_loaded_entry_id] is. *)
Lemma generate_loaded_entry_id_fresh (e : SessionEntry) (existing : gset Str) :
  Z.of_nat (size existing) ≤ u64_max → ∃ id, generate_loaded_entry_id legacy_digest e existing = Some id ∧ id ∉ existing.
Proof.
  intros Hsize. unfold generate_loaded_entry_id. destruct (List.find _ (seq 0 100)) as [i|] eqn:E.
  { apply find_some in E as [_ E]. apply negb_true_iff, bool_decide_eq_false in E. by eexists. }
  set (candidate := λ suffix : nat, legacy_digest e 100 ++ str "-" ++ show_hex (Z.of_nat suffix)).
  destruct (List.find _ (seq 0 (S (size existing)))) as [i|] eqn:E'.
  { apply find_some in E' as [_ E']. apply negb_true_iff, bool_decide_eq_false in E'. by eexists. }
  exfalso. assert (candidate <$> seq 0 (S (size existing)) ⊆+ elements existing) as Hsub.
  { apply NoDup_submseteq.
    - apply NoDup_fmap_2_strong; [|apply NoDup_seq]. intros x y Hx%elem_of_seq Hy%elem_of_seq Hxy.
      apply app_inv_head, app_inv_head, show_hex_inj in Hxy; lia.
    - intros x (i & -> & Hi)%list_elem_of_fmap. apply elem_of_elements.
      pose proof (find_none _ _ E' i (proj1 (list_elem_of_In _ _) Hi)) as Hin. by apply negb_false_iff, bool_decide_eq_true in Hin. }
  apply submseteq_length in Hsub. rw length_fmap length_seq in Hsub. unfold size, set_size in Hsub. simpl in Hsub. lia.
Qed.

(** A row and what it is loaded as. *)
Definition loaded_as (e e' : SessionEntry) : Prop :=
  match base_id e with Some _ => e' = e | None => ∃ id, e' = set_entry_id e id end.

Lemma assign_ids_spec (es : list SessionEntry) (ids : gset Str) :
  Z.of_nat (size ids + length es) ≤ u64_max → entry_id_set es ⊆ ids → NoDup (omap base_id es) →
  ∃ es' ids', assign_ids legacy_digest ids es = Some (es', ids') ∧ Forall2 loaded_as es es' ∧ well_identified es' ∧
    (∀ i id, id_at es' i id → id ∈ entry_id_set es ∨ id ∉ ids) ∧ ids' = entry_id_set es' ∪ ids.
Proof.
  revert ids. induction es as [|e es IH]; intros ids Hsize Hsub Hn; simpl.
  { eexists [], ids. split_and!; [done|constructor|split; constructor|by intros ? ? (? & ? & _)|]. unfold entry_id_set. simpl. set_solver. }
  unfold loaded_as at 1. destruct (base_id e) as [id|] eqn:Eid.
  - simpl in Hn. rw Eid in Hn. apply NoDup_cons in Hn as [Hid Hn].
    assert (entry_id_set (e :: es) = {[id]} ∪ entry_id_set es) as Eset by (unfold entry_id_set; simpl; by rw Eid).
    destruct (IH ids) as (es' & ids' & -> & Hf & Hw & Hnew & ->); [simpl in Hsize; lia|rw Eset in Hsub; set_solver|done|].
    eexists (e :: es'), _. split_and!; [done| | | |].
    + constructor; [|done]. unfold loaded_as. by rw Eid.
    + destruct Hw as [Hall Hnd]. split; [constructor; [by rw Eid|done]|]. rw fmap_cons Eid. constructor; [|done].
      intros (x & Hx & [i Hi]%list_elem_of_lookup)%list_elem_of_fmap. destruct (Hnew i id (ex_intro _ x (conj Hi (eq_sym Hx)))) as [Hin|Hin].
      * apply Hid. unfold entry_id_set in Hin. by apply elem_of_list_to_set in Hin.
      * apply Hin, Hsub. rw Eset. set_solver.
    + intros [|i] id' (x & Hx & Hxid); simpl in Hx.
      * injection Hx as <-. left. rw Eset. set_solver.
      * destruct (Hnew i id' (ex_intro _ x (conj Hx Hxid))); [left; rw Eset; set_solver|by right].
    + assert (entry_id_set (e :: es') = {[id]} ∪ entry_id_set es') as -> by (unfold entry_id_set; simpl; by rw Eid).
      assert (id ∈ ids) by (apply Hsub; rw Eset; set_solver). set_solver.
  - simpl in Hn. rw Eid in Hn. assert (entry_id_set (e :: es) = entry_id_set es) as Eset by (unfold entry_id_set; simpl; by rw Eid).
    rw Eset in Hsub. destruct (generate_loaded_entry_id_fresh e ids) as (id & -> & Hfresh); [simpl in Hsize; lia|]. simpl.
    destruct (IH ({[id]} ∪ ids)) as (es' & ids' & -> & Hf & Hw & Hnew & ->); [|set_solver|done|].
    { rw size_union; [|set_solver]. rw size_singleton. simpl in Hsize. lia. }
    eexists (set_entry_id e id :: es'), _. split_and!; [done| | | |].
    + constructor; [|done]. unfold loaded_as. rw Eid. by exists id.
    + destruct Hw as [Hall Hnd]. split; [constructor; [by eexists|done]|]. rw fmap_cons. constructor; [|done].
      intros (x & Hx & [i Hi]%list_elem_of_lookup)%list_elem_of_fmap. cbn in Hx.
      destruct (Hnew i id (ex_intro _ x (conj Hi (eq_sym Hx)))) as [Hin|Hin]; [set_solver|set_solver].
    + rw Eset. intros [|i] id' (x & Hx & Hxid); simpl in Hx.
      * injection Hx as <-. cbn in Hxid. injection Hxid as <-. by right.
      * destruct (Hnew i id' (ex_intro _ x (conj Hx Hxid))); [by left|right; set_solver].
    + assert (entry_id_set (set_entry_id e id :: es') = {[id]} ∪ entry_id_set es') as -> by (unfold entry_id_set; by simpl). set_solver.
Qed.
End Legacy.

(** ** Saving *)

Section Save.
Context (use_cache : bool).
Context (dec_header : Str → result SessionHeader Str) (dec_entry : Str → result SessionEntry Str).
Context (enc_header : SessionHeader → Str) (enc_entry : SessionEntry → Str).
Context (legacy_digest : SessionEntry → nat → Str) (num_threads : nat).

Abbreviation encode := (encode enc_entry).
Abbreviation snapshot := (snapshot enc_header enc_entry).
Abbreviation open := (open_jsonl_blocking dec_header dec_entry legacy_digest num_threads).
Abbreviation entry_ok := (entry_ok dec_entry enc_entry).
Abbreviation header_ok := (header_ok dec_header enc_header).
Abbreviation save_inner := (save_inner dec_header dec_entry enc_header enc_entry legacy_digest num_threads).

(** What is to be written can be written and read. *)
Record writable (s : Session) : Prop := mk_writable {
  wr_entries : Forall entry_ok (entries s);
  wr_header : header_ok (header s);
  wr_normal : header_ok (normalized (header s));
}.

(** The file holds the entries that were saved, under a header [h] that only
    an unsaved change makes differ from the session's. *)
Record own_file (s : Session) (bytes : ByteStr) (h : SessionHeader) : Prop := mk_own_file {
  of_bytes : bytes = snapshot h (take (Z.to_nat (persisted_entry_count s)) (entries s));
  of_count : 0 ≤ persisted_entry_count s ≤ len (entries s);
  of_header : header_ok h;
  of_normal : header_ok (normalized h);
  of_id : h_id h = h_id (header s);
  of_clean : header_dirty s = false → header s = h ∨ header s = normalized h;
}.

Definition on_disk (s : Session) (file : option ByteStr) : Prop :=
  match file with None => True | Some bytes => ∃ h, own_file s bytes h end.

Lemma closed_links s : tree_ok s → links_closed (entries s).
Proof.
  intros Hok e p [k Hk]%list_elem_of_lookup Hp. destruct (ok_before s Hok k e p Hk Hp) as (k' & _ & Hat). apply elem_of_entry_id_set. by exists k'.
Qed.

Lemma ordered_links s : tree_ok s → parents_first (entries s).
Proof. intros Hok k e p Hk Hp _. by apply (ok_before s Hok k e). Qed.

Lemma normalized_id h : h_id (normalized h) = h_id h.
Proof. by destruct h. Qed.
Lemma normalized_leaf h : h_current_leaf (normalized h) = h_current_leaf h.
Proof. by destruct h. Qed.

(** Before writing, nothing has to be repaired. *)
Lemma prepare_save_spec uuid s :
  session_ok s → writable s →
  ∃ s1, prepare_save legacy_digest uuid s = Ok s1 ∧ tree_ok s1 ∧ header s1 = header s ∧ entries s1 = entries s ∧ leaf_id s1 = leaf_id s ∧
    header_dirty s1 = header_dirty s ∧ persisted_entry_count s1 = persisted_entry_count s ∧ appends_since_checkpoint s1 = appends_since_checkpoint s.
Proof.
  intros [Hok Hh] Hw. destruct (finalize_loaded_spec legacy_digest (entries s) (ok_ids s Hok)) as (fin & E & _).
  pose proof (ho_valid _ _ _ (wr_header s Hw)) as Hv. unfold prepare_save, ensure_entry_ids, rebuild_all_caches. rw E. cbn [mbind option_bind].
  set (s1 := install s (header s) (entries s) fin (leaf_id s) (persisted_entry_count s)). change (header s1) with (header s).
  assert (is_empty (trim (h_id (header s))) = false) as ->.
  { destruct (is_empty (trim (h_id (header s)))) eqn:Ei; [|done]. unfold header_validate in Hv. by repeat case_match. }
  assert (sync_leaf s1 = (header s, false)) as -> by (unfold sync_leaf; by rw decide_True).
  cbn [header set_header]. rw Hv. eexists. split; [done|]. split_and!; try done; [|by rw orb_false_r].
  assert (tree_ok s1) as []; [|by split].
  apply (install_ok legacy_digest); [apply (ok_ids s Hok)|apply (ok_named s Hok)|apply (ok_before s Hok)|apply (ok_size s Hok)|apply (ok_offset s Hok)|done|apply (ok_leaf s Hok)].
Qed.

(** Afterwards, the session is what was written. *)
Lemma accept_spec s h :
  tree_ok s →
  ∃ s', accept_persisted_state legacy_digest s h (entries s) = Some s' ∧ tree_ok s' ∧ header s' = h ∧ entries s' = entries s ∧
    leaf_id s' = or_else (leaf_id s) (last (entries s) ≫= base_id) ∧ persisted_entry_count s' = len (entries s) ∧
    header_dirty s' = header_dirty s.
Proof.
  intros Hok. destruct (finalize_loaded_spec legacy_digest (entries s) (ok_ids s Hok)) as (fin & E & Hidx & _ & Hleaf & _).
  unfold accept_persisted_state. rw E. cbn [mbind option_bind].
  assert (or_else (match leaf_id s with Some id => if is_some_b (fin_entry_index fin !! id) then Some id else None | None => None end) (fin_leaf_id fin)
    = or_else (leaf_id s) (last (entries s) ≫= base_id)) as El.
  { rw Hleaf. destruct (leaf_id s) as [id|] eqn:Eid; [|done]. destruct (ok_leaf s Hok id Eid) as [i Hi]. apply Hidx in Hi. by rw Hi. }
  eexists. split; [reflexivity|]. split_and!; try done.
  apply (install_ok legacy_digest); [apply (ok_ids s Hok)|apply (ok_named s Hok)|apply (ok_before s Hok)|apply (ok_size s Hok)|apply (ok_offset s Hok)|done|].
  change (leaf_id s ≫= _) with (match leaf_id s with Some id => if is_some_b (fin_entry_index fin !! id) then Some id else None | None => None end).
  rw El. intros id. destruct (leaf_id s) as [leaf|] eqn:Eleaf; simpl; [intros [= <-]; by apply (ok_leaf s Hok)|].
  intros (x & Hx & Hxid)%bind_Some. rw last_lookup in Hx. eexists. by exists x.
Qed.
(** A full rewrite writes the session's entries under its header, or under
    that of the file when the header has no unsaved change. *)
Lemma full_rewrite_spec s file :
  tree_ok s → writable s → on_disk s file →
  ∃ h, save_jsonl_full_rewrite_blocking dec_header dec_entry enc_header enc_entry legacy_digest num_threads file (header s) (entries s) (header_dirty s)
      = Ok (snapshot h (entries s), (h, entries s)) ∧
    header_ok h ∧ header_ok (normalized h) ∧ h_id h = h_id (header s) ∧ h_current_leaf h = h_current_leaf (header s).
Proof.
  intros Hok Hw Hd. unfold save_jsonl_full_rewrite_blocking. rw (lines_fit dec_header dec_entry); [|apply Hw|apply Hw]. cbn [result_bind].
  assert (∀ rows, rows `prefix_of` entries s → merge_for_rewrite encode rows (entries s) = Ok (entries s)) as Hmerge.
  { intros rows Hrows. apply merge_for_rewrite_spec; [done|apply (ok_ids s Hok)|by apply closed_links|by apply ordered_links]. }
  assert (∀ h, header_ok h → persist_jsonl_snapshot_locked enc_header enc_entry h (entries s) = Ok (snapshot h (entries s))) as Hpersist.
  { intros h Hh. unfold persist_jsonl_snapshot_locked. by rw (lines_fit dec_header dec_entry); [|done|apply Hw]. }
  destruct file as [bytes|]; cbn [result_bind].
  2:{ exists (header s). unfold prepare_jsonl_full_rewrite. rw Hmerge; [|apply prefix_nil]. cbn [result_bind fst snd]. rw Hpersist; [|apply Hw]. cbn.
      split_and!; try done; apply Hw. }
  destruct Hd as [h [-> _ Hh Hn Hid Hclean]]. set (rows := take _ _). assert (rows `prefix_of` entries s) as Hpre by apply prefix_take.
  assert (Forall entry_ok rows) as Hrows by (apply Forall_take; apply Hw).
  destruct (open_session_ok legacy_digest h rows None) as (s0 & orphans & E & Eh & Ee).
  { destruct Hpre as [rest Er]. apply (well_identified_app rows rest). rw -Er. apply (ok_ids s Hok). }
  rw open_snapshot // E. cbn [result_bind fst snd]. rw Eh Ee. fold (normalized h). unfold prepare_jsonl_full_rewrite.
  rw decide_True; [|by rw normalized_id]. rw Hmerge //. cbn [result_bind fst snd]. exists (if header_dirty s then header s else normalized h).
  rw Hpersist; [|case_match; [apply Hw|done]]. cbn [result_bind]. split; [done|]. destruct (header_dirty s); [split_and!; try done; apply Hw|].
  rw normalized_idem normalized_id normalized_leaf. split_and!; try done. destruct (Hclean eq_refl) as [->| ->]; [done|by rw normalized_leaf].
Qed.

(** An append writes the entries that are not saved yet. *)
Lemma append_saves s bytes h path :
  tree_ok s → writable s → own_file s bytes h → header_dirty s = false →
  append_jsonl_entries_blocking dec_header dec_entry enc_header enc_entry legacy_digest num_threads path bytes (h_id (header s))
      (drop (Z.to_nat (persisted_entry_count s)) (entries s))
    = Ok (snapshot h (entries s), (normalized h, entries s)).
Proof.
  intros Hok Hw [-> _ Hh Hn Hid _] Hclean. set (n := Z.to_nat _).
  destruct (torn_append dec_header dec_entry enc_header enc_entry legacy_digest num_threads path h (take n (entries s)) (drop n (entries s)) [])
    as (file & E & Ef & _); rw ?take_drop; try done; [apply Hw|apply (ok_ids s Hok)|by apply closed_links|by apply ordered_links|apply prefix_nil|].
  rw app_nil_r take_drop Hid (Ef eq_refl) take_drop in E. exact E.
Qed.

(** A saved session: everything is in the file, and the branch is as before,
    or at the last entry if no leaf was selected. *)
Lemma save_spec env uuid path s file :
  session_ok s → writable s → on_disk s file →
  ∃ s' bytes h, save_inner env uuid path s file = Ok (s', Some bytes) ∧ tree_ok s' ∧ entries s' = entries s ∧
    (leaf_id s ≠ None → leaf_id s' = leaf_id s) ∧
    (header_dirty s = true → leaf_id s' = or_else (leaf_id s) (last (entries s) ≫= base_id)) ∧
    own_file s' bytes h ∧ persisted_entry_count s' = len (entries s) ∧ bytes = snapshot h (entries s) ∧
    h_current_leaf h = h_current_leaf (header s).
Proof.
  intros Hok Hw Hd. destruct (prepare_save_spec uuid s Hok Hw) as (s1 & E1 & Hok1 & Eh & Ee & El & Edirty & Ep & Ea).
  assert (writable s1) as Hw1 by (destruct Hw; split; by rw ?Eh ?Ee).
  assert (on_disk s1 file) as Hd1 by (destruct file as [bytes|]; [|done]; destruct Hd as [h []]; exists h; split; by rw ?Eh ?Ee ?Ep ?Edirty).
  assert (or_else (leaf_id s1) (last (entries s1) ≫= base_id) = or_else (leaf_id s) (last (entries s) ≫= base_id)) as Eleaf by by rw El Ee.
  assert (leaf_id s ≠ None → or_else (leaf_id s) (last (entries s) ≫= base_id) = leaf_id s) as Hsome by by destruct (leaf_id s).
  assert (take (Z.to_nat (len (entries s))) (entries s) = entries s) as Etake by (apply take_ge; unfold len; lia).
  unfold SessionFile.save_inner. rw E1. cbn [result_bind]. destruct (should_full_rewrite env s1 _) eqn:Efull.
  - destruct (full_rewrite_spec s1 file Hok1 Hw1 Hd1) as (h & -> & Hh & Hn & Hid & Hleaf). cbn [result_bind fst snd].
    destruct (accept_spec s1 h Hok1) as (s' & -> & Hok' & Eh' & Ee' & El' & Ep' & _).
    eexists _, _, h. split; [done|]. cbn [set_saved header entries leaf_id header_dirty persisted_entry_count]. rw Ee' El' Ep' Eleaf Ee -Eh.
    split_and!; try done; [by destruct Hok'; split|]. split; cbn [set_saved entries header header_dirty persisted_entry_count]; rw ?Ep' ?Ee' ?Ee ?Eh' ?Etake //; [pose proof (len_nonneg (entries s)); lia|by left].
  - unfold should_full_rewrite in Efull. destruct file as [bytes|]; cbn in Efull; [|by repeat case_match]. destruct Hd1 as [h Hown].
    assert (header_dirty s1 = false) as Hclean by by destruct (header_dirty s1), (persisted_entry_count s1 =? 0).
    pose proof (of_clean s1 bytes h Hown Hclean) as Hhead. rw Hclean in Edirty.
    assert (h_current_leaf h = h_current_leaf (header s)) as Hleaf by (rw -Eh; destruct Hhead as [->| ->]; [done|by rw normalized_leaf]).
    destruct (Nat.ltb_spec (Z.to_nat (persisted_entry_count s1)) (length (entries s1))) as [Hlt|Hge].
    + rw (append_saves s1 bytes h path) //. cbn [result_bind fst snd].
      destruct (accept_spec s1 (normalized h) Hok1) as (s' & -> & Hok' & Eh' & Ee' & El' & Ep' & Ed').
      eexists _, _, h. split; [done|]. cbn [set_saved header entries leaf_id header_dirty persisted_entry_count]. rw Ee' El' Ep' Eleaf Ee.
      split_and!; try done; [by destruct Hok'; split|]. destruct Hown as [_ _ Hh Hn Hid _].
      split; cbn [set_saved entries header header_dirty persisted_entry_count]; rw ?Ep' ?Ee' ?Ee ?Eh' ?Etake //;
        [pose proof (len_nonneg (entries s)); lia|by right].
    + pose proof (of_count s1 bytes h Hown) as Hc. unfold len in Hc. assert (persisted_entry_count s1 = len (entries s)) as Ep1 by (unfold len; rw -Ee; lia).
      eexists s1, bytes, h. rw Ee El. split_and!; try done; [by rw -Edirty|]. rw (of_bytes s1 bytes h Hown) Ep1 Ee. by rw Etake.
Qed.

(** C9: a saved file restores the session.  Reading back what a save writes
    of a session gives, without a skipped line or an orphan, the same entries,
    leaf, current path and context, message count and name. *)
Theorem saved_file_restores_the_branch s env :
  reachable use_cache legacy_digest s → writable s →
  ∃ s', open (snapshot (header s) (entries s)) env = Ok (s', mkDiagnostics [] []) ∧
    entries s' = entries s ∧ leaf_id s' = leaf_id s ∧
    entries_for_current_path s' = entries_for_current_path s ∧
    to_messages_for_current_path s' = to_messages_for_current_path s ∧
    cached_message_count s' = cached_message_count s ∧ cached_name s' = cached_name s.
Proof.
  intros Hok%session_reachable_ok Hw. destruct (reopen_spec legacy_digest s env Hok) as (s' & E & H). exists s'. split; [|done].
  rw open_snapshot; [|apply Hw..]. by rw E.
Qed.

(** C21: saving keeps the session.  Whether it rewrites the file or appends
    to it, a save of a session whose file is its own succeeds and leaves every
    entry in the file, the same leaf, current path and context, and again a
    file that is the session's own, provided a leaf is selected. *)
Theorem save_keeps_the_branch env uuid path s file :
  reachable use_cache legacy_digest s → writable s → on_disk s file → leaf_id s ≠ None →
  ∃ s' bytes h, save_inner env uuid path s file = Ok (s', Some bytes) ∧ own_file s' bytes h ∧
    bytes = snapshot h (entries s) ∧ persisted_entry_count s' = len (entries s) ∧
    entries s' = entries s ∧ leaf_id s' = leaf_id s ∧ entries_for_current_path s' = entries_for_current_path s ∧
    to_messages_for_current_path s' = to_messages_for_current_path s.
Proof.
  intros Hok%session_reachable_ok Hw Hd Hl.
  destruct (save_spec env uuid path s file Hok Hw Hd) as (s' & bytes & h & E & Hok' & Ee & El & _ & Hown & Ep & Eb & _). specialize (El Hl).
  pose proof (same_path s s' (proj1 Hok) Hok' Ee El) as Epath. exists s', bytes, h. split_and!; try done. by rw !messages_of_path Epath.
Qed.

(** Saving undoes a reset leaf.  A session whose leaf was moved before the
    first entry, to start over, has an empty context; after the save that the
    move itself causes, the leaf is the last entry again, and the whole branch
    that ends there is back in the context. *)
Theorem save_undoes_a_reset_leaf env uuid path s file :
  session_ok s → writable s → on_disk s file → leaf_id s = None → header_dirty s = true → entries s ≠ [] →
  ∃ s' file', save_inner env uuid path s file = Ok (s', file') ∧
    to_messages_for_current_path s = [] ∧ leaf_id s' = last (entries s) ≫= base_id ∧ entries_for_current_path s' ≠ [].
Proof.
  intros Hok Hw Hd Hl Hdirty Hne. destruct (save_spec env uuid path s file Hok Hw Hd) as (s' & bytes & h & E & Hok' & Ees & _ & Eleaf & _).
  specialize (Eleaf Hdirty). rw Hl in Eleaf. simpl in Eleaf. exists s', (Some bytes). split_and!; [done|by unfold to_messages_for_current_path; rw Hl|done|].
  pose proof (current_path_spec s' Hok') as Hp. rw Eleaf in Hp. destruct (last (entries s)) as [e|] eqn:Ee; [|by apply last_None in Ee].
  simpl in Hp. destruct (ok_ids s (proj1 Hok)) as [Hall _]. rw Forall_forall in Hall. rw last_lookup in Ee.
  destruct (Hall e) as [id Hid]; [by eapply list_elem_of_lookup_2|]. rw Hid in Hp. inversion Hp. by destruct l.
Qed.
End Save.

(** ** Rows with any identifiers *)

Lemma any_ids_size rows : (size (entry_id_set rows) ≤ length rows)%nat.
Proof.
  unfold entry_id_set. induction rows as [|e rows IH]; [by rw size_empty|].
  change (omap base_id (e :: rows)) with (match base_id e with Some y => y :: omap base_id rows | None => omap base_id rows end).
  destruct (base_id e) as [id|]; cbn [length]; [|lia]. cbn [list_to_set foldr]. rw size_union_alt size_singleton.
  assert (size (list_to_set (omap base_id rows) ∖ {[id]} : gset Str) ≤ size (list_to_set (omap base_id rows) : gset Str))%nat by (apply subseteq_size; set_solver). lia.
Qed.

Section AnyRows.
Context (legacy_digest : SessionEntry → nat → Str).

Lemma id_at_cons e es i id : id_at (e :: es) i id ↔ match i with O => base_id e = Some id | S j => id_at es j id end.
Proof. unfold id_at. destruct i; cbn; [|done]. split; [intros (x & [= <-] & Hx); done|]. intros H. by exists e. Qed.

(** A new identifier is one that no other row has. *)
Lemma assign_any (es : list SessionEntry) (ids : gset Str) :
  Z.of_nat (size ids + length es) ≤ u64_max → entry_id_set es ⊆ ids →
  ∃ es' ids', assign_ids legacy_digest ids es = Some (es', ids') ∧ Forall2 loaded_as es es' ∧ Forall (λ e, is_Some (base_id e)) es' ∧
    (∀ i id, id_at es' i id → id_at es i id ∨ (id ∉ ids) ∧ ∀ j, id_at es' j id → j = i).
Proof.
  revert ids. induction es as [|e es IH]; intros ids Hsize Hsub; simpl.
  { eexists [], ids. split_and!; [done|constructor|constructor|by intros ? ? (? & ? & _)]. }
  assert (entry_id_set es ⊆ entry_id_set (e :: es)) as Hes by (unfold entry_id_set; simpl; destruct (base_id e); set_solver).
  destruct (base_id e) as [id|] eqn:Eid.
  - assert (id ∈ entry_id_set (e :: es)) as Hin by (apply elem_of_entry_id_set; exists O; by apply id_at_cons).
    destruct (IH ids) as (es' & ids' & -> & Hf & Hall & Hnew); [simpl in Hsize; lia|set_solver|].
    eexists (e :: es'), _. split_and!; [done|constructor; [by unfold loaded_as; rw Eid|done]|constructor; [by rw Eid|done]|].
    intros [|i] x Hx; [left; by apply id_at_cons in Hx; apply id_at_cons|]. apply id_at_cons in Hx. destruct (Hnew i x Hx) as [Ho|[Hno Hone]]; [left; by apply id_at_cons|right].
    split; [done|]. intros [|j] Hj%id_at_cons; [|by rw (Hone j Hj)]. exfalso. apply Hno, Hsub. congruence.
  - destruct (generate_loaded_entry_id_fresh legacy_digest e ids) as (id & -> & Hfresh); [simpl in Hsize; lia|]. simpl.
    destruct (IH ({[id]} ∪ ids)) as (es' & ids' & -> & Hf & Hall & Hnew); [|set_solver|].
    { rw size_union; [|set_solver]. rw size_singleton. simpl in Hsize. lia. }
    assert (∀ j x, id_at es' j x → id ≠ x) as Hother.
    { intros j x Hj ->. destruct (Hnew j x Hj) as [Ho|[Hno _]]; [|set_solver]. apply Hfresh, Hsub, Hes, elem_of_entry_id_set. by exists j. }
    eexists (set_entry_id e id :: es'), _. split_and!; [done|constructor; [unfold loaded_as; rw Eid; by exists id|done]|constructor; [by exists id|done]|].
    intros [|i] x Hx; apply id_at_cons in Hx; cbn in Hx.
    + injection Hx as <-. right. split; [done|]. intros [|j] Hj%id_at_cons; [done|]. by apply Hother in Hj.
    + destruct (Hnew i x Hx) as [Ho|[Hno Hone]]; [left; by apply id_at_cons|right]. split; [set_solver|].
      intros [|j] Hj%id_at_cons; [|by rw (Hone j Hj)]. cbn in Hj. injection Hj as <-. by apply Hother in Hx.
Qed.

(** The index finds the last row of an identifier. *)
Lemma scan_last ids es : Forall (λ e, is_Some (base_id e)) es →
  let sc := scan_entries ids 0 scan_start es in
  (∀ id i, sc_index sc !! id = Some i ↔ id_at es i id ∧ ∀ j, id_at es j id → (j ≤ i)%nat) ∧ sc_leaf sc = last es ≫= base_id.
Proof.
  induction es as [|e es IH] using rev_ind; intros Hall sc; unfold sc.
  { simpl. split; [|done]. intros id i. rw lookup_empty. split; [done|]. by intros [(? & ? & _) _]. }
  apply Forall_app in Hall as [Hall [[id Hid] _]%Forall_cons]. destruct (IH Hall) as [Hidx _]. rw scan_entries_snoc last_snoc. unfold scan_entry. rw Hid.
  destruct (if sc_branching _ then _ else _) as [parents branching]. simpl. split; [|done]. intros x i. rw id_at_snoc Hid.
  assert (∀ j, id_at es j x → (j < length es)%nat) as Hlt by (intros j (y & Hy & _); by apply lookup_lt_Some in Hy).
  destruct (decide (x = id)) as [->|Hne].
  - rw lookup_insert_eq. split.
    + intros [= <-]. split; [by right|]. intros j [Hj|[-> _]]%id_at_snoc; [apply Hlt in Hj; lia|done].
    + intros [[Hi|[-> _]] Hmax]; [|done]. apply Hlt in Hi. specialize (Hmax (length es)). rw id_at_snoc in Hmax. specialize (Hmax (or_intror (conj eq_refl Hid))). lia.
  - rw lookup_insert_ne // Hidx. split.
    + intros [Hi Hmax]. split; [by left|]. intros j [Hj|[_ Hj]]%id_at_snoc; [by apply Hmax|congruence].
    + intros [[Hi|[_ Hi]] Hmax]; [|congruence]. split; [done|]. intros j Hj. apply Hmax, id_at_snoc. by left.
Qed.

(** C39: old rows get identifiers of their own.  Loading rows always succeeds,
    also when some have no identifier and others share one: rows with an
    identifier are unchanged, each of the others gets one that no other row
    has, and the index leads from an identifier to the last row that has it,
    so to every row when the identifiers of the file are distinct; the last row
    is the leaf.  (The search for an identifier always ends: its last branch,
    an [unreachable!], is never taken.) *)
Theorem loading_gives_every_row_an_id rows :
  2 * len rows ≤ u64_max →
  ∃ rows' fin, finalize_loaded_entries legacy_digest rows = Some (rows', fin) ∧
    Forall2 loaded_as rows rows' ∧ Forall (λ e, is_Some (base_id e)) rows' ∧
    (∀ i e id, rows !! i = Some e → base_id e = None → id_at rows' i id → ∀ j, id_at rows' j id → j = i) ∧
    (∀ id i, fin_entry_index fin !! id = Some i ↔ id_at rows' i id ∧ ∀ j, id_at rows' j id → (j ≤ i)%nat) ∧
    (NoDup (omap base_id rows) → well_identified rows' ∧ ∀ id i, fin_entry_index fin !! id = Some i ↔ id_at rows' i id) ∧
    fin_leaf_id fin = last rows' ≫= base_id.
Proof.
  intros Hlen. destruct (assign_any rows (entry_id_set rows)) as (rows' & ids & E & Hf & Hall & Hnew); [|done|].
  { pose proof (any_ids_size rows). unfold len in Hlen. lia. }
  exists rows'. unfold finalize_loaded_entries. rw E. cbn [mbind option_bind]. fold scan_start. eexists. split; [reflexivity|].
  destruct (scan_last ids rows' Hall) as [Hidx Hleaf]. split_and!; try done.
  - intros i e id He Hid Hat j Hj. destruct (Hnew i id Hat) as [(x & Hx & Hxid)|[_ Hone]]; [congruence|by apply Hone].
  - intros Hn. destruct (assign_ids_spec legacy_digest rows (entry_id_set rows)) as (rows2 & ids2 & E2 & _ & Hw & _); [|done|done|].
    { pose proof (any_ids_size rows). unfold len in Hlen. lia. }
    assert (rows2 = rows') as -> by congruence. split; [done|]. by destruct (scan_spec ids rows' Hw) as [Hi _].
Qed.
End AnyRows.

(** ** A concrete session *)

Definition demo_digest (_ : SessionEntry) (i : nat) : Str := str "digest-" ++ show_hex (Z.of_nat i).
Definition demo_encode (e : SessionEntry) : list N := default [] (base_id e).
Definition demo_draw (c : string) : Draw := mkDraw (λ _, str c) (str c ++ str "-full").
Definition demo_answer (stop : StopReason) : SessionMessage :=
  SmAssistant (mkAssistant [text_block (str "answer")] [] [] [] Usage_default stop None None).
Definition demo_prompt (text : string) : SessionMessage := SmUser (UserText (str text)).

Definition demo0 : Session := in_memory (SessionHeader_new (str "s") (str "t") (str "/")) None.
Definition demo1 : Session := (append_message true demo0 (demo_draw "e1") [] (demo_prompt "one")).1.
Definition demo2 : Session := (append_message true demo1 (demo_draw "e2") [] (demo_answer Stop)).1.
Definition demo3 : Session := (append_message true demo2 (demo_draw "e3") [] (demo_prompt "two")).1.
Definition demo4 : Session := (append_message true demo3 (demo_draw "e4") [] (demo_answer StopError)).1.
Definition demo5 : Session := (navigate_to demo4 (str "e2")).1.
Definition demo6 : Session := (append_message true demo5 (demo_draw "e5") [] (demo_prompt "three")).1.

Ltac draw_ok := split; [split; [intros ?; discriminate|split; [discriminate|apply (bool_decide_unpack _); by vm_compute]]|by vm_compute].

Lemma demo_steps : rtc (session_step true demo_digest) demo0 demo4 ∧ rtc (session_step true demo_digest) demo0 demo6.
Proof.
  assert (rtc (session_step true demo_digest) demo0 demo4) as H4.
  { eapply rtc_l; [apply (St_message _ _ demo0 (demo_draw "e1") [] (demo_prompt "one")); draw_ok|].
    eapply rtc_l; [apply (St_message _ _ demo1 (demo_draw "e2") [] (demo_answer Stop)); draw_ok|].
    eapply rtc_l; [apply (St_message _ _ demo2 (demo_draw "e3") [] (demo_prompt "two")); draw_ok|].
    eapply rtc_l; [apply (St_message _ _ demo3 (demo_draw "e4") [] (demo_answer StopError)); draw_ok|]. apply rtc_refl. }
  split; [done|]. apply (rtc_r demo0 demo5 demo6).
  - apply (rtc_r demo0 demo4 demo5); [exact H4|]. unfold demo5. apply St_navigate.
  - unfold demo6. apply St_message. draw_ok.
Qed.

Lemma demo4_reachable : reachable true demo_digest demo4.
Proof. eexists _, _. split; [|apply demo_steps]. done. Qed.
Lemma demo6_reachable : reachable true demo_digest demo6.
Proof. eexists _, _. split; [|apply demo_steps]. done. Qed.

Lemma append_extends_the_path_witness :
  length (entries_for_current_path (append_entry true demo6 (demo_draw "e6") [] (ESessionInfo None) MutMetadata).1) = 4%nat.
Proof.
  assert (can_append demo6 (demo_draw "e6")) as Hc by draw_ok.
  destruct (append_extends_the_path true demo_digest demo6 (demo_draw "e6") [] (ESessionInfo None) MutMetadata demo6_reachable Hc) as (_ & E & _).
  rw E. by vm_compute.
Defined.

Lemma reverts_are_exact_witness :
  (∃ dropped, entries_for_current_path demo4 = entries_for_current_path (revert_incomplete_response demo4).1 ++ dropped) ∧
  omap base_id (entries_for_current_path (revert_last_user_message demo4).1) = [str "e1"; str "e2"].
Proof.
  destruct (reverts_are_exact true demo_digest demo4 demo4_reachable) as [(dropped & E & _) _].
  split; [by exists dropped|by vm_compute].
Defined.

Lemma fork_takes_the_path_witness :
  ∃ plan, plan_fork_from_user_message demo4 (str "e3") = Ok plan ∧ omap base_id (fork_entries plan) = [str "e1"; str "e2"].
Proof.
  destruct (get_entry demo4 (str "e3")) as [e|] eqn:E; [|by vm_compute in E].
  destruct (fork_takes_the_path true demo_digest demo4 (str "e3") e (UserText (str "two")) demo4 demo4_reachable demo4_reachable E)
    as (plan & s' & Hp & _); [vm_compute in E; by injection E as <-|].
  exists plan. split; [exact Hp|]. vm_compute in Hp. by injection Hp as <-.
Defined.

(** A codec for the entries and the header of this session. *)
Definition demo_enc (e : SessionEntry) : Str := str "{" ++ default [] (base_id e) ++ str "}".
Definition demo_dec (text : Str) : result SessionEntry Str :=
  match List.find (λ e, bool_decide (text = demo_enc e) || bool_decide (text = demo_enc e ++ [c_nl])) (entries demo6) with
  | Some e => Ok e
  | None => Err (str "not an entry")
  end.
Definition demo_enc_header (_ : SessionHeader) : Str := str "{h}".
Definition demo_dec_header (h : SessionHeader) (text : Str) : result SessionHeader Str :=
  if decide (text = str "{h}" ++ [c_nl]) then Ok h else Err (str "not a header").

Lemma demo_header_ok h : header_validate h = Ok tt → header_ok (demo_dec_header h) demo_enc_header h.
Proof.
  intros Hv. split; [done| | | |done|done].
  - repeat constructor; vm_compute; auto.
  - apply (bool_decide_unpack _). by vm_compute.
  - by vm_compute.
Qed.

Ltac demo_entry :=
  split; [done|repeat constructor; vm_compute; auto|apply (bool_decide_unpack _); by vm_compute|by vm_compute|by vm_compute|by vm_compute|
    let E := fresh in
    intros p q E ?; vm_compute in E; destruct p as [|? [|? [|? [|? [|? p]]]]]; simplify_eq/=; eexists; by vm_compute].

Lemma demo_entries_ok : Forall (entry_ok demo_dec demo_enc) (entries demo6).
Proof.
  let es := eval vm_compute in (entries demo6) in replace (entries demo6) with es by (by vm_compute).
  do 5 (apply Forall_cons_2; [demo_entry|]). constructor.
Qed.

Lemma demo4_writable : writable (demo_dec_header (header demo4)) demo_dec demo_enc_header demo_enc demo4.
Proof.
  split; [|by apply demo_header_ok|by apply demo_header_ok].
  replace (entries demo4) with (take 4 (entries demo6)) by (by vm_compute). apply Forall_take, demo_entries_ok.
Qed.

Abbreviation demo_open h := (open_jsonl_blocking (demo_dec_header h) demo_dec demo_digest 4).

Lemma saved_file_restores_the_branch_witness :
  ∃ s', demo_open (header demo4) (snapshot demo_enc_header demo_enc (header demo4) (entries demo4)) None = Ok (s', mkDiagnostics [] []) ∧ leaf_id s' = Some (str "e4").
Proof.
  destruct (saved_file_restores_the_branch true (demo_dec_header (header demo4)) demo_dec demo_enc_header demo_enc demo_digest 4 demo4 None
    demo4_reachable demo4_writable) as (s' & E & _ & El & _).
  exists s'. split; [exact E|]. rw El. by vm_compute.
Defined.

Lemma save_keeps_the_branch_witness :
  ∃ s' bytes, save_inner (demo_dec_header (header demo4)) demo_dec demo_enc_header demo_enc demo_digest 4 None [] [] demo4 None = Ok (s', Some bytes) ∧
    leaf_id s' = Some (str "e4").
Proof.
  destruct (save_keeps_the_branch true (demo_dec_header (header demo4)) demo_dec demo_enc_header demo_enc demo_digest 4 None [] [] demo4 None
    demo4_reachable demo4_writable) as (s' & bytes & h & E & _ & _ & _ & _ & El & _); [exact I|vm_compute; discriminate|].
  exists s', bytes. split; [exact E|]. rw El. by vm_compute.
Defined.

Lemma torn_append_recovers_witness :
  ∃ file, append_jsonl_entries_blocking (demo_dec_header (header demo4)) demo_dec demo_enc_header demo_enc demo_digest 4 []
      (snapshot demo_enc_header demo_enc (header demo4) (take 2 (entries demo4)) ++ str "{e") (str "s") (drop 2 (entries demo4))
    = Ok (file, (header demo4, entries demo4)).
Proof.
  pose proof (session_reachable_ok true demo_digest demo4 demo4_reachable) as [Hok _].
  destruct (torn_append_recovers (demo_dec_header (header demo4)) demo_dec demo_enc_header demo_enc demo_digest 4 []
    (header demo4) (take 2 (entries demo4)) (drop 2 (entries demo4)) (str "{e")) as (file & E & _).
  1-2: exact (demo_header_ok (header demo4) eq_refl).
  - rw take_drop. exact (wr_entries _ _ _ _ _ demo4_writable).
  - rw take_drop. exact (ok_ids _ Hok).
  - rw take_drop. exact (closed_links _ Hok).
  - rw take_drop. exact (ordered_links _ Hok).
  - exists (drop 2 (rows_bytes demo_enc (drop 2 (entries demo4)))). by vm_compute.
  - exists file. rw take_drop in E. exact E.
Defined.

Definition demo_rows : list SessionEntry :=
  [mkEntry (mkBase None None []) (ESessionInfo None); mkEntry (mkBase (Some (str "a")) None []) (ESessionInfo None)].

Lemma loading_gives_every_row_an_id_witness :
  ∃ rows' fin, finalize_loaded_entries demo_digest demo_rows = Some (rows', fin) ∧ well_identified rows'.
Proof.
  assert (2 * len demo_rows ≤ u64_max) as Hl by done.
  destruct (loading_gives_every_row_an_id demo_digest demo_rows Hl) as (rows' & fin & E & _ & _ & _ & _ & Hw & _).
  exists rows', fin. split; [exact E|]. apply Hw. apply NoDup_singleton.
Defined.

(** For the merges of [SessionGraph.v]. *)
Lemma rewrite_keeps_every_entry_witness :
  merge_for_rewrite demo_encode (take 2 (entries demo4)) (entries demo4) = Ok (entries demo4).
Proof.
  pose proof (session_reachable_ok true demo_digest demo4 demo4_reachable) as [Hok _].
  apply (rewrite_keeps_every_entry demo_encode).
  - apply prefix_take.
  - exact (ok_ids _ Hok).
  - intros e p [k Hk]%list_elem_of_lookup Hp. destruct (ok_before _ Hok k e p Hk Hp) as (k' & _ & Hat). apply elem_of_entry_id_set. by exists k'.
  - intros k e p Hk Hp _. exact (ok_before _ Hok k e p Hk Hp).
Defined.

Lemma append_adds_exactly_the_new_witness :
  ∃ plan, plan_jsonl_incremental_append demo_encode (take 2 (entries demo4)) 2 None (drop 1 (entries demo4)) = Ok plan ∧
    length (entries_appended plan) = 2%nat ∧ well_identified (take 2 (entries demo4) ++ entries_appended plan).
Proof.
  destruct (plan_jsonl_incremental_append demo_encode (take 2 (entries demo4)) 2 None (drop 1 (entries demo4))) as [plan|] eqn:E; [|by vm_compute in E].
  destruct (append_adds_exactly_the_new demo_encode _ _ _ _ _ E) as (_ & _ & _ & Hw & _).
  exists plan. split; [reflexivity|]. split; [|exact Hw]. vm_compute in E. by injection E as <-.
Defined.
