(* ===== verification/SessionTrails.v ===== *)
(** * The current path of any session

    [SessionPaths.v] is about sessions whose parents come before their
    children, as the operations of a session make them.  A file may hold rows
    whose parents are missing or form a cycle: such sessions, forks of them and
    sessions merged with a file keep their caches right as well, and the
    current path is still what the parent links say. *)

From S2P Require Import Prelude Text Utf8 Utf8Bytes Json Messages SessionEntries SessionAutosave SessionGraph SessionTree SessionPaths SessionFile SessionDisk SessionSave.

(** ** Following links *)

(** The entries found by following the parent links from an identifier, oldest
    first: up to a root, to an entry met before, or to an identifier that no
    entry has, which is the last argument. *)
Inductive trail (es : list SessionEntry) : gset Str → option Str → list SessionEntry → option Str → Prop :=
| trail_root seen : trail es seen None [] None
| trail_seen seen id : id ∈ seen → trail es seen (Some id) [] None
| trail_missing seen id : id ∉ seen → (∀ i, ¬ id_at es i id) → trail es seen (Some id) [] (Some id)
| trail_step seen id i e l missing :
    id ∉ seen → es !! i = Some e → base_id e = Some id → trail es ({[id]} ∪ seen) (parent_id e) l missing →
    trail es seen (Some id) (l ++ [e]) missing.

(** The invariant of every session: the caches describe the entries. *)
Record caches_ok (s : Session) : Prop := {
  co_ids : well_identified (entries s);
  co_index : ∀ id i, entry_index s !! id = Some i ↔ id_at (entries s) i id;
  co_set : entry_ids s = entry_id_set (entries s);
  co_linear : is_linear s = true → chain (entries s) ∧ leaf_id s = last (entries s) ≫= base_id;
}.

Section Trails.
Context (es : list SessionEntry) (Hw : well_identified es).

Lemma trail_unique seen o l k m n : trail es seen o l m → trail es seen o k n → l = k ∧ m = n.
Proof.
  intros H. revert k n. induction H as [seen|seen id Hin|seen id Hout Hno|seen id i e l m Hout Hi Hid _ IH]; intros k n Hk.
  - by inversion Hk.
  - by inversion Hk.
  - inversion Hk as [| | |? ? j x]; subst; try done. exfalso. apply (Hno j). by exists x.
  - inversion Hk as [|? ? Hin|? ? _ Hno|? ? j x k' n' _ Hj Hx Hk']; subst; [done|exfalso; apply (Hno i); by exists e|].
    assert (i = j) as <- by (eapply (id_at_inj es i j id (proj2 Hw)); [by exists e|by exists x]). assert (e = x) as <- by congruence.
    by destruct (IH _ _ Hk') as [-> ->].
Qed.

(** A trail has no identifier twice. *)
Lemma trail_ids seen o l missing : trail es seen o l missing →
  Forall (λ e, ∃ id, base_id e = Some id ∧ id ∉ seen) l ∧ NoDup (base_id <$> l).
Proof.
  clear Hw. induction 1 as [seen|seen id Hin|seen id Hout Hno|seen id i e l m Hout Hi Hid _ [IH1 IH2]]; try (split; constructor). split.
  - apply Forall_app. split; [|apply Forall_singleton; by exists id]. eapply Forall_impl; [exact IH1|].
    intros x (y & Hy & Hn). exists y. split; [done|]. set_solver.
  - rw fmap_app. apply NoDup_app. split_and!; [done| |apply NoDup_singleton]. intros x (y & -> & Hy)%list_elem_of_fmap Hx%list_elem_of_singleton.
    rewrite ->Forall_forall in IH1. destruct (IH1 y Hy) as (z & Hz & Hn). rewrite ->Hx, Hid in Hz. injection Hz as <-. set_solver.
Qed.

(** A path without missing parents and cycles is a trail. *)
Lemma path_prefix o l id : path_to es o l → Some id ∈ base_id <$> l → ∃ k, path_to es (Some id) k ∧ (length k ≤ length l)%nat.
Proof.
  induction 1 as [|x i e l Hi Hid Hl IH]; intros Hin; [by apply not_elem_of_nil in Hin|]. rw fmap_app in Hin. rw length_app.
  apply elem_of_app in Hin as [Hin|Hin]; [destruct (IH Hin) as (k & Hk & Hlen); exists k; split; [done|lia]|].
  apply list_elem_of_singleton in Hin. exists (l ++ [e]). split; [|rw length_app; lia]. rewrite ->Hid in Hin. injection Hin as ->. by eapply path_step.
Qed.

Lemma path_trail o l seen : path_to es o l → (∀ id, Some id ∈ base_id <$> l → id ∉ seen) → trail es seen o l None.
Proof.
  intros H. revert seen. induction H as [|id i e l Hi Hid Hl IH]; intros seen Hs; [constructor|].
  apply (trail_step es seen id i e); [apply Hs; rw fmap_app -Hid; set_solver|done|done|]. apply IH. intros x Hx.
  apply not_elem_of_union. split; [|apply Hs; rw fmap_app; set_solver]. intros ->%elem_of_singleton.
  destruct (path_prefix _ _ id Hl Hx) as (k & Hk & Hlen). pose proof (path_to_unique es Hw _ _ _ Hk (path_step es id i e l Hi Hid Hl)) as ->.
  rewrite ->length_app in Hlen. cbn in Hlen. lia.
Qed.

Lemma chain_trail i id : chain es → id_at es i id → trail es ∅ (Some id) (take (S i) es) None.
Proof. intros Hc Hi. apply path_trail; [by apply chain_path|]. intros; apply not_elem_of_empty. Qed.
End Trails.

Section Walk.
Context (s : Session) (Hok : caches_ok s).

Lemma walk_trail fuel seen o : (size (dom (entry_index s) ∖ seen : gset Str) < fuel)%nat →
  ∃ missing, let l := omap (λ idx, entries s !! idx) (reverse (walk s fuel seen o)) in
    trail (entries s) seen o l missing ∧ reverse (walk_ids s (S fuel) seen o) = option_list missing ++ omap base_id l.
Proof.
  revert seen o. induction fuel as [|fuel IH]; intros seen o Hf; [lia|]. destruct o as [id|]; [|exists None; split; [constructor|done]].
  cbn [walk]. change (walk_ids s (S (S fuel)) seen (Some id)) with (if decide (id ∈ seen) then [] else id :: walk_ids s (S fuel) ({[id]} ∪ seen) (get_entry s id ≫= parent_id)).
  case_decide as Hin; [exists None; split; [by constructor|done]|]. unfold get_entry. destruct (entry_index s !! id) as [i|] eqn:Ei.
  - pose proof (proj1 (co_index s Hok id i) Ei) as (e & He & Hid). cbn [mbind option_bind]. rw He. cbn [option_bind mbind].
    assert (size (dom (entry_index s) ∖ ({[id]} ∪ seen) : gset Str) < size (dom (entry_index s) ∖ seen : gset Str))%nat as Hlt.
    { apply subset_size. assert (id ∈ dom (entry_index s)) by (apply elem_of_dom; by exists i). split; [set_solver|]. intros Hs. assert (id ∈ dom (entry_index s) ∖ seen) as Hx by set_solver. apply Hs in Hx. set_solver. }
    destruct (IH ({[id]} ∪ seen) (parent_id e)) as (missing & Ht & Hids); [lia|]. exists missing. cbn zeta in *.
    rw !reverse_cons omap_app Hids. cbn [omap list_omap]. rw He. split; [by apply (trail_step _ seen id i e)|]. by rw omap_app /= Hid app_assoc.
  - cbn [mbind option_bind]. exists (Some id). split; [|done]. apply trail_missing; [done|]. intros i Hi. apply (co_index s Hok) in Hi. congruence.
Qed.

Lemma walk_enough : (size (dom (entry_index s) ∖ (∅ : gset Str) : gset Str) < walk_fuel s)%nat.
Proof. unfold walk_fuel. rw -size_dom. assert (dom (entry_index s) ∖ ∅ = dom (entry_index s)) as -> by set_solver. lia. Qed.

Lemma current_trail : ∃ missing, trail (entries s) ∅ (leaf_id s) (entries_for_current_path s) missing.
Proof.
  unfold entries_for_current_path. destruct (leaf_id s) as [id|] eqn:El; [|exists None; constructor]. destruct (is_linear s) eqn:Elin.
  - destruct (co_linear s Hok Elin) as [Hc Hlast]. rewrite ->El, last_lookup in Hlast. symmetry in Hlast. apply bind_Some in Hlast as (e & He & Hid).
    exists None. pose proof (chain_trail (entries s) (co_ids s Hok) _ id Hc (ex_intro _ e (conj He Hid))) as Ht. rewrite ->take_ge in Ht; [done|].
    apply lookup_lt_Some in He. lia.
  - destruct (walk_trail (walk_fuel s) ∅ (Some id) walk_enough) as (missing & Ht & _). by exists missing.
Qed.

Lemma entry_trail i id : id_at (entries s) i id → ∃ l missing, trail (entries s) ∅ (Some id) l missing ∧ get_path_to_entry s id = option_list missing ++ omap base_id l.
Proof.
  intros Hi. unfold get_path_to_entry. destruct (walk_trail (walk_fuel s) ∅ (Some id) walk_enough) as (missing & Ht & Hids). cbn zeta in *.
  destruct (is_linear s) eqn:Elin; [|eexists _, missing; by split]. rw (proj2 (co_index s Hok id i) Hi). destruct (co_linear s Hok Elin) as [Hc _].
  eexists _, None. split; [by apply (chain_trail (entries s) (co_ids s Hok) i)|done].
Qed.
End Walk.

(** ** Loading *)

Section Loading.
Context (legacy_digest : SessionEntry → nat → Str).

Lemma entry_id_set_cons e rows : entry_id_set (e :: rows) = match base_id e with Some id => {[id]} | None => ∅ end ∪ entry_id_set rows.
Proof. unfold entry_id_set. cbn. destruct (base_id e); cbn; set_solver. Qed.

Lemma loaded_ids rows rows' : Forall2 loaded_as rows rows' → entry_id_set rows ⊆ entry_id_set rows'.
Proof.
  induction 1 as [|e e' rows rows' He _ IH]; [done|]. rw !entry_id_set_cons. unfold loaded_as in He.
  destruct (base_id e) as [id|] eqn:Eid; [subst e'; rw Eid|]; set_solver.
Qed.

Lemma finalize_rows_spec rows : NoDup (omap base_id rows) → 2 * len rows ≤ u64_max →
  ∃ rows' fin, finalize_loaded_entries legacy_digest rows = Some (rows', fin) ∧ Forall2 loaded_as rows rows' ∧ well_identified rows' ∧
    (∀ id i, fin_entry_index fin !! id = Some i ↔ id_at rows' i id) ∧ fin_entry_ids fin = entry_id_set rows' ∧
    fin_leaf_id fin = last rows' ≫= base_id ∧ (fin_is_linear fin = true → chain rows').
Proof.
  intros Hn Hlen. destruct (assign_ids_spec legacy_digest rows (entry_id_set rows)) as (rows' & ids & E & Hf & Hw & _ & Eids); [|done|done|].
  { pose proof (any_ids_size rows). unfold len in Hlen. lia. }
  exists rows'. unfold finalize_loaded_entries. rw E. cbn [mbind option_bind]. fold scan_start. eexists. split; [reflexivity|].
  destruct (scan_spec ids rows' Hw) as (Hidx & Hleaf & _ & _ & _ & Hlin & _). simpl. split_and!; try done; [|intros H; bool_to_prop; by apply Hlin].
  cbn [fin_entry_ids]. rw Eids. pose proof (loaded_ids _ _ Hf). set_solver.
Qed.

Lemma identified_nodup es : well_identified es → NoDup (omap base_id es).
Proof.
  intros [Hall Hn]. induction Hall as [|e es [id Hid] _ IH]; [constructor|]. rewrite ->fmap_cons in Hn. apply NoDup_cons in Hn as [He Hn]. cbn [omap list_omap]. rw Hid.
  constructor; [|by apply IH]. intros (x & Hx & Hxid)%list_elem_of_omap. apply He. rw Hid -Hxid. by apply list_elem_of_fmap_2.
Qed.

Lemma install_caches s h rows fin leaf persisted : well_identified rows →
  (∀ id i, fin_entry_index fin !! id = Some i ↔ id_at rows i id) → fin_entry_ids fin = entry_id_set rows →
  fin_leaf_id fin = last rows ≫= base_id → (fin_is_linear fin = true → chain rows) → caches_ok (install s h rows fin leaf persisted).
Proof.
  intros Hw Hidx Hids Hleaf Hlin. split; cbn; try done. intros [Hl Hb%bool_decide_eq_true]%andb_true_iff. split; [by apply Hlin|congruence].
Qed.

(** Every way of taking over rows. *)
Lemma open_caches h rows env s orphans : NoDup (omap base_id rows) → 2 * len rows ≤ u64_max →
  open_session legacy_digest h rows env = Some (s, orphans) → caches_ok s.
Proof.
  intros Hn Hlen Ho. unfold open_session in Ho. destruct (materialize_branch_fallbacks h) as [h' dirty].
  destruct (finalize_rows_spec rows Hn Hlen) as (rows' & fin & E & _ & Hw & Hidx & Hids & Hleaf & Hlin). rewrite ->E in Ho. cbn in Ho. injection Ho as <- _.
  split; cbn; try done. intros [Hl Hb%bool_decide_eq_true]%andb_true_iff. split; [by apply Hlin|congruence].
Qed.

Lemma accept_caches s h rows s' : NoDup (omap base_id rows) → 2 * len rows ≤ u64_max →
  accept_persisted_state legacy_digest s h rows = Some s' → caches_ok s'.
Proof.
  intros Hn Hlen Ha. unfold accept_persisted_state in Ha. destruct (finalize_rows_spec rows Hn Hlen) as (rows' & fin & E & _ & Hw & Hidx & Hids & Hleaf & Hlin).
  rewrite ->E in Ha. cbn in Ha. injection Ha as <-. by apply install_caches.
Qed.

Lemma same_rows es : well_identified es → ∃ fin, finalize_loaded_entries legacy_digest es = Some (es, fin) ∧
  ∀ s h leaf persisted, caches_ok (install s h es fin leaf persisted).
Proof.
  intros Hw. destruct (finalize_loaded_spec legacy_digest es Hw) as (fin & E & Hidx & Hids & Hleaf & _ & _ & Hlin & _). exists fin. split; [done|].
  intros s h leaf persisted. by apply install_caches.
Qed.
End Loading.

(** ** Operations *)

Lemma caches_header s h d q : caches_ok s → caches_ok (set_queue (set_header s h d) q).
Proof. by intros []. Qed.

Lemma caches_nav s leaf linear : caches_ok s → (linear = true → chain (entries s) ∧ leaf = last (entries s) ≫= base_id) →
  caches_ok (sync_navigation_state_to_header (set_nav s leaf linear)).
Proof. intros [] Hl. destruct (sync_shape (set_nav s leaf linear)) as (h & d & q & -> & _). by apply caches_header. Qed.

Lemma caches_revert s r : caches_ok s → caches_ok (apply_revert s r).1.
Proof. intros Hok. destruct r as [leaf []]; [|done]. by apply caches_nav. Qed.

Section Append.
Context (use_cache : bool) (legacy_digest : SessionEntry → nat → Str).

Lemma caches_append s d t kind m : caches_ok s → can_append s d → caches_ok (append_entry use_cache s d t kind m).1.
Proof.
  intros Hok [Hd _]. destruct (append_shape use_cache s d t kind m) as (h & dirty & q & -> & _). apply caches_header.
  assert ((next_entry_id use_cache s d ∉ entry_id_set (entries s)) ∧ next_entry_id use_cache s d ≠ []) as [Hnew _].
  { unfold next_entry_id. rw (co_set s Hok). replace (if use_cache then _ else _) with (entry_id_set (entries s)) by by destruct use_cache. by apply generate_entry_id_fresh. }
  set (id := next_entry_id use_cache s d) in *. set (e := new_entry use_cache s d t kind). assert (base_id e = Some id) as Hid by done.
  assert (∀ i, ¬ id_at (entries s) i id) as Hfree by (intros i Hi; apply Hnew, elem_of_entry_id_set; by exists i).
  split; cbn [entries entry_index entry_ids leaf_id is_linear push_entry set_stats].
  - by apply (well_identified_snoc _ e id (co_ids s Hok)).
  - intros id' i. rw id_at_snoc Hid. destruct (decide (id' = id)) as [->|Hne].
    + rw lookup_insert_eq. split; [intros [= <-]; by right|]. intros [Hi|[-> _]]; [by destruct (Hfree i)|done].
    + rw lookup_insert_ne // (co_index s Hok). split; [by left|]. intros [?|[_ [=]]]; done.
  - rw (entry_id_set_snoc _ e id) // (co_set s Hok) //.
  - intros Hl. destruct (co_linear s Hok Hl) as [Hc Hleaf]. rw last_snoc. split; [|done]. apply chain_snoc; [done|]. cbn. rw Hleaf. by destruct (entries s).
Qed.

Lemma caches_step s s' : caches_ok s → session_step use_cache legacy_digest s s' → caches_ok s'.
Proof.
  intros Hok Hstep. destruct Hstep; try (by apply caches_append).
  - unfold append_session_info. destruct n; [|by apply caches_append]. apply caches_append; [by destruct Hok|done].
  - unfold add_label. destruct (get_entry s i); [|done]. pose proof (caches_append s d t (ELabel i l) MutLabel Hok H) as Hl. by destruct (append_entry _ _ _ _ _ _).
  - unfold navigate_to. destruct (entry_index s !! id); [|done]. apply caches_nav; [done|].
    intros [Hl ->%bool_decide_eq_true]%andb_true_iff. split; [|done]. by destruct (co_linear s Hok Hl).
  - by apply caches_nav.
  - by apply caches_revert.
  - by apply caches_revert.
  - unfold set_model_header. destruct (is_some_b p || _ || _); by destruct Hok.
  - by destruct Hok.
  - unfold ensure_entry_ids, rebuild_all_caches in H. destruct (same_rows legacy_digest (entries s) (co_ids s Hok)) as (fin & E & Hi). rewrite ->E in H. cbn in H. injection H as <-. apply Hi.
  - unfold open_session in H. destruct (materialize_branch_fallbacks (header s)) as [h dirty].
    destruct (same_rows legacy_digest (entries s) (co_ids s Hok)) as (fin & E & Hi). rewrite ->E in H. cbn in H. injection H as <- _.
    destruct (Hi s h (resolve_loaded_leaf_id h (fin_leaf_id fin) (fin_entry_index fin)) 0). by split.
Qed.

(** ** Forks *)

Lemma walk_ids_nodup s fuel seen o : NoDup (walk_ids s fuel seen o) ∧ ∀ id, id ∈ walk_ids s fuel seen o → id ∉ seen.
Proof.
  revert seen o. induction fuel as [|fuel IH]; intros seen o; [split; [constructor|set_solver]|]. destruct o as [id|]; [|split; [constructor|set_solver]].
  cbn [walk_ids]. case_decide; [split; [constructor|set_solver]|]. destruct (IH ({[id]} ∪ seen) (get_entry s id ≫= parent_id)) as [Hn Hs]. split.
  - constructor; [|done]. intros Hin%Hs. set_solver.
  - intros x [->|Hx]%elem_of_cons; [done|]. apply Hs in Hx. set_solver.
Qed.

Lemma collected_ids s ids rows : caches_ok s →
  collect_results (λ id, match get_entry s id with Some e => Ok e | None => Err (missing_fork_entry id) end) ids = Ok rows → base_id <$> rows = Some <$> ids.
Proof.
  intros Hok. revert rows. induction ids as [|id ids IH]; intros rows H; cbn [collect_results] in H; [by injection H as <-|].
  destruct (get_entry s id) as [e|] eqn:E; [|done]. cbn [result_bind] in H. destruct (collect_results _ ids) as [rest|]; [|done]. injection H as <-.
  unfold get_entry in E. apply bind_Some in E as (i & Hi & He). apply (co_index s Hok) in Hi as (x & Hx & Hxid). cbn. f_equal; [congruence|by apply IH].
Qed.

Lemma fork_rows s id plan : caches_ok s → plan_fork_from_user_message s id = Ok plan → well_identified (fork_entries plan).
Proof.
  intros Hok Hp. unfold plan_fork_from_user_message in Hp. destruct (get_entry s id) as [e|]; [|done].
  destruct (entry_kind e) as [[content| | | | | |]| | | | | | |]; try done. destruct (parent_id e) as [p|]; cbn [result_bind] in Hp; [|injection Hp as <-; split; constructor].
  destruct (is_linear s) eqn:Elin.
  - destruct (entry_index s !! p) as [i|]; [|done]. injection Hp as <-. cbn [fork_entries]. destruct (prefix_take (entries s) (S i)) as [rest Er].
    apply (well_identified_app _ rest). rw -Er. apply (co_ids s Hok).
  - destruct (collect_results _ (get_path_to_entry s p)) as [rows|] eqn:E; [|done]. cbn [result_bind] in Hp. injection Hp as <-. cbn [fork_entries]. pose proof (collected_ids s _ rows Hok E) as Ei.
    split; [|rw Ei; apply NoDup_fmap_2; [apply _|]; unfold get_path_to_entry; rw Elin; rw reverse_Permutation; apply walk_ids_nodup].
    apply Forall_forall. intros x Hx. assert (base_id x ∈ base_id <$> rows) as Hin by by apply list_elem_of_fmap_2. rewrite ->Ei in Hin. apply list_elem_of_fmap in Hin as (y & -> & _). done.
Qed.

Lemma fork_caches s0 plan s' : well_identified (fork_entries plan) → init_from_fork_plan legacy_digest s0 plan = Some s' → caches_ok s'.
Proof.
  intros Hw H. unfold init_from_fork_plan in H. destruct (same_rows legacy_digest (fork_entries plan) Hw) as (fin & E & Hi). rewrite ->E in H. cbn in H. injection H as <-.
  match goal with |- caches_ok (sync_navigation_state_to_header ?s1) => destruct (sync_shape s1) as (h & d & q & -> & _) end. apply caches_header, Hi.
Qed.

(** ** Any session *)

(** A session is new, opened from a file, forked from another, merged with what
    the file holds, or left by an operation.  The rows of files have distinct
    identifiers, where they have one.  (In a session whose links form a cycle
    the loop of a revert need not end; here it stops after as many steps as
    there are entries.) *)
Inductive session_state : Session → Prop :=
| Ss_new h env : session_state (in_memory h env)
| Ss_open h rows env s orphans : NoDup (omap base_id rows) → 2 * len rows ≤ u64_max →
    open_session legacy_digest h rows env = Some (s, orphans) → session_state s
| Ss_fork s0 s id plan s' : session_state s0 → session_state s → plan_fork_from_user_message s id = Ok plan →
    init_from_fork_plan legacy_digest s0 plan = Some s' → session_state s'
| Ss_accept s h rows s' : session_state s → NoDup (omap base_id rows) → 2 * len rows ≤ u64_max →
    accept_persisted_state legacy_digest s h rows = Some s' → session_state s'
| Ss_step s s' : session_state s → session_step use_cache legacy_digest s s' → session_state s'.

Lemma session_state_ok s : session_state s → caches_ok s.
Proof.
  induction 1 as [h env|h rows env s orphans Hn Hlen Ho|s0 s id plan s' _ _ _ Hs Hp Hf|s h rows s' _ _ Hn Hlen Ha|s s' _ IH Hstep].
  - split; cbn; try done; [split; constructor|]. intros id i. rw lookup_empty. split; [done|by intros (? & ? & _)].
  - by eapply open_caches.
  - eapply fork_caches; [by eapply fork_rows|done].
  - by eapply accept_caches.
  - by eapply caches_step.
Qed.

(** What the operations make without a foreign file is a session. *)
Lemma reachable_session s : reachable use_cache legacy_digest s → session_state s.
Proof.
  intros (h & env & _ & Hr). assert (session_state (in_memory h env)) as H0 by constructor.
  induction Hr as [s|s1 s2 s3 Hs _ IH]; [done|]. apply IH. by eapply Ss_step.
Qed.

(** C8: the current path is what the parent links say.  In every session, also
    one opened from a file with missing or cyclic parents, forked or merged,
    and whether or not the linear shortcut is taken, the current path is
    exactly the trail of parent links from the leaf up to a root, a missing
    parent or an entry met before, and no other list is; where the links reach
    a root it is the chain from that root, as in every session that the
    operations made without opening a foreign file.  The provider's context is
    built from it, and the path to any entry follows the same links, with the
    identifier of the missing parent first if there is one. *)
Theorem current_path_is_exact s :
  session_state s →
  (∃ missing, trail (entries s) ∅ (leaf_id s) (entries_for_current_path s) missing) ∧
  (∀ l missing, trail (entries s) ∅ (leaf_id s) l missing → l = entries_for_current_path s) ∧
  (∀ l, path_to (entries s) (leaf_id s) l → l = entries_for_current_path s) ∧
  (reachable use_cache legacy_digest s → path_to (entries s) (leaf_id s) (entries_for_current_path s)) ∧
  to_messages_for_current_path s = to_messages_from_path (entries_for_current_path s) ∧
  (∀ i id, id_at (entries s) i id → ∃ l missing, trail (entries s) ∅ (Some id) l missing ∧
     get_path_to_entry s id = option_list missing ++ omap base_id l).
Proof.
  intros Hok%session_state_ok. pose proof (co_ids s Hok) as Hw. destruct (current_trail s Hok) as (m & Ht). split_and!.
  - by exists m.
  - intros l n Hl. by destruct (trail_unique (entries s) Hw _ _ _ _ _ _ Hl Ht).
  - intros l Hl. apply (path_trail (entries s) Hw _ _ ∅) in Hl; [|intros; apply not_elem_of_empty]. by destruct (trail_unique (entries s) Hw _ _ _ _ _ _ Hl Ht).
  - intros [Hr _]%session_reachable_ok. by apply current_path_spec.
  - apply messages_of_path.
  - intros i id. by apply entry_trail.
Qed.
End Append.

(** ** A file with a cycle and a missing parent *)

Definition stray_row (id : string) (parent : option string) : SessionEntry :=
  mkEntry (mkBase (Some (str id)) (str <$> parent) []) (EMessage (demo_prompt id)).

(** [a] and [b] are each other's parent, [c] hangs off [b]; [e] hangs off a missing row. *)
Definition stray_rows : list SessionEntry :=
  [stray_row "a" (Some "b"); stray_row "b" (Some "a"); stray_row "e" (Some "gone"); stray_row "c" (Some "b")].

Definition stray_session : Session :=
  match open_session demo_digest (header demo0) stray_rows None with Some (s, _) => s | None => demo0 end.

Lemma stray_opens : ∃ orphans, open_session demo_digest (header demo0) stray_rows None = Some (stray_session, orphans).
Proof. eexists. vm_compute. reflexivity. Qed.

Lemma current_path_is_exact_witness :
  (∃ missing, trail (entries stray_session) ∅ (leaf_id stray_session) (entries_for_current_path stray_session) missing) ∧
  omap base_id (entries_for_current_path stray_session) = [str "a"; str "b"; str "c"] ∧
  get_path_to_entry stray_session (str "e") = [str "gone"; str "e"].
Proof.
  destruct stray_opens as [orphans Ho]. split; [|by vm_compute].
  assert (NoDup (omap base_id stray_rows)) as Hn by (apply (bool_decide_unpack _); by vm_compute).
  assert (2 * len stray_rows ≤ u64_max) as Hlen by by vm_compute.
  destruct (current_path_is_exact true demo_digest stray_session (Ss_open true demo_digest (header demo0) stray_rows None stray_session orphans Hn Hlen Ho)) as [Ht _].
  exact Ht.
Defined.
