(* ===== verification/Compaction.v ===== *)
(** * Context compaction ([src/compaction.rs])

    When a session outgrows the model's window, the older part of its current
    path is replaced by a summary: token estimates, the choice of the cut
    point, the split of the path into what is summarised and what is kept, the
    summarisation requests, and the record of touched files.

    Parameters: [json_text] is [serde_json::to_string], [provider] what a
    provider answers to a prompt (an error, or a stream of events), and the
    fixed texts of the three prompts. *)

From S2P Require Import Prelude Text Utf8 Json Messages SessionEntries SessionAutosave SessionGraph SessionTree SessionPaths SessionSave.

(** ** Settings *)

Record ResolvedCompactionSettings := mkSettings {
  cs_enabled : bool;
  cs_context_window_tokens : Z;
  cs_reserve_tokens : Z;
  cs_keep_recent_tokens : Z;
}.

Definition ResolvedCompactionSettings_default : ResolvedCompactionSettings := mkSettings true 128000 10240 12800.

(** [context_window] is the model's registered window. *)
Definition context_window_tokens_for_entry (context_window : Z) : Z :=
  if context_window =? 0 then cs_context_window_tokens ResolvedCompactionSettings_default else context_window.

(** ** File operations *)

Record FileOperations := mkFileOps { fo_read : gset Str; fo_written : gset Str; fo_edited : gset Str }.
Definition FileOperations_default : FileOperations := mkFileOps ∅ ∅ ∅.

Definition build_tool_status_map (messages : list SessionMessage) (status : gmap Str bool) : gmap Str bool :=
  fold_left (λ status msg,
    match msg with
    | SmToolResult tool_call_id _ _ _ is_error => <[tool_call_id := negb is_error]> status
    | _ => status
    end) messages status.

Definition record_file_op (name path : Str) (ops : FileOperations) : FileOperations :=
  if bool_decide (name ∈ [str "read"; str "grep"; str "find"; str "ls"])
  then mkFileOps ({[path]} ∪ fo_read ops) (fo_written ops) (fo_edited ops)
  else if bool_decide (name = str "write")
  then mkFileOps (fo_read ops) ({[path]} ∪ fo_written ops) (fo_edited ops)
  else if bool_decide (name ∈ [str "edit"; str "hashline_edit"])
  then mkFileOps (fo_read ops) (fo_written ops) ({[path]} ∪ fo_edited ops)
  else ops.

Definition extract_file_ops_from_message (tool_status : gmap Str bool) (file_ops : FileOperations)
    (message : SessionMessage) : FileOperations :=
  match message with
  | SmAssistant message =>
      fold_left (λ ops block,
        match block with
        | ToolCallBlock call =>
            if negb (default false (tool_status !! tc_id call)) then ops
            else match value_get (tc_arguments call) (str "path") ≫= value_as_str with
                 | None => ops
                 | Some path => record_file_op (tc_name call) path ops
                 end
        | _ => ops
        end) (a_content message) file_ops
  | _ => file_ops
  end.

Definition Str_le (s t : Str) : Prop := str_le s t = true.
#[global] Instance Str_le_dec : RelDecision Str_le.
Proof. intros s t. unfold Str_le. apply _. Defined.

Definition sorted_elements (s : gset Str) : list Str := merge_sort Str_le (elements s).

Definition compute_file_lists (file_ops : FileOperations) : list Str * list Str :=
  let modified := fo_edited file_ops ∪ fo_written file_ops in
  (sorted_elements (fo_read file_ops ∖ modified), sorted_elements modified).

Definition escape_char (ch : N) : Str :=
  if (ch =? 60)%N then str "&lt;" else if (ch =? 62)%N then str "&gt;" else [ch].

(** Texts with a separator between them: the [first] flags of the loops. *)
Fixpoint join_with (sep : Str) (parts : list Str) : Str :=
  match parts with
  | [] => []
  | [p] => p
  | p :: parts' => p ++ sep ++ join_with sep parts'
  end.

Definition escape (file : Str) : Str := file ≫= escape_char.

Definition write_escaped_file_list (tag : Str) (files : list Str) : Str :=
  str "<" ++ tag ++ str ">" ++ [c_nl] ++ join_with [c_nl] (escape <$> files)
  ++ [c_nl] ++ str "</" ++ tag ++ str ">".

Definition format_file_operations (read_files modified_files : list Str) : Str :=
  match read_files, modified_files with
  | [], [] => []
  | _, _ =>
      [c_nl; c_nl]
      ++ (match read_files with [] => [] | _ => write_escaped_file_list (str "read-files") read_files end)
      ++ match modified_files with
         | [] => []
         | _ => (match read_files with [] => [] | _ => [c_nl; c_nl] end)
                ++ write_escaped_file_list (str "modified-files") modified_files
         end
  end.

(** ** Token estimates *)

Definition CHARS_PER_TOKEN_ESTIMATE : Z := 3.
Definition IMAGE_TOKEN_ESTIMATE : Z := 1200.
Definition IMAGE_CHAR_ESTIMATE : Z := IMAGE_TOKEN_ESTIMATE * CHARS_PER_TOKEN_ESTIMATE.

Definition str_len (s : Str) : Z := Z.of_nat (byte_len s).

Definition calculate_context_tokens (usage : Usage) : Z :=
  if 0 <? u_total_tokens usage then u_total_tokens usage else sat_add u64_max (u_input usage) (u_output usage).

Definition get_assistant_usage (message : SessionMessage) : option Usage :=
  match message with
  | SmAssistant message =>
      match a_stop_reason message with Aborted | StopError => None | _ => Some (a_usage message) end
  | _ => None
  end.

Definition should_compact (context_tokens context_window : Z) (settings : ResolvedCompactionSettings) : bool :=
  if negb (cs_enabled settings) then false
  else Z.max 0 (context_window - cs_reserve_tokens settings) <=? context_tokens.

Section Compaction.
Context (json_text : Json → Str).

Definition json_byte_len (v : Json) : Z := Z.min usize_max (str_len (json_text v)).

Definition add_block (chars : Z) (block : ContentBlock) : Z :=
  match block with
  | Text text => sat_add usize_max chars (str_len (t_text text))
  | Image _ => sat_add usize_max chars IMAGE_CHAR_ESTIMATE
  | Thinking thinking => sat_add usize_max chars (str_len (th_thinking thinking))
  | ToolCallBlock call =>
      sat_add usize_max (sat_add usize_max chars (str_len (tc_name call))) (json_byte_len (tc_arguments call))
  | RedactedThinking _ => chars
  end.

Definition message_chars (message : SessionMessage) : Z :=
  match message with
  | SmUser (UserText text) => str_len text
  | SmUser (UserBlocks blocks) => fold_left add_block blocks 0
  | SmAssistant message => fold_left add_block (a_content message) 0
  | SmToolResult _ _ content _ _ => fold_left add_block content 0
  | SmCustom _ content _ _ => str_len content
  | SmBashExecution command output _ _ _ _ _ => sat_add usize_max (str_len command) (str_len output)
  | SmBranchSummary summary _ | SmCompactionSummary summary _ => str_len summary
  end.

Definition div_ceil (a b : Z) : Z := (a + b - 1) / b.

Definition estimate_tokens (message : SessionMessage) : Z := div_ceil (message_chars message) CHARS_PER_TOKEN_ESTIMATE.

Definition sum_tokens (messages : list SessionMessage) : Z :=
  fold_left (λ total m, sat_add u64_max total (estimate_tokens m)) messages 0.

Record ContextUsageEstimate := mkEstimate { est_tokens : Z; est_last_usage_index : option nat }.

(** The last message with usage figures, and what follows it. *)
Fixpoint last_usage (idx : nat) (messages : list SessionMessage) : option (Usage * nat * list SessionMessage) :=
  match messages with
  | [] => None
  | msg :: messages' =>
      match last_usage (S idx) messages' with
      | Some r => Some r
      | None => match get_assistant_usage msg with Some usage => Some (usage, idx, messages') | None => None end
      end
  end.

Definition estimate_context_tokens (messages : list SessionMessage) : ContextUsageEstimate :=
  match last_usage 0 messages with
  | None => mkEstimate (sum_tokens messages) None
  | Some (usage, usage_index, trailing) =>
      let usage_tokens := calculate_context_tokens usage in
      if usage_tokens =? 0 then mkEstimate (sum_tokens messages) None
      else mkEstimate (sat_add u64_max usage_tokens (sum_tokens trailing)) (Some usage_index)
  end.

(** ** Cut points *)

Record CutPointResult := mkCut {
  cut_first_kept : nat;
  cut_turn_start : option nat;
  cut_is_split_turn : bool;
}.

Definition message_from_entry (entry : SessionEntry) : option SessionMessage :=
  match entry_kind entry with
  | EMessage message => Some message
  | EBranchSummary e => Some (SmBranchSummary (be_summary e) (be_from_id e))
  | ECompaction c => Some (SmCompactionSummary (ce_summary c) (ce_tokens_before c))
  | _ => None
  end.

Definition entry_is_message_like (entry : SessionEntry) : bool :=
  match entry_kind entry with EMessage _ | EBranchSummary _ => true | _ => false end.

Definition entry_is_compaction_boundary (entry : SessionEntry) : bool :=
  match entry_kind entry with ECompaction _ => true | _ => false end.

(** The body of [find_valid_cut_points]. *)
Definition is_cut_point (entry : SessionEntry) : bool :=
  match entry_kind entry with
  | EMessage (SmToolResult _ _ _ _ _) => false
  | EMessage _ | EBranchSummary _ => true
  | _ => false
  end.

Definition find_valid_cut_points (entries : list SessionEntry) (start_index end_index : nat) : list nat :=
  List.filter (λ idx, match entries !! idx with Some e => is_cut_point e | None => false end)
    (seq start_index (end_index - start_index)).

Definition is_user_turn_start (entry : SessionEntry) : bool :=
  match entry_kind entry with
  | EBranchSummary _ => true
  | EMessage (SmUser _) | EMessage (SmBashExecution _ _ _ _ _ _ _) => true
  | _ => false
  end.

Definition turn_start_at (entries : list SessionEntry) (idx : nat) : bool :=
  match entries !! idx with Some e => is_user_turn_start e | None => false end.

Definition find_turn_start_index (entries : list SessionEntry) (entry_index start_index : nat) : option nat :=
  List.find (turn_start_at entries) (reverse (seq start_index (S entry_index - start_index))).

(** [cut_points.partition_point(|&cp| cp <= i)] on an ascending list. *)
Definition partition_point (cut_points : list nat) (i : nat) : nat :=
  length (List.filter (λ cp, (cp <=? i)%nat) cut_points).

(** The backward scan over the indices still to visit, newest first. *)
Fixpoint scan_back (entries : list SessionEntry) (keep_recent_tokens : Z) (cut_points : list nat)
    (accumulated : Z) (cut_index : nat) (indices : list nat) : nat :=
  match indices with
  | [] => cut_index
  | i :: indices' =>
      match entries !! i ≫= message_from_entry with
      | None => scan_back entries keep_recent_tokens cut_points accumulated cut_index indices'
      | Some msg =>
          let accumulated := sat_add u64_max accumulated (estimate_tokens msg) in
          if keep_recent_tokens <=? accumulated then
            match partition_point cut_points i with
            | O => cut_index
            | S pos => default cut_index (cut_points !! pos)
            end
          else scan_back entries keep_recent_tokens cut_points accumulated cut_index indices'
      end
  end.

(** The [while] that takes the entries before the cut that are no messages. *)
Fixpoint absorb (entries : list SessionEntry) (start_index cut_index : nat) : nat :=
  match cut_index with
  | O => O
  | S prev =>
      if (start_index <? cut_index)%nat then
        match entries !! prev with
        | Some e => if entry_is_compaction_boundary e then cut_index
                    else if entry_is_message_like e then cut_index
                    else absorb entries start_index prev
        | None => cut_index
        end
      else cut_index
  end.

Definition find_cut_point (entries : list SessionEntry) (start_index end_index : nat) (keep_recent_tokens : Z)
    : CutPointResult :=
  match find_valid_cut_points entries start_index end_index with
  | [] => mkCut start_index None false
  | (first :: _) as cut_points =>
      let cut_index := scan_back entries keep_recent_tokens cut_points 0 first
                         (reverse (seq start_index (end_index - start_index))) in
      let cut_index := absorb entries start_index cut_index in
      let is_user_message := turn_start_at entries cut_index in
      let turn_start_index := if is_user_message then None else find_turn_start_index entries cut_index start_index in
      mkCut cut_index turn_start_index
        (negb is_user_message && match turn_start_index with Some _ => true | None => false end)
  end.

(** ** Preparation *)

Record CompactionPreparation := mkPrep {
  prep_first_kept_entry_id : Str;
  prep_messages_to_summarize : list SessionMessage;
  prep_turn_prefix_messages : list SessionMessage;
  prep_is_split_turn : bool;
  prep_tokens_before : Z;
  prep_previous_summary : option Str;
  prep_file_ops : FileOperations;
  prep_settings : ResolvedCompactionSettings;
}.

Definition slice {A} (l : list A) (from to : nat) : list A := take (to - from) (drop from l).

Definition messages_of (entries : list SessionEntry) : list SessionMessage := omap message_from_entry entries.

Definition string_items (details : list (Str * Json)) (key : string) : gset Str :=
  match json_lookup (str key) details with
  | Some (JsonArray items) => list_to_set (omap value_as_str items)
  | _ => ∅
  end.

Definition previous_file_ops (previous : option CompactionEntry) : FileOperations :=
  match previous with
  | Some entry =>
      if default false (ce_from_hook entry) then FileOperations_default
      else match ce_details entry with
           | Some (JsonObject details) =>
               mkFileOps (string_items details "readFiles"%string) ∅ (string_items details "modifiedFiles"%string)
           | _ => FileOperations_default
           end
  | None => FileOperations_default
  end.

Definition prepare_compaction (path_entries : list SessionEntry) (settings : ResolvedCompactionSettings)
    : option CompactionPreparation :=
  last_entry ← last path_entries;
  if entry_is_compaction_boundary last_entry then None
  else
    let previous := last_compaction 0 path_entries in
    let boundary_start := match previous with Some (i, _) => S i | None => O end in
    let boundary_end := length path_entries in
    let usage_start := match previous with Some (i, _) => i | None => O end in
    let tokens_before := est_tokens (estimate_context_tokens (messages_of (slice path_entries usage_start boundary_end))) in
    if negb (should_compact tokens_before (cs_context_window_tokens settings) settings) then None
    else
      let cut := find_cut_point path_entries boundary_start boundary_end (cs_keep_recent_tokens settings) in
      first_kept_entry ← path_entries !! cut_first_kept cut;
      first_kept_entry_id ← base_id first_kept_entry;
      history_end ← if cut_is_split_turn cut then cut_turn_start cut else Some (cut_first_kept cut);
      let messages_to_summarize := messages_of (slice path_entries boundary_start history_end) in
      let turn_prefix_messages :=
        if cut_is_split_turn cut then messages_of (slice path_entries history_end (cut_first_kept cut)) else [] in
      match messages_to_summarize, turn_prefix_messages with
      | [], [] => None
      | _, _ =>
          let tool_status := build_tool_status_map turn_prefix_messages (build_tool_status_map messages_to_summarize ∅) in
          let file_ops := fold_left (extract_file_ops_from_message tool_status)
            (messages_to_summarize ++ turn_prefix_messages) (previous_file_ops (snd <$> previous)) in
          Some (mkPrep first_kept_entry_id messages_to_summarize turn_prefix_messages (cut_is_split_turn cut)
            tokens_before ((λ p, ce_summary p.2) <$> previous) file_ops settings)
      end.
End Compaction.

(** ** The conversation as text *)

Section Summaries.
Context (json_text : Json → Str).

Definition push_message_separator (out : Str) : Str := if is_empty out then out else out ++ [c_nl; c_nl].

Definition nonempty_text (block : ContentBlock) : bool :=
  match block with Text t => negb (is_empty (t_text t)) | _ => false end.

Definition block_texts (blocks : list ContentBlock) : list Str :=
  omap (λ b, match b with Text t => Some (t_text t) | _ => None end) blocks.

Definition user_has_serializable_content (user : UserMessage) : bool :=
  match um_content user with
  | UserText text => negb (is_empty text)
  | UserBlocks blocks => existsb nonempty_text blocks
  end.

Definition append_user_message (out : Str) (user : UserMessage) : Str :=
  if negb (user_has_serializable_content user) then out
  else push_message_separator out ++ str "[User]: "
       ++ match um_content user with
          | UserText text => text
          | UserBlocks blocks => concat (block_texts blocks)
          end.

Definition append_custom_message (out custom_type content : Str) : Str :=
  if is_empty (trim content) then out
  else push_message_separator out ++ str "["
       ++ (if is_empty (trim custom_type) then str "Custom" else str "Custom:" ++ custom_type)
       ++ str "]: " ++ content.

Definition append_tool_call_arguments (arguments : Json) : Str :=
  match arguments with
  | JsonObject obj => join_with (str ", ") ((λ kv, kv.1 ++ str "=" ++ json_text kv.2) <$> obj)
  | _ => json_text arguments
  end.

(** The three sections of an assistant message, each present when a block of
    its kind is. *)
Definition assistant_section (out : Str) (title : string) (sep : Str) (parts : list Str) : Str :=
  match parts with
  | [] => out
  | _ => push_message_separator out ++ str title ++ join_with sep parts
  end.

Definition append_assistant_message (out : Str) (assistant : AssistantMessage) : Str :=
  let content := a_content assistant in
  let thinking := omap (λ b, match b with Thinking t => Some (th_thinking t) | _ => None end) content in
  let calls := omap (λ b, match b with
    | ToolCallBlock call => Some (tc_name call ++ str "(" ++ append_tool_call_arguments (tc_arguments call) ++ str ")")
    | _ => None end) content in
  let out := assistant_section out "[Assistant thinking]: "%string [c_nl] thinking in
  let out := assistant_section out "[Assistant]: "%string [c_nl] (block_texts content) in
  assistant_section out "[Assistant tool calls]: "%string (str "; ") calls.

Definition append_tool_result_message (out : Str) (content : list ContentBlock) : Str :=
  if negb (existsb nonempty_text content) then out
  else push_message_separator out ++ str "[Tool result]: " ++ concat (block_texts content).

Definition collect_text_blocks (blocks : list ContentBlock) : Str := join_with [c_nl] (block_texts blocks).

Definition append_message_text (out : Str) (msg : Message) : Str :=
  match msg with
  | User user => append_user_message out user
  | Custom custom => append_custom_message out (cm_custom_type custom) (cm_content custom)
  | Assistant assistant => append_assistant_message out assistant
  | ToolResult tool => append_tool_result_message out (tr_content tool)
  end.

Definition serialize_conversation (messages : list Message) : Str := fold_left append_message_text messages [].

(** ** Asking for a summary *)

(** The provider's answer to a system prompt and a prompt. *)
Context (provider : Str → Str → result (list (result StreamEvent Error)) Error).
Context (SUMMARIZATION_SYSTEM_PROMPT SUMMARIZATION_PROMPT UPDATE_SUMMARIZATION_PROMPT TURN_PREFIX_SUMMARIZATION_PROMPT : Str).

(** The loop over the stream: the last [Done], or the first error. *)
Fixpoint read_stream (final_message : option AssistantMessage) (events : list (result StreamEvent Error))
    : result (option AssistantMessage) Error :=
  match events with
  | [] => Ok final_message
  | Err e :: _ => Err e
  | Ok (SDone _ message) :: events' => read_stream (Some message) events'
  | Ok (SError _ error) :: _ => Err (Api (default (str "Summarization error") (a_error_message error)))
  | Ok _ :: events' => read_stream final_message events'
  end.

Definition complete_simple (system_prompt prompt_text : Str) : result AssistantMessage Error :=
  let? stream := provider system_prompt prompt_text in
  let? final_message := read_stream None stream in
  match final_message with
  | None => Err (Api (str "Stream ended without Done event"))
  | Some message =>
      match a_stop_reason message with
      | Aborted | StopError => Err (Api (default (str "Summarization error") (a_error_message message)))
      | _ => Ok message
      end
  end.

Definition conversation_block (messages : list SessionMessage) : Str :=
  str "<conversation>" ++ [c_nl] ++ serialize_conversation (omap session_message_to_model messages)
  ++ [c_nl] ++ str "</conversation>" ++ [c_nl; c_nl].

Definition summary_text (empty_message : string) (assistant : AssistantMessage) : result Str Error :=
  let text := collect_text_blocks (a_content assistant) in
  if is_empty (trim text) then Err (Api (str empty_message)) else Ok text.

Definition generate_summary (messages : list SessionMessage) (custom_instructions previous_summary : option Str)
    : result Str Error :=
  let base_prompt := match previous_summary with Some _ => UPDATE_SUMMARIZATION_PROMPT | None => SUMMARIZATION_PROMPT end in
  let prompt := match custom_instructions with
    | Some custom => if is_empty (trim custom) then base_prompt
                     else base_prompt ++ [c_nl; c_nl] ++ str "Additional focus: " ++ custom
    | None => base_prompt
    end in
  let prompt_text := conversation_block messages
    ++ (match previous_summary with
        | Some previous => str "<previous-summary>" ++ [c_nl] ++ previous ++ [c_nl] ++ str "</previous-summary>" ++ [c_nl; c_nl]
        | None => []
        end) ++ prompt in
  let? assistant := complete_simple SUMMARIZATION_SYSTEM_PROMPT prompt_text in
  summary_text "Summarization returned empty text; refusing to store empty compaction summary"%string assistant.

Definition generate_turn_prefix_summary (messages : list SessionMessage) : result Str Error :=
  let prompt_text := conversation_block messages ++ TURN_PREFIX_SUMMARIZATION_PROMPT in
  let? assistant := complete_simple SUMMARIZATION_SYSTEM_PROMPT prompt_text in
  summary_text "Turn prefix summarization returned empty text; refusing to store empty summary"%string assistant.

Record CompactionResult := mkCompactionResult {
  cr_summary : Str;
  cr_first_kept_entry_id : Str;
  cr_tokens_before : Z;
  cr_read_files : list Str;
  cr_modified_files : list Str;
}.

Definition compact (preparation : CompactionPreparation) (custom_instructions : option Str) : result CompactionResult Error :=
  let history := generate_summary (prep_messages_to_summarize preparation) custom_instructions
                   (prep_previous_summary preparation) in
  let? summary :=
    match prep_is_split_turn preparation, prep_turn_prefix_messages preparation with
    | true, (_ :: _) as prefix =>
        let? history_summary :=
          match prep_messages_to_summarize preparation with
          | [] => Ok (str "No prior history.")
          | _ => history
          end in
        let? turn_prefix_summary := generate_turn_prefix_summary prefix in
        Ok (history_summary ++ [c_nl; c_nl] ++ str "---" ++ [c_nl; c_nl] ++ str "**Turn Context (split turn):**"
            ++ [c_nl; c_nl] ++ turn_prefix_summary)
    | _, _ => history
    end in
  let '(read_files, modified_files) := compute_file_lists (prep_file_ops preparation) in
  Ok (mkCompactionResult (summary ++ format_file_operations read_files modified_files)
        (prep_first_kept_entry_id preparation) (prep_tokens_before preparation) read_files modified_files).

Definition summarize_entries (entries : list SessionEntry) (custom_instructions : option Str) : result (option Str) Error :=
  match messages_of entries with
  | [] => Ok None
  | messages => let? summary := generate_summary messages custom_instructions None in Ok (Some summary)
  end.
End Summaries.

(** The entry the session appends for a result. *)
Definition entry_of_result (r : CompactionResult) : CompactionEntry :=
  mkCompaction (cr_summary r) (cr_first_kept_entry_id r) (cr_tokens_before r)
    (Some (JsonObject [(str "readFiles", JsonArray (JsonString <$> cr_read_files r));
                       (str "modifiedFiles", JsonArray (JsonString <$> cr_modified_files r))])) None.

(** ** The cut *)

Definition metadata (entry : SessionEntry) : bool :=
  negb (entry_is_message_like entry) && negb (entry_is_compaction_boundary entry).

Section CutProofs.
Context (json_text : Json → Str) (entries : list SessionEntry).

Definition cut_point_at (i : nat) : Prop := ∃ e, entries !! i = Some e ∧ is_cut_point e = true.
Definition metadata_between (i k : nat) : Prop := ∀ j e, (i ≤ j < k)%nat → entries !! j = Some e → metadata e = true.

Lemma valid_cut_points_spec s e i :
  i ∈ find_valid_cut_points entries s e ↔ (s ≤ i < e)%nat ∧ cut_point_at i.
Proof.
  unfold find_valid_cut_points, cut_point_at. rw list_elem_of_In filter_In in_seq.
  split.
  - intros [Hi Hc]. destruct (entries !! i) as [x|]; [|done]. split; [lia|by eauto].
  - intros [Hi (x & -> & Hx)]. split; [lia|done].
Qed.

(** The scan answers one of the cut points. *)
Lemma scan_back_in keep cps acc cut ixs :
  cut ∈ cps → scan_back json_text entries keep cps acc cut ixs ∈ cps.
Proof.
  intros Hcut. revert acc. induction ixs as [|i ixs IH]; intros acc; simpl; [done|].
  destruct (entries !! i ≫= message_from_entry) as [msg|]; [|apply IH]. destruct (_ <=? _); [|apply IH].
  destruct (partition_point cps i) as [|pos]; [done|]. destruct (cps !! pos) as [c|] eqn:E; simpl; [|done].
  by eapply list_elem_of_lookup_2.
Qed.

Lemma absorb_spec s cut :
  (s ≤ cut)%nat →
  let c := absorb entries s cut in
  (s ≤ c ≤ cut)%nat ∧ metadata_between c cut.
Proof.
  induction cut as [|prev IH]; intros Hs; cbn [absorb]; [split; [lia|]; intros j; lia|].
  assert ((s ≤ S prev ≤ S prev)%nat ∧ metadata_between (S prev) (S prev)) as Hstop by (split; [lia|]; intros j; lia).
  destruct (Nat.ltb_spec s (S prev)); [|done]. destruct (entries !! prev) as [e|] eqn:E; [|done].
  destruct (entry_is_compaction_boundary e) eqn:Ec; [done|]. destruct (entry_is_message_like e) eqn:El; [done|].
  destruct IH as [Hc Hm]; [lia|]. split; [lia|]. intros j x Hj Hx. destruct (decide (j = prev)) as [->|].
  - assert (x = e) as -> by congruence. unfold metadata. by rw Ec El.
  - eapply Hm; [|exact Hx]. lia.
Qed.

(** Where a cut is made: at a message that is no tool result, after taking
    along the metadata directly before it. *)
Lemma find_cut_point_spec s e keep :
  (s < e ≤ length entries)%nat →
  let r := find_cut_point json_text entries s e keep in
  (s ≤ cut_first_kept r < e)%nat ∧
  ((∃ k, (cut_first_kept r ≤ k < e)%nat ∧ cut_point_at k ∧ metadata_between (cut_first_kept r) k) ∨
   cut_first_kept r = s ∧ ∀ i, (s ≤ i < e)%nat → ¬ cut_point_at i).
Proof.
  intros He. unfold find_cut_point. destruct (find_valid_cut_points entries s e) as [|first cps] eqn:Ecp; simpl.
  - split; [lia|]. right. split; [done|]. intros i Hi Hc.
    assert (i ∈ find_valid_cut_points entries s e) as Hin by by apply valid_cut_points_spec.
    rw Ecp in Hin. by apply elem_of_nil in Hin.
  - set (k := scan_back _ _ _ _ _ _ _).
    assert (k ∈ find_valid_cut_points entries s e) as Hk by (rw Ecp; apply scan_back_in; by left).
    apply valid_cut_points_spec in Hk as [Hk Hc]. destruct (absorb_spec s k ltac:(lia)) as [Ha Hm].
    split; [lia|]. left. exists k. split; [lia|done].
Qed.

(** The start of the turn that is cut, when one is. *)
Lemma find_turn_start_spec i s :
  match find_turn_start_index entries i s with
  | Some t => (s ≤ t ≤ i)%nat ∧ turn_start_at entries t = true ∧ ∀ j, (t < j ≤ i)%nat → turn_start_at entries j = false
  | None => ∀ j, (s ≤ j ≤ i)%nat → turn_start_at entries j = false
  end.
Proof.
  unfold find_turn_start_index. remember (S i - s)%nat as n eqn:En.
  revert i En. induction n as [|n IH]; intros i En; [simpl; intros j; lia|].
  rw seq_S reverse_snoc. cbn [List.find]. replace (s + n)%nat with i by lia.
  destruct (turn_start_at entries i) eqn:Et; [split; [lia|]; split; [done|]; intros j; lia|].
  destruct i as [|i']; [destruct n; [|lia]; simpl; intros j Hj; replace j with O by lia; done|].
  specialize (IH i' ltac:(lia)). destruct (List.find _ _) as [t|].
  - destruct IH as (Ht & Hts & Hlast). split_and!; [lia|lia|done|]. intros j Hj.
    destruct (decide (j = S i')) as [->|]; [done|]. apply Hlast. lia.
  - intros j Hj. destruct (decide (j = S i')) as [->|]; [done|]. apply IH. lia.
Qed.

(** ** How much is kept *)

Definition entry_tokens (e : SessionEntry) : Z :=
  match message_from_entry e with Some m => estimate_tokens json_text m | None => 0 end.

(** The estimated tokens of the entries from an index on. *)
Definition tokens_from (i : nat) : Z := foldr Z.add 0 (entry_tokens <$> drop i entries).

Lemma str_len_nonneg t : 0 ≤ str_len t.
Proof. unfold str_len. lia. Qed.

Lemma add_block_nonneg chars b : 0 ≤ chars → 0 ≤ add_block json_text chars b.
Proof.
  intros Hc. unfold add_block, json_byte_len, sat_add, usize_max, u64_max, IMAGE_CHAR_ESTIMATE, IMAGE_TOKEN_ESTIMATE, CHARS_PER_TOKEN_ESTIMATE.
  destruct b as [t|t|t|im|call]; [pose proof (str_len_nonneg (t_text t))|pose proof (str_len_nonneg (th_thinking t))|lia|lia|
    pose proof (str_len_nonneg (tc_name call)); pose proof (str_len_nonneg (json_text (tc_arguments call)))]; lia.
Qed.

Lemma fold_blocks_nonneg blocks chars : 0 ≤ chars → 0 ≤ fold_left (add_block json_text) blocks chars.
Proof. revert chars. induction blocks as [|b blocks IH]; intros chars Hc; simpl; [done|]. by apply IH, add_block_nonneg. Qed.

Lemma estimate_nonneg m : 0 ≤ estimate_tokens json_text m.
Proof.
  assert (0 ≤ message_chars json_text m) as Hc.
  { destruct m as [[t|bs]|a|? ? c ? ?|? c ? ?|c o ? ? ? ? ?|x ?|x ?]; simpl;
      try apply str_len_nonneg; try by apply fold_blocks_nonneg.
    pose proof (str_len_nonneg c). pose proof (str_len_nonneg o). unfold sat_add, usize_max, u64_max. lia. }
  unfold estimate_tokens, div_ceil, CHARS_PER_TOKEN_ESTIMATE. apply Z.div_pos; lia.
Qed.

Lemma entry_tokens_nonneg e : 0 ≤ entry_tokens e.
Proof. unfold entry_tokens. destruct (message_from_entry e); [apply estimate_nonneg|done]. Qed.

Lemma tokens_from_step i e : entries !! i = Some e → tokens_from i = entry_tokens e + tokens_from (S i).
Proof. intros He. unfold tokens_from. by rw (drop_S _ _ _ He). Qed.

Lemma tokens_from_nonneg i : 0 ≤ tokens_from i.
Proof.
  unfold tokens_from. induction (drop i entries) as [|e l IH]; [done|]. rw fmap_cons; cbn [foldr]. pose proof (entry_tokens_nonneg e). lia.
Qed.

Lemma tokens_from_mono i j : (i ≤ j)%nat → tokens_from j ≤ tokens_from i.
Proof.
  intros Hij. induction Hij as [|j Hij IH]; [done|]. etrans; [|exact IH].
  destruct (entries !! j) as [e|] eqn:E.
  - rw (tokens_from_step j e E). pose proof (entry_tokens_nonneg e). lia.
  - unfold tokens_from. apply lookup_ge_None in E. by rw !drop_ge; [| lia..].
Qed.

Lemma cut_points_sorted s e : StronglySorted lt (find_valid_cut_points entries s e).
Proof.
  unfold find_valid_cut_points. generalize (λ idx : nat, match entries !! idx with Some x => is_cut_point x | None => false end).
  intros f. generalize (e - s)%nat. intros n. revert s. induction n as [|n IH]; intros s; simpl; [constructor|].
  destruct (f s); [|apply IH]. constructor; [apply IH|]. apply Forall_forall. intros x Hx.
  apply list_elem_of_In, filter_In in Hx as [Hx%in_seq _]. lia.
Qed.

(** [partition_point] finds the largest cut point up to an index. *)
Lemma partition_point_spec cps i :
  StronglySorted lt cps →
  match partition_point cps i with
  | O => ∀ k, k ∈ cps → (i < k)%nat
  | S pos => ∃ c, cps !! pos = Some c ∧ (c ≤ i)%nat ∧ ∀ k, k ∈ cps → (c < k)%nat → (i < k)%nat
  end.
Proof.
  unfold partition_point. induction 1 as [|c cps Hs IH Hc]; simpl; [intros k Hk; by apply elem_of_nil in Hk|].
  rw Forall_forall in Hc. destruct (Nat.leb_spec c i) as [Hci|Hci]; simpl.
  - destruct (length (List.filter _ cps)) as [|pos].
    + exists c. split_and!; [done|done|]. intros k Hk Hck. apply elem_of_cons in Hk as [->|Hk]; [lia|by apply IH].
    + destruct IH as (d & Hd & Hdi & Hlast). exists d. split_and!; [done|done|]. intros k Hk Hdk.
      apply elem_of_cons in Hk as [->|Hk]; [|by apply Hlast]. apply list_elem_of_lookup_2, Hc in Hd. lia.
  - assert (List.filter (λ cp, (cp <=? i)%nat) cps = []) as ->.
    { assert (∀ x, x ∈ cps → (x <=? i)%nat = false) as Hf by (intros x Hx; apply Hc in Hx; apply Nat.leb_gt; lia).
      clear -Hf. induction cps as [|x cps IH]; simpl; [done|]. rw Hf; [|by left]. apply IH. intros y Hy. apply Hf. by right. }
    simpl. intros k Hk. apply elem_of_cons in Hk as [->|Hk]; [done|]. apply Hc in Hk. lia.
Qed.

Definition message_at (i : nat) : Prop := is_Some (entries !! i ≫= message_from_entry).

Lemma cut_point_message i : cut_point_at i → message_at i.
Proof.
  intros (e & He & Hc). unfold message_at. rw He. simpl. unfold is_cut_point, message_from_entry in *.
  destruct (entry_kind e); try done; by eexists.
Qed.

Lemma scan_back_optimal s n keep first cps :
  0 ≤ keep ≤ u64_max → (s + n ≤ length entries)%nat →
  find_valid_cut_points entries s (length entries) = first :: cps →
  (tokens_from (s + n) < keep ∨ ∀ j, (s + n ≤ j)%nat → ¬ message_at j) →
  let k := scan_back json_text entries keep (first :: cps) (Z.min u64_max (tokens_from (s + n))) first (reverse (seq s n)) in
  (keep ≤ tokens_from k ∨ k = first) ∧ ∀ k', k' ∈ first :: cps → (k < k')%nat → tokens_from k' < keep.
Proof.
  intros Hkeep Hn Hcps Hinv.
  assert (∀ k', k' ∈ first :: cps → (s ≤ k' < length entries)%nat ∧ message_at k') as Hcp.
  { intros k' Hk'. rw -Hcps valid_cut_points_spec in Hk'. destruct Hk' as [? Hk']. split; [done|by apply cut_point_message]. }
  induction n as [|n IH].
  - cbn [seq reverse rev_append scan_back]. split; [by right|]. intros k' Hk' _. destruct (Hcp k' Hk') as [Hr Hm].
    destruct Hinv as [Hlt|Hno]; [|by destruct (Hno k' ltac:(lia))].
    pose proof (tokens_from_mono (s + 0) k' ltac:(lia)). lia.
  - rw seq_S reverse_snoc. cbn [scan_back]. destruct (lookup_lt_is_Some_2 entries (s + n) ltac:(lia)) as [e He].
    pose proof (tokens_from_step (s + n) e He) as Hstep. replace (S (s + n)) with (s + S n)%nat in Hstep by lia.
    rw He. simpl. unfold entry_tokens in Hstep. destruct (message_from_entry e) as [msg|] eqn:Em.
    + pose proof (estimate_nonneg msg) as Hest. pose proof (tokens_from_nonneg (s + S n)) as Hpos.
      replace (sat_add u64_max (Z.min u64_max (tokens_from (s + S n))) (estimate_tokens json_text msg))
        with (Z.min u64_max (tokens_from (s + n))) by (unfold sat_add; lia).
      destruct (Z.leb_spec keep (Z.min u64_max (tokens_from (s + n)))) as [Hge|Hlt]; [|apply IH; [lia|left; lia]].
      pose proof (cut_points_sorted s (length entries)) as Hso. rw Hcps in Hso.
      pose proof (partition_point_spec (first :: cps) (s + n) Hso) as Hpp.
      assert (∀ k', k' ∈ first :: cps → (s + n < k')%nat → tokens_from k' < keep) as Hlate.
      { intros k' Hk' Hgt. destruct (Hcp k' Hk') as [_ Hm]. destruct Hinv as [Hlt|Hno]; [|by destruct (Hno k' ltac:(lia))].
        pose proof (tokens_from_mono (s + S n) k' ltac:(lia)). lia. }
      destruct (partition_point (first :: cps) (s + n)) as [|pos].
      * split; [by right|]. intros k' Hk' _. apply Hlate; [done|by apply Hpp].
      * destruct Hpp as (c & -> & Hci & Hlast). simpl. split; [left|intros k' Hk' Hgt; apply Hlate; [done|by apply Hlast]].
        pose proof (tokens_from_mono c (s + n) Hci). lia.
    + replace (tokens_from (s + S n)) with (tokens_from (s + n)) by lia. apply IH; [lia|].
      replace (tokens_from (s + n)) with (tokens_from (s + S n)) by lia. destruct Hinv as [?|Hno]; [by left|right].
      intros j Hj Hm. destruct (decide (j = s + n)%nat) as [->|]; [|apply (Hno j); [lia|done]].
      unfold message_at in Hm. rw He /= Em in Hm. by destruct Hm.
Qed.
End CutProofs.

(** ** Splitting a path *)

Lemma slice_to_end {A} (l : list A) i : slice l i (length l) = drop i l.
Proof. unfold slice. apply take_ge. rw length_drop. lia. Qed.

Lemma slice_app {A} (l : list A) i j k : (i ≤ j ≤ k)%nat → slice l i j ++ slice l j k = slice l i k.
Proof.
  intros H. unfold slice. replace (drop j l) with (drop (j - i) (drop i l)) by (rw drop_drop; f_equal; lia).
  rw -(take_drop (j - i) (take (k - i) (drop i l))). f_equal.
  - rw take_take. f_equal. lia.
  - rw take_drop_commute. do 2 f_equal. lia.
Qed.

Lemma messages_of_app l k : messages_of (l ++ k) = messages_of l ++ messages_of k.
Proof. unfold messages_of. by rw omap_app. Qed.

(** The entry after the last compaction. *)
Definition boundary (path : list SessionEntry) : nat :=
  match last_compaction 0 path with Some (i, _) => S i | None => O end.

Lemma last_compaction_lookup idx path i c :
  last_compaction idx path = Some (i, c) → (idx ≤ i < idx + length path)%nat ∧
  ∃ e, path !! (i - idx)%nat = Some e ∧ entry_kind e = ECompaction c.
Proof.
  revert idx. induction path as [|x path IH]; intros idx; simpl; [done|].
  destruct (last_compaction (S idx) path) as [[i' c']|] eqn:E.
  - intros [= -> ->]. apply IH in E as (Hr & e & He & Hk). split; [lia|]. exists e. split; [|done].
    replace (i - idx)%nat with (S (i - S idx)) by lia. done.
  - destruct (entry_kind x) eqn:Ek; try done. intros [= -> ->]. split; [lia|]. exists x. by rw Nat.sub_diag.
Qed.

(** A path that does not end in a compaction goes on after the last one. *)
Lemma boundary_lt path e :
  last path = Some e → entry_is_compaction_boundary e = false → (boundary path < length path)%nat.
Proof.
  intros Hl He. assert (path ≠ []) as Hne by by intros ->.
  assert (0 < length path)%nat by (destruct path; [done|simpl; lia]). unfold boundary.
  destruct (last_compaction 0 path) as [[i c]|] eqn:Ec; [|done].
  apply last_compaction_lookup in Ec as (Hi & x & Hx & Hk). rw last_lookup in Hl.
  destruct (decide (S i = length path)) as [E|]; [|lia].
  rw -E Nat.sub_0_r in Hx Hl. simpl in Hl. assert (x = e) as -> by congruence.
  unfold entry_is_compaction_boundary in He. by rw Hk in He.
Qed.

Section Claims.
Context (json_text : Json → Str).
Implicit Types path : list SessionEntry.

(** What a preparation is made of. *)
Lemma prepare_spec path settings prep :
  prepare_compaction json_text path settings = Some prep →
  ∃ cut e, path !! cut = Some e ∧ base_id e = Some (prep_first_kept_entry_id prep) ∧
    cut = cut_first_kept (find_cut_point json_text path (boundary path) (length path) (cs_keep_recent_tokens settings)) ∧
    (boundary path ≤ cut < length path)%nat ∧
    messages_of (slice path (boundary path) cut) = prep_messages_to_summarize prep ++ prep_turn_prefix_messages prep.
Proof.
  unfold prepare_compaction. intros Hp. apply bind_Some in Hp as (e & Hl & Hp).
  destruct (entry_is_compaction_boundary e) eqn:He; [done|]. pose proof (boundary_lt _ _ Hl He) as Hb.
  fold (boundary path) in Hp. destruct (negb _); [done|].
  pose proof (find_cut_point_spec json_text path (boundary path) (length path) (cs_keep_recent_tokens settings) ltac:(lia)) as [Hcut _].
  set (cut := find_cut_point _ _ _ _ _) in *. apply bind_Some in Hp as (x & Hx & Hp). apply bind_Some in Hp as (id & Hid & Hp).
  apply bind_Some in Hp as (h & Hh & Hp). exists (cut_first_kept cut), x.
  assert (boundary path ≤ h ≤ cut_first_kept cut)%nat as Hhr.
  { unfold cut, find_cut_point in Hh, Hcut |- *. destruct (find_valid_cut_points _ _ _); [injection Hh as <-; simpl in *; lia|].
    simpl in *. destruct (turn_start_at path _); simpl in *; [injection Hh as <-; lia|].
    destruct (find_turn_start_index path _ _) as [t|] eqn:Et; simpl in *; injection Hh as <-; [|lia].
    pose proof (find_turn_start_spec path (absorb path (boundary path) (scan_back json_text path (cs_keep_recent_tokens settings) (n :: l) 0 n
      (reverse (seq (boundary path) (length path - boundary path))))) (boundary path)) as Hts. rw Et in Hts. lia. }
  split_and!; [done| |done|lia|lia|].
  - destruct (messages_of (slice path (boundary path) h)), (if cut_is_split_turn cut then messages_of _ else []);
      try done; injection Hp as <-; by rw Hid.
  - rw -(slice_app path (boundary path) h); [|lia]. rw messages_of_app.
    assert (messages_of (slice path h (cut_first_kept cut)) =
      (if cut_is_split_turn cut then messages_of (slice path h (cut_first_kept cut)) else [])) as ->.
    { destruct (cut_is_split_turn cut); [done|]. injection Hh as <-. unfold slice. by rw Nat.sub_diag. }
    destruct (messages_of (slice path (boundary path) h)), (if cut_is_split_turn cut then messages_of _ else []);
      try done; by injection Hp as <-.
Qed.

(** C20: the cut keeps enough and no more.  With [keep] the tokens to keep,
    the path is cut at a message that is no tool result (together with the
    metadata entries directly before it); from there on it holds at least
    [keep] estimated tokens, or the cut is at the first possible place, and
    cutting at any later place would keep fewer.  The cut splits a turn
    exactly when it is not at the start of one and the turn started after the
    boundary, and then the turn's start is the last one before the cut. *)
Theorem cut_point_is_optimal path s keep :
  (s < length path)%nat → 0 ≤ keep ≤ u64_max →
  let r := find_cut_point json_text path s (length path) keep in
  let cut := cut_first_kept r in
  (s ≤ cut < length path)%nat ∧
  (cut = s ∧ (∀ i, (s ≤ i)%nat → ¬ cut_point_at path i) ∧ cut_is_split_turn r = false ∨
   ∃ k, (cut ≤ k < length path)%nat ∧ cut_point_at path k ∧ metadata_between path cut k ∧
     (keep ≤ tokens_from json_text path k ∨ ∀ i, (s ≤ i < k)%nat → ¬ cut_point_at path i) ∧
     (∀ k', (k < k')%nat → cut_point_at path k' → tokens_from json_text path k' < keep) ∧
     (cut_is_split_turn r = true ↔ turn_start_at path cut = false ∧ ∃ t, (s ≤ t < cut)%nat ∧ turn_start_at path t = true) ∧
     (∀ t, cut_turn_start r = Some t → (s ≤ t < cut)%nat ∧ turn_start_at path t = true ∧
        ∀ j, (t < j ≤ cut)%nat → turn_start_at path j = false)).
Proof.
  intros Hs Hkeep r cut.
  assert (∀ i, cut_point_at path i → (i < length path)%nat) as Hlen by (intros i (e & He & _); by eapply lookup_lt_Some).
  split; [by apply find_cut_point_spec|]. unfold cut, r, find_cut_point. clear cut r.
  destruct (find_valid_cut_points path s (length path)) as [|first cps] eqn:Ecp.
  { left. split_and!; [done| |done]. intros i Hi Hc.
    assert (i ∈ find_valid_cut_points path s (length path)) as Hin by (apply valid_cut_points_spec; auto).
    rw Ecp in Hin. by apply elem_of_nil in Hin. }
  right. pose proof (scan_back_optimal json_text path s (length path - s) keep first cps Hkeep ltac:(lia) Ecp) as Ho.
  replace (s + (length path - s))%nat with (length path) in Ho by lia.
  assert (tokens_from json_text path (length path) = 0) as Ht0 by (unfold tokens_from; by rw drop_ge; [|lia]).
  rw Ht0 in Ho. replace (Z.min u64_max 0) with 0 in Ho by done.
  set (k := scan_back _ _ _ _ _ _ _) in *. destruct Ho as [Hk Hlate].
  { right. intros j Hj [m Hm]. by rw lookup_ge_None_2 in Hm; [|lia]. }
  assert (k ∈ find_valid_cut_points path s (length path)) as Hkin by (rw Ecp; apply scan_back_in; by left).
  apply valid_cut_points_spec in Hkin as [Hkr Hkc]. destruct (absorb_spec path s k ltac:(lia)) as [Ha Hm].
  set (c := absorb path s k) in *. pose proof (find_turn_start_spec path c s) as Hts. exists k. cbn [cut_first_kept cut_turn_start cut_is_split_turn].
  split_and!; try done; try lia.
  - destruct Hk as [Hk|Hk]; [by left|right]. intros i Hi Hc.
    pose proof (cut_points_sorted path s (length path)) as Hso. rw Ecp in Hso. apply StronglySorted_inv in Hso as [_ Hall].
    assert (i ∈ first :: cps) as Hin by (rw -Ecp; apply valid_cut_points_spec; split; [lia|done]).
    apply elem_of_cons in Hin as [->|Hin]; [lia|]. rw Forall_forall in Hall. apply Hall in Hin. lia.
  - intros k' Hk' Hc. apply Hlate; [|done]. rw -Ecp. apply valid_cut_points_spec. split; [|done]. apply Hlen in Hc. lia.
  - destruct (turn_start_at path c) eqn:Ec; simpl; [split; [done|naive_solver]|].
    destruct (find_turn_start_index path c s) as [t|].
    + destruct Hts as (Ht & Hts & _). split; [intros _; split; [done|]; exists t; split; [|done]|done].
      destruct (decide (t = c)) as [->|]; [congruence|lia].
    + split; [done|]. intros [_ (t & Ht & Hts')]. rw Hts in Hts'; [done|lia].
  - intros t Ht. destruct (turn_start_at path c) eqn:Ec; [done|]. rw Ht in Hts. destruct Hts as (Htr & Hts & Hlast).
    split_and!; try done; [lia|]. destruct (decide (t = c)) as [->|]; [congruence|lia].
Qed.

Definition result_at path (i : nat) (id : Str) : Prop :=
  ∃ b name content details err, path !! i = Some (mkEntry b (EMessage (SmToolResult id name content details err))).
Definition call_at path (i : nat) (id : Str) : Prop :=
  ∃ b m call, path !! i = Some (mkEntry b (EMessage (SmAssistant m))) ∧
    ToolCallBlock call ∈ a_content m ∧ tc_id call = id.

(** What the agent loop writes: a result follows the message that asked for
    it, with nothing but results and metadata in between. *)
Definition results_follow_calls path (s : nat) : Prop :=
  ∀ i id, (s ≤ i)%nat → result_at path i id →
    ∃ j, (s ≤ j < i)%nat ∧ call_at path j id ∧ ∀ m, (j < m < i)%nat → ¬ cut_point_at path m.

Definition unique_ids path : Prop :=
  ∀ i j e e' id, path !! i = Some e → path !! j = Some e' → base_id e = Some id → base_id e' = Some id → i = j.

Lemma cut_keeps_calls path s keep i id :
  (s < length path)%nat → results_follow_calls path s →
  let cut := cut_first_kept (find_cut_point json_text path s (length path) keep) in
  (cut ≤ i)%nat → result_at path i id → ∃ j, (cut ≤ j < i)%nat ∧ call_at path j id.
Proof.
  intros Hs Hf cut Hi Hr. destruct (find_cut_point_spec json_text path s (length path) keep ltac:(lia)) as [Hcut Hk].
  fold cut in Hcut, Hk. destruct (Hf i id ltac:(lia) Hr) as (j & Hj & Hcall & Hbetween).
  exists j. split; [|done]. split; [|lia]. destruct (decide (cut ≤ j)%nat) as [|Hlt]; [done|]. exfalso.
  destruct Hr as (b & name & content & details & err & Hr). destruct Hcall as (b' & m & call & Hcall & _).
  assert (cut_point_at path j) as Hcj by (eexists; split; [exact Hcall|done]).
  destruct Hk as [(k & Hk & Hc & Hm)|[_ Hno]]; [|apply (Hno j); [lia|done]].
  assert (k ≤ i)%nat as Hki.
  { destruct (decide (k ≤ i)%nat); [done|]. specialize (Hm i _ ltac:(lia) Hr). done. }
  destruct (decide (k = i)) as [->|]; [|apply (Hbetween k); [lia|done]].
  destruct Hc as (e & He & Hc). rw Hr in He. by injection He as <-.
Qed.

End Claims.

Lemma unique_ids_of_NoDup path : NoDup (base_id <$> path) → unique_ids path.
Proof.
  intros Hn i j e e' id He He' Hid Hid'. apply (NoDup_lookup _ i j (Some id) Hn); rw list_lookup_fmap; [rw He /= Hid|rw He' /= Hid']; done.
Qed.


Section Results.
Context (json_text : Json → Str) (provider : Str → Str → result (list (result StreamEvent Error)) Error).
Context (system_prompt prompt update_prompt prefix_prompt : Str).
Implicit Types path : list SessionEntry.

Abbreviation compact := (compact json_text provider system_prompt prompt update_prompt prefix_prompt).

Lemma compact_spec prep instructions r :
  compact prep instructions = Ok r →
  cr_first_kept_entry_id r = prep_first_kept_entry_id prep ∧ cr_tokens_before r = prep_tokens_before prep ∧
  (cr_read_files r, cr_modified_files r) = compute_file_lists (prep_file_ops prep).
Proof.
  unfold Compaction.compact. destruct (match prep_is_split_turn prep with true => _ | false => _ end) as [summary|]; [|done].
  cbn [result_bind]. destruct (compute_file_lists _) as [rd md]. by intros [= <-].
Qed.

(** A path of a session has no identifier twice. *)
Lemma session_ids_unique use_cache legacy_digest s :
  reachable use_cache legacy_digest s → unique_ids (entries_for_current_path s).
Proof.
  intros [Hok _]%session_reachable_ok. apply unique_ids_of_NoDup.
  by destruct (path_well_identified s _ _ Hok (current_path_spec s Hok)) as [_ [_ Hn]].
Qed.

(** C18: nothing after the last compaction is lost.  When a compaction of a
    session's current path has been prepared, summarised and appended to the
    session, the path's messages since the last compaction are, in order,
    those sent to be summarised, those of the cut turn's beginning sent with
    the second request, and those kept; the next context of the session is the
    summary message followed by the messages of exactly the kept entries. *)
Theorem history_is_summarised_or_kept use_cache legacy_digest s settings prep instructions r d stamp :
  reachable use_cache legacy_digest s → can_append s d →
  prepare_compaction json_text (entries_for_current_path s) settings = Some prep →
  compact prep instructions = Ok r →
  let path := entries_for_current_path s in
  let s' := (append_compaction use_cache s d stamp (entry_of_result r)).1 in
  ∃ kept, kept `suffix_of` path ∧ kept ≠ [] ∧
    messages_of (drop (boundary path) path)
      = prep_messages_to_summarize prep ++ prep_turn_prefix_messages prep ++ messages_of kept ∧
    to_messages_for_current_path s'
      = user_text (COMPACTION_SUMMARY_PREFIX ++ cr_summary r ++ COMPACTION_SUMMARY_SUFFIX) :: context_of kept.
Proof.
  intros Hs Hd (cut & e & He & Hid & _ & Hr & Hm)%prepare_spec (Hfirst & _)%compact_spec path s'. fold path in He, Hr, Hm.
  pose proof (session_ids_unique use_cache legacy_digest s Hs) as Hu. fold path in Hu.
  exists (drop cut path). split_and!.
  - exists (take cut path). by rw take_drop.
  - intros Hnil. apply (f_equal length) in Hnil. rw length_drop in Hnil. simpl in Hnil. lia.
  - rw -slice_to_end -(slice_app path (boundary path) cut); [|lia]. rw messages_of_app Hm slice_to_end. by rw -assoc.
  - rw messages_of_path.
    destruct (append_spec use_cache legacy_digest s d stamp (ECompaction (entry_of_result r)) MutMetadata Hs Hd) as (_ & E & _).
    unfold s', append_compaction. rw E. fold path. rw -{1}(take_drop cut path) (drop_S _ _ _ He).
    apply context_after_compaction; simpl; [by rw Hfirst|]. apply Forall_forall. intros x Hx Hxid.
    rw Hfirst in Hxid. apply list_elem_of_lookup in Hx as [i Hi]. apply lookup_take_Some in Hi as [Hi Hlt].
    pose proof (Hu i cut x e _ Hi He Hxid Hid). lia.
Qed.
End Results.

(** ** A concrete session *)

Definition said (id : Str) (kind : EntryKind) : SessionEntry := mkEntry (mkBase (Some id) None []) kind.
Definition asked (id text : Str) : SessionEntry := said id (EMessage (SmUser (UserText text))).
Definition answer (content : list ContentBlock) : AssistantMessage :=
  mkAssistant content [] [] [] Usage_default Stop None None.
Definition answered (id : Str) (content : list ContentBlock) : SessionEntry := said id (EMessage (SmAssistant (answer content))).
Definition returned (id call_id text : Str) : SessionEntry :=
  said id (EMessage (SmToolResult call_id (str "read") [text_block text] None false)).
Definition calls (id : Str) : ContentBlock := ToolCallBlock (mkToolCall id (str "read") (JsonString []) None).

Definition demo_path : list SessionEntry :=
  [asked (str "1") (str "first question");
   answered (str "2") [calls (str "t1")];
   returned (str "3") (str "t1") (str "first file");
   said (str "4") (EThinkingLevelChange (str "high"));
   answered (str "5") [text_block (str "first answer"); calls (str "t2")];
   returned (str "6") (str "t2") (str "second file");
   answered (str "7") [text_block (str "second answer")]].

Definition demo_settings : ResolvedCompactionSettings := mkSettings true 20 10 12.
Definition demo4_settings : ResolvedCompactionSettings := mkSettings true 4 1 2.
Definition demo_text (_ : Json) : Str := str "{}".
Definition demo_provider (_ _ : Str) : result (list (result StreamEvent Error)) Error :=
  Ok [Ok (SDone Stop (answer [text_block (str "a summary")]))].

(** After one compaction that kept entries 3 and 4, two more exchanges. *)
Definition twice_path : list SessionEntry :=
  [asked (str "1") (str "first question"); answered (str "2") [text_block (str "first answer")];
   asked (str "3") (str "second question"); answered (str "4") [text_block (str "second answer")];
   said (str "5") (ECompaction (mkCompaction (str "a summary") (str "3") 20 None None));
   asked (str "6") (str "third question"); answered (str "7") [text_block (str "third answer")];
   asked (str "8") (str "fourth question"); answered (str "9") [text_block (str "fourth answer")]].

(** After a compaction, one turn that is cut. *)
Definition cut_turn_path : list SessionEntry :=
  [asked (str "1") (str "first question"); answered (str "2") [text_block (str "first answer")];
   said (str "3") (ECompaction (mkCompaction (str "what we found out") (str "2") 20 None None));
   asked (str "4") (str "second question"); answered (str "5") [calls (str "t1")];
   returned (str "6") (str "t1") (str "first file"); answered (str "7") [text_block (str "a long second answer")]].

Lemma cut_point_is_optimal_witness :
  let r := find_cut_point demo_text demo_path 0 7 12 in
  cut_first_kept r = 3%nat ∧ cut_is_split_turn r = true ∧ (0 ≤ cut_first_kept r < 7)%nat.
Proof. split; [by vm_compute|]. split; [by vm_compute|]. apply (cut_point_is_optimal demo_text demo_path 0 12); vm_compute; [lia|done]. Defined.

Lemma history_is_summarised_or_kept_witness :
  ∃ r kept, kept `suffix_of` entries_for_current_path demo4 ∧
    to_messages_for_current_path (append_compaction true demo4 (demo_draw "e5") [] (entry_of_result r)).1
      = user_text (COMPACTION_SUMMARY_PREFIX ++ cr_summary r ++ COMPACTION_SUMMARY_SUFFIX) :: context_of kept.
Proof.
  assert (can_append demo4 (demo_draw "e5")) as Hc by draw_ok.
  destruct (prepare_compaction demo_text (entries_for_current_path demo4) demo4_settings) as [prep|] eqn:E; [|by vm_compute in E].
  destruct (compact demo_text demo_provider [] [] [] [] prep None) as [r|x] eqn:Er;
    [|vm_compute in E; injection E as <-; by vm_compute in Er].
  destruct (history_is_summarised_or_kept demo_text demo_provider [] [] [] [] true demo_digest demo4 demo4_settings prep None r
    (demo_draw "e5") [] demo4_reachable Hc E Er) as (kept & Hs & _ & _ & Hx).
  exists r, kept. split; [exact Hs|exact Hx].
Defined.

(** A second compaction drops what the first one kept.  The second starts
    after the first compaction's entry, and the entries the first one kept lie
    before it: here the answer of entry 4 is in the context before the second
    compaction, is not among the messages it sends to be summarised, and is
    not in the context after it, whatever the summary says. *)
Theorem second_compaction_forgets_kept_messages json_text :
  let m := Assistant (answer [text_block (str "second answer")]) in
  ∃ prep, prepare_compaction json_text twice_path (mkSettings true 20 10 8) = Some prep ∧
    m ∈ to_messages_from_path twice_path ∧
    ¬ (m ∈ omap session_message_to_model (prep_messages_to_summarize prep ++ prep_turn_prefix_messages prep)) ∧
    (∀ c base, ce_first_kept_entry_id c = prep_first_kept_entry_id prep →
      m ∉ to_messages_from_path (twice_path ++ [mkEntry base (ECompaction c)])).
Proof.
  intros m. eexists. split; [vm_compute; reflexivity|]. split_and!.
  - apply list_elem_of_In. vm_compute. tauto.
  - intros Hin%list_elem_of_In. vm_compute in Hin. naive_solver.
  - intros [s f t d h] base Hf. simpl in Hf. subst f.
    intros Hin%list_elem_of_In. unfold m in Hin. cbn in Hin. naive_solver.
Qed.

(** A cut turn can drop the previous summary.  When the turn that is cut
    starts right after the last compaction there is nothing else to summarise,
    so the request that would carry the previous summary is not made: the new
    summary starts with a fixed text and does not depend on the previous one. *)
Theorem cut_turn_forgets_previous_summary :
  ∃ prep, prepare_compaction demo_text cut_turn_path (mkSettings true 20 10 5) = Some prep ∧
    prep_previous_summary prep = Some (str "what we found out") ∧
    ∀ provider p1 p2 p3 p4 instructions r,
      compact demo_text provider p1 p2 p3 p4 prep instructions = Ok r →
      str "No prior history." `prefix_of` cr_summary r.
Proof.
  eexists. split; [vm_compute; reflexivity|]. split; [done|]. intros provider p1 p2 p3 p4 instructions r. unfold compact.
  cbn [prep_is_split_turn prep_turn_prefix_messages prep_messages_to_summarize result_bind].
  destruct (generate_turn_prefix_summary _ _ _ _ _) as [t|]; [|done]. cbn [result_bind].
  destruct (compute_file_lists _). intros [= <-]. cbn [cr_summary]. by eexists.
Qed.
