(* ===== verification/CompactionRuns.v ===== *)
(** * Compaction of what the agent wrote

    Composes [Compaction.v] with the transcripts of the agent loop
    ([AgentTranscript.v]): where the messages since the last compaction are
    those of agent runs, a compaction never separates a result from its call. *)

From S2P Require Import Prelude Text Utf8 Json ToolPolicy Messages MessageQueue ToolResults ToolBatches PartialJson AgentEnv AgentTools AgentStream AgentLoop AgentTranscript SessionEntries SessionAutosave SessionGraph SessionTree SessionPaths SessionSave SessionTrails Compaction.

(** ** Transcripts *)

(** Every result of a transcript follows, after other results only, an answer
    that holds its call. *)
Definition result_follows (ms : list Message) (i : nat) (r : ToolResultMessage) : Prop :=
  ∃ j a c, (j < i)%nat ∧ ms !! j = Some (Assistant a) ∧ ToolCallBlock c ∈ a_content a ∧ tc_id c = tr_tool_call_id r ∧
    ∀ m, (j < m < i)%nat → ∃ r', ms !! m = Some (ToolResult r').

Lemma result_follows_app l k i r : result_follows l i r → (i < length l)%nat → result_follows (l ++ k) i r.
Proof.
  intros (j & a & c & Hj & Ha & Hc & Hid & Hm) Hi. exists j, a, c. split_and!; [done|by apply lookup_app_l_Some|done|done|].
  intros m Hlt. destruct (Hm m Hlt) as [r' Hr]. exists r'. by apply lookup_app_l_Some.
Qed.

Lemma call_in_content c content : c ∈ extract_tool_calls content → ToolCallBlock c ∈ content.
Proof. unfold extract_tool_calls. intros (b & Hb & E)%list_elem_of_omap. destruct b; try done. by injection E as ->. Qed.

Lemma transcript_results ms i r : transcript ms → ms !! i = Some (ToolResult r) → result_follows ms i r.
Proof.
  intros H. revert i r. induction H as [|l m _ IH Hm|l a _ IH _|l a rs _ IH _ Hans]; intros i r Hi; [done|..];
    apply lookup_app_Some in Hi as [Hi|[Hlen Hi]]; try (apply result_follows_app; [by apply IH|by eapply lookup_lt_Some]).
  - apply list_lookup_singleton_Some in Hi as [_ ->]. done.
  - apply list_lookup_singleton_Some in Hi as [_ Hi]. done.
  - remember (i - length l)%nat as k eqn:Ek. destruct k as [|k]; [done|]. change ((ToolResult <$> rs) !! k = Some (ToolResult r)) in Hi. rewrite ->list_lookup_fmap in Hi. apply fmap_Some in Hi as (x & Hx & [= <-]).
    destruct (Forall2_lookup_r _ _ _ _ _ Hans Hx) as (c & Hc & [Hid _]).
    exists (length l), a, c. split_and!; [lia|by rw lookup_app_r // Nat.sub_diag|apply call_in_content; by eapply list_elem_of_lookup_2|done|].
    intros m Hm. rw lookup_app_r; [|lia]. destruct (m - length l)%nat as [|n] eqn:En; [lia|]. change (∃ r', (ToolResult <$> rs) !! n = Some (ToolResult r')). rw list_lookup_fmap.
    destruct (lookup_lt_is_Some_2 rs n) as [r' Hr']; [apply lookup_lt_Some in Hx; lia|]. rw Hr'. by exists r'.
Qed.

(** ** Positions of the spoken entries *)

Section Filtered.
Context {A} (P : A → Prop) `{∀ x, base.Decision (P x)}.

Lemma filter_at (l : list A) i x : l !! i = Some x → P x → filter P l !! length (filter P (take i l)) = Some x.
Proof.
  intros Hi Hx. pose proof (f_equal (filter P) (take_drop_middle l i x Hi)) as E. rewrite ->filter_app, filter_cons_True in E by done.
  rw -E lookup_app_r // Nat.sub_diag //.
Qed.

Lemma filter_pos (l : list A) k x : filter P l !! k = Some x → ∃ i, l !! i = Some x ∧ length (filter P (take i l)) = k.
Proof.
  revert k. induction l as [|y l IH]; intros k Hk; [done|]. rewrite ->filter_cons in Hk. destruct (decide (P y)) as [Hy|Hy].
  - destruct k as [|k]; [exists O; by injection Hk as ->|]. destruct (IH k Hk) as (i & Hi & <-). exists (S i). split; [done|]. cbn [take]. by rw filter_cons_True.
  - destruct (IH k Hk) as (i & Hi & <-). exists (S i). split; [done|]. cbn [take]. by rw filter_cons_False.
Qed.

(** A spoken entry that comes earlier has a smaller position. *)
Lemma filter_pos_lt (l : list A) i j x : l !! i = Some x → P x → (i < j)%nat → (length (filter P (take i l)) < length (filter P (take j l)))%nat.
Proof.
  intros Hi Hx Hij. assert (take j l = take i l ++ x :: take (j - S i) (drop (S i) l)) as ->.
  { pose proof (f_equal (take j) (take_drop_middle l i x Hi)) as E. rw -E. pose proof (lookup_lt_Some _ _ _ Hi). rw take_app_ge; rw length_take; [|lia]. f_equal.
    replace (j - i `min` length l)%nat with (S (j - S i)) by lia. done. }
  rw filter_app filter_cons_True // length_app. cbn. lia.
Qed.
End Filtered.

(** ** Paths that runs wrote *)

(** The entries that take part in the conversation. *)
Definition spoken (e : SessionEntry) : Prop := match entry_kind e with EMessage _ | EBranchSummary _ => True | _ => False end.
#[global] Instance spoken_dec e : base.Decision (spoken e).
Proof. unfold spoken. destruct (entry_kind e); apply _. Defined.

(** How a message of a run is stored; commands of the user and summaries count
    as messages from outside. *)
Definition written_as (e : SessionEntry) (m : Message) : Prop :=
  match entry_kind e with
  | EMessage (SmBashExecution _ _ _ _ _ _ _ | SmBranchSummary _ _ | SmCompactionSummary _ _) | EBranchSummary _ => is_input m
  | EMessage sm => session_message_from m = sm
  | _ => False
  end.

(** What was said since the last compaction is a transcript; metadata may stand
    anywhere. *)
Definition written_by_runs (path : list SessionEntry) : Prop :=
  ∃ ms, transcript ms ∧ Forall2 written_as (filter spoken (drop (boundary path) path)) ms.

Lemma written_result e m r : written_as e m → m = ToolResult r → ∃ b, e = mkEntry b (EMessage (SmToolResult (tr_tool_call_id r) (tr_tool_name r) (tr_content r) (tr_details r) (tr_is_error r))).
Proof. intros H ->. destruct e as [b k]. unfold written_as in H. cbn in H. exists b. destruct k as [[]| | | | | | |]; cbn in H; try done; by injection H as <- <- <- <- <-. Qed.

Lemma written_answer e a : written_as e (Assistant a) → ∃ b, e = mkEntry b (EMessage (SmAssistant a)).
Proof. intros H. destruct e as [b k]. unfold written_as in H. cbn in H. exists b. destruct k as [[]| | | | | | |]; cbn in H; try done. by injection H as <-. Qed.

Lemma written_by_runs_follow path : written_by_runs path → results_follow_calls path (boundary path).
Proof.
  intros (ms & Ht & Hw) i id Hi (b & name & content & details & err & Hr). set (l := drop (boundary path) path) in *.
  assert (∀ k, (boundary path ≤ k)%nat → path !! k = l !! (k - boundary path)%nat) as Hl by (intros k Hk; unfold l; rw lookup_drop; f_equal; lia).
  rewrite ->(Hl i Hi) in Hr. set (e := mkEntry b _) in Hr. assert (spoken e) as He by done.
  destruct (Forall2_lookup_l _ _ _ _ _ Hw (filter_at spoken l _ e Hr He)) as (m & Hm & Hwe).
  assert (∃ r, m = ToolResult r ∧ tr_tool_call_id r = id) as (r & -> & Hid).
  { unfold written_as in Hwe. cbn in Hwe. destruct m; try done. injection Hwe as Hid _ _ _ _. by eexists. }
  destruct (transcript_results _ _ _ Ht Hm) as (j & a & c & Hj & Ha & Hc & Hcid & Hbetween).
  destruct (Forall2_lookup_r _ _ _ _ _ Hw Ha) as (ea & Hea & Hwa). apply written_answer in Hwa as [ba ->].
  destruct (filter_pos spoken l j _ Hea) as (p & Hp & Hpj). exists (boundary path + p)%nat.
  assert (p < i - boundary path)%nat as Hpi.
  { destruct (decide (p < i - boundary path)%nat); [done|]. destruct (decide (p = i - boundary path)%nat) as [->|]; [lia|].
    pose proof (filter_pos_lt spoken l _ p e Hr He ltac:(lia)). lia. }
  split; [lia|]. split.
  - exists ba, a, c. split_and!; [rw Hl; [|lia]; rewrite <-Hp; f_equal; lia|done|congruence].
  - intros q Hq (x & Hx & Hcut). rewrite ->Hl in Hx by lia. assert (spoken x) as Hsx.
    { unfold is_cut_point in Hcut. unfold spoken. by destruct (entry_kind x) as [[]| | | | | | |]. }
    pose proof (filter_pos_lt spoken l _ (q - boundary path) _ Hp (ltac:(done) : spoken (mkEntry ba (EMessage (SmAssistant a)))) ltac:(lia)) as Hlt1.
    pose proof (filter_pos_lt spoken l _ (i - boundary path) _ Hx Hsx ltac:(lia)) as Hlt2.
    destruct (Hbetween (length (filter spoken (take (q - boundary path) l)))) as (r' & Hr'); [lia|].
    destruct (Forall2_lookup_l _ _ _ _ _ Hw (filter_at spoken l _ x Hx Hsx)) as (m' & Hm' & Hwx).
    assert (m' = ToolResult r') as -> by congruence. destruct (written_result _ _ r' Hwx eq_refl) as [b' ->]. done.
Qed.

(** The current path of any session has no identifier twice. *)
Lemma any_ids_unique use_cache legacy_digest s : session_state use_cache legacy_digest s → unique_ids (entries_for_current_path s).
Proof.
  intros Hok%session_state_ok. destruct (current_trail s Hok) as [missing Ht]. apply trail_ids in Ht as [_ Ht]. by apply unique_ids_of_NoDup.
Qed.

Section Claims.
Context (json_text : Json → Str) (use_cache : bool) (legacy_digest : SessionEntry → nat → Str).

(** C19: a compaction keeps whole exchanges.  In any session (new,
    opened, forked, merged) whose conversation since the last compaction was
    written by agent runs (their transcripts, in which every answer is followed
    by the results of its calls, with prompts, commands and summaries between
    them, and metadata anywhere), the part that a prepared compaction keeps
    begins at the entry it names, and every tool result in it still has its
    call before it: the model never sees a result without its call.  (An entry that an extension appends between a call and
    its result is a place where the code may cut.) *)
Theorem kept_results_keep_their_calls s settings prep :
  session_state use_cache legacy_digest s →
  let path := entries_for_current_path s in
  prepare_compaction json_text path settings = Some prep → written_by_runs path →
  ∃ cut, (∀ i e, path !! i = Some e → base_id e = Some (prep_first_kept_entry_id prep) ↔ i = cut) ∧
    (boundary path ≤ cut < length path)%nat ∧
    ∀ i id, (cut ≤ i)%nat → result_at path i id → ∃ j, (cut ≤ j < i)%nat ∧ call_at path j id.
Proof.
  intros Hs path Hp Hw. pose proof (any_ids_unique use_cache legacy_digest s Hs) as Hu. apply prepare_spec in Hp as (cut & e & He & Hid & Hcut & Hr & _).
  exists cut. split_and!; [|lia|lia|].
  - intros i e' Hi. split; [intros Hi'; by eapply (Hu i cut)|]. intros ->. fold path in He. congruence.
  - intros i id Hi Hres. subst cut. eapply cut_keeps_calls; [lia|by apply written_by_runs_follow|done|done].
Qed.
End Claims.

(** ** A session written by a run *)

Definition run_call (id : string) : ToolCall := mkToolCall (str id) (str "read") (JsonString []) None.
Definition run_answer (text : string) (cs : list ToolCall) : AssistantMessage := answer (text_block (str text) :: (ToolCallBlock <$> cs)).
Definition run_result (id text : string) : ToolResultMessage := mkToolResult (str id) (str "read") [text_block (str text)] None false.

Definition run_messages : list Message :=
  [User (mkUser (UserText (str "a question"))); Assistant (run_answer "reading" [run_call "t1"; run_call "t2"]);
   ToolResult (run_result "t1" "first file"); ToolResult (run_result "t2" "second file"); Assistant (run_answer "found it" [])].

Definition run_draw (n : nat) : Draw := mkDraw (λ _, [N.of_nat (97 + n)]) (str "full").

Fixpoint write_run (s : Session) (n : nat) (ms : list Message) : Session :=
  match ms with
  | [] => s
  | m :: ms' => write_run (append_model_message true s (run_draw n) [] m).1 (S n) ms'
  end.
Fixpoint writes_fresh (s : Session) (n : nat) (ms : list Message) : bool :=
  match ms with
  | [] => true
  | m :: ms' => bool_decide (str "full" ∉ entry_id_set (entries s)) && (len (entries s) <? u64_max) &&
                writes_fresh (append_model_message true s (run_draw n) [] m).1 (S n) ms'
  end.

Lemma write_run_steps s n ms : writes_fresh s n ms = true → rtc (session_step true demo_digest) s (write_run s n ms).
Proof.
  revert s n. induction ms as [|m ms IH]; intros s n H; [apply rtc_refl|]. cbn [writes_fresh] in H. bool_to_prop.
  eapply rtc_l; [|cbn [write_run]; by apply IH]. apply St_model_message. split; [|done]. by split_and!.
Qed.

Definition run_session : Session := write_run demo0 0 run_messages.

Lemma run_messages_transcript : transcript run_messages.
Proof.
  apply (transcript_silent (take 4 run_messages)); [|right; done]. apply (transcript_calls (take 1 run_messages) _ [run_result "t1" "first file"; run_result "t2" "second file"]).
  - by apply (transcript_input []); [constructor|].
  - by split_and!.
  - by repeat constructor.
Qed.

Lemma run_session_reachable : reachable true demo_digest run_session.
Proof. eexists _, _. split; [|apply write_run_steps; by vm_compute]. done. Qed.

Lemma run_session_written : written_by_runs (entries_for_current_path run_session).
Proof.
  exists run_messages. split; [apply run_messages_transcript|].
  let l := eval vm_compute in (filter spoken (drop (boundary (entries_for_current_path run_session)) (entries_for_current_path run_session))) in
    replace (filter spoken _) with l by (by vm_compute).
  by repeat constructor.
Qed.

Lemma kept_results_keep_their_calls_witness :
  ∃ cut, (cut < 5)%nat ∧ result_at (entries_for_current_path run_session) 3 (str "t2") ∧
    ∀ i id, (cut ≤ i)%nat → result_at (entries_for_current_path run_session) i id →
      ∃ j, (cut ≤ j < i)%nat ∧ call_at (entries_for_current_path run_session) j id.
Proof.
  destruct (prepare_compaction demo_text (entries_for_current_path run_session) (mkSettings true 4 1 12)) as [prep|] eqn:E; [|by vm_compute in E].
  destruct (kept_results_keep_their_calls demo_text true demo_digest run_session _ prep (reachable_session _ _ _ run_session_reachable) E run_session_written)
    as (cut & _ & Hcut & Hk). exists cut. split; [exact (proj2 Hcut)|]. split; [|exact Hk].
  do 5 eexists. vm_compute. reflexivity.
Defined.
