(* ===== verification/Dates.v ===== *)
(** * Dates ([days_to_ymd], [now_iso8601] of [src/permissions.rs])

    The conversion of a number of days since 1970-01-01 to a civil date, with
    its saturating 64-bit arithmetic, the timestamp built from it, and the
    calendar they are checked against. *)

From S2P Require Import Prelude Text Json.

(** ** The code *)

Definition days_to_ymd (days : Z) : Z * Z * Z :=
  let z := sat_add u64_max days 719468 in
  let era := z / 146097 in
  let era_days := sat_mul u64_max era 146097 in
  let doe := sat_sub z era_days in
  let doe_div_1460 := doe / 1460 in
  let doe_div_36524 := doe / 36524 in
  let doe_div_146096 := doe / 146096 in
  let yoe := sat_sub (sat_add u64_max (sat_sub doe doe_div_1460) doe_div_36524) doe_div_146096 / 365 in
  let era_years := sat_mul u64_max era 400 in
  let y := sat_add u64_max yoe era_years in
  let yoe_times_365 := sat_mul u64_max yoe 365 in
  let yoe_div_4 := yoe / 4 in
  let yoe_div_100 := yoe / 100 in
  let days_in_year := sat_sub (sat_add u64_max yoe_times_365 yoe_div_4) yoe_div_100 in
  let doy := sat_sub doe days_in_year in
  let doy_times_5 := sat_mul u64_max doy 5 in
  let mp := sat_add u64_max doy_times_5 2 / 153 in
  let mp_times_153 := sat_mul u64_max mp 153 in
  let d := sat_add u64_max (sat_sub doy (sat_add u64_max mp_times_153 2 / 5)) 1 in
  let m := if mp <? 10 then sat_add u64_max mp 3 else sat_sub mp 9 in
  let y := if m <=? 2 then sat_add u64_max y 1 else y in
  (y, m, d).

(** [{:0w}] for an unsigned number: padded on the left with zeros. *)
Definition pad_zeros (w : nat) (n : Z) : Str :=
  let digits := show_u64 n in
  replicate (w - length digits) 48%N ++ digits.

(** The timestamp of a duration since the epoch; a clock before the epoch is
    taken for the epoch. *)
Definition iso8601 (secs : Z) : Str :=
  let days := secs / 86400 in
  let time_of_day := secs mod 86400 in
  let hours := time_of_day / 3600 in
  let minutes := (time_of_day mod 3600) / 60 in
  let seconds := time_of_day mod 60 in
  let '(year, month, day) := days_to_ymd days in
  pad_zeros 4 year ++ str "-" ++ pad_zeros 2 month ++ str "-" ++ pad_zeros 2 day ++ str "T" ++
  pad_zeros 2 hours ++ str ":" ++ pad_zeros 2 minutes ++ str ":" ++ pad_zeros 2 seconds ++ str "Z".

(** ** The Gregorian calendar *)

Definition is_leap (y : Z) : bool :=
  (y mod 4 =? 0) && (negb (y mod 100 =? 0) || (y mod 400 =? 0)).

Definition month_days (y m : Z) : Z :=
  if m =? 2 then (if is_leap y then 29 else 28)
  else if (m =? 4) || (m =? 6) || (m =? 9) || (m =? 11) then 30 else 31.

Definition valid_date (v : Z * Z * Z) : Prop :=
  let '(y, m, d) := v in 0 ≤ y ∧ 1 ≤ m ≤ 12 ∧ 1 ≤ d ≤ month_days y m.

Definition next_day (v : Z * Z * Z) : Z * Z * Z :=
  let '(y, m, d) := v in
  if d <? month_days y m then (y, m, d + 1)
  else if m <? 12 then (y, m + 1, 1)
  else (y + 1, 1, 1).

(** Days since the epoch, by the years and months before the date. *)
Definition month_start (y m : Z) : Z :=
  if m <=? 2 then 31 * (m - 1)
  else (153 * (m - 3) + 2) / 5 + 59 + (if is_leap y then 1 else 0).

Definition day_number (v : Z * Z * Z) : Z :=
  let '(y, m, d) := v in
  365 * y + (y + 3) / 4 - (y + 99) / 100 + (y + 399) / 400 + month_start y m + (d - 1) - 719528.

Ltac eucl := Z.to_euclidean_division_equations; lia.

Lemma is_leap_div y :
  is_leap y = true ↔ y mod 4 = 0 ∧ (y mod 100 ≠ 0 ∨ y mod 400 = 0).
Proof. unfold is_leap. rw andb_true_iff orb_true_iff negb_true_iff !Z.eqb_eq Z.eqb_neq. done. Qed.

Lemma leap_step y :
  0 ≤ y →
  (y + 4) / 4 - (y + 100) / 100 + (y + 400) / 400 =
  (y + 3) / 4 - (y + 99) / 100 + (y + 399) / 400 + (if is_leap y then 1 else 0).
Proof.
  intros Hy. pose proof (is_leap_div y) as Hl. destruct (is_leap y).
  - destruct (proj1 Hl eq_refl) as [H4 H]. clear Hl. eucl.
  - assert (y mod 4 ≠ 0 ∨ y mod 100 = 0 ∧ y mod 400 ≠ 0) as H by (clear -Hl; lia || tauto).
    clear Hl. eucl.
Qed.

Ltac each_month m :=
  let Hcase := fresh in
  assert (m = 1 ∨ m = 2 ∨ m = 3 ∨ m = 4 ∨ m = 5 ∨ m = 6 ∨ m = 7 ∨ m = 8 ∨ m = 9 ∨ m = 10 ∨ m = 11 ∨ m = 12)
    as Hcase by lia;
  destruct Hcase as [->|[->|[->|[->|[->|[->|[->|[->|[->|[->|[->| ->]]]]]]]]]]]; try lia.

Lemma month_step y m : 1 ≤ m < 12 → month_start y (m + 1) = month_start y m + month_days y m.
Proof. intros Hm. unfold month_start, month_days. each_month m; simpl; destruct (is_leap y); done. Qed.

(** A step of the reference calendar is one day. *)
Lemma next_day_number v :
  valid_date v → valid_date (next_day v) ∧ day_number (next_day v) = day_number v + 1.
Proof.
  destruct v as [[y m] d]. intros (Hy & Hm & Hd). unfold next_day.
  destruct (Z.ltb_spec d (month_days y m)) as [Hlt|Hge]; [unfold valid_date, day_number; lia|].
  destruct (Z.ltb_spec m 12) as [Hm12|Hm12].
  - assert (1 ≤ month_days y (m + 1)) by (unfold month_days; repeat case_match; lia).
    split; [unfold valid_date; lia|].
    unfold day_number. rw month_step; lia.
  - assert (m = 12) as -> by lia. change (month_days y 12) with 31 in *.
    split; [unfold valid_date, month_days; simpl; lia|].
    unfold day_number. change (month_start (y + 1) 1) with 0.
    change (month_start y 12) with (334 + if is_leap y then 1 else 0).
    pose proof (leap_step y Hy). replace (y + 1 + 3) with (y + 4) by lia.
    replace (y + 1 + 99) with (y + 100) by lia. replace (y + 1 + 399) with (y + 400) by lia.
    destruct (is_leap y); lia.
Qed.

(** ** The algorithm

    It counts from 0000-03-01 in years that start in March, in eras of 400
    years.  Year [yoe] of an era starts at day [year_start yoe]. *)
Definition year_start (yoe : Z) : Z := 365 * yoe + yoe / 4 - yoe / 100.

Definition march_leap (yoe : Z) : Z := if is_leap (yoe + 1) then 1 else 0.

(** The quotient that recovers the year of the era. *)
Lemma yoe_of_day yoe doy :
  0 ≤ yoe ≤ 399 → 0 ≤ doy < 365 + march_leap yoe →
  let doe := year_start yoe + doy in
  0 ≤ doe ≤ 146096 ∧ (doe - doe / 1460 + doe / 36524 - doe / 146096) / 365 = yoe.
Proof.
  intros Hy Hdoy doe.
  pose proof (Z.div_mod yoe 100 ltac:(lia)) as Hc. pose proof (Z.mod_pos_bound yoe 100 ltac:(lia)) as Hcb.
  set (c := yoe / 100) in *. set (r := yoe mod 100) in *.
  pose proof (Z.div_mod r 4 ltac:(lia)) as Hq. pose proof (Z.mod_pos_bound r 4 ltac:(lia)) as Hqb.
  set (q := r / 4) in *. set (p := r mod 4) in *.
  assert (doe = 36524 * c + 1461 * q + 365 * p + doy) as Hdoe.
  { unfold doe, year_start. fold c. rw Hc Hq.
    replace ((100 * c + (4 * q + p)) / 4) with (25 * c + q) by eucl. lia. }
  assert (march_leap yoe = 1 → p = 3 ∧ (q < 24 ∨ c = 3)) as Hl1.
  { unfold march_leap. destruct (is_leap (yoe + 1)) eqn:E; [|lia].
    apply is_leap_div in E. intros _. clear -E Hc Hcb Hq Hqb Hy. eucl. }
  assert (march_leap yoe = 0 ∨ march_leap yoe = 1) as Hl by (unfold march_leap; case_match; lia).
  assert (0 ≤ c ≤ 3 ∧ 0 ≤ q ≤ 24) as [Hc3 Hq24] by lia.
  clearbody doe c r q p. generalize dependent (march_leap yoe). intros ml Hdoy Hl1 Hl.
  split; [lia|]. eucl.
Qed.

(** The code on a day given by era, year of the era and month from March. *)
Lemma days_to_ymd_march era yoe mp d :
  0 ≤ era → 0 ≤ yoe ≤ 399 → 0 ≤ mp ≤ 11 → 1 ≤ d →
  (153 * mp + 2) / 5 + d ≤ (153 * (mp + 1) + 2) / 5 →
  (153 * mp + 2) / 5 + d ≤ 365 + march_leap yoe →
  let z := 146097 * era + year_start yoe + (153 * mp + 2) / 5 + d - 1 in
  719468 ≤ z ≤ u64_max →
  days_to_ymd (z - 719468) =
  (400 * era + yoe + (if mp <? 10 then 0 else 1), if mp <? 10 then mp + 3 else mp - 9, d).
Proof.
  intros Hera Hyoe Hmp Hd Hnext Hend z Hz. unfold days_to_ymd.
  set (doy := (153 * mp + 2) / 5 + d - 1).
  assert (0 ≤ doy < 365 + march_leap yoe) as Hdoy by (unfold doy; eucl).
  destruct (yoe_of_day yoe doy Hyoe Hdoy) as [Hdoe Hq]. set (doe := year_start yoe + doy) in *.
  assert (z = 146097 * era + doe) as Hzd by (unfold z, doe, doy; lia).
  assert (sat_add u64_max (z - 719468) 719468 = z) as -> by (unfold sat_add; lia).
  assert (z / 146097 = era) as -> by (rw Hzd; eucl).
  assert (sat_mul u64_max era 146097 = 146097 * era) as -> by (unfold sat_mul; lia).
  assert (sat_sub z (146097 * era) = doe) as -> by (unfold sat_sub; lia).
  assert (sat_sub (sat_add u64_max (sat_sub doe (doe / 1460)) (doe / 36524)) (doe / 146096) =
          doe - doe / 1460 + doe / 36524 - doe / 146096) as ->.
  { unfold sat_sub, sat_add, u64_max. eucl. }
  rw Hq.
  assert (sat_mul u64_max era 400 = 400 * era) as -> by (unfold sat_mul; lia).
  assert (sat_add u64_max yoe (400 * era) = 400 * era + yoe) as -> by (unfold sat_add; lia).
  assert (sat_mul u64_max yoe 365 = 365 * yoe) as -> by (unfold sat_mul, u64_max; lia).
  assert (sat_sub (sat_add u64_max (365 * yoe) (yoe / 4)) (yoe / 100) = year_start yoe) as ->.
  { unfold sat_sub, sat_add, year_start, u64_max. eucl. }
  assert (sat_sub doe (year_start yoe) = doy) as -> by (unfold sat_sub, doe; lia).
  assert (march_leap yoe ≤ 1) by (unfold march_leap; case_match; lia).
  assert (sat_mul u64_max doy 5 = 5 * doy) as -> by (unfold sat_mul, u64_max; lia).
  assert (sat_add u64_max (5 * doy) 2 / 153 = mp) as ->.
  { unfold sat_add, u64_max, doy. clear -Hmp Hd Hnext. eucl. }
  assert (sat_mul u64_max mp 153 = 153 * mp) as -> by (unfold sat_mul, u64_max; lia).
  assert (sat_add u64_max (153 * mp) 2 / 5 = (153 * mp + 2) / 5) as -> by (unfold sat_add, u64_max; f_equal; lia).
  assert (sat_add u64_max (sat_sub doy ((153 * mp + 2) / 5)) 1 = d) as ->.
  { unfold sat_add, sat_sub, u64_max, doy in *. clear -Hmp Hd Hnext. eucl. }
  assert (400 * era + yoe + 1 ≤ u64_max) by (unfold u64_max in *; lia).
  destruct (Z.ltb_spec mp 10).
  - replace (sat_add u64_max mp 3) with (mp + 3) by (unfold sat_add, u64_max; lia).
    destruct (Z.leb_spec (mp + 3) 2); [lia|]. do 2 f_equal. lia.
  - replace (sat_sub mp 9) with (mp - 9) by (unfold sat_sub; lia).
    destruct (Z.leb_spec (mp - 9) 2); [|lia]. do 2 f_equal. unfold sat_add. lia.
Qed.

(** A civil date in terms of March years. *)
Lemma march_date y m d :
  valid_date (y, m, d) → 719468 ≤ day_number (y, m, d) + 719468 →
  let Y := if m <=? 2 then y - 1 else y in
  let mp := if m <=? 2 then m + 9 else m - 3 in
  let era := Y / 400 in let yoe := Y mod 400 in
  0 ≤ era ∧ 0 ≤ yoe ≤ 399 ∧ Y = 400 * era + yoe ∧ 0 ≤ mp ≤ 11 ∧
  (153 * mp + 2) / 5 + d ≤ (153 * (mp + 1) + 2) / 5 ∧
  (153 * mp + 2) / 5 + d ≤ 365 + march_leap yoe ∧
  day_number (y, m, d) + 719468 = 146097 * era + year_start yoe + (153 * mp + 2) / 5 + d - 1.
Proof.
  intros (Hy & Hm & Hd) Hn Y mp era yoe.
  assert (1 ≤ Y) as HY.
  { unfold day_number in Hn. assert (month_start y m ≤ 335) by (unfold month_start; repeat case_match; eucl).
    assert (month_days y m ≤ 31) by (unfold month_days; repeat case_match; lia).
    assert (3 ≤ y) by eucl. unfold Y. case_match; lia. }
  pose proof (Z.div_mod Y 400 ltac:(lia)) as HY'. pose proof (Z.mod_pos_bound Y 400 ltac:(lia)) as Hb.
  fold era in HY'. fold yoe in HY', Hb.
  assert (0 ≤ era) by (unfold era; eucl).
  assert (march_leap yoe = if is_leap (Y + 1) then 1 else 0) as Hml.
  { unfold march_leap. assert (is_leap (yoe + 1) = is_leap (Y + 1)) as ->; [|done].
    apply eq_true_iff_eq. rw !is_leap_div. clear -HY'. clearbody yoe era. subst Y. eucl. }
  assert (146097 * era + year_start yoe = 365 * Y + Y / 4 - Y / 100 + Y / 400) as Hys.
  { unfold year_start. clear -HY' Hb. clearbody yoe era. rw HY'. eucl. }
  rw Hys Hml. unfold Y, mp in *. clear Hys Hml. unfold day_number, month_start, month_days in *.
  destruct (Z.leb_spec m 2) as [Hm2|Hm2].
  - assert (m = 1 ∨ m = 2) as [-> | ->] by lia; replace (y - 1 + 1) with y by lia;
      change ((153 * (1 + 9) + 2) / 5) with 306; change ((153 * (2 + 9) + 2) / 5) with 337;
      change ((153 * (1 + 9 + 1) + 2) / 5) with 337; change ((153 * (2 + 9 + 1) + 2) / 5) with 367;
      simpl in Hd; (split_and!; [done|lia|lia|lia|lia|lia|destruct (is_leap y); lia..|]); eucl.
  - pose proof (leap_step y Hy) as Hls.
    assert ((y + 4) / 4 - (y + 100) / 100 + (y + 400) / 400 = y / 4 - y / 100 + y / 400 + 1) as Hl' by eucl.
    split_and!; [done|lia|lia|lia|lia|lia| | |].
    + clear -Hd Hm Hm2. each_month m; simpl in Hd; eucl.
    + assert (d ≤ 31) as Hd31 by (repeat case_match; lia). clear -Hd31 Hm. case_match; eucl.
    + destruct (is_leap y); lia.
Qed.

(** The date of the number of a date is that date. *)
Lemma days_to_ymd_of_number v :
  valid_date v → 0 ≤ day_number v → day_number v + 719468 ≤ u64_max → days_to_ymd (day_number v) = v.
Proof.
  destruct v as [[y m] d]. intros Hv Hn Hmax.
  destruct (march_date y m d Hv ltac:(lia)) as (He & Hyoe & HY & Hmp & Hnext & Hend & Heq).
  destruct Hv as (Hy & Hm & Hd).
  replace (day_number (y, m, d)) with (day_number (y, m, d) + 719468 - 719468) by lia.
  rw Heq days_to_ymd_march; try lia.
  destruct (Z.leb_spec m 2) as [Hm2|Hm2].
  - destruct (Z.ltb_spec (m + 9) 10); [lia|]. do 2 f_equal; lia.
  - destruct (Z.ltb_spec (m - 3) 10); [|lia]. do 2 f_equal; lia.
Qed.

Lemma days_to_ymd_spec n :
  0 ≤ n → n + 719468 ≤ u64_max → valid_date (days_to_ymd n) ∧ day_number (days_to_ymd n) = n.
Proof.
  intros Hn. pattern n. apply natlike_ind; [..|done]; clear n Hn.
  { intros _. split; [|reflexivity]. vm_compute. repeat split; discriminate. }
  intros n Hn IH Hmax. destruct (IH ltac:(lia)) as [Hv Heq].
  destruct (next_day_number _ Hv) as [Hv' Heq'].
  assert (days_to_ymd (Z.succ n) = next_day (days_to_ymd n)) as ->.
  { rw -(days_to_ymd_of_number (next_day (days_to_ymd n))); [by rw Heq' Heq|done|lia|lia]. }
  split; [done|lia].
Qed.

(** ** Timestamps in lexicographic order *)

Definition str_lt (s t : Str) : Prop := str_le s t = true ∧ s ≠ t.

Lemma str_lt_same p s t : str_lt s t → str_lt (p ++ s) (p ++ t).
Proof.
  intros [Hle Hne]. induction p as [|c p [IH1 IH2]]; [done|]. split; simpl.
  - rw N.eqb_refl N.ltb_irrefl. done.
  - by intros [= ?].
Qed.

Lemma str_lt_prefix s t x y : length s = length t → str_lt s t → str_lt (s ++ x) (t ++ y).
Proof.
  revert t. induction s as [|a s IH]; intros [|b t] Hlen [Hle Hne]; simplify_eq/=.
  destruct (N.ltb_spec a b) as [Hab|Hab]; simpl in *.
  - split; simpl; [by rw (proj2 (N.ltb_lt a b) Hab)|]. intros [= -> _]. lia.
  - apply andb_true_iff in Hle as [->%N.eqb_eq Hle].
    apply (str_lt_same [b]). apply IH; [done|]. split; [done|]. by intros ->.
Qed.

(** The decimal digits of a number, in a field of a given width. *)
Fixpoint fixed_digits (w : nat) (n : Z) : Str :=
  match w with O => [] | S w' => fixed_digits w' (n / 10) ++ [Z.to_N (48 + n mod 10)] end.

Lemma fixed_digits_length w n : length (fixed_digits w n) = w.
Proof. revert n. induction w as [|w IH]; intros n; simpl; [done|]. rw length_app IH /=. lia. Qed.

Lemma fixed_digits_0 w : fixed_digits w 0 = replicate w 48%N.
Proof. induction w as [|w IH]; [done|]. cbn [fixed_digits]. rw Z.div_0_l // IH -replicate_S_end. done. Qed.

Lemma pad_show w fuel n :
  (0 < w)%nat → (w ≤ fuel)%nat → 0 ≤ n < 10 ^ Z.of_nat w →
  replicate (w - length (show_digits fuel n)) 48%N ++ show_digits fuel n = fixed_digits w n.
Proof.
  revert fuel n. induction w as [|w IH]; intros [|fuel] n Hw Hf Hn; try lia.
  cbn [show_digits fixed_digits]. rw length_app /=. destruct (Z.ltb_spec n 10) as [Hlt|Hge].
  - rw Z.div_small; [|lia]. rw fixed_digits_0 /=. by replace (w - 0)%nat with w by lia.
  - rw app_assoc. f_equal. destruct w as [|w]; [simpl in Hn; lia|].
    rw -(IH fuel (n / 10)); [|lia|lia|].
    + do 2 f_equal. lia.
    + rw Nat2Z.inj_succ Z.pow_succ_r in Hn; [|lia]. split; [apply Z.div_pos; lia|].
      apply Z.div_lt_upper_bound; lia.
Qed.

Lemma pad_zeros_fixed w n :
  (0 < w ≤ 20)%nat → 0 ≤ n < 10 ^ Z.of_nat w → pad_zeros w n = fixed_digits w n.
Proof. intros Hw Hn. by apply pad_show; [lia..|]. Qed.

Lemma fixed_digits_lt w a b : 0 ≤ a < b → b < 10 ^ Z.of_nat w → str_lt (fixed_digits w a) (fixed_digits w b).
Proof.
  revert a b. induction w as [|w IH]; intros a b Hab Hb; [simpl in Hb; lia|]. cbn [fixed_digits].
  rw Nat2Z.inj_succ Z.pow_succ_r in Hb; [|lia].
  assert (b / 10 < 10 ^ Z.of_nat w) by (apply Z.div_lt_upper_bound; lia).
  destruct (Z.eq_dec (a / 10) (b / 10)) as [Heq|Hne].
  - rw Heq. apply str_lt_same. split; simpl.
    + rw (proj2 (N.ltb_lt _ _)); [done|]. eucl.
    + intros [= Hd]. eucl.
  - apply str_lt_prefix; [by rw !fixed_digits_length|]. apply IH; [|done]. eucl.
Qed.

(** A field that decides, or that is equal and leaves it to the rest. *)
Lemma field_lt w a b x y :
  0 ≤ a → 0 ≤ b → a < 10 ^ Z.of_nat w → b < 10 ^ Z.of_nat w →
  a < b ∨ a = b ∧ str_lt x y → str_lt (fixed_digits w a ++ x) (fixed_digits w b ++ y).
Proof.
  intros Ha Hb Hla Hlb [Hlt|[-> Hxy]]; [|by apply str_lt_same].
  apply str_lt_prefix; [by rw !fixed_digits_length|]. by apply fixed_digits_lt.
Qed.

(** Later dates are later in every component order. *)
Definition date_lt (v w : Z * Z * Z) : Prop :=
  let '(y, m, d) := v in let '(y', m', d') := w in
  y < y' ∨ y = y' ∧ (m < m' ∨ m = m' ∧ d < d').

Lemma month_start_bounds y m d :
  1 ≤ m ≤ 12 → 1 ≤ d ≤ month_days y m →
  0 ≤ month_start y m + (d - 1) < 365 + (if is_leap y then 1 else 0).
Proof.
  intros Hm Hd. unfold month_days, month_start in *.
  each_month m; simpl in *; destruct (is_leap y); eucl.
Qed.

Lemma month_start_mono y m m' d d' :
  1 ≤ m → m < m' ≤ 12 → 1 ≤ d ≤ month_days y m → 1 ≤ d' →
  month_start y m + d < month_start y m' + d'.
Proof.
  intros Hm Hm' Hd Hd'.
  assert (month_start y m + month_days y m ≤ month_start y m') as Hs; [|lia].
  clear Hd Hd'. revert Hm'. generalize dependent m'.
  intros m' Hm'. replace m' with (m + 1 + (m' - m - 1)) by lia.
  assert (0 ≤ m' - m - 1) as Hk by lia. assert (m' - m - 1 ≤ 11 - m) as Hmax by lia.
  revert Hmax. pattern (m' - m - 1). apply natlike_ind; [| |exact Hk]; clear m' Hm' Hk.
  - intros Hmax. replace (m + 1 + 0) with (m + 1) by lia. rw month_step; lia.
  - intros k Hk IH Hmax. replace (m + 1 + Z.succ k) with (m + 1 + k + 1) by lia. rw month_step; [|lia].
    assert (0 ≤ month_days y (m + 1 + k)) by (unfold month_days; repeat case_match; lia). lia.
Qed.

(** Days since the epoch at the start of a year. *)
Definition year_base (y : Z) : Z := 365 * y + (y + 3) / 4 - (y + 99) / 100 + (y + 399) / 400 - 719528.

Lemma year_base_step y y' : 0 ≤ y < y' → year_base y + 365 + (if is_leap y then 1 else 0) ≤ year_base y'.
Proof.
  intros Hy. assert (year_base (y + 1) ≤ year_base y') as Hle by (unfold year_base; eucl).
  enough (year_base (y + 1) = year_base y + 365 + (if is_leap y then 1 else 0)) by lia.
  unfold year_base. pose proof (leap_step y ltac:(lia)). replace (y + 1 + 3) with (y + 4) by lia.
  replace (y + 1 + 99) with (y + 100) by lia. replace (y + 1 + 399) with (y + 400) by lia.
  destruct (is_leap y); lia.
Qed.

Lemma day_number_base y m d : day_number (y, m, d) = year_base y + month_start y m + (d - 1).
Proof. unfold day_number, year_base. lia. Qed.

Lemma day_number_mono v w :
  valid_date v → valid_date w → date_lt v w → day_number v < day_number w.
Proof.
  destruct v as [[y m] d], w as [[y' m'] d']. intros (Hy & Hm & Hd) (Hy' & Hm' & Hd').
  rw !day_number_base. pose proof (month_start_bounds y m d Hm Hd).
  pose proof (month_start_bounds y' m' d' Hm' Hd').
  intros [Hlt|(<- & [Hlt|(<- & Hlt)])].
  - pose proof (year_base_step y y' ltac:(lia)). lia.
  - pose proof (month_start_mono y m m' d d' ltac:(lia) ltac:(lia) Hd ltac:(lia)). lia.
  - lia.
Qed.

Lemma days_to_ymd_mono a b :
  0 ≤ a < b → b + 719468 ≤ u64_max → date_lt (days_to_ymd a) (days_to_ymd b).
Proof.
  intros Hab Hb. destruct (days_to_ymd_spec a ltac:(lia) ltac:(lia)) as [Hva Hna].
  destruct (days_to_ymd_spec b ltac:(lia) Hb) as [Hvb Hnb].
  pose proof (day_number_mono _ _ Hvb Hva) as Hm.
  destruct (days_to_ymd a) as [[y m] d], (days_to_ymd b) as [[y' m'] d'].
  assert (¬ date_lt (y', m', d') (y, m, d)) as Hn by (intros ?%Hm; lia).
  assert ((y, m, d) ≠ (y', m', d')) by (intros [= -> -> ->]; lia).
  unfold date_lt in *. destruct (Z.lt_trichotomy y y') as [?|[->|?]]; [lia| |lia].
  destruct (Z.lt_trichotomy m m') as [?|[->|?]]; [lia| |lia].
  destruct (Z.lt_trichotomy d d') as [?|[->|?]]; [lia|congruence|lia].
Qed.

(** Before the year 10000, with every field in its range. *)
Definition year_10000 : Z := 253402300800.

Lemma iso8601_fields secs :
  0 ≤ secs < year_10000 →
  let '(y, m, d) := days_to_ymd (secs / 86400) in
  0 ≤ y < 10000 ∧ 0 ≤ m < 100 ∧ 0 ≤ d < 100 ∧
  iso8601 secs =
    fixed_digits 4 y ++ str "-" ++ fixed_digits 2 m ++ str "-" ++ fixed_digits 2 d ++ str "T" ++
    fixed_digits 2 (secs mod 86400 / 3600) ++ str ":" ++ fixed_digits 2 (secs mod 86400 mod 3600 / 60) ++
    str ":" ++ fixed_digits 2 (secs mod 86400 mod 60) ++ str "Z".
Proof.
  intros Hs. unfold iso8601, year_10000 in *.
  assert (0 ≤ secs / 86400 < 2932897) as Hd by eucl.
  destruct (days_to_ymd_spec (secs / 86400)) as [Hv Hn]; [lia|unfold u64_max; lia|].
  destruct (days_to_ymd (secs / 86400)) as [[y m] d]. destruct Hv as (Hy & Hm & Hdd).
  assert (y < 10000).
  { destruct (Z.lt_ge_cases y 10000); [done|]. rw day_number_base in Hn.
    pose proof (month_start_bounds y m d Hm Hdd). assert (2932897 ≤ year_base y) by (unfold year_base; eucl). lia. }
  assert (month_days y m ≤ 31) by (unfold month_days; repeat case_match; lia).
  split_and!; try lia. rw !pad_zeros_fixed //; try lia; simpl; try lia; eucl.
Qed.

(** ** Claims *)

(** The conversion is the Gregorian calendar: day zero is the first of
    January 1970, each next day is the next date of the calendar with its
    month lengths and leap years, and every date from the epoch on is the
    date of exactly its number; no intermediate value saturates for any
    number of days up to the point where the first addition itself does. *)
Theorem days_to_ymd_is_gregorian n :
  0 ≤ n → n + 719468 < u64_max →
  days_to_ymd 0 = (1970, 1, 1) ∧
  days_to_ymd (n + 1) = next_day (days_to_ymd n) ∧
  valid_date (days_to_ymd n) ∧
  (∀ v, valid_date v → day_number v = n → days_to_ymd n = v).
Proof.
  intros Hn Hmax. destruct (days_to_ymd_spec n Hn ltac:(lia)) as [Hv Heq].
  destruct (next_day_number _ Hv) as [Hv' Heq'].
  split_and!; [reflexivity| |done|].
  - rw -(days_to_ymd_of_number (next_day (days_to_ymd n))); [by rw Heq' Heq|done|lia|lia].
  - intros v Hvv <-. apply days_to_ymd_of_number; [done|lia|lia].
Qed.

Lemma days_to_ymd_is_gregorian_witness :
  days_to_ymd 11016 = (2000, 2, 29) ∧ days_to_ymd (11016 + 1) = next_day (days_to_ymd 11016).
Proof.
  destruct (days_to_ymd_is_gregorian 11016) as (_ & H & _ & _);
    [discriminate|vm_compute; reflexivity|]. split; [vm_compute; reflexivity|exact H].
Defined.

(** The timestamps of decisions sort as text in the order of time, for
    every time before the year 10000. *)
Theorem timestamps_sort_by_time a b :
  0 ≤ a < b → b < year_10000 → str_lt (iso8601 a) (iso8601 b).
Proof.
  intros Hab Hb. pose proof (iso8601_fields a ltac:(lia)) as Ha. pose proof (iso8601_fields b ltac:(lia)) as Hb'.
  assert (a / 86400 < b / 86400 ∨ a / 86400 = b / 86400 ∧ a mod 86400 < b mod 86400) as Hcase by eucl.
  assert (date_lt (days_to_ymd (a / 86400)) (days_to_ymd (b / 86400)) ∨
          a / 86400 = b / 86400 ∧ a mod 86400 < b mod 86400) as Hd.
  { destruct Hcase as [Hlt|?]; [left|by right]. apply days_to_ymd_mono; unfold year_10000, u64_max in *; eucl. }
  assert (a / 86400 = b / 86400 → days_to_ymd (a / 86400) = days_to_ymd (b / 86400)) as Hsame by by intros ->.
  destruct (days_to_ymd (a / 86400)) as [[y m] d], (days_to_ymd (b / 86400)) as [[y' m'] d'].
  destruct Ha as (Hy & Hm & Hdd & ->), Hb' as (Hy' & Hm' & Hdd' & ->). clear Hcase Hb Hab.
  assert (0 ≤ a mod 86400 < 86400 ∧ 0 ≤ b mod 86400 < 86400) as [Hta Htb] by eucl.
  generalize dependent (a mod 86400). intros ta Hd Hta. generalize dependent (b mod 86400). intros tb Htb Hd.
  assert ((y, m, d) = (y', m', d') ∧ ta < tb ∨ date_lt (y, m, d) (y', m', d')) as Hor by tauto.
  unfold date_lt in Hor. clear Hd Hsame.
  apply field_lt; [simpl; lia..|]. destruct Hor as [[[= <- <- <-] Ht]|Hor].
  - right. split; [done|]. apply str_lt_same, str_lt_same, str_lt_same, str_lt_same, str_lt_same.
    apply field_lt; [simpl; eucl..|]. assert (ta / 3600 < tb / 3600 ∨ ta / 3600 = tb / 3600) as [?|Hh] by eucl; [by left|].
    right. split; [done|]. apply str_lt_same. apply field_lt; [simpl; eucl..|].
    assert (ta mod 3600 / 60 < tb mod 3600 / 60 ∨ ta mod 3600 / 60 = tb mod 3600 / 60) as [?|Hmi] by eucl; [by left|].
    right. split; [done|]. apply str_lt_same. apply field_lt; [simpl; eucl..|]. left. eucl.
  - destruct Hor as [?|(<- & [?|(<- & ?)])]; [by left|right; split; [done|]..].
    + apply str_lt_same. apply field_lt; [simpl; lia..|by left].
    + apply str_lt_same, str_lt_same, str_lt_same. apply field_lt; [simpl; lia..|by left].
Qed.

Lemma timestamps_sort_by_time_witness : str_lt (iso8601 951782399) (iso8601 951782400).
Proof. apply timestamps_sort_by_time; vm_compute; split; discriminate || reflexivity. Defined.
