(* ===== verification/Permissions.v ===== *)
(** * The store of capability decisions ([src/permissions.rs])

    Decisions of the user on extension capabilities, mirrored in memory and
    kept in a file that several processes share.  The file is the state of
    the world; every operation that touches it takes the outcomes of its
    system calls as an argument, so that each failure is a branch.  The JSON
    codec, and the parser of expiry times, are parameters. *)

From S2P Require Import Prelude Text Json Messages Dates.

(** ** Data *)

Record PersistedDecision := mkDecision {
  d_capability : Str;
  d_allow : bool;
  d_decided_at : Str;
  d_expires_at : option Str;
  d_version_range : option Str;
}.

#[global] Instance PersistedDecision_eq_dec : EqDecision PersistedDecision.
Proof. solve_decision. Defined.

Definition CURRENT_VERSION : Z := 1.

(** [BTreeMap<String, Vec<PersistedDecision>>]; its order shows only in the
    text of the file. *)
Record PermissionsFile := mkFile {
  f_version : Z;
  f_decisions : gmap Str (list PersistedDecision);
}.

Definition PermissionsFile_default : PermissionsFile := mkFile CURRENT_VERSION ∅.

(** [extension_id] → [capability] → decision *)
Abbreviation Decisions := (gmap Str (gmap Str PersistedDecision)).

Record PermissionStore := mkStore { st_path : Str; st_decisions : Decisions }.

(** ** The file *)

Inductive DiskFile :=
| Missing
| Unreadable (err : Str)
| Contents (raw : Str).

(** [serde_json] on [PermissionsFile]: what it writes, it reads back, with a
    newline behind it. *)
Class PermissionsCodec := {
  parse_file : Str → result PermissionsFile Str;
  render_file : PermissionsFile → Str;
  parse_render : ∀ f, parse_file (render_file f ++ [c_nl]) = Ok f;
}.

(** What one attempt of the two to replace the file meets: a system call
    before the rename fails; the rename succeeds; or it fails, with whether
    the kind of the error is [NotFound] and, then, the outcome of creating the
    directory. *)
Inductive Attempt :=
| StepFailed (e : Error)
| Renamed
| RenameFailed (not_found : bool) (err : Str) (create_dir : option Error).

(** The outcomes of the system calls of one update: opening and taking the
    lock, creating the directory, the attempts, syncing the directory. *)
Record UpdateIo := mkIo {
  io_lock : option Error;
  io_create_dir : option Error;
  io_attempt : nat → Attempt;
  io_sync_dir : option Error;
}.

Definition capability_le (a b : PersistedDecision) : Prop := str_le (d_capability a) (d_capability b) = true.
#[global] Instance capability_le_dec : RelDecision capability_le.
Proof. intros a b. unfold capability_le. apply _. Defined.

Definition by_capability (decs : list PersistedDecision) : gmap Str PersistedDecision :=
  fold_left (λ m d, <[d_capability d := d]> m) decs ∅.

(** The ordered on-disk structure of [save_unlocked]. *)
Definition file_of (decisions : Decisions) : PermissionsFile :=
  mkFile CURRENT_VERSION ((λ by_cap, merge_sort capability_le (map_to_list by_cap).*2) <$> decisions).

Section Store.
Context `{PermissionsCodec}.

Definition load_permissions_decisions (path : Str) (disk : DiskFile) : result Decisions Error :=
  match disk with
  | Missing => Ok ∅
  | Unreadable e =>
      Err (ErrConfig (str "Failed to read permissions file " ++ path ++ str ": " ++ e))
  | Contents raw =>
      match parse_file raw with
      | Err e => Err (ErrConfig (str "Failed to parse permissions file " ++ path ++ str ": " ++ e))
      | Ok file =>
          if negb (f_version file =? CURRENT_VERSION) then
            Err (ErrConfig (str "Unsupported permissions file schema version " ++ show_u64 (f_version file)
                   ++ str " in " ++ path ++ str " (expected " ++ show_u64 CURRENT_VERSION ++ str ")"))
          else Ok (by_capability <$> f_decisions file)
      end
  end.

Definition empty_at (path : Str) : PermissionStore := mkStore path ∅.

Definition open (path : Str) (disk : DiskFile) : result PermissionStore Error :=
  let? decisions := load_permissions_decisions path disk in Ok (mkStore path decisions).

(** [for attempt in 0..2]: the new file, and the early return if any. *)
Fixpoint save_attempts (io : UpdateIo) (path contents : Str) (attempts : list nat) (disk : DiskFile)
    : DiskFile * option Error :=
  match attempts with
  | [] => (disk, None)
  | attempt :: rest =>
      match io_attempt io attempt with
      | StepFailed e => (disk, Some e)
      | Renamed => (Contents contents, None)
      | RenameFailed not_found err create_dir =>
          if not_found && (attempt =? 0)%nat then
            match create_dir with
            | Some e => (disk, Some e)
            | None => save_attempts io path contents rest disk
            end
          else (disk, Some (ErrConfig (str "Failed to persist permissions file to " ++ path ++ str ": " ++ err)))
      end
  end.

Definition save_unlocked (io : UpdateIo) (store : PermissionStore) (disk : DiskFile)
    : DiskFile * result unit Error :=
  match io_create_dir io with
  | Some e => (disk, Err e)
  | None =>
      let contents := render_file (file_of (st_decisions store)) ++ [c_nl] in
      match save_attempts io (st_path store) contents [0; 1]%nat disk with
      | (disk', Some e) => (disk', Err e)
      | (disk', None) =>
          match io_sync_dir io with Some e => (disk', Err e) | None => (disk', Ok tt) end
      end
  end.

(** Both locks are held from here to the end. *)
Definition update_persisted_decisions (update : Decisions → Decisions) (io : UpdateIo)
    (store : PermissionStore) (disk : DiskFile) : PermissionStore * DiskFile * result unit Error :=
  match io_lock io with
  | Some e => (store, disk, Err e)
  | None =>
      let current := match load_permissions_decisions (st_path store) disk with
                     | Ok decisions => decisions
                     | Err _ => st_decisions store
                     end in
      let store' := mkStore (st_path store) (update current) in
      let '(disk', r) := save_unlocked io store' disk in
      (store', disk', r)
  end.

(** [decisions.entry(extension_id).or_default().insert(capability, decision)] *)
Definition insert_decision (extension_id capability : Str) (decision : PersistedDecision)
    (decisions : Decisions) : Decisions :=
  <[extension_id := <[capability := decision]> (default ∅ (decisions !! extension_id))]> decisions.

Definition record (now_secs : Z) (extension_id capability : Str) (allow : bool) :=
  update_persisted_decisions (insert_decision extension_id capability
    (mkDecision capability allow (iso8601 now_secs) None None)).

Definition record_with_version (now_secs : Z) (extension_id capability : Str) (allow : bool)
    (version_range : Str) :=
  update_persisted_decisions (insert_decision extension_id capability
    (mkDecision capability allow (iso8601 now_secs) None (Some version_range))).

Definition revoke_extension (extension_id : Str) := update_persisted_decisions (delete extension_id).

Definition reset := update_persisted_decisions (λ _, ∅).
End Store.

(** ** Reading decisions *)

Section Lookup.
Context (parse_from_rfc3339 : Str → option Z).

Definition decision_is_active (decision : PersistedDecision) (now : Z) : bool :=
  match d_expires_at decision with
  | None => true
  | Some expires_at =>
      match parse_from_rfc3339 expires_at with Some expiry => now <=? expiry | None => false end
  end.

Definition store_lookup (now : Z) (store : PermissionStore) (extension_id capability : Str) : option bool :=
  by_cap ← st_decisions store !! extension_id;
  dec ← (by_cap : gmap Str PersistedDecision) !! capability;
  if decision_is_active dec now then Some (d_allow dec) else None.

Definition active_part (now : Z) (by_cap : gmap Str PersistedDecision) : gmap Str PersistedDecision :=
  filter (λ kv, decision_is_active kv.2 now = true) by_cap.

Definition nonempty_part {A} (m : gmap Str (gmap Str A)) : gmap Str (gmap Str A) :=
  filter (λ kv, kv.2 ≠ ∅) m.

Definition to_cache_map (now : Z) (store : PermissionStore) : gmap Str (gmap Str bool) :=
  nonempty_part ((λ by_cap, d_allow <$> active_part now by_cap) <$> st_decisions store).

Definition to_decision_cache (now : Z) (store : PermissionStore) : Decisions :=
  nonempty_part (active_part now <$> st_decisions store).
End Lookup.

(** ** The file carries the decisions *)

(** A decision is filed under its own capability. *)
Definition keyed (decisions : Decisions) : Prop :=
  map_Forall (λ _, map_Forall (λ c d, d_capability d = c)) decisions.

Definition pairs_of (decs : list PersistedDecision) : list (Str * PersistedDecision) :=
  (λ d, (d_capability d, d)) <$> decs.

Lemma by_capability_acc (decs : list PersistedDecision) (acc : gmap Str PersistedDecision) :
  NoDup (d_capability <$> decs) →
  fold_left (λ m d, <[d_capability d := d]> m) decs acc = list_to_map (pairs_of decs) ∪ acc.
Proof.
  revert acc. induction decs as [|d decs IH]; intros acc Hn; simpl; [by rw (left_id_L ∅ (∪))|].
  apply NoDup_cons in Hn as [Hd Hn]. rw (IH _ Hn) -insert_union_r.
  - by rw insert_union_l.
  - apply not_elem_of_list_to_map. unfold pairs_of. by rw -list_fmap_compose.
Qed.

Lemma by_capability_keyed decs : map_Forall (λ c d, d_capability d = c) (by_capability decs).
Proof.
  unfold by_capability. assert (map_Forall (λ c d, d_capability d = c) (∅ : gmap Str PersistedDecision))
    as Hacc by apply map_Forall_empty.
  revert Hacc. generalize (∅ : gmap Str PersistedDecision) as acc.
  induction decs as [|d decs IH]; intros acc Hacc; simpl; [done|].
  apply IH. by apply map_Forall_insert_2.
Qed.

(** Sorting the values by capability and reading them back. *)
Lemma by_capability_values (m : gmap Str PersistedDecision) :
  map_Forall (λ c d, d_capability d = c) m →
  by_capability (merge_sort capability_le (map_to_list m).*2) = m.
Proof.
  intros Hm. set (l := merge_sort capability_le (map_to_list m).*2).
  assert (Permutation l (map_to_list m).*2) as Hl by apply merge_sort_Permutation.
  assert (pairs_of (map_to_list m).*2 = map_to_list m) as Hpairs.
  { unfold pairs_of. rw -list_fmap_compose. rw -{2}(list_fmap_id (map_to_list m)).
    apply list_fmap_ext. intros i [c d] Hc. simpl. f_equal.
    by apply Hm, elem_of_map_to_list, list_elem_of_lookup_2 with i. }
  assert (Permutation (pairs_of l) (map_to_list m)) as Hp.
  { rw -Hpairs. unfold pairs_of. by rw Hl. }
  assert (NoDup (pairs_of l).*1) as Hn by (rw Hp; apply NoDup_fst_map_to_list).
  unfold by_capability. rw by_capability_acc.
  - rw (right_id_L ∅ (∪)) (list_to_map_proper _ _ Hn Hp). apply list_to_map_to_list.
  - unfold pairs_of in Hn. by rw -list_fmap_compose in Hn.
Qed.

Section StoreProofs.
Context `{PermissionsCodec}.

Lemma load_keyed path disk ds : load_permissions_decisions path disk = Ok ds → keyed ds.
Proof.
  unfold load_permissions_decisions. repeat case_match; intros [= <-]; [apply map_Forall_empty|].
  intros e m Hm. apply lookup_fmap_Some in Hm as (decs & <- & _). apply by_capability_keyed.
Qed.

(** What is saved is what is loaded. *)
Lemma load_saved path ds :
  keyed ds → load_permissions_decisions path (Contents (render_file (file_of ds) ++ [c_nl])) = Ok ds.
Proof.
  intros Hk. simpl. rw parse_render. simpl. f_equal. apply map_eq. intros e. rw !lookup_fmap.
  destruct (ds !! e) as [m|] eqn:E; [|done]. simpl. f_equal. apply by_capability_values. by apply (Hk e m).
Qed.

(** Whether the file was replaced. *)
Definition renamed (io : UpdateIo) : bool :=
  match io_attempt io 0 with
  | Renamed => true
  | RenameFailed true _ None => match io_attempt io 1 with Renamed => true | _ => false end
  | _ => false
  end.

Definition persisted (io : UpdateIo) : bool :=
  match io_lock io, io_create_dir io with None, None => renamed io | _, _ => false end.

Definition all_well (io : UpdateIo) : bool :=
  persisted io && match io_sync_dir io with None => true | Some _ => false end.

Lemma save_unlocked_spec io store disk :
  let '(disk', r) := save_unlocked io store disk in
  (disk' = if match io_create_dir io with None => renamed io | Some _ => false end
           then Contents (render_file (file_of (st_decisions store)) ++ [c_nl]) else disk) ∧
  (r = Ok tt ↔ match io_create_dir io, io_sync_dir io with None, None => renamed io = true | _, _ => False end).
Proof.
  unfold save_unlocked, renamed. destruct (io_create_dir io); [by split|]. simpl.
  destruct (io_attempt io 0) as [e| |nf err cd]; simpl; [by destruct (io_sync_dir io)..|].
  destruct nf, cd; simpl; try (by destruct (io_sync_dir io)).
  destruct (io_attempt io 1) as [e| |nf err' cd]; simpl; [by destruct (io_sync_dir io)..|].
  destruct nf; by destruct (io_sync_dir io).
Qed.

(** The decisions an update starts from. *)
Definition reloaded (store : PermissionStore) (disk : DiskFile) : Decisions :=
  match load_permissions_decisions (st_path store) disk with
  | Ok decisions => decisions
  | Err _ => st_decisions store
  end.

Lemma reloaded_keyed store disk : keyed (st_decisions store) → keyed (reloaded store disk).
Proof.
  unfold reloaded. destruct (load_permissions_decisions _ disk) eqn:E; [|done].
  intros _. by eapply load_keyed.
Qed.

(** The operations of the store, and what each does to the decisions. *)
Inductive StoreOp :=
| Record (now_secs : Z) (extension_id capability : Str) (allow : bool) (version_range : option Str)
| Revoke (extension_id : Str)
| Reset.

Definition apply_op (op : StoreOp) (ds : Decisions) : Decisions :=
  match op with
  | Record t e c allow range => insert_decision e c (mkDecision c allow (iso8601 t) None range) ds
  | Revoke e => delete e ds
  | Reset => ∅
  end.

Definition run_op (op : StoreOp) : UpdateIo → PermissionStore → DiskFile → PermissionStore * DiskFile * result unit Error :=
  match op with
  | Record t e c allow None => record t e c allow
  | Record t e c allow (Some range) => record_with_version t e c allow range
  | Revoke e => revoke_extension e
  | Reset => reset
  end.

Lemma run_op_update op : run_op op = update_persisted_decisions (apply_op op).
Proof. by destruct op as [? ? ? ? []| |]. Qed.

Lemma apply_op_keyed op ds : keyed ds → keyed (apply_op op ds).
Proof.
  intros Hk. destruct op as [t e c allow range|e|]; simpl.
  - apply map_Forall_insert_2; [|done]. apply map_Forall_insert_2; [done|].
    destruct (ds !! e) as [m|] eqn:E; simpl; [by apply (Hk e)|apply map_Forall_empty].
  - by apply map_Forall_delete.
  - apply map_Forall_empty.
Qed.

(** ** One update *)
Lemma run_op_spec op io store disk :
  keyed (st_decisions store) →
  let '(store', disk', r) := run_op op io store disk in
  st_path store' = st_path store ∧ keyed (st_decisions store') ∧
  st_decisions store' =
    match io_lock io with Some _ => st_decisions store | None => apply_op op (reloaded store disk) end ∧
  (if persisted io then load_permissions_decisions (st_path store) disk' = Ok (st_decisions store')
   else disk' = disk) ∧
  (r = Ok tt ↔ all_well io = true).
Proof.
  intros Hk. rw run_op_update. unfold update_persisted_decisions, persisted, all_well, persisted.
  destruct (io_lock io); [by split_and!|]. fold (reloaded store disk).
  set (store' := mkStore _ _). pose proof (save_unlocked_spec io store' disk) as Hs.
  assert (keyed (apply_op op (reloaded store disk))) as Hk' by by apply apply_op_keyed, reloaded_keyed.
  destruct (save_unlocked io store' disk) as [disk' r]. destruct Hs as [-> Hr].
  split_and!; [done|done|done| |].
  - destruct (io_create_dir io); [done|]. destruct (renamed io); [|done]. by apply load_saved.
  - rw Hr. destruct (io_create_dir io), (io_sync_dir io), (renamed io); simpl; naive_solver.
Qed.

(** ** Several processes

    Each has its own mirror, which may be stale; the lock makes an update one
    step. *)
Definition Update : Type := nat * StoreOp * UpdateIo.

Definition run_update (u : Update) (st : list PermissionStore * DiskFile) : list PermissionStore * DiskFile :=
  let '(i, op, io) := u in
  match st.1 !! i with
  | Some store => let '(store', disk', _) := run_op op io store st.2 in (<[i := store']> st.1, disk')
  | None => st
  end.

(** What the updates whose file was replaced do, in their order. *)
Definition effect (n : nat) (u : Update) (ds : Decisions) : Decisions :=
  let '(i, op, io) := u in if (i <? n)%nat && persisted io then apply_op op ds else ds.

(** All processes use the same path and have keyed mirrors. *)
Definition processes_ok (path : Str) (stores : list PermissionStore) : Prop :=
  Forall (λ s, st_path s = path ∧ keyed (st_decisions s)) stores.

Lemma run_update_spec path u stores disk ds :
  processes_ok path stores → load_permissions_decisions path disk = Ok ds →
  let '(stores', disk') := run_update u (stores, disk) in
  processes_ok path stores' ∧ length stores' = length stores ∧
  load_permissions_decisions path disk' = Ok (effect (length stores) u ds).
Proof.
  intros Hok Hl. destruct u as [[i op] io]. unfold run_update, effect. simpl.
  destruct (stores !! i) as [store|] eqn:Ei.
  - destruct (Forall_lookup_1 _ _ _ _ Hok Ei) as [Hp Hk].
    pose proof (run_op_spec op io store disk Hk) as Hs. destruct (run_op op io store disk) as [[store' disk'] r].
    destruct Hs as (Hp' & Hk' & Hds & Hdisk & _). apply lookup_lt_Some in Ei as Hi. split_and!.
    + apply Forall_insert; [done|]. split; [congruence|done].
    + apply length_insert.
    + rw (proj2 (Nat.ltb_lt _ _) Hi). simpl. rw Hp in Hdisk. destruct (persisted io) eqn:Ep; [|by subst].
      rw Hdisk Hds. unfold persisted in Ep. destruct (io_lock io); [done|]. unfold reloaded. by rw Hp Hl.
  - apply lookup_ge_None in Ei. split_and!; [done|done|].
    by rw (proj2 (Nat.ltb_ge _ _) Ei).
Qed.

Lemma run_updates_spec path us stores disk ds :
  processes_ok path stores → load_permissions_decisions path disk = Ok ds →
  load_permissions_decisions path (fold_left (λ st u, run_update u st) us (stores, disk)).2 =
  Ok (fold_left (λ d u, effect (length stores) u d) us ds).
Proof.
  revert stores disk ds. induction us as [|u us IH]; intros stores disk ds Hok Hl; simpl; [done|].
  pose proof (run_update_spec path u stores disk ds Hok Hl) as Hu.
  destruct (run_update u (stores, disk)) as [stores' disk']. destruct Hu as (Hok' & Hlen & Hl').
  rw -Hlen. apply IH; [done|]. by rw Hlen.
Qed.
End StoreProofs.

(** ** Reading back *)

Section LookupProofs.
Context (parse_from_rfc3339 : Str → option Z).

Lemma store_lookup_Some now store e c b :
  store_lookup parse_from_rfc3339 now store e c = Some b ↔
  ∃ m d, st_decisions store !! e = Some m ∧ m !! c = Some d ∧
    decision_is_active parse_from_rfc3339 d now = true ∧ d_allow d = b.
Proof.
  unfold store_lookup. split.
  - intros (m & Hm & Hb)%bind_Some. apply bind_Some in Hb as (d & Hd & Hb).
    destruct (decision_is_active _ d now) eqn:E; [|done]. injection Hb as <-. eauto 10.
  - intros (m & d & Hm & Hd & Ha & <-). rw Hm. simpl. rw Hd. simpl. by rw Ha.
Qed.

(** The caches seeded from the store, looked up. *)
Lemma nonempty_lookup {A} (m : gmap Str (gmap Str A)) e c :
  (nonempty_part m !! e ≫= λ m', m' !! c) = (m !! e ≫= λ m', m' !! c).
Proof.
  unfold nonempty_part. destruct (m !! e) as [m'|] eqn:E.
  - destruct (decide (m' = ∅)) as [->|Hne].
    + rw map_lookup_filter E. simpl. rw option_guard_False; last by intros ?. simpl. by rw lookup_empty.
    + rw map_lookup_filter E. simpl. by rw option_guard_True.
  - by rw map_lookup_filter E.
Qed.

Lemma active_part_lookup now m c :
  active_part parse_from_rfc3339 now m !! c =
  (m !! c ≫= λ d, if decision_is_active parse_from_rfc3339 d now then Some d else None).
Proof.
  unfold active_part. rw map_lookup_filter. destruct (m !! c) as [d|]; simpl; [|done].
  destruct (decision_is_active _ d now) eqn:E; [by rw option_guard_True|by rw option_guard_False; last congruence].
Qed.
End LookupProofs.

(** ** Claims *)

(** C13: no update is lost.  Whatever processes share the file, however stale
    their mirrors are, in whatever order they take the lock and whichever
    system calls fail, the file holds the effects of exactly the updates
    whose rename succeeded, in that order. *)
Theorem no_lost_updates `{PermissionsCodec} path us stores disk ds :
  processes_ok path stores → load_permissions_decisions path disk = Ok ds →
  load_permissions_decisions path (fold_left (λ st u, run_update u st) us (stores, disk)).2 =
  Ok (fold_left (λ d u, effect (length stores) u d) us ds).
Proof. apply run_updates_spec. Qed.

(** The outcome of one update on every path.  Success is reported
    exactly when every system call succeeded, and then mirror and file agree;
    a failure to take the lock changes nothing; any other failure leaves the
    change in the mirror, and in the file exactly when the rename had
    happened; a file that cannot be loaded is rebuilt from the mirror. *)
Theorem update_outcomes `{PermissionsCodec} op io store disk :
  keyed (st_decisions store) →
  let '(store', disk', r) := run_op op io store disk in
  (r = Ok tt ↔ all_well io = true) ∧
  (r = Ok tt → load_permissions_decisions (st_path store) disk' = Ok (st_decisions store')) ∧
  (is_Some (io_lock io) → st_decisions store' = st_decisions store ∧ disk' = disk) ∧
  (io_lock io = None →
     st_decisions store' = apply_op op
       match load_permissions_decisions (st_path store) disk with Ok ds => ds | Err _ => st_decisions store end) ∧
  (if persisted io then load_permissions_decisions (st_path store) disk' = Ok (st_decisions store')
   else disk' = disk).
Proof.
  intros Hk. pose proof (run_op_spec op io store disk Hk) as Hs.
  destruct (run_op op io store disk) as [[store' disk'] r]. destruct Hs as (_ & _ & Hds & Hdisk & Hr).
  split_and!; [done| | | |done].
  - intros Hok%Hr. unfold all_well in Hok. apply andb_true_iff in Hok as [Hp _]. by rw Hp in Hdisk.
  - intros [e He]. unfold persisted in Hdisk. by rw He in Hds Hdisk.
  - intros He. by rw He in Hds.
Qed.

(** A lookup answers the recorded decision of that very extension and
    capability, and only while its expiry, if any, can be read and has not
    passed; the caches seeded from the store answer the same.  A decision
    just recorded is found, whenever it is looked up; an extension whose
    decisions were revoked has none. *)
Theorem lookup_answers_recorded_decisions `{PermissionsCodec} parse now store e c :
  (∀ b, store_lookup parse now store e c = Some b ↔
     ∃ m d, st_decisions store !! e = Some m ∧ m !! c = Some d ∧ d_allow d = b ∧
       match d_expires_at d with
       | None => True
       | Some t => ∃ expiry, parse t = Some expiry ∧ now ≤ expiry
       end) ∧
  (to_cache_map parse now store !! e ≫= λ m, m !! c) = store_lookup parse now store e c ∧
  (d_allow <$> (to_decision_cache parse now store !! e ≫= λ m, m !! c)) = store_lookup parse now store e c ∧
  (∀ t allow range io disk, io_lock io = None →
     store_lookup parse now (run_op (Record t e c allow range) io store disk).1.1 e c = Some allow) ∧
  (∀ io disk, io_lock io = None →
     store_lookup parse now (run_op (Revoke e) io store disk).1.1 e c = None).
Proof.
  split_and!.
  - intros b. rw store_lookup_Some. unfold decision_is_active. split.
    + intros (m & d & Hm & Hd & Ha & Hb). exists m, d. split_and!; [done..|].
      destruct (d_expires_at d) as [t|]; [|done]. destruct (parse t) as [x|]; [|done]. exists x. split; [done|lia].
    + intros (m & d & Hm & Hd & Hb & Ha). exists m, d. split_and!; [done..| |done].
      destruct (d_expires_at d) as [t|]; [|done]. destruct Ha as (x & -> & Hx). lia.
  - unfold to_cache_map. rw nonempty_lookup lookup_fmap. unfold store_lookup.
    destruct (st_decisions store !! e) as [m|]; simpl; [|done]. rw lookup_fmap active_part_lookup.
    destruct (m !! c) as [d|]; simpl; [|done]. by destruct (decision_is_active parse d now).
  - unfold to_decision_cache. rw nonempty_lookup lookup_fmap. unfold store_lookup.
    destruct (st_decisions store !! e) as [m|]; simpl; [|done]. rw active_part_lookup.
    destruct (m !! c) as [d|]; simpl; [|done]. by destruct (decision_is_active parse d now).
  - intros t allow range io disk Hlock. rw run_op_update. unfold update_persisted_decisions. rw Hlock.
    destruct (save_unlocked io _ disk) as [disk' r]. simpl. unfold store_lookup, insert_decision. simpl.
    by rw lookup_insert_eq /= lookup_insert_eq.
  - intros io disk Hlock. rw run_op_update. unfold update_persisted_decisions. rw Hlock.
    destruct (save_unlocked io _ disk) as [disk' r]. simpl. unfold store_lookup. simpl. by rw lookup_delete_eq.
Qed.

(** ** A codec, and two processes *)

#[global] Instance PersistedDecision_countable : Countable PersistedDecision :=
  inj_countable' (λ d, (d_capability d, d_allow d, d_decided_at d, d_expires_at d, d_version_range d))
    (λ '(c, a, t, x, r), mkDecision c a t x r) ltac:(by intros []).

#[global] Instance PermissionsFile_eq_dec : EqDecision PermissionsFile.
Proof. solve_decision. Defined.

#[global] Instance PermissionsFile_countable : Countable PermissionsFile :=
  inj_countable' (λ f, (f_version f, f_decisions f)) (λ '(v, d), mkFile v d) ltac:(by intros []).

(** The file as one number, and a newline. *)
Definition number_codec : PermissionsCodec.
Proof.
  refine {| render_file f := [Npos (encode f)];
            parse_file s := match s with
                            | [Npos p; 10%N] => match decode p with Some f => Ok f | None => Err [] end
                            | _ => Err []
                            end |}.
  intros f. simpl. by rw decode_encode.
Defined.

Definition good_io : UpdateIo := mkIo None None (λ _, Renamed) None.
Definition sync_fails : UpdateIo := mkIo None None (λ _, Renamed) (Some ErrAborted).
Definition disk_full : UpdateIo := mkIo None None (λ _, StepFailed (ErrIo (str "no space"))) None.

(** Both processes start from an empty mirror; the second's update does not
    know the first's. *)
Lemma no_lost_updates_witness :
  @load_permissions_decisions number_codec (str "p")
    (fold_left (λ st u, @run_update number_codec u st)
       [(0, Record 0 (str "a") (str "exec") true None, good_io);
        (1, Record 0 (str "b") (str "http") false None, good_io);
        (1, Reset, disk_full)]%nat
       ([empty_at (str "p"); empty_at (str "p")], Missing)).2 =
  Ok (<[str "b" := {[str "http" := mkDecision (str "http") false (iso8601 0) None None]}]>
      {[str "a" := {[str "exec" := mkDecision (str "exec") true (iso8601 0) None None]}]}).
Proof.
  rw (@no_lost_updates number_codec (str "p") _ [empty_at (str "p"); empty_at (str "p")] Missing ∅).
  - reflexivity.
  - repeat constructor; intros ? ? [=].
  - reflexivity.
Defined.

Lemma update_outcomes_witness :
  let '(_, disk', r) := @run_op number_codec (Record 0 (str "a") (str "exec") true None) sync_fails
                          (empty_at (str "p")) Missing in
  r ≠ Ok tt ∧ disk' ≠ Missing.
Proof.
  pose proof (@update_outcomes number_codec (Record 0 (str "a") (str "exec") true None) sync_fails
    (empty_at (str "p")) Missing ltac:(intros ? ? [=])) as Hu.
  destruct (run_op _ _ _ _) as [[store' disk'] r] eqn:E. destruct Hu as (Hr & _).
  split; [intros Hok%Hr; discriminate|]. injection E as _ <- _. discriminate.
Defined.

Lemma lookup_answers_recorded_decisions_witness :
  store_lookup (λ _, None) 0
    (@run_op number_codec (Record 0 (str "a") (str "exec") true None) good_io (empty_at (str "p")) Missing).1.1
    (str "a") (str "exec") = Some true.
Proof.
  destruct (@lookup_answers_recorded_decisions number_codec (λ _, None) 0 (empty_at (str "p")) (str "a") (str "exec"))
    as (_ & _ & _ & Hrec & _). apply (Hrec 0 true None good_io Missing). reflexivity.
Defined.
