(* ===== verification/CapabilityPolicy.v ===== *)
(** * Capability policy of extensions ([src/extensions.rs])

    Which capabilities an extension may use: the precedence chain of
    [ExtensionPolicy::evaluate_for], its precomputed table [PolicySnapshot],
    the explanation and downgrade checks, and the profiles. *)

From S2P Require Import Prelude Text ExecMediation.

(** ** Capabilities *)

Inductive Capability := CapRead | CapWrite | CapHttp | CapEvents | CapSession | CapUi | CapExec | CapEnv | CapTool | CapLog.

#[global] Instance Capability_eq_dec : EqDecision Capability.
Proof. solve_decision. Defined.

Definition ALL_CAPABILITIES : list Capability :=
  [CapRead; CapWrite; CapHttp; CapEvents; CapSession; CapUi; CapExec; CapEnv; CapTool; CapLog].

Definition NUM_CAPABILITIES : nat := 10.

Definition Capability_as_str (c : Capability) : Str :=
  match c with
  | CapRead => str "read" | CapWrite => str "write" | CapHttp => str "http" | CapEvents => str "events"
  | CapSession => str "session" | CapUi => str "ui" | CapExec => str "exec" | CapEnv => str "env"
  | CapTool => str "tool" | CapLog => str "log"
  end.

Definition Capability_parse (s : Str) : option Capability :=
  let t := to_ascii_lowercase (trim s) in
  if decide (t = str "read") then Some CapRead
  else if decide (t = str "write") then Some CapWrite
  else if decide (t = str "http") then Some CapHttp
  else if decide (t = str "events") then Some CapEvents
  else if decide (t = str "session") then Some CapSession
  else if decide (t = str "ui") then Some CapUi
  else if decide (t = str "exec") then Some CapExec
  else if decide (t = str "env") then Some CapEnv
  else if decide (t = str "tool") then Some CapTool
  else if decide (t = str "log") then Some CapLog
  else None.

Definition is_dangerous (c : Capability) : bool :=
  match c with CapExec | CapEnv => true | _ => false end.

Definition dangerous_list : list Capability := [CapExec; CapEnv].

Definition Capability_index (c : Capability) : nat :=
  match c with
  | CapRead => 0 | CapWrite => 1 | CapHttp => 2 | CapEvents => 3 | CapSession => 4
  | CapUi => 5 | CapExec => 6 | CapEnv => 7 | CapTool => 8 | CapLog => 9
  end.

(** ** Policies *)

Inductive ExtensionPolicyMode := Strict | Prompt | Permissive.

#[global] Instance ExtensionPolicyMode_eq_dec : EqDecision ExtensionPolicyMode.
Proof. solve_decision. Defined.

(** Limits of an extension's resources; [None] is no limit. *)
Record ExtensionQuotaConfig := mkQuota {
  max_hostcalls_per_second : option Z;
  max_hostcalls_per_minute : option Z;
  max_hostcalls_total : option Z;
  max_subprocesses : option Z;
  max_write_bytes : option Z;
  max_http_requests : option Z;
}.

Definition for_mode (mode : ExtensionPolicyMode) : ExtensionQuotaConfig :=
  match mode with
  | Strict => mkQuota (Some 20) (Some 500) (Some 5000) (Some 4) (Some (50 * 1024 * 1024)) (Some 200)
  | Prompt => mkQuota (Some 100) (Some 2000) None (Some 8) None None
  | Permissive => mkQuota (Some 500) (Some 10000) None (Some 32) None None
  end.

Record ExtensionOverride := mkOverride {
  ov_mode : option ExtensionPolicyMode;
  ov_allow : list Str;
  ov_deny : list Str;
  ov_quota : option ExtensionQuotaConfig;
}.

Record ExtensionPolicy := mkPolicy {
  p_mode : ExtensionPolicyMode;
  p_max_memory_mb : Z;
  p_default_caps : list Str;
  p_deny_caps : list Str;
  p_per_extension : gmap Str ExtensionOverride;
  p_exec_mediation : ExecMediationPolicy;
  p_secret_broker : SecretBrokerPolicy;
}.

Definition standard_caps : list Str := [str "read"; str "write"; str "http"; str "events"; str "session"].

Definition ExtensionPolicy_default : ExtensionPolicy :=
  mkPolicy Prompt 256 standard_caps [str "exec"; str "env"] ∅ em_default sb_default.

Inductive PolicyProfile := ProfileSafe | ProfileStandard | ProfilePermissive.

Definition to_policy (profile : PolicyProfile) : ExtensionPolicy :=
  match profile with
  | ProfileSafe => mkPolicy Strict 256 standard_caps [str "exec"; str "env"] ∅ em_strict sb_default
  | ProfileStandard => ExtensionPolicy_default
  | ProfilePermissive => mkPolicy Permissive 256 [] [] ∅ em_permissive sb_default
  end.

(** ** Evaluation *)

Inductive PolicyDecision := PAllow | PPrompt | PDeny.

#[global] Instance PolicyDecision_eq_dec : EqDecision PolicyDecision.
Proof. solve_decision. Defined.

Record PolicyCheck := mkCheck { k_decision : PolicyDecision; k_capability : Str; k_reason : Str }.

(** [list.iter().any(|cap| cap.eq_ignore_ascii_case(&normalized))] *)
Definition lists_cap (caps : list Str) (normalized : Str) : bool :=
  existsb (λ cap, eq_ignore_ascii_case cap normalized) caps.

Definition evaluate_for (p : ExtensionPolicy) (capability : Str) (extension_id : option Str) : PolicyCheck :=
  let normalized := to_ascii_lowercase (trim capability) in
  if is_empty normalized then mkCheck PDeny [] (str "empty_capability")
  else
    let ext_override := extension_id ≫= λ id, p_per_extension p !! id in
    let in_override f := match ext_override with Some ovr => lists_cap (f ovr) normalized | None => false end in
    if in_override ov_deny then mkCheck PDeny normalized (str "extension_deny")
    else if lists_cap (p_deny_caps p) normalized then mkCheck PDeny normalized (str "deny_caps")
    else if in_override ov_allow then mkCheck PAllow normalized (str "extension_allow")
    else
      let in_default_caps := lists_cap (p_default_caps p) normalized in
      let effective_mode := default (p_mode p) (ext_override ≫= ov_mode) in
      match effective_mode with
      | Strict =>
          mkCheck (if in_default_caps then PAllow else PDeny) normalized
            (if in_default_caps then str "default_caps" else str "not_in_default_caps")
      | Prompt =>
          mkCheck (if in_default_caps then PAllow else PPrompt) normalized
            (if in_default_caps then str "default_caps" else str "prompt_required")
      | Permissive => mkCheck PAllow normalized (str "permissive")
      end.

Definition evaluate (p : ExtensionPolicy) (capability : Str) : PolicyCheck := evaluate_for p capability None.

Definition has_override (p : ExtensionPolicy) (extension_id : Str) : bool :=
  bool_decide (is_Some (p_per_extension p !! extension_id)).

(** ** Explanation *)

Record CapabilityExplanation := mkExplanation {
  x_capability : Str; x_decision : PolicyDecision; x_reason : Str; x_is_dangerous : bool;
}.

Record PolicyExplanation := mkPolicyExplanation {
  e_mode : ExtensionPolicyMode;
  e_default_caps : list Str;
  e_deny_caps : list Str;
  e_exec_mediation_enabled : bool;
  e_secret_broker_enabled : bool;
  e_capability_decisions : list CapabilityExplanation;
  e_dangerous_allowed : list Str;
  e_dangerous_denied : list Str;
  e_extension_id : option Str;
}.

Definition explain_capability (p : ExtensionPolicy) (extension_id : option Str) (cap : Capability)
    : CapabilityExplanation :=
  let check := evaluate_for p (Capability_as_str cap) extension_id in
  mkExplanation (Capability_as_str cap) (k_decision check) (k_reason check) (is_dangerous cap).

Definition dangerous_with (d : PolicyDecision) (l : list CapabilityExplanation) : list Str :=
  x_capability <$> filter (λ c, x_is_dangerous c = true ∧ x_decision c = d) l.

Definition explain_effective_policy (p : ExtensionPolicy) (extension_id : option Str) : PolicyExplanation :=
  let capability_decisions := explain_capability p extension_id <$> ALL_CAPABILITIES in
  mkPolicyExplanation (p_mode p) (p_default_caps p) (p_deny_caps p) (em_enabled (p_exec_mediation p))
    (sb_enabled (p_secret_broker p)) capability_decisions
    (dangerous_with PAllow capability_decisions) (dangerous_with PDeny capability_decisions) extension_id.

(** ** Downgrades *)

Definition decision_strictness (d : PolicyDecision) : Z :=
  match d with PAllow => 0 | PPrompt => 1 | PDeny => 2 end.
Definition mode_strictness (m : ExtensionPolicyMode) : Z :=
  match m with Permissive => 0 | Prompt => 1 | Strict => 2 end.

Record ProfileTransitionCheck := mkTransition {
  t_is_valid_downgrade : bool;
  t_exec_before : PolicyDecision; t_exec_after : PolicyDecision;
  t_env_before : PolicyDecision; t_env_after : PolicyDecision;
  t_mode_before : ExtensionPolicyMode; t_mode_after : ExtensionPolicyMode;
}.

Definition is_valid_downgrade (from to : ExtensionPolicy) : ProfileTransitionCheck :=
  let from_exec := k_decision (evaluate from (str "exec")) in
  let to_exec := k_decision (evaluate to (str "exec")) in
  let from_env := k_decision (evaluate from (str "env")) in
  let to_env := k_decision (evaluate to (str "env")) in
  let exec_tightened := decision_strictness from_exec <=? decision_strictness to_exec in
  let env_tightened := decision_strictness from_env <=? decision_strictness to_env in
  let mode_tightened := mode_strictness (p_mode from) <=? mode_strictness (p_mode to) in
  mkTransition (exec_tightened && env_tightened && mode_tightened) from_exec to_exec from_env to_env
    (p_mode from) (p_mode to).

(** ** The precomputed table *)

Record SnapshotEntry := mkEntry { n_decision : PolicyDecision; n_reason : Str }.

Definition SnapshotEntry_default : SnapshotEntry := mkEntry PDeny (str "not_computed").

Definition KNOWN_REASONS : list Str :=
  [str "default_caps"; str "deny_caps"; str "extension_deny"; str "extension_allow";
   str "not_in_default_caps"; str "prompt_required"; str "permissive"; str "empty_capability"].

Definition intern_reason (reason : Str) : Str :=
  if decide (reason ∈ KNOWN_REASONS) then reason else str "precomputed".

Definition compute_decisions (p : ExtensionPolicy) (extension_id : option Str) : list SnapshotEntry :=
  fold_left (λ decisions cap,
    let check := evaluate_for p (Capability_as_str cap) extension_id in
    <[Capability_index cap := mkEntry (k_decision check) (intern_reason (k_reason check))]> decisions)
    ALL_CAPABILITIES (replicate NUM_CAPABILITIES SnapshotEntry_default).

Record PolicySnapshot := mkSnapshot {
  ps_global : list SnapshotEntry;
  ps_per_extension : gmap Str (list SnapshotEntry);
  ps_fallback : ExtensionPolicy;
}.

Definition compile (p : ExtensionPolicy) : PolicySnapshot :=
  mkSnapshot (compute_decisions p None)
    (map_imap (λ ext_id _, Some (compute_decisions p (Some ext_id))) (p_per_extension p)) p.

(** The index is in range: the array has one entry per capability. *)
Definition snapshot_lookup (s : PolicySnapshot) (capability : Str) (extension_id : option Str) : PolicyCheck :=
  match Capability_parse capability with
  | None => evaluate_for (ps_fallback s) capability extension_id
  | Some cap =>
      let arr := default (ps_global s) (extension_id ≫= λ id, ps_per_extension s !! id) in
      let entry := default SnapshotEntry_default (arr !! Capability_index cap) in
      mkCheck (n_decision entry) capability (n_reason entry)
  end.

(** ** Lemmas *)

(** A decision depends on the normalised name. *)
Lemma evaluate_for_normalized p c c' ext :
  to_ascii_lowercase (trim c) = to_ascii_lowercase (trim c') → evaluate_for p c ext = evaluate_for p c' ext.
Proof. intros H. unfold evaluate_for. by rw H. Qed.

Lemma Capability_parse_Some s c :
  Capability_parse s = Some c → to_ascii_lowercase (trim s) = to_ascii_lowercase (trim (Capability_as_str c)).
Proof.
  unfold Capability_parse. intros H.
  repeat match type of H with (if decide ?P then _ else _) = _ => destruct (decide P) as [->|] end;
    [injection H as <-; vm_compute; reflexivity..|done].
Qed.

Lemma evaluate_reason_known p c ext : k_reason (evaluate_for p c ext) ∈ KNOWN_REASONS.
Proof.
  unfold evaluate_for, KNOWN_REASONS. repeat case_match; simpl; set_solver.
Qed.

Lemma compute_decisions_lookup p ext cap :
  compute_decisions p ext !! Capability_index cap =
  Some (mkEntry (k_decision (evaluate_for p (Capability_as_str cap) ext))
          (k_reason (evaluate_for p (Capability_as_str cap) ext))).
Proof.
  assert (∀ c, intern_reason (k_reason (evaluate_for p c ext)) = k_reason (evaluate_for p c ext)) as Hi.
  { intros c. unfold intern_reason. by rw decide_True; last apply evaluate_reason_known. }
  unfold compute_decisions. simpl. rw !Hi. by destruct cap.
Qed.

(** ** Specification *)

Section Spec.
Context (p : ExtensionPolicy) (capability : Str) (extension_id : option Str).

Definition override : option ExtensionOverride := extension_id ≫= λ id, p_per_extension p !! id.
Definition effective_mode : ExtensionPolicyMode := default (p_mode p) (override ≫= ov_mode).

(** A list of capability tokens names the capability, up to case and outer
    blanks of the request. *)
Definition names (caps : list Str) : Prop :=
  ∃ cap, cap ∈ caps ∧ to_ascii_lowercase cap = to_ascii_lowercase (trim capability).

Definition denied : Prop :=
  trim capability = [] ∨ names (p_deny_caps p) ∨ ∃ ovr, override = Some ovr ∧ names (ov_deny ovr).
Definition listed : Prop :=
  names (p_default_caps p) ∨ ∃ ovr, override = Some ovr ∧ names (ov_allow ovr).

Lemma to_ascii_lowercase_idem s : to_ascii_lowercase (to_ascii_lowercase s) = to_ascii_lowercase s.
Proof.
  unfold to_ascii_lowercase. rw -list_fmap_compose. apply list_fmap_ext. intros _ c _. unfold compose, to_ascii_lower.
  destruct ((65 <=? c)%N && (c <=? 90)%N) eqn:E; [|by rw E].
  pose proof (to_ascii_lower_not_upper c) as Hn. unfold to_ascii_lower in Hn. rw E in Hn. by rw Hn.
Qed.

Lemma lists_cap_names caps : lists_cap caps (to_ascii_lowercase (trim capability)) = true ↔ names caps.
Proof.
  unfold lists_cap, names, eq_ignore_ascii_case. rw existsb_exists. split.
  - intros (cap & Hin & Heq). exists cap. apply bool_decide_eq_true_1 in Heq.
    rw to_ascii_lowercase_idem in Heq. split; [by apply list_elem_of_In|done].
  - intros (cap & Hin & Heq). exists cap. split; [by apply list_elem_of_In|].
    apply bool_decide_eq_true_2. by rw to_ascii_lowercase_idem.
Qed.

Lemma is_empty_lowercase s : is_empty (to_ascii_lowercase s) = is_empty s.
Proof. by destruct s. Qed.

End Spec.

Lemma override_lists p capability ext f :
  (match override p ext with Some ovr => lists_cap (f ovr) (to_ascii_lowercase (trim capability)) | None => false end)
    = true ↔ ∃ ovr, override p ext = Some ovr ∧ names capability (f ovr).
Proof.
  destruct (override p ext) as [ovr|]; [|naive_solver]. rw lists_cap_names. naive_solver.
Qed.

Lemma evaluate_cases p capability ext :
  denied p capability ext ∧ k_decision (evaluate_for p capability ext) = PDeny ∨
  (¬ denied p capability ext ∧ listed p capability ext ∧ k_decision (evaluate_for p capability ext) = PAllow) ∨
  (¬ denied p capability ext ∧ ¬ listed p capability ext ∧
   k_decision (evaluate_for p capability ext) =
     match effective_mode p ext with Strict => PDeny | Prompt => PPrompt | Permissive => PAllow end).
Proof.
  pose proof (override_lists p capability ext ov_deny) as Hdeny. pose proof (override_lists p capability ext ov_allow) as Hallow.
  pose proof (lists_cap_names capability (p_deny_caps p)) as Hgd.
  pose proof (lists_cap_names capability (p_default_caps p)) as Hgc.
  unfold denied, listed, evaluate_for, effective_mode. fold (override p ext). rw is_empty_lowercase -Hdeny -Hallow -Hgd -Hgc.
  clear. destruct (trim capability) as [|ch rest]; simpl; [left; tauto|].
  destruct (lists_cap (p_deny_caps p) _), (lists_cap (p_default_caps p) _), (override p ext) as [ovr|]; simpl;
    try (destruct (lists_cap (ov_deny ovr) _), (lists_cap (ov_allow ovr) _)); simpl;
    repeat case_match; simpl; intuition discriminate.
Qed.

(** ** Claims *)

(** The precedence chain.  A denial, global or of the extension, beats
    everything; otherwise a listed capability is allowed; otherwise the
    effective mode decides, and only prompt mode asks.  Case and outer blanks
    of the request do not matter, and a blank request is denied. *)
Theorem capability_precedence p capability ext :
  (denied p capability ext → k_decision (evaluate_for p capability ext) = PDeny) ∧
  (k_decision (evaluate_for p capability ext) = PAllow ↔
     ¬ denied p capability ext ∧ (listed p capability ext ∨ effective_mode p ext = Permissive)) ∧
  (k_decision (evaluate_for p capability ext) = PPrompt ↔
     ¬ denied p capability ext ∧ ¬ listed p capability ext ∧ effective_mode p ext = Prompt) ∧
  (∀ capability', to_ascii_lowercase (trim capability') = to_ascii_lowercase (trim capability) →
     evaluate_for p capability' ext = evaluate_for p capability ext).
Proof.
  split_and!; [| | |intros c' Hc; by apply evaluate_for_normalized];
    destruct (evaluate_cases p capability ext) as [[Hd ->]|[(Hd & Hl & ->)|(Hd & Hl & ->)]];
    destruct (effective_mode p ext); intuition discriminate.
Qed.

(** The precomputed table answers like the policy it was compiled from:
    same decision and reason for every capability string and extension,
    known or not; only the echoed name is the request's own spelling. *)
Theorem snapshot_agrees p capability ext :
  k_decision (snapshot_lookup (compile p) capability ext) = k_decision (evaluate_for p capability ext) ∧
  k_reason (snapshot_lookup (compile p) capability ext) = k_reason (evaluate_for p capability ext).
Proof.
  unfold snapshot_lookup. destruct (Capability_parse capability) as [cap|] eqn:E; [|done].
  rw (evaluate_for_normalized p capability (Capability_as_str cap) ext); [|by apply Capability_parse_Some].
  assert (default (ps_global (compile p)) (ext ≫= λ id, ps_per_extension (compile p) !! id) = compute_decisions p ext)
    as ->.
  { destruct ext as [id|]; simpl; [|done]. rw map_lookup_imap.
    destruct (p_per_extension p !! id) as [ovr|] eqn:Eo; simpl; [done|].
    assert (∀ c, evaluate_for p c (Some id) = evaluate_for p c None) as He
      by (intros c; unfold evaluate_for; cbn [mbind option_bind]; by rw Eo).
    unfold compute_decisions, ALL_CAPABILITIES. cbn [fold_left]. by rw !He. }
  by rw compute_decisions_lookup.
Qed.

(** A transition that passes the downgrade check may still give an extension
    a dangerous capability: the check evaluates without extension context. *)
Definition loosened : ExtensionPolicy :=
  mkPolicy Strict 256 [] [] {[str "x" := mkOverride (Some Permissive) [] [] None]} em_strict sb_default.

Lemma downgrade_ignores_overrides :
  t_is_valid_downgrade (is_valid_downgrade (to_policy ProfileSafe) loosened) = true ∧
  k_decision (evaluate_for (to_policy ProfileSafe) (str "exec") (Some (str "x"))) = PDeny ∧
  k_decision (evaluate_for loosened (str "exec") (Some (str "x"))) = PAllow.
Proof. by vm_compute. Qed.

(** The standard profile denies the dangerous capabilities outright, and both
    it and the safe profile withhold logging. *)
Lemma profiles_on_exec_and_log :
  k_decision (evaluate (to_policy ProfileStandard) (str "exec")) = PDeny ∧
  k_decision (evaluate (to_policy ProfileStandard) (str "env")) = PDeny ∧
  k_decision (evaluate (to_policy ProfileStandard) (str "log")) = PPrompt ∧
  k_decision (evaluate (to_policy ProfileSafe) (str "log")) = PDeny.
Proof. by vm_compute. Qed.
