(* ===== verification/CapabilityPrompts.v ===== *)
(** * Prompted capability decisions ([src/extensions.rs],
    [src/extensions/extension_manager_impl.rs])

    A capability the policy leaves to the user is looked up in the manager's
    cache of decisions, which honours the version range a decision was made
    for, and otherwise asked; the answer goes to the cache and to the
    permission store.  The [semver] crate is a parameter. *)

From S2P Require Import Prelude Text Json Messages Permissions CapabilityPolicy.

(** ** Version ranges *)

(** [str::split] at a character: at least one part. *)
Fixpoint split_char (c : N) (s : Str) : list Str :=
  match s with
  | [] => [[]]
  | a :: s' =>
      if (a =? c)%N then [] :: split_char c s'
      else match split_char c s' with
           | part :: parts => (a :: part) :: parts
           | [] => [[a]]
           end
  end.

(** [find] with a predicate, then [split_at]. *)
Fixpoint split_where (f : N → bool) (s : Str) : Str * Str :=
  match s with
  | [] => ([], [])
  | a :: s' => if f a then ([], s) else let '(l, r) := split_where f s' in (a :: l, r)
  end.

Definition normalize_semver_literal (input : Str) : option Str :=
  let trimmed := trim input in
  let input := default trimmed (strip_prefix (str "v") trimmed) in
  let '(core, suffix) := split_where (λ ch, (ch =? 45)%N || (ch =? 43)%N) input in
  match split_char 46 core with
  | [major; minor] => Some (major ++ str "." ++ minor ++ str "." ++ str "0" ++ suffix)
  | [major; minor; patch] => Some (major ++ str "." ++ minor ++ str "." ++ patch ++ suffix)
  | _ => None
  end.

(** The first operator, in the order of the table, that the text starts
    with. *)
Definition OPERATORS : list Str :=
  [str ">="; str "<="; str ">"; str "<"; str "^"; str "~"; str "="].

Definition split_operator (remaining : Str) : Str * Str :=
  default (str "=", remaining)
    (head (omap (λ op, (λ rest, (op, rest)) <$> strip_prefix op remaining) OPERATORS)).

(** The loop over the separators: what is left, and which were seen. *)
Fixpoint skip_separators (remaining : Str) (saw_separator saw_comma : bool) : Str * bool * bool :=
  match remaining with
  | ch :: rest =>
      if is_whitespace ch then skip_separators rest true saw_comma
      else if (ch =? 44)%N then skip_separators rest true true
      else (remaining, saw_separator, saw_comma)
  | [] => ([], saw_separator, saw_comma)
  end.

(** The loop over the comparators.  Every turn consumes a character of what
    is left, so its length is fuel enough. *)
Fixpoint requirement_loop (fuel : nat) (remaining : Str) (tokens : list Str) : option (list Str) :=
  match fuel with
  | O => None
  | S fuel' =>
      let remaining := trim_start remaining in
      if is_empty remaining then Some tokens
      else if decide (remaining = str "*") then Some (tokens ++ [str "*"])
      else
        let '(op, version_and_rest) := split_operator remaining in
        let version_and_rest := trim_start version_and_rest in
        if is_empty version_and_rest then None
        else
          let '(version, rest) := split_where (λ ch, is_whitespace ch || (ch =? 44)%N) version_and_rest in
          match normalize_semver_literal version with
          | None => None
          | Some normalized_version =>
              let tokens := tokens ++ [op ++ normalized_version] in
              let '(remaining, saw_separator, saw_comma) := skip_separators rest false false in
              if is_empty remaining then (if saw_comma : bool then None else Some tokens)
              else if negb saw_separator then None
              else requirement_loop fuel' remaining tokens
          end
  end.

Fixpoint join (sep : Str) (parts : list Str) : Str :=
  match parts with
  | [] => []
  | [part] => part
  | part :: rest => part ++ sep ++ join sep rest
  end.

Definition normalize_version_requirement (range : Str) : option Str :=
  let remaining := trim range in
  if is_empty remaining then None
  else match requirement_loop (S (length remaining)) remaining [] with
       | Some (token :: tokens) => Some (join (str ", ") (token :: tokens))
       | _ => None
       end.

Definition looks_like_plain_semver_literal (range : Str) : bool :=
  let trimmed := trim range in
  negb (is_empty trimmed) &&
  negb (existsb (λ ch, is_whitespace ch || bool_decide (ch ∈ str ",^~><=*|")) trimmed).

(** [semver::Version] and [semver::VersionReq]. *)
Class Semver := {
  Version : Type;
  VersionReq : Type;
  Version_parse : Str → option Version;
  VersionReq_parse : Str → option VersionReq;
  req_matches : VersionReq → Version → bool;
}.

Definition check_version_constraint `{Semver} (version range : Str) : bool :=
  let range := trim range in
  if bool_decide (range = str "*") || is_empty range then true
  else
    match normalize_semver_literal version ≫= Version_parse with
    | None => false
    | Some version =>
        let satisfied text := match VersionReq_parse text with Some req => req_matches req version | None => false end in
        match normalize_version_requirement range with
        | Some range => satisfied range
        | None => if looks_like_plain_semver_literal range then false else satisfied range
        end
    end.

(** ** The manager's decisions *)

Record Manager := mkManager {
  m_prompt_cache : Decisions;
  m_extension_versions : gmap Str Str;
  m_permission_store : option PermissionStore;
}.

(** The answer of the user interface to a confirmation. *)
Record UiResponse := mkUi { ui_value : option Json; ui_cancelled : bool }.

Definition value_as_bool (v : Json) : option bool :=
  match v with JsonBool b => Some b | _ => None end.

Definition prompt_capability_once (answer : result (option UiResponse) Error) : bool :=
  match answer with
  | Ok (Some response) => default false (ui_value response ≫= value_as_bool) && negb (ui_cancelled response)
  | Ok None | Err _ => false
  end.

Section Manager.
Context `{Semver} `{PermissionsCodec} (parse_from_rfc3339 : Str → option Z).

Definition load_persisted_permissions_from (now : Z) (inner : Manager) (path : Str) (disk : DiskFile) : Manager :=
  match open path disk with
  | Ok store => mkManager (to_decision_cache parse_from_rfc3339 now store) (m_extension_versions inner) (Some store)
  | Err _ => mkManager (m_prompt_cache inner) (m_extension_versions inner) (Some (empty_at path))
  end.

Definition cached_policy_prompt_decision (m : Manager) (extension_id capability : Str) : option bool :=
  dec ← (m_prompt_cache m !! extension_id ≫= λ by_cap, (by_cap : gmap Str PersistedDecision) !! capability);
  match d_version_range dec with
  | None => Some (d_allow dec)
  | Some range =>
      version ← m_extension_versions m !! extension_id;
      if check_version_constraint version range then Some (d_allow dec) else None
  end.

(** [decided_at] is the time of the cache entry, [now_secs] the store's. *)
Definition cache_policy_prompt_decision (decided_at : Str) (now_secs : Z) (io : UpdateIo) (m : Manager)
    (disk : DiskFile) (extension_id capability : Str) (allow : bool) : Manager * DiskFile :=
  let version_range := (λ version, str "^" ++ version) <$> m_extension_versions m !! extension_id in
  let decision := mkDecision capability allow decided_at None version_range in
  let cache := insert_decision extension_id capability decision (m_prompt_cache m) in
  match m_permission_store m with
  | None => (mkManager cache (m_extension_versions m) None, disk)
  | Some store =>
      let '(store', disk', _) :=
        match version_range with
        | Some range => record_with_version now_secs extension_id capability allow range io store disk
        | None => record now_secs extension_id capability allow io store disk
        end in
      (mkManager cache (m_extension_versions m) (Some store'), disk')
  end.

(** The store's part of an operation, when there is a store; its errors are
    only logged. *)
Definition with_store (m : Manager) (cache : Decisions) (disk : DiskFile)
    (f : PermissionStore → DiskFile → PermissionStore * DiskFile * result unit Error) : Manager * DiskFile :=
  match m_permission_store m with
  | None => (mkManager cache (m_extension_versions m) None, disk)
  | Some store =>
      let '(store', disk', _) := f store disk in (mkManager cache (m_extension_versions m) (Some store'), disk')
  end.

Definition revoke_extension_permissions (io : UpdateIo) (m : Manager) (disk : DiskFile) (extension_id : Str)
    : Manager * DiskFile :=
  with_store m (delete extension_id (m_prompt_cache m)) disk (revoke_extension extension_id io).

Definition reset_all_permissions (io : UpdateIo) (m : Manager) (disk : DiskFile) : Manager * DiskFile :=
  with_store m ∅ disk (reset io).

Definition list_permissions (m : Manager) : Decisions := m_prompt_cache m.

(** ** Resolving a prompt *)

Definition cache_reason (allow : bool) : Str :=
  if allow then str "prompt_cache_allow" else str "prompt_cache_deny".
Definition user_reason (allow : bool) : Str :=
  if allow then str "prompt_user_allow" else str "prompt_user_deny".
Definition decision_of (allow : bool) : PolicyDecision := if allow then PAllow else PDeny.

(** [answer] is consumed only when the user is asked. *)
Definition resolve_shared_policy_prompt (decided_at : Str) (now_secs : Z) (io : UpdateIo)
    (answer : result (option UiResponse) Error) (extension_id : option Str) (capability : Str)
    (manager : option Manager) (disk : DiskFile) : PolicyDecision * Str * option Manager * DiskFile :=
  match (ext_id ← extension_id; m ← manager; cached_policy_prompt_decision m ext_id capability) with
  | Some allow => (decision_of allow, cache_reason allow, manager, disk)
  | None =>
      match manager with
      | None => (PDeny, str "shutdown", None, disk)
      | Some m =>
          let allow := prompt_capability_once answer in
          let '(m', disk') :=
            match extension_id with
            | Some ext_id => cache_policy_prompt_decision decided_at now_secs io m disk ext_id capability allow
            | None => (m, disk)
            end in
          (decision_of allow, user_reason allow, Some m', disk')
      end
  end.

(** The policy step of [dispatch_host_call_shared]. *)
Definition authorize (decided_at : Str) (now_secs : Z) (io : UpdateIo)
    (answer : result (option UiResponse) Error) (p : ExtensionPolicy) (extension_id : option Str)
    (capability : Str) (manager : option Manager) (disk : DiskFile)
    : PolicyDecision * Str * option Manager * DiskFile :=
  let policy_check := evaluate_for p capability extension_id in
  match k_decision policy_check with
  | PAllow => (PAllow, k_reason policy_check, manager, disk)
  | PDeny => (PDeny, k_reason policy_check, manager, disk)
  | PPrompt => resolve_shared_policy_prompt decided_at now_secs io answer extension_id capability manager disk
  end.
End Manager.

(** ** Lemmas *)

(** The loop over the comparators never runs out of fuel. *)
Lemma split_where_length f s : (length (split_where f s).2 ≤ length s)%nat.
Proof.
  induction s as [|a s IH]; simpl; [lia|]. destruct (f a); simpl; [lia|]. destruct (split_where f s). simpl in *. lia.
Qed.

Lemma skip_separators_length s a b : (length (skip_separators s a b).1.1 ≤ length s)%nat.
Proof.
  revert a b. induction s as [|ch s IH]; intros a b; simpl; [lia|].
  destruct (is_whitespace ch); [pose proof (IH true b); lia|].
  destruct (ch =? 44)%N; [pose proof (IH true true); lia|simpl; lia].
Qed.

Lemma trim_start_le s : (length (trim_start s) ≤ length s)%nat.
Proof. induction s as [|a s IH]; simpl; [lia|]. destruct (is_whitespace a); simpl; lia. Qed.

Lemma split_operator_length s : (length (split_operator s).2 ≤ length s)%nat.
Proof.
  unfold split_operator. destruct (head _) as [[op rest]|] eqn:E; simpl; [|lia].
  apply head_Some_elem_of, list_elem_of_omap in E as (op' & _ & Hop).
  apply fmap_Some in Hop as (rest' & Hs & [= -> ->]). apply strip_prefix_spec in Hs. subst s. rw length_app. lia.
Qed.

(** A turn that goes on has consumed the version, which is not empty. *)
Lemma version_nonempty version normalized :
  normalize_semver_literal version = Some normalized → (0 < length version)%nat.
Proof. destruct version; [|simpl; lia]. by vm_compute. Qed.

Lemma split_where_app f s : let '(l, r) := split_where f s in s = l ++ r.
Proof.
  induction s as [|a s IH]; simpl; [done|]. destruct (f a); [done|]. destruct (split_where f s). simpl. by rw -IH.
Qed.

Lemma requirement_loop_fuel fuel fuel' remaining tokens :
  (length remaining < fuel)%nat → (length remaining < fuel')%nat →
  requirement_loop fuel remaining tokens = requirement_loop fuel' remaining tokens.
Proof.
  revert fuel' remaining tokens. induction fuel as [|fuel IH]; intros [|fuel'] remaining tokens Hf Hf'; try lia.
  cbn [requirement_loop]. pose proof (trim_start_le remaining) as Ht.
  generalize dependent (trim_start remaining). intros rem Ht.
  destruct (is_empty rem); [done|]. destruct (decide (rem = str "*")); [done|].
  pose proof (split_operator_length rem) as Ho. destruct (split_operator rem) as [op vr]. simpl in Ho.
  pose proof (trim_start_le vr) as Hv. generalize dependent (trim_start vr). intros vr' Hv.
  destruct (is_empty vr'); [done|]. pose proof (split_where_app (λ ch, is_whitespace ch || (ch =? 44)%N) vr') as Hs.
  destruct (split_where _ vr') as [version rest]. destruct (normalize_semver_literal version) as [nv|] eqn:En; [|done].
  apply version_nonempty in En. pose proof (skip_separators_length rest false false) as Hk.
  destruct (skip_separators rest false false) as [[rem' ss] sc]. simpl in Hk. subst vr'. rw length_app in Hv.
  destruct (is_empty rem'); [done|]. destruct (negb ss); [done|]. apply IH; lia.
Qed.

Section Proofs.
Context `{Semver} `{PermissionsCodec}.

(** The versions for which a decision made at [version] is honoured. *)
Definition honoured (made_at : option Str) (versions : gmap Str Str) (extension_id : Str) : Prop :=
  match made_at with
  | None => True
  | Some version => ∃ now, versions !! extension_id = Some now ∧ check_version_constraint now (str "^" ++ version) = true
  end.

Definition answered_yes (answer : result (option UiResponse) Error) : Prop :=
  ∃ response, answer = Ok (Some response) ∧ ui_value response = Some (JsonBool true) ∧ ui_cancelled response = false.

Lemma prompt_yes answer : prompt_capability_once answer = true ↔ answered_yes answer.
Proof.
  unfold answered_yes, prompt_capability_once. destruct answer as [[[v c]|]|]; simpl; [|naive_solver..].
  rw andb_true_iff negb_true_iff. split.
  - intros [Hv ->]. destruct v as [[]|]; simpl in *; try done. subst. eauto.
  - intros (r & [= <-] & Hv & Hc). simpl in *. by subst.
Qed.

(** A decision just inserted is what the cache answers. *)
Lemma cached_inserted (ds : Decisions) (versions : gmap Str Str) store e c d :
  cached_policy_prompt_decision (mkManager (insert_decision e c d ds) versions store) e c =
  match d_version_range d with
  | None => Some (d_allow d)
  | Some range => version ← versions !! e; if check_version_constraint version range then Some (d_allow d) else None
  end.
Proof.
  unfold cached_policy_prompt_decision, insert_decision. simpl. by rw lookup_insert_eq /= lookup_insert_eq.
Qed.

Lemma cached_honoured (ds : Decisions) (versions versions' : gmap Str Str) store e c allow t :
  honoured (versions !! e) versions' e →
  cached_policy_prompt_decision (mkManager (insert_decision e c
    (mkDecision c allow t None ((λ v, str "^" ++ v) <$> versions !! e)) ds) versions' store) e c = Some allow.
Proof.
  intros Hh. rw cached_inserted. simpl. destruct (versions !! e) as [v|]; simpl in *; [|done].
  destruct Hh as (v' & -> & Hc). simpl. by rw Hc.
Qed.

(** What asking does to the manager and the file. *)
Lemma cache_decision_spec t secs io m disk e c allow :
  let range := (λ v, str "^" ++ v) <$> m_extension_versions m !! e in
  let '(m', disk') := cache_policy_prompt_decision t secs io m disk e c allow in
  m_prompt_cache m' = insert_decision e c (mkDecision c allow t None range) (m_prompt_cache m) ∧
  m_extension_versions m' = m_extension_versions m ∧
  match m_permission_store m with
  | None => m_permission_store m' = None ∧ disk' = disk
  | Some store =>
      let '(store', disk'', _) := run_op (Record secs e c allow range) io store disk in
      m_permission_store m' = Some store' ∧ disk' = disk''
  end.
Proof.
  unfold cache_policy_prompt_decision. destruct (m_permission_store m) as [store|]; simpl; [|done].
  destruct (m_extension_versions m !! e) as [v|]; simpl;
    [destruct (record_with_version _ _ _ _ _ _ _ _) as [[store' disk'] r]|
     destruct (record _ _ _ _ _ _ _) as [[store' disk'] r]]; done.
Qed.

(** ** Claims *)

(** C12: nothing is allowed without consent.  A hostcall passes the policy
    step exactly when the policy allows its capability, or leaves it to the
    user and the manager holds an applicable "allow" for that extension and
    capability, or holds none and the user answered yes without cancelling.
    A policy denial is final: no stored decision and no answer changes it,
    and nothing is asked or stored. *)
Theorem allow_needs_consent t secs io answer p ext capability manager disk :
  let policy := k_decision (evaluate_for p capability ext) in
  let '(decision, _, manager', disk') :=
    authorize t secs io answer p ext capability manager disk in
  (decision = PAllow ↔
     policy = PAllow ∨
     policy = PPrompt ∧ ∃ m, manager = Some m ∧
       match ext ≫= λ e, cached_policy_prompt_decision m e capability with
       | Some allow => allow = true
       | None => answered_yes answer
       end) ∧
  (policy = PDeny → decision = PDeny ∧ manager' = manager ∧ disk' = disk) ∧
  decision ≠ PPrompt.
Proof.
  unfold authorize. destruct (k_decision (evaluate_for p capability ext)) eqn:Ep; [naive_solver| |naive_solver].
  unfold resolve_shared_policy_prompt.
  assert (∀ b, decision_of b = PAllow ↔ b = true) as Hd by by intros [].
  assert (∀ b, decision_of b ≠ PPrompt) as Hn by by intros [].
  destruct manager as [m|]; [|destruct ext; simpl; naive_solver].
  assert ((e ← ext; m' ← Some m; cached_policy_prompt_decision m' e capability) =
          (ext ≫= λ e, cached_policy_prompt_decision m e capability)) as -> by by destruct ext.
  destruct (ext ≫= λ e, cached_policy_prompt_decision m e capability) as [allow|] eqn:Ec.
  - rw Hd. split_and!; [|done|apply Hn]. split; [intros ->; right; split; [done|]; exists m; by rw Ec|]. intros [|(_ & m' & [= <-] & Ha)]; [done|by rw Ec in Ha].
  - assert (decision_of (prompt_capability_once answer) = PAllow ↔
      PPrompt = PAllow ∨ PPrompt = PPrompt ∧ ∃ m', Some m = Some m' ∧
        match ext ≫= λ e, cached_policy_prompt_decision m' e capability with
        | Some allow => allow = true | None => answered_yes answer end) as Hiff.
    { rw Hd prompt_yes. split.
      - intros Ha. right. split; [done|]. exists m. by rw Ec.
      - intros [|(_ & m' & [= <-] & Ha)]; [done|]. by rw Ec in Ha. }
    destruct (match ext with Some _ => _ | None => _ end) as [m' disk']. split_and!; [done|done|apply Hn].
Qed.

(** Later sessions read expiry times. *)
Context (parse_from_rfc3339 : Str → option Z).

(** The cache of a manager that loads a store's decisions. *)
Lemma cached_loaded now versions path disk ds e c :
  load_permissions_decisions path disk = Ok ds →
  m_prompt_cache (load_persisted_permissions_from parse_from_rfc3339 now (mkManager ∅ versions None) path disk)
    !! e ≫= (λ by_cap, (by_cap : gmap Str PersistedDecision) !! c) =
  (ds !! e ≫= λ by_cap, by_cap !! c) ≫= λ d, if decision_is_active parse_from_rfc3339 d now then Some d else None.
Proof.
  intros Hl. unfold load_persisted_permissions_from, open. rw Hl. simpl. unfold to_decision_cache.
  rw nonempty_lookup lookup_fmap. simpl. destruct (ds !! e) as [m|]; simpl; [|done]. apply active_part_lookup.
Qed.

Lemma loaded_versions now inner path disk :
  m_extension_versions (load_persisted_permissions_from parse_from_rfc3339 now inner path disk) = m_extension_versions inner.
Proof. unfold load_persisted_permissions_from. by destruct (open path disk). Qed.

(** An answer is remembered.  After the user was asked, the same
    question is answered from the cache, whatever the user would say now and
    without touching the file, in this session; and, when the store's rename
    succeeded, also by a new process that loads the file, as long as the
    version the extension then has satisfies the range the answer was given
    for. *)
Theorem answer_is_remembered t secs io answer e capability m disk store :
  cached_policy_prompt_decision m e capability = None →
  m_permission_store m = Some store → keyed (st_decisions store) →
  let allow := prompt_capability_once answer in
  let '(decision, _, manager', disk') :=
    resolve_shared_policy_prompt t secs io answer (Some e) capability (Some m) disk in
  decision = decision_of allow ∧
  ∃ m', manager' = Some m' ∧
  (honoured (m_extension_versions m !! e) (m_extension_versions m) e →
   ∀ t' secs' io' answer',
     resolve_shared_policy_prompt t' secs' io' answer' (Some e) capability (Some m') disk' =
     (decision_of allow, cache_reason allow, Some m', disk')) ∧
  (persisted io = true →
   ∀ now versions, honoured (m_extension_versions m !! e) versions e →
     cached_policy_prompt_decision
       (load_persisted_permissions_from parse_from_rfc3339 now (mkManager ∅ versions None) (st_path store) disk')
       e capability = Some allow).
Proof.
  intros Hc Hst Hk allow. unfold resolve_shared_policy_prompt. cbn [mbind option_bind]. rw Hc.
  pose proof (cache_decision_spec t secs io m disk e capability allow) as Hs. rw Hst in Hs.
  destruct (cache_policy_prompt_decision _ _ _ _ _ _ _ _) as [m' disk'].
  destruct Hs as (Hcache & Hver & Hs). set (range := (λ v, str "^" ++ v) <$> _) in *.
  pose proof (run_op_spec (Record secs e capability allow range) io store disk Hk) as Hr.
  destruct (run_op _ io store disk) as [[store' disk''] r]. destruct Hs as [Hst' ->].
  destruct Hr as (_ & _ & Hds & Hdisk & _). split; [done|]. exists m'. split_and!; [done| |].
  - intros Hh t' secs' io' answer'.
    assert (cached_policy_prompt_decision m' e capability = Some allow) as ->; [|done].
    destruct m' as [cache vers st]. simpl in *. subst. by apply cached_honoured.
  - intros Hp now versions Hh. rw Hp in Hdisk. unfold persisted in Hp.
    destruct (io_lock io); [done|]. unfold cached_policy_prompt_decision. rw (cached_loaded _ _ _ _ _ _ _ Hdisk).
    rw Hds /= /insert_decision lookup_insert_eq /= lookup_insert_eq /= loaded_versions /=.
    unfold range. destruct (m_extension_versions m !! e) as [v|]; simpl in *; [|done].
    destruct Hh as (v' & -> & Hv). simpl. by rw Hv.
Qed.

(** Revocation.  After the decisions of an extension are revoked, every
    capability of it is asked again, in this session and, when the rename
    succeeded, by every process that loads the file; other extensions keep
    their decisions.  A reset revokes all. *)
Theorem revoked_is_asked_again io m disk store e capability :
  m_permission_store m = Some store → keyed (st_decisions store) →
  let '(m', disk') := revoke_extension_permissions io m disk e in
  cached_policy_prompt_decision m' e capability = None ∧
  (∀ e', e' ≠ e → cached_policy_prompt_decision m' e' capability = cached_policy_prompt_decision m e' capability) ∧
  (persisted io = true → ∀ now versions,
     cached_policy_prompt_decision
       (load_persisted_permissions_from parse_from_rfc3339 now (mkManager ∅ versions None) (st_path store) disk')
       e capability = None) ∧
  let '(m', disk') := reset_all_permissions io m disk in
  ∀ e', cached_policy_prompt_decision m' e' capability = None ∧
  (persisted io = true → ∀ now versions,
     cached_policy_prompt_decision
       (load_persisted_permissions_from parse_from_rfc3339 now (mkManager ∅ versions None) (st_path store) disk')
       e' capability = None).
Proof.
  intros Hst Hk. unfold revoke_extension_permissions, reset_all_permissions, with_store. rw Hst.
  pose proof (run_op_spec (Revoke e) io store disk Hk) as Hr. pose proof (run_op_spec Reset io store disk Hk) as Hr'.
  cbn [run_op] in Hr, Hr'. destruct (revoke_extension e io store disk) as [[store' disk'] r].
  destruct (reset io store disk) as [[store'' disk''] r']. destruct Hr as (_ & _ & Hds & Hdisk & _).
  destruct Hr' as (_ & _ & Hds' & Hdisk' & _).
  assert (persisted io = true → io_lock io = None) as Hlock by (unfold persisted; by destruct (io_lock io)).
  unfold cached_policy_prompt_decision. split_and!; [| | |split].
  - simpl. by rw lookup_delete_eq.
  - intros e' Hne. simpl. by rw lookup_delete_ne.
  - intros Hp now versions. rw Hp in Hdisk. rw (Hlock Hp) in Hds. rw (cached_loaded _ _ _ _ _ _ _ Hdisk) Hds /=.
    by rw lookup_delete_eq.
  - simpl. by rw lookup_empty.
  - intros Hp now versions. rw Hp in Hdisk'. rw (Hlock Hp) in Hds'. rw (cached_loaded _ _ _ _ _ _ _ Hdisk') Hds' /=.
    by rw lookup_empty.
Qed.
End Proofs.

(** ** Witnesses: versions are compared as texts *)

Definition text_semver : Semver :=
  {| Version := Str; VersionReq := Str; Version_parse := Some; VersionReq_parse := Some;
     req_matches := λ r v, bool_decide (r = str "^" ++ v) |}.

Definition yes : result (option UiResponse) Error := Ok (Some (mkUi (Some (JsonBool true)) false)).

Definition sample_manager : Manager :=
  mkManager ∅ {[str "x" := str "1.2.0"]} (Some (empty_at (str "p"))).

Lemma answer_is_remembered_witness :
  let '(d, _, manager', disk') :=
    @resolve_shared_policy_prompt text_semver number_codec [] 0 good_io yes (Some (str "x")) (str "exec")
      (Some sample_manager) Missing in
  d = PAllow ∧
  (@resolve_shared_policy_prompt text_semver number_codec [] 0 good_io (Err ErrAborted) (Some (str "x")) (str "exec")
     manager' disk').1.1.1 = PAllow.
Proof.
  pose proof (@answer_is_remembered text_semver number_codec (λ _, None) [] 0 good_io yes (str "x") (str "exec")
    sample_manager Missing (empty_at (str "p")) eq_refl eq_refl ltac:(intros ? ? [=])) as Hr.
  destruct (resolve_shared_policy_prompt _ _ _ yes _ _ _ _) as [[[d reason] m'] disk'].
  destruct Hr as (-> & m1 & -> & Hnext & _). split; [reflexivity|].
  rw Hnext; [reflexivity|]. exists (str "1.2.0"). split; reflexivity.
Defined.

Lemma revoked_is_asked_again_witness :
  @cached_policy_prompt_decision text_semver
    (@revoke_extension_permissions number_codec good_io sample_manager Missing (str "x")).1 (str "x") (str "exec") = None.
Proof.
  pose proof (@revoked_is_asked_again text_semver number_codec (λ _, None) good_io sample_manager Missing
    (empty_at (str "p")) (str "x") (str "exec") eq_refl ltac:(intros ? ? [=])) as Hr.
  destruct (revoke_extension_permissions _ _ _ _) as [m' disk']. exact (proj1 Hr).
Defined.

Lemma allow_needs_consent_witness :
  (@authorize text_semver number_codec [] 0 good_io yes ExtensionPolicy_default (Some (str "x")) (str "ui")
     (Some sample_manager) Missing).1.1.1 = PAllow.
Proof.
  pose proof (@allow_needs_consent text_semver number_codec [] 0 good_io yes ExtensionPolicy_default (Some (str "x"))
    (str "ui") (Some sample_manager) Missing) as Hr.
  destruct (authorize _ _ _ _ _ _ _ _ _) as [[[d reason] m'] disk']. destruct Hr as [Hiff _]. apply Hiff.
  right. split; [reflexivity|]. exists sample_manager. split; [reflexivity|].
  exists (mkUi (Some (JsonBool true)) false). repeat split.
Defined.

(** Once loaded, a decision is honoured past its expiry. *)
Lemma cached_ignores_expiry :
  @cached_policy_prompt_decision text_semver
    (mkManager {[str "x" := {[str "exec" := mkDecision (str "exec") true [] (Some (str "1970-01-01T00:00:00Z")) None]}]}
       ∅ None) (str "x") (str "exec") = Some true.
Proof. by vm_compute. Qed.
