(* ===== verification/ExtensionQuota.v ===== *)
(** * Resource quotas of extensions ([src/extensions.rs],
    [src/extensions/extension_manager_impl.rs])

    The counters that bound how often an extension may call the host, and
    [check_extension_quota], the check that runs after the policy has allowed
    a call.  The reference definition keeps the whole log of admitted calls;
    the code keeps a pruned window of their times and three counters, and is
    shown to decide alike.

    Times are milliseconds since the epoch.  The unsigned counters are
    integers: the code increments them by one per call and the limits compare
    them from below, so the reference only needs them not to overflow. *)

From S2P Require Import Prelude Text ExecMediation CapabilityPolicy.

Definition i64_min : Z := - 2 ^ 63.
Definition sat_sub_i64 (a b : Z) : Z := Z.max i64_min (a - b).

(** ** The code's state *)

Record ExtensionQuotaState := mkQuotaState {
  hostcall_timestamps_ms : list Z;
  hostcalls_total : Z;
  active_subprocesses : Z;
  write_bytes_total : Z;
  http_requests_total : Z;
}.

Definition ExtensionQuotaState_default : ExtensionQuotaState := mkQuotaState [] 0 0 0 0.

Inductive QuotaCheckResult :=
| QAllowed
| QExceeded (reason : Str).

Definition is_allowed (r : QuotaCheckResult) : bool := match r with QAllowed => true | QExceeded _ => false end.

(** [while front < horizon { pop_front }] *)
Fixpoint prune (horizon : Z) (ts : list Z) : list Z :=
  match ts with
  | t :: ts' => if t <? horizon then prune horizon ts' else ts
  | [] => []
  end.

Fixpoint take_while (f : Z → bool) (l : list Z) : list Z :=
  match l with x :: l' => if f x then x :: take_while f l' else [] | [] => [] end.

(** [limit] is reached by [count]. *)
Definition reached (limit : option Z) (count : Z) : bool :=
  match limit with Some max => max <=? count | None => false end.

Definition show_limit (limit : option Z) : Str := show_u64 (default 0 limit).

Definition check_extension_quota (config : ExtensionQuotaConfig) (state : ExtensionQuotaState) (now_ms : Z)
    (capability : Str) : QuotaCheckResult * ExtensionQuotaState :=
  let window := prune (sat_sub_i64 now_ms 60000) (hostcall_timestamps_ms state) in
  let state := mkQuotaState window (hostcalls_total state) (active_subprocesses state)
                 (write_bytes_total state) (http_requests_total state) in
  let horizon_1s := sat_sub_i64 now_ms 1000 in
  let count_1s := len (take_while (λ ts, horizon_1s <=? ts) (reverse window)) in
  let count_60s := len window in
  let has c := bool_decide (capability = str c) in
  if reached (max_hostcalls_per_second config) count_1s then
    (QExceeded (str "hostcall rate " ++ show_u64 count_1s ++ str "/s exceeds limit "
       ++ show_limit (max_hostcalls_per_second config) ++ str "/s"), state)
  else if reached (max_hostcalls_per_minute config) count_60s then
    (QExceeded (str "hostcall rate " ++ show_u64 count_60s ++ str "/60s exceeds limit "
       ++ show_limit (max_hostcalls_per_minute config) ++ str "/60s"), state)
  else if reached (max_hostcalls_total config) (hostcalls_total state) then
    (QExceeded (str "total hostcalls " ++ show_u64 (hostcalls_total state) ++ str " exceeds limit "
       ++ show_limit (max_hostcalls_total config)), state)
  else if has "exec"%string && reached (max_subprocesses config) (active_subprocesses state) then
    (QExceeded (str "active subprocesses " ++ show_u64 (active_subprocesses state) ++ str " reaches limit "
       ++ show_limit (max_subprocesses config)), state)
  else if has "http"%string && reached (max_http_requests config) (http_requests_total state) then
    (QExceeded (str "HTTP requests " ++ show_u64 (http_requests_total state) ++ str " exceeds limit "
       ++ show_limit (max_http_requests config)), state)
  else if has "write"%string && reached (max_write_bytes config) (write_bytes_total state) then
    (QExceeded (str "write bytes " ++ show_u64 (write_bytes_total state) ++ str " exceeds limit "
       ++ show_limit (max_write_bytes config)), state)
  else
    (QAllowed, mkQuotaState (window ++ [now_ms]) (hostcalls_total state + 1) (active_subprocesses state)
       (write_bytes_total state) (if has "http"%string then http_requests_total state + 1 else http_requests_total state)).

(** ** The manager's quota state *)

Record QuotaBreachEvent := mkBreach {
  qb_ts_ms : Z; qb_extension_id : Str; qb_capability : Str; qb_reason : Str; qb_source : Str }.

Record QuotaManager := mkQuotaManager {
  quota_config : ExtensionQuotaConfig;
  quota_states : gmap Str ExtensionQuotaState;
  quota_breach_events : list QuotaBreachEvent;
}.

Definition quota_entry (m : QuotaManager) (extension_id : Str) : ExtensionQuotaState :=
  default ExtensionQuotaState_default (quota_states m !! extension_id).

Definition set_entry (m : QuotaManager) (extension_id : Str) (state : ExtensionQuotaState) : QuotaManager :=
  mkQuotaManager (quota_config m) (<[extension_id := state]> (quota_states m)) (quota_breach_events m).

Definition override_quota (policy : ExtensionPolicy) (extension_id : Str) : option ExtensionQuotaConfig :=
  p_per_extension policy !! extension_id ≫= ov_quota.

Definition check_quota (m : QuotaManager) (extension_id : option Str) (capability : Str) (now_ms : Z)
    (policy : ExtensionPolicy) : QuotaCheckResult * QuotaManager :=
  match extension_id with
  | None => (QAllowed, m)
  | Some ext_id =>
      let config := default (quota_config m) (override_quota policy ext_id) in
      let '(result, state) := check_extension_quota config (quota_entry m ext_id) now_ms capability in
      let m := set_entry m ext_id state in
      match result with
      | QAllowed => (result, m)
      | QExceeded reason =>
          (result, mkQuotaManager (quota_config m) (quota_states m)
             (quota_breach_events m ++ [mkBreach now_ms ext_id capability reason
                (match override_quota policy ext_id with Some _ => str "per_extension" | None => str "global" end)]))
      end
  end.

Definition set_active (s : ExtensionQuotaState) (n : Z) : ExtensionQuotaState :=
  mkQuotaState (hostcall_timestamps_ms s) (hostcalls_total s) n (write_bytes_total s) (http_requests_total s).

Definition record_subprocess_spawn (m : QuotaManager) (extension_id : Str) : QuotaManager :=
  let s := quota_entry m extension_id in set_entry m extension_id (set_active s (active_subprocesses s + 1)).

Definition record_subprocess_exit (m : QuotaManager) (extension_id : Str) : QuotaManager :=
  let s := quota_entry m extension_id in set_entry m extension_id (set_active s (Z.max 0 (active_subprocesses s - 1))).

Definition record_write_bytes (m : QuotaManager) (extension_id : Str) (bytes : Z) : QuotaManager :=
  let s := quota_entry m extension_id in
  set_entry m extension_id (mkQuotaState (hostcall_timestamps_ms s) (hostcalls_total s) (active_subprocesses s)
    (sat_add u64_max (write_bytes_total s) bytes) (http_requests_total s)).

Definition set_quota_config (m : QuotaManager) (config : ExtensionQuotaConfig) : QuotaManager :=
  mkQuotaManager config (quota_states m) (quota_breach_events m).

Definition drain_quota_breach_events (m : QuotaManager) : list QuotaBreachEvent * QuotaManager :=
  (quota_breach_events m, mkQuotaManager (quota_config m) (quota_states m) []).

Definition reset_quota_state (m : QuotaManager) (extension_id : Str) : QuotaManager :=
  mkQuotaManager (quota_config m) (delete extension_id (quota_states m)) (quota_breach_events m).

(** ** One extension's operations

    A call is checked and, when it is an admitted [exec] that goes on to be
    dispatched, its subprocess is counted before anything else of the
    extension is checked (nothing is awaited in between); the exit comes
    later. *)

Inductive QuotaOp :=
| QCall (now_ms : Z) (capability : Str) (dispatched : bool)
| QExit
| QWritten (bytes : Z).

Definition spawns (capability : Str) (dispatched : bool) (allowed : bool) : bool :=
  allowed && dispatched && bool_decide (capability = str "exec").

Definition quota_step (config : ExtensionQuotaConfig) (state : ExtensionQuotaState) (op : QuotaOp)
    : option bool * ExtensionQuotaState :=
  match op with
  | QCall now_ms capability dispatched =>
      let '(result, state') := check_extension_quota config state now_ms capability in
      (Some (is_allowed result),
       if spawns capability dispatched (is_allowed result)
       then set_active state' (active_subprocesses state' + 1) else state')
  | QExit => (None, set_active state (Z.max 0 (active_subprocesses state - 1)))
  | QWritten bytes =>
      (None, mkQuotaState (hostcall_timestamps_ms state) (hostcalls_total state) (active_subprocesses state)
               (sat_add u64_max (write_bytes_total state) bytes) (http_requests_total state))
  end.

(** ** The reference: the log of admitted calls *)

Record QuotaLog := mkLog {
  ql_calls : list (Z * Str);
  ql_active : Z;
  ql_written : Z;
}.

(** Admitted calls at or after a time. *)
Definition calls_since (t : Z) (calls : list (Z * Str)) : Z := len (List.filter (λ c, t <=? c.1) calls).
Definition calls_for (capability : Str) (calls : list (Z * Str)) : Z :=
  len (List.filter (λ c, bool_decide (c.2 = capability)) calls).

Definition log_admits (config : ExtensionQuotaConfig) (l : QuotaLog) (now_ms : Z) (capability : Str) : bool :=
  negb (reached (max_hostcalls_per_second config) (calls_since (now_ms - 1000) (ql_calls l))) &&
  negb (reached (max_hostcalls_per_minute config) (calls_since (now_ms - 60000) (ql_calls l))) &&
  negb (reached (max_hostcalls_total config) (len (ql_calls l))) &&
  negb (bool_decide (capability = str "exec") && reached (max_subprocesses config) (ql_active l)) &&
  negb (bool_decide (capability = str "http") && reached (max_http_requests config) (calls_for (str "http") (ql_calls l))) &&
  negb (bool_decide (capability = str "write") && reached (max_write_bytes config) (ql_written l)).

Definition log_step (config : ExtensionQuotaConfig) (l : QuotaLog) (op : QuotaOp) : option bool * QuotaLog :=
  match op with
  | QCall now_ms capability dispatched =>
      let allowed := log_admits config l now_ms capability in
      (Some allowed,
       mkLog (if allowed then ql_calls l ++ [(now_ms, capability)] else ql_calls l)
         (if spawns capability dispatched allowed then ql_active l + 1 else ql_active l) (ql_written l))
  | QExit => (None, mkLog (ql_calls l) (Z.max 0 (ql_active l - 1)) (ql_written l))
  | QWritten bytes => (None, mkLog (ql_calls l) (ql_active l) (sat_add u64_max (ql_written l) bytes))
  end.

Fixpoint run_ops {S} (step : S → QuotaOp → option bool * S) (s : S) (ops : list QuotaOp) : list (option bool) * S :=
  match ops with
  | [] => ([], s)
  | op :: ops' =>
      let '(r, s') := step s op in
      let '(rs, s'') := run_ops step s' ops' in (r :: rs, s'')
  end.

(** The clock does not go back: times of calls, from [t] on. *)
Fixpoint clock_from (t : Z) (ops : list QuotaOp) : Prop :=
  match ops with
  | [] => True
  | QCall now_ms _ _ :: ops' => t ≤ now_ms ∧ clock_from now_ms ops'
  | _ :: ops' => clock_from t ops'
  end.

(** ** Windows of sorted times *)

Definition ascending (ts : list Z) : Prop := StronglySorted Z.le ts.

Lemma prune_filter h ts : ascending ts → prune h ts = List.filter (λ t, h <=? t) ts.
Proof.
  induction 1 as [|t ts Hs IH Ht]; simpl; [done|]. destruct (Z.ltb_spec t h), (Z.leb_spec h t); try lia; [done|].
  f_equal. rw -{1}(List.filter_true ts). apply List.filter_ext_in. intros x Hx.
  rw Forall_forall in Ht. apply list_elem_of_In, Ht in Hx. symmetry. apply Z.leb_le. lia.
Qed.

Lemma take_while_app_all f l k : Forall (λ x, f x = true) l → take_while f (l ++ k) = l ++ take_while f k.
Proof. induction 1 as [|x l Hx Hl IH]; simpl; [done|]. by rw Hx IH. Qed.

Lemma take_while_none f l : Forall (λ x, f x = false) l → take_while f l = [].
Proof. destruct 1 as [|x l Hx Hl]; simpl; [done|]. by rw Hx. Qed.

Lemma ascending_split h ts : ascending ts →
  ∃ old, ts = old ++ List.filter (λ t, h <=? t) ts ∧ Forall (λ t, t < h) old.
Proof.
  intros Hs. rw -prune_filter //. clear Hs. induction ts as [|t ts (old & E & Ho)]; simpl; [by exists []|].
  destruct (Z.ltb_spec t h); [|by exists []]. exists (t :: old). split; [simpl; congruence|by constructor].
Qed.

(** Counting from the newest end is counting the window. *)
Lemma count_recent h ts : ascending ts →
  len (take_while (λ t, h <=? t) (reverse ts)) = len (List.filter (λ t, h <=? t) ts).
Proof.
  intros Hs. destruct (ascending_split h ts Hs) as (old & E & Ho). set (w := List.filter _ ts) in *.
  assert (Forall (λ t, (h <=? t) = true) w) as Hw.
  { apply Forall_forall. intros x Hx. by apply list_elem_of_In, filter_In in Hx as [_ ?]. }
  rw E reverse_app take_while_app_all; [|by apply Forall_reverse].
  rw take_while_none; [|apply Forall_reverse; eapply Forall_impl; [done|]; intros x ?; by apply Z.leb_gt].
  rw app_nil_r. unfold len. by rw length_reverse.
Qed.

Lemma filter_weaker h h' (ts : list Z) : h ≤ h' →
  List.filter (λ t, h' <=? t) (List.filter (λ t, h <=? t) ts) = List.filter (λ t, h' <=? t) ts.
Proof.
  intros Hh. induction ts as [|t ts IH]; simpl; [done|].
  destruct (Z.leb_spec h t) as [H1|H1]; simpl; [by rw IH|].
  destruct (Z.leb_spec h' t) as [H2|H2]; [lia|done].
Qed.

Lemma ascending_filter f ts : ascending ts → ascending (List.filter f ts).
Proof.
  induction 1 as [|t ts Hs IH Ht]; simpl; [constructor|]. destruct (f t); [|done]. constructor; [done|].
  rw Forall_forall. intros x Hx. apply list_elem_of_In, filter_In in Hx as [Hx _].
  rw Forall_forall in Ht. by apply Ht, list_elem_of_In.
Qed.

Lemma ascending_snoc ts t : ascending ts → Forall (λ x, x ≤ t) ts → ascending (ts ++ [t]).
Proof.
  induction 1 as [|x ts Hs IH Hx]; simpl; intros Ht; [by repeat constructor|].
  apply Forall_cons in Ht as [? Ht]. constructor; [by apply IH|]. apply Forall_app. by split; [|constructor].
Qed.

Lemma calls_since_times t calls : calls_since t calls = len (List.filter (λ x, t <=? x) calls.*1).
Proof.
  unfold calls_since. induction calls as [|[x c] calls IH]; simpl; [done|].
  destruct (t <=? x); simpl; rw ?len_cons IH //.
Qed.

(** ** Refinement *)

Record tracks (t : Z) (st : ExtensionQuotaState) (l : QuotaLog) : Prop := {
  tracks_sorted : ascending (ql_calls l).*1;
  tracks_past : Forall (λ x, x ≤ t) (ql_calls l).*1;
  tracks_window : ∃ h, h ≤ t - 60000 ∧ hostcall_timestamps_ms st = List.filter (λ x, h <=? x) (ql_calls l).*1;
  tracks_total : hostcalls_total st = len (ql_calls l);
  tracks_active : active_subprocesses st = ql_active l;
  tracks_written : write_bytes_total st = ql_written l;
  tracks_http : http_requests_total st = calls_for (str "http") (ql_calls l);
}.

Lemma calls_for_snoc c calls now cap :
  calls_for c (calls ++ [(now, cap)]) = calls_for c calls + (if bool_decide (cap = c) then 1 else 0).
Proof. unfold calls_for. rw List.filter_app len_app. simpl. by case_bool_decide. Qed.

(** The check against the code's state is the check against the log. *)
Lemma check_refines config t st l now cap :
  tracks t st l → t ≤ now → 0 ≤ now →
  let '(result, st') := check_extension_quota config st now cap in
  is_allowed result = log_admits config l now cap ∧
  tracks now st' (if is_allowed result then mkLog (ql_calls l ++ [(now, cap)]) (ql_active l) (ql_written l) else l).
Proof.
  intros [Hs Hp (h & Hh & Hw) Ht Ha Hb Hhttp] Hnow H0. unfold check_extension_quota.
  assert (∀ w, 0 ≤ w ≤ 60000 → sat_sub_i64 now w = now - w) as Hsat by (intros; unfold sat_sub_i64, i64_min; lia).
  rw !Hsat; [|lia..]. rw Hw prune_filter; [|by apply ascending_filter]. rw filter_weaker; [|lia].
  set (window := List.filter _ (ql_calls l).*1).
  rw count_recent; [|by apply ascending_filter].
  assert (len (List.filter (λ x, now - 1000 <=? x) window) = calls_since (now - 1000) (ql_calls l)) as Hc1.
  { unfold window. rw filter_weaker; [|lia]. by rw calls_since_times. }
  assert (len window = calls_since (now - 60000) (ql_calls l)) as Hc60 by by rw calls_since_times.
  rw Hc1 Hc60. cbn [hostcalls_total active_subprocesses http_requests_total write_bytes_total]. rw Ht Ha Hb Hhttp.
  assert (Forall (λ x, x ≤ now) (ql_calls l).*1) as Hp' by (eapply Forall_impl; [exact Hp|]; simpl; lia).
  assert (∀ n a b c, n = len (ql_calls l) → a = ql_active l → b = ql_written l → c = calls_for (str "http") (ql_calls l) →
    tracks now (mkQuotaState window n a b c) l) as Hkeep.
  { intros; subst. split; simpl; auto. by exists (now - 60000). }
  unfold log_admits.
  destruct (reached (max_hostcalls_per_second config) _) eqn:E1; [by split; [|apply Hkeep]|].
  destruct (reached (max_hostcalls_per_minute config) _) eqn:E2; [by split; [|apply Hkeep]|].
  destruct (reached (max_hostcalls_total config) _) eqn:E3; [by split; [|apply Hkeep]|].
  destruct (_ && reached (max_subprocesses config) _) eqn:E4; [by split; [|apply Hkeep]|].
  destruct (_ && reached (max_http_requests config) _) eqn:E5; [by split; [|apply Hkeep]|].
  destruct (_ && reached (max_write_bytes config) _) eqn:E6; [by split; [|apply Hkeep]|].
  split; [done|]. split; simpl.
  - rw fmap_app. by apply ascending_snoc.
  - rw fmap_app Forall_app. split; [done|by constructor].
  - exists (now - 60000). split; [lia|]. rw fmap_app List.filter_app. simpl.
    by rw (proj2 (Z.leb_le (now - 60000) now)); [|lia].
  - by rw len_app.
  - done.
  - done.
  - rw calls_for_snoc. repeat case_bool_decide; congruence || lia.
Qed.

Lemma step_refines config t st l op :
  tracks t st l → 0 ≤ t → (match op with QCall now _ _ => t ≤ now | _ => True end) →
  let '(r, st') := quota_step config st op in
  let '(r', l') := log_step config l op in
  r = r' ∧ tracks (match op with QCall now _ _ => now | _ => t end) st' l'.
Proof.
  intros Htr H0 Hnow. destruct op as [now cap dispatched| |bytes]; simpl.
  - pose proof (check_refines config t st l now cap Htr Hnow ltac:(lia)) as Hc.
    destruct (check_extension_quota config st now cap) as [result st']. destruct Hc as [-> Htr']. split; [done|].
    destruct (log_admits config l now cap); [destruct (spawns cap dispatched true)|];
      destruct Htr' as [Hs Hp Hw Ht Ha Hb Hh]; split; simpl in *; auto; lia.
  - split; [done|]. destruct Htr as [Hs Hp Hw Ht Ha Hb Hh]. split; simpl; auto. lia.
  - split; [done|]. destruct Htr as [Hs Hp Hw Ht Ha Hb Hh]. split; simpl; auto. by rw Hb.
Qed.

Lemma run_refines config t st l ops :
  tracks t st l → 0 ≤ t → clock_from t ops →
  (run_ops (quota_step config) st ops).1 = (run_ops (log_step config) l ops).1 ∧
  ∃ t', tracks t' (run_ops (quota_step config) st ops).2 (run_ops (log_step config) l ops).2.
Proof.
  revert t st l. induction ops as [|op ops IH]; intros t st l Htr H0 Hc; simpl; [by eauto|].
  assert (match op with QCall now _ _ => t ≤ now | _ => True end ∧
          clock_from (match op with QCall now _ _ => now | _ => t end) ops) as [Hn Hc'] by by destruct op.
  pose proof (step_refines config t st l op Htr H0 Hn) as Hs.
  destruct (quota_step config st op) as [r st'], (log_step config l op) as [r' l']. destruct Hs as [<- Htr'].
  destruct (IH _ st' l' Htr') as [E [t' Ht']]; [destruct op; lia|done|].
  destruct (run_ops (quota_step config) st' ops), (run_ops (log_step config) l' ops). simpl in *.
  split; [by rw E|by exists t'].
Qed.

Definition empty_log : QuotaLog := mkLog [] 0 0.

Lemma tracks_initial : tracks 0 ExtensionQuotaState_default empty_log.
Proof. split; simpl; try done; [constructor|]. by exists (-60000). Qed.

(** ** Limits on the log *)

Definition within (limit : option Z) (n : Z) : Prop := ∀ m, limit = Some m → 0 ≤ m → n ≤ m.

Definition calls_between (a b : Z) (calls : list (Z * Str)) : Z :=
  len (List.filter (λ c, (a <=? c.1) && (c.1 <=? b)) calls).

Record log_within (config : ExtensionQuotaConfig) (l : QuotaLog) : Prop := {
  in_second : ∀ a, within (max_hostcalls_per_second config) (calls_between a (a + 1000) (ql_calls l));
  in_minute : ∀ a, within (max_hostcalls_per_minute config) (calls_between a (a + 60000) (ql_calls l));
  in_total : within (max_hostcalls_total config) (len (ql_calls l));
  in_http : within (max_http_requests config) (calls_for (str "http") (ql_calls l));
  in_active : within (max_subprocesses config) (ql_active l);
}.

Lemma not_reached limit n : reached limit n = false → ∀ m, limit = Some m → n < m.
Proof. intros H m ->. simpl in H. by apply Z.leb_gt. Qed.

Lemma between_le_since a b t calls : t ≤ a → calls_between a b calls ≤ calls_since t calls.
Proof.
  intros Ht. unfold calls_between, calls_since. induction calls as [|[x c] calls IH]; simpl; [done|].
  destruct (Z.leb_spec a x), (Z.leb_spec t x), (Z.leb_spec x b); simpl; rw ?len_cons; try lia.
Qed.

Lemma window_snoc limit w calls now cap :
  0 ≤ w → (∀ a, within limit (calls_between a (a + w) calls)) →
  reached limit (calls_since (now - w) calls) = false →
  ∀ a, within limit (calls_between a (a + w) (calls ++ [(now, cap)])).
Proof.
  intros Hw Hin Hr a m Hm H0. pose proof (not_reached _ _ Hr m Hm). specialize (Hin a m Hm H0).
  unfold calls_between in *. rw List.filter_app len_app. simpl.
  destruct (Z.leb_spec a now), (Z.leb_spec now (a + w)); simpl; rw ?len_cons ?len_nil; try lia.
  pose proof (between_le_since a (a + w) (now - w) calls ltac:(lia)). unfold calls_between in *. lia.
Qed.

Lemma log_step_within config l op : log_within config l → log_within config (log_step config l op).2.
Proof.
  intros [H1 H60 Ht Hh Ha]. destruct op as [now cap dispatched| |bytes]; simpl.
  - destruct (log_admits config l now cap) eqn:Hadm; [|by split].
    unfold log_admits in Hadm. rw !andb_true_iff !negb_true_iff in Hadm. destruct Hadm as [[[[[R1 R60] Rt] Re] Rh] _].
    split; simpl.
    + by apply window_snoc.
    + by apply window_snoc.
    + intros m Hm _. pose proof (not_reached _ _ Rt m Hm). len_lia.
    + intros m Hm H0. specialize (Hh m Hm H0). rw calls_for_snoc. case_bool_decide as E; [|lia]. simpl in Rh.
      pose proof (not_reached _ _ Rh m Hm). lia.
    + unfold spawns. simpl. intros m Hm H0. specialize (Ha m Hm H0).
      destruct dispatched; simpl; [|done].
      repeat case_bool_decide; try (simpl in Re; pose proof (not_reached _ _ Re m Hm)); congruence || lia.
  - split; simpl; auto. intros m Hm H0. specialize (Ha m Hm H0). lia.
  - by split.
Qed.

Lemma log_run_within config l ops : log_within config l → log_within config (run_ops (log_step config) l ops).2.
Proof.
  revert l. induction ops as [|op ops IH]; intros l H; simpl; [done|].
  pose proof (log_step_within config l op H) as H'. destruct (log_step config l op) as [r l']. simpl in H'.
  specialize (IH l' H'). by destruct (run_ops (log_step config) l' ops).
Qed.

(** The calls that were admitted, from the answers. *)
Fixpoint admitted (ops : list QuotaOp) (answers : list (option bool)) : list (Z * Str) :=
  match ops, answers with
  | QCall now cap _ :: ops', Some true :: answers' => (now, cap) :: admitted ops' answers'
  | _ :: ops', _ :: answers' => admitted ops' answers'
  | _, _ => []
  end.

Lemma admitted_log config l ops :
  ql_calls (run_ops (log_step config) l ops).2 =
  ql_calls l ++ admitted ops (run_ops (log_step config) l ops).1.
Proof.
  revert l. induction ops as [|op ops IH]; intros l; simpl; [by rw app_nil_r|].
  pose proof (IH (log_step config l op).2) as E.
  destruct (log_step config l op) as [r l'] eqn:El. simpl in E.
  destruct (run_ops (log_step config) l' ops) as [rs l'']. simpl in *. rw E.
  destruct op as [now cap dispatched| |bytes]; simpl in El; injection El as <- <-; simpl; [|done..].
  destruct (log_admits config l now cap); [|done]. simpl. by rw -assoc.
Qed.

(** ** Claims *)

(** C14: the pruned window decides like the full history.  Whatever calls,
    exits and writes an extension makes, as long as the clock does not go
    back, each call is admitted exactly when the log of all the calls
    admitted before it leaves room under every limit: those of the last
    second and minute, those in total, the running subprocesses for [exec],
    the HTTP calls for [http] and the bytes written for [write]. *)
Theorem quota_refines_log config ops :
  clock_from 0 ops →
  (run_ops (quota_step config) ExtensionQuotaState_default ops).1 = (run_ops (log_step config) empty_log ops).1.
Proof. intros Hc. by apply (run_refines config 0 _ _ ops tracks_initial). Qed.

Lemma quota_refines_log_witness :
  (run_ops (quota_step (for_mode Strict)) ExtensionQuotaState_default
     [QCall 5 (str "exec") true; QExit; QCall 70000 (str "http") true]).1 = [Some true; None; Some true].
Proof.
  etrans; [apply quota_refines_log; simpl; lia|by vm_compute].
Defined.

(** The limits hold.  Over any run in which the clock does not go back,
    no interval of a second (a minute) contains more admitted calls than the
    limit per second (per minute), the admitted calls and the admitted HTTP
    calls never exceed their totals, and there are never more running
    subprocesses than allowed. *)
Theorem quota_limits_hold config ops :
  clock_from 0 ops →
  let '(answers, state) := run_ops (quota_step config) ExtensionQuotaState_default ops in
  let calls := admitted ops answers in
  (∀ a, within (max_hostcalls_per_second config) (calls_between a (a + 1000) calls)) ∧
  (∀ a, within (max_hostcalls_per_minute config) (calls_between a (a + 60000) calls)) ∧
  within (max_hostcalls_total config) (len calls) ∧
  within (max_http_requests config) (calls_for (str "http") calls) ∧
  within (max_subprocesses config) (active_subprocesses state).
Proof.
  intros Hc. destruct (run_refines config 0 _ _ ops tracks_initial ltac:(lia) Hc) as [E [t Htr]].
  pose proof (admitted_log config empty_log ops) as Hadm.
  assert (log_within config empty_log) as H0 by by split; intros; intros m Hm ?; try done.
  apply (log_run_within config _ ops) in H0.
  destruct (run_ops (quota_step config) _ ops) as [answers state]. simpl in *. subst answers.
  rw -Hadm. destruct H0 as [H1 H60 Ht Hh Ha]. split_and!; try done. by rw (tracks_active _ _ _ Htr).
Qed.

Lemma quota_limits_hold_witness :
  calls_between 0 1000 (admitted [QCall 5 (str "read") true; QCall 6 (str "read") true]
    (run_ops (quota_step (mkQuota (Some 1) None None None None None)) ExtensionQuotaState_default
       [QCall 5 (str "read") true; QCall 6 (str "read") true]).1) ≤ 1.
Proof.
  pose proof (quota_limits_hold (mkQuota (Some 1) None None None None None)
    [QCall 5 (str "read") true; QCall 6 (str "read") true] ltac:(simpl; lia)) as H.
  destruct (run_ops _ _ _) as [answers state]. destruct H as [H _]. by apply (H 0).
Defined.

(** An extension's check reads and writes its own counters only, under its
    own limits when the policy sets them; a breach is recorded with the
    source of the limit. *)
Lemma check_quota_is_local m e cap now policy :
  let '(result, m') := check_quota m (Some e) cap now policy in
  (∀ e', e' ≠ e → quota_entry m' e' = quota_entry m e') ∧
  (result, quota_entry m' e) =
    check_extension_quota (default (quota_config m) (override_quota policy e)) (quota_entry m e) now cap ∧
  quota_config m' = quota_config m ∧
  quota_breach_events m' = quota_breach_events m ++
    match result with
    | QAllowed => []
    | QExceeded reason => [mkBreach now e cap reason
        (match override_quota policy e with Some _ => str "per_extension" | None => str "global" end)]
    end.
Proof.
  unfold check_quota. destruct (check_extension_quota _ _ _ _) as [[|reason] st]; simpl.
  - split_and!; [|by rw /quota_entry /= lookup_insert_eq|done|by rw app_nil_r].
    intros e' Hne. unfold quota_entry. simpl. by rw lookup_insert_ne.
  - split_and!; [|by rw /quota_entry /= lookup_insert_eq|done..].
    intros e' Hne. unfold quota_entry. simpl. by rw lookup_insert_ne.
Qed.
