(* ===== verification/HostcallProtocol.v ===== *)
(** * The hostcall protocol ([src/extensions/protocol.rs], with the payload
    types and capability tables of [src/extensions.rs] and the filesystem
    operations of [src/extensions/fs_connector.rs])

    What an extension's request must declare before it is dispatched: the
    typed opcodes and how they are derived from a payload or read from its
    context, the capability each call needs, the dispatch lane, and the
    conversion of outcomes into results.

    Strings are lists of characters; the code folds the bytes of a token, but
    every byte of a character outside ASCII is dropped, as the character is
    here. *)

From S2P Require Import Prelude Text Json Messages.

(** A [match] on string literals, in the order of its arms. *)
Fixpoint match_str {A} (s : Str) (arms : list (string * A)) : option A :=
  match arms with
  | [] => None
  | (pat, a) :: arms' => if decide (s = str pat) then Some a else match_str s arms'
  end.

Definition value_is_object (v : Json) : bool :=
  match v with JsonObject _ => true | _ => false end.

(** [Value::as_u64] on a number's text. *)
Definition value_as_u64 (v : Json) : option Z :=
  match v with JsonNumber t => parse_u64 t | _ => None end.

(** ** Payloads *)

Record HostCallPayload := mkCall {
  hc_call_id : Str;
  hc_capability : Str;
  hc_method : Str;
  hc_params : Json;
  hc_timeout_ms : option Z;
  hc_cancel_token : option Str;
  hc_context : option Json;
}.

(** ** Filesystem operations *)

Inductive FsOp := FsRead | FsWrite | FsList | FsStat | FsMkdir | FsDelete.

Definition FsOp_parse (value : Str) : option FsOp :=
  let value := trim value in
  if eq_ignore_ascii_case value (str "read") then Some FsRead
  else if eq_ignore_ascii_case value (str "write") then Some FsWrite
  else if eq_ignore_ascii_case value (str "list") || eq_ignore_ascii_case value (str "readdir") then Some FsList
  else if eq_ignore_ascii_case value (str "stat") then Some FsStat
  else if eq_ignore_ascii_case value (str "mkdir") then Some FsMkdir
  else if eq_ignore_ascii_case value (str "delete") || eq_ignore_ascii_case value (str "remove")
          || eq_ignore_ascii_case value (str "rm") then Some FsDelete
  else None.

Definition FsOp_required_capability (op : FsOp) : Str :=
  match op with
  | FsRead | FsList | FsStat => str "read"
  | FsWrite | FsMkdir | FsDelete => str "write"
  end.

(** ** Opcodes *)

Inductive CommonHostcallOpcode :=
| ToolRead | ToolWrite | ToolEdit | ToolBash
| SessionGetState | SessionGetMessages | SessionGetEntries | SessionGetBranch | SessionGetFile | SessionGetName
| SessionSetName | SessionGetModel | SessionSetModel | SessionGetThinkingLevel | SessionSetThinkingLevel
| SessionSetLabel
| EventsGetActiveTools | EventsGetAllTools | EventsSetActiveTools | EventsEmit | EventsList | EventsGetModel
| EventsSetModel | EventsGetThinkingLevel | EventsSetThinkingLevel | EventsGetFlag | EventsListFlags
| EventsAppendEntry | EventsRegisterCommand.

#[global] Instance CommonHostcallOpcode_eq_dec : EqDecision CommonHostcallOpcode.
Proof. solve_decision. Defined.

Definition opcode_code (opcode : CommonHostcallOpcode) : Str :=
  match opcode with
  | ToolRead => str "tool.read"
  | ToolWrite => str "tool.write"
  | ToolEdit => str "tool.edit"
  | ToolBash => str "tool.bash"
  | SessionGetState => str "session.get_state"
  | SessionGetMessages => str "session.get_messages"
  | SessionGetEntries => str "session.get_entries"
  | SessionGetBranch => str "session.get_branch"
  | SessionGetFile => str "session.get_file"
  | SessionGetName => str "session.get_name"
  | SessionSetName => str "session.set_name"
  | SessionGetModel => str "session.get_model"
  | SessionSetModel => str "session.set_model"
  | SessionGetThinkingLevel => str "session.get_thinking_level"
  | SessionSetThinkingLevel => str "session.set_thinking_level"
  | SessionSetLabel => str "session.set_label"
  | EventsGetActiveTools => str "events.get_active_tools"
  | EventsGetAllTools => str "events.get_all_tools"
  | EventsSetActiveTools => str "events.set_active_tools"
  | EventsEmit => str "events.emit"
  | EventsList => str "events.list"
  | EventsGetModel => str "events.get_model"
  | EventsSetModel => str "events.set_model"
  | EventsGetThinkingLevel => str "events.get_thinking_level"
  | EventsSetThinkingLevel => str "events.set_thinking_level"
  | EventsGetFlag => str "events.get_flag"
  | EventsListFlags => str "events.list_flags"
  | EventsAppendEntry => str "events.append_entry"
  | EventsRegisterCommand => str "events.register_command"
  end.

Definition opcode_method (opcode : CommonHostcallOpcode) : Str :=
  match opcode with
  | ToolRead | ToolWrite | ToolEdit | ToolBash => str "tool"
  | SessionGetState | SessionGetMessages | SessionGetEntries | SessionGetBranch | SessionGetFile
  | SessionGetName | SessionSetName | SessionGetModel | SessionSetModel | SessionGetThinkingLevel
  | SessionSetThinkingLevel | SessionSetLabel => str "session"
  | EventsGetActiveTools | EventsGetAllTools | EventsSetActiveTools | EventsEmit | EventsList
  | EventsGetModel | EventsSetModel | EventsGetThinkingLevel | EventsSetThinkingLevel | EventsGetFlag
  | EventsListFlags | EventsAppendEntry | EventsRegisterCommand => str "events"
  end.

Definition opcode_required_capability (opcode : CommonHostcallOpcode) : Str :=
  match opcode with
  | ToolRead => str "read"
  | ToolWrite | ToolEdit => str "write"
  | ToolBash => str "exec"
  | SessionGetState | SessionGetMessages | SessionGetEntries | SessionGetBranch | SessionGetFile
  | SessionGetName | SessionSetName | SessionGetModel | SessionSetModel | SessionGetThinkingLevel
  | SessionSetThinkingLevel | SessionSetLabel => str "session"
  | EventsGetActiveTools | EventsGetAllTools | EventsSetActiveTools | EventsEmit | EventsList
  | EventsGetModel | EventsSetModel | EventsGetThinkingLevel | EventsSetThinkingLevel | EventsGetFlag
  | EventsListFlags | EventsAppendEntry | EventsRegisterCommand => str "events"
  end.

Definition opcode_capability_class (opcode : CommonHostcallOpcode) : Str :=
  match opcode with
  | ToolRead | ToolWrite | ToolEdit => str "filesystem"
  | ToolBash => str "execution"
  | SessionGetState | SessionGetMessages | SessionGetEntries | SessionGetBranch | SessionGetFile
  | SessionGetName | SessionSetName | SessionGetModel | SessionSetModel | SessionGetThinkingLevel
  | SessionSetThinkingLevel | SessionSetLabel => str "session"
  | EventsGetActiveTools | EventsGetAllTools | EventsSetActiveTools | EventsEmit | EventsList
  | EventsGetModel | EventsSetModel | EventsGetThinkingLevel | EventsSetThinkingLevel | EventsGetFlag
  | EventsListFlags | EventsAppendEntry | EventsRegisterCommand => str "events"
  end.

Definition lane_matrix_key (opcode : CommonHostcallOpcode) : Str :=
  match opcode with
  | ToolRead => str "tool|tool.read|filesystem"
  | ToolWrite => str "tool|tool.write|filesystem"
  | ToolEdit => str "tool|tool.edit|filesystem"
  | ToolBash => str "tool|tool.bash|execution"
  | SessionGetState => str "session|session.get_state|session"
  | SessionGetMessages => str "session|session.get_messages|session"
  | SessionGetEntries => str "session|session.get_entries|session"
  | SessionGetBranch => str "session|session.get_branch|session"
  | SessionGetFile => str "session|session.get_file|session"
  | SessionGetName => str "session|session.get_name|session"
  | SessionSetName => str "session|session.set_name|session"
  | SessionGetModel => str "session|session.get_model|session"
  | SessionSetModel => str "session|session.set_model|session"
  | SessionGetThinkingLevel => str "session|session.get_thinking_level|session"
  | SessionSetThinkingLevel => str "session|session.set_thinking_level|session"
  | SessionSetLabel => str "session|session.set_label|session"
  | EventsGetActiveTools => str "events|events.get_active_tools|events"
  | EventsGetAllTools => str "events|events.get_all_tools|events"
  | EventsSetActiveTools => str "events|events.set_active_tools|events"
  | EventsEmit => str "events|events.emit|events"
  | EventsList => str "events|events.list|events"
  | EventsGetModel => str "events|events.get_model|events"
  | EventsSetModel => str "events|events.set_model|events"
  | EventsGetThinkingLevel => str "events|events.get_thinking_level|events"
  | EventsSetThinkingLevel => str "events|events.set_thinking_level|events"
  | EventsGetFlag => str "events|events.get_flag|events"
  | EventsListFlags => str "events|events.list_flags|events"
  | EventsAppendEntry => str "events|events.append_entry|events"
  | EventsRegisterCommand => str "events|events.register_command|events"
  end.

Definition parse_common_hostcall_opcode_code (code : Str) : option CommonHostcallOpcode :=
  match_str (trim code)
    [("tool.read"%string, ToolRead); ("tool.write"%string, ToolWrite); ("tool.edit"%string, ToolEdit);
     ("tool.bash"%string, ToolBash);
     ("session.get_state"%string, SessionGetState); ("session.get_messages"%string, SessionGetMessages);
     ("session.get_entries"%string, SessionGetEntries); ("session.get_branch"%string, SessionGetBranch);
     ("session.get_file"%string, SessionGetFile); ("session.get_name"%string, SessionGetName);
     ("session.set_name"%string, SessionSetName); ("session.get_model"%string, SessionGetModel);
     ("session.set_model"%string, SessionSetModel);
     ("session.get_thinking_level"%string, SessionGetThinkingLevel);
     ("session.set_thinking_level"%string, SessionSetThinkingLevel);
     ("session.set_label"%string, SessionSetLabel);
     ("events.get_active_tools"%string, EventsGetActiveTools);
     ("events.get_all_tools"%string, EventsGetAllTools);
     ("events.set_active_tools"%string, EventsSetActiveTools); ("events.emit"%string, EventsEmit);
     ("events.list"%string, EventsList); ("events.get_model"%string, EventsGetModel);
     ("events.set_model"%string, EventsSetModel);
     ("events.get_thinking_level"%string, EventsGetThinkingLevel);
     ("events.set_thinking_level"%string, EventsSetThinkingLevel);
     ("events.get_flag"%string, EventsGetFlag); ("events.list_flags"%string, EventsListFlags);
     ("events.append_entry"%string, EventsAppendEntry);
     ("events.register_command"%string, EventsRegisterCommand)].

(** ** Folded tokens *)

Definition is_ascii_alphanumeric (c : N) : bool :=
  (48 <=? c)%N && (c <=? 57)%N || (65 <=? c)%N && (c <=? 90)%N || (97 <=? c)%N && (c <=? 122)%N.

Definition INLINE_CAP : nat := 64.

(** The loop's state: the filled part of the inline buffer and the heap
    buffer, once the inline one has overflowed. *)
Definition fold_push (st : Str * option Str) (byte : N) : Str * option Str :=
  let '(inline, heap) := st in
  if negb (is_ascii_alphanumeric byte) then st
  else
    let folded := to_ascii_lower byte in
    match heap with
    | Some buf => (inline, Some (buf ++ [folded]))
    | None =>
        if (length inline <? INLINE_CAP)%nat then (inline ++ [folded], None)
        else (inline, Some (inline ++ [folded]))
    end.

Definition with_folded_ascii_alnum_token {T} (token : Str) (f : Str → T) : T :=
  match fold_left fold_push (trim token) ([], None) with
  | (_, Some buf) => f buf
  | (inline, None) => f inline
  end.

(** The two iterators in lockstep. *)
Definition folded_bytes (s : Str) : Str := to_ascii_lower <$> List.filter is_ascii_alphanumeric (trim s).

Fixpoint iter_eq (l r : Str) : bool :=
  match l, r with
  | a :: l', b :: r' => if (a =? b)%N then iter_eq l' r' else false
  | [], [] => true
  | _, _ => false
  end.

Definition token_eq_ascii_folded (left right : Str) : bool := iter_eq (folded_bytes left) (folded_bytes right).

Inductive HostcallMethodAtom := AtomTool | AtomSession | AtomEvents | AtomUnknown.

Definition intern_hostcall_method_atom (method : Str) : HostcallMethodAtom :=
  with_folded_ascii_alnum_token method (λ folded,
    default AtomUnknown (match_str folded
      [("tool"%string, AtomTool); ("session"%string, AtomSession); ("events"%string, AtomEvents)])).

Definition nonempty (s : Str) : option Str := if is_empty s then None else Some s.

(** [o.or_else(|| p)] *)
Definition or_else {A} (o p : option A) : option A := match o with Some _ => o | None => p end.

Definition hostcall_param_op (params : Json) : option Str :=
  (or_else (value_get params (str "op"))
     (or_else (value_get params (str "method")) (value_get params (str "name"))) ≫= value_as_str)
  ≫= λ s, nonempty (trim s).

Definition parse_tool_opcode_atom (name : Str) : option CommonHostcallOpcode :=
  with_folded_ascii_alnum_token name (λ folded, match_str folded
    [("read"%string, ToolRead); ("write"%string, ToolWrite); ("edit"%string, ToolEdit);
     ("bash"%string, ToolBash)]).

Definition parse_session_opcode_atom (op : Str) : option CommonHostcallOpcode :=
  with_folded_ascii_alnum_token op (λ folded, match_str folded
    [("getstate"%string, SessionGetState); ("getmessages"%string, SessionGetMessages);
     ("getentries"%string, SessionGetEntries); ("getbranch"%string, SessionGetBranch);
     ("getfile"%string, SessionGetFile); ("getname"%string, SessionGetName);
     ("setname"%string, SessionSetName); ("getmodel"%string, SessionGetModel);
     ("setmodel"%string, SessionSetModel); ("getthinkinglevel"%string, SessionGetThinkingLevel);
     ("setthinkinglevel"%string, SessionSetThinkingLevel); ("setlabel"%string, SessionSetLabel)]).

Definition parse_events_opcode_atom (op : Str) : option CommonHostcallOpcode :=
  with_folded_ascii_alnum_token op (λ folded, match_str folded
    [("getactivetools"%string, EventsGetActiveTools); ("getalltools"%string, EventsGetAllTools);
     ("setactivetools"%string, EventsSetActiveTools); ("emit"%string, EventsEmit);
     ("list"%string, EventsList); ("getmodel"%string, EventsGetModel);
     ("setmodel"%string, EventsSetModel); ("getthinkinglevel"%string, EventsGetThinkingLevel);
     ("setthinkinglevel"%string, EventsSetThinkingLevel); ("getflag"%string, EventsGetFlag);
     ("listflags"%string, EventsListFlags); ("appendentry"%string, EventsAppendEntry);
     ("registercommand"%string, EventsRegisterCommand)]).

Definition derive_common_hostcall_opcode (method : Str) (params : Json) : option CommonHostcallOpcode :=
  match intern_hostcall_method_atom method with
  | AtomTool => (value_get params (str "name") ≫= value_as_str) ≫= parse_tool_opcode_atom
  | AtomSession => hostcall_param_op params ≫= parse_session_opcode_atom
  | AtomEvents => hostcall_param_op params ≫= parse_events_opcode_atom
  | AtomUnknown => None
  end.

(** ** Typed opcodes in the context *)

Definition HOSTCALL_OPCODE_CONTEXT_KEY : Str := str "typed_opcode".
Definition HOSTCALL_OPCODE_SCHEMA_VERSION : Str := str "pi.ext.hostcall_opcode.v1".
Definition HOSTCALL_OPCODE_VERSION : Z := 1.

Definition field_text (m : list (Str * Json)) (key : Str) : option Str :=
  (json_lookup key m ≫= value_as_str) ≫= λ s, nonempty (trim s).

Definition validation {A} (message : Str) : result A Error := Err (ErrValidation message).

Definition parse_opcode_from_context (call : HostCallPayload) : result (option CommonHostcallOpcode) Error :=
  match hc_context call with
  | None => Ok None
  | Some (JsonObject context_obj) =>
      match json_lookup HOSTCALL_OPCODE_CONTEXT_KEY context_obj with
      | None => Ok None
      | Some (JsonObject meta_obj) =>
          match field_text meta_obj (str "schema") with
          | None => validation (str "host_call context.typed_opcode.schema is required")
          | Some schema =>
              if decide (schema ≠ HOSTCALL_OPCODE_SCHEMA_VERSION) then
                validation (str "Unsupported host_call typed opcode schema: " ++ schema)
              else
              match json_lookup (str "version") meta_obj ≫= value_as_u64 with
              | None => validation (str "host_call context.typed_opcode.version is required")
              | Some version =>
                  if negb (version =? HOSTCALL_OPCODE_VERSION) then
                    validation (str "Unsupported host_call typed opcode version: " ++ show_u64 version)
                  else
                  match field_text meta_obj (str "code") with
                  | None => validation (str "host_call context.typed_opcode.code is required")
                  | Some code =>
                      match parse_common_hostcall_opcode_code code with
                      | None => validation (str "Unknown host_call typed opcode code: " ++ code)
                      | Some opcode => Ok (Some opcode)
                      end
                  end
              end
          end
      | Some _ => validation (str "host_call context.typed_opcode must be an object")
      end
  | Some _ => validation (str "host_call context must be an object when typed opcode metadata is provided")
  end.

Inductive HostcallOpcodeSource := ContextV1 | DerivedV1.

Inductive HostcallOpcodeResolution :=
| FastPath (opcode : CommonHostcallOpcode) (source : HostcallOpcodeSource)
| Fallback (reason : Str).

Definition in_quotes (s : Str) : Str := str "'" ++ s ++ str "'".

Definition resolve_hostcall_opcode (call : HostCallPayload) : result HostcallOpcodeResolution Error :=
  let? from_context := parse_opcode_from_context call in
  match from_context with
  | Some opcode =>
      match derive_common_hostcall_opcode (hc_method call) (hc_params call) with
      | None => validation (str "host_call typed opcode " ++ in_quotes (opcode_code opcode)
                  ++ str " is not compatible with method " ++ in_quotes (hc_method call))
      | Some derived =>
          if decide (derived ≠ opcode) then
            validation (str "host_call typed opcode " ++ in_quotes (opcode_code opcode)
              ++ str " does not match payload-derived opcode " ++ in_quotes (opcode_code derived))
          else Ok (FastPath opcode ContextV1)
      end
  | None =>
      match derive_common_hostcall_opcode (hc_method call) (hc_params call) with
      | Some opcode => Ok (FastPath opcode DerivedV1)
      | None => Ok (Fallback (str "opcode_not_declared_or_not_supported"))
      end
  end.

(** [json!]'s rendering of the opcode; numbers are their text. *)
Definition hostcall_opcode_context_for_params (method : Str) (params : Json) : option Json :=
  opcode ← derive_common_hostcall_opcode method params;
  Some (JsonObject [(HOSTCALL_OPCODE_CONTEXT_KEY, JsonObject
    [(str "schema", JsonString HOSTCALL_OPCODE_SCHEMA_VERSION);
     (str "version", JsonNumber (show_u64 HOSTCALL_OPCODE_VERSION));
     (str "code", JsonString (opcode_code opcode))])]).

(** [Map::extend] *)
Definition json_extend (m entries : list (Str * Json)) : list (Str * Json) :=
  fold_left (λ acc kv, json_insert kv.1 kv.2 acc) entries m.

Definition merge_hostcall_context (base : option Json) (extra : Json) : option Json :=
  let merged := match base with Some (JsonObject base_obj) => json_extend [] base_obj | _ => [] end in
  let merged := match extra with JsonObject extra_obj => json_extend merged extra_obj | _ => merged end in
  match merged with [] => None | _ => Some (JsonObject merged) end.

Definition params_without_key (params : Json) (key : Str) : Json :=
  match params with
  | JsonObject map => JsonObject (List.filter (λ kv, negb (bool_decide (kv.1 = key))) map)
  | _ => JsonNull
  end.

(** ** Required capabilities *)

Definition required_capability_for_host_call_static_legacy (call : HostCallPayload) : option Str :=
  let method := trim (hc_method call) in
  let method_is m := eq_ignore_ascii_case method (str m) in
  if is_empty method then None
  else if method_is "fs"%string then
    let op := default [] (trim <$> (value_get (hc_params call) (str "op") ≫= value_as_str)) in
    FsOp_required_capability <$> FsOp_parse op
  else if method_is "tool"%string then
    tool_name ← trim <$> (value_get (hc_params call) (str "name") ≫= value_as_str);
    let named n := eq_ignore_ascii_case tool_name (str n) in
    if is_empty tool_name then None
    else if named "read"%string || named "grep"%string || named "find"%string || named "ls"%string
      then Some (str "read")
    else if named "write"%string || named "edit"%string then Some (str "write")
    else if named "bash"%string then Some (str "exec")
    else Some (str "tool")
  else if method_is "exec"%string then Some (str "exec")
  else if method_is "env"%string then Some (str "env")
  else if method_is "http"%string then Some (str "http")
  else if method_is "session"%string then Some (str "session")
  else if method_is "ui"%string then Some (str "ui")
  else if method_is "events"%string then Some (str "events")
  else if method_is "log"%string then Some (str "log")
  else None.

Definition required_capability_for_host_call_static (call : HostCallPayload) : option Str :=
  match resolve_hostcall_opcode call with
  | Ok (FastPath opcode _) => Some (opcode_required_capability opcode)
  | _ => required_capability_for_host_call_static_legacy call
  end.

Definition capability_mismatch {A} (declared required : Str) : result A Error :=
  validation (str "Host call capability mismatch: declared " ++ declared ++ str ", required " ++ required).

Definition declared_capability (call : HostCallPayload) : Str := to_ascii_lowercase (trim (hc_capability call)).

Definition validate_host_call (payload : HostCallPayload) : result unit Error :=
  if is_empty (trim (hc_call_id payload)) then validation (str "Host call_id is empty")
  else if negb (value_is_object (hc_params payload)) then validation (str "Host call params must be an object")
  else if is_empty (declared_capability payload) then validation (str "Host call capability is empty")
  else if is_empty (trim (hc_method payload)) then validation (str "Host call method is empty")
  else
    let? resolution := resolve_hostcall_opcode payload in
    let? required :=
      match resolution with
      | FastPath opcode _ => Ok (opcode_required_capability opcode)
      | Fallback _ =>
          match required_capability_for_host_call_static_legacy payload with
          | Some required => Ok required
          | None => validation (str "Unknown or invalid host call method: " ++ hc_method payload)
          end
      end in
    if decide (declared_capability payload ≠ required) then capability_mismatch (declared_capability payload) required
    else Ok tt.

(** ** Lanes *)

Inductive HostcallDispatchLane := LaneFast | LaneCompat.

Record HostcallLaneDecision := mkLane {
  lane_lane : HostcallDispatchLane;
  lane_reason : Str;
  lane_opcode : option CommonHostcallOpcode;
  lane_capability_class : Str;
  lane_matrix : Str;
}.

Definition hostcall_capability_class_from_capability (capability : Str) : Str :=
  default (str "unknown") (match_str capability
    [("read"%string, str "filesystem"); ("write"%string, str "filesystem"); ("exec"%string, str "execution");
     ("env"%string, str "environment"); ("http"%string, str "network"); ("session"%string, str "session");
     ("events"%string, str "events"); ("ui"%string, str "ui"); ("log"%string, str "telemetry");
     ("tool"%string, str "tool")]).

Definition hostcall_capability_class (call : HostCallPayload) : Str :=
  hostcall_capability_class_from_capability (declared_capability call).

Definition fallback_lane_matrix_key (call : HostCallPayload) (capability_class : Str) : Str :=
  let method := to_ascii_lowercase (trim (hc_method call)) in
  let arm m c key rest := if decide (method = str m ∧ capability_class = str c) then str key else rest in
  arm "tool"%string "tool"%string "tool|fallback|tool"%string
  (arm "tool"%string "filesystem"%string "tool|fallback|filesystem"%string
  (arm "tool"%string "execution"%string "tool|fallback|execution"%string
  (arm "fs"%string "filesystem"%string "fs|fallback|filesystem"%string
  (arm "exec"%string "execution"%string "exec|fallback|execution"%string
  (arm "env"%string "environment"%string "env|fallback|environment"%string
  (arm "http"%string "network"%string "http|fallback|network"%string
  (arm "session"%string "session"%string "session|fallback|session"%string
  (arm "events"%string "events"%string "events|fallback|events"%string
  (arm "ui"%string "ui"%string "ui|fallback|ui"%string
  (arm "log"%string "telemetry"%string "log|fallback|telemetry"%string
  (str "unknown|fallback|unknown"))))))))))).

Definition select_hostcall_lane (call : HostCallPayload) : result HostcallLaneDecision Error :=
  let declared := declared_capability call in
  if is_empty declared then validation (str "Host call capability is empty")
  else
    let? resolution := resolve_hostcall_opcode call in
    match resolution with
    | FastPath opcode source =>
        let required := opcode_required_capability opcode in
        if decide (declared ≠ required) then capability_mismatch declared required
        else Ok (mkLane LaneFast
               (match source with ContextV1 => str "typed_opcode_context_v1" | DerivedV1 => str "typed_opcode_derived_v1" end)
               (Some opcode) (opcode_capability_class opcode) (lane_matrix_key opcode))
    | Fallback reason =>
        let compat := let class := hostcall_capability_class call in
          Ok (mkLane LaneCompat reason None class (fallback_lane_matrix_key call class)) in
        match required_capability_for_host_call_static_legacy call with
        | Some required => if decide (declared ≠ required) then capability_mismatch declared required else compat
        | None => compat
        end
    end.

(** [kill_switch] is the manager's answer, [None] also without a manager. *)
Definition apply_hostcall_lane_kill_switch (kill_switch : option Str) (call : HostCallPayload)
    (lane : HostcallLaneDecision) : HostcallLaneDecision :=
  match lane_lane lane, kill_switch with
  | LaneCompat, _ | _, None => lane
  | LaneFast, Some reason =>
      let class := hostcall_capability_class call in
      mkLane LaneCompat reason None class (fallback_lane_matrix_key call class)
  end.

(** ** Outcomes and results *)

Inductive HostcallOutcome :=
| Success (v : Json)
| OutcomeError (code message : Str)
| StreamChunk (sequence : Z) (chunk : Json) (is_final : bool).

Inductive HostCallErrorCode := ECTimeout | ECDenied | ECIo | ECInvalidRequest | ECInternal.

Record HostCallError := mkHostError { he_code : HostCallErrorCode; he_message : Str;
  he_details : option Json; he_retryable : option bool }.

(** The backpressure hints, always absent in what the host sends, are a pair
    of optional numbers. *)
Record HostStreamChunk := mkChunk { ch_index : Z; ch_is_last : bool; ch_backpressure : option (option Z * option Z) }.

Record HostResultPayload := mkResult {
  hr_call_id : Str;
  hr_output : Json;
  hr_is_error : bool;
  hr_error : option HostCallError;
  hr_chunk : option HostStreamChunk;
}.

Definition parse_error_code (code : Str) : HostCallErrorCode :=
  default ECInternal (match_str code
    [("timeout"%string, ECTimeout); ("denied"%string, ECDenied); ("io"%string, ECIo);
     ("invalid_request"%string, ECInvalidRequest)]).

Definition host_call_error_code_str (code : HostCallErrorCode) : Str :=
  match code with
  | ECTimeout => str "timeout"
  | ECDenied => str "denied"
  | ECIo => str "io"
  | ECInvalidRequest => str "invalid_request"
  | ECInternal => str "internal"
  end.

Definition hostcall_error_code (e : Error) : Str :=
  match e with
  | ErrValidation _ => str "invalid_request"
  | ErrIo _ | ErrSession _ | SessionNotFound _ | ErrSqlite _ => str "io"
  | ErrAuth _ => str "denied"
  | ErrAborted => str "timeout"
  | ErrJson _ | ErrExtension _ | ErrConfig _ | ErrProvider _ _ | ErrTool _ _ | Api _ => str "internal"
  end.

Definition host_result_to_outcome (result : HostResultPayload) : HostcallOutcome :=
  match hr_chunk result with
  | Some chunk_info => StreamChunk (ch_index chunk_info) (hr_output result) (ch_is_last chunk_info)
  | None =>
      if hr_is_error result then
        let code := match hr_error result with Some e => host_call_error_code_str (he_code e) | None => str "internal" end in
        let message := match hr_error result with Some e => he_message e | None => str "Unknown error" end in
        OutcomeError code message
      else Success (hr_output result)
  end.

Definition outcome_to_host_result (call_id : Str) (outcome : HostcallOutcome) : HostResultPayload :=
  match outcome with
  | Success output => mkResult call_id output false None None
  | OutcomeError code message =>
      mkResult call_id (JsonObject []) true (Some (mkHostError (parse_error_code code) message None None)) None
  | StreamChunk sequence chunk is_final =>
      mkResult call_id chunk false None (Some (mkChunk sequence is_final None))
  end.

Definition validate_host_result (payload : HostResultPayload) : result unit Error :=
  if is_empty (trim (hr_call_id payload)) then validation (str "Host result call_id is empty")
  else if negb (value_is_object (hr_output payload)) then validation (str "Host result output must be an object")
  else if hr_is_error payload then
    match hr_error payload with
    | None => validation (str "Host result marked is_error=true but error payload is missing")
    | Some _ => Ok tt
    end
  else
    match hr_error payload with
    | Some _ => validation (str "Host result includes error payload but is_error=false")
    | None => Ok tt
    end.

(** ** Folding *)

Definition fold_state_ok (done_ : Str) (st : Str * option Str) : Prop :=
  (length st.1 ≤ INLINE_CAP)%nat ∧
  match st.2 with Some buf => buf = done_ | None => st.1 = done_ end.

Lemma fold_push_ok done_ st c :
  fold_state_ok done_ st →
  fold_state_ok (done_ ++ (to_ascii_lower <$> List.filter is_ascii_alphanumeric [c])) (fold_push st c).
Proof.
  destruct st as [inline [buf|]]; unfold fold_state_ok, fold_push; simpl; intros [Hl <-];
    destruct (is_ascii_alphanumeric c); simpl; rw ?app_nil_r; try done.
  destruct (Nat.ltb_spec (length inline) INLINE_CAP); simpl; rw ?length_app /=; split; [lia|done|lia|done].
Qed.

Lemma fold_pushes_ok s done_ st :
  fold_state_ok done_ st →
  fold_state_ok (done_ ++ (to_ascii_lower <$> List.filter is_ascii_alphanumeric s)) (fold_left fold_push s st).
Proof.
  revert done_ st. induction s as [|c s IH]; intros done_ st Hst; simpl; [by rw app_nil_r|].
  pose proof (IH _ _ (fold_push_ok _ _ c Hst)) as H. rw -assoc in H.
  replace (to_ascii_lower <$> (if is_ascii_alphanumeric c then _ else _))
    with ((to_ascii_lower <$> List.filter is_ascii_alphanumeric [c]) ++
          (to_ascii_lower <$> List.filter is_ascii_alphanumeric s)); [done|].
  simpl. by destruct (is_ascii_alphanumeric c).
Qed.

Lemma with_folded_spec {T} token (f : Str → T) : with_folded_ascii_alnum_token token f = f (folded_bytes token).
Proof.
  unfold with_folded_ascii_alnum_token, folded_bytes.
  assert (fold_state_ok [] ([], None)) as H0 by (split; simpl; [lia|done]).
  pose proof (fold_pushes_ok (trim token) [] ([], None) H0) as [_ H].
  destruct (fold_left _ _ _) as [inline [buf|]]; simpl in *; by subst.
Qed.

Lemma iter_eq_spec l r : iter_eq l r = true ↔ l = r.
Proof.
  revert r. induction l as [|a l IH]; intros [|b r]; simpl; [done..|].
  destruct (N.eqb_spec a b) as [->|Hn]; [rw IH; naive_solver|]. split; [done|naive_solver].
Qed.

Lemma match_str_Some {A} s (arms : list (string * A)) a :
  match_str s arms = Some a → ∃ pat, (pat, a) ∈ arms ∧ s = str pat.
Proof.
  induction arms as [|[pat b] arms IH]; simpl; [done|]. case_decide as E.
  - intros [= ->]. exists pat. split; [left|done].
  - intros (p & Hp & ->)%IH. exists p. split; [by right|done].
Qed.

(** ** Resolution *)

Lemma resolve_derived call opcode source :
  resolve_hostcall_opcode call = Ok (FastPath opcode source) →
  derive_common_hostcall_opcode (hc_method call) (hc_params call) = Some opcode.
Proof.
  unfold resolve_hostcall_opcode. destruct (parse_opcode_from_context call) as [[o|]|e]; simpl; [| |done].
  - destruct (derive_common_hostcall_opcode _ _) as [d|]; [|done].
    case_decide as Hd; [done|]. intros [= <- _]. by subst.
  - by destruct (derive_common_hostcall_opcode _ _) as [d|]; intros [= -> _].
Qed.

Lemma resolve_fallback call reason :
  resolve_hostcall_opcode call = Ok (Fallback reason) →
  derive_common_hostcall_opcode (hc_method call) (hc_params call) = None.
Proof.
  unfold resolve_hostcall_opcode. destruct (parse_opcode_from_context call) as [[o|]|e]; simpl; [| |done];
    destruct (derive_common_hostcall_opcode _ _) as [d|]; try done. by case_decide.
Qed.

Lemma opcode_code_round_trip opcode : parse_common_hostcall_opcode_code (opcode_code opcode) = Some opcode.
Proof. by destruct opcode; vm_compute. Qed.

Lemma opcode_code_text opcode : nonempty (trim (opcode_code opcode)) = Some (opcode_code opcode).
Proof. by destruct opcode; vm_compute. Qed.

(** The capability a call is checked against. *)
Lemma validate_ok call :
  validate_host_call call = Ok tt ↔
  trim (hc_call_id call) ≠ [] ∧ value_is_object (hc_params call) = true ∧ declared_capability call ≠ [] ∧
  trim (hc_method call) ≠ [] ∧ (∃ r, resolve_hostcall_opcode call = Ok r) ∧
  required_capability_for_host_call_static call = Some (declared_capability call).
Proof.
  unfold validate_host_call, required_capability_for_host_call_static.
  assert (∀ s, is_empty s = true ↔ s = []) as He by by intros [].
  destruct (is_empty (trim (hc_call_id call))) eqn:E1; [apply He in E1; naive_solver|].
  destruct (value_is_object _) eqn:E2; simpl; [|naive_solver].
  destruct (is_empty (declared_capability call)) eqn:E3; [apply He in E3; naive_solver|].
  destruct (is_empty (trim (hc_method call))) eqn:E4; [apply He in E4; naive_solver|].
  assert (∀ s, is_empty s = false → s ≠ []) as Hn by by intros [].
  apply Hn in E1, E3, E4.
  destruct (resolve_hostcall_opcode call) as [[o src|reason]|e] eqn:Er; simpl;
    [| |split; [done|]; intros (_ & _ & _ & _ & [r [=]] & _)].
  - case_decide as Hd; simpl; [split; [done|]; intros (_&_&_&_&_&[= Hc]); congruence|].
    split; [intros _; split_and!; eauto; congruence|done].
  - destruct (required_capability_for_host_call_static_legacy call) as [c|]; simpl;
      [|split; [done|]; intros (_ & _ & _ & _ & _ & [=])].
    case_decide as Hd; simpl; [split; [done|]; intros (_&_&_&_&_&[= Hc]); congruence|].
    split; [intros _; split_and!; eauto; congruence|done].
Qed.

(** ** Claims *)

(** A token is folded to its ASCII letters and digits, in lower case,
    whatever its length.  The 64-byte inline buffer is never written past its
    end and spills to the heap without losing a byte, and comparing two tokens
    in lockstep is comparing their folded forms. *)
Theorem folding_survives_the_spill {T} token other (f : Str → T) :
  with_folded_ascii_alnum_token token f = f (folded_bytes token) ∧
  (∀ s t, trim token = s ++ t → (length (fold_left fold_push s ([], None)).1 ≤ INLINE_CAP)%nat) ∧
  (token_eq_ascii_folded token other = true ↔ folded_bytes token = folded_bytes other).
Proof.
  split_and!; [apply with_folded_spec| |apply iter_eq_spec].
  intros s _ _. assert (fold_state_ok [] ([], None)) as H0 by (split; simpl; [lia|done]).
  by destruct (fold_pushes_ok s [] ([], None) H0).
Qed.

(** C15: a hostcall is accepted exactly when its identifier, capability and
    method are not blank, its parameters are an object, its typed-opcode
    metadata is sound, and the capability it declares is the one its payload
    needs.  For an accepted call lane selection cannot fail, and it picks the
    fast lane exactly for the opcode that the payload itself spells, whose
    capability is the declared one; whatever the context says, it never
    changes the opcode. *)
Theorem accepted_calls_declare_what_they_need call :
  (validate_host_call call = Ok tt ↔
   trim (hc_call_id call) ≠ [] ∧ value_is_object (hc_params call) = true ∧ declared_capability call ≠ [] ∧
   trim (hc_method call) ≠ [] ∧ (∃ r, resolve_hostcall_opcode call = Ok r) ∧
   required_capability_for_host_call_static call = Some (declared_capability call)) ∧
  (validate_host_call call = Ok tt →
   ∃ lane, select_hostcall_lane call = Ok lane ∧
     lane_opcode lane = derive_common_hostcall_opcode (hc_method call) (hc_params call) ∧
     match lane_opcode lane with
     | Some opcode => lane_lane lane = LaneFast ∧ declared_capability call = opcode_required_capability opcode
     | None => lane_lane lane = LaneCompat
     end).
Proof.
  split; [apply validate_ok|]. rw validate_ok. intros (_ & _ & Hd & _ & [r Hr] & Hc).
  unfold select_hostcall_lane, required_capability_for_host_call_static in *. rw Hr in Hc. rw Hr.
  destruct (declared_capability call) as [|x d] eqn:Ed; [done|]. rw -Ed in Hc. rw -Ed. clear Hd.
  replace (is_empty (declared_capability call)) with false by by rw Ed. simpl.
  destruct r as [o src|reason].
  - apply resolve_derived in Hr. injection Hc as Hc. rw Hc decide_False; [|tauto].
    eexists. split; [done|]. simpl. by rw Hr.
  - apply resolve_fallback in Hr. rw Hc decide_False; [|tauto].
    eexists. split; [done|]. simpl. by rw Hr.
Qed.

Lemma json_extend_lookup m entries key :
  key ∉ entries.*1 → json_lookup key (json_extend m entries) = json_lookup key m.
Proof.
  unfold json_extend. revert m. induction entries as [|[k w] entries IH]; intros m Hk; simpl; [done|].
  apply not_elem_of_cons in Hk as [Hne Hk]. rw IH; [|done]. by rw json_lookup_insert_ne.
Qed.

(** The context the host writes for a call is the one it reads back.
    With the opcode metadata built from a call's own method and parameters,
    merged with any other metadata that does not use its key, resolution
    gives exactly the opcode that the payload spells, as a typed opcode; a
    payload that spells none gets no such metadata and falls back. *)
Theorem typed_opcode_round_trip call extra :
  HOSTCALL_OPCODE_CONTEXT_KEY ∉ extra.*1 →
  hc_context call =
    merge_hostcall_context (hostcall_opcode_context_for_params (hc_method call) (hc_params call)) (JsonObject extra) →
  resolve_hostcall_opcode call =
    Ok (match derive_common_hostcall_opcode (hc_method call) (hc_params call) with
        | Some opcode => FastPath opcode ContextV1
        | None => Fallback (str "opcode_not_declared_or_not_supported")
        end).
Proof.
  intros Hx Hc. unfold resolve_hostcall_opcode, hostcall_opcode_context_for_params in *.
  destruct (derive_common_hostcall_opcode _ _) as [o|]; simpl in Hc.
  - assert (parse_opcode_from_context call = Ok (Some o)) as ->; [|simpl; by rw decide_False; [|tauto]].
    unfold parse_opcode_from_context. rw Hc. unfold merge_hostcall_context.
    set (base := json_extend [] _). pose proof (json_extend_lookup base extra _ Hx) as Hl.
    destruct (json_extend base extra) as [|kv merged]; [by vm_compute in Hl|]. rw Hl. clear.
    unfold base. cbn -[opcode_code parse_common_hostcall_opcode_code field_text str show_u64].
    destruct o; by vm_compute.
  - assert (parse_opcode_from_context call = Ok None) as ->; [|done].
    unfold parse_opcode_from_context. rw Hc. unfold merge_hostcall_context.
    pose proof (json_extend_lookup [] extra _ Hx) as Hl.
    destruct (json_extend [] extra) as [|kv merged]; [done|]. by rw Hl.
Qed.

Lemma typed_opcode_round_trip_witness :
  ∃ call, resolve_hostcall_opcode call = Ok (FastPath SessionSetName ContextV1).
Proof.
  set (params := JsonObject [(str "op", JsonString (str "setName")); (str "name", JsonString (str "x"))]).
  set (extra := [(str "io_uring_lane_input", JsonObject [])]).
  exists (mkCall (str "c1") (str "session") (str "session") params None None
    (merge_hostcall_context (hostcall_opcode_context_for_params (str "session") params) (JsonObject extra))).
  etrans; [apply (typed_opcode_round_trip _ extra); [apply (bool_decide_unpack (_ ∉ _)); by vm_compute|done]|by vm_compute].
Defined.

(** What a runtime reads back from a result is the outcome the host had,
    except that error codes outside the taxonomy become "internal".  An error
    is never read as a success nor the other way round, a result carries its
    call's identifier, and it passes the protocol's own validation whenever
    the identifier is not blank and the output is an object. *)
Theorem outcome_round_trip call_id outcome :
  hr_call_id (outcome_to_host_result call_id outcome) = call_id ∧
  host_result_to_outcome (outcome_to_host_result call_id outcome) =
    match outcome with
    | OutcomeError code message =>
        OutcomeError (if decide (code ∈ host_call_error_code_str <$> [ECTimeout; ECDenied; ECIo; ECInvalidRequest; ECInternal])
                      then code else str "internal") message
    | _ => outcome
    end ∧
  (validate_host_result (outcome_to_host_result call_id outcome) = Ok tt ↔
   trim call_id ≠ [] ∧
   match outcome with Success v | StreamChunk _ v _ => value_is_object v = true | OutcomeError _ _ => True end).
Proof.
  split_and!; [by destruct outcome| |].
  - destruct outcome as [v|code message|n v fin]; simpl; [done| |done]. f_equal.
    unfold parse_error_code. simpl. repeat (case_decide; simpl; [subst; by vm_compute|]).
    case_decide as Hin; [|done]. set_solver.
  - unfold validate_host_result. destruct outcome as [v|code message|n v fin]; simpl;
      (destruct (trim call_id); simpl; [naive_solver|]); try (destruct (value_is_object v); naive_solver). naive_solver.
Qed.
