(* ===== verification/SessionHostcalls.v ===== *)
(** * Session hostcalls and the cached event context ([src/extensions.rs],
    [src/extensions/extension_manager_impl.rs])

    The two handlers of an extension's session calls, the compat lane's
    [dispatch_hostcall_session_ref] and the fast lane's
    [dispatch_hostcall_session_fast_ref], and the cached context that every
    extension event carries, which the session's setters must invalidate. *)

From S2P Require Import Prelude Text Json Messages HostcallProtocol.

(** ** The session, as extensions see it

    The trait [ExtensionSession].  [to_value] and [deserialize] are the
    derived serialisation of a session message.  A setter that fails leaves
    the session as it was. *)
Class ExtensionSession (S : Type) := {
  SessionMessage : Type;
  to_value : list SessionMessage → result Json Str;
  deserialize : Json → result SessionMessage Str;
  get_state : S → Json;
  get_messages : S → list SessionMessage;
  get_entries : S → list Json;
  get_branch : S → list Json;
  set_name : S → Str → S * result unit Error;
  append_message : S → SessionMessage → S * result unit Error;
  append_custom_entry : S → Str → option Json → S * result unit Error;
  set_model : S → Str → Str → S * result unit Error;
  get_model : S → option Str * option Str;
  set_thinking_level : S → Str → S * result unit Error;
  get_thinking_level : S → option Str;
  set_label : S → Str → option Str → S * result unit Error;
}.

(** ** The manager's part *)

Record CachedEventContext := mkCached { cc_generation : Z; cc_payload : Json }.

Record SessionManager (S : Type) := mkSessionManager {
  sm_session : option S;
  sm_ctx_generation : Z;
  sm_ctx_cache : option CachedEventContext;
  sm_has_ui : bool;
  sm_cwd : option Str;
  sm_model_registry_values : list (Str * Str);
}.
Arguments mkSessionManager {_} _ _ _ _ _ _.
Arguments sm_session {_} _.
Arguments sm_ctx_generation {_} _.
Arguments sm_ctx_cache {_} _.
Arguments sm_has_ui {_} _.
Arguments sm_cwd {_} _.
Arguments sm_model_registry_values {_} _.

Definition with_session {S} (m : SessionManager S) (s : S) : SessionManager S :=
  mkSessionManager (Some s) (sm_ctx_generation m) (sm_ctx_cache m) (sm_has_ui m) (sm_cwd m) (sm_model_registry_values m).

Definition invalidate_ctx_cache {S} (m : SessionManager S) : SessionManager S :=
  mkSessionManager (sm_session m) ((sm_ctx_generation m + 1) mod (u64_max + 1)) (sm_ctx_cache m) (sm_has_ui m)
    (sm_cwd m) (sm_model_registry_values m).

Inductive SessionHostcallOp :=
| OpAppendMessage | OpAppendEntry | OpGetState | OpGetMessages | OpGetEntries | OpGetBranch | OpGetFile | OpGetName
| OpSetName | OpSetModel | OpGetModel | OpSetThinkingLevel | OpGetThinkingLevel | OpSetLabel.

Definition parse_session_hostcall_op (op : Str) : option SessionHostcallOp :=
  with_folded_ascii_alnum_token op (λ folded, match_str folded
    [("appendmessage"%string, OpAppendMessage); ("appendentry"%string, OpAppendEntry);
     ("getstate"%string, OpGetState); ("getmessages"%string, OpGetMessages);
     ("getentries"%string, OpGetEntries); ("getbranch"%string, OpGetBranch);
     ("getfile"%string, OpGetFile); ("getname"%string, OpGetName); ("setname"%string, OpSetName);
     ("setmodel"%string, OpSetModel); ("getmodel"%string, OpGetModel);
     ("setthinkinglevel"%string, OpSetThinkingLevel); ("getthinkinglevel"%string, OpGetThinkingLevel);
     ("setlabel"%string, OpSetLabel)]).

(** [payload.get(k).and_then(Value::as_str)] *)
Definition get_str (payload : Json) (key : string) : option Str := value_get payload (str key) ≫= value_as_str.

Definition option_string (o : option Str) : Json := match o with Some s => JsonString s | None => JsonNull end.

Definition no_session : HostcallOutcome := OutcomeError (str "denied") (str "No session configured").

Section Handlers.
Context {S : Type} `{ExtensionSession S}.

Definition outcome_of (result : result Json Error) : HostcallOutcome :=
  match result with
  | Ok value => Success value
  | Err err => OutcomeError (hostcall_error_code err) (Error_to_string err)
  end.

(** [.map(|()| value)] on a setter's answer, with the session after it. *)
Definition setter (value : Json) (r : S * result unit Error) : S * result Json Error :=
  (r.1, match r.2 with Ok _ => Ok value | Err e => Err e end).

Definition state_field (s : S) (camel snake : string) : Json :=
  default JsonNull (or_else (value_get (get_state s) (str camel)) (value_get (get_state s) (str snake))).

Definition messages_value (s : S) : result Json Error :=
  match to_value (get_messages s) with
  | Ok v => Ok v
  | Err err => Err (ErrExtension (str "Serialize messages: " ++ err))
  end.

Definition model_value (s : S) : Json :=
  let '(provider, model_id) := get_model s in
  JsonObject [(str "provider", option_string provider); (str "modelId", option_string model_id)].

Definition trimmed_label (payload : Json) : option Str :=
  (trim <$> get_str payload "label"%string) ≫= nonempty.

(** *** The compat lane *)

Definition invalidates (op_kind : SessionHostcallOp) : bool :=
  match op_kind with
  | OpAppendMessage | OpAppendEntry | OpSetName | OpSetModel | OpSetThinkingLevel | OpSetLabel => true
  | _ => false
  end.

Definition parse_message (payload : Json) : result SessionMessage Str :=
  match value_get payload (str "message") with
  | Some message => deserialize message
  | None =>
      match value_get payload (str "op") with
      | Some _ => deserialize (params_without_key payload (str "op"))
      | None => deserialize payload
      end
  end.

(** [inl] is an early return. *)
Definition session_op (op_kind : SessionHostcallOp) (session : S) (payload : Json)
    : HostcallOutcome + S * result Json Error :=
  match op_kind with
  | OpAppendMessage =>
      inr (match parse_message payload with
           | Ok message => setter JsonNull (append_message session message)
           | Err err => (session, Err (ErrValidation (str "Parse message: " ++ err)))
           end)
  | OpAppendEntry =>
      let custom_type := default [] (or_else (get_str payload "customType"%string)
        (or_else (get_str payload "custom_type"%string) (get_str payload "customtype"%string))) in
      inr (setter JsonNull (append_custom_entry session custom_type (value_get payload (str "data"))))
  | OpGetState => inr (session, Ok (get_state session))
  | OpGetMessages => inr (session, messages_value session)
  | OpGetEntries => inr (session, Ok (JsonArray (get_entries session)))
  | OpGetBranch => inr (session, Ok (JsonArray (get_branch session)))
  | OpGetFile => inr (session, Ok (state_field session "sessionFile"%string "session_file"%string))
  | OpGetName => inr (session, Ok (state_field session "sessionName"%string "session_name"%string))
  | OpSetName => inr (setter JsonNull (set_name session (default [] (get_str payload "name"%string))))
  | OpSetModel =>
      let provider := default [] (get_str payload "provider"%string) in
      let model_id := default [] (or_else (get_str payload "modelId"%string) (get_str payload "model_id"%string)) in
      if is_empty provider || is_empty model_id then
        inl (OutcomeError (str "invalid_request") (str "setModel: provider and modelId are required"))
      else inr (setter (JsonBool true) (set_model session provider model_id))
  | OpGetModel => inr (session, Ok (model_value session))
  | OpSetThinkingLevel =>
      let level := default [] (or_else (get_str payload "level"%string)
        (or_else (get_str payload "thinkingLevel"%string) (get_str payload "thinking_level"%string))) in
      if is_empty level then
        inl (OutcomeError (str "invalid_request") (str "setThinkingLevel: level is required"))
      else inr (setter JsonNull (set_thinking_level session level))
  | OpGetThinkingLevel => inr (session, Ok (option_string (get_thinking_level session)))
  | OpSetLabel =>
      let target_id := default [] (or_else (get_str payload "targetId"%string)
        (or_else (get_str payload "target_id"%string)
          (or_else (get_str payload "entryId"%string) (get_str payload "entry_id"%string)))) in
      if is_empty target_id then
        inl (OutcomeError (str "invalid_request") (str "setLabel: targetId is required"))
      else inr (setter JsonNull (set_label session target_id (trimmed_label payload)))
  end.

Definition dispatch_hostcall_session_ref (m : SessionManager S) (op : Str) (payload : Json)
    : HostcallOutcome * SessionManager S :=
  match sm_session m with
  | None => (no_session, m)
  | Some session =>
      match parse_session_hostcall_op op with
      | None => (OutcomeError (str "invalid_request") (str "Unknown session op: " ++ op), m)
      | Some op_kind =>
          match session_op op_kind session payload with
          | inl outcome => (outcome, m)
          | inr (session', result) =>
              let m := with_session m session' in
              (outcome_of result,
               match result with
               | Ok _ => if invalidates op_kind then invalidate_ctx_cache m else m
               | Err _ => m
               end)
          end
      end
  end.

(** *** The fast lane *)

Definition session_fast_op (opcode : option CommonHostcallOpcode) (op : Str) (session : S) (params : Json)
    : HostcallOutcome + S * result Json Error :=
  match opcode with
  | Some SessionGetState => inr (session, Ok (get_state session))
  | Some SessionGetMessages => inr (session, messages_value session)
  | Some SessionGetEntries => inr (session, Ok (JsonArray (get_entries session)))
  | Some SessionGetBranch => inr (session, Ok (JsonArray (get_branch session)))
  | Some SessionGetFile => inr (session, Ok (state_field session "sessionFile"%string "session_file"%string))
  | Some SessionGetName => inr (session, Ok (state_field session "sessionName"%string "session_name"%string))
  | Some SessionSetName => inr (setter JsonNull (set_name session (default [] (get_str params "name"%string))))
  | Some SessionSetModel =>
      let provider := default [] (get_str params "provider"%string) in
      let model_id := default [] (or_else (get_str params "modelId"%string) (get_str params "model_id"%string)) in
      if is_empty provider || is_empty model_id then
        inl (OutcomeError (str "invalid_request") (str "setModel: provider and modelId are required"))
      else inr (setter (JsonBool true) (set_model session provider model_id))
  | Some SessionGetModel => inr (session, Ok (model_value session))
  | Some SessionSetThinkingLevel =>
      let level := default [] (or_else (get_str params "level"%string)
        (or_else (get_str params "thinkingLevel"%string) (get_str params "thinking_level"%string))) in
      if is_empty level then
        inl (OutcomeError (str "invalid_request") (str "setThinkingLevel: level is required"))
      else inr (setter JsonNull (set_thinking_level session level))
  | Some SessionGetThinkingLevel => inr (session, Ok (option_string (get_thinking_level session)))
  | Some SessionSetLabel =>
      let target_id := default [] (or_else (get_str params "targetId"%string)
        (or_else (get_str params "target_id"%string)
          (or_else (get_str params "entryId"%string) (get_str params "entry_id"%string)))) in
      if is_empty target_id then
        inl (OutcomeError (str "invalid_request") (str "setLabel: targetId is required"))
      else inr (setter JsonNull (set_label session target_id (trimmed_label params)))
  | Some _ | None => inr (session, Err (ErrValidation (str "Unknown session op: " ++ op)))
  end.

(** The operation that the fast lane names for an opcode. *)
Definition fast_session_op (opcode : CommonHostcallOpcode) : option Str :=
  match opcode with
  | SessionGetState => Some (str "get_state")
  | SessionGetMessages => Some (str "get_messages")
  | SessionGetEntries => Some (str "get_entries")
  | SessionGetBranch => Some (str "get_branch")
  | SessionGetFile => Some (str "get_file")
  | SessionGetName => Some (str "get_name")
  | SessionSetName => Some (str "set_name")
  | SessionGetModel => Some (str "get_model")
  | SessionSetModel => Some (str "set_model")
  | SessionGetThinkingLevel => Some (str "get_thinking_level")
  | SessionSetThinkingLevel => Some (str "set_thinking_level")
  | SessionSetLabel => Some (str "set_label")
  | _ => None
  end.

Definition dispatch_hostcall_session_fast_ref (m : SessionManager S) (op : Str) (params : Json)
    : HostcallOutcome * SessionManager S :=
  match sm_session m with
  | None => (no_session, m)
  | Some session =>
      match session_fast_op (parse_session_opcode_atom op) op session params with
      | inl outcome => (outcome, m)
      | inr (session', result) => (outcome_of result, with_session m session')
      end
  end.

(** ** The event context *)

Definition build_ctx_payload (has_ui : bool) (session : option S) (cwd_override current_dir : option Str)
    (model_registry_values : list (Str * Str)) : Json :=
  let ctx := [(str "hasUI", JsonBool has_ui)] in
  let ctx := match or_else cwd_override current_dir with
             | Some cwd => ctx ++ [(str "cwd", JsonString cwd)] | None => ctx end in
  let ctx := match model_registry_values with
             | [] => ctx
             | _ => ctx ++ [(str "modelRegistry", JsonObject ((λ kv, (kv.1, JsonString kv.2)) <$> model_registry_values))]
             end in
  let ctx := match session with
             | Some s => ctx ++ [(str "sessionState", get_state s);
                                 (str "sessionEntries", JsonArray (get_entries s));
                                 (str "sessionBranch", JsonArray (get_branch s));
                                 (str "sessionLeafEntry", default JsonNull (last (get_entries s)))]
             | None => ctx
             end in
  JsonObject ctx.

Definition current_ctx (current_dir : option Str) (m : SessionManager S) : Json :=
  build_ctx_payload (sm_has_ui m) (sm_session m) (sm_cwd m) current_dir (sm_model_registry_values m).

(** The published version is the generation: every change republishes it. *)
Definition get_or_build_ctx_payload (current_dir : option Str) (m : SessionManager S) : Json * SessionManager S :=
  let version := sm_ctx_generation m in
  let miss := let payload := current_ctx current_dir m in
    (payload, mkSessionManager (sm_session m) (sm_ctx_generation m) (Some (mkCached version payload)) (sm_has_ui m)
                (sm_cwd m) (sm_model_registry_values m)) in
  match sm_ctx_cache m with
  | Some c => if cc_generation c =? version then (cc_payload c, m) else miss
  | None => miss
  end.
End Handlers.

(** ** Lemmas *)

Definition kind_of (opcode : CommonHostcallOpcode) : option SessionHostcallOp :=
  match opcode with
  | SessionGetState => Some OpGetState
  | SessionGetMessages => Some OpGetMessages
  | SessionGetEntries => Some OpGetEntries
  | SessionGetBranch => Some OpGetBranch
  | SessionGetFile => Some OpGetFile
  | SessionGetName => Some OpGetName
  | SessionSetName => Some OpSetName
  | SessionGetModel => Some OpGetModel
  | SessionSetModel => Some OpSetModel
  | SessionGetThinkingLevel => Some OpGetThinkingLevel
  | SessionSetThinkingLevel => Some OpSetThinkingLevel
  | SessionSetLabel => Some OpSetLabel
  | _ => None
  end.

(** A spelling that names an opcode names the same operation of the compat
    lane. *)
Lemma parse_kind op opcode :
  parse_session_opcode_atom op = Some opcode → parse_session_hostcall_op op = kind_of opcode.
Proof.
  unfold parse_session_opcode_atom, parse_session_hostcall_op. rw !with_folded_spec.
  intros (pat & Hin & ->)%match_str_Some.
  repeat (apply elem_of_cons in Hin as [[= -> ->]|Hin]; [by vm_compute|]). by apply elem_of_nil in Hin.
Qed.

Lemma parse_fast_op opcode op : fast_session_op opcode = Some op → parse_session_opcode_atom op = Some opcode.
Proof. destruct opcode; simpl; intros [= <-]; by vm_compute. Qed.

Lemma parse_is_session op opcode :
  parse_session_opcode_atom op = Some opcode → is_Some (fast_session_op opcode) ∧ is_Some (kind_of opcode).
Proof.
  unfold parse_session_opcode_atom. rw with_folded_spec. intros (pat & Hin & _)%match_str_Some.
  repeat (apply elem_of_cons in Hin as [[= -> ->]|Hin]; [split; by eexists|]). by apply elem_of_nil in Hin.
Qed.

Section Proofs.
Context {S : Type} `{ExtensionSession S}.
Implicit Types m : SessionManager S.

Lemma fast_op_is_op opcode kind op (session : S) params :
  kind_of opcode = Some kind → session_fast_op (Some opcode) op session params = session_op kind session params.
Proof. by destruct opcode; simpl; intros [= <-]. Qed.

(** A setter that fails leaves the session as it was. *)
Definition failed_setters_change_nothing : Prop :=
  (∀ (s : S) n s' e, set_name s n = (s', Err e) → s' = s) ∧
  (∀ (s : S) msg s' e, append_message s msg = (s', Err e) → s' = s) ∧
  (∀ (s : S) t d s' e, append_custom_entry s t d = (s', Err e) → s' = s) ∧
  (∀ (s : S) p i s' e, set_model s p i = (s', Err e) → s' = s) ∧
  (∀ (s : S) l s' e, set_thinking_level s l = (s', Err e) → s' = s) ∧
  (∀ (s : S) t l s' e, set_label s t l = (s', Err e) → s' = s).

Lemma setter_spec value (r : S * result unit Error) s' result :
  setter value r = (s', result) → s' = r.1 ∧ (result = Ok value ∧ r.2 = Ok tt ∨ ∃ e, result = Err e ∧ r.2 = Err e).
Proof. destruct r as [s [[]|e]]; unfold setter; simpl; intros [= <- <-]; eauto. Qed.

(** Only a successful setter changes the session. *)
Lemma session_op_changes kind (session session' : S) payload result :
  failed_setters_change_nothing →
  session_op kind session payload = inr (session', result) →
  session' = session ∨ invalidates kind = true ∧ ∃ v, result = Ok v.
Proof.
  intros (Hn & Hm & He & Hmo & Ht & Hl).
  assert (∀ value r, (∀ s' e, r = (s', Err e) → s' = session) → setter value r = (session', result) →
    session' = session ∨ ∃ v, result = Ok v) as Hset.
  { intros value [s r] Hr Hs. apply setter_spec in Hs as [-> [[-> _]|(e & -> & E)]]; simpl in *; [by eauto|].
    left. eapply Hr. by rw E. }
  destruct kind; simpl; repeat (case_match; try done); intros Hs; apply (inj inr) in Hs;
    first [apply Hset in Hs as [->|[v ->]]; [by left|right; by eauto|by intros; eauto]
          |injection Hs as <- <-; by left].
Qed.

(** The cache, when its generation is the current one, holds the context of
    the current session; its generation is never ahead, and the counter has
    not wrapped. *)
Definition ctx_fresh (current_dir : option Str) m : Prop :=
  0 ≤ sm_ctx_generation m < u64_max ∧
  ∀ c, sm_ctx_cache m = Some c → cc_generation c ≤ sm_ctx_generation m ∧
    (cc_generation c = sm_ctx_generation m → cc_payload c = current_ctx current_dir m).

Lemma fresh_get cd m : ctx_fresh cd m → (get_or_build_ctx_payload cd m).1 = current_ctx cd m.
Proof.
  intros [_ Hc]. unfold get_or_build_ctx_payload. destruct (sm_ctx_cache m) as [c|]; [|done].
  destruct (Z.eqb_spec (cc_generation c) (sm_ctx_generation m)) as [E|]; [|done]. simpl. by apply Hc.
Qed.

(** ** Claims *)

(** The opcodes that change the session. *)
Definition is_setter (opcode : CommonHostcallOpcode) : bool :=
  match opcode with SessionSetName | SessionSetModel | SessionSetThinkingLevel | SessionSetLabel => true | _ => false end.
Definition succeeded (outcome : HostcallOutcome) : bool := match outcome with Success _ => true | _ => false end.

Lemma invalidates_setter opcode kind : kind_of opcode = Some kind → invalidates kind = is_setter opcode.
Proof. by destruct opcode; simpl; intros [= <-]. Qed.

Lemma early_return_fails kind (session : S) payload outcome : session_op kind session payload = inl outcome → succeeded outcome = false.
Proof. destruct kind; simpl; repeat case_match; by intros [= <-]. Qed.

(** C16: the two lanes of a session call do the same.  For every opcode of
    the fast lane and every spelling of its operation, the compat handler and
    the fast handler answer alike and leave the session in the same state,
    on every branch, errors included.  They differ in exactly one thing: the
    compat lane moves the generation of the cached event context on after a
    setter that succeeded, and after nothing else; the fast lane never touches
    the cache or its generation. *)
Theorem session_lanes_agree m op op' opcode params :
  parse_session_opcode_atom op = Some opcode → fast_session_op opcode = Some op' →
  let '(outcome, m1) := dispatch_hostcall_session_ref m op params in
  let '(outcome', m2) := dispatch_hostcall_session_fast_ref m op' params in
  outcome' = outcome ∧
  m1 = (if is_setter opcode && succeeded outcome then invalidate_ctx_cache m2 else m2) ∧
  sm_ctx_cache m2 = sm_ctx_cache m ∧ sm_ctx_generation m2 = sm_ctx_generation m.
Proof.
  intros Hop Hfast. pose proof (parse_kind _ _ Hop) as Hk. destruct (parse_is_session _ _ Hop) as [_ [kind Hkind]].
  unfold dispatch_hostcall_session_ref, dispatch_hostcall_session_fast_ref.
  destruct (sm_session m) as [session|]; [|by rw andb_false_r]. rw Hk Hkind (parse_fast_op _ _ Hfast) (fast_op_is_op _ kind) // -(invalidates_setter _ _ Hkind).
  destruct (session_op kind session params) as [outcome|[session' [v|e]]] eqn:E.
  - by rw (early_return_fails _ _ _ _ E) andb_false_r.
  - by rw andb_true_r.
  - by rw andb_false_r.
Qed.

(** On the compat lane the event context never goes stale.  If the cached
    context is current before a session call, then it is after it: the next
    event carries the context of the session as the call left it, for every
    operation and every outcome (setters that fail change nothing, and the
    generation counter has not reached its maximum). *)
Theorem compat_context_is_current cd m op payload :
  failed_setters_change_nothing → ctx_fresh cd m → sm_ctx_generation m + 1 < u64_max →
  let m' := (dispatch_hostcall_session_ref m op payload).2 in
  ctx_fresh cd m' ∧ (get_or_build_ctx_payload cd m').1 = current_ctx cd m'.
Proof.
  intros Hlaw Hf Hmax m'. assert (ctx_fresh cd m') as Hf'; [|by split; [|apply fresh_get]].
  unfold m', dispatch_hostcall_session_ref. clear m'. destruct (sm_session m) as [session|] eqn:Es; [|done].
  destruct (parse_session_hostcall_op op) as [kind|]; [|done].
  destruct (session_op kind session payload) as [outcome|[session' result]] eqn:Eo; [done|]. simpl.
  pose proof (session_op_changes _ _ _ _ _ Hlaw Eo) as Hch. destruct Hf as [Hg Hc].
  assert (session' = session → ctx_fresh cd (with_session m session')) as Hsame.
  { intros ->. split; [done|]. intros c Ec. destruct (Hc c Ec) as [Hle Heq]. split; [done|]. intros E.
    rw (Heq E). unfold current_ctx, with_session. simpl. by rw Es. }
  assert (ctx_fresh cd (invalidate_ctx_cache (with_session m session'))) as Hinv.
  { unfold ctx_fresh. simpl. rw Z.mod_small; [|lia]. split; [lia|]. intros c Ec.
    destruct (Hc c Ec) as [Hle _]. split; [lia|]. intros E. lia. }
  destruct result as [v|e].
  - destruct (invalidates kind) eqn:Ei; [done|]. destruct Hch as [->|[? _]]; [by apply Hsame|congruence].
  - destruct Hch as [->|(_ & v & ?)]; [by apply Hsame|done].
Qed.

(** On the fast lane a cached context outlives every change of the session. *)
Lemma fast_context_is_cached cd m op params c :
  sm_ctx_cache m = Some c → cc_generation c = sm_ctx_generation m →
  (get_or_build_ctx_payload cd (dispatch_hostcall_session_fast_ref m op params).2).1 = cc_payload c.
Proof.
  intros Hc Hg. unfold dispatch_hostcall_session_fast_ref, get_or_build_ctx_payload.
  destruct (sm_session m) as [session|]; [|by rw Hc Hg Z.eqb_refl].
  destruct (session_fast_op _ op session params) as [outcome|[session' result]]; simpl; by rw Hc Hg Z.eqb_refl.
Qed.
End Proofs.

(** ** A small session: its name and its label *)
Module SmallSession.
Record Small := mkSmall { small_name : Str; small_label : option Str }.

#[global] Instance small_session : ExtensionSession Small := {|
  SessionMessage := unit;
  to_value := λ _, Ok (JsonArray []);
  deserialize := λ _, Err (str "no messages");
  get_state := λ s, JsonObject [(str "sessionName", JsonString (small_name s))];
  get_messages := λ _, [];
  get_entries := λ _, [];
  get_branch := λ _, [];
  set_name := λ s n, if is_empty n then (s, Err (ErrValidation (str "empty"))) else (mkSmall n (small_label s), Ok tt);
  append_message := λ s _, (s, Ok tt);
  append_custom_entry := λ s _ _, (s, Ok tt);
  set_model := λ s _ _, (s, Ok tt);
  get_model := λ _, (None, None);
  set_thinking_level := λ s _, (s, Ok tt);
  get_thinking_level := λ _, None;
  set_label := λ s _ l, (mkSmall (small_name s) l, Ok tt);
|}.

Definition started : SessionManager Small :=
  mkSessionManager (Some (mkSmall (str "old") None)) 0 None false (Some (str "/w")) [].

(** The manager after an event was sent, which cached its context. *)
Definition cached : SessionManager Small := (get_or_build_ctx_payload None started).2.
Definition rename : Json := JsonObject [(str "op", JsonString (str "setName")); (str "name", JsonString (str "new"))].

Definition ctx_name (ctx : Json) : option Str := (value_get ctx (str "sessionState") ≫= λ s, value_get s (str "sessionName")) ≫= value_as_str.
End SmallSession.

Lemma session_lanes_agree_witness :
  (dispatch_hostcall_session_fast_ref SmallSession.cached (str "set_name") SmallSession.rename).1 = Success JsonNull.
Proof.
  pose proof (session_lanes_agree SmallSession.cached (str "setName") (str "set_name") SessionSetName SmallSession.rename
    ltac:(by vm_compute) ltac:(done)) as H.
  destruct (dispatch_hostcall_session_ref _ _ _) as [o m1] eqn:E1.
  destruct (dispatch_hostcall_session_fast_ref _ _ _) as [o' m2]. destruct H as [-> _].
  transitivity (dispatch_hostcall_session_ref SmallSession.cached (str "setName") SmallSession.rename).1; [by rw E1|by vm_compute].
Defined.

Lemma compat_context_is_current_witness :
  SmallSession.ctx_name (get_or_build_ctx_payload None
    (dispatch_hostcall_session_ref SmallSession.cached (str "setName") SmallSession.rename).2).1 = Some (str "new").
Proof.
  pose proof (compat_context_is_current None SmallSession.cached (str "setName") SmallSession.rename) as H.
  cbv zeta in H. destruct H as [_ E].
  - split_and!; simpl; intros; repeat case_match; by simplify_eq.
  - split; [by vm_compute|]. intros c [= <-]. by split; vm_compute.
  - by vm_compute.
  - etrans; [exact (f_equal SmallSession.ctx_name E)|by vm_compute].
Defined.

(** A rename through the fast lane leaves a stale context.  After an
    event has cached the context, an extension's [session.setName] that takes
    the fast lane is answered with success and renames the session, but the
    next event still carries the old name; through the compat lane it carries
    the new one. *)
Theorem fast_rename_leaves_stale_context :
  let '(outcome, m) := dispatch_hostcall_session_fast_ref SmallSession.cached (str "set_name") SmallSession.rename in
  let '(outcome', m') := dispatch_hostcall_session_ref SmallSession.cached (str "setName") SmallSession.rename in
  outcome = Success JsonNull ∧ outcome' = Success JsonNull ∧
  (SmallSession.small_name <$> sm_session m) = Some (str "new") ∧
  SmallSession.ctx_name (get_or_build_ctx_payload None m).1 = Some (str "old") ∧
  SmallSession.ctx_name (get_or_build_ctx_payload None m').1 = Some (str "new").
Proof. vm_compute. by split_and!. Qed.
