(* ===== verification/HostcallDispatch.v ===== *)
(** * The hostcall dispatcher ([src/extensions.rs])

    [dispatch_host_call_shared], through which every extension call passes:
    validation, capability policy and prompt, quota, runtime risk, lane, exec
    mediation, and at last a connector.  What the dispatcher does to the rest
    of the host is its list of effects, in order.

    The connectors (the tools, subprocesses, HTTP, the user interface, the
    event bus) are a function of the world, of which nothing is assumed; the
    risk scorer's verdict, the reactor's answer, the user's answers, the
    clock and the outcome of file operations are inputs of a call. *)

From S2P Require Import Prelude Text Json Messages ExecMediation Permissions CapabilityPolicy CapabilityPrompts ExtensionQuota HostcallProtocol.

(** ** Connectors *)

Inductive Target :=
| TTool (name : Str) (input : Json)
| TExec (cmd : Str) (params : Json)
| THttp (params : Json)
| TSessionFast (op : Str) (params : Json)
| TSession (op : Str) (params : Json)
| TUi (op : Str) (params : Json)
| TEvents (op : Str) (params : Json)
| TLog (params : Json)
| TEnv (params : Json).

(** ** Effects *)

Inductive SecurityAlertCategory := PolicyDenial | AnomalyDenial | ExecMediationAlert | QuotaBreach | Quarantine.
Inductive SecurityAlertAction := AlertHarden | AlertDeny | AlertTerminate.

Inductive Effect :=
| EBudgetSignal (reason : Str)
| EAlert (category : SecurityAlertCategory) (action : SecurityAlertAction) (capability : Str)
| ESpawn (extension_id : Str)
| EExit (extension_id : Str)
| EExecLedger (decision : Str)
| EReactorDone (shard_id : nat) (global_seq : Z)
| EConnect (target : Target)
| EBudgetSample (ok : bool)
| ERiskOutcome (error_code : option Str).

(** ** Runtime risk *)

Inductive RuntimeRiskAction := RiskAllow | RiskHarden | RiskDeny | RiskTerminate.

(** [rd_high_score] is [risk_score >= 0.82]. *)
Record RuntimeRiskDecision := mkRisk {
  rd_action : RuntimeRiskAction;
  rd_capability : Str;
  rd_high_score : bool;
  rd_triggers : list Str;
  rd_feature_budget_exceeded : bool;
  rd_fallback_reason : option Str;
}.

Record RuntimeRiskConfig := mkRiskConfig { rc_enabled : bool; rc_enforce : bool }.

Definition runtime_risk_is_dangerous (capability : Str) : bool :=
  bool_decide (capability = str "exec") || bool_decide (capability = str "env") || bool_decide (capability = str "http").

Definition runtime_risk_harden_should_block_dangerous (decision : RuntimeRiskDecision) : bool :=
  if negb (runtime_risk_is_dangerous (rd_capability decision)) then false
  else if rd_high_score decision then true
  else existsb (λ code, bool_decide (code ∈
         [str "suspicious_exec_detail"; str "dcg_rule_hit"; str "dcg_heredoc_hit"; str "sensitive_path_target";
          str "public_network_target"; str "secret_env_access"])) (rd_triggers decision).

(** ** Kill switches *)

Record KillSwitches := mkSwitches {
  ks_global : bool;
  ks_extensions : gset Str;
  ks_budget_enabled : bool;
  ks_in_fallback : gset Str;
}.

Definition hostcall_compat_kill_switch_reason (k : KillSwitches) (extension_id : option Str) : option Str :=
  let holds (s : gset Str) := match extension_id with Some id => bool_decide (id ∈ s) | None => false end in
  let forced_global := ks_global k in
  let forced_extension := holds (ks_extensions k) in
  let forced_budget := ks_budget_enabled k && holds (ks_in_fallback k) in
  if forced_global then Some (str "forced_compat_global_kill_switch")
  else if forced_extension then Some (str "forced_compat_extension_kill_switch")
  else if forced_budget then Some (str "forced_compat_budget_controller")
  else None.

(** ** The call's surroundings *)

Inductive ReactorAnswer := NoReactor | Routed (shard_id : nat) (global_seq : Z) | Backpressure (depth capacity : Z).

(** The extension manager, as far as the dispatcher reads and writes it. *)
Record HostManager := mkHostManager {
  hm_prompts : Manager;
  hm_quota : QuotaManager;
  hm_switches : KillSwitches;
  hm_risk_config : RuntimeRiskConfig;
}.

Record HostCallContext := mkContext {
  cx_extension_id : option Str;
  cx_policy : ExtensionPolicy;
}.

(** What the outside answers during one call. *)
Record CallInputs := mkInputs {
  in_decided_at : Str;
  in_now_secs : Z;
  in_io : UpdateIo;
  in_answer : result (option UiResponse) Error;
  in_now_ms : Z;
  in_risk : option RuntimeRiskDecision;
  in_reactor : ReactorAnswer;
}.

Record HostcallLaneExecution := mkExecution {
  le_lane : HostcallDispatchLane;
  le_decision_reason : Str;
  le_fallback_reason : option Str;
  le_matrix_key : Str;
}.

(** ** Routing *)

Definition SHUTTING_DOWN : HostcallOutcome :=
  OutcomeError (str "denied") (str "Extension manager is shutting down").

(** A route is an outcome reached without a connector, or a connector. *)
Definition Route : Type := HostcallOutcome + Target.

Definition input_of (params : Json) : Json := default JsonNull (value_get params (str "input")).

Definition with_manager (has_manager : bool) (t : Target) : Route :=
  if has_manager then inr t else inl SHUTTING_DOWN.

Definition dispatch_shared_allowed_fast (has_manager : bool) (call : HostCallPayload)
    (opcode : CommonHostcallOpcode) : Route :=
  let params := hc_params call in
  let session op := with_manager has_manager (TSessionFast (str op) params) in
  let events op := with_manager has_manager (TEvents (str op) params) in
  match opcode with
  | ToolRead => inr (TTool (str "read") (input_of params))
  | ToolWrite => inr (TTool (str "write") (input_of params))
  | ToolEdit => inr (TTool (str "edit") (input_of params))
  | ToolBash => inr (TTool (str "bash") (input_of params))
  | SessionGetName => session "get_name"%string
  | SessionSetName => session "set_name"%string
  | SessionGetModel => session "get_model"%string
  | SessionSetModel => session "set_model"%string
  | SessionGetThinkingLevel => session "get_thinking_level"%string
  | SessionSetThinkingLevel => session "set_thinking_level"%string
  | SessionSetLabel => session "set_label"%string
  | EventsGetActiveTools => events "get_active_tools"%string
  | EventsGetAllTools => events "get_all_tools"%string
  | EventsSetActiveTools => events "set_active_tools"%string
  | EventsEmit => events "emit"%string
  | EventsList => events "list"%string
  | SessionGetState => session "get_state"%string
  | SessionGetMessages => session "get_messages"%string
  | SessionGetEntries => session "get_entries"%string
  | SessionGetBranch => session "get_branch"%string
  | SessionGetFile => session "get_file"%string
  | EventsGetModel => events "get_model"%string
  | EventsSetModel => events "set_model"%string
  | EventsGetThinkingLevel => events "get_thinking_level"%string
  | EventsSetThinkingLevel => events "set_thinking_level"%string
  | EventsGetFlag => events "get_flag"%string
  | EventsListFlags => events "list_flags"%string
  | EventsAppendEntry => events "append_entry"%string
  | EventsRegisterCommand => events "register_command"%string
  end.

Section Dispatch.
Context `{Semver} `{PermissionsCodec} {World : Type}.
(** [Value::to_string] on values that are not strings. *)
Context (json_display : Json → Str).
Context (connect : Str → Target → World → HostcallOutcome * World).

(** The arguments as the mediation and the connector read them. *)
Definition exec_args (params : Json) : list Str :=
  match value_get params (str "args") with
  | Some (JsonArray arr) => (λ v, match value_as_str v with Some s => s | None => json_display v end) <$> arr
  | _ => []
  end.

Definition exec_cmd (params : Json) : Str := default [] (value_get params (str "cmd") ≫= value_as_str).

Definition when (b : bool) (e : list Effect) : list Effect := if b then e else [].

Definition EXEC_DENIED (reason : Str) : HostcallOutcome :=
  OutcomeError (str "denied") (str "Exec denied by mediation policy: " ++ reason).

(** The mediated [exec] branch: its effects and its route. *)
Definition mediate_exec (has_manager : bool) (policy : ExtensionPolicy) (params : Json) : list Effect * Route :=
  let cmd := exec_cmd params in
  let mediation := evaluate_exec_mediation (p_exec_mediation policy) cmd (exec_args params) in
  let label := match mediation with
               | EmAllow => str "allow" | EmAllowWithAudit _ _ => str "allow_with_audit" | EmDeny _ _ => str "deny" end in
  let ledger := when has_manager [EExecLedger label] in
  match mediation with
  | EmDeny _ reason =>
      (ledger ++ when has_manager [EAlert ExecMediationAlert AlertDeny (str "exec")], inl (EXEC_DENIED reason))
  | EmAllowWithAudit _ _ =>
      (ledger ++ when has_manager [EAlert ExecMediationAlert AlertHarden (str "exec")], inr (TExec cmd params))
  | EmAllow => (ledger, inr (TExec cmd params))
  end.

(** The branches that need a non-empty [params.op] and the manager. *)
Definition needs_op (has_manager : bool) (method : string) (params : Json) (target : Str → Target) : Route :=
  match (value_get params (str "op") ≫= value_as_str) ≫= (λ s, nonempty (trim s)) with
  | None => inl (OutcomeError (str "invalid_request")
      (str "host_call " ++ str method ++ str " requires non-empty params.op"))
  | Some op => with_manager has_manager (target op)
  end.

Definition dispatch_shared_allowed_legacy (has_manager : bool) (policy : ExtensionPolicy) (call : HostCallPayload)
    : list Effect * Route :=
  let params := hc_params call in
  let method_is m := bool_decide (hc_method call = str m) in
  if method_is "tool"%string then
    ([], inr (TTool (default [] (value_get params (str "name") ≫= value_as_str)) (input_of params)))
  else if method_is "exec"%string then mediate_exec has_manager policy params
  else if method_is "http"%string then ([], inr (THttp params))
  else if method_is "session"%string then ([], needs_op has_manager "session"%string params (λ op, TSession op params))
  else if method_is "ui"%string then ([], needs_op has_manager "ui"%string params (λ op, TUi op params))
  else if method_is "events"%string then ([], needs_op has_manager "events"%string params (λ op, TEvents op params))
  else if method_is "log"%string then ([], inr (TLog params))
  else if method_is "env"%string then ([], inr (TEnv params))
  else ([], inl (OutcomeError (str "invalid_request") (str "Unsupported hostcall method: " ++ hc_method call))).

(** Takes a route: the connector's effect and outcome, if there is one. *)
Definition follow (call : HostCallPayload) (effects : list Effect) (route : Route) (w : World)
    : HostcallOutcome * list Effect * World :=
  match route with
  | inl outcome => (outcome, effects, w)
  | inr t => let '(outcome, w') := connect (hc_call_id call) t w in (outcome, effects ++ [EConnect t], w')
  end.

Definition follow_legacy (has_manager : bool) (policy : ExtensionPolicy) (call : HostCallPayload) (w : World)
    : HostcallOutcome * list Effect * World :=
  let '(effects, route) := dispatch_shared_allowed_legacy has_manager policy call in follow call effects route w.

Definition dispatch_shared_allowed (ctx : HostCallContext) (manager : option HostManager) (reactor : ReactorAnswer)
    (call : HostCallPayload) (w : World) : HostcallOutcome * HostcallLaneExecution * list Effect * World :=
  let has_manager := bool_decide (is_Some manager) in
  match select_hostcall_lane call with
  | Err err =>
      (OutcomeError (str "invalid_request") (Error_to_string err),
       mkExecution LaneCompat (str "typed_opcode_validation_error") (Some (str "typed_opcode_validation_error"))
         (str "unknown|fallback|unknown"), [], w)
  | Ok lane =>
      let kill_switch := manager ≫= λ m, hostcall_compat_kill_switch_reason (hm_switches m) (cx_extension_id ctx) in
      let lane := apply_hostcall_lane_kill_switch kill_switch call lane in
      let execution := mkExecution (lane_lane lane) (lane_reason lane)
        (match lane_lane lane with LaneCompat => Some (lane_reason lane) | LaneFast => None end) (lane_matrix lane) in
      match lane_lane lane with
      | LaneCompat =>
          let '(outcome, effects, w') := follow_legacy has_manager (cx_policy ctx) call w in
          (outcome, execution, effects, w')
      | LaneFast =>
          match lane_opcode lane with
          | None =>
              (OutcomeError (str "invalid_request") (str "Invalid hostcall lane state: fast lane requires opcode"),
               mkExecution LaneFast (str "invalid_lane_state") None (lane_matrix lane), [], w)
          | Some opcode =>
              match manager, reactor with
              | Some _, Backpressure _ _ =>
                  let '(outcome, effects, w') := follow_legacy has_manager (cx_policy ctx) call w in
                  (outcome, mkExecution LaneCompat (str "reactor_lane_overflow") (Some (str "reactor_lane_overflow"))
                     (lane_matrix lane), EBudgetSignal (str "reactor_lane_overflow") :: effects, w')
              | _, _ =>
                  let '(outcome, effects, w') := follow call [] (dispatch_shared_allowed_fast has_manager call opcode) w in
                  let completed := match manager, reactor with
                                   | Some _, Routed shard_id global_seq => [EReactorDone shard_id global_seq] | _, _ => [] end in
                  (outcome, execution, effects ++ completed, w')
              end
          end
      end
  end.

(** ** The dispatcher *)

Record DispatchState := mkDispatch {
  ds_manager : option HostManager;
  ds_disk : DiskFile;
  ds_world : World;
}.

Definition set_prompts (m : HostManager) (p : Manager) : HostManager :=
  mkHostManager p (hm_quota m) (hm_switches m) (hm_risk_config m).
Definition set_quota (m : HostManager) (q : QuotaManager) : HostManager :=
  mkHostManager (hm_prompts m) q (hm_switches m) (hm_risk_config m).

(** The capability the call is checked for. *)
Definition call_capability (call : HostCallPayload) : Str :=
  let opcode_hint := match resolve_hostcall_opcode call with Ok (FastPath opcode _) => Some opcode | _ => None end in
  default (str "internal")
    (or_else (opcode_required_capability <$> opcode_hint) (required_capability_for_host_call_static_legacy call)).

Definition policy_step (ctx : HostCallContext) (inp : CallInputs) (capability : Str) (st : DispatchState)
    : PolicyDecision * Str * DispatchState :=
  let '(decision, reason, prompts, disk) :=
    authorize (in_decided_at inp) (in_now_secs inp) (in_io inp) (in_answer inp) (cx_policy ctx) (cx_extension_id ctx)
      capability (hm_prompts <$> ds_manager st) (ds_disk st) in
  let manager := match ds_manager st, prompts with Some m, Some p => Some (set_prompts m p) | m, _ => m end in
  (decision, reason, mkDispatch manager disk (ds_world st)).

Definition quota_step_of (ctx : HostCallContext) (inp : CallInputs) (capability : Str) (st : DispatchState)
    : QuotaCheckResult * DispatchState :=
  match ds_manager st with
  | None => (QAllowed, st)
  | Some m =>
      let '(result, q) := check_quota (hm_quota m) (cx_extension_id ctx) capability (in_now_ms inp) (cx_policy ctx) in
      (result, mkDispatch (Some (set_quota m q)) (ds_disk st) (ds_world st))
  end.

Definition risk_signals (d : RuntimeRiskDecision) : list Effect :=
  when (rd_feature_budget_exceeded d) [EBudgetSignal (str "feature_extraction_budget_exceeded")] ++
  when (bool_decide (is_Some (rd_fallback_reason d))) [EBudgetSignal (str "runtime_risk_decision_timeout")].

Definition shadow_mode (manager : option HostManager) : bool :=
  match manager with Some m => rc_enabled (hm_risk_config m) && negb (rc_enforce (hm_risk_config m)) | None => false end.

(** [manager.evaluate_runtime_risk], which answers only when it is enabled. *)
Definition risk_decision (inp : CallInputs) (manager : option HostManager) : option RuntimeRiskDecision :=
  m ← manager; if rc_enabled (hm_risk_config m) then in_risk inp else None.

Definition risk_action (d : option RuntimeRiskDecision) : RuntimeRiskAction :=
  match d with Some d => rd_action d | None => RiskAllow end.

Definition should_block (d : option RuntimeRiskDecision) : bool :=
  match d with Some d => runtime_risk_harden_should_block_dangerous d | None => false end.

Definition will_dispatch (shadow : bool) (d : option RuntimeRiskDecision) : bool :=
  if shadow then true
  else match risk_action d with
       | RiskAllow => true
       | RiskHarden => negb (should_block d)
       | RiskDeny | RiskTerminate => false
       end.

Definition DENIED_BY (capability : Str) (by_whom : string) : HostcallOutcome :=
  OutcomeError (str "denied") (str "Capability " ++ in_quotes capability ++ str by_whom).

Definition with_quota (f : QuotaManager → Str → QuotaManager) (ext : Str) (st : DispatchState) : DispatchState :=
  match ds_manager st with
  | Some m => mkDispatch (Some (set_quota m (f (hm_quota m) ext))) (ds_disk st) (ds_world st)
  | None => st
  end.

(** The allowed branch: risk, subprocess accounting around the dispatch. *)
Definition allowed_branch (ctx : HostCallContext) (inp : CallInputs) (capability : Str) (call : HostCallPayload)
    (st : DispatchState) : HostcallOutcome * list Effect * DispatchState :=
  let risk := risk_decision inp (ds_manager st) in
  let has_manager := bool_decide (is_Some (ds_manager st)) in
  let signals := match risk with Some d => risk_signals d | None => [] end in
  let shadow := shadow_mode (ds_manager st) in
  let counted := match cx_extension_id ctx with
    | Some ext => if bool_decide (capability = str "exec") && will_dispatch shadow risk && has_manager then Some ext else None
    | None => None end in
  let '(spawn, st1) := match counted with Some ext => ([ESpawn ext], with_quota record_subprocess_spawn ext st) | None => ([], st) end in
  let dispatch :=
    let '(outcome, _, effects, w) :=
      dispatch_shared_allowed ctx (ds_manager st1) (in_reactor inp) call (ds_world st1) in
    (outcome, effects, mkDispatch (ds_manager st1) (ds_disk st1) w) in
  let '(outcome, effects, st2) :=
    if shadow then dispatch
    else match risk_action risk with
         | RiskAllow => dispatch
         | RiskHarden =>
             if should_block risk then
               (DENIED_BY capability " denied by runtime risk hardening"%string,
                when has_manager [EAlert AnomalyDenial AlertDeny capability], st1)
             else dispatch
         | RiskDeny =>
             (DENIED_BY capability " denied by runtime risk controller"%string,
              when has_manager [EAlert AnomalyDenial AlertDeny capability], st1)
         | RiskTerminate =>
             (OutcomeError (str "denied") (str "Extension quarantined by runtime risk controller"),
              when has_manager [EAlert Quarantine AlertTerminate capability], st1)
         end in
  let '(exit, st3) := match counted with Some ext => ([EExit ext], with_quota record_subprocess_exit ext st2) | None => ([], st2) end in
  (outcome, signals ++ spawn ++ effects ++ exit, st3).

Definition error_code_of (outcome : HostcallOutcome) : option Str :=
  match outcome with OutcomeError code _ => Some code | _ => None end.

(** Replay recording, logs and hashes are left out. *)
Definition dispatch_host_call_shared (ctx : HostCallContext) (inp : CallInputs) (call : HostCallPayload)
    (st : DispatchState) : HostResultPayload * list Effect * DispatchState :=
  match validate_host_call call with
  | Err err =>
      (outcome_to_host_result (hc_call_id call) (OutcomeError (str "invalid_request") (Error_to_string err)), [], st)
  | Ok _ =>
      let capability := call_capability call in
      let '(decision, reason, st) := policy_step ctx inp capability st in
      let '(quota, st) := match decision with
                          | PAllow => quota_step_of ctx inp capability st | _ => (QAllowed, st) end in
      match quota with
      | QExceeded qr =>
          (outcome_to_host_result (hc_call_id call)
             (OutcomeError (str "quota_exceeded") (str "Quota exceeded for extension: " ++ qr)),
           [EBudgetSignal (str "quota_exceeded"); EAlert QuotaBreach AlertDeny capability], st)
      | QAllowed =>
          let has_manager := bool_decide (is_Some (ds_manager st)) in
          let risk := match decision with PAllow => risk_decision inp (ds_manager st) | _ => None end in
          let '(outcome, effects, st') :=
            match decision with
            | PAllow => allowed_branch ctx inp capability call st
            | _ => (OutcomeError (str "denied") (str "Capability " ++ in_quotes capability ++ str " denied by policy (" ++ reason ++ str ")"),
                    when has_manager [EAlert PolicyDenial AlertDeny capability], st)
            end in
          let code := error_code_of outcome in
          (outcome_to_host_result (hc_call_id call) outcome,
           effects ++ when has_manager [EBudgetSample (negb (bool_decide (is_Some code)))] ++
           match risk with Some _ => [ERiskOutcome code] | None => [] end, st')
      end
  end.
End Dispatch.

(** ** What a connector gives access to *)

(** The capability of a connector; for tools, of the built-in ones by their
    registered names. *)
Definition target_capability (t : Target) : option Str :=
  match t with
  | TTool name _ => match_str name
      [("read"%string, str "read"); ("grep"%string, str "read"); ("find"%string, str "read"); ("ls"%string, str "read");
       ("write"%string, str "write"); ("edit"%string, str "write"); ("bash"%string, str "exec")]
  | TExec _ _ => Some (str "exec")
  | THttp _ => Some (str "http")
  | TSessionFast _ _ | TSession _ _ => Some (str "session")
  | TUi _ _ => Some (str "ui")
  | TEvents _ _ => Some (str "events")
  | TLog _ => Some (str "log")
  | TEnv _ => Some (str "env")
  end.

Definition is_error (o : HostcallOutcome) : Prop := ∃ code message, o = OutcomeError code message.

(** The connectors used, in order. *)
Definition connects (effects : list Effect) : list Target :=
  omap (λ e, match e with EConnect t => Some t | _ => None end) effects.

Lemma connects_app e1 e2 : connects (e1 ++ e2) = connects e1 ++ connects e2.
Proof. unfold connects. by rw omap_app. Qed.

Lemma connects_when b e : connects e = [] → connects (when b e) = [].
Proof. by destruct b. Qed.

(** ** Routes *)

Lemma with_manager_route b t :
  match with_manager b t with inl o => is_error o | inr t' => t' = t end.
Proof. destruct b; simpl; [done|]. do 2 eexists. done. Qed.

Lemma fast_route has_manager call opcode :
  match dispatch_shared_allowed_fast has_manager call opcode with
  | inl o => is_error o
  | inr t => target_capability t = Some (opcode_required_capability opcode) ∧ ∀ cmd params, t ≠ TExec cmd params
  end.
Proof.
  destruct opcode; simpl; try (split; [by vm_compute|done]);
    (destruct has_manager; simpl; [split; [by vm_compute|done]|by do 2 eexists]).
Qed.

Lemma needs_op_route b method params target :
  match needs_op b method params target with inl o => is_error o | inr t => ∃ op, t = target op end.
Proof.
  unfold needs_op. destruct (_ ≫= _) as [op|]; [|by do 2 eexists].
  pose proof (with_manager_route b (target op)). destruct (with_manager b (target op)); [done|]. by exists op.
Qed.

Lemma parse_session_capability op opcode :
  parse_session_opcode_atom op = Some opcode → opcode_required_capability opcode = str "session".
Proof.
  unfold parse_session_opcode_atom. rw with_folded_spec. intros (pat & Hin & _)%match_str_Some.
  repeat (apply elem_of_cons in Hin as [[= -> ->]|Hin]; [done|]). by apply elem_of_nil in Hin.
Qed.

Lemma parse_events_capability op opcode :
  parse_events_opcode_atom op = Some opcode → opcode_required_capability opcode = str "events".
Proof.
  unfold parse_events_opcode_atom. rw with_folded_spec. intros (pat & Hin & _)%match_str_Some.
  repeat (apply elem_of_cons in Hin as [[= -> ->]|Hin]; [done|]). by apply elem_of_nil in Hin.
Qed.

(** The capability a call is checked for, from the opcode it spells. *)
Lemma call_capability_spec call r :
  resolve_hostcall_opcode call = Ok r →
  call_capability call =
  match derive_common_hostcall_opcode (hc_method call) (hc_params call) with
  | Some opcode => opcode_required_capability opcode
  | None => default (str "internal") (required_capability_for_host_call_static_legacy call)
  end.
Proof.
  intros Hr. unfold call_capability. rw Hr. destruct r as [o src|reason].
  - by rw (resolve_derived _ _ _ Hr).
  - rw (resolve_fallback _ _ Hr). simpl. by destruct (required_capability_for_host_call_static_legacy call).
Qed.

(** Where the method spells a plain name, the capability is the method's. *)
Lemma plain_method_capability call r m :
  resolve_hostcall_opcode call = Ok r → hc_method call = str m →
  m ∈ ["exec"; "http"; "session"; "ui"; "events"; "log"; "env"]%string → call_capability call = str m.
Proof.
  intros Hr Hm Hin. rw (call_capability_spec _ _ Hr).
  unfold derive_common_hostcall_opcode, required_capability_for_host_call_static_legacy. rw Hm.
  repeat (apply elem_of_cons in Hin as [->|Hin]; [try (by vm_compute)|]); [| |by apply elem_of_nil in Hin].
  - replace (intern_hostcall_method_atom (str "session")) with AtomSession by by vm_compute.
    destruct (_ ≫= _) as [o|] eqn:E; [|by vm_compute]. apply bind_Some in E as (op & _ & E). by eapply parse_session_capability.
  - replace (intern_hostcall_method_atom (str "events")) with AtomEvents by by vm_compute.
    destruct (_ ≫= _) as [o|] eqn:E; [|by vm_compute]. apply bind_Some in E as (op & _ & E). by eapply parse_events_capability.
Qed.

(** A built-in tool named exactly is checked for its own capability. *)
Lemma tool_capability call r name input c :
  resolve_hostcall_opcode call = Ok r → hc_method call = str "tool" →
  default [] (value_get (hc_params call) (str "name") ≫= value_as_str) = name →
  target_capability (TTool name input) = Some c → call_capability call = c.
Proof.
  intros Hr Hm Hn Hc. rw (call_capability_spec _ _ Hr).
  unfold derive_common_hostcall_opcode, required_capability_for_host_call_static_legacy. rw Hm.
  replace (intern_hostcall_method_atom (str "tool")) with AtomTool by by vm_compute.
  destruct (value_get (hc_params call) (str "name") ≫= value_as_str) as [n|]; simpl in Hn; subst; [|by vm_compute in Hc].
  unfold target_capability in Hc. apply match_str_Some in Hc as (pat & Hin & ->).
  repeat (apply elem_of_cons in Hin as [[= -> ->]|Hin]; [by vm_compute|]). by apply elem_of_nil in Hin.
Qed.

Section Proofs.
Context `{Semver} `{PermissionsCodec} {World : Type}.
Context (json_display : Json → Str).
Context (connect : Str → Target → World → HostcallOutcome * World).

(** The command of a mediated connector is one the policy does not deny. *)
Definition mediated (policy : ExtensionPolicy) (t : Target) : Prop :=
  ∀ cmd params, t = TExec cmd params →
    cmd = exec_cmd params ∧
    ∀ class reason, evaluate_exec_mediation (p_exec_mediation policy) cmd (exec_args json_display params) ≠ EmDeny class reason.

(** A connector that the call's checks cover. *)
Definition covered (policy : ExtensionPolicy) (call : HostCallPayload) (t : Target) : Prop :=
  (∀ c, target_capability t = Some c → c = call_capability call) ∧ mediated policy t.

Lemma mediate_exec_route has_manager policy params :
  let '(effects, route) := mediate_exec json_display has_manager policy params in
  connects effects = [] ∧
  match route with inl o => is_error o | inr t => target_capability t = Some (str "exec") ∧ mediated policy t end.
Proof.
  unfold mediate_exec. destruct (evaluate_exec_mediation _ _ _) as [|class reason|class reason] eqn:E;
    (split; [by destruct has_manager|]).
  - split; [done|]. intros cmd p [= <- <-]. split; [done|]. intros c' r'. by rw E.
  - split; [done|]. intros cmd p [= <- <-]. split; [done|]. intros c' r'. by rw E.
  - by do 2 eexists.
Qed.

Lemma legacy_route has_manager policy call r :
  resolve_hostcall_opcode call = Ok r →
  let '(effects, route) := dispatch_shared_allowed_legacy json_display has_manager policy call in
  connects effects = [] ∧ match route with inl o => is_error o | inr t => covered policy call t end.
Proof.
  intros Hr. unfold dispatch_shared_allowed_legacy.
  assert (∀ m t, hc_method call = str m → m ∈ ["exec"; "http"; "session"; "ui"; "events"; "log"; "env"]%string →
    target_capability t = Some (str m) → mediated policy t → covered policy call t) as Hplain.
  { intros m t Hm Hin Ht Hmed. split; [|done]. intros c Hc. rw (plain_method_capability _ _ _ Hr Hm Hin). congruence. }
  assert (∀ t, (∀ cmd params, t ≠ TExec cmd params) → mediated policy t) as Hno by (intros t Ht cmd p ->; by destruct (Ht cmd p)).
  case_bool_decide as E1; [split; [done|]; split; [intros c Hc; symmetry; by eapply tool_capability|by apply Hno]|].
  case_bool_decide as E2.
  { pose proof (mediate_exec_route has_manager policy (hc_params call)) as Hm.
    destruct (mediate_exec json_display has_manager policy (hc_params call)) as [effects route].
    destruct Hm as [He Hm]. split; [done|]. destruct route as [o|t]; [done|]. destruct Hm as [Hc Hm].
    apply (Hplain "exec"%string); [done|set_solver|done|done]. }
  case_bool_decide as E3; [split; [done|]; apply (Hplain "http"%string); [done|set_solver|done|by apply Hno]|].
  assert (∀ m target, hc_method call = str m → m ∈ ["session"; "ui"; "events"]%string →
    (∀ op, target_capability (target op) = Some (str m)) → (∀ op cmd p, target op ≠ TExec cmd p) →
    match needs_op has_manager m (hc_params call) target with inl o => is_error o | inr t => covered policy call t end) as Hop.
  { intros m target Hm Hin Ht Hx. pose proof (needs_op_route has_manager m (hc_params call) target) as Hr'.
    destruct (needs_op _ _ _ _) as [o|t]; [done|]. destruct Hr' as [op ->]. apply (Hplain m); [done|set_solver|done|by apply Hno]. }
  case_bool_decide as E4; [split; [done|]; apply Hop; by try set_solver|].
  case_bool_decide as E5; [split; [done|]; apply Hop; by try set_solver|].
  case_bool_decide as E6; [split; [done|]; apply Hop; by try set_solver|].
  case_bool_decide as E7; [split; [done|]; apply (Hplain "log"%string); [done|set_solver|done|by apply Hno]|].
  case_bool_decide as E8; [split; [done|]; apply (Hplain "env"%string); [done|set_solver|done|by apply Hno]|].
  split; [done|]. by do 2 eexists.
Qed.

(** What following a route does. *)
Definition answered (call : HostCallPayload) (policy : ExtensionPolicy) (w : World)
    (outcome : HostcallOutcome) (effects : list Effect) (w' : World) : Prop :=
  match connects effects with
  | [] => is_error outcome ∧ w' = w
  | [t] => covered policy call t ∧ (outcome, w') = connect (hc_call_id call) t w
  | _ => False
  end.

Lemma follow_answered call policy effects route w :
  connects effects = [] →
  match route with inl o => is_error o | inr t => covered policy call t end →
  let '(outcome, effects', w') := follow connect call effects route w in answered call policy w outcome effects' w'.
Proof.
  intros He Hr. unfold follow, answered. destruct route as [o|t]; [by rw He|].
  destruct (connect (hc_call_id call) t w) as [o w'] eqn:Ec. by rw connects_app He.
Qed.

Lemma answered_around call policy w outcome pre effects post w' :
  connects pre = [] → connects post = [] →
  answered call policy w outcome effects w' → answered call policy w outcome (pre ++ effects ++ post) w'.
Proof. intros Hp Hq. unfold answered. by rw !connects_app Hp Hq app_nil_r. Qed.

Lemma legacy_answered has_manager policy call r w :
  resolve_hostcall_opcode call = Ok r →
  let '(outcome, effects, w') := follow_legacy json_display connect has_manager policy call w in
  answered call policy w outcome effects w'.
Proof.
  intros Hr. unfold follow_legacy. pose proof (legacy_route has_manager policy call r Hr) as Hl.
  destruct (dispatch_shared_allowed_legacy _ _ _ _) as [effects route]. destruct Hl as [He Hl].
  by apply follow_answered.
Qed.

Lemma dispatch_allowed_answered ctx manager reactor call w :
  validate_host_call call = Ok tt →
  let '(outcome, _, effects, w') := dispatch_shared_allowed json_display connect ctx manager reactor call w in
  answered call (cx_policy ctx) w outcome effects w'.
Proof.
  intros Hv. pose proof (proj1 (validate_ok call) Hv) as (_ & _ & _ & _ & [r Hr] & _).
  unfold dispatch_shared_allowed. destruct (select_hostcall_lane call) as [lane|err] eqn:El; [|by split; [do 2 eexists|]].
  set (has_manager := bool_decide (is_Some manager)).
  assert (∀ opcode, lane_opcode lane = Some opcode → derive_common_hostcall_opcode (hc_method call) (hc_params call) = Some opcode) as Hop.
  { intros o Ho. unfold select_hostcall_lane in El. rw Hr in El. destruct (is_empty _); [done|]. simpl in El.
    destruct r as [o' src|reason].
    - case_decide; [done|]. injection El as <-. simpl in Ho. injection Ho as <-. by eapply resolve_derived.
    - repeat case_match; by simplify_eq. }
  pose proof (legacy_answered has_manager (cx_policy ctx) call r w Hr) as Hl.
  destruct (follow_legacy json_display connect has_manager (cx_policy ctx) call w) as [[outcome effects] w'].
  set (lane' := apply_hostcall_lane_kill_switch _ call lane).
  assert (∀ opcode, lane_opcode lane' = Some opcode → lane_opcode lane = Some opcode) as Hlane.
  { unfold lane', apply_hostcall_lane_kill_switch. intros o. by repeat case_match. }
  destruct (lane_lane lane'); [|done].
  destruct (lane_opcode lane') as [opcode|] eqn:Eo; [|by split; [do 2 eexists|]].
  assert (∀ post, connects post = [] →
    let '(outcome, effects, w2) := follow connect call [] (dispatch_shared_allowed_fast has_manager call opcode) w in
    answered call (cx_policy ctx) w outcome (effects ++ post) w2) as Hfast.
  { intros post Hpost. pose proof (follow_answered call (cx_policy ctx) [] (dispatch_shared_allowed_fast has_manager call opcode) w eq_refl) as Hf.
    pose proof (fast_route has_manager call opcode) as Hr'.
    destruct (follow connect call [] _ w) as [[o e] w2] eqn:Ef. apply (answered_around _ _ _ _ [] e post _); [done..|].
    apply Hf. destruct (dispatch_shared_allowed_fast has_manager call opcode) as [o'|t]; [done|].
    destruct Hr' as [Hc Hx]. split; [|intros cmd p ->; by destruct (Hx cmd p)].
    intros c Hc'. rw (call_capability_spec _ _ Hr) (Hop opcode); [congruence|by apply Hlane]. }
  destruct manager as [m|]; [destruct reactor as [|shard seq|depth cap]|].
  - specialize (Hfast [] eq_refl). by destruct (follow connect call [] _ w) as [[? ?] ?].
  - specialize (Hfast [EReactorDone shard seq] eq_refl). by destruct (follow connect call [] _ w) as [[? ?] ?].
  - apply (answered_around call _ w outcome [EBudgetSignal (str "reactor_lane_overflow")] effects [] w') in Hl; [|done..].
    by rw app_nil_r in Hl.
  - specialize (Hfast [] eq_refl). destruct (follow connect call [] _ w) as [[? ?] ?]. by destruct reactor.
Qed.

(** The steps before the dispatch leave the world and the risk settings. *)
Lemma policy_step_keeps ctx inp capability (st : DispatchState) :
  let st' := (policy_step ctx inp capability st).2 in
  ds_world st' = ds_world st ∧ shadow_mode (ds_manager st') = shadow_mode (ds_manager st) ∧
  risk_decision inp (ds_manager st') = risk_decision inp (ds_manager st) ∧
  hm_quota <$> ds_manager st' = hm_quota <$> ds_manager (World := World) st.
Proof.
  unfold policy_step. destruct (authorize _ _ _ _ _ _ _ _ _) as [[[decision reason] prompts] disk]. simpl.
  by destruct (ds_manager st), prompts.
Qed.

Lemma quota_step_keeps ctx inp capability (st : DispatchState) :
  let st' := (quota_step_of ctx inp capability st).2 in
  ds_world st' = ds_world st ∧ shadow_mode (ds_manager st') = shadow_mode (ds_manager st) ∧
  risk_decision inp (ds_manager st') = risk_decision inp (ds_manager (World := World) st).
Proof.
  unfold quota_step_of. destruct (ds_manager st) as [m|] eqn:Em; [|simpl; by rw Em].
  by destruct (check_quota _ _ _ _ _) as [result q].
Qed.

Lemma with_quota_world f ext (st : DispatchState) : ds_world (with_quota f ext st) = ds_world (World := World) st.
Proof. unfold with_quota. by destruct (ds_manager st). Qed.

Lemma risk_signals_connects d : connects (risk_signals d) = [].
Proof. unfold risk_signals. rw connects_app. by rw !connects_when. Qed.

Lemma allowed_answered ctx inp capability call (st : DispatchState) :
  validate_host_call call = Ok tt →
  let '(outcome, effects, st') := allowed_branch json_display connect ctx inp capability call st in
  answered call (cx_policy ctx) (ds_world st) outcome effects (ds_world st') ∧
  (connects effects ≠ [] → will_dispatch (shadow_mode (ds_manager st)) (risk_decision inp (ds_manager st)) = true).
Proof.
  intros Hv. unfold allowed_branch. set (risk := risk_decision inp (ds_manager st)).
  set (shadow := shadow_mode (ds_manager st)). set (counted := match cx_extension_id ctx with Some _ => _ | None => None end).
  assert (connects (match risk with Some d => risk_signals d | None => [] end) = []) as Hsig
    by (destruct risk; [apply risk_signals_connects|done]).
  set (signals := match risk with Some d => risk_signals d | None => [] end) in *.
  destruct (match counted with Some ext => ([ESpawn ext], _) | None => ([], st) end) as [spawn st1] eqn:E1.
  assert (connects spawn = [] ∧ ds_world st1 = ds_world st) as [Hsp Hw1]
    by (destruct counted; injection E1 as <- <-; split; [done|apply with_quota_world|done|done]).
  pose proof (dispatch_allowed_answered ctx (ds_manager st1) (in_reactor inp) call (ds_world st1) Hv) as Hd.
  destruct (dispatch_shared_allowed _ _ _ _ _ _ _) as [[[outcome ex] effects] w]. rw Hw1 in Hd.
  set (dispatch := (outcome, effects, mkDispatch (ds_manager st1) (ds_disk st1) w)).
  set (branch := if shadow then dispatch else _).
  assert (let '(o, e, s) := branch in
    answered call (cx_policy ctx) (ds_world st) o e (ds_world s) ∧ (connects e ≠ [] → will_dispatch shadow risk = true)) as Hb.
  { unfold branch, will_dispatch, dispatch. destruct shadow; [done|].
    destruct (risk_action risk); [done| | |]; [destruct (should_block risk); [|done]| |];
      (unfold answered; rw connects_when //; split; [by split; [do 2 eexists|]|done]). }
  destruct branch as [[o e] st2].
  destruct (match counted with Some ext => ([EExit ext], _) | None => ([], st2) end) as [exit st3] eqn:E3.
  assert (connects exit = [] ∧ ds_world st3 = ds_world st2) as [Hex Hw3]
    by (destruct counted; injection E3 as <- <-; split; [done|apply with_quota_world|done|done]).
  destruct Hb as [Hb Hwd]. rw Hw3. split.
  - rw (assoc (++) signals spawn). apply answered_around; [by rw connects_app Hsig Hsp|done|done].
  - rw !connects_app Hsig Hsp Hex app_nil_r. exact Hwd.
Qed.

(** The counter of running subprocesses. *)
Definition running (m : HostManager) (ext : Str) : Z := active_subprocesses (quota_entry (hm_quota m) ext).

Lemma check_keeps_active config qs now cap :
  active_subprocesses (check_extension_quota config qs now cap).2 = active_subprocesses qs.
Proof. unfold check_extension_quota. by repeat case_match. Qed.

Lemma check_quota_keeps_running q e cap now policy ext :
  active_subprocesses (quota_entry (check_quota q e cap now policy).2 ext) = active_subprocesses (quota_entry q ext).
Proof.
  destruct e as [e|]; [|done]. pose proof (check_quota_is_local q e cap now policy) as Hl.
  destruct (check_quota q (Some e) cap now policy) as [result q']. destruct Hl as (Ho & He & _). simpl.
  destruct (decide (ext = e)) as [->|Hne]; [|by rw Ho]. apply (f_equal snd) in He. simpl in He. rw He. apply check_keeps_active.
Qed.

Lemma spawn_exit_running q e ext :
  0 ≤ active_subprocesses (quota_entry q ext) →
  active_subprocesses (quota_entry (record_subprocess_exit (record_subprocess_spawn q e) e) ext) =
  active_subprocesses (quota_entry q ext).
Proof.
  intros Hge. unfold record_subprocess_exit, record_subprocess_spawn, quota_entry, set_entry. simpl.
  destruct (decide (ext = e)) as [->|Hne]; [|by rw !lookup_insert_ne].
  rw !lookup_insert_eq /=. unfold quota_entry in Hge. lia.
Qed.

(** The allowed branch brackets its effects with the subprocess's life. *)
Lemma allowed_accounting ctx inp capability call (st : DispatchState) m :
  ds_manager st = Some m → (∀ e, 0 ≤ running m e) →
  let '(_, effects, st') := allowed_branch json_display connect ctx inp capability call st in
  (∃ m', ds_manager st' = Some m' ∧ ∀ e, running m' e = running m e) ∧
  (∀ ext, capability = str "exec" → cx_extension_id ctx = Some ext →
     will_dispatch (shadow_mode (ds_manager st)) (risk_decision inp (ds_manager st)) = true →
     ∃ pre mid, effects = pre ++ ESpawn ext :: mid ++ [EExit ext] ∧ connects pre = []).
Proof.
  intros Hm Hpos. unfold allowed_branch. rw Hm. set (risk := risk_decision inp (Some m)).
  set (shadow := shadow_mode (Some m)). set (signals := match risk with Some d => risk_signals d | None => [] end).
  rw (bool_decide_true (is_Some (Some m))); [|by eexists].
  set (counted := match cx_extension_id ctx with Some _ => _ | None => None end).
  set (m1 := match counted with Some ext => set_quota m (record_subprocess_spawn (hm_quota m) ext) | None => m end).
  assert (match counted with Some ext => ([ESpawn ext], with_quota record_subprocess_spawn ext st) | None => ([], st) end
    = (match counted with Some ext => [ESpawn ext] | None => [] end, mkDispatch (Some m1) (ds_disk st) (ds_world st))) as ->.
  { unfold m1. destruct counted as [ext|]; [unfold with_quota; by rw Hm|]. rw -Hm. by destruct st. }
  cbn [ds_manager ds_disk ds_world].
  destruct (dispatch_shared_allowed _ _ _ _ _ _ _) as [[[outcome ex] effects] w].
  set (branch := if shadow then _ else _).
  assert (∃ o e w', branch = (o, e, mkDispatch (Some m1) (ds_disk st) w')) as (o & e & w' & ->).
  { unfold branch. destruct shadow; [by eauto|]. destruct (risk_action risk); [by eauto| |by eauto|by eauto].
    destruct (should_block risk); by eauto. }
  assert (match counted with Some ext => ([EExit ext], with_quota record_subprocess_exit ext (mkDispatch (Some m1) (ds_disk st) w'))
          | None => ([], mkDispatch (Some m1) (ds_disk st) w') end
    = (match counted with Some ext => [EExit ext] | None => [] end,
       mkDispatch (Some (match counted with Some ext => set_quota m1 (record_subprocess_exit (hm_quota m1) ext) | None => m1 end))
         (ds_disk st) w')) as -> by by destruct counted.
  split.
  - eexists. split; [done|]. intros e'. unfold m1, running. destruct counted as [ext|]; simpl; [|done].
    by apply spawn_exit_running, Hpos.
  - intros ext Hcap Hext Hwd. unfold counted. rw Hext Hcap Hwd bool_decide_true //=.
    exists signals, e. split; [done|]. unfold signals. destruct risk; [apply risk_signals_connects|done].
Qed.

(** ** Claims *)

(** C2: every connector is behind every check.  Each extension call reaches
    at most one connector.  It reaches one only if the call is valid, the
    capability policy allows it or the user consented, its quota is not
    exceeded and the risk controller lets it through; the capability that was
    checked is the one the connector gives access to, and a command that the
    mediation policy denies is never run by the exec connector.  Then the
    extension gets exactly the connector's answer; otherwise it gets an error
    and nothing outside the host has changed. *)
Theorem connectors_need_clearance ctx inp call (st : DispatchState) :
  let capability := call_capability call in
  let '(decision, _, st1) := policy_step ctx inp capability st in
  let '(res, effects, st') := dispatch_host_call_shared json_display connect ctx inp call st in
  match connects effects with
  | [] => hr_is_error res = true ∧ ds_world st' = ds_world st
  | [t] =>
      validate_host_call call = Ok tt ∧ decision = PAllow ∧
      (quota_step_of ctx inp capability st1).1 = QAllowed ∧
      will_dispatch (shadow_mode (ds_manager st)) (risk_decision inp (ds_manager st)) = true ∧
      (∀ c, target_capability t = Some c → c = capability) ∧
      (∀ cmd params, t = TExec cmd params → cmd = exec_cmd params ∧ ∀ class reason,
         evaluate_exec_mediation (p_exec_mediation (cx_policy ctx)) cmd (exec_args json_display params) ≠ EmDeny class reason) ∧
      res = outcome_to_host_result (hc_call_id call) (connect (hc_call_id call) t (ds_world st)).1 ∧
      ds_world st' = (connect (hc_call_id call) t (ds_world st)).2
  | _ => False
  end.
Proof.
  intros capability. pose proof (policy_step_keeps ctx inp capability st) as Hk. unfold dispatch_host_call_shared.
  destruct (validate_host_call call) as [[]|err] eqn:Ev.
  2:{ by destruct (policy_step ctx inp capability st) as [[decision reason] st1]. }
  fold capability. destruct (policy_step ctx inp capability st) as [[decision reason] st1].
  simpl in Hk. destruct Hk as (Hw & Hsh & Hri & _).
  destruct (decide (decision = PAllow)) as [->|Hd].
  - pose proof (quota_step_keeps ctx inp capability st1) as Hq.
    destruct (quota_step_of ctx inp capability st1) as [[|qr] st2]; simpl in Hq; destruct Hq as (Hw2 & Hsh2 & Hri2);
      [|simpl; by rw Hw2 Hw].
    pose proof (allowed_answered ctx inp capability call st2 Ev) as Ha.
    destruct (allowed_branch _ _ _ _ _ _ st2) as [[outcome effects] st3]. destruct Ha as [Ha Hwd].
    set (tail := when _ _ ++ _). assert (connects tail = []) as Ht.
    { unfold tail. rw connects_app connects_when //. by destruct (risk_decision inp (ds_manager st2)). }
    rw connects_app Ht app_nil_r. unfold answered in Ha.
    rw Hsh2 Hsh Hri2 Hri in Hwd. rw Hw2 Hw in Ha.
    destruct (connects effects) as [|t [|]]; [by destruct Ha as [(code & message & ->) ->]| |done].
    destruct Ha as [[Hc Hm] Hcon]. rw -Hcon. simpl. split_and!; try done; by apply Hwd.
  - destruct decision; [done|..]; cbn; rw !connects_app !connects_when //= Hw //.
Qed.

(** Subprocesses are counted while they run and released after.  Whatever
    a call does, the counter of running subprocesses of every extension is
    after the call what it was before; and whenever a call for [exec] of some
    extension reaches a connector, the counter was raised before and lowered
    after it. *)
Theorem subprocess_count_is_balanced ctx inp call (st : DispatchState) m :
  ds_manager st = Some m → (∀ e, 0 ≤ running m e) →
  let '(_, effects, st') := dispatch_host_call_shared json_display connect ctx inp call st in
  (∃ m', ds_manager st' = Some m' ∧ ∀ e, running m' e = running m e) ∧
  ∀ t ext, connects effects = [t] → call_capability call = str "exec" → cx_extension_id ctx = Some ext →
    ∃ pre mid post, effects = pre ++ ESpawn ext :: mid ++ EExit ext :: post ∧ connects mid = [t].
Proof.
  intros Hm Hpos. unfold dispatch_host_call_shared.
  destruct (validate_host_call call) as [[]|err] eqn:Ev; [|split; [by exists m|done]].
  set (capability := call_capability call). pose proof (policy_step_keeps ctx inp capability st) as Hk.
  destruct (policy_step ctx inp capability st) as [[decision reason] st1]. simpl in Hk. destruct Hk as (_ & _ & _ & Hq).
  rw Hm in Hq. destruct (ds_manager st1) as [m1|] eqn:Em1; [|done]. injection Hq as Hq.
  assert (∀ e, running m1 e = running m e) as Hr1 by (intros; unfold running; by rw Hq).
  destruct (decide (decision = PAllow)) as [->|Hd].
  - unfold quota_step_of. rw Em1.
    pose proof (λ ext, check_quota_keeps_running (hm_quota m1) (cx_extension_id ctx) capability (in_now_ms inp) (cx_policy ctx) ext) as Hcq.
    destruct (check_quota _ _ _ _ _) as [result q]. simpl in Hcq.
    assert (∀ e, running (set_quota m1 q) e = running m e) as Hr2 by (intros; rw -Hr1; apply Hcq).
    destruct result as [|qr]; [|split; [by eexists|done]].
    set (st2 := mkDispatch (Some (set_quota m1 q)) (ds_disk st1) (ds_world st1)).
    pose proof (allowed_accounting ctx inp capability call st2 (set_quota m1 q) eq_refl) as Ha.
    pose proof (allowed_answered ctx inp capability call st2 Ev) as Hb.
    destruct (allowed_branch _ _ _ _ _ _ st2) as [[outcome effects] st3].
    destruct Ha as [(m' & Hm' & Hrun) Hbr]; [intros e; rw Hr2; apply Hpos|]. destruct Hb as [_ Hwd].
    set (tail := when _ _ ++ _). assert (connects tail = []) as Ht.
    { unfold tail. rw connects_app connects_when //. by destruct (risk_decision inp (ds_manager st2)). }
    split; [exists m'; split; [done|]; intros e; by rw Hrun|].
    intros t ext Hc Hcap Hext. rw connects_app Ht app_nil_r in Hc.
    destruct (Hbr ext Hcap Hext) as (pre & mid & -> & Hpre); [apply Hwd; by rw Hc|].
    exists pre, mid, tail. split; [by rw -assoc /= -assoc|].
    by rw connects_app Hpre /= connects_app /= app_nil_r in Hc.
  - destruct decision; [done|..]; cbn [ds_manager]; rw Em1;
      (split; [exists m1; split; [done|]; intros e; apply Hr1|intros t ext Hc; by rw !connects_app !connects_when in Hc]).
Qed.
End Proofs.

(** ** A world of counted connectors *)
Module SmallHost.
(** The world is the list of connectors used; every connector answers null. *)
Definition connect (call_id : Str) (t : Target) (w : list Target) : HostcallOutcome * list Target :=
  (Success JsonNull, w ++ [t]).
Definition display (v : Json) : Str := str "?".

Definition manager (switches : KillSwitches) : HostManager :=
  mkHostManager sample_manager (mkQuotaManager (for_mode Strict) ∅ []) switches (mkRiskConfig false false).
Definition no_switches : KillSwitches := mkSwitches false ∅ false ∅.
Definition all_compat : KillSwitches := mkSwitches true ∅ false ∅.

Definition state (switches : KillSwitches) : DispatchState :=
  mkDispatch (Some (manager switches)) Missing ([] : list Target).
Definition inputs : CallInputs := mkInputs [] 0 good_io (Err ErrAborted) 1000 None NoReactor.

(** A policy that allows every capability and denies dangerous commands. *)
Definition policy : ExtensionPolicy := mkPolicy Permissive 256 [] [] ∅ em_strict sb_default.
Definition context : HostCallContext := mkContext (Some (str "x")) policy.

Definition run (call : HostCallPayload) (switches : KillSwitches) :=
  @dispatch_host_call_shared text_semver number_codec (list Target) display connect context inputs call (state switches).

Definition call (method capability : string) (params : list (Str * Json)) : HostCallPayload :=
  mkCall (str "c1") (str capability) (str method) (JsonObject params) None None None.

Definition dangerous : Str := str "rm -rf /".
Definition by_exec : HostCallPayload := call "exec"%string "exec"%string [(str "cmd", JsonString dangerous)].
Definition by_tool : HostCallPayload := call "tool"%string "exec"%string
  [(str "name", JsonString (str "bash")); (str "input", JsonObject [(str "command", JsonString dangerous)])].
Definition op_as_method : HostCallPayload := call "session"%string "session"%string [(str "method", JsonString (str "getName"))].
End SmallHost.

Lemma subprocess_count_is_balanced_witness :
  ∃ m', ds_manager (SmallHost.run SmallHost.by_tool SmallHost.no_switches).2 = Some m' ∧ running m' (str "x") = 0.
Proof.
  pose proof (@subprocess_count_is_balanced text_semver number_codec (list Target) SmallHost.display SmallHost.connect
    SmallHost.context SmallHost.inputs SmallHost.by_tool (SmallHost.state SmallHost.no_switches)
    (SmallHost.manager SmallHost.no_switches) eq_refl) as H.
  unfold SmallHost.run. destruct (dispatch_host_call_shared _ _ _ _ _ _) as [[res effects] st'].
  destruct H as [(m' & Hm & Hr) _]; [intros e; unfold running, quota_entry; simpl; by rw lookup_empty|].
  exists m'. split; [exact Hm|]. rw Hr. reflexivity.
Defined.

(** The bash tool is not mediated.  Under a policy whose mediation denies
    recursive deletion, the exec connector refuses [rm -rf /] and nothing
    runs; the same command sent by the same extension to the [bash] tool,
    under the same capability, is run. *)
Theorem bash_tool_is_not_mediated :
  hr_is_error (SmallHost.run SmallHost.by_exec SmallHost.no_switches).1.1 = true ∧
  connects (SmallHost.run SmallHost.by_exec SmallHost.no_switches).1.2 = [] ∧
  call_capability SmallHost.by_exec = call_capability SmallHost.by_tool ∧
  hr_is_error (SmallHost.run SmallHost.by_tool SmallHost.no_switches).1.1 = false ∧
  connects (SmallHost.run SmallHost.by_tool SmallHost.no_switches).1.2 =
    [TTool (str "bash") (JsonObject [(str "command", JsonString SmallHost.dangerous)])].
Proof. vm_compute. by split_and!. Qed.

(** A call accepted on the fast lane can be refused on the compat lane.
    The operation of a session call may be given under the key "method" for
    validation and for the fast lane, which answers it; when a kill switch
    (or a full reactor lane) diverts the same call to the compat lane, which
    reads only the key "op", it is an invalid request. *)
Theorem diverted_call_is_refused :
  validate_host_call SmallHost.op_as_method = Ok tt ∧
  connects (SmallHost.run SmallHost.op_as_method SmallHost.no_switches).1.2 =
    [TSessionFast (str "get_name") (hc_params SmallHost.op_as_method)] ∧
  connects (SmallHost.run SmallHost.op_as_method SmallHost.all_compat).1.2 = [] ∧
  hr_error (SmallHost.run SmallHost.op_as_method SmallHost.all_compat).1.1 =
    Some (mkHostError ECInvalidRequest (str "host_call session requires non-empty params.op") None None).
Proof. vm_compute. by split_and!. Qed.

(** A quota breach reaches the extension as an internal error. *)
Lemma quota_breach_reads_internal call_id message :
  host_result_to_outcome (outcome_to_host_result call_id (OutcomeError (str "quota_exceeded") message)) =
  OutcomeError (str "internal") message.
Proof. done. Qed.

(** ** Environment variables

    [lookup] is the process environment: a variable is unset, has a text, or
    has a value that is not UTF-8. *)

Inductive EnvVar := Unset | EnvText (value : Str) | NotUtf8.

Definition env_names (params : Json) : list Str :=
  match value_get params (str "name") ≫= value_as_str with
  | Some name => match nonempty (trim name) with Some n => [n] | None => [] end
  | None =>
      match value_get params (str "names") with
      | Some (JsonArray items) => omap (λ item, value_as_str item ≫= λ name, nonempty (trim name)) items
      | _ => []
      end
  end.

(** The loop over the names; [None] is the early return. *)
Fixpoint env_values (broker : SecretBrokerPolicy) (lookup : Str → EnvVar) (names : list Str)
    (values : list (Str * Json)) : option (list (Str * Json)) :=
  match names with
  | [] => Some values
  | name :: names' =>
      match lookup name with
      | Unset => env_values broker lookup names' (json_insert name JsonNull values)
      | EnvText val_str => env_values broker lookup names' (json_insert name (JsonString (maybe_redact broker name val_str)) values)
      | NotUtf8 => None
      end
  end.

Definition dispatch_hostcall_env (policy : ExtensionPolicy) (lookup : Str → EnvVar) (params : Json) : HostcallOutcome :=
  let names := env_names params in
  match names with
  | [] => OutcomeError (str "invalid_request") (str "Missing env var name(s)")
  | _ =>
      match env_values (p_secret_broker policy) lookup names [] with
      | None => OutcomeError (str "io") (str "Env var value is not valid UTF-8")
      | Some values => Success (JsonObject [(str "values", JsonObject values)])
      end
  end.

(** What a member of the reply may be. *)
Definition env_member (broker : SecretBrokerPolicy) (lookup : Str → EnvVar) (kv : Str * Json) : Prop :=
  match lookup kv.1 with
  | Unset => kv.2 = JsonNull
  | EnvText v => kv.2 = JsonString (if is_secret broker kv.1 then redaction_placeholder broker else v)
  | NotUtf8 => False
  end.

Lemma json_insert_Forall (P : Str * Json → Prop) k v m : P (k, v) → Forall P m → Forall P (json_insert k v m).
Proof.
  intros Hk. induction 1 as [|[k' v'] m Hx Hm IH]; simpl; [by constructor|]. case_decide; by constructor.
Qed.

Lemma env_values_members broker lookup names values values' :
  Forall (env_member broker lookup) values → env_values broker lookup names values = Some values' →
  Forall (env_member broker lookup) values'.
Proof.
  revert values. induction names as [|n names IH]; intros values Hv; simpl; [by intros [= <-]|].
  destruct (lookup n) as [|v|] eqn:E; [| |done]; apply IH, json_insert_Forall; try done; unfold env_member; simpl; rw E //.
Qed.

(** No secret leaves through the environment.  Whatever variables an
    extension asks for, every value in the reply is the variable's own, and
    the placeholder when the broker considers the name a secret; a request
    with a value that is not text reveals nothing at all. *)
Theorem env_reply_hides_secrets policy lookup params v :
  dispatch_hostcall_env policy lookup params = Success v →
  ∃ values, v = JsonObject [(str "values", JsonObject values)] ∧
    Forall (env_member (p_secret_broker policy) lookup) values.
Proof.
  unfold dispatch_hostcall_env. destruct (env_names params) as [|n names]; [done|].
  destruct (env_values _ lookup (n :: names) []) as [values|] eqn:E; [|done]. intros [= <-]. exists values. split; [done|].
  by eapply env_values_members; [|exact E].
Qed.

Lemma env_reply_hides_secrets_witness :
  ∃ values, Forall (env_member sb_default (λ _, EnvText (str "s3cret"))) values ∧ values ≠ [].
Proof.
  pose proof (env_reply_hides_secrets ExtensionPolicy_default (λ _, EnvText (str "s3cret"))
    (JsonObject [(str "name", JsonString (str "API_KEY"))]) _ eq_refl) as (values & E & Hv).
  exists values. split; [exact Hv|]. intros ->. vm_compute in E. discriminate E.
Defined.
