(* ===== verification/Superinstructions.v ===== *)
(** * Superinstructions ([src/hostcall_superinstructions.rs])

    The compiler that finds the opcode windows which repeat in the traces of
    typed hostcalls, the plans it makes of them, and the selection of a plan
    for a concrete trace.  Opcodes are strings; [usize] indices into a trace
    are [nat], widths and counters are [Z]. *)

From S2P Require Import Prelude Text Json Utf8Bytes SessionTree.

Definition HOSTCALL_SUPERINSTRUCTION_SCHEMA_VERSION : Str := str "pi.ext.hostcall_superinstruction.v1".
Definition HOSTCALL_SUPERINSTRUCTION_PLAN_VERSION : Z := 1.
Definition DEFAULT_MIN_SUPPORT : Z := 3.
Definition DEFAULT_MAX_WINDOW : Z := 4.
Definition BASE_OPCODE_COST_UNITS : Z := 10.
Definition FUSED_OPCODE_FIXED_COST_UNITS : Z := 6.
Definition FUSED_OPCODE_STEP_COST_UNITS : Z := 2.

(** ** Signed 64-bit arithmetic *)

Definition i64_max : Z := 9223372036854775807.
Definition i64_min : Z := -9223372036854775808.
Definition i64_sat (x : Z) : Z := clamp x i64_min i64_max.
Definition i64_saturating_add (a b : Z) : Z := i64_sat (a + b).
Definition i64_saturating_sub (a b : Z) : Z := i64_sat (a - b).
Definition i64_saturating_mul (a b : Z) : Z := i64_sat (a * b).

(** [i64::try_from(width).unwrap_or(i64::MAX)] *)
Definition width_units (width : Z) : Z := if width <=? i64_max then width else i64_max.

Definition estimated_baseline_cost (width : Z) : Z :=
  i64_saturating_mul (width_units width) BASE_OPCODE_COST_UNITS.

Definition estimated_fused_cost (width : Z) : Z :=
  i64_saturating_add FUSED_OPCODE_FIXED_COST_UNITS
    (i64_saturating_mul (width_units width) FUSED_OPCODE_STEP_COST_UNITS).

(** ** Plans *)

Record HostcallSuperinstructionPlan := mkPlan {
  p_schema : Str;
  p_version : Z;
  p_plan_id : Str;
  p_trace_signature : Str;
  p_opcode_window : list Str;
  p_support_count : Z;
  p_estimated_cost_baseline : Z;
  p_estimated_cost_fused : Z;
  p_expected_cost_delta : Z;
}.

Definition width (plan : HostcallSuperinstructionPlan) : Z := len (p_opcode_window plan).

(** [left.iter().zip(right).all(==)] *)
Definition zip_all_equal (trace window : list Str) : bool :=
  forallb (λ lr : Str * Str, bool_decide (lr.1 = lr.2)) (zip trace window).

Definition matches_trace_prefix (plan : HostcallSuperinstructionPlan) (trace : list Str) : bool :=
  (width plan <=? len trace) && zip_all_equal trace (p_opcode_window plan).

(** FNV-1a over the UTF-8 bytes of the opcodes, a bar after each. *)
Definition fnv_step (hash : Z) (byte : N) : Z :=
  wrapping_mul (Z.lxor hash (Z.of_N byte)) 1099511628211.
Definition hash_opcode (hash : Z) (opcode : Str) : Z :=
  fnv_step (fold_left fnv_step (utf8_encode opcode) hash) 124.

(** [{hash:016x}] *)
Definition show_hex16 (n : Z) : Str :=
  let digits := show_hex n in replicate (16 - length digits) 48%N ++ digits.

Definition opcode_window_signature (window : list Str) : Str :=
  show_hex16 (fold_left hash_opcode window 14695981039346656037).

(** ** The compiler *)

Record HostcallSuperinstructionCompiler := mkCompiler {
  sc_enabled : bool;
  sc_min_support : Z;
  sc_max_window : Z;
}.

Definition bool_from_env (value : option Str) (dflt : bool) : bool :=
  match value with
  | None => dflt
  | Some value =>
      let value := to_ascii_lowercase (trim value) in
      if bool_decide (value ∈ [str "1"; str "true"; str "on"; str "enabled"; str "yes"]) then true
      else if bool_decide (value ∈ [str "0"; str "false"; str "off"; str "disabled"; str "no"]) then false
      else dflt
  end.

(** [str::parse::<u32>] *)
Definition parse_u32 (s : Str) : option Z :=
  match parse_u64 s with Some n => if n <=? u32_max then Some n else None | None => None end.

(** [env] is the process environment as [crate::env::var] reads it. *)
Definition Compiler_from_env (env : Str → option Str) : HostcallSuperinstructionCompiler :=
  mkCompiler (bool_from_env (env (str "HOSTCALL_SUPERINSTRUCTIONS")) true)
    (match env (str "HOSTCALL_SUPERINSTRUCTION_MIN_SUPPORT") ≫= (λ raw, parse_u32 (trim raw)) with
     | Some value => Z.max value 2 | None => DEFAULT_MIN_SUPPORT end)
    (match env (str "HOSTCALL_SUPERINSTRUCTION_MAX_WINDOW") ≫= (λ raw, parse_u64 (trim raw)) with
     | Some value => Z.max value 2 | None => DEFAULT_MAX_WINDOW end).

Definition blank (opcode : Str) : bool := is_empty (trim opcode).

(** The count of each window, and the start from which it may count again. *)
Definition Windows := gmap (list Str) Z.
Definition NextValid := gmap (list Str) nat.

(** The body of the innermost loop: the window of [w] opcodes at [start]. *)
Definition visit_start (trace : list Str) (w : nat) (st : Windows * NextValid) (start : nat) : Windows * NextValid :=
  let '(windows, next_valid) := st in
  let window_slice := take w (drop start trace) in
  if existsb blank window_slice then st
  else
    let min_start := default O (next_valid !! window_slice) in
    if (min_start <=? start)%nat then
      (<[window_slice := sat_add u32_max (default 0 (windows !! window_slice)) 1]> windows,
       <[window_slice := (start + w)%nat]> next_valid)
    else st.

Definition visit_width (trace : list Str) (windows : Windows) (w : nat) : Windows :=
  (fold_left (visit_start trace w) (seq 0 (length trace - w + 1)) (windows, ∅)).1.

Definition visit_trace (max_window : Z) (windows : Windows) (trace : list Str) : Windows :=
  if len trace <? 2 then windows
  else
    let max_width := Z.to_nat (Z.min max_window (len trace)) in
    fold_left (visit_width trace) (seq 2 (max_width - 1)) windows.

Definition count_windows (max_window : Z) (traces : list (list Str)) : Windows :=
  fold_left (visit_trace max_window) traces ∅.

(** [Vec<String>::cmp] *)
Fixpoint window_le (s t : list Str) : bool :=
  match s, t with
  | [], _ => true
  | _ :: _, [] => false
  | a :: s', b :: t' => if decide (a = b) then window_le s' t' else str_le a b
  end.

Definition entry_le (a b : list Str * Z) : Prop := window_le a.1 b.1 = true.
#[global] Instance entry_le_dec : RelDecision entry_le.
Proof. intros a b. unfold entry_le. apply _. Defined.

(** The plan of a window that is counted [support_count] times. *)
Definition make_plan (opcode_window : list Str) (support_count : Z) : HostcallSuperinstructionPlan :=
  let baseline := estimated_baseline_cost (len opcode_window) in
  let fused := estimated_fused_cost (len opcode_window) in
  let trace_signature := opcode_window_signature opcode_window in
  mkPlan HOSTCALL_SUPERINSTRUCTION_SCHEMA_VERSION HOSTCALL_SUPERINSTRUCTION_PLAN_VERSION
    (str "fuse_" ++ trace_signature) trace_signature opcode_window support_count
    baseline fused (i64_saturating_sub baseline fused).

Definition plan_of_entry (min_support : Z) (entry : list Str * Z) : option HostcallSuperinstructionPlan :=
  if entry.2 <? min_support then None
  else
    let plan := make_plan entry.1 entry.2 in
    if p_expected_cost_delta plan <=? 0 then None else Some plan.

(** [a.cmp(&b).then_with(..)]: the first comparison that is not [Eq]. *)
Definition then_with (c d : comparison) : comparison := match c with Eq => d | _ => c end.

Definition str_cmp (a b : Str) : comparison :=
  if decide (a = b) then Eq else if str_le a b then Lt else Gt.
Definition window_cmp (a b : list Str) : comparison :=
  if decide (a = b) then Eq else if window_le a b then Lt else Gt.

(** What both sorts compare first. *)
Definition rank_cmp (left right : HostcallSuperinstructionPlan) : comparison :=
  then_with (p_expected_cost_delta right ?= p_expected_cost_delta left)
    (then_with (p_support_count right ?= p_support_count left) (width right ?= width left)).

Definition plan_cmp (left right : HostcallSuperinstructionPlan) : comparison :=
  then_with (rank_cmp left right)
    (then_with (window_cmp (p_opcode_window left) (p_opcode_window right))
       (str_cmp (p_plan_id left) (p_plan_id right))).

Definition select_cmp (left right : HostcallSuperinstructionPlan) : comparison :=
  then_with (rank_cmp left right) (str_cmp (p_plan_id left) (p_plan_id right)).

Definition cmp_le (cmp : HostcallSuperinstructionPlan → HostcallSuperinstructionPlan → comparison)
    (a b : HostcallSuperinstructionPlan) : Prop := cmp a b ≠ Gt.
#[global] Instance cmp_le_dec cmp : RelDecision (cmp_le cmp).
Proof. intros a b. unfold cmp_le. apply _. Defined.

Definition compile_plans (c : HostcallSuperinstructionCompiler) (traces : list (list Str)) : list HostcallSuperinstructionPlan :=
  if negb (sc_enabled c) then []
  else
    let windows := merge_sort entry_le (map_to_list (count_windows (sc_max_window c) traces)) in
    merge_sort (cmp_le plan_cmp) (omap (plan_of_entry (sc_min_support c)) windows).

(** ** Selection and execution *)

Record HostcallSuperinstructionSelection := mkSelection {
  s_trace_signature : Str;
  s_selected_plan_id : option Str;
  s_selected_window : option (list Str);
  s_expected_cost_delta : Z;
  s_deopt_reason : option Str;
}.

Definition hit (s : HostcallSuperinstructionSelection) : bool := bool_decide (is_Some (s_selected_plan_id s)).

Definition deopt (trace_signature reason : Str) : HostcallSuperinstructionSelection :=
  mkSelection trace_signature None None 0 (Some reason).

Definition same_rank (best candidate : HostcallSuperinstructionPlan) : bool :=
  (p_expected_cost_delta candidate =? p_expected_cost_delta best)
  && (p_support_count candidate =? p_support_count best)
  && (width candidate =? width best).

Definition select_plan_for_trace (trace : list Str) (plans : list HostcallSuperinstructionPlan)
    : HostcallSuperinstructionSelection :=
  let trace_signature := opcode_window_signature trace in
  match trace with
  | [] => deopt trace_signature (str "empty_trace")
  | _ =>
      let matching := filter (λ plan, matches_trace_prefix plan trace = true) plans in
      match merge_sort (cmp_le select_cmp) matching with
      | [] => deopt trace_signature (str "no_matching_plan")
      | best :: others =>
          if existsb (same_rank best) others then deopt trace_signature (str "ambiguous_top_plan")
          else mkSelection trace_signature (Some (p_plan_id best)) (Some (p_opcode_window best))
                 (p_expected_cost_delta best) None
      end
  end.

Record HostcallSuperinstructionExecution := mkExecutionOf {
  x_canonical_trace : list Str;
  x_fused_trace : list Str;
  x_selection : HostcallSuperinstructionSelection;
}.

Definition execute_with_superinstruction (trace : list Str) (plans : list HostcallSuperinstructionPlan)
    : HostcallSuperinstructionExecution :=
  let selection := select_plan_for_trace trace plans in
  if negb (hit selection) then mkExecutionOf trace trace selection
  else
    let head := match s_selected_plan_id selection with Some plan_id => [str "@" ++ plan_id] | None => [] end in
    let consumed := Nat.min (match s_selected_window selection with Some w => length w | None => O end) (length trace) in
    mkExecutionOf trace (head ++ drop consumed trace) selection.

(** ** What is counted: disjoint occurrences *)

Definition occurs_at (w trace : list Str) (i : nat) : Prop := take (length w) (drop i trace) = w.

(** Occurrences of [w] at increasing starts, no two sharing an opcode. *)
Definition disjoint_occurrences (w trace : list Str) (l : list nat) : Prop :=
  Forall (occurs_at w trace) l ∧ StronglySorted (λ i j, (i + length w ≤ j)%nat) l.

(** [k] is the largest number of them. *)
Definition max_disjoint (w trace : list Str) (k : nat) : Prop :=
  (∃ l, disjoint_occurrences w trace l ∧ length l = k) ∧
  ∀ l, disjoint_occurrences w trace l → (length l ≤ k)%nat.

#[global] Instance occurs_at_dec w trace i : Decision (occurs_at w trace i).
Proof. unfold occurs_at. apply _. Defined.

(** The code's count, start by start: take an occurrence whenever it is free. *)
Fixpoint greedy (w trace : list Str) (next : nat) (starts : list nat) : nat :=
  match starts with
  | [] => O
  | i :: starts' =>
      if decide (occurs_at w trace i ∧ (next ≤ i)%nat) then S (greedy w trace (i + length w) starts')
      else greedy w trace next starts'
  end.

Definition support (w trace : list Str) : nat := greedy w trace 0 (seq 0 (length trace - length w + 1)).

Lemma occurs_at_bound w trace i : w ≠ [] → occurs_at w trace i → (i + length w ≤ length trace)%nat.
Proof.
  unfold occurs_at. intros Hw H. apply (f_equal length) in H. rw length_take in H. rw length_drop in H.
  assert (0 < length w)%nat by (destruct w; [done|simpl; lia]). lia.
Qed.

Lemma greedy_upper w trace m : w ≠ [] → ∀ a next l, disjoint_occurrences w trace l →
  Forall (λ j, next ≤ j ∧ a ≤ j < a + m)%nat l → (length l ≤ greedy w trace next (seq a m))%nat.
Proof.
  intros Hw. assert (0 < length w)%nat as Hw0 by (destruct w; [done|simpl; lia]).
  induction m as [|m IH]; intros a next l [Ho Hs] Hl.
  { destruct l as [|j l]; [done|]. apply Forall_cons in Hl as [? _]. lia. }
  cbn [seq greedy]. case_decide as Hd.
  - destruct l as [|j l]; [simpl; lia|]. simpl. apply le_n_S.
    apply Forall_cons in Ho as [_ Ho]. apply Forall_cons in Hl as [Hj Hl].
    apply StronglySorted_inv in Hs as [Hs Hj2]. apply IH; [done|].
    rw Forall_forall. intros k Hk. rewrite ->Forall_forall in Hl, Hj2.
    specialize (Hl k Hk). specialize (Hj2 k Hk). simpl in *. lia.
  - apply IH; [done|]. rw Forall_forall. intros k Hk.
    rewrite ->Forall_forall in Hl, Ho. specialize (Hl k Hk). specialize (Ho k Hk).
    destruct (decide (k = a)) as [->|]; [|lia]. by destruct Hd; split; [|lia].
Qed.

Lemma greedy_reached w trace m : ∀ a next, ∃ l, disjoint_occurrences w trace l ∧
  Forall (λ j, next ≤ j)%nat l ∧ length l = greedy w trace next (seq a m).
Proof.
  induction m as [|m IH]; intros a next.
  { exists []. split_and!; [split; constructor|constructor|done]. }
  cbn [seq greedy]. case_decide as Hd.
  - destruct Hd as [Ha Hn]. destruct (IH (S a) (a + length w)%nat) as (l & [Ho Hs] & Hl & <-).
    exists (a :: l). split_and!; [|constructor; [done|]|done].
    + split; constructor; done.
    + eapply Forall_impl; [exact Hl|]. simpl. lia.
  - apply IH.
Qed.

Lemma support_max w trace : w ≠ [] → max_disjoint w trace (support w trace).
Proof.
  intros Hw. split.
  - destruct (greedy_reached w trace (length trace - length w + 1) 0 0) as (l & Hl & _ & E). by exists l.
  - intros l Hl. apply greedy_upper; [done..|]. destruct Hl as [Ho _].
    eapply Forall_impl; [exact Ho|]. intros i Hi. apply occurs_at_bound in Hi; [lia|done].
Qed.

Lemma max_disjoint_unique w trace j k : max_disjoint w trace j → max_disjoint w trace k → j = k.
Proof. intros [(l & Hl & <-) Hj] [(l' & Hl' & <-) Hk]. specialize (Hj _ Hl'). specialize (Hk _ Hl). lia. Qed.

Lemma support_absent w trace : w ≠ [] → (length trace < length w)%nat → support w trace = O.
Proof.
  intros Hw Hlt. destruct (support_max w trace Hw) as [(l & [Ho _] & <-) _].
  destruct l as [|i l]; [done|]. apply Forall_cons in Ho as [Ho _]. apply occurs_at_bound in Ho; [lia|done].
Qed.

(** ** The loops count what they should *)

(** [k] more sightings of a window that was counted [o] times. *)
Definition bump (o : option Z) (k : nat) : option Z :=
  match k with O => o | S _ => Some (Z.min u32_max (default 0 o + Z.of_nat k)) end.

Lemma bump_add o j k : bump (bump o j) k = bump o (j + k).
Proof. destruct j, k; simpl; rw ?Nat.add_0_r //; f_equal; unfold u32_max; lia. Qed.

Lemma visit_starts_at trace w starts : existsb blank w = false → ∀ windows next_valid,
  (fold_left (visit_start trace (length w)) starts (windows, next_valid)).1 !! w
    = bump (windows !! w) (greedy w trace (default O (next_valid !! w)) starts).
Proof.
  intros Hb. induction starts as [|i starts IH]; intros windows next_valid; [done|].
  cbn [fold_left greedy]. unfold visit_start at 2.
  destruct (decide (take (length w) (drop i trace) = w)) as [E|E].
  - rw E Hb. destruct (Nat.leb_spec (default O (next_valid !! w)) i).
    + rw IH !lookup_insert_eq decide_True; [|by split].
      by rw -(bump_add _ 1 (greedy _ _ _ _)).
    + rw IH decide_False; [done|lia].
  - rw (decide_False (P := occurs_at w trace i ∧ _)); [|by intros [? _]].
    case_match; [apply IH|]. case_match; [|apply IH]. rw IH !lookup_insert_ne //.
Qed.

Lemma visit_starts_other trace n w starts : existsb blank w = true ∨ length w ≠ n →
  Forall (λ i, (i + n ≤ length trace)%nat) starts → ∀ windows next_valid,
  (fold_left (visit_start trace n) starts (windows, next_valid)).1 !! w = windows !! w.
Proof.
  intros Hw Hs. induction Hs as [|i starts Hi Hs IH]; intros windows next_valid; [done|].
  cbn [fold_left]. unfold visit_start at 2.
  case_match eqn:Hb; [apply IH|]. case_match; [|apply IH]. rw IH lookup_insert_ne //.
  intros E. destruct Hw as [Hw|Hw]; [rw E in Hb; congruence|].
  apply Hw. rw -E length_take length_drop. lia.
Qed.

Lemma visit_width_lookup trace windows n w : (n ≤ length trace)%nat →
  visit_width trace windows n !! w
    = if decide (length w = n ∧ existsb blank w = false) then bump (windows !! w) (support w trace)
      else windows !! w.
Proof.
  intros Hn. unfold visit_width. case_decide as Hd.
  - destruct Hd as [<- Hb]. rw visit_starts_at //.
  - apply visit_starts_other.
    + destruct (existsb blank w) eqn:E; [by left|]. right. intros <-. by apply Hd.
    + rw Forall_forall. intros i Hi%elem_of_seq. lia.
Qed.

Lemma visit_widths_lookup trace w m : ∀ a windows, (a + m ≤ length trace + 1)%nat →
  fold_left (visit_width trace) (seq a m) windows !! w
    = if decide ((a ≤ length w < a + m)%nat ∧ existsb blank w = false)
      then bump (windows !! w) (support w trace) else windows !! w.
Proof.
  induction m as [|m IH]; intros a windows Hm.
  { rw decide_False; [done|lia]. }
  cbn [seq fold_left]. rw IH; [|lia]. rw visit_width_lookup; [|lia].
  repeat case_decide; try done; exfalso; intuition lia.
Qed.

(** The windows the compiler looks at. *)
Definition countable (max_window : Z) (w : list Str) : Prop :=
  2 ≤ len w ≤ max_window ∧ existsb blank w = false.
#[global] Instance countable_dec m w : Decision (countable m w).
Proof. unfold countable. apply _. Defined.

Lemma countable_nonempty m w : countable m w → w ≠ [].
Proof. intros [? _] ->. unfold len in *. simpl in *. lia. Qed.

Lemma visit_trace_lookup max_window windows trace w :
  visit_trace max_window windows trace !! w
    = if decide (countable max_window w) then bump (windows !! w) (support w trace) else windows !! w.
Proof.
  unfold visit_trace. destruct (Z.ltb_spec (len trace) 2).
  - case_decide as Hc; [|done]. rw support_absent //; [by eapply countable_nonempty|].
    destruct Hc as [[? _] _]. unfold len in *. lia.
  - rw visit_widths_lookup; [|unfold len in *; lia]. unfold len in *.
    case_decide as Hd; case_decide as Hc; try done.
    + destruct Hc. split; [unfold len; lia|apply Hd].
    + rw support_absent //; [by eapply countable_nonempty|]. destruct Hc as [Hl Hb]. unfold len in *.
      destruct (decide (length w ≤ length trace)%nat); [|lia]. destruct Hd. split; [lia|done].
Qed.

Lemma count_windows_from max_window traces w : ∀ windows,
  fold_left (visit_trace max_window) traces windows !! w
    = if decide (countable max_window w) then bump (windows !! w) (sum_list (support w <$> traces)) else windows !! w.
Proof.
  induction traces as [|trace traces IH]; intros windows; cbn [fold_left]; [by case_decide|].
  rw IH visit_trace_lookup. case_decide; [|done]. rw bump_add //.
Qed.

Lemma count_windows_lookup max_window traces w n :
  count_windows max_window traces !! w = Some n ↔
  countable max_window w ∧ 1 ≤ n ∧ n = Z.min u32_max (Z.of_nat (sum_list (support w <$> traces))).
Proof.
  unfold count_windows. rw count_windows_from lookup_empty. unfold bump.
  case_decide; [|naive_solver]. destruct (sum_list _) as [|k] eqn:E.
  - split; [done|]. unfold u32_max. simpl. lia.
  - split; [intros [= <-]|intros (_ & _ & ->)]; [|done]. split_and!; [done|unfold u32_max; simpl; lia|done].
Qed.

(** ** Comparisons that are total orders up to ties *)

Class TotalCmp {A} (cmp : A → A → comparison) : Prop := {
  cmp_opp a b : cmp b a = CompOpp (cmp a b);
  cmp_trans a b c : cmp a b ≠ Gt → cmp b c ≠ Gt → cmp a c ≠ Gt;
}.

Section Comparisons.
Context {A : Type}.

#[export] Instance then_with_total (c d : A → A → comparison) `{!TotalCmp c, !TotalCmp d} :
  TotalCmp (λ a b, then_with (c a b) (d a b)).
Proof.
  split.
  - intros a b. rw (cmp_opp (cmp := c) a b) (cmp_opp (cmp := d) a b). by destruct (c a b).
  - intros x y z Hxy Hyz. pose proof (cmp_trans (cmp := c) x y z) as T1.
    pose proof (cmp_trans (cmp := c) z x y) as T2. pose proof (cmp_trans (cmp := c) y z x) as T3.
    rw (cmp_opp (cmp := c) x z) in T2. rw (cmp_opp (cmp := c) y z) in T2. rw (cmp_opp (cmp := c) x z) in T3.
    rw (cmp_opp (cmp := c) x y) in T3. pose proof (cmp_trans (cmp := d) x y z).
    destruct (c x y), (c y z), (c x z); simpl in *; naive_solver.
Qed.

#[export] Instance descending_total (f : A → Z) : TotalCmp (λ a b, f b ?= f a).
Proof.
  split; intros a b; [apply Z.compare_antisym|]. intros c H1 H2.
  exact (Z.le_trans (f c) (f b) (f a) H2 H1).
Qed.

Lemma of_le_total {B} `{EqDecision B} (le : B → B → bool) (f : A → B) :
  (∀ s t, le s t = true ∨ le t s = true) → (∀ s t u, le s t = true → le t u = true → le s u = true) →
  (∀ s t, le s t = true → le t s = true → s = t) →
  TotalCmp (λ a b, if decide (f a = f b) then Eq else if le (f a) (f b) then Lt else Gt).
Proof.
  intros Ht Hr Ha. split.
  - intros a b. destruct (decide (f a = f b)) as [E|E]; [rw decide_True //|rw decide_False //].
    destruct (le (f a) (f b)) eqn:E1, (le (f b) (f a)) eqn:E2; try done; [|destruct (Ht (f a) (f b)); congruence].
    by destruct E; apply Ha.
  - intros a b c H1 H2. repeat case_decide; repeat case_match; try done; try congruence.
    destruct H1 as []. exfalso. naive_solver congruence.
Qed.
End Comparisons.

Lemma window_le_total s t : window_le s t = true ∨ window_le t s = true.
Proof.
  revert t. induction s as [|a s IH]; intros [|b t]; simpl; auto.
  destruct (decide (a = b)) as [->|]; [rw decide_True //|rw decide_False //; apply str_le_total].
Qed.

Lemma window_le_antisym s t : window_le s t = true → window_le t s = true → s = t.
Proof.
  revert t. induction s as [|a s IH]; intros [|b t]; simpl; try done.
  destruct (decide (a = b)) as [->|E]; [rw decide_True //; intros; f_equal; auto|rw decide_False //].
  intros. destruct E. by apply str_le_antisym.
Qed.

Lemma window_le_trans s t u : window_le s t = true → window_le t u = true → window_le s u = true.
Proof.
  revert t u. induction s as [|a s IH]; intros [|b t] [|c u]; simpl; try done.
  destruct (decide (a = b)) as [->|E]; case_decide as E2; subst; try (case_decide; subst); eauto; try done.
  - intros H1 H2. destruct E. by apply str_le_antisym.
  - intros. by eapply str_le_trans.
Qed.

#[export] Instance rank_cmp_total : TotalCmp rank_cmp.
Proof.
  apply (then_with_total (λ a b, p_expected_cost_delta b ?= p_expected_cost_delta a)
    (λ a b, then_with (p_support_count b ?= p_support_count a) (width b ?= width a))).
Qed.

#[export] Instance plan_id_cmp_total : TotalCmp (λ a b, str_cmp (p_plan_id a) (p_plan_id b)).
Proof. apply of_le_total; [apply str_le_total|apply str_le_trans|apply str_le_antisym]. Qed.

#[export] Instance window_cmp_total : TotalCmp (λ a b, window_cmp (p_opcode_window a) (p_opcode_window b)).
Proof. apply of_le_total; [apply window_le_total|apply window_le_trans|apply window_le_antisym]. Qed.

#[export] Instance plan_cmp_total : TotalCmp plan_cmp.
Proof. apply (then_with_total rank_cmp (λ a b, then_with (window_cmp _ _) (str_cmp (p_plan_id a) (p_plan_id b)))). Qed.

#[export] Instance select_cmp_total : TotalCmp select_cmp.
Proof. apply (then_with_total rank_cmp (λ a b, str_cmp (p_plan_id a) (p_plan_id b))). Qed.

Lemma sorted_by cmp `{!TotalCmp cmp} l : StronglySorted (cmp_le cmp) (merge_sort (cmp_le cmp) l).
Proof.
  apply StronglySorted_merge_sort.
  - intros a b c. apply (cmp_trans (cmp := cmp)).
  - intros a b. unfold cmp_le. rw (cmp_opp (cmp := cmp) a b). destruct (cmp a b); naive_solver.
Qed.

(** ** The plans of a set of traces *)

Lemma make_plan_pays w n : 0 < p_expected_cost_delta (make_plan w n) ↔ w ≠ [] ∧ 6 + 2 * len w < i64_max.
Proof.
  assert (w ≠ [] ↔ 1 ≤ len w) as ->.
  { destruct w; rw ?len_nil ?len_cons; [done|]. split; [pose proof (len_nonneg w); lia|done]. }
  unfold make_plan, p_expected_cost_delta, estimated_baseline_cost, estimated_fused_cost, width_units,
    i64_saturating_sub, i64_saturating_add, i64_saturating_mul, i64_sat, clamp, i64_min, i64_max,
    BASE_OPCODE_COST_UNITS, FUSED_OPCODE_FIXED_COST_UNITS, FUSED_OPCODE_STEP_COST_UNITS.
  pose proof (len_nonneg w). case_match; lia.
Qed.

Lemma compiled_permutation c traces : sc_enabled c = true →
  Permutation (compile_plans c traces)
    (omap (plan_of_entry (sc_min_support c)) (map_to_list (count_windows (sc_max_window c) traces))).
Proof. intros E. unfold compile_plans. rw E /= !merge_sort_Permutation //. Qed.

Lemma plan_of_entry_Some min_support e plan : plan_of_entry min_support e = Some plan ↔
  plan = make_plan e.1 e.2 ∧ min_support ≤ e.2 ∧ e.1 ≠ [] ∧ 6 + 2 * len e.1 < i64_max.
Proof.
  rw -(make_plan_pays e.1 e.2). unfold plan_of_entry. case_match; [naive_solver lia|]. case_match; naive_solver lia.
Qed.

Lemma plan_windows_NoDup min_support (l : list (list Str * Z)) :
  NoDup l.*1 → NoDup (p_opcode_window <$> omap (plan_of_entry min_support) l).
Proof.
  induction l as [|e l IH]; intros Hn; [constructor|].
  cbn in Hn |- *. apply NoDup_cons in Hn as [He Hn]. case_match eqn:Hp; [|by apply IH].
  apply plan_of_entry_Some in Hp as (-> & _). cbn. constructor; [|by apply IH].
  intros (p & Hw & (e' & He' & Hp)%list_elem_of_omap)%list_elem_of_fmap. apply plan_of_entry_Some in Hp as (-> & _).
  cbn in Hw. destruct He. rw Hw. by apply list_elem_of_fmap_2.
Qed.

Lemma compiled_windows_NoDup c traces : NoDup (p_opcode_window <$> compile_plans c traces).
Proof.
  destruct (sc_enabled c) eqn:E; [|unfold compile_plans; rw E /=; constructor].
  rw compiled_permutation //. apply plan_windows_NoDup, NoDup_fst_map_to_list.
Qed.

Lemma compiled_members c traces plan : plan ∈ compile_plans c traces ↔
  sc_enabled c = true ∧ ∃ w n, plan = make_plan w n ∧ countable (sc_max_window c) w ∧
    n = Z.min u32_max (Z.of_nat (sum_list (support w <$> traces))) ∧
    1 ≤ n ∧ sc_min_support c ≤ n ∧ 6 + 2 * len w < i64_max.
Proof.
  destruct (sc_enabled c) eqn:E; [|unfold compile_plans; rw E /=; split; [by intros ?%not_elem_of_nil|by intros [? _]]].
  rw compiled_permutation // list_elem_of_omap. split.
  - intros ([w n] & Hin & (-> & ? & ? & ?)%plan_of_entry_Some). split; [done|].
    apply elem_of_map_to_list, count_windows_lookup in Hin as (? & ? & ?). by exists w, n.
  - intros [_ (w & n & -> & Hc & -> & H1 & Hm & Hl)]. eexists (w, _). rw elem_of_map_to_list count_windows_lookup.
    split; [done|]. apply plan_of_entry_Some. split_and!; [done..|by eapply countable_nonempty|done].
Qed.

Lemma supports_are_max w traces ks : w ≠ [] → Forall2 (max_disjoint w) traces ks ↔ ks = support w <$> traces.
Proof.
  intros Hw. split; [|intros ->; apply Forall2_fmap_r, Forall2_same_length_lookup_2; [done|]; naive_solver eauto using support_max].
  induction 1 as [|trace k traces ks Hk _ IH]; [done|]. rw IH fmap_cons. f_equal.
  eapply max_disjoint_unique; [done|by apply support_max].
Qed.

(** ** Selection *)

Lemma zip_all_equal_prefix trace w : len w ≤ len trace → zip_all_equal trace w = true ↔ ∃ rest, trace = w ++ rest.
Proof.
  unfold zip_all_equal, len. revert trace. induction w as [|a w IH]; intros [|b trace] Hl; simpl in Hl; try lia; cbn [zip zip_with forallb].
  - split; [by exists []|done].
  - split; [by eexists|done].
  - rw andb_true_iff bool_decide_eq_true /= IH; [|lia]. split.
    + intros [-> [rest ->]]. by exists rest.
    + intros [rest [= -> ->]]. split; [done|by exists rest].
Qed.

Lemma matches_trace_prefix_spec plan trace :
  matches_trace_prefix plan trace = true ↔ ∃ rest, trace = p_opcode_window plan ++ rest.
Proof.
  unfold matches_trace_prefix, width. rw andb_true_iff Z.leb_le. split.
  - intros [Hl H]. by apply zip_all_equal_prefix.
  - intros [rest E]. assert (len (p_opcode_window plan) ≤ len trace) as Hl.
    { rw E len_app. pose proof (len_nonneg rest). lia. }
    split; [done|]. apply zip_all_equal_prefix; [done|by exists rest].
Qed.

Lemma rank_cmp_Eq best q : rank_cmp best q = Eq ↔ same_rank best q = true.
Proof.
  unfold rank_cmp, same_rank, then_with. rw !andb_true_iff !Z.eqb_eq -!Z.compare_eq_iff.
  repeat case_match; naive_solver.
Qed.

(** The one matching plan that outranks every other matching plan. *)
Definition unique_best (trace : list Str) (plans : list HostcallSuperinstructionPlan) (plan : HostcallSuperinstructionPlan) : Prop :=
  ∃ before after, plans = before ++ plan :: after ∧ matches_trace_prefix plan trace = true ∧
    ∀ q, q ∈ before ++ after → matches_trace_prefix q trace = true → rank_cmp plan q = Lt.

Abbreviation matching_plans trace plans := (filter (λ plan, matches_trace_prefix plan trace = true) plans).

Lemma matching_split trace before plan after : matches_trace_prefix plan trace = true →
  Permutation (matching_plans trace (before ++ plan :: after)) (plan :: matching_plans trace (before ++ after)).
Proof. intros Hm. rw !filter_app filter_cons_True // Permutation_middle //. Qed.

Lemma head_is_unique_best trace plans best others :
  Permutation (best :: others) (matching_plans trace plans) → Forall (λ q, rank_cmp best q = Lt) others →
  unique_best trace plans best.
Proof.
  intros Hp Ho. assert (best ∈ matching_plans trace plans) as [Hm Hin]%list_elem_of_filter by (rw -Hp; left).
  apply list_elem_of_split in Hin as (before & after & ->). exists before, after. split_and!; [done..|].
  rw matching_split // in Hp. apply Permutation_cons_inv in Hp. intros q Hq Hmq.
  rewrite ->Forall_forall in Ho. apply Ho. rw Hp. by apply list_elem_of_filter.
Qed.

Lemma unique_best_is_head trace plans plan best others :
  unique_best trace plans plan → Permutation (best :: others) (matching_plans trace plans) →
  Forall (cmp_le select_cmp best) others → best = plan ∧ Forall (λ q, rank_cmp best q = Lt) others.
Proof.
  intros (before & after & -> & Hm & Hq) Hp Hs. rw matching_split // in Hp.
  assert (best = plan) as ->.
  { assert (plan ∈ best :: others) as [->|Ho]%elem_of_cons by (rw Hp; left); [done|].
    assert (best ∈ plan :: matching_plans trace (before ++ after)) as [->|Hb]%elem_of_cons by (rw -Hp; left); [done|].
    apply list_elem_of_filter in Hb as [Hmb Hb]. specialize (Hq _ Hb Hmb).
    rewrite ->Forall_forall in Hs. specialize (Hs _ Ho). unfold cmp_le, select_cmp in Hs.
    rw (cmp_opp (cmp := rank_cmp) plan best) Hq in Hs. done. }
  split; [done|]. apply Permutation_cons_inv in Hp. rw Forall_forall. intros q Hin. rw Hp in Hin.
  apply list_elem_of_filter in Hin as [? ?]. by apply Hq.
Qed.

Lemma sorted_matching trace plans : ∃ sorted, merge_sort (cmp_le select_cmp) (matching_plans trace plans) = sorted ∧
  Permutation sorted (matching_plans trace plans) ∧ StronglySorted (cmp_le select_cmp) sorted.
Proof. eexists. split_and!; [done|apply merge_sort_Permutation|apply sorted_by, _]. Qed.

Lemma no_tie_outranks best others : Forall (cmp_le select_cmp best) others →
  existsb (same_rank best) others = false ↔ Forall (λ q, rank_cmp best q = Lt) others.
Proof.
  induction 1 as [|q others Hq _ IH]; [by split|]. cbn [existsb]. rw orb_false_iff IH Forall_cons.
  unfold cmp_le, select_cmp, then_with in Hq. pose proof (rank_cmp_Eq best q) as Hr.
  destruct (rank_cmp best q), (same_rank best q); naive_solver.
Qed.

Lemma select_plan_cases trace plans :
  (∃ plan, trace ≠ [] ∧ unique_best trace plans plan ∧
     select_plan_for_trace trace plans =
       mkSelection (opcode_window_signature trace) (Some (p_plan_id plan)) (Some (p_opcode_window plan))
         (p_expected_cost_delta plan) None) ∨
  (∃ reason, (trace = [] ∨ ¬ ∃ plan, unique_best trace plans plan) ∧
     select_plan_for_trace trace plans = deopt (opcode_window_signature trace) reason).
Proof.
  unfold select_plan_for_trace. destruct trace as [|op trace]; [by right; eexists; split; [left|]|].
  set (tr := op :: trace). destruct (sorted_matching tr plans) as (sorted & -> & Hp & Hs).
  destruct sorted as [|best others].
  { right. eexists. split; [|done]. right. intros (plan & before & after & -> & Hm & _).
    rw matching_split // in Hp. by apply Permutation_nil_cons in Hp. }
  apply StronglySorted_inv in Hs as [_ Hs]. destruct (existsb (same_rank best) others) eqn:E.
  - right. eexists. split; [|done]. right. intros (plan & Hu).
    destruct (unique_best_is_head _ _ _ _ _ Hu Hp Hs) as [_ Ho]. apply no_tie_outranks in Ho; [congruence|done].
  - left. exists best. split_and!; [done| |done]. eapply head_is_unique_best; [done|]. by apply no_tie_outranks.
Qed.

Lemma unique_best_prefix trace plans plan :
  unique_best trace plans plan → plan ∈ plans ∧ ∃ rest, trace = p_opcode_window plan ++ rest.
Proof.
  intros (before & after & -> & Hm & _). split; [set_solver|]. by apply matches_trace_prefix_spec.
Qed.

(** ** Claims *)

(** The compiler's plans are exactly the windows worth fusing.  When it is
    enabled, a window of 2 to [max_window] opcodes, none of them blank, gets a
    plan exactly when the number of its sightings reaches [min_support]; the
    sightings are counted, trace by trace, as the largest possible number of
    occurrences of which no two share an opcode, summed and capped at
    [u32::MAX].  (A window so long that its fused cost saturates would not
    pay.)  No window gets two plans and the plans come best first. *)
Theorem plans_are_exact c traces :
  StronglySorted (cmp_le plan_cmp) (compile_plans c traces) ∧
  NoDup (p_opcode_window <$> compile_plans c traces) ∧
  ∀ plan, plan ∈ compile_plans c traces ↔
    sc_enabled c = true ∧ ∃ w sightings,
      Forall2 (max_disjoint w) traces sightings ∧
      let n := Z.min u32_max (Z.of_nat (sum_list sightings)) in
      plan = make_plan w n ∧ 1 ≤ n ∧ sc_min_support c ≤ n ∧
      2 ≤ len w ≤ sc_max_window c ∧ Forall (λ opcode, blank opcode = false) w ∧
      6 + 2 * len w < i64_max.
Proof.
  split_and!; [unfold compile_plans; case_match; [constructor|apply sorted_by, _]|apply compiled_windows_NoDup|].
  intros plan. rw compiled_members. apply and_iff_compat_l.
  assert (∀ w, existsb blank w = false ↔ Forall (λ opcode, blank opcode = false) w) as Hb.
  { induction w as [|a w IH]; [by split|]. cbn [existsb]. rw orb_false_iff IH Forall_cons //. }
  split.
  - intros (w & n & -> & Hc & -> & ? & ? & ?). pose proof (countable_nonempty _ _ Hc). destruct Hc as [? ?%Hb].
    exists w, (support w <$> traces). split; [by apply supports_are_max|]. done.
  - intros (w & ks & Hk & -> & ? & ? & Hl & Hbl & ?). apply Hb in Hbl.
    assert (w ≠ []) as Hw by (intros ->; unfold len in Hl; simpl in Hl; lia).
    apply supports_are_max in Hk as ->; [|done]. do 2 eexists. split; [done|]. split; [by split|]. done.
Qed.

(** Fusing a trace loses nothing.  The canonical trace is the given one;
    a plan is selected exactly when, for a trace that is not empty, one
    matching plan strictly outranks every other (by cost delta, then support,
    then width); the fused trace is then that plan's instruction in place of
    its window, followed by the rest, and otherwise the trace itself, with the
    reason why. *)
Theorem fusion_is_sound trace plans :
  let x := execute_with_superinstruction trace plans in
  x_canonical_trace x = trace ∧
  match s_selected_plan_id (x_selection x) with
  | Some id =>
      trace ≠ [] ∧ ∃ plan rest, unique_best trace plans plan ∧ id = p_plan_id plan ∧
        trace = p_opcode_window plan ++ rest ∧ x_fused_trace x = (str "@" ++ id) :: rest ∧
        s_expected_cost_delta (x_selection x) = p_expected_cost_delta plan
  | None =>
      (trace = [] ∨ ¬ ∃ plan, unique_best trace plans plan) ∧
      x_fused_trace x = trace ∧ s_expected_cost_delta (x_selection x) = 0 ∧ is_Some (s_deopt_reason (x_selection x))
  end.
Proof.
  cbv zeta. unfold execute_with_superinstruction.
  destruct (select_plan_cases trace plans) as [(plan & Hne & Hu & ->)|(reason & Hn & ->)]; cbn; [|done].
  split; [done|]. split; [done|]. destruct (unique_best_prefix _ _ _ Hu) as [_ [rest E]]. exists plan, rest. 
  split_and!; try done. rw Nat.min_l; [|rw E length_app; lia]. f_equal. rw {1}E drop_app_length //.
Qed.
