(* ===== verification/TraceJit.v ===== *)
(** * The trace-JIT tier ([src/hostcall_trace_jit.rs])

    Superinstruction plans that are executed often enough are compiled to
    guarded stubs, kept in a bounded cache; a stub whose guards fail too often
    in a row is invalidated.  Both [BTreeMap]s are finite maps, walked in the
    order of their keys.  Unchecked [u64] increments wrap, as in the release
    build. *)

From S2P Require Import Prelude Text Json Superinstructions.

Definition DEFAULT_MIN_JIT_EXECUTIONS : Z := 8.
Definition DEFAULT_MAX_COMPILED_TRACES : Z := 64.
Definition DEFAULT_MAX_GUARD_FAILURES : Z := 4.
Definition JIT_DISPATCH_COST_UNITS : Z := 3.
Definition JIT_DISPATCH_STEP_COST_UNITS : Z := 1.

Record TraceJitConfig := mkJitConfig {
  jc_enabled : bool;
  jc_min_jit_executions : Z;
  jc_max_compiled_traces : Z;
  jc_max_guard_failures : Z;
}.

(** The helpers of this file's [from_env]. *)
Definition jit_bool_from_env (value : option Str) (dflt : bool) : bool :=
  match value with
  | None => dflt
  | Some value =>
      negb (bool_decide (to_ascii_lowercase (trim value) ∈ [str "0"; str "false"; str "off"; str "disabled"]))
  end.
Definition u64_from_env (value : option Str) (dflt : Z) : Z :=
  default dflt (value ≫= λ raw, parse_u64 (trim raw)).

Definition TraceJitConfig_from_env (env : Str → option Str) : TraceJitConfig :=
  mkJitConfig (jit_bool_from_env (env (str "HOSTCALL_TRACE_JIT")) true)
    (u64_from_env (env (str "HOSTCALL_TRACE_JIT_MIN_EXECUTIONS")) DEFAULT_MIN_JIT_EXECUTIONS)
    (u64_from_env (env (str "HOSTCALL_TRACE_JIT_MAX_TRACES")) DEFAULT_MAX_COMPILED_TRACES)
    (u64_from_env (env (str "HOSTCALL_TRACE_JIT_MAX_GUARD_FAILURES")) DEFAULT_MAX_GUARD_FAILURES).

(** ** Guards *)

Inductive TraceGuard :=
| OpcodePrefix (window : list Str)
| SafetyEnvelopeNotVetoing
| MinSupportCount (min : Z).

Record GuardContext := mkGuardContext {
  safety_envelope_vetoing : bool;
  current_support_count : Z;
}.

Definition GuardContext_default : GuardContext := mkGuardContext false 0.

Definition guard_check (g : TraceGuard) (trace : list Str) (ctx : GuardContext) : bool :=
  match g with
  | OpcodePrefix window => (len window <=? len trace) && zip_all_equal trace window
  | SafetyEnvelopeNotVetoing => negb (safety_envelope_vetoing ctx)
  | MinSupportCount min => min <=? current_support_count ctx
  end.

(** ** Compiled traces *)

Inductive CompilationTier := TierSuperinstruction | TierTraceJit.

Record CompiledTrace := mkCompiled {
  ct_plan_id : Str;
  ct_trace_signature : Str;
  ct_guards : list TraceGuard;
  ct_opcode_window : list Str;
  ct_width : Z;
  ct_estimated_cost_jit : Z;
  ct_estimated_cost_fused : Z;
  ct_tier_improvement_delta : Z;
  ct_tier : CompilationTier;
}.

Definition estimated_jit_cost (width : Z) : Z :=
  i64_saturating_add JIT_DISPATCH_COST_UNITS
    (i64_saturating_mul (width_units width) JIT_DISPATCH_STEP_COST_UNITS).

Definition from_plan (plan : HostcallSuperinstructionPlan) : CompiledTrace :=
  let estimated_cost_jit := estimated_jit_cost (width plan) in
  mkCompiled (p_plan_id plan) (p_trace_signature plan)
    [OpcodePrefix (p_opcode_window plan); SafetyEnvelopeNotVetoing; MinSupportCount (p_support_count plan / 2)]
    (p_opcode_window plan) (width plan) estimated_cost_jit (p_estimated_cost_fused plan)
    (i64_saturating_sub (p_estimated_cost_fused plan) estimated_cost_jit) TierTraceJit.

Definition guards_pass (c : CompiledTrace) (trace : list Str) (ctx : GuardContext) : bool :=
  forallb (λ g, guard_check g trace ctx) (ct_guards c).

(** ** Results *)

Inductive DeoptReason :=
| GuardFailure (guard_index : nat) (description : Str)
| TraceInvalidated (total_failures : Z)
| JitDisabled
| NotCompiled
| SafetyVeto.

Record JitExecutionResult := mkJitResult {
  jr_jit_hit : bool;
  jr_plan_id : option Str;
  jr_deopt_reason : option DeoptReason;
  jr_cost_delta : Z;
}.

(** ** The compiler's state *)

Record PlanProfile := mkProfile {
  execution_count : Z;
  consecutive_guard_failures : Z;
  invalidated : bool;
  last_access_generation : Z;
}.
Definition PlanProfile_default : PlanProfile := mkProfile 0 0 false 0.

Record TraceJitTelemetry := mkJitTelemetry {
  plans_evaluated : Z;
  traces_compiled : Z;
  jit_hits : Z;
  jit_misses : Z;
  deopts : Z;
  invalidations : Z;
  evictions : Z;
  t_cache_size : Z;
}.
Definition TraceJitTelemetry_default : TraceJitTelemetry := mkJitTelemetry 0 0 0 0 0 0 0 0.

Record TraceJitCompiler := mkJit {
  config : TraceJitConfig;
  cache : gmap Str CompiledTrace;
  profiles : gmap Str PlanProfile;
  generation : Z;
  telemetry : TraceJitTelemetry;
}.

Definition incr (n : Z) : Z := wrapping_add n 1.

Definition TraceJitCompiler_new (c : TraceJitConfig) : TraceJitCompiler := mkJit c ∅ ∅ 0 TraceJitTelemetry_default.

Definition cache_size (s : TraceJitCompiler) : Z := Z.of_nat (size (cache s)).

(** [u64::try_from(self.cache.len()).unwrap_or(u64::MAX)] *)
Definition cache_len_u64 (c : gmap Str CompiledTrace) : Z := Z.min u64_max (Z.of_nat (size c)).

(** ** Compiling and evicting *)

Definition key_str_le (a b : Str) : Prop := str_le a b = true.
#[global] Instance key_str_le_dec : RelDecision key_str_le.
Proof. intros a b. unfold key_str_le. apply _. Defined.

(** The keys of a [BTreeMap] in order. *)
Definition sorted_keys {A} (m : gmap Str A) : list Str := merge_sort key_str_le (map_to_list m).*1.

(** [Iterator::min_by_key]: the first of the least. *)
Definition min_by_key (key : Str → Z) (l : list Str) : option Str :=
  fold_left (λ best x,
    match best with None => Some x | Some y => if key x <? key y then Some x else Some y end) l None.

Definition last_access (s : TraceJitCompiler) (plan_id : Str) : Z :=
  match profiles s !! plan_id with Some profile => last_access_generation profile | None => 0 end.

Definition evict_lru (s : TraceJitCompiler) : TraceJitCompiler :=
  match min_by_key (last_access s) (sorted_keys (cache s)) with
  | Some plan_id =>
      let cache' := delete plan_id (cache s) in
      let t := telemetry s in
      mkJit (config s) cache' (profiles s) (generation s)
        (mkJitTelemetry (plans_evaluated t) (traces_compiled t) (jit_hits t) (jit_misses t) (deopts t)
           (invalidations t) (incr (evictions t)) (cache_len_u64 cache'))
  | None => s
  end.

Definition compile_trace (plan : HostcallSuperinstructionPlan) (s : TraceJitCompiler) : TraceJitCompiler :=
  let s := if jc_max_compiled_traces (config s) <=? cache_size s then evict_lru s else s in
  let cache' := <[p_plan_id plan := from_plan plan]> (cache s) in
  let t := telemetry s in
  mkJit (config s) cache' (profiles s) (generation s)
    (mkJitTelemetry (plans_evaluated t) (incr (traces_compiled t)) (jit_hits t) (jit_misses t) (deopts t)
       (invalidations t) (evictions t) (cache_len_u64 cache')).

Definition record_plan_execution (plan : HostcallSuperinstructionPlan) (s : TraceJitCompiler) : bool * TraceJitCompiler :=
  if negb (jc_enabled (config s)) then (false, s)
  else
    let t := telemetry s in
    let generation' := incr (generation s) in
    let old := default PlanProfile_default (profiles s !! p_plan_id plan) in
    let profile := mkProfile (incr (execution_count old)) (consecutive_guard_failures old) (invalidated old) generation' in
    let s' := mkJit (config s) (cache s) (<[p_plan_id plan := profile]> (profiles s)) generation'
      (mkJitTelemetry (incr (plans_evaluated t)) (traces_compiled t) (jit_hits t) (jit_misses t) (deopts t)
         (invalidations t) (evictions t) (t_cache_size t)) in
    if invalidated profile then (false, s')
    else if (jc_min_jit_executions (config s) <=? execution_count profile)
              && negb (bool_decide (is_Some (cache s !! p_plan_id plan)))
    then (true, compile_trace plan s')
    else (false, s').

(** ** Dispatch *)

Definition guard_description (g : TraceGuard) : Str :=
  match g with
  | OpcodePrefix _ => str "opcode_prefix_mismatch"
  | SafetyEnvelopeNotVetoing => str "safety_envelope_vetoing"
  | MinSupportCount _ => str "support_count_below_threshold"
  end.

(** The first guard that fails, counted from [idx]. *)
Fixpoint first_failed (idx : nat) (guards : list TraceGuard) (trace : list Str) (ctx : GuardContext) : option (nat * Str) :=
  match guards with
  | [] => None
  | g :: guards' =>
      if negb (guard_check g trace ctx) then Some (idx, guard_description g)
      else first_failed (S idx) guards' trace ctx
  end.

Definition record_guard_failure (plan_id : Str) (s : TraceJitCompiler) : option Z * TraceJitCompiler :=
  let t := telemetry s in
  let t := mkJitTelemetry (plans_evaluated t) (traces_compiled t) (jit_hits t) (incr (jit_misses t)) (incr (deopts t))
             (invalidations t) (evictions t) (t_cache_size t) in
  match profiles s !! plan_id with
  | Some profile =>
      let failures := incr (consecutive_guard_failures profile) in
      if negb (invalidated profile) && (jc_max_guard_failures (config s) <=? failures) then
        let cache' := delete plan_id (cache s) in
        (Some failures,
         mkJit (config s) cache'
           (<[plan_id := mkProfile (execution_count profile) failures true (last_access_generation profile)]> (profiles s))
           (generation s)
           (mkJitTelemetry (plans_evaluated t) (traces_compiled t) (jit_hits t) (jit_misses t) (deopts t)
              (incr (invalidations t)) (evictions t) (cache_len_u64 cache')))
      else
        (None,
         mkJit (config s) (cache s)
           (<[plan_id := mkProfile (execution_count profile) failures (invalidated profile) (last_access_generation profile)]> (profiles s))
           (generation s) t)
  | None => (None, mkJit (config s) (cache s) (profiles s) (generation s) t)
  end.

Definition set_profiles (s : TraceJitCompiler) (p : gmap Str PlanProfile) : TraceJitCompiler :=
  mkJit (config s) (cache s) p (generation s) (telemetry s).

Definition touch (generation' : Z) (p : PlanProfile) : PlanProfile :=
  mkProfile (execution_count p) (consecutive_guard_failures p) (invalidated p) generation'.
Definition clear_failures (p : PlanProfile) : PlanProfile :=
  mkProfile (execution_count p) 0 (invalidated p) (last_access_generation p).

Definition try_jit_dispatch (plan_id : Str) (trace : list Str) (ctx : GuardContext) (s : TraceJitCompiler)
    : JitExecutionResult * TraceJitCompiler :=
  if negb (jc_enabled (config s)) then (mkJitResult false (Some plan_id) (Some JitDisabled) 0, s)
  else
    let s := mkJit (config s) (cache s) (profiles s) (incr (generation s)) (telemetry s) in
    match cache s !! plan_id with
    | None => (mkJitResult false (Some plan_id) (Some NotCompiled) 0, s)
    | Some compiled =>
        let failed_guard := first_failed 0 (ct_guards compiled) trace ctx in
        let s := set_profiles s (alter (touch (generation s)) plan_id (profiles s)) in
        match failed_guard with
        | Some (idx, description) =>
            let '(invalidated_after_failures, s) := record_guard_failure plan_id s in
            let deopt_reason :=
              match invalidated_after_failures with
              | None => GuardFailure idx description
              | Some total_failures => TraceInvalidated total_failures
              end in
            (mkJitResult false (Some plan_id) (Some deopt_reason) 0, s)
        | None =>
            let t := telemetry s in
            let s := mkJit (config s) (cache s) (alter clear_failures plan_id (profiles s)) (generation s)
              (mkJitTelemetry (plans_evaluated t) (traces_compiled t) (incr (jit_hits t)) (jit_misses t) (deopts t)
                 (invalidations t) (evictions t) (t_cache_size t)) in
            (mkJitResult true (Some plan_id) None (ct_tier_improvement_delta compiled), s)
        end
    end.

Definition get_compiled_trace (s : TraceJitCompiler) (plan_id : Str) : option CompiledTrace := cache s !! plan_id.

Definition is_invalidated (s : TraceJitCompiler) (plan_id : Str) : bool :=
  match profiles s !! plan_id with Some profile => invalidated profile | None => false end.

Definition reset (s : TraceJitCompiler) : TraceJitCompiler := mkJit (config s) ∅ ∅ 0 TraceJitTelemetry_default.

(** ** Runs, and what a log of them says *)

Inductive JitOp :=
| OpRecord (plan : HostcallSuperinstructionPlan)
| OpDispatch (plan_id : Str) (trace : list Str) (ctx : GuardContext)
| OpReset.

(** A step with the result it reports, if it is a dispatch. *)
Definition jit_step (s : TraceJitCompiler) (op : JitOp) : option JitExecutionResult * TraceJitCompiler :=
  match op with
  | OpRecord plan => (None, (record_plan_execution plan s).2)
  | OpDispatch plan_id trace ctx => let '(r, s') := try_jit_dispatch plan_id trace ctx s in (Some r, s')
  | OpReset => (None, reset s)
  end.

Definition JitLog := list (JitOp * option JitExecutionResult).

(** The log is in the order of the steps, the latest last. *)
Fixpoint jit_run (s : TraceJitCompiler) (log : JitLog) (ops : list JitOp) : TraceJitCompiler * JitLog :=
  match ops with
  | [] => (s, log)
  | op :: ops' => let '(r, s') := jit_step s op in jit_run s' (log ++ [(op, r)]) ops'
  end.

(** The verdict of a plan's guards, when the step checked them. *)
Definition guard_verdict (plan_id : Str) (e : JitOp * option JitExecutionResult) : option bool :=
  match e with
  | (OpDispatch id _ _, Some r) =>
      if decide (id = plan_id) then
        match jr_deopt_reason r with
        | None => Some true
        | Some (GuardFailure _ _) | Some (TraceInvalidated _) => Some false
        | Some _ => None
        end
      else None
  | _ => None
  end.

(** The guard failures in a row at the end of a log, since the last reset. *)
Definition streak_step (plan_id : Str) (n : Z) (e : JitOp * option JitExecutionResult) : Z :=
  match e.1 with
  | OpReset => 0
  | _ => match guard_verdict plan_id e with Some true => 0 | Some false => n + 1 | None => n end
  end.
Definition streak (plan_id : Str) (log : JitLog) : Z := fold_left (streak_step plan_id) log 0.

(** The executions of plans recorded since the last reset. *)
Definition recorded_step (acc : list HostcallSuperinstructionPlan) (e : JitOp * option JitExecutionResult)
    : list HostcallSuperinstructionPlan :=
  match e.1 with OpReset => [] | OpRecord plan => plan :: acc | _ => acc end.
Definition recorded (log : JitLog) : list HostcallSuperinstructionPlan := fold_left recorded_step log [].

Definition executions (plan_id : Str) (log : JitLog) : Z :=
  len (filter (λ plan, p_plan_id plan = plan_id) (recorded log)).

Lemma streak_snoc id log e : streak id (log ++ [e]) = streak_step id (streak id log) e.
Proof. unfold streak. rw fold_left_app //. Qed.

Lemma recorded_snoc log e : recorded (log ++ [e]) = recorded_step (recorded log) e.
Proof. unfold recorded. rw fold_left_app //. Qed.

Lemma executions_record id log plan r :
  executions id (log ++ [(OpRecord plan, r)]) = executions id log + (if decide (p_plan_id plan = id) then 1 else 0).
Proof. unfold executions. rw recorded_snoc /= filter_cons. case_decide; rw ?len_cons; lia. Qed.

Lemma executions_dispatch id log i t c r : executions id (log ++ [(OpDispatch i t c, r)]) = executions id log.
Proof. unfold executions. rw recorded_snoc //. Qed.

Lemma streak_record id log plan r : streak id (log ++ [(OpRecord plan, r)]) = streak id log.
Proof. rw streak_snoc //. Qed.

(** ** Eviction takes the least recently used *)

Lemma min_by_key_from (key : Str → Z) (l : list Str) : ∀ b : Str, ∃ x, fold_left (λ best x,
    match best with None => Some x | Some y => if key x <? key y then Some x else Some y end) l (Some b) = Some x ∧
  x ∈ b :: l ∧ ∀ y, y ∈ b :: l → key x ≤ key y.
Proof.
  induction l as [|a l IH]; intros b; cbn [fold_left].
  { exists b. split_and!; [done|by left|]. intros y ->%list_elem_of_singleton. lia. }
  destruct (Z.ltb_spec (key a) (key b)).
  - destruct (IH a) as (x & -> & Hin & Hle). exists x. split_and!; [done|set_solver|].
    intros y [->|Hy]%elem_of_cons; [|by apply Hle]. pose proof (Hle a (list_elem_of_here _ _)). lia.
  - destruct (IH b) as (x & -> & Hin & Hle). exists x. split_and!; [done|set_solver|].
    intros y [->|[->|Hy]%elem_of_cons]%elem_of_cons; [apply Hle; by left| |apply Hle; by right].
    pose proof (Hle b (list_elem_of_here _ _)). lia.
Qed.

Lemma min_by_key_spec key l : match min_by_key key l with
  | None => l = []
  | Some x => x ∈ l ∧ ∀ y, y ∈ l → key x ≤ key y
  end.
Proof. unfold min_by_key. destruct l as [|b l]; [done|]. cbn [fold_left]. by destruct (min_by_key_from key l b) as (x & -> & ?). Qed.

Lemma elem_of_sorted_keys {A} (m : gmap Str A) k : k ∈ sorted_keys m ↔ is_Some (m !! k).
Proof.
  unfold sorted_keys. rw merge_sort_Permutation list_elem_of_fmap. split.
  - intros ([k' a] & -> & Hin%elem_of_map_to_list). by exists a.
  - intros [a Ha]. exists (k, a). split; [done|by apply elem_of_map_to_list].
Qed.

Lemma evict_lru_spec s : (cache s = ∅ ∧ evict_lru s = s) ∨
  ∃ victim t, is_Some (cache s !! victim) ∧ (∀ id, is_Some (cache s !! id) → last_access s victim ≤ last_access s id) ∧
    evict_lru s = mkJit (config s) (delete victim (cache s)) (profiles s) (generation s) t ∧
    t_cache_size t = cache_len_u64 (delete victim (cache s)).
Proof.
  unfold evict_lru. pose proof (min_by_key_spec (last_access s) (sorted_keys (cache s))) as H.
  destruct (min_by_key _ _) as [victim|].
  - right. destruct H as [Hin Hle]. do 2 eexists. split; [by apply elem_of_sorted_keys|].
    split; [|split; reflexivity]. intros id Hid. by apply Hle, elem_of_sorted_keys.
  - left. split; [|done]. apply map_eq. intros k. rw lookup_empty. destruct (cache s !! k) eqn:E; [|done].
    assert (k ∈ sorted_keys (cache s)) as Hk by (apply elem_of_sorted_keys; by eexists). rw H in Hk.
    by apply not_elem_of_nil in Hk.
Qed.

(** ** The invariant *)

Definition profile_ok (cfg : TraceJitConfig) (log : JitLog) (s : TraceJitCompiler) (id : Str) : Prop :=
  match profiles s !! id with
  | None => streak id log = 0 ∧ cache s !! id = None
  | Some p =>
      consecutive_guard_failures p = streak id log ∧ 0 ≤ execution_count p ≤ executions id log ∧
      invalidated p = (Z.max 1 (jc_max_guard_failures cfg) <=? streak id log) ∧
      (is_Some (cache s !! id) → invalidated p = false)
  end.

Definition cached_ok (cfg : TraceJitConfig) (log : JitLog) (id : Str) (c : CompiledTrace) : Prop :=
  ∃ plan, plan ∈ recorded log ∧ p_plan_id plan = id ∧ c = from_plan plan ∧
    jc_min_jit_executions cfg ≤ executions id log.

Record jit_inv (cfg : TraceJitConfig) (log : JitLog) (s : TraceJitCompiler) : Prop := {
  inv_config : config s = cfg;
  inv_size : cache_size s ≤ Z.max 1 (jc_max_compiled_traces cfg);
  inv_reported : t_cache_size (telemetry s) = cache_len_u64 (cache s);
  inv_streaks : ∀ id, 0 ≤ streak id log;
  inv_profiles : ∀ id, profile_ok cfg log s id;
  inv_cached : ∀ id c, cache s !! id = Some c → cached_ok cfg log id c;
}.

Lemma incr_le n : 0 ≤ n → 0 ≤ incr n ≤ n + 1.
Proof. intros. unfold incr, wrapping_add. split; [apply Z.mod_pos_bound; unfold u64_max; lia|apply Z.mod_le; unfold u64_max; lia]. Qed.

Lemma incr_small n : 0 ≤ n < u64_max → incr n = n + 1.
Proof. intros. unfold incr, wrapping_add. apply Z.mod_small. lia. Qed.

Lemma inv_new cfg : jit_inv cfg [] (TraceJitCompiler_new cfg).
Proof.
  split; try done. unfold cache_size. simpl. rw map_size_empty. lia.
Qed.

Lemma inv_reset cfg log s r : jit_inv cfg log s → jit_inv cfg (log ++ [(OpReset, r)]) (reset s).
Proof.
  intros [? _ _ _ _ _]. split; try done.
  - unfold cache_size. simpl. rw map_size_empty. lia.
  - intros id. rw streak_snoc //.
  - intros id. unfold profile_ok. simpl. rw !lookup_empty streak_snoc //.
Qed.

(** A cache of at most [m] entries has room after an eviction. *)
Lemma compile_trace_spec plan s : ∃ kept t,
  compile_trace plan s = mkJit (config s) (<[p_plan_id plan := from_plan plan]> kept) (profiles s) (generation s) t ∧
  kept ⊆ cache s ∧ t_cache_size t = cache_len_u64 (<[p_plan_id plan := from_plan plan]> kept) ∧
  (cache_size s ≤ Z.max 1 (jc_max_compiled_traces (config s)) →
   Z.of_nat (size kept) + 1 ≤ Z.max 1 (jc_max_compiled_traces (config s))).
Proof.
  unfold compile_trace, cache_size. destruct (Z.leb_spec (jc_max_compiled_traces (config s)) (Z.of_nat (size (cache s)))).
  - destruct (evict_lru_spec s) as [[E ->]|(victim & t & Hv & _ & -> & _)]; simpl.
    + exists (cache s). eexists. split_and!; [done..|]. rw E map_size_empty. lia.
    + exists (delete victim (cache s)). eexists. split_and!; [done|apply delete_subseteq|done|].
      destruct Hv as [c Hv]. intros. rw map_size_delete Hv. lia.
  - exists (cache s). eexists. split_and!; [done..|]. lia.
Qed.

Section Preserved.
Context (cfg : TraceJitConfig) (log : JitLog).
Hypothesis Hm : 0 ≤ jc_max_guard_failures cfg ≤ u64_max.

Lemma cached_ok_record plan r id c : cached_ok cfg log id c → cached_ok cfg (log ++ [(OpRecord plan, r)]) id c.
Proof.
  intros (p & Hp & ? & ? & ?). exists p. rw recorded_snoc executions_record. split_and!; [by right|done|done|].
  case_decide; lia.
Qed.

Lemma cached_ok_dispatch i t c r id ct : cached_ok cfg log id ct → cached_ok cfg (log ++ [(OpDispatch i t c, r)]) id ct.
Proof. intros (p & ?). exists p. rw recorded_snoc executions_dispatch //. Qed.

Lemma profile_ok_record plan r s id : profile_ok cfg log s id → profile_ok cfg (log ++ [(OpRecord plan, r)]) s id.
Proof.
  unfold profile_ok. rw streak_record executions_record. destruct (profiles s !! id); [|done].
  intros (? & ? & ? & ?). split_and!; try done; repeat case_decide; lia.
Qed.

(** The profile after an execution is recorded. *)
Definition recorded_profile (s : TraceJitCompiler) (id : Str) : PlanProfile :=
  let old := default PlanProfile_default (profiles s !! id) in
  mkProfile (incr (execution_count old)) (consecutive_guard_failures old) (invalidated old) (incr (generation s)).

Lemma recorded_profile_ok plan r s t : jit_inv cfg log s → ∀ id,
  profile_ok cfg (log ++ [(OpRecord plan, r)])
    (mkJit (config s) (cache s) (<[p_plan_id plan := recorded_profile s (p_plan_id plan)]> (profiles s)) (incr (generation s)) t) id.
Proof.
  intros [_ _ _ _ Hp _] id. destruct (decide (p_plan_id plan = id)) as [<-|Hne].
  - specialize (Hp (p_plan_id plan)). unfold profile_ok in *. simpl. rw lookup_insert_eq streak_record executions_record.
    rw decide_True //. unfold recorded_profile. destruct (profiles s !! p_plan_id plan) as [p|]; simpl.
    + destruct Hp as (? & He & ? & ?). pose proof (incr_le (execution_count p) ltac:(lia)). split_and!; [done|lia|lia|done..].
    + destruct Hp as [Hs Hc]. rw Hs Hc. split_and!; [done| | |symmetry; apply Z.leb_gt; lia|done].
      * vm_compute. done.
      * unfold executions. pose proof (len_nonneg (filter (λ p, p_plan_id p = p_plan_id plan) (recorded log))).
        change (incr 0) with 1. lia.
  - specialize (Hp id). apply (profile_ok_record plan r) in Hp. unfold profile_ok in *. simpl. rw lookup_insert_ne //.
Qed.

Lemma inv_record s plan r : jit_inv cfg log s → jit_inv cfg (log ++ [(OpRecord plan, r)]) (record_plan_execution plan s).2.
Proof.
  intros Hinv. pose proof Hinv as [Hcfg Hsz Hrep Hst Hp Hc].
  assert (∀ id, 0 ≤ streak id (log ++ [(OpRecord plan, r)])) as Hst' by (intros; rw streak_record //).
  unfold record_plan_execution. destruct (negb (jc_enabled (config s))).
  { split; simpl; auto using profile_ok_record, cached_ok_record. }
  fold (recorded_profile s (p_plan_id plan)).
  set (t := mkJitTelemetry _ _ _ _ _ _ _ _).
  pose proof (recorded_profile_ok plan r s t Hinv) as Hp'.
  set (s' := mkJit _ _ _ _ _) in Hp' |- *.
  assert (jit_inv cfg (log ++ [(OpRecord plan, r)]) s') as Hinv' by (split; simpl; auto using cached_ok_record).
  destruct (invalidated (recorded_profile s (p_plan_id plan))) eqn:Hi; [done|].
  destruct (_ && _) eqn:Hhot; [|done]. apply andb_true_iff in Hhot as [Hhot%Z.leb_le _]. simpl.
  destruct (compile_trace_spec plan s') as (kept & t' & -> & Hk & Ht' & Hroom). simpl in Hroom.
  split; simpl; [done| | |done| |].
  - rw Hcfg in Hroom. specialize (Hroom Hsz). unfold cache_size. simpl. rw map_size_insert.
    destruct (kept !! p_plan_id plan); simpl; lia.
  - done.
  - intros id. specialize (Hp' id). unfold profile_ok in *. simpl in *.
    destruct (decide (p_plan_id plan = id)) as [<-|Hne].
    + rw lookup_insert_eq in Hp'. rw lookup_insert_eq. split_and!; naive_solver.
    + rw lookup_insert_ne // in Hp'. rw lookup_insert_ne // lookup_insert_ne //.
      assert (is_Some (kept !! id) → is_Some (cache s !! id)) as Hw by (intros; by eapply lookup_weaken_is_Some).
      destruct (profiles s !! id); [destruct Hp' as (? & ? & ? & Hv)|destruct Hp' as [? Hn]].
      * split_and!; [done|lia|lia|done|auto].
      * split; [done|]. rw Hn in Hw. destruct (kept !! id); [|done]. by destruct Hw.
  - intros id c. destruct (decide (p_plan_id plan = id)) as [<-|Hne].
    + rw lookup_insert_eq. intros [= <-]. exists plan. rw recorded_snoc. split_and!; [by left|done|done|].
      specialize (Hp' (p_plan_id plan)). unfold profile_ok in Hp'. simpl in Hp'. rw lookup_insert_eq in Hp'.
      rw -Hcfg. destruct Hp' as (_ & Hp' & _). lia.
    + rw lookup_insert_ne //. intros Hkc. eapply cached_ok_record, Hc, lookup_weaken; [exact Hkc|done].
Qed.

Lemma profile_ok_dispatch_other i t c r s s' id : i ≠ id →
  profiles s' !! id = profiles s !! id → cache s' !! id = cache s !! id →
  profile_ok cfg log s id → profile_ok cfg (log ++ [(OpDispatch i t c, r)]) s' id.
Proof.
  intros Hne Hp Hc. unfold profile_ok. rw Hp Hc streak_snoc executions_dispatch. unfold streak_step, guard_verdict.
  simpl. destruct r; rw ?decide_False //.
Qed.

Lemma insert_after_alter {A} (f : A → A) (i : Str) (x : A) (m : gmap Str A) : <[i := x]> (alter f i m) = <[i := x]> m.
Proof. apply map_eq. intros k. destruct (decide (i = k)) as [<-|]; rw ?lookup_insert_eq ?lookup_insert_ne // lookup_alter_ne //. Qed.

Lemma alter_as_insert {A} (f : A → A) (i : Str) (x : A) (m : gmap Str A) : m !! i = Some x → alter f i m = <[i := f x]> m.
Proof.
  intros H. apply map_eq. intros k. destruct (decide (i = k)) as [<-|].
  - rw lookup_insert_eq lookup_alter_eq H //.
  - rw lookup_insert_ne // lookup_alter_ne //.
Qed.

(** A dispatch that checks no guard. *)
Lemma inv_dispatch_unchecked s s' i t c r : jit_inv cfg log s → guard_verdict i (OpDispatch i t c, r) = None →
  config s' = config s → cache s' = cache s → profiles s' = profiles s → telemetry s' = telemetry s →
  jit_inv cfg (log ++ [(OpDispatch i t c, r)]) s'.
Proof.
  intros [Hcfg Hsz Hrep Hst Hp Hc] Hv E1 E2 E3 E4.
  assert (∀ id, streak id (log ++ [(OpDispatch i t c, r)]) = streak id log) as Hs.
  { intros id. rw streak_snoc. unfold streak_step. simpl in *. destruct r; [|done]. rw decide_True // in Hv.
    destruct (decide (i = id)) as [<-|]; [rw Hv|]; done. }
  split; [by rw E1|unfold cache_size; rw E2; apply Hsz|by rw E4 E2|intros id; rw Hs //| |].
  - intros id. specialize (Hp id). unfold profile_ok in *. rw E3 E2 Hs executions_dispatch //.
  - intros id ct. rw E2. intros ?%Hc. by apply cached_ok_dispatch.
Qed.

Lemma streak_dispatch i t c r b : guard_verdict i (OpDispatch i t c, r) = Some b → ∀ id,
  streak id (log ++ [(OpDispatch i t c, r)]) =
    if decide (i = id) then if b then 0 else streak id log + 1 else streak id log.
Proof.
  intros Hv id. rw streak_snoc. unfold streak_step. simpl in *. destruct r; [|done].
  rw decide_True // in Hv. destruct (decide (i = id)) as [<-|]; [rw Hv; by destruct b|done].
Qed.

(** A dispatch that finds the plan's stub: its profile before, and the state
    after. *)
Lemma inv_dispatch_checked s s' i t c r b p : jit_inv cfg log s → guard_verdict i (OpDispatch i t c, r) = Some b →
  config s' = config s → profiles s' = <[i := p]> (profiles s) →
  (cache s' = cache s ∧ invalidated p = false ∨ cache s' = delete i (cache s) ∧ invalidated p = true) →
  t_cache_size (telemetry s') = cache_len_u64 (cache s') → 
  consecutive_guard_failures p = streak i (log ++ [(OpDispatch i t c, r)]) →
  0 ≤ execution_count p ≤ executions i log →
  invalidated p = (Z.max 1 (jc_max_guard_failures cfg) <=? streak i (log ++ [(OpDispatch i t c, r)])) →
  jit_inv cfg (log ++ [(OpDispatch i t c, r)]) s'.
Proof.
  intros [Hcfg Hsz Hrep Hst Hp Hc] Hv E1 E2 E3 E4 Hcf Hex Hin.
  assert (cache s' ⊆ cache s) as Hsub by (destruct E3 as [[-> _]|[-> _]]; [done|apply delete_subseteq]).
  split; [by rw E1| |done| | |].
  - etrans; [|exact Hsz]. unfold cache_size. apply map_subseteq_size in Hsub. lia.
  - intros id. rw (streak_dispatch _ _ _ _ _ Hv). specialize (Hst id). case_decide; [destruct b; lia|lia].
  - intros id. destruct (decide (i = id)) as [<-|Hne].
    + unfold profile_ok. rw E2 lookup_insert_eq executions_dispatch. split_and!; [done|lia|lia|done|].
      destruct E3 as [[-> ?]|[-> ?]]; [done|]. rw lookup_delete_eq. by intros [].
    + eapply (profile_ok_dispatch_other _ _ _ _ s); [done|rw E2 lookup_insert_ne //| |done].
      destruct E3 as [[-> _]|[-> _]]; [done|rw lookup_delete_ne //].
  - intros id ct Hct. apply cached_ok_dispatch, Hc. by eapply lookup_weaken.
Qed.

Lemma inv_dispatch s i t c : jit_inv cfg log s →
  jit_inv cfg (log ++ [(OpDispatch i t c, Some (try_jit_dispatch i t c s).1)]) (try_jit_dispatch i t c s).2.
Proof.
  intros Hinv. pose proof Hinv as [Hcfg Hsz Hrep Hst Hp Hc]. unfold try_jit_dispatch.
  destruct (negb (jc_enabled (config s))).
  { apply (inv_dispatch_unchecked s); try done. simpl. rw decide_True //. }
  simpl. destruct (cache s !! i) as [compiled|] eqn:Hci.
  2:{ apply (inv_dispatch_unchecked s); try done. simpl. rw decide_True //. }
  specialize (Hp i). unfold profile_ok in Hp. destruct (profiles s !! i) as [p|] eqn:Hpi; [|destruct Hp; congruence].
  rw Hci in Hp. destruct Hp as (Hcf & Hex & Hin & Hni). specialize (Hni ltac:(by eexists)).
  assert (streak i log < Z.max 1 (jc_max_guard_failures cfg)) as Hlt by (apply Z.leb_gt; congruence).
  specialize (Hst i). set (g := incr (generation s)). unfold record_guard_failure. simpl.
  destruct (first_failed 0 (ct_guards compiled) t c) as [[idx description]|].
  - rw lookup_alter_eq Hpi. simpl. rw Hcf Hni Hcfg (incr_small (streak i log)) /=; [|unfold u64_max in *; lia].
    assert (∀ r, guard_verdict i (OpDispatch i t c, r) = Some false →
      streak i (log ++ [(OpDispatch i t c, r)]) = streak i log + 1) as Hs.
    { intros r Hv. rw (streak_dispatch _ _ _ _ _ Hv). rw decide_True //. }
    destruct (Z.leb_spec (jc_max_guard_failures cfg) (streak i log + 1)); simpl.
    + apply (inv_dispatch_checked s _ _ _ _ _ false (mkProfile (execution_count p) (streak i log + 1) true g));
        simpl; rw ?Hs /= ?decide_True ?insert_after_alter //; [by right|symmetry; apply Z.leb_le; lia].
    + apply (inv_dispatch_checked s _ _ _ _ _ false (mkProfile (execution_count p) (streak i log + 1) false g));
        simpl; rw ?Hs /= ?decide_True ?insert_after_alter //; [by left|symmetry; apply Z.leb_gt; lia].
  - apply (inv_dispatch_checked s _ _ _ _ _ true (mkProfile (execution_count p) 0 false g)); simpl; try done.
    + rw decide_True //.
    + rw (alter_as_insert clear_failures i (touch g p)); [|rw lookup_alter_eq Hpi //].
      rw insert_after_alter. unfold clear_failures, touch. simpl. rw Hni //.
    + by left.
    + rw (streak_dispatch _ _ _ _ true); [|simpl; rw decide_True //]. rw decide_True //.
    + rw (streak_dispatch _ _ _ _ true); [|simpl; rw decide_True //]. rw decide_True //. symmetry. apply Z.leb_gt. lia.
Qed.
End Preserved.

Lemma inv_run cfg ops : 0 ≤ jc_max_guard_failures cfg ≤ u64_max → ∀ s log, jit_inv cfg log s →
  let '(s', log') := jit_run s log ops in jit_inv cfg log' s'.
Proof.
  intros Hm. induction ops as [|op ops IH]; intros s log Hinv; [done|]. cbn [jit_run].
  destruct op as [plan|i t c|]; cbn [jit_step].
  - apply IH, inv_record, Hinv.
  - pose proof (inv_dispatch cfg log Hm s i t c Hinv) as Hd. destruct (try_jit_dispatch i t c s) as [r s'].
    apply IH, Hd.
  - apply IH, inv_reset, Hinv.
Qed.

(** ** What a dispatch needs *)

Lemma first_failed_None guards trace ctx : ∀ idx,
  first_failed idx guards trace ctx = None ↔ Forall (λ g, guard_check g trace ctx = true) guards.
Proof.
  induction guards as [|g guards IH]; intros idx; [by split|]. cbn [first_failed]. rw Forall_cons -(IH (S idx)).
  destruct (guard_check g trace ctx); naive_solver.
Qed.

Lemma plan_guards plan trace ctx : Forall (λ g, guard_check g trace ctx = true) (ct_guards (from_plan plan)) ↔
  (∃ rest, trace = p_opcode_window plan ++ rest) ∧ safety_envelope_vetoing ctx = false ∧
  p_support_count plan / 2 ≤ current_support_count ctx.
Proof.
  rw -matches_trace_prefix_spec. cbn [ct_guards from_plan]. rw !Forall_cons Forall_nil /= negb_true_iff Z.leb_le. tauto.
Qed.

Lemma dispatch_hit_iff s id trace ctx : jr_jit_hit (try_jit_dispatch id trace ctx s).1 = true ↔
  jc_enabled (config s) = true ∧ ∃ c, cache s !! id = Some c ∧ Forall (λ g, guard_check g trace ctx = true) (ct_guards c).
Proof.
  unfold try_jit_dispatch. destruct (jc_enabled (config s)); simpl; [|naive_solver].
  destruct (cache s !! id) as [c|]; simpl; [|naive_solver]. pose proof (first_failed_None (ct_guards c) trace ctx 0).
  destruct (first_failed 0 (ct_guards c) trace ctx) as [[? ?]|]; [destruct (record_guard_failure _ _)|]; naive_solver.
Qed.

(** ** Claims *)

(** The life of a compiled trace, for every sequence of recorded
    executions, dispatches and resets.  The cache never holds more than
    [max_compiled_traces] stubs (one, if that is zero).  A plan is invalidated
    exactly when its guards have failed [max_guard_failures] times in a row
    since the last reset (once, if that is zero), whatever was compiled or
    evicted in between, and it then has no stub.  Every stub is the compilation
    of a plan that was recorded at least [min_jit_executions] times.  A
    dispatch goes through the JIT exactly when the tier is on, the plan has a
    stub, the trace starts with the plan's window, no safety envelope vetoes
    and the current support is at least half the plan's. *)
Theorem jit_lifecycle cfg ops : 0 ≤ jc_max_guard_failures cfg ≤ u64_max →
  let '(s, log) := jit_run (TraceJitCompiler_new cfg) [] ops in
  cache_size s ≤ Z.max 1 (jc_max_compiled_traces cfg) ∧
  (∀ id, is_invalidated s id = true ↔ Z.max 1 (jc_max_guard_failures cfg) ≤ streak id log) ∧
  (∀ id c, get_compiled_trace s id = Some c → is_invalidated s id = false ∧
     ∃ plan, plan ∈ recorded log ∧ p_plan_id plan = id ∧ c = from_plan plan ∧
       jc_min_jit_executions cfg ≤ executions id log) ∧
  ∀ id trace ctx, jr_jit_hit (try_jit_dispatch id trace ctx s).1 = true ↔
    jc_enabled cfg = true ∧ ∃ plan, p_plan_id plan = id ∧ get_compiled_trace s id = Some (from_plan plan) ∧
      (∃ rest, trace = p_opcode_window plan ++ rest) ∧ safety_envelope_vetoing ctx = false ∧
      p_support_count plan / 2 ≤ current_support_count ctx.
Proof.
  intros Hm. pose proof (inv_run cfg ops Hm _ _ (inv_new cfg)) as Hinv.
  destruct (jit_run (TraceJitCompiler_new cfg) [] ops) as [s log]. destruct Hinv as [Hcfg Hsz _ _ Hp Hc].
  unfold get_compiled_trace. split_and!; [done| | |].
  - intros id. specialize (Hp id). unfold profile_ok, is_invalidated in *. destruct (profiles s !! id) as [p|].
    + destruct Hp as (_ & _ & -> & _). apply Z.leb_le.
    + destruct Hp as [-> _]. split; [done|lia].
  - intros id c Hci. split; [|by apply Hc]. specialize (Hp id). unfold profile_ok, is_invalidated in *.
    destruct (profiles s !! id) as [p|]; [apply Hp; by eexists|done].
  - intros id trace ctx. rw dispatch_hit_iff Hcfg. apply and_iff_compat_l. split.
    + intros (c & Hci & Hg). destruct (Hc _ _ Hci) as (plan & _ & <- & -> & _). exists plan.
      apply plan_guards in Hg. done.
    + intros (plan & _ & Hci & Hg). exists (from_plan plan). split; [done|]. by apply plan_guards.
Qed.

(** Two executions compile the window [read, write]; it hits once, fails twice
    in a row and is gone. *)
Definition jit_example_plan : HostcallSuperinstructionPlan := make_plan [str "read"; str "write"] 4.
Definition jit_example_config : TraceJitConfig := mkJitConfig true 2 1 2.
Definition jit_example_ops : list JitOp :=
  let id := p_plan_id jit_example_plan in
  [OpRecord jit_example_plan; OpRecord jit_example_plan;
   OpDispatch id [str "read"; str "write"; str "edit"] (mkGuardContext false 2);
   OpDispatch id [str "read"] (mkGuardContext false 2);
   OpDispatch id [str "read"; str "write"] (mkGuardContext true 2)].

Lemma jit_lifecycle_witness :
  let '(s, log) := jit_run (TraceJitCompiler_new jit_example_config) [] jit_example_ops in
  let id := p_plan_id jit_example_plan in
  (λ e : JitOp * option JitExecutionResult, jr_jit_hit <$> e.2) <$> log
    = [None; None; Some true; Some false; Some false] ∧
  streak id log = 2 ∧ is_invalidated s id = true.
Proof.
  pose proof (jit_lifecycle jit_example_config jit_example_ops) as H.
  destruct (jit_run (TraceJitCompiler_new jit_example_config) [] jit_example_ops) as [s log] eqn:E.
  specialize (H ltac:(vm_compute; split; congruence)).
  assert (log = (jit_run (TraceJitCompiler_new jit_example_config) [] jit_example_ops).2) as -> by (rw E; reflexivity).
  destruct H as (_ & H & _). split; [vm_compute; reflexivity|]. split; [vm_compute; reflexivity|].
  apply H. vm_compute. congruence.
Defined.
