(* ===== verification/Marshalling.v ===== *)
(** * Hostcall marshalling ([src/extensions/protocol.rs], [src/extensions.rs],
    [src/hostcall_rewrite.rs])

    The canonical hashes of a hostcall's parameters, the fast path that hashes
    known payload shapes without walking them, the rewrite engine that chooses
    between the two, and the superinstruction report made along the way.  A
    hasher is the bytes it is fed; SHA-256 and [serde_json]'s string escaping
    are parameters. *)

From S2P Require Import Prelude Text Json Utf8Bytes HostcallProtocol Superinstructions TraceJit.

(** ** The rewrite engine ([src/hostcall_rewrite.rs]) *)

Inductive HostcallRewritePlanKind := BaselineCanonical | FastOpcodeFusion.
#[global] Instance HostcallRewritePlanKind_eq_dec : EqDecision HostcallRewritePlanKind.
Proof. solve_decision. Defined.

Record HostcallRewritePlan := mkRewritePlan {
  rp_kind : HostcallRewritePlanKind;
  rp_estimated_cost : Z;
  rp_rule_id : Str;
}.

Record HostcallRewriteDecision := mkRewriteDecision {
  rd_selected : HostcallRewritePlan;
  rd_expected_cost_delta : Z;
  rd_fallback_reason : option Str;
}.

(** [from_opt]: on unless the variable turns it off. *)
Definition rewrite_engine_from_opt (value : option Str) : bool :=
  match value with
  | None => true
  | Some v => negb (bool_decide (to_ascii_lowercase (trim v) ∈ [str "0"; str "false"; str "off"; str "disabled"]))
  end.

Definition same_rewrite (a b : HostcallRewritePlan) : bool :=
  bool_decide (rp_kind a = rp_kind b) && bool_decide (rp_rule_id a = rp_rule_id b).

(** The loop over the candidates: the best so far, and whether it is tied. *)
Definition consider_candidate (baseline : HostcallRewritePlan) (st : option HostcallRewritePlan * bool)
    (candidate : HostcallRewritePlan) : option HostcallRewritePlan * bool :=
  let '(best, ambiguous) := st in
  if rp_estimated_cost baseline <=? rp_estimated_cost candidate then st
  else
    match best with
    | None => (Some candidate, ambiguous)
    | Some current =>
        if rp_estimated_cost candidate <? rp_estimated_cost current then (Some candidate, false)
        else if (rp_estimated_cost candidate =? rp_estimated_cost current) && negb (same_rewrite candidate current)
        then (best, true)
        else st
    end.

Definition select_plan (enabled : bool) (baseline : HostcallRewritePlan) (candidates : list HostcallRewritePlan)
    : HostcallRewriteDecision :=
  if negb enabled then mkRewriteDecision baseline 0 (Some (str "rewrite_disabled"))
  else
    match fold_left (consider_candidate baseline) candidates (None, false) with
    | (None, _) => mkRewriteDecision baseline 0 (Some (str "no_better_candidate"))
    | (Some _, true) => mkRewriteDecision baseline 0 (Some (str "ambiguous_min_cost"))
    | (Some selected, false) =>
        mkRewriteDecision selected (rp_estimated_cost baseline - rp_estimated_cost selected) None
    end.

(** ** Canonical hashing *)

(** [map.get(key)], and the keys of an object in order. *)
Definition assoc {A} (key : Str) (m : list (Str * A)) : option A :=
  (λ r, r.2.2) <$> list_find (λ kv : Str * A, kv.1 = key) m.
Definition sort_keys (keys : list Str) : list Str := merge_sort key_str_le keys.

Fixpoint join_comma (parts : list ByteStr) : ByteStr :=
  match parts with
  | [] => []
  | [p] => p
  | p :: parts' => p ++ str "," ++ join_comma parts'
  end.

Definition needs_no_escape (s : Str) : bool :=
  forallb (λ b, (32 <=? b)%N && negb (b =? 34)%N && negb (b =? 92)%N) (utf8_encode s).

Section Marshalling.

(** [Sha256::digest] and [serde_json::to_string] of a string. *)
Variable sha256 : ByteStr → ByteStr.
Variable serde_escape : Str → Str.

Definition hash_json_escaped_str (s : Str) : ByteStr :=
  if needs_no_escape s then [34%N] ++ utf8_encode s ++ [34%N]
  else utf8_encode (serde_escape s).

(** The walk that [hash_canonical_json_depth] and [hash_canonical_shape_depth]
    share; they differ in what they feed for a leaf. *)
Fixpoint hash_depth (leaf : Json → ByteStr) (depth : nat) (value : Json) : ByteStr :=
  if (128 <? depth)%nat then str "too_deep"
  else
    match value with
    | JsonArray items => str "[" ++ join_comma (List.map (hash_depth leaf (S depth)) items) ++ str "]"
    | JsonObject map =>
        let fed := List.map (λ kv : Str * Json, (kv.1, hash_depth leaf (S depth) kv.2)) map in
        str "{" ++
        join_comma (omap (λ key, match assoc key fed with
                                 | Some v => Some (hash_json_escaped_str key ++ str ":" ++ v)
                                 | None => None end)
                         (sort_keys map.*1)) ++
        str "}"
    | leaf_value => leaf leaf_value
    end.

Definition json_leaf (value : Json) : ByteStr :=
  match value with
  | JsonNull => str "null"
  | JsonBool b => if b then str "true" else str "false"
  | JsonNumber n => utf8_encode n
  | JsonString s => hash_json_escaped_str s
  | JsonArray _ | JsonObject _ => []
  end.

Definition quoted (s : string) : ByteStr := [34%N] ++ str s ++ [34%N].

Definition shape_leaf (value : Json) : ByteStr :=
  match value with
  | JsonString _ => quoted "string"
  | JsonNumber _ => quoted "number"
  | JsonBool _ => quoted "bool"
  | JsonNull => quoted "null"
  | JsonArray _ | JsonObject _ => []
  end.

Definition hash_canonical_json (value : Json) : ByteStr := hash_depth json_leaf 0 value.
Definition hash_canonical_shape (value : Json) : ByteStr := hash_depth shape_leaf 0 value.

(** The string-emitting oracle. *)
Definition write_json_escaped_str (s : Str) : Str :=
  if needs_no_escape s then [34%N] ++ s ++ [34%N] else serde_escape s.

Fixpoint write_canonical_json (value : Json) : Str :=
  match value with
  | JsonNull => str "null"
  | JsonBool b => if b then str "true" else str "false"
  | JsonNumber n => n
  | JsonString s => write_json_escaped_str s
  | JsonArray items => str "[" ++ join_comma (List.map write_canonical_json items) ++ str "]"
  | JsonObject map =>
      let written := List.map (λ kv : Str * Json, (kv.1, write_canonical_json kv.2)) map in
      str "{" ++
      join_comma (omap (λ key, match assoc key written with
                               | Some v => Some (write_json_escaped_str key ++ str ":" ++ v)
                               | None => None end)
                       (sort_keys map.*1)) ++
      str "}"
  end.

Definition hex_digit (nibble : N) : N := if (nibble <? 10)%N then (48 + nibble)%N else (87 + nibble)%N.
Definition sha256_to_hex (digest : ByteStr) : Str :=
  digest ≫= λ b, [hex_digit (N.shiftr b 4); hex_digit (N.land b 15)].

Definition hash_hostcall_envelope (method : Str) (payload_key_prefix payload : ByteStr) : ByteStr :=
  str "{" ++ quoted "method" ++ str ":" ++ hash_json_escaped_str method ++ payload_key_prefix ++ payload ++ str "}".

Definition params_prefix : ByteStr := str "," ++ quoted "params" ++ str ":".
Definition params_shape_prefix : ByteStr := str "," ++ quoted "params_shape" ++ str ":".

Definition hostcall_params_hash (method : Str) (params : Json) : Str :=
  sha256_to_hex (sha256 (hash_hostcall_envelope method params_prefix (hash_canonical_json params))).
Definition hostcall_params_shape_hash (method : Str) (params : Json) : Str :=
  sha256_to_hex (sha256 (hash_hostcall_envelope method params_shape_prefix (hash_canonical_shape params))).

(** ** The fast path *)

Definition hostcall_tool_opcode_name (opcode : CommonHostcallOpcode) : option Str :=
  match opcode with
  | ToolRead => Some (str "read")
  | ToolWrite => Some (str "write")
  | ToolEdit => Some (str "edit")
  | ToolBash => Some (str "bash")
  | _ => None
  end.

Definition hostcall_opcode_param_op (opcode : CommonHostcallOpcode) : option Str :=
  match opcode with
  | SessionGetState => Some (str "get_state")
  | SessionGetMessages => Some (str "get_messages")
  | SessionGetEntries => Some (str "get_entries")
  | SessionGetBranch => Some (str "get_branch")
  | SessionGetFile => Some (str "get_file")
  | SessionGetName => Some (str "get_name")
  | SessionGetModel | EventsGetModel => Some (str "get_model")
  | SessionGetThinkingLevel | EventsGetThinkingLevel => Some (str "get_thinking_level")
  | EventsGetActiveTools => Some (str "get_active_tools")
  | EventsGetAllTools => Some (str "get_all_tools")
  | EventsList => Some (str "list")
  | EventsListFlags => Some (str "list_flags")
  | _ => None
  end.

Definition hash_fast_tool_payload (method : Str) (params : Json) (expected_name : Str) : option (Str * Str) :=
  match params with
  | JsonObject map =>
      if negb (len map =? 2) then None
      else
        name ← json_lookup (str "name") map ≫= value_as_str;
        if negb (token_eq_ascii_folded name expected_name) then None
        else
          input ← json_lookup (str "input") map;
          let payload :=
            str "{" ++ hash_json_escaped_str (str "input") ++ str ":" ++ hash_canonical_json input ++ str "," ++
            hash_json_escaped_str (str "name") ++ str ":" ++ hash_json_escaped_str expected_name ++ str "}" in
          let shape :=
            str "{" ++ hash_json_escaped_str (str "input") ++ str ":" ++ hash_canonical_shape input ++ str "," ++
            hash_json_escaped_str (str "name") ++ str ":" ++ quoted "string" ++ str "}" in
          Some (sha256_to_hex (sha256 (hash_hostcall_envelope method params_prefix payload)),
                sha256_to_hex (sha256 (hash_hostcall_envelope method params_shape_prefix shape)))
  | _ => None
  end.

Definition hash_fast_op_only_payload (method : Str) (params : Json) (expected_op : Str) : option (Str * Str) :=
  match params with
  | JsonObject map =>
      if negb (len map =? 1) then None
      else
        op ← json_lookup (str "op") map ≫= value_as_str;
        if negb (token_eq_ascii_folded op expected_op) then None
        else
          let payload :=
            str "{" ++ hash_json_escaped_str (str "op") ++ str ":" ++ hash_json_escaped_str expected_op ++ str "}" in
          let shape := str "{" ++ hash_json_escaped_str (str "op") ++ str ":" ++ quoted "string" ++ str "}" in
          Some (sha256_to_hex (sha256 (hash_hostcall_envelope method params_prefix payload)),
                sha256_to_hex (sha256 (hash_hostcall_envelope method params_shape_prefix shape)))
  | _ => None
  end.

Definition hash_fast_opcode (method : Str) (params : Json) (opcode : CommonHostcallOpcode) : option (Str * Str) :=
  match hostcall_tool_opcode_name opcode with
  | Some tool_name => hash_fast_tool_payload method params tool_name
  | None =>
      match hostcall_opcode_param_op opcode with
      | Some op_value => hash_fast_op_only_payload method params op_value
      | None => None
      end
  end.

(** ** Superinstruction report *)

Definition HOSTCALL_SUPERINSTRUCTION_TRACE_HISTORY_LIMIT : Z := 256.
Definition HOSTCALL_SUPERINSTRUCTION_RECOMPILE_INTERVAL : Z := 16.

Record HostcallSuperinstructionRuntimeState := mkRuntime {
  rt_compiler : HostcallSuperinstructionCompiler;
  rt_trace_history : list Str;
  rt_plans : list HostcallSuperinstructionPlan;
  rt_observation_count : Z;
}.

Record HostcallSuperinstructionTelemetry := mkReport {
  sr_trace_signature : option Str;
  sr_plan_id : option Str;
  sr_expected_cost_delta : Z;
  sr_observed_cost_delta : Z;
  sr_deopt_reason : option Str;
  sr_jit_hit : bool;
  sr_jit_cost_delta : Z;
}.

Definition report_default (deopt_reason : Str) : HostcallSuperinstructionTelemetry :=
  mkReport None None 0 0 (Some deopt_reason) false 0.

(** A new opcode enters the history, and the plans are recompiled when due. *)
Definition observe_opcode (opcode : CommonHostcallOpcode) (state : HostcallSuperinstructionRuntimeState)
    : HostcallSuperinstructionRuntimeState :=
  let history := rt_trace_history state ++ [opcode_code opcode] in
  let history := drop (Z.to_nat (len history - HOSTCALL_SUPERINSTRUCTION_TRACE_HISTORY_LIMIT)) history in
  let observation_count := sat_add u64_max (rt_observation_count state) 1 in
  let plans :=
    if (2 <=? len history)
       && (bool_decide (rt_plans state = []) || (observation_count mod HOSTCALL_SUPERINSTRUCTION_RECOMPILE_INTERVAL =? 0))
    then compile_plans (rt_compiler state) [history] else rt_plans state in
  mkRuntime (rt_compiler state) history plans observation_count.

(** The body of the loop over the starts of the recent window. *)
Definition try_start (plans : list HostcallSuperinstructionPlan) (recent_window : list Str)
    (st : option HostcallSuperinstructionTelemetry * TraceJitCompiler) (start : nat)
    : option HostcallSuperinstructionTelemetry * TraceJitCompiler :=
  let '(best_hit, jit) := st in
  let trace := drop start recent_window in
  let selection := x_selection (execute_with_superinstruction trace plans) in
  if negb (hit selection) then st
  else
    let replace := match best_hit with
                   | None => true
                   | Some current => sr_expected_cost_delta current <? s_expected_cost_delta selection
                   end in
    if negb replace then st
    else
      let '(jit_hit, jit_cost_delta, jit) :=
        match s_selected_plan_id selection with
        | Some pid =>
            match list_find (λ p, p_plan_id p = pid) plans with
            | Some (_, plan) =>
                let jit := (record_plan_execution plan jit).2 in
                let '(result, jit) := try_jit_dispatch pid trace GuardContext_default jit in
                (jr_jit_hit result, jr_cost_delta result, jit)
            | None => (false, 0, jit)
            end
        | None => (false, 0, jit)
        end in
      (Some (mkReport (Some (s_trace_signature selection)) (s_selected_plan_id selection)
               (s_expected_cost_delta selection) (s_expected_cost_delta selection) None jit_hit jit_cost_delta), jit).

(** [poisoned]: the state's lock was poisoned by a panic. *)
Definition hostcall_superinstruction_telemetry (opcode : option CommonHostcallOpcode) (poisoned : bool)
    (state : HostcallSuperinstructionRuntimeState) (jit : TraceJitCompiler)
    : HostcallSuperinstructionTelemetry * HostcallSuperinstructionRuntimeState * TraceJitCompiler :=
  match opcode with
  | None => (report_default (str "no_opcode_hint"), state, jit)
  | Some opcode =>
      if poisoned then (report_default (str "superinstruction_state_lock_poisoned"), state, jit)
      else if negb (sc_enabled (rt_compiler state)) then (report_default (str "superinstructions_disabled"), state, jit)
      else
        let state := observe_opcode opcode state in
        let history := rt_trace_history state in
        let max_window := Z.min (sc_max_window (rt_compiler state)) (len history) in
        let recent_window := reverse (take (Z.to_nat max_window) (reverse history)) in
        if len recent_window <? 2 then (report_default (str "insufficient_trace_history"), state, jit)
        else
          match fold_left (try_start (rt_plans state) recent_window) (seq 0 (length recent_window - 1)) (None, jit) with
          | (Some found, jit) => (found, state, jit)
          | (None, jit) =>
              let selection := x_selection (execute_with_superinstruction recent_window (rt_plans state)) in
              (mkReport (Some (s_trace_signature selection)) None 0 0 (s_deopt_reason selection) false 0, state, jit)
          end
  end.

(** ** Marshalling a call *)

Definition HOSTCALL_MARSHALLING_PATH_CANONICAL_GENERIC : Str := str "canonical_generic_v1".
Definition HOSTCALL_MARSHALLING_PATH_FAST_OPCODE : Str := str "interned_opcode_arena_v1".
Definition HOSTCALL_MARSHALLING_PATH_CANONICAL_FALLBACK : Str := str "canonical_fallback_v1".
Definition HOSTCALL_MARSHALLING_FALLBACK_OPCODE_SHAPE_MISS : Str := str "opcode_payload_shape_miss".
Definition HOSTCALL_MARSHALLING_FALLBACK_REWRITE_DIVERGENCE : Str := str "rewrite_semantic_divergence".
Definition HOSTCALL_REWRITE_RULE_BASELINE : Str := str "baseline_canonical".
Definition HOSTCALL_REWRITE_RULE_FAST_OPCODE_FUSION : Str := str "fuse_hash_dispatch_fast_opcode".
Definition HOSTCALL_REWRITE_COST_BASELINE : Z := 100.
Definition HOSTCALL_REWRITE_COST_FAST_OPCODE : Z := 35.

Record HostcallMarshallingTelemetry := mkMarshallingTelemetry {
  mt_path : Str;
  mt_latency_us : Z;
  mt_fallback_reason : option Str;
  mt_fallback_count : Z;
  mt_rewrite_rule : option Str;
  mt_rewrite_expected_cost_delta : Z;
  mt_rewrite_observed_cost_delta : Z;
  mt_rewrite_fallback_reason : option Str;
  mt_superinstruction : HostcallSuperinstructionTelemetry;
}.

Record HostcallMarshallingArtifacts := mkArtifacts {
  ma_params_hash : Str;
  ma_args_shape_hash : Str;
  ma_telemetry : HostcallMarshallingTelemetry;
}.

Definition baseline_plan : HostcallRewritePlan :=
  mkRewritePlan BaselineCanonical HOSTCALL_REWRITE_COST_BASELINE HOSTCALL_REWRITE_RULE_BASELINE.
Definition fast_plan : HostcallRewritePlan :=
  mkRewritePlan FastOpcodeFusion HOSTCALL_REWRITE_COST_FAST_OPCODE HOSTCALL_REWRITE_RULE_FAST_OPCODE_FUSION.

(** The fast hashes, when they agree with the canonical ones, and the reason
    to fall back otherwise. *)
Definition fast_candidate (method : Str) (params : Json) (opcode : option CommonHostcallOpcode) : option (Str * Str) * option Str :=
  match opcode with
  | None => (None, None)
  | Some opcode =>
      match hash_fast_opcode method params opcode with
      | Some (fast_params_hash, fast_args_shape_hash) =>
          if bool_decide (fast_params_hash = hostcall_params_hash method params)
             && bool_decide (fast_args_shape_hash = hostcall_params_shape_hash method params)
          then (Some (fast_params_hash, fast_args_shape_hash), None)
          else (None, Some HOSTCALL_MARSHALLING_FALLBACK_REWRITE_DIVERGENCE)
      | None => (None, Some HOSTCALL_MARSHALLING_FALLBACK_OPCODE_SHAPE_MISS)
      end
  end.

(** The artifacts, given the two measured latencies and the report of
    [hostcall_superinstruction_telemetry]. *)
Definition artifacts (engine : bool) (baseline_us fast_us : Z) (report : HostcallSuperinstructionTelemetry)
    (method : Str) (params : Json) (opcode : option CommonHostcallOpcode) : HostcallMarshallingArtifacts :=
  let '(fast_hashes, fallback_reason) := fast_candidate method params opcode in
  let decision := select_plan engine baseline_plan (match fast_hashes with Some _ => [fast_plan] | None => [] end) in
  match bool_decide (rp_kind (rd_selected decision) = FastOpcodeFusion), fast_hashes with
  | true, Some (params_hash, args_shape_hash) =>
      mkArtifacts params_hash args_shape_hash
        (mkMarshallingTelemetry HOSTCALL_MARSHALLING_PATH_FAST_OPCODE fast_us fallback_reason 0
           (Some (rp_rule_id (rd_selected decision))) (rd_expected_cost_delta decision)
           (i64_saturating_sub (width_units baseline_us) (width_units fast_us)) None report)
  | _, _ =>
      mkArtifacts (hostcall_params_hash method params) (hostcall_params_shape_hash method params)
        (mkMarshallingTelemetry
           (match opcode with Some _ => HOSTCALL_MARSHALLING_PATH_CANONICAL_FALLBACK | None => HOSTCALL_MARSHALLING_PATH_CANONICAL_GENERIC end)
           baseline_us fallback_reason 0 None (rd_expected_cost_delta decision) 0 (rd_fallback_reason decision) report)
  end.

Definition marshal (engine : bool) (baseline_us fast_us : Z) (poisoned : bool) (method : Str) (params : Json)
    (opcode : option CommonHostcallOpcode) (state : HostcallSuperinstructionRuntimeState) (jit : TraceJitCompiler)
    : HostcallMarshallingArtifacts * HostcallSuperinstructionRuntimeState * TraceJitCompiler :=
  let '(report, state, jit) := hostcall_superinstruction_telemetry opcode poisoned state jit in
  (artifacts engine baseline_us fast_us report method params opcode, state, jit).

End Marshalling.

(** ** The rewrite engine takes the one cheapest rewrite *)

(** What the loop knows after the candidates [seen]. *)
Definition considered (baseline : HostcallRewritePlan) (seen : list HostcallRewritePlan)
    (st : option HostcallRewritePlan * bool) : Prop :=
  match st with
  | (None, ambiguous) => ambiguous = false ∧ ∀ q, q ∈ seen → rp_estimated_cost baseline ≤ rp_estimated_cost q
  | (Some b, ambiguous) =>
      b ∈ seen ∧ rp_estimated_cost b < rp_estimated_cost baseline ∧
      (∀ q, q ∈ seen → rp_estimated_cost b ≤ rp_estimated_cost q) ∧
      (ambiguous = true ↔ ∃ q, q ∈ seen ∧ rp_estimated_cost q = rp_estimated_cost b ∧ same_rewrite q b = false)
  end.

Lemma same_rewrite_refl a : same_rewrite a a = true.
Proof. unfold same_rewrite. rw !bool_decide_true //. Qed.

(** A candidate that does not tie with the best changes no tie. *)
Lemma tied_snoc seen b c : (rp_estimated_cost c = rp_estimated_cost b → same_rewrite c b ≠ false) →
  (∃ q, q ∈ seen ∧ rp_estimated_cost q = rp_estimated_cost b ∧ same_rewrite q b = false) ↔
  (∃ q, q ∈ seen ++ [c] ∧ rp_estimated_cost q = rp_estimated_cost b ∧ same_rewrite q b = false).
Proof.
  intros Hc. split; intros (q & Hq & Hs).
  - exists q. rw elem_of_app. auto.
  - apply elem_of_app in Hq as [Hq| ->%list_elem_of_singleton]; [by exists q|]. destruct Hs as [E Hs]. by destruct (Hc E).
Qed.

Lemma consider_candidate_step baseline seen st candidate : considered baseline seen st →
  considered baseline (seen ++ [candidate]) (consider_candidate baseline st candidate).
Proof.
  assert (∀ q, q ∈ seen ++ [candidate] ↔ q ∈ seen ∨ q = candidate) as He.
  { intros q. rw elem_of_app list_elem_of_singleton //. }
  destruct st as [[b|] ambiguous]; unfold consider_candidate; simpl.
  - intros (Hin & Hb & Hmin & Ha).
    destruct (Z.leb_spec (rp_estimated_cost baseline) (rp_estimated_cost candidate)); simpl.
    { split_and!; [set_solver|done|intros q [Hq%Hmin| ->]%He; lia|]. rw Ha. apply tied_snoc. lia. }
    destruct (Z.ltb_spec (rp_estimated_cost candidate) (rp_estimated_cost b)); simpl.
    { split_and!; [set_solver|done|intros q [Hq%Hmin| ->]%He; lia|]. split; [done|].
      intros (q & [Hq%Hmin| ->]%He & E & Hs); [lia|]. rw same_rewrite_refl in Hs. done. }
    destruct (Z.eqb_spec (rp_estimated_cost candidate) (rp_estimated_cost b)) as [E|]; simpl.
    2:{ split_and!; [set_solver|done|intros q [Hq%Hmin| ->]%He; lia|]. rw Ha. apply tied_snoc. lia. }
    destruct (same_rewrite candidate b) eqn:Hs; simpl.
    + split_and!; [set_solver|done|intros q [Hq%Hmin| ->]%He; lia|]. rw Ha. apply tied_snoc. congruence.
    + split_and!; [set_solver|done|intros q [Hq%Hmin| ->]%He; lia|]. split; [|done]. exists candidate. set_solver.
  - intros [-> Hall]. destruct (Z.leb_spec (rp_estimated_cost baseline) (rp_estimated_cost candidate)); simpl.
    { split; [done|]. intros q [Hq%Hall| ->]%He; lia. }
    split_and!; [set_solver|done|intros q [Hq%Hall| ->]%He; lia|].
    split; [done|]. intros (q & [Hq%Hall| ->]%He & E & Hs); [lia|]. rw same_rewrite_refl in Hs. done.
Qed.

Lemma consider_candidates baseline candidates : ∀ seen st, considered baseline seen st →
  considered baseline (seen ++ candidates) (fold_left (consider_candidate baseline) candidates st).
Proof.
  induction candidates as [|c l IH]; intros seen st H; cbn [fold_left]; [rw app_nil_r //|].
  rw cons_middle app_assoc. apply IH, consider_candidate_step, H.
Qed.

(** A candidate cheaper than the baseline, and than every other rewrite. *)
Definition cheapest_rewrite (baseline : HostcallRewritePlan) (candidates : list HostcallRewritePlan) (best : HostcallRewritePlan) : Prop :=
  best ∈ candidates ∧ rp_estimated_cost best < rp_estimated_cost baseline ∧
  ∀ q, q ∈ candidates → rp_estimated_cost best < rp_estimated_cost q ∨
    rp_estimated_cost q = rp_estimated_cost best ∧ rp_kind q = rp_kind best ∧ rp_rule_id q = rp_rule_id best.

Lemma same_rewrite_true a b : same_rewrite a b = true ↔ rp_kind a = rp_kind b ∧ rp_rule_id a = rp_rule_id b.
Proof. unfold same_rewrite. rw andb_true_iff !bool_decide_eq_true //. Qed.

Lemma rewrite_select_cases enabled baseline candidates :
  (∃ best, enabled = true ∧ cheapest_rewrite baseline candidates best ∧
     select_plan enabled baseline candidates
       = mkRewriteDecision best (rp_estimated_cost baseline - rp_estimated_cost best) None) ∨
  ∃ reason, (enabled = false ∨ ¬ ∃ best, cheapest_rewrite baseline candidates best) ∧
    select_plan enabled baseline candidates = mkRewriteDecision baseline 0 (Some reason).
Proof.
  unfold select_plan. destruct enabled; simpl; [|right; eexists; split; [by left|done]].
  pose proof (consider_candidates baseline candidates [] (None, false)) as H. simpl in H.
  specialize (H ltac:(split; [done|by intros q ?%not_elem_of_nil])).
  destruct (fold_left _ _ _) as [[b|] ambiguous].
  - destruct H as (Hin & Hb & Hmin & Ha). destruct ambiguous.
    + right. eexists. split; [right|done]. intros (best & Hi & Hc & Hall).
      destruct (proj1 Ha eq_refl) as (q & Hq & E & Hs). pose proof (Hall _ Hq) as Hbq. pose proof (Hall _ Hin) as Hbb.
      specialize (Hmin _ Hi). destruct Hbq as [?|(? & K1 & K2)]; [destruct Hbb; lia|].
      destruct Hbb as [?|(? & K3 & K4)]; [lia|].
      assert (same_rewrite q b = true) by (apply same_rewrite_true; split; congruence). congruence.
    + left. exists b. split_and!; [done| |done]. split_and!; [done..|]. intros q Hq. specialize (Hmin _ Hq).
      destruct (decide (rp_estimated_cost q = rp_estimated_cost b)) as [E|]; [|lia]. right. split; [done|].
      apply same_rewrite_true. apply not_false_is_true. intros Hs. assert (false = true); [|done].
      apply Ha. by exists q.
  - right. eexists. split; [right|done]. destruct H as [_ H]. intros (best & Hi & Hc & _). specialize (H _ Hi). lia.
Qed.

(** ** Canonical bytes *)

(** How deep the containers of a value nest. *)
Fixpoint json_height (value : Json) : nat :=
  match value with
  | JsonArray items => S (list_max (List.map json_height items))
  | JsonObject map => S (list_max (List.map (λ kv : Str * Json, json_height kv.2) map))
  | _ => O
  end.

Lemma assoc_fmap {A B} (f : A → B) key (m : list (Str * A)) :
  assoc key (List.map (λ kv, (kv.1, f kv.2)) m) = f <$> assoc key m.
Proof.
  unfold assoc. induction m as [|[k v] m IH]; simpl; [done|]. case_decide; [done|].
  destruct (list_find _ m) as [[]|], (list_find _ (List.map _ m)) as [[]|]; simpl in *; congruence.
Qed.

Lemma assoc_Some {A} key (m : list (Str * A)) v : NoDup m.*1 → assoc key m = Some v ↔ (key, v) ∈ m.
Proof.
  unfold assoc. induction m as [|[k w] m IH]; simpl; intros Hn; [split; [done|by intros ?%not_elem_of_nil]|].
  apply NoDup_cons in Hn as [Hk Hn]. case_decide as E; simpl in *; subst.
  - split; [intros [= ->]; left|]. intros [[= ->]|Hin]%elem_of_cons; [done|].
    destruct Hk. by apply (list_elem_of_fmap_2 fst) in Hin.
  - rw elem_of_cons -(IH Hn). destruct (list_find _ m) as [[? []]|]; simpl; naive_solver.
Qed.

Lemma assoc_perm {A} key (m n : list (Str * A)) : NoDup m.*1 → Permutation m n → assoc key m = assoc key n.
Proof.
  intros Hn Hp. apply option_eq. intros v. rw !assoc_Some //; [rw Hp //|by rw -Hp].
Qed.

#[global] Instance key_str_le_antisymm : AntiSymm (=) key_str_le.
Proof. intros a b. apply str_le_antisym. Qed.
#[global] Instance key_str_le_total : Total key_str_le.
Proof. intros a b. apply str_le_total. Qed.
#[global] Instance key_str_le_trans : Transitive key_str_le.
Proof. intros a b c. apply str_le_trans. Qed.

Lemma sort_keys_perm k l : Permutation k l → sort_keys k = sort_keys l.
Proof.
  intros Hp. unfold sort_keys. apply (StronglySorted_unique key_str_le); [by apply (StronglySorted_merge_sort key_str_le); apply _..|].
  rw !merge_sort_Permutation //.
Qed.

Section Canonical.
Context (serde_escape : Str → Str).

Lemma omap_ext_in {A B} (f g : A → option B) (l : list A) : (∀ x, x ∈ l → f x = g x) → omap f l = omap g l.
Proof.
  induction l as [|a l IH]; intros H; [done|]. cbn. rw (H a); [|left]. rw IH //. intros x Hx. apply H. by right.
Qed.

Lemma omap_fmap_in {A B C} (f : A → option C) (g : A → option B) (h : B → C) (l : list A) :
  (∀ x, x ∈ l → f x = h <$> g x) → omap f l = h <$> omap g l.
Proof.
  induction l as [|a l IH]; intros H; [done|]. cbn. rw (H a); [|left].
  rw IH; [|intros x Hx; apply H; by right]. by destruct (g a).
Qed.

Lemma Forall2_keys {A} (P : A → A → Prop) (m n : list (Str * A)) :
  Forall2 (λ a b, a.1 = b.1 ∧ P a.2 b.2) m n → m.*1 = n.*1.
Proof. induction 1 as [|a b m n [E _] _ IH]; [done|]. cbn. by rw E IH. Qed.

(** The walk does not see the order of members. *)
Lemma hash_depth_equiv leaf v w : json_wf v → json_wf w → json_equiv v w → ∀ depth,
  hash_depth serde_escape leaf depth v = hash_depth serde_escape leaf depth w.
Proof.
  revert w. induction v as [| | | |l IH|m IH] using Json_ind'; intros w Hv Hw He depth; inversion He as [| | | |? k Hlk|? n n' Hperm Hmn]; subst; try done.
  - cbn [hash_depth]. case_match; [done|]. do 3 f_equal.
    inversion Hv as [| | | |? Hl|]; subst. inversion Hw as [| | | |? Hk|]; subst.
    clear Hv Hw He. revert Hl Hk IH. induction Hlk; intros Hl Hk IH; [done|]. cbn.
    apply Forall_cons in Hl as [? ?], Hk as [? ?], IH as [IHx ?]. f_equal; auto.
  - cbn [hash_depth]. case_match; [done|]. do 2 f_equal.
    inversion Hv as [| | | | |? Hm Hfm]; subst. inversion Hw as [| | | | |? Hn Hfn]; subst.
    pose proof (Forall2_keys _ _ _ Hmn) as Hkeys.
    rw (sort_keys_perm m.*1 n.*1); [|rw Hkeys Hperm //]. f_equal. apply omap_ext_in. intros key _.
    rw !assoc_fmap (assoc_perm key n n') //. 
    assert (Forall (λ kv, json_wf kv.2) n') as Hfn'; [by rw -Hperm|].
    assert (hash_depth serde_escape leaf (S depth) <$> assoc key m = hash_depth serde_escape leaf (S depth) <$> assoc key n') as ->; [|done].
    rw -!assoc_fmap. f_equal. clear -IH Hfm Hfn' Hmn. induction Hmn as [|a b m n' [E Hab] _ IHl]; [done|]. cbn.
    apply Forall_cons in IH as [IHa IH], Hfm as [? ?], Hfn' as [? ?]. rw E (IHa b.2) // IHl //.
Qed.

Lemma assoc_elem {A} key (m : list (Str * A)) v : assoc key m = Some v → (key, v) ∈ m.
Proof.
  unfold assoc. intros ([i [k w]] & (Hi & Hk & _)%list_find_Some & Hv)%fmap_Some. simpl in *. subst.
  by eapply list_elem_of_lookup_2.
Qed.

Lemma height_item l v : v ∈ l → (S (json_height v) ≤ json_height (JsonArray l))%nat.
Proof.
  intros Hv. cbn [json_height]. apply le_n_S.
  assert (Forall (λ k, k ≤ list_max (List.map json_height l))%nat (List.map json_height l)) as H by by apply list_max_le.
  rewrite ->Forall_forall in H. apply H. by apply list_elem_of_fmap_2.
Qed.

Lemma height_member m (kv : Str * Json) : kv ∈ m → (S (json_height kv.2) ≤ json_height (JsonObject m))%nat.
Proof.
  intros Hv. cbn [json_height]. apply le_n_S. set (l := List.map _ m).
  assert (Forall (λ k, k ≤ list_max l)%nat l) as H by by apply list_max_le.
  rewrite ->Forall_forall in H. apply H. by apply (list_elem_of_fmap_2 (λ kv : Str * Json, json_height kv.2)).
Qed.

(** A value that fits is fed the same at every depth where it fits. *)
Lemma hash_depth_shift leaf v : ∀ d n, (d ≤ 128)%nat → (d + json_height v ≤ 128)%nat → (n + json_height v ≤ 128)%nat →
  hash_depth serde_escape leaf d v = hash_depth serde_escape leaf n v.
Proof.
  induction v as [| | | |l IH|m IH] using Json_ind'; intros d n Hd0 Hd Hn; cbn [hash_depth];
    (rw (proj2 (Nat.ltb_ge _ _)); [|lia]); (rw (proj2 (Nat.ltb_ge _ _)); [|lia]); try done.
  - do 3 f_equal. apply map_ext_in. intros v Hv. rewrite ->Forall_forall in IH.
    apply list_elem_of_In in Hv. pose proof (height_item _ _ Hv). apply IH; [done|lia..].
  - do 3 f_equal. apply omap_ext_in. intros key _. rw !assoc_fmap.
    destruct (assoc key m) as [v|] eqn:Hv; [|done]. apply assoc_elem in Hv. simpl.
    rewrite ->Forall_forall in IH. pose proof (height_member _ _ Hv). simpl in *.
    rw (IH _ Hv (S d) (S n)); simpl; [done|lia..].
Qed.

Lemma join_comma_utf8 l : join_comma (utf8_encode <$> l) = utf8_encode (join_comma l).
Proof.
  induction l as [|a l IH]; [done|]. destruct l as [|b l]; [done|].
  change (join_comma (utf8_encode <$> (a :: b :: l))) with (utf8_encode a ++ str "," ++ join_comma (utf8_encode <$> (b :: l))).
  change (join_comma (a :: b :: l)) with (a ++ str "," ++ join_comma (b :: l)).
  rw IH. unfold utf8_encode. rw !bind_app //.
Qed.

Lemma escaped_is_written s : hash_json_escaped_str serde_escape s = utf8_encode (write_json_escaped_str serde_escape s).
Proof.
  unfold hash_json_escaped_str, write_json_escaped_str. case_match; [|done]. unfold utf8_encode. rw !bind_app //.
Qed.

Lemma hash_is_written v : ∀ d, (d + json_height v ≤ 128)%nat →
  hash_depth serde_escape (json_leaf serde_escape) d v = utf8_encode (write_canonical_json serde_escape v).
Proof.
  induction v as [|b| |s|l IH|m IH] using Json_ind'; intros d Hd; cbn [hash_depth];
    (rw (proj2 (Nat.ltb_ge _ _)); [|lia]); try done.
  - by destruct b.
  - apply escaped_is_written.
  - cbn [write_canonical_json]. rw !utf8_encode_app -join_comma_utf8. do 3 f_equal.
    transitivity (List.map (λ v, utf8_encode (write_canonical_json serde_escape v)) l); [|symmetry; apply map_map].
    apply map_ext_in. intros v Hv%list_elem_of_In. rewrite ->Forall_forall in IH. pose proof (height_item _ _ Hv).
    apply IH; [done|lia].
  - cbn [write_canonical_json]. rw !utf8_encode_app -join_comma_utf8. do 3 f_equal. apply omap_fmap_in. intros key _.
    rw !assoc_fmap. destruct (assoc key m) as [v|] eqn:Hv; [|done]. apply assoc_elem in Hv. simpl.
    rewrite ->Forall_forall in IH. pose proof (height_member _ _ Hv). simpl in *.
    rw (IH _ Hv (S d)) /=; [|lia]. rw escaped_is_written !utf8_encode_app //.
Qed.
End Canonical.

(** ** The fast path feeds what the walk feeds *)

Lemma assoc_here {A} key (v : A) m : assoc key ((key, v) :: m) = Some v.
Proof. unfold assoc. simpl. rw decide_True //. Qed.

Lemma assoc_next {A} key k (v : A) m : k ≠ key → assoc key ((k, v) :: m) = assoc key m.
Proof. intros. unfold assoc. simpl. rw decide_False //. by destruct (list_find _ m) as [[]|]. Qed.

Lemma input_not_name : str "input" ≠ str "name".
Proof. vm_compute. congruence. Qed.

(** The payloads the fast path of an opcode is made for. *)
Definition fast_shape (opcode : CommonHostcallOpcode) (params : Json) : Prop :=
  match hostcall_tool_opcode_name opcode with
  | Some name => ∃ m input, params = JsonObject m ∧ (json_height input ≤ 127)%nat ∧
      Permutation m [(str "input", input); (str "name", JsonString name)]
  | None => match hostcall_opcode_param_op opcode with
            | Some op => params = JsonObject [(str "op", JsonString op)]
            | None => False
            end
  end.

Lemma tool_payload_lookup m input name : Permutation m [(str "input", input); (str "name", JsonString name)] →
  (∀ key, assoc key m = assoc key [(str "input", input); (str "name", JsonString name)]) ∧
  sort_keys m.*1 = [str "input"; str "name"].
Proof.
  intros Hp. split; [intros key; apply assoc_perm; [|done]|].
  - rw Hp. cbn. repeat constructor; [|by intros ?%not_elem_of_nil]. by intros ?%list_elem_of_singleton%input_not_name.
  - rw (sort_keys_perm m.*1 [str "input"; str "name"]); [done|rw Hp //].
Qed.

Section Fast.
Context (sha256 : ByteStr → ByteStr) (serde_escape : Str → Str).

Lemma tool_payload_bytes leaf m input name : (json_height input ≤ 127)%nat →
  Permutation m [(str "input", input); (str "name", JsonString name)] →
  hash_depth serde_escape leaf 0 (JsonObject m) =
    str "{" ++ hash_json_escaped_str serde_escape (str "input") ++ str ":" ++ hash_depth serde_escape leaf 0 input ++
    str "," ++ hash_json_escaped_str serde_escape (str "name") ++ str ":" ++ leaf (JsonString name) ++ str "}".
Proof.
  intros Hh [Ha Hk]%tool_payload_lookup. rw (hash_depth_shift serde_escape leaf input 0 1); [|lia..].
  cbn [hash_depth]. rw Hk. cbn [Nat.ltb Nat.leb omap list_omap]. rw !assoc_fmap !Ha.
  rw assoc_here (assoc_next _ _ _ _ input_not_name) assoc_here.
  cbn [fmap option_fmap option_map join_comma hash_depth Nat.ltb Nat.leb]. rw -!app_assoc //.
Qed.

Lemma fast_path_agrees method params opcode : fast_shape opcode params →
  hash_fast_opcode sha256 serde_escape method params opcode =
    Some (hostcall_params_hash sha256 serde_escape method params, hostcall_params_shape_hash sha256 serde_escape method params).
Proof.
  unfold fast_shape, hash_fast_opcode. destruct (hostcall_tool_opcode_name opcode) as [name|].
  - intros (m & input & -> & Hh & Hp). unfold hash_fast_tool_payload.
    assert (len m = 2) as -> by (unfold len; rw (Permutation_length Hp) //).
    destruct (tool_payload_lookup _ _ _ Hp) as [Ha _].
    change (json_lookup ?k m) with (assoc k m). rw !Ha assoc_here (assoc_next _ _ _ _ input_not_name) assoc_here. simpl.
    unfold token_eq_ascii_folded. rw (proj2 (iter_eq_spec _ _) eq_refl) /=.
    unfold hostcall_params_hash, hostcall_params_shape_hash, hash_canonical_json, hash_canonical_shape.
    rw !(tool_payload_bytes _ _ _ _ Hh Hp) //.
  - destruct (hostcall_opcode_param_op opcode) as [op|]; [|done]. intros ->. unfold hash_fast_op_only_payload.
    change (json_lookup ?k ?m) with (assoc k m). rw assoc_here /=. unfold token_eq_ascii_folded.
    rw (proj2 (iter_eq_spec _ _) eq_refl) /=.
    unfold hostcall_params_hash, hostcall_params_shape_hash, hash_canonical_json, hash_canonical_shape.
    cbn [hash_depth Nat.ltb Nat.leb List.map fmap list_fmap fst]. 
    change (sort_keys [str "op"]) with [str "op"]. cbn [omap list_omap]. rw assoc_here. cbn [join_comma]. by rw -!app_assoc.
Qed.
End Fast.

Lemma fast_candidate_Some sha256 serde_escape method params opcode hashes :
  (fast_candidate sha256 serde_escape method params opcode).1 = Some hashes ↔
  hashes = (hostcall_params_hash sha256 serde_escape method params, hostcall_params_shape_hash sha256 serde_escape method params) ∧
  ∃ op, opcode = Some op ∧ hash_fast_opcode sha256 serde_escape method params op = Some hashes.
Proof.
  unfold fast_candidate. destruct opcode as [op|]; [|naive_solver].
  destruct (hash_fast_opcode _ _ _ _ op) as [[h1 h2]|] eqn:Hf; [|naive_solver].
  destruct (bool_decide _) eqn:E1; simpl; [|apply bool_decide_eq_false in E1; naive_solver].
  destruct (bool_decide (h2 = _)) eqn:E2; simpl; [|apply bool_decide_eq_false in E2; naive_solver].
  apply bool_decide_eq_true in E1. apply bool_decide_eq_true in E2. subst. naive_solver.
Qed.

Lemma artifacts_cases sha256 serde_escape engine b f report method params opcode :
  let a := artifacts sha256 serde_escape engine b f report method params opcode in
  ma_params_hash a = hostcall_params_hash sha256 serde_escape method params ∧
  ma_args_shape_hash a = hostcall_params_shape_hash sha256 serde_escape method params ∧
  (mt_path (ma_telemetry a) = HOSTCALL_MARSHALLING_PATH_FAST_OPCODE ↔
   engine = true ∧ is_Some (fast_candidate sha256 serde_escape method params opcode).1).
Proof.
  cbv zeta. unfold artifacts. pose proof (fast_candidate_Some sha256 serde_escape method params opcode) as Hf.
  assert (∀ o : option CommonHostcallOpcode,
    match o with Some _ => HOSTCALL_MARSHALLING_PATH_CANONICAL_FALLBACK | None => HOSTCALL_MARSHALLING_PATH_CANONICAL_GENERIC end
      ≠ HOSTCALL_MARSHALLING_PATH_FAST_OPCODE) as Hp by (intros []; vm_compute; congruence).
  destruct (fast_candidate sha256 serde_escape method params opcode) as [[[h1 h2]|] reason]; simpl in *.
  - destruct (proj1 (Hf (h1, h2)) eq_refl) as [[= -> ->] _]. destruct engine; simpl; [|naive_solver].
    split_and!; by eauto.
  - destruct engine; simpl; (split_and!; [done|done|]); split; [by intros ?%Hp|by intros [_ []]|by intros ?%Hp|by intros [? _]].
Qed.

(** ** Claims on hashing *)

(** What is hashed is the canonical text.  The bytes fed to SHA-256 for a
    value that nests at most 128 deep are the UTF-8 encoding of the canonical
    JSON text, members sorted by key; and two well-formed values that differ
    only in the order of members, at any depth, are fed the same bytes, for
    the value and for its shape. *)
Theorem canonical_bytes_are_the_text serde_escape v w :
  ((json_height v ≤ 128)%nat →
     hash_canonical_json serde_escape v = utf8_encode (write_canonical_json serde_escape v)) ∧
  (json_wf v → json_wf w → json_equiv v w →
     hash_canonical_json serde_escape v = hash_canonical_json serde_escape w ∧
     hash_canonical_shape serde_escape v = hash_canonical_shape serde_escape w).
Proof.
  split; [intros; by apply hash_is_written|]. intros Hv Hw He. unfold hash_canonical_json, hash_canonical_shape.
  split; by apply hash_depth_equiv.
Qed.

(** C31: the fast path is transparent.  Whatever the opcode, the payload, the
    engine and the latencies, marshalling returns the canonical hashes.  It
    takes the fast path exactly when the rewrite engine is on and the opcode's
    fast hashes equal the canonical ones, which they do for every payload of
    the opcode's shape: for a tool, exactly the members [name], spelled as the
    opcode spells it, and [input], nesting at most 127 deep, in either order;
    for a query, exactly the member [op]. *)
Theorem marshalling_is_transparent sha256 serde_escape engine b f poisoned method params opcode state jit :
  let a := (marshal sha256 serde_escape engine b f poisoned method params opcode state jit).1.1 in
  let canonical := (hostcall_params_hash sha256 serde_escape method params,
                    hostcall_params_shape_hash sha256 serde_escape method params) in
  (ma_params_hash a, ma_args_shape_hash a) = canonical ∧
  (mt_path (ma_telemetry a) = HOSTCALL_MARSHALLING_PATH_FAST_OPCODE ↔
   engine = true ∧ ∃ op, opcode = Some op ∧ hash_fast_opcode sha256 serde_escape method params op = Some canonical) ∧
  ∀ op, fast_shape op params → hash_fast_opcode sha256 serde_escape method params op = Some canonical.
Proof.
  cbv zeta. unfold marshal. destruct (hostcall_superinstruction_telemetry opcode poisoned state jit) as [[report ?] ?]. simpl.
  destruct (artifacts_cases sha256 serde_escape engine b f report method params opcode) as (-> & -> & ->).
  split_and!; [done| |intros op; apply fast_path_agrees].
  apply and_iff_compat_l. split.
  - intros [hashes Hf]. apply fast_candidate_Some in Hf as [-> Hf]. done.
  - intros Hf. eexists. apply fast_candidate_Some. split; [reflexivity|exact Hf].
Qed.

(** ** The JIT tier of the report *)

(** The process: one runtime state behind a lock, one JIT compiler per thread,
    made on first use. *)
Record ReportProcess := mkProcess {
  rp_state : HostcallSuperinstructionRuntimeState;
  rp_jits : gmap nat TraceJitCompiler;
}.

Definition ReportProcess_new (env : Str → option Str) : ReportProcess :=
  mkProcess (mkRuntime (Compiler_from_env env) [] [] 0) ∅.

(** A call on a thread, with its opcode, and whether the lock is poisoned. *)
Definition report_call (env : Str → option Str) (p : ReportProcess) (call : nat * option CommonHostcallOpcode * bool)
    : HostcallSuperinstructionTelemetry * ReportProcess :=
  let '(thread, opcode, poisoned) := call in
  let jit := default (TraceJitCompiler_new (TraceJitConfig_from_env env)) (rp_jits p !! thread) in
  let '(report, state, jit) := hostcall_superinstruction_telemetry opcode poisoned (rp_state p) jit in
  (report, mkProcess state (<[thread := jit]> (rp_jits p))).

Fixpoint report_run (env : Str → option Str) (p : ReportProcess) (calls : list (nat * option CommonHostcallOpcode * bool))
    : list HostcallSuperinstructionTelemetry :=
  match calls with
  | [] => []
  | call :: calls' => let '(report, p') := report_call env p call in report :: report_run env p' calls'
  end.

Definition well_supported (plan : HostcallSuperinstructionPlan) : Prop := 2 ≤ p_support_count plan.

(** Every stub is that of a plan with at least two sightings. *)
Definition stubs_supported (jit : TraceJitCompiler) : Prop :=
  ∀ id c, cache jit !! id = Some c → ∃ plan, c = from_plan plan ∧ well_supported plan.

Definition no_jit (r : HostcallSuperinstructionTelemetry) : Prop := sr_jit_hit r = false ∧ sr_jit_cost_delta r = 0.

Lemma record_supported plan jit : well_supported plan → stubs_supported jit → stubs_supported (record_plan_execution plan jit).2.
Proof.
  intros Hp Hs. unfold record_plan_execution. case_match; [done|]. case_match; [done|]. case_match; [|done]. simpl.
  set (jit' := mkJit _ _ _ _ _). destruct (compile_trace_spec plan jit') as (kept & t & -> & Hk & _).
  intros id c. simpl. intros [[<- <-]|[_ Hc]]%lookup_insert_Some; [by exists plan|].
  eapply Hs, lookup_weaken; [exact Hc|done].
Qed.

Lemma dispatch_cache id trace ctx jit : cache (try_jit_dispatch id trace ctx jit).2 ⊆ cache jit.
Proof.
  unfold try_jit_dispatch, record_guard_failure. repeat case_match; simplify_eq/=; try done; apply delete_subseteq.
Qed.

Lemma dispatch_never_hits id trace jit : stubs_supported jit →
  let r := (try_jit_dispatch id trace GuardContext_default jit).1 in jr_jit_hit r = false ∧ jr_cost_delta r = 0.
Proof.
  intros Hs. simpl. assert (jr_jit_hit (try_jit_dispatch id trace GuardContext_default jit).1 = false) as Hf.
  { apply not_true_is_false. intros (_ & c & (plan & -> & Hp)%Hs & (_ & _ & Hg)%plan_guards)%dispatch_hit_iff.
    unfold well_supported in Hp. simpl in Hg. pose proof (Z.div_le_lower_bound (p_support_count plan) 2 1). lia. }
  split; [done|]. revert Hf. unfold try_jit_dispatch. repeat case_match; done.
Qed.

Section Report.
Context (plans : list HostcallSuperinstructionPlan) (recent_window : list Str).
Hypothesis Hplans : Forall well_supported plans.

Definition quiet (st : option HostcallSuperinstructionTelemetry * TraceJitCompiler) : Prop :=
  stubs_supported st.2 ∧ from_option no_jit True st.1.

Lemma try_start_quiet st start : quiet st → quiet (try_start plans recent_window st start).
Proof.
  destruct st as [best jit]. intros [Hs Hb]. unfold try_start. case_match; [done|]. case_match; [done|].
  destruct (s_selected_plan_id _) as [pid|]; [|done].
  destruct (list_find _ plans) as [[i plan]|] eqn:Hfind; [|done].
  apply list_find_Some in Hfind as (Hi & _ & _). assert (well_supported plan) as Hp by by eapply Forall_lookup_1.
  pose proof (record_supported _ _ Hp Hs) as Hs'. set (jit' := (record_plan_execution plan jit).2) in *.
  pose proof (dispatch_never_hits pid (drop start recent_window) jit' Hs') as Hn.
  pose proof (dispatch_cache pid (drop start recent_window) GuardContext_default jit') as Hc.
  destruct (try_jit_dispatch _ _ _ _) as [r jit'']. split; [|done]. simpl in *.
  intros id c Hid. eapply Hs', lookup_weaken; [exact Hid|done].
Qed.

Lemma try_starts_quiet starts : ∀ st, quiet st → quiet (fold_left (try_start plans recent_window) starts st).
Proof. induction starts as [|s l IH]; intros st Hst; [done|]. cbn [fold_left]. by apply IH, try_start_quiet. Qed.
End Report.

(** What every state of the process satisfies. *)
Definition process_ok (p : ReportProcess) : Prop :=
  2 ≤ sc_min_support (rt_compiler (rp_state p)) ∧ Forall well_supported (rt_plans (rp_state p)) ∧
  map_Forall (λ _, stubs_supported) (rp_jits p).

Lemma from_env_supported env : 2 ≤ sc_min_support (Compiler_from_env env).
Proof. unfold Compiler_from_env. simpl. case_match; [lia|vm_compute; congruence]. Qed.

Lemma observe_supported opcode state : 2 ≤ sc_min_support (rt_compiler state) → Forall well_supported (rt_plans state) →
  Forall well_supported (rt_plans (observe_opcode opcode state)).
Proof.
  intros Hm Hp. unfold observe_opcode. simpl. case_match; [|done]. rw Forall_forall. intros plan.
  intros [_ (w & n & -> & _ & _ & _ & Hn & _)]%compiled_members. unfold well_supported. simpl. lia.
Qed.

Lemma report_call_ok env p call : process_ok p → no_jit (report_call env p call).1 ∧ process_ok (report_call env p call).2.
Proof.
  destruct call as [[thread opcode] poisoned]. intros (Hm & Hp & Hj). unfold report_call.
  set (jit := default _ _). assert (stubs_supported jit) as Hjit.
  { unfold jit. destruct (rp_jits p !! thread) as [j|] eqn:E; simpl; [by eapply (Hj thread)|].
    intros id c. simpl. rw lookup_empty //. }
  unfold hostcall_superinstruction_telemetry.
  destruct opcode as [opcode|]; [|split; [done|split_and!; [done|done|by apply map_Forall_insert_2]]].
  destruct poisoned; [split; [done|split_and!; [done|done|by apply map_Forall_insert_2]]|].
  destruct (negb _); [split; [done|split_and!; [done|done|by apply map_Forall_insert_2]]|].
  pose proof (observe_supported opcode _ Hm Hp) as Hp'.
  set (state := observe_opcode opcode (rp_state p)) in *.
  destruct (_ <? 2); [split; [done|split_and!; [done|done|by apply map_Forall_insert_2]]|].
  set (recent := reverse _). pose proof (try_starts_quiet _ recent Hp' (seq 0 (length recent - 1)) (None, jit)) as Hq.
  destruct (fold_left _ _ _) as [[found|] jit']; destruct Hq as [Hj' Hf]; try done;
    (split; [done|split_and!; [done|done|by apply map_Forall_insert_2]]).
Qed.

(** The JIT tier never fires.  The report dispatches with a default guard
    context, whose support count is zero, while every plan was seen at least
    twice, so that the guard on half its support fails: for every environment
    and every sequence of calls on any threads, no report has a JIT hit or a
    JIT saving. *)
Theorem jit_tier_never_fires env calls :
  Forall (λ r, sr_jit_hit r = false ∧ sr_jit_cost_delta r = 0) (report_run env (ReportProcess_new env) calls).
Proof.
  assert (process_ok (ReportProcess_new env)) as Hok by (split_and!; [apply from_env_supported|constructor|apply map_Forall_empty]).
  revert Hok. generalize (ReportProcess_new env) as p. induction calls as [|call calls IH]; intros p Hok; [constructor|].
  cbn [report_run]. destruct (report_call_ok env p call Hok) as [Hn Hok']. destruct (report_call env p call) as [r p'].
  constructor; [exact Hn|by apply IH].
Qed.

(** The reports do select plans: alternating reads and writes are fused from
    the sixth call on. *)
Example alternation_is_fused :
  (λ r, bool_decide (is_Some (sr_plan_id r))) <$>
    report_run (λ _, None) (ReportProcess_new (λ _, None))
      (concat (replicate 4 [(0%nat, Some ToolRead, false); (0%nat, Some ToolWrite, false)]))
  = [false; false; false; false; false; true; true; true].
Proof. vm_compute. reflexivity. Qed.
