(* ===== verification/Amac.v ===== *)
(** * Batch dispatch of drained hostcalls ([src/hostcall_amac.rs],
    [src/extensions.rs])

    The executor that groups a batch of hostcall requests into runs of one
    kind, sinking log requests behind the run they arrive in, decides per group
    whether interleaving would pay, from an average of stalls, and the loop
    that dispatches the batch. *)

From S2P Require Import Prelude Text Json HostcallProtocol.

Definition AMAC_MIN_BATCH_SIZE : Z := 4.
Definition AMAC_MAX_INTERLEAVE_WIDTH : Z := 16.
Definition AMAC_STALL_THRESHOLD_NS : Z := 100000.
Definition EMA_ALPHA : Z := 51.
Definition EMA_SCALE : Z := 256.
Definition AMAC_STALL_RATIO_THRESHOLD : Z := 200.
Definition AMAC_STALL_RATIO_SATURATED : Z := 800.
Definition TELEMETRY_WINDOW_SIZE : Z := 64.

(** ** Requests ([src/extensions_js.rs]) and their groups *)

Inductive HostcallKind :=
| KindTool (name : Str)
| KindExec (cmd : Str)
| KindHttp
| KindSession (op : Str)
| KindUi (op : Str)
| KindEvents (op : Str)
| KindLog.

Record HostcallRequest := mkRequest {
  rq_call_id : Str;
  rq_kind : HostcallKind;
  rq_payload : Json;
  rq_trace_id : Z;
  rq_extension_id : option Str;
}.

Inductive AmacGroupKey :=
| SessionRead | SessionWrite | EventRead | EventWrite | GroupTool | GroupExec | GroupHttp | GroupUi | GroupLog.
#[global] Instance AmacGroupKey_eq_dec : EqDecision AmacGroupKey.
Proof. solve_decision. Defined.

(** [op.trim().to_ascii_lowercase().replace('_', "")] *)
Definition normalized_op (op : Str) : Str := List.filter (λ c, negb (c =? 95)%N) (to_ascii_lowercase (trim op)).

Definition is_session_read_op (op : Str) : bool :=
  bool_decide (normalized_op op ∈ [str "getstate"; str "getmessages"; str "getentries"; str "getname"; str "getmodel";
    str "getlabel"; str "getlabels"; str "getallsessions"]).

Definition is_event_read_op (op : Str) : bool :=
  bool_decide (normalized_op op ∈ [str "getactivetools"; str "getalltools"; str "getmodel"; str "getthinkinglevel";
    str "getflag"; str "listflags"]).

Definition from_request (request : HostcallRequest) : AmacGroupKey :=
  match rq_kind request with
  | KindSession op => if is_session_read_op op then SessionRead else SessionWrite
  | KindEvents op => if is_event_read_op op then EventRead else EventWrite
  | KindTool _ => GroupTool
  | KindExec _ => GroupExec
  | KindHttp => GroupHttp
  | KindUi _ => GroupUi
  | KindLog => GroupLog
  end.

Definition interleave_safe (key : AmacGroupKey) : bool :=
  match key with SessionRead | EventRead | GroupTool | GroupHttp | GroupLog => true | _ => false end.

Definition memory_weight (key : AmacGroupKey) : Z :=
  match key with
  | GroupHttp => 90
  | GroupTool | GroupExec => 70
  | SessionRead => 50
  | EventRead => 40
  | SessionWrite => 30
  | EventWrite => 20
  | GroupUi => 10
  | GroupLog => 5
  end.

Record AmacBatchGroup := mkGroup { g_key : AmacGroupKey; g_requests : list HostcallRequest }.

Inductive AmacToggleDecision :=
| Interleave (width : Z)
| Sequential (reason : Str).

Definition is_interleave (d : AmacToggleDecision) : bool := match d with Interleave _ => true | Sequential _ => false end.

(** ** Stall telemetry *)

Record TimingSample := mkSample { elapsed_ns : Z; stalled : bool }.

Record AmacStallTelemetry := mkStallTelemetry {
  ema_elapsed_scaled : Z;
  ema_stall_ratio_scaled : Z;
  total_calls : Z;
  total_stalls : Z;
  recent_samples : list TimingSample;
  stall_threshold_ns : Z;
  toggle_decisions : Z;
  interleave_selections : Z;
}.

Definition AmacStallTelemetry_new (threshold : Z) : AmacStallTelemetry := mkStallTelemetry 0 0 0 0 [] threshold 0 0.

(** [alpha * new + (1 - alpha) * old], in saturating fixed point. *)
Definition ema (new old : Z) : Z :=
  sat_add u64_max (sat_mul u64_max new EMA_ALPHA / EMA_SCALE)
    (sat_mul u64_max old (sat_sub EMA_SCALE EMA_ALPHA) / EMA_SCALE).

Definition record (elapsed : Z) (t : AmacStallTelemetry) : AmacStallTelemetry :=
  let stalled := stall_threshold_ns t <? elapsed in
  let calls := sat_add u64_max (total_calls t) 1 in
  let stalls := if stalled then sat_add u64_max (total_stalls t) 1 else total_stalls t in
  let scaled_elapsed := sat_mul u64_max elapsed EMA_SCALE in
  let elapsed' := if calls =? 1 then scaled_elapsed else ema scaled_elapsed (ema_elapsed_scaled t) in
  let stall_point := if stalled then 1000 * EMA_SCALE else 0 in
  let ratio' := if calls =? 1 then stall_point else ema stall_point (ema_stall_ratio_scaled t) in
  let samples := if TELEMETRY_WINDOW_SIZE <=? len (recent_samples t) then drop 1 (recent_samples t) else recent_samples t in
  mkStallTelemetry elapsed' ratio' calls stalls (samples ++ [mkSample elapsed stalled])
    (stall_threshold_ns t) (toggle_decisions t) (interleave_selections t).

Definition stall_ratio (t : AmacStallTelemetry) : Z := ema_stall_ratio_scaled t / EMA_SCALE.
Definition avg_elapsed_ns (t : AmacStallTelemetry) : Z := ema_elapsed_scaled t / EMA_SCALE.

Definition u128_max : Z := 340282366920938463463374607431768211455.

Definition recent_variance (t : AmacStallTelemetry) : Z :=
  if len (recent_samples t) <? 2 then 0
  else
    let n := len (recent_samples t) in
    let sum := fold_left (λ acc s, sat_add u64_max acc (elapsed_ns s)) (recent_samples t) 0 in
    let mean := sum / n in
    let variance :=
      fold_left (λ acc s, let diff := Z.abs (elapsed_ns s - mean) in sat_add u128_max acc (diff * diff))
        (recent_samples t) 0 / n in
    if variance <=? u64_max then variance else u64_max.

Record AmacStallTelemetrySnapshot := mkStallSnapshot {
  sn_stall_ratio : Z;
  sn_avg_elapsed_ns : Z;
  sn_recent_variance : Z;
  sn_total_calls : Z;
  sn_total_stalls : Z;
  sn_stall_threshold_ns : Z;
  sn_toggle_decisions : Z;
  sn_interleave_selections : Z;
  sn_recent_window_size : Z;
}.

Definition snapshot (t : AmacStallTelemetry) : AmacStallTelemetrySnapshot :=
  mkStallSnapshot (stall_ratio t) (avg_elapsed_ns t) (recent_variance t) (total_calls t) (total_stalls t)
    (stall_threshold_ns t) (toggle_decisions t) (interleave_selections t) (len (recent_samples t)).

(** ** The executor *)

Record AmacBatchExecutorConfig := mkAmacConfig {
  min_batch_size : Z;
  max_interleave_width : Z;
  amac_enabled : bool;
  cfg_stall_threshold_ns : Z;
  stall_ratio_threshold : Z;
}.

(** [crate::env::var(..).and_then(|raw| raw.trim().parse().ok()).unwrap_or(dflt)] *)
Definition env_number (value : option Str) (dflt : Z) : Z := default dflt (value ≫= λ raw, parse_u64 (trim raw)).

Definition AmacBatchExecutorConfig_from_env (env : Str → option Str) : AmacBatchExecutorConfig :=
  mkAmacConfig
    (Z.max (env_number (env (str "HOSTCALL_AMAC_MIN_BATCH")) AMAC_MIN_BATCH_SIZE) 2)
    (Z.max (env_number (env (str "HOSTCALL_AMAC_MAX_WIDTH")) AMAC_MAX_INTERLEAVE_WIDTH) 2)
    (match env (str "HOSTCALL_AMAC") with
     | None => true
     | Some value => negb (bool_decide (to_ascii_lowercase (trim value) ∈ [str "0"; str "false"; str "off"; str "disabled"]))
     end)
    (Z.max (env_number (env (str "HOSTCALL_AMAC_STALL_THRESHOLD_NS")) AMAC_STALL_THRESHOLD_NS) 1)
    (clamp (env_number (env (str "HOSTCALL_AMAC_STALL_RATIO_THRESHOLD")) AMAC_STALL_RATIO_THRESHOLD) 1 1000).

Record AmacBatchExecutor := mkExecutor { ex_config : AmacBatchExecutorConfig; ex_telemetry : AmacStallTelemetry }.

Definition AmacBatchExecutor_new (config : AmacBatchExecutorConfig) : AmacBatchExecutor :=
  mkExecutor config (AmacStallTelemetry_new (cfg_stall_threshold_ns config)).

Definition observe_call (elapsed : Z) (e : AmacBatchExecutor) : AmacBatchExecutor :=
  mkExecutor (ex_config e) (record elapsed (ex_telemetry e)).

(** [u64] products and the subtraction wrap, as in the release build. *)
Definition compute_interleave_width (ratio weight group_size max_width : Z) : Z :=
  let range := sat_sub AMAC_STALL_RATIO_SATURATED AMAC_STALL_RATIO_THRESHOLD in
  let effective_ratio := Z.min (sat_sub ratio AMAC_STALL_RATIO_THRESHOLD) range in
  if range =? 0 then 2
  else
    let spread := (max_width - 2) mod (u64_max + 1) in
    let base_width := wrapping_add 2 (wrapping_mul (wrapping_mul effective_ratio weight) spread / (range * 100)) in
    Z.max (Z.min (Z.min base_width max_width) group_size) 2.

Definition decide_toggle (e : AmacBatchExecutor) (key : AmacGroupKey) (group_size : Z) : AmacToggleDecision :=
  if group_size <? min_batch_size (ex_config e) then Sequential (str "batch_too_small")
  else if negb (interleave_safe key) then Sequential (str "ordering_dependency")
  else if total_calls (ex_telemetry e) <? TELEMETRY_WINDOW_SIZE then Sequential (str "insufficient_telemetry")
  else
    let ratio := stall_ratio (ex_telemetry e) in
    if ratio <? stall_ratio_threshold (ex_config e) then Sequential (str "low_stall_ratio")
    else
      let width := compute_interleave_width ratio (memory_weight key) group_size (max_interleave_width (ex_config e)) in
      if width <? 2 then Sequential (str "computed_width_too_low") else Interleave width.

(** ** Planning a batch *)

Record AmacBatchPlan := mkBatchPlan {
  groups : list AmacBatchGroup;
  decisions : list AmacToggleDecision;
  total_requests : Z;
  interleaved_groups : Z;
  sequential_groups : Z;
}.

(** The loop's variables: the groups and decisions made, their counts, the
    logs held back, and the current run. *)
Record PlanState := mkPlanState {
  ps_groups : list AmacBatchGroup;
  ps_decisions : list AmacToggleDecision;
  ps_interleaved : Z;
  ps_sequential : Z;
  ps_buffered_logs : list HostcallRequest;
  ps_current_key : option AmacGroupKey;
  ps_current_requests : list HostcallRequest;
}.

Definition push_group (e : AmacBatchExecutor) (key : AmacGroupKey) (requests : list HostcallRequest) (s : PlanState) : PlanState :=
  let decision := decide_toggle e key (len requests) in
  mkPlanState (ps_groups s ++ [mkGroup key requests]) (ps_decisions s ++ [decision])
    (ps_interleaved s + (if is_interleave decision then 1 else 0))
    (ps_sequential s + (if is_interleave decision then 0 else 1))
    (ps_buffered_logs s) (ps_current_key s) (ps_current_requests s).

Definition set_current (key : option AmacGroupKey) (requests : list HostcallRequest) (s : PlanState) : PlanState :=
  mkPlanState (ps_groups s) (ps_decisions s) (ps_interleaved s) (ps_sequential s) (ps_buffered_logs s) key requests.
Definition set_logs (logs : list HostcallRequest) (s : PlanState) : PlanState :=
  mkPlanState (ps_groups s) (ps_decisions s) (ps_interleaved s) (ps_sequential s) logs (ps_current_key s) (ps_current_requests s).

Definition flush_logs (e : AmacBatchExecutor) (s : PlanState) : PlanState :=
  match ps_buffered_logs s with [] => s | logs => set_logs [] (push_group e GroupLog logs s) end.

(** The body of the loop. *)
Definition plan_request (e : AmacBatchExecutor) (s : PlanState) (request : HostcallRequest) : PlanState :=
  let key := from_request request in
  if bool_decide (key = GroupLog) then set_logs (ps_buffered_logs s ++ [request]) s
  else
    let key_changed := match ps_current_key s with None => true | Some current => negb (bool_decide (current = key)) end in
    let s :=
      if key_changed then
        match ps_current_key s with
        | Some prev_key => flush_logs e (set_current None [] (push_group e prev_key (ps_current_requests s) s))
        | None => s
        end
      else s in
    set_current (Some key) (ps_current_requests s ++ [request]) s.

Definition flush_run (e : AmacBatchExecutor) (s : PlanState) : PlanState :=
  match ps_current_key s, ps_current_requests s with
  | Some key, _ :: _ => push_group e key (ps_current_requests s) s
  | _, _ => s
  end.

Definition plan_batch (requests : list HostcallRequest) (e : AmacBatchExecutor) : AmacBatchPlan * AmacBatchExecutor :=
  if negb (amac_enabled (ex_config e)) || (len requests =? 0) then (mkBatchPlan [] [] (len requests) 0 0, e)
  else
    let s := fold_left (plan_request e) requests (mkPlanState [] [] 0 0 [] None []) in
    let s := flush_logs e (flush_run e s) in
    let t := ex_telemetry e in
    (mkBatchPlan (ps_groups s) (ps_decisions s) (len requests) (ps_interleaved s) (ps_sequential s),
     mkExecutor (ex_config e)
       (mkStallTelemetry (ema_elapsed_scaled t) (ema_stall_ratio_scaled t) (total_calls t) (total_stalls t) (recent_samples t)
          (stall_threshold_ns t) (sat_add u64_max (toggle_decisions t) (len (ps_groups s)))
          (sat_add u64_max (interleave_selections t) (ps_interleaved s)))).

(** ** Dispatching a batch ([src/extensions.rs], [pump_js_runtime_once]) *)

Section Dispatch.

(** The runtime and the host: whether a call is still pending, the dispatch of
    one request, the nanoseconds it took, and [{:?}] of an optional name. *)
Context {World : Type}.
Context (is_hostcall_active : Str → World → bool).
Context (dispatch_hostcall : HostcallRequest → World → HostcallOutcome * World).
Context (elapsed_between : World → World → Z).
Context (debug_owner : option Str → Str).

Definition dispatch_one (expected_owner : option Str) (req : HostcallRequest) (w : World)
    : option (Str * HostcallOutcome * Z) * World :=
  if negb (is_hostcall_active (rq_call_id req) w) then (None, w)
  else
    let '(outcome, w') :=
      match expected_owner with
      | Some owner =>
          if negb (bool_decide (rq_extension_id req = Some owner)) then
            (OutcomeError (str "extension_identity_mismatch")
               (str "Runtime shard " ++ owner ++ str " rejected hostcall claiming extension " ++ debug_owner (rq_extension_id req)), w)
          else dispatch_hostcall req w
      | None => dispatch_hostcall req w
      end in
    (Some (rq_call_id req, outcome, elapsed_between w w'), w').

Record BatchState := mkBatch {
  bs_world : World;
  bs_executor : AmacBatchExecutor;
  bs_completions : list (Str * HostcallOutcome);
}.

(** The body of both dispatch loops. *)
Definition dispatch_step (expected_owner : option Str) (s : BatchState) (req : HostcallRequest) : BatchState :=
  match dispatch_one expected_owner req (bs_world s) with
  | (Some (call_id, outcome, elapsed), w) =>
      mkBatch w (observe_call elapsed (bs_executor s)) (bs_completions s ++ [(call_id, outcome)])
  | (None, w) => mkBatch w (bs_executor s) (bs_completions s)
  end.

Definition dispatch_requests_sequential (expected_owner : option Str) (pending : list HostcallRequest)
    (e : AmacBatchExecutor) (w : World) : BatchState :=
  fold_left (dispatch_step expected_owner) pending (mkBatch w e []).

(** The decision of a group is only logged. *)
Definition dispatch_requests_amac (expected_owner : option Str) (pending : list HostcallRequest)
    (e : AmacBatchExecutor) (w : World) : BatchState :=
  let '(plan, e) := plan_batch pending e in
  fold_left (λ s gd, fold_left (dispatch_step expected_owner) (g_requests gd.1) s)
    (zip (groups plan) (decisions plan)) (mkBatch w e []).

(** [safety_vetoed]: some extension's safety envelope is vetoing.  The
    completions are handed to the runtime in one batch, if there are any. *)
Definition dispatch_requests (expected_owner : option Str) (safety_vetoed : bool) (pending : list HostcallRequest)
    (e : AmacBatchExecutor) (w : World) : BatchState :=
  match pending with
  | [] => mkBatch w e []
  | _ =>
      if amac_enabled (ex_config e) && negb safety_vetoed
      then dispatch_requests_amac expected_owner pending e w
      else dispatch_requests_sequential expected_owner pending e w
  end.
End Dispatch.
Arguments mkBatch {_} _ _ _.
Arguments bs_world {_} _.
Arguments bs_executor {_} _.
Arguments bs_completions {_} _.

(** ** Log sinking *)

Definition is_log (r : HostcallRequest) : Prop := from_request r = GroupLog.
#[global] Instance is_log_dec r : Decision (is_log r).
Proof. unfold is_log. apply _. Defined.

Definition logs_of (l : list HostcallRequest) : list HostcallRequest := filter is_log l.
Definition others_of (l : list HostcallRequest) : list HostcallRequest := filter (λ r, ¬ is_log r) l.

(** A run: log requests apart, all of one kind; sunk, its logs come last. *)
Definition one_kind (key : AmacGroupKey) (run : list HostcallRequest) : Prop :=
  Forall (λ r, from_request r = key) (others_of run).
Definition sink (run : list HostcallRequest) : list HostcallRequest := others_of run ++ logs_of run.

(** The next run starts where the kind changes: with a request that is no log
    and of another kind than those of the run before. *)
Definition breaks (run next : list HostcallRequest) : Prop :=
  ∃ r rest r0, next = r :: rest ∧ ¬ is_log r ∧ r0 ∈ others_of run ∧ from_request r0 ≠ from_request r.

(** The requests split into runs as long as can be. *)
Definition maximal_runs (runs : list (list HostcallRequest)) : Prop :=
  Forall (λ run, ∃ key, one_kind key run) runs ∧
  ∀ i run next, runs !! i = Some run → runs !! S i = Some next → breaks run next.

Definition flat (gs : list AmacBatchGroup) : list HostcallRequest := gs ≫= g_requests.

Lemma others_app l k : others_of (l ++ k) = others_of l ++ others_of k.
Proof. apply filter_app. Qed.
Lemma logs_app l k : logs_of (l ++ k) = logs_of l ++ logs_of k.
Proof. apply filter_app. Qed.
Lemma flat_app g h : flat (g ++ h) = flat g ++ flat h.
Proof. apply bind_app. Qed.
Lemma runs_grow runs cur r key : maximal_runs (runs ++ [cur]) → one_kind key (cur ++ [r]) → cur ≠ [] ∨ runs = [] →
  maximal_runs (runs ++ [cur ++ [r]]).
Proof.
  intros [Hk Hb] Hc Hne. split.
  { apply Forall_app in Hk as [Hk _]. apply Forall_app. split; [done|]. apply Forall_singleton. eauto. }
  intros i run next Hi Hn. destruct (decide (S i < length runs)%nat) as [Hl|Hl].
  { rewrite ->lookup_app_l in Hi by lia. rewrite ->lookup_app_l in Hn by lia.
    by apply (Hb i); rw lookup_app_l //; lia. }
  pose proof (lookup_lt_Some _ _ _ Hn) as Hl'. rewrite ->length_app in Hl'. simpl in Hl'.
  assert (S i = length runs) as Ei by lia. rewrite ->list_lookup_middle in Hn by lia. injection Hn as <-.
  rewrite ->lookup_app_l in Hi by lia. destruct (Hb i run cur) as (q & rest & r0 & -> & ?).
  - by rw lookup_app_l //; lia.
  - by apply list_lookup_middle.
  - by exists q, (rest ++ [r]), r0.
Qed.

Lemma runs_next runs cur r : maximal_runs (runs ++ [cur]) → breaks cur [r] → maximal_runs ((runs ++ [cur]) ++ [[r]]).
Proof.
  intros [Hk Hb] Hc. split.
  { apply Forall_app. split; [done|]. apply Forall_singleton. exists (from_request r). unfold one_kind, others_of.
    rw filter_cons filter_nil. case_decide; [by apply Forall_singleton|constructor]. }
  intros i run next Hi Hn. destruct (decide (S i < length (runs ++ [cur]))%nat) as [Hl|Hl].
  { rewrite ->lookup_app_l in Hi, Hn by lia. by apply (Hb i). }
  pose proof (lookup_lt_Some _ _ _ Hn) as Hl'. rewrite ->length_app in Hl, Hl'. simpl in Hl, Hl'. rewrite ->length_app in Hl'. simpl in Hl'.
  assert (i = length runs) as -> by lia. rewrite ->lookup_app_l in Hi by (rewrite ->length_app; simpl; lia). rewrite ->list_lookup_middle in Hi by done.
  rewrite ->list_lookup_middle in Hn by (rewrite ->length_app; simpl; lia). congruence.
Qed.

Lemma flat_one key l : flat [mkGroup key l] = l.
Proof. cbn. apply app_nil_r. Qed.

(** A group of the plan: not empty, of one kind, with its decision. *)
Definition group_ok (e : AmacBatchExecutor) (g : AmacBatchGroup) (d : AmacToggleDecision) : Prop :=
  g_requests g ≠ [] ∧ Forall (λ r, from_request r = g_key g) (g_requests g) ∧
  d = decide_toggle e (g_key g) (len (g_requests g)).

Definition count_interleaved (ds : list AmacToggleDecision) : Z := len (filter (λ d, is_interleave d = true) ds).

Definition tally_ok (e : AmacBatchExecutor) (s : PlanState) : Prop :=
  Forall2 (group_ok e) (ps_groups s) (ps_decisions s) ∧
  ps_interleaved s = count_interleaved (ps_decisions s) ∧
  ps_interleaved s + ps_sequential s = len (ps_groups s).

(** What the loop has done with the requests [seen]: it split them into
    [runs] and a current run. *)
Definition planned (e : AmacBatchExecutor) (seen : list HostcallRequest) (s : PlanState) : Prop :=
  tally_ok e s ∧ ∃ runs cur, seen = concat runs ++ cur ∧ maximal_runs (runs ++ [cur]) ∧
    flat (ps_groups s) = concat (sink <$> runs) ∧
    ps_buffered_logs s = logs_of cur ∧ ps_current_requests s = others_of cur ∧
    match ps_current_key s with None => others_of cur = [] ∧ runs = [] | Some key => one_kind key cur ∧ others_of cur ≠ [] end.

Lemma count_snoc ds d : count_interleaved (ds ++ [d]) = count_interleaved ds + (if is_interleave d then 1 else 0).
Proof. unfold count_interleaved. rw filter_app len_app. by destruct d. Qed.

Lemma push_group_tally e key requests s : requests ≠ [] → Forall (λ r, from_request r = key) requests →
  tally_ok e s → tally_ok e (push_group e key requests s).
Proof.
  intros Hne Hk (Hg & Hi & Hs). unfold tally_ok, push_group. simpl. split_and!.
  - apply Forall2_app; [done|]. constructor; [done|constructor].
  - rw count_snoc Hi //.
  - rw len_app len_cons len_nil. destruct (is_interleave _); lia.
Qed.

Lemma logs_are_logs l : Forall (λ r, from_request r = GroupLog) (logs_of l).
Proof. rw Forall_forall. by intros r [? _]%list_elem_of_filter. Qed.

Lemma flush_logs_spec e s : tally_ok e s → Forall (λ r, from_request r = GroupLog) (ps_buffered_logs s) →
  tally_ok e (flush_logs e s) ∧ flat (ps_groups (flush_logs e s)) = flat (ps_groups s) ++ ps_buffered_logs s ∧
  ps_buffered_logs (flush_logs e s) = [] ∧ ps_current_key (flush_logs e s) = ps_current_key s ∧
  ps_current_requests (flush_logs e s) = ps_current_requests s.
Proof.
  intros Ht Hl. unfold flush_logs. destruct (ps_buffered_logs s) as [|r l] eqn:E; [rw app_nil_r //|].
  split_and!; try done; simpl.
  - apply (push_group_tally e GroupLog (r :: l) s); done.
  - rw flat_app flat_one //.
Qed.

Lemma snoc_log l r : is_log r → others_of (l ++ [r]) = others_of l ∧ logs_of (l ++ [r]) = logs_of l ++ [r].
Proof.
  intros Hr. rw others_app logs_app. unfold others_of, logs_of. rw !(filter_cons _ r) decide_False; [|tauto].
  rw decide_True // !filter_nil app_nil_r //.
Qed.

Lemma snoc_other l r : ¬ is_log r → others_of (l ++ [r]) = others_of l ++ [r] ∧ logs_of (l ++ [r]) = logs_of l.
Proof.
  intros Hr. rw others_app logs_app. unfold others_of, logs_of. rw !(filter_cons _ r) decide_True; [|tauto].
  rw decide_False // !filter_nil app_nil_r //.
Qed.

Lemma plan_request_step e seen s r : planned e seen s → planned e (seen ++ [r]) (plan_request e s r).
Proof.
  intros (Ht & runs & cur & -> & Hr & Hf & Hb & Hc & Hk). unfold plan_request. cbv zeta.
  case_bool_decide as Hlog.
  - destruct (snoc_log cur r Hlog) as [Eo El]. split; [exact Ht|]. exists runs, (cur ++ [r]). cbn.
    unfold one_kind in *. rw Eo El app_assoc Hb. split_and!; try done.
    destruct (ps_current_key s) as [key|]; destruct Hk as [Hk Hne].
    + apply (runs_grow _ _ _ key Hr); [unfold one_kind; by rw Eo|]. left. by intros ->.
    + apply (runs_grow _ _ _ GroupUi Hr); [unfold one_kind; by rw Eo Hk|by right].
  - destruct (snoc_other cur r Hlog) as [Eo El].
    destruct (ps_current_key s) as [key|] eqn:Ekey.
    + destruct Hk as [Hk Hne']. destruct (bool_decide_reflect (key = from_request r)) as [->|Hne]; simpl.
      * assert (one_kind (from_request r) (cur ++ [r])) as Hone
          by (unfold one_kind in *; rw Eo; apply Forall_app; split; [apply Hk|by apply Forall_singleton]).
        split; [exact Ht|]. exists runs, (cur ++ [r]). simpl. rw Eo El app_assoc Hc.
        split_and!; try done; [|by intros [_ [=]]%app_nil]. apply (runs_grow _ _ _ _ Hr Hone). left. by intros ->.
      * set (s' := set_current None [] (push_group e key (ps_current_requests s) s)).
        destruct (flush_logs_spec e s') as (Ht' & Hf' & Hb' & Hk' & Hc').
        { apply (push_group_tally e key); rw ?Hc //. } { simpl. rw Hb. apply logs_are_logs. }
        destruct (snoc_other [] r Hlog) as [Eo1 El1]. simpl in Eo1, El1.
        split; [exact Ht'|]. exists (runs ++ [cur]), [r]. simpl. rw Hf' Hb' Hc' El1 Eo1 /= Hb flat_app flat_one Hc Hf.
        rw concat_app fmap_app concat_app /= !app_nil_r. unfold one_kind at 1, sink. rw Eo1.
        split_and!; rw -?app_assoc //; [|by apply Forall_singleton]. rw app_assoc. apply runs_next; [done|].
        destruct (others_of cur) as [|r0 l] eqn:E; [done|]. exists r, [], r0. unfold one_kind in Hk. rewrite ->E in *.
        apply Forall_cons in Hk as [-> _]. split_and!; try done. left.
    + destruct Hk as [Ho ->]. simpl. assert (one_kind (from_request r) (cur ++ [r])) as Hone by (unfold one_kind; rw Eo Ho; by apply Forall_singleton).
      split; [exact Ht|]. exists [], (cur ++ [r]). simpl. rw Eo El Hc Ho /=.
      split_and!; try done. by apply (runs_grow [] cur r _ Hr Hone); right.
Qed.

Lemma plan_requests e requests : ∀ seen s, planned e seen s → planned e (seen ++ requests) (fold_left (plan_request e) requests s).
Proof.
  induction requests as [|r l IH]; intros seen s H; cbn [fold_left]; [rw app_nil_r //|].
  rw cons_middle app_assoc. apply IH, plan_request_step, H.
Qed.

(** The current run and the logs it held back, flushed. *)
Lemma flush_all e seen s : planned e seen s → let s' := flush_logs e (flush_run e s) in
  tally_ok e s' ∧ ∃ runs, seen = concat runs ∧ maximal_runs runs ∧
    flat (ps_groups s') = concat (sink <$> runs).
Proof.
  intros (Ht & runs & cur & -> & Hr & Hf & Hb & Hc & Hk). cbv zeta.
  assert (tally_ok e (flush_run e s) ∧ flat (ps_groups (flush_run e s)) = concat (sink <$> runs) ++ others_of cur ∧
    ps_buffered_logs (flush_run e s) = logs_of cur) as (Ht' & Hf' & Hb').
  { unfold flush_run. destruct (ps_current_key s) as [key|].
    - destruct Hk as [Hk Hne]. rw Hc. destruct (others_of cur) as [|r l] eqn:E; [done|].
      split_and!; [|simpl; rw flat_app flat_one Hf //|done].
      apply push_group_tally; [done| |done]. unfold one_kind in Hk. rw E // in Hk.
    - destruct Hk as [Ho _]. split_and!; [done|rw Ho app_nil_r //|done]. }
  destruct (flush_logs_spec e (flush_run e s)) as (Ht'' & Hf'' & _); [done|rw Hb'; apply logs_are_logs|].
  split; [done|]. exists (runs ++ [cur]). rw Hf'' Hf' Hb' concat_app fmap_app concat_app /= !app_nil_r -app_assoc //.
Qed.

Lemma plan_all e requests : let s := flush_logs e (flush_run e (fold_left (plan_request e) requests (mkPlanState [] [] 0 0 [] None []))) in
  tally_ok e s ∧ ∃ runs, requests = concat runs ∧ maximal_runs runs ∧ flat (ps_groups s) = concat (sink <$> runs).
Proof.
  apply (flush_all e requests), (plan_requests e requests []). split; [split_and!; [constructor|done..]|]. exists [], []. split_and!; try done.
  split; [|by intros [|i] run next]. apply Forall_singleton. exists GroupUi. constructor.
Qed.

Lemma plan_batch_spec requests e : amac_enabled (ex_config e) = true → requests ≠ [] →
  let plan := (plan_batch requests e).1 in
  ∃ runs, requests = concat runs ∧ maximal_runs runs ∧
    flat (groups plan) = concat (sink <$> runs) ∧ Forall2 (group_ok e) (groups plan) (decisions plan) ∧
    interleaved_groups plan = count_interleaved (decisions plan) ∧
    interleaved_groups plan + sequential_groups plan = len (groups plan).
Proof.
  intros He Hne. unfold plan_batch. rw He /=. assert ((len requests =? 0) = false) as ->.
  { apply Z.eqb_neq. destruct requests; [done|]. rw len_cons. pose proof (len_nonneg requests). lia. }
  destruct (plan_all e requests) as [(Hg & Hi & Hs) (runs & ? & ? & ?)].
  exists runs. split_and!; done.
Qed.

Lemma sink_one run : others_of (sink run) = others_of run ∧ logs_of (sink run) = logs_of run.
Proof.
  unfold sink. rw others_app logs_app. unfold others_of, logs_of. rw !list_filter_filter.
  split.
  - rw (list_filter_iff _ (λ r, ¬ is_log r)); [|tauto]. rw (filter_none (λ r, ¬ is_log r ∧ is_log r)); [rw app_nil_r //|]. tauto.
  - rw (filter_none (λ r, is_log r ∧ ¬ is_log r)); [|tauto]. simpl. apply list_filter_iff. tauto.
Qed.

Lemma sink_keeps runs : others_of (concat (sink <$> runs)) = others_of (concat runs) ∧ logs_of (concat (sink <$> runs)) = logs_of (concat runs).
Proof.
  induction runs as [|run runs [IHo IHl]]; [done|]. destruct (sink_one run) as [Eo El].
  change (concat (sink <$> (run :: runs))) with (sink run ++ concat (sink <$> runs)).
  change (concat (run :: runs)) with (run ++ concat runs).
  rw (others_app (sink run)) (others_app run) (logs_app (sink run)) (logs_app run) IHo IHl Eo El //.
Qed.

(** ** The telemetry stays in range *)

Definition telemetry_ok (t : AmacStallTelemetry) : Prop :=
  0 ≤ ema_stall_ratio_scaled t ≤ 1000 * EMA_SCALE ∧ 0 ≤ total_stalls t ≤ total_calls t ∧ total_calls t ≤ u64_max ∧
  len (recent_samples t) ≤ TELEMETRY_WINDOW_SIZE.

Lemma ema_ratio_range new old : 0 ≤ new ≤ 1000 * EMA_SCALE → 0 ≤ old ≤ 1000 * EMA_SCALE → 0 ≤ ema new old ≤ 1000 * EMA_SCALE.
Proof.
  unfold ema, sat_add, sat_mul, sat_sub, EMA_ALPHA, EMA_SCALE. intros Hn Ho.
  rw (Z.min_r u64_max (new * 51)); [|unfold u64_max; lia].
  rw (Z.min_r u64_max (old * Z.max 0 (256 - 51))); [|unfold u64_max; lia]. 
  change (Z.max 0 (256 - 51)) with 205.
  pose proof (Z.div_pos (new * 51) 256 ltac:(lia) ltac:(lia)). pose proof (Z.div_pos (old * 205) 256 ltac:(lia) ltac:(lia)).
  assert (new * 51 / 256 ≤ 51000) by (apply Z.div_le_upper_bound; lia).
  assert (old * 205 / 256 ≤ 205000) by (apply Z.div_le_upper_bound; lia).
  unfold u64_max. lia.
Qed.

Lemma record_ok elapsed t : telemetry_ok t → telemetry_ok (record elapsed t).
Proof.
  intros (Hr & Hs & Hc & Hl). unfold record, telemetry_ok. simpl.
  set (point := if stall_threshold_ns t <? elapsed then 1000 * EMA_SCALE else 0).
  assert (0 ≤ point ≤ 1000 * EMA_SCALE) as Hp by (unfold point, EMA_SCALE; case_match; lia). split_and!.
  - case_match; [lia|by apply ema_ratio_range].
  - case_match; [lia|by apply ema_ratio_range].
  - unfold sat_add. case_match; unfold u64_max in *; lia.
  - unfold sat_add. case_match; unfold u64_max in *; lia.
  - unfold sat_add. lia.
  - rw len_app len_cons len_nil. unfold TELEMETRY_WINDOW_SIZE in *. destruct (Z.leb_spec 64 (len (recent_samples t))); [|lia].
    unfold len in *. rw length_drop. lia.
Qed.

Lemma stall_ratio_range t : telemetry_ok t → 0 ≤ stall_ratio t ≤ 1000.
Proof.
  intros (Hr & _). unfold stall_ratio, EMA_SCALE in *. split; [apply Z.div_pos; lia|apply Z.div_le_upper_bound; lia].
Qed.

Lemma width_range ratio weight group_size max_width :
  2 ≤ compute_interleave_width ratio weight group_size max_width ≤ Z.max 2 (Z.min max_width group_size).
Proof. unfold compute_interleave_width. case_match; lia. Qed.

(** ** The dispatch loops *)

Section DispatchLemmas.
Context {World : Type} (active : Str → World → bool) (dispatch : HostcallRequest → World → HostcallOutcome * World)
  (elapsed : World → World → Z) (debug : option Str → Str).

Abbreviation step owner := (dispatch_step active dispatch elapsed debug owner).

Lemma dispatch_groups owner gs : ∀ (ds : list AmacToggleDecision) s, length gs = length ds →
  fold_left (λ s (gd : AmacBatchGroup * AmacToggleDecision), fold_left (step owner) (g_requests gd.1) s) (zip gs ds) s
    = fold_left (step owner) (flat gs) s.
Proof.
  induction gs as [|g gs IH]; intros [|d ds] s Hl; try done. cbn [zip zip_with fold_left]. rw IH; [|simpl in Hl; lia].
  change (flat (g :: gs)) with (g_requests g ++ flat gs). rw fold_left_app //.
Qed.

(** Requests served one after the other: skipped, refused or dispatched. *)
Inductive serves (owner : option Str) : World → list HostcallRequest → list (Str * HostcallOutcome) → World → Prop :=
| serves_none w : serves owner w [] [] w
| serves_inactive w r l cs w' : active (rq_call_id r) w = false → serves owner w l cs w' → serves owner w (r :: l) cs w'
| serves_foreign w r l cs w' o : active (rq_call_id r) w = true → owner = Some o → rq_extension_id r ≠ Some o →
    serves owner w l cs w' →
    serves owner w (r :: l) ((rq_call_id r, OutcomeError (str "extension_identity_mismatch")
      (str "Runtime shard " ++ o ++ str " rejected hostcall claiming extension " ++ debug (rq_extension_id r))) :: cs) w'
| serves_call w r l cs w1 w' outcome : active (rq_call_id r) w = true → (∀ o, owner = Some o → rq_extension_id r = Some o) →
    dispatch r w = (outcome, w1) → serves owner w1 l cs w' → serves owner w (r :: l) ((rq_call_id r, outcome) :: cs) w'.

Lemma serves_fold owner l : ∀ s, let s' := fold_left (step owner) l s in
  ∃ cs, bs_completions s' = bs_completions s ++ cs ∧ serves owner (bs_world s) l cs (bs_world s').
Proof.
  induction l as [|r l IH]; intros s; cbn [fold_left]; [exists []; rw app_nil_r; split; [done|constructor]|].
  destruct (IH (step owner s r)) as (cs & Ec & Hs). unfold dispatch_step, dispatch_one in *.
  destruct (active (rq_call_id r) (bs_world s)) eqn:Ea; simpl in *; [|exists cs; split; [done|by constructor]].
  destruct owner as [o|]; [destruct (bool_decide_reflect (rq_extension_id r = Some o)); simpl in *|].
  2: { eexists. rw Ec -app_assoc. split; [reflexivity|]. by eapply serves_foreign. }
  all: destruct (dispatch r (bs_world s)) as [outcome w1] eqn:Ed; simpl in *; eexists; rw Ec -app_assoc; split; [reflexivity|].
  all: eapply serves_call; [done| |exact Ed|exact Hs]; congruence.
Qed.

Lemma serves_batch owner l w e : let s' := fold_left (step owner) l (mkBatch w e []) in
  serves owner w l (bs_completions s') (bs_world s').
Proof. destruct (serves_fold owner l (mkBatch w e [])) as (cs & E & H). cbv zeta. simpl in E, H. by rw E. Qed.
End DispatchLemmas.

(** ** Claims *)

(** C32: the order in which a batch is dispatched.  Whatever was decided about
    interleaving, the pending requests are served one after the other, each
    once: in the order they came, or, when batching is on and no safety
    envelope vetoes, with log requests sunk to the end of the run they came
    in.  A run goes on, over log requests, as long as the kind of request stays
    the same; the next starts exactly where it changes.  The requests that are
    not logs keep their order, and so do the logs.  When its turn comes, a
    request whose call is no longer pending is skipped, one that names another
    extension than the owner of the runtime is answered with an error, and any
    other is dispatched once and answered with its outcome. *)
Theorem batch_dispatch_order {World} active dispatch elapsed debug owner vetoed pending e (w : World) :
  ∃ runs, pending = concat runs ∧ maximal_runs runs ∧
    let order := if amac_enabled (ex_config e) && negb vetoed then concat (sink <$> runs) else pending in
    let batch := dispatch_requests active dispatch elapsed debug owner vetoed pending e w in
    others_of order = others_of pending ∧ logs_of order = logs_of pending ∧
    serves active dispatch debug owner w order (bs_completions batch) (bs_world batch).
Proof.
  destruct (plan_all e pending) as [(Hg & _) (runs & Hp & Hr & Hf)]. exists runs. split_and!; [done..|]. cbv zeta.
  destruct (sink_keeps runs) as [Eo El]. rewrite <-Hp in Eo, El. split_and!; [by case_match..|].
  unfold dispatch_requests. destruct pending as [|r l] eqn:E.
  { assert (concat (sink <$> runs) = []) as ->; [|case_match; constructor].
    rewrite <-Hf. reflexivity. }
  rewrite <-E in *. destruct (amac_enabled (ex_config e)) eqn:He, vetoed; simpl; try apply serves_batch.
  unfold dispatch_requests_amac. unfold plan_batch. rw He. assert ((len pending =? 0) = false) as -> by (subst; by unfold len).
  simpl. rw dispatch_groups; [|by eapply Forall2_length]. rw Hf. apply serves_batch.
Qed.

(** Interleaving is chosen only for a group that is large enough and safe to
    reorder, after a full window of samples whose stall ratio, between 0 and
    1000, reaches the threshold; its width is between 2 and the smaller of the
    group and the maximum. *)
Theorem interleaving_is_earned e requests : telemetry_ok (ex_telemetry e) →
  let plan := (plan_batch requests e).1 in
  0 ≤ stall_ratio (ex_telemetry e) ≤ 1000 ∧
  Forall2 (λ g d, ∀ width, d = Interleave width →
    min_batch_size (ex_config e) ≤ len (g_requests g) ∧ interleave_safe (g_key g) = true ∧
    TELEMETRY_WINDOW_SIZE ≤ total_calls (ex_telemetry e) ∧
    stall_ratio_threshold (ex_config e) ≤ stall_ratio (ex_telemetry e) ∧
    2 ≤ width ≤ Z.max 2 (Z.min (max_interleave_width (ex_config e)) (len (g_requests g)))) (groups plan) (decisions plan).
Proof.
  intros Ht. split; [by apply stall_ratio_range|].
  assert (Forall2 (group_ok e) (groups (plan_batch requests e).1) (decisions (plan_batch requests e).1)) as Hg.
  { destruct (amac_enabled (ex_config e)) eqn:He; [|unfold plan_batch; rw He; constructor].
    destruct (decide (requests = [])) as [->|Hne]; [unfold plan_batch; rw He; constructor|].
    by destruct (plan_batch_spec requests e He Hne) as (runs & _ & _ & _ & Hg & _). }
  eapply Forall2_impl; [exact Hg|]. intros g d (_ & _ & ->) width Hw. unfold decide_toggle in Hw.
  pose proof (width_range (stall_ratio (ex_telemetry e)) (memory_weight (g_key g)) (len (g_requests g)) (max_interleave_width (ex_config e))).
  repeat (case_match; [done|]). injection Hw as <-. bool_to_prop. split_and!; try done; try lia.
Qed.
