(* ===== verification/IoUringLane.v ===== *)
(** * The io_uring lane policy ([src/hostcall_io_uring_lane.rs])

    Which lane a hostcall takes, with the reason when it is not io_uring, and
    the telemetry of the decision. *)

From S2P Require Import Prelude Text.

Inductive HostcallDispatchLane := LaneFast | LaneIoUring | LaneCompat.
#[global] Instance HostcallDispatchLane_eq_dec : EqDecision HostcallDispatchLane.
Proof. solve_decision. Defined.

Definition lane_as_str (lane : HostcallDispatchLane) : Str :=
  match lane with LaneFast => str "fast" | LaneIoUring => str "io_uring" | LaneCompat => str "compat" end.

Inductive HostcallIoHint := HintUnknown | HintIoHeavy | HintCpuBound.
Definition is_io_heavy (h : HostcallIoHint) : bool := match h with HintIoHeavy => true | _ => false end.

Inductive HostcallCapabilityClass :=
| ClassFilesystem | ClassNetwork | ClassExecution | ClassSession | ClassEvents | ClassEnvironment | ClassTool | ClassUi
| ClassTelemetry | ClassUnknown.

Definition from_capability (value : Str) : HostcallCapabilityClass :=
  let v := to_ascii_lowercase (trim value) in
  if bool_decide (v ∈ [str "read"; str "write"; str "filesystem"; str "fs"]) then ClassFilesystem
  else if bool_decide (v ∈ [str "http"; str "network"]) then ClassNetwork
  else if bool_decide (v ∈ [str "exec"; str "execution"]) then ClassExecution
  else if bool_decide (v = str "session") then ClassSession
  else if bool_decide (v = str "events") then ClassEvents
  else if bool_decide (v ∈ [str "env"; str "environment"]) then ClassEnvironment
  else if bool_decide (v = str "tool") then ClassTool
  else if bool_decide (v = str "ui") then ClassUi
  else if bool_decide (v ∈ [str "log"; str "telemetry"]) then ClassTelemetry
  else ClassUnknown.

Inductive IoUringFallbackReason :=
| CompatKillSwitch | IoUringDisabled | IoUringUnavailable | MissingIoHint | UnsupportedCapability
| QueueDepthBudgetExceeded | IoUringExecutorUnavailable.

Definition as_code (r : IoUringFallbackReason) : Str :=
  match r with
  | CompatKillSwitch => str "forced_compat_kill_switch"
  | IoUringDisabled => str "io_uring_disabled"
  | IoUringUnavailable => str "io_uring_unavailable"
  | MissingIoHint => str "io_hint_missing"
  | UnsupportedCapability => str "io_uring_capability_not_supported"
  | QueueDepthBudgetExceeded => str "io_uring_queue_depth_budget_exceeded"
  | IoUringExecutorUnavailable => str "io_uring_executor_unavailable"
  end.

Definition io_uring_executor_available : bool := false.

Record IoUringLanePolicyConfig := mkLaneConfig {
  lc_enabled : bool;
  lc_ring_available : bool;
  lc_max_queue_depth : Z;
  lc_allow_filesystem : bool;
  lc_allow_network : bool;
}.

Definition conservative : IoUringLanePolicyConfig := mkLaneConfig false false 256 true true.

Definition allow_for_capability (c : IoUringLanePolicyConfig) (capability : HostcallCapabilityClass) : bool :=
  match capability with
  | ClassFilesystem => lc_allow_filesystem c
  | ClassNetwork => lc_allow_network c
  | _ => false
  end.

Record IoUringLaneDecisionInput := mkLaneInput {
  li_capability : HostcallCapabilityClass;
  li_io_hint : HostcallIoHint;
  li_queue_depth : Z;
  li_force_compat_lane : bool;
}.

Record IoUringLaneDecision := mkLaneDecision {
  ld_lane : HostcallDispatchLane;
  ld_fallback_reason : option IoUringFallbackReason;
}.

Definition decision_io_uring : IoUringLaneDecision := mkLaneDecision LaneIoUring None.
Definition decision_compat (reason : IoUringFallbackReason) : IoUringLaneDecision := mkLaneDecision LaneCompat (Some reason).
Definition decision_fast (reason : IoUringFallbackReason) : IoUringLaneDecision := mkLaneDecision LaneFast (Some reason).
Definition fallback_code (d : IoUringLaneDecision) : option Str := as_code <$> ld_fallback_reason d.

Definition decide_io_uring_lane (config : IoUringLanePolicyConfig) (input : IoUringLaneDecisionInput) : IoUringLaneDecision :=
  if li_force_compat_lane input then decision_compat CompatKillSwitch
  else if negb (lc_enabled config) then decision_fast IoUringDisabled
  else if negb (lc_ring_available config) then decision_fast IoUringUnavailable
  else if negb (is_io_heavy (li_io_hint input)) then decision_fast MissingIoHint
  else if negb (allow_for_capability config (li_capability input)) then decision_fast UnsupportedCapability
  else if lc_max_queue_depth config <=? li_queue_depth input then decision_fast QueueDepthBudgetExceeded
  else if negb io_uring_executor_available then decision_fast IoUringExecutorUnavailable
  else decision_io_uring.

Record IoUringLaneTelemetry := mkLaneTelemetry {
  lt_lane : HostcallDispatchLane;
  lt_fallback_reason : option IoUringFallbackReason;
  lt_fallback_code : option Str;
  lt_capability : HostcallCapabilityClass;
  lt_io_hint : HostcallIoHint;
  lt_queue_depth : Z;
  lt_queue_depth_budget : Z;
  lt_queue_depth_budget_remaining : Z;
  lt_force_compat_lane : bool;
  lt_policy_enabled : bool;
  lt_ring_available : bool;
  lt_executor_available : bool;
  lt_capability_allowed : bool;
  lt_queue_depth_within_budget : bool;
}.

Definition build_io_uring_lane_telemetry (config : IoUringLanePolicyConfig) (input : IoUringLaneDecisionInput)
    (decision : IoUringLaneDecision) : IoUringLaneTelemetry :=
  mkLaneTelemetry (ld_lane decision) (ld_fallback_reason decision) (fallback_code decision) (li_capability input)
    (li_io_hint input) (li_queue_depth input) (lc_max_queue_depth config)
    (sat_sub (lc_max_queue_depth config) (li_queue_depth input)) (li_force_compat_lane input) (lc_enabled config)
    (lc_ring_available config) io_uring_executor_available (allow_for_capability config (li_capability input))
    (li_queue_depth input <? lc_max_queue_depth config).

Definition decide_io_uring_lane_with_telemetry (config : IoUringLanePolicyConfig) (input : IoUringLaneDecisionInput)
    : IoUringLaneDecision * IoUringLaneTelemetry :=
  let decision := decide_io_uring_lane config input in
  (decision, build_io_uring_lane_telemetry config input decision).

(** ** The telemetry explains the decision *)

(** The reason that a record of telemetry implies: the first of its flags that
    speaks against the io_uring lane. *)
Definition explained_by (t : IoUringLaneTelemetry) : option IoUringFallbackReason :=
  let objections :=
    [(lt_force_compat_lane t, CompatKillSwitch); (negb (lt_policy_enabled t), IoUringDisabled);
     (negb (lt_ring_available t), IoUringUnavailable); (negb (is_io_heavy (lt_io_hint t)), MissingIoHint);
     (negb (lt_capability_allowed t), UnsupportedCapability);
     (negb (lt_queue_depth_within_budget t), QueueDepthBudgetExceeded);
     (negb (lt_executor_available t), IoUringExecutorUnavailable)] in
  snd <$> head (filter (λ o : bool * IoUringFallbackReason, o.1 = true) objections).

(** The telemetry of a decision is complete and consistent: its flags explain
    the reported reason, the io_uring lane is reported exactly when nothing
    speaks against it (which, without an executor, is never), the compat lane
    exactly under the kill switch, and queue depth is left exactly when it is
    within the budget. *)
Theorem lane_telemetry_explains config input :
  let '(d, t) := decide_io_uring_lane_with_telemetry config input in
  ld_fallback_reason d = explained_by t ∧ lt_fallback_code t = as_code <$> explained_by t ∧
  (ld_lane d = LaneIoUring ↔ explained_by t = None) ∧ ld_lane d ≠ LaneIoUring ∧
  (ld_lane d = LaneCompat ↔ li_force_compat_lane input = true) ∧
  (lt_queue_depth_within_budget t = true ↔ 0 < lt_queue_depth_budget_remaining t).
Proof.
  unfold decide_io_uring_lane_with_telemetry, build_io_uring_lane_telemetry, fallback_code, decide_io_uring_lane, explained_by.
  cbn [lt_force_compat_lane lt_policy_enabled lt_ring_available lt_io_hint lt_capability_allowed lt_queue_depth_within_budget
    lt_executor_available lt_fallback_code lt_queue_depth_budget_remaining].
  assert ((li_queue_depth input <? lc_max_queue_depth config) = true ↔
    0 < sat_sub (lc_max_queue_depth config) (li_queue_depth input)) as ->.
  { unfold sat_sub. rw Z.ltb_lt. lia. }
  rw (Z.leb_antisym (li_queue_depth input)) /=.
  destruct (li_force_compat_lane input), (lc_enabled config), (lc_ring_available config), (is_io_heavy (li_io_hint input)),
    (allow_for_capability config (li_capability input)), (li_queue_depth input <? lc_max_queue_depth config); cbn; naive_solver.
Qed.
