(* ===== verification/GhostQueue.v ===== *)
(** * Ghost queues

    The "recently evicted" bookkeeping that [src/hostcall_s3_fifo.rs]
    ([push_ghost], [remove_ghost]) and [src/hostcall_queue.rs]
    ([record_ghost], [consume_ghost_hit]) both keep: a generation-ordered map
    [ghost_order], its inverse [ghost_lookup] and a generation counter.  It
    is shown to implement a bounded recency list. *)

From S2P Require Import Prelude.

(** ** Ordered maps keyed by [u64] *)

(** [BTreeMap::pop_first] needs the entry of the least key. *)
Definition min_entry {A} (e : Z * A) (o : option (Z * A)) : option (Z * A) :=
  match o with
  | None => Some e
  | Some e' => if e.1 <=? e'.1 then Some e else Some e'
  end.
Definition first_key_value {A} (m : gmap Z A) : option (Z * A) :=
  foldr min_entry None (map_to_list m).

Lemma foldr_min_entry {A} (l : list (Z * A)) :
  match foldr min_entry None l with
  | None => l = []
  | Some e => e ∈ l ∧ ∀ e', e' ∈ l → e.1 ≤ e'.1
  end.
Proof.
  induction l as [|x l IH]; simpl; [done|].
  destruct (foldr min_entry None l) as [e|]; simpl.
  - destruct IH as [He Hmin].
    destruct (Z.leb_spec x.1 e.1); (split; [set_solver|]);
      intros e' [->|H']%elem_of_cons; try lia; specialize (Hmin e' H'); lia.
  - subst l. split; [by left|]. intros e' ->%list_elem_of_singleton. lia.
Qed.

Lemma first_key_value_spec {A} (m : gmap Z A) :
  match first_key_value m with
  | None => m = ∅
  | Some (n, a) => m !! n = Some a ∧ ∀ n' a', m !! n' = Some a' → n ≤ n'
  end.
Proof.
  unfold first_key_value. pose proof (foldr_min_entry (map_to_list m)) as H.
  destruct (foldr min_entry None (map_to_list m)) as [[n a]|].
  - destruct H as [Hin Hmin]. split; [by apply elem_of_map_to_list|].
    intros n' a' H'%elem_of_map_to_list. apply (Hmin _ H').
  - by apply map_to_list_empty_iff.
Qed.

(** ** The structure *)

Section Ghost.
Context {K : Type} `{Countable K}.

Record Ghost := mkGhost {
  ghost_order : gmap Z K;
  ghost_lookup : gmap K Z;
  ghost_gen : Z;
}.

Definition ghost_new : Ghost := mkGhost ∅ ∅ 0.

(** "Prevent generation overflow": the first statement of both pushes. *)
Definition ghost_reset_at_max (g : Ghost) : Ghost :=
  if ghost_gen g =? u64_max then mkGhost ∅ ∅ 0 else g.

(** The second statement: a new generation for the key. *)
Definition ghost_touch (key : K) (g : Ghost) : Ghost :=
  let gen := sat_add u64_max (ghost_gen g) 1 in
  match ghost_lookup g !! key with
  | Some old_gen =>
      let lookup := <[key := gen]> (ghost_lookup g) in
      match ghost_order g !! old_gen with
      | Some k_reused => mkGhost (<[gen := k_reused]> (delete old_gen (ghost_order g))) lookup gen
      | None => mkGhost (ghost_order g) lookup gen
      end
  | None => mkGhost (<[gen := key]> (ghost_order g)) (<[key := gen]> (ghost_lookup g)) gen
  end.

(** The body of the eviction loop ([pop_first], then [remove]). *)
Definition ghost_pop_first (g : Ghost) : Ghost :=
  match first_key_value (ghost_order g) with
  | Some (n, popped_key) =>
      mkGhost (delete n (ghost_order g)) (delete popped_key (ghost_lookup g)) (ghost_gen g)
  | None => g
  end.

(** The loop runs while the lookup is over capacity and the order is not
    empty (its [break]). *)
Definition ghost_over (capacity : Z) (g : Ghost) : bool :=
  (capacity <? Z.of_nat (size (ghost_lookup g)))
  && match first_key_value (ghost_order g) with Some _ => true | None => false end.

Definition ghost_trim (capacity : Z) (g : Ghost) : Ghost :=
  while_fuel (ghost_over capacity) ghost_pop_first (size (ghost_order g)) g.

Definition push_ghost (capacity : Z) (key : K) (g : Ghost) : Ghost :=
  ghost_trim capacity (ghost_touch key (ghost_reset_at_max g)).

Definition remove_ghost (key : K) (g : Ghost) : Ghost :=
  match ghost_lookup g !! key with
  | Some generation =>
      mkGhost (delete generation (ghost_order g)) (delete key (ghost_lookup g)) (ghost_gen g)
  | None => g
  end.
End Ghost.
Arguments Ghost K {_ _}.

(** ** Refinement: a bounded recency list

    The abstract state is the list of keys, oldest first; [ghost_repr g es]
    relates a concrete state to the entries in generation order, of which the
    abstract list is the second column. *)
Section Refinement.
Context {K : Type} `{Countable K}.
Implicit Types (g : Ghost K) (es : list (Z * K)).

Definition swap_entry (e : Z * K) : K * Z := (e.2, e.1).

Definition gen_lt (a b : Z * K) : Prop := a.1 < b.1.

Record ghost_repr g es : Prop := mk_ghost_repr {
  gr_sorted : StronglySorted gen_lt es;
  gr_nodup : NoDup es.*2;
  gr_order : ∀ n k, ghost_order g !! n = Some k ↔ (n, k) ∈ es;
  gr_lookup : ∀ n k, ghost_lookup g !! k = Some n ↔ (n, k) ∈ es;
  gr_gen : Forall (λ e : Z * K, e.1 ≤ ghost_gen g) es;
  gr_range : in_u64 (ghost_gen g);
}.

Lemma ghost_repr_new : ghost_repr ghost_new [].
Proof.
  split; simpl; [constructor|constructor| | |constructor|int_lia];
    intros n k; rw lookup_empty; (split; [done|]); by intros ?%not_elem_of_nil.
Qed.

Lemma repr_lookup_dom g es k : ghost_repr g es → is_Some (ghost_lookup g !! k) ↔ k ∈ es.*2.
Proof.
  intros Hr. rw list_elem_of_fmap. split.
  - intros [n Hn%(gr_lookup _ _ Hr)]. by exists (n, k).
  - intros ([n k'] & -> & Hin). exists n. by apply (gr_lookup _ _ Hr).
Qed.

(** Both maps are determined by the entries. *)
Lemma repr_lookup_map g es : ghost_repr g es → ghost_lookup g = list_to_map (swap_entry <$> es).
Proof.
  intros Hr. apply map_eq. intros k. apply option_eq. intros n.
  rw (gr_lookup _ _ Hr) -elem_of_list_to_map.
  - rw list_elem_of_fmap. unfold swap_entry. split; [by exists (n, k)|].
    intros ([n' k'] & Heq & ?). by simplify_eq/=.
  - rw -list_fmap_compose. exact (gr_nodup _ _ Hr).
Qed.

Lemma sorted_keys_nodup es : StronglySorted gen_lt es → NoDup es.*1.
Proof.
  intros Hs. apply (StronglySorted_irrefl_NoDup (λ a b : Z, a < b)); [lia|].
  by eapply StronglySorted_fmap; [|exact Hs].
Qed.

Lemma repr_order_map g es : ghost_repr g es → ghost_order g = list_to_map es.
Proof.
  intros Hr. apply map_eq. intros n. apply option_eq. intros k.
  rw (gr_order _ _ Hr) -elem_of_list_to_map //.
  apply sorted_keys_nodup, (gr_sorted _ _ Hr).
Qed.

Lemma repr_lookup_size g es : ghost_repr g es → size (ghost_lookup g) = length es.
Proof.
  intros Hr. rw (repr_lookup_map _ _ Hr).
  rw -(length_fmap swap_entry es) -length_map_to_list.
  apply Permutation_length, map_to_list_to_map.
  rw -list_fmap_compose. exact (gr_nodup _ _ Hr).
Qed.

Lemma repr_order_size g es : ghost_repr g es → size (ghost_order g) = length es.
Proof.
  intros Hr. rw (repr_order_map _ _ Hr) -length_map_to_list.
  apply Permutation_length, map_to_list_to_map, sorted_keys_nodup, (gr_sorted _ _ Hr).
Qed.

(** The least generation is the head of the entries. *)
Lemma repr_first g es : ghost_repr g es → first_key_value (ghost_order g) = head es.
Proof.
  intros Hr. pose proof (first_key_value_spec (ghost_order g)) as Hf.
  destruct (first_key_value (ghost_order g)) as [[n k]|].
  - destruct Hf as [Hin Hmin]. apply (gr_order _ _ Hr) in Hin.
    pose proof (gr_sorted _ _ Hr) as Hs.
    destruct es as [|[n0 k0] es]; [by apply not_elem_of_nil in Hin|]. simpl.
    assert (n ≤ n0).
    { apply (Hmin n0 k0), (gr_order _ _ Hr). by left. }
    apply StronglySorted_inv in Hs as [_ Hall]. rw Forall_forall in Hall.
    apply elem_of_cons in Hin as [->|Hin]; [done|].
    specialize (Hall _ Hin). unfold gen_lt in Hall. simpl in Hall. lia.
  - destruct es as [|[n0 k0] es]; [done|].
    assert (ghost_order g !! n0 = Some k0) as Ho by (apply (gr_order _ _ Hr); by left).
    rw Hf in Ho. done.
Qed.

Lemma repr_tail g e es :
  ghost_repr g (e :: es) → ghost_repr (ghost_pop_first g) es.
Proof.
  intros Hr. unfold ghost_pop_first. rw (repr_first _ _ Hr) /=.
  destruct e as [n0 k0]. destruct Hr as [Hs Hn Ho Hl Hg Hrg]. simpl in *.
  apply StronglySorted_inv in Hs as [Hs Hall]. apply NoDup_cons in Hn as [Hk Hn].
  assert (n0 ∉ es.*1) as Hn0.
  { intros ([n k] & -> & Hin)%list_elem_of_fmap. rw Forall_forall in Hall.
    specialize (Hall _ Hin). unfold gen_lt in Hall. simpl in Hall. lia. }
  apply Forall_cons in Hg as [_ Hg].
  split; simpl; try done.
  - intros n k. rw lookup_delete_Some Ho elem_of_cons. split; [naive_solver|].
    intros Hin. split; [|by right]. intros ->. apply Hn0, list_elem_of_fmap. by exists (n, k).
  - intros n k. rw lookup_delete_Some Hl elem_of_cons. split; [naive_solver|].
    intros Hin. split; [|by right]. intros ->. apply Hk, list_elem_of_fmap. by exists (n, k).
Qed.

(** The eviction loop keeps the newest [capacity] entries. *)
Lemma ghost_trim_repr capacity g es :
  0 ≤ capacity → ghost_repr g es →
  ghost_repr (ghost_trim capacity g) (drop (length es - Z.to_nat capacity) es).
Proof.
  intros Hc Hr. unfold ghost_trim. rw (repr_order_size _ _ Hr).
  revert g Hr. induction es as [|e es IH]; intros g Hr; [done|].
  cbn [length while_fuel]. unfold ghost_over at 1.
  rw (repr_lookup_size _ _ Hr) (repr_first _ _ Hr). cbn [head length].
  destruct (Z.ltb_spec capacity (Z.of_nat (S (length es)))); cbn [andb].
  - replace (S (length es) - Z.to_nat capacity)%nat with (S (length es - Z.to_nat capacity))
      by lia. cbn [drop]. apply IH. by eapply repr_tail.
  - by replace (S (length es) - Z.to_nat capacity)%nat with 0%nat by lia.
Qed.

Definition other_key (key : K) (e : Z * K) : Prop := e.2 ≠ key.

Lemma repr_key_unique g es n n' k : ghost_repr g es → (n, k) ∈ es → (n', k) ∈ es → n = n'.
Proof. intros Hr H1%(gr_lookup _ _ Hr) H2%(gr_lookup _ _ Hr). congruence. Qed.

Lemma repr_gen_unique g es n k k' : ghost_repr g es → (n, k) ∈ es → (n, k') ∈ es → k = k'.
Proof. intros Hr H1%(gr_order _ _ Hr) H2%(gr_order _ _ Hr). congruence. Qed.

Lemma remove_ghost_repr key g es :
  ghost_repr g es → ghost_repr (remove_ghost key g) (filter (other_key key) es).
Proof.
  intros Hr. unfold remove_ghost.
  assert (Forall (λ e : Z * K, e.1 ≤ ghost_gen g) (filter (other_key key) es)) as Hgen.
  { apply Forall_forall. intros e [_ He]%list_elem_of_filter.
    exact (proj1 (Forall_forall _ _) (gr_gen _ _ Hr) e He). }
  destruct (ghost_lookup g !! key) as [n0|] eqn:E.
  - apply (gr_lookup _ _ Hr) in E.
    split; simpl; try done; [|..|exact (gr_range _ _ Hr)];
      [by apply StronglySorted_filter, (gr_sorted _ _ Hr)
      |by apply NoDup_fmap_filter, (gr_nodup _ _ Hr)|..]; intros n k;
      rw lookup_delete_Some list_elem_of_filter ?(gr_order _ _ Hr) ?(gr_lookup _ _ Hr);
      unfold other_key; simpl; split; intros [Hne Hin]; (split; [|done]); intros ->;
      apply Hne; eauto using repr_key_unique, repr_gen_unique.
  - assert (filter (other_key key) es = es) as ->; [|done].
    apply filter_all, Forall_forall. intros [n k] Hin Hk.
    simpl in Hk. subst k. apply (gr_lookup _ _ Hr) in Hin. congruence.
Qed.

Lemma ghost_touch_repr key g es :
  ghost_repr g es → ghost_gen g < u64_max →
  ghost_repr (ghost_touch key g) (filter (other_key key) es ++ [(ghost_gen g + 1, key)]).
Proof.
  intros Hr Hmax. unfold ghost_touch.
  pose proof (gr_range _ _ Hr) as Hrange. rw sat_add_exact; [|lia].
  set (gen := ghost_gen g + 1).
  assert (∀ n k, (n, k) ∈ es → n ≠ gen) as Hfresh.
  { intros n k Hin. pose proof (proj1 (Forall_forall _ _) (gr_gen _ _ Hr) _ Hin).
    simpl in *. lia. }
  assert (∀ n k, (n, k) ∈ filter (other_key key) es ++ [(gen, key)] ↔
            (k ≠ key ∧ (n, k) ∈ es) ∨ (n = gen ∧ k = key)) as Hmem.
  { intros n k. rw elem_of_app list_elem_of_filter list_elem_of_singleton.
    unfold other_key. simpl. naive_solver. }
  assert (StronglySorted gen_lt (filter (other_key key) es ++ [(gen, key)])) as Hsorted.
  { apply StronglySorted_app_2;
      [|by apply StronglySorted_filter, (gr_sorted _ _ Hr)|by repeat constructor].
    intros [n k] ? [_ Hin]%list_elem_of_filter ->%list_elem_of_singleton. unfold gen_lt. simpl.
    pose proof (proj1 (Forall_forall _ _) (gr_gen _ _ Hr) _ Hin). simpl in *. lia. }
  assert (NoDup (filter (other_key key) es ++ [(gen, key)]).*2) as Hnodup.
  { rw fmap_app. apply NoDup_app. split_and!;
      [by apply NoDup_fmap_filter, (gr_nodup _ _ Hr)| |apply NoDup_singleton].
    intros k ([n k'] & -> & [Hne _]%list_elem_of_filter)%list_elem_of_fmap.
    rw /= list_elem_of_singleton. exact Hne. }
  assert (Forall (λ e : Z * K, e.1 ≤ gen) (filter (other_key key) es ++ [(gen, key)])) as Hgen.
  { apply Forall_forall. intros [n k] Hin%Hmem. simpl.
    destruct Hin as [[_ Hin]|[-> _]]; [|lia].
    pose proof (proj1 (Forall_forall _ _) (gr_gen _ _ Hr) _ Hin). simpl in *. lia. }
  assert (in_u64 gen) as Hin64 by (unfold in_u64 in *; lia).
  destruct (ghost_lookup g !! key) as [old|] eqn:E.
  - apply (gr_lookup _ _ Hr) in E as Eo. rw (proj2 (gr_order _ _ Hr old key) Eo).
    split; simpl; try done; intros n k; rw Hmem lookup_insert_Some.
    + rw lookup_delete_Some (gr_order _ _ Hr). split.
      * intros [[<- <-]|(? & ? & Hin)]; [by right|]. left. split; [|done]. intros ->.
        eauto using repr_key_unique.
      * intros [[Hne Hin]|[-> ->]]; [right|by left]. split_and!; [|..|done].
        -- intros <-. by eapply Hfresh.
        -- intros <-. apply Hne. eauto using repr_gen_unique.
    + rw (gr_lookup _ _ Hr). naive_solver.
  - assert (∀ n, (n, key) ∉ es) as Hno.
    { intros n Hin%(gr_lookup _ _ Hr). congruence. }
    split; simpl; try done; intros n k; rw Hmem lookup_insert_Some
      ?(gr_order _ _ Hr) ?(gr_lookup _ _ Hr); naive_solver.
Qed.

(** Entries at the start of a push: none when the generations ran out. *)
Definition push_entries g es : list (Z * K) := if ghost_gen g =? u64_max then [] else es.
Definition push_generation g : Z := if ghost_gen g =? u64_max then 1 else ghost_gen g + 1.

(** A push moves the key to the newest end and keeps the newest [capacity]
    keys. *)
Lemma push_ghost_repr capacity key g es :
  0 ≤ capacity → ghost_repr g es →
  let es' := filter (other_key key) (push_entries g es) ++ [(push_generation g, key)] in
  ghost_repr (push_ghost capacity key g) (drop (length es' - Z.to_nat capacity) es').
Proof.
  intros Hc Hr es'. unfold push_ghost. apply ghost_trim_repr; [done|].
  unfold es', push_entries, push_generation, ghost_reset_at_max.
  destruct (Z.eqb_spec (ghost_gen g) u64_max) as [E|E].
  - apply (ghost_touch_repr key _ _ ghost_repr_new). done.
  - apply ghost_touch_repr; [done|]. pose proof (gr_range _ _ Hr). unfold in_u64 in *. lia.
Qed.

(** What the components that use the structure need: the keys it holds. *)
Definition ghost_wf (capacity : Z) g : Prop :=
  (∃ es, ghost_repr g es) ∧ Z.of_nat (size (ghost_lookup g)) ≤ capacity.

Definition in_ghost g (k : K) : Prop := is_Some (ghost_lookup g !! k).

Lemma ghost_wf_new capacity : 0 ≤ capacity → ghost_wf capacity ghost_new.
Proof. intros. split; [exists []; apply ghost_repr_new|]. done. Qed.

Lemma ghost_wf_remove capacity key g : ghost_wf capacity g → ghost_wf capacity (remove_ghost key g).
Proof.
  intros [[es Hr] Hs]. pose proof (remove_ghost_repr key _ _ Hr) as Hr'. split; [eauto|].
  rw (repr_lookup_size _ _ Hr'). rw (repr_lookup_size _ _ Hr) in Hs.
  pose proof (length_filter (other_key key) es). lia.
Qed.

Lemma in_remove_ghost capacity key g k :
  ghost_wf capacity g → in_ghost (remove_ghost key g) k ↔ in_ghost g k ∧ k ≠ key.
Proof.
  intros [[es Hr] _]. unfold in_ghost.
  rw (repr_lookup_dom _ _ _ (remove_ghost_repr key _ _ Hr)) (repr_lookup_dom _ _ _ Hr).
  rw !list_elem_of_fmap. setoid_rewrite list_elem_of_filter. unfold other_key. naive_solver.
Qed.

Lemma ghost_wf_push capacity key g :
  0 ≤ capacity → ghost_wf capacity g → ghost_wf capacity (push_ghost capacity key g).
Proof.
  intros Hc [[es Hr] _]. pose proof (push_ghost_repr capacity key _ _ Hc Hr) as Hr'.
  split; [eauto|]. rw (repr_lookup_size _ _ Hr') length_drop. lia.
Qed.

(** A push adds no key but its own. *)
Lemma in_push_ghost capacity key g k :
  0 ≤ capacity → ghost_wf capacity g →
  in_ghost (push_ghost capacity key g) k → in_ghost g k ∨ k = key.
Proof.
  intros Hc [[es Hr] _]. pose proof (push_ghost_repr capacity key _ _ Hc Hr) as Hr'.
  unfold in_ghost. rw (repr_lookup_dom _ _ _ Hr') (repr_lookup_dom _ _ _ Hr).
  rw !list_elem_of_fmap. intros ([n k'] & -> & Hin). apply list_elem_of_lookup_1 in Hin as [i Hi].
  rw lookup_drop in Hi. apply list_elem_of_lookup_2 in Hi.
  apply elem_of_app in Hi as [[_ Hi]%list_elem_of_filter|Hi%list_elem_of_singleton].
  - left. exists (n, k'). split; [done|]. unfold push_entries in Hi.
    case_match; [by apply not_elem_of_nil in Hi|done].
  - right. by simplify_eq/=.
Qed.

(** With room for one key, the pushed key is the newest one kept. *)
Lemma push_ghost_in capacity key g :
  1 ≤ capacity → ghost_wf capacity g → in_ghost (push_ghost capacity key g) key.
Proof.
  intros Hc [[es Hr] _]. assert (0 ≤ capacity) as Hc0 by lia.
  pose proof (push_ghost_repr capacity key _ _ Hc0 Hr) as Hr'.
  unfold in_ghost. rw (repr_lookup_dom _ _ _ Hr') list_elem_of_fmap.
  exists (push_generation g, key). split; [done|]. rw length_app /=.
  rw drop_app_le; [|lia]. apply elem_of_app. right. by left.
Qed.
End Refinement.

(** The abstract recency list of a ghost queue, oldest key first. *)
Definition recency `{Countable K} (g : Ghost K) (keys : list K) : Prop :=
  ∃ es, ghost_repr g es ∧ keys = es.*2.

(** The generation-ordered maps implement a bounded recency list: a push
    removes the key from the list, appends it at the newest end and drops the
    oldest keys beyond the capacity (all of them when the 64-bit generations
    run out); a removal deletes the key.  The list determines the lookup. *)
Theorem ghost_refines_recency_list `{Countable K} (g : Ghost K) keys capacity key :
  recency g keys → 0 ≤ capacity →
  (∀ k, is_Some (ghost_lookup g !! k) ↔ k ∈ keys) ∧ NoDup keys ∧
  recency (remove_ghost key g) (filter (λ k, k ≠ key) keys) ∧
  recency (push_ghost capacity key g)
    (let keys' := filter (λ k, k ≠ key) (if ghost_gen g =? u64_max then [] else keys) ++ [key] in
     drop (length keys' - Z.to_nat capacity) keys').
Proof.
  intros (es & Hr & ->) Hc.
  assert (∀ l : list (Z * K), (filter (other_key key) l).*2 = filter (λ k, k ≠ key) l.*2) as Hf.
  { intros l. induction l as [|e l IH]; [done|]. rw fmap_cons !filter_cons.
    repeat case_decide; unfold other_key in *; rw ?fmap_cons ?IH; solve [done | tauto]. }
  split_and!.
  - intros k. by apply repr_lookup_dom.
  - apply (gr_nodup _ _ Hr).
  - exists (filter (other_key key) es). split; [by apply remove_ghost_repr|done].
  - eexists. split; [by apply push_ghost_repr|].
    unfold push_entries. case_match; rw fmap_drop fmap_app Hf /= ?length_app; [done|].
    by rw -Hf length_fmap.
Qed.

Lemma ghost_refines_recency_list_witness :
  recency (push_ghost 1 7 (ghost_new : Ghost Z)) [7].
Proof.
  destruct (ghost_refines_recency_list (ghost_new : Ghost Z) [] 1 7) as (_ & _ & _ & Hpush);
    [exists []; split; [apply ghost_repr_new|reflexivity]|lia|exact Hpush].
Defined.
