(* ===== verification/S3Fifo.v ===== *)
(** * S3-FIFO admission policy ([src/hostcall_s3_fifo.rs])

    The tri-queue admission controller: probationary [small] and protected
    [main] queues of live keys, ghosts of evicted keys, per-owner budgets and
    a latched fallback.  [K] is the key type; owners are strings. *)

From S2P Require Import Prelude Text GhostQueue.

Inductive S3FifoFallbackReason := SignalQualityInsufficient | FairnessInstability.

Inductive S3FifoTier := TierSmall | TierMain | TierGhost | TierFallback.

Inductive S3FifoDecisionKind :=
| AdmitSmall | PromoteSmallToMain | HitMain | AdmitFromGhost | RejectFairnessBudget
| FallbackBypass.

#[global] Instance S3FifoDecisionKind_eq_dec : EqDecision S3FifoDecisionKind.
Proof. solve_decision. Defined.

Record S3FifoDecision := mkS3FifoDecision {
  d_kind : S3FifoDecisionKind;
  d_tier : S3FifoTier;
  d_ghost_hit : bool;
  d_fallback_reason : option S3FifoFallbackReason;
  d_live_depth : Z;
  d_small_depth : Z;
  d_main_depth : Z;
  d_ghost_depth : Z;
}.

Record S3FifoConfig := mkS3FifoConfig {
  live_capacity : Z;
  small_capacity : Z;
  ghost_capacity : Z;
  max_entries_per_owner : Z;
  fallback_window : Z;
  min_ghost_hits_in_window : Z;
  max_budget_rejections_in_window : Z;
}.

Definition S3FifoConfig_default : S3FifoConfig := mkS3FifoConfig 256 64 512 64 32 2 12.

Inductive LiveTier := LSmall | LMain.
#[global] Instance LiveTier_eq_dec : EqDecision LiveTier.
Proof. solve_decision. Defined.

Record DecisionSignal := mkSignal { s_ghost_hit : bool; s_budget_rejected : bool }.

Section Policy.
Context {K : Type} `{Countable K}.

Record S3FifoTelemetry := mkS3FifoTelemetry {
  t_fallback_reason : option S3FifoFallbackReason;
  t_small_depth : Z;
  t_main_depth : Z;
  t_ghost_depth : Z;
  t_live_depth : Z;
  t_ghost_hits_total : Z;
  t_admissions_total : Z;
  t_promotions_total : Z;
  t_budget_rejections_total : Z;
  t_owner_live_counts : gmap Str Z;
}.

(** The fields [ghost_order], [ghost_lookup] and [ghost_gen] are [ghost]. *)
Record S3FifoPolicy := mkS3FifoPolicy {
  cfg : S3FifoConfig;
  small : list K;
  main : list K;
  ghost : Ghost K;
  live_tiers : gmap K LiveTier;
  live_owners : gmap K Str;
  owner_live_counts : gmap Str Z;
  recent_signals : list DecisionSignal;
  fallback_reason : option S3FifoFallbackReason;
  ghost_hits_total : Z;
  admissions_total : Z;
  promotions_total : Z;
  budget_rejections_total : Z;
}.

(** Field assignments. *)
Definition set_small v p := mkS3FifoPolicy (cfg p) v (main p) (ghost p) (live_tiers p)
  (live_owners p) (owner_live_counts p) (recent_signals p) (fallback_reason p)
  (ghost_hits_total p) (admissions_total p) (promotions_total p) (budget_rejections_total p).
Definition set_main v p := mkS3FifoPolicy (cfg p) (small p) v (ghost p) (live_tiers p)
  (live_owners p) (owner_live_counts p) (recent_signals p) (fallback_reason p)
  (ghost_hits_total p) (admissions_total p) (promotions_total p) (budget_rejections_total p).
Definition set_ghost v p := mkS3FifoPolicy (cfg p) (small p) (main p) v (live_tiers p)
  (live_owners p) (owner_live_counts p) (recent_signals p) (fallback_reason p)
  (ghost_hits_total p) (admissions_total p) (promotions_total p) (budget_rejections_total p).
Definition set_tiers v p := mkS3FifoPolicy (cfg p) (small p) (main p) (ghost p) v
  (live_owners p) (owner_live_counts p) (recent_signals p) (fallback_reason p)
  (ghost_hits_total p) (admissions_total p) (promotions_total p) (budget_rejections_total p).
Definition set_owners v p := mkS3FifoPolicy (cfg p) (small p) (main p) (ghost p) (live_tiers p)
  v (owner_live_counts p) (recent_signals p) (fallback_reason p)
  (ghost_hits_total p) (admissions_total p) (promotions_total p) (budget_rejections_total p).
Definition set_counts v p := mkS3FifoPolicy (cfg p) (small p) (main p) (ghost p) (live_tiers p)
  (live_owners p) v (recent_signals p) (fallback_reason p)
  (ghost_hits_total p) (admissions_total p) (promotions_total p) (budget_rejections_total p).
Definition set_fallback sigs reason p := mkS3FifoPolicy (cfg p) (small p) (main p) (ghost p)
  (live_tiers p) (live_owners p) (owner_live_counts p) sigs reason
  (ghost_hits_total p) (admissions_total p) (promotions_total p) (budget_rejections_total p).
Definition bump_ghost_hits p := mkS3FifoPolicy (cfg p) (small p) (main p) (ghost p) (live_tiers p)
  (live_owners p) (owner_live_counts p) (recent_signals p) (fallback_reason p)
  (sat_add u64_max (ghost_hits_total p) 1) (admissions_total p) (promotions_total p)
  (budget_rejections_total p).
Definition bump_admissions p := mkS3FifoPolicy (cfg p) (small p) (main p) (ghost p) (live_tiers p)
  (live_owners p) (owner_live_counts p) (recent_signals p) (fallback_reason p)
  (ghost_hits_total p) (sat_add u64_max (admissions_total p) 1) (promotions_total p)
  (budget_rejections_total p).
Definition bump_promotions p := mkS3FifoPolicy (cfg p) (small p) (main p) (ghost p) (live_tiers p)
  (live_owners p) (owner_live_counts p) (recent_signals p) (fallback_reason p)
  (ghost_hits_total p) (admissions_total p) (sat_add u64_max (promotions_total p) 1)
  (budget_rejections_total p).
Definition bump_rejections p := mkS3FifoPolicy (cfg p) (small p) (main p) (ghost p) (live_tiers p)
  (live_owners p) (owner_live_counts p) (recent_signals p) (fallback_reason p)
  (ghost_hits_total p) (admissions_total p) (promotions_total p)
  (sat_add u64_max (budget_rejections_total p) 1).

Definition policy_new (config : S3FifoConfig) : S3FifoPolicy :=
  let live := Z.max (live_capacity config) 2 in
  let small_cap_floor := Z.max (sat_sub live 1) 1 in
  let smallc := Z.min (Z.max (small_capacity config) 1) small_cap_floor in
  let window := Z.max (fallback_window config) 1 in
  mkS3FifoPolicy
    (mkS3FifoConfig live smallc (Z.max (ghost_capacity config) 1)
       (Z.max (max_entries_per_owner config) 1) window
       (Z.min (min_ghost_hits_in_window config) window)
       (Z.min (max_budget_rejections_in_window config) window))
    [] [] ghost_new ∅ ∅ ∅ [] None 0 0 0 0.

Definition live_depth (p : S3FifoPolicy) : Z := sat_add usize_max (len (small p)) (len (main p)).
Definition ghost_depth (p : S3FifoPolicy) : Z := Z.of_nat (size (ghost_lookup (ghost p))).

Definition telemetry (p : S3FifoPolicy) : S3FifoTelemetry :=
  mkS3FifoTelemetry (fallback_reason p) (len (small p)) (len (main p)) (ghost_depth p)
    (live_depth p) (ghost_hits_total p) (admissions_total p) (promotions_total p)
    (budget_rejections_total p) (owner_live_counts p).

Definition clear_fallback (p : S3FifoPolicy) : S3FifoPolicy := set_fallback [] None p.

Definition resolve_tier (kind : S3FifoDecisionKind) (ghost_hit : bool) : S3FifoTier :=
  match kind with
  | HitMain | PromoteSmallToMain | AdmitFromGhost => TierMain
  | AdmitSmall => TierSmall
  | RejectFairnessBudget => if ghost_hit then TierGhost else TierSmall
  | FallbackBypass => TierFallback
  end.

Definition decision (p : S3FifoPolicy) (kind : S3FifoDecisionKind) (tier : S3FifoTier)
    (ghost_hit : bool) (reason : option S3FifoFallbackReason) : S3FifoDecision :=
  mkS3FifoDecision kind tier ghost_hit reason (live_depth p) (len (small p)) (len (main p))
    (ghost_depth p).

Definition owner_at_budget (p : S3FifoPolicy) (owner : Str) : bool :=
  max_entries_per_owner (cfg p) <=? default 0 (owner_live_counts p !! owner).

Definition main_capacity (p : S3FifoPolicy) : Z :=
  sat_sub (live_capacity (cfg p)) (small_capacity (cfg p)).

Definition increment_owner (owner : Str) (p : S3FifoPolicy) : S3FifoPolicy :=
  match owner_live_counts p !! owner with
  | Some count => set_counts (<[owner := sat_add usize_max count 1]> (owner_live_counts p)) p
  | None => set_counts (<[owner := 1]> (owner_live_counts p)) p
  end.

Definition decrement_owner (owner : Str) (p : S3FifoPolicy) : S3FifoPolicy :=
  match owner_live_counts p !! owner with
  | Some count =>
      if 1 <? count then set_counts (<[owner := count - 1]> (owner_live_counts p)) p
      else set_counts (delete owner (owner_live_counts p)) p
  | None => p
  end.

Definition remove_owner_for_key (key : K) (p : S3FifoPolicy) : S3FifoPolicy :=
  match live_owners p !! key with
  | Some owner => decrement_owner owner (set_owners (delete key (live_owners p)) p)
  | None => p
  end.

Definition push_ghost_key (key : K) (p : S3FifoPolicy) : S3FifoPolicy :=
  set_ghost (push_ghost (ghost_capacity (cfg p)) key (ghost p)) p.

Definition evict_small_front_to_ghost (p : S3FifoPolicy) : S3FifoPolicy :=
  match small p with
  | [] => p
  | key :: rest =>
      push_ghost_key key (remove_owner_for_key key
        (set_tiers (delete key (live_tiers p)) (set_small rest p)))
  end.

Definition evict_main_front_to_ghost (p : S3FifoPolicy) : S3FifoPolicy :=
  match main p with
  | [] => p
  | key :: rest =>
      push_ghost_key key (remove_owner_for_key key
        (set_tiers (delete key (live_tiers p)) (set_main rest p)))
  end.

Definition enforce_small_capacity (p : S3FifoPolicy) : S3FifoPolicy :=
  while_fuel (λ p, small_capacity (cfg p) <? len (small p)) evict_small_front_to_ghost
    (length (small p)) p.

Definition enforce_main_capacity (p : S3FifoPolicy) : S3FifoPolicy :=
  while_fuel (λ p, main_capacity p <? len (main p)) evict_main_front_to_ghost
    (length (main p)) p.

Definition enforce_live_capacity (p : S3FifoPolicy) : S3FifoPolicy :=
  while_fuel (λ p, live_capacity (cfg p) <? live_depth p)
    (λ p, match small p with
          | [] => evict_main_front_to_ghost p
          | _ :: _ => evict_small_front_to_ghost p
          end)
    (length (small p) + length (main p)) p.

Definition remove_live_key (key : K) (p : S3FifoPolicy) : S3FifoPolicy :=
  match live_tiers p !! key with
  | Some tier =>
      let p1 := set_tiers (delete key (live_tiers p)) p in
      let p2 := match tier with
                | LSmall => set_small (remove_first key (small p1)) p1
                | LMain => set_main (remove_first key (main p1)) p1
                end in
      remove_owner_for_key key p2
  | None => p
  end.

Definition remove_ghost_key (key : K) (p : S3FifoPolicy) : S3FifoPolicy :=
  set_ghost (remove_ghost key (ghost p)) p.

Definition purge_key (key : K) (p : S3FifoPolicy) : S3FifoPolicy :=
  remove_ghost_key key (remove_live_key key p).

Definition admit_small (owner : Str) (key : K) (p : S3FifoPolicy) : S3FifoPolicy :=
  let p := purge_key key p in
  let p := set_small (small p ++ [key]) p in
  let p := set_tiers (<[key := LSmall]> (live_tiers p)) p in
  let p := set_owners (<[key := owner]> (live_owners p)) p in
  enforce_live_capacity (enforce_small_capacity (increment_owner owner p)).

Definition admit_from_ghost (owner : Str) (key : K) (p : S3FifoPolicy) : S3FifoPolicy :=
  let p := remove_ghost_key key p in
  let p := set_main (main p ++ [key]) p in
  let p := set_tiers (<[key := LMain]> (live_tiers p)) p in
  let p := set_owners (<[key := owner]> (live_owners p)) p in
  enforce_live_capacity (enforce_main_capacity (increment_owner owner p)).

Definition promote_small_to_main (key : K) (p : S3FifoPolicy) : S3FifoPolicy :=
  let p := set_small (remove_first key (small p)) p in
  let p := set_main (main p ++ [key]) p in
  let p := set_tiers (<[key := LMain]> (live_tiers p)) p in
  enforce_live_capacity (enforce_main_capacity p).

Definition touch_main (key : K) (p : S3FifoPolicy) : S3FifoPolicy :=
  set_main (remove_first key (main p) ++ [key]) p.

(** The loop pops at most once, since the window was full before. *)
Definition record_signal (signal : DecisionSignal) (p : S3FifoPolicy) : S3FifoPolicy :=
  let sigs := recent_signals p ++ [signal] in
  set_fallback
    (while_fuel (λ l, fallback_window (cfg p) <? len l) tail (length sigs) sigs)
    (fallback_reason p) p.

(** [saturating_add] cannot saturate: the counters are bounded by the
    window. *)
Definition count_signals (f : DecisionSignal → bool) (l : list DecisionSignal) : Z :=
  foldl (λ n s, if f s then sat_add usize_max n 1 else n) 0 l.

Definition evaluate_fallback (p : S3FifoPolicy) : S3FifoPolicy :=
  match fallback_reason p with
  | Some _ => p
  | None =>
      if len (recent_signals p) <? fallback_window (cfg p) then p
      else if count_signals s_ghost_hit (recent_signals p) <? min_ghost_hits_in_window (cfg p)
      then set_fallback (recent_signals p) (Some SignalQualityInsufficient) p
      else if max_budget_rejections_in_window (cfg p)
                <? count_signals s_budget_rejected (recent_signals p)
      then set_fallback (recent_signals p) (Some FairnessInstability) p
      else p
  end.

(** The key-dependent part of [access]: the new state, the kind of decision
    and whether a ghost was hit. *)
Definition access_kind (owner : Str) (key : K) (p : S3FifoPolicy)
    : S3FifoPolicy * S3FifoDecisionKind * bool :=
  match live_tiers p !! key with
  | Some LMain => (touch_main key p, HitMain, false)
  | Some LSmall => (bump_promotions (promote_small_to_main key p), PromoteSmallToMain, false)
  | None =>
      match ghost_lookup (ghost p) !! key with
      | Some _ =>
          let p := bump_ghost_hits p in
          if owner_at_budget p owner then (bump_rejections p, RejectFairnessBudget, true)
          else (bump_admissions (admit_from_ghost owner key p), AdmitFromGhost, true)
      | None =>
          if owner_at_budget p owner then (bump_rejections p, RejectFairnessBudget, false)
          else (bump_admissions (admit_small owner key p), AdmitSmall, false)
      end
  end.

Definition access (owner : Str) (key : K) (p : S3FifoPolicy) : S3FifoPolicy * S3FifoDecision :=
  match fallback_reason p with
  | Some reason => (p, decision p FallbackBypass TierFallback false (Some reason))
  | None =>
      let '(p1, kind, ghost_hit) := access_kind owner key p in
      let signal := mkSignal ghost_hit (bool_decide (kind = RejectFairnessBudget)) in
      let p2 := evaluate_fallback (record_signal signal p1) in
      (p2, decision p2 kind (resolve_tier kind ghost_hit) ghost_hit (fallback_reason p2))
  end.
End Policy.
Arguments S3FifoPolicy K {_ _}.

(** * Invariant *)

Section Invariant.
Context {K : Type} `{Countable K}.
Implicit Types (p q : S3FifoPolicy K) (k : K) (o : Str).

(** The number of live keys an owner holds, counted over the owner map. *)
Definition owned (owners : gmap K Str) o : Z :=
  Z.of_nat (size (filter (λ kv : K * Str, kv.2 = o) owners)).

Definition live_keys p : list K := small p ++ main p.

Record core_inv p : Prop := mk_core_inv {
  ci_nodup : NoDup (live_keys p);
  ci_small : ∀ k, live_tiers p !! k = Some LSmall ↔ k ∈ small p;
  ci_main : ∀ k, live_tiers p !! k = Some LMain ↔ k ∈ main p;
  ci_owned : ∀ k, is_Some (live_owners p !! k) ↔ k ∈ live_keys p;
  ci_counts : ∀ o, default 0 (owner_live_counts p !! o) = owned (live_owners p) o;
  ci_positive : ∀ o n, owner_live_counts p !! o = Some n → 0 < n ≤ usize_max;
  ci_ghost : ghost_wf (ghost_capacity (cfg p)) (ghost p);
  ci_disjoint : ∀ k, in_ghost (ghost p) k → k ∉ live_keys p;
  ci_capacity : 1 ≤ ghost_capacity (cfg p);
}.

(** What the evictions leave alone. *)
Record frame p q : Prop := mk_frame {
  fr_cfg : cfg q = cfg p;
  fr_signals : recent_signals q = recent_signals p;
  fr_reason : fallback_reason q = fallback_reason p;
}.

Lemma frame_refl p : frame p p.
Proof. done. Qed.
Lemma frame_trans p q r : frame p q → frame q r → frame p r.
Proof. intros [] []. split; congruence. Qed.

(** ** Owner counts *)

Lemma owned_insert owners k o o' :
  owners !! k = None →
  owned (<[k := o']> owners) o = owned owners o + (if decide (o' = o) then 1 else 0).
Proof.
  intros Hk. unfold owned. case_decide as E.
  - rw map_filter_insert_True //=. rw map_size_insert_None; [lia|].
    apply map_lookup_filter_None. by left.
  - rw map_filter_insert_False //= delete_id //. lia.
Qed.

Lemma owned_delete owners k o o' :
  owners !! k = Some o' →
  owned (delete k owners) o = owned owners o - (if decide (o' = o) then 1 else 0).
Proof.
  intros Hk. rw -{2}(insert_delete_id owners k o') // owned_insert; [lia|apply lookup_delete_eq].
Qed.

Lemma owned_nonneg owners o : 0 ≤ owned owners o.
Proof. unfold owned. lia. Qed.

(** An owner count map: positive [usize] counts. *)
Definition counts_ok (c : gmap Str Z) : Prop := ∀ o n, c !! o = Some n → 0 < n ≤ usize_max.

Lemma decrement_owner_spec p o :
  counts_ok (owner_live_counts p) → is_Some (owner_live_counts p !! o) →
  ∃ c, decrement_owner o p = set_counts c p ∧ counts_ok c ∧
    ∀ o', default 0 (c !! o') =
          default 0 (owner_live_counts p !! o') - (if decide (o = o') then 1 else 0).
Proof.
  intros Hok [n Hn]. unfold decrement_owner. rw Hn. pose proof (Hok o n Hn).
  destruct (Z.ltb_spec 1 n); eexists; (split; [done|]); split.
  - intros o' m [[<- <-]|[? ?%Hok]]%lookup_insert_Some; [lia|done].
  - intros o'. rw lookup_insert. case_decide; subst; rw ?Hn /=; lia.
  - intros o' m [? ?%Hok]%lookup_delete_Some. done.
  - intros o'. rw lookup_delete. case_decide; subst; rw ?Hn /=; lia.
Qed.

Lemma increment_owner_spec p o :
  counts_ok (owner_live_counts p) → default 0 (owner_live_counts p !! o) < usize_max →
  ∃ c, increment_owner o p = set_counts c p ∧ counts_ok c ∧
    ∀ o', default 0 (c !! o') =
          default 0 (owner_live_counts p !! o') + (if decide (o = o') then 1 else 0).
Proof.
  intros Hok Hlt. unfold increment_owner.
  destruct (owner_live_counts p !! o) as [n|] eqn:Hn; simpl in Hlt;
    eexists; (split; [done|]); split.
  - pose proof (Hok o n Hn). unfold usize_max in *. rw sat_add_exact; [|lia].
    intros o' m [[<- <-]|[? ?%Hok]]%lookup_insert_Some; unfold usize_max in *; lia.
  - intros o'. unfold usize_max in *. rw sat_add_exact; [|lia].
    rw lookup_insert. case_decide; subst; rw ?Hn /=; lia.
  - intros o' m [[<- <-]|[? ?%Hok]]%lookup_insert_Some; unfold usize_max in *; lia.
  - intros o'. rw lookup_insert. case_decide; subst; rw ?Hn /=; lia.
Qed.

(** ** Removing and adding a live key *)

Lemma core_owner p k :
  core_inv p → k ∈ live_keys p →
  ∃ o, live_owners p !! k = Some o ∧ is_Some (owner_live_counts p !! o).
Proof.
  intros HI [o Ho]%(ci_owned _ HI). exists o. split; [done|].
  pose proof (ci_counts _ HI o) as Hc. pose proof (owned_delete _ _ o _ Ho) as Hd.
  pose proof (owned_nonneg (delete k (live_owners p)) o). rw decide_True // in Hd.
  destruct (owner_live_counts p !! o); [by eexists|]. simpl in Hc. lia.
Qed.

Lemma core_remove p k s' m' :
  core_inv p → k ∈ live_keys p →
  (∀ x, x ∈ s' ↔ x ∈ small p ∧ x ≠ k) → (∀ x, x ∈ m' ↔ x ∈ main p ∧ x ≠ k) →
  NoDup (s' ++ m') →
  let q := remove_owner_for_key k
             (set_tiers (delete k (live_tiers p)) (set_main m' (set_small s' p))) in
  core_inv q ∧ frame p q ∧ small q = s' ∧ main q = m' ∧
  live_owners q = delete k (live_owners p).
Proof.
  intros HI Hk Hs Hm Hnd. destruct (core_owner p k HI Hk) as (o & Ho & Hc).
  unfold remove_owner_for_key. cbn [live_owners set_tiers set_main set_small]. rw Ho.
  edestruct (decrement_owner_spec (set_owners (delete k (live_owners p))
    (set_tiers (delete k (live_tiers p)) (set_main m' (set_small s' p)))) o)
    as (c & -> & Hok & Hcount); [exact (ci_positive _ HI)|exact Hc|].
  split_and!; try done. destruct HI as [Hn Hsm Hmn How Hct Hps Hg Hd Hcap].
  split; simpl in *; try done.
  - intros x. rw lookup_delete_Some Hsm Hs. naive_solver.
  - intros x. rw lookup_delete_Some Hmn Hm. naive_solver.
  - intros x. unfold live_keys in *. simpl. rw elem_of_app Hs Hm.
    assert (is_Some (delete k (live_owners p) !! x) ↔ is_Some (live_owners p !! x) ∧ x ≠ k) as ->.
    { rw lookup_delete. case_decide; [|naive_solver].
      split; [by intros [? ?]|naive_solver]. }
    rw How elem_of_app. naive_solver.
  - intros o'. by rw Hcount Hct (owned_delete _ _ _ _ Ho).
  - intros x Hx%Hd. unfold live_keys in *. simpl. rw elem_of_app in Hx. rw elem_of_app Hs Hm. tauto.
Qed.

(** A key that is neither live nor a ghost joins [small] or [main] at the
    back, with an owner under its limit. *)
Lemma core_add p k o s' m' t :
  core_inv p → k ∉ live_keys p → ¬ in_ghost (ghost p) k →
  owned (live_owners p) o < usize_max →
  (s' = small p ++ [k] ∧ m' = main p ∧ t = LSmall ∨
   s' = small p ∧ m' = main p ++ [k] ∧ t = LMain) →
  let q := increment_owner o
             (set_owners (<[k := o]> (live_owners p))
                (set_tiers (<[k := t]> (live_tiers p)) (set_main m' (set_small s' p)))) in
  core_inv q ∧ frame p q ∧ small q = s' ∧ main q = m' ∧
  live_owners q = <[k := o]> (live_owners p).
Proof.
  intros HI Hk Hg Hlt Hq.
  assert (live_owners p !! k = None) as Hnone.
  { apply eq_None_not_Some. by rw (ci_owned _ HI). }
  edestruct (increment_owner_spec (set_owners (<[k := o]> (live_owners p))
    (set_tiers (<[k := t]> (live_tiers p)) (set_main m' (set_small s' p)))) o)
    as (c & -> & Hok & Hcount);
    [exact (ci_positive _ HI)|simpl; by rw (ci_counts _ HI)|].
  assert (Permutation (s' ++ m') (k :: live_keys p)) as Hperm.
  { unfold live_keys. destruct Hq as [(-> & -> & _)|(-> & -> & _)].
    - rw -app_assoc. symmetry. apply Permutation_middle.
    - rw app_assoc. symmetry. apply Permutation_cons_append. }
  destruct HI as [Hn Hsm Hmn How Hct Hps Hgw Hd Hcap].
  assert (live_tiers p !! k = None) as Htk.
  { destruct (live_tiers p !! k) as [[]|] eqn:E; [| |done]; exfalso; apply Hk;
      unfold live_keys; rw elem_of_app -Hsm -Hmn; auto. }
  split_and!; try done. split; simpl in *; try done.
  - unfold live_keys. simpl. rw Hperm. by apply NoDup_cons.
  - intros x. rw lookup_insert_Some Hsm.
    destruct Hq as [(-> & -> & ->)|(-> & -> & ->)];
      rw ?elem_of_app ?list_elem_of_singleton; [|naive_solver].
    destruct (decide (k = x)) as [<-|]; [naive_solver|]. naive_solver.
  - intros x. rw lookup_insert_Some Hmn.
    destruct Hq as [(-> & -> & ->)|(-> & -> & ->)];
      rw ?elem_of_app ?list_elem_of_singleton.
    + split; [naive_solver|]. intros Hx. right. split; [|done]. intros <-.
      apply Hmn in Hx. congruence.
    + destruct (decide (k = x)) as [<-|]; naive_solver.
  - intros x. unfold live_keys. simpl. rw Hperm elem_of_cons -How lookup_insert.
    case_decide; [|naive_solver]. naive_solver.
  - intros o'. by rw Hcount Hct owned_insert.
  - intros x Hx. unfold live_keys. simpl. rw Hperm not_elem_of_cons. split; [|auto].
    intros ->. done.
Qed.

Lemma core_push_ghost p k :
  core_inv p → k ∉ live_keys p → core_inv (push_ghost_key k p).
Proof.
  intros [Hn Hsm Hmn How Hct Hps Hgw Hd Hcap] Hk. split; simpl; try done.
  - apply ghost_wf_push; [lia|done].
  - intros x Hx. assert (0 ≤ ghost_capacity (cfg p)) as H0 by lia.
    destruct (in_push_ghost _ _ _ _ H0 Hgw Hx) as [Hx'| ->]; [by apply Hd|done].
Qed.

Lemma core_remove_ghost p k : core_inv p → core_inv (remove_ghost_key k p).
Proof.
  intros [Hn Hsm Hmn How Hct Hps Hgw Hd Hcap]. split; simpl; try done.
  - by apply ghost_wf_remove.
  - intros x [Hx _]%(in_remove_ghost _ _ _ _ Hgw). by apply Hd.
Qed.

(** ** Evictions and capacity loops *)

Lemma live_keys_disjoint p k : core_inv p → k ∈ small p → k ∉ main p.
Proof.
  intros HI Hs Hm. pose proof (ci_nodup _ HI) as Hn. unfold live_keys in Hn.
  apply NoDup_app in Hn as (_ & Hd & _). exact (Hd k Hs Hm).
Qed.

Definition evicted p q (s' m' : list K) : Prop :=
  core_inv q ∧ frame p q ∧ small q = s' ∧ main q = m' ∧
  ∀ o, owned (live_owners q) o ≤ owned (live_owners p) o.

Lemma owned_delete_le owners k o : owned (delete k owners) o ≤ owned owners o.
Proof.
  destruct (owners !! k) as [o'|] eqn:E.
  - rw (owned_delete _ _ _ _ E). case_decide; lia.
  - by rw delete_id.
Qed.

Lemma evict_small_spec p k s :
  core_inv p → small p = k :: s → evicted p (evict_small_front_to_ghost p) s (main p).
Proof.
  intros HI Hsm. pose proof (ci_nodup _ HI) as Hn. unfold live_keys in Hn. rw Hsm /= in Hn.
  apply NoDup_cons in Hn as [Hk Hn]. rw elem_of_app in Hk.
  destruct (core_remove p k s (main p) HI) as (HI' & Hf & Hs' & Hm' & Ho').
  { unfold live_keys. rw Hsm. by left. }
  { intros x. rw Hsm elem_of_cons. naive_solver. }
  { intros x. naive_solver. }
  { done. }
  unfold evict_small_front_to_ghost. rw Hsm. unfold evicted.
  split_and!; [|by destruct Hf|done|done|].
  - apply core_push_ghost; [exact HI'|]. unfold live_keys. rw Hs' Hm' elem_of_app. naive_solver.
  - intros o. simpl. rw Ho'. apply owned_delete_le.
Qed.

Lemma evict_main_spec p k m :
  core_inv p → main p = k :: m → evicted p (evict_main_front_to_ghost p) (small p) m.
Proof.
  intros HI Hmn. pose proof (ci_nodup _ HI) as Hn. unfold live_keys in Hn. rw Hmn in Hn.
  apply NoDup_app in Hn as (Hn1 & Hdis & Hn2). apply NoDup_cons in Hn2 as [Hk Hn2].
  destruct (core_remove p k (small p) m HI) as (HI' & Hf & Hs' & Hm' & Ho').
  { unfold live_keys. rw Hmn elem_of_app. right. by left. }
  { intros x. split; [|naive_solver]. intros Hx. split; [done|]. intros ->. eapply Hdis; [done|].
    by left. }
  { intros x. rw Hmn elem_of_cons. naive_solver. }
  { apply NoDup_app. split_and!; [done| |done]. intros x Hx Hxm. eapply Hdis; [done|]. by right. }
  unfold evict_main_front_to_ghost. rw Hmn. unfold evicted.
  split_and!; [|by destruct Hf|done|done|].
  - apply core_push_ghost; [exact HI'|]. unfold live_keys. rw Hs' Hm' elem_of_app.
    intros [Hin|Hin]; [|done]. eapply Hdis; [done|]. by left.
  - intros o. simpl. rw Ho'. apply owned_delete_le.
Qed.

(** A capacity loop on one queue whose newest key is [k]: it ends with the
    queue within its capacity and [k] still at the back. *)
Definition trimmed p q k (queue other : S3FifoPolicy K → list K) : Prop :=
  core_inv q ∧ frame p q ∧ other q = other p ∧ (∃ l, queue q = l ++ [k]) ∧
  ∀ o, owned (live_owners q) o ≤ owned (live_owners p) o.

Lemma snoc_two (l : list K) k c :
  1 ≤ c → c < len (l ++ [k]) → ∃ x l', l ++ [k] = x :: l' ++ [k].
Proof. intros Hc Hl. destruct l as [|x l]; [len_lia|]. by exists x, l. Qed.

Lemma enforce_small_spec p k :
  core_inv p → 1 ≤ small_capacity (cfg p) → (∃ l, small p = l ++ [k]) →
  trimmed p (enforce_small_capacity p) k small main ∧
  len (small (enforce_small_capacity p)) ≤ small_capacity (cfg p).
Proof.
  intros HI Hc Hk.
  assert (trimmed p p k small main) as H0 by (split_and!; done).
  assert (∀ q, trimmed p q k small main → (small_capacity (cfg q) <? len (small q)) = true →
    trimmed p (evict_small_front_to_ghost q) k small main ∧
    (length (small (evict_small_front_to_ghost q)) < length (small q))%nat) as Hstep.
  { intros q (HIq & Hf & Hm & (l & Hl) & Ho) Hlt. bool_to_prop. rw (fr_cfg _ _ Hf) Hl in Hlt.
    destruct (snoc_two l k _ Hc Hlt) as (x & l' & Heq).
    destruct (evict_small_spec q x (l' ++ [k]) HIq) as (HI' & Hf' & Hs' & Hm' & Ho'); [congruence|].
    split; [|rw Hs' Hl Heq /=; lia].
    split_and!; [done|by eapply frame_trans|congruence|by exists l'|].
    intros o. etrans; [apply Ho'|apply Ho]. }
  unfold enforce_small_capacity. split.
  - apply while_fuel_inv; [done|]. intros q Hq E. by apply Hstep.
  - pose proof (while_fuel_exit _ _ _ (λ q, length (small q)) (length (small p)) p H0 Hstep
      (Nat.le_refl _)) as Hexit. simpl in Hexit.
    assert (trimmed p (while_fuel (λ q, small_capacity (cfg q) <? len (small q))
      evict_small_front_to_ghost (length (small p)) p) k small main) as (_ & Hf & _).
    { apply while_fuel_inv; [done|]. intros q Hq E. by apply Hstep. }
    bool_to_prop. by rw (fr_cfg _ _ Hf) in Hexit.
Qed.

Lemma main_capacity_frame p q : frame p q → main_capacity q = main_capacity p.
Proof. intros Hf. unfold main_capacity. by rw (fr_cfg _ _ Hf). Qed.

Lemma enforce_main_spec p k :
  core_inv p → 1 ≤ main_capacity p → (∃ l, main p = l ++ [k]) →
  trimmed p (enforce_main_capacity p) k main small ∧
  len (main (enforce_main_capacity p)) ≤ main_capacity p.
Proof.
  intros HI Hc Hk.
  assert (trimmed p p k main small) as H0 by (split_and!; done).
  assert (∀ q, trimmed p q k main small → (main_capacity q <? len (main q)) = true →
    trimmed p (evict_main_front_to_ghost q) k main small ∧
    (length (main (evict_main_front_to_ghost q)) < length (main q))%nat) as Hstep.
  { intros q (HIq & Hf & Hm & (l & Hl) & Ho) Hlt. bool_to_prop.
    rw (main_capacity_frame _ _ Hf) Hl in Hlt.
    destruct (snoc_two l k _ Hc Hlt) as (x & l' & Heq).
    destruct (evict_main_spec q x (l' ++ [k]) HIq) as (HI' & Hf' & Hs' & Hm' & Ho'); [congruence|].
    split; [|rw Hm' Hl Heq /=; lia].
    split_and!; [done|by eapply frame_trans|congruence|by exists l'|].
    intros o. etrans; [apply Ho'|apply Ho]. }
  unfold enforce_main_capacity. split.
  - apply while_fuel_inv; [done|]. intros q Hq E. by apply Hstep.
  - pose proof (while_fuel_exit _ _ _ (λ q, length (main q)) (length (main p)) p H0 Hstep
      (Nat.le_refl _)) as Hexit. simpl in Hexit.
    assert (trimmed p (while_fuel (λ q, main_capacity q <? len (main q))
      evict_main_front_to_ghost (length (main p)) p) k main small) as (_ & Hf & _).
    { apply while_fuel_inv; [done|]. intros q Hq E. by apply Hstep. }
    bool_to_prop. by rw (main_capacity_frame _ _ Hf) in Hexit.
Qed.

(** The last loop never runs: the two capacities sum to the live one. *)
Lemma enforce_live_skip p :
  len (small p) + len (main p) ≤ live_capacity (cfg p) → enforce_live_capacity p = p.
Proof.
  intros Hle. unfold enforce_live_capacity. apply while_fuel_skip.
  apply Z.ltb_ge. unfold live_depth. int_lia.
Qed.

(** ** The whole invariant *)

Record cfg_ok (c : S3FifoConfig) : Prop := mk_cfg_ok {
  co_small : 1 ≤ small_capacity c < live_capacity c;
  co_live : live_capacity c ≤ usize_max;
  co_ghost : 1 ≤ ghost_capacity c;
  co_owner : 1 ≤ max_entries_per_owner c ≤ usize_max;
  co_window : 1 ≤ fallback_window c ≤ usize_max;
}.

Record inv p : Prop := mk_inv {
  inv_core : core_inv p;
  inv_cfg : cfg_ok (cfg p);
  inv_small : len (small p) ≤ small_capacity (cfg p);
  inv_main : len (main p) ≤ main_capacity p;
  inv_budget : ∀ o, owned (live_owners p) o ≤ max_entries_per_owner (cfg p);
  inv_window : len (recent_signals p) ≤ fallback_window (cfg p);
}.

Lemma capacities_sum p :
  cfg_ok (cfg p) → main_capacity p = live_capacity (cfg p) - small_capacity (cfg p) ∧
  1 ≤ main_capacity p.
Proof. intros [Hs _ _ _ _]. unfold main_capacity. int_lia. Qed.

(** The outcome of an operation that leaves [k] live in tier [t]. *)
Definition placed p q k t : Prop :=
  inv q ∧ frame p q ∧ live_tiers q !! k = Some t.

(** The configured limits are [usize] values. *)
Definition config_in_range (c : S3FifoConfig) : Prop :=
  live_capacity c ≤ usize_max ∧ max_entries_per_owner c ≤ usize_max ∧
  fallback_window c ≤ usize_max.

Lemma policy_new_inv config : config_in_range config → inv (policy_new config).
Proof.
  intros (Hlive & Hmax & Hwmax). unfold policy_new. split; simpl.
  - split; simpl.
    + constructor.
    + intros k. rw lookup_empty. split; [done|]. by intros ?%not_elem_of_nil.
    + intros k. rw lookup_empty. split; [done|]. by intros ?%not_elem_of_nil.
    + intros k. unfold live_keys. simpl. rw lookup_empty.
      split; [by intros [? ?]|]. by intros ?%not_elem_of_nil.
    + done.
    + intros o n Ho. by rw lookup_empty in Ho.
    + apply ghost_wf_new. lia.
    + intros k [? Hk]. by rw /= lookup_empty in Hk.
    + lia.
  - split; simpl; unfold usize_max, u64_max in *; unfold sat_sub; lia.
  - unfold len. simpl. lia.
  - unfold main_capacity. int_lia.
  - intros o. unfold owned. rw map_filter_empty map_size_empty. lia.
  - unfold len. simpl. lia.
Qed.

(** A live key moves from [small] to the back of [main]. *)
Lemma core_move p k :
  core_inv p → k ∈ small p →
  core_inv (set_tiers (<[k := LMain]> (live_tiers p))
    (set_main (main p ++ [k]) (set_small (remove_first k (small p)) p))).
Proof.
  intros HI Hk. pose proof (live_keys_disjoint p k HI Hk) as Hkm.
  destruct HI as [Hn Hsm Hmn How Hct Hps Hgw Hd Hcap].
  assert (Permutation (remove_first k (small p) ++ main p ++ [k]) (live_keys p)) as Hperm.
  { unfold live_keys. rw {2}(remove_first_perm k (small p) Hk) app_assoc /=.
    symmetry. apply Permutation_cons_append. }
  assert (NoDup (small p)) as Hns by (by apply NoDup_app in Hn as (? & _)).
  split; unfold live_keys; simpl; try done.
  - by rw Hperm.
  - intros x. rw lookup_insert_Some elem_of_remove_first // Hsm. naive_solver.
  - intros x. rw lookup_insert_Some elem_of_app list_elem_of_singleton Hmn.
    split; [naive_solver|]. intros [Hx| ->]; [|naive_solver].
    right. split; [|done]. by intros ->.
  - intros x. by rw Hperm.
  - intros x Hx. rw Hperm. auto.
Qed.

(** [main] is reordered. *)
Lemma core_permute p m' :
  core_inv p → Permutation (main p) m' → core_inv (set_main m' p).
Proof.
  intros [Hn Hsm Hmn How Hct Hps Hgw Hd Hcap] Hp.
  split; unfold live_keys in *; simpl; try done; intros; rw -?Hp //; auto.
Qed.

(** A key that is not live has nothing to purge but its ghost. *)
Lemma purge_not_live p k : live_tiers p !! k = None → purge_key k p = remove_ghost_key k p.
Proof. intros E. unfold purge_key, remove_live_key. by rw E. Qed.

Lemma tier_none p k : core_inv p → live_tiers p !! k = None → k ∉ live_keys p.
Proof.
  intros HI E Hin. unfold live_keys in Hin. apply elem_of_app in Hin as [Hin|Hin].
  - apply (ci_small _ HI) in Hin. congruence.
  - apply (ci_main _ HI) in Hin. congruence.
Qed.

(** ** Every operation keeps the invariant and places its key *)

Record settling p : Prop := mk_settling {
  se_core : core_inv p;
  se_cfg : cfg_ok (cfg p);
  se_budget : ∀ o, owned (live_owners p) o ≤ max_entries_per_owner (cfg p);
  se_window : len (recent_signals p) ≤ fallback_window (cfg p);
}.

Lemma inv_live_depth p : inv p → live_depth p = len (small p) + len (main p).
Proof.
  intros [_ Hcfg Hs Hm _ _]. destruct (capacities_sum p Hcfg) as [Hsum _].
  pose proof (co_live _ Hcfg). unfold live_depth. int_lia.
Qed.

Lemma settle_small p k :
  settling p → len (main p) ≤ main_capacity p → (∃ l, small p = l ++ [k]) →
  placed p (enforce_live_capacity (enforce_small_capacity p)) k LSmall.
Proof.
  intros [HI Hcfg Hb Hw] Hm Hk. destruct (capacities_sum p Hcfg) as [Hsum _].
  destruct (enforce_small_spec p k HI) as [(HI' & Hf & Hmain & [l Hl] & Ho) Hs];
    [apply Hcfg|done|].
  set (q := enforce_small_capacity p) in *. destruct Hf as [Hc Hsig Hre].
  rw enforce_live_skip; [|rw Hc Hmain; lia].
  split_and!; [|done|apply (ci_small _ HI'); rw Hl elem_of_app; right; by left].
  split; rw ?(main_capacity_frame p q) // ?Hc ?Hmain ?Hsig //.
  intros o. etrans; [apply Ho|apply Hb].
Qed.

Lemma settle_main p k :
  settling p → len (small p) ≤ small_capacity (cfg p) → (∃ l, main p = l ++ [k]) →
  placed p (enforce_live_capacity (enforce_main_capacity p)) k LMain.
Proof.
  intros [HI Hcfg Hb Hw] Hsm Hk. destruct (capacities_sum p Hcfg) as [Hsum H1].
  destruct (enforce_main_spec p k HI H1 Hk) as [(HI' & Hf & Hsmall & [l Hl] & Ho) Hs].
  set (q := enforce_main_capacity p) in *. destruct Hf as [Hc Hsig Hre].
  rw enforce_live_skip; [|rw Hc Hsmall; lia].
  split_and!; [|done|apply (ci_main _ HI'); rw Hl elem_of_app; right; by left].
  split; rw ?(main_capacity_frame p q) // ?Hc ?Hsmall ?Hsig //.
  intros o. etrans; [apply Ho|apply Hb].
Qed.

Lemma not_at_budget p o :
  inv p → owner_at_budget p o = false → owned (live_owners p) o < max_entries_per_owner (cfg p).
Proof.
  intros HI E. unfold owner_at_budget in E. bool_to_prop.
  by rw (ci_counts _ (inv_core _ HI)) in E.
Qed.

Lemma budget_full p o :
  inv p → owner_at_budget p o = true ↔ owned (live_owners p) o = max_entries_per_owner (cfg p).
Proof.
  intros HI. unfold owner_at_budget. rw (ci_counts _ (inv_core _ HI)) Z.leb_le.
  pose proof (inv_budget _ HI o). lia.
Qed.

Lemma tier_some p k t : core_inv p → live_tiers p !! k = Some t → k ∈ live_keys p.
Proof.
  intros HI. unfold live_keys. rw elem_of_app -(ci_small _ HI) -(ci_main _ HI).
  destruct t; auto.
Qed.

(** The state just after a key joined one of the queues. *)
Lemma settling_add p k o s' m' t :
  inv p → live_tiers p !! k = None → owner_at_budget p o = false →
  (s' = small p ++ [k] ∧ m' = main p ∧ t = LSmall ∨
   s' = small p ∧ m' = main p ++ [k] ∧ t = LMain) →
  let p0 := remove_ghost_key k p in
  let q := increment_owner o
             (set_owners (<[k := o]> (live_owners p0))
                (set_tiers (<[k := t]> (live_tiers p0)) (set_main m' (set_small s' p0)))) in
  settling q ∧ frame p q ∧ small q = s' ∧ main q = m'.
Proof.
  intros HI Htk Hb Hq p0 q. destruct (HI) as [HC Hcfg Hsm Hmn Hbud Hwin].
  pose proof (not_at_budget p o HI Hb) as Hlt.
  assert (live_owners p !! k = None) as Hok.
  { apply eq_None_not_Some. rw (ci_owned _ HC). by apply tier_none. }
  destruct (core_add p0 k o s' m' t) as (HI' & Hf & Hs' & Hm' & Ho'); try done.
  - by apply core_remove_ghost.
  - exact (tier_none p k HC Htk).
  - unfold p0. simpl. intros Hg. by apply (in_remove_ghost _ _ _ _ (ci_ghost _ HC)) in Hg as [_ ?].
  - unfold p0. simpl. pose proof (co_owner _ Hcfg). lia.
  - fold q in HI', Hf, Hs', Hm', Ho'. destruct Hf as [Hc Hsig Hre]. simpl in *.
    split_and!; [|done|done|done]. split; rw ?Hc ?Hsig //.
    intros o'. rw Ho' owned_insert //. case_decide as E; [rw -E; lia|]. by rw Z.add_0_r.
Qed.

Lemma placed_frame p p' q k t : frame p p' → placed p' q k t → placed p q k t.
Proof. intros Hf (? & ? & ?). split_and!; [done|by eapply frame_trans|done]. Qed.

Lemma admit_small_placed p o k :
  inv p → live_tiers p !! k = None → owner_at_budget p o = false →
  placed p (admit_small o k p) k LSmall.
Proof.
  intros HI Htk Hb. unfold admit_small. rw purge_not_live //.
  destruct (settling_add p k o (small p ++ [k]) (main p) LSmall HI Htk Hb)
    as (Hse & Hf & Hs & Hm); [by left|].
  eapply placed_frame; [exact Hf|]. apply settle_small; [exact Hse| |].
  - rw (main_capacity_frame _ _ Hf). etrans; [|apply (inv_main _ HI)]. by rw -Hm.
  - by exists (small p).
Qed.

Lemma admit_from_ghost_placed p o k :
  inv p → live_tiers p !! k = None → owner_at_budget p o = false →
  placed p (admit_from_ghost o k p) k LMain.
Proof.
  intros HI Htk Hb. unfold admit_from_ghost.
  destruct (settling_add p k o (small p) (main p ++ [k]) LMain HI Htk Hb)
    as (Hse & Hf & Hs & Hm); [by right|].
  eapply placed_frame; [exact Hf|]. apply settle_main; [exact Hse| |].
  - etrans; [|rw (fr_cfg _ _ Hf); apply (inv_small _ HI)]. by rw -Hs.
  - by exists (main p).
Qed.

Lemma promote_placed p k :
  inv p → live_tiers p !! k = Some LSmall → placed p (promote_small_to_main k p) k LMain.
Proof.
  intros HI Htk. destruct (HI) as [HC Hcfg Hsm Hmn Hbud Hwin].
  apply (ci_small _ HC) in Htk. unfold promote_small_to_main.
  eapply (placed_frame _ (set_tiers (<[k := LMain]> (live_tiers p))
    (set_main (main p ++ [k]) (set_small (remove_first k (small p)) p)))); [done|].
  apply settle_main; [|simpl; rw len_remove_first //; lia|by exists (main p)].
  split; simpl; try done. by apply core_move.
Qed.

Lemma touch_placed p k :
  inv p → live_tiers p !! k = Some LMain → placed p (touch_main k p) k LMain.
Proof.
  intros HI Htk. destruct (HI) as [HC Hcfg Hsm Hmn Hbud Hwin].
  pose proof (proj1 (ci_main _ HC k) Htk) as Hin.
  assert (Permutation (main p) (remove_first k (main p) ++ [k])) as Hp.
  { rw {1}(remove_first_perm k (main p) Hin). apply Permutation_cons_append. }
  split_and!; [|done|done]. split; simpl; try done.
  - by apply core_permute.
  - unfold main_capacity, len in *. simpl. by rw -Hp.
Qed.

Lemma inv_bump p q :
  inv p → cfg q = cfg p → small q = small p → main q = main p → ghost q = ghost p →
  live_tiers q = live_tiers p → live_owners q = live_owners p →
  owner_live_counts q = owner_live_counts p →
  len (recent_signals q) ≤ fallback_window (cfg p) → inv q.
Proof.
  intros [[] [] ? ? ? ?] Hc Hs Hm Hg Ht Ho Hn Hw.
  split; [split|split|..]; unfold live_keys, main_capacity in *;
    rw ?Hc ?Hs ?Hm ?Hg ?Ht ?Ho ?Hn //.
Qed.

(** ** One access *)

Definition key_placed (kind : S3FifoDecisionKind) p q o k : Prop :=
  match kind with
  | AdmitSmall => live_tiers q !! k = Some LSmall ∧ live_tiers p !! k = None ∧
                  ¬ in_ghost (ghost p) k ∧ owner_at_budget p o = false
  | AdmitFromGhost => live_tiers q !! k = Some LMain ∧ live_tiers p !! k = None ∧
                  in_ghost (ghost p) k ∧ owner_at_budget p o = false
  | PromoteSmallToMain => live_tiers q !! k = Some LMain ∧ live_tiers p !! k = Some LSmall
  | HitMain => live_tiers q !! k = Some LMain ∧ live_tiers p !! k = Some LMain
  | RejectFairnessBudget => live_tiers p !! k = None ∧ owner_at_budget p o = true ∧
                  small q = small p ∧ main q = main p ∧ ghost q = ghost p ∧
                  live_tiers q = live_tiers p ∧ live_owners q = live_owners p
  | FallbackBypass => False
  end.

Ltac solve_bump HI := eapply inv_bump; [exact HI|done..|exact (inv_window _ HI)].

(** The counters are not part of the invariant. *)
Lemma placed_bump p q k t :
  placed p q k t → placed p (bump_admissions q) k t ∧ placed p (bump_promotions q) k t.
Proof.
  intros (HI & [] & Ht). split; (split; [solve_bump HI|split; [split; assumption|exact Ht]]).
Qed.

Lemma access_kind_spec p o k q kind hit :
  inv p → access_kind o k p = (q, kind, hit) →
  inv q ∧ frame p q ∧ key_placed kind p q o k ∧
  (hit = true ↔ live_tiers p !! k = None ∧ in_ghost (ghost p) k).
Proof.
  intros HI. unfold access_kind, key_placed, in_ghost.
  destruct (live_tiers p !! k) as [[]|] eqn:Et.
  - intros [= <- <- <-].
    destruct (placed_bump _ _ _ _ (promote_placed p k HI Et)) as [_ (HI' & Hf & Ht)].
    split_and!; [exact HI'|exact Hf|exact Ht|done|]. split; [done|by intros []].
  - intros [= <- <- <-]. destruct (touch_placed p k HI Et) as (HI' & Hf & Ht).
    split_and!; [exact HI'|exact Hf|exact Ht|done|]. split; [done|by intros []].
  - destruct (ghost_lookup (ghost p) !! k) as [g|] eqn:Eg.
    + assert (inv (bump_ghost_hits p)) as HIb by solve_bump HI.
      destruct (owner_at_budget (bump_ghost_hits p) o) eqn:Eb; intros [= <- <- <-].
      * split_and!; try done; solve_bump HI.
      * destruct (placed_bump _ _ _ _ (admit_from_ghost_placed _ o k HIb Et Eb))
          as [(HI' & [Hc Hs Hr] & Ht) _].
        split_and!; [exact HI'|split; [exact Hc|exact Hs|exact Hr]|exact Ht|done..].
    + destruct (owner_at_budget p o) eqn:Eb; intros [= <- <- <-].
      * split_and!; try done; [solve_bump HI|]. split; [done|by intros [_ [? ?]]].
      * destruct (placed_bump _ _ _ _ (admit_small_placed _ o k HI Et Eb)) as [(HI' & Hf & Ht) _].
        split_and!; [exact HI'|exact Hf|exact Ht|done|by intros [? ?]|done|].
        split; [done|by intros [_ [? ?]]].
Qed.

(** The trimming loop of [record_signal] keeps the last [w] signals. *)
Definition lastn {A} (w : Z) (l : list A) : list A := drop (length l - Z.to_nat w) l.

Lemma trim_window {A} w (l : list A) :
  0 ≤ w → while_fuel (λ l, w <? len l) tail (length l) l = lastn w l.
Proof.
  intros Hw. unfold lastn. induction l as [|x l IH]; [done|]. cbn [length while_fuel tail].
  destruct (Z.ltb_spec w (len (x :: l))) as [Hlt|Hge].
  - rw IH. unfold len in Hlt. cbn [length] in Hlt.
    by replace (S (length l) - Z.to_nat w)%nat with (S (length l - Z.to_nat w)) by lia.
  - unfold len in Hge. cbn [length] in Hge.
    by replace (S (length l) - Z.to_nat w)%nat with 0%nat by lia.
Qed.

Lemma lastn_len {A} w (l : list A) : 0 ≤ w → len (lastn w l) = Z.min w (len l).
Proof. intros. unfold lastn, len. rw length_drop. lia. Qed.

Lemma lastn_snoc {A} w (l : list A) x : 0 ≤ w → lastn w (lastn w l ++ [x]) = lastn w (l ++ [x]).
Proof.
  intros Hw. unfold lastn. rw !length_app length_drop /=.
  destruct (decide (length l ≤ Z.to_nat w)%nat).
  - replace (length l - Z.to_nat w)%nat with 0%nat by lia. by rw drop_0 Nat.sub_0_r.
  - rw -(drop_app_le l [x]); [|lia]. rw drop_drop. f_equal. lia.
Qed.

Lemma record_signal_spec sig p :
  0 ≤ fallback_window (cfg p) →
  record_signal sig p =
  set_fallback (lastn (fallback_window (cfg p)) (recent_signals p ++ [sig])) (fallback_reason p) p.
Proof. intros Hw. unfold record_signal. by rw trim_window. Qed.

(** What [evaluate_fallback] decides on a window of signals. *)
Definition verdict (c : S3FifoConfig) (sigs : list DecisionSignal) : option S3FifoFallbackReason :=
  if len sigs <? fallback_window c then None
  else if len (filter (λ s, s_ghost_hit s = true) sigs) <? min_ghost_hits_in_window c
  then Some SignalQualityInsufficient
  else if max_budget_rejections_in_window c
            <? len (filter (λ s, s_budget_rejected s = true) sigs)
  then Some FairnessInstability
  else None.

Lemma count_signals_spec f sigs :
  len sigs ≤ usize_max → count_signals f sigs = len (filter (λ s, f s = true) sigs).
Proof.
  unfold count_signals. intros Hl.
  enough (∀ n, 0 ≤ n → n + len sigs ≤ usize_max →
    foldl (λ n s, if f s then sat_add usize_max n 1 else n) n sigs =
    n + len (filter (λ s, f s = true) sigs)) as Hgen by (rw Hgen; lia).
  clear Hl. induction sigs as [|x l IH]; intros n Hn Hl; [len_lia|]. cbn [foldl].
  rw len_cons in Hl. pose proof (len_nonneg l). destruct (f x) eqn:E.
  - rw filter_cons_True // len_cons IH; [int_lia|int_lia|int_lia].
  - rw filter_cons_False; [|congruence]. rw IH; [done|lia|lia].
Qed.

Lemma evaluate_fallback_spec p :
  fallback_reason p = None → len (recent_signals p) ≤ usize_max →
  evaluate_fallback p = set_fallback (recent_signals p) (verdict (cfg p) (recent_signals p)) p.
Proof.
  intros Hn Hl. unfold evaluate_fallback, verdict. rw Hn !count_signals_spec //.
  destruct p; simpl in *; subst. by repeat case_match.
Qed.

(** Outside fallback, an access is its key-dependent part followed by one
    step of the signal window. *)
Lemma access_active p o k q kind hit :
  inv p → fallback_reason p = None → access_kind o k p = (q, kind, hit) →
  let sigs := lastn (fallback_window (cfg p))
                (recent_signals p ++ [mkSignal hit (bool_decide (kind = RejectFairnessBudget))]) in
  let p' := set_fallback sigs (verdict (cfg p) sigs) q in
  access o k p = (p', decision p' kind (resolve_tier kind hit) hit (verdict (cfg p) sigs)) ∧
  inv p'.
Proof.
  intros HI Hn Hk. destruct (access_kind_spec _ _ _ _ _ _ HI Hk) as (HI' & [Hc Hs Hr] & _).
  pose proof (co_window _ (inv_cfg _ HI)) as Hw. unfold access. rw Hn Hk.
  rw record_signal_spec; [|rw Hc; lia].
  rw evaluate_fallback_spec; [|cbn; congruence|cbn; rw lastn_len ?Hc; lia].
  cbn. rw Hc Hs. split; [done|].
  eapply (inv_bump q); try done. cbn. rw lastn_len; [|lia]. rw Hc. lia.
Qed.

Lemma access_inv p o k : inv p → inv (access o k p).1.
Proof.
  intros HI. destruct (fallback_reason p) eqn:E.
  - unfold access. by rw E.
  - destruct (access_kind o k p) as [[q kind] hit] eqn:Ek.
    by destruct (access_active p o k q kind hit HI E Ek) as [-> ?].
Qed.

Lemma clear_fallback_inv p : inv p → inv (clear_fallback p).
Proof.
  intros HI. eapply inv_bump; try done. cbn. pose proof (co_window _ (inv_cfg _ HI)). len_lia.
Qed.
End Invariant.

(** * Runs *)

Section Runs.
Context {K : Type} `{Countable K}.

(** One public state-changing call. *)
Inductive policy_step : S3FifoPolicy K → S3FifoPolicy K → Prop :=
| step_access p o k : policy_step p (access o k p).1
| step_clear p : policy_step p (clear_fallback p).

Lemma policy_step_inv p q : inv p → policy_step p q → inv q.
Proof. intros HI Hs. inversion Hs; subst; [by apply access_inv|by apply clear_fallback_inv]. Qed.

Lemma reachable_inv config p :
  config_in_range config → rtc policy_step (policy_new config) p → inv p.
Proof.
  intros Hc Hr. eapply (rtc_preserves policy_step); eauto using policy_step_inv, policy_new_inv.
Qed.

(** A sequence of accesses and the decisions it returns. *)
Fixpoint run_accesses (ops : list (Str * K)) (p : S3FifoPolicy K)
    : S3FifoPolicy K * list S3FifoDecision :=
  match ops with
  | [] => (p, [])
  | (o, k) :: ops' =>
      let '(p1, d) := access o k p in
      let '(p2, ds) := run_accesses ops' p1 in
      (p2, d :: ds)
  end.

Definition signal_of (d : S3FifoDecision) : DecisionSignal :=
  mkSignal (d_ghost_hit d) (bool_decide (d_kind d = RejectFairnessBudget)).

Lemma run_latched ops p r :
  fallback_reason p = Some r → (run_accesses ops p).1 = p.
Proof.
  revert p. induction ops as [|[o k] ops IH]; intros p Hr; [done|]. simpl.
  unfold access. rw Hr. specialize (IH p Hr). by destruct (run_accesses ops p).
Qed.

(** While no fallback is latched the window holds the signals of the last
    decisions. *)
Lemma run_window ops p hist p' ds :
  inv p → recent_signals p = lastn (fallback_window (cfg p)) hist →
  run_accesses ops p = (p', ds) → fallback_reason p' = None →
  inv p' ∧ cfg p' = cfg p ∧
  recent_signals p' = lastn (fallback_window (cfg p)) (hist ++ (signal_of <$> ds)).
Proof.
  revert p hist p' ds. induction ops as [|[o k] ops IH]; intros p hist p' ds HI Hw Hrun Hn; simpl in Hrun.
  - simplify_eq. by rw /= app_nil_r.
  - destruct (access o k p) as [p1 d] eqn:Ea.
    destruct (run_accesses ops p1) as [p2 ds2] eqn:Er. simplify_eq.
    destruct (fallback_reason p) as [r|] eqn:Ep.
    { unfold access in Ea. rw Ep in Ea. injection Ea as <- <-.
      pose proof (run_latched ops p r Ep) as Hl. rw Er in Hl. simpl in Hl. congruence. }
    destruct (access_kind o k p) as [[q kind] hit] eqn:Ek.
    destruct (access_kind_spec _ _ _ _ _ _ HI Ek) as (_ & [Hc _ _] & _).
    destruct (access_active p o k q kind hit HI Ep Ek) as [Heq HI1]. rw Heq in Ea.
    injection Ea as <- <-.
    destruct (IH _ (hist ++ [mkSignal hit (bool_decide (kind = RejectFairnessBudget))]) p' ds2 HI1)
      as (HI' & Hc' & Hs'); [|exact Er|done|].
    + cbn. rw Hc Hw lastn_snoc //. pose proof (co_window _ (inv_cfg _ HI)). lia.
    + cbn in Hc', Hs'. rw Hc in Hc', Hs'. split_and!; [done|done|].
      by rw Hs' -app_assoc.
Qed.
End Runs.

(** In every state the policy can reach from [new] by accesses and
    fallback resets, no key is live twice, the tier map and the two queues
    agree, every live key has one owner and the owner counters are exact,
    no live key is a ghost, the ghosts stay within their capacity, the queues
    within theirs (so the live depth within [live_capacity]), no owner holds
    more keys than its budget, and the signal window is bounded. *)
Theorem policy_invariant `{Countable K} config (p : S3FifoPolicy K) :
  config_in_range config → rtc policy_step (policy_new config) p →
  inv p ∧ live_depth p = len (small p) + len (main p) ∧ live_depth p ≤ live_capacity (cfg p).
Proof.
  intros Hc Hr. pose proof (reachable_inv config p Hc Hr) as HI. split; [done|].
  destruct HI as [HC Hcfg Hs Hm _ _]. destruct (capacities_sum p Hcfg) as [Hsum _].
  pose proof (co_live _ Hcfg). unfold live_depth. int_lia.
Qed.

Lemma policy_invariant_witness :
  let p := (access (str "ext") 7 (policy_new S3FifoConfig_default : S3FifoPolicy Z)).1 in
  live_depth p ≤ live_capacity (cfg p) ∧ small p = [7].
Proof.
  split; [|reflexivity].
  apply (policy_invariant S3FifoConfig_default).
  - vm_compute. split_and!; discriminate.
  - eapply rtc_once, step_access.
Defined.

(** Outside fallback a decision tells the truth about the key: a hit or a
    promotion is of a key that was live in [main] or [small], an admission of
    a key that was not live and whose owner had budget, from the ghosts
    exactly when the key was one; after all of these the key is live in the
    tier the decision names, whatever else the access evicted.  The depths
    are those of the new state. *)
Theorem access_decision_truthful `{Countable K} config (p p' : S3FifoPolicy K) o k d :
  config_in_range config → rtc policy_step (policy_new config) p →
  fallback_reason p = None → access o k p = (p', d) →
  key_placed (d_kind d) p p' o k ∧
  (d_ghost_hit d = true ↔ live_tiers p !! k = None ∧ in_ghost (ghost p) k) ∧
  (d_kind d ≠ RejectFairnessBudget →
   live_tiers p' !! k = Some (match d_tier d with TierMain => LMain | _ => LSmall end)) ∧
  d_live_depth d = len (small p') + len (main p') ∧
  d_ghost_depth d = Z.of_nat (size (ghost_lookup (ghost p'))).
Proof.
  intros Hc Hr Hn Ha. pose proof (reachable_inv config p Hc Hr) as HI.
  destruct (access_kind o k p) as [[q kind] hit] eqn:Ek.
  destruct (access_kind_spec _ _ _ _ _ _ HI Ek) as (HIq & [Hcq _ _] & Hk & Hh).
  destruct (access_active p o k q kind hit HI Hn Ek) as [Heq HI']. rw Heq in Ha.
  injection Ha as <- <-. cbn. split; [by destruct kind|].
  split; [done|]. split; [|split; [exact (inv_live_depth _ HI')|done]].
  by destruct kind; cbn in *; try destruct Hk.
Qed.

Lemma access_decision_truthful_witness :
  let p := (access (str "ext") 7 (policy_new S3FifoConfig_default : S3FifoPolicy Z)).1 in
  d_kind (access (str "ext") 7 p).2 = PromoteSmallToMain ∧
  live_tiers (access (str "ext") 7 p).1 !! 7 = Some LMain.
Proof.
  intros p. split; [reflexivity|].
  apply (access_decision_truthful S3FifoConfig_default p _ (str "ext") 7 (access (str "ext") 7 p).2).
  - vm_compute. split_and!; discriminate.
  - eapply rtc_once, step_access.
  - reflexivity.
  - apply surjective_pairing.
  - vm_compute. discriminate.
Defined.

(** The fairness budget: outside fallback an access is rejected exactly
    when its key is not live and its owner already owns as many live keys as
    the budget allows; a rejection moves no key, and a rejected ghost stays a
    ghost. *)
Theorem rejection_iff_budget_exhausted `{Countable K} config (p : S3FifoPolicy K) o k :
  config_in_range config → rtc policy_step (policy_new config) p → fallback_reason p = None →
  ((d_kind (access o k p).2 = RejectFairnessBudget) ↔
   (k ∉ live_keys p) ∧ owned (live_owners p) o = max_entries_per_owner (cfg p)) ∧
  ((d_kind (access o k p).2 = RejectFairnessBudget) →
   let q := (access o k p).1 in
   small q = small p ∧ main q = main p ∧ ghost q = ghost p ∧ live_owners q = live_owners p).
Proof.
  intros Hc Hr Hn. pose proof (reachable_inv config p Hc Hr) as HI.
  destruct (access_kind o k p) as [[q kind] hit] eqn:Ek.
  destruct (access_kind_spec _ _ _ _ _ _ HI Ek) as (_ & _ & Hk & _).
  destruct (access_active p o k q kind hit HI Hn Ek) as [Heq _]. rw Heq. cbn.
  pose proof (budget_full p o HI) as Hb. pose proof (tier_none p k (inv_core _ HI)) as Ht.
  pose proof (λ t, tier_some p k t (inv_core _ HI)) as Hs.
  clear Heq Ek. destruct kind; cbn in Hk; [..|done];
    try (split; [split; [discriminate|]|discriminate]; intros [Hl Ho%Hb]).
  - destruct Hk as (_ & _ & _ & Hf). congruence.
  - destruct Hk as [_ Hk]. exfalso. eauto.
  - destruct Hk as [_ Hk]. exfalso. eauto.
  - destruct Hk as (_ & _ & _ & Hf). congruence.
  - destruct Hk as (Hnl%Ht & Hfull%Hb & ? & ? & ? & ? & ?).
    split; [split; [done|reflexivity]|done].
Qed.

Definition one_key_each : S3FifoConfig := mkS3FifoConfig 4 2 4 1 8 0 8.

Lemma rejection_iff_budget_exhausted_witness :
  let p := (access (str "ext") 7 (policy_new one_key_each : S3FifoPolicy Z)).1 in
  d_kind (access (str "ext") 8 p).2 = RejectFairnessBudget ∧
  small (access (str "ext") 8 p).1 = [7].
Proof.
  intros p. assert (d_kind (access (str "ext") 8 p).2 = RejectFairnessBudget) as Hk by reflexivity.
  split; [exact Hk|].
  destruct (rejection_iff_budget_exhausted one_key_each p (str "ext") 8) as [_ Hq].
  - vm_compute. split_and!; discriminate.
  - eapply rtc_once, step_access.
  - reflexivity.
  - destruct (Hq Hk) as (-> & _). reflexivity.
Defined.

(** The fallback.  While it is latched every access is bypassed and
    leaves the whole state alone.  After [clear_fallback] it latches again
    exactly when a full window of decisions has been made since and, of the
    last [fallback_window] of them, too few hit a ghost or too many were
    rejected for the budget, and it names that cause. *)
Theorem fallback_latches_on_window `{Countable K} config (p p' : S3FifoPolicy K) ops ds o k :
  config_in_range config → rtc policy_step (policy_new config) p →
  run_accesses ops (clear_fallback p) = (p', ds) →
  match fallback_reason p' with
  | Some r => access o k p' = (p', decision p' FallbackBypass TierFallback false (Some r))
  | None =>
      let '(q, d) := access o k p' in
      d_fallback_reason d = fallback_reason q ∧
      fallback_reason q =
        verdict (cfg p) (lastn (fallback_window (cfg p)) (signal_of <$> ds ++ [d]))
  end.
Proof.
  intros Hc Hr Hrun. pose proof (reachable_inv config p Hc Hr) as HI.
  destruct (fallback_reason p') as [r|] eqn:Ef; [unfold access; by rw Ef|].
  destruct (run_window ops (clear_fallback p) [] p' ds) as (HI' & Hcfg & Hs);
    [by apply clear_fallback_inv|done|done|done|]. cbn in Hcfg, Hs.
  destruct (access_kind o k p') as [[q kind] hit] eqn:Ek.
  destruct (access_active p' o k q kind hit HI' Ef Ek) as [Heq _]. rw Heq. cbn.
  split; [done|]. rw Hcfg Hs lastn_snoc; [|pose proof (co_window _ (inv_cfg _ HI)); lia].
  by rw fmap_app.
Qed.

Definition wants_ghost_hits : S3FifoConfig := mkS3FifoConfig 4 2 4 4 2 1 8.

Lemma fallback_latches_on_window_witness :
  let p := policy_new wants_ghost_hits : S3FifoPolicy Z in
  let r := run_accesses [(str "a", 7)] (clear_fallback p) in
  fallback_reason r.1 = None ∧
  fallback_reason (access (str "a") 8 r.1).1 = Some SignalQualityInsufficient ∧
  match fallback_reason r.1 with
  | Some _ => False
  | None => let '(q, d) := access (str "a") 8 r.1 in
            d_fallback_reason d = fallback_reason q ∧
            fallback_reason q = verdict (cfg p) (lastn (fallback_window (cfg p))
                                                   (signal_of <$> r.2 ++ [d]))
  end.
Proof.
  intros p r. split; [vm_compute; reflexivity|]. split; [vm_compute; reflexivity|].
  assert (fallback_reason r.1 = None) as Hn by (vm_compute; reflexivity).
  pose proof (fallback_latches_on_window wants_ghost_hits p r.1 [(str "a", 7)] r.2 (str "a") 8) as Hl.
  rw Hn in Hl |- *. apply Hl.
  - vm_compute. split_and!; discriminate.
  - apply rtc_refl.
  - apply surjective_pairing.
Defined.
