(* ===== verification/Bravo.v ===== *)
(** * BRAVO contention policy ([src/hostcall_queue.rs], first part)

    The reader/writer bias state machine that the hostcall queue feeds with
    one observation window at a time. *)

From S2P Require Import Prelude.

Inductive BravoBiasMode := Balanced | ReadBiased | WriterRecovery.
#[global] Instance BravoBiasMode_eq_dec : EqDecision BravoBiasMode.
Proof. solve_decision. Defined.

Inductive ContentionSignature :=
| InsufficientSamples | ReadDominant | MixedContention | WriterStarvationRisk | WriteDominant.
#[global] Instance ContentionSignature_eq_dec : EqDecision ContentionSignature.
Proof. solve_decision. Defined.

Record ContentionSample := mkContentionSample {
  read_acquires : Z;
  write_acquires : Z;
  read_wait_p95_us : Z;
  write_wait_p95_us : Z;
  write_timeouts : Z;
}.

Definition total_acquires (s : ContentionSample) : Z :=
  sat_add u64_max (read_acquires s) (write_acquires s).

(** The product is computed in [u128], where it does not overflow. *)
Definition read_ratio_permille (s : ContentionSample) : Z :=
  let total := total_acquires s in
  if total =? 0 then 0
  else
    let ratio := read_acquires s * 1000 / total in
    if ratio <=? u32_max then ratio else 1000.

Record BravoContentionConfig := mkBravoContentionConfig {
  min_total_acquires : Z;
  read_dominant_ratio_permille : Z;
  mixed_ratio_floor_permille : Z;
  mixed_ratio_ceiling_permille : Z;
  writer_starvation_wait_us : Z;
  writer_starvation_timeouts : Z;
  max_consecutive_read_bias_windows : Z;
  writer_recovery_windows : Z;
}.

Definition BravoContentionConfig_default : BravoContentionConfig :=
  mkBravoContentionConfig 32 800 450 799 8000 2 5 2.

Record BravoPolicyDecision := mkBravoPolicyDecision {
  previous_mode : BravoBiasMode;
  next_mode : BravoBiasMode;
  signature : ContentionSignature;
  switched : bool;
  rollback_triggered : bool;
}.

Record BravoPolicyTelemetry := mkBravoPolicyTelemetry {
  bt_mode : BravoBiasMode;
  bt_transitions : Z;
  bt_rollbacks : Z;
  bt_windows_observed : Z;
  bt_consecutive_read_bias_windows : Z;
  bt_writer_recovery_remaining : Z;
  bt_last_signature : ContentionSignature;
}.

Record BravoContentionState := mkBravoContentionState {
  b_config : BravoContentionConfig;
  b_mode : BravoBiasMode;
  b_transitions : Z;
  b_rollbacks : Z;
  b_windows_observed : Z;
  b_consecutive : Z;
  b_remaining : Z;
  b_last_signature : ContentionSignature;
}.

Definition BravoContentionState_new (config : BravoContentionConfig) : BravoContentionState :=
  mkBravoContentionState config Balanced 0 0 0 0 0 InsufficientSamples.

Definition BravoContentionState_default : BravoContentionState :=
  BravoContentionState_new BravoContentionConfig_default.

Definition bravo_snapshot (s : BravoContentionState) : BravoPolicyTelemetry :=
  mkBravoPolicyTelemetry (b_mode s) (b_transitions s) (b_rollbacks s) (b_windows_observed s)
    (b_consecutive s) (b_remaining s) (b_last_signature s).

Definition classify (sample : ContentionSample) (config : BravoContentionConfig)
    : ContentionSignature :=
  if total_acquires sample <? min_total_acquires config then InsufficientSamples
  else if (writer_starvation_wait_us config <=? write_wait_p95_us sample)
          || (writer_starvation_timeouts config <=? write_timeouts sample)
  then WriterStarvationRisk
  else
    let read_ratio := read_ratio_permille sample in
    let read_dominant_floor := Z.min (read_dominant_ratio_permille config) 1000 in
    if read_dominant_floor <=? read_ratio then ReadDominant
    else
      let mixed_floor := Z.min (mixed_ratio_floor_permille config) 1000 in
      let mixed_ceiling := clamp (mixed_ratio_ceiling_permille config) mixed_floor 1000 in
      if (mixed_floor <=? read_ratio) && (read_ratio <=? mixed_ceiling) then MixedContention
      else WriteDominant.

Definition mode_changed (current previous : BravoBiasMode) : bool :=
  match current, previous with
  | Balanced, Balanced | ReadBiased, ReadBiased | WriterRecovery, WriterRecovery => false
  | _, _ => true
  end.

(** The fields the match on the mode assigns, in order: mode, consecutive
    windows, remaining recovery, rollbacks, and the rollback flag. *)
Definition observe_mode (s : BravoContentionState) (sig : ContentionSignature)
    : BravoBiasMode * Z * Z * Z * bool :=
  let full_recovery := Z.max (writer_recovery_windows (b_config s)) 1 in
  match b_mode s with
  | Balanced =>
      match sig with
      | WriterStarvationRisk =>
          (WriterRecovery, 0, full_recovery, sat_add u64_max (b_rollbacks s) 1, true)
      | ReadDominant | MixedContention => (ReadBiased, 1, b_remaining s, b_rollbacks s, false)
      | InsufficientSamples | WriteDominant =>
          (Balanced, 0, b_remaining s, b_rollbacks s, false)
      end
  | ReadBiased =>
      let consecutive := sat_add u32_max (b_consecutive s) 1 in
      let starvation := bool_decide (sig = WriterStarvationRisk) in
      let fairness_budget_exhausted :=
        Z.max (max_consecutive_read_bias_windows (b_config s)) 1 <=? consecutive in
      if starvation || fairness_budget_exhausted then
        (WriterRecovery, 0, full_recovery,
         if starvation then sat_add u64_max (b_rollbacks s) 1 else b_rollbacks s, starvation)
      else if match sig with InsufficientSamples | WriteDominant => true | _ => false end then
        (Balanced, 0, b_remaining s, b_rollbacks s, false)
      else (ReadBiased, consecutive, b_remaining s, b_rollbacks s, false)
  | WriterRecovery =>
      let remaining :=
        if bool_decide (sig = WriterStarvationRisk) then full_recovery
        else if 0 <? b_remaining s then b_remaining s - 1 else b_remaining s in
      (if remaining =? 0 then Balanced else WriterRecovery, 0, remaining, b_rollbacks s, false)
  end.

Definition observe (sample : ContentionSample) (s : BravoContentionState)
    : BravoContentionState * BravoPolicyDecision :=
  let sig := classify sample (b_config s) in
  let '(mode, consecutive, remaining, rollbacks, rollback) := observe_mode s sig in
  let sw := mode_changed mode (b_mode s) in
  (mkBravoContentionState (b_config s) mode
     (if sw then sat_add u64_max (b_transitions s) 1 else b_transitions s) rollbacks
     (sat_add u64_max (b_windows_observed s) 1) consecutive remaining sig,
   mkBravoPolicyDecision (b_mode s) mode sig sw rollback).

(** ** Runs *)

Definition observe_all (samples : list ContentionSample) (s : BravoContentionState)
    : BravoContentionState := foldl (λ s x, (observe x s).1) s samples.

Definition read_bias_bound (c : BravoContentionConfig) : Z :=
  Z.max 1 (max_consecutive_read_bias_windows c - 1).
Definition recovery_bound (c : BravoContentionConfig) : Z := Z.max 1 (writer_recovery_windows c).

(** The counters belong to the mode. *)
Definition bravo_inv (s : BravoContentionState) : Prop :=
  0 ≤ b_remaining s ≤ recovery_bound (b_config s) ∧
  match b_mode s with
  | Balanced => b_consecutive s = 0
  | ReadBiased => 1 ≤ b_consecutive s ≤ read_bias_bound (b_config s)
  | WriterRecovery => b_consecutive s = 0 ∧ 1 ≤ b_remaining s
  end.

Definition bravo_cfg_ok (c : BravoContentionConfig) : Prop :=
  0 ≤ max_consecutive_read_bias_windows c ≤ u32_max ∧ 0 ≤ writer_recovery_windows c ≤ u32_max.

Lemma bravo_new_inv c : bravo_inv (BravoContentionState_new c).
Proof. unfold bravo_inv, recovery_bound. simpl. lia. Qed.

(** [observe_mode] keeps the invariant: the mode and the counters it returns
    fit together. *)
Lemma observe_mode_inv s sig :
  bravo_cfg_ok (b_config s) → bravo_inv s →
  let '(mode, consecutive, remaining, _, _) := observe_mode s sig in
  0 ≤ remaining ≤ recovery_bound (b_config s) ∧
  match mode with
  | Balanced => consecutive = 0
  | ReadBiased => 1 ≤ consecutive ≤ read_bias_bound (b_config s)
  | WriterRecovery => consecutive = 0 ∧ 1 ≤ remaining
  end.
Proof.
  unfold bravo_cfg_ok, bravo_inv, observe_mode, recovery_bound, read_bias_bound.
  intros [Hm Hw] [Hr Hmode]. destruct (b_mode s) eqn:Em.
  - destruct sig; lia.
  - destruct (bool_decide (sig = WriterStarvationRisk)) eqn:Es; simpl; [lia|].
    destruct (Z.leb_spec (Z.max (max_consecutive_read_bias_windows (b_config s)) 1)
      (sat_add u32_max (b_consecutive s) 1)); [lia|].
    destruct sig; simpl; unfold sat_add, u32_max in *; lia.
  - destruct (bool_decide (sig = WriterStarvationRisk)) eqn:Es; simpl.
    + destruct (Z.eqb_spec (Z.max (writer_recovery_windows (b_config s)) 1) 0); lia.
    + destruct (Z.ltb_spec 0 (b_remaining s)); [|lia].
      destruct (Z.eqb_spec (b_remaining s - 1) 0); lia.
Qed.

Lemma observe_config x s : b_config (observe x s).1 = b_config s.
Proof. unfold observe. by destruct (observe_mode s _) as [[[[? ?] ?] ?] ?]. Qed.

Lemma observe_inv x s : bravo_cfg_ok (b_config s) → bravo_inv s → bravo_inv (observe x s).1.
Proof.
  intros Hc HI. pose proof (observe_mode_inv s (classify x (b_config s)) Hc HI) as Ho.
  unfold observe. by destruct (observe_mode s _) as [[[[? ?] ?] ?] ?].
Qed.

Lemma observe_all_config xs s : b_config (observe_all xs s) = b_config s.
Proof.
  revert s. induction xs as [|x xs IH]; intros s; [done|]. simpl.
  unfold observe_all in *. simpl. by rw IH observe_config.
Qed.

Lemma observe_all_inv xs s :
  bravo_cfg_ok (b_config s) → bravo_inv s → bravo_inv (observe_all xs s).
Proof.
  revert s. unfold observe_all. induction xs as [|x xs IH]; intros s Hc HI; [done|]. simpl.
  apply IH; [by rw observe_config|by apply observe_inv].
Qed.

(** A window that stays read-biased consumes one unit of the budget. *)
Lemma observe_read_biased x s :
  bravo_cfg_ok (b_config s) → bravo_inv s → b_mode s = ReadBiased →
  b_mode (observe x s).1 = ReadBiased →
  b_consecutive (observe x s).1 = b_consecutive s + 1.
Proof.
  unfold bravo_cfg_ok, bravo_inv. intros [Hm _] [_ HI] Em. rw Em in HI.
  unfold observe, observe_mode. rw Em.
  destruct (bool_decide _ || _) eqn:Eb; simpl; [done|]. bool_to_prop.
  destruct (classify x (b_config s)); simpl; try done; unfold read_bias_bound in *; int_lia.
Qed.

Lemma read_biased_run xs s :
  bravo_cfg_ok (b_config s) → bravo_inv s → b_mode s = ReadBiased →
  (∀ n, b_mode (observe_all (take n xs) s) = ReadBiased) →
  b_consecutive (observe_all xs s) = b_consecutive s + len xs.
Proof.
  revert s. induction xs as [|x xs IH]; intros s Hc HI Em Hall; [len_lia|].
  assert (b_mode (observe x s).1 = ReadBiased) as E1 by exact (Hall 1%nat).
  pose proof (observe_read_biased x s Hc HI Em E1) as Hstep.
  unfold observe_all in *. simpl.
  rw (IH (observe x s).1); [len_lia|by rw observe_config|by apply observe_inv|done|].
  intros n. exact (Hall (S n)).
Qed.

(** Writers are not starved by read bias: however the observed windows
    look, the policy never stays read-biased for more than
    [max 1 (max_consecutive_read_bias_windows - 1)] windows in a row. *)
Theorem read_bias_is_bounded (c : BravoContentionConfig) (before xs : list ContentionSample) :
  bravo_cfg_ok c →
  let s := observe_all before (BravoContentionState_new c) in
  (∀ n, b_mode (observe_all (take n xs) s) = ReadBiased) →
  len xs < read_bias_bound c.
Proof.
  intros Hc s Hall.
  assert (b_config s = c) as Ec by apply observe_all_config.
  assert (bravo_inv s) as HI by (apply observe_all_inv; [done|apply bravo_new_inv]).
  rw -Ec in Hc |- *.
  pose proof (read_biased_run xs s Hc HI (Hall 0%nat) Hall) as Hrun.
  pose proof (observe_all_inv xs s Hc HI) as [_ HI'].
  pose proof (Hall (length xs)) as Hm. rw take_ge // in Hm.
  rw Hm observe_all_config in HI'. destruct HI as [_ HI]. rw (Hall 0%nat) in HI. simpl in HI. lia.
Qed.

Definition read_heavy : ContentionSample := mkContentionSample 90 10 0 0 0.

Lemma read_bias_is_bounded_witness :
  let s := observe_all [read_heavy] (BravoContentionState_new BravoContentionConfig_default) in
  b_mode (observe_all [read_heavy; read_heavy; read_heavy] s) = ReadBiased ∧
  len [read_heavy; read_heavy; read_heavy] < read_bias_bound BravoContentionConfig_default.
Proof.
  split; [reflexivity|].
  apply (read_bias_is_bounded BravoContentionConfig_default [read_heavy]).
  - vm_compute. split_and!; discriminate.
  - intros [|[|[|[|n]]]]; reflexivity.
Defined.

(** ** Recovery *)

Definition starving (c : BravoContentionConfig) (x : ContentionSample) : Prop :=
  classify x c = WriterStarvationRisk.

Lemma observe_starving x s :
  starving (b_config s) x →
  b_mode (observe x s).1 = WriterRecovery ∧
  b_remaining (observe x s).1 = recovery_bound (b_config s).
Proof.
  unfold starving, observe, observe_mode, recovery_bound. intros ->.
  destruct (b_mode s); simpl; [split; [done|lia]..|].
  destruct (Z.eqb_spec (Z.max (writer_recovery_windows (b_config s)) 1) 0);
    simpl; (split; [done || lia|lia]).
Qed.

Lemma observe_recovering x s :
  ¬ starving (b_config s) x → b_mode s = WriterRecovery → 1 ≤ b_remaining s →
  b_remaining (observe x s).1 = b_remaining s - 1 ∧
  b_mode (observe x s).1 = if b_remaining s =? 1 then Balanced else WriterRecovery.
Proof.
  unfold starving, observe, observe_mode. intros Hx -> Hr. rw bool_decide_false //.
  destruct (Z.ltb_spec 0 (b_remaining s)); [|lia]. simpl. split; [done|].
  destruct (Z.eqb_spec (b_remaining s - 1) 0), (Z.eqb_spec (b_remaining s) 1); done || lia.
Qed.

Lemma recovery_countdown xs s :
  Forall (λ x, ¬ starving (b_config s) x) xs → b_mode s = WriterRecovery →
  1 ≤ b_remaining s → len xs ≤ b_remaining s →
  b_mode (observe_all xs s) = if len xs =? b_remaining s then Balanced else WriterRecovery.
Proof.
  revert s. induction xs as [|x xs IH]; intros s Hf Hm Hr Hl.
  - rw (proj2 (Z.eqb_neq _ _)) //. len_lia.
  - apply Forall_cons in Hf as [Hx Hf].
    destruct (observe_recovering x s Hx Hm Hr) as [Hr' Hm'].
    rw len_cons in Hl |- *. pose proof (len_nonneg xs). unfold observe_all in *. simpl.
    destruct (Z.eqb_spec (b_remaining s) 1) as [E1|E1].
    + destruct xs as [|y xs]; [|len_lia]. by rw E1 /= Hm'.
    + rw IH; [|by rw observe_config|done|lia|lia]. rw Hr'.
      destruct (Z.eqb_spec (len xs) (b_remaining s - 1)), (Z.eqb_spec (len xs + 1) (b_remaining s));
        done || lia.
Qed.

(** From any state, a window that shows writer starvation switches to
    writer recovery, and recovery then lasts for exactly
    [max 1 writer_recovery_windows] further windows without starvation before
    the policy is balanced again (a starving window restarts the count). *)
Theorem starvation_recovery_exact (s : BravoContentionState) x xs :
  starving (b_config s) x → Forall (λ y, ¬ starving (b_config s) y) xs →
  len xs ≤ recovery_bound (b_config s) →
  b_mode (observe_all (x :: xs) s) =
    if len xs =? recovery_bound (b_config s) then Balanced else WriterRecovery.
Proof.
  intros Hx Hf Hl. destruct (observe_starving x s Hx) as [Hm Hr].
  unfold observe_all. simpl. change (foldl _ _ _) with (observe_all xs (observe x s).1).
  rw recovery_countdown ?observe_config // Hr //. unfold recovery_bound. lia.
Qed.

Definition starving_window : ContentionSample := mkContentionSample 90 10 0 9000 0.

Lemma starvation_recovery_exact_witness :
  let s := observe_all [read_heavy] BravoContentionState_default in
  b_mode s = ReadBiased ∧
  b_mode (observe_all [starving_window; read_heavy] s) = WriterRecovery ∧
  b_mode (observe_all [starving_window; read_heavy; read_heavy] s) = Balanced.
Proof.
  intros s. split; [reflexivity|]. split.
  - etransitivity; [apply (starvation_recovery_exact s starving_window [read_heavy])|reflexivity];
      [reflexivity|by repeat constructor|vm_compute; discriminate].
  - etransitivity;
      [apply (starvation_recovery_exact s starving_window [read_heavy; read_heavy])|reflexivity];
      [reflexivity|by repeat constructor|vm_compute; discriminate].
Defined.
