(* ===== verification/HostcallQueue.v ===== *)
(** * Hostcall request queue ([src/hostcall_queue.rs], second part)

    The two-lane request queue: a bounded ring [fast], a bounded [overflow]
    deque admitted through per-tenant S3-FIFO bookkeeping, and epoch-based
    reclamation of popped requests.  The ring is [crossbeam_queue::ArrayQueue]
    and is a parameter with its documented FIFO behaviour as laws; the tenant
    of a request is the trait [QueueTenant]. *)

From S2P Require Import Prelude Text GhostQueue S3Fifo Bravo.

Definition HOSTCALL_FAST_RING_CAPACITY : Z := 256.
Definition HOSTCALL_OVERFLOW_CAPACITY : Z := 2048.
Definition SAFE_FALLBACK_BACKLOG_MULTIPLIER : Z := 8.
Definition SAFE_FALLBACK_BACKLOG_MIN : Z := 32.
Definition S3_FIFO_GHOST_CAPACITY_MULTIPLIER : Z := 2.
Definition S3_FIFO_GHOST_CAPACITY_MIN : Z := 16.
Definition S3_FIFO_MIN_SIGNAL_SAMPLES : Z := 32.
Definition S3_FIFO_MAX_SIGNALLESS_STREAK : Z := 64.
Definition S3_FIFO_UNSTABLE_REJECTION_STREAK : Z := 16.

(** ** Interfaces *)

(** The trait [QueueTenant]; payloads without identity use [None]. *)
Class QueueTenant (T : Type) := tenant_key : T → option Str.

#[global] Instance queue_tenant_u64 : QueueTenant Z := λ _, None.

(** The operations of the ring the queue calls.  [push] is [None] when the
    ring is full and gives the value back. *)
Class ArrayQueue (Q T : Type) := {
  aq_new : Z → Q;
  aq_push : T → Q → option Q;
  aq_pop : Q → option (T * Q);
  aq_len : Q → Z;
  aq_is_empty : Q → bool;
}.

(** The ring's documented behaviour: a bounded FIFO. *)
Class ArrayQueueLaws (Q T : Type) `{ArrayQueue Q T} := {
  aq_items : Q → list T;
  aq_cap : Q → Z;
  aq_new_spec : ∀ c, 1 ≤ c → aq_items (aq_new c) = [] ∧ aq_cap (aq_new c) = c;
  aq_push_spec : ∀ x q,
    match aq_push x q with
    | Some q' => len (aq_items q) < aq_cap q ∧ aq_items q' = aq_items q ++ [x] ∧ aq_cap q' = aq_cap q
    | None => aq_cap q ≤ len (aq_items q)
    end;
  aq_pop_spec : ∀ q,
    match aq_pop q with
    | Some (x, q') => aq_items q = x :: aq_items q' ∧ aq_cap q' = aq_cap q
    | None => aq_items q = []
    end;
  aq_len_spec : ∀ q, aq_len q = len (aq_items q);
  aq_is_empty_spec : ∀ q, aq_is_empty q = bool_decide (aq_items q = []);
}.

(** A ring that satisfies the laws. *)
Record Ring (T : Type) := mkRing { ring_cap : Z; ring_items : list T }.
Arguments mkRing {_} _ _.
Arguments ring_cap {_} _.
Arguments ring_items {_} _.

#[global] Instance ring_array_queue T : ArrayQueue (Ring T) T := {
  aq_new c := mkRing c [];
  aq_push x q :=
    if len (ring_items q) <? ring_cap q then Some (mkRing (ring_cap q) (ring_items q ++ [x]))
    else None;
  aq_pop q :=
    match ring_items q with [] => None | x :: l => Some (x, mkRing (ring_cap q) l) end;
  aq_len q := len (ring_items q);
  aq_is_empty q := match ring_items q with [] => true | _ => false end;
}.

#[global] Instance ring_laws T : ArrayQueueLaws (Ring T) T.
Proof.
  refine {| aq_items := ring_items; aq_cap := ring_cap |}; simpl.
  - done.
  - intros x q. destruct (Z.ltb_spec (len (ring_items q)) (ring_cap q)); [done|lia].
  - intros [c [|x l]]; done.
  - done.
  - intros [c [|x l]]; done.
Defined.

(** ** Admission bookkeeping *)

Inductive S3FifoMode := Active | ConservativeFifo.

Record S3FifoConfig := mkS3Config {
  tenant_budget : Z;
  ghost_capacity : Z;
  min_signal_samples : Z;
  max_signalless_streak : Z;
  cfg_unstable_rejection_streak : Z;
}.

Definition from_capacities (fast_capacity overflow_capacity : Z) : S3FifoConfig :=
  mkS3Config (Z.max (overflow_capacity / 2) 1)
    (Z.max (sat_mul usize_max (sat_add usize_max fast_capacity overflow_capacity)
              S3_FIFO_GHOST_CAPACITY_MULTIPLIER) S3_FIFO_GHOST_CAPACITY_MIN)
    S3_FIFO_MIN_SIGNAL_SAMPLES S3_FIFO_MAX_SIGNALLESS_STREAK S3_FIFO_UNSTABLE_REJECTION_STREAK.

Record S3FifoTelemetry := mkS3Telemetry {
  st_mode : S3FifoMode;
  st_fallback_reason : option S3FifoFallbackReason;
  st_ghost_depth : Z;
  st_ghost_hits_total : Z;
  st_fairness_rejected_total : Z;
  st_signal_samples : Z;
  st_signalless_streak : Z;
  st_fallback_transitions : Z;
  st_tenant_budget : Z;
  st_active_tenants : Z;
}.

(** The fields [ghost_order], [ghost_lookup] and [ghost_gen] are [s3_ghost]. *)
Record S3FifoState := mkS3State {
  s3_config : S3FifoConfig;
  s3_mode : S3FifoMode;
  s3_fallback_reason : option S3FifoFallbackReason;
  s3_ghost : Ghost Str;
  tenant_backlog : gmap Str Z;
  s3_ghost_hits_total : Z;
  fairness_rejected_total : Z;
  signal_samples : Z;
  signalless_streak : Z;
  unstable_rejection_streak : Z;
  s3_fallback_transitions : Z;
}.

Definition S3FifoState_new (config : S3FifoConfig) : S3FifoState :=
  mkS3State config Active None ghost_new ∅ 0 0 0 0 0 0.

(** Field assignments. *)
Definition set_s3_ghost g s := mkS3State (s3_config s) (s3_mode s) (s3_fallback_reason s) g
  (tenant_backlog s) (s3_ghost_hits_total s) (fairness_rejected_total s) (signal_samples s)
  (signalless_streak s) (unstable_rejection_streak s) (s3_fallback_transitions s).
Definition set_backlog b s := mkS3State (s3_config s) (s3_mode s) (s3_fallback_reason s) (s3_ghost s)
  b (s3_ghost_hits_total s) (fairness_rejected_total s) (signal_samples s)
  (signalless_streak s) (unstable_rejection_streak s) (s3_fallback_transitions s).
Definition set_signals samples streak s :=
  mkS3State (s3_config s) (s3_mode s) (s3_fallback_reason s) (s3_ghost s)
    (tenant_backlog s) (s3_ghost_hits_total s) (fairness_rejected_total s) samples
    streak (unstable_rejection_streak s) (s3_fallback_transitions s).
Definition set_unstable n s := mkS3State (s3_config s) (s3_mode s) (s3_fallback_reason s) (s3_ghost s)
  (tenant_backlog s) (s3_ghost_hits_total s) (fairness_rejected_total s) (signal_samples s)
  (signalless_streak s) n (s3_fallback_transitions s).
Definition bump_s3_ghost_hits s :=
  mkS3State (s3_config s) (s3_mode s) (s3_fallback_reason s) (s3_ghost s)
    (tenant_backlog s) (sat_add u64_max (s3_ghost_hits_total s) 1) (fairness_rejected_total s)
    (signal_samples s) (signalless_streak s) (unstable_rejection_streak s)
    (s3_fallback_transitions s).
Definition bump_fairness_rejected s :=
  mkS3State (s3_config s) (s3_mode s) (s3_fallback_reason s) (s3_ghost s)
    (tenant_backlog s) (s3_ghost_hits_total s) (sat_add u64_max (fairness_rejected_total s) 1)
    (signal_samples s) (signalless_streak s) (unstable_rejection_streak s)
    (s3_fallback_transitions s).

Definition transition_to_fallback (reason : S3FifoFallbackReason) (s : S3FifoState) : S3FifoState :=
  match s3_mode s with
  | ConservativeFifo => s
  | Active =>
      mkS3State (s3_config s) ConservativeFifo (Some reason) ghost_new ∅ (s3_ghost_hits_total s)
        (fairness_rejected_total s) (signal_samples s) (signalless_streak s)
        (unstable_rejection_streak s) (sat_add u64_max (s3_fallback_transitions s) 1)
  end.

Definition observe_signal (tk : option Str) (s : S3FifoState) : S3FifoState :=
  match s3_mode s with
  | ConservativeFifo => s
  | Active =>
      match tk with
      | Some _ => set_signals (sat_add u64_max (signal_samples s) 1) 0 s
      | None =>
          let s := set_signals (signal_samples s) (sat_add u64_max (signalless_streak s) 1) s in
          if (max_signalless_streak (s3_config s) <=? signalless_streak s)
             && (signal_samples s <? min_signal_samples (s3_config s))
          then transition_to_fallback SignalQualityInsufficient s
          else s
      end
  end.

Definition consume_ghost_hit (tk : Str) (s : S3FifoState) : S3FifoState * bool :=
  match ghost_lookup (s3_ghost s) !! tk with
  | Some _ => (bump_s3_ghost_hits (set_s3_ghost (remove_ghost tk (s3_ghost s)) s), true)
  | None => (s, false)
  end.

Definition record_ghost (tk : Str) (s : S3FifoState) : S3FifoState :=
  match tk with
  | [] => s
  | _ :: _ => set_s3_ghost (push_ghost (ghost_capacity (s3_config s)) tk (s3_ghost s)) s
  end.

(** The streak check that ends both rejection paths. *)
Definition check_unstable (s : S3FifoState) : S3FifoState :=
  if cfg_unstable_rejection_streak (s3_config s) <=? unstable_rejection_streak s
  then transition_to_fallback FairnessInstability s else s.

Definition allow_main_admission (tk : option Str) (s : S3FifoState) : S3FifoState * bool :=
  match s3_mode s, tk with
  | ConservativeFifo, _ => (s, true)
  | Active, None => (s, true)
  | Active, Some tk =>
      let backlog := default 0 (tenant_backlog s !! tk) in
      if backlog <? tenant_budget (s3_config s) then (s, true)
      else
        let '(s, hit) := consume_ghost_hit tk s in
        if hit then (set_unstable 0 s, true)
        else
          let s := bump_fairness_rejected s in
          let s := set_unstable (sat_add u64_max (unstable_rejection_streak s) 1) s in
          (check_unstable (record_ghost tk s), false)
  end.

Definition on_main_enqueued (tk : option Str) (s : S3FifoState) : S3FifoState :=
  match s3_mode s with
  | ConservativeFifo => s
  | Active =>
      let s :=
        match tk with
        | Some tk =>
            match tenant_backlog s !! tk with
            | Some backlog => set_backlog (<[tk := sat_add usize_max backlog 1]> (tenant_backlog s)) s
            | None => set_backlog (<[tk := 1]> (tenant_backlog s)) s
            end
        | None => s
        end in
      set_unstable 0 s
  end.

Definition on_main_dequeued (tk : option Str) (s : S3FifoState) : S3FifoState :=
  match s3_mode s, tk with
  | ConservativeFifo, _ => s
  | Active, None => s
  | Active, Some tk =>
      let s :=
        match tenant_backlog s !! tk with
        | Some backlog =>
            let backlog := sat_sub backlog 1 in
            if backlog =? 0 then set_backlog (delete tk (tenant_backlog s)) s
            else set_backlog (<[tk := backlog]> (tenant_backlog s)) s
        | None => s
        end in
      record_ghost tk s
  end.

Definition on_main_overflow_reject (tk : option Str) (s : S3FifoState) : S3FifoState :=
  match s3_mode s with
  | ConservativeFifo => s
  | Active =>
      let s := match tk with Some tk => record_ghost tk s | None => s end in
      check_unstable (set_unstable (sat_add u64_max (unstable_rejection_streak s) 1) s)
  end.

Definition s3_snapshot (s : S3FifoState) : S3FifoTelemetry :=
  mkS3Telemetry (s3_mode s) (s3_fallback_reason s) (Z.of_nat (size (ghost_lookup (s3_ghost s))))
    (s3_ghost_hits_total s) (fairness_rejected_total s) (signal_samples s) (signalless_streak s)
    (s3_fallback_transitions s) (tenant_budget (s3_config s)) (Z.of_nat (size (tenant_backlog s))).

(** ** The queue *)

Inductive HostcallQueueMode := Ebr | SafeFallback.
#[global] Instance HostcallQueueMode_eq_dec : EqDecision HostcallQueueMode.
Proof. solve_decision. Defined.

(** [HostcallQueueMode::parse]; [from_env] applies it to an environment
    variable and falls back to [SafeFallback]. *)
Definition HostcallQueueMode_parse (value : Str) : option HostcallQueueMode :=
  let v := to_ascii_lowercase (trim value) in
  if bool_decide (v ∈ [str "ebr"; str "epoch"; str "epoch-based"]) then Some Ebr
  else if bool_decide (v ∈ [str "fallback"; str "safe-fallback"; str "off"; str "disabled";
                            str "legacy"]) then Some SafeFallback
  else None.

Definition HostcallQueueMode_from_env (var : option Str) : HostcallQueueMode :=
  default SafeFallback (var ≫= HostcallQueueMode_parse).

Inductive HostcallQueueEnqueueResult :=
| FastPath (depth : Z)
| OverflowPath (depth overflow_depth : Z)
| Rejected (depth overflow_depth : Z).

Record HostcallQueueTelemetry := mkHostcallQueueTelemetry {
  qt_fast_depth : Z;
  qt_overflow_depth : Z;
  qt_total_depth : Z;
  qt_max_depth_seen : Z;
  qt_overflow_enqueued_total : Z;
  qt_overflow_rejected_total : Z;
  qt_fast_capacity : Z;
  qt_overflow_capacity : Z;
  qt_reclamation_mode : HostcallQueueMode;
  qt_retired_backlog : Z;
  qt_reclaimed_total : Z;
  qt_current_epoch : Z;
  qt_epoch_lag : Z;
  qt_max_epoch_lag : Z;
  qt_reclamation_latency_max_epochs : Z;
  qt_fallback_transitions : Z;
  qt_active_epoch_pins : Z;
  qt_bravo : BravoPolicyTelemetry;
  qt_s3fifo : S3FifoTelemetry;
}.

Section Queue.
Context {Q T : Type} `{ArrayQueue Q T} `{QueueTenant T}.

Record RetiredNode := mkRetiredNode { r_value : T; retired_epoch : Z }.

(** [active_epoch_pins] is the counter the queue shares with its pins. *)
Record HostcallRequestQueue := mkQueue {
  fast : Q;
  fast_capacity : Z;
  overflow : list T;
  overflow_enqueued_total : Z;
  overflow_rejected_total : Z;
  max_depth_seen : Z;
  overflow_capacity : Z;
  reclamation_mode : HostcallQueueMode;
  active_epoch_pins : Z;
  current_epoch : Z;
  retired : list RetiredNode;
  reclaimed_total : Z;
  max_epoch_lag : Z;
  reclamation_latency_max_epochs : Z;
  fallback_transitions : Z;
  safe_fallback_backlog_threshold : Z;
  contention_policy : BravoContentionState;
  s3fifo : S3FifoState;
}.

Definition with_mode (fast_cap overflow_cap : Z) (mode : HostcallQueueMode) : HostcallRequestQueue :=
  let fast_cap := Z.max fast_cap 1 in
  let overflow_cap := Z.max overflow_cap 1 in
  let threshold :=
    Z.max (sat_mul usize_max (sat_add usize_max fast_cap overflow_cap)
             SAFE_FALLBACK_BACKLOG_MULTIPLIER) SAFE_FALLBACK_BACKLOG_MIN in
  mkQueue (aq_new fast_cap) fast_cap [] 0 0 0 overflow_cap mode 0 0 [] 0 0 0 0 threshold
    BravoContentionState_default (S3FifoState_new (from_capacities fast_cap overflow_cap)).

Definition with_capacities (var : option Str) (fast_cap overflow_cap : Z) : HostcallRequestQueue :=
  with_mode fast_cap overflow_cap (HostcallQueueMode_from_env var).

Definition queue_len (q : HostcallRequestQueue) : Z := aq_len (fast q) + len (overflow q).
Definition queue_is_empty (q : HostcallRequestQueue) : bool :=
  aq_is_empty (fast q) && match overflow q with [] => true | _ => false end.

(** Field assignments. *)
Definition set_fast v q := mkQueue v (fast_capacity q) (overflow q) (overflow_enqueued_total q)
  (overflow_rejected_total q) (max_depth_seen q) (overflow_capacity q) (reclamation_mode q)
  (active_epoch_pins q) (current_epoch q) (retired q) (reclaimed_total q) (max_epoch_lag q)
  (reclamation_latency_max_epochs q) (fallback_transitions q) (safe_fallback_backlog_threshold q)
  (contention_policy q) (s3fifo q).
Definition set_overflow v n q := mkQueue (fast q) (fast_capacity q) v n
  (overflow_rejected_total q) (max_depth_seen q) (overflow_capacity q) (reclamation_mode q)
  (active_epoch_pins q) (current_epoch q) (retired q) (reclaimed_total q) (max_epoch_lag q)
  (reclamation_latency_max_epochs q) (fallback_transitions q) (safe_fallback_backlog_threshold q)
  (contention_policy q) (s3fifo q).
Definition bump_rejected q := mkQueue (fast q) (fast_capacity q) (overflow q)
  (overflow_enqueued_total q) (sat_add u64_max (overflow_rejected_total q) 1) (max_depth_seen q)
  (overflow_capacity q) (reclamation_mode q) (active_epoch_pins q) (current_epoch q) (retired q)
  (reclaimed_total q) (max_epoch_lag q) (reclamation_latency_max_epochs q)
  (fallback_transitions q) (safe_fallback_backlog_threshold q) (contention_policy q) (s3fifo q).
Definition see_depth d q := mkQueue (fast q) (fast_capacity q) (overflow q)
  (overflow_enqueued_total q) (overflow_rejected_total q) (Z.max (max_depth_seen q) d)
  (overflow_capacity q) (reclamation_mode q) (active_epoch_pins q) (current_epoch q) (retired q)
  (reclaimed_total q) (max_epoch_lag q) (reclamation_latency_max_epochs q)
  (fallback_transitions q) (safe_fallback_backlog_threshold q) (contention_policy q) (s3fifo q).
Definition set_pins n q := mkQueue (fast q) (fast_capacity q) (overflow q)
  (overflow_enqueued_total q) (overflow_rejected_total q) (max_depth_seen q)
  (overflow_capacity q) (reclamation_mode q) n (current_epoch q) (retired q)
  (reclaimed_total q) (max_epoch_lag q) (reclamation_latency_max_epochs q)
  (fallback_transitions q) (safe_fallback_backlog_threshold q) (contention_policy q) (s3fifo q).
Definition set_retired l q := mkQueue (fast q) (fast_capacity q) (overflow q)
  (overflow_enqueued_total q) (overflow_rejected_total q) (max_depth_seen q)
  (overflow_capacity q) (reclamation_mode q) (active_epoch_pins q) (current_epoch q) l
  (reclaimed_total q) (max_epoch_lag q) (reclamation_latency_max_epochs q)
  (fallback_transitions q) (safe_fallback_backlog_threshold q) (contention_policy q) (s3fifo q).
Definition see_lag n q := mkQueue (fast q) (fast_capacity q) (overflow q)
  (overflow_enqueued_total q) (overflow_rejected_total q) (max_depth_seen q)
  (overflow_capacity q) (reclamation_mode q) (active_epoch_pins q) (current_epoch q) (retired q)
  (reclaimed_total q) (Z.max (max_epoch_lag q) n) (reclamation_latency_max_epochs q)
  (fallback_transitions q) (safe_fallback_backlog_threshold q) (contention_policy q) (s3fifo q).
Definition set_policy b q := mkQueue (fast q) (fast_capacity q) (overflow q)
  (overflow_enqueued_total q) (overflow_rejected_total q) (max_depth_seen q)
  (overflow_capacity q) (reclamation_mode q) (active_epoch_pins q) (current_epoch q) (retired q)
  (reclaimed_total q) (max_epoch_lag q) (reclamation_latency_max_epochs q)
  (fallback_transitions q) (safe_fallback_backlog_threshold q) b (s3fifo q).
Definition set_s3 s q := mkQueue (fast q) (fast_capacity q) (overflow q)
  (overflow_enqueued_total q) (overflow_rejected_total q) (max_depth_seen q)
  (overflow_capacity q) (reclamation_mode q) (active_epoch_pins q) (current_epoch q) (retired q)
  (reclaimed_total q) (max_epoch_lag q) (reclamation_latency_max_epochs q)
  (fallback_transitions q) (safe_fallback_backlog_threshold q) (contention_policy q) s.

(** [fetch_add] and [fetch_sub] wrap. *)
Definition pin_epoch (q : HostcallRequestQueue) : HostcallRequestQueue :=
  set_pins (wrapping_add (active_epoch_pins q) 1) q.
Definition drop_epoch_pin (q : HostcallRequestQueue) : HostcallRequestQueue :=
  set_pins (wrapping_add (active_epoch_pins q) (-1)) q.

Definition bump_epoch (q : HostcallRequestQueue) : HostcallRequestQueue :=
  mkQueue (fast q) (fast_capacity q) (overflow q)
    (overflow_enqueued_total q) (overflow_rejected_total q) (max_depth_seen q)
    (overflow_capacity q) (reclamation_mode q) (active_epoch_pins q)
    (sat_add u64_max (current_epoch q) 1) (retired q) (reclaimed_total q) (max_epoch_lag q)
    (reclamation_latency_max_epochs q) (fallback_transitions q)
    (safe_fallback_backlog_threshold q) (contention_policy q) (s3fifo q).

Definition retire_for_reclamation (value : T) (q : HostcallRequestQueue) : HostcallRequestQueue :=
  set_retired (retired q ++ [mkRetiredNode value (current_epoch q)]) q.

Definition transition_to_safe_fallback (q : HostcallRequestQueue) : HostcallRequestQueue :=
  match reclamation_mode q with
  | SafeFallback => q
  | Ebr =>
      mkQueue (fast q) (fast_capacity q) (overflow q) (overflow_enqueued_total q)
        (overflow_rejected_total q) (max_depth_seen q) (overflow_capacity q) SafeFallback
        (active_epoch_pins q) (current_epoch q) [] (reclaimed_total q) (max_epoch_lag q)
        (reclamation_latency_max_epochs q) (sat_add u64_max (fallback_transitions q) 1)
        (safe_fallback_backlog_threshold q) (contention_policy q) (s3fifo q)
  end.

(** The reclamation loop: the nodes left, the largest latency seen and the
    number reclaimed. *)
Fixpoint reclaim_loop (epoch : Z) (nodes : list RetiredNode) (latency total : Z)
    : list RetiredNode * Z * Z :=
  match nodes with
  | [] => ([], latency, total)
  | node :: rest =>
      if retired_epoch node <? epoch then
        reclaim_loop epoch rest (Z.max latency (sat_sub epoch (retired_epoch node)))
          (sat_add u64_max total 1)
      else (nodes, latency, total)
  end.

Definition try_reclaim (q : HostcallRequestQueue) : HostcallRequestQueue :=
  match reclamation_mode q with
  | SafeFallback => q
  | Ebr =>
      if 0 <? active_epoch_pins q then
        let q :=
          match retired q with
          | front :: _ => see_lag (sat_sub (current_epoch q) (retired_epoch front)) q
          | [] => q
          end in
        if safe_fallback_backlog_threshold q <? len (retired q)
        then transition_to_safe_fallback q else q
      else
        let '(nodes, latency, total) :=
          reclaim_loop (current_epoch q) (retired q) (reclamation_latency_max_epochs q)
            (reclaimed_total q) in
        mkQueue (fast q) (fast_capacity q) (overflow q) (overflow_enqueued_total q)
          (overflow_rejected_total q) (max_depth_seen q) (overflow_capacity q)
          (reclamation_mode q) (active_epoch_pins q) (current_epoch q) nodes total
          (max_epoch_lag q) latency (fallback_transitions q)
          (safe_fallback_backlog_threshold q) (contention_policy q) (s3fifo q)
  end.

(** [while self.fast.pop().is_some() {}] *)
Definition drain_ring (f : Q) : Q :=
  while_fuel (λ f, match aq_pop f with Some _ => true | None => false end)
    (λ f, match aq_pop f with Some (_, f') => f' | None => f end) (Z.to_nat (aq_len f)) f.

Definition queue_clear (q : HostcallRequestQueue) : HostcallRequestQueue :=
  mkQueue (drain_ring (fast q)) (fast_capacity q) [] 0 0 0 (overflow_capacity q)
    (reclamation_mode q) (active_epoch_pins q) 0 [] 0 0 0 0 (safe_fallback_backlog_threshold q)
    BravoContentionState_default
    (S3FifoState_new (from_capacities (fast_capacity q) (overflow_capacity q))).

(** The statements after a successful enqueue in either lane. *)
Definition after_enqueue (q : HostcallRequestQueue) : HostcallRequestQueue :=
  let q := try_reclaim (bump_epoch q) in
  see_depth (queue_len q) q.

(** The part of [push_back] that offers the request to the overflow lane. *)
Definition push_overflow (request : T) (q : HostcallRequestQueue)
    : HostcallRequestQueue * HostcallQueueEnqueueResult :=
  let tk := tenant_key request in
  let '(s3, allowed) := allow_main_admission tk (s3fifo q) in
  let q := set_s3 s3 q in
  if negb allowed then
    let q := bump_rejected q in
    (q, Rejected (queue_len q) (len (overflow q)))
  else if len (overflow q) <? overflow_capacity q then
    let q := set_overflow (overflow q ++ [request])
               (sat_add u64_max (overflow_enqueued_total q) 1) q in
    let q := after_enqueue (set_s3 (on_main_enqueued tk (s3fifo q)) q) in
    (q, OverflowPath (queue_len q) (len (overflow q)))
  else
    let q := bump_rejected q in
    let q := set_s3 (on_main_overflow_reject tk (s3fifo q)) q in
    (q, Rejected (queue_len q) (len (overflow q))).

Definition push_back (request : T) (q : HostcallRequestQueue)
    : HostcallRequestQueue * HostcallQueueEnqueueResult :=
  let q := set_s3 (observe_signal (tenant_key request) (s3fifo q)) q in
  match overflow q with
  | [] =>
      match aq_push request (fast q) with
      | Some f => let q := after_enqueue (set_fast f q) in (q, FastPath (queue_len q))
      | None => push_overflow request q
      end
  | _ :: _ => push_overflow request q
  end.

(** What [pop_front] takes out, before the epoch bookkeeping. *)
Definition pop_lane (q : HostcallRequestQueue) : option (T * HostcallRequestQueue) :=
  match aq_pop (fast q) with
  | Some (value, f) => Some (value, set_fast f q)
  | None =>
      match overflow q with
      | [] => None
      | value :: rest =>
          let q := set_overflow rest (overflow_enqueued_total q) q in
          Some (value, set_s3 (on_main_dequeued (tenant_key value) (s3fifo q)) q)
      end
  end.

Definition pop_front (q : HostcallRequestQueue) : option (T * HostcallRequestQueue) :=
  match pop_lane q with
  | None => None
  | Some (value, q) =>
      let q := bump_epoch q in
      let q := if decide (reclamation_mode q = Ebr) then retire_for_reclamation value q else q in
      Some (value, try_reclaim q)
  end.

Fixpoint drain_loop (fuel : nat) (q : HostcallRequestQueue) : list T * HostcallRequestQueue :=
  match fuel with
  | O => ([], q)
  | S fuel' =>
      match pop_front q with
      | None => ([], q)
      | Some (request, q) => let '(l, q) := drain_loop fuel' q in (request :: l, q)
      end
  end.

(** One pop per queued request, plus the one that finds the queue empty. *)
Definition drain_all (q : HostcallRequestQueue) : list T * HostcallRequestQueue :=
  drain_loop (S (Z.to_nat (queue_len q))) q.

Definition force_reclaim (q : HostcallRequestQueue) : HostcallRequestQueue :=
  try_reclaim (bump_epoch q).

Definition force_safe_fallback (q : HostcallRequestQueue) : HostcallRequestQueue :=
  transition_to_safe_fallback q.

Definition observe_contention_window (sample : ContentionSample) (q : HostcallRequestQueue)
    : HostcallRequestQueue * BravoPolicyDecision :=
  let '(b, d) := observe sample (contention_policy q) in (set_policy b q, d).

Definition queue_snapshot (q : HostcallRequestQueue) : HostcallQueueTelemetry :=
  let lag := match retired q with
             | [] => 0
             | node :: _ => sat_sub (current_epoch q) (retired_epoch node)
             end in
  mkHostcallQueueTelemetry (aq_len (fast q)) (len (overflow q)) (queue_len q) (max_depth_seen q)
    (overflow_enqueued_total q) (overflow_rejected_total q) (fast_capacity q)
    (overflow_capacity q) (reclamation_mode q) (len (retired q)) (reclaimed_total q)
    (current_epoch q) lag (max_epoch_lag q) (reclamation_latency_max_epochs q)
    (fallback_transitions q) (active_epoch_pins q) (bravo_snapshot (contention_policy q))
    (s3_snapshot (s3fifo q)).
End Queue.
Arguments HostcallRequestQueue Q T : clear implicits.
Arguments RetiredNode T : clear implicits.

(** * Invariants *)

Section Proofs.
Context {Q T : Type} `{ArrayQueueLaws Q T} `{QueueTenant T}.
Implicit Types (q : HostcallRequestQueue Q T) (r : T) (s : S3FifoState).

(** The queued requests, oldest first. *)
Definition items q : list T := aq_items (fast q) ++ overflow q.

(** The number of a tenant's requests in a lane. *)
Definition backlog_of (l : list T) (t : Str) : Z := len (filter (λ r, tenant_key r = Some t) l).

(** ** Admission bookkeeping *)

Record s3_ok s (l : list T) : Prop := mk_s3_ok {
  so_ghost : ghost_wf (ghost_capacity (s3_config s)) (s3_ghost s);
  so_capacity : 1 ≤ ghost_capacity (s3_config s);
  so_backlog : s3_mode s = Active → ∀ t, default 0 (tenant_backlog s !! t) = backlog_of l t;
  so_positive : ∀ t n, tenant_backlog s !! t = Some n → 0 < n;
  so_fallback : s3_mode s = ConservativeFifo ↔ is_Some (s3_fallback_reason s);
}.

Lemma backlog_of_app l1 l2 t : backlog_of (l1 ++ l2) t = backlog_of l1 t + backlog_of l2 t.
Proof. unfold backlog_of. by rw filter_app len_app. Qed.

Lemma backlog_of_single r t :
  backlog_of [r] t = if decide (tenant_key r = Some t) then 1 else 0.
Proof. unfold backlog_of. rw filter_cons filter_nil. by case_decide. Qed.

Lemma backlog_of_bound l t : 0 ≤ backlog_of l t ≤ len l.
Proof. unfold backlog_of, len. pose proof (length_filter (λ r, tenant_key r = Some t) l). lia. Qed.

Lemma s3_new_ok fc oc : 1 ≤ fc → 1 ≤ oc → s3_ok (S3FifoState_new (from_capacities fc oc)) [].
Proof.
  intros. split; simpl; [|unfold S3_FIFO_GHOST_CAPACITY_MIN; lia|done|done|].
  - apply ghost_wf_new. unfold S3_FIFO_GHOST_CAPACITY_MIN. lia.
  - split; [done|by intros []].
Qed.

Lemma fallback_ok reason s l : s3_ok s l → s3_ok (transition_to_fallback reason s) l.
Proof.
  intros HI. unfold transition_to_fallback. destruct (s3_mode s); [|done].
  destruct HI as [Hg Hc Hb Hp Hf]. split; simpl; try done.
  - apply ghost_wf_new. lia.
Qed.

(** Assignments that leave the tracked fields alone. *)
Lemma s3_same s s' l :
  s3_ok s l → s3_config s' = s3_config s → s3_mode s' = s3_mode s →
  s3_fallback_reason s' = s3_fallback_reason s → s3_ghost s' = s3_ghost s →
  tenant_backlog s' = tenant_backlog s → s3_ok s' l.
Proof. intros [] Hc Hm Hr Hg Hb. split; rw ?Hc ?Hm ?Hr ?Hg ?Hb //. Qed.

Lemma observe_signal_ok tk s l : s3_ok s l → s3_ok (observe_signal tk s) l.
Proof.
  intros HI. unfold observe_signal. destruct (s3_mode s) eqn:E; [|done].
  destruct tk; [by eapply s3_same|].
  destruct (_ && _); [apply fallback_ok|]; by eapply s3_same.
Qed.

Lemma record_ghost_ok tk s l : s3_ok s l → s3_ok (record_ghost tk s) l.
Proof.
  intros HI. unfold record_ghost. destruct tk; [done|].
  destruct HI as [Hg Hc Hb Hp Hf].
  split; simpl; try done. apply ghost_wf_push; [lia|done].
Qed.

Lemma check_unstable_ok s l : s3_ok s l → s3_ok (check_unstable s) l.
Proof. unfold check_unstable. case_match; [apply fallback_ok|done]. Qed.

Lemma consume_ghost_ok tk s l : s3_ok s l → s3_ok (consume_ghost_hit tk s).1 l.
Proof.
  intros HI. unfold consume_ghost_hit. case_match; [|done].
  destruct HI as [Hg Hc Hb Hp Hf].
  split; simpl; try done. by apply ghost_wf_remove.
Qed.

Lemma allow_main_ok tk s l : s3_ok s l → s3_ok (allow_main_admission tk s).1 l.
Proof.
  intros HI. unfold allow_main_admission.
  destruct (s3_mode s), tk as [tk|]; simpl; try done.
  case_match; [done|]. pose proof (consume_ghost_ok tk s l HI) as HI'.
  destruct (consume_ghost_hit tk s) as [s' []]; simpl in *; [by eapply s3_same|].
  apply check_unstable_ok, record_ghost_ok. by eapply s3_same.
Qed.

Lemma on_overflow_reject_ok tk s l : s3_ok s l → s3_ok (on_main_overflow_reject tk s) l.
Proof.
  intros HI. unfold on_main_overflow_reject. destruct (s3_mode s); [|done].
  apply check_unstable_ok.
  destruct tk as [tk|]; [apply (record_ghost_ok tk) in HI|]; eapply s3_same; [exact HI|done..].
Qed.

(** A request of tenant [tk] joins the lane. *)
Lemma on_enqueued_ok r s l :
  len l < usize_max → s3_ok s l → s3_ok (on_main_enqueued (tenant_key r) s) (l ++ [r]).
Proof.
  intros Hlt [Hg Hc Hb Hp Hf]. unfold on_main_enqueued.
  destruct (s3_mode s) eqn:E; [|split; congruence || done].
  specialize (Hb eq_refl). destruct (tenant_key r) as [t0|] eqn:Et.
  - destruct (tenant_backlog s !! t0) as [n|] eqn:En; split; simpl; try done.
    + intros _ t. rw backlog_of_app backlog_of_single Et -Hb lookup_insert.
      pose proof (backlog_of_bound l t0). pose proof (Hb t0) as Hn0. rw En in Hn0. simpl in Hn0.
      repeat case_decide; simplify_eq; rw ?En /=; int_lia.
    + intros t n' [[<- <-]|[_ ?%Hp]]%lookup_insert_Some; [|done].
      specialize (Hp t0 n En). int_lia.
    + by rw E.
    + intros _ t. rw backlog_of_app backlog_of_single Et -Hb lookup_insert.
      repeat case_decide; simplify_eq; rw ?En /=; lia.
    + intros t n' [[<- <-]|[_ ?%Hp]]%lookup_insert_Some; done.
    + by rw E.
  - split; simpl; try done; [|by rw E].
    intros _ t. rw backlog_of_app backlog_of_single Et Hb. case_decide; [done|lia].
Qed.

(** The oldest request of the lane leaves it. *)
Lemma on_dequeued_ok r s l : s3_ok s (r :: l) → s3_ok (on_main_dequeued (tenant_key r) s) l.
Proof.
  intros [Hg Hc Hb Hp Hf]. unfold on_main_dequeued.
  destruct (s3_mode s) eqn:E; [|split; congruence || done].
  specialize (Hb eq_refl).
  assert (∀ t, backlog_of (r :: l) t =
    backlog_of l t + if decide (tenant_key r = Some t) then 1 else 0) as Hcons.
  { intros t. rw -(backlog_of_single r t) Z.add_comm -backlog_of_app //. }
  setoid_rewrite Hcons in Hb. clear Hcons. destruct (tenant_key r) as [t0|] eqn:Et.
  - apply record_ghost_ok. pose proof (Hb t0) as Hn0. rw decide_True // in Hn0.
    pose proof (backlog_of_bound l t0).
    destruct (tenant_backlog s !! t0) as [n|] eqn:En; simpl in Hn0; [|lia].
    destruct (Z.eqb_spec (sat_sub n 1) 0) as [E0|E0]; split; simpl; try done.
    + intros _ t. rw lookup_delete. specialize (Hb t).
      repeat case_decide; simplify_eq; simpl in *; int_lia.
    + intros t n' [_ ?%Hp]%lookup_delete_Some. done.
    + by rw E.
    + intros _ t. rw lookup_insert. specialize (Hb t).
      repeat case_decide; simplify_eq; simpl in *; int_lia.
    + intros t n' [[<- <-]|[_ ?%Hp]]%lookup_insert_Some; [|done]. int_lia.
    + by rw E.
  - split; try done; [|by rw E]. intros _ t. rw Hb. case_decide; [done|lia].
Qed.

(** ** Reclamation *)

(** The fields reclamation never touches. *)
Definition lanes q :=
  (fast q, fast_capacity q, overflow q, overflow_capacity q, s3fifo q,
   active_epoch_pins q, safe_fallback_backlog_threshold q).

Record recl_ok q : Prop := mk_recl_ok {
  ro_epoch : in_u64 (current_epoch q);
  ro_fallback : reclamation_mode q = SafeFallback → retired q = [];
  ro_retired : Forall (λ n, retired_epoch n ≤ current_epoch q) (retired q);
  ro_bounded : current_epoch q < u64_max → len (retired q) ≤ safe_fallback_backlog_threshold q;
  ro_threshold : 1 ≤ safe_fallback_backlog_threshold q;
}.

Lemma reclaim_loop_all epoch (nodes : list (RetiredNode T)) keep latency total :
  Forall (λ n, retired_epoch n < epoch) nodes →
  Forall (λ n, epoch ≤ retired_epoch n) keep →
  (reclaim_loop epoch (nodes ++ keep) latency total).1.1 = keep ∧
  (0 ≤ total ≤ u64_max →
   (reclaim_loop epoch (nodes ++ keep) latency total).2 = sat_add u64_max total (len nodes)).
Proof.
  intros Hn Hk. revert latency total. induction Hn as [|n nodes Hlt _ IH]; intros latency total; simpl.
  - destruct Hk as [|n keep Hn _]; simpl; [split; [done|int_lia]|].
    destruct (Z.ltb_spec (retired_epoch n) epoch); [lia|]. simpl. split; [done|int_lia].
  - destruct (Z.ltb_spec (retired_epoch n) epoch); [|lia].
    destruct (IH (Z.max latency (sat_sub epoch (retired_epoch n))) (sat_add u64_max total 1))
      as [-> Ht]. split; [done|]. intros Hr. rw Ht; [|int_lia]. len_lia.
Qed.

Lemma reclaim_loop_suffix epoch (nodes : list (RetiredNode T)) latency total :
  ∃ gone, nodes = gone ++ (reclaim_loop epoch nodes latency total).1.1.
Proof.
  revert latency total. induction nodes as [|n nodes IH]; intros latency total; simpl.
  - by exists [].
  - destruct (_ <? _); [|by exists []].
    destruct (IH (Z.max latency (sat_sub epoch (retired_epoch n))) (sat_add u64_max total 1))
      as [gone Hg]. exists (n :: gone). simpl. by rw -Hg.
Qed.

Lemma try_reclaim_lanes q : lanes (try_reclaim q) = lanes q.
Proof.
  unfold try_reclaim. destruct (reclamation_mode q) eqn:E; [|done].
  destruct (0 <? active_epoch_pins q).
  - destruct (retired q) as [|n l]; cbv zeta; case_match; try done;
      unfold transition_to_safe_fallback; cbn; by rw E.
  - by destruct (reclaim_loop _ _ _ _) as [[? ?] ?].
Qed.

(** What [try_reclaim] does to the retired nodes. *)
Lemma try_reclaim_retired q :
  let q' := try_reclaim q in
  current_epoch q' = current_epoch q ∧
  (reclamation_mode q' = reclamation_mode q ∧
     (if decide (reclamation_mode q = Ebr ∧ active_epoch_pins q ≤ 0)
      then retired q' = (reclaim_loop (current_epoch q) (retired q)
             (reclamation_latency_max_epochs q) (reclaimed_total q)).1.1 ∧
           reclaimed_total q' = (reclaim_loop (current_epoch q) (retired q)
             (reclamation_latency_max_epochs q) (reclaimed_total q)).2
      else retired q' = retired q ∧ reclaimed_total q' = reclaimed_total q ∧
           (reclamation_mode q = Ebr → len (retired q) ≤ safe_fallback_backlog_threshold q))
   ∨ reclamation_mode q = Ebr ∧ 0 < active_epoch_pins q ∧ reclamation_mode q' = SafeFallback ∧
     retired q' = [] ∧ reclaimed_total q' = reclaimed_total q ∧
     safe_fallback_backlog_threshold q < len (retired q)).
Proof.
  unfold try_reclaim. destruct (reclamation_mode q) eqn:E; cbv zeta.
  - destruct (Z.ltb_spec 0 (active_epoch_pins q)) as [Hp|Hp].
    + set (q1 := match retired q with [] => q | _ :: _ => _ end).
      assert (q1 = q ∨ ∃ n, q1 = see_lag n q) as Hq1.
      { unfold q1. destruct (retired q); [by left|right; by eexists]. }
      assert (retired q1 = retired q ∧ reclamation_mode q1 = Ebr ∧
        current_epoch q1 = current_epoch q ∧ reclaimed_total q1 = reclaimed_total q ∧
        safe_fallback_backlog_threshold q1 = safe_fallback_backlog_threshold q)
        as (Hr1 & Hm1 & Hc1 & Ht1 & Hs1) by (destruct Hq1 as [->|[n ->]]; done).
      unfold transition_to_safe_fallback. rw Hr1 Hs1 Hm1.
      destruct (Z.ltb_spec (safe_fallback_backlog_threshold q) (len (retired q))).
      * split; [done|]. right. split_and!; done.
      * split; [done|]. left. split; [done|].
        destruct (decide _) as [[_ ?]|_]; [lia|]. split_and!; done.
    + destruct (reclaim_loop _ _ _ _) as [[nodes la] to] eqn:El. split; [done|]. left.
      split; [done|]. destruct (decide _) as [_|[]]; done.
  - split; [done|]. left. split; [done|]. destruct (decide _) as [[? _]|_]; [done|].
    split_and!; done.
Qed.

(** The state before a reclamation point: the nodes are those of earlier
    epochs and at most one of the current epoch. *)
Record pre_reclaim q : Prop := mk_pre_reclaim {
  pr_epoch : in_u64 (current_epoch q);
  pr_fallback : reclamation_mode q = SafeFallback → retired q = [];
  pr_retired : Forall (λ n, retired_epoch n ≤ current_epoch q) (retired q);
  pr_split : current_epoch q < u64_max → ∃ old new, retired q = old ++ new ∧ len new ≤ 1 ∧
               Forall (λ n, retired_epoch n < current_epoch q) old ∧
               Forall (λ n, current_epoch q ≤ retired_epoch n) new;
  pr_threshold : 1 ≤ safe_fallback_backlog_threshold q;
}.

Lemma lanes_threshold q q' :
  lanes q' = lanes q → safe_fallback_backlog_threshold q' = safe_fallback_backlog_threshold q.
Proof. unfold lanes. congruence. Qed.

Lemma try_reclaim_ok q : pre_reclaim q → recl_ok (try_reclaim q).
Proof.
  intros [He Hf Hr Hs Ht].
  destruct (try_reclaim_retired q) as [Hc Hcase].
  pose proof (lanes_threshold _ _ (try_reclaim_lanes q)) as Hthr.
  destruct Hcase as [[Hm Hcase]|(_ & _ & Hm & Hr' & _)].
  - destruct (decide _) as [[HE _]|HE].
    + destruct Hcase as [Hr' _].
      destruct (reclaim_loop_suffix (current_epoch q) (retired q)
        (reclamation_latency_max_epochs q) (reclaimed_total q)) as [gone Hg].
      rw -Hr' in Hg. split; rw ?Hc ?Hm ?Hthr //; [congruence| |].
      * rw Hg in Hr. by apply Forall_app in Hr as [_ ?].
      * intros Hlt. destruct (Hs Hlt) as (old & new & Heq & Hl & Hold & Hnew).
        rw Hr' Heq (proj1 (reclaim_loop_all _ _ _ _ _ Hold Hnew)). lia.
    + destruct Hcase as (Hr' & _ & Hb). split; rw ?Hc ?Hm ?Hthr ?Hr' //.
      intros _. destruct (reclamation_mode q); [by apply Hb|]. rw Hf //. len_lia.
  - split; rw ?Hc ?Hthr ?Hr' //. intros _. len_lia.
Qed.

Lemma bump_pre q : recl_ok q → pre_reclaim (bump_epoch q).
Proof.
  intros [He Hf Hr Hb Ht]. split; cbn; try done.
  - unfold in_u64 in *. int_lia.
  - eapply Forall_impl; [exact Hr|]. intros n Hn. cbn in *. int_lia.
  - intros Hlt. exists (retired q), []. rw app_nil_r. split_and!; [done|len_lia| |done].
    eapply Forall_impl; [exact Hr|]. intros n Hn. cbn in *. int_lia.
Qed.

Lemma retire_pre r q :
  recl_ok q → reclamation_mode q = Ebr → pre_reclaim (retire_for_reclamation r (bump_epoch q)).
Proof.
  intros HI HE. destruct (bump_pre q HI) as [He Hf Hr Hs Ht]. cbn in *. split; cbn; try done.
  - congruence.
  - apply Forall_app. split; [done|]. by constructor.
  - intros Hlt. destruct (HI) as [_ _ Hr0 _ _].
    exists (retired q), [mkRetiredNode r (sat_add u64_max (current_epoch q) 1)].
    split_and!; [done|len_lia| |by constructor].
    eapply Forall_impl; [exact Hr0|]. intros n Hn. cbn in *. int_lia.
Qed.

Lemma force_reclaim_ok q : recl_ok q → recl_ok (force_reclaim q).
Proof. intros HI. by apply try_reclaim_ok, bump_pre. Qed.

(** ** The lanes *)

Record lanes_ok q : Prop := mk_lanes_ok {
  lo_cap : aq_cap (fast q) = fast_capacity q;
  lo_fast : len (aq_items (fast q)) ≤ fast_capacity q;
  lo_caps : 1 ≤ fast_capacity q ∧ 1 ≤ overflow_capacity q ≤ usize_max;
  lo_overflow : len (overflow q) ≤ overflow_capacity q;
  lo_s3 : s3_ok (s3fifo q) (overflow q);
}.

Lemma lanes_ok_eq q q' : lanes q' = lanes q → lanes_ok q → lanes_ok q'.
Proof.
  unfold lanes. intros Heq. injection Heq as E1 E2 E3 E4 E5 E6 E7. intros [].
  split; rw ?E1 ?E2 ?E3 ?E4 ?E5 //.
Qed.

Lemma lanes_items q q' : lanes q' = lanes q → items q' = items q.
Proof. unfold lanes, items. congruence. Qed.

Lemma queue_len_items q : queue_len q = len (items q).
Proof. unfold queue_len, items. by rw aq_len_spec len_app. Qed.

(** A frame for the fields outside the lanes. *)
Lemma recl_ok_eq q q' :
  current_epoch q' = current_epoch q → reclamation_mode q' = reclamation_mode q →
  retired q' = retired q →
  safe_fallback_backlog_threshold q' = safe_fallback_backlog_threshold q →
  recl_ok q → recl_ok q'.
Proof. intros E1 E2 E3 E4 []. split; rw ?E1 ?E2 ?E3 ?E4 //. Qed.

Lemma after_enqueue_lanes q : lanes (after_enqueue q) = lanes q.
Proof. unfold after_enqueue. exact (try_reclaim_lanes (bump_epoch q)). Qed.

Lemma after_enqueue_ok q : lanes_ok q → recl_ok q → lanes_ok (after_enqueue q) ∧ recl_ok (after_enqueue q).
Proof.
  intros HL HR. split.
  - eapply lanes_ok_eq; [apply after_enqueue_lanes|done].
  - unfold after_enqueue. apply (recl_ok_eq (try_reclaim (bump_epoch q))); try done.
    by apply force_reclaim_ok.
Qed.

Definition accepted (res : HostcallQueueEnqueueResult) r : list T :=
  match res with FastPath _ | OverflowPath _ _ => [r] | Rejected _ _ => [] end.

Definition reported_depth (res : HostcallQueueEnqueueResult) : Z :=
  match res with FastPath d | OverflowPath d _ | Rejected d _ => d end.

(** The outcome of an enqueue: invariants, contents and reported depth. *)
Definition enqueued q r (out : HostcallRequestQueue Q T * HostcallQueueEnqueueResult) : Prop :=
  lanes_ok out.1 ∧ recl_ok out.1 ∧ items out.1 = items q ++ accepted out.2 r ∧
  reported_depth out.2 = len (items out.1).

Lemma set_s3_ok s q : lanes_ok q → s3_ok s (overflow q) → lanes_ok (set_s3 s q).
Proof. intros [] Hs. by split. Qed.

Lemma push_overflow_ok r q : lanes_ok q → recl_ok q → enqueued q r (push_overflow r q).
Proof.
  intros HL HR. unfold push_overflow.
  pose proof (allow_main_ok (tenant_key r) (s3fifo q) (overflow q) (lo_s3 _ HL)) as Hs.
  destruct (allow_main_admission (tenant_key r) (s3fifo q)) as [s3 allowed]. cbn in Hs.
  destruct allowed; cbn [negb].
  - destruct (Z.ltb_spec (len (overflow (set_s3 s3 q))) (overflow_capacity (set_s3 s3 q))) as [Hlt|Hge].
    + cbn in Hlt |- *. set (q1 := set_s3 _ (set_overflow _ _ _)).
      destruct (after_enqueue_ok q1) as [HL' HR'].
      { destruct HL as [Hc Hf Hcap Ho _]. split; cbn; try done; [len_lia|].
        apply on_enqueued_ok; [lia|done]. }
      { by apply (recl_ok_eq q). }
      split_and!; [exact HL'|exact HR'| |exact (queue_len_items _)].
      cbn [fst]. rw (lanes_items _ _ (after_enqueue_lanes q1)). unfold items. cbn.
      by rw -app_assoc.
    + split_and!; cbn; [|by apply (recl_ok_eq q)|by rw app_nil_r|exact (queue_len_items _)].
      destruct HL as [Hc Hf Hcap Ho _]. split; cbn; try done. by apply on_overflow_reject_ok.
  - split_and!; cbn; [|by apply (recl_ok_eq q)|by rw app_nil_r|exact (queue_len_items _)].
    destruct HL. by split.
Qed.

Lemma push_back_ok r q : lanes_ok q → recl_ok q → enqueued q r (push_back r q).
Proof.
  intros HL HR. unfold push_back.
  pose proof (observe_signal_ok (tenant_key r) _ _ (lo_s3 _ HL)) as Hs.
  set (q1 := set_s3 (observe_signal (tenant_key r) (s3fifo q)) q).
  assert (lanes_ok q1) as HL1 by (by apply set_s3_ok).
  assert (recl_ok q1) as HR1 by (by apply (recl_ok_eq q)).
  assert (items q1 = items q) as Hi by done.
  assert (enqueued q r (push_overflow r q1)) as Hov by exact (push_overflow_ok r q1 HL1 HR1).
  destruct (overflow q1) as [|x l] eqn:Eo; [|done].
  pose proof (aq_push_spec r (fast q1)) as Hp.
  destruct (aq_push r (fast q1)) as [f|]; [|done]. destruct Hp as (Hlt & Hf & Hcap).
  destruct (after_enqueue_ok (set_fast f q1)) as [HL' HR'].
  { destruct HL1 as [Hc Hfl Hcaps Ho Hs3]. split; cbn; try done; rw ?Hf ?Hcap //. len_lia. }
  { by apply (recl_ok_eq q1). }
  split_and!; [exact HL'|exact HR'| |exact (queue_len_items _)].
  cbn [fst snd accepted]. rw (lanes_items _ _ (after_enqueue_lanes _)) -Hi. unfold items.
  cbn [fast set_fast overflow]. rw Hf Eo. by rw !app_nil_r.
Qed.

Lemma pop_lane_ok q :
  lanes_ok q → recl_ok q →
  match pop_lane q with
  | None => items q = []
  | Some (v, q') => items q = v :: items q' ∧ lanes_ok q' ∧ recl_ok q'
  end.
Proof.
  intros HL HR. unfold pop_lane. pose proof (aq_pop_spec (fast q)) as Hp.
  destruct (aq_pop (fast q)) as [[v f]|].
  - destruct Hp as [Hi Hcap]. split_and!; [unfold items; by rw Hi| |by apply (recl_ok_eq q)].
    destruct HL as [Hc Hf Hcaps Ho Hs]. rw Hi in Hf. split; cbn; try done; [congruence|len_lia].
  - destruct (overflow q) as [|v rest] eqn:Eo; [unfold items; by rw Hp Eo|].
    split_and!; [unfold items; cbn; by rw Hp Eo| |by apply (recl_ok_eq q)].
    destruct HL as [Hc Hf Hcaps Ho Hs]. rw Eo in Ho, Hs. split; cbn; try done; [len_lia|].
    by apply on_dequeued_ok.
Qed.

Lemma pop_front_ok q :
  lanes_ok q → recl_ok q →
  match pop_front q with
  | None => items q = []
  | Some (v, q') => items q = v :: items q' ∧ lanes_ok q' ∧ recl_ok q'
  end.
Proof.
  intros HL HR. unfold pop_front. pose proof (pop_lane_ok q HL HR) as Hp.
  destruct (pop_lane q) as [[v q1]|]; [|done]. destruct Hp as (Hi & HL1 & HR1). cbv zeta.
  set (q2 := if decide _ then _ else _).
  assert (lanes q2 = lanes q1) as Hl2 by (unfold q2; by case_decide).
  assert (pre_reclaim q2) as HP by (unfold q2; case_decide; auto using retire_pre, bump_pre).
  assert (lanes (try_reclaim q2) = lanes q1) as Hl by (by rw try_reclaim_lanes).
  split_and!; [by rw (lanes_items _ _ Hl)|by eapply lanes_ok_eq|by apply try_reclaim_ok].
Qed.

Lemma drain_loop_ok fuel q :
  lanes_ok q → recl_ok q → (length (items q) < fuel)%nat →
  let '(l, q') := drain_loop fuel q in
  l = items q ∧ items q' = [] ∧ lanes_ok q' ∧ recl_ok q'.
Proof.
  revert q. induction fuel as [|n IH]; intros q HL HR Hlt; [lia|]. simpl.
  pose proof (pop_front_ok q HL HR) as Hp. destruct (pop_front q) as [[v q1]|].
  - destruct Hp as (Hi & HL1 & HR1). rw Hi /= in Hlt.
    specialize (IH q1 HL1 HR1). destruct (drain_loop n q1) as [l q'].
    destruct IH as (-> & ?); [lia|]. by rw Hi.
  - by rw Hp.
Qed.

Lemma drain_all_ok q :
  lanes_ok q → recl_ok q →
  let '(l, q') := drain_all q in l = items q ∧ items q' = [] ∧ lanes_ok q' ∧ recl_ok q'.
Proof.
  intros HL HR. apply drain_loop_ok; [done|done|]. rw queue_len_items. unfold len. lia.
Qed.

Lemma drain_ring_ok (f : Q) : aq_items (drain_ring f) = [] ∧ aq_cap (drain_ring f) = aq_cap f.
Proof.
  unfold drain_ring. set (c := λ f, _). set (b := λ f, _).
  assert (∀ g, aq_cap g = aq_cap f → c g = true →
    aq_cap (b g) = aq_cap f ∧ (length (aq_items (b g)) < length (aq_items g))%nat) as Hstep.
  { intros g Hg. unfold c, b. pose proof (aq_pop_spec g) as Hp.
    destruct (aq_pop g) as [[x g']|]; [|done]. destruct Hp as [-> Hc]. simpl. split; [congruence|lia]. }
  rw aq_len_spec. set (n := Z.to_nat (len (aq_items f))). split.
  - assert (c (while_fuel c b n f) = false) as Hexit.
    { apply (while_fuel_exit _ _ (λ g, aq_cap g = aq_cap f) (λ g, length (aq_items g))); [done|done|].
      unfold n, len. lia. }
    revert Hexit. generalize (while_fuel c b n f) as g. intros g. unfold c.
    pose proof (aq_pop_spec g) as Hp. by destruct (aq_pop g) as [[? ?]|].
  - apply while_fuel_inv; [done|]. intros g Hg Ec. by apply Hstep.
Qed.

Lemma queue_clear_ok q : lanes_ok q → recl_ok q → lanes_ok (queue_clear q) ∧ recl_ok (queue_clear q).
Proof.
  intros [Hc Hf Hcaps Ho Hs] [He Hfb Hr Hb Ht].
  destruct (drain_ring_ok (fast q)) as [Hi Hcap]. split.
  - split; cbn; rw ?Hi ?Hcap //; [len_lia|len_lia|]. apply s3_new_ok; lia.
  - split; cbn; try done; len_lia.
Qed.

Lemma with_mode_ok fc oc mode :
  fc ≤ usize_max → oc ≤ usize_max →
  let q := with_mode fc oc mode : HostcallRequestQueue Q T in lanes_ok q ∧ recl_ok q.
Proof.
  intros Hfc Hoc. assert (1 ≤ Z.max fc 1) as H1c by lia.
  destruct (aq_new_spec (T := T) (Q := Q) _ H1c) as [Hi Hcap]. split.
  - split; cbn; rw ?Hi ?Hcap //; [len_lia|int_lia|len_lia|]. apply s3_new_ok; lia.
  - split; cbn; try done; unfold SAFE_FALLBACK_BACKLOG_MIN; len_lia.
Qed.
End Proofs.

(** * Runs *)

(** The public operations; [drop_epoch_pin] is the destructor of a pin. *)
Inductive queue_op (T : Type) :=
| OpPush (request : T)
| OpDrain
| OpReclaim
| OpSafeFallback
| OpObserve (sample : ContentionSample)
| OpPin
| OpUnpin.
Arguments OpPush {_} _.
Arguments OpDrain {_}.
Arguments OpReclaim {_}.
Arguments OpSafeFallback {_}.
Arguments OpObserve {_} _.
Arguments OpPin {_}.
Arguments OpUnpin {_}.

Section Runs.
Context {Q T : Type} `{ArrayQueueLaws Q T} `{QueueTenant T}.
Implicit Types (q : HostcallRequestQueue Q T) (op : queue_op T).

(** The new state, the requests the queue accepted and those it delivered. *)
Definition run_op op q : HostcallRequestQueue Q T * list T * list T :=
  match op with
  | OpPush r => let '(q', res) := push_back r q in (q', accepted res r, [])
  | OpDrain => let '(l, q') := drain_all q in (q', [], l)
  | OpReclaim => (force_reclaim q, [], [])
  | OpSafeFallback => (force_safe_fallback q, [], [])
  | OpObserve sample => ((observe_contention_window sample q).1, [], [])
  | OpPin => (pin_epoch q, [], [])
  | OpUnpin => (drop_epoch_pin q, [], [])
  end.

Fixpoint run_ops (ops : list (queue_op T)) q : HostcallRequestQueue Q T * list T * list T :=
  match ops with
  | [] => (q, [], [])
  | op :: ops' =>
      let '(q1, a1, d1) := run_op op q in
      let '(q2, a2, d2) := run_ops ops' q1 in
      (q2, a1 ++ a2, d1 ++ d2)
  end.

(** [clear] is the only other operation that changes the queue. *)
Inductive queue_step : HostcallRequestQueue Q T → HostcallRequestQueue Q T → Prop :=
| step_op q op : queue_step q (run_op op q).1.1
| step_queue_clear q : queue_step q (queue_clear q).

Lemma safe_fallback_ok q : recl_ok q → recl_ok (transition_to_safe_fallback q).
Proof.
  intros HR. unfold transition_to_safe_fallback. destruct (reclamation_mode q); [|done].
  destruct HR. split; cbn; try done. len_lia.
Qed.

Lemma safe_fallback_lanes q : lanes (transition_to_safe_fallback q) = lanes q.
Proof. unfold transition_to_safe_fallback. by destruct (reclamation_mode q). Qed.

Lemma run_op_ok op q :
  lanes_ok q → recl_ok q →
  let '(q', a, d) := run_op op q in
  lanes_ok q' ∧ recl_ok q' ∧ items q ++ a = d ++ items q'.
Proof.
  intros HL HR. destruct op as [r| | | |sample| |]; simpl.
  - pose proof (push_back_ok r q HL HR) as Hp. destruct (push_back r q) as [q' res].
    destruct Hp as (? & ? & ? & _). by split_and!.
  - pose proof (drain_all_ok q HL HR) as Hd. destruct (drain_all q) as [l q'].
    destruct Hd as (-> & -> & ? & ?). by split_and!.
  - pose proof (try_reclaim_lanes (bump_epoch q)) as Hl. split_and!.
    + by eapply (lanes_ok_eq q).
    + by apply force_reclaim_ok.
    + by rw app_nil_r (lanes_items q).
  - pose proof (safe_fallback_lanes q) as Hl. split_and!.
    + by eapply (lanes_ok_eq q).
    + by apply safe_fallback_ok.
    + by rw app_nil_r (lanes_items q).
  - unfold observe_contention_window. destruct (observe sample (contention_policy q)) as [b d].
    split_and!; [by eapply (lanes_ok_eq q)|by eapply (recl_ok_eq q)|by rw app_nil_r].
  - split_and!; [destruct HL; by split|by eapply (recl_ok_eq q)|by rw app_nil_r].
  - split_and!; [destruct HL; by split|by eapply (recl_ok_eq q)|by rw app_nil_r].
Qed.

Lemma queue_step_ok q q' : lanes_ok q ∧ recl_ok q → queue_step q q' → lanes_ok q' ∧ recl_ok q'.
Proof.
  intros [HL HR] Hs. inversion Hs; subst; [|by apply queue_clear_ok].
  pose proof (run_op_ok op q HL HR) as Ho. destruct (run_op op q) as [[q1 a] d].
  by destruct Ho as (? & ? & _).
Qed.

Lemma reachable_ok fc oc mode q :
  fc ≤ usize_max → oc ≤ usize_max → rtc queue_step (with_mode fc oc mode) q →
  lanes_ok q ∧ recl_ok q.
Proof.
  intros Hf Ho Hr. eapply (rtc_preserves queue_step (λ q, lanes_ok q ∧ recl_ok q));
    [exact queue_step_ok|exact Hr|by apply with_mode_ok].
Qed.

Lemma run_ops_fifo ops q :
  lanes_ok q → recl_ok q →
  let '(q', a, d) := run_ops ops q in
  lanes_ok q' ∧ recl_ok q' ∧ items q ++ a = d ++ items q'.
Proof.
  revert q. induction ops as [|op ops IH]; intros q HL HR; simpl.
  { split_and!; [done|done|by rw app_nil_r]. }
  pose proof (run_op_ok op q HL HR) as Ho. destruct (run_op op q) as [[q1 a1] d1].
  destruct Ho as (HL1 & HR1 & E1). specialize (IH q1 HL1 HR1).
  destruct (run_ops ops q1) as [[q2 a2] d2]. destruct IH as (? & ? & E2). split_and!; [done|done|].
  by rw (app_assoc _ a1 a2) E1 -(app_assoc d1 _ a2) E2 (app_assoc d1 d2).
Qed.
End Runs.

(** C33: the two lanes are one FIFO: over any sequence of pushes, drains,
    reclamations, pins and fallbacks of a reachable queue, the requests
    queued before plus the requests accepted since are, in this order, the
    requests delivered followed by those still queued.  None is lost,
    duplicated or reordered, whichever lane it went through; and a drain
    delivers everything that is queued and leaves both lanes empty. *)
Theorem queue_is_fifo `{ArrayQueueLaws Q T} `{QueueTenant T} fc oc mode
    (q q' : HostcallRequestQueue Q T) ops accepted_requests delivered :
  fc ≤ usize_max → oc ≤ usize_max → rtc queue_step (with_mode fc oc mode) q →
  run_ops ops q = (q', accepted_requests, delivered) →
  items q ++ accepted_requests = delivered ++ items q' ∧
  (drain_all q').1 = items q' ∧ items (drain_all q').2 = [].
Proof.
  intros Hf Ho Hr Hrun. destruct (reachable_ok fc oc mode q Hf Ho Hr) as [HL HR].
  pose proof (run_ops_fifo ops q HL HR) as Hfifo. rw Hrun in Hfifo.
  destruct Hfifo as (HL' & HR' & Heq). split; [done|].
  pose proof (drain_all_ok q' HL' HR') as Hd. destruct (drain_all q') as [l q2].
  by destruct Hd as (? & ? & _).
Qed.

Lemma queue_is_fifo_witness :
  let q := with_mode 1 2 Ebr : HostcallRequestQueue (Ring Z) Z in
  let run := run_ops [OpPush 1; OpPush 2; OpPush 3; OpPush 4; OpDrain; OpPush 5] q in
  run.1.2 = [1; 2; 3; 5] ∧ items q ++ run.1.2 = run.2 ++ items run.1.1 ∧
  (drain_all run.1.1).1 = [5].
Proof.
  intros q run. split; [vm_compute; reflexivity|].
  split; [|vm_compute; reflexivity].
  refine (proj1 (queue_is_fifo 1 2 Ebr q run.1.1
           [OpPush 1; OpPush 2; OpPush 3; OpPush 4; OpDrain; OpPush 5] run.1.2 run.2 _ _ _ _));
    [vm_compute; discriminate|vm_compute; discriminate|apply rtc_refl|].
  fold run. by rw -!surjective_pairing.
Defined.

(** Every reachable queue keeps its bounds: neither lane exceeds its
    capacity; while the admission policy is active the per-tenant counters
    are exactly the numbers of queued overflow requests of each tenant, and a
    tenant with no request has no counter; the ghosts stay within their
    capacity; the policy has a fallback reason exactly when it left the
    active mode. *)
Theorem queue_bounds `{ArrayQueueLaws Q T} `{QueueTenant T} fc oc mode
    (q : HostcallRequestQueue Q T) :
  fc ≤ usize_max → oc ≤ usize_max → rtc queue_step (with_mode fc oc mode) q →
  len (aq_items (fast q)) ≤ fast_capacity q ∧ len (overflow q) ≤ overflow_capacity q ∧
  queue_len q = len (items q) ∧
  (s3_mode (s3fifo q) = Active → ∀ t,
     match tenant_backlog (s3fifo q) !! t with
     | Some n => n = backlog_of (overflow q) t ∧ 0 < n
     | None => backlog_of (overflow q) t = 0
     end) ∧
  Z.of_nat (size (ghost_lookup (s3_ghost (s3fifo q)))) ≤ ghost_capacity (s3_config (s3fifo q)) ∧
  (s3_mode (s3fifo q) = ConservativeFifo ↔ is_Some (s3_fallback_reason (s3fifo q))).
Proof.
  intros Hf Ho Hr. destruct (reachable_ok fc oc mode q Hf Ho Hr) as [[_ Hlf _ Hlo Hs] _].
  destruct Hs as [[_ Hg] _ Hb Hp Hfb].
  split; [done|]. split; [done|]. split; [apply queue_len_items|]. split; [|done].
  intros Ha t. specialize (Hb Ha t). destruct (tenant_backlog (s3fifo q) !! t) as [n|] eqn:E; [|done].
  split; [done|]. by eapply Hp.
Qed.

(** A payload with a tenant, as the extension hostcalls have. *)
#[local] Instance tenant_pair : QueueTenant (Str * Z) := λ r, Some r.1.

Lemma queue_bounds_witness :
  let q0 := with_mode 1 2 Ebr : HostcallRequestQueue (Ring (Str * Z)) (Str * Z) in
  let q := (run_op (OpPush (str "ext", 2)) (run_op (OpPush (str "ext", 1)) q0).1.1).1.1 in
  overflow q = [(str "ext", 2)] ∧ len (overflow q) ≤ overflow_capacity q.
Proof.
  intros q0 q. split; [vm_compute; reflexivity|].
  apply (queue_bounds 1 2 Ebr q); [vm_compute; discriminate|vm_compute; discriminate|].
  eapply rtc_l; [apply step_op|]. eapply rtc_once, step_op.
Defined.

(** ** When a request is rejected *)

Section Rejection.
Context {Q T : Type} `{ArrayQueueLaws Q T} `{QueueTenant T}.
Implicit Types (q : HostcallRequestQueue Q T) (r : T) (s : S3FifoState).

Definition is_rejected (res : HostcallQueueEnqueueResult) : bool :=
  match res with Rejected _ _ => true | _ => false end.

(** The fairness check fails for a tenant at its budget with no ghost. *)
Definition over_budget s (l : list T) r : Prop :=
  ∃ t, tenant_key r = Some t ∧ s3_mode s = Active ∧
       tenant_budget (s3_config s) ≤ backlog_of l t ∧ ¬ in_ghost (s3_ghost s) t.

Lemma allow_main_iff s l r :
  s3_ok s l → (allow_main_admission (tenant_key r) s).2 = false ↔ over_budget s l r.
Proof.
  intros HI. unfold allow_main_admission, over_budget, in_ghost.
  destruct (s3_mode s) eqn:Em, (tenant_key r) as [t|] eqn:Et; simpl;
    try (split; [done|intros (? & ? & ? & ?); done]).
  rw (so_backlog _ _ HI Em t). unfold consume_ghost_hit.
  destruct (Z.ltb_spec (backlog_of l t) (tenant_budget (s3_config s))).
  { simpl. split; [done|]. intros (t' & [= <-] & _ & ? & _). lia. }
  destruct (ghost_lookup (s3_ghost s) !! t) eqn:Eg; simpl.
  - split; [done|]. intros (t' & [= <-] & _ & _ & Hn). rw Eg in Hn. exfalso. by apply Hn.
  - split; [|done]. intros _. exists t. split_and!; [done|done|done|]. rw Eg. by intros [? ?].
Qed.

(** The signal of a request with a tenant does not change its admission. *)
Lemma observe_signal_over_budget s l r :
  over_budget (observe_signal (tenant_key r) s) l r ↔ over_budget s l r.
Proof.
  unfold over_budget. destruct (tenant_key r) as [t|];
    [|by split; intros (? & ? & _)].
  unfold observe_signal. by destruct (s3_mode s) eqn:E; simpl; rw ?E.
Qed.

Lemma push_overflow_rejected r q :
  lanes_ok q →
  is_rejected (push_overflow r q).2 = true ↔
  over_budget (s3fifo q) (overflow q) r ∨ overflow_capacity q ≤ len (overflow q).
Proof.
  intros HL. pose proof (allow_main_iff (s3fifo q) (overflow q) r (lo_s3 _ HL)) as Ha.
  unfold push_overflow. destruct (allow_main_admission (tenant_key r) (s3fifo q)) as [s3 allowed].
  cbn [snd] in Ha. rw -Ha. destruct allowed; cbn [negb]; [|by split; [left|]].
  destruct (Z.ltb_spec (len (overflow (set_s3 s3 q))) (overflow_capacity (set_s3 s3 q))) as [Hlt|Hge];
    cbn in *; split; try done; [|by right]. intros [?|?]; [done|lia].
Qed.

Lemma push_back_rejected r q :
  lanes_ok q →
  is_rejected (push_back r q).2 = true ↔
  (overflow q ≠ [] ∨ fast_capacity q ≤ len (aq_items (fast q))) ∧
  (over_budget (s3fifo q) (overflow q) r ∨ overflow_capacity q ≤ len (overflow q)).
Proof.
  intros HL. unfold push_back.
  set (q1 := set_s3 (observe_signal (tenant_key r) (s3fifo q)) q).
  assert (lanes_ok q1) as HL1 by (apply set_s3_ok; [done|apply observe_signal_ok, HL]).
  pose proof (push_overflow_rejected r q1 HL1) as Hov. cbn in Hov.
  rw observe_signal_over_budget in Hov. cbv zeta. change (overflow q1) with (overflow q).
  change (fast q1) with (fast q). destruct (overflow q) as [|x l] eqn:Eo.
  - pose proof (aq_push_spec r (fast q)) as Hp. rw (lo_cap _ HL) in Hp.
    destruct (aq_push r (fast q)) as [f|].
    + destruct Hp as [Hlt _]. cbn. split; [done|]. intros [[?|?] _]; [done|lia].
    + rw Hov. split; [intros ?; split; [by right|done]|by intros [_ ?]].
  - rw Hov. split; [intros ?; split; [by left|done]|by intros [_ ?]].
Qed.
End Rejection.

(** A request to a reachable queue is rejected exactly when the ring
    cannot take it (it is full, or requests already wait in the overflow
    lane) and either the overflow lane is full or, with the admission policy
    active, its tenant has as many requests waiting there as its budget and
    no ghost entry. *)
Theorem push_rejected_iff `{ArrayQueueLaws Q T} `{QueueTenant T} fc oc mode
    (q : HostcallRequestQueue Q T) r :
  fc ≤ usize_max → oc ≤ usize_max → rtc queue_step (with_mode fc oc mode) q →
  is_rejected (push_back r q).2 = true ↔
  (overflow q ≠ [] ∨ len (aq_items (fast q)) = fast_capacity q) ∧
  (len (overflow q) = overflow_capacity q ∨
   ∃ t, tenant_key r = Some t ∧ s3_mode (s3fifo q) = Active ∧
        tenant_budget (s3_config (s3fifo q)) ≤ backlog_of (overflow q) t ∧
        ghost_lookup (s3_ghost (s3fifo q)) !! t = None).
Proof.
  intros Hf Ho Hr. destruct (reachable_ok fc oc mode q Hf Ho Hr) as [HL _].
  rw push_back_rejected //. unfold over_budget, in_ghost.
  setoid_rewrite <-eq_None_not_Some. pose proof (lo_fast _ HL). pose proof (lo_overflow _ HL).
  split; intros [Hring Hover].
  - split; [destruct Hring; [by left|right; lia]|].
    destruct Hover as [Hover|?]; [by right|left; lia].
  - split; [destruct Hring; [by left|right; lia]|].
    destruct Hover as [?|Hover]; [right; lia|by left].
Qed.

Lemma push_rejected_iff_witness :
  let q0 := with_mode 1 2 Ebr : HostcallRequestQueue (Ring (Str * Z)) (Str * Z) in
  let q := (run_op (OpPush (str "ext", 2)) (run_op (OpPush (str "ext", 1)) q0).1.1).1.1 in
  len (overflow q) = 1 ∧ overflow_capacity q = 2 ∧
  is_rejected (push_back (str "ext", 3) q).2 = true.
Proof.
  intros q0 q. split; [vm_compute; reflexivity|]. split; [vm_compute; reflexivity|].
  apply (push_rejected_iff 1 2 Ebr q); [vm_compute; discriminate|vm_compute; discriminate| |].
  - eapply rtc_l; [apply step_op|]. eapply rtc_once, step_op.
  - split; [left; vm_compute; discriminate|]. right. exists (str "ext").
    split; [reflexivity|]. split; [vm_compute; reflexivity|].
    split; [vm_compute; discriminate|vm_compute; reflexivity].
Defined.

(** Epoch-based reclamation.  In a reachable queue: no retired node
    outlives the safe fallback, and (until the 64-bit epoch saturates) the
    retired backlog never exceeds the threshold; while a pin is held a
    reclamation point frees no node, and the backlog changes only by the
    switch to safe fallback once it exceeds the threshold; with no pin held,
    one [force_reclaim] frees every node and counts it. *)
Theorem epoch_reclamation `{ArrayQueueLaws Q T} `{QueueTenant T} fc oc mode
    (q : HostcallRequestQueue Q T) :
  fc ≤ usize_max → oc ≤ usize_max → rtc queue_step (with_mode fc oc mode) q →
  let q' := force_reclaim q in
  (reclamation_mode q = SafeFallback → retired q = []) ∧
  (current_epoch q < u64_max → len (retired q) ≤ safe_fallback_backlog_threshold q) ∧
  (0 < active_epoch_pins q → reclaimed_total q' = reclaimed_total q ∧
     (retired q' = retired q ∧ reclamation_mode q' = reclamation_mode q ∨
      safe_fallback_backlog_threshold q < len (retired q) ∧ reclamation_mode q' = SafeFallback)) ∧
  (active_epoch_pins q = 0 → current_epoch q < u64_max → in_u64 (reclaimed_total q) →
     retired q' = [] ∧
     reclaimed_total q' = sat_add u64_max (reclaimed_total q) (len (retired q))).
Proof.
  intros Hf Ho Hr q'. destruct (reachable_ok fc oc mode q Hf Ho Hr) as [_ [He Hsf Hret Hb _]].
  split; [done|]. split; [done|].
  destruct (try_reclaim_retired (bump_epoch q)) as [_ Hcase].
  fold (force_reclaim q) in Hcase. fold q' in Hcase. cbn in Hcase. split.
  - intros Hp. destruct Hcase as [[Hm Hcase]|(_ & _ & Hm & _ & Ht & Hlt)]; [|by split; [|right]].
    destruct (decide _) as [[_ ?]|_]; [lia|]. destruct Hcase as (Hr' & Ht & _). by split; [|left].
  - intros Hp Hlt Hin. destruct Hcase as [[Hm Hcase]|(_ & ? & _)]; [|lia].
    destruct (decide _) as [_|Hn].
    + destruct Hcase as [Hr' Ht].
      destruct (reclaim_loop_all (sat_add u64_max (current_epoch q) 1) (retired q) []
        (reclamation_latency_max_epochs q) (reclaimed_total q)) as [Hk Hc]; [|done|].
      { eapply Forall_impl; [exact Hret|]. intros n Hn. cbn in *. int_lia. }
      rw app_nil_r in Hk, Hc. split; [by rw Hr'|]. rw Ht Hc //.
    + destruct Hcase as (Hr' & Ht & _). destruct (reclamation_mode q) eqn:Em; [|].
      * exfalso. apply Hn. split; [done|lia].
      * rw Hr' Ht Hsf //. split; [done|]. unfold in_u64 in Hin. len_lia.
Qed.

Lemma epoch_reclamation_witness :
  let q0 := with_mode 4 2 Ebr : HostcallRequestQueue (Ring Z) Z in
  let q := (run_op OpDrain (run_op (OpPush 1) q0).1.1).1.1 in
  len (retired q) = 1 ∧ retired (force_reclaim q) = [].
Proof.
  intros q0 q. split; [vm_compute; reflexivity|].
  apply (epoch_reclamation 4 2 Ebr q); [vm_compute; discriminate|vm_compute; discriminate| | | |].
  - eapply rtc_l; [apply step_op|]. eapply rtc_once, step_op.
  - vm_compute. reflexivity.
  - vm_compute. reflexivity.
  - vm_compute. split; discriminate.
Defined.
