(* ===== verification/Scheduler.v ===== *)
(** * Event loop scheduler ([src/scheduler.rs], first part)

    The deterministic scheduler of the extension runtime: a FIFO of
    macrotasks, a timer heap ordered by deadline and sequence number, and
    cancellation by timer id.  [J] is the type of JSON payloads
    ([serde_json::Value]); the clock is the trait [Clock]. *)

From S2P Require Import Prelude Text.

(** ** Sequence numbers *)

Definition Seq := Z.
Definition seq_zero : Seq := 0.
Definition seq_next (s : Seq) : Seq := sat_add u64_max s 1.

(** ** Timers *)

Record TimerEntry := mkTimerEntry {
  timer_id : Z;
  deadline_ms : Z;
  t_seq : Seq;
}.
#[global] Instance TimerEntry_eq_dec : EqDecision TimerEntry.
Proof. solve_decision. Defined.

(** [Ord for TimerEntry], which is reversed in the source because
    [BinaryHeap] is a max-heap: the entry that is popped first is smaller
    here. *)
Definition timer_cmp (a b : TimerEntry) : comparison :=
  match deadline_ms a ?= deadline_ms b with
  | Eq => t_seq a ?= t_seq b
  | c => c
  end.

(** The heap holds the entries in the order [pop] returns them; [push]
    inserts behind the entries that are not larger. *)
Fixpoint heap_push (e : TimerEntry) (h : list TimerEntry) : list TimerEntry :=
  match h with
  | [] => [e]
  | x :: h' => match timer_cmp e x with Lt => e :: h | _ => x :: heap_push e h' end
  end.

(** ** Macrotasks *)

Inductive HostcallOutcome (J : Type) :=
| Success (value : J)
| OutcomeError (code message : Str)
| StreamChunk (sequence : Z) (chunk : J) (is_final : bool).
Arguments Success {_} _.
Arguments OutcomeError {_} _ _.
Arguments StreamChunk {_} _ _ _.

Inductive MacrotaskKind (J : Type) :=
| TimerFired (id : Z)
| HostcallComplete (call_id : Str) (outcome : HostcallOutcome J)
| InboundEvent (event_id : Str) (payload : J).
Arguments TimerFired {_} _.
Arguments HostcallComplete {_} _ _.
Arguments InboundEvent {_} _ _.

Record Macrotask (J : Type) := mkMacrotask { m_seq : Seq; m_kind : MacrotaskKind J }.
Arguments mkMacrotask {_} _ _.
Arguments m_seq {_} _.
Arguments m_kind {_} _.

(** ** Clocks *)

Class Clock (C : Type) := now_ms : C → Z.

(** A reading of the wall clock: the milliseconds since the epoch ([None] for
    a system time before it), cut to 64 bits. *)
Record WallClock := mkWallClock { since_epoch_ms : option Z }.
#[global] Instance wall_clock : Clock WallClock :=
  λ c, let millis := default 0 (since_epoch_ms c) in
       if millis <=? u64_max then millis else u64_max.

Record DeterministicClock := mkDeterministicClock { current_ms : Z }.
Definition clock_new (start_ms : Z) : DeterministicClock := mkDeterministicClock start_ms.
Definition clock_advance (ms : Z) (c : DeterministicClock) : DeterministicClock :=
  mkDeterministicClock (wrapping_add (current_ms c) ms).
Definition clock_set (ms : Z) (c : DeterministicClock) : DeterministicClock :=
  mkDeterministicClock ms.
#[global] Instance deterministic_clock : Clock DeterministicClock := current_ms.

Section Scheduler.
Context {C J : Type} `{Clock C}.

Record Scheduler := mkScheduler {
  seq : Seq;
  macrotask_queue : list (Macrotask J);
  timer_heap : list TimerEntry;
  next_timer_id : Z;
  cancelled_timers : gset Z;
  heap_timer_ids : gset Z;
  clock : C;
}.

Definition with_clock (c : C) : Scheduler := mkScheduler seq_zero [] [] 1 ∅ ∅ c.

(** The clock is read, never written, by the scheduler; time passes between
    its operations. *)
Definition set_clock (c : C) (s : Scheduler) : Scheduler :=
  mkScheduler (seq s) (macrotask_queue s) (timer_heap s) (next_timer_id s) (cancelled_timers s)
    (heap_timer_ids s) c.

Definition next_seq (s : Scheduler) : Seq * Scheduler :=
  (seq s, mkScheduler (seq_next (seq s)) (macrotask_queue s) (timer_heap s) (next_timer_id s)
            (cancelled_timers s) (heap_timer_ids s) (clock s)).

Definition push_task (task : Macrotask J) (s : Scheduler) : Scheduler :=
  mkScheduler (seq s) (macrotask_queue s ++ [task]) (timer_heap s) (next_timer_id s)
    (cancelled_timers s) (heap_timer_ids s) (clock s).

Definition not_cancelled (s : Scheduler) (e : TimerEntry) : Prop :=
  timer_id e ∉ cancelled_timers s.
#[global] Instance not_cancelled_dec s e : Decision (not_cancelled s e).
Proof. unfold not_cancelled. apply _. Defined.

(** The timers that can still fire, earliest first. *)
Definition pending_timers (s : Scheduler) : list TimerEntry :=
  filter (not_cancelled s) (timer_heap s).

Definition has_pending (s : Scheduler) : bool :=
  negb match macrotask_queue s with [] => true | _ => false end
  || existsb (λ e, bool_decide (not_cancelled s e)) (timer_heap s).

Definition macrotask_count (s : Scheduler) : Z := len (macrotask_queue s).
Definition timer_count (s : Scheduler) : Z := len (pending_timers s).

Definition timer_id_in_use (s : Scheduler) (id : Z) : bool := bool_decide (id ∈ heap_timer_ids s).

(** The loop of [allocate_timer_id]: the id it returns and the new
    [next_timer_id].  Each turn that does not return has seen an id in use,
    so one turn more than there are ids in use is enough. *)
Fixpoint allocate_loop (fuel : nat) (s : Scheduler) (start candidate : Z) : Z * Z :=
  match fuel with
  | O => (u64_max, candidate)
  | S fuel' =>
      let next := if candidate =? u64_max then 1 else candidate + 1 in
      if negb (timer_id_in_use s candidate) then (candidate, next)
      else if next =? start then (u64_max, next)
      else allocate_loop fuel' s start next
  end.

Definition allocate_timer_id (s : Scheduler) : Z * Scheduler :=
  let '(id, next) :=
    allocate_loop (S (size (heap_timer_ids s))) s (next_timer_id s) (next_timer_id s) in
  (id, mkScheduler (seq s) (macrotask_queue s) (timer_heap s) next (cancelled_timers s)
         (heap_timer_ids s) (clock s)).

Definition set_timeout (delay_ms : Z) (s : Scheduler) : Z * Scheduler :=
  let '(id, s) := allocate_timer_id s in
  let deadline := sat_add u64_max (now_ms (clock s)) delay_ms in
  let '(sq, s) := next_seq s in
  (id, mkScheduler (seq s) (macrotask_queue s) (heap_push (mkTimerEntry id deadline sq) (timer_heap s))
         (next_timer_id s) (cancelled_timers s) ({[id]} ∪ heap_timer_ids s) (clock s)).

Definition clear_timeout (id : Z) (s : Scheduler) : bool * Scheduler :=
  let pending :=
    bool_decide (id ∈ heap_timer_ids s) && negb (bool_decide (id ∈ cancelled_timers s)) in
  if pending then
    (* [HashSet::insert] answers whether the id is new. *)
    (negb (bool_decide (id ∈ cancelled_timers s)),
     mkScheduler (seq s) (macrotask_queue s) (timer_heap s) (next_timer_id s)
       ({[id]} ∪ cancelled_timers s) (heap_timer_ids s) (clock s))
  else (false, s).

Definition enqueue_hostcall_complete (call_id : Str) (outcome : HostcallOutcome J) (s : Scheduler)
    : Scheduler :=
  let '(sq, s) := next_seq s in
  push_task (mkMacrotask sq (HostcallComplete call_id outcome)) s.

Definition enqueue_hostcall_completions (completions : list (Str * HostcallOutcome J))
    (s : Scheduler) : Scheduler :=
  foldl (λ s c, enqueue_hostcall_complete c.1 c.2 s) s completions.

Definition enqueue_stream_chunk (call_id : Str) (sequence : Z) (chunk : J) (is_final : bool)
    (s : Scheduler) : Scheduler :=
  enqueue_hostcall_complete call_id (StreamChunk sequence chunk is_final) s.

Definition enqueue_event (event_id : Str) (payload : J) (s : Scheduler) : Scheduler :=
  let '(sq, s) := next_seq s in
  push_task (mkMacrotask sq (InboundEvent event_id payload)) s.

(** One turn of the loop of [move_due_timers] with the popped entry. *)
Definition fire_timer (entry : TimerEntry) (rest : list TimerEntry) (s : Scheduler) : Scheduler :=
  let id := timer_id entry in
  let s := mkScheduler (seq s) (macrotask_queue s) rest (next_timer_id s) (cancelled_timers s)
             (heap_timer_ids s ∖ {[id]}) (clock s) in
  if decide (id ∈ cancelled_timers s) then
    mkScheduler (seq s) (macrotask_queue s) (timer_heap s) (next_timer_id s)
      (cancelled_timers s ∖ {[id]}) (heap_timer_ids s) (clock s)
  else
    let '(sq, s) := next_seq s in push_task (mkMacrotask sq (TimerFired id)) s.

Fixpoint move_due_loop (now : Z) (heap : list TimerEntry) (s : Scheduler) : Scheduler :=
  match heap with
  | [] => s
  | entry :: rest =>
      if now <? deadline_ms entry then s
      else move_due_loop now rest (fire_timer entry rest s)
  end.

Definition move_due_timers (s : Scheduler) : Scheduler :=
  move_due_loop (now_ms (clock s)) (timer_heap s) s.

Definition tick (s : Scheduler) : option (Macrotask J) * Scheduler :=
  let s := move_due_timers s in
  match macrotask_queue s with
  | [] => (None, s)
  | task :: rest =>
      (Some task, mkScheduler (seq s) rest (timer_heap s) (next_timer_id s) (cancelled_timers s)
                    (heap_timer_ids s) (clock s))
  end.

Definition next_timer_deadline (s : Scheduler) : option Z :=
  foldr (λ e o, Some (match o with None => deadline_ms e | Some d => Z.min (deadline_ms e) d end))
    None (pending_timers s).

Definition time_until_next_timer (s : Scheduler) : option Z :=
  (λ d, sat_sub d (now_ms (clock s))) <$> next_timer_deadline s.
End Scheduler.
Arguments Scheduler C J : clear implicits.

(** * Invariant

    The sequence counter saturates at the end of the 64-bit range; the order
    guarantees hold for as long as it has not, that is for the first 2^64 - 1
    sequence numbers. *)

Definition timer_lt (a b : TimerEntry) : Prop := timer_cmp a b = Lt.

Lemma timer_lt_iff a b :
  timer_lt a b ↔
  deadline_ms a < deadline_ms b ∨ deadline_ms a = deadline_ms b ∧ t_seq a < t_seq b.
Proof.
  unfold timer_lt, timer_cmp.
  destruct (Z.compare_spec (deadline_ms a) (deadline_ms b)), (Z.compare_spec (t_seq a) (t_seq b));
    split; intros; try done; try lia; auto.
Qed.

Section Invariant.
Context {C J : Type} `{Clock C}.
Implicit Types (s : Scheduler C J) (e : TimerEntry).

Definition ids (h : list TimerEntry) : list Z := timer_id <$> h.

Definition fired_in (l : list (Macrotask J)) (id : Z) : Prop :=
  ∃ t, t ∈ l ∧ m_kind t = TimerFired id.

Record good s : Prop := mk_good {
  g_seq : 0 ≤ seq s;
  g_heap_sorted : StronglySorted timer_lt (timer_heap s);
  g_heap_seq : Forall (λ e, t_seq e < seq s) (timer_heap s);
  g_heap_nodup : NoDup (ids (timer_heap s));
  g_heap_ids : ∀ id, id ∈ heap_timer_ids s ↔ id ∈ ids (timer_heap s);
  g_next : 1 ≤ next_timer_id s ≤ seq s + 1;
  g_ids_lt : ∀ id, id ∈ heap_timer_ids s → 1 ≤ id < next_timer_id s;
  g_cancelled : cancelled_timers s ⊆ heap_timer_ids s;
  g_queue_sorted : StronglySorted (λ a b, m_seq a < m_seq b) (macrotask_queue s);
  g_queue_seq : Forall (λ t, m_seq t < seq s) (macrotask_queue s);
  g_fired : ∀ id, fired_in (macrotask_queue s) id →
              (id ∉ heap_timer_ids s) ∧ id < next_timer_id s;
}.

Definition sched_ok s : Prop := 0 ≤ seq s ≤ u64_max ∧ (seq s < u64_max → good s).

(** ** The timer heap *)

Lemma elem_of_heap_push e x h : x ∈ heap_push e h ↔ x = e ∨ x ∈ h.
Proof.
  induction h as [|y h IH]; simpl; [by rw list_elem_of_singleton elem_of_nil; naive_solver|].
  destruct (timer_cmp e y); rw !elem_of_cons ?IH; naive_solver.
Qed.

Lemma heap_push_perm e h : Permutation (heap_push e h) (e :: h).
Proof.
  induction h as [|y h IH]; simpl; [done|].
  destruct (timer_cmp e y); rw ?IH //; apply perm_swap.
Qed.

Lemma heap_push_sorted e h :
  StronglySorted timer_lt h → Forall (λ x, t_seq x < t_seq e) h →
  StronglySorted timer_lt (heap_push e h).
Proof.
  induction 1 as [|y h Hh IH Hy]; intros Hs; simpl; [by repeat constructor|].
  apply Forall_cons in Hs as [Hye Hs].
  destruct (timer_cmp e y) eqn:E.
  - exfalso. unfold timer_cmp in E.
    destruct (Z.compare_spec (deadline_ms e) (deadline_ms y)); try done.
    apply Z.compare_eq in E. lia.
  - constructor; [by constructor|]. constructor; [done|]. eapply Forall_impl; [exact Hy|].
    intros z. change (timer_cmp e y = Lt) with (timer_lt e y) in E.
    rw !timer_lt_iff in E |- *. lia.
  - constructor; [by apply IH|]. apply Forall_forall. intros z [->|Hz]%elem_of_heap_push;
      [|by apply (proj1 (Forall_forall _ _) Hy)].
    apply timer_lt_iff. unfold timer_cmp in E.
    destruct (Z.compare_spec (deadline_ms e) (deadline_ms y)); try done; [|lia]. lia.
Qed.

(** ** Timer ids *)

(** With ids below the counter the first candidate is free. *)
Lemma allocate_fresh s :
  good s → seq s < u64_max →
  allocate_timer_id s =
  (next_timer_id s, mkScheduler (seq s) (macrotask_queue s) (timer_heap s) (next_timer_id s + 1)
     (cancelled_timers s) (heap_timer_ids s) (clock s)) ∨ next_timer_id s = u64_max.
Proof.
  intros HG Hlt. pose proof (g_next _ HG).
  destruct (Z.eqb_spec (next_timer_id s) u64_max) as [E|E]; [by right|]. left.
  unfold allocate_timer_id. cbn [allocate_loop].
  rw (proj2 (Z.eqb_neq _ _) E). unfold timer_id_in_use. rw bool_decide_false; [done|].
  intros Hin. pose proof (g_ids_lt _ HG _ Hin). lia.
Qed.

(** The sequence number a successful [set_timeout] leaves room for. *)
Lemma set_timeout_spec delay s :
  good s → seq_next (seq s) < u64_max →
  set_timeout delay s =
  (next_timer_id s,
   mkScheduler (seq s + 1) (macrotask_queue s)
     (heap_push (mkTimerEntry (next_timer_id s)
        (sat_add u64_max (now_ms (clock s)) delay) (seq s)) (timer_heap s))
     (next_timer_id s + 1) (cancelled_timers s) ({[next_timer_id s]} ∪ heap_timer_ids s) (clock s)).
Proof.
  intros HG Hlt. pose proof (g_next _ HG) as Hn. unfold seq_next in Hlt.
  assert (seq s + 1 < u64_max) as Hs by int_lia.
  unfold set_timeout. destruct (allocate_fresh s HG) as [-> | ?]; [lia| |lia].
  cbn. unfold seq_next. by rw sat_add_exact; [|lia].
Qed.

Lemma set_timeout_good delay s :
  good s → seq_next (seq s) < u64_max → good (set_timeout delay s).2.
Proof.
  intros HG Hlt. rw set_timeout_spec //. cbn.
  destruct HG as [Hs Hhs Hhq Hhn Hhi Hnx Hil Hc Hqs Hqq Hf].
  set (e := mkTimerEntry _ _ _). pose proof (heap_push_perm e (timer_heap s)) as Hp.
  assert (next_timer_id s ∉ heap_timer_ids s) as Hfresh by (intros ?%Hil; lia).
  split; cbn; try lia; try done.
  - apply heap_push_sorted; done.
  - rw Hp. constructor; [cbn; lia|]. eapply Forall_impl; [exact Hhq|]. cbn. lia.
  - unfold ids. rw Hp /=. constructor; [|done]. change (timer_id <$> timer_heap s) with (ids (timer_heap s)).
    by rw -Hhi.
  - intros id. unfold ids. rw Hp fmap_cons elem_of_cons elem_of_union elem_of_singleton Hhi. done.
  - intros id [->%elem_of_singleton|Hin%Hil]%elem_of_union; lia.
  - set_solver.
  - eapply Forall_impl; [exact Hqq|]. cbn. lia.
  - intros id [Hin Hlt']%Hf. split; [|lia]. rw elem_of_union elem_of_singleton.
    intros [->|?]; [lia|done].
Qed.

Lemma clear_timeout_good id s : good s → good (clear_timeout id s).2.
Proof.
  intros HG. unfold clear_timeout. destruct (bool_decide _) eqn:E; [|done].
  destruct (bool_decide (id ∈ cancelled_timers s)); [done|]. bool_to_prop.
  destruct HG. split; cbn; try done. set_solver.
Qed.

(** ** Enqueueing *)

Definition enqueue (kind : MacrotaskKind J) s : Scheduler C J :=
  let '(sq, s) := next_seq s in push_task (mkMacrotask sq kind) s.

Lemma enqueue_good kind s :
  good s → seq_next (seq s) < u64_max → (∀ id, kind ≠ TimerFired id) → good (enqueue kind s).
Proof.
  intros [Hs Hhs Hhq Hhn Hhi Hnx Hil Hc Hqs Hqq Hf] Hlt Hk.
  assert (seq_next (seq s) = seq s + 1) as Hn by (unfold seq_next in *; int_lia).
  split; cbn; rw ?Hn //; try lia.
  - eapply Forall_impl; [exact Hhq|]. cbn. lia.
  - apply StronglySorted_app_2; [|done|by repeat constructor].
    intros a b Ha ->%list_elem_of_singleton. cbn. exact (proj1 (Forall_forall _ _) Hqq a Ha).
  - apply Forall_app. split; [eapply Forall_impl; [exact Hqq|]; cbn; lia|].
    constructor; [cbn; lia|done].
  - intros id (t & [Ht| ->%list_elem_of_singleton]%elem_of_app & Hkind); [|by apply Hk in Hkind].
    apply Hf. by exists t.
Qed.

Lemma enqueue_all_good completions s :
  good s → 0 ≤ seq s → seq (enqueue_hostcall_completions completions s) < u64_max →
  good (enqueue_hostcall_completions completions s) ∧
  seq s ≤ seq (enqueue_hostcall_completions completions s).
Proof.
  unfold enqueue_hostcall_completions. revert s.
  induction completions as [|[c o] l IH]; intros s HG H0 Hlt; [done|]. simpl in *.
  set (s1 := enqueue_hostcall_complete c o s) in *.
  assert (∀ s', 0 ≤ seq s' → seq s' ≤ u64_max → seq s' ≤ seq (foldl (λ s c,
    enqueue_hostcall_complete c.1 c.2 s) s' l)) as Hmono.
  { clear. induction l as [|[c o] l IH]; intros s' H0 H1; simpl; [lia|].
    etrans; [|apply IH]; cbn; unfold seq_next; int_lia. }
  assert (seq s1 = seq_next (seq s)) as E1 by done.
  assert (0 ≤ seq s1 ≤ u64_max) as Hr by (rw E1; unfold seq_next; int_lia).
  pose proof (Hmono s1 (proj1 Hr) (proj2 Hr)).
  assert (seq_next (seq s) < u64_max) as Hn by lia.
  destruct (IH s1) as [HG' Hle]; [by apply enqueue_good|lia|done|].
  split; [done|]. unfold seq_next in *. int_lia.
Qed.

(** ** Moving due timers *)

Definition due (now : Z) e : Prop := deadline_ms e ≤ now.
#[global] Instance due_dec now e : Decision (due now e).
Proof. unfold due. apply _. Defined.

(** The macrotasks of a list of fired timers, numbered from [n]. *)
Fixpoint fired_tasks (n : Z) (l : list TimerEntry) : list (Macrotask J) :=
  match l with
  | [] => []
  | e :: l' => mkMacrotask n (TimerFired (timer_id e)) :: fired_tasks (n + 1) l'
  end.

(** The timers that fire at [now]. *)
Definition firing (now : Z) s : list TimerEntry := filter (not_cancelled s) (filter (due now) (timer_heap s)).

Lemma move_due_seq now h s :
  0 ≤ seq s ≤ u64_max → seq s ≤ seq (move_due_loop now h s) ≤ u64_max.
Proof.
  revert s. induction h as [|e h IH]; intros s Hs; simpl; [lia|].
  destruct (now <? deadline_ms e); [lia|].
  assert (seq s ≤ seq (fire_timer e h s) ≤ u64_max) as Hf.
  { unfold fire_timer. case_decide; cbn; [lia|]. unfold seq_next. int_lia. }
  specialize (IH (fire_timer e h s)). lia.
Qed.

Lemma not_due_sorted now e h :
  StronglySorted timer_lt (e :: h) → now < deadline_ms e → filter (due now) (e :: h) = [].
Proof.
  intros [_ Hall]%StronglySorted_inv Hlt. apply filter_none. intros x.
  intros [->|Hx]%elem_of_cons; unfold due; [lia|].
  pose proof (proj1 (Forall_forall _ _) Hall x Hx) as Hl. apply timer_lt_iff in Hl. lia.
Qed.

(** The whole effect of the loop on a sorted heap of distinct ids. *)
Lemma move_due_spec now h s :
  timer_heap s = h → StronglySorted timer_lt h → NoDup (ids h) →
  0 ≤ seq s → seq (move_due_loop now h s) < u64_max →
  move_due_loop now h s =
  mkScheduler (seq s + len (firing now s)) (macrotask_queue s ++ fired_tasks (seq s) (firing now s))
    (filter (λ e, ¬ due now e) h) (next_timer_id s)
    (cancelled_timers s ∖ list_to_set (ids (filter (due now) h)))
    (heap_timer_ids s ∖ list_to_set (ids (filter (due now) h))) (clock s).
Proof.
  unfold firing. revert s. induction h as [|e h IH]; intros s Hh Hs Hn H0 Hlt.
  - rw Hh. cbn. destruct s. cbn in *. subst. f_equal; [len_lia|by rw app_nil_r|set_solver|set_solver].
  - rw Hh. cbn [move_due_loop] in Hlt |- *.
    destruct (Z.ltb_spec now (deadline_ms e)) as [Hd|Hd].
    + rw (not_due_sorted now e h) // filter_nil. cbn [fired_tasks ids fmap list_fmap list_to_set].
      rw filter_all; [|apply Forall_forall; intros x Hx Hdx;
        by eapply filter_nil_not_elem_of; [exact (not_due_sorted now e h Hs Hd)|exact Hdx|exact Hx]].
      destruct s. cbn in *. subst. f_equal; [len_lia|by rw app_nil_r|set_solver|set_solver].
    + assert (0 ≤ seq (fire_timer e h s)) as Hf0.
      { unfold fire_timer. case_decide; cbn; [lia|]. unfold seq_next. int_lia. }
      apply StronglySorted_inv in Hs as [Hs Hall]. apply NoDup_cons in Hn as [Hne Hn].
      assert (timer_id e ∉ cancelled_timers s → seq_next (seq s) = seq s + 1) as Hnext.
      { intros Hc. assert (seq (fire_timer e h s) = seq_next (seq s)) as Hfs.
        { unfold fire_timer. by case_decide. }
        unfold seq_next in *. pose proof (move_due_seq now h (fire_timer e h s)). int_lia. }
      rw (IH (fire_timer e h s)); [|by unfold fire_timer; case_decide|done|done|done|done].
      assert (timer_heap (fire_timer e h s) = h) as Hh' by (by unfold fire_timer; case_decide).
      rw Hh' (filter_cons_True _ e) // (filter_cons_False (λ e, ¬ due now e) e); [|by intros []].
      assert (filter (not_cancelled (fire_timer e h s)) (filter (due now) h) =
              filter (not_cancelled s) (filter (due now) h)) as ->.
      { apply filter_ext_in. intros x [_ Hx]%list_elem_of_filter.
        assert (timer_id x ≠ timer_id e) as Hd'.
        { intros Heq. apply Hne, list_elem_of_fmap. by exists x. }
        unfold not_cancelled, fire_timer. case_decide; cbn; [set_solver|done]. }
      unfold fire_timer. case_decide as Hcan; cbn [cancelled_timers] in Hcan.
      * rw (filter_cons_False (not_cancelled s) e); [|by unfold not_cancelled; intros []].
        cbn. f_equal; set_solver.
      * rw (filter_cons_True (not_cancelled s) e) //.
        cbn [seq next_seq push_task macrotask_queue next_timer_id clock cancelled_timers heap_timer_ids].
        rw Hnext //. rw -app_assoc. cbn [fired_tasks app ids fmap list_fmap list_to_set].
        f_equal; [len_lia|set_solver|set_solver].
Qed.

Lemma fired_tasks_bounds n l : Forall (λ t, n ≤ m_seq t < n + len l) (fired_tasks n l).
Proof.
  revert n. induction l as [|e l IH]; intros n; simpl; constructor; cbn.
  - pose proof (len_nonneg l). rw len_cons. lia.
  - eapply Forall_impl; [apply IH|]. cbn. rw len_cons. lia.
Qed.

Lemma fired_tasks_sorted n l : StronglySorted (λ a b, m_seq a < m_seq b) (fired_tasks n l).
Proof.
  revert n. induction l as [|e l IH]; intros n; simpl; constructor; [done|].
  eapply Forall_impl; [apply fired_tasks_bounds|]. cbn. lia.
Qed.

Lemma fired_tasks_ids n l id : fired_in (fired_tasks n l) id ↔ id ∈ ids l.
Proof.
  revert n. induction l as [|e l IH]; intros n; simpl.
  - split; [intros (t & Ht & _)|intros Ht]; by apply not_elem_of_nil in Ht.
  - rw elem_of_cons -(IH (n + 1)). split.
    + intros (t & [->|Ht]%elem_of_cons & Hk); [left; cbn in Hk; congruence|right; by exists t].
    + intros [->|(t & Ht & Hk)].
      * eexists. split; [by left|done].
      * exists t. split; [by right|done].
Qed.

Lemma ids_filter (P : TimerEntry → Prop) `{∀ e, Decision (P e)} h id :
  NoDup (ids h) → id ∈ ids (filter P h) ↔ id ∈ ids h ∧ ∀ e, e ∈ h → timer_id e = id → P e.
Proof.
  intros Hn. unfold ids. rw !list_elem_of_fmap. split.
  - intros (e & -> & [HP He]%list_elem_of_filter). split; [by exists e|].
    intros e' He' Heq. by rw (NoDup_fmap_eq timer_id h e' e).
  - intros [(e & -> & He) HP]. exists e. split; [done|]. apply list_elem_of_filter. auto.
Qed.

Lemma move_due_good s :
  good s → seq (move_due_timers s) < u64_max → good (move_due_timers s).
Proof.
  intros [Hs Hhs Hhq Hhn Hhi Hnx Hil Hc Hqs Hqq Hf] Hlt. unfold move_due_timers in *.
  set (now := now_ms (clock s)) in *. rw move_due_spec //.
  set (fs := firing now s). pose proof (len_nonneg fs).
  assert (∀ id, id ∈ ids fs → id ∈ ids (filter (due now) (timer_heap s))) as Hsub.
  { intros id (e & -> & [_ He]%list_elem_of_filter)%list_elem_of_fmap. apply list_elem_of_fmap. by exists e. }
  assert (∀ id, id ∈ ids (filter (due now) (timer_heap s)) → id ∈ heap_timer_ids s) as Hdue.
  { intros id Hid. apply Hhi. by apply ids_filter in Hid as [? _]. }
  split; cbn; try lia.
  - by apply StronglySorted_filter.
  - apply Forall_forall. intros e [_ He]%list_elem_of_filter.
    pose proof (proj1 (Forall_forall _ _) Hhq e He) as He'. cbn in He'. lia.
  - by apply NoDup_fmap_filter.
  - intros id. rw elem_of_difference elem_of_list_to_set Hhi !ids_filter //.
    split.
    + intros [Hin Hnd]. split; [done|]. intros e He Heq Hde. apply Hnd. split; [done|].
      intros e' He' Heq'. rw (NoDup_fmap_eq timer_id (timer_heap s) e' e) //. congruence.
    + intros [Hin Hnd]. split; [done|]. intros [_ Hall].
      apply list_elem_of_fmap in Hin as (e & -> & He). exact (Hnd e He eq_refl (Hall e He eq_refl)).
  - intros id [Hin _]%elem_of_difference. by apply Hil.
  - set_solver.
  - apply StronglySorted_app_2; [|done|apply fired_tasks_sorted].
    intros a b Ha Hb. pose proof (proj1 (Forall_forall _ _) Hqq a Ha) as Ha'.
    pose proof (proj1 (Forall_forall _ _) (fired_tasks_bounds (seq s) fs) b Hb) as Hb'. cbn in *. lia.
  - apply Forall_app. split; (eapply Forall_impl; [solve [exact Hqq|apply fired_tasks_bounds]|]); cbn; lia.
  - intros id (t & Ht & Hk). rw elem_of_difference elem_of_list_to_set.
    apply elem_of_app in Ht as [Ht|Ht].
    + destruct (Hf id) as [? ?]; [by exists t|]. split; [tauto|done].
    + assert (id ∈ ids fs) as Hid by (apply (fired_tasks_ids (seq s)); by exists t).
      apply Hsub in Hid. split; [tauto|]. by apply Hil, Hdue.
Qed.

Lemma pop_good t rest s :
  macrotask_queue s = t :: rest → good s →
  good (mkScheduler (seq s) rest (timer_heap s) (next_timer_id s) (cancelled_timers s)
          (heap_timer_ids s) (clock s)).
Proof.
  intros Hq [Hs Hhs Hhq Hhn Hhi Hnx Hil Hc Hqs Hqq Hf]. rw Hq in Hqs, Hqq, Hf.
  apply StronglySorted_inv in Hqs as [Hqs _]. apply Forall_cons in Hqq as [_ Hqq].
  split; cbn; try done. intros id (t' & Ht & Hk). apply Hf. exists t'. split; [by right|done].
Qed.

Lemma tick_good s : good s → seq (tick s).2 < u64_max → good (tick s).2.
Proof.
  intros HG. unfold tick. cbv zeta. destruct (macrotask_queue (move_due_timers s)) eqn:Eq; cbn; intros Hlt.
  - by apply move_due_good.
  - eapply pop_good; [exact Eq|]. by apply move_due_good.
Qed.

(** ** Steps *)

Inductive sched_step : Scheduler C J → Scheduler C J → Prop :=
| step_set_timeout d s : sched_step s (set_timeout d s).2
| step_clear_timeout id s : sched_step s (clear_timeout id s).2
| step_hostcall c o s : sched_step s (enqueue_hostcall_complete c o s)
| step_completions l s : sched_step s (enqueue_hostcall_completions l s)
| step_event ev p s : sched_step s (enqueue_event ev p s)
| step_tick s : sched_step s (tick s).2
| step_time c s : sched_step s (set_clock c s).

Lemma sched_step_seq s s' :
  sched_step s s' → 0 ≤ seq s ≤ u64_max → seq s ≤ seq s' ≤ u64_max.
Proof.
  intros Hst Hs. assert (seq s ≤ seq_next (seq s) ≤ u64_max) as Hn by (unfold seq_next; int_lia).
  destruct Hst as [d s|id s|c o s|l s|ev p s|s|c s]; cbn; try lia.
  - unfold set_timeout, allocate_timer_id. destruct (allocate_loop _ _ _ _) as [id nx]. cbn. lia.
  - unfold clear_timeout. case_match; cbn; lia.
  - unfold enqueue_hostcall_completions. clear Hn. revert s Hs.
    induction l as [|[c o] l IH]; intros s Hs; cbn; [lia|].
    specialize (IH (enqueue_hostcall_complete c o s)). cbn in IH. unfold seq_next in *. int_lia.
  - unfold tick. cbv zeta.
    pose proof (move_due_seq (now_ms (clock s)) (timer_heap s) s Hs).
    destruct (macrotask_queue (move_due_timers s)); cbn; done.
Qed.

Lemma sched_step_ok s s' : sched_ok s → sched_step s s' → sched_ok s'.
Proof.
  intros [Hs HG] Hst. pose proof (sched_step_seq s s' Hst Hs) as Hm. split; [lia|].
  intros Hlt. assert (good s) as HGs by (apply HG; lia). clear HG.
  destruct Hst as [d s|id s|c o s|l s|ev p s|s|c s].
  - apply set_timeout_good; [done|]. revert Hlt. unfold set_timeout, allocate_timer_id.
    by destruct (allocate_loop _ _ _ _).
  - by apply clear_timeout_good.
  - by apply (enqueue_good (HostcallComplete c o)).
  - apply enqueue_all_good; [done|lia|done].
  - by apply (enqueue_good (InboundEvent ev p)).
  - by apply tick_good.
  - destruct HGs. by split.
Qed.

Lemma with_clock_ok c : sched_ok (with_clock c).
Proof.
  split; [split; vm_compute; discriminate|]. intros _.
  split; cbn; [done|constructor|constructor|constructor| |done| |done|constructor|constructor|].
  - intros id. split; [by intros ?%elem_of_empty|by intros ?%not_elem_of_nil].
  - by intros id ?%elem_of_empty.
  - intros id (t & Ht & _). by apply not_elem_of_nil in Ht.
Qed.

Lemma reachable_good c s :
  rtc sched_step (with_clock c) s → seq s < u64_max → good s.
Proof.
  intros Hr. enough (sched_ok s) as [_ HG] by exact HG.
  eapply (rtc_preserves sched_step); [exact sched_step_ok|exact Hr|apply with_clock_ok].
Qed.

(** ** Cancelled timers *)

(** A timer id that can no longer fire. *)
Record dead (id : Z) s : Prop := mk_dead {
  dd_old : id < next_timer_id s;
  dd_cancelled : id ∈ heap_timer_ids s → id ∈ cancelled_timers s;
  dd_queue : ¬ fired_in (macrotask_queue s) id;
}.

Lemma dead_enqueue kind id s :
  (∀ i, kind ≠ TimerFired i) → dead id s → dead id (enqueue kind s).
Proof.
  intros Hk [Ho Hc Hq]. split; cbn; try done.
  intros (t & [Ht| ->%list_elem_of_singleton]%elem_of_app & E); [|by apply Hk in E].
  apply Hq. by exists t.
Qed.

Lemma dead_move_due id s :
  good s → seq (move_due_timers s) < u64_max → dead id s → dead id (move_due_timers s).
Proof.
  intros HG Hlt [Ho Hc Hq]. unfold move_due_timers in *.
  rw move_due_spec; [|done|apply HG..|done]. split; cbn; [done|set_solver|].
  intros (t & [Ht|Ht]%elem_of_app & Hk); [apply Hq; by exists t|].
  assert (fired_in (fired_tasks (seq s) (firing (now_ms (clock s)) s)) id) as Hf by (by exists t).
  apply fired_tasks_ids, list_elem_of_fmap in Hf as (e & -> & He).
  apply list_elem_of_filter in He as [Hnc [_ He]%list_elem_of_filter].
  apply Hnc, Hc, (g_heap_ids _ HG), list_elem_of_fmap. by exists e.
Qed.

Lemma dead_tick id s :
  good s → seq (tick s).2 < u64_max → dead id s →
  dead id (tick s).2 ∧ ∀ t, (tick s).1 = Some t → m_kind t ≠ TimerFired id.
Proof.
  intros HG Hlt HD.
  assert (dead id (move_due_timers s)) as [Ho Hc Hq].
  { apply dead_move_due; [done| |done]. revert Hlt. unfold tick. cbv zeta. by case_match. }
  unfold tick. cbv zeta. destruct (macrotask_queue (move_due_timers s)) as [|t rest] eqn:E; cbn.
  - split; [|done]. split; [done|done|by rw E].
  - split.
    + split; cbn; [done|done|]. intros (t' & Ht & Hk). apply Hq. exists t'. split; [by right|done].
    + intros t' [= <-] Hk. apply Hq. exists t. split; [by left|done].
Qed.

Lemma dead_step id s s' :
  sched_ok s → sched_step s s' → seq s' < u64_max → dead id s → dead id s'.
Proof.
  intros [Hs HG] Hst Hlt HD. pose proof (sched_step_seq s s' Hst Hs) as Hm.
  assert (good s) as HGs by (apply HG; lia). clear HG.
  destruct Hst as [d s|i s|c o s|l s|ev p s|s|c s].
  - assert (seq_next (seq s) < u64_max) as Hn.
    { revert Hlt. unfold set_timeout, allocate_timer_id. by destruct (allocate_loop _ _ _ _). }
    destruct HD as [Ho Hc Hq]. rw set_timeout_spec //. split; cbn; [lia| |done].
    intros [->%elem_of_singleton|Hin]%elem_of_union; [lia|auto].
  - destruct HD as [Ho Hc Hq]. unfold clear_timeout. case_match; [|done].
    split; cbn; [done| |done]. intros Hin%Hc. set_solver.
  - by apply (dead_enqueue (HostcallComplete c o)).
  - unfold enqueue_hostcall_completions. clear -HD. revert s HD.
    induction l as [|[c o] l IH]; intros s HD; [done|]. cbn. apply IH.
    by apply (dead_enqueue (HostcallComplete c o)).
  - by apply (dead_enqueue (InboundEvent ev p)).
  - by apply dead_tick.
  - destruct HD. by split.
Qed.

Lemma dead_run id s s' :
  rtc sched_step s s' → sched_ok s → seq s' < u64_max → dead id s → dead id s' ∧ good s'.
Proof.
  intros Hr Hok Hlt HD.
  assert (∀ a b, rtc sched_step a b → sched_ok a → seq a ≤ seq b) as Hmono.
  { induction 1 as [|a b c' Hab _ IH]; intros Ha; [lia|].
    pose proof (sched_step_seq _ _ Hab (proj1 Ha)). pose proof (IH (sched_step_ok _ _ Ha Hab)). lia. }
  induction Hr as [s|s s1 s' Hst Hr IH]; [split; [done|by apply Hok]|].
  pose proof (sched_step_ok _ _ Hok Hst) as Hok1. apply IH; [done|done|].
  eapply dead_step; [exact Hok|exact Hst| |done]. pose proof (Hmono _ _ Hr Hok1). lia.
Qed.

(** A successful [clear_timeout] kills the timer. *)
Lemma clear_timeout_dead id s :
  good s → (clear_timeout id s).1 = true → dead id (clear_timeout id s).2.
Proof.
  intros HG. unfold clear_timeout. destruct (bool_decide (id ∈ heap_timer_ids s)) eqn:E; [|done].
  destruct (bool_decide (id ∈ cancelled_timers s)); [done|]. intros _. bool_to_prop.
  split; cbn; [by apply (g_ids_lt _ HG)|set_solver|]. intros [? _]%(g_fired _ HG). done.
Qed.

(** ** Sleeping until the next timer *)

Lemma next_deadline_min s :
  match next_timer_deadline s with
  | None => pending_timers s = []
  | Some d => (∃ e, e ∈ pending_timers s ∧ deadline_ms e = d) ∧
              ∀ e, e ∈ pending_timers s → d ≤ deadline_ms e
  end.
Proof.
  unfold next_timer_deadline. induction (pending_timers s) as [|x l IH]; simpl; [done|].
  destruct (foldr _ None l) as [d|]; simpl.
  - destruct IH as [(e & He & <-) Hmin]. split.
    + destruct (Z.min_spec (deadline_ms x) (deadline_ms e)) as [[_ ->]|[_ ->]].
      * exists x. split; [by left|done].
      * exists e. split; [by right|done].
    + intros e' [->|He']%elem_of_cons; [lia|]. specialize (Hmin e' He'). lia.
  - subst l. split; [exists x; split; [by left|done]|].
    intros e' ->%list_elem_of_singleton. lia.
Qed.

Lemma elem_of_firing now s e : e ∈ firing now s ↔ e ∈ pending_timers s ∧ deadline_ms e ≤ now.
Proof.
  unfold firing, pending_timers. rw !list_elem_of_filter. unfold due. tauto.
Qed.
End Invariant.

(** * Timer ids after wrap-around *)

Section TimerIds.
Context {C J : Type} `{Clock C}.
Implicit Types (s : Scheduler C J).

(** The candidate of turn [k]. *)
Definition nth_candidate (start : Z) (k : Z) : Z := (start - 1 + k) mod u64_max + 1.

Lemma nth_candidate_range start k : 1 ≤ nth_candidate start k ≤ u64_max.
Proof.
  unfold nth_candidate. pose proof (Z.mod_pos_bound (start - 1 + k) u64_max). unfold u64_max in *. lia.
Qed.

Lemma nth_candidate_next start k :
  (if nth_candidate start k =? u64_max then 1 else nth_candidate start k + 1)
  = nth_candidate start (k + 1).
Proof.
  pose proof (nth_candidate_range start k). unfold nth_candidate in *.
  replace (start - 1 + (k + 1)) with (start - 1 + k + 1) by lia.
  rw -(Z.add_mod_idemp_l (start - 1 + k) 1); [|done].
  set (m := (start - 1 + k) mod u64_max) in *.
  destruct (Z.eqb_spec (m + 1) u64_max) as [E|E].
  - rw E. by rw Z.mod_same.
  - rw Z.mod_small; lia.
Qed.

Lemma nth_candidate_inj start i j :
  0 ≤ i < u64_max → 0 ≤ j < u64_max → nth_candidate start i = nth_candidate start j → i = j.
Proof.
  unfold nth_candidate. intros Hi Hj E.
  assert ((i - j) mod u64_max = 0) as Hm.
  { replace (i - j) with ((start - 1 + i) - (start - 1 + j)) by lia.
    rw Zminus_mod. replace ((start - 1 + i) mod u64_max) with ((start - 1 + j) mod u64_max) by lia.
    by rw Z.sub_diag. }
  apply Z.mod_divide in Hm as [q Hq]; [|done]. unfold u64_max in *. nia.
Qed.

(** The candidates of the first [k] turns. *)
Definition candidates (start : Z) (k : nat) : list Z :=
  (λ i : nat, nth_candidate start (Z.of_nat i)) <$> List.seq 0 k.

Lemma candidates_size start k (ids : gset Z) :
  Z.of_nat k ≤ u64_max → (∀ c, c ∈ candidates start k → c ∈ ids) → (k ≤ size ids)%nat.
Proof.
  intros Hk Hin.
  assert (NoDup (candidates start k)) as Hn.
  { apply NoDup_fmap_2_strong; [|apply NoDup_seq]. intros x y Hx%elem_of_seq Hy%elem_of_seq E.
    apply nth_candidate_inj in E; lia. }
  rw -(length_seq k 0) -(length_fmap (λ i : nat, nth_candidate start (Z.of_nat i)) (List.seq 0 k)).
  fold (candidates start k). rw -(size_list_to_set (C := gset Z)) //. apply subseteq_size.
  intros c. rw elem_of_list_to_set. apply Hin.
Qed.

Lemma candidates_S start k c :
  c ∈ candidates start (S k) ↔ c ∈ candidates start k ∨ c = nth_candidate start (Z.of_nat k).
Proof. unfold candidates. by rw seq_S fmap_app elem_of_app list_elem_of_singleton. Qed.

Lemma candidates_bounded start k (ids : gset Z) :
  Z.of_nat (size ids) < u64_max → (∀ c, c ∈ candidates start k → c ∈ ids) → (k ≤ size ids)%nat.
Proof.
  intros Hsize. induction k as [|k IH]; intros Hin; [lia|].
  assert (k ≤ size ids)%nat as Hk by (apply IH; intros c Hc; apply Hin, candidates_S; by left).
  apply (candidates_size start); [lia|done].
Qed.

Lemma allocate_loop_fresh fuel s start (k : nat) :
  1 ≤ start ≤ u64_max → Z.of_nat (size (heap_timer_ids s)) < u64_max →
  (size (heap_timer_ids s) < k + fuel)%nat →
  (∀ c, c ∈ candidates start k → c ∈ heap_timer_ids s) →
  let id := (allocate_loop fuel s start (nth_candidate start (Z.of_nat k))).1 in
  (id ∉ heap_timer_ids s) ∧ 1 ≤ id ≤ u64_max.
Proof.
  intros Hst Hsize. revert k. induction fuel as [|fuel IH]; intros k Hfuel Hin.
  - pose proof (candidates_bounded start k _ Hsize Hin). lia.
  - cbn [allocate_loop]. rw nth_candidate_next. unfold timer_id_in_use.
    destruct (bool_decide_reflect (nth_candidate start (Z.of_nat k) ∈ heap_timer_ids s)) as [Hu|Hu];
      cbn [negb]; [|split; [done|apply nth_candidate_range]].
    assert (∀ c, c ∈ candidates start (S k) → c ∈ heap_timer_ids s) as Hin'.
    { intros c [Hc| ->]%candidates_S; auto. }
    pose proof (candidates_bounded start (S k) _ Hsize Hin').
    destruct (Z.eqb_spec (nth_candidate start (Z.of_nat k + 1)) start) as [E|E].
    + exfalso. assert (start = nth_candidate start 0) as E0.
      { unfold nth_candidate. rw Z.mod_small; lia. }
      rw {2}E0 in E. apply nth_candidate_inj in E; lia.
    + replace (Z.of_nat k + 1) with (Z.of_nat (S k)) by lia. apply IH; [lia|done].
Qed.
End TimerIds.

(** * Runs *)

(** The operations of a run; a batch of completions is a sequence of single
    ones. *)
Inductive sched_op (C J : Type) :=
| OSetTimeout (delay_ms : Z)
| OClearTimeout (id : Z)
| OHostcall (call_id : Str) (outcome : HostcallOutcome J)
| OEvent (event_id : Str) (payload : J)
| OTick
| OTime (c : C).
Arguments OSetTimeout {_ _} _.
Arguments OClearTimeout {_ _} _.
Arguments OHostcall {_ _} _ _.
Arguments OEvent {_ _} _ _.
Arguments OTick {_ _}.
Arguments OTime {_ _} _.

Section Runs.
Context {C J : Type} `{Clock C}.
Implicit Types (s : Scheduler C J) (op : sched_op C J).

(** The new state and the macrotask that was executed. *)
Definition sched_run_op op s : Scheduler C J * list (Macrotask J) :=
  match op with
  | OSetTimeout d => ((set_timeout d s).2, [])
  | OClearTimeout id => ((clear_timeout id s).2, [])
  | OHostcall c o => (enqueue_hostcall_complete c o s, [])
  | OEvent ev p => (enqueue_event ev p s, [])
  | OTick => ((tick s).2, match (tick s).1 with Some t => [t] | None => [] end)
  | OTime c => (set_clock c s, [])
  end.

Fixpoint sched_run (ops : list (sched_op C J)) s : Scheduler C J * list (Macrotask J) :=
  match ops with
  | [] => (s, [])
  | op :: ops' =>
      let '(s1, out1) := sched_run_op op s in
      let '(s2, out2) := sched_run ops' s1 in
      (s2, out1 ++ out2)
  end.

Fixpoint ticks (ops : list (sched_op C J)) : nat :=
  match ops with
  | [] => 0
  | OTick :: ops' => S (ticks ops')
  | _ :: ops' => ticks ops'
  end.

Lemma run_op_step op s : sched_step s (sched_run_op op s).1.
Proof. destruct op; cbn; constructor. Qed.

Definition seq_sorted : list (Macrotask J) → Prop := StronglySorted (λ a b, m_seq a < m_seq b).

(** What one operation does to the macrotasks: those executed and still
    queued are those queued before, followed by new ones numbered from the
    counter. *)
Definition appends s (out queue' : list (Macrotask J)) (seq' : Z) : Prop :=
  ∃ new, out ++ queue' = macrotask_queue s ++ new ∧ seq_sorted new ∧
         Forall (λ t, seq s ≤ m_seq t < seq') new.

Lemma appends_none s queue' seq' : queue' = macrotask_queue s → appends s [] queue' seq'.
Proof.
  intros ->. exists []. rw app_nil_r. split; [done|]. split; constructor.
Qed.

Lemma run_op_appends op s :
  good s → seq (sched_run_op op s).1 < u64_max →
  appends s (sched_run_op op s).2 (macrotask_queue (sched_run_op op s).1) (seq (sched_run_op op s).1).
Proof.
  intros HG Hlt. pose proof (g_seq _ HG) as H0.
  assert (∀ kind, seq (enqueue kind s) < u64_max →
    appends s [] (macrotask_queue (enqueue kind s)) (seq (enqueue kind s))) as Henq.
  { intros kind Hk. exists [mkMacrotask (seq s) kind]. split; [done|].
    split; [by repeat constructor|]. constructor; [|done]. cbn in *. unfold seq_next in *. int_lia. }
  destruct op as [d|id|c o|ev p| |c]; cbn [sched_run_op fst snd] in *.
  - apply appends_none. unfold set_timeout, allocate_timer_id. by destruct (allocate_loop _ _ _ _).
  - apply appends_none. unfold clear_timeout. by case_match.
  - by apply (Henq (HostcallComplete c o)).
  - by apply (Henq (InboundEvent ev p)).
  - assert (seq (tick s).2 = seq (move_due_timers s)) as Es by (unfold tick; cbv zeta; by case_match).
    rw Es in Hlt |- *. exists (fired_tasks (seq s) (firing (now_ms (clock s)) s)).
    assert (macrotask_queue (move_due_timers s) = macrotask_queue s ++ fired_tasks (seq s)
              (firing (now_ms (clock s)) s) ∧
            seq (move_due_timers s) = seq s + len (firing (now_ms (clock s)) s)) as [Hq Hs].
    { unfold move_due_timers in *. rw move_due_spec; [done|done|apply HG..|done]. }
    rw -Hq Hs. split; [unfold tick; cbv zeta; by destruct (macrotask_queue (move_due_timers s)) eqn:E|].
    split; [apply fired_tasks_sorted|apply fired_tasks_bounds].
  - by apply appends_none.
Qed.

Lemma sched_run_seq ops s : sched_ok s → sched_ok (sched_run ops s).1 ∧ seq s ≤ seq (sched_run ops s).1.
Proof.
  revert s. induction ops as [|op ops IH]; intros s Hok; cbn; [split; [done|lia]|].
  pose proof (run_op_step op s) as Hst. destruct (sched_run_op op s) as [s1 out1]. cbn in Hst.
  pose proof (sched_step_ok _ _ Hok Hst) as Hok1. pose proof (sched_step_seq _ _ Hst (proj1 Hok)).
  specialize (IH s1 Hok1). destruct (sched_run ops s1) as [s2 out2]. cbn in *.
  destruct IH. split; [done|lia].
Qed.

Lemma sched_run_appends ops s :
  sched_ok s → seq (sched_run ops s).1 < u64_max →
  appends s (sched_run ops s).2 (macrotask_queue (sched_run ops s).1) (seq (sched_run ops s).1).
Proof.
  revert s. induction ops as [|op ops IH]; intros s Hok Hlt; [by apply appends_none|].
  pose proof (sched_run_seq (op :: ops) s Hok) as [_ Hm0].
  assert (good s) as HG by (apply Hok; lia). cbn in Hlt, Hm0 |- *.
  pose proof (run_op_step op s) as Hst. pose proof (run_op_appends op s HG) as Happ.
  destruct (sched_run_op op s) as [s1 out1]. cbn in Hst, Happ.
  pose proof (sched_step_ok _ _ Hok Hst) as Hok1. pose proof (sched_step_seq _ _ Hst (proj1 Hok)) as Hm1.
  pose proof (sched_run_seq ops s1 Hok1) as [_ Hm2]. specialize (IH s1 Hok1).
  destruct (sched_run ops s1) as [s2 out2]. cbn in *.
  destruct Happ as (new1 & Eq1 & Hs1 & Hf1); [lia|]. destruct IH as (new2 & Eq2 & Hs2 & Hf2); [done|].
  exists (new1 ++ new2). split; [by rw -app_assoc Eq2 !app_assoc Eq1|]. split.
  - apply StronglySorted_app_2; [|done|done]. intros a b Ha Hb.
    pose proof (proj1 (Forall_forall _ _) Hf1 a Ha) as Ha'.
    pose proof (proj1 (Forall_forall _ _) Hf2 b Hb) as Hb'. cbn in *. lia.
  - apply Forall_app. split; (eapply Forall_impl; [eassumption|]); cbn; lia.
Qed.

(** A tick executes a macrotask unless there is none. *)
Lemma sched_run_progress ops s :
  (Nat.min (ticks ops) (length (macrotask_queue s)) ≤ length (sched_run ops s).2)%nat.
Proof.
  revert s. induction ops as [|op ops IH]; intros s; cbn; [lia|].
  assert (length (macrotask_queue s) ≤ length (macrotask_queue (sched_run_op op s).1) +
            length (sched_run_op op s).2 ∧
          (ticks (op :: ops) ≤ ticks ops + length (sched_run_op op s).2 ∨
           length (macrotask_queue s) = 0))%nat as [Hl Ht].
  { assert (∀ now h s0, length (macrotask_queue s0) ≤ length (macrotask_queue (move_due_loop now h s0)))%nat
      as Hmv.
    { clear. intros now h. induction h as [|e h IH]; intros s0; cbn; [lia|].
      case_match; [lia|]. etrans; [|apply IH]. unfold fire_timer. case_decide; cbn; [lia|].
      rw length_app. lia. }
    specialize (Hmv (now_ms (clock s)) (timer_heap s) s).
    destruct op as [d|id|c o|ev p| |c]; cbn [sched_run_op fst snd ticks length]; try lia.
    - unfold set_timeout, allocate_timer_id. destruct (allocate_loop _ _ _ _). cbn. lia.
    - unfold clear_timeout. case_match; cbn; lia.
    - cbn. rw length_app. lia.
    - cbn. rw length_app. lia.
    - unfold tick. cbv zeta. unfold move_due_timers.
      destruct (macrotask_queue (move_due_loop _ _ s)) eqn:E; cbn in *; rw ?E; cbn; lia.
    - cbn. lia. }
  specialize (IH (sched_run_op op s).1). destruct (sched_run_op op s) as [s1 out1]. cbn in *.
  destruct (sched_run ops s1) as [s2 out2]. cbn in *. rw length_app. lia.
Qed.
End Runs.

(** C34: while the 64-bit sequence counter is not used up, a tick of a
    reachable scheduler moves to the back of the macrotask queue exactly the
    due timers that are not cancelled, in the order of their deadlines and, for
    equal deadlines, of their creation, numbered consecutively from the
    sequence counter; timers that are not due stay, cancelled due ones are
    dropped.  It then executes the oldest macrotask, if there is one, and
    nothing else.  The queue is ordered by sequence number throughout. *)
Theorem tick_fires_exactly_due_timers `{Clock C} {J} c (s : Scheduler C J) :
  rtc sched_step (with_clock c) s → seq (tick s).2 < u64_max →
  let now := now_ms (clock s) in
  let queue := macrotask_queue s ++ fired_tasks (seq s) (firing now s) in
  (∀ e, e ∈ firing now s ↔
        e ∈ timer_heap s ∧ deadline_ms e ≤ now ∧ timer_id e ∉ cancelled_timers s) ∧
  StronglySorted (λ a b, deadline_ms a < deadline_ms b ∨
                         deadline_ms a = deadline_ms b ∧ t_seq a < t_seq b) (firing now s) ∧
  seq_sorted queue ∧
  (tick s).1 = head queue ∧ macrotask_queue (tick s).2 = tail queue ∧
  timer_heap (tick s).2 = filter (λ e, ¬ deadline_ms e ≤ now) (timer_heap s).
Proof.
  intros Hr Hlt now queue.
  assert (seq (tick s).2 = seq (move_due_timers s)) as Es by (unfold tick; cbv zeta; by case_match).
  assert (sched_ok s) as Hok.
  { eapply (rtc_preserves sched_step); [exact sched_step_ok|exact Hr|apply with_clock_ok]. }
  pose proof (sched_step_seq _ _ (step_tick s) (proj1 Hok)).
  assert (good s) as HG by (apply Hok; lia). rw Es in Hlt.
  pose proof (move_due_good s HG Hlt) as HG'.
  assert (macrotask_queue (move_due_timers s) = queue ∧
          timer_heap (move_due_timers s) = filter (λ e, ¬ due now e) (timer_heap s)) as [Hq Hh].
  { unfold move_due_timers in *. rw move_due_spec; [done|done|apply HG..|done]. }
  split; [intros e; rw elem_of_firing; unfold pending_timers; rw list_elem_of_filter;
    unfold not_cancelled; tauto|].
  split.
  { unfold firing. do 2 apply StronglySorted_filter. eapply StronglySorted_weaken; [|apply HG].
    intros a b. apply timer_lt_iff. }
  split; [rw -Hq; exact (g_queue_sorted _ HG')|].
  unfold tick. cbv zeta. rw -Hq. destruct (macrotask_queue (move_due_timers s)) eqn:E; cbn; rw ?E //.
Qed.

Lemma tick_fires_exactly_due_timers_witness :
  let s0 := set_clock (clock_new 30) (set_timeout 10 (set_timeout 20
              (with_clock (J := Z) (clock_new 5))).2).2 in
  (tick s0).1 = Some (mkMacrotask 2 (TimerFired 2)) ∧
  (tick s0).1 = head (macrotask_queue s0 ++ fired_tasks (seq s0) (firing (now_ms (clock s0)) s0)).
Proof.
  intros s0. split; [vm_compute; reflexivity|].
  apply (tick_fires_exactly_due_timers (clock_new 5) s0); [|vm_compute; reflexivity].
  eapply rtc_l; [apply (step_set_timeout 20)|]. eapply rtc_l; [apply (step_set_timeout 10)|].
  apply rtc_once. apply step_time.
Defined.

(** A cancelled timer never fires: once [clear_timeout] has answered
    [true] for an id, no tick of any later state, whatever was scheduled,
    enqueued or cancelled in between and however time passed, executes that
    timer. *)
Theorem cancelled_timer_never_fires `{Clock C} {J} c (s s' : Scheduler C J) id t :
  rtc sched_step (with_clock c) s → seq s < u64_max →
  (clear_timeout id s).1 = true → rtc sched_step (clear_timeout id s).2 s' →
  seq (tick s').2 < u64_max → (tick s').1 = Some t → m_kind t ≠ TimerFired id.
Proof.
  intros Hr Hlt Hc Hr' Hlt' Ht.
  assert (sched_ok s) as Hok.
  { eapply (rtc_preserves sched_step); [exact sched_step_ok|exact Hr|apply with_clock_ok]. }
  assert (sched_ok (clear_timeout id s).2) as Hok1 by (eapply sched_step_ok; [exact Hok|constructor]).
  pose proof (clear_timeout_dead id s (proj2 Hok Hlt) Hc) as HD.
  assert (sched_ok s') as Hok'.
  { eapply (rtc_preserves sched_step); [exact sched_step_ok|exact Hr'|exact Hok1]. }
  pose proof (sched_step_seq _ _ (step_tick s') (proj1 Hok')).
  destruct (dead_run id _ s' Hr' Hok1) as [HD' HG']; [lia|done|].
  by eapply dead_tick.
Qed.

Lemma cancelled_timer_never_fires_witness :
  let s := (set_timeout 0 (set_timeout 0 (with_clock (J := Z) (clock_new 5))).2).2 in
  (tick (clear_timeout 1 s).2).1 = Some (mkMacrotask 2 (TimerFired 2)) ∧
  (TimerFired 2 : MacrotaskKind Z) ≠ TimerFired 1.
Proof.
  intros s. split; [vm_compute; reflexivity|].
  apply (cancelled_timer_never_fires (clock_new 5) s (clear_timeout 1 s).2 1 (mkMacrotask 2 (TimerFired 2)));
    [|vm_compute; reflexivity|vm_compute; reflexivity|apply rtc_refl|vm_compute; reflexivity
     |vm_compute; reflexivity].
  eapply rtc_l; [apply (step_set_timeout 0)|]. apply rtc_once, (step_set_timeout 0).
Defined.

(** C40: macrotasks run in one total order and none starves: over any run of
    a reachable scheduler that does not use up the 64-bit sequence counter, the
    macrotasks executed followed by those still queued have strictly increasing
    sequence numbers, they start with the macrotasks queued at the start, in
    order, and the one that was at position [i] is executed by the [i+1]-st
    tick at the latest. *)
Theorem macrotasks_total_order `{Clock C} {J} c (s s' : Scheduler C J) ops out :
  rtc sched_step (with_clock c) s → sched_run ops s = (s', out) → seq s' < u64_max →
  seq_sorted (out ++ macrotask_queue s') ∧
  (∃ new, out ++ macrotask_queue s' = macrotask_queue s ++ new) ∧
  ∀ i t, macrotask_queue s !! i = Some t → (i < ticks ops)%nat → out !! i = Some t.
Proof.
  intros Hr Hrun Hlt.
  assert (sched_ok s) as Hok.
  { eapply (rtc_preserves sched_step); [exact sched_step_ok|exact Hr|apply with_clock_ok]. }
  pose proof (sched_run_seq ops s Hok) as [_ Hm]. pose proof (sched_run_appends ops s Hok) as Happ.
  pose proof (sched_run_progress ops s) as Hpr. rw Hrun in Hm, Happ, Hpr. cbn in *.
  assert (good s) as HG by (apply Hok; lia).
  destruct Happ as (new & Heq & Hsn & Hfn); [done|]. split_and!.
  - rw Heq. apply StronglySorted_app_2; [|apply HG|done]. intros a b Ha Hb.
    pose proof (proj1 (Forall_forall _ _) (g_queue_seq _ HG) a Ha) as Ha'.
    pose proof (proj1 (Forall_forall _ _) Hfn b Hb) as Hb'. cbn in *. lia.
  - by exists new.
  - intros i t Hi Hti. pose proof (lookup_lt_Some _ _ _ Hi).
    rw -(lookup_app_l out (macrotask_queue s')); [|lia]. rw Heq lookup_app_l; [done|lia].
Qed.

Lemma macrotasks_total_order_witness :
  let s := enqueue_event (str "b") 2 (enqueue_event (str "a") 1 (with_clock (clock_new 5))) in
  let r := sched_run [OEvent (str "c") 3; OTick; OSetTimeout 1; OTick] s in
  len r.2 = 2 ∧ r.2 !! 1%nat = Some (mkMacrotask 1 (InboundEvent (str "b") 2)).
Proof.
  intros s r. split; [vm_compute; reflexivity|].
  apply (macrotasks_total_order (clock_new 5) s r.1 [OEvent (str "c") 3; OTick; OSetTimeout 1; OTick]).
  - eapply rtc_l; [apply (step_event (str "a") 1)|]. apply rtc_once, (step_event (str "b") 2).
  - apply surjective_pairing.
  - vm_compute. reflexivity.
  - vm_compute. reflexivity.
  - cbn. lia.
Defined.

(** Timer ids are never handed out twice at a time: with fewer than
    [u64::MAX] timers in the heap, [allocate_timer_id] finds, wherever its
    cursor stands and also after the cursor wrapped around, an id in range
    that is not in use (and so never gives up). *)
Theorem allocated_timer_id_is_free `{Clock C} {J} (s : Scheduler C J) :
  1 ≤ next_timer_id s ≤ u64_max → Z.of_nat (size (heap_timer_ids s)) < u64_max →
  let id := (allocate_timer_id s).1 in
  (id ∉ heap_timer_ids s) ∧ 1 ≤ id ≤ u64_max.
Proof.
  intros Hn Hsize id.
  assert (nth_candidate (next_timer_id s) (Z.of_nat 0) = next_timer_id s) as E0.
  { unfold nth_candidate. rw Z.mod_small; lia. }
  pose proof (allocate_loop_fresh (S (size (heap_timer_ids s))) s (next_timer_id s) 0 Hn Hsize) as Hf.
  rw E0 in Hf. unfold id, allocate_timer_id.
  destruct (allocate_loop _ s _ _) as [i nx]. apply Hf; [lia|].
  intros c Hc. by apply not_elem_of_nil in Hc.
Qed.

Lemma allocated_timer_id_is_free_witness :
  let s := mkScheduler (J := Z) 9 [] [] u64_max ∅ {[u64_max; 1; 2]} (clock_new 5) in
  (allocate_timer_id s).1 = 3 ∧ (allocate_timer_id s).1 ∉ heap_timer_ids s.
Proof.
  intros s. split; [vm_compute; reflexivity|].
  apply (allocated_timer_id_is_free s); [vm_compute; split; discriminate|vm_compute; reflexivity].
Defined.

(** [next_timer_deadline] is a safe time to sleep until: no timer fires
    at a time exactly when there is no pending timer or the time is before
    the reported deadline, which is the deadline of a pending timer. *)
Theorem next_deadline_is_exact `{Clock C} {J} (s : Scheduler C J) (now : Z) :
  (firing now s = [] ↔ match next_timer_deadline s with None => True | Some d => now < d end) ∧
  (∀ d, next_timer_deadline s = Some d → d ∈ deadline_ms <$> pending_timers s).
Proof.
  pose proof (next_deadline_min s) as Hmin. split.
  - destruct (next_timer_deadline s) as [d|].
    + destruct Hmin as [(e & He & <-) Hmin]. split.
      * intros Hf. destruct (Z.lt_ge_cases now (deadline_ms e)) as [?|Hge]; [done|].
        assert (e ∈ firing now s) as Hin by (by apply elem_of_firing).
        rw Hf in Hin. by apply not_elem_of_nil in Hin.
      * intros Hlt. destruct (firing now s) as [|x l] eqn:E; [done|].
        assert (x ∈ firing now s) as [Hx Hd]%elem_of_firing by (rw E; by left).
        specialize (Hmin x Hx). lia.
    + split; [done|]. intros _. destruct (firing now s) as [|x l] eqn:E; [done|].
      assert (x ∈ firing now s) as [Hx _]%elem_of_firing by (rw E; by left).
      rw Hmin in Hx. by apply not_elem_of_nil in Hx.
  - intros d Hd. rw Hd in Hmin. destruct Hmin as [(e & He & <-) _].
    apply list_elem_of_fmap. by exists e.
Qed.
