(* ===== verification/ReactorMesh.v ===== *)
(** * Reactor mesh ([src/scheduler.rs], second part)

    Shard placement planning from a machine topology, the bounded per-shard
    lanes, routing, and the drains by shard and by global sequence.  Shard
    ids and counts index vectors and are [nat]; core and node ids are [Z]. *)

From S2P Require Import Prelude Text Scheduler.

(** ** Sorting and deduplication

    [sort_unstable] of values that are equal only when identical, and
    [dedup], which drops an element equal to the one kept before it. *)

Fixpoint dedup {A} `{EqDecision A} (l : list A) : list A :=
  match l with
  | [] => []
  | x :: l' =>
      match dedup l' with
      | [] => [x]
      | y :: r => if decide (x = y) then y :: r else x :: y :: r
      end
  end.

Definition sort_dedup (l : list Z) : list Z := dedup (merge_sort Z.le l).

(** ** Placement *)

Record ReactorTopologyCore := mkCore { core_id : Z; numa_node : Z }.
#[global] Instance ReactorTopologyCore_eq_dec : EqDecision ReactorTopologyCore.
Proof. solve_decision. Defined.

(** The derived order of [ReactorTopologyCore]. *)
Definition core_le (a b : ReactorTopologyCore) : Prop :=
  core_id a < core_id b ∨ core_id a = core_id b ∧ numa_node a ≤ numa_node b.
#[global] Instance core_le_dec a b : Decision (core_le a b).
Proof. unfold core_le. apply _. Defined.

Record ReactorTopologySnapshot := mkTopology { cores : list ReactorTopologyCore }.

Definition from_core_node_pairs (pairs : list (Z * Z)) : ReactorTopologySnapshot :=
  mkTopology (dedup (merge_sort core_le ((λ p, mkCore p.1 p.2) <$> pairs))).

Record ReactorMeshConfig := mkMeshConfig {
  cfg_shard_count : nat;
  cfg_lane_capacity : Z;
  cfg_topology : option ReactorTopologySnapshot;
}.

Definition ReactorMeshConfig_default : ReactorMeshConfig := mkMeshConfig 4 1024 None.

Inductive ReactorPlacementFallbackReason := TopologyUnavailable | TopologyEmpty | SingleNumaNode.

Definition placement_reason_code (r : ReactorPlacementFallbackReason) : Str :=
  match r with
  | TopologyUnavailable => str "topology_unavailable"
  | TopologyEmpty => str "topology_empty"
  | SingleNumaNode => str "single_numa_node"
  end.

Record ReactorShardBinding := mkBinding { b_shard_id : nat; b_core_id : Z; b_numa_node : Z }.

Record ReactorPlacementManifest := mkManifest {
  shard_count : nat;
  numa_node_count : nat;
  bindings : list ReactorShardBinding;
  pm_fallback_reason : option ReactorPlacementFallbackReason;
}.

(** [by_node.entry(node).or_default().push(core)] on a map kept in key order,
    as [BTreeMap] iterates it. *)
Fixpoint node_push (node core : Z) (m : list (Z * list Z)) : list (Z * list Z) :=
  match m with
  | [] => [(node, [core])]
  | (n, cs) :: m' =>
      if node <? n then (node, [core]) :: m
      else if node =? n then (n, cs ++ [core]) :: m'
      else (n, cs) :: node_push node core m'
  end.

Definition group_by_node (l : list ReactorTopologyCore) : list (Z * list Z) :=
  foldl (λ m c, node_push (numa_node c) (core_id c) m) [] l.

(** The non-empty nodes with their sorted cores. *)
Definition plan_nodes (l : list ReactorTopologyCore) : list (Z * list Z) :=
  filter (λ n : Z * list Z, n.2 ≠ []) ((λ n : Z * list Z, (n.1, sort_dedup n.2)) <$> group_by_node l).

Definition default_bindings (shard_count : nat) : list ReactorShardBinding :=
  (λ i : nat, mkBinding i (Z.of_nat i) 0) <$> List.seq 0 shard_count.

(** The body of the binding loop; the indexing does not go out of range
    because no node is empty. *)
Definition bind_shard (nodes : list (Z * list Z)) (shard_id : nat) : ReactorShardBinding :=
  let node_count := length nodes in
  let node_idx := (shard_id mod node_count)%nat in
  match nodes !! node_idx with
  | Some (node, cs) =>
      let core_idx := ((shard_id / node_count) mod length cs)%nat in
      mkBinding shard_id (default 0 (cs !! core_idx)) node
  | None => mkBinding shard_id 0 0
  end.

Definition plan (count : nat) (topology : option ReactorTopologySnapshot) : ReactorPlacementManifest :=
  match count with
  | O => mkManifest 0 0 [] None
  | S _ =>
      match topology with
      | None => mkManifest count 1 (default_bindings count) (Some TopologyUnavailable)
      | Some t =>
          match cores t with
          | [] => mkManifest count 1 (default_bindings count) (Some TopologyEmpty)
          | _ :: _ =>
              match plan_nodes (cores t) with
              | [] => mkManifest count 1 (default_bindings count) (Some TopologyEmpty)
              | nodes =>
                  mkManifest count (length nodes) (bind_shard nodes <$> List.seq 0 count)
                    (if (length nodes =? 1)%nat then Some SingleNumaNode else None)
              end
          end
      end
  end.

Definition numa_node_for_shard (m : ReactorPlacementManifest) (shard : nat) : option Z :=
  b_numa_node <$> find (λ b, (b_shard_id b =? shard)%nat) (bindings m).

Inductive AffinityEnforcement := Advisory | Strict | AffinityDisabled.

Definition affinity_code (a : AffinityEnforcement) : Str :=
  match a with
  | Advisory => str "advisory"
  | Strict => str "strict"
  | AffinityDisabled => str "disabled"
  end.

Record ThreadAffinityAdvice := mkAdvice {
  a_shard_id : nat;
  recommended_core : Z;
  recommended_numa_node : Z;
  enforcement : AffinityEnforcement;
}.

Definition affinity_advice (e : AffinityEnforcement) (m : ReactorPlacementManifest)
    : list ThreadAffinityAdvice :=
  (λ b, mkAdvice (b_shard_id b) (b_core_id b) (b_numa_node b) e) <$> bindings m.

(** ** Lanes *)

Section Lane.
Context {T : Type}.

Record SpscLane := mkLane { capacity : Z; queue : list T; max_depth : Z }.

Definition lane_new (cap : Z) : SpscLane := mkLane cap [] 0.
Definition lane_len (l : SpscLane) : Z := len (queue l).

Definition lane_push (value : T) (l : SpscLane) : result SpscLane Z :=
  if capacity l <=? len (queue l) then Err (len (queue l))
  else
    let q := queue l ++ [value] in
    Ok (mkLane (capacity l) q (Z.max (max_depth l) (len q))).

Definition lane_pop (l : SpscLane) : option (T * SpscLane) :=
  match queue l with
  | [] => None
  | x :: q => Some (x, mkLane (capacity l) q (max_depth l))
  end.

Definition lane_front (l : SpscLane) : option T := head (queue l).
End Lane.
Arguments SpscLane T : clear implicits.

(** ** The mesh *)

(** The UTF-8 bytes of a string. *)
Definition utf8_char (c : N) : list Z :=
  let c := Z.of_N c in
  if c <? 128 then [c]
  else if c <? 2048 then [192 + c / 64; 128 + c mod 64]
  else if c <? 65536 then [224 + c / 4096; 128 + c / 64 mod 64; 128 + c mod 64]
  else [240 + c / 262144; 128 + c / 4096 mod 64; 128 + c / 64 mod 64; 128 + c mod 64].
Definition as_bytes (s : Str) : list Z := s ≫= utf8_char.

(** FNV-1a. *)
Definition stable_hash (input : Str) : Z :=
  foldl (λ hash byte, wrapping_mul (Z.lxor hash byte) 0x100000001b3) 0xcbf29ce484222325
    (as_bytes input).

Section Mesh.
Context {J : Type}.

Record ReactorEnvelope := mkEnvelope {
  global_seq : Seq;
  shard_seq_no : Z;
  e_shard_id : nat;
  e_task : MacrotaskKind J;
}.

Record ReactorBackpressure := mkBackpressure { bp_shard_id : nat; bp_depth : Z; bp_capacity : Z }.

Record ReactorMeshTelemetry := mkMeshTelemetry {
  queue_depths : list Z;
  max_queue_depths : list Z;
  mt_rejected_enqueues : Z;
  shard_bindings : list ReactorShardBinding;
  mt_fallback_reason : option ReactorPlacementFallbackReason;
}.

Record ReactorMesh := mkMesh {
  mesh_seq : Seq;
  lanes : list (SpscLane ReactorEnvelope);
  shard_seq : list Z;
  rr_cursor : Z;
  rejected_enqueues : Z;
  placement_manifest : ReactorPlacementManifest;
}.

Definition mesh_new (config : ReactorMeshConfig) : ReactorMesh :=
  if (cfg_shard_count config =? 0)%nat || (cfg_lane_capacity config =? 0) then
    mkMesh seq_zero [] [] 0 0 (plan 0 (cfg_topology config))
  else
    let count := cfg_shard_count config in
    mkMesh seq_zero (replicate count (lane_new (cfg_lane_capacity config))) (replicate count 0)
      0 0 (plan count (cfg_topology config)).

Definition total_depth (m : ReactorMesh) : Z := foldr (λ l n, lane_len l + n) 0 (lanes m).
Definition mesh_has_pending (m : ReactorMesh) : bool := 0 <? total_depth m.
Definition queue_depth (m : ReactorMesh) (shard : nat) : option Z := lane_len <$> lanes m !! shard.

Definition mesh_telemetry (m : ReactorMesh) : ReactorMeshTelemetry :=
  mkMeshTelemetry (lane_len <$> lanes m) (max_depth <$> lanes m) (rejected_enqueues m)
    (bindings (placement_manifest m)) (pm_fallback_reason (placement_manifest m)).

Definition set_lanes l m := mkMesh (mesh_seq m) l (shard_seq m) (rr_cursor m)
  (rejected_enqueues m) (placement_manifest m).
Definition bump_rejected_enqueues m := mkMesh (mesh_seq m) (lanes m) (shard_seq m) (rr_cursor m)
  (sat_add u64_max (rejected_enqueues m) 1) (placement_manifest m).

Definition next_global_seq (m : ReactorMesh) : Seq * ReactorMesh :=
  (mesh_seq m, mkMesh (seq_next (mesh_seq m)) (lanes m) (shard_seq m) (rr_cursor m)
                 (rejected_enqueues m) (placement_manifest m)).

Definition next_shard_seq (shard : nat) (m : ReactorMesh) : Z * ReactorMesh :=
  match shard_seq m !! shard with
  | None => (0, m)
  | Some sq => (sq, mkMesh (mesh_seq m) (lanes m) (<[shard := sat_add u64_max sq 1]> (shard_seq m))
                      (rr_cursor m) (rejected_enqueues m) (placement_manifest m))
  end.

Definition hash_route (m : ReactorMesh) (call_id : Str) : nat :=
  if len (lanes m) <=? 1 then 0%nat
  else Z.to_nat (stable_hash call_id mod len (lanes m)).

Definition rr_route (m : ReactorMesh) : nat * ReactorMesh :=
  if len (lanes m) <=? 1 then (0%nat, m)
  else (Z.to_nat (rr_cursor m mod len (lanes m)),
        mkMesh (mesh_seq m) (lanes m) (shard_seq m) (wrapping_add (rr_cursor m) 1)
          (rejected_enqueues m) (placement_manifest m)).

Definition enqueue_with_route (shard : nat) (task : MacrotaskKind J) (m : ReactorMesh)
    : ReactorMesh * result ReactorEnvelope ReactorBackpressure :=
  let '(gseq, m) := next_global_seq m in
  let '(sseq, m) := next_shard_seq shard m in
  let envelope := mkEnvelope gseq sseq shard task in
  match lanes m !! shard with
  | None => (bump_rejected_enqueues m, Err (mkBackpressure shard 0 0))
  | Some lane =>
      match lane_push envelope lane with
      | Ok lane' => (set_lanes (<[shard := lane']> (lanes m)) m, Ok envelope)
      | Err depth => (bump_rejected_enqueues m, Err (mkBackpressure shard depth (capacity lane)))
      end
  end.

Definition mesh_enqueue_hostcall_complete (call_id : Str) (outcome : HostcallOutcome J)
    (m : ReactorMesh) : ReactorMesh * result ReactorEnvelope ReactorBackpressure :=
  enqueue_with_route (hash_route m call_id) (HostcallComplete call_id outcome) m.

Definition mesh_enqueue_event (event_id : Str) (payload : J) (m : ReactorMesh)
    : ReactorMesh * result ReactorEnvelope ReactorBackpressure :=
  let '(shard, m) := rr_route m in enqueue_with_route shard (InboundEvent event_id payload) m.

(** The loop of [drain_shard] on its lane. *)
Fixpoint drain_lane (budget : nat) (l : SpscLane ReactorEnvelope)
    : list ReactorEnvelope * SpscLane ReactorEnvelope :=
  match budget with
  | O => ([], l)
  | S b =>
      match lane_pop l with
      | None => ([], l)
      | Some (item, l) => let '(items, l) := drain_lane b l in (item :: items, l)
      end
  end.

Definition drain_shard (shard budget : nat) (m : ReactorMesh) : list ReactorEnvelope * ReactorMesh :=
  match lanes m !! shard with
  | None => ([], m)
  | Some lane =>
      let '(items, lane') := drain_lane budget lane in
      (items, set_lanes (<[shard := lane']> (lanes m)) m)
  end.

(** The scan for the lane whose front has the least global sequence. *)
Fixpoint best_lane (idx : nat) (ls : list (SpscLane ReactorEnvelope)) (best : option (nat * Seq))
    : option (nat * Seq) :=
  match ls with
  | [] => best
  | lane :: ls' =>
      let best :=
        match lane_front lane with
        | None => best
        | Some front =>
            match best with
            | None => Some (idx, global_seq front)
            | Some (_, sq) => if global_seq front <? sq then Some (idx, global_seq front) else best
            end
        end in
      best_lane (S idx) ls' best
  end.

Fixpoint drain_global_order (budget : nat) (m : ReactorMesh) : list ReactorEnvelope * ReactorMesh :=
  match budget with
  | O => ([], m)
  | S b =>
      match best_lane 0 (lanes m) None with
      | None => ([], m)
      | Some (chosen, _) =>
          match lanes m !! chosen with
          | None => ([], m)
          | Some lane =>
              match lane_pop lane with
              | None => drain_global_order b m
              | Some (item, lane') =>
                  let '(items, m') := drain_global_order b (set_lanes (<[chosen := lane']> (lanes m)) m) in
                  (item :: items, m')
              end
          end
      end
  end.

Definition preferred_numa_node (m : ReactorMesh) (shard : nat) : Z :=
  default 0 (numa_node_for_shard (placement_manifest m) shard).

Definition mesh_affinity_advice (e : AffinityEnforcement) (m : ReactorMesh)
    : list ThreadAffinityAdvice := affinity_advice e (placement_manifest m).
End Mesh.
Arguments ReactorEnvelope J : clear implicits.
Arguments ReactorMesh J : clear implicits.

(** * Refinement: one FIFO

    The abstract state of a mesh is one list of envelopes in global order;
    each lane holds the sublist of its shard. *)

Section Refinement.
Context {J : Type}.
Implicit Types (m : ReactorMesh J) (l : list (ReactorEnvelope J)) (e : ReactorEnvelope J).

Definition in_shard (i : nat) e : Prop := e_shard_id e = i.
#[global] Instance in_shard_dec i e : Decision (in_shard i e).
Proof. unfold in_shard. apply _. Defined.

Definition gseq_lt e1 e2 : Prop := global_seq e1 < global_seq e2.

Record mesh_repr m l : Prop := mk_mesh_repr {
  mr_sorted : StronglySorted gseq_lt l;
  mr_seq : Forall (λ e, global_seq e < mesh_seq m) l;
  mr_range : Forall (λ e, (e_shard_id e < length (lanes m))%nat) l;
  mr_lanes : ∀ i lane, lanes m !! i = Some lane → queue lane = filter (in_shard i) l;
  mr_capacity : ∀ i lane, lanes m !! i = Some lane → len (queue lane) ≤ capacity lane;
  mr_shards : length (shard_seq m) = length (lanes m);
}.

Lemma mesh_new_repr config : 0 ≤ cfg_lane_capacity config → mesh_repr (mesh_new config) [].
Proof.
  intros Hc. unfold mesh_new. destruct (_ || _); split; cbn; try constructor; try done.
  - intros i lane [-> _]%lookup_replicate. done.
  - intros i lane [-> _]%lookup_replicate. done.
  - by rw !length_replicate.
Qed.

(** ** Enqueueing *)

Lemma next_shard_seq_frame shard m :
  let m' := (next_shard_seq shard m).2 in
  mesh_seq m' = mesh_seq m ∧ lanes m' = lanes m ∧ length (shard_seq m') = length (shard_seq m).
Proof.
  unfold next_shard_seq. destruct (shard_seq m !! shard); cbn; split_and!; try done.
  apply length_insert.
Qed.

Lemma repr_frame m m' l :
  mesh_repr m l → lanes m' = lanes m → mesh_seq m ≤ mesh_seq m' →
  length (shard_seq m') = length (shard_seq m) → mesh_repr m' l.
Proof.
  intros [Hs Hq Hr Hl Hc Hn] El Es En. split; rw ?El //; [|congruence].
  eapply Forall_impl; [exact Hq|]. cbn. lia.
Qed.

(** The outcome of an enqueue to shard [i]. *)
Definition mesh_enqueued (i : nat) (task : MacrotaskKind J) m l
    (out : ReactorMesh J * result (ReactorEnvelope J) ReactorBackpressure) : Prop :=
  match out.2 with
  | Ok e => e_task e = task ∧ e_shard_id e = i ∧ global_seq e = mesh_seq m ∧
            mesh_repr out.1 (l ++ [e]) ∧
            ∃ lane, lanes m !! i = Some lane ∧ len (filter (in_shard i) l) < capacity lane
  | Err bp => mesh_repr out.1 l ∧ bp_shard_id bp = i ∧
            match lanes m !! i with
            | None => True
            | Some lane => bp_depth bp = len (filter (in_shard i) l) ∧ bp_capacity bp = capacity lane ∧
                           capacity lane = len (filter (in_shard i) l)
            end
  end.

Lemma enqueue_with_route_spec i task m l :
  mesh_repr m l → 0 ≤ mesh_seq m < u64_max →
  mesh_enqueued i task m l (enqueue_with_route i task m).
Proof.
  intros HR Hseq. unfold enqueue_with_route. cbn [next_global_seq].
  set (m0 := mkMesh (seq_next (mesh_seq m)) _ _ _ _ _).
  assert (mesh_seq m0 = mesh_seq m + 1) as Es by (cbn; unfold seq_next; int_lia).
  pose proof (next_shard_seq_frame i m0) as (E1 & E2 & E3).
  destruct (next_shard_seq i m0) as [sseq m1]. cbn in E1, E2, E3. rw E2.
  assert (mesh_repr m1 l) as HR1.
  { eapply repr_frame; [exact HR|done| |done]. change (seq_next (mesh_seq m)) with (mesh_seq m0) in E1. lia. }
  set (e := mkEnvelope (mesh_seq m) sseq i task).
  destruct (lanes m !! i) as [lane|] eqn:El.
  - pose proof (mr_lanes _ _ HR i lane El) as Hq. pose proof (mr_capacity _ _ HR i lane El) as Hcap.
    unfold lane_push. destruct (Z.leb_spec (capacity lane) (len (queue lane))) as [Hf|Hf].
    + cbn. split; [by eapply repr_frame|]. split; [done|]. rw El -Hq. split_and!; [done|done|lia].
    + cbn. split_and!; [done|done|done| |rw -Hq; by exists lane].
      assert (i < length (lanes m))%nat as Hi by (by eapply lookup_lt_Some).
      destruct HR1 as [Hs Hsq Hr Hl Hc Hn]. split; cbn.
      * apply StronglySorted_app_2; [|done|by repeat constructor].
        intros a b Ha ->%list_elem_of_singleton. exact (proj1 (Forall_forall _ _) (mr_seq _ _ HR) a Ha).
      * apply Forall_app. split; [done|]. constructor; [|done]. cbn. rw E1.
        change (seq_next (mesh_seq m)) with (mesh_seq m0). lia.
      * rw length_insert. apply Forall_app. split; [by rw -E2|]. by constructor.
      * intros j lane' Hj. apply list_lookup_insert_Some in Hj as [(<- & <- & _)|[Hne Hj]].
        -- cbn. rw filter_app Hq filter_cons_True //.
        -- rw filter_app filter_cons_False; [|exact Hne]. rw filter_nil app_nil_r.
           apply Hl. by rw E2.
      * intros j lane' Hj. apply list_lookup_insert_Some in Hj as [(<- & <- & _)|[Hne Hj]];
          [cbn; len_lia|]. apply (Hc j). by rw E2.
      * rw length_insert -E2. done.
  - cbn. split; [by eapply repr_frame|]. split; [done|]. by rw El.
Qed.

(** ** Draining in global order *)

(** The scan finds a front whose sequence is least. *)
Lemma best_lane_spec ls idx best :
  match best_lane idx ls best with
  | None => best = None ∧ ∀ lane, lane ∈ ls → queue lane = []
  | Some (i, sq) =>
      (best = Some (i, sq) ∨
       ∃ lane front, ls !! (i - idx)%nat = Some lane ∧ (idx ≤ i)%nat ∧
         lane_front lane = Some front ∧ global_seq front = sq) ∧
      (∀ j sq', best = Some (j, sq') → sq ≤ sq') ∧
      (∀ lane (front : ReactorEnvelope J), lane ∈ ls → lane_front lane = Some front →
         sq ≤ global_seq front)
  end.
Proof.
  revert idx best. induction ls as [|lane ls IH]; intros idx best; cbn [best_lane].
  - destruct best as [[i sq]|].
    + split_and!; [by left|intros j sq' [= -> ->]; lia|]. intros ? ? H%not_elem_of_nil. done.
    + split; [done|]. by intros ? ?%not_elem_of_nil.
  - set (best' := match lane_front lane with None => best | Some _ => _ end).
    specialize (IH (S idx) best').
    assert (lane_front lane = None → queue lane = []) as Hempty.
    { unfold lane_front. by destruct (queue lane). }
    destruct (best_lane (S idx) ls best') as [[i sq]|].
    + destruct IH as (Hfrom & Hbest & Hall).
      assert (∀ j sq', best = Some (j, sq') → sq ≤ sq') as Hb1.
      { intros j sq' ->. unfold best' in Hbest. destruct (lane_front lane) as [f|]; [|by eapply Hbest].
        destruct (Z.ltb_spec (global_seq f) sq') as [Hlt|Hge]; [|by eapply Hbest].
        specialize (Hbest idx (global_seq f) eq_refl). lia. }
      assert (∀ f, lane_front lane = Some f → sq ≤ global_seq f) as Hb2.
      { intros f Hf. unfold best' in Hbest. rw Hf in Hbest. destruct best as [[j sq']|].
        - destruct (Z.ltb_spec (global_seq f) sq') as [Hlt|Hge]; [by eapply Hbest|].
          specialize (Hb1 j sq' eq_refl). specialize (Hbest j sq' eq_refl). lia.
        - by eapply Hbest. }
      split_and!; [|done|].
      * destruct Hfrom as [Hfrom|(lane' & f & Hl & Hi & Hf & Hs)].
        -- unfold best' in Hfrom. destruct (lane_front lane) as [f|] eqn:Ef; [|by left].
           assert (Some (idx, global_seq f) = Some (i, sq) →
             ∃ lane' front, (lane :: ls) !! (i - idx)%nat = Some lane' ∧ (idx ≤ i)%nat ∧
               lane_front lane' = Some front ∧ global_seq front = sq) as Hnew.
           { intros [= <- <-]. exists lane, f. rw Nat.sub_diag. by split_and!. }
           destruct best as [[j sq']|]; [|by right; apply Hnew].
           destruct (global_seq f <? sq'); [by right; apply Hnew|by left].
        -- right. exists lane', f. split_and!; [|lia|done|done].
           replace (i - idx)%nat with (S (i - S idx)) by lia. done.
      * intros lane' f [->|Hin]%elem_of_cons Hf; [by apply Hb2|by eapply Hall].
    + destruct IH as [Hn Hall]. unfold best' in Hn.
      destruct (lane_front lane) as [f|].
      { destruct best as [[j sq']|]; [|done]. by destruct (global_seq f <? sq'). }
      split; [done|]. intros lane' [->|Hin]%elem_of_cons; [by apply Hempty|by apply Hall].
Qed.

Lemma best_lane_nil m : mesh_repr m [] → best_lane 0 (lanes m) None = None.
Proof.
  intros HR. pose proof (best_lane_spec (lanes m) 0 None) as Hb.
  destruct (best_lane 0 (lanes m) None) as [[i sq]|]; [|done].
  destruct Hb as ([?|(lane & f & Hl & _ & Hf & _)] & _); [done|].
  rw Nat.sub_0_r in Hl. unfold lane_front in Hf. by rw (mr_lanes _ _ HR _ _ Hl) in Hf.
Qed.

Lemma head_lane m e l :
  mesh_repr m (e :: l) →
  ∃ lane, lanes m !! e_shard_id e = Some lane ∧
          queue lane = e :: filter (in_shard (e_shard_id e)) l.
Proof.
  intros HR. pose proof (mr_range _ _ HR) as Hr. apply Forall_cons in Hr as [Hr _].
  apply lookup_lt_is_Some in Hr as [lane Hl]. exists lane. split; [done|].
  rw (mr_lanes _ _ HR _ _ Hl) filter_cons_True //.
Qed.

(** The scan chooses the lane of the oldest envelope. *)
Lemma best_lane_head m e l :
  mesh_repr m (e :: l) → best_lane 0 (lanes m) None = Some (e_shard_id e, global_seq e).
Proof.
  intros HR. destruct (head_lane m e l HR) as (lane0 & Hl0 & Hq0).
  pose proof (best_lane_spec (lanes m) 0 None) as Hb.
  destruct (best_lane 0 (lanes m) None) as [[i sq]|].
  - destruct Hb as ([?|(lane & f & Hl & _ & Hf & Hsq)] & _ & Hmin); [done|]. rw Nat.sub_0_r in Hl.
    assert (sq ≤ global_seq e) as Hle.
    { apply (Hmin lane0 e); [exact (list_elem_of_lookup_2 _ _ _ Hl0)|]. unfold lane_front. by rw Hq0. }
    unfold lane_front in Hf. rw (mr_lanes _ _ HR _ _ Hl) in Hf.
    assert (f ∈ filter (in_shard i) (e :: l)) as Hfin.
    { destruct (filter (in_shard i) (e :: l)); [done|]. injection Hf as ->. by left. }
    apply list_elem_of_filter in Hfin as [Hsh Hfin]. unfold in_shard in Hsh.
    apply elem_of_cons in Hfin as [->|Hfin]; [by subst|].
    pose proof (mr_sorted _ _ HR) as Hs. apply StronglySorted_inv in Hs as [_ Hs].
    pose proof (proj1 (Forall_forall _ _) Hs f Hfin) as Hlt. unfold gseq_lt in Hlt. lia.
  - destruct Hb as [_ Hb]. rw Hb in Hq0; [done|by eapply list_elem_of_lookup_2].
Qed.

(** Removing envelopes of one shard from the front of its lane. *)
Lemma repr_lane_update m l l' i lane lane' :
  mesh_repr m l → lanes m !! i = Some lane →
  l' `sublist_of` l → (∀ j, j ≠ i → filter (in_shard j) l' = filter (in_shard j) l) →
  queue lane' = filter (in_shard i) l' → capacity lane' = capacity lane →
  mesh_repr (set_lanes (<[i := lane']> (lanes m)) m) l'.
Proof.
  intros [Hs Hsq Hr Hl Hc Hn] Hi Hsub Hother Hq Hcap. split; cbn.
  - by eapply StronglySorted_sublist.
  - by eapply Forall_sublist.
  - rw length_insert. by eapply Forall_sublist.
  - intros j lj Hj. apply list_lookup_insert_Some in Hj as [(<- & <- & _)|[Hne Hj]]; [done|].
    rw Hother; [|done]. by apply Hl.
  - intros j lj Hj. apply list_lookup_insert_Some in Hj as [(<- & <- & _)|[Hne Hj]];
      [|by apply (Hc j)].
    rw Hcap. etrans; [|exact (Hc i lane Hi)]. rw Hq (Hl i lane Hi). by apply filter_sublist_le.
  - by rw length_insert.
Qed.

Lemma drain_global_step m e l :
  mesh_repr m (e :: l) →
  ∃ lane lane', lanes m !! e_shard_id e = Some lane ∧ lane_pop lane = Some (e, lane') ∧
    mesh_repr (set_lanes (<[e_shard_id e := lane']> (lanes m)) m) l.
Proof.
  intros HR. destruct (head_lane m e l HR) as (lane & Hl & Hq).
  exists lane, (mkLane (capacity lane) (filter (in_shard (e_shard_id e)) l) (max_depth lane)).
  split; [done|]. split; [unfold lane_pop; by rw Hq|].
  apply (repr_lane_update m (e :: l) l _ lane); [done|done| | |done|done].
  - by apply sublist_cons.
  - intros j Hj. rw filter_cons_False //. exact (not_eq_sym Hj).
Qed.

Lemma drain_global_spec budget m l :
  mesh_repr m l →
  (drain_global_order budget m).1 = take budget l ∧
  mesh_repr (drain_global_order budget m).2 (drop budget l).
Proof.
  revert m l. induction budget as [|b IH]; intros m l HR; [done|]. cbn [drain_global_order].
  destruct l as [|e l].
  - by rw (best_lane_nil _ HR).
  - rw (best_lane_head m e l HR).
    destruct (drain_global_step m e l HR) as (lane & lane' & -> & -> & HR').
    specialize (IH _ _ HR'). destruct (drain_global_order b _) as [items m']. cbn in *.
    destruct IH as [-> ?]. done.
Qed.

(** ** Draining one shard *)

Fixpoint skip_shard (i : nat) (n : nat) l : list (ReactorEnvelope J) :=
  match n, l with
  | O, _ => l
  | _, [] => []
  | S n', e :: l' => if decide (in_shard i e) then skip_shard i n' l' else e :: skip_shard i n l'
  end.

Lemma skip_shard_nil i n : skip_shard i n [] = [].
Proof. by destruct n. Qed.

Lemma skip_shard_sublist i n l : skip_shard i n l `sublist_of` l.
Proof.
  revert n. induction l as [|e l IH]; intros [|n]; cbn; try done.
  case_decide; [by apply sublist_cons|]. by apply sublist_skip.
Qed.

Lemma skip_shard_same i n l : filter (in_shard i) (skip_shard i n l) = drop n (filter (in_shard i) l).
Proof.
  revert n. induction l as [|e l IH]; intros [|n]; cbn [skip_shard]; rw ?drop_0 ?filter_nil ?drop_nil //.
  case_decide as E; [rw (filter_cons_True _ e) //; apply IH|].
  rw !(filter_cons_False _ e) //.
Qed.

Lemma skip_shard_other i j n l :
  j ≠ i → filter (in_shard j) (skip_shard i n l) = filter (in_shard j) l.
Proof.
  intros Hne. revert n. induction l as [|e l IH]; intros [|n]; cbn [skip_shard]; try done.
  case_decide as E.
  - rw IH filter_cons_False //. unfold in_shard in *. congruence.
  - rw !filter_cons IH. done.
Qed.

Lemma drain_lane_spec b (lane : SpscLane (ReactorEnvelope J)) :
  drain_lane b lane =
  (take b (queue lane), mkLane (capacity lane) (drop b (queue lane)) (max_depth lane)).
Proof.
  revert lane. induction b as [|b IH]; intros [c q d]; cbn; [by rw drop_0|].
  destruct q as [|e q]; cbn; [done|]. by rw IH.
Qed.

Lemma drain_shard_spec i b m l :
  mesh_repr m l →
  (drain_shard i b m).1 = take b (filter (in_shard i) l) ∧
  mesh_repr (drain_shard i b m).2 (skip_shard i b l).
Proof.
  intros HR. unfold drain_shard. destruct (lanes m !! i) as [lane|] eqn:El.
  - rw drain_lane_spec. pose proof (mr_lanes _ _ HR i lane El) as Hq. cbn [fst snd]. split; [by rw Hq|].
    apply (repr_lane_update m l _ i lane); [done|done|apply skip_shard_sublist| | |done].
    + intros j Hj. by apply skip_shard_other.
    + cbn. by rw skip_shard_same Hq.
  - assert (filter (in_shard i) l = []) as Hn.
    { apply filter_none. intros e He Hi. unfold in_shard in Hi. apply lookup_ge_None in El.
      pose proof (proj1 (Forall_forall _ _) (mr_range _ _ HR) e He) as Hr. cbn in Hr. lia. }
    rw Hn take_nil. cbn. split; [done|].
    assert (skip_shard i b l = l) as ->; [|done].
    clear -Hn. revert b. induction l as [|e l IH]; intros [|b]; cbn [skip_shard]; try done.
    rw filter_cons in Hn. case_decide; [done|]. by rw IH.
Qed.

(** ** Runs *)

Inductive mesh_step : ReactorMesh J → ReactorMesh J → Prop :=
| mstep_hostcall c o m : mesh_step m (mesh_enqueue_hostcall_complete c o m).1
| mstep_event ev p m : mesh_step m (mesh_enqueue_event ev p m).1
| mstep_shard i b m : mesh_step m (drain_shard i b m).2
| mstep_global b m : mesh_step m (drain_global_order b m).2.

(** The shape of the mesh: the configured lanes. *)
Definition lane_caps m : list Z := capacity <$> lanes m.

Lemma insert_lane_caps m i (lane lane' : SpscLane (ReactorEnvelope J)) :
  lanes m !! i = Some lane → capacity lane' = capacity lane →
  capacity <$> <[i := lane']> (lanes m) = lane_caps m.
Proof.
  intros Hi Hc. rw list_fmap_insert Hc. apply list_insert_id. by rw list_lookup_fmap Hi.
Qed.

Lemma enqueue_frame i task m :
  lane_caps (enqueue_with_route i task m).1 = lane_caps m ∧
  mesh_seq (enqueue_with_route i task m).1 = seq_next (mesh_seq m).
Proof.
  unfold enqueue_with_route. cbn [next_global_seq].
  set (m0 := mkMesh (seq_next (mesh_seq m)) _ _ _ _ _).
  pose proof (next_shard_seq_frame i m0) as (E1 & E2 & _).
  destruct (next_shard_seq i m0) as [sseq m1]. cbn in E1, E2.
  assert (lane_caps m1 = lane_caps m) as Ec by (unfold lane_caps; by rw E2).
  destruct (lanes m1 !! i) as [lane|] eqn:El; [|done]. unfold lane_push.
  destruct (_ <=? _); cbn; [done|]. split; [|done]. rw -Ec. by apply (insert_lane_caps m1 i lane).
Qed.

Lemma drain_global_frame b m :
  lane_caps (drain_global_order b m).2 = lane_caps m ∧
  mesh_seq (drain_global_order b m).2 = mesh_seq m.
Proof.
  revert m. induction b as [|b IH]; intros m; [done|]. cbn [drain_global_order].
  destruct (best_lane 0 (lanes m) None) as [[i sq]|]; [|done].
  destruct (lanes m !! i) as [lane|] eqn:El; [|done].
  unfold lane_pop. destruct (queue lane) as [|e q]; [done|].
  set (m1 := set_lanes _ m). specialize (IH m1).
  destruct (drain_global_order b m1) as [items m']. cbn in *. destruct IH as [Hc Hs]. split; [|done].
  rw Hc. by apply (insert_lane_caps m i lane).
Qed.

Lemma drain_shard_frame i b m :
  lane_caps (drain_shard i b m).2 = lane_caps m ∧ mesh_seq (drain_shard i b m).2 = mesh_seq m.
Proof.
  unfold drain_shard. destruct (lanes m !! i) as [lane|] eqn:El; [|done].
  rw drain_lane_spec. cbn. split; [|done]. by apply (insert_lane_caps m i lane).
Qed.

Lemma rr_route_frame m :
  let m' := (rr_route m).2 in
  lanes m' = lanes m ∧ mesh_seq m' = mesh_seq m ∧ shard_seq m' = shard_seq m.
Proof. unfold rr_route. by destruct (_ <=? _). Qed.

Definition mesh_ok (caps : list Z) m : Prop :=
  0 ≤ mesh_seq m ≤ u64_max ∧ lane_caps m = caps ∧ (mesh_seq m < u64_max → ∃ l, mesh_repr m l).

Lemma enqueue_ok caps i task m : mesh_ok caps m → mesh_ok caps (enqueue_with_route i task m).1.
Proof.
  intros (Hs & Hc & HR). destruct (enqueue_frame i task m) as [Hc' Hs'].
  split; [rw Hs'; unfold seq_next; int_lia|]. split; [congruence|]. intros Hlt.
  rw Hs' in Hlt. unfold seq_next in Hlt.
  assert (0 ≤ mesh_seq m < u64_max) as Hm by int_lia. destruct HR as [l HR]; [lia|].
  pose proof (enqueue_with_route_spec i task m l HR Hm) as Hout. unfold mesh_enqueued in Hout.
  destruct (enqueue_with_route i task m).2; [destruct Hout as (_ & _ & _ & ? & _)|destruct Hout as [? _]];
    eauto.
Qed.

Lemma rr_route_ok caps m : mesh_ok caps m → mesh_ok caps (rr_route m).2.
Proof.
  destruct (rr_route_frame m) as (E1 & E2 & E3). intros (Hs & Hc & HR).
  split; [by rw E2|]. split; [unfold lane_caps; by rw E1|]. rw E2. intros [l Hl]%HR. exists l.
  eapply repr_frame; [exact Hl|done|lia|congruence].
Qed.

Lemma mesh_step_ok caps m m' : mesh_ok caps m → mesh_step m m' → mesh_ok caps m'.
Proof.
  intros HM Hst. destruct Hst as [c o m|ev p m|i b m|b m].
  - by apply enqueue_ok.
  - unfold mesh_enqueue_event. pose proof (rr_route_ok caps m HM) as HM'.
    destruct (rr_route m) as [i m1]. by apply enqueue_ok.
  - destruct HM as (Hs & Hc & HR). destruct (drain_shard_frame i b m) as [Ec Es].
    split; [by rw Es|]. split; [congruence|]. rw Es. intros [l Hl]%HR. eexists.
    by apply (drain_shard_spec i b).
  - destruct HM as (Hs & Hc & HR). destruct (drain_global_frame b m) as [Ec Es].
    split; [by rw Es|]. split; [congruence|]. rw Es. intros [l Hl]%HR. eexists.
    by apply (drain_global_spec b).
Qed.

Lemma mesh_new_ok config :
  0 ≤ cfg_lane_capacity config → mesh_ok (lane_caps (mesh_new config)) (mesh_new config).
Proof.
  intros Hc. split; [unfold mesh_new; destruct (_ || _); cbn; unfold seq_zero; int_lia|]. split; [done|].
  intros _. exists []. by apply mesh_new_repr.
Qed.

Lemma mesh_reachable config m :
  0 ≤ cfg_lane_capacity config → rtc mesh_step (mesh_new config) m →
  mesh_ok (lane_caps (mesh_new config)) m.
Proof.
  intros Hc Hr. eapply (rtc_preserves mesh_step); [apply mesh_step_ok|exact Hr|by apply mesh_new_ok].
Qed.
End Refinement.

(** C35: the mesh is one FIFO spread over shards.  A reachable mesh, while
    its 64-bit sequence counter is not used up, stands for one list of
    envelopes in strictly increasing global sequence, of which each lane holds
    its shard's sublist within its capacity; an accepted enqueue appends its
    envelope to that list; [drain_global_order] returns
    and removes the first [budget] envelopes of the list; [drain_shard]
    returns and removes the first [budget] of its shard and leaves the others
    in order. *)
Theorem mesh_refines_fifo {J} config (m : ReactorMesh J) :
  0 ≤ cfg_lane_capacity config → rtc mesh_step (mesh_new config) m → mesh_seq m < u64_max →
  ∃ l, mesh_repr m l ∧
    (∀ i task, match (enqueue_with_route i task m).2 with
               | Ok e => mesh_repr (enqueue_with_route i task m).1 (l ++ [e]) ∧ e_task e = task ∧
                         global_seq e = mesh_seq m ∧ e_shard_id e = i
               | Err _ => mesh_repr (enqueue_with_route i task m).1 l
               end) ∧
    (∀ b, (drain_global_order b m).1 = take b l ∧
          mesh_repr (drain_global_order b m).2 (drop b l)) ∧
    (∀ i b, (drain_shard i b m).1 = take b (filter (in_shard i) l) ∧
            mesh_repr (drain_shard i b m).2 (skip_shard i b l)).
Proof.
  intros Hc Hr Hlt. destruct (mesh_reachable config m Hc Hr) as (Hs & _ & [l HR]); [done|].
  exists l. split; [done|]. split; [|split].
  - intros i task. assert (0 ≤ mesh_seq m < u64_max) as Hm by lia.
    pose proof (enqueue_with_route_spec i task m l HR Hm) as Hout. unfold mesh_enqueued in Hout.
    by destruct (enqueue_with_route i task m).2;
      [destruct Hout as (? & ? & ? & ? & _)|destruct Hout as [? _]].
  - intros b. by apply drain_global_spec.
  - intros i b. by apply drain_shard_spec.
Qed.

Lemma mesh_refines_fifo_witness :
  let m0 := mesh_new (mkMeshConfig 2 4 None) : ReactorMesh Z in
  let m := (mesh_enqueue_event (str "b") 2 (mesh_enqueue_event (str "a") 1 m0).1).1 in
  (e_task <$> (drain_global_order 5 m).1) = [InboundEvent (str "a") 1; InboundEvent (str "b") 2] ∧
  ∃ l, mesh_repr m l.
Proof.
  intros m0 m. split; [vm_compute; reflexivity|].
  destruct (mesh_refines_fifo (mkMeshConfig 2 4 None) m) as (l & HR & _);
    [vm_compute; discriminate| |vm_compute; reflexivity|by exists l].
  eapply rtc_l; [apply (mstep_event (str "a") 1)|]. apply rtc_once, mstep_event.
Defined.

(** ** Routing and backpressure *)

Lemma caps_lookup {J} config (m : ReactorMesh J) i lane :
  lane_caps m = lane_caps (mesh_new config : ReactorMesh J) → lanes m !! i = Some lane →
  capacity lane = cfg_lane_capacity config.
Proof.
  intros Hc Hi. assert (lane_caps m !! i = Some (capacity lane)) as Hl.
  { unfold lane_caps. by rw list_lookup_fmap Hi. }
  rw Hc in Hl. unfold mesh_new, lane_caps in Hl. destruct (_ || _); cbn in Hl; [done|].
  rw fmap_replicate in Hl. apply lookup_replicate in Hl as [-> _]. done.
Qed.

Lemma mesh_new_lanes {J} config :
  (1 ≤ cfg_shard_count config)%nat → 1 ≤ cfg_lane_capacity config →
  length (lanes (mesh_new config : ReactorMesh J)) = cfg_shard_count config.
Proof.
  intros Hn Hc. unfold mesh_new.
  rw (proj2 (Nat.eqb_neq _ _)); [|lia]. rw (proj2 (Z.eqb_neq _ _)); [|lia].
  cbn. apply length_replicate.
Qed.

Lemma caps_length {J} (m m' : ReactorMesh J) :
  lane_caps m = lane_caps m' → length (lanes m) = length (lanes m').
Proof. intros Hc%(f_equal length). unfold lane_caps in Hc. by rw !length_fmap in Hc. Qed.

(** In a mesh with at least one shard and lane slot, a call id is hashed
    to the same existing shard in every reachable state, events go round
    robin over the existing shards, and an enqueue to a shard signals
    backpressure exactly when that shard's lane holds as many envelopes as
    its configured capacity. *)
Theorem mesh_routing_and_backpressure {J} config (m : ReactorMesh J) call_id :
  (1 ≤ cfg_shard_count config)%nat → 1 ≤ cfg_lane_capacity config →
  rtc mesh_step (mesh_new config) m → mesh_seq m < u64_max →
  let n := cfg_shard_count config in
  hash_route m call_id = hash_route (mesh_new config : ReactorMesh J) call_id ∧
  (hash_route m call_id < n)%nat ∧
  Z.of_nat (rr_route m).1 = rr_cursor m mod Z.of_nat n ∧ ((rr_route m).1 < n)%nat ∧
  ∀ i task, (i < n)%nat →
    (∃ bp, (enqueue_with_route i task m).2 = Err bp) ↔
    queue_depth m i = Some (cfg_lane_capacity config).
Proof.
  intros Hn Hc Hr Hlt n. assert (0 ≤ cfg_lane_capacity config) as Hc0 by lia.
  destruct (mesh_reachable config m Hc0 Hr) as (Hs & Hcaps & [l HR]); [done|].
  pose proof (caps_length _ _ Hcaps) as Hlen. rw (mesh_new_lanes config Hn Hc) in Hlen. fold n in Hlen.
  assert (len (lanes m) = Z.of_nat n) as Hlenz by (unfold len; lia).
  assert (∀ x, (Z.to_nat (x mod Z.of_nat n) < n)%nat) as Hmod.
  { intros x. pose proof (Z.mod_pos_bound x (Z.of_nat n)). lia. }
  split; [unfold hash_route, len; by rw Hlen (mesh_new_lanes config Hn Hc)|].
  split; [unfold hash_route; rw Hlenz; destruct (_ <=? _); [lia|apply Hmod]|].
  split; [|split].
  - unfold rr_route. rw Hlenz. destruct (Z.leb_spec (Z.of_nat n) 1); cbn.
    + replace (Z.of_nat n) with 1 by lia. by rw Z.mod_1_r.
    + pose proof (Z.mod_pos_bound (rr_cursor m) (Z.of_nat n)). lia.
  - unfold rr_route. rw Hlenz. destruct (_ <=? _); cbn; [lia|apply Hmod].
  - intros i task Hi. assert (is_Some (lanes m !! i)) as [lane El] by (apply lookup_lt_is_Some; lia).
    assert (0 ≤ mesh_seq m < u64_max) as Hm by lia.
    pose proof (enqueue_with_route_spec i task m l HR Hm) as Hout. unfold mesh_enqueued in Hout.
    pose proof (caps_lookup config m i lane Hcaps El) as Hcap. pose proof (mr_lanes _ _ HR i lane El) as Hq.
    unfold queue_depth, lane_len. rw El /= Hq.
    destruct (enqueue_with_route i task m).2 as [e|bp].
    + destruct Hout as (_ & _ & _ & _ & lane' & El' & Hroom). simplify_eq.
      split; [by intros [? ?]|]. intros [= E]. lia.
    + destruct Hout as (_ & _ & Hfull). rw El in Hfull. destruct Hfull as (_ & _ & Hfull).
      split; [|by exists bp]. intros _. f_equal. lia.
Qed.

Lemma mesh_routing_and_backpressure_witness :
  let m := (mesh_enqueue_event (str "a") 1 (mesh_new (mkMeshConfig 2 1 None) : ReactorMesh Z)).1 in
  queue_depth m 0 = Some 1 ∧
  ∃ bp, (enqueue_with_route 0 (InboundEvent (str "b") 2) m).2 = Err bp.
Proof.
  intros m. split; [vm_compute; reflexivity|].
  apply (mesh_routing_and_backpressure (mkMeshConfig 2 1 None) m []);
    [cbn; lia|vm_compute; discriminate|apply rtc_once, mstep_event|vm_compute; reflexivity|cbn; lia|].
  vm_compute. reflexivity.
Defined.

(** ** Placement *)

Lemma elem_of_dedup {A} `{EqDecision A} (l : list A) x : x ∈ dedup l ↔ x ∈ l.
Proof.
  induction l as [|y l IH]; [done|]. cbn [dedup]. rw elem_of_cons -IH.
  destruct (dedup l) as [|z r]; [by rw list_elem_of_singleton elem_of_nil; naive_solver|].
  case_decide; subst; rw ?elem_of_cons; naive_solver.
Qed.

Lemma dedup_sorted (l : list Z) : StronglySorted Z.le l → StronglySorted Z.lt (dedup l).
Proof.
  induction 1 as [|x l Hl IH Hx]; [constructor|]. cbn [dedup].
  destruct (dedup l) as [|y r] eqn:E; [by repeat constructor|].
  case_decide as Hxy; [done|]. apply StronglySorted_inv in IH as [Hr Hy].
  assert (y ∈ l) as Hin by (apply elem_of_dedup; rw E; by left).
  pose proof (proj1 (Forall_forall _ _) Hx y Hin) as Hle. cbn in Hle.
  constructor; [by constructor|]. constructor; [lia|]. eapply Forall_impl; [exact Hy|]. cbn. lia.
Qed.

Lemma sort_dedup_sorted l : StronglySorted Z.lt (sort_dedup l).
Proof. apply dedup_sorted, StronglySorted_merge_sort; apply _. Qed.

Lemma elem_of_sort_dedup l x : x ∈ sort_dedup l ↔ x ∈ l.
Proof. unfold sort_dedup. by rw elem_of_dedup (merge_sort_Permutation Z.le l). Qed.

Lemma sort_dedup_nodup l : NoDup (sort_dedup l).
Proof. apply (StronglySorted_irrefl_NoDup Z.lt); [lia|apply sort_dedup_sorted]. Qed.

(** The grouping holds exactly the cores, under strictly increasing nodes. *)
Definition grouped (m : list (Z * list Z)) (node core : Z) : Prop :=
  ∃ cs, (node, cs) ∈ m ∧ core ∈ cs.

Lemma node_push_elem node core m n c :
  grouped (node_push node core m) n c ↔ grouped m n c ∨ n = node ∧ c = core.
Proof.
  unfold grouped. induction m as [|[k cs] m IH]; cbn [node_push].
  - setoid_rewrite list_elem_of_singleton. setoid_rewrite elem_of_nil. split.
    + intros (? & [= -> ->] & ->%list_elem_of_singleton). by right.
    + intros [(? & [] & _)|[-> ->]]. exists [core]. split; [done|by left].
  - destruct (Z.ltb_spec node k) as [Hlt|Hge]; [|destruct (Z.eqb_spec node k) as [->|Hne]].
    + setoid_rewrite elem_of_cons at 1. split.
      * intros (? & [[= -> ->]|Hin] & Hc); [right; by apply list_elem_of_singleton in Hc|left; eauto].
      * intros [(cs' & Hin & Hc)|[-> ->]]; [eauto|]. exists [core]. split; [by left|by left].
    + setoid_rewrite elem_of_cons. split.
      * intros (? & [[= -> ->]|Hin] & Hc); [|left; eauto].
        apply elem_of_app in Hc as [Hc| ->%list_elem_of_singleton]; [left; eauto|by right].
      * intros [(cs' & [[= -> ->]|Hin] & Hc)|[-> ->]]; [|eauto|].
        -- eexists. split; [by left|]. apply elem_of_app. by left.
        -- eexists. split; [by left|]. apply elem_of_app. right. by left.
    + setoid_rewrite elem_of_cons. split.
      * intros (cs' & [[= -> ->]|Hin] & Hc); [left; eauto|].
        destruct (proj1 IH) as [(cs2 & ? & ?)|?]; [eauto|left; eauto|by right].
      * intros [(cs' & [[= -> ->]|Hin] & Hc)|Hn]; [eauto|..];
          (destruct (proj2 IH) as (cs2 & ? & ?); [eauto|eauto]).
Qed.

Lemma node_push_keys node core m :
  StronglySorted Z.lt m.*1 → StronglySorted Z.lt (node_push node core m).*1 ∧
  ∀ k, k ∈ (node_push node core m).*1 ↔ k = node ∨ k ∈ m.*1.
Proof.
  induction m as [|[k cs] m IH]; intros Hs; cbn [node_push].
  - split; [by repeat constructor|]. intros k. cbn. by rw list_elem_of_singleton elem_of_nil; naive_solver.
  - apply StronglySorted_inv in Hs as [Hs Hk]. cbn in Hk, Hs.
    destruct (Z.ltb_spec node k) as [Hlt|Hge]; [|destruct (Z.eqb_spec node k) as [->|Hne]]; cbn.
    + split; [|intros x; by rw !elem_of_cons].
      constructor; [by constructor|]. constructor; [done|]. eapply Forall_impl; [exact Hk|]. cbn. lia.
    + split; [by constructor|]. intros x. rw !elem_of_cons. naive_solver.
    + destruct (IH Hs) as [Hs' He]. split.
      * constructor; [done|]. apply Forall_forall. intros x [->|Hx]%He; [lia|].
        exact (proj1 (Forall_forall _ _) Hk x Hx).
      * intros x. rw !elem_of_cons He. naive_solver.
Qed.

Lemma group_by_node_spec l :
  StronglySorted Z.lt (group_by_node l).*1 ∧
  ∀ n c, grouped (group_by_node l) n c ↔ mkCore c n ∈ l.
Proof.
  unfold group_by_node. induction l as [|[c0 n0] l [IHs IHe]] using rev_ind.
  - split; [constructor|]. intros n c. rw elem_of_nil. split; [|done].
    by intros (? & ?%not_elem_of_nil & _).
  - rw foldl_app. cbn. split; [by apply node_push_keys|]. intros n c.
    rw node_push_elem IHe elem_of_app list_elem_of_singleton. naive_solver.
Qed.

Lemma elem_of_plan_nodes l node cs :
  (node, cs) ∈ plan_nodes l →
  cs ≠ [] ∧ NoDup cs ∧ ∀ c, c ∈ cs → mkCore c node ∈ l.
Proof.
  unfold plan_nodes. intros [Hne ([n cs0] & [= -> ->] & Hin)%list_elem_of_fmap]%list_elem_of_filter.
  split; [done|]. split; [apply sort_dedup_nodup|]. intros c Hc.
  apply (proj2 (group_by_node_spec l)). exists cs0. split; [exact Hin|]. by apply elem_of_sort_dedup.
Qed.

Lemma plan_nodes_keys l : NoDup (plan_nodes l).*1.
Proof.
  unfold plan_nodes. apply NoDup_fmap_filter. rw -list_fmap_compose.
  apply (StronglySorted_irrefl_NoDup Z.lt); [lia|]. exact (proj1 (group_by_node_spec l)).
Qed.

Lemma plan_nodes_nonempty l : l ≠ [] → plan_nodes l ≠ [].
Proof.
  destruct l as [|[c n] l]; [done|]. intros _ Hn.
  destruct (proj2 (group_by_node_spec (mkCore c n :: l)) n c) as [_ (cs & Hin & Hc)]; [by left|].
  assert ((n, sort_dedup cs) ∈ plan_nodes (mkCore c n :: l)) as Hp.
  { apply list_elem_of_filter. split; [|apply list_elem_of_fmap; by exists (n, cs)].
    cbn. intros He. apply (proj2 (elem_of_sort_dedup _ _)) in Hc. rw He in Hc. by apply not_elem_of_nil in Hc. }
  rw Hn in Hp. by apply not_elem_of_nil in Hp.
Qed.

(** The binding of a shard: its node by round robin, its core among the
    node's cores. *)
Lemma bind_shard_spec nodes i :
  nodes ≠ [] → (∀ n cs, (n, cs) ∈ nodes → cs ≠ []) →
  ∃ n cs c, nodes !! (i mod length nodes)%nat = Some (n, cs) ∧
    cs !! ((i / length nodes) mod length cs)%nat = Some c ∧ bind_shard nodes i = mkBinding i c n.
Proof.
  intros Hn Hcs. assert (length nodes ≠ 0%nat) as Hl by (by destruct nodes).
  assert (is_Some (nodes !! (i mod length nodes)%nat)) as [[n cs] Hi].
  { apply lookup_lt_is_Some. by apply Nat.mod_upper_bound. }
  assert (length cs ≠ 0%nat) as Hc.
  { assert (cs ≠ []) by (eapply Hcs; by eapply list_elem_of_lookup_2). by destruct cs. }
  assert (is_Some (cs !! ((i / length nodes) mod length cs)%nat)) as [c Hci].
  { apply lookup_lt_is_Some. by apply Nat.mod_upper_bound. }
  exists n, cs, c. split_and!; [done|done|]. unfold bind_shard. by rw Hi Hci.
Qed.

(** Same remainder and same quotient modulo [k]: at least [n * k] apart. *)
Lemma shards_apart n k i j :
  n ≠ 0%nat → k ≠ 0%nat → (i < j)%nat → (i mod n = j mod n)%nat →
  ((i / n) mod k = (j / n) mod k)%nat → (i + n * k ≤ j)%nat.
Proof.
  intros Hn Hk Hij Hm Hq.
  pose proof (Nat.div_mod_eq i n) as Hi. pose proof (Nat.div_mod_eq j n) as Hj.
  pose proof (Nat.div_mod_eq (i / n) k) as Hqi. pose proof (Nat.div_mod_eq (j / n) k) as Hqj.
  rw Hm in Hi. rw Hq in Hqi. set (a := (i / n)%nat) in *. set (b := (j / n)%nat) in *.
  set (qa := (a / k)%nat) in *. set (qb := (b / k)%nat) in *.
  assert (a < b)%nat by nia. assert (qa < qb)%nat by nia. nia.
Qed.

(** The placement plan of a non-empty topology binds every shard, in
    order, to a core and node that exist in the topology, spreads the shards
    round robin over the nodes, and reuses a core only after every core of
    its node was used: two shards on one core are at least (nodes) * (cores
    of the node) apart. *)
Theorem plan_binds_all_shards count t :
  (1 ≤ count)%nat → cores t ≠ [] →
  let p := plan count (Some t) in
  let nodes := plan_nodes (cores t) in
  length (bindings p) = count ∧ numa_node_count p = length nodes ∧
  (∀ i, (i < count)%nat → ∃ b, bindings p !! i = Some b ∧ b_shard_id b = i ∧
     mkCore (b_core_id b) (b_numa_node b) ∈ cores t ∧
     nodes.*1 !! (i mod length nodes)%nat = Some (b_numa_node b)) ∧
  (∀ i j b b' cs, (i < j)%nat → bindings p !! i = Some b → bindings p !! j = Some b' →
     b_numa_node b = b_numa_node b' → b_core_id b = b_core_id b' →
     (b_numa_node b, cs) ∈ nodes → (i + length nodes * length cs ≤ j)%nat).
Proof.
  intros Hcount Hne p nodes. pose proof (plan_nodes_nonempty _ Hne) as Hn. fold nodes in Hn.
  assert (∀ n cs, (n, cs) ∈ nodes → cs ≠ []) as Hcs.
  { intros n cs Hin. by apply elem_of_plan_nodes in Hin as [? _]. }
  assert (bindings p = bind_shard nodes <$> List.seq 0 count ∧ numa_node_count p = length nodes) as [Hb Hnc].
  { revert Hn Hne. unfold p, nodes, plan. destruct count as [|count]; [lia|].
    destruct (cores t) as [|x l]; [done|]. by destruct (plan_nodes (x :: l)). }
  assert (∀ i b, bindings p !! i = Some b → b = bind_shard nodes i) as Hlk.
  { intros i b. rw Hb list_lookup_fmap fmap_Some. intros (x & [Hx _]%lookup_seq & ->). by rw Hx. }
  split; [by rw Hb length_fmap length_seq|]. split; [done|]. split.
  - intros i Hi. destruct (bind_shard_spec nodes i Hn Hcs) as (n & cs & c & Hni & Hci & Heq).
    exists (bind_shard nodes i). rw Hb list_lookup_fmap lookup_seq_lt //=. rw Heq /=. split_and!; [done|done| |].
    + eapply elem_of_plan_nodes; by eapply list_elem_of_lookup_2.
    + by rw list_lookup_fmap Hni.
  - intros i j b b' cs Hij Hbi%Hlk Hbj%Hlk En Ec Hin. subst b b'.
    destruct (bind_shard_spec nodes i Hn Hcs) as (n1 & cs1 & c1 & Hni & Hci & Heq1).
    destruct (bind_shard_spec nodes j Hn Hcs) as (n2 & cs2 & c2 & Hnj & Hcj & Heq2).
    rw Heq1 in En, Ec, Hin. rw Heq2 in En, Ec. cbn in En, Ec, Hin. subst n2 c2.
    pose proof (plan_nodes_keys (cores t)) as Hk. fold nodes in Hk.
    assert ((i mod length nodes) = (j mod length nodes))%nat as Emod.
    { eapply NoDup_lookup; [exact Hk|..]; rw list_lookup_fmap ?Hni ?Hnj //. }
    rw -Emod Hni in Hnj. injection Hnj as <-.
    assert ((n1, cs) = (n1, cs1)) as [= ->].
    { eapply NoDup_fmap_eq; [exact Hk|done|by eapply list_elem_of_lookup_2|done]. }
    apply shards_apart; [by destruct nodes|by destruct cs1|done|done|].
    eapply NoDup_lookup; [|exact Hci|exact Hcj].
    eapply elem_of_plan_nodes. by eapply list_elem_of_lookup_2.
Qed.

Lemma plan_binds_all_shards_witness :
  let t := from_core_node_pairs [(0, 0); (1, 0); (2, 1); (3, 1)] in
  b_core_id <$> bindings (plan 4 (Some t)) = [0; 2; 1; 3] ∧
  length (bindings (plan 4 (Some t))) = 4%nat.
Proof.
  intros t. split; [vm_compute; reflexivity|].
  apply (plan_binds_all_shards 4 t); [lia|vm_compute; discriminate].
Defined.
