(* ===== verification/NumaSlab.v ===== *)
(** * NUMA slab pool ([src/scheduler.rs], third part)

    Fixed-capacity slabs with free-list recycling and generation-checked
    handles, and the pool that serves an allocation from the preferred node
    first.  Slot indices and capacities index vectors and are [nat]. *)

From S2P Require Import Prelude Text Scheduler ReactorMesh.

(** ** Hugepages *)

Record HugepageConfig := mkHugepageConfig { hp_page_size_bytes : Z; hp_enabled : bool }.
Definition HugepageConfig_default : HugepageConfig := mkHugepageConfig (2 * 1024 * 1024) true.

Inductive HugepageFallbackReason :=
| HugepageDisabled | DetectionUnavailable | InsufficientHugepages | AlignmentMismatch.

Definition hugepage_reason_code (r : HugepageFallbackReason) : Str :=
  match r with
  | HugepageDisabled => str "hugepage_disabled"
  | DetectionUnavailable => str "detection_unavailable"
  | InsufficientHugepages => str "insufficient_hugepages"
  | AlignmentMismatch => str "alignment_mismatch"
  end.

Record HugepageStatus := mkHugepageStatus {
  total_pages : Z;
  free_pages : Z;
  hs_page_size_bytes : Z;
  active : bool;
  hs_fallback_reason : option HugepageFallbackReason;
}.

Definition evaluate (config : HugepageConfig) (total free : Z) : HugepageStatus :=
  let page := hp_page_size_bytes config in
  if negb (hp_enabled config) then mkHugepageStatus total free page false (Some HugepageDisabled)
  else if (total =? 0) && (free =? 0) then
    mkHugepageStatus 0 0 page false (Some DetectionUnavailable)
  else if free =? 0 then mkHugepageStatus total 0 page false (Some InsufficientHugepages)
  else mkHugepageStatus total free page true None.

Record NumaSlabConfig := mkNumaSlabConfig {
  slab_capacity : nat;
  entry_size_bytes : Z;
  hugepage : HugepageConfig;
}.
Definition NumaSlabConfig_default : NumaSlabConfig :=
  mkNumaSlabConfig 256 512 HugepageConfig_default.

Definition slab_footprint_bytes (c : NumaSlabConfig) : option Z :=
  checked_mul (Z.of_nat (slab_capacity c)) (entry_size_bytes c).

Definition hugepage_alignment_ok (c : NumaSlabConfig) : bool :=
  if negb (hp_enabled (hugepage c)) then true
  else
    let page := hp_page_size_bytes (hugepage c) in
    if page =? 0 then false
    else match slab_footprint_bytes c with
         | Some bytes => negb (bytes =? 0) && (bytes mod page =? 0)
         | None => false
         end.

Definition alignment_mismatch_status (c : NumaSlabConfig) : HugepageStatus :=
  mkHugepageStatus 0 0 (hp_page_size_bytes (hugepage c)) false (Some AlignmentMismatch).

(** ** One slab *)

Record NumaSlabHandle := mkHandle { h_node_id : Z; slot_index : nat; generation : Z }.
#[global] Instance NumaSlabHandle_eq_dec : EqDecision NumaSlabHandle.
Proof. solve_decision. Defined.

(** [free_list] is a stack, top first (the end of the source's vector). *)
Record NumaSlab := mkSlab {
  node_id : Z;
  s_capacity : nat;
  generations : list Z;
  allocated : list bool;
  free_list : list nat;
  total_allocs : Z;
  total_frees : Z;
  high_water_mark : Z;
}.

Definition slab_new (node : Z) (capacity : nat) : NumaSlab :=
  let capacity := Nat.max capacity 1 in
  mkSlab node capacity (replicate capacity 0) (replicate capacity false) (List.seq 0 capacity) 0 0 0.

Definition in_use (s : NumaSlab) : Z := sat_sub (Z.of_nat (s_capacity s)) (len (free_list s)).
Definition has_capacity (s : NumaSlab) : bool :=
  match free_list s with [] => false | _ => true end.

(** The vectors are as long as the capacity, so the assignments by index are
    in range (a lemma below). *)
Definition slab_allocate (s : NumaSlab) : option (NumaSlabHandle * NumaSlab) :=
  match free_list s with
  | [] => None
  | slot :: rest =>
      let gen := sat_add u64_max (default 0 (generations s !! slot)) 1 in
      let used := sat_sub (Z.of_nat (s_capacity s)) (len rest) in
      Some (mkHandle (node_id s) slot gen,
            mkSlab (node_id s) (s_capacity s) (<[slot := gen]> (generations s))
              (<[slot := true]> (allocated s)) rest (sat_add u64_max (total_allocs s) 1)
              (total_frees s) (Z.max (high_water_mark s) used))
  end.

Definition slab_deallocate (h : NumaSlabHandle) (s : NumaSlab) : bool * NumaSlab :=
  if negb (h_node_id h =? node_id s) then (false, s)
  else if (s_capacity s <=? slot_index h)%nat then (false, s)
  else if negb (default false (allocated s !! slot_index h)) then (false, s)
  else if negb (default 0 (generations s !! slot_index h) =? generation h) then (false, s)
  else
    (true, mkSlab (node_id s) (s_capacity s) (generations s)
             (<[slot_index h := false]> (allocated s)) (slot_index h :: free_list s)
             (total_allocs s) (sat_add u64_max (total_frees s) 1) (high_water_mark s)).

(** ** The pool *)

Inductive CrossNodeReason := LocalExhausted.
Definition cross_node_code (r : CrossNodeReason) : Str :=
  match r with LocalExhausted => str "local_exhausted" end.

Record NumaSlabPool := mkPool {
  slabs : list NumaSlab;
  p_config : NumaSlabConfig;
  hugepage_status : HugepageStatus;
  cross_node_allocs : Z;
  hugepage_backed_allocs : Z;
}.

Definition from_manifest (m : ReactorPlacementManifest) (c : NumaSlabConfig) : NumaSlabPool :=
  let node_ids := sort_dedup (b_numa_node <$> bindings m) in
  let node_ids := match node_ids with [] => [0] | _ => node_ids end in
  let status :=
    if hp_enabled (hugepage c) && negb (hugepage_alignment_ok c) then alignment_mismatch_status c
    else evaluate (hugepage c) 0 0 in
  mkPool ((λ n, slab_new n (slab_capacity c)) <$> node_ids) c status 0 0.

Definition set_hugepage_status (status : HugepageStatus) (p : NumaSlabPool) : NumaSlabPool :=
  mkPool (slabs p) (p_config p)
    (if negb (hp_enabled (hugepage (p_config p))) then
       evaluate (hugepage (p_config p)) (total_pages status) (free_pages status)
     else if negb (hugepage_alignment_ok (p_config p)) then alignment_mismatch_status (p_config p)
     else status)
    (cross_node_allocs p) (hugepage_backed_allocs p).

(** The counter of hugepage-backed allocations after one more allocation. *)
Definition backed_after (p : NumaSlabPool) : Z :=
  if active (hugepage_status p) then sat_add u64_max (hugepage_backed_allocs p) 1
  else hugepage_backed_allocs p.

(** [slabs.iter_mut().find(|s| s.node_id == preferred)] and its allocation. *)
Fixpoint allocate_local (preferred : Z) (l : list NumaSlab)
    : option (NumaSlabHandle * list NumaSlab) :=
  match l with
  | [] => None
  | s :: l' =>
      if node_id s =? preferred then
        match slab_allocate s with Some (h, s') => Some (h, s' :: l') | None => None end
      else match allocate_local preferred l' with Some (h, l'') => Some (h, s :: l'') | None => None end
  end.

(** The scan over the other nodes. *)
Fixpoint allocate_remote (preferred : Z) (l : list NumaSlab)
    : option (NumaSlabHandle * list NumaSlab) :=
  match l with
  | [] => None
  | s :: l' =>
      let skip := match allocate_remote preferred l' with
                  | Some (h, l'') => Some (h, s :: l'')
                  | None => None
                  end in
      if node_id s =? preferred then skip
      else match slab_allocate s with Some (h, s') => Some (h, s' :: l') | None => skip end
  end.

Definition pool_allocate (preferred : Z) (p : NumaSlabPool)
    : option (NumaSlabHandle * option CrossNodeReason * NumaSlabPool) :=
  match allocate_local preferred (slabs p) with
  | Some (h, l) =>
      Some (h, None, mkPool l (p_config p) (hugepage_status p) (cross_node_allocs p) (backed_after p))
  | None =>
      match allocate_remote preferred (slabs p) with
      | Some (h, l) =>
          Some (h, Some LocalExhausted,
                mkPool l (p_config p) (hugepage_status p)
                  (sat_add u64_max (cross_node_allocs p) 1) (backed_after p))
      | None => None
      end
  end.

Fixpoint deallocate_in (h : NumaSlabHandle) (l : list NumaSlab) : bool * list NumaSlab :=
  match l with
  | [] => (false, [])
  | s :: l' =>
      if node_id s =? h_node_id h then
        let '(ok, s') := slab_deallocate h s in (ok, s' :: l')
      else let '(ok, l'') := deallocate_in h l' in (ok, s :: l'')
  end.

Definition pool_deallocate (h : NumaSlabHandle) (p : NumaSlabPool) : bool * NumaSlabPool :=
  let '(ok, l) := deallocate_in h (slabs p) in
  (ok, mkPool l (p_config p) (hugepage_status p) (cross_node_allocs p) (hugepage_backed_allocs p)).

(** ** Telemetry *)

Record NumaSlabNodeTelemetry := mkNodeTelemetry {
  nt_node_id : Z;
  nt_capacity : Z;
  nt_in_use : Z;
  nt_total_allocs : Z;
  nt_total_frees : Z;
  nt_high_water_mark : Z;
}.

Record NumaSlabTelemetry := mkSlabTelemetry {
  per_node : list NumaSlabNodeTelemetry;
  st_cross_node_allocs : Z;
  st_hugepage_backed_allocs : Z;
  st_hugepage_status : HugepageStatus;
  st_config : NumaSlabConfig;
}.

Definition pool_telemetry (p : NumaSlabPool) : NumaSlabTelemetry :=
  mkSlabTelemetry
    ((λ s, mkNodeTelemetry (node_id s) (Z.of_nat (s_capacity s)) (in_use s) (total_allocs s)
             (total_frees s) (high_water_mark s)) <$> slabs p)
    (cross_node_allocs p) (hugepage_backed_allocs p) (hugepage_status p) (p_config p).

Definition RATIO_SCALE_BPS : Z := 10000.

(** The product is computed in [u128]. *)
Definition ratio_basis_points (numerator denominator : Z) : Z :=
  if denominator =? 0 then 0
  else
    let scaled := numerator * RATIO_SCALE_BPS / denominator in
    if scaled <=? u64_max then scaled else RATIO_SCALE_BPS.

Definition pressure_band (value_bps : Z) : Str :=
  if 7500 <=? value_bps then str "high"
  else if 2500 <=? value_bps then str "medium" else str "low".

(** The numbers [as_json] reports, before rendering.  The sums are plain
    [u64] and [usize] sums. *)
Record SlabRatios := mkRatios {
  local_allocs : Z;
  remote_allocs : Z;
  local_ratio_bps : Z;
  remote_ratio_bps : Z;
  hugepage_hit_rate_bps : Z;
  occupancy_pressure_bps : Z;
  cache_miss_pressure_bps : Z;
  cross_node_fallback : option Str;
}.

Definition sum_of (f : NumaSlabNodeTelemetry → Z) (l : list NumaSlabNodeTelemetry) : Z :=
  foldr (λ n z, f n + z) 0 l.

Definition slab_ratios (t : NumaSlabTelemetry) : SlabRatios :=
  let total := sum_of nt_total_allocs (per_node t) in
  let in_use_total := sum_of nt_in_use (per_node t) in
  let capacity_total := sum_of nt_capacity (per_node t) in
  let high_water_total := sum_of nt_high_water_mark (per_node t) in
  let remote := Z.min (st_cross_node_allocs t) total in
  let local := sat_sub total remote in
  let backed := Z.min (st_hugepage_backed_allocs t) total in
  mkRatios local remote (ratio_basis_points local total) (ratio_basis_points remote total)
    (ratio_basis_points backed total) (ratio_basis_points in_use_total capacity_total)
    (ratio_basis_points high_water_total capacity_total)
    (if 0 <? st_cross_node_allocs t then Some (cross_node_code LocalExhausted) else None).

(** * Slab invariant *)

Record slab_ok (s : NumaSlab) : Prop := mk_slab_ok {
  ok_capacity : (1 ≤ s_capacity s)%nat;
  ok_generations : length (generations s) = s_capacity s;
  ok_allocated : length (allocated s) = s_capacity s;
  ok_free_nodup : NoDup (free_list s);
  ok_free : ∀ i, i ∈ free_list s ↔ allocated s !! i = Some false;
  ok_range : Forall (λ g, 0 ≤ g ≤ u64_max) (generations s);
}.

(** The handle owns its slot. *)
Definition live (s : NumaSlab) (h : NumaSlabHandle) : Prop :=
  h_node_id h = node_id s ∧ allocated s !! slot_index h = Some true ∧
  generations s !! slot_index h = Some (generation h).

Lemma slab_new_ok node capacity : slab_ok (slab_new node capacity).
Proof.
  unfold slab_new. cbv zeta. set (c := Nat.max capacity 1). split; cbn.
  - lia.
  - apply length_replicate.
  - apply length_replicate.
  - apply NoDup_seq.
  - intros i. rw elem_of_seq lookup_replicate. split; [intros; split; [done|lia]|intros [_ ?]; lia].
  - apply Forall_replicate. int_lia.
Qed.

Lemma slab_new_not_live node capacity h : ¬ live (slab_new node capacity) h.
Proof. intros (_ & Ha & _). cbn in Ha. by apply lookup_replicate in Ha as [? _]. Qed.

(** What one allocation does. *)
Definition slab_allocated (s : NumaSlab) (h : NumaSlabHandle) (s' : NumaSlab) : Prop :=
  slab_ok s' ∧ node_id s' = node_id s ∧ live s' h ∧ ¬ live s h ∧
  (∀ h', h' ≠ h → live s' h' ↔ live s h') ∧
  (∀ i, default 0 (generations s !! i) ≤ default 0 (generations s' !! i)) ∧
  generation h = Z.min u64_max (default 0 (generations s !! slot_index h) + 1).

Lemma slab_allocate_spec s :
  slab_ok s →
  match slab_allocate s with
  | None => free_list s = []
  | Some (h, s') => slab_allocated s h s'
  end.
Proof.
  intros [Hc Hg Ha Hn Hf Hr]. unfold slab_allocate.
  destruct (free_list s) as [|slot rest] eqn:El; [done|].
  assert (allocated s !! slot = Some false) as Hslot by (apply Hf; by left).
  assert (slot < s_capacity s)%nat as Hlt by (rw -Ha; by eapply lookup_lt_Some).
  assert (is_Some (generations s !! slot)) as [g Hgs] by (apply lookup_lt_is_Some; lia).
  assert (0 ≤ g ≤ u64_max) as Hgr by exact (proj1 (Forall_forall _ _) Hr g (list_elem_of_lookup_2 _ _ _ Hgs)).
  apply NoDup_cons in Hn as [Hnot Hn]. rw Hgs. cbn [default].
  set (gen := sat_add u64_max g 1). assert (0 ≤ gen ≤ u64_max ∧ g ≤ gen) as [Hgen Hge] by (unfold gen; int_lia).
  split_and!.
  - split; cbn; rw ?length_insert //.
    + intros i. destruct (decide (i = slot)) as [->|Hne].
      * rw list_lookup_insert_eq; [|lia]. split; [done|discriminate].
      * rw list_lookup_insert_ne // -Hf elem_of_cons. naive_solver.
    + apply Forall_insert; [done|]. lia.
  - done.
  - split; [done|]. cbn. rw !list_lookup_insert_eq; [done|lia|lia].
  - intros (_ & Hal & _). cbn in Hal. congruence.
  - intros h' Hne. unfold live. cbn. destruct (decide (slot_index h' = slot)) as [Es|Es].
    + rw Es !list_lookup_insert_eq; [|lia..]. split.
      * intros (En & _ & [= Eg]). exfalso. apply Hne. destruct h'. cbn in *. by subst.
      * intros (_ & Hal & _). congruence.
    + by rw !list_lookup_insert_ne.
  - intros i. cbn. destruct (decide (i = slot)) as [->|Hne].
    + rw list_lookup_insert_eq; [|lia]. rw Hgs. done.
    + by rw list_lookup_insert_ne.
  - cbn. rw Hgs. done.
Qed.

Definition slab_freed (s : NumaSlab) (h : NumaSlabHandle) (s' : NumaSlab) : Prop :=
  slab_ok s' ∧ node_id s' = node_id s ∧ generations s' = generations s ∧
  ∀ h', live s' h' ↔ live s h' ∧ h' ≠ h.

(** A deallocation succeeds exactly for live handles. *)
Lemma slab_deallocate_spec h s :
  slab_ok s →
  (live s h ∧ (slab_deallocate h s).1 = true ∧ slab_freed s h (slab_deallocate h s).2) ∨
  (¬ live s h ∧ slab_deallocate h s = (false, s)).
Proof.
  intros [Hc Hg Ha Hn Hf Hr]. unfold slab_deallocate, live.
  destruct (Z.eqb_spec (h_node_id h) (node_id s)) as [En|En]; cbn [negb]; [|right; tauto].
  destruct (Nat.leb_spec (s_capacity s) (slot_index h)) as [Hge|Hlt].
  { right. split; [|done]. intros (_ & Hal & _). apply lookup_lt_Some in Hal. lia. }
  assert (is_Some (allocated s !! slot_index h)) as [al Hal] by (apply lookup_lt_is_Some; lia).
  assert (is_Some (generations s !! slot_index h)) as [g Hgs] by (apply lookup_lt_is_Some; lia).
  rw Hal Hgs. change (default false (Some al)) with al. change (default 0 (Some g)) with g.
  destruct al; cbn [negb]; [|right; split; [intros (_ & ? & _); congruence|reflexivity]].
  destruct (Z.eqb_spec g (generation h)) as [Eg|Eg]; cbn [negb];
    [|right; split; [intros (_ & _ & ?); congruence|reflexivity]].
  left. split; [by subst|]. split; [done|]. unfold slab_freed. cbn. split_and!; [|done|done|].
  - split; cbn; rw ?length_insert //.
    + constructor; [|done]. rw Hf. congruence.
    + intros i. rw elem_of_cons Hf. destruct (decide (i = slot_index h)) as [->|Hne].
      * rw list_lookup_insert_eq; [|lia]. naive_solver.
      * rw list_lookup_insert_ne //. naive_solver.
  - intros h'. unfold live. cbn. destruct (decide (slot_index h' = slot_index h)) as [Es|Es].
    + rw Es list_lookup_insert_eq; [|lia]. split; [naive_solver|].
      intros [(En' & _ & Eg') Hne]. exfalso. apply Hne.
      destruct h as [a b c], h' as [a' b' c']. cbn in *. f_equal; congruence.
    + rw list_lookup_insert_ne //. split; [|naive_solver]. intros Hl. split; [done|]. by intros ->.
Qed.

(** ** Stale handles *)

(** A handle that was used up: its slot has reached its generation, and it
    does not own the slot. *)
Definition stale (s : NumaSlab) (h : NumaSlabHandle) : Prop :=
  ¬ live s h ∧ generation h ≤ default 0 (generations s !! slot_index h).

Lemma stale_allocate s h h' s' :
  slab_allocated s h' s' → generation h < u64_max → stale s h → stale s' h ∧ h' ≠ h.
Proof.
  intros (_ & _ & Hl & _ & Hother & Hmono & Hg) Hlt [Hn Hle].
  assert (h' ≠ h) as Hne by (intros ->; lia). split; [|done].
  split; [rw Hother //; exact (not_eq_sym Hne)|]. etrans; [exact Hle|apply Hmono].
Qed.

Lemma stale_free s h h' s' : slab_freed s h' s' → stale s h → stale s' h.
Proof. intros (_ & _ & Hg & Hl) [Hn Hle]. split; [rw Hl; tauto|by rw Hg]. Qed.

Lemma freed_stale s h s' : slab_freed s h s' → live s h → stale s' h.
Proof.
  intros (_ & _ & Hg & Hl) (_ & _ & Eg). split; [rw Hl; tauto|]. rw Hg Eg. done.
Qed.

(** * Pool *)

Section Pool.
Implicit Types (l : list NumaSlab) (p : NumaSlabPool) (h : NumaSlabHandle).

Record slabs_ok l : Prop := mk_slabs_ok {
  po_slabs : Forall slab_ok l;
  po_nodes : NoDup (node_id <$> l);
}.

Definition pool_live l h : Prop := ∃ s, s ∈ l ∧ live s h.

(** One slab of the list changes. *)
Definition replaced l l' s s' : Prop := ∃ l1 l2, l = l1 ++ s :: l2 ∧ l' = l1 ++ s' :: l2.

Lemma replaced_cons x l l' s s' : replaced l l' s s' → replaced (x :: l) (x :: l') s s'.
Proof. intros (l1 & l2 & -> & ->). by exists (x :: l1), l2. Qed.

Lemma replaced_ok l l' s s' :
  replaced l l' s s' → slabs_ok l → slab_ok s' → node_id s' = node_id s → slabs_ok l'.
Proof.
  intros (l1 & l2 & -> & ->) [Hs Hn] Hs' En. split.
  - apply Forall_app in Hs as [H1 [_ H2]%Forall_cons]. apply Forall_app. split; [done|].
    by constructor.
  - rw fmap_app fmap_cons En. by rw fmap_app fmap_cons in Hn.
Qed.

Lemma replaced_elem l l' s s' : replaced l l' s s' → s ∈ l.
Proof. intros (l1 & l2 & -> & _). apply elem_of_app. right. by left. Qed.

(** The slab of a node is unique. *)
Lemma node_unique l s t : slabs_ok l → s ∈ l → t ∈ l → node_id s = node_id t → s = t.
Proof. intros [_ Hn] ? ? ?. by eapply NoDup_fmap_eq. Qed.

(** Liveness in the pool after one slab changed. *)
Lemma replaced_live l l' s s' h :
  replaced l l' s s' → slabs_ok l → node_id s' = node_id s →
  pool_live l' h ↔ if decide (h_node_id h = node_id s) then live s' h else pool_live l h.
Proof.
  intros (l1 & l2 & -> & ->) [_ Hn] En. rw fmap_app fmap_cons in Hn.
  apply NoDup_app in Hn as (_ & Hd1 & [Hd2 _]%NoDup_cons).
  assert (∀ t, t ∈ l1 ∨ t ∈ l2 → node_id t ≠ node_id s) as Hother.
  { intros t [Ht|Ht] E.
    - apply (Hd1 (node_id t)); [apply list_elem_of_fmap; by exists t|]. rw E. by left.
    - apply Hd2, list_elem_of_fmap. by exists t. }
  unfold pool_live. case_decide as Eh.
  - split; [|intros Hl; exists s'; split; [apply elem_of_app; right; by left|done]].
    intros (t & [Ht|[->|Ht]%elem_of_cons]%elem_of_app & Hl); [|done|];
      exfalso; destruct Hl as (E & _); [apply (Hother t)|apply (Hother t)]; auto; congruence.
  - split; intros (t & Ht & Hl); exists t; (split; [|done]);
      apply elem_of_app in Ht as [Ht|[->|Ht]%elem_of_cons]; apply elem_of_app; auto;
      try (right; by right); destruct Hl as (E & _); congruence.
Qed.

(** ** Allocation *)

Lemma allocate_local_spec pref l :
  match allocate_local pref l with
  | Some (h, l') => ∃ s s', replaced l l' s s' ∧ node_id s = pref ∧ slab_allocate s = Some (h, s')
  | None => NoDup (node_id <$> l) → ∀ s, s ∈ l → node_id s = pref → slab_allocate s = None
  end.
Proof.
  induction l as [|x l IH]; cbn [allocate_local]; [by intros _ s ?%not_elem_of_nil|].
  destruct (Z.eqb_spec (node_id x) pref) as [E|E].
  - destruct (slab_allocate x) as [[h x']|] eqn:Ex.
    + exists x, x'. split; [by exists [], l|done].
    + intros [Hx _]%NoDup_cons s [->|Hs]%elem_of_cons Es; [done|].
      exfalso. apply Hx, list_elem_of_fmap. exists s. split; [congruence|done].
  - destruct (allocate_local pref l) as [[h l']|].
    + destruct IH as (s & s' & Hr & ?). exists s, s'. split; [by apply replaced_cons|done].
    + intros [_ Hn]%NoDup_cons s [->|Hs]%elem_of_cons Es; [done|]. by apply IH.
Qed.

Lemma allocate_remote_spec pref l :
  match allocate_remote pref l with
  | Some (h, l') => ∃ s s', replaced l l' s s' ∧ node_id s ≠ pref ∧ slab_allocate s = Some (h, s')
  | None => ∀ s, s ∈ l → node_id s ≠ pref → slab_allocate s = None
  end.
Proof.
  induction l as [|x l IH]; cbn [allocate_remote]; [by intros s ?%not_elem_of_nil|].
  destruct (Z.eqb_spec (node_id x) pref) as [E|E]; [|destruct (slab_allocate x) as [[h x']|] eqn:Ex].
  - destruct (allocate_remote pref l) as [[h l']|].
    + destruct IH as (s & s' & Hr & ?). exists s, s'. split; [by apply replaced_cons|done].
    + intros s [->|Hs]%elem_of_cons Es; [done|]. by apply IH.
  - exists x, x'. split; [by exists [], l|done].
  - destruct (allocate_remote pref l) as [[h l']|].
    + destruct IH as (s & s' & Hr & ?). exists s, s'. split; [by apply replaced_cons|done].
    + intros s [->|Hs]%elem_of_cons Es; [done|]. by apply IH.
Qed.

Lemma slab_allocate_exhausted s : slab_allocate s = None ↔ free_list s = [].
Proof. unfold slab_allocate. by destruct (free_list s). Qed.

(** The effect of an allocation by one slab on the pool. *)
Lemma replaced_allocated l l' s s' h :
  replaced l l' s s' → slabs_ok l → slab_allocate s = Some (h, s') →
  slabs_ok l' ∧ slab_allocated s h s' ∧ h_node_id h = node_id s ∧
  pool_live l' h ∧ ¬ pool_live l h ∧ ∀ h', h' ≠ h → pool_live l' h' ↔ pool_live l h'.
Proof.
  intros Hr Hok Ha. pose proof (replaced_elem _ _ _ _ Hr) as Hin.
  pose proof (proj1 (Forall_forall _ _) (po_slabs _ Hok) s Hin) as Hs.
  pose proof (slab_allocate_spec s Hs) as Hal. rw Ha in Hal.
  destruct (Hal) as (Hs' & En & Hl & Hnl & Hother & _).
  assert (h_node_id h = node_id s) as Eh by (destruct Hl as (-> & _); done).
  split; [by eapply replaced_ok|]. split; [done|]. split; [done|].
  split; [|split].
  - rw (replaced_live l l' s s' h) // decide_True //.
  - intros (t & Ht & Hlt). assert (t = s) as ->; [|done].
    apply (node_unique l); [done|done|done|]. destruct Hlt as (? & _). congruence.
  - intros h' Hne. rw (replaced_live l l' s s' h') //. case_decide as E; [|done].
    rw Hother //. split.
    + intros Hl'. by exists s.
    + intros (t & Ht & Hlt). assert (t = s) as ->; [|done].
      apply (node_unique l); [done|done|done|]. destruct Hlt as (? & _). congruence.
Qed.

(** ** Deallocation *)

Lemma deallocate_in_spec h l :
  (∃ s l', s ∈ l ∧ node_id s = h_node_id h ∧
     deallocate_in h l = ((slab_deallocate h s).1, l') ∧
     replaced l l' s (slab_deallocate h s).2) ∨
  ((∀ s, s ∈ l → node_id s ≠ h_node_id h) ∧ deallocate_in h l = (false, l)).
Proof.
  induction l as [|x l IH]; cbn [deallocate_in]; [right; split; [by intros s ?%not_elem_of_nil|done]|].
  destruct (Z.eqb_spec (node_id x) (h_node_id h)) as [E|E].
  - left. exists x, ((slab_deallocate h x).2 :: l). split; [by left|]. split; [done|].
    split; [by destruct (slab_deallocate h x)|by exists [], l].
  - destruct IH as [(s & l' & Hs & En & Hd & Hr)|[Hno Hd]]; rw Hd.
    + left. exists s, (x :: l'). split; [by right|]. split; [done|]. split; [done|].
      by apply replaced_cons.
    + right. split; [|done]. intros s [->|Hs]%elem_of_cons; [done|auto].
Qed.

(** The outcome of a deallocation in the pool. *)
Lemma deallocate_in_ok h l :
  slabs_ok l →
  (pool_live l h ∧ (deallocate_in h l).1 = true ∧
     (∃ s s', replaced l (deallocate_in h l).2 s s' ∧ slab_freed s h s' ∧ live s h) ∧
     (∀ h', pool_live (deallocate_in h l).2 h' ↔ pool_live l h' ∧ h' ≠ h)) ∨
  (¬ pool_live l h ∧ deallocate_in h l = (false, l)).
Proof.
  intros Hok. destruct (deallocate_in_spec h l) as [(s & l' & Hin & En & Hd & Hr)|[Hno Hd]].
  - pose proof (proj1 (Forall_forall _ _) (po_slabs _ Hok) s Hin) as Hs.
    destruct (slab_deallocate_spec h s Hs) as [(Hl & Ht & Hfr)|[Hnl Heq]].
    + left. rw Hd Ht. cbn. split; [by exists s|]. split; [done|]. split; [by eauto|].
      destruct Hfr as (Hs' & En' & _ & Hlv). intros h'. rw (replaced_live l l' s _ h') //.
      case_decide as E.
      * rw Hlv. split; [intros [? ?]; split; [by exists s|done]|].
        intros [(t & Ht' & Hlt) Hne]. assert (t = s) as ->; [|done].
        apply (node_unique l); [done|done|done|]. destruct Hlt as (? & _). congruence.
      * split; [|by intros [? _]]. intros Hl'. split; [done|]. intros ->. congruence.
    + right. split.
      * intros (t & Ht & Hlt). assert (t = s) as ->; [|done].
        apply (node_unique l); [done|done|done|]. destruct Hlt as (? & _). congruence.
      * rw Hd Heq. cbn. rw Heq in Hr. cbn in Hr. by destruct Hr as (l1 & l2 & -> & ->).
  - right. split; [|done]. intros (t & Ht & (E & _)). by apply (Hno t).
Qed.

(** ** Steps *)

Inductive pool_step : NumaSlabPool → NumaSlabPool → Prop :=
| pstep_allocate pref p h r p' : pool_allocate pref p = Some (h, r, p') → pool_step p p'
| pstep_deallocate h p : pool_step p (pool_deallocate h p).2
| pstep_status st p : pool_step p (set_hugepage_status st p).

(** Every step changes at most one slab, by an allocation or a free. *)
Lemma pool_step_slabs p p' :
  slabs_ok (slabs p) → pool_step p p' →
  slabs p' = slabs p ∨
  ∃ s s', replaced (slabs p) (slabs p') s s' ∧
    ((∃ h, slab_allocated s h s') ∨ (∃ h, slab_freed s h s')).
Proof.
  intros Hok Hst. destruct Hst as [pref p h r p' Ha|h p|st p]; [|..|by left].
  - unfold pool_allocate in Ha. pose proof (allocate_local_spec pref (slabs p)) as Hlo.
    destruct (allocate_local pref (slabs p)) as [[h1 l1]|].
    + destruct Hlo as (s & s' & Hr & _ & Hs). simplify_eq. right. exists s, s'. split; [done|]. left.
      exists h. by eapply replaced_allocated.
    + pose proof (allocate_remote_spec pref (slabs p)) as Hre.
      destruct (allocate_remote pref (slabs p)) as [[h1 l1]|]; [|done].
      destruct Hre as (s & s' & Hr & _ & Hs). simplify_eq. right. exists s, s'. split; [done|]. left.
      exists h. by eapply replaced_allocated.
  - unfold pool_deallocate. destruct (deallocate_in_ok h (slabs p) Hok) as [(_ & _ & (s & s' & Hr & Hf & _) & _)|[_ Hd]].
    + right. destruct (deallocate_in h (slabs p)) as [ok l']. cbn in *. eauto 10.
    + left. by rw Hd.
Qed.

Lemma pool_step_ok p p' : slabs_ok (slabs p) → pool_step p p' → slabs_ok (slabs p').
Proof.
  intros Hok Hst. destruct (pool_step_slabs p p' Hok Hst) as [->|(s & s' & Hr & Hs)]; [done|].
  by destruct Hs as [(h & ? & ? & _)|(h & ? & ? & _)]; eapply replaced_ok.
Qed.

Lemma from_manifest_ok m c : slabs_ok (slabs (from_manifest m c)).
Proof.
  unfold from_manifest. cbv zeta. set (ns := match sort_dedup _ with [] => [0] | _ => _ end). cbn. split.
  - apply Forall_fmap, Forall_forall. intros n _. apply slab_new_ok.
  - rw -list_fmap_compose. change (node_id ∘ _) with (λ n : Z, n). rw list_fmap_id. unfold ns.
    pose proof (sort_dedup_nodup (b_numa_node <$> bindings m)) as Hn.
    destruct (sort_dedup _); [apply NoDup_singleton|done].
Qed.

Lemma pool_reachable m c p :
  rtc pool_step (from_manifest m c) p → slabs_ok (slabs p).
Proof.
  intros Hr. eapply (rtc_preserves pool_step (λ p, slabs_ok (slabs p)));
    [exact pool_step_ok|exact Hr|apply from_manifest_ok].
Qed.

(** A stale handle stays stale in every slab of its node. *)
Definition pool_stale l h : Prop := ∀ s, s ∈ l → h_node_id h = node_id s → stale s h.

Lemma replaced_stale l l' s s' h :
  replaced l l' s s' → node_id s' = node_id s → (stale s h → stale s' h) →
  pool_stale l h → pool_stale l' h.
Proof.
  intros (l1 & l2 & -> & ->) En Hs Hp t Ht E.
  apply elem_of_app in Ht as [Ht|[->|Ht]%elem_of_cons].
  - apply Hp; [apply elem_of_app; by left|done].
  - apply Hs, Hp; [apply elem_of_app; right; by left|congruence].
  - apply Hp; [apply elem_of_app; right; by right|done].
Qed.

Lemma pool_step_stale p p' h :
  slabs_ok (slabs p) → pool_step p p' → generation h < u64_max →
  pool_stale (slabs p) h → pool_stale (slabs p') h.
Proof.
  intros Hok Hst Hlt Hp. destruct (pool_step_slabs p p' Hok Hst) as [->|(s & s' & Hr & Hs)]; [done|].
  destruct Hs as [(h' & Ha)|(h' & Hf)].
  - eapply replaced_stale; [exact Hr|by destruct Ha as (_ & ? & _)| |exact Hp].
    intros Hst'. by eapply stale_allocate.
  - eapply replaced_stale; [exact Hr|by destruct Hf as (_ & ? & _)| |exact Hp].
    intros Hst'. by eapply stale_free.
Qed.
End Pool.

(** Allocation in a reachable pool.  It fails only when every slab is
    exhausted.  Otherwise the handle is new (no live handle is handed out
    twice) and live, every other handle keeps its state, and it comes from the
    preferred node unless that node is absent or exhausted, which the reason
    reports. *)
Theorem pool_allocation_exact m c (p : NumaSlabPool) pref :
  rtc pool_step (from_manifest m c) p →
  match pool_allocate pref p with
  | None => ∀ s, s ∈ slabs p → free_list s = []
  | Some (h, reason, p') =>
      (¬ pool_live (slabs p) h) ∧ pool_live (slabs p') h ∧
      (∀ h', h' ≠ h → pool_live (slabs p') h' ↔ pool_live (slabs p) h') ∧
      match reason with
      | None => h_node_id h = pref
      | Some LocalExhausted =>
          h_node_id h ≠ pref ∧ ∀ s, s ∈ slabs p → node_id s = pref → free_list s = []
      end
  end.
Proof.
  intros Hr. pose proof (pool_reachable m c p Hr) as Hok. unfold pool_allocate.
  pose proof (allocate_local_spec pref (slabs p)) as Hlo.
  destruct (allocate_local pref (slabs p)) as [[h l]|].
  - destruct Hlo as (s & s' & Hre & En & Hs).
    destruct (replaced_allocated _ _ _ _ _ Hre Hok Hs) as (_ & _ & Eh & Hl & Hnl & Ho).
    split_and!; [done|done|exact Ho|congruence].
  - specialize (Hlo (po_nodes _ Hok)).
    assert (∀ s, s ∈ slabs p → node_id s = pref → free_list s = []) as Hlocal.
    { intros s Hs En. by apply slab_allocate_exhausted, Hlo. }
    pose proof (allocate_remote_spec pref (slabs p)) as Hrm.
    destruct (allocate_remote pref (slabs p)) as [[h l]|].
    + destruct Hrm as (s & s' & Hre & En & Hs).
      destruct (replaced_allocated _ _ _ _ _ Hre Hok Hs) as (_ & _ & Eh & Hl & Hnl & Ho).
      split_and!; [done|done|exact Ho|congruence|exact Hlocal].
    + intros s Hs. destruct (decide (node_id s = pref)) as [En|En]; [by apply Hlocal|].
      by apply slab_allocate_exhausted, Hrm.
Qed.

Definition two_nodes : ReactorPlacementManifest :=
  plan 2 (Some (from_core_node_pairs [(0, 0); (1, 1)])).
Definition one_slot : NumaSlabConfig := mkNumaSlabConfig 1 512 HugepageConfig_default.

Lemma pool_allocation_exact_witness :
  match pool_allocate 1 (from_manifest two_nodes one_slot) with
  | Some (h, None, p') => h_node_id h = 1 ∧ pool_live (slabs p') h
  | _ => False
  end.
Proof.
  pose proof (pool_allocation_exact two_nodes one_slot (from_manifest two_nodes one_slot) 1
                (rtc_refl _ _)) as Ha.
  vm_compute in Ha |- *. destruct Ha as (_ & Hl & _ & He). split; [exact He|exact Hl].
Defined.

(** C36: handles are checked exactly.  In a reachable pool a deallocation
    succeeds if and only if its handle is live; then this handle, and no
    other, stops being live, and a failing one changes nothing.  A freed
    handle (short of the last generation) is stale for good: in every later
    state it is not live, so a double free is refused, however often its slot
    was reused. *)
Theorem freed_handle_is_dead_forever m c (p p' : NumaSlabPool) h :
  rtc pool_step (from_manifest m c) p →
  ((pool_deallocate h p).1 = true ↔ pool_live (slabs p) h) ∧
  ((pool_deallocate h p).1 = true → ∀ h', pool_live (slabs (pool_deallocate h p).2) h' ↔
     pool_live (slabs p) h' ∧ h' ≠ h) ∧
  ((pool_deallocate h p).1 = false → slabs (pool_deallocate h p).2 = slabs p) ∧
  ((pool_deallocate h p).1 = true → generation h < u64_max →
     rtc pool_step (pool_deallocate h p).2 p' →
     (¬ pool_live (slabs p') h) ∧ (pool_deallocate h p').1 = false).
Proof.
  intros Hr. pose proof (pool_reachable m c p Hr) as Hok.
  assert (∀ q, (pool_deallocate h q).1 = (deallocate_in h (slabs q)).1 ∧
               slabs (pool_deallocate h q).2 = (deallocate_in h (slabs q)).2) as Hd.
  { intros q. unfold pool_deallocate. by destruct (deallocate_in h (slabs q)). }
  pose proof (pool_step_ok _ _ Hok (pstep_deallocate h p)) as Hok1.
  destruct (Hd p) as [E1 E2]. rw E1 E2.
  destruct (deallocate_in_ok h (slabs p) Hok) as [(Hl & Ht & (s & s' & Hre & Hf & Hls) & Hlv)|[Hnl Heq]].
  - rw Ht. split; [done|]. split; [done|]. split; [done|]. intros _ Hg Hr'.
    assert (pool_stale (slabs (pool_deallocate h p).2) h) as Hst.
    { rw E2. intros t Ht' Et. pose proof (freed_stale _ _ _ Hf Hls) as Hs'.
      assert (t = s') as ->; [|done]. rw E2 in Hok1. apply (node_unique _ _ _ Hok1 Ht').
      - destruct Hre as (l1 & l2 & _ & ->). apply elem_of_app. right. by left.
      - destruct Hf as (_ & -> & _). destruct Hls as (? & _). congruence. }
    assert (slabs_ok (slabs p') ∧ pool_stale (slabs p') h) as [Hok' Hst'].
    { eapply (rtc_preserves pool_step (λ q, slabs_ok (slabs q) ∧ pool_stale (slabs q) h));
        [|exact Hr'|done].
      intros x y [Hx Hsx] Hstep. split; [by eapply pool_step_ok|by eapply pool_step_stale]. }
    assert (¬ pool_live (slabs p') h) as Hdead.
    { intros (t & Ht' & Hlt). destruct (Hst' t Ht') as [Hn _]; [|done]. by destruct Hlt as (? & _). }
    split; [done|]. rw (proj1 (Hd p')).
    destruct (deallocate_in_ok h (slabs p') Hok') as [[? _]|[_ ->]]; done.
  - rw Heq. cbn. split; [done|]. split; [done|]. split; [done|done].
Qed.

Lemma freed_handle_is_dead_forever_witness :
  match pool_allocate 0 (from_manifest two_nodes one_slot) with
  | Some (h, _, p1) =>
      (pool_deallocate h p1).1 = true ∧
      (pool_deallocate h (pool_deallocate h p1).2).1 = false
  | None => False
  end.
Proof.
  destruct (pool_allocate 0 (from_manifest two_nodes one_slot)) as [[[h r] p1]|] eqn:E.
  - assert (rtc pool_step (from_manifest two_nodes one_slot) p1) as Hr.
    { apply rtc_once. by eapply pstep_allocate. }
    destruct (freed_handle_is_dead_forever two_nodes one_slot p1 (pool_deallocate h p1).2 h Hr)
      as (_ & _ & _ & Hdead).
    vm_compute in E. injection E as <- <- <-.
    split; [vm_compute; reflexivity|].
    apply Hdead; [vm_compute; reflexivity|vm_compute; reflexivity|apply rtc_refl].
  - vm_compute in E. discriminate.
Defined.
