(* ===== verification/Sse.v ===== *)
(** * Server-sent events parser ([src/sse.rs])

    The incremental parser of [text/event-stream] bodies.  Strings are the
    lists of their UTF-8 bytes, so the byte offsets of the source are
    positions in these lists. *)

From S2P Require Import Prelude Text.

Abbreviation Bytes := (list N).

Definition MAX_EVENT_DATA_BYTES : Z := 100 * 1024 * 1024.
Definition MAX_BUFFER_SIZE : Z := 10 * 1024 * 1024.

Record SseEvent := mkSseEvent {
  event : Bytes;
  data : Bytes;
  id : option Bytes;
  retry : option Z;
}.
#[global] Instance SseEvent_eq_dec : EqDecision SseEvent.
Proof. solve_decision. Defined.

Definition SseEvent_default : SseEvent := mkSseEvent (str "message") [] None None.

Record SseParser := mkSseParser {
  buffer : Bytes;
  current : SseEvent;
  has_data : bool;
  bom_checked : bool;
  scanned_len : nat;
  max_event_data_bytes : Z;
}.

Definition SseParser_new : SseParser :=
  mkSseParser [] SseEvent_default false false 0 MAX_EVENT_DATA_BYTES.

(** The names are interned to static strings with the same contents. *)
Definition intern_event_type (value : Bytes) : Bytes := value.

(** The event under construction and whether it has data. *)
Definition append_data_line (value : Bytes) (limit : Z) (c : SseEvent) : SseEvent * bool :=
  let projected := sat_add usize_max (sat_add usize_max (len (data c)) (len value)) 1 in
  if limit <? projected then (c, true)
  else (mkSseEvent (event c) (data c ++ value ++ [c_nl]) (id c) (retry c), true).

Definition is_ascii_digit (b : N) : bool := (48 <=? b)%N && (b <=? 57)%N.

(** [str::parse::<u64>] on digits: [None] on overflow. *)
Definition parse_u64 (value : Bytes) : option Z :=
  let n := foldl (λ n b, n * 10 + (Z.of_N b - 48)) 0 value in
  if n <=? u64_max then Some n else None.

Definition parse_retry (value : Bytes) : option Z :=
  if negb (is_empty value) && forallb is_ascii_digit value then parse_u64 value else None.

Definition set_event e c := mkSseEvent e (data c) (id c) (retry c).
Definition set_id i c := mkSseEvent (event c) (data c) i (retry c).
Definition set_retry r c := mkSseEvent (event c) (data c) (id c) r.

Definition process_line (line : Bytes) (limit : Z) (c : SseEvent) (hd : bool) : SseEvent * bool :=
  match strip_prefix [c_colon] line with
  | Some _ => (c, hd)
  | None =>
      match split_once c_colon line with
      | Some (field, value) =>
          let value := default value (strip_prefix [c_space] value) in
          if bool_decide (field = str "event") then (set_event (intern_event_type value) c, hd)
          else if bool_decide (field = str "data") then append_data_line value limit c
          else if bool_decide (field = str "id") && negb (bool_decide (0%N ∈ value)) then
            (set_id (Some value) c, hd)
          else if bool_decide (field = str "retry") then (set_retry (parse_retry value) c, hd)
          else (c, hd)
      | None =>
          if bool_decide (line = str "event") then (set_event [] c, hd)
          else if bool_decide (line = str "data") then append_data_line [] limit c
          else if bool_decide (line = str "id") then (set_id (Some []) c, hd)
          else (c, hd)
      end
  end.

Definition reset_current_for_next_event (c : SseEvent) : SseEvent :=
  mkSseEvent (str "message") [] (id c) (retry c).

Definition carry_forward_event_state (c : SseEvent) : SseEvent :=
  mkSseEvent (str "message") [] (id c) (retry c).

(** The two fix-ups before an event is dispatched: drop one trailing newline
    of the data, replace an empty name. *)
Definition finish_event (c : SseEvent) : SseEvent :=
  let d := match last (data c) with
           | Some b => if (b =? c_nl)%N then take (length (data c) - 1) (data c) else data c
           | None => data c
           end in
  mkSseEvent (if is_empty (event c) then str "message" else event c) d (id c) (retry c).

(** What the loop does with one complete line: the new event state and the
    event it emits. *)
Definition handle_line (line : Bytes) (limit : Z) (c : SseEvent) (hd : bool)
    : SseEvent * bool * list SseEvent :=
  if is_empty line then
    if hd then
      let c := finish_event c in
      (carry_forward_event_state c, false, [c])
    else (reset_current_for_next_event c, hd, [])
  else let '(c, hd) := process_line line limit c hd in (c, hd, []).

Definition is_newline (b : N) : bool := (b =? c_cr)%N || (b =? c_nl)%N.

(** [memchr2]: the first position of a newline byte. *)
Fixpoint memchr2 (l : Bytes) : option nat :=
  match l with
  | [] => None
  | b :: l' => if is_newline b then Some 0%nat else S <$> memchr2 l'
  end.

Definition slice (source : Bytes) (a b : nat) : Bytes := take (b - a) (drop a source).

(** The loop of [process_source]; every turn moves [search_pos] forward, so
    the length of the source is enough fuel. *)
Fixpoint source_loop (fuel : nat) (source : Bytes) (start search_pos : nat) (limit : Z)
    (c : SseEvent) (hd : bool) : nat * SseEvent * bool * list SseEvent :=
  match fuel with
  | O => (start, c, hd, [])
  | S fuel' =>
      match memchr2 (drop search_pos source) with
      | None => (start, c, hd, [])
      | Some rel_pos =>
          let pos := (search_pos + rel_pos)%nat in
          let b := default 0%N (source !! pos) in
          let next :=
            if (b =? c_nl)%N then Some (pos + 1)%nat
            else match source !! (pos + 1)%nat with
                 | Some b' => if (b' =? c_nl)%N then Some (pos + 2)%nat else Some (pos + 1)%nat
                 | None => None
                 end in
          match next with
          | None => (start, c, hd, [])
          | Some next_start =>
              let '(c, hd, ev) := handle_line (slice source start pos) limit c hd in
              let '(st, c, hd, evs) := source_loop fuel' source next_start next_start limit c hd in
              (st, c, hd, ev ++ evs)
          end
      end
  end.

Definition BOM : Bytes := [239; 187; 191]%N.

(** The offset of the first unconsumed byte, the new BOM flag and event
    state, and the events. *)
Definition process_source (source : Bytes) (scan_start : nat) (bom : bool) (limit : Z)
    (c : SseEvent) (hd : bool) : nat * bool * SseEvent * bool * list SseEvent :=
  let '(start, search_pos, bom) :=
    if negb bom && negb (is_empty source) then
      if starts_with source BOM then (3%nat, Nat.max scan_start 3, true)
      else (0%nat, scan_start, true)
    else (0%nat, scan_start, bom) in
  let '(st, c, hd, evs) := source_loop (S (length source)) source start search_pos limit c hd in
  (st, bom, c, hd, evs).

Definition reset_after_buffer_limit (p : SseParser) : SseParser * list SseEvent :=
  (mkSseParser [] SseEvent_default false false 0 (max_event_data_bytes p),
   [mkSseEvent (str "error") (str "SSE buffer limit exceeded") None None]).

(** [feed]; both branches parse the buffered tail followed by the new data,
    which is the new data alone when there is no tail. *)
Definition feed_into (input : Bytes) (p : SseParser) : SseParser * list SseEvent :=
  match buffer p with
  | [] =>
      let '(consumed, bom, c, hd, evs) :=
        process_source input 0 (bom_checked p) (max_event_data_bytes p) (current p) (has_data p) in
      let buf := if (consumed <? length input)%nat then drop consumed input else [] in
      let p := mkSseParser buf c hd bom (scanned_len p) (max_event_data_bytes p) in
      if (consumed <? length input)%nat && (MAX_BUFFER_SIZE <? len buf) then
        let '(p, ev) := reset_after_buffer_limit p in (p, evs ++ ev)
      else (mkSseParser (buffer p) (current p) (has_data p) (bom_checked p) (length (buffer p))
              (max_event_data_bytes p), evs)
  | _ :: _ =>
      let combined := buffer p ++ input in
      let scan_start := (scanned_len p - 1)%nat in
      let '(consumed, bom, c, hd, evs) :=
        process_source combined scan_start (bom_checked p) (max_event_data_bytes p) (current p)
          (has_data p) in
      let buf := if (consumed <? length combined)%nat then drop consumed combined else [] in
      let p := mkSseParser buf c hd bom (scanned_len p) (max_event_data_bytes p) in
      if MAX_BUFFER_SIZE <? len buf then
        let '(p, ev) := reset_after_buffer_limit p in (p, evs ++ ev)
      else (mkSseParser (buffer p) (current p) (has_data p) (bom_checked p) (length (buffer p))
              (max_event_data_bytes p), evs)
  end.

Definition feed := feed_into.

Definition sse_has_pending (p : SseParser) : bool := negb (is_empty (buffer p)) || has_data p.

Fixpoint trim_start_cr (l : Bytes) : Bytes :=
  match l with
  | [] => []
  | b :: l' => if (b =? c_cr)%N then trim_start_cr l' else l
  end.
Definition trim_end_cr (l : Bytes) : Bytes := reverse (trim_start_cr (reverse l)).

Definition flush (p : SseParser) : SseParser * option SseEvent :=
  let '(c, hd) :=
    match buffer p with
    | [] => (current p, has_data p)
    | _ :: _ => process_line (trim_end_cr (buffer p)) (max_event_data_bytes p) (current p) (has_data p)
    end in
  if hd then
    (mkSseParser [] SseEvent_default false (bom_checked p) (scanned_len p) (max_event_data_bytes p),
     Some (finish_event c))
  else (mkSseParser [] c hd (bom_checked p) (scanned_len p) (max_event_data_bytes p), None).

(** * Lines

    A reference tokenizer: the complete lines of a byte sequence, terminated
    by LF, CR or CRLF, and the unfinished rest, which keeps a final CR until
    the next byte shows whether an LF follows. *)

Fixpoint lines (acc s : Bytes) : list Bytes * Bytes :=
  match s with
  | [] => ([], acc)
  | b :: s' =>
      if (b =? c_nl)%N then let '(ls, r) := lines [] s' in (acc :: ls, r)
      else if (b =? c_cr)%N then
        match s' with
        | [] => ([], acc ++ [b])
        | b' :: s'' =>
            if (b' =? c_nl)%N then let '(ls, r) := lines [] s'' in (acc :: ls, r)
            else let '(ls, r) := lines [] s' in (acc :: ls, r)
        end
      else lines (acc ++ [b]) s'
  end.

(** Feeding complete lines one after the other. *)
Fixpoint run_lines (ls : list Bytes) (limit : Z) (c : SseEvent) (hd : bool)
    : SseEvent * bool * list SseEvent :=
  match ls with
  | [] => (c, hd, [])
  | l :: ls' =>
      let '(c, hd, ev) := handle_line l limit c hd in
      let '(c, hd, evs) := run_lines ls' limit c hd in
      (c, hd, ev ++ evs)
  end.

Definition no_newline (l : Bytes) : Prop := Forall (λ b, is_newline b = false) l.

Lemma lines_skip acc u s : no_newline u → lines acc (u ++ s) = lines (acc ++ u) s.
Proof.
  intros Hu. revert acc. induction Hu as [|b u Hb _ IH]; intros acc; [by rw app_nil_r|].
  unfold is_newline in Hb. apply orb_false_iff in Hb as [E1 E2]. cbn. rw E1 E2 IH. by rw -app_assoc.
Qed.

Lemma memchr2_spec l :
  match memchr2 l with
  | None => no_newline l
  | Some n => ∃ b v, l = take n l ++ b :: v ∧ no_newline (take n l) ∧ is_newline b = true ∧
                     length (take n l) = n
  end.
Proof.
  induction l as [|a l IH]; cbn [memchr2]; [constructor|].
  destruct (is_newline a) eqn:E; [exists a, l; split_and!; [done|constructor|done|done]|].
  destruct (memchr2 l) as [n|]; cbn.
  - destruct IH as (b & v & Hl & Hn & Hb & Hlen). exists b, v.
    split; [by rw {1}Hl|]. split; [by constructor|]. split; [done|]. by rw Hlen.
  - by constructor.
Qed.

(** The induction that follows the tokenizer, which may consume two bytes. *)
Lemma bytes_ind2 (P : Bytes → Prop) :
  (∀ s, (∀ t, (length t < length s)%nat → P t) → P s) → ∀ s, P s.
Proof.
  intros Hstep s. enough (∀ n t, (length t < n)%nat → P t) as Hall by (apply (Hall (S (length s))); lia).
  induction n as [|n IH]; intros t Ht; [lia|]. apply Hstep. intros u Hu. apply IH. lia.
Qed.

(** Splitting the input: the rest of the first part is prepended to the
    second. *)
Lemma lines_app a : ∀ acc b,
  no_newline acc →
  lines acc (a ++ b) =
  (let '(l1, r1) := lines acc a in let '(l2, r2) := lines [] (r1 ++ b) in (l1 ++ l2, r2)).
Proof.
  induction a as [a IH] using bytes_ind2. intros acc b Hacc. destruct a as [|x a].
  - cbn. rw (lines_skip [] acc) // app_nil_l. by destruct (lines acc b).
  - cbn [app lines]. destruct (x =? c_nl)%N eqn:Enl; [|destruct (x =? c_cr)%N eqn:Ecr].
    + rw IH; [|cbn; lia|constructor]. destruct (lines [] a) as [l1 r1].
      by destruct (lines [] (r1 ++ b)) as [l2 r2].
    + destruct a as [|y a].
      * cbn [app]. rw -app_assoc (lines_skip [] acc) // app_nil_l. cbn [app lines].
        rw Enl Ecr. by destruct (match b with [] => _ | _ :: _ => _ end).
      * cbn [app]. destruct (y =? c_nl)%N eqn:Ey.
        -- rw IH; [|cbn; lia|constructor]. destruct (lines [] a) as [l1 r1].
           by destruct (lines [] (r1 ++ b)) as [l2 r2].
        -- change (y :: a ++ b) with ((y :: a) ++ b). rw IH; [|cbn; lia|constructor].
           destruct (lines [] (y :: a)) as [l1 r1]. by destruct (lines [] (r1 ++ b)) as [l2 r2].
    + apply IH; [cbn; lia|]. apply Forall_app. split; [done|]. constructor; [|constructor].
      unfold is_newline. by rw Enl Ecr.
Qed.

(** The rest is unfinished: it has no complete line. *)
Lemma lines_rest s : ∀ acc l r, no_newline acc → lines acc s = (l, r) → lines [] r = ([], r).
Proof.
  induction s as [s IH] using bytes_ind2. intros acc l r Hacc. destruct s as [|x s]; cbn [lines].
  - intros [= <- <-]. by rw -(app_nil_r acc) lines_skip //= app_nil_r.
  - destruct (x =? c_nl)%N eqn:Enl; [|destruct (x =? c_cr)%N eqn:Ecr].
    + destruct (lines [] s) as [l1 r1] eqn:E. intros [= <- <-].
      eapply IH; [|constructor|exact E]. cbn. lia.
    + destruct s as [|y s].
      * intros [= <- <-]. rw lines_skip // app_nil_l. cbn. by rw Enl Ecr.
      * destruct (y =? c_nl)%N.
        -- destruct (lines [] s) as [l1 r1] eqn:E. intros [= <- <-].
           eapply IH; [|constructor|exact E]. cbn. lia.
        -- destruct (lines [] (y :: s)) as [l1 r1] eqn:E. intros [= <- <-].
           eapply IH; [|constructor|exact E]. cbn. lia.
    + apply IH; [cbn; lia|]. apply Forall_app. split; [done|]. constructor; [|constructor].
      unfold is_newline. by rw Enl Ecr.
Qed.

(** All bytes of an unfinished rest but the last are no newlines. *)
Lemma rest_no_newline s : ∀ acc r,
  lines acc s = ([], r) → no_newline (take (length s - 1) s).
Proof.
  induction s as [|x s IH]; intros acc r; cbn [lines]; [constructor|].
  destruct (x =? c_nl)%N eqn:Enl; [by destruct (lines [] s)|destruct (x =? c_cr)%N eqn:Ecr].
  - destruct s as [|y s]; [constructor|].
    destruct (y =? c_nl)%N; [by destruct (lines [] s)|by destruct (lines [] (y :: s))].
  - intros Hs. destruct s as [|y s]; [constructor|]. cbn [length].
    replace (S (S (length s)) - 1)%nat with (S (length (y :: s) - 1)) by (cbn; lia).
    cbn [take]. constructor; [unfold is_newline; by rw Enl Ecr|]. by eapply IH.
Qed.

Lemma lines_length s : ∀ acc l r,
  lines acc s = (l, r) → (length r ≤ length acc + length s)%nat.
Proof.
  induction s as [s IH] using bytes_ind2. intros acc l r. destruct s as [|x s]; cbn [lines].
  - intros [= <- <-]. cbn. lia.
  - destruct (x =? c_nl)%N; [|destruct (x =? c_cr)%N].
    + destruct (lines [] s) as [l1 r1] eqn:E. intros [= <- <-].
      apply IH in E; cbn in *; lia.
    + destruct s as [|y s]; [intros [= <- <-]; rw length_app; cbn; lia|].
      destruct (y =? c_nl)%N.
      * destruct (lines [] s) as [l1 r1] eqn:E. intros [= <- <-]. apply IH in E; cbn in *; lia.
      * destruct (lines [] (y :: s)) as [l1 r1] eqn:E. intros [= <- <-]. apply IH in E; cbn in *; lia.
    + intros E. apply IH in E; [|cbn; lia]. rw length_app in E. cbn in *. lia.
Qed.

(** ** The scanning loop computes the tokenizer *)

Lemma slice_mid (pre line rest : Bytes) :
  slice (pre ++ line ++ rest) (length pre) (length pre + length line) = line.
Proof.
  unfold slice. rw drop_app_length take_app_length'; [done|lia].
Qed.

(** What the loop answers: the offset of the rest and the effect of the
    lines. *)
Definition loop_result (source : Bytes) (tokens : list Bytes * Bytes) (limit : Z) (c : SseEvent)
    (hd : bool) : nat * SseEvent * bool * list SseEvent :=
  let '(c, hd, evs) := run_lines tokens.1 limit c hd in
  ((length source - length tokens.2)%nat, c, hd, evs).

Lemma loop_result_cons source l tokens limit c hd :
  loop_result source (l :: tokens.1, tokens.2) limit c hd =
  (let '(c, hd, ev) := handle_line l limit c hd in
   let '(st, c, hd, evs) := loop_result source tokens limit c hd in (st, c, hd, ev ++ evs)).
Proof.
  unfold loop_result. cbn. destruct (handle_line l limit c hd) as [[c1 hd1] ev].
  by destruct (run_lines tokens.1 limit c1 hd1) as [[c2 hd2] evs].
Qed.

Lemma source_loop_spec fuel pre acc s limit c hd :
  no_newline acc → (length s < fuel)%nat →
  source_loop fuel (pre ++ acc ++ s) (length pre) (length pre + length acc) limit c hd =
  loop_result (pre ++ acc ++ s) (lines acc s) limit c hd.
Proof.
  revert pre acc s c hd. induction fuel as [|fuel IH]; intros pre acc s c hd Hacc Hfuel; [lia|].
  cbn [source_loop]. rw -(length_app pre acc) (app_assoc pre acc s) drop_app_length.
  pose proof (memchr2_spec s) as Hm. destruct (memchr2 s) as [rel|].
  - destruct Hm as (b & v & Hs & Hu & Hb & Hlen). set (u := take rel s) in *. clearbody u. subst s rel.
    rw (lines_skip acc u) //.
    assert (((pre ++ acc) ++ u ++ b :: v) !! (length (pre ++ acc) + length u)%nat = Some b) as Hlk.
    { rw (app_assoc (pre ++ acc)) -length_app list_lookup_middle //. }
    assert (((pre ++ acc) ++ u ++ b :: v) !! (length (pre ++ acc) + length u + 1)%nat = head v) as Hlk1.
    { rw (app_assoc (pre ++ acc)) -length_app lookup_app_r; [|lia].
      replace (length ((pre ++ acc) ++ u) + 1 - length ((pre ++ acc) ++ u))%nat with 1%nat by lia.
      by destruct v. }
    rw Hlk Hlk1. change (default 0%N (Some b)) with b.
    assert (slice ((pre ++ acc) ++ u ++ b :: v) (length pre) (length (pre ++ acc) + length u) = acc ++ u) as Hsl.
    { rw -(slice_mid pre (acc ++ u) (b :: v)). f_equal; [by rw -!app_assoc|rw !length_app; lia]. }
    rw Hsl. rw length_app in Hfuel. cbn in Hfuel.
    set (src := (pre ++ acc) ++ u ++ b :: v) in *.
    assert (∀ w z n c hd, b :: v = w ++ z → w ≠ [] → n = (length (pre ++ acc) + length u + length w)%nat →
      source_loop fuel src n n limit c hd = loop_result src (lines [] z) limit c hd) as Hrec.
    { intros w z n c' hd' Hwz Hw ->.
      assert (src = ((pre ++ acc) ++ u ++ w) ++ [] ++ z) as Esrc.
      { unfold src. rw Hwz. by rw -!app_assoc. }
      assert (length z < fuel)%nat as Hz.
      { apply (f_equal length) in Hwz. rw length_app in Hwz. cbn in Hwz. destruct w; [done|]. cbn in *. lia. }
      pose proof (IH ((pre ++ acc) ++ u ++ w) [] z c' hd' (Forall_nil_2 _) Hz) as Hih.
      rw -Esrc in Hih. rw -Hih. f_equal; rw !length_app; cbn; lia. }
    unfold is_newline in Hb. cbn [lines]. destruct (b =? c_nl)%N eqn:Enl.
    + rw orb_true_r in Hb. destruct (lines [] v) as [l r] eqn:El.
      rw (loop_result_cons src (acc ++ u) (l, r)). destruct (handle_line _ _ _ _) as [[c1 hd1] ev].
      rw (Hrec [b] v); [by rw El|done|done|cbn; lia].
    + rw orb_false_r in Hb. rw Hb. destruct v as [|b' v']; cbn [head].
      * unfold loop_result. cbn. f_equal. f_equal. f_equal.
        unfold src. rw !length_app. cbn. lia.
      * destruct (b' =? c_nl)%N eqn:Enl'.
        -- destruct (lines [] v') as [l r] eqn:El.
           rw (loop_result_cons src (acc ++ u) (l, r)). destruct (handle_line _ _ _ _) as [[c1 hd1] ev].
           rw (Hrec [b; b'] v'); [by rw El|done|done|cbn; lia].
        -- destruct (lines [] (b' :: v')) as [l r] eqn:El.
           rw (loop_result_cons src (acc ++ u) (l, r)). destruct (handle_line _ _ _ _) as [[c1 hd1] ev].
           rw (Hrec [b] (b' :: v')); [by rw El|done|done|cbn; lia].
  - assert (lines acc s = ([], acc ++ s)) as ->.
    { rw -{1}(app_nil_r s) lines_skip //. }
    unfold loop_result. cbn. f_equal. f_equal. f_equal. rw !length_app. lia.
Qed.

(** The rest is a suffix of the input. *)
Lemma lines_suffix s : ∀ acc l r, lines acc s = (l, r) → ∃ pre, acc ++ s = pre ++ r.
Proof.
  induction s as [s IH] using bytes_ind2. intros acc l r. destruct s as [|x s]; cbn [lines].
  - intros [= <- <-]. exists []. by rw app_nil_r.
  - destruct (x =? c_nl)%N; [|destruct (x =? c_cr)%N].
    + destruct (lines [] s) as [l1 r1] eqn:E. intros [= <- <-].
      apply IH in E as [pre Hp]; [|cbn; lia]. exists (acc ++ x :: pre). rw -app_assoc /= -Hp //.
    + destruct s as [|y s]; [intros [= <- <-]; by exists []|]. destruct (y =? c_nl)%N.
      * destruct (lines [] s) as [l1 r1] eqn:E. intros [= <- <-].
        apply IH in E as [pre Hp]; [|cbn; lia]. exists (acc ++ x :: y :: pre). rw -app_assoc /= -Hp //.
      * destruct (lines [] (y :: s)) as [l1 r1] eqn:E. intros [= <- <-].
        apply IH in E as [pre Hp]; [|cbn; lia]. exists (acc ++ x :: pre). rw -app_assoc /= -Hp //.
    + intros E. apply IH in E as [pre Hp]; [|cbn; lia]. exists pre. by rw -Hp -app_assoc.
Qed.

Lemma rest_drop source s :
  (∃ pre, source = pre ++ s) → drop (length source - length (lines [] s).2) source = (lines [] s).2.
Proof.
  intros [pre ->]. destruct (lines [] s) as [l r] eqn:E. apply lines_suffix in E as [pre' Hp]. cbn in *.
  subst s. rw app_assoc. apply drop_app_length'. rw !length_app. lia.
Qed.

(** ** [feed] *)

Definition strip_bom (bom : bool) (input : Bytes) : Bytes :=
  if negb bom && negb (is_empty input) && starts_with input BOM then drop 3 input else input.

Lemma strip_bom_suffix bom input : ∃ pre, input = pre ++ strip_bom bom input.
Proof.
  unfold strip_bom. destruct (_ && _); [|by exists []]. exists (take 3 input). by rw take_drop.
Qed.

Lemma process_source_spec source k bom limit c hd :
  no_newline (take k source) → (k ≤ length source)%nat → (bom = true ∨ k = 0%nat) →
  process_source source k bom limit c hd =
  (let s := strip_bom bom source in
   let '(c, hd, evs) := run_lines (lines [] s).1 limit c hd in
   ((length source - length (lines [] s).2)%nat, bom || negb (is_empty source), c, hd, evs)).
Proof.
  intros Hk Hle Hbom. unfold process_source, strip_bom.
  assert (source_loop (S (length source)) source 0 k limit c hd =
          loop_result source (lines [] source) limit c hd) as Hplain.
  { pose proof (source_loop_spec (S (length source)) [] (take k source) (drop k source) limit c hd Hk) as Hs.
    rw app_nil_l take_drop length_take_le // in Hs. cbn [length Nat.add] in Hs.
    rw Hs; [|rw length_drop; lia]. f_equal. rw -{3}(take_drop k source) (lines_skip [] (take k source)) //. }
  destruct (negb bom && negb (is_empty source)) eqn:Eb; cbn [andb].
  - apply andb_true_iff in Eb as [Ebom Ene]. destruct bom; [done|]. destruct Hbom as [?| ->]; [done|].
    destruct (starts_with source BOM) eqn:Es.
    + apply starts_with_spec in Es as [r ->].
      pose proof (source_loop_spec (S (length (BOM ++ r))) BOM [] r limit c hd (Forall_nil_2 _)) as Hs.
      cbn [app length Nat.add BOM] in Hs. cbn [Nat.max app BOM length drop].
      rw Hs; [|lia]. unfold loop_result. cbn [BOM app length]. rw drop_0.
      by destruct (run_lines (lines [] r).1 limit c hd) as [[? ?] ?].
    + rw Hplain Ene. unfold loop_result. by destruct (run_lines (lines [] source).1 limit c hd) as [[? ?] ?].
  - rw Hplain. unfold loop_result. destruct (run_lines (lines [] source).1 limit c hd) as [[? ?] ?].
    by destruct bom, (is_empty source).
Qed.

(** Between calls the buffer is an unfinished line that has been scanned, and
    it is only non-empty once the byte order mark was looked for. *)
Record parser_ok (p : SseParser) : Prop := mk_parser_ok {
  pk_rest : lines [] (buffer p) = ([], buffer p);
  pk_scanned : scanned_len p = length (buffer p);
  pk_bom : buffer p = [] ∨ bom_checked p = true;
}.

Lemma parser_new_ok : parser_ok SseParser_new.
Proof. split; [done|done|by left]. Qed.

(** The reference definition of one feed. *)
Definition feed_spec (input : Bytes) (p : SseParser) : SseParser * list SseEvent :=
  let tokens := lines [] (buffer p ++ strip_bom (bom_checked p) input) in
  let '(c, hd, evs) := run_lines tokens.1 (max_event_data_bytes p) (current p) (has_data p) in
  if MAX_BUFFER_SIZE <? len tokens.2 then
    (mkSseParser [] SseEvent_default false false 0 (max_event_data_bytes p),
     evs ++ [mkSseEvent (str "error") (str "SSE buffer limit exceeded") None None])
  else
    (mkSseParser tokens.2 c hd (bom_checked p || negb (is_empty input)) (length tokens.2)
       (max_event_data_bytes p), evs).

Lemma drop_if_lt (n : nat) (l : Bytes) : (if (n <? length l)%nat then drop n l else []) = drop n l.
Proof. destruct (Nat.ltb_spec n (length l)); [done|]. by rw drop_ge. Qed.

Lemma feed_into_spec input p : parser_ok p → feed_into input p = feed_spec input p.
Proof.
  intros [Hrest Hsc Hbom]. unfold feed_into, feed_spec. destruct (buffer p) as [|b0 buf] eqn:Eb.
  - rw process_source_spec; [|rw take_0; constructor|lia|by right]. cbv zeta. rw app_nil_l.
    set (s := strip_bom (bom_checked p) input).
    pose proof (rest_drop input s (strip_bom_suffix (bom_checked p) input)) as Hdrop.
    destruct (run_lines (lines [] s).1 _ _ _) as [[c hd] evs]. rw drop_if_lt Hdrop.
    destruct (Nat.ltb_spec (length input - length (lines [] s).2) (length input)) as [Hlt|Hge]; cbn [andb].
    + done.
    + assert (len (lines [] s).2 = 0) as E0.
      { rw -Hdrop drop_ge //. }
      rw E0. done.
  - rw -Eb in Hrest, Hsc, Hbom |- *. destruct Hbom as [?|Hbom]; [congruence|]. rw Hbom.
    assert (strip_bom true input = input) as -> by done.
    rw process_source_spec; [| |rw length_app; lia|by left].
    + cbv zeta. change (strip_bom true (buffer p ++ input)) with (buffer p ++ input).
      destruct (run_lines (lines [] (buffer p ++ input)).1 _ _ _) as [[c hd] evs].
      rw drop_if_lt rest_drop; [done|by exists []].
    + rw take_app_le; [|lia]. rw Hsc. by eapply rest_no_newline.
Qed.

(** ** Chunks *)

Fixpoint feed_all (chunks : list Bytes) (p : SseParser) : SseParser * list SseEvent :=
  match chunks with
  | [] => (p, [])
  | chunk :: chunks' =>
      let '(p1, e1) := feed chunk p in
      let '(p2, e2) := feed_all chunks' p1 in
      (p2, e1 ++ e2)
  end.

(** The chunk does not end inside a byte order mark, as a string never does. *)
Definition whole_bom (chunk : Bytes) : Prop := chunk ≠ [239%N] ∧ chunk ≠ [239%N; 187%N].

Lemma run_lines_app l1 l2 limit c hd :
  run_lines (l1 ++ l2) limit c hd =
  (let '(c, hd, e1) := run_lines l1 limit c hd in
   let '(c, hd, e2) := run_lines l2 limit c hd in (c, hd, e1 ++ e2)).
Proof.
  revert c hd. induction l1 as [|l l1 IH]; intros c hd; cbn; [by destruct (run_lines l2 limit c hd) as [[? ?] ?]|].
  destruct (handle_line l limit c hd) as [[c1 hd1] ev]. rw IH.
  destruct (run_lines l1 limit c1 hd1) as [[c2 hd2] e1].
  destruct (run_lines l2 limit c2 hd2) as [[c3 hd3] e2]. by rw app_assoc.
Qed.

Lemma strip_bom_app bom a b :
  whole_bom a → strip_bom bom (a ++ b) = strip_bom bom a ++ strip_bom (bom || negb (is_empty a)) b.
Proof.
  intros [H1 H2]. unfold strip_bom. destruct bom; [done|]. cbn [negb andb orb].
  destruct a as [|x [|y [|z a]]]; [done|..]; cbn [is_empty negb andb app].
  - unfold starts_with. cbn [strip_prefix BOM]. by destruct (N.eqb_spec 239 x) as [<-|].
  - unfold starts_with. cbn [strip_prefix BOM]. destruct (N.eqb_spec 239 x) as [<-|]; [|done].
    by destruct (N.eqb_spec 187 y) as [<-|].
  - unfold starts_with. cbn [strip_prefix BOM]. destruct (N.eqb_spec 239 x); [|done].
    destruct (N.eqb_spec 187 y); [|done]. destruct (N.eqb_spec 191 z); [|done].
    cbn [drop]. by rw !drop_0.
Qed.

Lemma strip_bom_length bom a : (length (strip_bom bom a) ≤ length a)%nat.
Proof. destruct (strip_bom_suffix bom a) as [pre Hp]. rw {2}Hp length_app. lia. Qed.

(** Every line is shorter than the buffer limit: so is every run of bytes
    without a line end. *)
Definition short_lines (s : Bytes) : Prop := ∀ x l y, s = x ++ l ++ y → no_newline l → len l < MAX_BUFFER_SIZE.

Lemma short_lines_slice x s y : short_lines (x ++ s ++ y) → short_lines s.
Proof. intros H u l v ->. apply (H (x ++ u) l (v ++ y)). by rw -!app_assoc. Qed.

Lemma short_lines_suffix x s : short_lines (x ++ s) → short_lines s.
Proof. intros H. apply (short_lines_slice x s []). by rw app_nil_r. Qed.

Lemma short_lines_prefix s y : short_lines (s ++ y) → short_lines s.
Proof. apply (short_lines_slice [] s y). Qed.

Lemma small_short s : len s ≤ MAX_BUFFER_SIZE → Exists (λ b, is_newline b = true) s → short_lines s.
Proof.
  intros H He x l y -> Hl. destruct (decide (x = [] ∧ y = [])) as [[-> ->]|Hxy].
  - rewrite ->app_nil_r in He. exfalso. revert He. apply Forall_not_Exists. eapply Forall_impl; [exact Hl|]. intros b Hb. simpl. by rw Hb.
  - pose proof (len_nonneg l). rewrite ->!len_app in H. destruct x; [destruct y; [naive_solver|]|]; len_lia.
Qed.

(** What is left of short lines fits into the buffer. *)
Lemma short_rest s l r : short_lines s → lines [] s = (l, r) → len r ≤ MAX_BUFFER_SIZE.
Proof.
  intros Hs El. assert (lines [] r = ([], r)) as Er by (eapply lines_rest; [constructor|exact El]).
  apply rest_no_newline in Er. apply lines_suffix in El as [pre Ep]. simpl in Ep. subst s.
  rewrite <-(take_drop (length r - 1) r) in Hs. specialize (Hs _ _ _ eq_refl Er).
  unfold len in *. rewrite ->length_take in Hs. lia.
Qed.

Lemma strip_bom_ok p input : parser_ok p → ∃ pre, buffer p ++ input = pre ++ buffer p ++ strip_bom (bom_checked p) input.
Proof.
  intros [_ _ [->|Hb]]; [apply strip_bom_suffix|]. exists []. unfold strip_bom. by rw Hb.
Qed.

(** A feed within the buffer limit. *)
Lemma feed_small input p :
  parser_ok p → short_lines (buffer p ++ input) →
  let tokens := lines [] (buffer p ++ strip_bom (bom_checked p) input) in
  let '(c, hd, evs) := run_lines tokens.1 (max_event_data_bytes p) (current p) (has_data p) in
  feed input p =
  (mkSseParser tokens.2 c hd (bom_checked p || negb (is_empty input)) (length tokens.2)
     (max_event_data_bytes p), evs) ∧
  parser_ok (feed input p).1 ∧ ∃ pre, buffer p ++ input = pre ++ buffer (feed input p).1.
Proof.
  intros Hok Hshort. unfold feed. rw (feed_into_spec _ _ Hok). unfold feed_spec. cbv zeta.
  destruct (strip_bom_ok p input Hok) as [pre0 E0]. rewrite ->E0 in Hshort |- *.
  destruct (lines [] (buffer p ++ strip_bom (bom_checked p) input)) as [l r] eqn:El. cbn [fst snd].
  destruct (run_lines l _ _ _) as [[c hd] evs].
  pose proof (short_rest _ _ _ (short_lines_suffix _ _ Hshort) El) as Hr. rw (proj2 (Z.ltb_ge _ _)); [|lia].
  pose proof (lines_suffix _ _ _ _ El) as [pre1 E1]. simpl in E1. rewrite ->E1.
  split; [done|]. split; [|exists (pre0 ++ pre1); by rw -app_assoc].
  split; cbn [fst buffer scanned_len bom_checked]; [|done|].
  - eapply lines_rest; [|exact El]. constructor.
  - destruct input as [|b input]; [|right; by rw orb_true_r].
    assert (strip_bom (bom_checked p) [] = []) as E2 by (unfold strip_bom; by destruct (bom_checked p)).
    rw E2 app_nil_r (pk_rest _ Hok) in El. injection El as <- <-.
    destruct (pk_bom _ Hok) as [->| ->]; [by left|by right].
Qed.

(** What a feed leaves, and short lines of what follows. *)
Lemma feed_leaves a b p : parser_ok p → short_lines (buffer p ++ a ++ b) →
  parser_ok (feed a p).1 ∧ short_lines (buffer (feed a p).1 ++ b).
Proof.
  intros Hok Hs. rewrite ->app_assoc in Hs. pose proof (feed_small a p Hok (short_lines_prefix _ _ Hs)) as H. cbv zeta in H.
  destruct (run_lines _ _ _ _) as [[? ?] ?]. destruct H as (_ & Hok1 & pre & Hp). split; [done|].
  rewrite ->Hp, <-app_assoc in Hs. by apply short_lines_suffix in Hs.
Qed.

Lemma feed_two a b p :
  parser_ok p → whole_bom a → short_lines (buffer p ++ a ++ b) →
  feed (a ++ b) p = (let '(p1, e1) := feed a p in let '(p2, e2) := feed b p1 in (p2, e1 ++ e2)).
Proof.
  intros Hok Hw Hshort. destruct (feed_leaves a b p Hok Hshort) as [Hok1 Hshort1].
  pose proof (feed_small (a ++ b) p Hok Hshort) as Hab. rewrite ->app_assoc in Hshort.
  pose proof (feed_small a p Hok (short_lines_prefix _ _ Hshort)) as Ha. cbv zeta in Ha, Hab.
  rw strip_bom_app // app_assoc in Hab.
  rw (lines_app (buffer p ++ strip_bom (bom_checked p) a) []) in Hab; [|constructor].
  destruct (lines [] (buffer p ++ strip_bom (bom_checked p) a)) as [l1 r1] eqn:E1. cbn [fst snd] in Ha.
  destruct (run_lines l1 (max_event_data_bytes p) (current p) (has_data p)) as [[c1 hd1] e1] eqn:Er1.
  destruct Ha as (Efa & _). rw Efa in Hok1, Hshort1 |- *. cbn [fst buffer] in Hok1, Hshort1.
  set (p1 := mkSseParser r1 c1 hd1 _ _ _) in *.
  pose proof (feed_small b p1 Hok1 Hshort1) as Hb. cbn in Hb.
  destruct (lines [] (r1 ++ strip_bom (bom_checked p || negb (is_empty a)) b)) as [l2 r2] eqn:E2.
  cbn [fst snd] in Hb, Hab. rw run_lines_app Er1 in Hab.
  destruct (run_lines l2 (max_event_data_bytes p) c1 hd1) as [[c2 hd2] e2].
  destruct Hb as (-> & _). destruct Hab as (-> & _).
  f_equal. f_equal. by destruct (bom_checked p), a.
Qed.

Lemma feed_nil p : parser_ok p → short_lines (buffer p) → feed [] p = (p, []).
Proof.
  intros Hok Hlen. pose proof (feed_small [] p Hok) as Hf. cbv zeta in Hf.
  assert (strip_bom (bom_checked p) [] = []) as E0 by (unfold strip_bom; by destruct (bom_checked p)).
  rw E0 !app_nil_r (pk_rest _ Hok) in Hf. cbn in Hf. destruct (Hf Hlen) as (-> & _).
  rw orb_false_r -(pk_scanned _ Hok). by destruct p.
Qed.

Lemma feed_all_concat chunks p :
  parser_ok p → Forall whole_bom chunks → short_lines (buffer p ++ concat chunks) →
  feed_all chunks p = feed (concat chunks) p.
Proof.
  revert p. induction chunks as [|c chunks IH]; intros p Hok Hw Hlen; cbn.
  - rw feed_nil //. by rewrite ->app_nil_r in Hlen.
  - apply Forall_cons in Hw as [Hc Hw]. cbn in Hlen. rw feed_two //.
    destruct (feed_leaves _ _ _ Hok Hlen) as [Hok1 Hlen1]. destruct (feed c p) as [p1 e1]. rw IH //.
Qed.

(** The parser does not depend on how the network cuts the stream:
    however a body whose lines are within the buffer limit is split into chunks (strings, so
    no chunk ends inside a byte order mark; CRLF pairs, lines and events may
    be split anywhere), the events and the parser state are those of feeding
    it in one piece. *)
Theorem sse_chunking_is_irrelevant (chunks : list Bytes) :
  Forall whole_bom chunks → short_lines (concat chunks) →
  feed_all chunks SseParser_new = feed (concat chunks) SseParser_new.
Proof. intros Hw Hlen. apply feed_all_concat; [apply parser_new_ok|done|done]. Qed.

Lemma sse_chunking_is_irrelevant_witness :
  let chunks := [str "da"; str "ta: hi" ++ [c_cr]; [c_nl; c_cr]; [c_nl] ++ str "data"] in
  (feed_all chunks SseParser_new).2 = [mkSseEvent (str "message") (str "hi") None None] ∧
  feed_all chunks SseParser_new = feed (concat chunks) SseParser_new.
Proof.
  intros chunks. split; [vm_compute; reflexivity|].
  apply (sse_chunking_is_irrelevant chunks); [|apply small_short; [vm_compute; discriminate|apply (bool_decide_eq_true_1 _); vm_compute; reflexivity]].
  repeat constructor; discriminate.
Defined.

(** ** Round trip *)

(** A server's rendering of an event: its name, its data lines, a blank
    line. *)
Definition data_field (l : Bytes) : Bytes := str "data: " ++ l.
Definition event_field (name : Bytes) : Bytes := str "event: " ++ name.
Definition render_lines (ls : list Bytes) : Bytes := concat ((λ l, l ++ [c_nl]) <$> ls).
Definition render_event (name : Bytes) (ls : list Bytes) : Bytes :=
  render_lines (event_field name :: (data_field <$> ls) ++ [[]]).

Fixpoint join_nl (ls : list Bytes) : Bytes :=
  match ls with
  | [] => []
  | [l] => l
  | l :: ls' => l ++ c_nl :: join_nl ls'
  end.

Lemma lines_render ls rest :
  Forall no_newline ls →
  lines [] (render_lines ls ++ rest) = (ls ++ (lines [] rest).1, (lines [] rest).2).
Proof.
  unfold render_lines. induction 1 as [|l ls Hl _ IH]; cbn; [by destruct (lines [] rest)|].
  rw -!app_assoc (lines_skip [] l) // app_nil_l. cbn. by rw IH.
Qed.

Lemma process_event name limit c hd :
  process_line (event_field name) limit c hd = (set_event name c, hd).
Proof. done. Qed.

Lemma process_data l limit c hd :
  process_line (data_field l) limit c hd = append_data_line l limit c.
Proof. done. Qed.

Lemma run_data_lines ls limit c hd :
  len (data c) + len (render_lines ls) ≤ limit → limit ≤ usize_max →
  run_lines (data_field <$> ls) limit c hd =
  (mkSseEvent (event c) (data c ++ render_lines ls) (id c) (retry c),
   match ls with [] => hd | _ => true end, []).
Proof.
  intros Hlen Hmax. revert c hd Hlen. induction ls as [|l ls IH]; intros c hd Hlen; cbn.
  - rw app_nil_r. by destruct c.
  - change (handle_line (data_field l) limit c hd) with
      (let '(c, hd) := process_line (data_field l) limit c hd in (c, hd, @nil SseEvent)).
    unfold render_lines in Hlen. cbn in Hlen. rw !len_app in Hlen. pose proof (len_nonneg (concat ((λ l, l ++ [c_nl]) <$> ls))).
    rw process_data. unfold append_data_line. rw (proj2 (Z.ltb_ge _ _)); [|len_lia].
    rw IH; [|cbn [data]; rw !len_app; unfold render_lines; lia].
    cbn. unfold render_lines. cbn. rw -!app_assoc. by destruct ls.
Qed.

Lemma render_join ls : ls ≠ [] → render_lines ls = join_nl ls ++ [c_nl].
Proof.
  unfold render_lines. induction ls as [|l ls IH]; intros Hne; [done|]. destruct ls as [|l' ls].
  - cbn. by rw app_nil_r.
  - cbn in IH |- *. rw IH //. by rw -!app_assoc.
Qed.

Lemma finish_data name d i r :
  name ≠ [] → finish_event (mkSseEvent name (d ++ [c_nl]) i r) = mkSseEvent name d i r.
Proof.
  intros Hn. unfold finish_event. cbn [data event id retry]. rw last_snoc. cbn [N.eqb c_nl Pos.eqb].
  rw length_app Nat.add_sub take_app_length. by destruct name.
Qed.

Lemma no_newline_fields name ls :
  no_newline name → Forall no_newline ls →
  Forall no_newline (event_field name :: (data_field <$> ls) ++ [[]]).
Proof.
  intros Hn Hls. constructor; [apply Forall_app; split; [|done]; by repeat constructor|].
  apply Forall_app. split; [|by repeat constructor]. apply Forall_fmap.
  eapply Forall_impl; [exact Hls|]. intros l Hl. apply Forall_app. split; [|done]. by repeat constructor.
Qed.

(** What a server renders is what the parser delivers: an idle parser
    fed an event with a non-empty name and at least one data line (no line
    breaks in any of them, within the size limits) emits exactly one event,
    with that name and the lines joined by newlines, keeps the last id and
    retry hint, and is idle again. *)
Theorem sse_event_round_trip name ls p :
  parser_ok p → buffer p = [] → has_data p = false → data (current p) = [] →
  name ≠ [] → ls ≠ [] → no_newline name → Forall no_newline ls →
  len (render_event name ls) ≤ MAX_BUFFER_SIZE →
  len (render_event name ls) ≤ max_event_data_bytes p ≤ usize_max →
  feed (render_event name ls) p =
  (mkSseParser [] (mkSseEvent (str "message") [] (id (current p)) (retry (current p))) false true 0
     (max_event_data_bytes p),
   [mkSseEvent name (join_nl ls) (id (current p)) (retry (current p))]).
Proof.
  intros Hok Hbuf Hhd Hdata Hname Hls Hnn Hln Hlen Hlim.
  assert (strip_bom (bom_checked p) (render_event name ls) = render_event name ls) as Hbom.
  { unfold strip_bom, render_event, render_lines, event_field. cbn [fmap list_fmap concat].
    by destruct (bom_checked p). }
  assert (short_lines (buffer p ++ render_event name ls)) as Hsmall.
  { rw Hbuf app_nil_l. apply small_short; [done|]. unfold render_event, render_lines. cbn [fmap list_fmap concat].
    rw !Exists_app. left. right. by left. }
  pose proof (feed_small (render_event name ls) p Hok Hsmall) as Hf. cbv zeta in Hf. rw Hbuf Hbom app_nil_l in Hf.
  assert (lines [] (render_event name ls) = (event_field name :: (data_field <$> ls) ++ [[]], [])) as Htok.
  { unfold render_event. pose proof (lines_render _ [] (no_newline_fields name ls Hnn Hln)) as Hr.
    rw app_nil_r in Hr. cbn [lines fst snd] in Hr. rw Hr. f_equal. apply app_nil_r. }
  rw Htok in Hf. cbn [fst snd] in Hf.
  change (event_field name :: (data_field <$> ls) ++ [[]]) with
    ([event_field name] ++ ((data_field <$> ls) ++ [[]])) in Hf.
  rw (run_lines_app [event_field name]) in Hf.
  change (run_lines [event_field name] (max_event_data_bytes p) (current p) (has_data p)) with
    (set_event name (current p), has_data p, @nil SseEvent) in Hf. cbv beta iota in Hf.
  rw (run_lines_app (data_field <$> ls)) in Hf.
  assert (len (render_lines ls) ≤ len (render_event name ls)) as Hsub.
  { unfold render_event, render_lines, len. cbn. rw !length_app fmap_app concat_app length_app.
    clear. induction ls as [|l ls IH]; cbn in *; [lia|]. unfold data_field in *. rw !length_app in IH |- *. cbn in *. lia. }
  rw (run_data_lines ls) in Hf; [|cbn [data set_event]; rw Hdata; len_lia|lia]. cbv beta iota in Hf.
  destruct ls as [|l0 ls0]; [done|]. set (ls := l0 :: ls0) in *.
  cbn [set_event event data id retry] in Hf. rw Hdata app_nil_l render_join // in Hf.
  unfold run_lines, handle_line in Hf. cbn [is_empty] in Hf. rw finish_data // in Hf.
  cbn [app carry_forward_event_state id retry fst] in Hf.
  destruct Hf as (Hfeed & _). rw Hfeed. f_equal. f_equal. by destruct (bom_checked p).
Qed.

Lemma sse_event_round_trip_witness :
  feed (render_event (str "ping") [str "a"; str "b"]) SseParser_new =
  (mkSseParser [] SseEvent_default false true 0 MAX_EVENT_DATA_BYTES,
   [mkSseEvent (str "ping") (str "a" ++ c_nl :: str "b") None None]).
Proof.
  apply (sse_event_round_trip (str "ping") [str "a"; str "b"] SseParser_new);
    [apply parser_new_ok|reflexivity|reflexivity|reflexivity|discriminate|discriminate
     |repeat constructor|repeat constructor|vm_compute; discriminate|vm_compute; split; discriminate].
Defined.

(** ** The end of the stream *)

(** An unfinished line has no newline, but for a final CR. *)
Lemma unfinished_shape acc s r :
  lines acc s = ([], r) → ∃ u, no_newline u ∧ (s = u ∨ s = u ++ [c_cr]).
Proof.
  revert acc. induction s as [|b s IH]; intros acc; cbn [lines].
  - exists []. split; [constructor|by left].
  - destruct (N.eqb_spec b c_nl) as [->|Hnl]; [by destruct (lines [] s)|].
    destruct (N.eqb_spec b c_cr) as [->|Hcr].
    + destruct s as [|b' s]; [exists []; split; [constructor|by right]|].
      destruct (b' =? c_nl)%N; [by destruct (lines [] s)|by destruct (lines [] (b' :: s))].
    + intros Hl. destruct (IH _ Hl) as (u & Hu & Hs). exists (b :: u). split.
      * constructor; [|done]. unfold is_newline.
        by rw (proj2 (N.eqb_neq _ _) Hnl) (proj2 (N.eqb_neq _ _) Hcr).
      * destruct Hs as [->| ->]; [by left|by right].
Qed.

Lemma trim_start_cr_no_newline u : no_newline u → trim_start_cr u = u.
Proof.
  destruct 1 as [|b u Hb _]; [done|]. cbn. unfold is_newline in Hb.
  apply orb_false_iff in Hb as [Hb _]. by rw Hb.
Qed.

Lemma trim_end_cr_unfinished u :
  no_newline u → trim_end_cr u = u ∧ trim_end_cr (u ++ [c_cr]) = u.
Proof.
  intros Hu. unfold trim_end_cr. rw reverse_snoc. cbn [trim_start_cr]. change (c_cr =? c_cr)%N with true.
  rw trim_start_cr_no_newline; [|by apply Forall_reverse]. by rw reverse_involutive.
Qed.

(** What two newlines complete: the unfinished line and a blank one. *)
Lemma lines_terminated u :
  no_newline u →
  lines [] (u ++ [c_nl; c_nl]) = ([u; []], []) ∧
  lines [] ((u ++ [c_cr]) ++ [c_nl; c_nl]) = ([u; []], []).
Proof. intros Hu. by rw -app_assoc !(lines_skip [] u) //. Qed.

(** The end of the stream delivers what a terminator would have: between
    feeds, [flush] returns exactly the event, if any, that two more newlines
    would have made the parser emit, and nothing is pending afterwards. *)
Theorem sse_flush_is_final_terminator p :
  parser_ok p →
  (feed [c_nl; c_nl] p).2 = option_list (flush p).2 ∧ sse_has_pending (flush p).1 = false.
Proof.
  intros Hok. split; [|unfold flush, sse_has_pending; destruct (match buffer p with [] => _ | _ => _ end) as [c hd]; by destruct hd].
  unfold feed. rw feed_into_spec //. unfold feed_spec. cbv zeta.
  assert (strip_bom (bom_checked p) [c_nl; c_nl] = [c_nl; c_nl]) as -> by (by destruct (bom_checked p)).
  destruct (unfinished_shape _ _ _ (pk_rest _ Hok)) as (u & Hu & Hb).
  assert (lines [] (buffer p ++ [c_nl; c_nl]) = ([u; []], [])) as Hl.
  { destruct Hb as [->| ->]; by apply lines_terminated. }
  assert ((flush p).2 =
          let '(c, hd) := process_line u (max_event_data_bytes p) (current p) (has_data p) in
          if hd then Some (finish_event c) else None) as ->.
  { unfold flush. destruct (trim_end_cr_unfinished u Hu) as [H1 H2].
    assert (trim_end_cr (buffer p) = u) as Ht by (by destruct Hb as [->| ->]). rw Ht.
    destruct (buffer p) eqn:Eb; [destruct Hb as [<-|[]%app_cons_not_nil]; cbn|];
      [by destruct (has_data p)|destruct (process_line _ _ _ _) as [c hd]; by destruct hd]. }
  rw Hl. cbn [fst snd run_lines]. unfold handle_line. destruct u as [|b u]; cbn [is_empty].
  - cbn. by destruct (has_data p).
  - destruct (process_line (b :: u) _ _ _) as [c hd]. by destruct hd.
Qed.

Lemma sse_flush_is_final_terminator_witness :
  let p := (feed (str "id: 7" ++ [c_nl] ++ str "data: bye" ++ [c_cr]) SseParser_new).1 in
  (flush p).2 = Some (mkSseEvent (str "message") (str "bye") (Some (str "7")) None) ∧
  (feed [c_nl; c_nl] p).2 = option_list (flush p).2.
Proof.
  intros p. split; [vm_compute; reflexivity|].
  refine (proj1 (sse_flush_is_final_terminator p _)).
  split; [vm_compute; reflexivity|vm_compute; reflexivity|right; vm_compute; reflexivity].
Defined.
