(* ===== verification/SseStream.v ===== *)
(** * The event stream of a provider ([SseStream] of [src/sse.rs])

    The bytes of a response arrive in chunks that may end inside a character;
    the stream puts the characters together again, feeds them to the parser
    of [Sse.v] and hands out its events, one for each poll.

    The inner byte stream is the list of what its polls return; after the
    last one it has ended. *)

From S2P Require Import Prelude Text Utf8 Utf8Bytes Sse.

Section Stream.
Context {InnerError : Type}.

Inductive IoError := InvalidUtf8 | BadPrefix | IncompleteUtf8 | InnerIo (e : InnerError).

(** What one poll of the inner stream returns. *)
Inductive Item := IPending | IChunk (bytes : ByteStr) | IError (e : InnerError).

Record SseStream := mkStream {
  inner : list Item;
  parser : SseParser;
  pending_events : list SseEvent;
  pending_error : option IoError;
  pending_error_is_terminal : bool;
  terminated : bool;
  utf8_buffer : ByteStr;
}.

Definition SseStream_new (inner : list Item) : SseStream := mkStream inner SseParser_new [] None false false [].

Definition feed_parsed_chunk (st : SseParser * list SseEvent) (s : ByteStr) : SseParser * list SseEvent :=
  let '(p, evs) := feed_into s st.1 in (p, st.2 ++ evs).

(** The loop of both [process_chunk] functions: the parser and the pending
    events, the error, and the bytes left over ([None] on the early return
    with [?]). *)
Fixpoint utf8_loop (fuel : nat) (bytes : ByteStr) (processed : nat) (st : SseParser * list SseEvent) (first_error : option IoError)
    : (SseParser * list SseEvent) * option IoError * option ByteStr :=
  match fuel with
  | O => (st, first_error, Some [])
  | S fuel' =>
      match from_utf8 (drop processed bytes) with
      | Ok s => (if is_empty (drop processed bytes) then st else feed_parsed_chunk st (drop processed bytes), first_error, Some [])
      | Err err =>
          let valid_len := valid_up_to err in
          let part := take valid_len (drop processed bytes) in
          match (if (0 <? valid_len)%nat then from_utf8 part else Ok []) with
          | Err _ => (st, Some BadPrefix, None)
          | Ok _ =>
              let st := if (0 <? valid_len)%nat then feed_parsed_chunk st part else st in
              let processed := (processed + valid_len)%nat in
              match error_len err with
              | Some invalid_len =>
                  utf8_loop fuel' bytes (processed + invalid_len) st
                    (match first_error with None => Some InvalidUtf8 | Some _ => first_error end)
              | None => (st, first_error, Some (drop processed bytes))
              end
          end
      end
  end.

Definition set_parsed (s : SseStream) (st : SseParser * list SseEvent) (buffer : ByteStr) : SseStream :=
  mkStream (inner s) st.1 st.2 (pending_error s) (pending_error_is_terminal s) (terminated s) buffer.

Definition process_chunk_without_utf8_tail (bytes : ByteStr) (s : SseStream) : SseStream * option IoError :=
  let '(st, err, rest) := utf8_loop (S (length bytes)) bytes 0 (parser s, pending_events s) None in
  (set_parsed s st (match rest with Some rest => utf8_buffer s ++ rest | None => utf8_buffer s end), err).

Definition process_chunk_with_utf8_tail (bytes : ByteStr) (s : SseStream) : SseStream * option IoError :=
  let buffer := utf8_buffer s ++ bytes in
  let '(st, err, rest) := utf8_loop (S (length buffer)) buffer 0 (parser s, pending_events s) None in
  (set_parsed s st (match rest with Some rest => rest | None => buffer end), err).

Definition process_chunk (bytes : ByteStr) (s : SseStream) : SseStream * option IoError :=
  if is_empty (utf8_buffer s) then process_chunk_without_utf8_tail bytes s else process_chunk_with_utf8_tail bytes s.

Inductive Polled := PPending | PReady (r : option (result SseEvent IoError)).

(** The resets of a terminal error. *)
Definition stop_stream (s : SseStream) (error : option IoError) : SseStream :=
  mkStream (inner s) SseParser_new [] error (pending_error_is_terminal s) true [].

Definition poll_stream_end (s : SseStream) : SseStream * Polled :=
  if negb (is_empty (utf8_buffer s)) then (stop_stream s None, PReady (Some (Err IncompleteUtf8)))
  else
    let '(p, event) := flush (parser s) in
    (mkStream (inner s) p (pending_events s) (pending_error s) (pending_error_is_terminal s) true (utf8_buffer s),
     PReady (match event with Some event => Some (Ok event) | None => None end)).

Definition set_inner (s : SseStream) (items : list Item) : SseStream :=
  mkStream items (parser s) (pending_events s) (pending_error s) (pending_error_is_terminal s) (terminated s) (utf8_buffer s).
Definition set_pending (s : SseStream) (evs : list SseEvent) : SseStream :=
  mkStream (inner s) (parser s) evs (pending_error s) (pending_error_is_terminal s) (terminated s) (utf8_buffer s).

(** The loop of [poll_next_event]. *)
Fixpoint poll_loop (items : list Item) (s : SseStream) : SseStream * Polled :=
  match items with
  | [] => poll_stream_end (set_inner s [])
  | IPending :: items' => (set_inner s items', PPending)
  | IError e :: items' => (set_inner s items', PReady (Some (Err (InnerIo e))))
  | IChunk bytes :: items' =>
      let '(s, err) := process_chunk bytes (set_inner s items') in
      match err, pending_events s with
      | Some err, event :: evs =>
          (mkStream (inner s) (parser s) evs (Some err) true (terminated s) (utf8_buffer s), PReady (Some (Ok event)))
      | Some err, [] => (stop_stream s (pending_error s), PReady (Some (Err err)))
      | None, event :: evs => (set_pending s evs, PReady (Some (Ok event)))
      | None, [] => poll_loop items' s
      end
  end.

Definition poll_next_event (s : SseStream) : SseStream * Polled :=
  match pending_events s with
  | event :: evs => (set_pending s evs, PReady (Some (Ok event)))
  | [] =>
      match pending_error s with
      | Some err =>
          ((if pending_error_is_terminal s
            then mkStream (inner s) SseParser_new [] None false true []
            else mkStream (inner s) (parser s) [] None false (terminated s) (utf8_buffer s)), PReady (Some (Err err)))
      | None => if terminated s then (s, PReady None) else poll_loop (inner s) s
      end
  end.

(** What a consumer gets that polls until the stream ends. *)
Fixpoint collect (fuel : nat) (s : SseStream) : list (result SseEvent IoError) :=
  match fuel with
  | O => []
  | S fuel' =>
      match poll_next_event s with
      | (_, PReady None) => []
      | (s, PReady (Some r)) => r :: collect fuel' s
      | (s, PPending) => collect fuel' s
      end
  end.

(** ** Decoding a chunk *)

Definition chunk_of (i : Item) : ByteStr := match i with IChunk bytes => bytes | _ => [] end.
Definition body (items : list Item) : ByteStr := items ≫= chunk_of.

Lemma valid_not_bom b s : from_utf8 b = Ok s → whole_bom b.
Proof. intros H. split; intros ->; by vm_compute in H. Qed.

Lemma feed_parsed_grows (st : SseParser * list SseEvent) (s : ByteStr) : st.2 `prefix_of` (feed_parsed_chunk st s).2.
Proof. unfold feed_parsed_chunk. destruct (feed_into s st.1). by eexists. Qed.

(** One turn of the loop, in terms of what the bytes decode to. *)
Lemma utf8_loop_step fuel bytes processed st first_error s e t :
  drop processed bytes = utf8_encode s ++ t → Forall scalar s → utf8_rest e t →
  utf8_loop (S fuel) bytes processed st first_error =
  let st := if is_empty (utf8_encode s) then st else feed_parsed_chunk st (utf8_encode s) in
  match e with
  | EndOk => (st, first_error, Some [])
  | EndIncomplete => (st, first_error, Some t)
  | EndInvalid n => utf8_loop fuel bytes (processed + length (utf8_encode s) + n) st
                      (match first_error with None => Some InvalidUtf8 | Some _ => first_error end)
  end.
Proof.
  intros Ed Hs Ht. assert (utf8_of (drop processed bytes) = (s, e)) as Er.
  { rw Ed utf8_of_encode // (utf8_of_rest e t Ht) /=. by rw app_nil_r. }
  cbn [utf8_loop]. unfold from_utf8 at 1. unfold utf8_of in Er. rw Er.
  assert ((0 <? length (utf8_encode s))%nat = negb (is_empty (utf8_encode s))) as E0 by by destruct (utf8_encode s).
  destruct e as [|n|]; cbn [valid_up_to error_len].
  - simpl in Ht. subst t. rw app_nil_r in Ed. rw Ed. by destruct (is_empty _).
  - rw E0 Ed take_app_length from_utf8_encode //. by destruct (is_empty (utf8_encode s)).
  - rw E0 -(drop_drop bytes (length (utf8_encode s)) processed) Ed take_app_length drop_app_length from_utf8_encode //. by destruct (is_empty (utf8_encode s)).
Qed.

(** The parts of some bytes that are UTF-8, without what is invalid between
    them and without an unfinished character at the end. *)
Fixpoint valid_parts (fuel : nat) (bytes : ByteStr) : list ByteStr :=
  match fuel with
  | O => []
  | S fuel' =>
      let '(s, e) := utf8_of bytes in
      (if is_empty (utf8_encode s) then [] else [utf8_encode s]) ++
      match e with EndInvalid n => valid_parts fuel' (drop (length (utf8_encode s) + n) bytes) | _ => [] end
  end.
Definition decoded_parts (bytes : ByteStr) : list ByteStr := valid_parts (S (length bytes)) bytes.

Lemma valid_parts_fuel f g bytes : (length bytes < f)%nat → (length bytes < g)%nat → valid_parts f bytes = valid_parts g bytes.
Proof.
  revert g bytes. induction f as [|f IH]; intros [|g] bytes Hf Hg; [lia..|]. cbn [valid_parts].
  destruct (utf8_of bytes) as [s e] eqn:Er. apply utf8_of_spec in Er as (_ & t & -> & Ht). f_equal.
  destruct e as [|n|]; [done| |done]. destruct Ht as [_ Hd]. apply decode_one_invalid in Hd.
  rewrite ->length_app in Hf, Hg. apply IH; rw length_drop length_app; lia.
Qed.

(** Feeding the parts one after the other. *)
Definition feed_parts (parts : list ByteStr) (st : SseParser * list SseEvent) : SseParser * list SseEvent :=
  let '(p, evs) := feed_all parts st.1 in (p, st.2 ++ evs).

Lemma feed_parts_nil st : feed_parts [] st = st.
Proof. unfold feed_parts. simpl. rw app_nil_r. by destruct st. Qed.

(** Once there is an error it stays, and the loop feeds the parser what else
    is valid. *)
Lemma utf8_loop_keeps fuel bytes processed st e :
  ∃ rest, utf8_loop fuel bytes processed st (Some e) = (feed_parts (valid_parts fuel (drop processed bytes)) st, Some e, Some rest).
Proof.
  revert processed st. induction fuel as [|fuel IH]; intros processed st.
  { exists []. cbn [valid_parts]. by rw feed_parts_nil. }
  cbn [valid_parts]. destruct (utf8_of (drop processed bytes)) as [s end_] eqn:Er. apply utf8_of_spec in Er as (Hs & t & Et & Ht).
  rw (utf8_loop_step fuel bytes processed st (Some e) s end_ t) //. cbv zeta.
  assert (∀ parts, feed_parts ((if is_empty (utf8_encode s) then [] else [utf8_encode s]) ++ parts) st =
    feed_parts parts (if is_empty (utf8_encode s) then st else feed_parsed_chunk st (utf8_encode s))) as Hfeed.
  { intros parts. destruct (is_empty _); [done|]. unfold feed_parts, feed_parsed_chunk. cbn [app feed_all]. unfold feed.
    destruct (feed_into _ _) as [p1 e1]. cbn [fst snd]. destruct (feed_all parts p1) as [p2 e2]. by rw app_assoc. }
  rw Hfeed. destruct end_ as [|n|]; [rw feed_parts_nil; by eexists| |rw feed_parts_nil; by eexists].
  destruct (IH (processed + length (utf8_encode s) + n)%nat (if is_empty (utf8_encode s) then st else feed_parsed_chunk st (utf8_encode s))) as [rest ->].
  exists rest. by rw drop_drop Nat.add_assoc.
Qed.

(** Feeding nothing does nothing. *)
Lemma feed_parsed_spec st s :
  parser_ok st.1 → short_lines (buffer st.1) →
  (if is_empty s then st else feed_parsed_chunk st s) = ((feed s st.1).1, st.2 ++ (feed s st.1).2).
Proof.
  intros Hok Hlen. destruct s as [|b s]; cbn [is_empty].
  - rw feed_nil //=. rw app_nil_r. by destruct st.
  - unfold feed_parsed_chunk, feed. by destruct (feed_into (b :: s) st.1).
Qed.

(** What a chunk does, by what the bytes at hand decode to. *)
Lemma process_chunk_spec bytes s u e t :
  parser_ok (parser s) → short_lines (buffer (parser s)) →
  utf8_buffer s ++ bytes = utf8_encode u ++ t → Forall scalar u → utf8_rest e t →
  let r := feed (utf8_encode u) (parser s) in
  match e with
  | EndInvalid n => ∃ p buf, let more := (feed_all (decoded_parts (drop n t)) r.1).2 in
      process_chunk bytes s = (set_parsed s (p, pending_events s ++ r.2 ++ more) buf, Some InvalidUtf8)
  | _ => process_chunk bytes s = (set_parsed s (r.1, pending_events s ++ r.2) t, None)
  end.
Proof.
  intros Hok Hlen Eb Hu Ht r.
  assert (∀ st err rest, utf8_loop (S (length (utf8_buffer s ++ bytes))) (utf8_buffer s ++ bytes) 0 (parser s, pending_events s) None
            = (st, err, Some rest) → process_chunk bytes s = (set_parsed s st rest, err)) as Hp.
  { intros st err rest. unfold process_chunk. destruct (is_empty (utf8_buffer s)) eqn:E0.
    - unfold process_chunk_without_utf8_tail. destruct (utf8_buffer s) eqn:E1; [|done]. cbn [app]. by intros ->.
    - unfold process_chunk_with_utf8_tail. by intros ->. }
  pose proof (utf8_loop_step (length (utf8_buffer s ++ bytes)) (utf8_buffer s ++ bytes) 0 (parser s, pending_events s) None u e t Eb Hu Ht) as El.
  rw feed_parsed_spec // in El. cbn [fst snd] in El. fold r in El. destruct e as [|n|].
  - simpl in Ht. subst t. by apply Hp.
  - destruct (utf8_loop_keeps (length (utf8_buffer s ++ bytes)) (utf8_buffer s ++ bytes) (0 + length (utf8_encode u) + n)
      (r.1, pending_events s ++ r.2) InvalidUtf8) as (rest & E). rw E in El. apply Hp in El. rw El. clear El E.
    destruct Ht as [_ Hd]. apply decode_one_invalid in Hd. rw Eb. cbn [Nat.add].
    rewrite <-(drop_drop (utf8_encode u ++ t)), drop_app_length.
    rw (valid_parts_fuel _ (S (length (drop n t)))); [|rw length_drop length_app; lia|lia].
    fold (decoded_parts (drop n t)). unfold feed_parts. cbn [fst snd].
    destruct (feed_all (decoded_parts (drop n t)) r.1) as [p evs]. exists p, rest. cbn [snd]. by rw -app_assoc.
  - by apply Hp.
Qed.

(** ** Polling *)

Lemma collect_drain s fuel :
  (length (pending_events s) ≤ fuel)%nat →
  collect fuel s = (Ok <$> pending_events s) ++ collect (fuel - length (pending_events s)) (set_pending s []).
Proof.
  remember (pending_events s) as evs eqn:E. revert s fuel E. induction evs as [|ev evs IH]; intros s fuel E Hf.
  { simpl. rw Nat.sub_0_r. destruct s; simpl in *; by subst. }
  destruct fuel as [|fuel]; [simpl in Hf; lia|]. cbn [collect]. unfold poll_next_event. rw -E. simpl. f_equal.
  apply (IH (set_pending s evs)); [done|simpl in Hf; lia].
Qed.

Lemma collect_terminated s fuel : pending_events s = [] → pending_error s = None → terminated s = true → collect fuel s = [].
Proof. intros E1 E2 E3. destruct fuel; [done|]. cbn [collect]. unfold poll_next_event. by rw E1 E2 E3. Qed.

(** Events, then a terminal error. *)
Lemma collect_error s fuel err :
  pending_error s = Some err → pending_error_is_terminal s = true → (length (pending_events s) < fuel)%nat →
  collect fuel s = (Ok <$> pending_events s) ++ [Err err].
Proof.
  intros E1 E2 Hf. rw collect_drain; [|lia]. f_equal. destruct (fuel - length (pending_events s))%nat as [|n] eqn:En; [lia|].
  cbn [collect]. unfold poll_next_event. simpl. rw E1 E2. by rw collect_terminated.
Qed.

(** A chunk that decodes is taken in without a poll of its own. *)
Lemma collect_chunk s bytes items s' fuel :
  pending_events s = [] → pending_error s = None → terminated s = false → inner s = IChunk bytes :: items →
  process_chunk bytes (set_inner s items) = (s', None) → inner s' = items → pending_error s' = None → terminated s' = false →
  collect fuel s = collect fuel s'.
Proof.
  intros E1 E2 E3 E4 Ep E5 E6 E7. destruct fuel as [|fuel]; [done|]. cbn [collect]. unfold poll_next_event at 1. rw E1 E2 E3 E4. cbn [poll_loop].
  rw Ep. unfold poll_next_event. rw E6 E7 E5. by destruct (pending_events s').
Qed.

Definition no_error (i : Item) : Prop := match i with IError _ => False | _ => True end.

(** How a stream ends, by how its bytes do. *)
Definition ending (e : Utf8End) (p : SseParser) (more : list SseEvent) : list (result SseEvent IoError) :=
  match e with
  | EndOk => Ok <$> option_list (flush p).2
  | EndIncomplete => [Err IncompleteUtf8]
  | EndInvalid _ => (Ok <$> more) ++ [Err InvalidUtf8]
  end.

(** A stream that can go on: the bytes kept are the beginning of a
    character. *)
Record streaming (s : SseStream) : Prop := mk_streaming {
  sg_error : pending_error s = None;
  sg_open : terminated s = false;
  sg_parser : parser_ok (parser s);
  sg_tail : utf8_buffer s = [] ∨ utf8_buffer s ≠ [] ∧ decode_one (utf8_buffer s) = UIncomplete;
}.

(** What the poller gets from a state with nothing pending. *)
Definition promised (s : SseStream) (items : list Item) (out : list (result SseEvent IoError)) : Prop :=
  ∀ fuel, (length items + length out < fuel)%nat → collect fuel s = out.

Lemma promised_drain s items out : promised (set_pending s []) items out → promised s items ((Ok <$> pending_events s) ++ out).
Proof. intros H fuel Hf. rw length_app length_fmap in Hf. rw collect_drain; [|lia]. f_equal. apply H. lia. Qed.

Lemma promised_end s :
  streaming s → inner s = [] → pending_events s = [] →
  promised s [] (ending (if is_empty (utf8_buffer s) then EndOk else EndIncomplete) (parser s) []).
Proof.
  intros [E1 E2 _ _] E3 E4 [|fuel] Hf; [simpl in Hf; lia|]. cbn [collect]. unfold poll_next_event. rw E4 E1 E2 E3. cbn [poll_loop].
  unfold poll_stream_end. cbn [utf8_buffer set_inner]. destruct (is_empty (utf8_buffer s)); simpl.
  - destruct (flush (parser s)) as [p [ev|]]; simpl; [|done]. f_equal. apply collect_terminated; simpl; done.
  - f_equal. by apply collect_terminated.
Qed.

Lemma promised_invalid s bytes items p evs buf :
  streaming s → inner s = IChunk bytes :: items → pending_events s = [] →
  process_chunk bytes (set_inner s items) = (set_parsed (set_inner s items) (p, evs) buf, Some InvalidUtf8) →
  promised s (IChunk bytes :: items) ((Ok <$> evs) ++ [Err InvalidUtf8]).
Proof.
  intros [E1 E2 _ _] E3 E4 Ep [|fuel] Hf; [simpl in Hf; lia|]. rw length_app length_fmap in Hf. simpl in Hf.
  cbn [collect]. unfold poll_next_event. rw E4 E1 E2 E3. cbn [poll_loop]. rw Ep. cbn [pending_events set_parsed snd].
  destruct evs as [|ev evs]; simpl; f_equal; [by apply collect_terminated; simpl|]. apply collect_error; simpl in *; try done. lia.
Qed.

(** The decoding of a chunk and of what follows. *)
Lemma utf8_of_chunk buf bytes rest u e t :
  buf ++ bytes = utf8_encode u ++ t → Forall scalar u → utf8_rest e t →
  utf8_of (buf ++ bytes ++ rest) =
  match e with
  | EndInvalid n => (u, EndInvalid n)
  | _ => (u ++ (utf8_of (t ++ rest)).1, (utf8_of (t ++ rest)).2)
  end.
Proof.
  intros Eb Hu Ht. rw assoc Eb -assoc utf8_of_encode //. destruct e as [|n|]; [done| |done].
  destruct Ht as [Hne Hd]. rw (utf8_of_rest (EndInvalid n) (t ++ rest)); [simpl; by rw app_nil_r|].
  split; [by destruct t|]. rw decode_one_more // Hd //.
Qed.

(** A chunk that decodes, and the state it leaves. *)
Lemma chunk_taken s bytes items u e t rest :
  streaming s → inner s = IChunk bytes :: items → short_lines (buffer (parser s) ++ utf8_buffer s ++ bytes ++ rest) →
  utf8_buffer s ++ bytes = utf8_encode u ++ t → Forall scalar u → utf8_rest e t → (∀ n, e ≠ EndInvalid n) →
  let r := feed (utf8_encode u) (parser s) in
  let s1 := set_parsed (set_inner s items) r t in
  streaming s1 ∧ short_lines (buffer r.1 ++ t ++ rest) ∧
  ∀ fuel, collect fuel (set_pending s []) = collect fuel s1.
Proof.
  intros Hs Ei Hlen Et Hu Ht Hok r s1. rewrite ->(app_assoc (utf8_buffer s)), Et, <-app_assoc in Hlen.
  pose proof (process_chunk_spec bytes (set_inner (set_pending s []) items) u e t (sg_parser s Hs) (short_lines_prefix _ _ Hlen) Et Hu Ht) as Hp.
  assert (process_chunk bytes (set_inner (set_pending s []) items) = (s1, None)) as Hp'.
  { destruct e as [|n|]; [|by destruct (Hok n)|]; cbv zeta in Hp; rw Hp; unfold s1, r; by destruct (feed _ _). }
  destruct (feed_leaves _ _ _ (sg_parser s Hs) Hlen) as [Hok1 Hlen1]. fold r in Hok1, Hlen1.
  split_and!; [|done|]; destruct Hs as [E1 E2 E3 E4].
  - split; try done. destruct e as [|n|]; [by left|by destruct (Hok n)|by right].
  - intros fuel. by apply (collect_chunk (set_pending s []) bytes items).
Qed.

(** What follows the first invalid byte in its chunk; [kept] are the bytes of
    an unfinished character before the chunks. *)
Fixpoint after_invalid (kept : ByteStr) (items : list Item) : ByteStr :=
  match items with
  | [] => []
  | IChunk bytes :: items' =>
      let '(u, e) := utf8_of (kept ++ bytes) in
      let left_over := drop (length (utf8_encode u)) (kept ++ bytes) in
      match e with EndInvalid n => drop n left_over | _ => after_invalid left_over items' end
  | _ :: items' => after_invalid kept items'
  end.

Lemma stream_spec items s :
  inner s = items → streaming s → Forall no_error items →
  short_lines (buffer (parser s) ++ utf8_buffer s ++ body items) →
  let '(u, e) := utf8_of (utf8_buffer s ++ body items) in
  let r := feed (utf8_encode u) (parser s) in
  let more := (feed_all (decoded_parts (after_invalid (utf8_buffer s) items)) r.1).2 in
  promised s items ((Ok <$> pending_events s ++ r.2) ++ ending e r.1 more).
Proof.
  revert s. induction items as [|i items IH]; intros s Ei Hs Hn Hlen.
  { rw app_nil_r utf8_of_tail; [|apply (sg_tail s Hs)]. cbv zeta. change (utf8_encode []) with (@nil N).
    rw feed_nil; [|apply (sg_parser s Hs)|by eapply short_lines_prefix]. cbn [fst snd]. rw app_nil_r. apply promised_drain.
    pose proof (promised_end (set_pending s [])) as H. simpl in H.
    destruct (is_empty (utf8_buffer s)); apply H; try done; by destruct Hs; split. }
  apply Forall_cons in Hn as [Hi Hn]. destruct i as [|bytes|]; [| |done].
  - specialize (IH (set_inner (set_pending s []) items) eq_refl). cbn [utf8_buffer set_inner set_pending parser] in IH. change (body (IPending :: items)) with (body items) in *.
    destruct (utf8_of (utf8_buffer s ++ body items)) as [u e]. cbv zeta in *. cbn [after_invalid].
    rw fmap_app -assoc. apply promised_drain. intros [|fuel] Hf; [simpl in Hf; lia|]. cbn [collect].
    unfold poll_next_event. simpl. rw (sg_error s Hs) (sg_open s Hs) Ei. simpl. apply IH; [by destruct Hs; split|done|done|simpl in *; lia].
  - change (body (IChunk bytes :: items)) with (bytes ++ body items) in *. cbn [after_invalid].
    destruct (utf8_of (utf8_buffer s ++ bytes)) as [u1 e1] eqn:E1. apply utf8_of_spec in E1 as (Hu1 & t & Et & Ht).
    rw (utf8_of_chunk _ _ _ u1 e1 t) // Et drop_app_length.
    assert ((∀ n, e1 ≠ EndInvalid n) ∨ ∃ n, e1 = EndInvalid n) as [Hok|[n ->]] by (destruct e1; eauto).
    2:{ destruct (process_chunk_spec bytes (set_inner (set_pending s []) items) u1 (EndInvalid n) t (sg_parser s Hs) (short_lines_prefix _ _ Hlen) Et Hu1 Ht)
          as (p & buf & Hp). cbv zeta. rw fmap_app -assoc. apply promised_drain. cbn [ending]. rw assoc -fmap_app.
        eapply (promised_invalid (set_pending s [])); [by destruct Hs; split|done|done|exact Hp]. }
    destruct (chunk_taken s bytes items u1 e1 t (body items) Hs Ei Hlen Et Hu1 Ht Hok) as (Hs1 & Hb & Hc).
    replace (match e1 with EndInvalid n => (u1, EndInvalid n) | _ => _ end)
      with (u1 ++ (utf8_of (t ++ body items)).1, (utf8_of (t ++ body items)).2) by (destruct e1 as [|n|]; [done|by destruct (Hok n)|done]).
    replace (match e1 with EndInvalid n => drop n t | _ => _ end)
      with (after_invalid t items) by (destruct e1 as [|n|]; [done|by destruct (Hok n)|done]).
    specialize (IH _ (eq_refl : inner (set_parsed (set_inner s items) (feed (utf8_encode u1) (parser s)) t) = items) Hs1 Hn Hb).
    cbn [utf8_buffer set_parsed set_inner parser pending_events] in IH.
    destruct (utf8_of (t ++ body items)) as [u2 e2] eqn:E2. apply utf8_of_spec in E2 as (Hu2 & t2 & Et2 & _). cbn [fst snd].
    assert (short_lines (buffer (parser s) ++ utf8_encode u1 ++ utf8_encode u2)) as Hlen2.
    { apply (short_lines_prefix _ t2). rewrite <-!app_assoc, <-Et2. rewrite ->(app_assoc (utf8_encode u1)), <-Et, <-app_assoc. exact Hlen. }
    rw utf8_encode_app feed_two //; [|apply (sg_parser s Hs)|by eapply valid_not_bom, from_utf8_encode].
    destruct (feed (utf8_encode u1) (parser s)) as [p1 ev1]. cbn [fst snd] in *. destruct (feed (utf8_encode u2) p1) as [p2 ev2]. cbn [fst snd] in *.
    cbv zeta in *. rw fmap_app -assoc. apply promised_drain. intros fuel Hf. rw Hc. apply IH. simpl in Hf. lia.
Qed.

(** C37: a response means the same however its bytes arrive.  For chunks cut
    anywhere, inside characters too, and any polls that had to wait, as long
    as no line has 10 MiB (the parser's limit) and the connection reports no
    error, a consumer gets exactly the events of the text that the bytes
    encode.  If the bytes end well, the last event, if it lacks its blank
    line, follows; if they end inside a character, an error and nothing else.
    If some byte is not UTF-8, the events before it are followed by exactly
    those of the valid parts of the rest of its chunk, then one error, and the
    stream is over: nothing of later chunks is delivered. *)
Theorem sse_stream_delivers items :
  Forall no_error items → short_lines (body items) →
  let '(text, e) := utf8_of (body items) in
  let '(p, events) := feed (utf8_encode text) SseParser_new in
  let more := (feed_all (decoded_parts (after_invalid [] items)) p).2 in
  let out := (Ok <$> events) ++ ending e p more in
  ∀ fuel, (length items + length out < fuel)%nat → collect fuel (SseStream_new items) = out.
Proof.
  intros Hn Hlen. pose proof (stream_spec items (SseStream_new items) eq_refl) as H. simpl in H.
  destruct (utf8_of (body items)) as [u e]. destruct (feed _ _) as [p evs]. apply H; [|done|done].
  split; [done|done|apply parser_new_ok|by left].
Qed.
End Stream.

(** A two-byte character cut in the middle, with a poll that waits, and an
    invalid byte with an event after it in its chunk. *)
Lemma sse_stream_delivers_witness :
  let items := [IChunk (str "data: " ++ [195%N]); IPending; IChunk ([169; 10]%N); IChunk ([10; 255]%N ++ str "data" ++ [10; 10]%N); IChunk (str "data: b")] in
  collect (InnerError := unit) 12 (SseStream_new items) =
    [Ok (mkSseEvent (str "message") [195%N; 169%N] None None); Ok (mkSseEvent (str "message") [] None None); Err InvalidUtf8].
Proof.
  intros items. pose proof (sse_stream_delivers (InnerError := unit) items) as H.
  destruct (utf8_of (body items)) as [text e] eqn:E1. vm_compute in E1. injection E1 as <- <-.
  rw H; [by vm_compute|repeat constructor| |vm_compute; lia].
  apply small_short; [vm_compute; discriminate|apply (bool_decide_eq_true_1 _); vm_compute; reflexivity].
Defined.
